(* ===== verification/_CoqProject ===== *)
-Q . S2P
Prelude.v
Utf8.v
Sanitize.v
Base64.v
Protocol.v
Text.v
ProcessIdentity.v
Speculation.v
EvidenceFs.v
SimKernel.v
RunnerProtocol.v
RunnerRun.v
RunnerOutput.v
RunnerScenario.v
TournamentRecord.v
TournamentStore.v
TournamentOpen.v
TournamentOps.v
SpeculationService.v
SpeculationActor.v
TournamentScenario.v
ActorScenario.v
Lifecycle.v
JournalEvents.v
JournalStorage.v
Finalize.v
JournalScenario.v
OutputRing.v
WaitContains.v
TerminalPrefix.v
SessionOutput.v
OutputScenario.v
Sessions.v
Capabilities.v
SessionScenario.v
ProcessAncestry.v
ChildEnv.v
CreateSession.v
CreateScenario.v
ManagedArtifacts.v
ManagedSlots.v
ManagedRegistry.v
ManagedOps.v
ManagedHistory.v
ManagedValid.v
ManagedRuns.v
ManagedExec.v
ManagedSignals.v
ManagedRetry.v
ManagedRecovery.v
ManagedRemoval.v
ManagedComplete.v
ManagedRecovered.v
ManagedScenario.v
TmuxArgs.v
TmuxCommands.v
TmuxReading.v
TmuxOptions.v
TmuxStore.v
TmuxUserOptions.v
TmuxWait.v
TmuxAttach.v
TmuxRuns.v
TmuxShared.v
TmuxTree.v
CmuxStatus.v
TmuxFormat.v
TmuxScenario.v
Ledger.v
LedgerClient.v
LedgerRuns.v
LedgerSystem.v
LedgerScenario.v
AttachOutput.v
AttachTracking.v
AttachRestore.v
TraceFile.v
TraceReplay.v
TraceSummary.v
TraceScenario.v
