(* ===== verification/Prelude.v ===== *)
(** * A verification of light_terminal

    light_terminal is a terminal multiplexer: a daemon keeps sessions (a shell on a
    pseudo-terminal each), clients attach to them over a socket, and a "speculation" runs two
    candidate commands side by side, keeps the output of the better one and undoes the other.
    This development models the parts of the daemon that decide something (state machines,
    registries, durable records, parsers and encoders) as Gallina functions translated from
    the Rust source, and proves what those parts promise to each other and to the user.

    ** Files and the source they model

    Shared:
    - this file: results and the state-and-error monad [M] with its Hoare triples [triple],
      arithmetic of machine integers, lists, and [scan], the loop of every byte scanner;
    - Utf8.v, Text.v: UTF-8, decimal numbers, splitting and buffered readers as
      Rust's standard library has them.

    Text and the wire (src/src/sanitize.rs, src/src/protocol.rs):
    - Sanitize.v: the strippers of terminal controls; Base64.v: the encodings of bytes, paths
      and argument vectors; Protocol.v: the shared data types with their constructors.

    Sessions (src/src/server.rs, session_lifecycle.rs, process_identity.rs):
    - OutputRing.v, WaitContains.v, TerminalPrefix.v, SessionOutput.v: the output of a session,
      its captures, waiting for text, and the clients attached to it; OutputScenario.v;
    - Sessions.v, Capabilities.v: the registry of sessions with reservations, names, targets
      and the metadata journal, and the input capabilities; SessionScenario.v;
    - ProcessIdentity.v, ProcessAncestry.v, ChildEnv.v, CreateSession.v: who is the parent of a
      new session, what its shell inherits, and the creation itself; CreateScenario.v;
    - Lifecycle.v, JournalEvents.v, JournalStorage.v, Finalize.v: how a session ends, and the
      journal of exits with its writer thread and segments; JournalScenario.v.

    Speculation (speculation.rs, speculation_fs.rs, speculation_registry.rs,
    speculation_runner.rs, speculation_service.rs, speculation_ledger.rs, and the part of
    client.rs that asks for it):
    - Speculation.v: phases and score; EvidenceFs.v: validated directories and atomic JSON
      records; SimKernel.v: an instance of its system calls with scheduled faults;
    - TournamentRecord.v, TournamentStore.v, TournamentOpen.v, TournamentOps.v: the durable
      record of a tournament and the store of 1024 slots; TournamentScenario.v;
    - RunnerProtocol.v, RunnerRun.v, RunnerOutput.v: the runner of a candidate;
      RunnerScenario.v;
    - SpeculationService.v, SpeculationActor.v: the index of tournaments and the actor of one;
      ActorScenario.v;
    - Ledger.v: the ledger in which a client records what it is about to ask for
      (speculation_ledger.rs); LedgerClient.v, LedgerRuns.v: the four operations of a client
      (client.rs) as programs of commands, and what such a program keeps to; LedgerSystem.v:
      all the clients of one directory of ledgers; LedgerScenario.v.

    Managed processes (launch_registry.rs, speculation_linux.rs):
    - ManagedArtifacts.v, ManagedSlots.v: the durable slot of a launched process, the binding
      of its private files, and the table of transitions; ManagedRegistry.v, ManagedOps.v: the
      operations; ManagedHistory.v, ManagedValid.v, ManagedRuns.v: every run keeps the
      invariant; ManagedExec.v, ManagedSignals.v, ManagedRetry.v: what a call does to the
      slots, whom it kills, and retries;
    - ManagedRecovery.v, ManagedRemoval.v, ManagedComplete.v, ManagedRecovered.v: the removal
      of the private directory of a resolved launch; ManagedScenario.v.

    The tmux shim (tmux_compat.rs):
    - TmuxArgs.v, TmuxCommands.v, TmuxReading.v: the scanners of short flags against one
      tokenizer, and the command lines of the tmux commands up to the request they make;
    - TmuxOptions.v, TmuxStore.v, TmuxUserOptions.v: user options with their command lines, the
      store file they are kept in, and the map that they are;
    - TmuxWait.v, TmuxAttach.v, TmuxRuns.v, TmuxShared.v: channels to wait for and leases of
      panes, and every history of the processes that share the store;
    - TmuxTree.v, TmuxFormat.v: the sessions that kill-session plans to end, and formats;
    - CmuxStatus.v: the sink of status pills and the command lines it runs; TmuxScenario.v.

    The attached client (client.rs):
    - AttachOutput.v: what it looks for in the output that it passes on (keyboard protocol,
      alternate screen, damage of the status row) and what it writes when it detaches;
      AttachTracking.v: the scans as events; AttachRestore.v: the terminal afterwards, with runs;
    - TraceFile.v: recording the output of a session as lines of JSON and validating a trace
      for its replay; TraceReplay.v: its theorems; TraceSummary.v: the summary of a trace;
      TraceScenario.v.
    The files named ...Scenario.v evaluate the definitions on concrete inputs and apply each
    theorem that has hypotheses at one of them.

    ** How the source is represented

    Integers are [Z] with the wrap-around, saturation or checked operation of the source
    written out; bytes and characters are [Z]; a [String] is the list of its characters;
    [HashMap]s are [gmap]s; a [Vec] or [VecDeque] is a list.  A method on [&mut self] is a
    function of the monad [M] over the state it changes; [Result] is [result] with the error
    values a caller can tell apart.  What the system answers (files, locks, processes, clocks,
    random numbers) is an environment: a typeclass whose laws are those of the manual pages
    (EvidenceFs.v, JournalStorage.v), a script that is consumed (RunnerRun.v), or a function
    of the time of the call (ManagedRegistry.v, ManagedRecovery.v), so that a theorem that
    says nothing of the answers holds for every failure and crash.  Threads are interleaved
    steps (Finalize.v, where a mutex is held over several), events in any order (SessionOutput.v, Sessions.v, Capabilities.v), or
    an arbitrary change of the shared state between two halves of an operation
    (CreateSession.v).  Third-party code is a parameter: vt100, serde_json, uuid, unicode
    width and segmentation, portable_pty's CommandBuilder.

    ** What the theorems show

    - Durable state: a record file is replaced atomically under every failure
      (EvidenceFs.record_writes_atomic); the store of tournaments agrees with its directory in
      every run (TournamentOps.store_run_invariant) and its writes are compare-and-swaps; the
      registry of managed processes keeps its slots valid, its owners unique and moves along
      its table (ManagedRuns.registry_history_valid), with boundedly many changes.
    - Processes: SIGKILL only reaches the process that a slot records
      (ManagedSignals.cleanup_kills_only_recorded), a tombstone means it is gone; recovery
      removes only what the binding names and temporaries of transactions
      (ManagedRemoval.recovery_removes_only_bound), and completes from wherever it was
      interrupted (ManagedRecovered.recovery_completes) but between the unlinking of a file
      and the receipt for it, where it refuses (ManagedScenario.unlink_without_receipt_is_refused).
    - Sessions: the indexes stay coherent in every history (Sessions.registry_stays_coherent),
      a target means one session, the metadata journal refines an editor history, a capability
      lets through at most its budget, a new session is authorized by its parent.
    - Output: an attached client sees no gap (SessionOutput.attached_client_sees_no_gap), the
      terminal has the size of the smallest client, captures and waits answer as their
      reference definitions do, captured text holds no control character.
    - Endings: no destruction and no signal before the claim is resolved, and no signal after
      the leader was reaped (Finalize.finalize_barrier), every thread that ends a session
      returns, an acknowledged event survives a restart.
    - Clients of a speculation: however many work on a ledger, in any order, with crashes and
      lost answers, no mutation of a generation is sent twice (LedgerSystem.mutations_sent_once)
      and the ledger only advances, unless the file system gives the inode of a replaced
      ledger file to another one that is then written over (LedgerSystem.inode_reused; what
      happens then is LedgerScenario.recycled_inode_sends_twice); a poll ends only when the
      daemon's status does (LedgerRuns.poll_has_no_deadline).
    - The attached client: what it tracks does not depend on how the output is cut
      (AttachTracking.observation_ignores_chunks), and detaching brings the keyboard flags of
      both screens back for output that nests its pushes (AttachRestore.detach_restores_keyboard);
      a recording that keeps the limits of a replay replays to what the session said
      (TraceReplay.recording_replays), an accepted trace keeps the limits, and its summary
      tells what its replay does (TraceSummary.summary_tells_replay).
    - Encodings: base64, argument vectors and frames are exact inverses and unique.
    - The tmux shim: however many processes share the store, its limits hold
      (TmuxRuns.store_limits_kept), user options are a map (TmuxUserOptions), a signal is never
      lost and nothing else wakes a waiter, an attach keeps its pane while it lives
      (TmuxShared); kill-session plans to end exactly the tree it names
      (TmuxTree.session_tree_exact); the scanners of command lines are one tokenizer; the sink
      of pills issues the difference between what cmux acknowledged and what is wanted
      (CmuxStatus.sink_issues_the_difference).
    - Errors of the source that the theorems show: an interrupted rollback that every later
      start refuses (TournamentOps.interrupted_rollback_is_stuck), a winner that cannot be
      recorded (SpeculationService.spawn_failure_selects_unrecordable_winner), an event lost
      after a torn write (JournalStorage.torn_line_swallows_next_event), pushes of keyboard
      flags that detaching does not undo (AttachRestore.early_pop_is_not_undone and
      AttachRestore.push_under_alternate_is_not_undone).

    ** Fuel

    A byte scanner takes one unit of fuel for each byte and advances in every round
    ([scan_fuel_enough]).  The loops of the runner take one unit for each answer that its
    script still holds, each round consuming one, so that they end with the script
    (RunnerRun.receive_argv_fuel_bounded); the reader of a journal segment takes one for each
    byte and read (JournalStorage.load_fuel).  The walk over the ancestors of a client has the
    bound of the source, 64; the walks over the parents of sessions take one unit for each
    session of the snapshot, since no session is visited twice (TmuxOptions, TmuxTree).
    The scans of the attached client take one unit for each index; the loop over the lines of
    a trace takes one for each byte of the file, since each line takes at least one
    (TraceReplay.for_lines_enough).
    A poll of a client has no bound in the source: [poll_loop] is given a number of rounds, the
    theorems hold for every number, and [Polling] is a client that has used them up.
    Everything else is structural.

    ** What is not modelled, and why

    - Input and output around these parts: sockets and the dispatch of requests, the threads
      of the daemon, argument parsing (server.rs, main.rs, paths.rs), and the rest of
      the interactive client (client.rs): raw mode, input, the status row and its views.
    - The launch of a managed process and its gate, descriptors passed between processes,
      bubblewrap, seccomp and cgroups (launch_registry.rs, speculation_linux.rs): their effect
      is in the kernel, of which there is no model here beyond single calls.
    - The pipeline of an actor that drives two runners, and the correlation of owners after a
      restart (speculation_service.rs).
    - The migration of the managed registry from its first schema (launch_registry.rs), and
      of tmux_compat.rs the calls of the cmux program, the
      requests to the daemon and what is printed. *)
From stdpp Require Export base tactics numbers list gmap strings option sorting.
From stdpp Require Export ssreflect.

#[global] Set Default Goal Selector "!".
#[global] Unset Printing Records.
Open Scope Z_scope.

(** ** Results and effects *)

(** Rust's [Result<A, E>]; the error type comes first so that [result E] is a monad. *)
Inductive result (E A : Type) : Type :=
  | Ok (a : A)
  | Err (e : E).
Arguments Ok {E A} a.
Arguments Err {E A} e.

#[global] Instance result_ret {E} : MRet (result E) := λ A a, Ok a.
#[global] Instance result_bind {E} : MBind (result E) := λ A B f m,
  match m with Ok a => f a | Err e => Err e end.
#[global] Instance result_fmap {E} : FMap (result E) := λ A B f m,
  match m with Ok a => Ok (f a) | Err e => Err e end.

#[global] Instance result_eq_dec `{EqDecision E, EqDecision A} : EqDecision (result E A).
Proof. solve_decision. Defined.

(** [Option::ok_or]. *)
Definition ok_or {E A} (o : option A) (e : E) : result E A :=
  match o with Some a => Ok a | None => Err e end.

(** [Result::is_ok]. *)
Definition is_ok {E A} (r : result E A) : bool :=
  match r with Ok _ => true | Err _ => false end.

(** A guard that returns early with [e] when the condition of the source's [if] holds. *)
Definition bail_if {E} (c : bool) (e : E) : result E unit :=
  if c then Err e else Ok tt.

(** A [&mut self] method that may fail: the state survives an error, as it does in Rust. *)
Definition M (St E A : Type) : Type := St → result E A * St.

#[global] Instance M_ret {St E} : MRet (M St E) := λ A a s, (Ok a, s).
#[global] Instance M_bind {St E} : MBind (M St E) := λ A B f m s,
  match m s with
  | (Ok a, s') => f a s'
  | (Err e, s') => (Err e, s')
  end.

Definition get {St E} : M St E St := λ s, (Ok s, s).
Definition put {St E} (s : St) : M St E unit := λ _, (Ok tt, s).
Definition throw {St E A} (e : E) : M St E A := λ s, (Err e, s).
Definition lift {St E A} (r : result E A) : M St E A := λ s, (r, s).

Section result_lemmas.
Context {E A B : Type}.
Implicit Types (m : result E A) (f : A → result E B).

Lemma bind_Ok m f b : (m ≫= f) = Ok b ↔ ∃ a, m = Ok a ∧ f a = Ok b.
Proof. destruct m; simpl; naive_solver. Qed.

Lemma bind_Err m f e :
  (m ≫= f) = Err e ↔ m = Err e ∨ ∃ a, m = Ok a ∧ f a = Err e.
Proof. destruct m; simpl; naive_solver. Qed.

Lemma ok_or_Ok (o : option A) (e : E) a : ok_or o e = Ok a ↔ o = Some a.
Proof. destruct o; simpl; naive_solver. Qed.

Lemma bail_if_Ok (c : bool) (e : E) u : bail_if c e = Ok u ↔ c = false.
Proof. destruct c, u; simpl; naive_solver. Qed.

Lemma bail_if_Err (c : bool) (e e' : E) : bail_if c e = Err e' ↔ c = true ∧ e' = e.
Proof. destruct c; simpl; naive_solver. Qed.

Lemma is_ok_spec m : is_ok m = true ↔ ∃ a, m = Ok a.
Proof. destruct m; simpl; naive_solver. Qed.

(** Every run of a bind either ran both parts or stopped at the first error. *)
Lemma M_bind_inv {St} (m : M St E A) (f : A → M St E B) s r s' :
  (m ≫= f) s = (r, s') →
  (∃ a s1, m s = (Ok a, s1) ∧ f a s1 = (r, s')) ∨ (∃ e, m s = (Err e, s') ∧ r = Err e).
Proof. unfold mbind, M_bind. destruct (m s) as [[]]; [eauto|]. intros [= <- <-]. eauto. Qed.

Lemma M_bind_Ok {St} (m : M St E A) (f : A → M St E B) s b s' :
  (m ≫= f) s = (Ok b, s') ↔ ∃ a s1, m s = (Ok a, s1) ∧ f a s1 = (Ok b, s').
Proof. unfold mbind, M_bind. destruct (m s) as [[]]; naive_solver. Qed.

Lemma M_bind_Err {St} (m : M St E A) (f : A → M St E B) s e s' :
  (m ≫= f) s = (Err e, s') ↔
  m s = (Err e, s') ∨ ∃ a s1, m s = (Ok a, s1) ∧ f a s1 = (Err e, s').
Proof. unfold mbind, M_bind. destruct (m s) as [[]]; naive_solver. Qed.
End result_lemmas.

(** ** Triples for stateful code

    [triple I P m Q]: from a state of [I] and [P], [m] keeps [I] whatever it answers, and
    [Q] holds of what it returns. *)
Definition triple {St E A} (I P : St → Prop) (m : M St E A) (Q : A → St → Prop) : Prop :=
  ∀ s, I s → P s → match m s with (Ok a, s') => I s' ∧ Q a s' | (Err _, s') => I s' end.

Section triples.
Context {St E : Type} (I : St → Prop).

Lemma triple_bind {A B} P (m : M St E A) Q (f : A → M St E B) R :
  triple I P m Q → (∀ a, triple I (Q a) (f a) R) → triple I P (m ≫= f) R.
Proof.
  intros Hm Hf s Hs HP. specialize (Hm s Hs HP). unfold mbind, M_bind.
  destruct (m s) as [[a|e] s']; [|done]. destruct Hm as [Hs' HQ]. by apply Hf.
Qed.

Lemma triple_ret {A} (P : St → Prop) (a : A) (Q : A → St → Prop) :
  (∀ s, I s → P s → Q a s) → triple I P (mret a : M St E A) Q.
Proof. intros H s Hs HP. split; [done|by apply H]. Qed.

Lemma triple_lift {A} (P : St → Prop) (r : result E A) (Q : A → St → Prop) :
  (∀ a s, r = Ok a → I s → P s → Q a s) → triple I P (lift r) Q.
Proof. intros H s Hs HP. unfold lift. destruct r; [|done]. split; [done|by apply H]. Qed.

Lemma triple_weaken {A} (P P' : St → Prop) (m : M St E A) (Q Q' : A → St → Prop) :
  (∀ s, I s → P s → P' s) → (∀ a s, I s → Q a s → Q' a s) → triple I P' m Q → triple I P m Q'.
Proof.
  intros HP HQ Hm s Hs Hp. specialize (Hm s Hs (HP s Hs Hp)).
  destruct (m s) as [[a|e] s']; [|done]. destruct Hm. split; [done|by apply HQ].
Qed.

Lemma triple_pure {A} (φ : Prop) (P : St → Prop) (m : M St E A) Q :
  (∀ s, P s → φ) → (φ → triple I P m Q) → triple I P m Q.
Proof. intros H Hm s Hs HP. by apply Hm; [apply (H s)|..]. Qed.
End triples.

(** ** Machine integers *)

Definition u8_max : Z := 255.
Definition u16_max : Z := 65535.
Definition u32_max : Z := 4294967295.
Definition u64_max : Z := 18446744073709551615.
Definition usize_max : Z := u64_max.

Definition is_u8 (x : Z) : Prop := 0 ≤ x ≤ u8_max.
Definition is_u64 (x : Z) : Prop := 0 ≤ x ≤ u64_max.

(** [uN::checked_add] and [uN::saturating_add] for an unsigned maximum. *)
Definition checked_add (max a b : Z) : option Z :=
  if bool_decide (a + b ≤ max) then Some (a + b) else None.
Definition saturating_add (max a b : Z) : Z := Z.min max (a + b).
Definition saturating_sub (a b : Z) : Z := Z.max 0 (a - b).

Lemma checked_add_Some max a b c :
  checked_add max a b = Some c ↔ c = a + b ∧ a + b ≤ max.
Proof. unfold checked_add. case_bool_decide; naive_solver. Qed.

(** A test that holds of every number below [n], checked by running it on each. *)
Lemma forall_below (n : Z) (P : Z → bool) :
  forallb P (seqZ 0 n) = true → ∀ b, 0 ≤ b < n → P b = true.
Proof. intros H b Hb. rewrite forallb_forall in H. apply H, list_elem_of_In, elem_of_seqZ. lia. Qed.

(** The bit operations of the source on values whose bits do not overlap, as arithmetic. *)
Lemma land_shiftl_low a b k : 0 ≤ k → 0 ≤ b < 2 ^ k → Z.land (Z.shiftl a k) b = 0.
Proof.
  intros Hk Hb. apply Z.bits_inj'. intros n Hn. rewrite Z.land_spec Z.bits_0 Z.shiftl_spec //.
  destruct (decide (n < k)).
  - by rewrite (Z.testbit_neg_r a) //; lia.
  - rewrite -(Z.mod_small b (2 ^ k)) // Z.mod_pow2_bits_high ?andb_false_r //. lia.
Qed.

Lemma lor_shiftl_add a b k : 0 ≤ k → 0 ≤ b < 2 ^ k → Z.lor (Z.shiftl a k) b = a * 2 ^ k + b.
Proof.
  intros Hk Hb. pose proof (land_shiftl_low a b k Hk Hb) as Hland.
  by rewrite -(Z.shiftl_mul_pow2 a k) // -Z.lxor_lor // Z.add_nocarry_lxor.
Qed.

Lemma land_mod a k : 0 ≤ k → Z.land a (2 ^ k - 1) = a mod 2 ^ k.
Proof. intros Hk. by rewrite -Z.land_ones // Z.ones_equiv. Qed.

(** ** Booleans *)

Lemma orb_false (a b : bool) : a || b = false ↔ a = false ∧ b = false.
Proof. destruct a, b; naive_solver. Qed.
Lemma andb_true (a b : bool) : a && b = true ↔ a = true ∧ b = true.
Proof. destruct a, b; naive_solver. Qed.

(** [Option::is_some_and], [is_none_or] and [is_some]. *)
Definition is_some_and {A} (o : option A) (p : A → bool) : bool :=
  match o with Some a => p a | None => false end.
Definition is_none_or {A} (o : option A) (p : A → bool) : bool :=
  match o with Some a => p a | None => true end.
Definition is_some {A} (o : option A) : bool := match o with Some _ => true | None => false end.

(** ** Automation *)

Create HintDb lterm.
#[export] Hint Resolve Forall_nil_2 Forall_app_2 : lterm.

(** Splits the binds, guards and boolean conjunctions of a successful run. *)
Ltac inv_ok :=
  repeat match goal with
  | H : (_ ≫= _) = Ok _ |- _ => apply bind_Ok in H as (? & ? & ?)
  | H : bail_if _ _ = Ok _ |- _ => apply bail_if_Ok in H
  | H : ok_or _ _ = Ok _ |- _ => apply ok_or_Ok in H
  | H : checked_add _ _ _ = Some _ |- _ => apply checked_add_Some in H as [??]
  | H : _ || _ = false |- _ => apply orb_false in H as [??]
  | H : _ && _ = true |- _ => apply andb_true in H as [??]
  | H : negb _ = false |- _ => apply negb_false_iff in H
  | H : negb _ = true |- _ => apply negb_true_iff in H
  | H : bool_decide _ = true |- _ => apply bool_decide_eq_true in H
  | H : bool_decide _ = false |- _ => apply bool_decide_eq_false in H
  end.

(** ** Lists *)

Section lists.
Context {A : Type}.
Implicit Types (l : list A).

(** [iter().position(p)]. *)
Fixpoint position (p : A → bool) (l : list A) : option nat :=
  match l with
  | [] => None
  | x :: l => if p x then Some 0%nat else S <$> position p l
  end.

Lemma position_Some p l i :
  position p l = Some i ↔
  (∃ x, l !! i = Some x ∧ p x = true) ∧
  ∀ j x, (j < i)%nat → l !! j = Some x → p x = false.
Proof.
  revert i. induction l as [|x l IH]; intros i; simpl.
  { split; [done|]. intros [(y & Hy & _) _]. done. }
  destruct (p x) eqn:Hx.
  - split.
    + intros [= <-]. split; [by exists x|]. intros j y Hj. lia.
    + intros [(y & Hy & Hpy) Hlt]. destruct i as [|i]; [done|].
      specialize (Hlt 0%nat x ltac:(lia) eq_refl). congruence.
  - rewrite fmap_Some. split.
    + intros (k & Hk & ->). apply IH in Hk as [(y & Hy & Hpy) Hlt].
      split; [by exists y|]. intros [|j] z Hj Hz; simpl in *; [congruence|].
      apply (Hlt j z); [lia|done].
    + intros [(y & Hy & Hpy) Hlt]. destruct i as [|i]; simpl in *; [congruence|].
      exists i. split; [|done]. apply IH. split; [by exists y|].
      intros j z Hj Hz. apply (Hlt (S j) z); [lia|done].
Qed.

Lemma position_None p l : position p l = None ↔ ∀ x, x ∈ l → p x = false.
Proof.
  induction l as [|x l IH]; simpl.
  { split; [|done]. intros _ x Hx. inversion Hx. }
  destruct (p x) eqn:Hx.
  - split; [done|]. intros H. specialize (H x (list_elem_of_here _ _)). congruence.
  - rewrite fmap_None IH. split.
    + intros H y [->|Hy]%elem_of_cons; [done|by apply H].
    + intros H y Hy. apply H. by right.
Qed.

(** [starts_with] on slices: [is_prefix current next]. *)
Fixpoint is_prefix `{EqDecision A} (p l : list A) : bool :=
  match p, l with
  | [], _ => true
  | x :: p, y :: l => bool_decide (x = y) && is_prefix p l
  | _ :: _, [] => false
  end.

Lemma is_prefix_spec `{EqDecision A} p l : is_prefix p l = true ↔ p `prefix_of` l.
Proof.
  revert l. induction p as [|x p IH]; intros [|y l]; simpl.
  - split; [intros; apply prefix_nil|done].
  - split; [intros; apply prefix_nil|done].
  - split; [done|]. by intros ?%prefix_nil_inv.
  - rewrite andb_true IH bool_decide_eq_true. split.
    + intros [-> ?]. by apply prefix_cons.
    + intros H. split; [by eapply prefix_cons_inv_1|by eapply prefix_cons_inv_2].
Qed.
End lists.

(** [retain] and [filter] with a boolean test, on sorted lists and lists without duplicates. *)
Lemma filter_sublist {A} (p : A → bool) (l : list A) : List.filter p l `sublist_of` l.
Proof. induction l as [|x l IH]; simpl; [done|]. destruct (p x); by constructor. Qed.

Lemma sublist_map {A B} (f : A → B) (l k : list A) : l `sublist_of` k → f <$> l `sublist_of` f <$> k.
Proof. induction 1; by constructor. Qed.

Lemma elem_of_filter_bool {A} (p : A → bool) (l : list A) x :
  x ∈ List.filter p l ↔ x ∈ l ∧ p x = true.
Proof. by rewrite !list_elem_of_In List.filter_In. Qed.

(** Keys that are not repeated determine the elements. *)
Lemma NoDup_key_inj {A K} (key : A → K) l x y :
  NoDup (key <$> l) → x ∈ l → y ∈ l → key x = key y → x = y.
Proof.
  induction l as [|a l IH]; [by intros _ ?%elem_of_nil|]. intros [Ha Hnd]%NoDup_cons.
  rewrite !elem_of_cons. intros [->|Hx] [->|Hy] Hk; [done| | |by apply IH].
  - destruct Ha. rewrite Hk. by apply list_elem_of_fmap_2.
  - destruct Ha. rewrite -Hk. by apply list_elem_of_fmap_2.
Qed.

Lemma StronglySorted_sublist {A} (R : relation A) l k :
  l `sublist_of` k → StronglySorted R k → StronglySorted R l.
Proof.
  induction 1 as [|x l k Hs IH|x l k Hs IH]; [done|..]; intros [Hx Hk]%StronglySorted_cons; [|by apply IH].
  apply StronglySorted_cons. split; [|by apply IH]. rewrite !Forall_forall in Hx |- *.
  intros y Hy. apply Hx. by eapply elem_of_sublist.
Qed.

(** Induction on the length of a list, for loops that advance by more than one element. *)
Lemma list_len_ind {A} (P : list A → Prop) :
  (∀ l, (∀ l', (length l' < length l)%nat → P l') → P l) → ∀ l, P l.
Proof.
  intros H l. remember (length l) as n eqn:Hn.
  revert l Hn. induction (lt_wf n) as [n _ IH]. intros l ->.
  apply H. intros l' Hl'. by eapply IH.
Qed.

(** ** Scanning loops

    The scanners of the source are [while index < bytes.len()] loops whose body either
    advances the index or leaves the loop.  [scan] is that loop: the body sees the bytes
    from the index on and the mutable locals, and says how far to advance. *)

Inductive iteration (St : Type) : Type :=
  | Continue (s : St) (n : nat)
  | Break (s : St).
Arguments Continue {St} s n.
Arguments Break {St} s.

Section scan.
Context {A St : Type} (body : St → list A → iteration St).

Fixpoint scan_fuel (fuel : nat) (bs : list A) (s : St) : St :=
  match fuel, bs with
  | S fuel, _ :: _ =>
    match body s bs with
    | Continue s n => scan_fuel fuel (drop n bs) s
    | Break s => s
    end
  | _, _ => s
  end.

(** Each round advances, so one unit of fuel per element is enough. *)
Definition scan (bs : list A) (s : St) : St := scan_fuel (length bs) bs s.

Definition advances : Prop := ∀ s bs s' n, body s bs = Continue s' n → (1 ≤ n)%nat.

Context (Hadv : advances).

Lemma scan_fuel_enough fuel bs s :
  (length bs ≤ fuel)%nat → scan_fuel fuel bs s = scan bs s.
Proof using Hadv.
  unfold scan. revert bs s. induction fuel as [fuel IH] using lt_wf_ind. intros bs s Hlen.
  destruct bs as [|b bs]; [by destruct fuel|].
  destruct fuel as [|fuel]; simpl in Hlen; [lia|]. simpl.
  destruct (body s (b :: bs)) as [s' n|s'] eqn:Hb; [|done].
  apply Hadv in Hb.
  assert (length (drop n (b :: bs)) ≤ length bs)%nat.
  { rewrite length_drop. simpl. lia. }
  rewrite (IH fuel) //; [|lia..].
  destruct (decide (fuel = length bs)) as [->|]; [rewrite IH //; lia|].
  symmetry. apply IH; lia.
Qed.

(** The unfolding equation of the loop. *)
Lemma scan_cons b bs s :
  scan (b :: bs) s =
  match body s (b :: bs) with
  | Continue s' n => scan (drop n (b :: bs)) s'
  | Break s' => s'
  end.
Proof using Hadv.
  unfold scan at 1. cbn [length scan_fuel].
  destruct (body s (b :: bs)) as [s' n|s'] eqn:Hb; [|done].
  apply scan_fuel_enough. apply Hadv in Hb. rewrite length_drop. simpl. lia.
Qed.

(** Loop invariant rule. *)
Lemma scan_inv (I : St → Prop) bs s :
  (∀ s b bs s', I s → body s (b :: bs) = Break s' → I s') →
  (∀ s b bs s' n, I s → body s (b :: bs) = Continue s' n → I s') →
  I s → I (scan bs s).
Proof using Hadv.
  intros Hbr Hco. revert s. induction bs as [bs IH] using list_len_ind. intros s Hs.
  destruct bs as [|b bs]; [done|]. rewrite scan_cons.
  destruct (body s (b :: bs)) as [s' n|s'] eqn:Hb; [|by eapply Hbr].
  apply IH; [|by eapply Hco]. apply Hadv in Hb. rewrite length_drop. simpl. lia.
Qed.
End scan.
