(* ===== verification/Utf8.v ===== *)
(** UTF-8 as Rust's standard library defines it, and the bounded decoder of
    [sanitize.rs].

    A Rust [char] is a Unicode scalar value, here its code point in [Z]; a [str] is the
    list of its [char]s; [as_bytes] is [utf8].  Bytes are [Z] in 0..255. *)
From S2P Require Import Prelude.

Abbreviation char := Z (only parsing).
Abbreviation byte := Z (only parsing).
Abbreviation str := (list Z) (only parsing).

(** A literal of the source as a [str]. *)
Definition lit (s : string) : str := (λ a, Z.of_nat (Ascii.nat_of_ascii a)) <$> String.list_ascii_of_string s.

(** The range test of a [lo..=hi] pattern. *)
Definition within (lo hi x : Z) : bool := (lo <=? x) && (x <=? hi).

Definition is_char (c : char) : bool :=
  within 0 0xd7ff c || within 0xe000 0x10ffff c.

(** [char::encode_utf8]. *)
Definition encode (c : char) : list byte :=
  if c <? 0x80 then [c]
  else if c <? 0x800 then [0xc0 + c / 64; 0x80 + c mod 64]
  else if c <? 0x10000 then
    [0xe0 + c / 4096; 0x80 + c / 64 mod 64; 0x80 + c mod 64]
  else
    [0xf0 + c / 262144; 0x80 + c / 4096 mod 64; 0x80 + c / 64 mod 64; 0x80 + c mod 64].

(** [str::as_bytes]. *)
Definition utf8 (s : str) : list byte := mjoin (encode <$> s).

(** [str::len] counts bytes. *)
Definition str_len (s : str) : Z := Z.of_nat (length (utf8 s)).

Definition is_cont (b : byte) : bool := within 0x80 0xbf b.
Definition cont_bits (b : byte) : Z := b - 0x80.

(** The well-formed three- and four-byte sequences (no overlong forms, no surrogates,
    nothing above U+10FFFF). *)
Definition wf3 (b0 b1 b2 : byte) : bool :=
  ((b0 =? 0xe0) && within 0xa0 0xbf b1 || within 0xe1 0xec b0 && is_cont b1
   || (b0 =? 0xed) && within 0x80 0x9f b1 || within 0xee 0xef b0 && is_cont b1)
  && is_cont b2.
Definition wf4 (b0 b1 b2 b3 : byte) : bool :=
  ((b0 =? 0xf0) && within 0x90 0xbf b1 || within 0xf1 0xf3 b0 && is_cont b1
   || (b0 =? 0xf4) && within 0x80 0x8f b1) && is_cont b2 && is_cont b3.

(** [std::str::from_utf8]: the well-formed byte sequences of the Unicode standard. *)
Fixpoint from_utf8 (bs : list byte) : option str :=
  match bs with
  | [] => Some []
  | b0 :: r0 =>
    if within 0 0x7f b0 then cons b0 <$> from_utf8 r0
    else match r0 with
    | [] => None
    | b1 :: r1 =>
      if within 0xc2 0xdf b0 && is_cont b1 then
        cons ((b0 - 0xc0) * 64 + cont_bits b1) <$> from_utf8 r1
      else match r1 with
      | [] => None
      | b2 :: r2 =>
        if wf3 b0 b1 b2 then
          cons ((b0 - 0xe0) * 4096 + cont_bits b1 * 64 + cont_bits b2) <$> from_utf8 r2
        else match r2 with
        | [] => None
        | b3 :: r3 =>
          if wf4 b0 b1 b2 b3 then
            cons ((b0 - 0xf0) * 262144 + cont_bits b1 * 4096
                  + cont_bits b2 * 64 + cont_bits b3) <$> from_utf8 r3
          else None
        end
      end
    end
  end.

(** [utf8_char_width]: the length announced by a lead byte. *)
Definition utf8_char_width (b : byte) : option nat :=
  if within 0x00 0x7f b then Some 1%nat
  else if within 0xc2 0xdf b then Some 2%nat
  else if within 0xe0 0xef b then Some 3%nat
  else if within 0xf0 0xf4 b then Some 4%nat
  else None.

(** [decode_utf8_char]: the first character of [bytes] and its width. *)
Definition decode_utf8_char (bytes : list byte) : option (char * nat) :=
  first ← head bytes;
  width ← utf8_char_width first;
  if (length bytes <? width)%nat then None else
  text ← from_utf8 (take width bytes);
  ch ← head text;
  Some (ch, width).

(** ** Lemmas *)

Ltac utf8_unfold :=
  unfold is_char, wf3, wf4, is_cont, cont_bits in *; unfold within in *.

(** [lia] over quotients and remainders. *)
Ltac dlia := zify; Z.to_euclidean_division_equations; lia.

(** Case analysis on the tests of the decoder, leaving linear arithmetic. *)
Ltac split_tests :=
  repeat match goal with
  | |- context [if ?b then _ else _] => let E := fresh "E" in destruct b eqn:E
  | H : context [if ?b then _ else _] |- _ => let E := fresh "E" in destruct b eqn:E
  end.

Lemma encode_length c : (1 ≤ length (encode c) ≤ 4)%nat.
Proof. unfold encode. split_tests; simpl; lia. Qed.

Lemma utf8_cons c s : utf8 (c :: s) = encode c ++ utf8 s.
Proof. done. Qed.

Lemma utf8_app s1 s2 : utf8 (s1 ++ s2) = utf8 s1 ++ utf8 s2.
Proof. unfold utf8. by rewrite fmap_app join_app. Qed.

(** A scalar value is read back from its encoding. *)
Lemma from_utf8_encode c rest :
  is_char c = true → from_utf8 (encode c ++ rest) = cons c <$> from_utf8 rest.
Proof.
  intros Hc. unfold encode.
  destruct (c <? 0x80) eqn:E1; [|destruct (c <? 0x800) eqn:E2;
    [|destruct (c <? 0x10000) eqn:E3]]; simpl; utf8_unfold.
  all: repeat match goal with
  | |- context [if ?b then _ else _] =>
    first [replace b with true by dlia | replace b with false by dlia]
  end.
  all: match goal with |- cons ?x <$> _ = _ => by replace x with c by dlia end.
Qed.

(** [str::from_utf8] inverts [as_bytes] on every string. *)
Lemma from_utf8_utf8 s : Forall (λ c, is_char c = true) s → from_utf8 (utf8 s) = Some s.
Proof.
  induction 1 as [|c s Hc _ IH]; [done|].
  by rewrite utf8_cons from_utf8_encode // IH.
Qed.

(** The inverse direction for each announced width. *)
Lemma encode_2 b0 b1 :
  within 0xc2 0xdf b0 = true → is_cont b1 = true →
  let c := (b0 - 0xc0) * 64 + cont_bits b1 in is_char c = true ∧ encode c = [b0; b1].
Proof.
  intros H0 H1 c. unfold encode. utf8_unfold.
  replace (c <? 0x80) with false by lia. replace (c <? 0x800) with true by lia.
  split; [lia|]. rewrite (_ : c / 64 = b0 - 0xc0); [|dlia].
  rewrite (_ : c mod 64 = b1 - 0x80); [|dlia]. repeat f_equal; lia.
Qed.

Lemma encode_3 b0 b1 b2 :
  wf3 b0 b1 b2 = true →
  let c := (b0 - 0xe0) * 4096 + cont_bits b1 * 64 + cont_bits b2 in
  is_char c = true ∧ encode c = [b0; b1; b2].
Proof.
  intros H c. unfold encode. utf8_unfold.
  replace (c <? 0x80) with false by lia. replace (c <? 0x800) with false by lia.
  replace (c <? 0x10000) with true by lia. split; [lia|].
  rewrite (_ : c / 4096 = b0 - 0xe0); [|dlia]. rewrite (_ : c / 64 mod 64 = b1 - 0x80); [|dlia].
  rewrite (_ : c mod 64 = b2 - 0x80); [|dlia]. repeat f_equal; lia.
Qed.

Lemma encode_4 b0 b1 b2 b3 :
  wf4 b0 b1 b2 b3 = true →
  let c := (b0 - 0xf0) * 262144 + cont_bits b1 * 4096 + cont_bits b2 * 64 + cont_bits b3 in
  is_char c = true ∧ encode c = [b0; b1; b2; b3].
Proof.
  intros H c. unfold encode. utf8_unfold.
  replace (c <? 0x80) with false by lia. replace (c <? 0x800) with false by lia.
  replace (c <? 0x10000) with false by lia. split; [lia|].
  rewrite (_ : c / 262144 = b0 - 0xf0); [|dlia].
  rewrite (_ : c / 4096 mod 64 = b1 - 0x80); [|dlia].
  rewrite (_ : c / 64 mod 64 = b2 - 0x80); [|dlia].
  rewrite (_ : c mod 64 = b3 - 0x80); [|dlia]. repeat f_equal; lia.
Qed.

(** A decoded character is a scalar value whose encoding is exactly the bytes read. *)
Lemma decode_utf8_char_sound bs c n :
  decode_utf8_char bs = Some (c, n) →
  is_char c = true ∧ take n bs = encode c ∧ length (encode c) = n ∧ (n ≤ length bs)%nat.
Proof.
  unfold decode_utf8_char. destruct bs as [|b0 bs]; [done|]; simpl.
  unfold utf8_char_width.
  destruct (within 0 0x7f b0) eqn:E1; [|destruct (within 0xc2 0xdf b0) eqn:E2;
    [|destruct (within 0xe0 0xef b0) eqn:E3; [|destruct (within 0xf0 0xf4 b0) eqn:E4;
    [|done]]]]; simpl.
  - rewrite E1. simpl. intros [= -> <-]. unfold encode. utf8_unfold.
    replace (c <? 0x80) with true by lia. repeat split; simpl; lia || done.
  - destruct bs as [|b1 bs]; [done|]; simpl. rewrite E1 E2.
    destruct (is_cont b1) eqn:Ec; [|done]. simpl. intros [= <- <-].
    destruct (encode_2 b0 b1 E2 Ec) as [? ->]. repeat split; simpl; lia || done.
  - destruct bs as [|b1 [|b2 bs]]; [done..|]; simpl. rewrite E1 E2.
    destruct (wf3 b0 b1 b2) eqn:Ec; [|done]. simpl. intros [= <- <-].
    destruct (encode_3 b0 b1 b2 Ec) as [? ->]. repeat split; simpl; lia || done.
  - destruct bs as [|b1 [|b2 [|b3 bs]]]; [done..|]; simpl. rewrite E1 E2.
    destruct (wf3 b0 b1 b2) eqn:Ec3; [utf8_unfold; lia|].
    destruct (wf4 b0 b1 b2 b3) eqn:Ec; [|done]. simpl. intros [= <- <-].
    destruct (encode_4 b0 b1 b2 b3 Ec) as [? ->]. repeat split; simpl; lia || done.
Qed.

(** Every character decodes from its encoding, whatever follows. *)
Lemma decode_utf8_char_encode c rest :
  is_char c = true → decode_utf8_char (encode c ++ rest) = Some (c, length (encode c)).
Proof.
  intros Hc. unfold decode_utf8_char.
  assert (∃ b0, head (encode c ++ rest) = Some b0
                ∧ utf8_char_width b0 = Some (length (encode c))) as (b0 & -> & Hw).
  { unfold encode, utf8_char_width. utf8_unfold.
    split_tests; simpl; eexists; (split; [reflexivity|]); split_tests; try done; dlia. }
  simpl. rewrite Hw. simpl. rewrite length_app.
  destruct (Nat.ltb_spec (length (encode c) + length rest) (length (encode c))); [lia|].
  rewrite take_app_length -(app_nil_r (encode c)) from_utf8_encode //=.
Qed.

(** The decoder looks at no more than the announced width. *)
Lemma decode_utf8_char_app b0 bs rest w :
  head bs = Some b0 → utf8_char_width b0 = Some w → (w ≤ length bs)%nat →
  decode_utf8_char (bs ++ rest) = decode_utf8_char bs.
Proof.
  intros Hb Hw Hlen. unfold decode_utf8_char.
  destruct bs as [|b bs]; [done|]. injection Hb as ->. cbn [head app mbind option_bind].
  rewrite Hw. cbn [mbind option_bind].
  rewrite -/(app _ _) app_comm_cons length_app.
  destruct (Nat.ltb_spec (length (b0 :: bs) + length rest) w); [lia|].
  destruct (Nat.ltb_spec (length (b0 :: bs)) w); [lia|].
  by rewrite take_app_le.
Qed.

Lemma utf8_char_width_range b w : utf8_char_width b = Some w → (1 ≤ w ≤ 4)%nat.
Proof. unfold utf8_char_width. split_tests; naive_solver lia. Qed.

(** A byte that announces no width decodes to nothing. *)
Lemma decode_utf8_char_no_width b bs :
  utf8_char_width b = None → decode_utf8_char (b :: bs) = None.
Proof. intros Hw. unfold decode_utf8_char. simpl. by rewrite Hw. Qed.

(** Too few bytes for the announced width decode to nothing. *)
Lemma decode_utf8_char_short b bs w :
  utf8_char_width b = Some w → (length (b :: bs) < w)%nat → decode_utf8_char (b :: bs) = None.
Proof.
  intros Hw Hlt. unfold decode_utf8_char. cbn [head mbind option_bind]. rewrite Hw.
  cbn [mbind option_bind]. by destruct (Nat.ltb_spec (length (b :: bs)) w); [|lia].
Qed.

Lemma encode_ascii c : 0 ≤ c < 0x80 → encode c = [c].
Proof. intros. unfold encode. by replace (c <? 0x80) with true by lia. Qed.

Lemma utf8_ascii s : Forall (λ c, 0 ≤ c < 0x80) s → utf8 s = s.
Proof. induction 1 as [|c s Hc _ IH]; [done|]. by rewrite utf8_cons encode_ascii // IH. Qed.

(** What [from_utf8] accepts is the encoding of what it returns. *)
Lemma from_utf8_sound bs s : from_utf8 bs = Some s → utf8 s = bs.
Proof.
  revert s. induction bs as [bs IH] using list_len_ind. intros s H.
  destruct bs as [|b0 r0]; [by injection H as <-|]. simpl in H.
  assert (∀ c r, (length r ≤ length r0)%nat →
    cons c <$> from_utf8 r = Some s → utf8 s = encode c ++ r) as Hstep.
  { intros c r Hlen (t & Ht & ->)%fmap_Some. rewrite utf8_cons. f_equal. apply IH; [simpl; lia|done]. }
  destruct (within 0 0x7f b0) eqn:E0.
  { apply Hstep in H as ->; [|done..]. rewrite encode_ascii //. unfold within in E0. lia. }
  destruct r0 as [|b1 r1]; [done|].
  destruct (within 0xc2 0xdf b0 && is_cont b1) eqn:E1.
  { apply Hstep in H as ->; [|simpl; lia]. utf8_unfold. unfold encode.
    rewrite (_ : (_ <? 0x80) = false); [|lia]. rewrite (_ : (_ <? 0x800) = true); [|lia].
    cbn [app]. f_equal; [dlia|]. f_equal. dlia. }
  destruct r1 as [|b2 r2]; [done|].
  destruct (wf3 b0 b1 b2) eqn:E2.
  { apply Hstep in H as ->; [|simpl; lia]. utf8_unfold. unfold encode.
    rewrite (_ : (_ <? 0x80) = false); [|lia]. rewrite (_ : (_ <? 0x800) = false); [|lia].
    rewrite (_ : (_ <? 0x10000) = true); [|lia].
    cbn [app]. f_equal; [dlia|]. f_equal; [dlia|]. f_equal. dlia. }
  destruct r2 as [|b3 r3]; [done|].
  destruct (wf4 b0 b1 b2 b3) eqn:E3; [|done].
  apply Hstep in H as ->; [|simpl; lia]. utf8_unfold. unfold encode.
  rewrite (_ : (_ <? 0x80) = false); [|lia]. rewrite (_ : (_ <? 0x800) = false); [|lia].
  rewrite (_ : (_ <? 0x10000) = false); [|lia].
  cbn [app]. f_equal; [dlia|]. f_equal; [dlia|]. f_equal; [dlia|]. f_equal. dlia.
Qed.
