(* ===== verification/Sanitize.v ===== *)
(** [src/sanitize.rs]: the terminal-control strippers used by every report surface.

    Two byte scanners share one escape-sequence automaton ([EscapeState]):
    [terminal_capture_from_state], which is incremental and keeps an incomplete UTF-8
    tail between calls, and [sanitize_status_command_line], which reads one line and may
    let complete SGR sequences through.  [truncate_status_line_ansi] cuts such a line to
    a display width.

    The theorems: captured text holds no control character but tab, LF and CR; text
    without controls is reproduced exactly; capturing a stream chunk by chunk gives what
    capturing it whole gives; a status line matches the grammar of printable characters
    and bounded SGR sequences; truncation respects the width and never cuts a sequence. *)
From S2P Require Import Prelude Utf8.

(** ** The automaton *)

Inductive EscapeState : Set :=
  | Ground
  | Esc
  | Csi
  | StringSt
  | StringEsc
  | Charset.

#[global] Instance EscapeState_eq_dec : EqDecision EscapeState.
Proof. solve_decision. Defined.

(** A match arm [x | y | z]. *)
Definition one_of (l : list Z) (x : Z) : bool := existsb (Z.eqb x) l.

Definition is_c0_or_c1 (ch : char) : bool :=
  within 0x0000 0x001f ch || within 0x007f 0x009f ch.

Definition strip_controls (value : str) : str :=
  List.filter (λ ch, negb (is_c0_or_c1 ch)) value.

Definition osc_field (value : str) : str :=
  omap (λ ch,
    if one_of [0x0a; 0x0d; 0x09; 0x3b] ch then Some 0x20
    else if is_c0_or_c1 ch then None
    else Some ch) value.

Record TerminalCaptureState : Set := {
  escape : EscapeState;
  pending_utf8_array : list byte;
  pending_utf8_len : nat;
}.

Definition TerminalCaptureState_default : TerminalCaptureState :=
  {| escape := Ground; pending_utf8_array := [0; 0; 0; 0]; pending_utf8_len := 0 |}.

Definition set_escape (state : TerminalCaptureState) (e : EscapeState) : TerminalCaptureState :=
  {| escape := e;
     pending_utf8_array := pending_utf8_array state;
     pending_utf8_len := pending_utf8_len state |}.

Definition pending_utf8 (state : TerminalCaptureState) : list byte :=
  take (pending_utf8_len state) (pending_utf8_array state).

Definition clear_pending_utf8 (state : TerminalCaptureState) : TerminalCaptureState :=
  {| escape := escape state;
     pending_utf8_array := pending_utf8_array state;
     pending_utf8_len := 0 |}.

(** [None] is the [false] result, which leaves the state alone. *)
Definition store_incomplete_utf8 (state : TerminalCaptureState) (bytes : list byte)
    : option TerminalCaptureState :=
  first ← head bytes;
  width ← utf8_char_width first;
  if (width <=? length bytes)%nat then None else
  let len := Nat.min (length bytes) (length (pending_utf8_array state)) in
  Some {| escape := escape state;
          pending_utf8_array := take len bytes ++ drop len (pending_utf8_array state);
          pending_utf8_len := len |}.

Definition flush_pending_utf8_at_capture_end (state : TerminalCaptureState) (out : str)
    : str * TerminalCaptureState :=
  (if negb (pending_utf8_len state =? 0)%nat && bool_decide (escape state = Ground)
   then out ++ [0xfffd] else out,
   clear_pending_utf8 state).

(** ** [terminal_capture_from_state] *)

(** The loop's mutable locals: the output and the automaton. *)
Record capture_locals : Set := { cap_out : str; cap_state : TerminalCaptureState }.

Section capture_step.
Context (out : str) (state : TerminalCaptureState).

(** [state.escape = e; index += n; continue] with [emit] pushed to the output. *)
Definition cap_next (e : EscapeState) (emit : str) (n : nat) : iteration capture_locals :=
  Continue {| cap_out := out ++ emit; cap_state := set_escape state e |} n.

(** [if state.store_incomplete_utf8(&bytes[index..]) { break; }] and what follows it. *)
Definition cap_store (bytes : list byte) (otherwise : iteration capture_locals)
    : iteration capture_locals :=
  match store_incomplete_utf8 state bytes with
  | Some state' => Break {| cap_out := out; cap_state := state' |}
  | None => otherwise
  end.

Definition cap_ground (byte : Z) (bytes : list Z) : iteration capture_locals :=
  if byte =? 0x1b then cap_next Esc [] 1
  else if byte =? 0x9b then cap_next Csi [] 1
  else if one_of [0x90; 0x98; 0x9d; 0x9e; 0x9f] byte then cap_next StringSt [] 1
  else if within 0x80 0x9f byte then cap_next Ground [] 1
  else if one_of [0x09; 0x0a; 0x0d] byte then cap_next Ground [byte] 1
  else if within 0x00 0x1f byte || (byte =? 0x7f) then cap_next Ground [] 1
  else if within 0x00 0x7f byte then cap_next Ground [byte] 1
  else match decode_utf8_char bytes with
  | Some (ch, len) =>
    if ch =? 0x9b then cap_next Csi [] len
    else if one_of [0x90; 0x98; 0x9d; 0x9e; 0x9f] ch then cap_next StringSt [] len
    else if is_c0_or_c1 ch then cap_next Ground [] len
    else cap_next Ground [ch] len
  | None => cap_store bytes (cap_next Ground [0xfffd] 1)
  end.

Definition cap_esc (byte : Z) : iteration capture_locals :=
  if one_of [0x18; 0x1a] byte then cap_next Ground [] 1
  else if byte =? 0x1b then cap_next Esc [] 1
  else if byte =? 0x5b then cap_next Csi [] 1
  else if one_of [0x5d; 0x50; 0x5f; 0x5e; 0x58] byte then cap_next StringSt [] 1
  else if one_of [0x28; 0x29; 0x2a; 0x2b; 0x2d; 0x2e; 0x2f] byte
  then cap_next Charset [] 1
  else if byte =? 0x9b then cap_next Csi [] 1
  else if one_of [0x90; 0x98; 0x9d; 0x9e; 0x9f] byte then cap_next StringSt [] 1
  else if within 0x20 0x2f byte then cap_next Esc [] 1
  else cap_next Ground [] 1.

(** The shared treatment of a byte above 0x7f inside CSI and string sequences. *)
Definition cap_high (stay : EscapeState) (byte : Z) (bytes : list Z)
    : iteration capture_locals :=
  match decode_utf8_char bytes with
  | Some (ch, len) => cap_next (if ch =? 0x9c then Ground else stay) [] len
  | None => cap_store bytes (cap_next (if byte =? 0x9c then Ground else stay) [] 1)
  end.

Definition cap_csi (byte : Z) (bytes : list Z) : iteration capture_locals :=
  if 0x80 <=? byte then cap_high Csi byte bytes
  else if one_of [0x18; 0x1a; 0x9c] byte then cap_next Ground [] 1
  else if byte =? 0x1b then cap_next Esc [] 1
  else if within 0x40 0x7e byte then cap_next Ground [] 1
  else cap_next Csi [] 1.

Definition cap_string (byte : Z) (bytes : list Z) : iteration capture_locals :=
  if 0x80 <=? byte then cap_high StringSt byte bytes
  else if one_of [0x18; 0x1a] byte then cap_next Ground [] 1
  else if one_of [0x07; 0x9c] byte then cap_next Ground [] 1
  else if byte =? 0x1b then cap_next StringEsc [] 1
  else cap_next StringSt [] 1.

Definition cap_string_esc (byte : Z) (bytes : list Z) : iteration capture_locals :=
  let plain :=
    cap_next (if (byte =? 0x5c) || (byte =? 0x9c) then Ground else StringSt) [] 1 in
  if 0x80 <=? byte then
    match decode_utf8_char bytes with
    | Some (ch, len) => cap_next (if ch =? 0x9c then Ground else StringSt) [] len
    | None => cap_store bytes plain
    end
  else plain.
End capture_step.

(** The loop body: [bytes] is [&bytes[index..]]. *)
Definition capture_step (l : capture_locals) (bytes : list byte) : iteration capture_locals :=
  match bytes with
  | [] => Break l
  | byte :: _ =>
    let out := cap_out l in
    let state := cap_state l in
    match escape state with
    | Ground => cap_ground out state byte bytes
    | Esc => cap_esc out state byte
    | Csi => cap_csi out state byte bytes
    | StringSt => cap_string out state byte bytes
    | StringEsc => cap_string_esc out state byte bytes
    | Charset => cap_next out state Ground [] 1
    end
  end.

Definition terminal_capture_from_state (bytes : list byte) (state : TerminalCaptureState)
    : str * TerminalCaptureState :=
  let '(bytes, state) :=
    if negb (pending_utf8_len state =? 0)%nat
    then (pending_utf8 state ++ bytes, clear_pending_utf8 state)
    else (bytes, state) in
  let l := scan capture_step bytes {| cap_out := []; cap_state := state |} in
  (cap_out l, cap_state l).

Definition terminal_capture (bytes : list byte) : str :=
  let '(out, state) := terminal_capture_from_state bytes TerminalCaptureState_default in
  fst (flush_pending_utf8_at_capture_end state out).

Definition terminal_text (value : str) : str :=
  strip_controls (terminal_capture (utf8 value)).

(** ** [sanitize_status_command_line] *)

Definition MAX_CSI_PARAM_BYTES : nat := 64.
Definition MAX_CSI_PARAM_COUNT : nat := 16.

(** The mutable locals of the function. *)
Record status_locals : Set := {
  sl_out : str;
  sl_state : EscapeState;
  csi_params : list byte;
  csi_param_semicolons : nat;
  csi_valid : bool;
  emitted_sgr : bool;
}.

Definition status_locals_init : status_locals :=
  {| sl_out := []; sl_state := Ground; csi_params := []; csi_param_semicolons := 0;
     csi_valid := true; emitted_sgr := false |}.

Section status_step.
Context (allow_color : bool) (l : status_locals).

(** [state = e; index += n; continue] with [emit] pushed to the output. *)
Definition sl_next (e : EscapeState) (emit : str) (n : nat) : iteration status_locals :=
  Continue {| sl_out := sl_out l ++ emit; sl_state := e; csi_params := csi_params l;
              csi_param_semicolons := csi_param_semicolons l;
              csi_valid := csi_valid l; emitted_sgr := emitted_sgr l |} n.

(** Entering a CSI sequence resets the parameter buffer. *)
Definition sl_enter_csi (n : nat) : iteration status_locals :=
  Continue {| sl_out := sl_out l; sl_state := Csi; csi_params := [];
              csi_param_semicolons := 0; csi_valid := true;
              emitted_sgr := emitted_sgr l |} n.

(** [csi_valid = false]. *)
Definition sl_invalid (n : nat) : iteration status_locals :=
  Continue {| sl_out := sl_out l; sl_state := Csi; csi_params := csi_params l;
              csi_param_semicolons := csi_param_semicolons l;
              csi_valid := false; emitted_sgr := emitted_sgr l |} n.

Definition sl_ground (byte : Z) (bytes : list Z) : iteration status_locals :=
  if byte =? 0x1b then sl_next Esc [] 1
  else if byte =? 0x9b then sl_enter_csi 1
  else if one_of [0x90; 0x98; 0x9d; 0x9e; 0x9f] byte then sl_next StringSt [] 1
  else if within 0x80 0x9f byte then sl_next Ground [] 1
  else if byte =? 0x09 then sl_next Ground [] 1
  else if within 0x00 0x1f byte || (byte =? 0x7f) then sl_next Ground [] 1
  else if within 0x00 0x7f byte then sl_next Ground [byte] 1
  else match decode_utf8_char bytes with
  | Some (ch, len) =>
    if ch =? 0x9b then sl_enter_csi len
    else if one_of [0x90; 0x98; 0x9d; 0x9e; 0x9f] ch then sl_next StringSt [] len
    else if is_c0_or_c1 ch then sl_next Ground [] len
    else sl_next Ground [ch] len
  | None => sl_next Ground [0xfffd] 1
  end.

Definition sl_esc (byte : Z) : iteration status_locals :=
  if one_of [0x18; 0x1a] byte then sl_next Ground [] 1
  else if byte =? 0x1b then sl_next Esc [] 1
  else if byte =? 0x5b then sl_enter_csi 1
  else if one_of [0x5d; 0x50; 0x5f; 0x5e; 0x58] byte then sl_next StringSt [] 1
  else if one_of [0x28; 0x29; 0x2a; 0x2b; 0x2d; 0x2e; 0x2f] byte
  then sl_next Charset [] 1
  else if byte =? 0x9b then sl_enter_csi 1
  else if one_of [0x90; 0x98; 0x9d; 0x9e; 0x9f] byte then sl_next StringSt [] 1
  else if within 0x20 0x2f byte then sl_next Esc [] 1
  else sl_next Ground [] 1.

(** The final byte of a CSI sequence: an SGR within the limits is re-emitted. *)
Definition sl_csi_final (byte : Z) : iteration status_locals :=
  let is_sgr := byte =? 0x6d in
  let within_limits :=
    (length (csi_params l) <=? MAX_CSI_PARAM_BYTES)%nat
    && (csi_param_semicolons l <? MAX_CSI_PARAM_COUNT)%nat in
  if allow_color && is_sgr && csi_valid l && within_limits then
    Continue {| sl_out := sl_out l ++ [0x1b; 0x5b] ++ csi_params l ++ [0x6d];
                sl_state := Ground; csi_params := csi_params l;
                csi_param_semicolons := csi_param_semicolons l;
                csi_valid := csi_valid l; emitted_sgr := true |} 1
  else sl_next Ground [] 1.

(** A parameter byte is accumulated only while both limits hold. *)
Definition sl_csi_param (byte : Z) : iteration status_locals :=
  if csi_valid l then
    let would_exceed_byte_limit := (MAX_CSI_PARAM_BYTES <=? length (csi_params l))%nat in
    let would_exceed_param_count :=
      (byte =? 0x3b) && (MAX_CSI_PARAM_COUNT - 1 <=? csi_param_semicolons l)%nat in
    if would_exceed_byte_limit || would_exceed_param_count then sl_invalid 1
    else
      Continue {| sl_out := sl_out l; sl_state := Csi;
                  csi_params := csi_params l ++ [byte];
                  csi_param_semicolons :=
                    if byte =? 0x3b then S (csi_param_semicolons l)
                    else csi_param_semicolons l;
                  csi_valid := csi_valid l; emitted_sgr := emitted_sgr l |} 1
  else sl_next Csi [] 1.

Definition sl_csi (byte : Z) (bytes : list Z) : iteration status_locals :=
  if 0x80 <=? byte then
    match decode_utf8_char bytes with
    | Some (ch, len) => if ch =? 0x9c then sl_next Ground [] len else sl_invalid len
    | None => if byte =? 0x9c then sl_next Ground [] 1 else sl_invalid 1
    end
  else if one_of [0x18; 0x1a; 0x9c] byte then sl_next Ground [] 1
  else if byte =? 0x1b then sl_next Esc [] 1
  else if within 0x40 0x7e byte then sl_csi_final byte
  else if within 0x30 0x39 byte || (byte =? 0x3b) || (byte =? 0x3a) then sl_csi_param byte
  else sl_invalid 1.

Definition sl_string (byte : Z) (bytes : list Z) : iteration status_locals :=
  if 0x80 <=? byte then
    match decode_utf8_char bytes with
    | Some (ch, len) => sl_next (if ch =? 0x9c then Ground else StringSt) [] len
    | None => sl_next (if byte =? 0x9c then Ground else StringSt) [] 1
    end
  else if one_of [0x18; 0x1a] byte then sl_next Ground [] 1
  else if one_of [0x07; 0x9c] byte then sl_next Ground [] 1
  else if byte =? 0x1b then sl_next StringEsc [] 1
  else sl_next StringSt [] 1.

Definition sl_string_esc (byte : Z) (bytes : list Z) : iteration status_locals :=
  let plain :=
    sl_next (if (byte =? 0x5c) || (byte =? 0x9c) then Ground else StringSt) [] 1 in
  if 0x80 <=? byte then
    match decode_utf8_char bytes with
    | Some (ch, len) => sl_next (if ch =? 0x9c then Ground else StringSt) [] len
    | None => plain
    end
  else plain.

(** The loop body: LF and CR stop it in every automaton state. *)
Definition status_step_at (byte : Z) (bytes : list Z) : iteration status_locals :=
  if (byte =? 0x0a) || (byte =? 0x0d) then Break l
  else match sl_state l with
  | Ground => sl_ground byte bytes
  | Esc => sl_esc byte
  | Csi => sl_csi byte bytes
  | StringSt => sl_string byte bytes
  | StringEsc => sl_string_esc byte bytes
  | Charset => sl_next Ground [] 1
  end.
End status_step.

Definition status_step (allow_color : bool) (l : status_locals) (bytes : list byte)
    : iteration status_locals :=
  match bytes with
  | [] => Break l
  | byte :: _ => status_step_at allow_color l byte bytes
  end.

(** [ESC [ 0 m]. *)
Definition sgr_reset : str := [0x1b; 0x5b; 0x30; 0x6d].

Definition sanitize_status_command_line (bytes : list byte) (allow_color : bool) : str :=
  let l := scan (status_step allow_color) bytes status_locals_init in
  if emitted_sgr l then sl_out l ++ sgr_reset else sl_out l.

(** ** [split_sgr_and_text] and [truncate_status_line_ansi]

    Both work on the bytes of the line and take slices of it, so a slice is a byte list. *)

Inductive StatusSegment : Set :=
  | Sgr (seq : list byte)
  | Text (text : list byte).

#[global] Instance StatusSegment_eq_dec : EqDecision StatusSegment.
Proof. solve_decision. Defined.

(** The inner loop after [ESC \[]: how many bytes it consumes, and whether they form a
    complete parameter-only SGR. *)
Fixpoint csi_end (bytes : list byte) (sgr_valid : bool) : nat * bool :=
  match bytes with
  | [] => (0%nat, false)
  | b :: rest =>
    if within 0x30 0x39 b || (b =? 0x3b) || (b =? 0x3a) then
      let '(n, sgr) := csi_end rest sgr_valid in (S n, sgr)
    else if b =? 0x6d then (1%nat, sgr_valid)
    else if within 0x40 0x7e b then (1%nat, false)
    else if b =? 0x1b then (0%nat, false)
    else let '(n, sgr) := csi_end rest false in (S n, sgr)
  end.

(** [text] is [&line[text_start..index]]. *)
Record split_locals : Set := { segments : list StatusSegment; open_text : list byte }.

(** [if text_start < index { segments.push(Text(..)) }]. *)
Definition close_text (l : split_locals) : list StatusSegment :=
  match open_text l with
  | [] => segments l
  | text => segments l ++ [Text text]
  end.

Definition split_step (l : split_locals) (bytes : list byte) : iteration split_locals :=
  match bytes with
  | [] => Break l
  | 0x1b :: 0x5b :: rest =>
    let '(n, sgr) := csi_end rest true in
    Continue {| segments := close_text l
                  ++ (if sgr then [Sgr (0x1b :: 0x5b :: take n rest)] else []);
                open_text := [] |} (2 + n)
  | 0x1b :: _ => Continue {| segments := close_text l; open_text := [] |} 1
  | b :: _ => Continue {| segments := segments l; open_text := open_text l ++ [b] |} 1
  end.

Definition split_sgr_and_text (line : list byte) : list StatusSegment :=
  close_text (scan split_step line {| segments := []; open_text := [] |}).

Section truncate.
(** [unicode_width::UnicodeWidthStr::width] and
    [unicode_segmentation::UnicodeSegmentation::graphemes(true)]. *)
Context (width_of : list byte → nat) (graphemes : list byte → list (list byte)).

(** [for cluster in text.graphemes(true)]: the bytes pushed, the new [acc], and whether
    the loop broke off. *)
Fixpoint push_clusters (target acc : nat) (clusters : list (list byte))
    : list byte * nat * bool :=
  match clusters with
  | [] => ([], acc, false)
  | c :: cs =>
    if (target <? acc + width_of c)%nat then ([], acc, true)
    else
      let '(buf, acc', truncated) := push_clusters target (acc + width_of c) cs in
      (c ++ buf, acc', truncated)
  end.

(** The truncating loop over the segments: the bytes pushed and [emitted_sgr]. *)
Fixpoint push_truncated (target acc : nat) (segs : list StatusSegment) : list byte * bool :=
  match segs with
  | [] => ([], false)
  | Sgr seq :: segs =>
    if (acc <? target)%nat then
      let '(buf, _) := push_truncated target acc segs in (seq ++ buf, true)
    else ([], false)
  | Text text :: segs =>
    let '(buf, acc', truncated) := push_clusters target acc (graphemes text) in
    if truncated then (buf, false)
    else
      let '(buf', emitted) := push_truncated target acc' segs in (buf ++ buf', emitted)
  end.

Definition segment_bytes (seg : StatusSegment) : list byte :=
  match seg with Sgr seq => seq | Text text => text end.
Definition is_sgr_segment (seg : StatusSegment) : bool :=
  match seg with Sgr _ => true | Text _ => false end.
Definition segment_width (seg : StatusSegment) : nat :=
  match seg with Sgr _ => 0 | Text text => width_of text end.

Definition truncate_status_line_ansi (line : list byte) (max_width : Z) : list byte :=
  let width := Z.to_nat max_width in
  if (width =? 0)%nat then [] else
  let segments := split_sgr_and_text line in
  let total_visible_width := sum_list (segment_width <$> segments) in
  let '(buf, emitted) :=
    if (total_visible_width <=? width)%nat then
      (mjoin (segment_bytes <$> segments), existsb is_sgr_segment segments)
    else
      let ellipsis_margin := if (2 <=? width)%nat then 1%nat else 0%nat in
      let target := (width - ellipsis_margin)%nat in
      let '(buf, emitted) := push_truncated target 0 segments in
      (buf ++ (if (0 <? ellipsis_margin)%nat then encode 0x2026 else []), emitted) in
  if emitted then buf ++ sgr_reset else buf.
End truncate.

(** ** Sample runs *)

Example capture_csi :
  terminal_capture (utf8 (lit "a") ++ [0x1b; 0x5b; 0x33; 0x31; 0x6d] ++ utf8 (lit "bc"))
  = lit "abc".
Proof. vm_compute. reflexivity. Qed.

Example status_color :
  sanitize_status_command_line ([0x9b; 0x33; 0x31; 0x6d] ++ lit "ok" ++ [0x0a] ++ lit "no") true
  = [0x1b; 0x5b; 0x33; 0x31; 0x6d] ++ lit "ok" ++ sgr_reset.
Proof. vm_compute. reflexivity. Qed.

Example truncate_ascii :
  truncate_status_line_ansi (@length _) (fmap (λ b, [b])) (lit "hello") 4 =
  lit "hel" ++ encode 0x2026.
Proof. vm_compute. reflexivity. Qed.

(** ** The capture loop: progress and safety of the output *)

Lemma decode_utf8_char_pos bs ch n : decode_utf8_char bs = Some (ch, n) → (1 ≤ n)%nat.
Proof.
  intros (_ & _ & <- & _)%decode_utf8_char_sound. pose proof (encode_length ch). lia.
Qed.

#[export] Hint Resolve decode_utf8_char_pos : lterm.

(** Every way an automaton state can treat a byte, by case analysis of the source's
    match arms. *)
Ltac step_cases :=
  repeat (match goal with
  | H : context [match ?e with _ => _ end] |- _ => destruct e eqn:?; simplify_eq/=
  | H : context [if ?e then _ else _] |- _ => destruct e eqn:?; simplify_eq/=
  end).

Ltac unfold_capture H :=
  unfold capture_step, cap_ground, cap_esc, cap_csi, cap_string, cap_string_esc, cap_high,
    cap_store, cap_next in H; simpl in H.

Lemma capture_step_advances : advances capture_step.
Proof.
  intros l [|b bs] l' n H; [done|].
  unfold_capture H. step_cases; eauto with lterm.
Qed.

(** What a character of captured text may be. *)
Definition capture_safe (ch : char) : bool :=
  is_char ch && (negb (is_c0_or_c1 ch) || one_of [0x09; 0x0a; 0x0d] ch).

(** A character of text without any control. *)
Definition plain_char (ch : char) : bool := is_char ch && negb (is_c0_or_c1 ch).

Lemma capture_step_safe l b bs l' :
  (∃ n, capture_step l (b :: bs) = Continue l' n) ∨ capture_step l (b :: bs) = Break l' →
  Forall (λ ch, capture_safe ch = true) (cap_out l) →
  Forall (λ ch, capture_safe ch = true) (cap_out l').
Proof.
  intros Hs Hl. destruct Hs as [[n H]|H]; unfold_capture H; step_cases; auto.
  all: apply Forall_app_2; [done|]; repeat constructor.
  all: try match goal with H : decode_utf8_char _ = Some _ |- _ =>
    apply decode_utf8_char_sound in H as (?&_) end.
  all: unfold capture_safe, is_c0_or_c1, is_char, one_of, within in *; simpl in *; lia.
Qed.

Lemma capture_scan_safe bs l :
  Forall (λ ch, capture_safe ch = true) (cap_out l) →
  Forall (λ ch, capture_safe ch = true) (cap_out (scan capture_step bs l)).
Proof.
  apply (scan_inv capture_step capture_step_advances
    (λ l, Forall (λ ch, capture_safe ch = true) (cap_out l))); intros.
  - eapply capture_step_safe; eauto.
  - eapply capture_step_safe; eauto.
Qed.

Lemma capture_from_state_safe bytes state out state' :
  terminal_capture_from_state bytes state = (out, state') →
  Forall (λ ch, capture_safe ch = true) out.
Proof.
  unfold terminal_capture_from_state. destruct (if negb _ then _ else _) as [bs s].
  intros [= <- _]. by apply capture_scan_safe.
Qed.

Lemma terminal_capture_safe bytes :
  Forall (λ ch, capture_safe ch = true) (terminal_capture bytes).
Proof.
  unfold terminal_capture, flush_pending_utf8_at_capture_end.
  destruct (terminal_capture_from_state bytes _) as [out state] eqn:H.
  apply capture_from_state_safe in H. simpl.
  destruct (_ && _); [|done]. apply Forall_app_2; [done|]. by repeat constructor.
Qed.

(** From any automaton state and on any bytes, the incremental capture emits only
    Unicode scalar values that are no C0 or C1 control, except tab, LF and CR; so does the
    one-shot capture. *)
Theorem terminal_capture_output_safe bytes state :
  Forall (λ ch, capture_safe ch = true) (fst (terminal_capture_from_state bytes state)) ∧
  Forall (λ ch, capture_safe ch = true) (terminal_capture bytes).
Proof.
  split; [|apply terminal_capture_safe].
  destruct (terminal_capture_from_state bytes state) eqn:H. by eapply capture_from_state_safe.
Qed.

(** ** Text without controls is reproduced *)

(** In the ground state a safe character is copied and its encoding skipped. *)
Lemma capture_step_plain out state c rest :
  escape state = Ground → capture_safe c = true →
  capture_step {| cap_out := out; cap_state := state |} (encode c ++ rest) =
  cap_next out state Ground [c] (length (encode c)).
Proof.
  intros Hg Hc. unfold capture_safe in Hc. apply andb_true in Hc as [Hc Hs].
  destruct (decide (c < 0x80)) as [Hlt|Hge].
  - assert (0 ≤ c) by (unfold is_char, within in Hc; lia).
    rewrite encode_ascii; [|lia]. simpl. rewrite Hg. unfold cap_ground.
    unfold is_c0_or_c1, one_of, within in *; simpl in *.
    repeat match goal with
    | |- context [if ?b then _ else _] =>
      first [replace b with false by lia | replace b with true by lia | destruct b eqn:?]
    end; done.
  - pose proof (decode_utf8_char_encode c rest Hc) as Hd.
    assert (∃ b bs, encode c ++ rest = b :: bs ∧ 0xc2 ≤ b) as (b & bs & Heq & Hb).
    { unfold encode, is_char, is_c0_or_c1, one_of, within in *; simpl in *.
      split_tests; simpl; do 2 eexists; (split; [reflexivity|]); dlia. }
    rewrite Heq in Hd |- *. simpl. rewrite Hg. unfold cap_ground. rewrite Hd.
    unfold is_c0_or_c1, one_of, within in *; simpl in *.
    repeat match goal with
    | |- context [if ?b then _ else _] =>
      first [replace b with false by lia | replace b with true by lia]
    end; done.
Qed.

Lemma capture_scan_plain s out state :
  escape state = Ground → Forall (λ ch, capture_safe ch = true) s →
  scan capture_step (utf8 s) {| cap_out := out; cap_state := state |} =
  {| cap_out := out ++ s; cap_state := state |}.
Proof.
  intros Hg Hs. revert out. induction Hs as [|c s Hc _ IH]; intros out.
  { cbn. by rewrite app_nil_r. }
  rewrite utf8_cons. pose proof (capture_step_plain out state c (utf8 s) Hg Hc) as Hstep.
  destruct (encode c ++ utf8 s) as [|b bs] eqn:Heq.
  { pose proof (encode_length c). apply (f_equal length) in Heq.
    rewrite length_app in Heq. simpl in Heq. lia. }
  rewrite (scan_cons capture_step capture_step_advances) Hstep. unfold cap_next.
  rewrite -Heq drop_app_length.
  replace (set_escape state Ground) with state; [|destruct state; simpl in *; by subst].
  by rewrite IH -app_assoc.
Qed.

Lemma capture_plain s :
  Forall (λ ch, capture_safe ch = true) s → terminal_capture (utf8 s) = s.
Proof.
  intros Hs. unfold terminal_capture, terminal_capture_from_state. cbn [pending_utf8_len].
  cbn. rewrite capture_scan_plain //.
Qed.

(** Capturing the UTF-8 of text that holds no control but tab, LF and CR returns that
    text: nothing of Korean, CJK or emoji text is lost. *)
Theorem terminal_capture_plain_text s :
  Forall (λ ch, capture_safe ch = true) s → terminal_capture (utf8 s) = s.
Proof. apply capture_plain. Qed.

Lemma terminal_capture_plain_text_witness :
  let s := [0xd55c; 0x0a; 0x1f600; 0x61] in terminal_capture (utf8 s) = s.
Proof. apply terminal_capture_plain_text. by repeat constructor. Defined.

Lemma plain_char_safe ch : plain_char ch = true → capture_safe ch = true.
Proof. unfold plain_char, capture_safe. intros [-> ->]%andb_true. done. Qed.

Lemma strip_controls_plain s :
  Forall (λ ch, plain_char ch = true) s → strip_controls s = s.
Proof.
  induction 1 as [|c s Hc _ IH]; [done|]. unfold strip_controls in *. simpl.
  unfold plain_char in Hc. apply andb_true in Hc as [_ ->]. by rewrite IH.
Qed.

Lemma terminal_text_of_plain s :
  Forall (λ ch, plain_char ch = true) s → terminal_text s = s.
Proof.
  intros Hs. unfold terminal_text. rewrite capture_plain.
  - by apply strip_controls_plain.
  - eapply Forall_impl; [exact Hs|apply plain_char_safe].
Qed.

Lemma terminal_text_plain s : Forall (λ ch, plain_char ch = true) (terminal_text s).
Proof.
  unfold terminal_text, strip_controls.
  pose proof (terminal_capture_safe (utf8 s)) as Hsafe.
  induction Hsafe as [|c l Hc _ IH]; simpl; [done|].
  destruct (negb (is_c0_or_c1 c)) eqn:Hn; [|done]. constructor; [|done].
  unfold plain_char, capture_safe in *. rewrite Hn. by apply andb_true in Hc as [-> _].
Qed.

(** [terminal_text] returns text without any control character, leaves such text
    alone, and so sanitizing twice is sanitizing once. *)
Theorem terminal_text_idempotent s :
  Forall (λ ch, plain_char ch = true) (terminal_text s) ∧
  terminal_text (terminal_text s) = terminal_text s.
Proof.
  split; [apply terminal_text_plain|]. apply terminal_text_of_plain, terminal_text_plain.
Qed.

(** ** Chunked capture

    Two automaton states are the same to an observer when the escape state and the
    pending bytes agree: [clear_pending_utf8] leaves stale bytes in the array. *)

#[export] Instance capture_state_equiv : Equiv TerminalCaptureState := λ s s',
  escape s = escape s' ∧ pending_utf8 s = pending_utf8 s'.

#[export] Instance capture_state_equivalence : Equivalence (≡@{TerminalCaptureState}).
Proof.
  unfold equiv, capture_state_equiv. split.
  - by intros s.
  - by intros s s' [-> ->].
  - intros s1 s2 s3 [? ?] [? ?]. split; congruence.
Qed.

(** The array has its four bytes and the count is within it. *)
Definition capture_wf (s : TerminalCaptureState) : Prop :=
  length (pending_utf8_array s) = 4%nat ∧ (pending_utf8_len s ≤ 4)%nat.

(** Inside the loop nothing is pending. *)
Definition capture_open (s : TerminalCaptureState) : Prop :=
  capture_wf s ∧ pending_utf8_len s = 0%nat.

Definition locals_equiv (l l' : capture_locals) : Prop :=
  cap_out l = cap_out l' ∧ cap_state l ≡ cap_state l'.

(** An incomplete tail is stored whole. *)
Lemma store_incomplete_utf8_Some s bs s' :
  capture_wf s → store_incomplete_utf8 s bs = Some s' →
  escape s' = escape s ∧ pending_utf8 s' = bs ∧ capture_wf s' ∧
  pending_utf8_len s' = length bs ∧ bs ≠ [].
Proof.
  intros [Hlen _] H. unfold store_incomplete_utf8 in H.
  destruct bs as [|b bs]; [done|]. cbn [head mbind option_bind] in H.
  destruct (utf8_char_width b) as [w|] eqn:Hw; [|done]. cbn [mbind option_bind] in H.
  apply utf8_char_width_range in Hw.
  destruct (Nat.leb_spec w (length (b :: bs))) as [|Hlt]; [done|].
  rewrite Hlen Nat.min_l in H; [|lia]. apply (inj Some) in H as <-.
  unfold pending_utf8, capture_wf. cbn [escape pending_utf8_array pending_utf8_len].
  rewrite firstn_all.
  split; [done|]. split; [by rewrite take_app_length|].
  split; [split; [|lia]|done]. rewrite length_app length_drop Hlen. lia.
Qed.

(** When the tail is not stored, more input changes neither the decoding nor that. *)
Lemma store_None_app s b bs rest :
  store_incomplete_utf8 s (b :: bs) = None →
  decode_utf8_char (b :: bs ++ rest) = decode_utf8_char (b :: bs) ∧
  store_incomplete_utf8 s (b :: bs ++ rest) = None.
Proof.
  intros H. unfold store_incomplete_utf8 in *. cbn [head mbind option_bind] in *.
  destruct (utf8_char_width b) as [w|] eqn:Hw; cbn [mbind option_bind] in *.
  - destruct (Nat.leb_spec w (length (b :: bs))) as [Hle|]; [|done].
    rewrite app_comm_cons. split.
    + by eapply decode_utf8_char_app.
    + rewrite length_app. by destruct (Nat.leb_spec w (length (b :: bs) + length rest)); [|lia].
  - by rewrite !decode_utf8_char_no_width.
Qed.

Lemma store_Some_decode s b bs s' :
  store_incomplete_utf8 s (b :: bs) = Some s' →
  decode_utf8_char (b :: bs) = None ∧ 0x80 ≤ b ∧ within 0x80 0x9f b = false.
Proof.
  unfold store_incomplete_utf8. cbn [head mbind option_bind].
  destruct (utf8_char_width b) as [w|] eqn:Hw; [|done]. cbn [mbind option_bind].
  destruct (Nat.leb_spec w (length (b :: bs))) as [|Hlt]; [done|]. intros _.
  split; [by eapply decode_utf8_char_short|].
  unfold utf8_char_width, within in *. simpl in Hlt. split_tests; simplify_eq; lia.
Qed.

(** The body depends on the bytes beyond the first only through the decoder and the store. *)
Lemma capture_step_app l b bs rest l' n :
  capture_step l (b :: bs) = Continue l' n → capture_step l (b :: bs ++ rest) = Continue l' n.
Proof.
  intros H. destruct (store_incomplete_utf8 (cap_state l) (b :: bs)) as [s'|] eqn:Hst.
  - pose proof (store_Some_decode _ _ _ _ Hst) as (Hd & Hge & Hc1).
    unfold capture_step in *. destruct (escape (cap_state l)); try done.
    all: exfalso; unfold cap_ground, cap_csi, cap_string, cap_string_esc, cap_high, cap_store in H;
      rewrite Hd Hst ?Hc1 in H.
    all: unfold one_of, within in *; simpl in *; step_cases; try done; lia.
  - pose proof (store_None_app _ _ _ rest Hst) as [Hd Hst'].
    unfold capture_step, cap_ground, cap_csi, cap_string, cap_string_esc, cap_high, cap_store in *.
    rewrite Hst in H. by rewrite Hd Hst'.
Qed.

(** A round keeps the loop's state open and stays within the bytes it saw. *)
Lemma capture_step_open l b bs l' n :
  capture_step l (b :: bs) = Continue l' n → capture_open (cap_state l) →
  capture_open (cap_state l') ∧ (n ≤ length (b :: bs))%nat.
Proof.
  intros H Ho. unfold_capture H. step_cases; simpl; (split; [exact Ho|]); try lia.
  all: match goal with H : decode_utf8_char _ = Some _ |- _ =>
    apply decode_utf8_char_sound in H as (_ & _ & _ & ?) end; done.
Qed.

(** Leaving the loop early stores everything that was left. *)
Lemma capture_step_break l b bs l' :
  capture_step l (b :: bs) = Break l' →
  cap_out l' = cap_out l ∧
  store_incomplete_utf8 (cap_state l) (b :: bs) = Some (cap_state l').
Proof. intros H. unfold_capture H. step_cases; done. Qed.

Lemma store_incomplete_utf8_proper s1 s2 bs :
  capture_wf s1 → capture_wf s2 → escape s1 = escape s2 →
  match store_incomplete_utf8 s1 bs, store_incomplete_utf8 s2 bs with
  | Some s1', Some s2' => s1' ≡ s2'
  | None, None => True
  | _, _ => False
  end.
Proof.
  intros Hw1 Hw2 He.
  assert (store_incomplete_utf8 s1 bs = None ↔ store_incomplete_utf8 s2 bs = None) as Hiff.
  { unfold store_incomplete_utf8. destruct bs as [|b bs]; [done|].
    cbn [head mbind option_bind]. destruct (utf8_char_width b) as [w|]; [|done].
    cbn [mbind option_bind]. by destruct (w <=? length (b :: bs))%nat. }
  destruct (store_incomplete_utf8 s1 bs) as [s1'|] eqn:E1,
    (store_incomplete_utf8 s2 bs) as [s2'|] eqn:E2; try done.
  - apply store_incomplete_utf8_Some in E1 as (? & ? & _); [|done].
    apply store_incomplete_utf8_Some in E2 as (? & ? & _); [|done].
    split; congruence.
  - by destruct Hiff as [_ Hi]; specialize (Hi eq_refl).
  - by destruct Hiff as [Hi _]; specialize (Hi eq_refl).
Qed.

(** Relates two rounds that start from indistinguishable states. *)
Definition iteration_equiv (i1 i2 : iteration capture_locals) : Prop :=
  match i1, i2 with
  | Continue l1 n1, Continue l2 n2 => locals_equiv l1 l2 ∧ n1 = n2
  | Break l1, Break l2 => locals_equiv l1 l2
  | _, _ => False
  end.

Lemma capture_step_proper l1 l2 b bs :
  capture_open (cap_state l1) → capture_open (cap_state l2) → locals_equiv l1 l2 →
  iteration_equiv (capture_step l1 (b :: bs)) (capture_step l2 (b :: bs)).
Proof.
  destruct l1 as [out s1], l2 as [out2 s2].
  intros [Hw1 H1] [Hw2 H2] [Hout [He Hp]]. simpl in *. subst out2.
  assert (Hnext : ∀ e emit n, iteration_equiv (cap_next out s1 e emit n) (cap_next out s2 e emit n)).
  { intros. split; [|done]. split; [done|]. split; [done|]. done. }
  assert (Hstore : ∀ i1 i2, iteration_equiv i1 i2 →
    iteration_equiv (cap_store out s1 (b :: bs) i1) (cap_store out s2 (b :: bs) i2)).
  { intros i1 i2 Hi. unfold cap_store.
    pose proof (store_incomplete_utf8_proper s1 s2 (b :: bs) Hw1 Hw2 He) as Hs.
    destruct (store_incomplete_utf8 s1 _), (store_incomplete_utf8 s2 _); try done. }
  unfold capture_step; simpl. rewrite He.
  destruct (escape s2);
    unfold cap_ground, cap_esc, cap_csi, cap_string, cap_string_esc, cap_high;
    repeat case_match; auto.
Qed.

Lemma capture_scan_proper bs l1 l2 :
  capture_open (cap_state l1) → capture_open (cap_state l2) → locals_equiv l1 l2 →
  locals_equiv (scan capture_step bs l1) (scan capture_step bs l2).
Proof.
  revert l1 l2. induction bs as [bs IH] using list_len_ind. intros l1 l2 Ho1 Ho2 Heq.
  destruct bs as [|b bs]; [done|].
  rewrite !(scan_cons capture_step capture_step_advances).
  pose proof (capture_step_proper l1 l2 b bs Ho1 Ho2 Heq) as Hit.
  destruct (capture_step l1 (b :: bs)) as [l1' n1|l1'] eqn:H1,
    (capture_step l2 (b :: bs)) as [l2' n2|l2'] eqn:H2; try done.
  destruct Hit as [Hl <-]. pose proof (capture_step_advances _ _ _ _ H1).
  apply IH; [|by eapply capture_step_open in H1 as [? _]
             |by eapply capture_step_open in H2 as [? _]|done].
  rewrite length_drop. simpl. lia.
Qed.

(** Output already produced is only ever extended. *)
Lemma capture_step_out l b bs pre :
  capture_step {| cap_out := pre ++ cap_out l; cap_state := cap_state l |} (b :: bs) =
  match capture_step l (b :: bs) with
  | Continue l' n => Continue {| cap_out := pre ++ cap_out l'; cap_state := cap_state l' |} n
  | Break l' => Break {| cap_out := pre ++ cap_out l'; cap_state := cap_state l' |}
  end.
Proof.
  unfold capture_step; simpl. destruct (escape (cap_state l));
    unfold cap_ground, cap_esc, cap_csi, cap_string, cap_string_esc, cap_high, cap_store, cap_next;
    repeat case_match; simplify_eq/=; rewrite ?app_assoc //.
Qed.

Lemma capture_scan_out bs l pre :
  scan capture_step bs {| cap_out := pre ++ cap_out l; cap_state := cap_state l |} =
  {| cap_out := pre ++ cap_out (scan capture_step bs l);
     cap_state := cap_state (scan capture_step bs l) |}.
Proof.
  revert l. induction bs as [bs IH] using list_len_ind. intros l.
  destruct bs as [|b bs]; [done|].
  rewrite !(scan_cons capture_step capture_step_advances) capture_step_out.
  destruct (capture_step l (b :: bs)) as [l' n|l'] eqn:H; [|done].
  pose proof (capture_step_advances _ _ _ _ H). rewrite IH //.
  rewrite length_drop. simpl. lia.
Qed.

Lemma clear_pending_open s : capture_wf s → capture_open (clear_pending_utf8 s).
Proof. intros [? ?]. split; [|done]. split; simpl; [done|lia]. Qed.

(** Scanning [a] and then, from where it stopped, what is pending followed by [b]. *)
Lemma capture_scan_app a b l :
  capture_open (cap_state l) →
  let l1 := scan capture_step a l in
  capture_wf (cap_state l1) ∧
  locals_equiv (scan capture_step (a ++ b) l)
    (scan capture_step (pending_utf8 (cap_state l1) ++ b)
      {| cap_out := cap_out l1; cap_state := clear_pending_utf8 (cap_state l1) |}).
Proof.
  revert l. induction a as [a IH] using list_len_ind. intros l Ho.
  destruct a as [|x a].
  { cbn [scan length scan_fuel app]. split; [apply Ho|]. destruct Ho as [[Hw1 Hw2] H0].
    unfold pending_utf8. rewrite H0. cbn [take app].
    apply capture_scan_proper; [done|by apply clear_pending_open|].
    split; [done|]. split; [done|]. unfold pending_utf8. by rewrite H0. }
  cbn zeta. rewrite -app_comm_cons !(scan_cons capture_step capture_step_advances).
  destruct (capture_step l (x :: a)) as [l' n|l'] eqn:H.
  - rewrite (capture_step_app _ _ _ _ _ _ H).
    pose proof (capture_step_advances _ _ _ _ H).
    pose proof (capture_step_open _ _ _ _ _ H Ho) as [Ho' Hn].
    rewrite app_comm_cons drop_app_le //. apply IH; [|done].
    rewrite length_drop. simpl. lia.
  - apply capture_step_break in H as [Hout Hst].
    apply store_incomplete_utf8_Some in Hst as (He & Hp & Hwf & _ & _); [|apply Ho].
    split; [done|]. rewrite Hp -(scan_cons capture_step capture_step_advances).
    apply capture_scan_proper; [done|by apply clear_pending_open|].
    split; [done|]. split; [done|]. destruct Ho as [_ H0]. unfold pending_utf8. by rewrite H0.
Qed.

Lemma terminal_capture_from_state_eq bytes state :
  terminal_capture_from_state bytes state =
  let l := scan capture_step (pending_utf8 state ++ bytes)
             {| cap_out := []; cap_state := clear_pending_utf8 state |} in
  (cap_out l, cap_state l).
Proof.
  unfold terminal_capture_from_state, pending_utf8, clear_pending_utf8.
  destruct state as [e arr [|n]]; done.
Qed.

(** Two chunks, one after the other, are the whole. *)
Lemma terminal_capture_app c1 c2 state :
  capture_wf state →
  let '(o1, s1) := terminal_capture_from_state c1 state in
  let '(o2, s2) := terminal_capture_from_state c2 s1 in
  let '(o, s) := terminal_capture_from_state (c1 ++ c2) state in
  capture_wf s1 ∧ o = o1 ++ o2 ∧ s ≡ s2.
Proof.
  intros Hwf. rewrite !terminal_capture_from_state_eq. cbn beta iota zeta.
  set (l0 := {| cap_out := []; cap_state := clear_pending_utf8 state |}).
  set (l1 := scan capture_step (pending_utf8 state ++ c1) l0).
  rewrite app_assoc.
  pose proof (capture_scan_app (pending_utf8 state ++ c1) c2 l0
    (clear_pending_open _ Hwf)) as [Hwf1 [Hout Hst]].
  rewrite -/l1 in Hwf1, Hout, Hst.
  rewrite (_ : cap_out l1 = cap_out l1 ++ []) in Hout, Hst; [|by rewrite app_nil_r].
  pose proof (capture_scan_out (pending_utf8 (cap_state l1) ++ c2)
    {| cap_out := []; cap_state := clear_pending_utf8 (cap_state l1) |} (cap_out l1)) as Hpre.
  cbn [cap_out cap_state] in Hpre. rewrite Hpre in Hout, Hst.
  by rewrite terminal_capture_from_state_eq.
Qed.

(** The state matters only up to the stale bytes of its array. *)
Lemma terminal_capture_proper bytes s1 s2 :
  capture_wf s1 → capture_wf s2 → s1 ≡ s2 →
  (terminal_capture_from_state bytes s1).1 = (terminal_capture_from_state bytes s2).1 ∧
  (terminal_capture_from_state bytes s1).2 ≡ (terminal_capture_from_state bytes s2).2.
Proof.
  intros Hw1 Hw2 [He Hp]. rewrite !terminal_capture_from_state_eq Hp. cbn [fst snd].
  apply capture_scan_proper; [by apply clear_pending_open..|]. split; [done|]. by split.
Qed.

Lemma capture_wf_default : capture_wf TerminalCaptureState_default.
Proof. split; simpl; lia. Qed.

(** Feeding a stream to the incremental capture in two chunks gives the output of
    feeding it whole, and a state that later input cannot tell apart from it, wherever
    the cut falls, inside an escape sequence or a UTF-8 character too. *)
Theorem terminal_capture_chunked c1 c2 state :
  capture_wf state →
  let '(o1, s1) := terminal_capture_from_state c1 state in
  let '(o2, s2) := terminal_capture_from_state c2 s1 in
  let '(o, s) := terminal_capture_from_state (c1 ++ c2) state in
  capture_wf s1 ∧ o = o1 ++ o2 ∧ s ≡ s2.
Proof. apply terminal_capture_app. Qed.

(** A character split over two chunks. *)
Lemma terminal_capture_chunked_witness :
  let '(o1, s1) := terminal_capture_from_state [0x61; 0xed] TerminalCaptureState_default in
  let '(o2, s2) := terminal_capture_from_state [0x95; 0x9c] s1 in
  let '(o, s) := terminal_capture_from_state [0x61; 0xed; 0x95; 0x9c] TerminalCaptureState_default in
  capture_wf s1 ∧ o = o1 ++ o2 ∧ s ≡ s2.
Proof.
  apply (terminal_capture_chunked [0x61; 0xed] [0x95; 0x9c] TerminalCaptureState_default).
  split; simpl; lia.
Defined.

(** A lead byte at the very end of the input holds back the bytes after it even when
    they cannot continue it, and the final flush replaces the lot: the [A] is lost. *)
Example capture_end_drops_ascii : terminal_capture [0xe2; 0x41] = [0xfffd].
Proof. vm_compute. reflexivity. Qed.

Example capture_middle_keeps_ascii : terminal_capture [0xe2; 0x41; 0x42] = [0xfffd; 0x41; 0x42].
Proof. vm_compute. reflexivity. Qed.

(** ** The grammar of a sanitized status line *)

Definition is_param_byte (b : byte) : bool :=
  within 0x30 0x39 b || (b =? 0x3b) || (b =? 0x3a).

Definition semicolons (ps : list byte) : nat := length (List.filter (Z.eqb 0x3b) ps).

(** The parameters of an SGR sequence that may reach the terminal. *)
Definition sgr_params (ps : list byte) : Prop :=
  Forall (λ b, is_param_byte b = true) ps ∧
  (length ps ≤ MAX_CSI_PARAM_BYTES)%nat ∧ (semicolons ps < MAX_CSI_PARAM_COUNT)%nat.

(** Printable characters and, with colors allowed, bounded SGR sequences. *)
Inductive status_line (color : bool) : str → Prop :=
  | status_line_nil : status_line color []
  | status_line_char c l :
      plain_char c = true → status_line color l → status_line color (c :: l)
  | status_line_sgr ps l :
      color = true → sgr_params ps → status_line color l →
      status_line color ([0x1b; 0x5b] ++ ps ++ [0x6d] ++ l).

#[export] Hint Constructors status_line : lterm.

Lemma status_line_app color a b :
  status_line color a → status_line color b → status_line color (a ++ b).
Proof.
  intros Ha Hb. induction Ha; simpl; auto with lterm.
  rewrite -app_assoc. by apply status_line_sgr.
Qed.

Lemma status_line_plain color l :
  Forall (λ ch, plain_char ch = true) l → status_line color l.
Proof. induction 1; auto with lterm. Qed.

(** Case analysis on the tests of a round, without touching what each arm returns. *)
Ltac arm_cases H :=
  repeat match type of H with
  | (if ?e then _ else _) = _ => destruct e eqn:?
  | (match ?e with _ => _ end) = _ => destruct e eqn:?
  end.

Lemma status_step_advances color : advances (status_step color).
Proof.
  intros l [|b bs] l' n H; [done|].
  unfold status_step, status_step_at, sl_ground, sl_esc, sl_csi, sl_string, sl_string_esc,
    sl_csi_final, sl_csi_param in H.
  arm_cases H; try discriminate H; unfold sl_next, sl_enter_csi, sl_invalid in H;
    injection H as _ <-; eauto with lterm.
Qed.

(** The invariant of the scanner's locals. *)
Record status_inv (color : bool) (l : status_locals) : Prop := {
  inv_line : status_line color (sl_out l);
  inv_plain : emitted_sgr l = false → Forall (λ ch, plain_char ch = true) (sl_out l);
  inv_color : emitted_sgr l = true → color = true;
  inv_bytes : Forall (λ b, is_param_byte b = true) (csi_params l);
  inv_len : (length (csi_params l) ≤ MAX_CSI_PARAM_BYTES)%nat;
  inv_count : csi_param_semicolons l = semicolons (csi_params l);
  inv_limit : (csi_param_semicolons l < MAX_CSI_PARAM_COUNT)%nat;
}.

Lemma status_inv_next color l e emit n l' :
  sl_next l e emit n = Continue l' n → Forall (λ ch, plain_char ch = true) emit →
  status_inv color l → status_inv color l'.
Proof.
  intros [= <-] He [Hline Hplain Hcol Hb Hl Hc Hlim]. split; simpl; try done.
  - apply status_line_app; [done|]. by apply status_line_plain.
  - intros Hs. apply Forall_app_2; auto.
Qed.

Lemma status_inv_enter color l n l' :
  sl_enter_csi l n = Continue l' n → status_inv color l → status_inv color l'.
Proof. intros [= <-] []. split; simpl; try done; unfold MAX_CSI_PARAM_BYTES, MAX_CSI_PARAM_COUNT; lia. Qed.

Lemma status_inv_invalid color l n l' :
  sl_invalid l n = Continue l' n → status_inv color l → status_inv color l'.
Proof. intros [= <-] []. by split. Qed.

Lemma semicolons_snoc ps b :
  semicolons (ps ++ [b]) = (semicolons ps + (if (b =? 0x3b)%Z then 1 else 0))%nat.
Proof.
  unfold semicolons. rewrite List.filter_app length_app (Z.eqb_sym b). cbn [List.filter].
  by destruct (0x3b =? b).
Qed.

Lemma status_inv_param color l b n l' :
  is_param_byte b = true → sl_csi_param l b = Continue l' n →
  status_inv color l → status_inv color l'.
Proof.
  intros Hb H Hinv. unfold sl_csi_param in H. cbn zeta in H.
  destruct (csi_valid l) eqn:Hv.
  - destruct (_ || _) eqn:Hlim.
    + pose proof H as [= _ <-]. by eapply status_inv_invalid.
    + injection H as <- <-. destruct Hinv as [? ? ? Hps Hl Hc ?].
      apply orb_false in Hlim as [Hl1%Nat.leb_gt Hl2].
      unfold MAX_CSI_PARAM_BYTES, MAX_CSI_PARAM_COUNT in *.
      split; simpl; try done.
      * by apply Forall_app_2; [|constructor].
      * rewrite length_app /=. unfold MAX_CSI_PARAM_BYTES. lia.
      * rewrite semicolons_snoc Hc. destruct (b =? 0x3b); lia.
      * unfold MAX_CSI_PARAM_COUNT. destruct (b =? 0x3b); [|lia].
        rewrite andb_true_l in Hl2. apply Nat.leb_gt in Hl2. lia.
  - pose proof H as [= _ <-]. eapply status_inv_next; [exact H|done|done].
Qed.

Lemma status_inv_final color l b n l' :
  sl_csi_final color l b = Continue l' n → status_inv color l → status_inv color l'.
Proof.
  intros H Hinv. unfold sl_csi_final in H. destruct (_ && _) eqn:Hcond.
  - inv_ok. injection H as <- <-. destruct Hinv as [? ? ? Hps Hl Hc ?]. split; simpl; try done.
    apply status_line_app; [done|].
    rewrite -[[0x6d]]app_nil_r. apply (status_line_sgr color (csi_params l) []); [done| |constructor].
    split; [done|]. split; [done|]. by rewrite -Hc.
  - pose proof H as [= _ <-]. eapply status_inv_next; [exact H|done|done].
Qed.

Lemma status_step_inv color l b bs l' n :
  status_step color l (b :: bs) = Continue l' n → status_inv color l → status_inv color l'.
Proof.
  intros H Hinv. unfold status_step, status_step_at in H.
  unfold sl_ground, sl_esc, sl_csi, sl_string, sl_string_esc in H.
  arm_cases H; try discriminate H.
  all: lazymatch type of H with
  | sl_enter_csi _ _ = _ => pose proof H as [= _ <-]; by eapply status_inv_enter
  | sl_invalid _ _ = _ => pose proof H as [= _ <-]; by eapply status_inv_invalid
  | sl_csi_final _ _ _ = _ => by eapply status_inv_final
  | sl_csi_param _ _ = _ => by eapply status_inv_param
  | sl_next _ _ [] _ = _ => pose proof H as [= _ <-]; by eapply status_inv_next
  | sl_next _ _ _ _ = _ => pose proof H as [= _ <-]; eapply status_inv_next; [exact H| |done]
  end.
  all: constructor; [|constructor]; unfold plain_char.
  all: try match goal with H : decode_utf8_char _ = Some _ |- _ =>
    apply decode_utf8_char_sound in H as (?&_) end.
  all: unfold is_char, is_c0_or_c1, one_of, within in *; simpl in *; lia.
Qed.

Lemma status_scan_inv color bs :
  status_inv color (scan (status_step color) bs status_locals_init).
Proof.
  apply (scan_inv (status_step color) (status_step_advances color) (status_inv color)).
  - intros l b bs' l' Hl Hbr. unfold status_step, status_step_at in Hbr.
    unfold sl_ground, sl_esc, sl_csi, sl_string, sl_string_esc, sl_csi_final, sl_csi_param in Hbr.
    arm_cases Hbr; try discriminate Hbr. by injection Hbr as <-.
  - intros. by eapply status_step_inv.
  - split; simpl; try done; unfold MAX_CSI_PARAM_BYTES, MAX_CSI_PARAM_COUNT;
      auto with lterm; lia.
Qed.

Lemma sgr_reset_line : status_line true sgr_reset.
Proof.
  apply (status_line_sgr true [0x30] []); [done| |constructor].
  split; [by repeat constructor|]. unfold MAX_CSI_PARAM_BYTES, MAX_CSI_PARAM_COUNT. cbn. lia.
Qed.

Lemma sanitize_line_shape bytes allow_color :
  let out := sanitize_status_command_line bytes allow_color in
  status_line allow_color out ∧
  (Forall (λ ch, plain_char ch = true) out ∨ ∃ body, out = body ++ sgr_reset).
Proof.
  unfold sanitize_status_command_line. cbn zeta.
  destruct (status_scan_inv allow_color bytes) as [Hline Hplain Hcol _ _ _ _].
  destruct (emitted_sgr _) eqn:He.
  - specialize (Hcol eq_refl). subst. split; [|eauto].
    apply status_line_app; [done|apply sgr_reset_line].
  - split; [done|]. left. by apply Hplain.
Qed.

(** Whatever an untrusted status command prints, the sanitized line is made of
    printable characters and, only when colors are allowed, of complete SGR sequences of
    at most 64 parameter bytes and 16 parameters; it holds no line break; and it either
    has no escape at all or ends with the reset sequence. *)
Theorem sanitize_status_command_line_grammar bytes allow_color :
  let out := sanitize_status_command_line bytes allow_color in
  status_line allow_color out ∧
  (Forall (λ ch, plain_char ch = true) out ∨ ∃ body, out = body ++ sgr_reset).
Proof. apply sanitize_line_shape. Qed.

(** ** Splitting and truncating a status line *)

(** A complete parameter-only SGR, or text free of ESC. *)
Definition segment_ok (seg : StatusSegment) : Prop :=
  match seg with
  | Sgr seq => ∃ ps, seq = [0x1b; 0x5b] ++ ps ++ [0x6d] ∧ Forall (λ b, is_param_byte b = true) ps
  | Text text => 0x1b ∉ text
  end.

Lemma csi_end_sgr bs valid n :
  csi_end bs valid = (n, true) →
  valid = true ∧ ∃ ps, take n bs = ps ++ [0x6d] ∧ Forall (λ b, is_param_byte b = true) ps.
Proof.
  revert valid n. induction bs as [|b bs IH]; intros valid n; simpl; [done|].
  destruct (within _ _ b || _ || _) eqn:Hp.
  { destruct (csi_end bs valid) as [m s] eqn:Hm. intros [= <- ->].
    apply IH in Hm as [-> (ps & Hps & Hall)]. split; [done|].
    exists (b :: ps). simpl. rewrite Hps. split; [done|by constructor]. }
  destruct (Z.eqb_spec b 0x6d) as [->|].
  { intros [= <- ->]. split; [done|]. by exists []. }
  destruct (within 0x40 0x7e b); [done|]. destruct (b =? 0x1b); [done|].
  destruct (csi_end bs false) as [m s] eqn:Hm. intros [= <- ->].
  by apply IH in Hm as [? _].
Qed.

Lemma csi_end_params ps rest :
  Forall (λ b, is_param_byte b = true) ps →
  csi_end (ps ++ 0x6d :: rest) true = (S (length ps), true).
Proof.
  induction 1 as [|b ps Hb _ IH]; simpl; [done|].
  unfold is_param_byte in Hb. rewrite Hb. by rewrite IH.
Qed.

Lemma split_step_text l b rest :
  b ≠ 0x1b →
  split_step l (b :: rest) =
  Continue {| segments := segments l; open_text := open_text l ++ [b] |} 1.
Proof.
  intros Hb. unfold split_step. destruct b as [|p|p]; try done.
  repeat (destruct p as [p|p|]; try done).
Qed.

Lemma split_step_esc l rest :
  rest = [] ∨ head rest ≠ Some 0x5b →
  split_step l (0x1b :: rest) = Continue {| segments := close_text l; open_text := [] |} 1.
Proof.
  intros Hb. unfold split_step. destruct rest as [|b rest]; [done|].
  destruct b as [|p|p]; try done.
  repeat (destruct p as [p|p|]; try done). by destruct Hb.
Qed.

Lemma split_step_csi l rest n sgr :
  csi_end rest true = (n, sgr) →
  split_step l (0x1b :: 0x5b :: rest) =
  Continue {| segments := close_text l
                ++ (if sgr then [Sgr (0x1b :: 0x5b :: take n rest)] else []);
              open_text := [] |} (2 + n).
Proof. intros H. unfold split_step. by rewrite H. Qed.

(** The three shapes of input a round can meet. *)
Lemma split_input_cases (b : byte) (rest : list byte) :
  b ≠ 0x1b ∨ (b = 0x1b ∧ (rest = [] ∨ head rest ≠ Some 0x5b)) ∨
  (b = 0x1b ∧ ∃ rest', rest = 0x5b :: rest').
Proof.
  destruct (decide (b = 0x1b)); [|by left]. right.
  destruct rest as [|c rest]; [left; by auto|].
  destruct (decide (c = 0x5b)) as [->|]; [right; eauto|].
  left. split; [done|]. right. simpl. congruence.
Qed.

Lemma split_step_advances : advances split_step.
Proof.
  intros l [|b rest] l' n H; [done|].
  destruct (split_input_cases b rest) as [Hb|[[-> Hr]|[-> [rest' ->]]]].
  - rewrite split_step_text // in H. by injection H as _ <-.
  - rewrite split_step_esc // in H. by injection H as _ <-.
  - destruct (csi_end rest' true) as [m s] eqn:Hm.
    rewrite (split_step_csi _ _ _ _ Hm) in H. injection H as _ <-. lia.
Qed.

Definition split_inv (l : split_locals) : Prop :=
  Forall segment_ok (segments l) ∧ 0x1b ∉ open_text l.

Lemma close_text_ok l : split_inv l → Forall segment_ok (close_text l).
Proof.
  intros [Hs Ht]. unfold close_text. destruct (open_text l) as [|b t] eqn:E; [done|].
  apply Forall_app_2; [done|]. constructor; [|done]. done.
Qed.

Lemma split_step_inv l b rest l' n :
  split_step l (b :: rest) = Continue l' n → split_inv l → split_inv l'.
Proof.
  intros H Hinv. destruct (split_input_cases b rest) as [Hb|[[-> Hr]|[-> [rest' ->]]]].
  - rewrite split_step_text // in H. injection H as <- <-. destruct Hinv as [? Ht].
    split; simpl; [done|]. rewrite not_elem_of_app list_elem_of_singleton. by split.
  - rewrite split_step_esc // in H. injection H as <- <-.
    split; simpl; [by apply close_text_ok|]. apply not_elem_of_nil.
  - destruct (csi_end rest' true) as [m s] eqn:Hm.
    rewrite (split_step_csi _ _ _ _ Hm) in H. injection H as <- <-.
    split; simpl; [|apply not_elem_of_nil]. apply Forall_app_2; [by apply close_text_ok|].
    destruct s; [|done]. constructor; [|done].
    apply csi_end_sgr in Hm as [_ (ps & -> & Hps)]. by exists ps.
Qed.

(** Any line splits into complete SGR sequences and text without ESC. *)
Lemma split_sgr_and_text_ok line : Forall segment_ok (split_sgr_and_text line).
Proof.
  unfold split_sgr_and_text. apply close_text_ok.
  apply (scan_inv split_step split_step_advances split_inv).
  - intros l b rest l' _ H. exfalso.
    destruct (split_input_cases b rest) as [Hb|[[-> Hr]|[-> [rest' ->]]]].
    + by rewrite split_step_text in H.
    + by rewrite split_step_esc in H.
    + destruct (csi_end rest' true) as [m s] eqn:Hm. by rewrite (split_step_csi _ _ _ _ Hm) in H.
  - intros. by eapply split_step_inv.
  - split; [constructor|apply not_elem_of_nil].
Qed.

Definition segments_bytes (segs : list StatusSegment) : list byte :=
  mjoin (segment_bytes <$> segs).

Lemma segments_bytes_app a b : segments_bytes (a ++ b) = segments_bytes a ++ segments_bytes b.
Proof. unfold segments_bytes. by rewrite fmap_app join_app. Qed.

Lemma close_text_bytes l :
  segments_bytes (close_text l) = segments_bytes (segments l) ++ open_text l.
Proof.
  unfold close_text. destruct (open_text l) as [|b t]; [by rewrite app_nil_r|].
  rewrite segments_bytes_app. unfold segments_bytes at 2. simpl. by rewrite app_nil_r.
Qed.

Lemma split_scan_text bs rest l :
  0x1b ∉ bs →
  scan split_step (bs ++ rest) l =
  scan split_step rest {| segments := segments l; open_text := open_text l ++ bs |}.
Proof.
  revert l. induction bs as [|b bs IH]; intros l Hb; simpl.
  { rewrite app_nil_r. by destruct l. }
  apply not_elem_of_cons in Hb as [Hb Hbs].
  rewrite (scan_cons split_step split_step_advances) split_step_text //.
  cbn [drop]. rewrite drop_0 IH //. cbn [segments open_text]. by rewrite -app_assoc.
Qed.

Lemma encode_no_esc c : plain_char c = true → 0x1b ∉ encode c.
Proof.
  unfold plain_char, is_char, is_c0_or_c1, within, encode. intros Hc.
  split_tests; rewrite !not_elem_of_cons; repeat split; try apply not_elem_of_nil; dlia.
Qed.

Lemma params_ascii ps : Forall (λ b, is_param_byte b = true) ps → Forall (λ b, 0 ≤ b < 0x80) ps.
Proof.
  intros H. eapply Forall_impl; [exact H|]. intros b. unfold is_param_byte, within. lia.
Qed.

(** Splitting a line of the grammar loses nothing. *)
Lemma split_scan_line color line l :
  status_line color line →
  segments_bytes (close_text (scan split_step (utf8 line) l)) =
  segments_bytes (close_text l) ++ utf8 line.
Proof.
  intros Hline. revert l. induction Hline as [|c line Hc _ IH|ps line _ [Hps _] _ IH]; intros l.
  - cbn. by rewrite app_nil_r.
  - rewrite utf8_cons split_scan_text; [|by apply encode_no_esc].
    rewrite IH !close_text_bytes /=. by rewrite -!app_assoc.
  - rewrite !utf8_app (utf8_ascii ps); [|by apply params_ascii].
    rewrite (utf8_ascii [0x1b; 0x5b]); [|by repeat constructor].
    rewrite (utf8_ascii [0x6d]); [|by repeat constructor]. cbn [app].
    pose proof (csi_end_params ps (utf8 line) Hps) as Hend.
    rewrite (scan_cons split_step split_step_advances) (split_step_csi _ _ _ _ Hend).
    rewrite (_ : drop (2 + S (length ps)) (0x1b :: 0x5b :: ps ++ 0x6d :: utf8 line) = utf8 line).
    { rewrite IH close_text_bytes /= app_nil_r segments_bytes_app /=.
      unfold segments_bytes at 2. simpl.
      rewrite (_ : take (S (length ps)) (ps ++ 0x6d :: utf8 line) = ps ++ [0x6d]).
      { rewrite app_nil_r -app_assoc. cbn [app]. by rewrite -app_assoc. }
      rewrite (_ : ps ++ 0x6d :: utf8 line = (ps ++ [0x6d]) ++ utf8 line); [|by rewrite -app_assoc].
      apply take_app_length'. rewrite length_app /=. lia. }
    simpl. rewrite (_ : ps ++ 0x6d :: utf8 line = (ps ++ [0x6d]) ++ utf8 line); [|by rewrite -app_assoc].
    apply drop_app_length'. rewrite length_app /=. lia.
Qed.

Section truncate_theorems.
Context (width_of : list byte → nat) (graphemes : list byte → list (list byte)).
(** [graphemes] partitions the string it is given. *)
Context (graphemes_concat : ∀ text, mjoin (graphemes text) = text).

Definition pieces_width (pieces : list StatusSegment) : nat :=
  sum_list (segment_width width_of <$> pieces).

Lemma push_clusters_spec target acc clusters buf acc' tr :
  push_clusters width_of target acc clusters = (buf, acc', tr) → (acc ≤ target)%nat →
  ∃ pushed, pushed `prefix_of` clusters ∧ buf = mjoin pushed ∧
    acc' = (acc + sum_list (width_of <$> pushed))%nat ∧ (acc' ≤ target)%nat.
Proof using Type.
  clear graphemes graphemes_concat.
  revert acc buf acc' tr. induction clusters as [|c cs IH]; intros acc buf acc' tr H Hacc; simpl in H.
  { injection H as <- <- <-. exists []. simpl. repeat split; [done|lia|done]. }
  destruct (Nat.ltb_spec target (acc + width_of c)) as [|Hle].
  { injection H as <- <- <-. exists []. simpl. split; [apply prefix_nil|]. repeat split; [lia|done]. }
  destruct (push_clusters width_of target (acc + width_of c) cs) as [[b a] t] eqn:E.
  injection H as <- <- <-. apply IH in E as (pushed & Hpre & -> & -> & Hle'); [|done].
  exists (c :: pushed).
  change (sum_list (width_of <$> c :: pushed)) with (width_of c + sum_list (width_of <$> pushed))%nat.
  split; [by apply prefix_cons|]. split; [done|]. split; lia.
Qed.

Lemma push_truncated_spec target acc segs buf emitted :
  push_truncated width_of graphemes target acc segs = (buf, emitted) →
  (acc ≤ target)%nat → Forall segment_ok segs →
  ∃ pieces, buf = segments_bytes pieces ∧ emitted = existsb is_sgr_segment pieces ∧
    Forall segment_ok pieces ∧ (acc + pieces_width pieces ≤ target)%nat.
Proof using graphemes_concat.
  revert acc buf emitted. induction segs as [|seg segs IH]; intros acc buf emitted H Hacc Hok.
  { injection H as <- <-. exists []. cbn. repeat split; [constructor|lia]. }
  inversion Hok as [|? ? Hseg Hsegs]; subst. destruct seg as [seq|text]; simpl in H.
  - destruct (acc <? target)%nat eqn:Hlt.
    + destruct (push_truncated _ _ target acc segs) as [b e] eqn:E. injection H as <- <-.
      apply IH in E as (pieces & -> & -> & Hp & Hw); [|done..].
      exists (Sgr seq :: pieces). repeat split; [by constructor|]. done.
    + injection H as <- <-. exists []. cbn. repeat split; [constructor|lia].
  - destruct (push_clusters _ target acc (graphemes text)) as [[b acc'] tr] eqn:E.
    apply push_clusters_spec in E as (pushed & [rest Hpre] & -> & -> & Hle); [|done].
    assert (Forall segment_ok (Text <$> pushed)) as Hpushed.
    { apply Forall_fmap, Forall_forall. intros c Hc. simpl. intros Hesc. apply Hseg.
      rewrite -(graphemes_concat text) Hpre. apply list_elem_of_join.
      exists c. split; [done|]. apply elem_of_app. by left. }
    assert (segments_bytes (Text <$> pushed) = mjoin pushed) as Hb.
    { unfold segments_bytes. rewrite -list_fmap_compose. f_equal. apply list_fmap_id. }
    assert (pieces_width (Text <$> pushed) = sum_list (width_of <$> pushed)) as Hw.
    { unfold pieces_width. by rewrite -list_fmap_compose. }
    assert (existsb is_sgr_segment (Text <$> pushed) = false) as Hns.
    { clear. by induction pushed. }
    destruct tr.
    + injection H as <- <-. exists (Text <$> pushed). rewrite Hb Hw Hns. repeat split; [done|lia].
    + destruct (push_truncated _ _ target _ segs) as [b' e] eqn:E'. injection H as <- <-.
      apply IH in E' as (pieces & -> & -> & Hp & Hpw); [|done..].
      exists ((Text <$> pushed) ++ pieces). rewrite segments_bytes_app Hb existsb_app Hns.
      repeat split; [by apply Forall_app_2|].
      unfold pieces_width in *. rewrite fmap_app sum_list_with_app. lia.
Qed.

(** A truncated status line consists of complete SGR sequences and of text clusters
    free of ESC, whose display widths, with one cell for the ellipsis when there is one,
    sum to at most [max_width]; the reset is appended exactly when a sequence was kept. *)
Theorem truncate_status_line_ansi_bounded line max_width :
  0 ≤ max_width →
  ∃ pieces (ellipsis : bool),
    truncate_status_line_ansi width_of graphemes line max_width =
      segments_bytes pieces ++ (if ellipsis then encode 0x2026 else [])
      ++ (if existsb is_sgr_segment pieces then sgr_reset else []) ∧
    Forall segment_ok pieces ∧
    Z.of_nat (pieces_width pieces) + (if ellipsis then 1 else 0) ≤ max_width.
Proof using graphemes_concat.
  intros Hmax. unfold truncate_status_line_ansi.
  destruct (Nat.eqb_spec (Z.to_nat max_width) 0) as [H0|H0].
  { exists [], false. repeat split; [constructor|]. cbn. lia. }
  set (segs := split_sgr_and_text line).
  pose proof (split_sgr_and_text_ok line) as Hok. fold segs in Hok.
  destruct (Nat.leb_spec (sum_list (segment_width width_of <$> segs)) (Z.to_nat max_width)) as [Hfit|Hcut].
  { exists segs, false. unfold pieces_width. repeat split; [|done|lia].
    cbn [app]. unfold segments_bytes. by destruct (existsb _ _); rewrite ?app_nil_r. }
  destruct (push_truncated _ _ _ 0 segs) as [buf emitted] eqn:E.
  apply push_truncated_spec in E as (pieces & -> & -> & Hp & Hw); [|lia|done].
  exists pieces, (2 <=? Z.to_nat max_width)%nat.
  destruct (Nat.leb_spec 2 (Z.to_nat max_width)); simpl.
  - repeat split; [|done|lia]. destruct (existsb _ _); by rewrite -?app_assoc ?app_nil_r.
  - repeat split; [|done|lia]. destruct (existsb _ _); by rewrite ?app_nil_r.
Qed.

(** A sanitized status line that fits the width is passed through unchanged, but for a
    reset appended when it has color. *)
Theorem truncate_status_line_ansi_fits bytes color max_width :
  let line := utf8 (sanitize_status_command_line bytes color) in
  0 < max_width →
  Z.of_nat (pieces_width (split_sgr_and_text line)) ≤ max_width →
  truncate_status_line_ansi width_of graphemes line max_width =
  line ++ (if existsb is_sgr_segment (split_sgr_and_text line) then sgr_reset else []).
Proof using Type.
  clear graphemes_concat. intros line Hpos Hfit. unfold truncate_status_line_ansi.
  destruct (Nat.eqb_spec (Z.to_nat max_width) 0); [lia|].
  destruct (Nat.leb_spec (sum_list (segment_width width_of <$> split_sgr_and_text line))
    (Z.to_nat max_width)); [|unfold pieces_width in Hfit; lia].
  assert (mjoin (segment_bytes <$> split_sgr_and_text line) = line) as ->.
  { unfold split_sgr_and_text. change (mjoin _) with
      (segments_bytes (close_text (scan split_step line {| segments := []; open_text := [] |}))).
    unfold line. erewrite split_scan_line; [done|].
    apply sanitize_line_shape. }
  by destruct (existsb _ _); rewrite ?app_nil_r.
Qed.
End truncate_theorems.

Lemma truncate_status_line_ansi_bounded_witness :
  ∃ pieces (ellipsis : bool),
    truncate_status_line_ansi length (fmap (λ b, [b])) (lit "abcdef") 4 =
      segments_bytes pieces ++ (if ellipsis then encode 0x2026 else [])
      ++ (if existsb is_sgr_segment pieces then sgr_reset else []) ∧
    Forall segment_ok pieces ∧
    Z.of_nat (pieces_width length pieces) + (if ellipsis then 1 else 0) ≤ 4.
Proof.
  apply truncate_status_line_ansi_bounded; [|lia].
  intros text. induction text as [|b text IH]; [done|]. cbn. f_equal. exact IH.
Defined.

Lemma truncate_status_line_ansi_fits_witness :
  truncate_status_line_ansi length (fmap (λ b, [b])) (lit "abc") 4 = lit "abc".
Proof.
  apply (truncate_status_line_ansi_fits length (fmap (λ b, [b])) (lit "abc") false 4);
    [lia|vm_compute; done].
Defined.
