(* ===== verification/Base64.v ===== *)
(** The byte payloads of [src/protocol.rs]: [send_data_serde] (base64 with an optional
    padding), [capability_data_serde], and the canonical form of the speculation paths and
    argument vectors.

    The theorems: decoding inverts encoding; a decoded string is, up to its padding, the
    encoding of what was decoded, so the wire form of a payload is unique; the canonical
    decoder accepts exactly the encodings of the payloads within its bound; an argument
    vector survives its wire form exactly when it respects the entry and byte bounds. *)
From S2P Require Import Prelude Utf8.

Definition MAX_SEND_DATA_BYTES : Z := 700 * 1024.
Definition MAX_CAPABILITY_INPUT_BYTES : Z := 64 * 1024.
Definition MAX_SPECULATION_PATH_BYTES : Z := 4096.
Definition MAX_SPECULATION_ARGV_ENTRIES : Z := 256.
Definition MAX_SPECULATION_ARG_BYTES : Z := 64 * 1024.
Definition MAX_SPECULATION_ARGV_BYTES : Z := 256 * 1024.

Abbreviation zlen l := (Z.of_nat (length l)).

(** ** [send_data_serde] *)

Definition BASE64 : list byte :=
  lit "ABCDEFGHIJKLMNOPQRSTUVWXYZabcdefghijklmnopqrstuvwxyz0123456789+/".

Definition base64_char (index : Z) : char := BASE64 !!! Z.to_nat index.

(** The characters of one [chunk] of [data.chunks(3)]. *)
Definition encode_chunk (chunk : list byte) : str :=
  let b0 := chunk !!! 0%nat in
  let b1 := default 0 (chunk !! 1%nat) in
  let b2 := default 0 (chunk !! 2%nat) in
  [base64_char (Z.shiftr b0 2);
   base64_char (Z.lor (Z.shiftl (Z.land b0 0x03) 4) (Z.shiftr b1 4));
   if (1 <? length chunk)%nat
   then base64_char (Z.lor (Z.shiftl (Z.land b1 0x0f) 2) (Z.shiftr b2 6)) else 0x3d;
   if (2 <? length chunk)%nat then base64_char (Z.land b2 0x3f) else 0x3d].

Fixpoint encode_base64 (data : list byte) : str :=
  match data with
  | [] => []
  | b0 :: b1 :: b2 :: rest => encode_chunk [b0; b1; b2] ++ encode_base64 rest
  | chunk => encode_chunk chunk
  end.

(** The messages of the source. *)
Inductive Base64Error : Set :=
  | MustBeAscii
  | PaddingOnlyAtEnd
  | InvalidLength
  | NonCanonicalTailBits
  | InvalidCharacter (byte : Z)
  | SendDataExceeds (max : Z).

#[global] Instance Base64Error_eq_dec : EqDecision Base64Error.
Proof. solve_decision. Defined.

Definition decode_char (byte : Z) : result Base64Error Z :=
  if within 0x41 0x5a byte then Ok (byte - 0x41)
  else if within 0x61 0x7a byte then Ok (byte - 0x61 + 26)
  else if within 0x30 0x39 byte then Ok (byte - 0x30 + 52)
  else if byte =? 0x2b then Ok 62
  else if byte =? 0x2f then Ok 63
  else Err (InvalidCharacter byte).

(** [as u8] of a shift. *)
Definition shl_u8 (a k : Z) : Z := Z.land (Z.shiftl a k) 0xff.

Definition push_decoded_quartet (out : list byte) (quartet : list Z) (bytes : Z)
    : result Base64Error (list byte) :=
  if zlen out + bytes >? MAX_SEND_DATA_BYTES then Err (SendDataExceeds MAX_SEND_DATA_BYTES) else
  let q i := quartet !!! i in
  let out := out ++ [Z.lor (shl_u8 (q 0%nat) 2) (Z.shiftr (q 1%nat) 4)] in
  let out := if bytes >? 1
             then out ++ [Z.lor (shl_u8 (q 1%nat) 4) (Z.shiftr (q 2%nat) 2)] else out in
  let out := if bytes >? 2 then out ++ [Z.lor (shl_u8 (q 2%nat) 6) (q 3%nat)] else out in
  Ok out.

(** The mutable locals of [decode_base64]. *)
Record decode_locals : Set := {
  dl_out : list byte;
  quartet : list Z;
  quartet_len : nat;
}.

(** The body of [for byte in trimmed.bytes()]. *)
Definition decode_step (l : decode_locals) (byte : Z) : result Base64Error decode_locals :=
  v ← decode_char byte;
  let quartet := <[quartet_len l := v]> (quartet l) in
  let quartet_len := S (quartet_len l) in
  if (quartet_len =? 4)%nat then
    out ← push_decoded_quartet (dl_out l) quartet 3;
    Ok {| dl_out := out; quartet := quartet; quartet_len := 0 |}
  else Ok {| dl_out := dl_out l; quartet := quartet; quartet_len := quartet_len |}.

Fixpoint decode_loop (bytes : list byte) (l : decode_locals) : result Base64Error decode_locals :=
  match bytes with
  | [] => Ok l
  | byte :: bytes => decode_step l byte ≫= decode_loop bytes
  end.

(** The final [match quartet_len]. *)
Definition decode_tail (l : decode_locals) : result Base64Error (list byte) :=
  match quartet_len l with
  | 0%nat => Ok (dl_out l)
  | 2%nat =>
    _ ← bail_if (negb (Z.land (quartet l !!! 1%nat) 0x0f =? 0)) NonCanonicalTailBits;
    push_decoded_quartet (dl_out l) (quartet l) 1
  | 3%nat =>
    _ ← bail_if (negb (Z.land (quartet l !!! 2%nat) 0x03 =? 0)) NonCanonicalTailBits;
    push_decoded_quartet (dl_out l) (quartet l) 2
  | _ => Err InvalidLength
  end.

(** [str::trim_end_matches]. *)
Fixpoint trim_end_matches (c : char) (s : str) : str :=
  match s with
  | [] => []
  | x :: s =>
    match trim_end_matches c s with
    | [] => if x =? c then [] else [x]
    | s' => x :: s'
    end
  end.

Definition is_ascii (s : str) : bool := forallb (λ c, c <? 0x80) s.

Definition decode_base64 (value : str) : result Base64Error (list byte) :=
  _ ← bail_if (negb (is_ascii value)) MustBeAscii;
  let trimmed := trim_end_matches 0x3d value in
  let padding := zlen value - zlen trimmed in
  _ ← bail_if (existsb (Z.eqb 0x3d) (take (length trimmed) value)) PaddingOnlyAtEnd;
  _ ← bail_if ((padding >? 2) || ((padding >? 0) && negb (zlen value mod 4 =? 0))
               || (zlen trimmed mod 4 =? 1)) InvalidLength;
  tail ← match zlen trimmed mod 4 with
         | 0 => Ok 0 | 2 => Ok 1 | 3 => Ok 2 | _ => Err InvalidLength
         end;
  let max_decoded := zlen trimmed / 4 * 3 + tail in
  _ ← bail_if (max_decoded >? MAX_SEND_DATA_BYTES) (SendDataExceeds MAX_SEND_DATA_BYTES);
  l ← decode_loop trimmed {| dl_out := []; quartet := [0; 0; 0; 0]; quartet_len := 0 |};
  decode_tail l.

(** [SendDataVisitor]: a string is base64, a sequence holds the bytes. *)
Inductive wire_data : Set :=
  | WireStr (value : str)
  | WireSeq (elements : list byte).

(** [visit_seq] with the bound of the visitor. *)
Fixpoint visit_seq (max : Z) (elements : list byte) (bytes : list byte)
    : result Base64Error (list byte) :=
  match elements with
  | [] => Ok bytes
  | byte :: elements =>
    if zlen bytes >=? max then Err (SendDataExceeds max)
    else visit_seq max elements (bytes ++ [byte])
  end.

Definition send_data_deserialize (d : wire_data) : result Base64Error (list byte) :=
  match d with
  | WireStr value => decode_base64 value
  | WireSeq elements => visit_seq MAX_SEND_DATA_BYTES elements []
  end.

Definition send_data_serialize (data : list byte) : wire_data := WireStr (encode_base64 data).

(** [usize::div_ceil]. *)
Definition div_ceil (a b : Z) : Z := (a + b - 1) / b.

Definition capability_data_visit_str (value : str) : result Base64Error (list byte) :=
  let max_encoded := div_ceil MAX_CAPABILITY_INPUT_BYTES 3 * 4 in
  _ ← bail_if (str_len value >? max_encoded) (SendDataExceeds MAX_CAPABILITY_INPUT_BYTES);
  bytes ← decode_base64 value;
  _ ← bail_if (zlen bytes >? MAX_CAPABILITY_INPUT_BYTES) (SendDataExceeds MAX_CAPABILITY_INPUT_BYTES);
  Ok bytes.

Definition capability_data_deserialize (d : wire_data) : result Base64Error (list byte) :=
  match d with
  | WireStr value => capability_data_visit_str value
  | WireSeq elements => visit_seq MAX_CAPABILITY_INPUT_BYTES elements []
  end.

(** ** Speculation paths and argument vectors *)

(** The [Err(())] of the source carries nothing. *)
Definition decode_canonical_speculation_base64 (value : str) (max_bytes : Z)
    : result unit (list byte) :=
  _ ← bail_if (negb (is_ascii value) || negb (str_len value mod 4 =? 0)
               || (str_len value >? div_ceil max_bytes 3 * 4)) tt;
  decoded ← match decode_base64 value with Ok d => Ok d | Err _ => Err tt end;
  _ ← bail_if ((zlen decoded >? max_bytes)
               || negb (bool_decide (encode_base64 decoded = value))) tt;
  Ok decoded.

(** The static codes of [SpeculationWireError] and serde's custom messages. *)
Inductive SpeculationWireError : Set :=
  | speculation_empty_path
  | speculation_path_too_long
  | speculation_interior_nul
  | speculation_empty_argv
  | speculation_too_many_arguments
  | speculation_argument_too_long
  | speculation_argv_too_large
  | too_many_speculation_error_codes
  | speculation_timeout_out_of_range
  | unsupported_speculation_protocol_version
  | invalid_speculation_path_encoding
  | invalid_speculation_argument_encoding.

#[global] Instance SpeculationWireError_eq_dec : EqDecision SpeculationWireError.
Proof. solve_decision. Defined.

(** The private field of [SpeculationUnixPath] is its byte list. *)
Definition SpeculationUnixPath : Set := list byte.

Definition SpeculationUnixPath_from_bytes (bytes : list byte)
    : result SpeculationWireError SpeculationUnixPath :=
  _ ← bail_if (length bytes =? 0)%nat speculation_empty_path;
  _ ← bail_if (zlen bytes >? MAX_SPECULATION_PATH_BYTES) speculation_path_too_long;
  _ ← bail_if (existsb (Z.eqb 0) bytes) speculation_interior_nul;
  Ok bytes.

Definition SpeculationUnixPath_serialize (path : SpeculationUnixPath) : str := encode_base64 path.

Definition SpeculationUnixPath_deserialize (encoded : str)
    : result SpeculationWireError SpeculationUnixPath :=
  bytes ← match decode_canonical_speculation_base64 encoded MAX_SPECULATION_PATH_BYTES with
          | Ok bytes => Ok bytes
          | Err _ => Err invalid_speculation_path_encoding
          end;
  SpeculationUnixPath_from_bytes bytes.

Definition validate_speculation_argument (bytes : list byte) : result SpeculationWireError unit :=
  _ ← bail_if (zlen bytes >? MAX_SPECULATION_ARG_BYTES) speculation_argument_too_long;
  bail_if (existsb (Z.eqb 0) bytes) speculation_interior_nul.

Definition add_speculation_argument_bytes (total argument : Z) : result SpeculationWireError Z :=
  match checked_add usize_max total argument with
  | Some total =>
    if total <=? MAX_SPECULATION_ARGV_BYTES then Ok total else Err speculation_argv_too_large
  | None => Err speculation_argv_too_large
  end.

Definition SpeculationArgv : Set := list (list byte).

(** The loop of [from_os_strings]. *)
Fixpoint collect_arguments (values : list (list byte)) (arguments : list (list byte))
    (total_bytes : Z) : result SpeculationWireError (list (list byte)) :=
  match values with
  | [] => Ok arguments
  | bytes :: values =>
    _ ← validate_speculation_argument bytes;
    total_bytes ← add_speculation_argument_bytes total_bytes (zlen bytes);
    collect_arguments values (arguments ++ [bytes]) total_bytes
  end.

Definition SpeculationArgv_from_os_strings (values : list (list byte))
    : result SpeculationWireError SpeculationArgv :=
  _ ← bail_if (length values =? 0)%nat speculation_empty_argv;
  _ ← bail_if (zlen values >? MAX_SPECULATION_ARGV_ENTRIES) speculation_too_many_arguments;
  collect_arguments values [] 0.

Definition SpeculationArgv_serialize (argv : SpeculationArgv) : list str := encode_base64 <$> argv.

(** [ArgvVisitor::visit_seq]. *)
Fixpoint visit_arguments (sequence : list str) (arguments : list (list byte)) (total_bytes : Z)
    : result SpeculationWireError (list (list byte)) :=
  match sequence with
  | [] => Ok arguments
  | encoded :: sequence =>
    _ ← bail_if (zlen arguments >=? MAX_SPECULATION_ARGV_ENTRIES) speculation_too_many_arguments;
    argument ← match decode_canonical_speculation_base64 encoded MAX_SPECULATION_ARG_BYTES with
               | Ok bytes => Ok bytes
               | Err _ => Err invalid_speculation_argument_encoding
               end;
    _ ← validate_speculation_argument argument;
    total_bytes ← add_speculation_argument_bytes total_bytes (zlen argument);
    visit_arguments sequence (arguments ++ [argument]) total_bytes
  end.

Definition SpeculationArgv_deserialize (sequence : list str)
    : result SpeculationWireError SpeculationArgv :=
  arguments ← visit_arguments sequence [] 0;
  _ ← bail_if (length arguments =? 0)%nat speculation_empty_argv;
  Ok arguments.

Example encode_hello : encode_base64 (lit "hello") = lit "aGVsbG8=".
Proof. reflexivity. Qed.
Example decode_hello : decode_base64 (lit "aGVsbG8=") = Ok (lit "hello").
Proof. reflexivity. Qed.
Example decode_tail_bits : decode_base64 (lit "aGVsbG9=") = Err NonCanonicalTailBits.
Proof. reflexivity. Qed.

(** ** One quartet *)

Definition sextet (s : Z) : Prop := 0 ≤ s < 64.
Definition u8s (l : list byte) : Prop := Forall (λ b, 0 ≤ b < 256) l.

Lemma base64_char_ok s :
  sextet s →
  decode_char (base64_char s) = Ok s ∧ base64_char s ≠ 0x3d ∧ 0 ≤ base64_char s < 0x80.
Proof.
  intros Hs.
  pose proof (forall_below 64 (λ s, bool_decide (decode_char (base64_char s) = Ok s)
    && negb (base64_char s =? 0x3d) && within 0 0x7f (base64_char s)) eq_refl s Hs) as H.
  simpl in H. unfold within in H. inv_ok. repeat split; try done; lia.
Qed.

Lemma decode_char_Ok c s : decode_char c = Ok s → sextet s ∧ base64_char s = c.
Proof.
  intros H. assert (0 ≤ c < 128) as Hc.
  { revert H. unfold decode_char, within. repeat case_match; intros [=]; lia. }
  pose proof (forall_below 128 (λ c, match decode_char c with
    | Ok s => (0 <=? s) && (s <? 64) && (base64_char s =? c) | Err _ => true end) eq_refl c Hc) as Hchk.
  rewrite /= H in Hchk. inv_ok. unfold sextet. lia.
Qed.

(** The three bytes of four sextets, and back. *)
Definition bytes_of (s0 s1 s2 s3 : Z) : list byte :=
  [s0 * 4 + s1 / 16; s1 mod 16 * 16 + s2 / 4; s2 mod 4 * 64 + s3].
Definition sextets_of (b0 b1 b2 : Z) : list Z :=
  [b0 / 4; b0 mod 4 * 16 + b1 / 16; b1 mod 16 * 4 + b2 / 64; b2 mod 64].

Lemma shl_or a b k : 0 ≤ k < 8 → 0 ≤ b < 2 ^ k → 0 ≤ a →
  Z.lor (shl_u8 a k) b = (a mod 2 ^ (8 - k)) * 2 ^ k + b.
Proof.
  intros Hk Hb Ha. unfold shl_u8. change 0xff with (2 ^ 8 - 1).
  rewrite land_mod; [|lia]. rewrite Z.shiftl_mul_pow2; [|lia].
  replace 8 with ((8 - k) + k) at 1 by lia. rewrite Z.pow_add_r; [|lia..].
  rewrite Z.mul_mod_distr_r; [|lia..].
  rewrite -(Z.shiftl_mul_pow2 (a mod _) k); [|lia]. rewrite lor_shiftl_add; [|lia..].
  rewrite Z.shiftl_mul_pow2; [done|lia].
Qed.

Lemma lor_shl_land a b m k j : 0 ≤ k → 0 ≤ j → m = 2 ^ j - 1 → 0 ≤ b < 2 ^ k →
  Z.lor (Z.shiftl (Z.land a m) k) b = a mod 2 ^ j * 2 ^ k + b.
Proof. intros Hk Hj -> Hb. by rewrite lor_shiftl_add // land_mod. Qed.

Lemma push_decoded_quartet_eq out s0 s1 s2 s3 n :
  sextet s0 → sextet s1 → sextet s2 → sextet s3 → (1 ≤ n ≤ 3)%nat →
  push_decoded_quartet out [s0; s1; s2; s3] (Z.of_nat n) =
  if zlen out + Z.of_nat n >? MAX_SEND_DATA_BYTES then Err (SendDataExceeds MAX_SEND_DATA_BYTES)
  else Ok (out ++ take n (bytes_of s0 s1 s2 s3)).
Proof.
  unfold sextet. intros H0 H1 H2 H3 Hn. unfold push_decoded_quartet.
  destruct (_ >? MAX_SEND_DATA_BYTES); [done|]. cbn [lookup_total list_lookup_total].
  rewrite !Z.shiftr_div_pow2; [|lia..].
  change (2 ^ 4) with 16. change (2 ^ 2) with 4.
  rewrite (shl_or s0 (s1 / 16) 2) ?(shl_or s1 (s2 / 4) 4) ?(shl_or s2 s3 6); [|dlia..].
  change (2 ^ (8 - 2)) with 64. rewrite (Z.mod_small s0); [|lia].
  destruct n as [|[|[|[|n]]]]; [lia| | | |lia]; unfold bytes_of; cbn; rewrite -?app_assoc; done.
Qed.

Lemma encode_chunk_3 b0 b1 b2 :
  u8s [b0; b1; b2] → encode_chunk [b0; b1; b2] = base64_char <$> sextets_of b0 b1 b2.
Proof.
  intros H. repeat (apply Forall_cons in H as [? H]). unfold encode_chunk. cbn [length Nat.ltb Nat.leb].
  change ([b0; b1; b2] !!! 0%nat) with b0. change (default 0 ([b0; b1; b2] !! 1%nat)) with b1.
  change (default 0 ([b0; b1; b2] !! 2%nat)) with b2.
  rewrite !Z.shiftr_div_pow2; [|lia..].
  rewrite (lor_shl_land b0 _ 3 4 2) ?(lor_shl_land b1 _ 15 2 4); [|dlia..].
  change 0x3f with (2 ^ 6 - 1). rewrite land_mod; [|lia]. done.
Qed.

Lemma encode_chunk_2 b0 b1 :
  u8s [b0; b1] → encode_chunk [b0; b1] = (base64_char <$> take 3 (sextets_of b0 b1 0)) ++ [0x3d].
Proof.
  intros H. repeat (apply Forall_cons in H as [? H]). unfold encode_chunk. cbn [length Nat.ltb Nat.leb].
  change ([b0; b1] !!! 0%nat) with b0. change (default 0 ([b0; b1] !! 1%nat)) with b1.
  change (default 0 ([b0; b1] !! 2%nat)) with 0.
  rewrite !Z.shiftr_div_pow2; [|lia..].
  rewrite (lor_shl_land b0 _ 3 4 2) ?(lor_shl_land b1 _ 15 2 4); [|dlia..]. done.
Qed.

Lemma encode_chunk_1 b0 :
  u8s [b0] → encode_chunk [b0] = (base64_char <$> take 2 (sextets_of b0 0 0)) ++ [0x3d; 0x3d].
Proof.
  intros H. repeat (apply Forall_cons in H as [? H]). unfold encode_chunk. cbn [length Nat.ltb Nat.leb].
  change ([b0] !!! 0%nat) with b0. change (default 0 ([b0] !! 1%nat)) with 0.
  rewrite !Z.shiftr_div_pow2; [|lia..].
  rewrite (lor_shl_land b0 _ 3 4 2); [|dlia..]. done.
Qed.

(** ** The loop *)

Definition at_start (out : list byte) (q : list Z) : decode_locals :=
  {| dl_out := out; quartet := q; quartet_len := 0 |}.

(** The whole decoder after its length checks. *)
Definition decode_run (bytes : list byte) (out : list byte) (q : list Z)
    : result Base64Error (list byte) :=
  decode_loop bytes (at_start out q) ≫= decode_tail.

#[local] Arguments decode_char : simpl never.
#[local] Arguments decode_step : simpl never.
#[local] Arguments push_decoded_quartet : simpl never.

Ltac quartet_of q Hq :=
  destruct q as [|q0 [|q1 [|q2 [|q3 [|]]]]]; try discriminate Hq; clear Hq.

Lemma decode_step_Ok l c v :
  decode_char c = Ok v →
  decode_step l c =
  let quartet := <[quartet_len l := v]> (quartet l) in
  if (S (quartet_len l) =? 4)%nat then
    out ← push_decoded_quartet (dl_out l) quartet 3; Ok (at_start out quartet)
  else Ok {| dl_out := dl_out l; quartet := quartet; quartet_len := S (quartet_len l) |}.
Proof. intros H. by rewrite /decode_step H. Qed.

Lemma decode_run_quartet c0 c1 c2 c3 s0 s1 s2 s3 rest out q :
  length q = 4%nat →
  decode_char c0 = Ok s0 → decode_char c1 = Ok s1 →
  decode_char c2 = Ok s2 → decode_char c3 = Ok s3 →
  decode_run (c0 :: c1 :: c2 :: c3 :: rest) out q =
  (out' ← push_decoded_quartet out [s0; s1; s2; s3] 3; decode_run rest out' [s0; s1; s2; s3]).
Proof.
  intros Hq H0 H1 H2 H3. quartet_of q Hq. unfold decode_run, at_start.
  rewrite /= (decode_step_Ok _ _ _ H0) /= (decode_step_Ok _ _ _ H1) /= (decode_step_Ok _ _ _ H2) /= (decode_step_Ok _ _ _ H3) /=.
  by destruct (push_decoded_quartet _ _ _).
Qed.

Lemma decode_run_two c0 c1 s0 s1 out q :
  length q = 4%nat → decode_char c0 = Ok s0 → decode_char c1 = Ok s1 →
  ∃ q2 q3, decode_run [c0; c1] out q =
    (_ ← bail_if (negb (Z.land s1 0x0f =? 0)) NonCanonicalTailBits;
     push_decoded_quartet out [s0; s1; q2; q3] 1).
Proof.
  intros Hq H0 H1. quartet_of q Hq. exists q2, q3. unfold decode_run, at_start.
  rewrite /= (decode_step_Ok _ _ _ H0) /= (decode_step_Ok _ _ _ H1) /=. done.
Qed.

Lemma decode_run_three c0 c1 c2 s0 s1 s2 out q :
  length q = 4%nat → decode_char c0 = Ok s0 → decode_char c1 = Ok s1 → decode_char c2 = Ok s2 →
  ∃ q3, decode_run [c0; c1; c2] out q =
    (_ ← bail_if (negb (Z.land s2 0x03 =? 0)) NonCanonicalTailBits;
     push_decoded_quartet out [s0; s1; s2; q3] 2).
Proof.
  intros Hq H0 H1 H2. quartet_of q Hq. exists q3. unfold decode_run, at_start.
  rewrite /= (decode_step_Ok _ _ _ H0) /= (decode_step_Ok _ _ _ H1) /= (decode_step_Ok _ _ _ H2) /=. done.
Qed.

(** The bytes a short push appends do not depend on the stale sextets. *)
Lemma push_decoded_quartet_1 out s0 s1 q2 q3 :
  push_decoded_quartet out [s0; s1; q2; q3] 1 = push_decoded_quartet out [s0; s1; 0; 0] 1.
Proof. done. Qed.
Lemma push_decoded_quartet_2 out s0 s1 s2 q3 :
  push_decoded_quartet out [s0; s1; s2; q3] 2 = push_decoded_quartet out [s0; s1; s2; 0] 2.
Proof. done. Qed.

Lemma trim_end_matches_app c s1 s2 :
  Forall (λ x, x ≠ c) s1 → trim_end_matches c (s1 ++ s2) = s1 ++ trim_end_matches c s2.
Proof.
  induction 1 as [|x s1 Hx _ IH]; [done|]. simpl. rewrite IH.
  destruct (s1 ++ trim_end_matches c s2) eqn:E; [|done].
  by destruct (Z.eqb_spec x c).
Qed.

Lemma trim_end_matches_split c s : ∃ n, s = trim_end_matches c s ++ replicate n c.
Proof.
  induction s as [|x s (n & Hs)]; [by exists 0%nat|]. simpl.
  destruct (trim_end_matches c s) as [|y t] eqn:E.
  - destruct (Z.eqb_spec x c) as [->|Hx].
    + exists (S n). by rewrite {1}Hs.
    + exists n. by rewrite {1}Hs.
  - exists n. by rewrite {1}Hs.
Qed.

(** Three bytes at a time, as [data.chunks(3)]. *)
Lemma chunks_ind (P : list byte → Prop) :
  P [] → (∀ b0, P [b0]) → (∀ b0 b1, P [b0; b1]) →
  (∀ b0 b1 b2 rest, P rest → P (b0 :: b1 :: b2 :: rest)) → ∀ data, P data.
Proof.
  intros H0 H1 H2 H3 data. induction data as [data IH] using list_len_ind.
  destruct data as [|b0 [|b1 [|b2 rest]]]; auto.
  apply H3, IH. simpl. lia.
Qed.

Lemma sextets_of_ok b0 b1 b2 :
  u8s [b0; b1; b2] → Forall sextet (sextets_of b0 b1 b2).
Proof.
  intros H. repeat (apply Forall_cons in H as [? H]).
  unfold sextets_of, sextet. repeat constructor; dlia.
Qed.

Lemma bytes_of_sextets b0 b1 b2 :
  u8s [b0; b1; b2] →
  bytes_of (b0 / 4) (b0 mod 4 * 16 + b1 / 16) (b1 mod 16 * 4 + b2 / 64) (b2 mod 64) = [b0; b1; b2].
Proof.
  intros H. repeat (apply Forall_cons in H as [? H]).
  unfold bytes_of. f_equal; [dlia|]. f_equal; [dlia|]. f_equal; dlia.
Qed.

Lemma chars_not_padding ss :
  Forall sextet ss → Forall (λ x, x ≠ 0x3d) (base64_char <$> ss).
Proof. intros H. apply Forall_fmap. eapply Forall_impl; [exact H|]. intros s Hs. by apply base64_char_ok. Qed.

Lemma trim_chars ss n :
  Forall sextet ss →
  trim_end_matches 0x3d ((base64_char <$> ss) ++ replicate n 0x3d) = base64_char <$> ss.
Proof.
  intros H. rewrite trim_end_matches_app; [|by apply chars_not_padding].
  rewrite (_ : trim_end_matches 0x3d (replicate n 0x3d) = []); [by rewrite app_nil_r|].
  induction n as [|n IH]; [done|]. by rewrite /= IH.
Qed.

(** The characters of an encoding before its padding. *)
Fixpoint encode_chars (data : list byte) : list Z :=
  match data with
  | [] => []
  | [b0] => take 2 (sextets_of b0 0 0)
  | [b0; b1] => take 3 (sextets_of b0 b1 0)
  | b0 :: b1 :: b2 :: rest => sextets_of b0 b1 b2 ++ encode_chars rest
  end.

Definition padding_of (data : list byte) : nat :=
  match (length data mod 3)%nat with 0%nat => 0 | 1%nat => 2 | _ => 1 end.

Lemma u8s_pad b0 b1 : u8s [b0] → u8s [b0; 0; 0] ∧ (0 ≤ b1 < 256 → u8s [b0; b1; 0]).
Proof. intros [? _]%Forall_cons. unfold u8s. split; [|intros]; repeat constructor; lia. Qed.

Lemma encode_chars_ok data : u8s data → Forall sextet (encode_chars data).
Proof.
  induction data as [|b0|b0 b1|b0 b1 b2 rest IH] using chunks_ind; intros H; cbn [encode_chars].
  - constructor.
  - apply Forall_take, sextets_of_ok. by apply (u8s_pad b0 0).
  - apply Forall_cons in H as [? H]. apply Forall_cons in H as [? _].
    apply Forall_take, sextets_of_ok. repeat constructor; lia.
  - change (u8s ([b0; b1; b2] ++ rest)) in H. apply Forall_app in H as [? ?].
    apply Forall_app_2; [by apply sextets_of_ok|by apply IH].
Qed.

Lemma encode_base64_eq data :
  u8s data →
  encode_base64 data = (base64_char <$> encode_chars data) ++ replicate (padding_of data) 0x3d.
Proof.
  induction data as [|b0|b0 b1|b0 b1 b2 rest IH] using chunks_ind; intros H.
  - done.
  - cbn [encode_base64 encode_chars]. by rewrite encode_chunk_1.
  - cbn [encode_base64 encode_chars]. by rewrite encode_chunk_2.
  - cbn [encode_base64 encode_chars]. change (u8s ([b0; b1; b2] ++ rest)) in H. apply Forall_app in H as [? ?].
    rewrite encode_chunk_3 // IH // fmap_app -app_assoc. do 2 f_equal. unfold padding_of.
    change (length (b0 :: b1 :: b2 :: rest)) with (3 + length rest)%nat.
    by rewrite -(Nat.Div0.add_mod_idemp_l 3).
Qed.

Lemma trim_encode data :
  u8s data → trim_end_matches 0x3d (encode_base64 data) = base64_char <$> encode_chars data.
Proof. intros H. rewrite encode_base64_eq //. by apply trim_chars, encode_chars_ok. Qed.

Lemma length_encode_chars data :
  zlen (encode_chars data) = zlen data / 3 * 4
    + match zlen data mod 3 with 0 => 0 | 1 => 2 | _ => 3 end.
Proof.
  induction data as [|b0|b0 b1|b0 b1 b2 rest IH] using chunks_ind; [done..|].
  cbn [encode_chars]. rewrite length_app Nat2Z.inj_add IH. cbn [length sextets_of].
  rewrite (_ : Z.of_nat (S (S (S (length rest)))) = zlen rest + 1 * 3); [|lia].
  rewrite Z.div_add; [|lia]. rewrite Z_mod_plus_full. lia.
Qed.

Lemma decode_sextets ss : Forall sextet ss → (decode_char <$> (base64_char <$> ss)) = (Ok <$> ss).
Proof.
  induction 1 as [|s ss Hs _ IH]; [done|]. cbn. f_equal; [by apply base64_char_ok|exact IH].
Qed.

(** Running the decoder on an encoding appends the data. *)
Lemma decode_run_encode data out q :
  u8s data → length q = 4%nat → zlen out + zlen data ≤ MAX_SEND_DATA_BYTES →
  decode_run (base64_char <$> encode_chars data) out q = Ok (out ++ data).
Proof.
  revert out q.
  induction data as [|b0|b0 b1|b0 b1 b2 rest IH] using chunks_ind; intros out q H Hq Hlen.
  - cbn. by rewrite app_nil_r.
  - pose proof (proj1 (u8s_pad b0 0 H)) as H3. pose proof (bytes_of_sextets _ _ _ H3) as Hb.
    pose proof (sextets_of_ok _ _ _ H3) as Hs. unfold sextets_of in Hs.
    repeat (apply Forall_cons in Hs as [? Hs]). cbn [encode_chars take sextets_of fmap list_fmap].
    edestruct (decode_run_two) as (q2 & q3 & ->); [exact Hq|by apply base64_char_ok..|].
    change 0x0f with (2 ^ 4 - 1). rewrite land_mod; [|lia].
    rewrite (_ : (b0 mod 4 * 16 + 0 / 16) mod 2 ^ 4 =? 0 = true); [|dlia]. cbn [negb bail_if].
    rewrite push_decoded_quartet_1. simpl.
    rewrite (push_decoded_quartet_eq _ _ _ _ _ 1); [|done..|by unfold sextet|by unfold sextet|lia].
    simpl in Hlen. destruct (Z.gtb_spec (zlen out + Z.of_nat 1) MAX_SEND_DATA_BYTES); [lia|].
    do 2 f_equal. unfold bytes_of in *. injection Hb as Hb0 _. simpl. by rewrite Hb0.
  - assert (u8s [b0; b1; 0]) as H3.
    { apply Forall_cons in H as [? H]. apply Forall_cons in H as [? _]. repeat constructor; lia. }
    pose proof (bytes_of_sextets _ _ _ H3) as Hb.
    pose proof (sextets_of_ok _ _ _ H3) as Hs. unfold sextets_of in Hs.
    repeat (apply Forall_cons in Hs as [? Hs]). cbn [encode_chars take sextets_of fmap list_fmap].
    edestruct (decode_run_three) as (q3 & ->); [exact Hq|by apply base64_char_ok..|].
    change 0x03 with (2 ^ 2 - 1). rewrite land_mod; [|lia].
    rewrite (_ : (b1 mod 16 * 4 + 0 / 64) mod 2 ^ 2 =? 0 = true); [|dlia]. cbn [negb bail_if].
    rewrite push_decoded_quartet_2. simpl.
    rewrite (push_decoded_quartet_eq _ _ _ _ _ 2); [|done..|by unfold sextet|lia].
    simpl in Hlen. destruct (Z.gtb_spec (zlen out + Z.of_nat 2) MAX_SEND_DATA_BYTES); [lia|].
    do 2 f_equal. unfold bytes_of in *. injection Hb as Hb0 Hb1. simpl. by rewrite Hb0 Hb1.
  - change (u8s ([b0; b1; b2] ++ rest)) in H. apply Forall_app in H as [H3 Hrest].
    pose proof (bytes_of_sextets _ _ _ H3) as Hb.
    pose proof (sextets_of_ok _ _ _ H3) as Hs. unfold sextets_of in Hs.
    repeat (apply Forall_cons in Hs as [? Hs]).
    cbn [encode_chars app sextets_of fmap list_fmap]. change (list_fmap Z Z) with (@fmap list _ Z Z).
    erewrite decode_run_quartet; [|exact Hq|by apply base64_char_ok..].
    rewrite (push_decoded_quartet_eq _ _ _ _ _ 3); [|done..|lia]. simpl in Hlen.
    destruct (Z.gtb_spec (zlen out + Z.of_nat 3) MAX_SEND_DATA_BYTES); [lia|].
    rewrite Hb. cbn [take mbind result_bind].
    rewrite IH //; [|rewrite length_app /=; lia]. by rewrite -app_assoc.
Qed.

(** What a successful push says of its bound. *)
Lemma push_decoded_quartet_Ok out s0 s1 s2 s3 n res :
  sextet s0 → sextet s1 → sextet s2 → sextet s3 → (1 ≤ n ≤ 3)%nat →
  push_decoded_quartet out [s0; s1; s2; s3] (Z.of_nat n) = Ok res →
  res = out ++ take n (bytes_of s0 s1 s2 s3).
Proof.
  intros ? ? ? ? ?. rewrite push_decoded_quartet_eq //. by destruct (_ >? _); intros [= <-].
Qed.

Lemma bytes_of_ok s0 s1 s2 s3 :
  sextet s0 → sextet s1 → sextet s2 → sextet s3 →
  u8s (bytes_of s0 s1 s2 s3) ∧
  sextets_of (s0 * 4 + s1 / 16) (s1 mod 16 * 16 + s2 / 4) (s2 mod 4 * 64 + s3) = [s0; s1; s2; s3].
Proof.
  unfold sextet, bytes_of, sextets_of. intros ? ? ? ?. split.
  - repeat constructor; dlia.
  - f_equal; [dlia|]. f_equal; [dlia|]. f_equal; [dlia|]. f_equal; dlia.
Qed.

(** Every character of an accepted string is in the alphabet. *)
Lemma decode_loop_chars cs l l' :
  decode_loop cs l = Ok l' → ∃ ss, Forall sextet ss ∧ cs = base64_char <$> ss.
Proof.
  revert l. induction cs as [|c cs IH]; intros l H; [by exists []|]. simpl in H.
  apply bind_Ok in H as (l1 & Hstep & H). unfold decode_step in Hstep.
  apply bind_Ok in Hstep as (s & [Hs Hc]%decode_char_Ok & _).
  apply IH in H as (ss & Hss & ->). exists (s :: ss). split; [by constructor|]. by rewrite -Hc.
Qed.

(** Whatever the decoder accepts is the unpadded encoding of what it returns. *)
Lemma decode_run_sound ss out q res :
  Forall sextet ss → length q = 4%nat → decode_run (base64_char <$> ss) out q = Ok res →
  ∃ data, res = out ++ data ∧ u8s data ∧ encode_chars data = ss.
Proof.
  revert out q res. induction ss as [ss IH] using list_len_ind. intros out q res Hss Hq H.
  destruct ss as [|s0 [|s1 [|s2 [|s3 ss]]]]; repeat (apply Forall_cons in Hss as [? Hss]).
  - injection H as <-. exists []. rewrite app_nil_r. repeat split. constructor.
  - exfalso. unfold decode_run, at_start in H. cbn -[base64_char] in H.
    by rewrite (decode_step_Ok _ _ s0) in H; [|by apply base64_char_ok].
  - destruct (decode_run_two (base64_char s0) (base64_char s1) s0 s1 out q) as (q2 & q3 & Hrun);
      [done|by apply base64_char_ok..|].
    cbn [fmap list_fmap] in H. rewrite Hrun in H. clear Hrun. apply bind_Ok in H as ([] & Hz & H).
    rewrite push_decoded_quartet_1 in H. unfold sextet in *.
    apply (push_decoded_quartet_Ok _ _ _ _ _ 1) in H; [|unfold sextet; lia..].
    apply bail_if_Ok in Hz. change 0x0f with (2 ^ 4 - 1) in Hz. rewrite land_mod in Hz; [|lia].
    exists [s0 * 4 + s1 / 16]. rewrite H. split; [done|]. split; [repeat constructor; dlia|].
    cbn. f_equal; [dlia|]. f_equal. dlia.
  - destruct (decode_run_three (base64_char s0) (base64_char s1) (base64_char s2) s0 s1 s2 out q)
      as (q3 & Hrun); [done|by apply base64_char_ok..|].
    cbn [fmap list_fmap] in H. rewrite Hrun in H. clear Hrun. apply bind_Ok in H as ([] & Hz & H).
    rewrite push_decoded_quartet_2 in H. unfold sextet in *.
    apply (push_decoded_quartet_Ok _ _ _ _ _ 2) in H; [|unfold sextet; lia..].
    apply bail_if_Ok in Hz. change 0x03 with (2 ^ 2 - 1) in Hz. rewrite land_mod in Hz; [|lia].
    exists [s0 * 4 + s1 / 16; s1 mod 16 * 16 + s2 / 4]. rewrite H.
    split; [done|]. split; [repeat constructor; dlia|].
    cbn. f_equal; [dlia|]. f_equal; [dlia|]. f_equal. dlia.
  - cbn [fmap list_fmap] in H. erewrite decode_run_quartet in H; [|exact Hq|by apply base64_char_ok..].
    apply bind_Ok in H as (out' & Hout & H).
    apply (push_decoded_quartet_Ok _ _ _ _ _ 3) in Hout as ->; [|done..|lia].
    apply IH in H as (data & -> & Hdata & <-); [|simpl; lia|done..].
    destruct (bytes_of_ok s0 s1 s2 s3) as [Hb Hs]; [done..|].
    exists (bytes_of s0 s1 s2 s3 ++ data). split; [by rewrite -app_assoc|].
    split; [by apply Forall_app_2|]. cbn [bytes_of app encode_chars]. by rewrite Hs.
Qed.

(** ** The decoder and its inverse *)

Lemma is_ascii_app s1 s2 : is_ascii (s1 ++ s2) = is_ascii s1 && is_ascii s2.
Proof. apply forallb_app. Qed.

Lemma is_ascii_chars ss : Forall sextet ss → is_ascii (base64_char <$> ss) = true.
Proof.
  induction 1 as [|s ss Hs _ IH]; [done|]. cbn. apply andb_true. split; [|exact IH].
  apply base64_char_ok in Hs as (_ & _ & ?). lia.
Qed.

Lemma padding_cases data :
  zlen data mod 3 = 0 ∧ padding_of data = 0%nat ∨ zlen data mod 3 = 1 ∧ padding_of data = 2%nat
  ∨ zlen data mod 3 = 2 ∧ padding_of data = 1%nat.
Proof.
  unfold padding_of. pose proof (Nat.mod_upper_bound (length data) 3 ltac:(done)).
  rewrite -(Nat2Z.inj_mod _ 3). destruct (length data mod 3)%nat as [|[|[|]]]; lia.
Qed.

(** Decoding an encoding of [data] whose padding is whole or absent. *)
Lemma decode_base64_padded data (n : nat) :
  u8s data → zlen data ≤ MAX_SEND_DATA_BYTES → n = 0%nat ∨ n = padding_of data →
  decode_base64 ((base64_char <$> encode_chars data) ++ replicate n 0x3d) = Ok data.
Proof.
  intros H Hlen Hn. pose proof (encode_chars_ok _ H) as Hs.
  pose proof (length_encode_chars data) as Hl. set (cs := base64_char <$> encode_chars data).
  assert (zlen cs = zlen (encode_chars data)) as Hcs by (unfold cs; by rewrite length_fmap).
  pose proof (padding_cases data) as Hp.
  unfold decode_base64. rewrite is_ascii_app (is_ascii_chars _ Hs).
  rewrite (_ : is_ascii (replicate n 0x3d) = true); [|by clear; induction n]. cbn [andb negb bail_if mbind result_bind].
  rewrite trim_chars // -/cs take_app_length.
  rewrite (_ : existsb (Z.eqb 0x3d) cs = false); [|].
  2: { apply not_true_is_false. intros (x & Hx & Hex)%existsb_exists.
       apply list_elem_of_In in Hx. pose proof (chars_not_padding _ Hs) as Hno.
       rewrite Forall_forall in Hno. apply (Hno x Hx). lia. }
  cbn [bail_if mbind result_bind]. rewrite length_app length_replicate Nat2Z.inj_add Hcs Hl.
  pose proof (decode_run_encode data [] [0; 0; 0; 0] H eq_refl ltac:(simpl; lia)) as Hrun.
  unfold decode_run, at_start in Hrun. rewrite -/cs in Hrun.
  set (len := match _ with 0 => 0 | 1 => 2 | _ => 3 end).
  assert (len mod 4 = len ∧ (len = 0 ∧ n = 0%nat ∨ len = 2 ∧ (n = 0 ∨ n = 2)%nat
    ∨ len = 3 ∧ (n = 0 ∨ n = 1)%nat)) as [Hmod Hcase].
  { unfold len. destruct Hp as [[-> Hpad]|[[-> Hpad]|[-> Hpad]]]; rewrite Hpad in Hn;
      (split; [reflexivity|]); clear -Hn; lia. }
  assert ((zlen data / 3 * 4 + len) mod 4 = len) as Hm4.
  { by rewrite Z.add_comm Z_mod_plus_full. }
  rewrite Hm4 (_ : _ || _ = false); [|dlia]. cbn [bail_if mbind result_bind].
  assert (∃ tail, match len with 0 => Ok 0 | 2 => Ok 1 | 3 => Ok 2 | _ => Err InvalidLength end
    = Ok (E := Base64Error) tail ∧ (zlen data / 3 * 4 + len) / 4 * 3 + tail = zlen data) as (tail & -> & Htail).
  { unfold len. destruct Hp as [[Hd _]|[[Hd _]|[Hd _]]]; rewrite Hd; eexists; (split; [done|]); dlia. }
  cbn [mbind result_bind]. rewrite Htail (_ : zlen data >? MAX_SEND_DATA_BYTES = false); [|lia].
  exact Hrun.
Qed.

Lemma length_encode_base64 data :
  u8s data → zlen (encode_base64 data) = div_ceil (zlen data) 3 * 4.
Proof.
  intros H. rewrite encode_base64_eq // length_app length_fmap length_replicate Nat2Z.inj_add.
  rewrite length_encode_chars. unfold div_ceil.
  destruct (padding_cases data) as [[Hm ->]|[[Hm ->]|[Hm ->]]]; rewrite Hm; dlia.
Qed.

Lemma decode_base64_spec value data :
  decode_base64 value = Ok data ↔
  u8s data ∧ zlen data ≤ MAX_SEND_DATA_BYTES ∧
  (value = encode_base64 data ∨ value = trim_end_matches 0x3d (encode_base64 data)).
Proof.
  split.
  - intros H. unfold decode_base64 in H. inv_ok.
    destruct (trim_end_matches_split 0x3d value) as [n Hv].
    match goal with H : decode_loop _ _ = Ok _ |- _ => rename H into Hloop end.
    destruct (decode_loop_chars _ _ _ Hloop) as (ss & Hss & Hcs).
    assert (decode_run (base64_char <$> ss) [] [0; 0; 0; 0] = Ok data) as Hrun.
    { unfold decode_run, at_start. rewrite -Hcs Hloop. done. }
    apply decode_run_sound in Hrun as (data' & -> & Hd & <-); [|done..]. cbn [app] in *.
    split; [done|]. pose proof (length_encode_chars data') as Hl. pose proof (padding_cases data') as Hp.
    assert (zlen (trim_end_matches 0x3d value) = zlen (encode_chars data')) as Hlt.
    { by rewrite Hcs length_fmap. }
    assert (zlen value = zlen (encode_chars data') + Z.of_nat n) as Hlv.
    { rewrite {1}Hv length_app length_replicate Nat2Z.inj_add Hlt. done. }
    rewrite trim_encode // encode_base64_eq // -Hcs.
    rewrite -> Hlt in *. rewrite -> Hlv in *.
    match goal with H : match ?x with _ => _ end = Ok _ |- _ => rename H into Htail end.
    assert (n = 0%nat ∨ n = padding_of data') as Hn.
    { assert (n = 0%nat ∨ (zlen (encode_chars data') + Z.of_nat n) mod 4 = 0) as Hn by lia.
      assert (n ≤ 2)%nat as Hn2 by lia. clear Htail Hv Hlt Hlv Hcs.
      destruct Hn as [->|Hn]; [by left|].
      destruct Hp as [[Hp ->]|[[Hp ->]|[Hp ->]]]; rewrite Hp in Hl; dlia. }
    split; [|by destruct Hn as [->| <-]; [right; rewrite {1}Hv /= app_nil_r|left]].
    destruct Hp as [[Hp _]|[[Hp _]|[Hp _]]]; rewrite Hp in Hl;
      destruct (zlen (encode_chars data') mod 4) as [|[[]|[]|]|] eqn:Hr; try discriminate Htail;
      injection Htail as <-; dlia.
  - intros (H & Hlen & [->| ->]).
    + rewrite encode_base64_eq //. apply decode_base64_padded; auto.
    + rewrite trim_encode //. rewrite -(app_nil_r (_ <$> _)).
      apply (decode_base64_padded data 0); auto.
Qed.

(** Base64 decoding and encoding are inverse: a string decodes to [data] exactly when
    [data] is at most 700 KiB of bytes and the string is its encoding, with the padding
    whole or wholly absent.  So a payload survives the wire and has no second spelling. *)
Theorem decode_base64_inverse value data :
  decode_base64 value = Ok data ↔
  u8s data ∧ zlen data ≤ MAX_SEND_DATA_BYTES ∧
  (value = encode_base64 data ∨ value = trim_end_matches 0x3d (encode_base64 data)).
Proof. apply decode_base64_spec. Qed.

(** ** Bounded payloads *)

Lemma is_ascii_encode data : u8s data → is_ascii (encode_base64 data) = true.
Proof.
  intros H. rewrite encode_base64_eq // is_ascii_app is_ascii_chars; [|by apply encode_chars_ok].
  by induction (padding_of data).
Qed.

Lemma str_len_ascii s : is_ascii s = true → str_len s = zlen s.
Proof.
  intros H. unfold str_len. do 2 f_equal. induction s as [|c s IH]; [done|].
  cbn in H. apply andb_true in H as [Hc H]. unfold utf8 in *. cbn. rewrite IH //.
  unfold encode. by rewrite Hc.
Qed.

Lemma visit_seq_spec max elements bytes res :
  0 ≤ max → zlen bytes ≤ max →
  visit_seq max elements bytes = Ok res ↔
  res = bytes ++ elements ∧ zlen (bytes ++ elements) ≤ max.
Proof.
  revert bytes. induction elements as [|e elements IH]; intros bytes Hmax Hb; simpl.
  - rewrite app_nil_r. split; [by intros [= <-]|by intros [-> _]].
  - destruct (Z.geb_spec (zlen bytes) max).
    + split; [done|]. intros [_ Hl]. rewrite length_app /= in Hl. lia.
    + rewrite IH //; [|rewrite length_app /=; lia]. by rewrite -app_assoc.
Qed.

(** Both payload visitors accept a payload exactly when it fits their bound, as base64
    or as the legacy byte array, and the two forms of one payload give the same bytes. *)
Theorem payload_deserialize_bounded data :
  u8s data →
  (send_data_deserialize (send_data_serialize data) = Ok data ↔ zlen data ≤ MAX_SEND_DATA_BYTES) ∧
  (send_data_deserialize (WireSeq data) = Ok data ↔ zlen data ≤ MAX_SEND_DATA_BYTES) ∧
  (capability_data_deserialize (send_data_serialize data) = Ok data
   ↔ zlen data ≤ MAX_CAPABILITY_INPUT_BYTES) ∧
  (capability_data_deserialize (WireSeq data) = Ok data ↔ zlen data ≤ MAX_CAPABILITY_INPUT_BYTES).
Proof.
  intros H. cbn [send_data_deserialize send_data_serialize capability_data_deserialize].
  rewrite !visit_seq_spec; [|done..]. cbn [app].
  split; [rewrite decode_base64_spec; split; [by intros (_ & ? & _)|by auto]|].
  split; [by split; [intros [_ ?]|auto]|].
  split; [|by split; [intros [_ ?]|auto]]. unfold capability_data_visit_str.
  rewrite str_len_ascii ?length_encode_base64 ?is_ascii_encode //. split.
  - intros Hok. inv_ok. match goal with H : Ok _ = Ok _ |- _ => injection H as -> end. lia.
  - intros Hlen. rewrite (_ : _ >? _ = false); [|unfold div_ceil, MAX_CAPABILITY_INPUT_BYTES in *; dlia].
    cbn [bail_if mbind result_bind].
    rewrite (proj2 (decode_base64_spec _ data)); [|unfold MAX_SEND_DATA_BYTES, MAX_CAPABILITY_INPUT_BYTES in *; split_and!; [done|lia|by left]].
    cbn [mbind result_bind]. rewrite (_ : _ >? _ = false); [done|lia].
Qed.

Lemma payload_deserialize_bounded_witness :
  send_data_deserialize (send_data_serialize (lit "ls")) = Ok (lit "ls").
Proof.
  destruct (payload_deserialize_bounded (lit "ls")) as [H _]; [repeat constructor; lia|].
  apply H. vm_compute. congruence.
Defined.

Lemma decode_canonical_spec value max data :
  0 ≤ max ≤ MAX_SEND_DATA_BYTES →
  decode_canonical_speculation_base64 value max = Ok data ↔
  value = encode_base64 data ∧ u8s data ∧ zlen data ≤ max.
Proof.
  intros Hmax. unfold decode_canonical_speculation_base64. split.
  - intros H. inv_ok. destruct (decode_base64 value) as [d|] eqn:E; [|done].
    repeat match goal with H : Ok _ = Ok _ |- _ => injection H as <- end.
    apply decode_base64_spec in E as (Hd & _ & _).
    repeat match goal with H : bool_decide _ = _ |- _ => apply bool_decide_eq_true in H end.
    split_and!; [done|done|lia].
  - intros (-> & Hd & Hlen). rewrite is_ascii_encode // str_len_ascii ?is_ascii_encode // length_encode_base64 //.
    rewrite Z.mod_mul // (_ : _ >? _ = false); [|unfold div_ceil; dlia]. cbn [negb orb bail_if mbind result_bind Z.eqb].
    rewrite (proj2 (decode_base64_spec _ data)); [|split_and!; [done|lia|by left]].
    cbn [mbind result_bind]. rewrite bool_decide_true // (_ : _ >? _ = false); [done|lia].
Qed.

(** The canonical decoder of speculation paths and arguments accepts exactly the padded
    encodings of the byte strings within its bound. *)
Theorem decode_canonical_speculation_base64_exact value max data :
  0 ≤ max ≤ MAX_SEND_DATA_BYTES →
  decode_canonical_speculation_base64 value max = Ok data ↔
  value = encode_base64 data ∧ u8s data ∧ zlen data ≤ max.
Proof. apply decode_canonical_spec. Qed.

Lemma decode_canonical_speculation_base64_exact_witness :
  decode_canonical_speculation_base64 (lit "L3RtcA==") 4096 = Ok (lit "/tmp").
Proof.
  apply decode_canonical_speculation_base64_exact; [unfold MAX_SEND_DATA_BYTES; lia|].
  split; [reflexivity|]. split; [repeat constructor; lia|vm_compute; congruence].
Defined.

Lemma existsb_nul_false (l : list byte) : existsb (Z.eqb 0) l = false ↔ 0 ∉ l.
Proof.
  rewrite -not_true_iff_false existsb_exists. split.
  - intros H Hin. apply H. exists 0. split; [by apply list_elem_of_In|done].
  - intros H (x & Hx & Heq). apply H. apply list_elem_of_In. by replace 0 with x by lia.
Qed.

(** A speculation path survives its wire form, and the wire accepts nothing else: a
    string deserializes to a path exactly when it is the path's serialization and the path
    is non-empty, at most 4096 bytes and free of NUL. *)
Theorem speculation_unix_path_roundtrip encoded path :
  SpeculationUnixPath_deserialize encoded = Ok path ↔
  encoded = SpeculationUnixPath_serialize path ∧ u8s path ∧
  path ≠ [] ∧ zlen path ≤ MAX_SPECULATION_PATH_BYTES ∧ 0 ∉ path.
Proof.
  unfold SpeculationUnixPath_deserialize, SpeculationUnixPath_from_bytes, SpeculationUnixPath_serialize.
  assert (0 ≤ MAX_SPECULATION_PATH_BYTES ≤ MAX_SEND_DATA_BYTES) as Hmax by done.
  split.
  - intros H. inv_ok. destruct (decode_canonical_speculation_base64 _ _) as [d|] eqn:E; [|done].
    repeat match goal with H : Ok _ = Ok _ |- _ => injection H as -> end.
    apply decode_canonical_spec in E as (-> & Hd & Hlen); [|done]. split_and!; [done|done| |done|by apply existsb_nul_false].
    by intros ->.
  - intros (-> & Hd & Hne & Hlen & Hnul).
    rewrite (proj2 (decode_canonical_spec _ _ path Hmax)); [|done]. cbn [mbind result_bind].
    destruct path as [|b path]; [done|]. cbn [length Nat.eqb bail_if mbind result_bind].
    rewrite (_ : _ >? _ = false); [|rewrite Z.gtb_ltb; apply Z.ltb_ge; exact Hlen]. cbn [bail_if mbind result_bind].
    by rewrite (proj2 (existsb_nul_false _) Hnul).
Qed.

(** The bounds of an argument vector. *)
Definition argument_ok (a : list byte) : Prop := zlen a ≤ MAX_SPECULATION_ARG_BYTES ∧ 0 ∉ a.
Definition argv_ok (argv : SpeculationArgv) : Prop :=
  argv ≠ [] ∧ zlen argv ≤ MAX_SPECULATION_ARGV_ENTRIES ∧ Forall argument_ok argv ∧
  zlen (mjoin argv) ≤ MAX_SPECULATION_ARGV_BYTES.

Lemma validate_argument_ok a u : validate_speculation_argument a = Ok u ↔ argument_ok a.
Proof.
  unfold validate_speculation_argument, argument_ok. rewrite -existsb_nul_false. split.
  - intros H. inv_ok. split; [lia|done].
  - intros [? ->]. by rewrite (_ : _ >? _ = false); [destruct u|lia].
Qed.

Lemma add_argument_bytes_ok total n total' :
  add_speculation_argument_bytes total n = Ok total' ↔
  total' = total + n ∧ total + n ≤ MAX_SPECULATION_ARGV_BYTES.
Proof.
  unfold add_speculation_argument_bytes, checked_add. case_bool_decide as Hmax.
  - destruct (Z.leb_spec (total + n) MAX_SPECULATION_ARGV_BYTES).
    + split; [by intros [= <-]|by intros [-> _]].
    + split; [done|lia].
  - split; [done|]. unfold usize_max, u64_max, MAX_SPECULATION_ARGV_BYTES in *. lia.
Qed.

Lemma collect_arguments_ok values arguments total res :
  0 ≤ total ≤ MAX_SPECULATION_ARGV_BYTES →
  collect_arguments values arguments total = Ok res ↔
  res = arguments ++ values ∧ Forall argument_ok values ∧
  total + zlen (mjoin values) ≤ MAX_SPECULATION_ARGV_BYTES.
Proof.
  revert arguments total. induction values as [|v values IH]; intros arguments total Htotal.
  - cbn. rewrite app_nil_r. split; [intros [= <-]; split_and!; [done|constructor|lia]|by intros [-> _]].
  - cbn [collect_arguments mjoin list_join]. rewrite length_app. split.
    + intros H. apply bind_Ok in H as ([] & Hv%validate_argument_ok & H).
      apply bind_Ok in H as (t & [-> Hle]%add_argument_bytes_ok & H).
      apply IH in H as (-> & Hvs & Hsum); [|lia].
      split_and!; [by rewrite -app_assoc|by constructor|]. unfold mjoin in *. lia.
    + intros (-> & [Hv Hvs]%Forall_cons & Hsum). unfold mjoin in *.
      rewrite (proj2 (validate_argument_ok v tt)) // /=.
      rewrite (proj2 (add_argument_bytes_ok total (zlen v) (total + zlen v))); [|split; [done|lia]]. cbn [mbind result_bind].
      apply IH; [lia|]. split_and!; [by rewrite -app_assoc|done|lia].
Qed.

Lemma argv_from_os_strings_ok values argv :
  SpeculationArgv_from_os_strings values = Ok argv ↔ argv = values ∧ argv_ok values.
Proof.
  unfold SpeculationArgv_from_os_strings, argv_ok. split.
  - intros H. inv_ok. match goal with H : collect_arguments _ _ _ = _ |- _ =>
      apply collect_arguments_ok in H as (-> & Hvs & Hsum); [|done] end.
    split; [done|]. split_and!; [by destruct values|lia|done|lia].
  - intros (-> & Hne & Hn & Hvs & Hsum). destruct values as [|v values]; [done|].
    cbn [length Nat.eqb bail_if mbind result_bind]. rewrite (_ : _ >? _ = false); [|rewrite Z.gtb_ltb; apply Z.ltb_ge; exact Hn].
    cbn [bail_if mbind result_bind]. by apply collect_arguments_ok.
Qed.

Lemma visit_arguments_ok sequence arguments total res :
  0 ≤ total ≤ MAX_SPECULATION_ARGV_BYTES → zlen arguments ≤ MAX_SPECULATION_ARGV_ENTRIES →
  visit_arguments sequence arguments total = Ok res ↔
  ∃ values, res = arguments ++ values ∧ sequence = encode_base64 <$> values ∧
    Forall u8s values ∧ Forall argument_ok values ∧
    zlen res ≤ MAX_SPECULATION_ARGV_ENTRIES ∧
    total + zlen (mjoin values) ≤ MAX_SPECULATION_ARGV_BYTES.
Proof.
  assert (0 ≤ MAX_SPECULATION_ARG_BYTES ≤ MAX_SEND_DATA_BYTES) as Hmax by done.
  revert arguments total. induction sequence as [|e sequence IH]; intros arguments total Htotal Hargs.
  - cbn. split.
    + intros [= <-]. exists []. cbn. rewrite app_nil_r. split_and!; try done; lia.
    + intros (values & -> & Hseq & _). destruct values; [|done]. by rewrite app_nil_r.
  - cbn [visit_arguments]. split.
    + intros H. apply bind_Ok in H as ([] & Hlen%bail_if_Ok & H). apply bind_Ok in H as (a & Ha & H).
      destruct (decode_canonical_speculation_base64 _ _) as [d|] eqn:E; [|done]. injection Ha as ->.
      apply decode_canonical_spec in E as (-> & Hd & Hle); [|done].
      apply bind_Ok in H as ([] & Hv%validate_argument_ok & H).
      apply bind_Ok in H as (t & [-> Hsum]%add_argument_bytes_ok & H).
      apply IH in H as (values & -> & -> & Hu & Hvs & Hn & Hs); [|lia|rewrite length_app /=; lia].
      exists (a :: values). rewrite -app_assoc. rewrite -app_assoc in Hn.
      split_and!; [done|done|by constructor|by constructor|done|].
      cbn [mjoin list_join]. rewrite length_app. unfold mjoin in *. lia.
    + intros (values & -> & Hseq & Hu & Hvs & Hn & Hs). destruct values as [|a values]; [done|].
      injection Hseq as -> ->. apply Forall_cons in Hu as [Ha Hu]. apply Forall_cons in Hvs as [Hv Hvs].
      cbn [mjoin list_join] in Hs. rewrite length_app in Hs. unfold mjoin in *.
      rewrite length_app /= in Hn.
      rewrite (_ : _ >=? _ = false); [|lia]. cbn [bail_if mbind result_bind].
      rewrite (proj2 (decode_canonical_spec _ _ a Hmax)); [|split_and!; [done|done|by apply Hv]].
      cbn [mbind result_bind]. rewrite (proj2 (validate_argument_ok a tt)) //. cbn [mbind result_bind].
      rewrite (proj2 (add_argument_bytes_ok total (zlen a) (total + zlen a))); [|split; [done|lia]]. cbn [mbind result_bind].
      apply IH; [lia|rewrite length_app /=; lia|]. exists values. rewrite -app_assoc.
      split_and!; try done; [rewrite !length_app /=; lia|lia].
Qed.

(** The two ways to obtain an argument vector agree: a sequence of wire strings
    deserializes to [argv] exactly when [argv] is what [from_os_strings] accepts (1 to 256
    arguments, each at most 64 KiB and free of NUL, 256 KiB in all) and the sequence is its
    serialization. *)
Theorem speculation_argv_roundtrip sequence argv :
  SpeculationArgv_deserialize sequence = Ok argv ↔
  SpeculationArgv_from_os_strings argv = Ok argv ∧ argv_ok argv ∧ Forall u8s argv ∧
  sequence = SpeculationArgv_serialize argv.
Proof.
  unfold SpeculationArgv_deserialize. rewrite argv_from_os_strings_ok. unfold argv_ok. split.
  - intros H. inv_ok. match goal with H : Ok _ = Ok _ |- _ => injection H as -> end.
    match goal with H : visit_arguments _ _ _ = _ |- _ =>
      apply visit_arguments_ok in H as (values & -> & -> & Hu & Hvs & Hn & Hs); [|done..] end.
    cbn [app] in *. split_and!; try done; by destruct values.
  - intros (_ & (Hne & Hn & Hvs & Hs) & Hu & ->).
    rewrite (proj2 (visit_arguments_ok (SpeculationArgv_serialize argv) [] 0 argv ltac:(done) ltac:(done))).
    + by destruct argv.
    + exists argv. by split_and!.
Qed.
