(* ===== verification/Protocol.v ===== *)
(** [src/protocol.rs]: the wire data types the other components share, with the methods and
    the validating constructors that come with them.  The byte payloads are in Base64.v.

    serde derives the JSON form of these types; it is not modelled.  What is modelled is
    the data and everything the source computes on it. *)
From S2P Require Import Prelude Utf8 Base64.

(** [uuid::Uuid] is a 128-bit number. *)
Abbreviation Uuid := Z (only parsing).
Definition is_nil (u : Uuid) : bool := u =? 0.

Definition PROTOCOL_VERSION : Z := 10.
Definition SPECULATION_PROTOCOL_VERSION : Z := 9.
Definition MIN_SPECULATION_TIMEOUT_MS : Z := 1000.
Definition MAX_SPECULATION_TIMEOUT_MS : Z := 60 * 60 * 1000.
Definition MAX_SPECULATION_ERROR_CODES : nat := 16.

(** The [[T; 2]] arrays of the speculation code. *)
Record array2 (A : Type) : Type := Array2 { at0 : A; at1 : A }.
Arguments Array2 {A} _ _.
Arguments at0 {A} _.
Arguments at1 {A} _.

#[global] Instance array2_eq_dec `{EqDecision A} : EqDecision (array2 A).
Proof. solve_decision. Defined.
#[global] Instance array2_fmap : FMap array2 := λ A B f a, Array2 (f (at0 a)) (f (at1 a)).

(** [iter().any] and [iter().all] on them, and indexing, which panics out of range. *)
Definition any2 {A} (p : A → bool) (a : array2 A) : bool := p (at0 a) || p (at1 a).
Definition all2 {A} (p : A → bool) (a : array2 A) : bool := p (at0 a) && p (at1 a).
Definition zip_all2 {A} (p : A → A → bool) (a b : array2 A) : bool :=
  p (at0 a) (at0 b) && p (at1 a) (at1 b).
Definition index2 {A} (a : array2 A) (i : Z) : option A :=
  match i with 0 => Some (at0 a) | 1 => Some (at1 a) | _ => None end.

(** ** Speculation *)

Inductive SpeculationPhase : Set :=
  | Prepared
  | Armed
  | Starting
  | Ready
  | GoPending
  | Running
  | ResultPending
  | PendingFinalize
  | FinalizingLoser
  | WinnerSelectionPending
  | FinalizingWinner
  | RollbackRequired
  | DecisionUncertain
  | RollbackPending
  | Selected
  | RolledBack.

#[global] Instance SpeculationPhase_eq_dec : EqDecision SpeculationPhase.
Proof. solve_decision. Defined.

Definition ALL : list SpeculationPhase :=
  [Prepared; Armed; Starting; Ready; GoPending; Running; ResultPending; PendingFinalize;
   FinalizingLoser; WinnerSelectionPending; FinalizingWinner; RollbackRequired;
   DecisionUncertain; RollbackPending; Selected; RolledBack].

Definition is_terminal (phase : SpeculationPhase) : bool :=
  match phase with Selected | RolledBack => true | _ => false end.

Definition is_rollback_only (phase : SpeculationPhase) : bool :=
  match phase with RollbackRequired | DecisionUncertain | RollbackPending => true | _ => false end.

Inductive SpeculationSchemaVersion : Set := StatusV1.

#[global] Instance SpeculationSchemaVersion_eq_dec : EqDecision SpeculationSchemaVersion.
Proof. solve_decision. Defined.

Inductive SpeculationReasonCode : Set :=
  | PreparedLease
  | ReadyLease
  | RunningLease
  | PendingFinalizeLease
  | ControlAckTimeout
  | ExplicitRollback
  | DaemonShutdown
  | BothCandidatesIneligible
  | DecisionUncertainAfterRestart
  | ContainmentEvidenceUnavailable.

#[global] Instance SpeculationReasonCode_eq_dec : EqDecision SpeculationReasonCode.
Proof. solve_decision. Defined.

Inductive SpeculationErrorCode : Set :=
  | ErrUnsupported
  | ErrProtocolMismatch
  | ErrCapacityExhausted
  | ErrInvalidRequest
  | ErrInvalidTransition
  | ErrStaleGeneration
  | ErrGenerationExhausted
  | ErrContainmentUnavailable
  | ErrOutputLimitExceeded
  | ErrRollbackRequired
  | ErrDecisionUncertain
  | ErrEvidenceUnavailable.

#[global] Instance SpeculationErrorCode_eq_dec : EqDecision SpeculationErrorCode.
Proof. solve_decision. Defined.

(** The private vector of [SpeculationErrorCodes]. *)
Definition SpeculationErrorCodes : Set := list SpeculationErrorCode.

Definition SpeculationErrorCodes_push (code : SpeculationErrorCode)
    : M SpeculationErrorCodes SpeculationWireError unit := λ codes,
  if (MAX_SPECULATION_ERROR_CODES <=? length codes)%nat
  then (Err too_many_speculation_error_codes, codes)
  else (Ok tt, codes ++ [code]).

Definition SpeculationErrorCodes_from (code : SpeculationErrorCode) : SpeculationErrorCodes :=
  [code].

Definition SpeculationErrorCodes_try_from (codes : list SpeculationErrorCode)
    : result SpeculationWireError SpeculationErrorCodes :=
  if (MAX_SPECULATION_ERROR_CODES <? length codes)%nat
  then Err too_many_speculation_error_codes else Ok codes.

Record SpeculationPrepareRequest : Set := {
  pr_source : SpeculationUnixPath;
  pr_candidates : array2 SpeculationUnixPath;
  pr_ledger_root : SpeculationUnixPath;
  pr_cgroup_root : SpeculationUnixPath;
  pr_timeout_ms : Z;
  pr_argv : SpeculationArgv;
}.

Definition timeout_in_range (timeout_ms : Z) : bool :=
  within MIN_SPECULATION_TIMEOUT_MS MAX_SPECULATION_TIMEOUT_MS timeout_ms.

Definition SpeculationPrepareRequest_new source candidates ledger_root cgroup_root timeout_ms argv
    : result SpeculationWireError SpeculationPrepareRequest :=
  _ ← bail_if (negb (timeout_in_range timeout_ms)) speculation_timeout_out_of_range;
  Ok {| pr_source := source; pr_candidates := candidates; pr_ledger_root := ledger_root;
        pr_cgroup_root := cgroup_root; pr_timeout_ms := timeout_ms; pr_argv := argv |}.

Definition deserialize_speculation_timeout (timeout_ms : Z) : result SpeculationWireError Z :=
  _ ← bail_if (negb (timeout_in_range timeout_ms)) speculation_timeout_out_of_range;
  Ok timeout_ms.

Definition deserialize_speculation_protocol_version (version : Z)
    : result SpeculationWireError Z :=
  _ ← bail_if (negb (version =? SPECULATION_PROTOCOL_VERSION))
        unsupported_speculation_protocol_version;
  Ok version.

Inductive SpeculationExitCategory : Set :=
  | ExitedZero
  | ExitedNonzero
  | Signaled
  | SpawnFailed
  | OutputLimitExceeded
  | EvidenceIncomplete.

#[global] Instance SpeculationExitCategory_eq_dec : EqDecision SpeculationExitCategory.
Proof. solve_decision. Defined.

Inductive SpeculationScoreField : Set :=
  | EligibilityDescending
  | ExitSuccessDescending
  | ElapsedNsAscending
  | OutputBytesAscending
  | InputIndexAscending.

#[global] Instance SpeculationScoreField_eq_dec : EqDecision SpeculationScoreField.
Proof. solve_decision. Defined.

Definition SPECULATION_SCORE_ORDER : list SpeculationScoreField :=
  [EligibilityDescending; ExitSuccessDescending; ElapsedNsAscending; OutputBytesAscending;
   InputIndexAscending].

Record SpeculationCleanupStatus : Set := {
  runner_ack : bool;
  bwrap_reaped : bool;
  sync_eof : bool;
  cgroup_empty : bool;
  managed_tombstone : bool;
}.

#[global] Instance SpeculationCleanupStatus_eq_dec : EqDecision SpeculationCleanupStatus.
Proof. solve_decision. Defined.

Record SpeculationCandidateStatus : Set := {
  candidate_uuid : Uuid;
  cs_index : Z;
  cs_ready : bool;
  ready_elapsed_ns : option Z;
  go_received : bool;
  go_received_elapsed_ns : option Z;
  result_accepted : bool;
  cs_exit_success : option bool;
  exit_category : option SpeculationExitCategory;
  cs_elapsed_ns : option Z;
  cs_output_bytes : option Z;
  eligible : bool;
  cleanup : SpeculationCleanupStatus;
}.

#[global] Instance SpeculationCandidateStatus_eq_dec : EqDecision SpeculationCandidateStatus.
Proof. solve_decision. Defined.

Record SpeculationStatus : Set := {
  st_schema_version : SpeculationSchemaVersion;
  tournament_uuid : Uuid;
  daemon_instance_uuid : Uuid;
  st_phase : SpeculationPhase;
  st_generation : Z;
  lease_deadline_unix_ms : Z;
  reason_code : option SpeculationReasonCode;
  candidates : array2 SpeculationCandidateStatus;
  fixed_score_order : list SpeculationScoreField;
  selected_index : option Z;
  rollback_required : bool;
  error_codes : SpeculationErrorCodes;
}.

#[global] Instance SpeculationStatus_eq_dec : EqDecision SpeculationStatus.
Proof. solve_decision. Defined.

Definition status_is_terminal (status : SpeculationStatus) : bool := is_terminal (st_phase status).

Definition permits_finalize (status : SpeculationStatus) : bool :=
  bool_decide (st_phase status = PendingFinalize) && negb (rollback_required status).

(** ** Sessions *)

Inductive StatusTheme : Set :=
  | Blue | Green | Magenta | Cyan | Amber | Red | Gray | Plain.

#[global] Instance StatusTheme_eq_dec : EqDecision StatusTheme.
Proof. solve_decision. Defined.

(** [char::is_whitespace]: the Unicode White_Space property. *)
Definition is_whitespace (c : char) : bool :=
  within 0x09 0x0d c || (c =? 0x20) || (c =? 0x85) || (c =? 0xa0) || (c =? 0x1680)
  || within 0x2000 0x200a c || (c =? 0x2028) || (c =? 0x2029) || (c =? 0x202f)
  || (c =? 0x205f) || (c =? 0x3000).

Fixpoint trim_start (s : str) : str :=
  match s with
  | c :: s' => if is_whitespace c then trim_start s' else s
  | [] => []
  end.

(** [str::trim]. *)
Definition trim (s : str) : str := reverse (trim_start (reverse (trim_start s))).

Definition to_ascii_lowercase (s : str) : str :=
  (λ c, if within 0x41 0x5a c then c + 0x20 else c) <$> s.

Definition StatusTheme_as_str (t : StatusTheme) : str :=
  match t with
  | Blue => lit "blue" | Green => lit "green" | Magenta => lit "magenta" | Cyan => lit "cyan"
  | Amber => lit "amber" | Red => lit "red" | Gray => lit "gray" | Plain => lit "plain"
  end.

(** The arms of the source, in order. *)
Definition theme_names : list (str * StatusTheme) :=
  [(lit "blue", Blue); (lit "green", Green); (lit "magenta", Magenta); (lit "purple", Magenta);
   (lit "cyan", Cyan); (lit "amber", Amber); (lit "yellow", Amber); (lit "red", Red);
   (lit "gray", Gray); (lit "grey", Gray); (lit "plain", Plain); (lit "minimal", Plain)].

Definition StatusTheme_parse (value : str) : option StatusTheme :=
  let name := to_ascii_lowercase (trim value) in
  snd <$> List.find (λ p, bool_decide (p.1 = name)) theme_names.

Inductive SessionExitTrigger : Set :=
  | LeaderExited
  | CloseRequested
  | TriggerDaemonShutdown
  | ParentCascade (parent_session_id : str)
  | TriggerUnknown.

#[global] Instance SessionExitTrigger_eq_dec : EqDecision SessionExitTrigger.
Proof. solve_decision. Defined.

Definition SessionExitTrigger_as_str (t : SessionExitTrigger) : str :=
  match t with
  | LeaderExited => lit "leader_exited"
  | CloseRequested => lit "close_requested"
  | TriggerDaemonShutdown => lit "daemon_shutdown"
  | ParentCascade _ => lit "parent_cascade"
  | TriggerUnknown => lit "unknown"
  end.

Inductive SessionLifecycleState : Set :=
  | Healthy
  | MonitorFailed
  | Ending (trigger : SessionExitTrigger).

#[global] Instance SessionLifecycleState_eq_dec : EqDecision SessionLifecycleState.
Proof. solve_decision. Defined.

Inductive ExitListScope : Set := TopLevel | Children | AllScopes.

Definition ExitListScope_from_flags (all children : bool) : ExitListScope :=
  if all then AllScopes else if children then Children else TopLevel.

Inductive ExitOutcomeState : Set := OutcomePending | OutcomeComplete | OutcomeUnknown.

#[global] Instance ExitOutcomeState_eq_dec : EqDecision ExitOutcomeState.
Proof. solve_decision. Defined.

Inductive ExitEvidenceState : Set :=
  | EvidenceComplete
  | DegradedMissingTriggerEvent
  | Conflicted
  | StorageDegraded.

#[global] Instance ExitEvidenceState_eq_dec : EqDecision ExitEvidenceState.
Proof. solve_decision. Defined.

Record RecentSessionExit : Set := {
  rx_schema_version : str;
  rx_session_id : str;
  rx_name : str;
  rx_pane_id : str;
  rx_parent_session_id : option str;
  rx_parent_pane_id : option str;
  rx_agent_name : option str;
  rx_created_unix_ms : Z;
  rx_trigger_claimed_unix_ms : Z;
  rx_reaped_unix_ms : option Z;
  rx_trigger : SessionExitTrigger;
  rx_outcome_state : ExitOutcomeState;
  rx_exit_code : option Z;
  rx_signal : option str;
  rx_evidence_state : ExitEvidenceState;
}.

#[global] Instance RecentSessionExit_eq_dec : EqDecision RecentSessionExit.
Proof. solve_decision. Defined.

Record SessionInfo : Set := {
  si_id : str;
  si_name : str;
  si_pane_id : str;
  si_command : str;
  si_cwd : str;
  si_created_unix_ms : Z;
  si_alive : bool;
  si_exit_code : option Z;
  si_rows : Z;
  si_cols : Z;
  si_parent_pane_id : option str;
  si_parent_session_id : option str;
  si_attached_clients : Z;
  si_process_id : option Z;
  si_process_group_id : option Z;
  si_status_theme : option StatusTheme;
  si_agent_name : option str;
  si_lifecycle_state : option SessionLifecycleState;
}.

Definition lifecycle_state (info : SessionInfo) : SessionLifecycleState :=
  default (if si_alive info then Healthy else Ending TriggerUnknown) (si_lifecycle_state info).

Definition is_live_work (info : SessionInfo) : bool :=
  match si_lifecycle_state info, si_alive info with
  | None, alive => alive
  | Some (Healthy | MonitorFailed), true => true
  | Some (Ending _), false => false
  | _, _ => false
  end.

Definition lifecycle_state_label (info : SessionInfo) : str :=
  match lifecycle_state info with
  | Healthy => lit "alive"
  | MonitorFailed => lit "degraded"
  | Ending _ => lit "ending"
  end.

(** [Response]; the JSON value is a parameter type. *)
Record Response (Value : Type) : Type := {
  resp_ok : bool;
  resp_error : option str;
  resp_result : option Value;
}.
Arguments resp_ok {Value} _.
Arguments resp_error {Value} _.
Arguments resp_result {Value} _.

Definition Response_ok {Value} (result : Value) : Response Value :=
  {| resp_ok := true; resp_error := None; resp_result := Some result |}.
Definition Response_empty {Value} : Response Value :=
  {| resp_ok := true; resp_error := None; resp_result := None |}.
Definition Response_err {Value} (message : str) : Response Value :=
  {| resp_ok := false; resp_error := Some message; resp_result := None |}.

(** ** Theorems *)

(** What constructors outside the module can build. *)
Inductive buildable_codes : SpeculationErrorCodes → Prop :=
  | codes_new : buildable_codes []
  | codes_from c : buildable_codes (SpeculationErrorCodes_from c)
  | codes_try_from l codes : SpeculationErrorCodes_try_from l = Ok codes → buildable_codes codes
  | codes_push c codes : buildable_codes codes →
      buildable_codes (snd (SpeculationErrorCodes_push c codes)).

(** Every error-code collection that the constructors can build, a failing push
    included, holds at most 16 codes, and so passes the bound its own deserializer checks. *)
Theorem error_codes_bounded codes :
  buildable_codes codes →
  (length codes ≤ MAX_SPECULATION_ERROR_CODES)%nat ∧
  SpeculationErrorCodes_try_from codes = Ok codes.
Proof.
  intros H. assert (length codes ≤ MAX_SPECULATION_ERROR_CODES)%nat as Hlen.
  { unfold MAX_SPECULATION_ERROR_CODES.
    induction H as [|c|l codes H|c codes _ IH]; [simpl; lia..| |].
    - revert H. unfold SpeculationErrorCodes_try_from, MAX_SPECULATION_ERROR_CODES.
      destruct (Nat.ltb_spec 16 (length l)); [done|by intros [= <-]].
    - unfold SpeculationErrorCodes_push, MAX_SPECULATION_ERROR_CODES.
      destruct (Nat.leb_spec 16 (length codes)); [done|]. rewrite length_app /=. lia. }
  split; [done|]. unfold SpeculationErrorCodes_try_from.
  by destruct (Nat.ltb_spec MAX_SPECULATION_ERROR_CODES (length codes)); [lia|].
Qed.

Lemma error_codes_bounded_witness : (length [ErrUnsupported] ≤ MAX_SPECULATION_ERROR_CODES)%nat.
Proof. apply (error_codes_bounded [ErrUnsupported]). apply (codes_from ErrUnsupported). Defined.

Lemma trim_start_space s n : trim_start (replicate n 0x20 ++ s) = trim_start s.
Proof. by induction n. Qed.

(** Parsing a theme name accepts its canonical spelling within any blanks, so [as_str]
    round-trips. *)
Theorem status_theme_roundtrip (t : StatusTheme) n m :
  StatusTheme_parse (replicate n 0x20 ++ StatusTheme_as_str t ++ replicate m 0x20) = Some t.
Proof.
  unfold StatusTheme_parse, trim. rewrite trim_start_space.
  rewrite (_ : trim_start (StatusTheme_as_str t ++ _) = StatusTheme_as_str t ++ replicate m 0x20);
    [|by destruct t].
  rewrite reverse_app reverse_replicate trim_start_space. by destruct t.
Qed.

(** [is_live_work] holds exactly of the sessions that are alive and whose lifecycle state,
    reported or derived from [alive] for an old daemon, is not an ending one. *)
Theorem is_live_work_iff (info : SessionInfo) :
  is_live_work info = true ↔
  si_alive info = true ∧ ∀ trigger, lifecycle_state info ≠ Ending trigger.
Proof.
  unfold is_live_work, lifecycle_state.
  destruct (si_lifecycle_state info) as [[| |]|], (si_alive info); simpl; split;
    try done; intros [? Hne]; try done; by edestruct Hne.
Qed.
