(* ===== verification/Text.v ===== *)
(** Operations on text of Rust's standard library that several components use: character
    classes, decimal numbers, splitting, and their lemmas. *)
From stdpp Require Import pretty.
From S2P Require Import Prelude Utf8 Protocol.

(** ** Characters *)

Definition ascii_digit (c : char) : bool := within 0x30 0x39 c.
Definition is_ascii_alphabetic (c : char) : bool := within 0x41 0x5a c || within 0x61 0x7a c.
Definition is_ascii_alphanumeric (c : char) : bool := is_ascii_alphabetic c || ascii_digit c.
Definition ascii_upper (c : char) : char := if within 0x61 0x7a c then c - 0x20 else c.
Definition is_ascii_hexdigit (c : char) : bool := ascii_digit c || within 0x61 0x66 c || within 0x41 0x46 c.
Definition to_ascii_uppercase (s : str) : str := ascii_upper <$> s.

Definition starts_with_char (c : char) (s : str) : bool :=
  match s with x :: _ => x =? c | [] => false end.

(** ** Decimal numbers *)

(** [{n}] of a format string. *)
Definition dec (n : Z) : str := lit (pretty (Z.to_N n)).

(** [str::parse] to an unsigned integer: an optional plus sign and digits, without overflow. *)
Definition parse_step (max : Z) (acc : option Z) (c : char) : option Z :=
  n ← acc; if ascii_digit c then checked_add max (10 * n) (c - 0x30) else None.

Definition parse_unsigned (max : Z) (s : str) : option Z :=
  let digits := if starts_with_char 0x2b s then tail s else s in
  match digits with [] => None | _ => foldl (parse_step max) (Some 0) digits end.

Lemma lit_inj a b : lit a = lit b → a = b.
Proof.
  unfold lit. intros H. rewrite -(String.string_of_list_ascii_of_string a) -(String.string_of_list_ascii_of_string b).
  f_equal. eapply list_fmap_eq_inj; [|exact H]. intros x y Hxy%Nat2Z.inj.
  by rewrite -(Ascii.ascii_nat_embedding x) -(Ascii.ascii_nat_embedding y) Hxy.
Qed.

Lemma lit_String c s : lit (String.String c s) = Z.of_nat (Ascii.nat_of_ascii c) :: lit s.
Proof. done. Qed.

Lemma pretty_N_char_digit d :
  (d < 10)%N → Z.of_nat (Ascii.nat_of_ascii (pretty_N_char d)) = 0x30 + Z.of_N d.
Proof.
  intros Hd. assert (d = 0 ∨ d = 1 ∨ d = 2 ∨ d = 3 ∨ d = 4 ∨ d = 5 ∨ d = 6 ∨ d = 7 ∨ d = 8 ∨ d = 9)%N as H by lia.
  destruct H as [->|[->|[->|[->|[->|[->|[->|[->|[->| ->]]]]]]]]]; done.
Qed.

Lemma parse_step_digit max n d :
  (d < 10)%N → 10 * n + Z.of_N d ≤ max → parse_step max (Some n) (0x30 + Z.of_N d) = Some (10 * n + Z.of_N d).
Proof.
  intros Hd Hmax. unfold parse_step, ascii_digit, within, mbind, option_bind.
  replace (_ && _) with true by lia. apply checked_add_Some. lia.
Qed.

Lemma parse_pretty_go max x s :
  Z.of_N x ≤ max →
  foldl (parse_step max) (Some 0) (lit (pretty_N_go x s)) = foldl (parse_step max) (Some (Z.of_N x)) (lit s).
Proof.
  revert s. induction (N.lt_wf_0 x) as [x _ IH]. intros s Hmax. destruct (decide (x = 0)%N) as [->|Hx].
  - by rewrite pretty_N_go_0.
  - rewrite pretty_N_go_step; [|lia].
    pose proof (N.mod_lt x 10 ltac:(lia)) as Hm. pose proof (N.div_mod x 10 ltac:(lia)) as Hdm.
    pose proof (N.div_lt x 10 ltac:(lia) ltac:(lia)) as Hlt.
    generalize dependent (x `div` 10)%N. generalize dependent (x `mod` 10)%N. intros r Hr q Hdm Hq.
    rewrite IH; [|done|lia]. rewrite lit_String pretty_N_char_digit //. cbn [foldl].
    rewrite parse_step_digit //; [|lia]. do 2 f_equal. lia.
Qed.

Lemma foldl_parse_None max s : foldl (parse_step max) None s = None.
Proof. by induction s. Qed.

Lemma parse_digits_only max s n v :
  foldl (parse_step max) (Some n) s = Some v → forallb ascii_digit s = true.
Proof.
  revert n. induction s as [|c s IH]; intros n H; [done|]. cbn [foldl] in H.
  unfold parse_step at 2, mbind, option_bind in H. cbn [forallb].
  destruct (ascii_digit c); [|by rewrite foldl_parse_None in H].
  destruct (checked_add _ _ _) as [k|]; [|by rewrite foldl_parse_None in H]. by eapply IH.
Qed.

Lemma pretty_go_nonempty x s : (0 < x)%N ∨ s ≠ ""%string → lit (pretty_N_go x s) ≠ [].
Proof.
  revert s. induction (N.lt_wf_0 x) as [x _ IH]. intros s Hx. destruct (decide (x = 0)%N) as [->|Hx'].
  - rewrite pretty_N_go_0. destruct Hx as [?|Hs]; [lia|]. by destruct s.
  - rewrite pretty_N_go_step; [|lia]. apply IH; [apply N.div_lt; lia|by right].
Qed.

Lemma dec_nonempty n : dec n ≠ [].
Proof.
  unfold dec, pretty, pretty_N. case_decide; [done|]. apply pretty_go_nonempty. left. lia.
Qed.

Lemma dec_foldl max n : 0 ≤ n ≤ max → foldl (parse_step max) (Some 0) (dec n) = Some n.
Proof.
  intros Hn. unfold dec, pretty, pretty_N. case_decide as H0.
  - replace n with 0 by lia. change (parse_step max (Some 0) (0x30 + Z.of_N 0) = Some 0).
    rewrite parse_step_digit //. lia.
  - rewrite parse_pretty_go; cbn [foldl lit]; [|lia]. rewrite /= Z2N.id //. lia.
Qed.

Lemma dec_digits n : 0 ≤ n → forallb ascii_digit (dec n) = true.
Proof. intros Hn. eapply parse_digits_only, (dec_foldl n). lia. Qed.

Lemma digits_no_plus s : forallb ascii_digit s = true → starts_with_char 0x2b s = false.
Proof.
  destruct s as [|c s]; [done|]. cbn. intros [Hc _]%andb_true. unfold ascii_digit, within in Hc. lia.
Qed.

Lemma parse_dec max n : 0 ≤ n ≤ max → parse_unsigned max (dec n) = Some n.
Proof.
  intros Hn. unfold parse_unsigned. rewrite digits_no_plus; [|apply dec_digits; lia].
  pose proof (dec_nonempty n). destruct (dec n) eqn:Hd; [done|]. rewrite -Hd. by apply dec_foldl.
Qed.

Lemma dec_inj a b : 0 ≤ a → 0 ≤ b → dec a = dec b → a = b.
Proof.
  intros Ha Hb H. pose proof (parse_dec (Z.max a b) a ltac:(lia)) as Hp.
  rewrite H parse_dec in Hp; [|lia]. by simplify_eq.
Qed.

(** ** Splitting *)

(** [slice::split] on a separator: always at least one piece. *)
Fixpoint split_on (sep : byte) (bs : list byte) : list (list byte) :=
  match bs with
  | [] => [[]]
  | b :: bs =>
    if b =? sep then [] :: split_on sep bs
    else match split_on sep bs with
         | [] => [[b]]
         | piece :: pieces => (b :: piece) :: pieces
         end
  end.

(** [str::split_once] and [str::rsplit_once] at a string. *)
Fixpoint split_once (sep s : str) : option (str * str) :=
  if is_prefix sep s then Some ([], drop (length sep) s)
  else match s with
       | [] => None
       | c :: s => '(before, after) ← split_once sep s; Some (c :: before, after)
       end.

Fixpoint rsplit_once (sep s : str) : option (str * str) :=
  match s with
  | [] => if is_prefix sep s then Some ([], drop (length sep) s) else None
  | c :: t =>
    match rsplit_once sep t with
    | Some (before, after) => Some (c :: before, after)
    | None => if is_prefix sep s then Some ([], drop (length sep) s) else None
    end
  end.

(** [str::split_whitespace]: the maximal runs of other characters. *)
Fixpoint split_white_go (s : str) (word : str) : list str :=
  match s with
  | [] => if bool_decide (word = []) then [] else [word]
  | c :: s =>
    if is_whitespace c then (if bool_decide (word = []) then [] else [word]) ++ split_white_go s []
    else split_white_go s (word ++ [c])
  end.

Definition split_white (s : str) : list str := split_white_go s [].

(** [strip_prefix] and [strip_suffix]. *)
Definition strip_str (p s : str) : option str :=
  if is_prefix p s then Some (drop (length p) s) else None.

Lemma split_once_app sep before after :
  (∀ k, (k < length before)%nat → is_prefix sep (drop k before ++ sep ++ after) = false) →
  split_once sep (before ++ sep ++ after) = Some (before, after).
Proof.
  induction before as [|c before IH]; intros H.
  - assert (is_prefix sep (sep ++ after) = true) as Hp by (apply is_prefix_spec; by eexists).
    simpl. destruct (sep ++ after) eqn:E; cbn [split_once]; rewrite Hp -E drop_app_length //.
  - pose proof (H 0%nat ltac:(simpl; lia)) as H0. simpl in H0 |- *. rewrite H0 IH //.
    intros k Hk. apply (H (S k)). simpl. lia.
Qed.

Lemma rsplit_once_app sep before after :
  sep ≠ [] → rsplit_once sep (tail sep ++ after) = None →
  rsplit_once sep (before ++ sep ++ after) = Some (before, after).
Proof.
  intros Hne Hnone. induction before as [|c before IH]; simpl; [|by rewrite IH].
  assert (is_prefix sep (sep ++ after) = true) as Hp by (apply is_prefix_spec; by eexists).
  destruct sep as [|d sep]; [done|]. simpl in Hnone |- *. rewrite Hnone.
  simpl in Hp. by rewrite Hp drop_app_length.
Qed.

Definition plain_word (w : str) : Prop := w ≠ [] ∧ forallb (λ c, negb (is_whitespace c)) w = true.

Lemma split_white_word w s word :
  forallb (λ c, negb (is_whitespace c)) w = true → split_white_go (w ++ s) word = split_white_go s (word ++ w).
Proof.
  revert word. induction w as [|c w IH]; intros word H; [by rewrite app_nil_r|]. cbn in H.
  apply andb_true in H as [Hc Hw]. cbn. apply negb_true_iff in Hc. rewrite Hc IH // -assoc //.
Qed.

(** [slice::join]. *)
Fixpoint join (sep : str) (ws : list str) : str :=
  match ws with
  | [] => []
  | [w] => w
  | w :: ws => w ++ sep ++ join sep ws
  end.

(** Words with one space between them are found again. *)
Lemma split_white_join ws : Forall plain_word ws → split_white (join [0x20] ws) = ws.
Proof.
  unfold split_white. induction 1 as [|w ws [Hne Hw] Hws IH]; [done|]. destruct ws as [|w2 ws].
  - cbn [join]. rewrite -{1}(app_nil_r w) split_white_word //=. by rewrite bool_decide_false.
  - change (join [0x20] (w :: w2 :: ws)) with (w ++ 0x20 :: join [0x20] (w2 :: ws)).
    rewrite split_white_word //. change ([] ++ w) with w.
    cbn [split_white_go]. change (is_whitespace 0x20) with true. cbn iota.
    rewrite bool_decide_false // IH //.
Qed.

Lemma digits_plain s : s ≠ [] → forallb ascii_digit s = true → plain_word s.
Proof.
  intros Hne H. split; [done|]. rewrite forallb_forall in H |- *. rewrite forallb_forall. intros c Hc.
  specialize (H c Hc). unfold ascii_digit, is_whitespace, within in *. lia.
Qed.

Lemma dec_plain n : 0 ≤ n → plain_word (dec n).
Proof. intros Hn. apply digits_plain; [apply dec_nonempty|by apply dec_digits]. Qed.

(** ** Buffered readers

    A [BufRead] is the list of the buffers that its [fill_buf] will answer: bytes, none at the end
    of the file, or an error. *)

Definition is_newline (b : byte) : bool := b =? 0x0a.

Lemma position_lt {A} (p : A → bool) l i : position p l = Some i → (i < length l)%nat.
Proof. intros [(x & Hx & _) _]%position_Some. by eapply lookup_lt_Some. Qed.

Lemma position_app_l {A} (p : A → bool) l k i : position p l = Some i → position p (l ++ k) = Some i.
Proof.
  intros Hp. pose proof (position_lt _ _ _ Hp). apply position_Some in Hp as [(x & Hx & Hpx) Hmin]. apply position_Some.
  split; [exists x; by rewrite lookup_app_l|]. intros j y Hj. rewrite lookup_app_l; [|lia]. by apply Hmin.
Qed.

Section buffered.
Context {E : Type}.
Implicit Types r rest : list (result E (list byte)).

(** [consume(n)] of the buffer [available]. *)
Definition consume (available : list byte) (n : nat) rest : list (result E (list byte)) :=
  match drop n available with [] => rest | left_ => Ok left_ :: rest end.

(** A reader whose buffers are not empty before the end and that does not fail. *)
Definition well_cut r : Prop := Forall (λ c, ∃ b bs, c = Ok (b :: bs)) r.
Definition reader_bytes r : list byte := mjoin ((λ c, match c with Ok bytes => bytes | Err _ => [] end) <$> r).

Lemma consume_bytes available n rest : reader_bytes (consume available n rest) = drop n available ++ reader_bytes rest.
Proof. unfold consume. by destruct (drop n available). Qed.

Lemma consume_well_cut available n rest : well_cut rest → well_cut (consume available n rest).
Proof. intros Hr. unfold consume. destruct (drop n available); [done|]. constructor; eauto. Qed.

Lemma well_cut_bytes r : well_cut r → reader_bytes r = [] → r = [].
Proof. by intros [|? ? (b & bs & ->)]. Qed.
End buffered.
