(* ===== verification/ProcessIdentity.v ===== *)
(** Identities of processes ([process_identity.rs]): the pid with a marker of when the
    process started, and how both are read from [/proc/<pid>/stat] on Linux.

    [ProcessInspector] is a function of the pid; the system's inspector reads the file. *)
From S2P Require Import Prelude Utf8 Protocol Text.

Record ProcessIdentity : Set := { pi_pid : Z; start_marker : str }.

Record ProcessSnapshot : Set := { ps_identity : ProcessIdentity; parent_pid : Z }.

#[export] Instance ProcessIdentity_eq : EqDecision ProcessIdentity.
Proof. solve_decision. Defined.

#[export] Instance ProcessSnapshot_eq : EqDecision ProcessSnapshot.
Proof. solve_decision. Defined.

Definition ProcessInspector : Set := Z → option ProcessSnapshot.

(** What a snapshot of a pid promises to the callers: it is of that pid. *)
Definition inspector_ok (inspector : ProcessInspector) : Prop :=
  ∀ pid s, inspector pid = Some s → pi_pid (ps_identity s) = pid.

Definition parse_linux_process_stat (pid : Z) (stat : str) : option ProcessSnapshot :=
  '(reported_pid, rest) ← split_once (lit " (") stat;
  reported ← parse_unsigned u32_max reported_pid;
  if negb (reported =? pid) then None
  else
    '(_, after_comm) ← rsplit_once (lit ") ") rest;
    let fields := split_white after_comm in
    parent ← fields !! 1%nat ≫= parse_unsigned u32_max;
    start_ticks ← fields !! 19%nat;
    Some {| ps_identity := {| pi_pid := pid; start_marker := lit "linux:" ++ dec pid ++ lit ":" ++ start_ticks |};
            parent_pid := parent |}.

(** [system_process_snapshot] on Linux, over the files of [/proc]. *)
Definition system_process_snapshot (read_stat : Z → option str) : ProcessInspector := λ pid,
  stat ← read_stat pid; parse_linux_process_stat pid stat.

Definition process_start_identity (inspector : ProcessInspector) (pid : Z) : option str :=
  (λ s, start_marker (ps_identity s)) <$> inspector pid.

(** ** The format of the kernel *)

(** The line of [/proc/<pid>/stat]: the pid, the command in parentheses (any characters at
    all), and fields without parentheses. *)
Definition stat_line (pid : Z) (comm : str) (fields : list str) : str :=
  dec pid ++ lit " (" ++ comm ++ lit ") " ++ join [0x20] fields ++ [0x0a].

Definition stat_field (w : str) : Prop := plain_word w ∧ 0x29 ∉ w.

Lemma system_inspector_ok read_stat : inspector_ok (system_process_snapshot read_stat).
Proof.
  intros pid s H. unfold system_process_snapshot in H. apply bind_Some in H as (stat & _ & H).
  unfold parse_linux_process_stat in H. apply bind_Some in H as ([reported rest] & _ & H).
  apply bind_Some in H as (r & _ & H). destruct (negb _); [done|].
  apply bind_Some in H as ([? ?] & _ & H). apply bind_Some in H as (? & _ & H).
  apply bind_Some in H as (? & _ & H). by simplify_eq.
Qed.

Lemma no_space_paren s after k :
  forallb ascii_digit s = true → (k < length s)%nat →
  is_prefix (lit " (") (drop k s ++ lit " (" ++ after) = false.
Proof.
  intros Hd Hk. destruct (drop k s) as [|c l] eqn:E.
  { apply (f_equal length) in E. rewrite length_drop in E. simpl in E. lia. }
  assert (c ∈ s) as Hin.
  { apply (subseteq_drop k s). rewrite E. by left. }
  rewrite forallb_forall in Hd. specialize (Hd c (proj1 (list_elem_of_In _ _) Hin)).
  cbn. rewrite bool_decide_false //. intros <-. done.
Qed.

Lemma rsplit_paren_None s : 0x29 ∉ s → rsplit_once (lit ") ") s = None.
Proof.
  induction s as [|c s IH]; intros H; [done|]. apply not_elem_of_cons in H as [Hc Hs].
  cbn [rsplit_once]. rewrite IH //. cbn. by rewrite bool_decide_false.
Qed.

Lemma join_no_paren fields : Forall stat_field fields → 0x29 ∉ join [0x20] fields.
Proof.
  induction 1 as [|w ws [_ Hw] Hws IH]; [apply not_elem_of_nil|]. destruct ws as [|w2 ws]; [done|].
  change (join [0x20] (w :: w2 :: ws)) with (w ++ 0x20 :: join [0x20] (w2 :: ws)).
  rewrite not_elem_of_app not_elem_of_cons. done.
Qed.

(** The words of a line that ends in white space. *)
Lemma split_white_join_newline ws :
  Forall plain_word ws → split_white (join [0x20] ws ++ [0x0a]) = ws.
Proof.
  unfold split_white. induction 1 as [|w ws [Hne Hw] Hws IH]; [done|]. destruct ws as [|w2 ws].
  - cbn [join]. rewrite split_white_word //. change ([] ++ w) with w.
    cbn [split_white_go]. change (is_whitespace 0x0a) with true. cbn iota. by rewrite bool_decide_false.
  - change (join [0x20] (w :: w2 :: ws)) with (w ++ 0x20 :: join [0x20] (w2 :: ws)).
    rewrite -assoc split_white_word //. change ([] ++ w) with w.
    change ((0x20 :: join [0x20] (w2 :: ws)) ++ [0x0a]) with (0x20 :: (join [0x20] (w2 :: ws) ++ [0x0a])).
    cbn [split_white_go]. change (is_whitespace 0x20) with true. cbn iota. rewrite bool_decide_false // IH //.
Qed.

(** Reading a process is exact: from the line the kernel writes, whatever the command
    name holds (closing parentheses and spaces included), the parser takes exactly the parent
    field and the start-time field, answers for the pid that was asked and for no other. *)
Theorem stat_line_read_exactly pid other comm fields parent ticks :
  0 ≤ pid ≤ u32_max → 0 ≤ parent ≤ u32_max → Forall stat_field fields →
  fields !! 1%nat = Some (dec parent) → fields !! 19%nat = Some ticks →
  parse_linux_process_stat other (stat_line pid comm fields) =
  if bool_decide (other = pid) then
    Some {| ps_identity := {| pi_pid := pid; start_marker := lit "linux:" ++ dec pid ++ lit ":" ++ ticks |};
            parent_pid := parent |}
  else None.
Proof.
  intros Hpid Hpar Hf H1 H19. unfold parse_linux_process_stat, stat_line.
  rewrite split_once_app; [|intros k Hk; apply no_space_paren; [apply dec_digits; lia|done]].
  cbn [mbind option_bind]. rewrite parse_dec //. cbn [mbind option_bind].
  case_bool_decide as Ho; [subst other|].
  2:{ replace (pid =? other) with false by lia. done. }
  rewrite Z.eqb_refl. cbn [negb].
  rewrite rsplit_once_app; [|done|].
  2:{ apply rsplit_paren_None. cbn. rewrite not_elem_of_cons not_elem_of_app. split; [done|].
      split; [by apply join_no_paren|]. by intros ?%list_elem_of_singleton. }
  cbn [mbind option_bind]. rewrite split_white_join_newline.
  2:{ eapply Forall_impl; [exact Hf|]. by intros w []. }
  rewrite H1 H19. cbn [mbind option_bind]. rewrite parse_dec //.
Qed.

Lemma stat_line_read_exactly_witness :
  let fields := lit "S" :: ((λ n, dec (Z.of_nat n)) <$> seq 41 20) in
  parse_linux_process_stat 42 (stat_line 42 (lit "a) b (c") fields) =
  Some {| ps_identity := {| pi_pid := 42; start_marker := lit "linux:42:59" |}; parent_pid := 41 |}.
Proof.
  cbn zeta.
  refine (stat_line_read_exactly 42 42 (lit "a) b (c") (lit "S" :: ((λ n, dec (Z.of_nat n)) <$> seq 41 20))
    41 (dec 59) _ _ _ _ _).
  - vm_compute. split; discriminate.
  - vm_compute. split; discriminate.
  - assert (forallb (λ w, negb (bool_decide (w = [])) && forallb (λ c, negb (is_whitespace c)) w &&
      negb (bool_decide (0x29 ∈ w))) (lit "S" :: ((λ n, dec (Z.of_nat n)) <$> seq 41 20)) = true) as H
      by (vm_compute; reflexivity).
    rewrite forallb_forall in H. apply Forall_forall. intros w Hw.
    specialize (H w (proj1 (list_elem_of_In _ _) Hw)). inv_ok. by repeat split.
  - vm_compute. reflexivity.
  - vm_compute. reflexivity.
Defined.
