(* ===== verification/Speculation.v ===== *)
(** [src/speculation.rs]: the phase machine of a tournament between two candidate runs, and
    the fixed score that picks the winner.

    The theorems: the reachable histories of [TournamentState] (one transition attempt or
    restart normalization at a time) never leave a terminal phase, raise the generation by
    one with every change of phase, reach [Selected] only through the whole finalization
    order, and cannot win once a rollback has begun; scoring does not depend on the order
    of its two arguments and picks an eligible candidate that no eligible one beats. *)
From S2P Require Import Prelude Protocol.

Definition CANDIDATE_COUNT : Z := 2.
Definition MAX_LIVE_TOURNAMENTS : nat := 8.
Definition MAX_CANDIDATE_OUTPUT_BYTES : Z := 64 * 1024 * 1024.

(** ** Scoring *)

Record CandidateResult : Set := {
  input_index : Z;
  exit_success : option bool;
  elapsed_ns : option Z;
  output_bytes : option Z;
  quiescent : bool;
  output_overflowed : bool;
}.

Definition is_eligible (c : CandidateResult) : bool :=
  (input_index c <? CANDIDATE_COUNT)
  && bool_decide (is_Some (exit_success c))
  && bool_decide (is_Some (elapsed_ns c))
  && match output_bytes c with Some bytes => bytes <=? MAX_CANDIDATE_OUTPUT_BYTES | None => false end
  && quiescent c
  && negb (output_overflowed c).

Inductive ScoreDecision : Set :=
  | DecisionSelected (index : Z)
  | Rollback.

#[global] Instance ScoreDecision_eq_dec : EqDecision ScoreDecision.
Proof. solve_decision. Defined.

(** [Ord::cmp] on booleans and options: [false < true], [None < Some]. *)
Definition bool_cmp (a b : bool) : comparison :=
  match a, b with
  | true, false => Gt | false, true => Lt | _, _ => Eq
  end.
Definition option_cmp {A} (cmp : A → A → comparison) (a b : option A) : comparison :=
  match a, b with
  | None, None => Eq | None, Some _ => Lt | Some _, None => Gt
  | Some a, Some b => cmp a b
  end.

(** [Ordering::then_with]. *)
Definition then_with (c d : comparison) : comparison := match c with Eq => d | _ => c end.

Definition compare_candidates (left right : CandidateResult) : option comparison :=
  match is_eligible left, is_eligible right with
  | false, false => None
  | true, false => Some Gt
  | false, true => Some Lt
  | true, true =>
    Some (then_with (option_cmp bool_cmp (exit_success left) (exit_success right))
         (then_with (option_cmp Z.compare (elapsed_ns right) (elapsed_ns left))
         (then_with (option_cmp Z.compare (output_bytes right) (output_bytes left))
                    (Z.compare (input_index right) (input_index left)))))
  end.

Definition score_candidates (cs : array2 CandidateResult) : ScoreDecision :=
  if (input_index (at0 cs) =? input_index (at1 cs))
     || negb (all2 (λ c, input_index c <? CANDIDATE_COUNT) cs)
  then Rollback else
  match compare_candidates (at0 cs) (at1 cs) with
  | None => Rollback
  | Some (Gt | Eq) => DecisionSelected (input_index (at0 cs))
  | Some Lt => DecisionSelected (input_index (at1 cs))
  end.

(** ** The phase machine *)

Record TournamentState : Set := { phase : SpeculationPhase; generation : Z }.

Inductive TransitionError : Set :=
  | StaleGeneration
  | IllegalTransition
  | GenerationExhausted.

#[global] Instance TransitionError_eq_dec : EqDecision TransitionError.
Proof. solve_decision. Defined.

Definition is_legal_transition (from to : SpeculationPhase) : bool :=
  match from with
  | Prepared => bool_decide (to ∈ [Armed; RollbackPending])
  | Armed => bool_decide (to ∈ [Starting; RollbackPending; RollbackRequired])
  | Starting => bool_decide (to ∈ [Ready; RollbackPending; RollbackRequired])
  | Ready => bool_decide (to ∈ [GoPending; RollbackPending])
  | GoPending => bool_decide (to ∈ [Running; RollbackPending; DecisionUncertain])
  | Running => bool_decide (to ∈ [ResultPending; RollbackPending; RollbackRequired])
  | ResultPending => bool_decide (to ∈ [PendingFinalize; RollbackPending; RollbackRequired])
  | PendingFinalize => bool_decide (to ∈ [FinalizingLoser; RollbackPending; RollbackRequired])
  | FinalizingLoser =>
    bool_decide (to ∈ [WinnerSelectionPending; RollbackRequired; DecisionUncertain])
  | WinnerSelectionPending =>
    bool_decide (to ∈ [FinalizingWinner; RollbackRequired; DecisionUncertain])
  | FinalizingWinner => bool_decide (to ∈ [Selected; RollbackRequired; DecisionUncertain])
  | RollbackRequired => bool_decide (to ∈ [RollbackPending; RollbackRequired])
  | DecisionUncertain => bool_decide (to ∈ [RollbackPending; DecisionUncertain])
  | RollbackPending => bool_decide (to ∈ [RolledBack; RollbackRequired])
  | Selected => bool_decide (to ∈ [Selected])
  | RolledBack => bool_decide (to ∈ [RolledBack])
  end.

Definition transition (expected_generation : Z) (next : SpeculationPhase)
    : M TournamentState TransitionError unit := λ s,
  if negb (expected_generation =? generation s) then (Err StaleGeneration, s)
  else if bool_decide (phase s = next) && is_terminal (phase s) then (Ok tt, s)
  else if negb (is_legal_transition (phase s) next) then (Err IllegalTransition, s)
  else match checked_add u64_max (generation s) 1 with
  | None => (Err GenerationExhausted, s)
  | Some g => (Ok tt, {| phase := next; generation := g |})
  end.

Definition normalize_after_daemon_restart (expected_generation : Z)
    : M TournamentState TransitionError unit := λ s,
  if is_terminal (phase s) || bool_decide (phase s = RollbackRequired) then (Ok tt, s)
  else if negb (expected_generation =? generation s) then (Err StaleGeneration, s)
  else match checked_add u64_max (generation s) 1 with
  | None => (Err GenerationExhausted, s)
  | Some g => (Ok tt, {| phase := RollbackRequired; generation := g |})
  end.

Example score_tie : score_candidates (Array2
  {| input_index := 1; exit_success := Some true; elapsed_ns := Some 1; output_bytes := Some 1;
     quiescent := true; output_overflowed := false |}
  {| input_index := 0; exit_success := Some true; elapsed_ns := Some 1; output_bytes := Some 1;
     quiescent := true; output_overflowed := false |}) = DecisionSelected 0.
Proof. reflexivity. Qed.

(** ** Scoring theorems *)

Lemma is_eligible_true c :
  is_eligible c = true ↔
  ∃ ok ns bytes, exit_success c = Some ok ∧ elapsed_ns c = Some ns ∧ output_bytes c = Some bytes ∧
    input_index c < CANDIDATE_COUNT ∧ bytes ≤ MAX_CANDIDATE_OUTPUT_BYTES ∧
    quiescent c = true ∧ output_overflowed c = false.
Proof.
  unfold is_eligible. split.
  - intros H. inv_ok.
    repeat match goal with H : is_Some _ |- _ => destruct H as [? ->] end.
    destruct (output_bytes c) as [b|]; [|done]. eexists _, _, _. split_and!; try done; lia.
  - intros (ok & ns & b & -> & -> & -> & ? & ? & -> & ->).
    rewrite !bool_decide_true; [|by eexists..]. lia.
Qed.

(** The order the tie-breaking chain means: success first, then less time, then less
    output, then the lower index. *)
Definition score_of (c : CandidateResult) : option (bool * Z * Z * Z) :=
  ok ← exit_success c; ns ← elapsed_ns c; bytes ← output_bytes c; Some (ok, ns, bytes, input_index c).

Definition score_gt (a b : bool * Z * Z * Z) : Prop :=
  let '(oka, nsa, ba, ia) := a in let '(okb, nsb, bb, ib) := b in
  oka = true ∧ okb = false ∨
  oka = okb ∧ (nsa < nsb ∨ nsa = nsb ∧ (ba < bb ∨ ba = bb ∧ ia < ib)).

Definition better (a b : CandidateResult) : Prop :=
  match score_of a, score_of b with Some x, Some y => score_gt x y | _, _ => False end.

(** Between eligible candidates the comparison decides which is better. *)
Lemma compare_candidates_better a b :
  is_eligible a = true → is_eligible b = true → input_index a ≠ input_index b →
  compare_candidates a b = Some Gt ∧ better a b ∨ compare_candidates a b = Some Lt ∧ better b a.
Proof.
  intros Ha Hb Hne. unfold compare_candidates. rewrite Ha Hb.
  apply is_eligible_true in Ha as (oka & nsa & ba & Ea1 & Ea2 & Ea3 & _).
  apply is_eligible_true in Hb as (okb & nsb & bb & Eb1 & Eb2 & Eb3 & _).
  unfold better, score_of. rewrite Ea1 Ea2 Ea3 Eb1 Eb2 Eb3 /=.
  destruct oka, okb; simpl; [|by auto|by auto|];
    (destruct (Z.compare_spec nsb nsa); simpl; [|by auto 7 with lia|by auto 7 with lia];
     destruct (Z.compare_spec bb ba); simpl; [|by auto 9 with lia|by auto 9 with lia];
     destruct (Z.compare_spec (input_index b) (input_index a)); simpl; [lia| |]; auto 12).
Qed.

(** The score as its meaning: the eligible candidate that is better than the other. *)
Lemma score_candidates_cases a b :
  let result := score_candidates (Array2 a b) in
  let valid := input_index a ≠ input_index b ∧ input_index a < CANDIDATE_COUNT
               ∧ input_index b < CANDIDATE_COUNT in
  valid ∧ is_eligible a = true ∧ (is_eligible b = false ∨ better a b)
    ∧ result = DecisionSelected (input_index a) ∨
  valid ∧ is_eligible b = true ∧ (is_eligible a = false ∨ better b a)
    ∧ result = DecisionSelected (input_index b) ∨
  (¬ valid ∨ is_eligible a = false ∧ is_eligible b = false) ∧ result = Rollback.
Proof.
  cbn zeta. unfold score_candidates, all2. cbn [at0 at1].
  destruct (Z.eqb_spec (input_index a) (input_index b)) as [|Hne]; [right; right; tauto|].
  destruct (Z.ltb_spec (input_index a) CANDIDATE_COUNT) as [Ha|]; [|right; right; split; [lia|done]].
  destruct (Z.ltb_spec (input_index b) CANDIDATE_COUNT) as [Hb|]; [|right; right; split; [lia|done]].
  cbn [orb andb negb].
  destruct (is_eligible a) eqn:Ea, (is_eligible b) eqn:Eb.
  - destruct (compare_candidates_better a b) as [[-> ?]|[-> ?]]; [done..| |]; auto 10.
  - unfold compare_candidates. rewrite Ea Eb. left. auto.
  - unfold compare_candidates. rewrite Ea Eb. right; left. auto.
  - unfold compare_candidates. rewrite Ea Eb. right; right. auto.
Qed.

(** The score selects an eligible candidate, one no other eligible candidate beats in
    success, time, output and index order; it rolls back only when the indices are unusable
    or neither candidate is eligible; and swapping the two arguments never changes it. *)
Theorem score_candidates_best a b :
  (∀ i, score_candidates (Array2 a b) = DecisionSelected i →
    ∃ winner loser, (winner = a ∧ loser = b ∨ winner = b ∧ loser = a) ∧ i = input_index winner ∧
      is_eligible winner = true ∧ (is_eligible loser = true → better winner loser)) ∧
  (score_candidates (Array2 a b) = Rollback ↔
    input_index a = input_index b ∨ CANDIDATE_COUNT ≤ input_index a ∨ CANDIDATE_COUNT ≤ input_index b
    ∨ is_eligible a = false ∧ is_eligible b = false) ∧
  score_candidates (Array2 b a) = score_candidates (Array2 a b).
Proof.
  assert (∀ x y, better x y → better y x → False) as Hasym.
  { intros x y. unfold better, score_gt.
    destruct (score_of x) as [[[[[] ?] ?] ?]|], (score_of y) as [[[[[] ?] ?] ?]|]; try done; lia. }
  pose proof (score_candidates_cases a b) as Hab. pose proof (score_candidates_cases b a) as Hba.
  cbn zeta in Hab, Hba.
  destruct Hab as [(Hv & Ha & Hb & ->)|[(Hv & Hb & Ha & ->)|[Hn ->]]].
  - split_and!.
    + intros i [= <-]. exists a, b. split_and!; auto. intros Hb'. destruct Hb; [congruence|done].
    + split; [done|]. intros [|[|[|[? ?]]]]; [lia..|congruence].
    + destruct Hba as [(_ & Hb' & [?|?] & ->)|[(_ & _ & _ & ->)|[[Hv'|[? ?]] ->]]]; try done; try congruence.
      * destruct Hb as [?|?]; [congruence|]. exfalso. eauto.
      * exfalso. apply Hv'. split_and!; [|lia..]. intros ?; by apply Hv.
  - split_and!.
    + intros i [= <-]. exists b, a. split_and!; auto. intros Ha'. destruct Ha; [congruence|done].
    + split; [done|]. intros [|[|[|[? ?]]]]; [lia..|congruence].
    + destruct Hba as [(_ & _ & _ & ->)|[(_ & Ha' & [?|?] & ->)|[[Hv'|[? ?]] ->]]]; try done; try congruence.
      * destruct Ha as [?|?]; [congruence|]. exfalso. eauto.
      * exfalso. apply Hv'. split_and!; [|lia..]. intros ?; by apply Hv.
  - split_and!; [done| |].
    + split; [|done]. intros _. destruct Hn as [Hn|]; [|by auto].
      destruct (decide (input_index a = input_index b)); [by auto|]. right.
      destruct (decide (CANDIDATE_COUNT ≤ input_index a)); [by auto|]. right.
      destruct (decide (CANDIDATE_COUNT ≤ input_index b)); [by auto|]. exfalso. apply Hn. lia.
    + destruct Hba as [(Hv & Hb' & _ & _)|[(Hv & Ha' & _ & _)|[_ ->]]]; [| |done].
      * exfalso. destruct Hn as [Hn|[? ?]]; [|congruence]. apply Hn. destruct Hv as (? & ? & ?). auto.
      * exfalso. destruct Hn as [Hn|[? ?]]; [|congruence]. apply Hn. destruct Hv as (? & ? & ?). auto.
Qed.

(** ** Histories of the phase machine *)

#[global] Instance TournamentState_eq_dec : EqDecision TournamentState.
Proof. solve_decision. Defined.

(** What callers can do to a tournament. *)
Inductive tournament_op : Set :=
  | OpTransition (expected_generation : Z) (next : SpeculationPhase)
  | OpRestart (expected_generation : Z).

Definition tournament_step (s : TournamentState) (op : tournament_op) : TournamentState :=
  match op with
  | OpTransition g next => snd (transition g next s)
  | OpRestart g => snd (normalize_after_daemon_restart g s)
  end.

Definition tournament_run (s : TournamentState) (ops : list tournament_op) : TournamentState :=
  foldl tournament_step s ops.

(** The phases entered, in order. *)
Fixpoint history (s : TournamentState) (ops : list tournament_op) : list SpeculationPhase :=
  match ops with
  | [] => []
  | op :: ops =>
    let s' := tournament_step s op in
    if bool_decide (s' = s) then history s' ops else phase s' :: history s' ops
  end.

(** Every operation keeps the state or moves along an edge and counts it. *)
Inductive tournament_moves (s : TournamentState) : TournamentState → Prop :=
  | moves_stay : tournament_moves s s
  | moves_edge next :
      is_legal_transition (phase s) next = true ∨ next = RollbackRequired →
      is_terminal (phase s) = false → generation s + 1 ≤ u64_max →
      tournament_moves s {| phase := next; generation := generation s + 1 |}.

Lemma terminal_edges from to :
  is_terminal from = true → is_legal_transition from to = true → to = from.
Proof. by destruct from, to. Qed.

Lemma tournament_step_moves s op : tournament_moves s (tournament_step s op).
Proof.
  destruct op as [g next|g]; simpl.
  - unfold transition. destruct (g =? generation s); simpl; [|constructor].
    case_bool_decide as Heq; simpl.
    + destruct (is_terminal (phase s)) eqn:Ht; [constructor|].
      destruct (is_legal_transition (phase s) next) eqn:Hl; simpl; [|constructor].
      destruct (checked_add _ _ _) eqn:Hg; simpl; [|constructor].
      apply checked_add_Some in Hg as [-> ?]. constructor; auto.
    + destruct (is_legal_transition (phase s) next) eqn:Hl; simpl; [|constructor].
      destruct (checked_add _ _ _) eqn:Hg; simpl; [|constructor].
      apply checked_add_Some in Hg as [-> ?]. constructor; auto.
      destruct (is_terminal (phase s)) eqn:Ht; [|done].
      by pose proof (terminal_edges _ _ Ht Hl).
  - unfold normalize_after_daemon_restart.
    destruct (is_terminal (phase s)) eqn:Ht; simpl; [constructor|].
    case_bool_decide; simpl; [constructor|]. destruct (g =? generation s); simpl; [|constructor].
    destruct (checked_add _ _ _) eqn:Hg; simpl; [|constructor].
    apply checked_add_Some in Hg as [-> ?]. constructor; auto.
Qed.

(** The generation is a compare-and-swap ticket: a call that fails, or repeats a terminal
    phase, changes nothing; a call that changes the state moved along a legal edge and
    raised the generation by one, so a second caller with the same ticket is refused. *)
Theorem transition_compare_and_swap s g next :
  let '(r, s') := transition g next s in
  (is_ok r = false → s' = s) ∧
  (s' ≠ s →
    r = Ok tt ∧ generation s = g ∧ phase s' = next ∧ generation s' = g + 1 ∧
    is_legal_transition (phase s) next = true ∧ is_terminal (phase s) = false ∧
    ∀ other, transition g other s' = (Err StaleGeneration, s')).
Proof.
  pose proof (tournament_step_moves s (OpTransition g next)) as Hm. simpl in Hm.
  unfold transition in Hm |- *. destruct (Z.eqb_spec g (generation s)) as [Hg|]; simpl; [|done].
  destruct (bool_decide _ && _) eqn:Hb; simpl; [done|].
  destruct (is_legal_transition (phase s) next) eqn:Hl; simpl; [|done].
  destruct (checked_add _ _ _) as [g'|] eqn:Hadd; simpl; [|done].
  apply checked_add_Some in Hadd as [-> ?]. split; [done|]. intros _.
  destruct (is_terminal (phase s)) eqn:Ht.
  { rewrite bool_decide_true // in Hb. by symmetry; apply terminal_edges. }
  split_and!; try done; [by rewrite Hg|]. intros other.
  destruct (Z.eqb_spec g (generation s + 1)); [lia|done].
Qed.

Lemma tournament_run_cons s op ops :
  tournament_run s (op :: ops) = tournament_run (tournament_step s op) ops.
Proof. done. Qed.

Lemma terminal_moves s s' : tournament_moves s s' → is_terminal (phase s) = true → s' = s.
Proof. intros [|next _ Ht _] H; [done|congruence]. Qed.

Lemma tournament_run_terminal s ops : is_terminal (phase s) = true → tournament_run s ops = s.
Proof.
  intros Ht. induction ops as [|op ops IH]; [done|]. rewrite tournament_run_cons.
  by rewrite (terminal_moves _ _ (tournament_step_moves s op) Ht).
Qed.

(** Over any sequence of transition attempts and daemon restarts, with any generations,
    a terminal tournament never changes again, the generation counts the changes of state
    exactly, and it stays within 64 bits. *)
Theorem tournament_history_counted s ops :
  is_u64 (generation s) →
  let s' := tournament_run s ops in
  (is_terminal (phase s) = true → s' = s) ∧
  generation s' = generation s + Z.of_nat (length (history s ops)) ∧
  is_u64 (generation s').
Proof.
  intros Hg. cbn zeta. split; [apply tournament_run_terminal|].
  revert s Hg. induction ops as [|op ops IH]; intros s Hg; [simpl; split; [lia|done]|].
  rewrite tournament_run_cons. cbn [history].
  destruct (tournament_step_moves s op) as [|next _ _ Hle].
  - rewrite bool_decide_true //. by apply IH.
  - rewrite bool_decide_false; [|intros Heq; apply (f_equal generation) in Heq; simpl in Heq; lia].
    destruct (IH {| phase := next; generation := generation s + 1 |}) as [-> Hu].
    { unfold is_u64 in *. simpl. lia. }
    split; [|done]. simpl. lia.
Qed.

Lemma tournament_history_counted_witness :
  generation (tournament_run {| phase := Prepared; generation := 1 |}
    [OpTransition 1 Armed; OpTransition 1 Starting; OpRestart 2]) = 3.
Proof.
  destruct (tournament_history_counted {| phase := Prepared; generation := 1 |}
    [OpTransition 1 Armed; OpTransition 1 Starting; OpRestart 2]) as (_ & -> & _).
  - split; simpl; [lia|]. unfold u64_max. lia.
  - reflexivity.
Defined.

(** The order of a tournament that is won. *)
Definition winning_order : list SpeculationPhase :=
  [Prepared; Armed; Starting; Ready; GoPending; Running; ResultPending; PendingFinalize;
   FinalizingLoser; WinnerSelectionPending; FinalizingWinner; Selected].

Definition is_rolling_back (p : SpeculationPhase) : bool :=
  is_rollback_only p || bool_decide (p = RolledBack).

Lemma edge_off_order from to :
  is_legal_transition from to = true →
  is_rolling_back to = true ∨
  ∃ i, winning_order !! i = Some from ∧ winning_order !! S i = Some to ∨ from = to.
Proof.
  destruct from; destruct to; intros H; try discriminate H; (by left) || (right;
    (by exists 0%nat; auto) || (by exists 0%nat; left) || (by exists 1%nat; left) || (by exists 2%nat; left)
    || (by exists 3%nat; left) || (by exists 4%nat; left) || (by exists 5%nat; left)
    || (by exists 6%nat; left) || (by exists 7%nat; left) || (by exists 8%nat; left)
    || (by exists 9%nat; left) || (by exists 10%nat; left)).
Qed.

Lemma rolling_back_edge from to :
  is_rolling_back from = true → is_legal_transition from to = true → is_rolling_back to = true.
Proof. by destruct from, to. Qed.

Lemma rolling_back_run s ops :
  is_rolling_back (phase s) = true → is_rolling_back (phase (tournament_run s ops)) = true.
Proof.
  revert s. induction ops as [|op ops IH]; intros s H; [done|]. rewrite tournament_run_cons. apply IH.
  destruct (tournament_step_moves s op) as [|next [Hl| ->] _ _]; simpl; [done| |done].
  by eapply rolling_back_edge.
Qed.

Lemma winning_order_index i j p :
  winning_order !! i = Some p → winning_order !! j = Some p → i = j.
Proof.
  intros Hi Hj. eapply (NoDup_lookup winning_order); [|done..]. apply (bool_decide_unpack _). done.
Qed.

Lemma history_winning s ops i :
  winning_order !! i = Some (phase s) → phase (tournament_run s ops) = Selected →
  history s ops = drop (S i) winning_order.
Proof.
  revert s i. induction ops as [|op ops IH]; intros s i Hi Hsel.
  { cbn in Hsel. rewrite Hsel in Hi. by rewrite (winning_order_index i 11 Selected). }
  rewrite tournament_run_cons in Hsel. cbn [history].
  destruct (tournament_step_moves s op) as [|next Hl Hnt Hle].
  { rewrite bool_decide_true //. by apply IH. }
  rewrite bool_decide_false; [|intros Heq; apply (f_equal generation) in Heq; simpl in Heq; lia].
  assert (is_rolling_back next = false) as Hnr.
  { apply not_true_is_false. intros Hr.
    pose proof (rolling_back_run {| phase := next; generation := generation s + 1 |} ops Hr) as H.
    rewrite Hsel in H. done. }
  destruct Hl as [Hl|Hl]; [|by rewrite Hl in Hnr].
  assert (winning_order !! S i = Some next) as Hnext.
  { destruct (edge_off_order _ _ Hl) as [Hr|(j & [[Hj Hj']|Heq])]; [congruence| |].
    - by rewrite (winning_order_index i j (phase s)).
    - exfalso. clear -Hl Hnr Hnt Heq. destruct (phase s); subst; done. }
  rewrite (IH {| phase := next; generation := generation s + 1 |} (S i) Hnext Hsel). by rewrite (drop_S _ _ _ Hnext).
Qed.

(** A tournament is won only by passing every phase in the documented order: whatever
    callers and restarts did, a run from [Prepared] that ends [Selected] entered exactly
    the eleven phases of the order, one after the other; and once a rollback has begun,
    no run ends [Selected]. *)
Theorem selected_only_in_order s ops :
  (phase s = Prepared → phase (tournament_run s ops) = Selected →
   history s ops = tail winning_order) ∧
  (is_rolling_back (phase s) = true → phase (tournament_run s ops) ≠ Selected).
Proof.
  split.
  - intros Hp Hsel. apply (history_winning s ops 0); [by rewrite Hp|done].
  - intros Hr Hsel. pose proof (rolling_back_run s ops Hr) as H. by rewrite Hsel in H.
Qed.

(** A legal edge taken with the current generation succeeds. *)
Lemma legal_step from to g :
  is_terminal from = false → g < u64_max → is_legal_transition from to = true →
  tournament_step {| phase := from; generation := g |} (OpTransition g to) =
  {| phase := to; generation := g + 1 |}.
Proof.
  intros Hnt Hg Hl. simpl. unfold transition. cbn [phase generation].
  rewrite Z.eqb_refl Hnt andb_false_r Hl. cbn [negb].
  by rewrite (proj2 (checked_add_Some u64_max g 1 (g + 1))); [|split; [done|lia]].
Qed.

(** Cleanup is always possible: from every non-terminal phase three or fewer transitions
    with the current generation lead to [RolledBack], if the generation is not within three
    of its maximum. *)
Theorem rollback_always_reachable s :
  is_terminal (phase s) = false → 0 ≤ generation s ≤ u64_max - 3 →
  ∃ ops, (length ops ≤ 3)%nat ∧ phase (tournament_run s ops) = RolledBack.
Proof.
  intros Ht Hg. destruct s as [p g]. simpl in *.
  destruct (decide (p = RollbackPending)) as [->|Hp].
  { exists [OpTransition g RolledBack]. split; [simpl; lia|].
    rewrite tournament_run_cons legal_step //=. lia. }
  destruct (is_legal_transition p RollbackPending) eqn:Hl.
  { exists [OpTransition g RollbackPending; OpTransition (g + 1) RolledBack]. split; [simpl; lia|].
    rewrite !tournament_run_cons (legal_step p) //; [|lia]. rewrite legal_step //. lia. }
  exists [OpTransition g RollbackRequired; OpTransition (g + 1) RollbackPending;
          OpTransition (g + 1 + 1) RolledBack]. split; [simpl; lia|].
  rewrite !tournament_run_cons (legal_step p) //; [|lia|by destruct p].
  rewrite legal_step //; [|lia]. rewrite legal_step //. lia.
Qed.

Lemma rollback_always_reachable_witness :
  ∃ ops, (length ops ≤ 3)%nat ∧
    phase (tournament_run {| phase := FinalizingWinner; generation := 11 |} ops) = RolledBack.
Proof. apply rollback_always_reachable; [reflexivity|unfold u64_max; simpl; lia]. Defined.
