(* ===== verification/EvidenceFs.v ===== *)
(** [src/speculation_fs.rs]: validated directories and the atomic JSON records the
    tournament evidence is made of.

    The Linux system calls the file makes are a typeclass, [Kernel], whose laws state what
    the manual pages document of each call, failures included; [serde_json] is the class
    [JsonCodec].  Everything the file itself does between the calls is a definition here.

    The theorems: a record write either returns the value it stored, durable under its name
    with the identity it reports, or leaves the old or the new record, never a torn one;
    other records are not touched; a replace against a stale identity changes nothing. *)
From S2P Require Import Prelude Utf8 Protocol.

Definition MAX_SPECULATION_JSON_BYTES : Z := 32 * 1024.
Definition MAX_DIRECTORY_PATH_BYTES : Z := 4096.
Definition MAX_LEAF_BYTES : Z := 255.
Definition TRANSACTION_TEMP_PREFIX : str := lit ".lterm-speculation-txn-v1-".
Definition TRANSACTION_TEMP_SUFFIX : str := lit ".tmp".

Inductive EvidenceError : Set :=
  | Unsupported
  | InvalidDirectory
  | InvalidIdentity
  | Overlap
  | InvalidLeaf
  | AlreadyExists
  | Missing
  | TooLarge
  | Corrupt
  | Stale
  | Io
  | Capacity
  | GenerationMismatch
  | Poisoned.

#[global] Instance EvidenceError_eq_dec : EqDecision EvidenceError.
Proof. solve_decision. Defined.

Record DurableDirectoryIdentity : Set := {
  boot_uuid : Uuid;
  dd_dev : Z;
  dd_ino : Z;
  statx_mnt_id_unique : Z;
}.

#[global] Instance DurableDirectoryIdentity_eq_dec : EqDecision DurableDirectoryIdentity.
Proof. solve_decision. Defined.

Record FileIdentity : Set := { fi_dev : Z; fi_ino : Z }.

#[global] Instance FileIdentity_eq_dec : EqDecision FileIdentity.
Proof. solve_decision. Defined.

Inductive DirectoryPolicy : Set := Private | Workspace | DelegatedCgroup.

#[global] Instance DirectoryPolicy_eq_dec : EqDecision DirectoryPolicy.
Proof. solve_decision. Defined.

(** A file name without NUL bytes, and a path. *)
Abbreviation leaf_name := (list Z) (only parsing).
Abbreviation path := (list Z) (only parsing).

(** ** [std::path] *)

Inductive Component : Set :=
  | RootDir
  | CurDir
  | ParentDir
  | Normal (name : leaf_name).

#[global] Instance Component_eq_dec : EqDecision Component.
Proof. solve_decision. Defined.

(** [slice::split] on [/]. *)
Fixpoint split_slash (bs : list byte) : list leaf_name :=
  match bs with
  | [] => [[]]
  | b :: bs =>
    if b =? 0x2f then [] :: split_slash bs
    else match split_slash bs with seg :: segs => (b :: seg) :: segs | [] => [[b]] end
  end.

Definition component_of (seg : leaf_name) : option Component :=
  if bool_decide (seg = []) then None
  else if bool_decide (seg = lit ".") then None
  else if bool_decide (seg = lit "..") then Some ParentDir
  else Some (Normal seg).

Definition is_absolute (p : path) : bool := match p with 0x2f :: _ => true | _ => false end.

(** [Path::components]: repeated slashes and inner dots vanish, a leading dot stays. *)
Definition components (p : path) : list Component :=
  let segs := split_slash p in
  if is_absolute p then RootDir :: omap component_of segs
  else match segs with
  | seg :: segs =>
    (if bool_decide (seg = lit ".") then [CurDir] else option_list (component_of seg))
    ++ omap component_of segs
  | [] => []
  end.

(** Equality and [starts_with] of paths compare components. *)
Definition path_eqb (p q : path) : bool := bool_decide (components p = components q).
Definition path_starts_with (p base : path) : bool := is_prefix (components base) (components p).

(** ** The system calls *)

Inductive errno : Set :=
  | EEXIST | ENOENT | EOPNOTSUPP | EINVAL | ENOSYS | EPERM | EACCES | EXDEV | EOTHER.

Inductive FileType : Set := RegularFile | Directory | Symlink | Fifo | Socket | BlockDevice | CharDevice.

#[global] Instance FileType_eq_dec : EqDecision FileType.
Proof. solve_decision. Defined.

Record Metadata : Set := {
  file_type : FileType;
  m_uid : Z;
  m_mode : Z;
  m_nlink : Z;
  m_dev : Z;
  m_ino : Z;
}.

Inductive open_flags : Set := ReadOnly | ReadWrite.

(** Descriptors are numbers; two descriptors of one file are told apart by nothing the
    source looks at, so a descriptor stands for the file it opened. *)
Class KernelOps (W : Type) := {
  sys_euid : Z;
  sys_open_root : M W errno Z;
  sys_open_dirat : Z → leaf_name → M W errno Z;
  sys_mkdirat : Z → leaf_name → M W errno unit;
  sys_canonicalize : path → M W errno path;
  sys_statx : Z → M W errno (bool * Z);
  sys_boot_id : M W errno str;
  sys_fstatfs_is_cgroup2 : Z → M W errno bool;
  sys_fstatat_is_regular : Z → leaf_name → M W errno bool;
  sys_readdir : Z → M W errno (list leaf_name);
  sys_flock : Z → M W errno unit;
  sys_unlock : Z → W → W;
  sys_openat : Z → leaf_name → open_flags → M W errno Z;
  sys_metadata : Z → M W errno Metadata;
  sys_read : Z → nat → M W errno (list byte);
  sys_open_tmpfile : Z → M W errno Z;
  sys_write_all : Z → list byte → M W errno unit;
  sys_sync_all : Z → M W errno unit;
  sys_link_empty_path : Z → Z → leaf_name → M W errno unit;
  sys_link_proc_fd : Z → Z → leaf_name → M W errno unit;
  sys_renameat : Z → leaf_name → leaf_name → M W errno unit;
  sys_unlinkat : Z → leaf_name → M W errno unit;
  (** [Uuid::new_v4], as its hyphenated text, and [Uuid::parse_str]. *)
  sys_new_uuid : W → str * W;
  uuid_parse_str : str → option Uuid;
}.

(** [serde_json::to_vec] and [serde_json::from_slice] at a type. *)
Class JsonCodec (T : Type) := {
  to_vec : T → option (list byte);
  from_slice : list byte → option T;
  from_slice_to_vec v bytes : to_vec v = Some bytes → from_slice bytes = Some v;
}.

(** [map_err(|_| e)] on a system call. *)
Definition or_else {W A} (m : M W errno A) (f : errno → EvidenceError) : M W EvidenceError A := λ w,
  match m w with
  | (Ok a, w') => (Ok a, w')
  | (Err e, w') => (Err (f e), w')
  end.

Definition map_io_error (e : errno) : EvidenceError :=
  match e with EEXIST => AlreadyExists | ENOENT => Missing | _ => Io end.

(** [if cond { return Err(e) }]. *)
Definition guard {W E} (bad : bool) (e : E) : M W E unit := lift (bail_if bad e).

Definition validate_absolute_path (p : path) : result EvidenceError unit :=
  bail_if (negb (is_absolute p) || (Z.of_nat (length p) >? MAX_DIRECTORY_PATH_BYTES)
           || existsb (λ c, bool_decide (c ∈ [CurDir; ParentDir])) (components p)) InvalidDirectory.

Definition validate_leaf (leaf : leaf_name) : result EvidenceError unit :=
  bail_if (bool_decide (leaf = []) || (Z.of_nat (length leaf) >? MAX_LEAF_BYTES)
           || bool_decide (leaf = lit ".") || bool_decide (leaf = lit "..")
           || existsb (Z.eqb 0x2f) leaf) InvalidLeaf.

(** [str::strip_prefix] and [str::strip_suffix]. *)
Definition strip_prefix (p s : str) : option str :=
  if is_prefix p s then Some (drop (length p) s) else None.
Definition strip_suffix (p s : str) : option str :=
  reverse <$> strip_prefix (reverse p) (reverse s).

Record StoredJson (T : Type) : Type := { sj_value : T; sj_identity : FileIdentity }.
Arguments sj_value {T} _.
Arguments sj_identity {T} _.
Arguments Build_StoredJson {T} _ _.

Record ValidatedDirectory : Set := {
  vd_file : Z;
  vd_identity : DurableDirectoryIdentity;
  canonical_locator : path;
  vd_policy : DirectoryPolicy;
}.

(** [Uuid::parse_str] is a library's. *)
Definition transaction_temp_named (parse_str : str → option Uuid) (leaf : leaf_name) : bool :=
  match value ← from_utf8 leaf; value ← strip_prefix TRANSACTION_TEMP_PREFIX value;
        uuid ← strip_suffix TRANSACTION_TEMP_SUFFIX value; parse_str uuid with
  | Some _ => true
  | None => false
  end.

Section fs.
Context {W : Type} `{KernelOps W}.
Abbreviation IO := (M W EvidenceError).

Definition is_transaction_temp_leaf (leaf : leaf_name) : bool := transaction_temp_named uuid_parse_str leaf.

Definition transaction_temp_leaf : IO leaf_name := λ w,
  let '(uuid, w') := sys_new_uuid w in
  (Ok (utf8 (TRANSACTION_TEMP_PREFIX ++ uuid ++ TRANSACTION_TEMP_SUFFIX)), w').

(** ** Files

    The octal masks of the source: 0o7777 is 4095, 0o600 is 384, 0o700 is 448, 0o6000 is
    3072 and 0o022 is 18. *)

Definition openat_file (dirfd : Z) (leaf : leaf_name) (flags : open_flags) : IO Z :=
  or_else (sys_openat dirfd leaf flags) map_io_error.

Definition validate_regular_file (file : Z) (expected_links : Z) : IO FileIdentity :=
  metadata ← or_else (sys_metadata file) (λ _, Io);
  _ ← guard (negb (bool_decide (file_type metadata = RegularFile))
             || negb (m_uid metadata =? sys_euid)
             || negb (Z.land (m_mode metadata) 4095 =? 384)
             || negb (m_nlink metadata =? expected_links)) InvalidIdentity;
  mret {| fi_dev := m_dev metadata; fi_ino := m_ino metadata |}.

Definition validate_record_file (file : Z) : IO FileIdentity := validate_regular_file file 1.
Definition validate_temporary_record_file (file : Z) : IO FileIdentity :=
  validate_regular_file file 0.

Definition read_bounded (file : Z) (cap : Z) : IO (list byte) :=
  let effective_cap := Z.min cap MAX_SPECULATION_JSON_BYTES in
  bytes ← or_else (sys_read file (Z.to_nat (effective_cap + 1))) (λ _, Io);
  _ ← guard (Z.of_nat (length bytes) >? effective_cap) TooLarge;
  mret bytes.

Definition read_small_leaf (dirfd : Z) (leaf : leaf_name) (cap : Z) : IO (list byte) :=
  file ← openat_file dirfd leaf ReadOnly;
  bytes ← or_else (sys_read file (Z.to_nat (cap + 1))) (λ _, Io);
  _ ← guard (Z.of_nat (length bytes) >? cap) TooLarge;
  mret bytes.

Definition write_and_sync (file : Z) (bytes : list byte) : IO unit :=
  _ ← or_else (sys_write_all file bytes) (λ _, Io);
  or_else (sys_sync_all file) (λ _, Io).

Definition serialize_bounded {T} `{JsonCodec T} (value : T) (cap : Z) : result EvidenceError (list byte) :=
  let effective_cap := Z.min cap MAX_SPECULATION_JSON_BYTES in
  bytes ← ok_or (to_vec value) Corrupt;
  _ ← bail_if (Z.of_nat (length bytes) >? effective_cap) TooLarge;
  Ok bytes.

Definition create_unnamed_temp (dirfd : Z) : IO Z :=
  or_else (sys_open_tmpfile dirfd) (λ e,
    match e with EOPNOTSUPP | EINVAL | ENOSYS => Unsupported | _ => Io end).

(** The direct link first, then the [/proc/self/fd] one for EPERM and ENOENT. *)
Definition publish_unnamed_no_replace (file dirfd : Z) (leaf : leaf_name) : IO unit := λ w,
  let '(result, w) :=
    match sys_link_empty_path file dirfd leaf w with
    | (Err (EPERM | ENOENT), w') => sys_link_proc_fd file dirfd leaf w'
    | r => r
    end in
  match result with
  | Ok tt => (Ok tt, w)
  | Err EEXIST => (Err AlreadyExists, w)
  | Err (EOPNOTSUPP | EINVAL | ENOSYS | EPERM | EACCES | ENOENT | EXDEV) => (Err Unsupported, w)
  | Err EOTHER => (Err Io, w)
  end.

(** [unlinkat] whose result is ignored. *)
Definition unlinkat (dirfd : Z) (leaf : leaf_name) (w : W) : W := snd (sys_unlinkat dirfd leaf w).
Definition unlinkat_checked (dirfd : Z) (leaf : leaf_name) : IO unit :=
  or_else (sys_unlinkat dirfd leaf) map_io_error.

Definition renameat (dirfd : Z) (from to : leaf_name) : IO unit :=
  or_else (sys_renameat dirfd from to) map_io_error.

(** ** Directories *)

Definition durable_identity_from_fd (file : Z) : IO DurableDirectoryIdentity :=
  metadata ← or_else (sys_metadata file) (λ _, Io);
  statx ← or_else (sys_statx file) (λ _, Unsupported);
  _ ← guard (negb (fst statx) || (snd statx =? 0)) Unsupported;
  boot ← or_else sys_boot_id (λ _, Unsupported);
  boot_uuid ← lift (ok_or (uuid_parse_str (trim boot)) Unsupported);
  mret {| boot_uuid := boot_uuid; dd_dev := m_dev metadata; dd_ino := m_ino metadata;
          statx_mnt_id_unique := snd statx |}.

Definition validate_private_directory_metadata (file : Z) : IO unit :=
  metadata ← or_else (sys_metadata file) (λ _, Io);
  guard (negb (bool_decide (file_type metadata = Directory))
         || negb (m_uid metadata =? sys_euid)
         || negb (Z.land (m_mode metadata) 4095 =? 448)) InvalidDirectory.

Definition validate_workspace_directory_metadata (file : Z) : IO unit :=
  metadata ← or_else (sys_metadata file) (λ _, Io);
  guard (negb (bool_decide (file_type metadata = Directory))
         || negb (m_uid metadata =? sys_euid)
         || negb (Z.land (m_mode metadata) 3072 =? 0)
         || negb (Z.land (m_mode metadata) 18 =? 0)) InvalidDirectory.

Definition validate_cgroup_leaf_exists (dirfd : Z) (leaf : leaf_name) : IO unit :=
  regular ← or_else (sys_fstatat_is_regular dirfd leaf) (λ _, Io);
  guard (negb regular) InvalidDirectory.

(** [u8::is_ascii_whitespace] and [slice::split] on it. *)
Definition is_ascii_whitespace (b : byte) : bool := bool_decide (b ∈ [0x20; 0x09; 0x0a; 0x0c; 0x0d]).
Fixpoint split_whitespace (bs : list byte) : list (list byte) :=
  match bs with
  | [] => [[]]
  | b :: bs =>
    if is_ascii_whitespace b then [] :: split_whitespace bs
    else match split_whitespace bs with seg :: segs => (b :: seg) :: segs | [] => [[b]] end
  end.

(** One entry of the final loop over the control files. *)
Definition validate_control_leaf (file : Z) (leaf : leaf_name) (flags : open_flags) : IO unit :=
  opened ← openat_file file leaf flags;
  metadata ← or_else (sys_metadata opened) (λ _, Io);
  guard (negb (bool_decide (file_type metadata = RegularFile))) InvalidDirectory.

Definition validate_delegated_cgroup_root (file : Z) : IO unit :=
  metadata ← or_else (sys_metadata file) (λ _, Io);
  _ ← guard (negb (bool_decide (file_type metadata = Directory))
             || negb (m_uid metadata =? sys_euid)
             || negb (Z.land (m_mode metadata) 18 =? 0)) InvalidDirectory;
  cgroup2 ← or_else (sys_fstatfs_is_cgroup2 file) (λ _, Io);
  _ ← guard (negb cgroup2) InvalidDirectory;
  cgroup_type ← read_small_leaf file (lit "cgroup.type") 64;
  _ ← guard (negb (bool_decide (cgroup_type = lit "domain" ++ [0x0a]))) InvalidDirectory;
  procs ← read_small_leaf file (lit "cgroup.procs") 4096;
  _ ← guard (negb (bool_decide (procs = []))) InvalidDirectory;
  controllers ← read_small_leaf file (lit "cgroup.controllers") 4096;
  _ ← guard (negb (existsb (λ c, bool_decide (c = lit "pids")) (split_whitespace controllers)))
        InvalidDirectory;
  _ ← validate_cgroup_leaf_exists file (lit "cgroup.kill");
  _ ← validate_control_leaf file (lit "cgroup.events") ReadOnly;
  validate_control_leaf file (lit "cgroup.subtree_control") ReadWrite.

Definition validate_directory_policy (file : Z) (policy : DirectoryPolicy) : IO unit :=
  match policy with
  | Private => validate_private_directory_metadata file
  | Workspace => validate_workspace_directory_metadata file
  | DelegatedCgroup => validate_delegated_cgroup_root file
  end.

(** Opens one component, creating it first when it is missing and [create] says so. *)
Definition open_component (current : Z) (name : leaf_name) (create : bool) : IO Z := λ w,
  match sys_open_dirat current name w with
  | (Ok fd, w) => (Ok fd, w)
  | (Err ENOENT, w) =>
    if create then
      (_ ← or_else (sys_mkdirat current name) map_io_error;
       or_else (sys_open_dirat current name) (λ _, InvalidDirectory)) w
    else (Err InvalidDirectory, w)
  | (Err _, w) => (Err InvalidDirectory, w)
  end.

(** The loop over [path.components()]: the directory reached and [saw_normal]. *)
Fixpoint open_components_loop (cs : list Component) (create : bool) (current : Z) (saw_normal : bool)
    : IO (Z * bool) :=
  match cs with
  | [] => mret (current, saw_normal)
  | Normal name :: cs =>
    _ ← guard (existsb (Z.eqb 0) name) InvalidDirectory;
    fd ← open_component current name create;
    open_components_loop cs create fd true
  | _ :: cs => open_components_loop cs create current saw_normal
  end.

Definition open_components (p : path) (create : bool) : IO Z :=
  root ← or_else sys_open_root (λ _, Io);
  reached ← open_components_loop (components p) create root false;
  _ ← guard (negb (snd reached)) InvalidDirectory;
  mret (fst reached).

Definition open_directory (p : path) (create : bool) (policy : DirectoryPolicy) : IO ValidatedDirectory :=
  _ ← guard (create && negb (bool_decide (policy = Private))) InvalidDirectory;
  _ ← lift (validate_absolute_path p);
  canonical ← open_components p create;
  canonical_path ← or_else (sys_canonicalize p) (λ _, InvalidDirectory);
  _ ← guard (negb (path_eqb canonical_path p)) InvalidDirectory;
  _ ← validate_directory_policy canonical policy;
  identity ← durable_identity_from_fd canonical;
  mret {| vd_file := canonical; vd_identity := identity; canonical_locator := canonical_path;
          vd_policy := policy |}.

Definition open_existing_private_dir (p : path) := open_directory p false Private.
Definition open_or_create_private_dir (p : path) := open_directory p true Private.
Definition open_existing_workspace_dir (p : path) := open_directory p false Workspace.
Definition open_existing_delegated_cgroup_root (p : path) := open_directory p false DelegatedCgroup.

Definition reopen_and_verify (d : ValidatedDirectory) : IO unit :=
  reopened ← open_directory (canonical_locator d) false (vd_policy d);
  guard (negb (bool_decide (vd_identity reopened = vd_identity d))) Stale.

Definition revalidate (d : ValidatedDirectory) : IO unit :=
  current ← durable_identity_from_fd (vd_file d);
  _ ← guard (negb (bool_decide (current = vd_identity d))) Stale;
  _ ← validate_directory_policy (vd_file d) (vd_policy d);
  reopen_and_verify d.

(** The body under [lock_mutations]'s guard, which is dropped on every path. *)
Definition with_mutation_lock {A} (d : ValidatedDirectory) (body : IO A) : IO A := λ w,
  match or_else (sys_flock (vd_file d)) (λ _, Io) w with
  | (Err e, w) => (Err e, w)
  | (Ok _, w) => let '(r, w) := body w in (r, sys_unlock (vd_file d) w)
  end.

Definition enumerate_leaf_names_from_fd (d : ValidatedDirectory) : IO (list leaf_name) :=
  current ← durable_identity_from_fd (vd_file d);
  _ ← guard (negb (bool_decide (current = vd_identity d))) Stale;
  _ ← validate_private_directory_metadata (vd_file d);
  names ← or_else (sys_readdir (vd_file d)) (λ _, Io);
  current ← durable_identity_from_fd (vd_file d);
  _ ← guard (negb (bool_decide (current = vd_identity d))) Stale;
  mret (List.filter (λ name, negb (bool_decide (name = lit ".")) && negb (bool_decide (name = lit "..")))
          names).

(** ** JSON records *)

Section json.
Context {T : Type} `{JsonCodec T}.

Definition read_json (d : ValidatedDirectory) (leaf : leaf_name) (cap : Z) : IO (StoredJson T) :=
  _ ← revalidate d;
  _ ← lift (validate_leaf leaf);
  file ← openat_file (vd_file d) leaf ReadOnly;
  identity ← validate_record_file file;
  bytes ← read_bounded file cap;
  value ← lift (ok_or (from_slice bytes) Corrupt);
  mret (Build_StoredJson value identity).

Definition read_exact_written_json (d : ValidatedDirectory) (leaf : leaf_name)
    (expected_identity : FileIdentity) (expected_bytes : list byte) (cap : Z) : IO (StoredJson T) :=
  file ← openat_file (vd_file d) leaf ReadOnly;
  identity ← validate_record_file file;
  _ ← guard (negb (bool_decide (identity = expected_identity))) Stale;
  bytes ← read_bounded file cap;
  _ ← guard (negb (bool_decide (bytes = expected_bytes))) Corrupt;
  value ← lift (ok_or (from_slice bytes) Corrupt);
  mret (Build_StoredJson value identity).

(** A temporary file holding [bytes], with the identity it has before it is linked. *)
Definition prepare_unnamed (d : ValidatedDirectory) (bytes : list byte) : IO (Z * FileIdentity) :=
  file ← create_unnamed_temp (vd_file d);
  _ ← write_and_sync file bytes;
  unlinked_identity ← validate_temporary_record_file file;
  mret (file, unlinked_identity).

(** [if published_identity != unlinked_identity { unlinkat(..); return Err(Stale) }]. *)
Definition unlink_unless (same : bool) (d : ValidatedDirectory) (leaf : leaf_name) : IO unit := λ w,
  if same then (Ok tt, w) else (Err Stale, unlinkat (vd_file d) leaf w).

Definition create_under_lock (d : ValidatedDirectory) (leaf : leaf_name) (bytes : list byte) (cap : Z)
    : IO (StoredJson T) :=
  _ ← revalidate d;
  temp ← prepare_unnamed d bytes;
  let '(file, unlinked_identity) := temp in
  _ ← publish_unnamed_no_replace file (vd_file d) leaf;
  published_identity ← validate_record_file file;
  _ ← unlink_unless (bool_decide (published_identity = unlinked_identity)) d leaf;
  _ ← or_else (sys_sync_all (vd_file d)) (λ _, Io);
  stored ← read_exact_written_json d leaf published_identity bytes cap;
  _ ← revalidate d;
  mret stored.

Definition atomic_create_json (d : ValidatedDirectory) (leaf : leaf_name) (value : T) (cap : Z)
    : IO (StoredJson T) :=
  _ ← lift (validate_leaf leaf);
  bytes ← lift (serialize_bounded value cap);
  with_mutation_lock d (create_under_lock d leaf bytes cap).

(** The closure that publishes the temporary under [temp] and renames it over [leaf]. *)
Definition publish_and_rename (d : ValidatedDirectory) (leaf temp : leaf_name) (file : Z)
    (unlinked_identity : FileIdentity) (bytes : list byte) (cap : Z) : IO (StoredJson T) :=
  _ ← publish_unnamed_no_replace file (vd_file d) temp;
  published_identity ← validate_record_file file;
  _ ← guard (negb (bool_decide (published_identity = unlinked_identity))) Stale;
  _ ← renameat (vd_file d) temp leaf;
  _ ← or_else (sys_sync_all (vd_file d)) (λ _, Io);
  stored ← read_exact_written_json d leaf published_identity bytes cap;
  _ ← revalidate d;
  mret stored.

(** [if result.is_err() { unlinkat(temp) }]. *)
Definition cleanup_temp {A} (d : ValidatedDirectory) (temp : leaf_name) (body : IO A) : IO A := λ w,
  match body w with
  | (Ok a, w) => (Ok a, w)
  | (Err e, w) => (Err e, unlinkat (vd_file d) temp w)
  end.

Definition replace_under_lock (d : ValidatedDirectory) (leaf : leaf_name) (expected : FileIdentity)
    (bytes : list byte) (cap : Z) : IO (StoredJson T) :=
  _ ← revalidate d;
  current ← openat_file (vd_file d) leaf ReadOnly;
  identity ← validate_record_file current;
  _ ← guard (negb (bool_decide (identity = expected))) Stale;
  temp_file ← prepare_unnamed d bytes;
  let '(file, unlinked_identity) := temp_file in
  temp ← transaction_temp_leaf;
  cleanup_temp d temp (publish_and_rename d leaf temp file unlinked_identity bytes cap).

Definition atomic_replace_json (d : ValidatedDirectory) (leaf : leaf_name) (expected : FileIdentity)
    (value : T) (cap : Z) : IO (StoredJson T) :=
  _ ← lift (validate_leaf leaf);
  bytes ← lift (serialize_bounded value cap);
  with_mutation_lock d (replace_under_lock d leaf expected bytes cap).
End json.

(** ** Listing, with recovery of abandoned temporaries *)

Section listing.
(** Whether [serde_json::from_slice::<serde_json::Value>] accepts the bytes. *)
Context (is_json_value : list byte → bool).

Definition validate_temp_leaf_for_recovery (dirfd : Z) (leaf : leaf_name) : IO unit :=
  _ ← guard (negb (is_transaction_temp_leaf leaf)) InvalidLeaf;
  file ← openat_file dirfd leaf ReadOnly;
  _ ← validate_record_file file;
  bytes ← read_bounded file MAX_SPECULATION_JSON_BYTES;
  guard (negb (is_json_value bytes)) Corrupt.

(** [names.retain(..)]: the names kept and [removed_transaction_temp]. *)
Fixpoint retain_names (dirfd : Z) (names : list leaf_name) (w : W) : list leaf_name * bool * W :=
  match names with
  | [] => ([], false, w)
  | name :: names =>
    let '(keep, w) :=
      if negb (is_transaction_temp_leaf name) then (true, w) else
      match (_ ← validate_temp_leaf_for_recovery dirfd name; unlinkat_checked dirfd name) w with
      | (Ok _, w) => (false, w)
      | (Err _, w) => (true, w)
      end in
    let '(kept, removed, w) := retain_names dirfd names w in
    (if keep then name :: kept else kept, negb keep || removed, w)
  end.

Definition list_leaf_names (d : ValidatedDirectory) : IO (list leaf_name) :=
  with_mutation_lock d (
    _ ← revalidate d;
    names ← enumerate_leaf_names_from_fd d;
    kept ← (λ w, let '(kept, removed, w) := retain_names (vd_file d) names w in
                 (Ok (kept, removed), w));
    _ ← (if snd kept : bool then or_else (sys_sync_all (vd_file d)) (λ _, Io) else mret tt);
    _ ← revalidate d;
    mret (fst kept)).
End listing.
End fs.

Definition same_inode (a b : ValidatedDirectory) : bool :=
  (dd_dev (vd_identity a) =? dd_dev (vd_identity b))
  && (dd_ino (vd_identity a) =? dd_ino (vd_identity b)).

Definition nested (a b : ValidatedDirectory) : bool :=
  path_starts_with (canonical_locator a) (canonical_locator b)
  || path_starts_with (canonical_locator b) (canonical_locator a).

Fixpoint validate_no_overlap (directories : list ValidatedDirectory) : result EvidenceError unit :=
  match directories with
  | [] => Ok tt
  | dir :: rest =>
    _ ← bail_if (existsb (λ other, same_inode dir other || nested dir other) rest) Overlap;
    validate_no_overlap rest
  end.

(** ** What the system calls promise *)

(** The directories, by descriptor, and the bytes of every file. *)
Record fs_view : Type := {
  entries : Z → gmap leaf_name Z;
  contents : gmap Z (list byte);
}.

Definition set_entries (v : fs_view) (dirfd : Z) (es : gmap leaf_name Z) : fs_view :=
  {| entries := λ d, if decide (d = dirfd) then es else entries v d; contents := contents v |}.
Definition set_contents (v : fs_view) (file : Z) (bytes : list byte) : fs_view :=
  {| entries := entries v; contents := <[file := bytes]> (contents v) |}.

(** Two views that agree at every lookup. *)
#[export] Instance fs_view_equiv : Equiv fs_view := λ v v',
  (∀ d, entries v d = entries v' d) ∧ contents v = contents v'.
#[export] Instance fs_view_equivalence : Equivalence (≡@{fs_view}).
Proof.
  split.
  - by intros v.
  - intros v v' [He Hc]. by split.
  - intros v1 v2 v3 [He Hc] [He' Hc']. split; [|congruence]. intros d. by rewrite He.
Qed.

(** A call that leaves every file and every name alone. *)
Definition reads_only {W E A} (view : W → fs_view) (m : M W E A) : Prop :=
  ∀ w, view (snd (m w)) ≡ view w.

(** The documented behaviour of the calls, on the private directory the caller has locked:
    each call may fail, and what a failure leaves behind is stated. *)
Class Kernel (W : Type) `{KernelOps W} := {
  view : W → fs_view;
  file_ident : Z → FileIdentity;
  open_root_reads : reads_only view sys_open_root;
  open_dirat_reads d name : reads_only view (sys_open_dirat d name);
  canonicalize_reads p : reads_only view (sys_canonicalize p);
  statx_reads f : reads_only view (sys_statx f);
  boot_id_reads : reads_only view sys_boot_id;
  cgroup2_reads f : reads_only view (sys_fstatfs_is_cgroup2 f);
  is_regular_reads d l : reads_only view (sys_fstatat_is_regular d l);
  readdir_reads d : reads_only view (sys_readdir d);
  flock_reads d : reads_only view (sys_flock d);
  unlock_reads d w : view (sys_unlock d w) ≡ view w;
  openat_reads d l f : reads_only view (sys_openat d l f);
  metadata_reads f : reads_only view (sys_metadata f);
  read_reads f n : reads_only view (sys_read f n);
  sync_reads f : reads_only view (sys_sync_all f);
  new_uuid_reads w : view (snd (sys_new_uuid w)) ≡ view w;
  (** open(2): the descriptor is of the file the name stands for. *)
  openat_Ok d l f w fd w' : sys_openat d l f w = (Ok fd, w') → entries (view w) d !! l = Some fd;
  (** readdir(3) to the end lists the directory. *)
  readdir_Ok d w names w' :
    sys_readdir d w = (Ok names, w') →
    ∀ l, l ≠ lit "." → l ≠ lit ".." → l ∈ names ↔ is_Some (entries (view w) d !! l);
  (** fstat(2): device and inode identify the file. *)
  metadata_Ok f w m w' :
    sys_metadata f w = (Ok m, w') → file_ident f = {| fi_dev := m_dev m; fi_ino := m_ino m |};
  (** read(2) to the end of a [take]. *)
  read_Ok f n w bytes w' :
    sys_read f n w = (Ok bytes, w') → ∃ c, contents (view w) !! f = Some c ∧ bytes = take n c;
  (** O_TMPFILE: a new file that no directory names. *)
  open_tmpfile_Ok d w fd w' :
    sys_open_tmpfile d w = (Ok fd, w') →
    (∀ d l, entries (view w) d !! l ≠ Some fd) ∧ view w' ≡ set_contents (view w) fd [];
  open_tmpfile_Err d w e w' : sys_open_tmpfile d w = (Err e, w') → view w' ≡ view w;
  (** write(2) of all bytes may stop anywhere, and touches this file only. *)
  write_all_Ok f bytes w w' :
    sys_write_all f bytes w = (Ok tt, w') →
    ∃ c, contents (view w) !! f = Some c ∧ view w' ≡ set_contents (view w) f (c ++ bytes);
  write_all_Err f bytes w e w' :
    sys_write_all f bytes w = (Err e, w') →
    view w' ≡ view w ∨ ∃ c, view w' ≡ set_contents (view w) f c;
  (** linkat(2) never replaces a name. *)
  link_empty_path_Ok f d l w w' :
    sys_link_empty_path f d l w = (Ok tt, w') →
    entries (view w) d !! l = None ∧ view w' ≡ set_entries (view w) d (<[l := f]> (entries (view w) d));
  link_empty_path_Err f d l w e w' : sys_link_empty_path f d l w = (Err e, w') → view w' ≡ view w;
  link_proc_fd_Ok f d l w w' :
    sys_link_proc_fd f d l w = (Ok tt, w') →
    entries (view w) d !! l = None ∧ view w' ≡ set_entries (view w) d (<[l := f]> (entries (view w) d));
  link_proc_fd_Err f d l w e w' : sys_link_proc_fd f d l w = (Err e, w') → view w' ≡ view w;
  (** rename(2) is atomic, and does nothing between two names of one file. *)
  renameat_Ok d from to w w' :
    sys_renameat d from to w = (Ok tt, w') → entries (view w) d !! from ≠ entries (view w) d !! to →
    ∃ f, entries (view w) d !! from = Some f ∧
      view w' ≡ set_entries (view w) d (<[to := f]> (delete from (entries (view w) d)));
  renameat_Err d from to w e w' : sys_renameat d from to w = (Err e, w') → view w' ≡ view w;
  unlinkat_Ok d l w w' :
    sys_unlinkat d l w = (Ok tt, w') →
    view w' ≡ set_entries (view w) d (delete l (entries (view w) d));
  unlinkat_Err d l w e w' : sys_unlinkat d l w = (Err e, w') → view w' ≡ view w;
  (** RFC 4122 text parses back, and is ASCII. *)
  new_uuid_text w : is_Some (uuid_parse_str (fst (sys_new_uuid w))) ∧
    Forall (λ c, 0 ≤ c < 0x80) (fst (sys_new_uuid w));
}.

(** ** Calls that only read *)

Create HintDb reads.
#[export] Hint Resolve open_root_reads open_dirat_reads canonicalize_reads statx_reads boot_id_reads
  cgroup2_reads is_regular_reads readdir_reads flock_reads openat_reads metadata_reads read_reads
  sync_reads : reads.

Section reads.
Context {W : Type} `{Kernel W}.
Abbreviation IO := (M W EvidenceError).

Lemma reads_ret {E A} (a : A) : reads_only view (mret a : M W E A).
Proof. by intros w. Qed.
Lemma reads_lift {E A} (r : result E A) : reads_only view (lift r).
Proof. by intros w. Qed.
Lemma reads_guard (b : bool) e : reads_only view (guard b e : IO unit).
Proof. by intros w. Qed.
Lemma reads_bind {E A B} (m : M W E A) (f : A → M W E B) :
  reads_only view m → (∀ a, reads_only view (f a)) → reads_only view (m ≫= f).
Proof.
  intros Hm Hf w. unfold mbind, M_bind. specialize (Hm w).
  destruct (m w) as [[a|e] w']; simpl in *; [|done]. etrans; [apply Hf|done].
Qed.
Lemma reads_or_else {A} (m : M W errno A) f :
  reads_only view m → reads_only view (or_else m f).
Proof. intros Hm w. specialize (Hm w). unfold or_else. by destruct (m w) as [[] ?]. Qed.
End reads.
#[export] Hint Resolve reads_ret reads_lift reads_guard reads_or_else : reads.

Ltac solve_reads := repeat first [solve [eauto with reads] | apply reads_bind; [|intros ?]].

Section reads_fs.
Context {W : Type} `{Kernel W}.

Lemma openat_file_reads d l f : reads_only view (openat_file d l f).
Proof. unfold openat_file. solve_reads. Qed.
Lemma validate_regular_file_reads f n : reads_only view (validate_regular_file f n).
Proof. unfold validate_regular_file. solve_reads. Qed.
Lemma validate_record_file_reads f : reads_only view (validate_record_file f).
Proof. apply validate_regular_file_reads. Qed.
Lemma read_bounded_reads f cap : reads_only view (read_bounded f cap).
Proof. unfold read_bounded. solve_reads. Qed.
Hint Resolve openat_file_reads : reads.
Lemma read_small_leaf_reads d l cap : reads_only view (read_small_leaf d l cap).
Proof. unfold read_small_leaf. solve_reads. Qed.
Lemma durable_identity_reads f : reads_only view (durable_identity_from_fd f).
Proof. unfold durable_identity_from_fd. solve_reads. Qed.
Hint Resolve read_small_leaf_reads durable_identity_reads : reads.

Lemma validate_directory_policy_reads f policy : reads_only view (validate_directory_policy f policy).
Proof.
  destruct policy; simpl.
  - unfold validate_private_directory_metadata. solve_reads.
  - unfold validate_workspace_directory_metadata. solve_reads.
  - unfold validate_delegated_cgroup_root, validate_cgroup_leaf_exists, validate_control_leaf.
    solve_reads.
Qed.
Hint Resolve validate_directory_policy_reads : reads.

Lemma open_component_reads d name : reads_only view (open_component d name false).
Proof.
  intros w. unfold open_component. pose proof (open_dirat_reads d name w) as Hw.
  by destruct (sys_open_dirat d name w) as [[|[]] ?].
Qed.
Hint Resolve open_component_reads : reads.

Lemma open_components_loop_reads cs d b : reads_only view (open_components_loop cs false d b).
Proof.
  revert d b. induction cs as [|[| | |name] cs IH]; intros d b; simpl; [apply reads_ret|done..|].
  solve_reads.
Qed.
Hint Resolve open_components_loop_reads : reads.

Lemma open_directory_reads p policy : reads_only view (open_directory p false policy).
Proof. unfold open_directory, open_components. solve_reads. Qed.
Hint Resolve open_directory_reads : reads.

Lemma revalidate_reads d : reads_only view (revalidate d).
Proof. unfold revalidate, reopen_and_verify. solve_reads. Qed.
Hint Resolve validate_record_file_reads read_bounded_reads revalidate_reads : reads.

Lemma read_json_reads {T} `{JsonCodec T} d l cap : reads_only view (read_json d l cap).
Proof. unfold read_json. solve_reads. Qed.
Lemma read_exact_reads {T} `{JsonCodec T} d l id bytes cap :
  reads_only view (read_exact_written_json d l id bytes cap).
Proof. unfold read_exact_written_json. solve_reads. Qed.
End reads_fs.
#[export] Hint Resolve openat_file_reads validate_regular_file_reads validate_record_file_reads
  read_bounded_reads read_small_leaf_reads open_components_loop_reads durable_identity_reads validate_directory_policy_reads open_directory_reads
  revalidate_reads read_json_reads read_exact_reads : reads.

(** ** Records *)

#[export] Instance entries_proper : Proper ((≡) ==> (=) ==> (=)) entries.
Proof. intros v v' [He _] d ? <-. apply He. Qed.
#[export] Instance contents_proper : Proper ((≡) ==> (=)) contents.
Proof. by intros v v' [_ Hc]. Qed.

#[export] Instance set_entries_proper : Proper ((≡) ==> (=) ==> (=) ==> (≡)) set_entries.
Proof.
  intros v v' [He Hc] d ? <- es ? <-. split; [|done]. intros d'. simpl. by destruct (decide _).
Qed.

(** What one record write does to the record under its name: [admits] is the condition on
    the identity found there. *)
Section write_post.
Context {T : Type} `{JsonCodec T}.

Definition holds_value (record : option (FileIdentity * list byte)) (id : FileIdentity) (v : T) : Prop :=
  ∃ bytes, to_vec v = Some bytes ∧ record = Some (id, bytes).

Definition write_post (admits : option FileIdentity → Prop)
    (old new : option (FileIdentity * list byte)) (v : T) (r : result EvidenceError (StoredJson T)) : Prop :=
  match r with
  | Ok s => admits (fst <$> old) ∧ sj_value s = v ∧ holds_value new (sj_identity s) v
  | Err _ => new = old ∨ admits (fst <$> old) ∧ ∃ id, holds_value new id v
  end.
End write_post.

(** ** The contract of a directory of records

    What the tournament registry is promised: a record is written whole or not at all, a
    write touches no other record, and nothing else changes one. *)
Class RecordStore (W : Type) := {
  rs_record : W → leaf_name → option (FileIdentity * list byte);
  rs_is_temp : leaf_name → bool;
  rs_create {T} `{JsonCodec T} : leaf_name → T → Z → M W EvidenceError (StoredJson T);
  rs_replace {T} `{JsonCodec T} : leaf_name → FileIdentity → T → Z → M W EvidenceError (StoredJson T);
  rs_read {T} `{JsonCodec T} : leaf_name → Z → M W EvidenceError (StoredJson T);
  rs_list : M W EvidenceError (list leaf_name);
  rs_temp_prefix l : rs_is_temp l = true → utf8 TRANSACTION_TEMP_PREFIX `prefix_of` l;
  rs_create_spec {T} `{JsonCodec T} leaf (v : T) cap w r w' :
    rs_create leaf v cap w = (r, w') →
    (∀ l, l ≠ leaf → rs_is_temp l = false → rs_record w' l = rs_record w l) ∧
    write_post (λ id, id = None) (rs_record w leaf) (rs_record w' leaf) v r;
  rs_replace_spec {T} `{JsonCodec T} leaf expected (v : T) cap w r w' :
    rs_is_temp leaf = false → rs_replace leaf expected v cap w = (r, w') →
    (∀ l, l ≠ leaf → rs_is_temp l = false → rs_record w' l = rs_record w l) ∧
    write_post (λ id, id = Some expected) (rs_record w leaf) (rs_record w' leaf) v r;
  rs_read_spec {T} `{JsonCodec T} leaf cap w (r : result EvidenceError (StoredJson T)) w' :
    rs_read leaf cap w = (r, w') →
    (∀ l, rs_record w' l = rs_record w l) ∧
    ∀ s, r = Ok s → ∃ bytes, from_slice bytes = Some (sj_value s) ∧
      rs_record w leaf = Some (sj_identity s, bytes);
  rs_list_spec w r w' :
    rs_list w = (r, w') →
    (∀ l, rs_is_temp l = false → rs_record w' l = rs_record w l) ∧
    ∀ names, r = Ok names → ∀ l, l ≠ lit "." → l ≠ lit ".." → rs_is_temp l = false →
      l ∈ names ↔ is_Some (rs_record w l);
}.

Section stored.
Context {W : Type} `{Kernel W}.

(** What a name stands for: the identity of the file and its bytes. *)
Definition stored (v : fs_view) (d : Z) (l : leaf_name) : option (FileIdentity * list byte) :=
  (λ f, (file_ident f, default [] (contents v !! f))) <$> entries v d !! l.

#[export] Instance stored_proper : Proper ((≡) ==> (=) ==> (=) ==> (=)) stored.
Proof. intros v v' [He Hc] d ? <- l ? <-. unfold stored. by rewrite He Hc. Qed.

(** Two views that differ at most in files no directory names. *)
Definition same_names (v v' : fs_view) : Prop :=
  (∀ d, entries v' d = entries v d) ∧
  ∀ d l f, entries v d !! l = Some f → contents v' !! f = contents v !! f.

Lemma same_names_equiv v v' : v' ≡ v → same_names v v'.
Proof. intros [He Hc]. split; [done|]. by intros d l f _; rewrite Hc. Qed.

Lemma same_names_trans v1 v2 v3 : same_names v1 v2 → same_names v2 v3 → same_names v1 v3.
Proof.
  intros [E1 C1] [E2 C2]. split; [intros d; by rewrite E2|]. intros d l f Hf.
  rewrite (C2 d l); [by eapply C1|by rewrite E1].
Qed.

Lemma same_names_stored v v' d l : same_names v v' → stored v' d l = stored v d l.
Proof.
  intros [He Hc]. unfold stored. rewrite He. destruct (entries v d !! l) eqn:E; [|done]. simpl.
  by rewrite (Hc _ _ _ E).
Qed.

Lemma reads_view {E A} (m : M W E A) w r w' :
  reads_only view m → m w = (r, w') → view w' ≡ view w.
Proof. intros Hm Hrun. specialize (Hm w). by rewrite Hrun in Hm. Qed.

Lemma or_else_run {A} (m : M W errno A) f w r w' :
  or_else m f w = (r, w') →
  (∃ a, m w = (Ok a, w') ∧ r = Ok a) ∨ (∃ e, m w = (Err e, w') ∧ r = Err (f e)).
Proof. unfold or_else. destruct (m w) as [[] ?]; intros [= <- <-]; eauto. Qed.

(** The temporary holds the bytes under no name, and nothing named has changed. *)
Definition unnamed_with (v v' : fs_view) (f : Z) (bytes : list byte) : Prop :=
  (∀ d l, entries v d !! l ≠ Some f) ∧ (∀ d, entries v' d = entries v d) ∧
  contents v' !! f = Some bytes ∧ ∀ g, g ≠ f → contents v' !! g = contents v !! g.

Lemma unnamed_with_equiv v v0 v1 v1' f bytes :
  unnamed_with v v1 f bytes → v ≡ v0 → v1' ≡ v1 → unnamed_with v0 v1' f bytes.
Proof.
  intros (Hf & He & Hc & Hg) [He0 Hc0] [He1 Hc1]. split_and!.
  - intros d l. by rewrite -He0.
  - intros d. by rewrite He1 He.
  - by rewrite Hc1.
  - intros g Hne. by rewrite Hc1 Hg // Hc0.
Qed.

Lemma unnamed_same_names v v' f bytes : unnamed_with v v' f bytes → same_names v v'.
Proof.
  intros (Hf & He & _ & Hc). split; [done|]. intros d l g Hg. apply Hc. intros ->. by eapply Hf.
Qed.

Lemma validate_regular_file_ident f n w id w' :
  validate_regular_file f n w = (Ok id, w') → id = file_ident f.
Proof.
  unfold validate_regular_file. intros (m & w1 & Hm & Hrun)%M_bind_Ok.
  apply M_bind_Ok in Hrun as ([] & w2 & _ & [= <- <-]).
  apply or_else_run in Hm as [(? & Hm & [= ->])|(? & _ & ?)]; [|done].
  by rewrite (metadata_Ok _ _ _ _ Hm).
Qed.

Lemma prepare_unnamed_spec d bytes w r w' :
  prepare_unnamed d bytes w = (r, w') →
  same_names (view w) (view w') ∧
  ∀ f id, r = Ok (f, id) → id = file_ident f ∧ unnamed_with (view w) (view w') f bytes.
Proof.
  unfold prepare_unnamed, create_unnamed_temp, write_and_sync. intros H1.
  apply M_bind_inv in H1 as [(f & w1 & Hf & H1)|(e & Hf & ->)].
  2: { apply or_else_run in Hf as [(? & _ & ?)|(? & Hf & _)]; [done|].
       split; [|done]. eapply same_names_equiv, open_tmpfile_Err, Hf. }
  apply or_else_run in Hf as [(? & Hf & [= <-])|(? & _ & ?)]; [|done].
  destruct (open_tmpfile_Ok _ _ _ _ Hf) as [Hfresh Hv1].
  assert (∀ v c, v ≡ set_contents (view w1) f c → unnamed_with (view w) v f c) as Hun.
  { intros v c [He Hc]. split; [done|]. destruct Hv1 as [He1 Hc1]. split_and!.
    - intros d'. by rewrite He /= He1.
    - by rewrite Hc lookup_insert_eq.
    - intros g Hg. rewrite Hc /= lookup_insert_ne; [|congruence]. rewrite Hc1 /=.
      by rewrite lookup_insert_ne; [|congruence]. }
  assert (∀ v c, v ≡ set_contents (view w1) f c → same_names (view w) v) as Hsame.
  { intros v c Hv. by eapply unnamed_same_names, Hun. }
  apply M_bind_inv in H1 as [([] & w2 & Hw & H1)|(e & Hw & ->)].
  - apply M_bind_Ok in Hw as ([] & w3 & Hwr & Hsync).
    apply or_else_run in Hwr as [([] & Hwr & _)|(? & _ & ?)]; [|done].
    apply write_all_Ok in Hwr as (c & Hc & Hv3).
    assert (c = []) as ->.
    { destruct Hv1 as [_ Hc1]. rewrite Hc1 /= lookup_insert_eq in Hc. by injection Hc. }
    assert (view w2 ≡ set_contents (view w1) f bytes) as Hv2.
    { etrans; [|exact Hv3]. eapply reads_view; [|exact Hsync]. eauto with reads. }
    apply M_bind_inv in H1 as [(id & w4 & Hid & H1)|(e & Hid & ->)].
    + injection H1 as <- <-.
      assert (view w4 ≡ set_contents (view w1) f bytes) as Hv4.
      { etrans; [|exact Hv2]. eapply reads_view; [|exact Hid]. eauto with reads. }
      split; [by eapply Hsame|]. intros f' id' [= <- <-].
      split; [by eapply validate_regular_file_ident|by apply Hun].
    + split; [|done]. eapply Hsame. etrans; [|exact Hv2]. eapply reads_view; [|exact Hid]. eauto with reads.
  - split; [|done]. apply M_bind_Err in Hw as [Hwr|([] & w3 & Hwr & Hsync)].
    + apply or_else_run in Hwr as [(? & _ & ?)|(? & Hwr & _)]; [done|].
      apply write_all_Err in Hwr as [Hv|[c Hv]]; [|by eapply Hsame].
      apply (same_names_trans _ (view w1)); [|by apply same_names_equiv].
      apply (Hsame _ []). split; [done|]. destruct Hv1 as [_ Hc1].
      rewrite /= Hc1 /=. by rewrite insert_insert_eq.
    + apply or_else_run in Hwr as [([] & Hwr & _)|(? & _ & ?)]; [|done].
      apply write_all_Ok in Hwr as (c & _ & Hv3). eapply Hsame. etrans; [|exact Hv3].
      eapply reads_view; [|exact Hsync]. eauto with reads.
Qed.

Lemma publish_spec f d l w r w' :
  publish_unnamed_no_replace f d l w = (r, w') →
  match r with
  | Ok _ => entries (view w) d !! l = None ∧
            view w' ≡ set_entries (view w) d (<[l := f]> (entries (view w) d))
  | Err _ => view w' ≡ view w
  end.
Proof.
  unfold publish_unnamed_no_replace. destruct (sys_link_empty_path f d l w) as [[[]|e] w1] eqn:E1.
  - intros [= <- <-]. by apply link_empty_path_Ok.
  - apply link_empty_path_Err in E1. destruct (sys_link_proc_fd f d l w1) as [[[]|e'] w2] eqn:E2.
    + apply link_proc_fd_Ok in E2 as [Hn Hv]. destruct e; intros [= <- <-]; try done.
      all: rewrite (proj1 E1) in Hn; rewrite (proj1 E1) in Hv.
      all: split; [done|]; etrans; [exact Hv|]; by apply set_entries_proper.
    + apply link_proc_fd_Err in E2. destruct e; try (intros [= <- <-]; done);
        destruct e'; intros [= <- <-]; by etrans.
Qed.

(** Naming a prepared temporary stores its bytes there and nowhere else. *)
Lemma stored_publish v v1 v2 f bytes d l :
  unnamed_with v v1 f bytes → v2 ≡ set_entries v1 d (<[l := f]> (entries v1 d)) →
  stored v2 d l = Some (file_ident f, bytes) ∧
  ∀ d' l', d' ≠ d ∨ l' ≠ l → stored v2 d' l' = stored v d' l'.
Proof.
  intros Hun Hv2. pose proof (unnamed_same_names _ _ _ _ Hun) as Hsame.
  destruct Hun as (_ & _ & Hc & _). destruct Hv2 as [He2 Hc2]. split.
  - unfold stored. rewrite He2 Hc2 /= decide_True // lookup_insert_eq /=. by rewrite Hc.
  - intros d' l' Hne. rewrite -(same_names_stored v v1) //. unfold stored. rewrite He2 Hc2 /=.
    destruct (decide (d' = d)) as [->|]; [|done].
    rewrite lookup_insert_ne; [done|]. destruct Hne; congruence.
Qed.

(** Renaming the temporary over a record replaces the record. *)
Lemma stored_rename v v1 v2 v3 f bytes d l temp :
  unnamed_with v v1 f bytes → v2 ≡ set_entries v1 d (<[temp := f]> (entries v1 d)) →
  v3 ≡ set_entries v2 d (<[l := f]> (delete temp (entries v2 d))) →
  stored v3 d l = Some (file_ident f, bytes) ∧
  ∀ d' l', d' ≠ d ∨ l' ≠ l ∧ l' ≠ temp → stored v3 d' l' = stored v d' l'.
Proof.
  intros Hun Hv2 Hv3. destruct (stored_publish _ _ _ _ _ _ _ Hun Hv2) as [_ Hother].
  destruct Hun as (_ & _ & Hc & _). destruct Hv2 as [_ Hc2]. destruct Hv3 as [He3 Hc3].
  split.
  - unfold stored. rewrite He3 Hc3 Hc2 /= decide_True // lookup_insert_eq /=. by rewrite Hc.
  - intros d' l' Hne. rewrite -Hother; [|destruct Hne as [|[]]; auto]. unfold stored.
    rewrite He3 Hc3 /=. destruct (decide (d' = d)) as [->|]; [|done].
    destruct Hne as [|[? ?]]; [done|].
    rewrite lookup_insert_ne; [|congruence]. by rewrite lookup_delete_ne; [|congruence].
Qed.

Lemma unlinkat_stored d l w d' l' :
  d' ≠ d ∨ l' ≠ l → stored (view (unlinkat d l w)) d' l' = stored (view w) d' l'.
Proof.
  intros Hne. unfold unlinkat. destruct (sys_unlinkat d l w) as [[[]|e] w'] eqn:E; simpl.
  - apply unlinkat_Ok in E as [He Hc]. unfold stored. rewrite He Hc /=.
    destruct (decide (d' = d)) as [->|]; [|done].
    rewrite lookup_delete_ne; [done|]. destruct Hne; congruence.
  - apply unlinkat_Err in E. by rewrite E.
Qed.

(** The names a record write may touch besides the record's own. *)
Definition frame (v v' : fs_view) (d : Z) (leaf : leaf_name) : Prop :=
  ∀ d' l, d' ≠ d ∨ l ≠ leaf ∧ is_transaction_temp_leaf l = false → stored v' d' l = stored v d' l.

Lemma with_mutation_lock_run {A} d (body : M W EvidenceError A) w r w' :
  with_mutation_lock d body w = (r, w') →
  (view w' ≡ view w ∧ r = Err Io) ∨
  ∃ w1 w2, view w1 ≡ view w ∧ body w1 = (r, w2) ∧ view w' ≡ view w2.
Proof.
  unfold with_mutation_lock. destruct (or_else _ _ w) as [[[]|e] w1] eqn:E.
  - assert (view w1 ≡ view w) as Hv1 by (eapply reads_view; [|exact E]; eauto with reads).
    destruct (body w1) as [r' w2] eqn:Eb. intros [= <- <-]. right. exists w1, w2.
    split_and!; [done|done|apply unlock_reads].
  - intros [= <- <-]. left. split; [eapply reads_view; [|exact E]; eauto with reads|].
    by apply or_else_run in E as [(? & _ & ?)|(? & _ & [= ->])].
Qed.

Section json_lemmas.
Context {T : Type} `{JsonCodec T}.

Lemma read_exact_Ok d l id bytes cap w (s : StoredJson T) w' :
  read_exact_written_json d l id bytes cap w = (Ok s, w') →
  sj_identity s = id ∧ from_slice bytes = Some (sj_value s).
Proof.
  unfold read_exact_written_json. intros H3.
  repeat (apply M_bind_Ok in H3 as (? & ? & ? & H3)). injection H3 as <- <-. simpl.
  repeat match goal with H : guard _ _ _ = (Ok _, _) |- _ => injection H as H <- end.
  repeat match goal with H : lift _ _ = (Ok _, _) |- _ => injection H as H <- end.
  inv_ok. by subst.
Qed.

(** The outcome of a record write: stored whole on success, old or new on failure. *)
Definition write_outcome (v v' : fs_view) (d : Z) (leaf : leaf_name) (bytes : list byte)
    (r : result EvidenceError (StoredJson T)) : Prop :=
  match r with
  | Ok s => stored v' d leaf = Some (sj_identity s, bytes) ∧ from_slice bytes = Some (sj_value s)
  | Err _ => stored v' d leaf = stored v d leaf ∨ ∃ id, stored v' d leaf = Some (id, bytes)
  end.

(** What follows the publication of a record only reads it back. *)
Lemma sync_and_read_back d l id bytes cap w r w' :
  (_ ← or_else (sys_sync_all (vd_file d)) (λ _, Io);
   stored ← read_exact_written_json d l id bytes cap;
   _ ← revalidate d;
   mret stored) w = (r, w') →
  view w' ≡ view w ∧
  match r with Ok s => sj_identity s = id ∧ from_slice bytes = Some (sj_value (T := T) s) | Err _ => True end.
Proof.
  intros Hrun. split; [eapply reads_view; [|exact Hrun]; solve_reads|].
  destruct r as [s|e]; [|done].
  apply M_bind_Ok in Hrun as (? & ? & _ & Hrun). apply M_bind_Ok in Hrun as (s' & ? & Hs & Hrun).
  apply M_bind_Ok in Hrun as (? & ? & _ & [= <- _]). by eapply read_exact_Ok.
Qed.

Lemma create_under_lock_spec d leaf bytes cap w r w' :
  create_under_lock d leaf bytes cap w = (r, w') →
  frame (view w) (view w') (vd_file d) leaf ∧
  write_outcome (view w) (view w') (vd_file d) leaf bytes r ∧
  (stored (view w) (vd_file d) leaf ≠ None →
   is_ok r = false ∧ stored (view w') (vd_file d) leaf = stored (view w) (vd_file d) leaf).
Proof.
  intros Hrun. unfold create_under_lock in Hrun.
  assert (∀ v', same_names (view w) v' → ∀ e, r = Err e →
    frame (view w) v' (vd_file d) leaf ∧ write_outcome (view w) v' (vd_file d) leaf bytes r ∧
    (stored (view w) (vd_file d) leaf ≠ None →
     is_ok r = false ∧ stored v' (vd_file d) leaf = stored (view w) (vd_file d) leaf)) as Hfail.
  { intros v' Hv e ->. split; [by intros d' l _; apply same_names_stored|].
    rewrite /= (same_names_stored (view w) v') //. auto. }
  apply M_bind_inv in Hrun as [([] & w1 & Hr1 & Hrun)|(e & Hr1 & ->)].
  2: { eapply Hfail; [|done]. apply same_names_equiv. eapply reads_view; [|exact Hr1]. eauto with reads. }
  apply reads_view in Hr1; [|eauto with reads].
  apply M_bind_inv in Hrun as [([f id] & w2 & Hp & Hrun)|(e & Hp & ->)].
  2: { apply prepare_unnamed_spec in Hp as [Hp _]. eapply Hfail; [|done].
       eapply same_names_trans; [|exact Hp]. by apply same_names_equiv. }
  apply prepare_unnamed_spec in Hp as [Hsame Hp]. destruct (Hp f id eq_refl) as [-> Hun]. clear Hp.
  apply M_bind_inv in Hrun as [([] & w3 & Hpub & Hrun)|(e & Hpub & ->)].
  2: { apply publish_spec in Hpub. eapply Hfail; [|done]. eapply same_names_trans.
       { by apply same_names_equiv. } eapply same_names_trans; [exact Hsame|]. by apply same_names_equiv. }
  apply publish_spec in Hpub as [Hnone Hv3].
  destruct (stored_publish _ _ _ _ _ _ _ Hun Hv3) as [Hnew Hother].
  assert (∀ d' l, stored (view w1) d' l = stored (view w) d' l) as Hw1.
  { intros d' l. by rewrite Hr1. }
  assert (stored (view w) (vd_file d) leaf = None) as Hold.
  { rewrite -Hw1 -(same_names_stored (view w1) (view w2)) //. unfold stored. by rewrite Hnone. }
  rewrite Hold.
  assert (∀ v', v' ≡ view w3 → frame (view w) v' (vd_file d) leaf ∧
    stored v' (vd_file d) leaf = Some (file_ident f, bytes)) as Hdone.
  { intros v' Hv'. split; [|by rewrite Hv']. intros d' l Hne. rewrite Hv' -Hw1. apply Hother. tauto. }
  apply M_bind_inv in Hrun as [(pid & w4 & Hid & Hrun)|(e & Hid & ->)].
  2: { apply reads_view in Hid; [|eauto with reads]. destruct (Hdone _ Hid) as [? Hst].
       split_and!; [done|right; by eexists|done]. }
  pose proof (validate_regular_file_ident _ _ _ _ _ Hid) as ->.
  apply reads_view in Hid; [|eauto with reads].
  apply M_bind_inv in Hrun as [([] & w5 & Hu & Hrun)|(e & Hu & ->)].
  2: { unfold unlink_unless in Hu. by rewrite bool_decide_true // in Hu. }
  unfold unlink_unless in Hu. rewrite bool_decide_true // in Hu. injection Hu as <-.
  apply sync_and_read_back in Hrun as [Hv Hs].
  destruct (Hdone (view w')) as [? Hst]; [by rewrite Hv|].
  split_and!; [done| |done]. destruct r as [s|e]; simpl; [|right; by eexists].
  destruct Hs as [-> ?]. done.
Qed.

Lemma frame_same_names v v' d leaf : same_names v v' → frame v v' d leaf.
Proof. intros Hv d' l _. by apply same_names_stored. Qed.

(** The closure under a temporary name that nothing holds yet. *)
Lemma publish_and_rename_spec d leaf temp f bytes cap cur w0 w r w' :
  unnamed_with (view w0) (view w) f bytes →
  entries (view w) (vd_file d) !! leaf = Some cur → is_transaction_temp_leaf temp = true →
  publish_and_rename d leaf temp f (file_ident f) bytes cap w = (r, w') →
  match r with
  | Ok s => frame (view w0) (view w') (vd_file d) leaf ∧
            write_outcome (view w0) (view w') (vd_file d) leaf bytes r
  | Err _ => frame (view w0) (view w') (vd_file d) leaf ∧
      (leaf ≠ temp → write_outcome (view w0) (view w') (vd_file d) leaf bytes r) ∧
      (leaf = temp → view w' ≡ view w)
  end.
Proof.
  intros Hun Hcur Htemp Hrun. pose proof (unnamed_same_names _ _ _ _ Hun) as Hsame.
  unfold publish_and_rename in Hrun.
  apply M_bind_inv in Hrun as [([] & w1 & Hpub & Hrun)|(e & Hpub & ->)].
  2: { apply publish_spec in Hpub.
       assert (same_names (view w0) (view w')) by (eapply same_names_trans; [done|by apply same_names_equiv]).
       split_and!; [by apply frame_same_names| |done]. intros _. left. by apply same_names_stored. }
  apply publish_spec in Hpub as [Hnone Hv1].
  assert (leaf ≠ temp) as Hne by congruence.
  destruct (stored_publish _ _ _ _ _ _ _ Hun Hv1) as [_ Hother].
  assert (∀ v', v' ≡ view w1 → frame (view w0) v' (vd_file d) leaf ∧
    stored v' (vd_file d) leaf = stored (view w0) (vd_file d) leaf) as Hold.
  { intros v' Hv'. split.
    - intros d' l Hl. rewrite Hv'. apply Hother. destruct Hl as [|[_ Hl]]; [by left|right]. congruence.
    - rewrite Hv'. apply Hother. by right. }
  apply M_bind_inv in Hrun as [(pid & w2 & Hid & Hrun)|(e & Hid & ->)].
  2: { apply reads_view in Hid; [|eauto with reads]. destruct (Hold _ Hid).
       split_and!; [done|by left|done]. }
  pose proof (validate_regular_file_ident _ _ _ _ _ Hid) as ->.
  apply reads_view in Hid; [|eauto with reads].
  apply M_bind_inv in Hrun as [([] & w3 & Hg & Hrun)|(e & Hg & ->)].
  2: { unfold guard in Hg. by rewrite bool_decide_true // in Hg. }
  injection Hg as _ <-.
  apply M_bind_inv in Hrun as [([] & w4 & Hren & Hrun)|(e & Hren & ->)].
  2: { apply or_else_run in Hren as [(? & _ & ?)|(? & Hren & _)]; [done|]. apply renameat_Err in Hren.
       destruct (Hold (view w')) as [? ?]; [by rewrite Hren|]. split_and!; [done|by left|done]. }
  apply or_else_run in Hren as [([] & Hren & _)|(? & _ & ?)]; [|done].
  assert (entries (view w2) (vd_file d) !! temp = Some f) as Hf2.
  { rewrite (proj1 Hid) (proj1 Hv1) /= decide_True // lookup_insert_eq //. }
  assert (entries (view w2) (vd_file d) !! leaf = Some cur) as Hcur2.
  { rewrite (proj1 Hid) (proj1 Hv1) /= decide_True // lookup_insert_ne //. }
  apply renameat_Ok in Hren as (f' & Hf' & Hv4).
  2: { rewrite Hf2 Hcur2. intros [= ->]. destruct Hun as (Hfr & He & _).
       apply (Hfr (vd_file d) leaf). by rewrite -He. }
  assert (f' = f) as -> by congruence.
  destruct (stored_rename (view w0) (view w) (view w2) (view w4) f bytes (vd_file d) leaf temp)
    as [Hnew Hrest]; [done|by rewrite Hid|done|].
  apply sync_and_read_back in Hrun as [Hv' Hs].
  assert (frame (view w0) (view w') (vd_file d) leaf) as Hframe.
  { intros d' l Hl. rewrite Hv'. apply Hrest. destruct Hl as [|[? Hl]]; [by left|right]. split; congruence. }
  destruct r as [s|e].
  - destruct Hs as [Hident Hval]. split; [done|]. split; [|done]. by rewrite Hv' Hident.
  - split_and!; [done| |by intros]. intros _. right. eexists. by rewrite Hv'.
Qed.


Lemma strip_prefix_app p q : strip_prefix p (p ++ q) = Some q.
Proof.
  unfold strip_prefix. rewrite (proj2 (is_prefix_spec p (p ++ q))); [|by apply prefix_app_r].
  by rewrite drop_app_length.
Qed.

Lemma strip_suffix_app q p : strip_suffix p (q ++ p) = Some q.
Proof.
  unfold strip_suffix. rewrite reverse_app strip_prefix_app /=. by rewrite reverse_involutive.
Qed.

(** The temporaries are recognised by the recovery of [list_leaf_names]. *)
Lemma transaction_temp_leaf_spec w r w' :
  transaction_temp_leaf w = (r, w') →
  view w' ≡ view w ∧ ∃ temp, r = Ok temp ∧ is_transaction_temp_leaf temp = true.
Proof.
  unfold transaction_temp_leaf. pose proof (new_uuid_reads w) as Hv.
  pose proof (new_uuid_text w) as [[u Hu] Hascii].
  destruct (sys_new_uuid w) as [uuid w1]. intros Hrun.
  assert (r = Ok (utf8 (TRANSACTION_TEMP_PREFIX ++ uuid ++ TRANSACTION_TEMP_SUFFIX)) ∧ w' = w1)
    as [-> ->] by (by injection Hrun). split; [done|].
  eexists. split; [done|]. unfold is_transaction_temp_leaf, transaction_temp_named.
  rewrite from_utf8_utf8.
  - cbn [mbind option_bind]. rewrite strip_prefix_app. cbn [mbind option_bind].
    rewrite strip_suffix_app. cbn [mbind option_bind]. simpl in Hu. by rewrite Hu.
  - assert (∀ l, Forall (λ c, 0 ≤ c < 0x80) l → Forall (λ c, is_char c = true) l) as Hchar.
    { intros l Hl. eapply Forall_impl; [exact Hl|]. intros c Hc. cbn beta in *. unfold is_char, within. lia. }
    assert (∀ l, forallb is_char l = true → Forall (λ c, is_char c = true) l) as Hlit.
    { induction l as [|c l IH]; [constructor|]. intros [? ?]%andb_true. by constructor; [|apply IH]. }
    rewrite !Forall_app. split_and!; [by apply Hlit|by apply Hchar|by apply Hlit].
Qed.

Lemma replace_under_lock_spec d leaf expected bytes cap w r w' :
  is_transaction_temp_leaf leaf = false →
  replace_under_lock d leaf expected bytes cap w = (r, w') →
  frame (view w) (view w') (vd_file d) leaf ∧
  write_outcome (view w) (view w') (vd_file d) leaf bytes r ∧
  (fst <$> stored (view w) (vd_file d) leaf ≠ Some expected →
   is_ok r = false ∧ stored (view w') (vd_file d) leaf = stored (view w) (vd_file d) leaf).
Proof.
  intros Hleaf Hrun. unfold replace_under_lock in Hrun.
  assert (∀ v', same_names (view w) v' → ∀ e, r = Err e →
    frame (view w) v' (vd_file d) leaf ∧ write_outcome (view w) v' (vd_file d) leaf bytes r ∧
    (fst <$> stored (view w) (vd_file d) leaf ≠ Some expected →
     is_ok r = false ∧ stored v' (vd_file d) leaf = stored (view w) (vd_file d) leaf)) as Hfail.
  { intros v' Hv e ->. split; [by apply frame_same_names|].
    rewrite /= (same_names_stored (view w) v') //. auto. }
  assert (∀ w1, view w1 ≡ view w → ∀ e, r = Err e → w' = w1 → 
    frame (view w) (view w') (vd_file d) leaf ∧ write_outcome (view w) (view w') (vd_file d) leaf bytes r ∧
    (fst <$> stored (view w) (vd_file d) leaf ≠ Some expected →
     is_ok r = false ∧ stored (view w') (vd_file d) leaf = stored (view w) (vd_file d) leaf)) as Hread.
  { intros w1 Hv e He ->. eapply Hfail; [by apply same_names_equiv|done]. }
  apply M_bind_inv in Hrun as [([] & w1 & Hr1 & Hrun)|(e & Hr1 & ->)].
  2: { apply reads_view in Hr1; [|by eauto with reads]. by eapply (Hread w'). }
  apply reads_view in Hr1; [|by eauto with reads].
  apply M_bind_inv in Hrun as [(cur & w2 & Ho & Hrun)|(e & Ho & ->)].
  2: { apply reads_view in Ho; [|by eauto with reads]. eapply (Hread w'); [by etrans|done|done]. }
  assert (entries (view w1) (vd_file d) !! leaf = Some cur) as Hcur.
  { apply or_else_run in Ho as [(? & Ho & [= <-])|(? & _ & ?)]; [by eapply openat_Ok|done]. }
  apply reads_view in Ho; [|by eauto with reads]. rewrite (proj1 Hr1) in Hcur.
  assert (view w2 ≡ view w) as Hv2 by (by etrans). clear Hr1 Ho.
  apply M_bind_inv in Hrun as [(id & w3 & Hid & Hrun)|(e & Hid & ->)].
  2: { apply reads_view in Hid; [|by eauto with reads]. eapply (Hread w'); [by etrans|done|done]. }
  pose proof (validate_regular_file_ident _ _ _ _ _ Hid) as ->.
  apply reads_view in Hid; [|by eauto with reads].
  assert (view w3 ≡ view w) as Hv3 by (by etrans). clear Hid Hv2.
  apply M_bind_inv in Hrun as [([] & w4 & Hg & Hrun)|(e & Hg & ->)].
  2: { injection Hg as Hg <-. eapply Hread; [exact Hv3|done|done]. }
  injection Hg as Hg <-. apply bail_if_Ok in Hg. inv_ok.
  apply M_bind_inv in Hrun as [([f fid] & w4 & Hp & Hrun)|(e & Hp & ->)].
  2: { apply prepare_unnamed_spec in Hp as [Hp _]. eapply Hfail; [|done].
       eapply same_names_trans; [|exact Hp]. by apply same_names_equiv. }
  apply prepare_unnamed_spec in Hp as [Hsame Hp]. destruct (Hp f fid eq_refl) as [-> Hun]. clear Hp.
  apply M_bind_inv in Hrun as [(temp & w5 & Ht & Hrun)|(e & Ht & ->)].
  2: { by apply transaction_temp_leaf_spec in Ht as (_ & ? & ? & _). }
  apply transaction_temp_leaf_spec in Ht as (Hv5 & ? & [= <-] & Htemp).
  assert (entries (view w5) (vd_file d) !! leaf = Some cur) as Hcur5.
  { by rewrite (proj1 Hv5) (proj1 Hsame) (proj1 Hv3). }
  assert (unnamed_with (view w) (view w5) f bytes) as Hun5.
  { eapply unnamed_with_equiv; [exact Hun|exact Hv3|exact Hv5]. }
  assert (fst <$> stored (view w) (vd_file d) leaf = Some expected) as Hexp.
  { unfold stored. rewrite Hcur. simpl. congruence. }
  unfold cleanup_temp in Hrun.
  destruct (publish_and_rename d leaf temp f (file_ident f) bytes cap w5) as [r0 w6] eqn:Hpr.
  eapply publish_and_rename_spec in Hpr; [|exact Hun5|exact Hcur5|exact Htemp].
  destruct r0 as [s|e]; injection Hrun as <- <-.
  - destruct Hpr. by split_and!.
  - destruct Hpr as (Hframe & Hne & Heq).
    assert (frame (view w) (view (unlinkat (vd_file d) temp w6)) (vd_file d) leaf) as Hframe'.
    { intros d' l Hl. rewrite unlinkat_stored; [by apply Hframe|]. destruct Hl as [|[_ Hl]]; [by left|right].
      congruence. }
    split; [done|]. split; [|done].
    assert (leaf ≠ temp) as Hlt by congruence.
    specialize (Hne Hlt). simpl in *. rewrite unlinkat_stored; [done|by right].
Qed.

Lemma serialize_bounded_Ok (v : T) cap bytes :
  serialize_bounded v cap = Ok bytes →
  to_vec v = Some bytes ∧ Z.of_nat (length bytes) ≤ Z.min cap MAX_SPECULATION_JSON_BYTES.
Proof. unfold serialize_bounded. intros Hs. inv_ok. simplify_eq. split; [done|]. lia. Qed.

Lemma write_outcome_post admits v v' d leaf bytes value r :
  to_vec value = Some bytes → write_outcome v v' d leaf bytes r →
  (¬ admits (fst <$> stored v d leaf) → is_ok r = false ∧ stored v' d leaf = stored v d leaf) →
  (admits (fst <$> stored v d leaf) ∨ ¬ admits (fst <$> stored v d leaf)) →
  write_post admits (stored v d leaf) (stored v' d leaf) value r.
Proof.
  intros Hbytes Hout Hadm [Hyes|Hno]; destruct r as [s|e]; simpl in *.
  - destruct Hout as [Hst Hval]. rewrite (from_slice_to_vec _ _ Hbytes) in Hval. injection Hval as Hval.
    split_and!; [done|done|]. by exists bytes.
  - destruct Hout as [|[id Hst]]; [by left|right]. split; [done|]. exists id, bytes. done.
  - by destruct (Hadm Hno).
  - left. by apply Hadm.
Qed.

Lemma write_post_refused admits (old : option (FileIdentity * list byte)) (v : T) e :
  write_post admits old old v (Err e).
Proof. by left. Qed.

Lemma atomic_create_json_spec d leaf (v : T) cap w r w' :
  atomic_create_json d leaf v cap w = (r, w') →
  frame (view w) (view w') (vd_file d) leaf ∧
  write_post (λ id, id = None) (stored (view w) (vd_file d) leaf) (stored (view w') (vd_file d) leaf) v r.
Proof.
  intros Hrun. unfold atomic_create_json in Hrun.
  apply M_bind_inv in Hrun as [([] & w1 & Hl & Hrun)|(e & Hl & ->)]; injection Hl as _ <-;
    [|split; [by intros d' l _|apply write_post_refused]].
  apply M_bind_inv in Hrun as [(bytes & w1 & Hs & Hrun)|(e & Hs & ->)]; injection Hs as Hs <-;
    [|split; [by intros d' l _|apply write_post_refused]].
  apply serialize_bounded_Ok in Hs as [Hbytes _].
  apply with_mutation_lock_run in Hrun as [[Hv ->]|(w1 & w2 & Hv1 & Hbody & Hv2)].
  { split; [by intros d' l _; rewrite Hv|]. rewrite Hv. apply write_post_refused. }
  apply create_under_lock_spec in Hbody as (Hframe & Hout & Hexists).
  split; [by intros d' l Hl; rewrite Hv2 Hframe // Hv1|].
  rewrite Hv2 -Hv1. eapply write_outcome_post; [done|done| |].
  - intros Hne. apply Hexists. intros Hn. apply Hne. by rewrite Hn.
  - destruct (stored (view w1) (vd_file d) leaf); [right|left]; done.
Qed.

Lemma atomic_replace_json_spec d leaf expected (v : T) cap w r w' :
  is_transaction_temp_leaf leaf = false →
  atomic_replace_json d leaf expected v cap w = (r, w') →
  frame (view w) (view w') (vd_file d) leaf ∧
  write_post (λ id, id = Some expected) (stored (view w) (vd_file d) leaf)
    (stored (view w') (vd_file d) leaf) v r.
Proof.
  intros Hleaf Hrun. unfold atomic_replace_json in Hrun.
  apply M_bind_inv in Hrun as [([] & w1 & Hl & Hrun)|(e & Hl & ->)]; injection Hl as _ <-;
    [|split; [by intros d' l _|apply write_post_refused]].
  apply M_bind_inv in Hrun as [(bytes & w1 & Hs & Hrun)|(e & Hs & ->)]; injection Hs as Hs <-;
    [|split; [by intros d' l _|apply write_post_refused]].
  apply serialize_bounded_Ok in Hs as [Hbytes _].
  apply with_mutation_lock_run in Hrun as [[Hv ->]|(w1 & w2 & Hv1 & Hbody & Hv2)].
  { split; [by intros d' l _; rewrite Hv|]. rewrite Hv. apply write_post_refused. }
  apply replace_under_lock_spec in Hbody as (Hframe & Hout & Hexp); [|done].
  split; [by intros d' l Hl; rewrite Hv2 Hframe // Hv1|].
  rewrite Hv2 -Hv1. eapply write_outcome_post; [done|done|done|].
  destruct (decide (fst <$> stored (view w1) (vd_file d) leaf = Some expected)); auto.
Qed.

Lemma read_json_spec d leaf cap w (r : result EvidenceError (StoredJson T)) w' :
  read_json d leaf cap w = (r, w') →
  view w' ≡ view w ∧
  ∀ s, r = Ok s → ∃ bytes, from_slice bytes = Some (sj_value s) ∧
    stored (view w) (vd_file d) leaf = Some (sj_identity s, bytes).
Proof.
  intros Hrun. split; [eapply reads_view; [|exact Hrun]; eauto with reads|]. intros s ->.
  unfold read_json in Hrun.
  apply M_bind_Ok in Hrun as ([] & w1 & Hr1 & Hrun). apply reads_view in Hr1; [|by eauto with reads].
  apply M_bind_Ok in Hrun as ([] & w2 & Hl & Hrun). injection Hl as _ <-.
  apply M_bind_Ok in Hrun as (f & w2 & Ho & Hrun).
  assert (entries (view w1) (vd_file d) !! leaf = Some f) as Hf.
  { apply or_else_run in Ho as [(? & Ho & [= <-])|(? & _ & ?)]; [by eapply openat_Ok|done]. }
  apply reads_view in Ho; [|by eauto with reads].
  apply M_bind_Ok in Hrun as (id & w3 & Hid & Hrun).
  pose proof (validate_regular_file_ident _ _ _ _ _ Hid) as ->.
  apply reads_view in Hid; [|by eauto with reads].
  apply M_bind_Ok in Hrun as (bytes & w4 & Hb & Hrun). apply M_bind_Ok in Hrun as (value & w5 & Hval & Hrun).
  injection Hval as Hval <-. apply ok_or_Ok in Hval. injection Hrun as <- <-. simpl.
  unfold read_bounded in Hb. apply M_bind_Ok in Hb as (b & w6 & Hrd & Hb).
  apply M_bind_Ok in Hb as ([] & w7 & Hg & Hb). injection Hg as Hg <-. injection Hb as <- <-.
  apply bail_if_Ok in Hg.
  apply or_else_run in Hrd as [(? & Hrd & [= <-])|(? & _ & ?)]; [|done].
  apply read_Ok in Hrd as (c & Hc & Hbc). exists b. split; [done|].
  assert (b = c) as ->.
  { rewrite Hbc. apply take_ge. rewrite Hbc length_take in Hg.
    destruct (decide (length c ≤ Z.to_nat (Z.min cap MAX_SPECULATION_JSON_BYTES + 1))%nat); [done|].
    rewrite Nat.min_l in Hg; [|lia]. rewrite Z.gtb_ltb in Hg. apply Z.ltb_ge in Hg. lia. }
  unfold stored. rewrite -(proj1 Hr1) Hf /=. do 2 f_equal.
  by rewrite -(proj2 Hr1) -(proj2 Ho) -(proj2 Hid) Hc.
Qed.
End json_lemmas.

(** ** Listing *)

Section listing_lemmas.
Context (is_json_value : list byte → bool).

Lemma validate_temp_leaf_reads d l : reads_only view (validate_temp_leaf_for_recovery is_json_value d l).
Proof. unfold validate_temp_leaf_for_recovery. solve_reads. Qed.

(** Recovery removes names of temporaries only, and keeps every other name it was given. *)
Lemma retain_names_spec d names w kept removed w' :
  retain_names is_json_value d names w = (kept, removed, w') →
  (∀ d' l, d' ≠ d ∨ is_transaction_temp_leaf l = false →
    stored (view w') d' l = stored (view w) d' l) ∧
  ∀ l, is_transaction_temp_leaf l = false → l ∈ kept ↔ l ∈ names.
Proof.
  revert kept removed w. induction names as [|name names IH]; intros kept removed w Hrun; simpl in Hrun.
  { by injection Hrun as <- <- <-. }
  destruct (is_transaction_temp_leaf name) eqn:Htemp; simpl in Hrun.
  - destruct ((_ ← validate_temp_leaf_for_recovery is_json_value d name; unlinkat_checked d name) w)
      as [res w1] eqn:Hrec.
    assert (∀ d' l, d' ≠ d ∨ is_transaction_temp_leaf l = false →
      stored (view w1) d' l = stored (view w) d' l) as Hw1.
    { intros d' l Hl.
      apply M_bind_inv in Hrec as [([] & w2 & Hv & Hu)|(e & Hv & ->)];
        apply reads_view in Hv; [|apply validate_temp_leaf_reads| |apply validate_temp_leaf_reads].
      + rewrite -Hv. replace w1 with (snd (sys_unlinkat d name w2)).
        * apply unlinkat_stored. destruct Hl; [by left|right; congruence].
        * unfold unlinkat_checked, or_else in Hu. by destruct (sys_unlinkat d name w2) as [[] ?]; injection Hu.
      + by rewrite Hv. }
    destruct res as [[]|e].
    all: destruct (retain_names is_json_value d names w1) as [[kept' removed'] w2] eqn:Hrest.
    all: injection Hrun as <- <- <-; apply IH in Hrest as [Hs Hk].
    all: split; [intros d' l Hl; rewrite Hs // Hw1 //|].
    all: intros l Hl; rewrite !elem_of_cons Hk //; split; auto.
    all: intros [->|]; [congruence|auto].
  - destruct (retain_names is_json_value d names w) as [[kept' removed'] w2] eqn:Hrest.
    injection Hrun as <- <- <-. apply IH in Hrest as [Hs Hk]. split; [done|].
    intros l Hl. rewrite !elem_of_cons Hk //.
Qed.

Lemma enumerate_leaf_names_spec d w r w' :
  enumerate_leaf_names_from_fd d w = (r, w') →
  view w' ≡ view w ∧
  ∀ names, r = Ok names → ∀ l, l ≠ lit "." → l ≠ lit ".." →
    l ∈ names ↔ is_Some (stored (view w) (vd_file d) l).
Proof.
  intros Hrun. unfold enumerate_leaf_names_from_fd in Hrun. split.
  { eapply reads_view; [|exact Hrun]. pose proof (validate_directory_policy_reads (vd_file d) Private).
    solve_reads. }
  intros names -> l Hdot Hdots.
  apply M_bind_Ok in Hrun as (id & w1 & Hid & Hrun). apply reads_view in Hid; [|by eauto with reads].
  apply M_bind_Ok in Hrun as ([] & w2 & Hg & Hrun). injection Hg as _ <-.
  apply M_bind_Ok in Hrun as ([] & w3 & Hp & Hrun).
  apply reads_view in Hp; [|exact (validate_directory_policy_reads (vd_file d) Private)].
  apply M_bind_Ok in Hrun as (all & w4 & Hl & Hrun).
  apply or_else_run in Hl as [(? & Hl & [= <-])|(? & _ & ?)]; [|done].
  apply M_bind_Ok in Hrun as (id' & w5 & _ & Hrun). apply M_bind_Ok in Hrun as ([] & w6 & _ & Hrun).
  injection Hrun as <- _.
  pose proof (readdir_Ok _ _ _ _ Hl l Hdot Hdots) as Hmem.
  rewrite list_elem_of_In filter_In -list_elem_of_In Hmem.
  rewrite !bool_decide_false //. unfold stored. rewrite fmap_is_Some.
  rewrite (proj1 Hp) (proj1 Hid). naive_solver.
Qed.

Lemma list_leaf_names_spec d w r w' :
  list_leaf_names is_json_value d w = (r, w') →
  (∀ d' l, is_transaction_temp_leaf l = false → stored (view w') d' l = stored (view w) d' l) ∧
  ∀ names, r = Ok names → ∀ l, l ≠ lit "." → l ≠ lit ".." → is_transaction_temp_leaf l = false →
    l ∈ names ↔ is_Some (stored (view w) (vd_file d) l).
Proof.
  intros Hrun. unfold list_leaf_names in Hrun.
  apply with_mutation_lock_run in Hrun as [[Hv ->]|(w1 & w2 & Hv1 & Hrun & Hv2)].
  { split; [|done]. intros d' l _. by rewrite Hv. }
  apply M_bind_inv in Hrun as [([] & w3 & Hr & Hrun)|(e & Hr & ->)];
    apply reads_view in Hr; [|by eauto with reads| |by eauto with reads].
  2: { split; [|done]. intros d' l _. by rewrite Hv2 Hr Hv1. }
  apply M_bind_inv in Hrun as [(names & w4 & Hn & Hrun)|(e & Hn & ->)];
    apply enumerate_leaf_names_spec in Hn as [Hvn Hn].
  2: { split; [|done]. intros d' l _. by rewrite Hv2 Hvn Hr Hv1. }
  apply M_bind_inv in Hrun as [(kr & w5 & Hk & Hrun)|(e & Hk & ->)].
  2: { by destruct (retain_names _ _ _ _) as [[? ?] ?]. }
  destruct (retain_names is_json_value (vd_file d) names w4) as [[kept removed] w6] eqn:Hret.
  injection Hk as <- <-. apply retain_names_spec in Hret as [Hs Hkept]. cbn [fst snd] in Hrun.
  assert (view w2 ≡ view w6 ∧ ∀ names', r = Ok names' → names' = kept) as [Hv6 Hnames].
  { split.
    - eapply reads_view; [|exact Hrun]. apply reads_bind; [destruct removed; eauto with reads|]. intros []. solve_reads.
    - intros names' ->. apply M_bind_Ok in Hrun as ([] & ? & _ & Hrun).
      by apply M_bind_Ok in Hrun as ([] & ? & _ & [= <- _]). }
  split.
  - intros d' l Hl. rewrite Hv2 Hv6 Hs; [|by right]. by rewrite Hvn Hr Hv1.
  - intros names' Hok l Hdot Hdots Hl. rewrite (Hnames _ Hok) Hkept // (Hn names eq_refl l Hdot Hdots).
    by rewrite Hr Hv1.
Qed.
End listing_lemmas.

Lemma is_transaction_temp_prefix l :
  is_transaction_temp_leaf l = true → utf8 TRANSACTION_TEMP_PREFIX `prefix_of` l.
Proof.
  unfold is_transaction_temp_leaf, transaction_temp_named.
  destruct (from_utf8 l) as [value|] eqn:Hv; [|done]. cbn [mbind option_bind]. unfold strip_prefix at 1.
  destruct (is_prefix TRANSACTION_TEMP_PREFIX value) eqn:Hp; [|done]. intros _.
  apply is_prefix_spec in Hp as [rest ->]. rewrite -(from_utf8_sound _ _ Hv) utf8_app.
  by apply prefix_app_r.
Qed.

(** A validated directory keeps the contract. *)
Definition directory_store (is_json_value : list byte → bool) (d : ValidatedDirectory) : RecordStore W.
Proof.
  refine {|
    rs_record w l := stored (view w) (vd_file d) l;
    rs_is_temp := is_transaction_temp_leaf;
    rs_create T _ leaf v cap := atomic_create_json d leaf v cap;
    rs_replace T _ leaf id v cap := atomic_replace_json d leaf id v cap;
    rs_read T _ leaf cap := read_json d leaf cap;
    rs_list := list_leaf_names is_json_value d |}.
  - apply is_transaction_temp_prefix.
  - intros T ? leaf v cap w r w' [Hframe Hpost]%atomic_create_json_spec.
    split; [|done]. intros l Hl Htemp. apply Hframe. by right.
  - intros T ? leaf id v cap w r w' Hleaf Hrun.
    apply atomic_replace_json_spec in Hrun as [Hframe Hpost]; [|done].
    split; [|done]. intros l Hl Htemp. apply Hframe. by right.
  - intros T ? leaf cap w r w' [Hv Hs]%read_json_spec. split; [|done]. intros l. by rewrite Hv.
  - intros w r w' [Hs Hnames]%list_leaf_names_spec. split; [|done]. intros l Hl. by apply Hs.
Defined.

(** C3: A record write is atomic. Creating a record succeeds only where there was none,
    replacing one only where the file has the expected identity; success means the record
    under the name is now exactly the serialized value, with the identity returned, and
    the value read back is the one written; failure leaves the old record, or the new one
    whole, never a torn one; and no other record changes, whatever call fails in between. *)
Theorem record_writes_atomic {T} `{JsonCodec T} d leaf expected (v : T) cap w :
  (let '(r, w') := atomic_create_json d leaf v cap w in
   frame (view w) (view w') (vd_file d) leaf ∧
   write_post (λ id, id = None) (stored (view w) (vd_file d) leaf) (stored (view w') (vd_file d) leaf) v r) ∧
  (is_transaction_temp_leaf leaf = false →
   let '(r, w') := atomic_replace_json d leaf expected v cap w in
   frame (view w) (view w') (vd_file d) leaf ∧
   write_post (λ id, id = Some expected) (stored (view w) (vd_file d) leaf)
     (stored (view w') (vd_file d) leaf) v r).
Proof.
  split.
  - destruct (atomic_create_json d leaf v cap w) as [r w'] eqn:E. by apply atomic_create_json_spec in E.
  - intros Hleaf. destruct (atomic_replace_json d leaf expected v cap w) as [r w'] eqn:E.
    by apply atomic_replace_json_spec in E.
Qed.

(** Listing a directory recovers abandoned temporaries and nothing else: every record
    under another name keeps its identity and bytes, even when the listing fails, and a
    successful listing names exactly the records there are. *)
Theorem list_leaf_names_recovers is_json_value d w :
  let '(r, w') := list_leaf_names is_json_value d w in
  (∀ d' l, is_transaction_temp_leaf l = false → stored (view w') d' l = stored (view w) d' l) ∧
  ∀ names, r = Ok names → ∀ l, l ≠ lit "." → l ≠ lit ".." → is_transaction_temp_leaf l = false →
    l ∈ names ↔ is_Some (stored (view w) (vd_file d) l).
Proof.
  destruct (list_leaf_names is_json_value d w) as [r w'] eqn:E. by apply list_leaf_names_spec in E.
Qed.
End stored.
