(* ===== verification/SimKernel.v ===== *)
(** A small file system in memory that keeps the laws of [Kernel], with a schedule of
    faults: each call takes the next entry of the schedule and fails when it holds an
    error.  It shows that the laws can hold together, and runs the record writes of
    EvidenceFs.v on concrete worlds, crashes included. *)
From S2P Require Import Prelude Utf8 Protocol EvidenceFs.

(** One directory, descriptor 1; files are numbered from 2. *)
Record sim : Type := {
  sim_names : gmap leaf_name Z;
  sim_contents : gmap Z (list byte);
  sim_faults : list (option errno);
}.

Definition sim_view (w : sim) : fs_view :=
  {| entries := λ d, if decide (d = 1) then sim_names w else ∅; contents := sim_contents w |}.

Definition sim_file_ident (f : Z) : FileIdentity := {| fi_dev := 1; fi_ino := f |}.

(** Consumes one entry of the schedule. *)
Definition tick (w : sim) : option errno * sim :=
  match sim_faults w with
  | [] => (None, w)
  | e :: es => (e, {| sim_names := sim_names w; sim_contents := sim_contents w; sim_faults := es |})
  end.

Definition faulty {A} (op : M sim errno A) : M sim errno A := λ w,
  match tick w with
  | (Some e, w) => (Err e, w)
  | (None, w) => op w
  end.

Definition set_names (w : sim) (names : gmap leaf_name Z) : sim :=
  {| sim_names := names; sim_contents := sim_contents w; sim_faults := sim_faults w |}.
Definition set_bytes (w : sim) (f : Z) (bytes : list byte) : sim :=
  {| sim_names := sim_names w; sim_contents := <[f := bytes]> (sim_contents w); sim_faults := sim_faults w |}.

(** A number above every file in use. *)
Definition sim_fresh (w : sim) : Z :=
  1 + foldr Z.max 1 ((map_to_list (sim_names w)).*2 ++ (map_to_list (sim_contents w)).*1).

Definition sim_links (w : sim) (f : Z) : Z :=
  Z.of_nat (length (List.filter (Z.eqb f) (map_to_list (sim_names w)).*2)).

Definition sim_metadata (f : Z) : M sim errno Metadata := λ w,
  (Ok {| file_type := if f <=? 1 then Directory else RegularFile; m_uid := 1000;
         m_mode := if f <=? 1 then 448 else 384; m_nlink := sim_links w f; m_dev := 1; m_ino := f |}, w).

Definition sim_openat (d : Z) (l : leaf_name) : M sim errno Z := λ w,
  match entries (sim_view w) d !! l with Some f => (Ok f, w) | None => (Err ENOENT, w) end.

Definition sim_read (f : Z) (n : nat) : M sim errno (list byte) := λ w,
  match sim_contents w !! f with Some c => (Ok (take n c), w) | None => (Err EOTHER, w) end.

Definition sim_link (f d : Z) (l : leaf_name) : M sim errno unit := λ w,
  if negb (d =? 1) then (Err ENOENT, w) else
  match sim_names w !! l with
  | Some _ => (Err EEXIST, w)
  | None => (Ok tt, set_names w (<[l := f]> (sim_names w)))
  end.

Definition sim_rename (d : Z) (from to : leaf_name) : M sim errno unit := λ w,
  if negb (d =? 1) then (Err ENOENT, w) else
  match sim_names w !! from with
  | Some f =>
    (Ok tt, if bool_decide (sim_names w !! to = Some f) then w
            else set_names w (<[to := f]> (delete from (sim_names w))))
  | None => (Err ENOENT, w)
  end.

Definition sim_unlink (d : Z) (l : leaf_name) : M sim errno unit := λ w,
  if negb (d =? 1) then (Err ENOENT, w) else
  match sim_names w !! l with
  | Some _ => (Ok tt, set_names w (delete l (sim_names w)))
  | None => (Err ENOENT, w)
  end.

Definition sim_write (f : Z) (bytes : list byte) : M sim errno unit := λ w,
  match sim_contents w !! f with
  | Some c => (Ok tt, set_bytes w f (c ++ bytes))
  | None => (Err EOTHER, w)
  end.

Definition sim_tmpfile : M sim errno Z := λ w,
  let f := sim_fresh w in (Ok f, set_bytes w f []).

Definition sim_uuid : str := replicate 36 0x30.

#[export] Instance sim_kernel_ops : KernelOps sim := {|
  sys_euid := 1000;
  sys_open_root := faulty (mret 0);
  sys_open_dirat _ _ := faulty (mret 1);
  sys_mkdirat _ _ := faulty (mret tt);
  sys_canonicalize p := faulty (mret p);
  sys_statx _ := faulty (mret (true, 7));
  sys_boot_id := faulty (mret sim_uuid);
  sys_fstatfs_is_cgroup2 _ := faulty (mret true);
  sys_fstatat_is_regular _ _ := faulty (mret true);
  sys_readdir d := faulty (λ w, (Ok (map_to_list (entries (sim_view w) d)).*1, w));
  sys_flock _ := faulty (mret tt);
  sys_unlock _ w := w;
  sys_openat d l _ := faulty (sim_openat d l);
  sys_metadata f := faulty (sim_metadata f);
  sys_read f n := faulty (sim_read f n);
  sys_open_tmpfile _ := faulty sim_tmpfile;
  sys_write_all f bytes := faulty (sim_write f bytes);
  sys_sync_all _ := faulty (mret tt);
  sys_link_empty_path f d l := faulty (sim_link f d l);
  sys_link_proc_fd f d l := faulty (sim_link f d l);
  sys_renameat d from to := faulty (sim_rename d from to);
  sys_unlinkat d l := faulty (sim_unlink d l);
  sys_new_uuid w := (sim_uuid, w);
  uuid_parse_str s := if decide (s = sim_uuid) then Some 7 else None;
|}.

Lemma tick_view w e w' : tick w = (e, w') → sim_names w' = sim_names w ∧ sim_contents w' = sim_contents w.
Proof. unfold tick. by destruct (sim_faults w); intros [= <- <-]. Qed.

Lemma view_ext w w' :
  sim_names w' = sim_names w → sim_contents w' = sim_contents w → sim_view w' ≡ sim_view w.
Proof. intros Hn Hc. split; [|done]. intros d. simpl. by rewrite Hn. Qed.

Lemma faulty_reads {A} (op : M sim errno A) : reads_only sim_view op → reads_only sim_view (faulty op).
Proof.
  intros Hop w. unfold faulty. destruct (tick w) as [[e|] w'] eqn:E; apply tick_view in E as [Hn Hc].
  - by apply view_ext.
  - etrans; [apply Hop|by apply view_ext].
Qed.

(** A faulty call that succeeded ran in a world with the same files. *)
Lemma faulty_inv {A} (op : M sim errno A) w r w' :
  faulty op w = (r, w') →
  ∃ w1, sim_names w1 = sim_names w ∧ sim_contents w1 = sim_contents w ∧
    ((w' = w1 ∧ ∃ e, r = Err e) ∨ op w1 = (r, w')).
Proof.
  unfold faulty. destruct (tick w) as [[e|] w1] eqn:E; apply tick_view in E as [Hn Hc].
  - intros [= <- <-]. exists w1. split_and!; eauto.
  - intros Hop. exists w1. auto.
Qed.

Lemma foldr_max_le (x : Z) l : x ∈ l → x ≤ foldr Z.max 1 l.
Proof. induction 1; simpl; lia. Qed.

Lemma sim_fresh_names w l : sim_names w !! l ≠ Some (sim_fresh w).
Proof.
  intros Hl. assert (sim_fresh w ∈ (map_to_list (sim_names w)).*2 ++ (map_to_list (sim_contents w)).*1) as Hin.
  { apply elem_of_app. left. apply list_elem_of_fmap. exists (l, sim_fresh w). split; [done|].
    by apply elem_of_map_to_list. }
  apply foldr_max_le in Hin. unfold sim_fresh in Hin at 1. lia.
Qed.

Ltac faulty_cases Hrun w1 Hn Hc Hop :=
  apply faulty_inv in Hrun as (w1 & Hn & Hc & [[-> [? ?]]|Hop]); simplify_eq.

Lemma sim_link_Ok f d l w w' :
  faulty (sim_link f d l) w = (Ok tt, w') →
  entries (sim_view w) d !! l = None ∧
  sim_view w' ≡ set_entries (sim_view w) d (<[l := f]> (entries (sim_view w) d)).
Proof.
  intros Hrun. faulty_cases Hrun w1 Hn Hc Hop. unfold sim_link in Hop.
  destruct (Z.eqb_spec d 1) as [->|]; simpl in Hop; [|done].
  destruct (sim_names w1 !! l) eqn:El; [done|]. injection Hop as <-. simpl. rewrite -Hn. split; [done|].
  split; [|exact Hc]. intros d'. simpl. rewrite -Hn. by destruct (decide (d' = 1)).
Qed.

Lemma sim_link_Err f d l w e w' : faulty (sim_link f d l) w = (Err e, w') → sim_view w' ≡ sim_view w.
Proof.
  intros Hrun. faulty_cases Hrun w1 Hn Hc Hop; [by apply view_ext|]. unfold sim_link in Hop.
  destruct (d =? 1); simpl in Hop; [destruct (sim_names w1 !! l)|]; simplify_eq; by apply view_ext.
Qed.

#[export] Instance sim_kernel : Kernel sim.
Proof.
  refine {| view := sim_view; file_ident := sim_file_ident |}; simpl.
  all: try (intros; apply faulty_reads; by intros w).
  - by intros.
  - intros d l _. apply faulty_reads. intros w. unfold sim_openat.
    by destruct (entries (sim_view w) d !! l).
  - intros f n. apply faulty_reads. intros w. unfold sim_read. by destruct (sim_contents w !! f).
  - by intros.
  - intros d l _ w fd w' Hrun. faulty_cases Hrun w1 Hn Hc Hop. unfold sim_openat in Hop. simpl in *.
    rewrite -Hn. by destruct ((if decide (d = 1) then sim_names w1 else ∅) !! l); simplify_eq.
  - intros d w names w' Hrun l _ _. faulty_cases Hrun w1 Hn Hc Hop. simpl. rewrite -Hn.
    rewrite list_elem_of_fmap. split.
    + intros ([l' f] & -> & Hin). apply elem_of_map_to_list in Hin. by exists f.
    + intros [f Hf]. exists (l, f). split; [done|]. by apply elem_of_map_to_list.
  - intros f w m w' Hrun. by faulty_cases Hrun w1 Hn Hc Hop; injection Hop as <- <-.
  - intros f n w bytes w' Hrun. faulty_cases Hrun w1 Hn Hc Hop. unfold sim_read in Hop. rewrite -Hc.
    destruct (sim_contents w1 !! f) as [c|] eqn:E; simplify_eq. by exists c.
  - intros d w fd w' Hrun. faulty_cases Hrun w1 Hn Hc Hop.
    assert (fd = sim_fresh w1 ∧ w' = set_bytes w1 (sim_fresh w1) []) as [-> ->] by (by injection Hop). split.
    + intros d' l. destruct (decide (d' = 1)); [|done]. rewrite -Hn. apply sim_fresh_names.
    + split; [intros d'; by rewrite /= Hn|by rewrite /= Hc].
  - intros d w e w' Hrun. faulty_cases Hrun w1 Hn Hc Hop. by apply view_ext.
  - intros f bytes w w' Hrun. faulty_cases Hrun w1 Hn Hc Hop. unfold sim_write in Hop.
    destruct (sim_contents w1 !! f) as [c|] eqn:E; simplify_eq. exists c. rewrite -Hc. split; [done|].
    split; [intros d'; by rewrite /= Hn|by rewrite /= Hc].
  - intros f bytes w e w' Hrun. left. faulty_cases Hrun w1 Hn Hc Hop; [by apply view_ext|].
    unfold sim_write in Hop. destruct (sim_contents w1 !! f); simplify_eq. by apply view_ext.
  - intros f d l w w'. apply sim_link_Ok.
  - intros f d l w e w'. apply sim_link_Err.
  - intros f d l w w'. apply sim_link_Ok.
  - intros f d l w e w'. apply sim_link_Err.
  - intros d from to w w' Hrun Hne. faulty_cases Hrun w1 Hn Hc Hop. unfold sim_rename in Hop.
    destruct (Z.eqb_spec d 1) as [->|]; simpl in Hop; [|done].
    destruct (sim_names w1 !! from) as [f|] eqn:E; simplify_eq. exists f. simpl in *. rewrite -Hn in Hne |- *.
    split; [done|]. rewrite bool_decide_false; [|congruence].
    split; [|by rewrite /= Hc]. intros d'. simpl. by destruct (decide (d' = 1)).
  - intros d from to w e w' Hrun. faulty_cases Hrun w1 Hn Hc Hop; [by apply view_ext|]. unfold sim_rename in Hop.
    destruct (d =? 1); simpl in Hop; [destruct (sim_names w1 !! from)|]; simplify_eq; by apply view_ext.
  - intros d l w w' Hrun. faulty_cases Hrun w1 Hn Hc Hop. unfold sim_unlink in Hop.
    destruct (Z.eqb_spec d 1) as [->|]; simpl in Hop; [|done].
    destruct (sim_names w1 !! l); simplify_eq. split; [|by rewrite /= Hc].
    intros d'. simpl. rewrite Hn. by destruct (decide (d' = 1)).
  - intros d l w e w' Hrun. faulty_cases Hrun w1 Hn Hc Hop; [by apply view_ext|]. unfold sim_unlink in Hop.
    destruct (d =? 1); simpl in Hop; [destruct (sim_names w1 !! l)|]; simplify_eq; by apply view_ext.
  - intros w. split; [by eexists|]. repeat (constructor; [lia|]). constructor.
Defined.

(** ** Runs *)

(** Records whose JSON is the bytes themselves. *)
#[export] Instance bytes_codec : JsonCodec (list byte).
Proof. refine {| to_vec v := Some v; from_slice bytes := Some bytes |}. by intros v bytes [= ->]. Defined.

Definition sim_directory : ValidatedDirectory :=
  {| vd_file := 1;
     vd_identity := {| boot_uuid := 7; dd_dev := 1; dd_ino := 1; statx_mnt_id_unique := 7 |};
     canonical_locator := lit "/d"; vd_policy := Private |}.

Definition sim_empty (faults : list (option errno)) : sim :=
  {| sim_names := ∅; sim_contents := ∅; sim_faults := faults |}.

Example create_then_read :
  let '(r1, w1) := atomic_create_json sim_directory (lit "a.json") [0x31] 4096 (sim_empty []) in
  let '(r2, w2) := read_json (T := list byte) sim_directory (lit "a.json") 4096 w1 in
  (r1, r2) = (Ok (Build_StoredJson [0x31] (sim_file_ident 2)), Ok (Build_StoredJson [0x31] (sim_file_ident 2))).
Proof. vm_compute. reflexivity. Qed.

Example create_twice :
  let '(_, w1) := atomic_create_json sim_directory (lit "a.json") [0x31] 4096 (sim_empty []) in
  fst (atomic_create_json sim_directory (lit "a.json") [0x32] 4096 w1) = Err AlreadyExists.
Proof. vm_compute. reflexivity. Qed.

Example replace_stale :
  let '(_, w1) := atomic_create_json sim_directory (lit "a.json") [0x31] 4096 (sim_empty []) in
  fst (atomic_replace_json sim_directory (lit "a.json") (sim_file_ident 9) [0x32] 4096 w1) = Err Stale.
Proof. vm_compute. reflexivity. Qed.

Example replace_ok :
  let '(_, w1) := atomic_create_json sim_directory (lit "a.json") [0x31] 4096 (sim_empty []) in
  let '(r, w2) := atomic_replace_json sim_directory (lit "a.json") (sim_file_ident 2) [0x32] 4096 w1 in
  (is_ok r, snd <$> stored (view w2) 1 (lit "a.json")) = (true, Some [0x32]).
Proof. vm_compute. reflexivity. Qed.

(** The world with one record, whose [n]-th later call fails. *)
Definition sim_one (n : nat) : sim :=
  {| sim_names := {[ lit "a.json" := 2 ]}; sim_contents := {[ 2 := [0x31] ]};
     sim_faults := replicate n None ++ [Some EOTHER] |}.

Lemma record_writes_atomic_witness :
  let '(r, w') := atomic_replace_json sim_directory (lit "a.json") (sim_file_ident 2) [0x32] 4096
    (sim_one 23) in
  frame (view (sim_one 23)) (view w') (vd_file sim_directory) (lit "a.json") ∧
  write_post (λ id, id = Some (sim_file_ident 2))
    (stored (view (sim_one 23)) (vd_file sim_directory) (lit "a.json"))
    (stored (view w') (vd_file sim_directory) (lit "a.json")) [0x32] r.
Proof.
  destruct (record_writes_atomic sim_directory (lit "a.json") (sim_file_ident 2) [0x32] 4096 (sim_one 23))
    as [_ Hreplace].
  exact (Hreplace eq_refl).
Defined.

Lemma list_leaf_names_recovers_witness :
  let '(r, w') := list_leaf_names (λ _, true) sim_directory (sim_one 99) in
  (∀ d' l, is_transaction_temp_leaf (W := sim) l = false →
    stored (view w') d' l = stored (view (sim_one 99)) d' l) ∧
  ∀ names, r = Ok names → ∀ l, l ≠ lit "." → l ≠ lit ".." → is_transaction_temp_leaf (W := sim) l = false →
    l ∈ names ↔ is_Some (stored (view (sim_one 99)) (vd_file sim_directory) l).
Proof.
  pose proof (list_leaf_names_recovers (λ _, true) sim_directory (sim_one 99)) as Hlist.
  destruct (list_leaf_names _ _ _) as [r w']. exact Hlist.
Defined.

(** Wherever one call fails, the record is the old one or the new one. *)
Example replace_any_single_fault :
  forallb (λ n,
    let '(_, w) := atomic_replace_json sim_directory (lit "a.json") (sim_file_ident 2) [0x32] 4096 (sim_one n) in
    bool_decide (snd <$> stored (view w) 1 (lit "a.json") ∈ [Some [0x31]; Some [0x32]])) (seq 0 60) = true.
Proof. vm_compute. reflexivity. Qed.

(** A temporary that a crash left behind is gone after the next listing. *)
Example list_recovers_temporary :
  let w := {| sim_names := {[ lit "a.json" := 2; utf8 (TRANSACTION_TEMP_PREFIX ++ sim_uuid ++ TRANSACTION_TEMP_SUFFIX) := 3 ]};
              sim_contents := {[ 2 := [0x31]; 3 := [0x32] ]}; sim_faults := [] |} in
  fst (list_leaf_names (λ _, true) sim_directory w) = Ok [lit "a.json"].
Proof. vm_compute. reflexivity. Qed.

(** ** Codecs *)

(** A codec for the values of a table: the JSON text is the position. *)
Definition table_codec {T} `{EqDecision T} (table : list T) : JsonCodec T.
Proof.
  refine {| to_vec v := (λ i, [Z.of_nat i]) <$> position (λ x, bool_decide (x = v)) table;
            from_slice bytes := match bytes with [b] => table !! Z.to_nat b | _ => None end |}.
  intros v bytes (i & ((x & Hx & Heq%bool_decide_eq_true) & _)%position_Some & ->)%fmap_Some.
  by rewrite Nat2Z.id Hx Heq.
Defined.
