(* ===== verification/RunnerProtocol.v ===== *)
(** [src/speculation_runner.rs], the protocol between the daemon and the runner of one
    candidate: identities, control frames and their codec, the order of frames, the runner's
    own base64, and the transfer of the argument vector in chunks.

    The theorems: a validator accepts exactly the conversations of a small regular grammar,
    frame by frame numbered from zero; the two base64 codecs of the program agree; the
    argument vector the daemon sends is the one the runner assembles, and whatever a peer
    sends, an assembled vector is within the bounds. *)
From S2P Require Import Prelude Utf8 Base64 Protocol EvidenceFs.

Definition MAX_CONTROL_FRAME_BYTES : Z := 8 * 1024.
Definition MAX_ARGV_BYTES : Z := 256 * 1024.
Definition MAX_ARG_BYTES : Z := 64 * 1024.
Definition MAX_ARGV_ENTRIES : Z := 256.
Definition MAX_ARGV_CHUNK_BYTES : Z := 4 * 1024.
Definition CONTROL_PROTOCOL : str := lit "lterm-speculation-control-v1".

Inductive RunnerProtocolError : Set :=
  | InvalidIdentity
  | RunnerStaleGeneration
  | InvalidSequence
  | InvalidFrame
  | OversizedFrame
  | InvalidArgv
  | DescriptorViolation
  | RunnerUnsupported
  | RunnerIo.

#[global] Instance RunnerProtocolError_eq_dec : EqDecision RunnerProtocolError.
Proof. solve_decision. Defined.

Abbreviation RunnerResult := (result RunnerProtocolError).

Definition runner_error_code (e : RunnerProtocolError) : str :=
  match e with
  | InvalidIdentity => lit "speculation_control_invalid_identity"
  | RunnerStaleGeneration => lit "speculation_control_stale_generation"
  | InvalidSequence => lit "speculation_control_invalid_sequence"
  | InvalidFrame => lit "speculation_control_invalid_frame"
  | OversizedFrame => lit "speculation_control_oversized_frame"
  | InvalidArgv => lit "speculation_control_invalid_argv"
  | DescriptorViolation => lit "speculation_control_descriptor_violation"
  | RunnerUnsupported => lit "speculation_control_unsupported"
  | RunnerIo => lit "speculation_control_io"
  end.

(** ** Identities and messages *)

Record RunnerIdentity : Set := {
  ri_tournament_uuid : Uuid;
  ri_candidate_index : Z;
  ri_generation : Z;
}.

#[global] Instance RunnerIdentity_eq_dec : EqDecision RunnerIdentity.
Proof. solve_decision. Defined.

Definition RunnerIdentity_validate (i : RunnerIdentity) : RunnerResult unit :=
  bail_if (is_nil (ri_tournament_uuid i) || (2 <=? ri_candidate_index i) || (ri_generation i =? 0))
    InvalidIdentity.

Inductive DecisionKind : Set := Select | Abort.

#[global] Instance DecisionKind_eq_dec : EqDecision DecisionKind.
Proof. solve_decision. Defined.

Inductive RunnerExitCategory : Set :=
  | RExitedZero | RExitedNonzero | RSignaled | RSpawnFailed | ROutputLimitExceeded | REvidenceIncomplete.

#[global] Instance RunnerExitCategory_eq_dec : EqDecision RunnerExitCategory.
Proof. solve_decision. Defined.

Inductive PlacementDescriptorKind : Set := PayloadCgroupProcs | OtherDescriptor.

#[global] Instance PlacementDescriptorKind_eq_dec : EqDecision PlacementDescriptorKind.
Proof. solve_decision. Defined.

Record PlacementDescriptorEvidence : Set := {
  pd_kind : PlacementDescriptorKind;
  file_dev : Z;
  file_ino : Z;
  file_statx_mnt_id_unique : Z;
  payload_dev : Z;
  payload_ino : Z;
  payload_statx_mnt_id_unique : Z;
  pd_candidate_index : Z;
  pd_generation : Z;
}.

#[global] Instance PlacementDescriptorEvidence_eq_dec : EqDecision PlacementDescriptorEvidence.
Proof. solve_decision. Defined.

Definition PlacementDescriptorEvidence_validate (p : PlacementDescriptorEvidence) (i : RunnerIdentity)
    : RunnerResult unit :=
  bail_if (negb (bool_decide (pd_kind p = PayloadCgroupProcs))
           || (file_dev p =? 0)
           || (file_ino p =? 0)
           || (file_statx_mnt_id_unique p =? 0)
           || (payload_dev p =? 0)
           || (payload_ino p =? 0)
           || (payload_statx_mnt_id_unique p =? 0)
           || negb (file_statx_mnt_id_unique p =? payload_statx_mnt_id_unique p)
           || negb (pd_candidate_index p =? ri_candidate_index i)
           || negb (pd_generation p =? ri_generation i)) DescriptorViolation.

Inductive ControlMessage : Set :=
  | MHello
  | MHelloAck
  | MArgvBegin (argument_count total_bytes : Z)
  | MArgvChunk (argument_index offset total : Z) (data : str)
  | MArgvEnd
  | MReady
  | MReadyAck (placement : PlacementDescriptorEvidence)
  | MPayloadFdAck
  | MGo
  | MGoReceived (monotonic_ns : Z)
  | MPayloadPlaced
  | MPayloadRelease
  | MOutputLimitExceeded (bytes : Z)
  | MOutputCleanupClaimed
  | MLeaderExited (category : RunnerExitCategory) (elapsed_ns : Z)
  | MOutputDrained (bytes : Z)
  | MResultAccepted
  | MDecision (decision : DecisionKind)
  | MAck (decision : DecisionKind).

#[global] Instance ControlMessage_eq_dec : EqDecision ControlMessage.
Proof. solve_decision. Defined.

Record ControlFrame : Set := {
  protocol : str;
  cf_identity : RunnerIdentity;
  cf_sequence : Z;
  cf_message : ControlMessage;
}.

#[global] Instance ControlFrame_eq_dec : EqDecision ControlFrame.
Proof. solve_decision. Defined.

Definition ControlFrame_new (identity : RunnerIdentity) (sequence : Z) (message : ControlMessage) : ControlFrame :=
  {| protocol := CONTROL_PROTOCOL; cf_identity := identity; cf_sequence := sequence; cf_message := message |}.

(** ** The order of frames *)

Inductive SequenceState : Set :=
  | SHello | SHelloAck | SArgvBegin | SArgvChunkOrEnd | SReady | SReadyAck | SPayloadFdAck | SGo
  | SGoReceived | SPayloadPlaced | SPayloadRelease | SExecutionEvent | SOutputCleanupClaim
  | SLeaderExited | SOutputDrained | SResultAccepted | SDecision | SAck | SComplete.

#[global] Instance SequenceState_eq_dec : EqDecision SequenceState.
Proof. solve_decision. Defined.

Record SequenceValidator : Set := {
  sv_identity : RunnerIdentity;
  next_sequence : Z;
  sv_state : SequenceState;
}.

Definition SequenceValidator_new (identity : RunnerIdentity) : RunnerResult SequenceValidator :=
  _ ← RunnerIdentity_validate identity;
  Ok {| sv_identity := identity; next_sequence := 0; sv_state := SHello |}.

Definition next_state (identity : RunnerIdentity) (state : SequenceState) (message : ControlMessage)
    : RunnerResult SequenceState :=
  match state, message with
  | SHello, MHello => Ok SHelloAck
  | SHelloAck, MHelloAck => Ok SArgvBegin
  | SArgvBegin, MArgvBegin _ _ => Ok SArgvChunkOrEnd
  | SArgvChunkOrEnd, MArgvChunk _ _ _ _ => Ok SArgvChunkOrEnd
  | SArgvChunkOrEnd, MArgvEnd => Ok SReady
  | SReady, MReady => Ok SReadyAck
  | SReadyAck, MReadyAck placement =>
    _ ← PlacementDescriptorEvidence_validate placement identity;
    Ok SPayloadFdAck
  | SPayloadFdAck, MPayloadFdAck => Ok SGo
  | SGo, MGo => Ok SGoReceived
  | SGoReceived, MGoReceived _ => Ok SPayloadPlaced
  | SPayloadPlaced, MPayloadPlaced => Ok SPayloadRelease
  | SPayloadRelease, MPayloadRelease => Ok SExecutionEvent
  | SExecutionEvent, MOutputLimitExceeded _ => Ok SOutputCleanupClaim
  | SOutputCleanupClaim, MOutputCleanupClaimed => Ok SLeaderExited
  | SExecutionEvent, MLeaderExited _ _ | SLeaderExited, MLeaderExited _ _ => Ok SOutputDrained
  | SOutputDrained, MOutputDrained _ => Ok SResultAccepted
  | SResultAccepted, MResultAccepted => Ok SDecision
  | SDecision, MDecision _ => Ok SAck
  | SAck, MAck _ => Ok SComplete
  | _, _ => Err InvalidSequence
  end.

(** [&mut self]: the error leaves the validator as it was. *)
Definition accept_frame (frame : ControlFrame) : M SequenceValidator RunnerProtocolError unit := λ v,
  match (
    _ ← bail_if (negb (bool_decide (protocol frame = CONTROL_PROTOCOL))
                 || negb (ri_tournament_uuid (cf_identity frame) =? ri_tournament_uuid (sv_identity v)))
          InvalidIdentity;
    _ ← bail_if (negb (ri_candidate_index (cf_identity frame) =? ri_candidate_index (sv_identity v))
                 || negb (ri_generation (cf_identity frame) =? ri_generation (sv_identity v)))
          RunnerStaleGeneration;
    _ ← bail_if (negb (cf_sequence frame =? next_sequence v)) InvalidSequence;
    next ← next_state (sv_identity v) (sv_state v) (cf_message frame);
    sequence ← ok_or (checked_add u32_max (next_sequence v) 1) InvalidSequence;
    Ok {| sv_identity := sv_identity v; next_sequence := sequence; sv_state := next |}) with
  | Ok v => (Ok tt, v)
  | Err e => (Err e, v)
  end.

Definition is_complete (v : SequenceValidator) : bool := bool_decide (sv_state v = SComplete).

(** ** The codec of frames *)

Section frame_codec.
Context `{JsonCodec ControlFrame}.

Definition encode_frame (frame : ControlFrame) : RunnerResult (list byte) :=
  bytes ← ok_or (to_vec frame) InvalidFrame;
  _ ← bail_if ((length bytes =? 0)%nat || (zlen bytes >? MAX_CONTROL_FRAME_BYTES)) OversizedFrame;
  Ok bytes.

Definition decode_frame (bytes : list byte) : RunnerResult ControlFrame :=
  _ ← bail_if ((length bytes =? 0)%nat || (zlen bytes >? MAX_CONTROL_FRAME_BYTES)) OversizedFrame;
  frame ← ok_or (from_slice bytes) InvalidFrame;
  _ ← RunnerIdentity_validate (cf_identity frame);
  _ ← bail_if (negb (bool_decide (protocol frame = CONTROL_PROTOCOL))) InvalidFrame;
  Ok frame.
End frame_codec.

(** ** Base64 *)

Definition TABLE : list byte := lit "ABCDEFGHIJKLMNOPQRSTUVWXYZabcdefghijklmnopqrstuvwxyz0123456789+/".

Definition runner_encode_chunk (chunk : list byte) : str :=
  let first := chunk !!! 0%nat in
  let second := default 0 (chunk !! 1%nat) in
  let third := default 0 (chunk !! 2%nat) in
  [TABLE !!! Z.to_nat (Z.shiftr first 2);
   TABLE !!! Z.to_nat (Z.lor (Z.shiftl (Z.land first 0x03) 4) (Z.shiftr second 4));
   if (1 <? length chunk)%nat
   then TABLE !!! Z.to_nat (Z.lor (Z.shiftl (Z.land second 0x0f) 2) (Z.shiftr third 6)) else 0x3d;
   if (2 <? length chunk)%nat then TABLE !!! Z.to_nat (Z.land third 0x3f) else 0x3d].

(** [data.chunks(n)]. *)
Fixpoint chunks_fuel {A} (fuel : nat) (n : nat) (data : list A) : list (list A) :=
  match fuel, data with
  | S fuel, _ :: _ => take n data :: chunks_fuel fuel n (drop n data)
  | _, _ => []
  end.
Definition chunks {A} (n : nat) (data : list A) : list (list A) := chunks_fuel (length data) n data.

Definition runner_encode_base64 (data : list byte) : str := concat (runner_encode_chunk <$> chunks 3 data).

Definition decode_base64_digit (byte : Z) : RunnerResult Z :=
  if within 0x41 0x5a byte then Ok (byte - 0x41)
  else if within 0x61 0x7a byte then Ok (byte - 0x61 + 26)
  else if within 0x30 0x39 byte then Ok (byte - 0x30 + 52)
  else if byte =? 0x2b then Ok 62
  else if byte =? 0x2f then Ok 63
  else Err InvalidArgv.

(** A digit or the padding character. *)
Definition decode_optional_digit (byte : Z) : RunnerResult (option Z) :=
  if byte =? 0x3d then Ok None else Some <$> decode_base64_digit byte.

(** The body of the loop over [bytes.chunks_exact(4)]. *)
Definition decode_quartet (last : bool) (chunk : list byte) : RunnerResult (list byte) :=
  a ← decode_base64_digit (chunk !!! 0%nat);
  b ← decode_base64_digit (chunk !!! 1%nat);
  c ← decode_optional_digit (chunk !!! 2%nat);
  d ← decode_optional_digit (chunk !!! 3%nat);
  _ ← bail_if (negb last && (negb (is_some c) || negb (is_some d)) || negb (is_some c) && is_some d) InvalidArgv;
  let first := Z.lor (shl_u8 a 2) (Z.shiftr b 4) in
  match c with
  | Some c =>
    _ ← bail_if (negb (is_some d) && negb (Z.land c 0x03 =? 0)) InvalidArgv;
    let second := Z.lor (shl_u8 b 4) (Z.shiftr c 2) in
    match d with
    | Some d => Ok [first; second; Z.lor (shl_u8 c 6) d]
    | None => Ok [first; second]
    end
  | None =>
    _ ← bail_if (negb (Z.land b 0x0f =? 0)) InvalidArgv;
    Ok [first]
  end.

Fixpoint decode_quartets (bytes : list byte) (decoded : list byte) : RunnerResult (list byte) :=
  match bytes with
  | b0 :: b1 :: b2 :: b3 :: rest =>
    out ← decode_quartet (match rest with [] => true | _ => false end) [b0; b1; b2; b3];
    decode_quartets rest (decoded ++ out)
  | _ => Ok decoded
  end.

Definition decode_canonical_base64 (value : str) : RunnerResult (list byte) :=
  _ ← bail_if (negb (is_ascii value) || (length value =? 0)%nat || negb (str_len value mod 4 =? 0)) InvalidArgv;
  decoded ← decode_quartets value [];
  _ ← bail_if (negb (bool_decide (runner_encode_base64 decoded = value))) InvalidArgv;
  Ok decoded.

(** ** The argument vector *)

Record ArgvAssembler : Set := {
  expected_count : Z;
  expected_total : Z;
  aa_arguments : list (list byte);
  current_index : Z;
  received_total : Z;
}.

Definition ArgvAssembler_begin (argument_count total_bytes : Z) : RunnerResult ArgvAssembler :=
  _ ← bail_if ((argument_count =? 0) || (argument_count >? MAX_ARGV_ENTRIES) || (total_bytes >? MAX_ARGV_BYTES))
        InvalidArgv;
  Ok {| expected_count := argument_count; expected_total := total_bytes;
        aa_arguments := replicate (Z.to_nat argument_count) []; current_index := 0; received_total := 0 |}.

(** [a.checked_add(b) > Some(bound)]: an overflow is [None], which is less than any [Some]. *)
Definition sum_exceeds (a b bound : Z) : bool :=
  match checked_add usize_max a b with Some sum => sum >? bound | None => false end.

Definition push_chunk (argument_index offset total : Z) (data : str) : M ArgvAssembler RunnerProtocolError unit := λ s,
  let argument := aa_arguments s !!! Z.to_nat argument_index in
  match (
    _ ← bail_if (negb (argument_index =? current_index s) || (expected_count s <=? argument_index)
                 || (total >? MAX_ARG_BYTES) || negb (offset =? zlen argument)) InvalidArgv;
    decoded ← decode_canonical_base64 data;
    _ ← bail_if ((length decoded =? 0)%nat || (zlen decoded >? MAX_ARGV_CHUNK_BYTES) || existsb (Z.eqb 0) decoded
                 || sum_exceeds offset (zlen decoded) total
                 || sum_exceeds (received_total s) (zlen decoded) (expected_total s)) InvalidArgv;
    Ok decoded) with
  | Err e => (Err e, s)
  | Ok decoded =>
    let argument := argument ++ decoded in
    (Ok tt, {| expected_count := expected_count s; expected_total := expected_total s;
               aa_arguments := <[Z.to_nat argument_index := argument]> (aa_arguments s);
               current_index := if zlen argument =? total then current_index s + 1 else current_index s;
               received_total := received_total s + zlen decoded |})
  end.

Definition ArgvAssembler_finish (s : ArgvAssembler) : RunnerResult (list (list byte)) :=
  _ ← bail_if (negb (current_index s =? expected_count s) || negb (received_total s =? expected_total s)
               || existsb (λ a, (length a =? 0)%nat) (aa_arguments s)) InvalidArgv;
  Ok (aa_arguments s).

(** One round of the [try_fold] over the arguments. *)
Definition add_argument (total : Z) (argument : list byte) : RunnerResult Z :=
  _ ← bail_if ((length argument =? 0)%nat || (zlen argument >? MAX_ARG_BYTES) || existsb (Z.eqb 0) argument) InvalidArgv;
  match checked_add usize_max total (zlen argument) with
  | Some value => if value <=? MAX_ARGV_BYTES then Ok value else Err InvalidArgv
  | None => Err InvalidArgv
  end.

Fixpoint total_bytes_of (arguments : list (list byte)) (total : Z) : RunnerResult Z :=
  match arguments with
  | [] => Ok total
  | argument :: arguments => total ← add_argument total argument; total_bytes_of arguments total
  end.

(** [try_into().map_err(..)] to an unsigned type. *)
Definition try_into (max x : Z) : RunnerResult Z := if x <=? max then Ok x else Err InvalidArgv.

Definition next_number (sequence : Z) : RunnerResult Z := ok_or (checked_add u32_max sequence 1) InvalidSequence.

Fixpoint chunk_frames (identity : RunnerIdentity) (index total chunk_index : Z) (chunks : list (list byte)) (sequence : Z)
    : RunnerResult (list ControlFrame * Z) :=
  match chunks with
  | [] => Ok ([], sequence)
  | chunk :: chunks =>
    argument_index ← try_into u16_max index;
    offset ← try_into u32_max (chunk_index * MAX_ARGV_CHUNK_BYTES);
    total' ← try_into u32_max total;
    let frame := ControlFrame_new identity sequence (MArgvChunk argument_index offset total' (runner_encode_base64 chunk)) in
    sequence ← next_number sequence;
    '(frames, sequence) ← chunk_frames identity index total (chunk_index + 1) chunks sequence;
    Ok (frame :: frames, sequence)
  end.

(** The chunk size as a length. *)
Definition chunk_len : nat := Z.to_nat MAX_ARGV_CHUNK_BYTES.

Fixpoint argument_frames (identity : RunnerIdentity) (index : Z) (arguments : list (list byte)) (sequence : Z)
    : RunnerResult (list ControlFrame * Z) :=
  match arguments with
  | [] => Ok ([], sequence)
  | argument :: arguments =>
    '(frames, sequence) ← chunk_frames identity index (zlen argument) 0
                            (chunks chunk_len argument) sequence;
    '(rest, sequence) ← argument_frames identity (index + 1) arguments sequence;
    Ok (frames ++ rest, sequence)
  end.

Fixpoint encode_all `{JsonCodec ControlFrame} (frames : list ControlFrame) : RunnerResult unit :=
  match frames with
  | [] => Ok tt
  | frame :: frames => _ ← encode_frame frame; encode_all frames
  end.

Definition argv_frames `{JsonCodec ControlFrame} (identity : RunnerIdentity) (starting_sequence : Z)
    (arguments : list (list byte)) : RunnerResult (list ControlFrame) :=
  _ ← bail_if ((length arguments =? 0)%nat || (zlen arguments >? MAX_ARGV_ENTRIES)) InvalidArgv;
  total ← total_bytes_of arguments 0;
  argument_count ← try_into u16_max (zlen arguments);
  total_bytes ← try_into u32_max total;
  let begin := ControlFrame_new identity starting_sequence (MArgvBegin argument_count total_bytes) in
  sequence ← next_number starting_sequence;
  '(frames, sequence) ← argument_frames identity 0 arguments sequence;
  let frames := begin :: frames ++ [ControlFrame_new identity sequence MArgvEnd] in
  _ ← encode_all frames;
  Ok frames.

(** ** The two base64 codecs *)

Lemma chunks_fuel_enough {A} n fuel (l : list A) :
  (0 < n)%nat → (length l ≤ fuel)%nat → chunks_fuel fuel n l = chunks n l.
Proof.
  intros Hn. unfold chunks. revert l. induction fuel as [fuel IH] using lt_wf_ind. intros l Hl.
  destruct l as [|x l]; [by destruct fuel|]. destruct fuel as [|fuel]; simpl in Hl; [lia|].
  cbn [chunks_fuel length]. f_equal. assert (length (drop n (x :: l)) ≤ length l)%nat as Hd.
  { rewrite length_drop. simpl. lia. }
  rewrite (IH fuel) //; [|lia|lia]. destruct (decide (fuel = length l)) as [->|]; [by rewrite IH //; lia|].
  symmetry. apply IH; [lia|done].
Qed.

Lemma chunks_cons {A} n (l : list A) : (0 < n)%nat → l ≠ [] → chunks n l = take n l :: chunks n (drop n l).
Proof.
  intros Hn Hl. destruct l as [|x l]; [done|]. unfold chunks at 1. cbn [length chunks_fuel]. f_equal.
  apply chunks_fuel_enough; [done|]. rewrite length_drop. simpl. lia.
Qed.

Lemma runner_encode_eq data : runner_encode_base64 data = encode_base64 data.
Proof.
  unfold runner_encode_base64. induction data as [|b0|b0 b1|b0 b1 b2 rest IH] using chunks_ind; [done|done|done|].
  rewrite chunks_cons //; [|lia]. cbn [drop take fmap list_fmap concat]. by rewrite IH.
Qed.

Lemma decode_digit_char s : sextet s → decode_base64_digit (base64_char s) = Ok s.
Proof.
  intros Hs. pose proof (forall_below 64 (λ s, bool_decide (decode_base64_digit (base64_char s) = Ok s)) eq_refl s Hs) as H.
  by apply bool_decide_eq_true in H.
Qed.

Lemma decode_digit_sextet c s : decode_base64_digit c = Ok s → sextet s.
Proof. unfold decode_base64_digit, within, sextet. repeat case_match; intros [= <-]; inv_ok; lia. Qed.

Lemma decode_optional_char s : sextet s → decode_optional_digit (base64_char s) = Ok (Some s).
Proof.
  intros Hs. unfold decode_optional_digit. destruct (base64_char_ok s Hs) as (_ & Hne & _).
  rewrite (proj2 (Z.eqb_neq _ _) Hne) decode_digit_char //.
Qed.

Lemma decode_optional_sextet c s : decode_optional_digit c = Ok (Some s) → sextet s.
Proof.
  unfold decode_optional_digit. destruct (c =? 0x3d); [done|].
  destruct (decode_base64_digit c) eqn:E; [|done]. intros [= <-]. by eapply decode_digit_sextet.
Qed.

(** The bytes a quartet of sextets stands for. *)
Lemma quartet_bytes s0 s1 s2 s3 :
  sextet s0 → sextet s1 → sextet s2 → sextet s3 →
  [Z.lor (shl_u8 s0 2) (Z.shiftr s1 4); Z.lor (shl_u8 s1 4) (Z.shiftr s2 2); Z.lor (shl_u8 s2 6) s3]
  = bytes_of s0 s1 s2 s3.
Proof.
  unfold sextet, bytes_of. intros H0 H1 H2 H3. rewrite !Z.shiftr_div_pow2; [|lia..].
  change (2 ^ 4) with 16. change (2 ^ 2) with 4.
  rewrite (shl_or s0 (s1 / 16) 2) ?(shl_or s1 (s2 / 4) 4) ?(shl_or s2 s3 6); [|dlia..].
  change (2 ^ (8 - 2)) with 64. rewrite (Z.mod_small s0); [|lia]. done.
Qed.

Lemma quartet_two s0 s1 : sextet s0 → sextet s1 →
  [Z.lor (shl_u8 s0 2) (Z.shiftr s1 4)] = take 1 (bytes_of s0 s1 0 0).
Proof. intros H0 H1. rewrite -(quartet_bytes s0 s1 0 0) //; unfold sextet; lia. Qed.

Lemma quartet_three s0 s1 s2 : sextet s0 → sextet s1 → sextet s2 →
  [Z.lor (shl_u8 s0 2) (Z.shiftr s1 4); Z.lor (shl_u8 s1 4) (Z.shiftr s2 2)] = take 2 (bytes_of s0 s1 s2 0).
Proof. intros H0 H1 H2. rewrite -(quartet_bytes s0 s1 s2 0) //; unfold sextet; lia. Qed.

Lemma decode_quartet_u8s last chunk out : decode_quartet last chunk = Ok out → u8s out.
Proof.
  unfold decode_quartet. intros H. inv_ok.
  repeat match goal with
  | H : decode_base64_digit _ = Ok _ |- _ => apply decode_digit_sextet in H
  | H : (if _ then _ else _) = Ok _ |- _ => idtac
  end.
  match goal with H : match ?c with Some _ => _ | None => _ end = Ok out |- _ => destruct c as [c|] end; inv_ok;
    [match goal with H : match ?d with Some _ => _ | None => _ end = Ok out |- _ => destruct d as [d|] end|];
    repeat match goal with H : decode_optional_digit _ = Ok (Some _) |- _ => apply decode_optional_sextet in H end;
    match goal with H : Ok _ = Ok out |- _ => injection H as <- end.
  - rewrite quartet_bytes //. by apply bytes_of_ok.
  - rewrite quartet_three //. apply Forall_take, bytes_of_ok; done.
  - rewrite quartet_two //. apply Forall_take, bytes_of_ok; done.
Qed.

Lemma decode_quartets_u8s bytes decoded data :
  u8s decoded → decode_quartets bytes decoded = Ok data → u8s data.
Proof.
  revert decoded. induction bytes as [bytes IH] using list_len_ind. intros decoded Hd H.
  destruct bytes as [|b0 [|b1 [|b2 [|b3 rest]]]]; try by injection H as <-.
  cbn [decode_quartets] in H. apply bind_Ok in H as (out & Hout & H).
  eapply (IH rest); [simpl; lia| |exact H]. apply Forall_app_2; [done|]. by eapply decode_quartet_u8s.
Qed.

Lemma decode_quartet_chars s0 s1 s2 s3 last :
  sextet s0 → sextet s1 → sextet s2 → sextet s3 →
  decode_quartet last (base64_char <$> [s0; s1; s2; s3]) = Ok (bytes_of s0 s1 s2 s3).
Proof.
  intros H0 H1 H2 H3. unfold decode_quartet.
  cbn [fmap list_fmap lookup_total list_lookup_total].
  rewrite !decode_digit_char // !decode_optional_char //. cbn [mbind result_bind is_some negb orb andb].
  rewrite andb_false_r. cbn [bail_if mbind result_bind]. by rewrite quartet_bytes.
Qed.

Lemma decode_quartet_three s0 s1 s2 :
  sextet s0 → sextet s1 → sextet s2 → Z.land s2 3 = 0 →
  decode_quartet true ((base64_char <$> [s0; s1; s2]) ++ [0x3d]) = Ok (take 2 (bytes_of s0 s1 s2 0)).
Proof.
  intros H0 H1 H2 Hz. unfold decode_quartet. cbn [fmap list_fmap app lookup_total list_lookup_total].
  rewrite !decode_digit_char // decode_optional_char //. cbn [mbind result_bind].
  change (decode_optional_digit 0x3d) with (Ok (E:=RunnerProtocolError) (@None Z)).
  cbn [mbind result_bind is_some negb orb andb bail_if]. rewrite Hz. cbn [Z.eqb negb bail_if mbind result_bind].
  by rewrite quartet_three.
Qed.

Lemma decode_quartet_two s0 s1 :
  sextet s0 → sextet s1 → Z.land s1 15 = 0 →
  decode_quartet true ((base64_char <$> [s0; s1]) ++ [0x3d; 0x3d]) = Ok (take 1 (bytes_of s0 s1 0 0)).
Proof.
  intros H0 H1 Hz. unfold decode_quartet. cbn [fmap list_fmap app lookup_total list_lookup_total].
  rewrite !decode_digit_char //.
  change (decode_optional_digit 0x3d) with (Ok (E:=RunnerProtocolError) (@None Z)).
  cbn [mbind result_bind is_some negb orb andb bail_if]. rewrite Hz. cbn [Z.eqb negb bail_if mbind result_bind].
  by rewrite quartet_two.
Qed.

Lemma decode_quartets_encode data decoded :
  u8s data → decode_quartets (encode_base64 data) decoded = Ok (decoded ++ data).
Proof.
  revert decoded. induction data as [|b0|b0 b1|b0 b1 b2 rest IH] using chunks_ind; intros decoded H.
  - by rewrite app_nil_r.
  - cbn [encode_base64]. rewrite encode_chunk_1 //. pose proof (sextets_of_ok b0 0 0 (proj1 (u8s_pad b0 0 H))) as Hs.
    do 3 apply Forall_cons in Hs as [? Hs].
    change (decode_quartets _ decoded) with
      (out ← decode_quartet true ((base64_char <$> take 2 (sextets_of b0 0 0)) ++ [61; 61]); Ok (E:=RunnerProtocolError) (decoded ++ out)).
    cbn [take sextets_of]. apply Forall_cons in H as [? _].
    rewrite decode_quartet_two //; [|change 15 with (2 ^ 4 - 1); rewrite land_mod; dlia].
    cbn [mbind result_bind]. repeat f_equal. unfold bytes_of. cbn [take]. f_equal. dlia.
  - cbn [encode_base64]. rewrite encode_chunk_2 //.
    apply Forall_cons in H as [? H]. apply Forall_cons in H as [? _].
    assert (u8s [b0; b1; 0]) as Hu by (repeat constructor; lia). pose proof (sextets_of_ok b0 b1 0 Hu) as Hs.
    do 3 apply Forall_cons in Hs as [? Hs].
    change (decode_quartets _ decoded) with
      (out ← decode_quartet true ((base64_char <$> take 3 (sextets_of b0 b1 0)) ++ [61]); Ok (E:=RunnerProtocolError) (decoded ++ out)).
    cbn [take sextets_of].
    rewrite decode_quartet_three //; [|change 3 with (2 ^ 2 - 1); rewrite land_mod; dlia].
    cbn [mbind result_bind]. do 2 f_equal. unfold bytes_of. cbn [take]. f_equal; [dlia|]. f_equal. dlia.
  - change (u8s ([b0; b1; b2] ++ rest)) in H. apply Forall_app in H as [H3 H].
    cbn [encode_base64]. rewrite encode_chunk_3 //. pose proof (sextets_of_ok b0 b1 b2 H3) as Hs.
    do 4 apply Forall_cons in Hs as [? Hs].
    unfold sextets_of. cbn [fmap list_fmap app decode_quartets].
    pose proof (decode_quartet_chars (b0 / 4) (b0 mod 4 * 16 + b1 / 16) (b1 mod 16 * 4 + b2 / 64) (b2 mod 64)
      (match encode_base64 rest with [] => true | _ => false end)) as Hq.
    cbn [fmap list_fmap] in Hq. rewrite Hq //. cbn [mbind result_bind]. rewrite bytes_of_sextets // IH //.
    by rewrite -app_assoc.
Qed.

Lemma decode_canonical_base64_spec value data :
  decode_canonical_base64 value = Ok data ↔ value = encode_base64 data ∧ u8s data ∧ data ≠ [].
Proof.
  unfold decode_canonical_base64. split.
  - intros H. inv_ok.
    repeat match goal with H : Ok _ = Ok _ |- _ => injection H as <- end. simplify_eq.
    match goal with H : decode_quartets _ _ = Ok ?d |- _ => apply decode_quartets_u8s in H as Hu end; [|constructor].
    split_and!; [apply runner_encode_eq|done|]. intros ->. done.
  - intros (-> & Hu & Hne). rewrite is_ascii_encode // str_len_ascii ?is_ascii_encode // length_encode_base64 //.
    rewrite Z.mod_mul // (_ : (length (encode_base64 data) =? 0)%nat = false).
    2: { apply Nat.eqb_neq. intros Hl. pose proof (length_encode_base64 data Hu) as Hl'. rewrite Hl in Hl'.
         destruct data; [done|]. unfold div_ceil in Hl'. cbn [length] in Hl'. dlia. }
    cbn [negb orb bail_if mbind result_bind Z.eqb]. rewrite decode_quartets_encode //. cbn [mbind result_bind app].
    rewrite runner_encode_eq bool_decide_true //.
Qed.

(** The two base64 codecs of the program, written separately, agree: the runner encodes
    as the wire does, and decodes exactly the encodings of non-empty byte strings. *)
Theorem base64_codecs_agree value data :
  runner_encode_base64 data = encode_base64 data ∧
  (decode_canonical_base64 value = Ok data ↔ value = encode_base64 data ∧ u8s data ∧ data ≠ []).
Proof. split; [apply runner_encode_eq|apply decode_canonical_base64_spec]. Qed.

(** ** The transfer of the argument vector *)

Definition argument_valid (a : list byte) : Prop := 1 ≤ zlen a ≤ MAX_ARG_BYTES ∧ 0 ∉ a ∧ u8s a.

(** The vectors the runner may be given. *)
Definition argv_valid (arguments : list (list byte)) : Prop :=
  1 ≤ zlen arguments ≤ MAX_ARGV_ENTRIES ∧ Forall argument_valid arguments ∧ zlen (concat arguments) ≤ MAX_ARGV_BYTES.

Lemma zlen_pos {A} (l : list A) : (length l =? 0)%nat = false ↔ 1 ≤ zlen l.
Proof. rewrite Nat.eqb_neq. lia. Qed.

Lemma add_argument_Ok total a total' :
  0 ≤ total ≤ MAX_ARGV_BYTES →
  add_argument total a = Ok total' ↔
  1 ≤ zlen a ≤ MAX_ARG_BYTES ∧ 0 ∉ a ∧ total' = total + zlen a ∧ total' ≤ MAX_ARGV_BYTES.
Proof.
  intros Ht. unfold add_argument, checked_add. split.
  - intros H. inv_ok. rewrite -> zlen_pos, existsb_nul_false in *.
    case_bool_decide; [|done]. destruct (Z.leb_spec (total + zlen a) MAX_ARGV_BYTES); [|done].
    match goal with H : Ok _ = Ok _ |- _ => injection H as <- end. split_and!; lia || done.
  - intros (Ha & Hn & -> & Hm). rewrite (proj2 (zlen_pos a)); [|lia].
    rewrite (proj2 (existsb_nul_false a)) // (_ : zlen a >? MAX_ARG_BYTES = false); [|lia].
    cbn [orb bail_if mbind result_bind]. rewrite bool_decide_true; [|unfold MAX_ARGV_BYTES, usize_max, u64_max in *; lia].
    by rewrite (proj2 (Z.leb_le _ _) Hm).
Qed.

Lemma total_bytes_of_Ok arguments total r :
  Forall u8s arguments → 0 ≤ total ≤ MAX_ARGV_BYTES →
  total_bytes_of arguments total = Ok r ↔
  Forall argument_valid arguments ∧ r = total + zlen (concat arguments) ∧ r ≤ MAX_ARGV_BYTES.
Proof.
  intros Hu. revert total. induction Hu as [|a arguments Ha _ IH]; intros total Ht; cbn [total_bytes_of concat].
  - split; [intros [= <-]; split_and!; [constructor|simpl; lia|lia]|]. intros (_ & -> & _). f_equal. simpl. lia.
  - rewrite bind_Ok length_app Forall_cons. split.
    + intros (t & Hadd & Hr). apply add_argument_Ok in Hadd as (Hl & Hn & -> & Hm); [|done].
      apply IH in Hr as (Hf & -> & Hm'); [|lia]. split_and!; [by split|done|lia|lia].
    + intros ([(Hl & Hn & _) Hf] & -> & Hm). exists (total + zlen a). split.
      * apply add_argument_Ok; [done|]. split_and!; try done; lia.
      * apply IH; [lia|]. split_and!; [done|lia|lia].
Qed.

(** The assembler when the arguments before the [k]th are complete and [part] of it is there. *)
Definition arguments_at (arguments : list (list byte)) (k : nat) (part : list byte) : list (list byte) :=
  <[k := part]> (take k arguments ++ replicate (length arguments - k) []).

Definition assembler_at (arguments : list (list byte)) (k : nat) (part : list byte) : ArgvAssembler :=
  {| expected_count := zlen arguments; expected_total := zlen (concat arguments);
     aa_arguments := arguments_at arguments k part; current_index := Z.of_nat k;
     received_total := zlen (concat (take k arguments)) + zlen part |}.

Lemma arguments_at_nil arguments k :
  (k ≤ length arguments)%nat → arguments_at arguments k [] = take k arguments ++ replicate (length arguments - k) [].
Proof.
  intros Hk. unfold arguments_at. destruct (length arguments - k)%nat as [|n] eqn:E.
  - apply list_insert_ge. rewrite length_app length_take length_replicate. lia.
  - apply list_insert_id. rewrite lookup_app_r length_take; [|lia].
    by rewrite (_ : (k - k `min` length arguments)%nat = 0%nat); [|lia].
Qed.

Lemma arguments_at_full arguments k a :
  arguments !! k = Some a → arguments_at arguments k a = arguments_at arguments (S k) [].
Proof.
  intros Ha. assert (k < length arguments)%nat as Hk by by eapply lookup_lt_Some.
  rewrite (arguments_at_nil _ (S k)); [|lia]. unfold arguments_at.
  rewrite insert_app_r_alt length_take; [|lia]. rewrite (_ : (k - k `min` length arguments)%nat = 0%nat); [|lia].
  rewrite (_ : (length arguments - k)%nat = S (length arguments - S k)); [|lia].
  cbn [replicate insert list_insert]. rewrite (take_S_r _ _ a) //. by rewrite -app_assoc.
Qed.

Lemma arguments_at_lookup arguments k part :
  (k < length arguments)%nat → arguments_at arguments k part !!! k = part.
Proof.
  intros Hk. unfold arguments_at. apply list_lookup_total_insert_eq.
  rewrite length_app length_take length_replicate. lia.
Qed.

Lemma concat_take_lookup (arguments : list (list byte)) k a :
  arguments !! k = Some a → zlen (concat (take (S k) arguments)) = zlen (concat (take k arguments)) + zlen a.
Proof.
  intros Ha. rewrite (take_S_r _ _ a) // concat_app length_app. cbn [concat]. rewrite app_nil_r. lia.
Qed.

Lemma concat_take_le (arguments : list (list byte)) k : zlen (concat (take k arguments)) ≤ zlen (concat arguments).
Proof. rewrite -{2}(take_drop k arguments) concat_app length_app. lia. Qed.

Lemma push_chunk_step arguments k a part chunk rest :
  argv_valid arguments → arguments !! k = Some a → a = part ++ chunk ++ rest →
  1 ≤ zlen chunk ≤ MAX_ARGV_CHUNK_BYTES →
  push_chunk (Z.of_nat k) (zlen part) (zlen a) (runner_encode_base64 chunk) (assembler_at arguments k part) =
  (Ok tt, if (length rest =? 0)%nat then assembler_at arguments (S k) []
          else assembler_at arguments k (part ++ chunk)).
Proof.
  intros (Hcount & Hargs & Htotal) Hk Ha Hchunk.
  assert (k < length arguments)%nat as Hlt by by eapply lookup_lt_Some.
  assert (argument_valid a) as (Hal & Hnul & Hu8) by (eapply Forall_lookup_1; [exact Hargs|exact Hk]).
  pose proof (concat_take_lookup arguments k a Hk) as Hsum. pose proof (concat_take_le arguments (S k)) as Hle.
  assert (zlen a = zlen part + zlen chunk + zlen rest) as Hlen by (rewrite Ha !length_app; lia).
  assert (decode_canonical_base64 (runner_encode_base64 chunk) = Ok chunk) as Hdec.
  { apply decode_canonical_base64_spec. split_and!; [apply runner_encode_eq| |intros ->; simpl in Hchunk; lia].
    rewrite Ha in Hu8. by apply Forall_app in Hu8 as [_ [? _]%Forall_app]. }
  assert (existsb (Z.eqb 0) chunk = false) as Hnz.
  { apply existsb_nul_false. intros Hin. apply Hnul. rewrite Ha. apply elem_of_app. right. apply elem_of_app. by left. }
  set (s := assembler_at arguments k part).
  assert (aa_arguments s !!! Z.to_nat (Z.of_nat k) = part) as Harg.
  { rewrite Nat2Z.id. by apply arguments_at_lookup. }
  unfold push_chunk. rewrite Harg Hdec. cbn [mbind result_bind]. rewrite Hnz.
  rewrite (_ : bail_if (negb (Z.of_nat k =? current_index s) || (expected_count s <=? Z.of_nat k) || _ || _) _ = Ok ()).
  2: { apply bail_if_Ok. cbn [current_index expected_count s assembler_at].
       repeat (apply orb_false; split); unfold MAX_ARG_BYTES in *; lia. }
  cbn [mbind result_bind]. rewrite (_ : bail_if _ _ = Ok ()).
  2: { apply bail_if_Ok. unfold sum_exceeds, checked_add. cbn [received_total expected_total s assembler_at].
       unfold MAX_ARG_BYTES, MAX_ARGV_BYTES, MAX_ARGV_CHUNK_BYTES, usize_max, u64_max in *.
       rewrite !bool_decide_true; [|lia..]. rewrite (proj2 (zlen_pos chunk)); [|lia]. cbn [orb].
       rewrite !orb_false. split_and!; lia. }
  cbn [mbind result_bind]. f_equal. rewrite length_app Nat2Z.inj_add Nat2Z.id.
  cbn [expected_count expected_total aa_arguments current_index received_total s assembler_at].
  unfold arguments_at. rewrite list_insert_insert_eq. fold (arguments_at arguments k (part ++ chunk)).
  destruct rest as [|r rest]; cbn [length Nat.eqb] in *.
  - rewrite (proj2 (Z.eqb_eq _ _)); [|lia]. rewrite app_nil_r in Ha. unfold assembler_at. f_equal; [|lia|simpl; lia].
    rewrite -Ha. by apply arguments_at_full.
  - rewrite (proj2 (Z.eqb_neq _ _)); [|lia]. unfold assembler_at. f_equal. rewrite length_app. lia.
Qed.

(** ** The frames of a transfer *)

(** Frames numbered from [sequence]. *)
Fixpoint number (identity : RunnerIdentity) (sequence : Z) (messages : list ControlMessage) : list ControlFrame :=
  match messages with
  | [] => []
  | m :: messages => ControlFrame_new identity sequence m :: number identity (sequence + 1) messages
  end.

Lemma number_app identity sequence ms1 ms2 :
  number identity sequence (ms1 ++ ms2) = number identity sequence ms1 ++ number identity (sequence + zlen ms1) ms2.
Proof.
  revert sequence. induction ms1 as [|m ms1 IH]; intros sequence; cbn [number app length].
  - by rewrite Z.add_0_r.
  - rewrite IH. do 3 f_equal. lia.
Qed.

(** The messages of [chunk_frames] and [argument_frames]. *)
Fixpoint chunk_messages (index total chunk_index : Z) (chunks : list (list byte)) : list ControlMessage :=
  match chunks with
  | [] => []
  | chunk :: chunks =>
    MArgvChunk index (chunk_index * MAX_ARGV_CHUNK_BYTES) total (runner_encode_base64 chunk)
      :: chunk_messages index total (chunk_index + 1) chunks
  end.

Definition argument_chunks (a : list byte) : list (list byte) := chunks chunk_len a.

Lemma chunk_len_eq : Z.of_nat chunk_len = MAX_ARGV_CHUNK_BYTES.
Proof. unfold chunk_len, MAX_ARGV_CHUNK_BYTES. lia. Qed.

#[local] Opaque chunk_len.

Lemma argument_chunks_cons a :
  a ≠ [] → argument_chunks a = take chunk_len a :: argument_chunks (drop chunk_len a).
Proof. apply chunks_cons. pose proof chunk_len_eq. unfold MAX_ARGV_CHUNK_BYTES in *. lia. Qed.

Fixpoint argument_messages (index : Z) (arguments : list (list byte)) : list ControlMessage :=
  match arguments with
  | [] => []
  | a :: arguments => chunk_messages index (zlen a) 0 (argument_chunks a) ++ argument_messages (index + 1) arguments
  end.

Definition argv_messages (arguments : list (list byte)) : list ControlMessage :=
  MArgvBegin (zlen arguments) (zlen (concat arguments)) :: argument_messages 0 arguments ++ [MArgvEnd].

Lemma length_chunk_messages index total ci cs : length (chunk_messages index total ci cs) = length cs.
Proof. revert ci. induction cs as [|c cs IH]; intros ci; simpl; [done|]. by rewrite IH. Qed.

Lemma next_number_Ok n : n + 1 ≤ u32_max → next_number n = Ok (n + 1).
Proof. intros Hn. unfold next_number, checked_add. by rewrite bool_decide_true. Qed.

Lemma chunk_frames_eq identity index total ci cs sequence :
  index ≤ u16_max → total ≤ u32_max → (ci + zlen cs) * MAX_ARGV_CHUNK_BYTES ≤ u32_max →
  sequence + zlen cs ≤ u32_max →
  chunk_frames identity index total ci cs sequence =
  Ok (number identity sequence (chunk_messages index total ci cs), sequence + zlen cs).
Proof.
  intros Hi Ht. revert ci sequence. induction cs as [|c cs IH]; intros ci sequence Hc Hs; cbn [chunk_frames].
  - by rewrite Z.add_0_r.
  - cbn [length] in *. unfold try_into. rewrite (proj2 (Z.leb_le index _)) // (proj2 (Z.leb_le total _)) //.
    rewrite (proj2 (Z.leb_le (ci * _) _)); [|unfold MAX_ARGV_CHUNK_BYTES in *; lia].
    cbn [mbind result_bind]. rewrite next_number_Ok; [|lia]. cbn [mbind result_bind].
    rewrite IH; [|unfold MAX_ARGV_CHUNK_BYTES in *; lia|lia]. cbn [mbind result_bind chunk_messages number]. do 2 f_equal. lia.
Qed.

Lemma length_chunks {A} n (l : list A) : (0 < n)%nat → (length (chunks n l) * n < length l + n)%nat.
Proof.
  intros Hn. induction l as [l IH] using list_len_ind. destruct l as [|x l]; [simpl; lia|].
  rewrite chunks_cons //. cbn [length]. specialize (IH (drop n (x :: l))).
  rewrite length_drop in IH. cbn [length] in IH. specialize (IH ltac:(lia)).
  destruct (decide (n ≤ S (length l))%nat); [lia|].
  rewrite drop_ge; [|simpl; lia]. unfold chunks. simpl. lia.
Qed.

Lemma length_argument_chunks a : zlen (argument_chunks a) * 4096 < zlen a + 4096.
Proof.
  pose proof chunk_len_eq as Hn. unfold MAX_ARGV_CHUNK_BYTES in Hn.
  pose proof (length_chunks chunk_len a ltac:(lia)) as Hl. unfold argument_chunks. lia.
Qed.

Lemma length_argument_messages index arguments :
  zlen (argument_messages index arguments) * 4096 ≤ zlen (concat arguments) + zlen arguments * 4096.
Proof.
  revert index. induction arguments as [|a arguments IH]; intros index; cbn [argument_messages concat length]; [lia|].
  specialize (IH (index + 1)). rewrite !length_app length_chunk_messages. pose proof (length_argument_chunks a). lia.
Qed.

Lemma argument_frames_eq identity index arguments sequence :
  Forall argument_valid arguments → 0 ≤ index → index + zlen arguments ≤ u16_max + 1 →
  sequence + zlen (argument_messages index arguments) ≤ u32_max →
  argument_frames identity index arguments sequence =
  Ok (number identity sequence (argument_messages index arguments), sequence + zlen (argument_messages index arguments)).
Proof.
  intros Hargs. revert index sequence. induction Hargs as [|a arguments (Hl & _) _ IH]; intros index sequence Hi0 Hi Hs;
    cbn [argument_frames argument_messages].
  - by rewrite Z.add_0_r.
  - cbn [argument_messages length] in *. rewrite length_app length_chunk_messages Nat2Z.inj_add in Hs |- *.
    pose proof (length_argument_chunks a) as Hc. fold (argument_chunks a).
    unfold MAX_ARG_BYTES, u16_max in *.
    rewrite chunk_frames_eq; [|unfold u16_max; lia|unfold u32_max; lia|unfold MAX_ARGV_CHUNK_BYTES, u32_max; lia|lia].
    cbn [mbind result_bind]. rewrite IH; [|lia|lia|lia]. cbn [mbind result_bind].
    rewrite number_app length_chunk_messages. do 2 f_equal. lia.
Qed.

Section transfer.
Context `{JsonCodec ControlFrame}.

(** The daemon sends these frames, if the numbers are not exhausted and the codec can
    represent them, and refuses an invalid vector. *)
Lemma argv_frames_valid identity sequence arguments :
  argv_valid arguments → sequence + zlen (argv_messages arguments) ≤ u32_max →
  argv_frames identity sequence arguments =
  (_ ← encode_all (number identity sequence (argv_messages arguments));
   Ok (number identity sequence (argv_messages arguments))).
Proof.
  intros (Hc & Hargs & Ht) Hs. unfold argv_frames, argv_messages in *. cbn [length number] in *.
  rewrite length_app in Hs. cbn [length] in Hs.
  assert (bail_if ((length arguments =? 0)%nat || (zlen arguments >? MAX_ARGV_ENTRIES)) InvalidArgv = Ok ()) as ->.
  { apply bail_if_Ok. rewrite (proj2 (zlen_pos arguments)); [|lia]. cbn [orb]. lia. }
  cbn [mbind result_bind].
  rewrite (proj2 (total_bytes_of_Ok arguments 0 (zlen (concat arguments)) _ _)).
  2: { eapply Forall_impl; [exact Hargs|]. by intros a (_ & _ & ?). }
  2: { unfold MAX_ARGV_BYTES. lia. }
  2: { split_and!; [done|lia|done]. }
  cbn [mbind result_bind]. unfold try_into. unfold MAX_ARGV_ENTRIES, MAX_ARGV_BYTES, u16_max in *.
  rewrite (proj2 (Z.leb_le (zlen arguments) 65535)); [|lia].
  rewrite (proj2 (Z.leb_le (zlen (concat arguments)) u32_max)); [|unfold u32_max; lia].
  cbn [mbind result_bind]. rewrite next_number_Ok; [|lia]. cbn [mbind result_bind].
  rewrite argument_frames_eq //; [|unfold u16_max; lia|lia]. cbn [mbind result_bind].
  by rewrite number_app.
Qed.

Lemma argv_frames_invalid identity sequence arguments frames :
  Forall u8s arguments → argv_frames identity sequence arguments = Ok frames → argv_valid arguments.
Proof.
  unfold argv_frames. intros Hu Hf. inv_ok.
  match goal with H : total_bytes_of _ _ = Ok _ |- _ => apply total_bytes_of_Ok in H as (Hv & -> & Hm) end;
    [|done|unfold MAX_ARGV_BYTES; lia].
  rewrite -> zlen_pos in *. split_and!; [lia|lia|done|lia].
Qed.
End transfer.

(** The runner's side: one chunk message after another. *)
Fixpoint push_messages (messages : list ControlMessage) (s : ArgvAssembler) : RunnerResult ArgvAssembler :=
  match messages with
  | [] => Ok s
  | MArgvChunk index offset total data :: messages =>
    match push_chunk index offset total data s with
    | (Ok _, s) => push_messages messages s
    | (Err e, _) => Err e
    end
  | _ :: _ => Err InvalidSequence
  end.

Lemma push_messages_app ms1 ms2 s : push_messages (ms1 ++ ms2) s = (s ← push_messages ms1 s; push_messages ms2 s).
Proof.
  revert s. induction ms1 as [|m ms1 IH]; intros s; [done|]. destruct m; try done. cbn [push_messages app].
  destruct (push_chunk _ _ _ _ s) as [[]]; [apply IH|done].
Qed.

Lemma push_chunk_messages arguments k a part data ci :
  argv_valid arguments → arguments !! k = Some a → a = part ++ data → data ≠ [] →
  zlen part = ci * MAX_ARGV_CHUNK_BYTES →
  push_messages (chunk_messages (Z.of_nat k) (zlen a) ci (argument_chunks data)) (assembler_at arguments k part) =
  Ok (assembler_at arguments (S k) []).
Proof.
  intros Hv Hk. revert part ci. induction data as [data IH] using list_len_ind. intros part ci Ha Hne Hpart.
  rewrite argument_chunks_cons //. pose proof chunk_len_eq as Hn.
  cbn [chunk_messages push_messages]. rewrite -Hpart.
  assert (1 ≤ length data)%nat by (destruct data; [done|apply le_n_S, Nat.le_0_l]).
  assert (1 ≤ chunk_len)%nat by (unfold MAX_ARGV_CHUNK_BYTES in Hn; lia).
  rewrite (push_chunk_step arguments k a part (take chunk_len data) (drop chunk_len data) Hv Hk).
  2: { by rewrite take_drop. }
  2: { rewrite length_take. lia. }
  destruct (length (drop chunk_len data) =? 0)%nat eqn:E.
  - apply Nat.eqb_eq in E. apply nil_length_inv in E. by rewrite E.
  - apply Nat.eqb_neq in E. apply IH.
    + rewrite length_drop. lia.
    + by rewrite -app_assoc take_drop.
    + intros Hd. rewrite Hd in E. exact (E eq_refl).
    + rewrite length_drop in E. rewrite length_app length_take. lia.
Qed.

Lemma push_argument_messages arguments k :
  argv_valid arguments → (k ≤ length arguments)%nat →
  push_messages (argument_messages (Z.of_nat k) (drop k arguments)) (assembler_at arguments k []) =
  Ok (assembler_at arguments (length arguments) []).
Proof.
  intros Hv Hk. remember (length arguments - k)%nat as n eqn:Hn. revert k Hk Hn.
  induction n as [|n IH]; intros k Hk Hn.
  - assert (k = length arguments) as -> by lia. by rewrite drop_ge.
  - destruct (lookup_lt_is_Some_2 arguments k) as [a Ha]; [lia|]. rewrite (drop_S _ a) //. cbn [argument_messages].
    destruct Hv as (Hc & Hargs & Ht) eqn:E. clear E.
    assert (1 ≤ zlen a) as Hl by (eapply Forall_lookup_1 in Hargs as [[? _] _]; done).
    rewrite push_messages_app (push_chunk_messages arguments k a [] a 0) //; [|intros ->; simpl in Hl; lia].
    cbn [mbind result_bind]. rewrite (_ : Z.of_nat k + 1 = Z.of_nat (S k)); [|lia]. apply IH; lia.
Qed.

Lemma finish_all arguments :
  argv_valid arguments → ArgvAssembler_finish (assembler_at arguments (length arguments) []) = Ok arguments.
Proof.
  intros (Hc & Hargs & Ht). unfold ArgvAssembler_finish.
  assert (aa_arguments (assembler_at arguments (length arguments) []) = arguments) as Ha.
  { cbn [aa_arguments assembler_at]. rewrite arguments_at_nil; [|done].
    by rewrite take_ge // Nat.sub_diag app_nil_r. }
  rewrite Ha. assert (existsb (λ a, (length a =? 0)%nat) arguments = false) as ->.
  { apply not_true_is_false. intros (a & Hin & Hz)%existsb_exists. apply list_elem_of_In in Hin.
    rewrite Forall_forall in Hargs. destruct (Hargs a Hin) as [[Hl _] _]. apply Nat.eqb_eq in Hz. lia. }
  cbn [current_index expected_count received_total expected_total assembler_at].
  rewrite take_ge // Z.eqb_refl (proj2 (Z.eqb_eq _ _)); [done|simpl; lia].
Qed.

Lemma begin_at arguments :
  argv_valid arguments →
  ArgvAssembler_begin (zlen arguments) (zlen (concat arguments)) = Ok (assembler_at arguments 0 []).
Proof.
  intros (Hc & Hargs & Ht). unfold ArgvAssembler_begin.
  assert (bail_if ((zlen arguments =? 0) || (zlen arguments >? MAX_ARGV_ENTRIES)
                   || (zlen (concat arguments) >? MAX_ARGV_BYTES)) InvalidArgv = Ok ()) as ->.
  { apply bail_if_Ok. rewrite !orb_false. split_and!; lia. }
  cbn [mbind result_bind]. unfold assembler_at. rewrite arguments_at_nil; [|lia].
  by rewrite Nat2Z.id Nat.sub_0_r.
Qed.

(** ** Whatever a peer sends *)

Record assembler_inv (s : ArgvAssembler) : Prop := {
  ai_count : 1 ≤ expected_count s ≤ MAX_ARGV_ENTRIES;
  ai_length : zlen (aa_arguments s) = expected_count s;
  ai_arguments : Forall (λ a, zlen a ≤ MAX_ARG_BYTES ∧ 0 ∉ a ∧ u8s a) (aa_arguments s);
  ai_total : zlen (concat (aa_arguments s)) = received_total s;
  ai_bound : received_total s ≤ expected_total s ≤ MAX_ARGV_BYTES;
  ai_current : 0 ≤ current_index s;
}.

Lemma begin_inv count total s :
  0 ≤ count → 0 ≤ total → ArgvAssembler_begin count total = Ok s → assembler_inv s ∧ expected_total s = total ∧ received_total s = 0.
Proof.
  intros Hc Ht. unfold ArgvAssembler_begin. intros H. inv_ok.
  match goal with H : Ok _ = Ok s |- _ => injection H as <- end. split; [|done].
  constructor; cbn [expected_count expected_total aa_arguments current_index received_total]; try lia.
  - rewrite length_replicate. lia.
  - apply Forall_replicate. split_and!; [unfold MAX_ARG_BYTES; simpl; lia|by intros ?%elem_of_nil|constructor].
  - induction (Z.to_nat count); simpl in *; [done|done].
Qed.

Lemma concat_insert (l : list (list byte)) i a d :
  l !! i = Some a → zlen (concat (<[i := a ++ d]> l)) = zlen (concat l) + zlen d.
Proof.
  intros Hi. assert (zlen (concat l) = zlen (concat (take i l)) + zlen a + zlen (concat (drop (S i) l))) as ->.
  { rewrite -{1}(take_drop_middle l i a Hi) concat_app /= !length_app. lia. }
  rewrite insert_take_drop; [|by eapply lookup_lt_Some]. rewrite concat_app /= !length_app. lia.
Qed.

Lemma sum_exceeds_false a b bound :
  a ≤ MAX_ARGV_BYTES → b ≤ MAX_ARGV_BYTES → sum_exceeds a b bound = false → a + b ≤ bound.
Proof.
  intros Ha Hb. unfold sum_exceeds, checked_add. rewrite bool_decide_true; [lia|].
  unfold MAX_ARGV_BYTES, usize_max, u64_max in *. lia.
Qed.

(** What an accepted chunk was, and what it changed. *)
Lemma push_chunk_Ok index offset total data s u s' :
  push_chunk index offset total data s = (Ok u, s') →
  let a := aa_arguments s !!! Z.to_nat index in
  ∃ d, index = current_index s ∧ index < expected_count s ∧ total ≤ MAX_ARG_BYTES ∧ offset = zlen a ∧
    u8s d ∧ 1 ≤ zlen d ≤ MAX_ARGV_CHUNK_BYTES ∧ 0 ∉ d ∧ sum_exceeds offset (zlen d) total = false ∧
    sum_exceeds (received_total s) (zlen d) (expected_total s) = false ∧
    s' = {| expected_count := expected_count s; expected_total := expected_total s;
            aa_arguments := <[Z.to_nat index := a ++ d]> (aa_arguments s);
            current_index := if zlen (a ++ d) =? total then current_index s + 1 else current_index s;
            received_total := received_total s + zlen d |}.
Proof.
  intros H a. unfold push_chunk in H. fold a in H.
  match type of H with match ?m with Ok _ => _ | Err _ => _ end = _ => destruct m as [d|e] eqn:E end; [|done].
  injection H as _ <-. apply bind_Ok in E as ([] & E1%bail_if_Ok & E).
  apply bind_Ok in E as (d' & E2%decode_canonical_base64_spec & E). apply bind_Ok in E as ([] & E3%bail_if_Ok & [= ->]).
  destruct E2 as (_ & Hu & _). rewrite !orb_false in E1 E3. destruct E1 as (((? & ?) & ?) & ?).
  destruct E3 as ((((?%zlen_pos & ?) & ?%existsb_nul_false) & ?) & ?).
  exists d. split_and!; try done; lia.
Qed.

Lemma push_chunk_inv index offset total data s u s' :
  assembler_inv s → push_chunk index offset total data s = (Ok u, s') →
  assembler_inv s' ∧ received_total s < received_total s' ∧ expected_total s' = expected_total s.
Proof.
  intros [Hc Hl Ha Ht Hb Hi] (d & -> & Hlt & Htot & -> & Hu & Hd & Hnul & Ho & Hr & ->)%push_chunk_Ok.
  destruct (lookup_lt_is_Some_2 (aa_arguments s) (Z.to_nat (current_index s))) as [a Hlook]; [lia|].
  rewrite -> (list_lookup_total_correct _ _ _ Hlook) in *. pose proof (Forall_lookup_1 _ _ _ _ Ha Hlook) as (Hal & Han & Hau).
  assert (zlen d ≤ MAX_ARGV_BYTES ∧ zlen a ≤ MAX_ARGV_BYTES) as [? ?].
  { unfold MAX_ARGV_BYTES, MAX_ARGV_CHUNK_BYTES, MAX_ARG_BYTES in *. lia. }
  apply sum_exceeds_false in Ho; [|done|done]. apply sum_exceeds_false in Hr; [|lia|done].
  cbn [received_total expected_total]. split_and!; [|lia|done].
  constructor; cbn [expected_count expected_total aa_arguments current_index received_total]; try done.
  - by rewrite length_insert.
  - apply Forall_insert; [done|]. rewrite length_app. split_and!; [lia|by rewrite elem_of_app; intros [?|?]|by apply Forall_app_2].
  - rewrite (concat_insert _ _ a) //. lia.
  - lia.
  - destruct (_ =? total); lia.
Qed.

Lemma finish_valid s arguments : assembler_inv s → ArgvAssembler_finish s = Ok arguments → argv_valid arguments.
Proof.
  intros [Hc Hl Ha Ht Hb Hi] H. unfold ArgvAssembler_finish in H. inv_ok.
  match goal with H : Ok _ = Ok _ |- _ => injection H as <- end.
  split_and!; [lia|lia| |lia]. rewrite Forall_forall in Ha. apply Forall_forall. intros a Hin. destruct (Ha a Hin) as (? & ? & ?).
  split; [|done]. split; [|done]. apply zlen_pos. apply not_true_is_false. intros Hz.
  assert (existsb (λ a, (length a =? 0)%nat) (aa_arguments s) = true); [|congruence].
  apply existsb_exists. exists a. split; [by apply list_elem_of_In|done].
Qed.

(** ** The conversations a validator accepts *)

Fixpoint run_states (identity : RunnerIdentity) (state : SequenceState) (messages : list ControlMessage)
    : RunnerResult SequenceState :=
  match messages with
  | [] => Ok state
  | m :: messages => state ← next_state identity state m; run_states identity state messages
  end.

Fixpoint accept_all (frames : list ControlFrame) : M SequenceValidator RunnerProtocolError unit :=
  match frames with
  | [] => mret tt
  | frame :: frames => _ ← accept_frame frame; accept_all frames
  end.

Definition is_chunk (m : ControlMessage) : bool := match m with MArgvChunk _ _ _ _ => true | _ => false end.

(** A whole conversation: any number of argument chunks, at most one overflow of the output. *)
Definition conversation (identity : RunnerIdentity) (messages : list ControlMessage) : Prop :=
  ∃ count total chunks placement ns overflow category elapsed bytes decision ack,
    messages = MHello :: MHelloAck :: MArgvBegin count total :: chunks ++
               MArgvEnd :: MReady :: MReadyAck placement :: MPayloadFdAck :: MGo :: MGoReceived ns
                 :: MPayloadPlaced :: MPayloadRelease :: overflow ++
               [MLeaderExited category elapsed; MOutputDrained bytes; MResultAccepted; MDecision decision; MAck ack] ∧
    forallb is_chunk chunks = true ∧
    PlacementDescriptorEvidence_validate placement identity = Ok tt ∧
    (overflow = [] ∨ ∃ excess, overflow = [MOutputLimitExceeded excess; MOutputCleanupClaimed]).

Lemma run_states_app identity state ms1 ms2 :
  run_states identity state (ms1 ++ ms2) = (state ← run_states identity state ms1; run_states identity state ms2).
Proof.
  revert state. induction ms1 as [|m ms1 IH]; intros state; [done|]. cbn [run_states app].
  destruct (next_state identity state m); [apply IH|done].
Qed.

Lemma run_chunks identity chunks :
  forallb is_chunk chunks = true → run_states identity SArgvChunkOrEnd chunks = Ok SArgvChunkOrEnd.
Proof.
  induction chunks as [|m chunks IH]; [done|]. intros [Hm H]%andb_true. destruct m; try done. by apply IH.
Qed.

Lemma run_chunks_inv identity ms s :
  run_states identity SArgvChunkOrEnd ms = Ok s → s ≠ SArgvChunkOrEnd →
  ∃ chunks rest, ms = chunks ++ MArgvEnd :: rest ∧ forallb is_chunk chunks = true ∧ run_states identity SReady rest = Ok s.
Proof.
  induction ms as [|m ms IH]; [by intros [= <-]|]. intros H Hs. destruct m; try done.
  - destruct (IH H Hs) as (chunks & rest & -> & Hc & Hr). by eexists (_ :: chunks), rest.
  - by exists [], ms.
Qed.

(** Takes the one message the next state demands off a run. *)
Ltac next_message H :=
  match type of H with run_states _ _ ?ms = _ =>
    let m := fresh "m" in destruct ms as [|m ms]; [done|]; destruct m; try done; cbn [run_states next_state mbind result_bind] in H
  end.

Lemma conversation_complete identity ms :
  run_states identity SHello ms = Ok SComplete ↔ conversation identity ms.
Proof.
  split.
  - intros H. do 3 next_message H. apply run_chunks_inv in H as (chunks & rest & -> & Hc & H); [|done].
    do 2 next_message H. apply bind_Ok in H as (s' & Hp & H).
    apply bind_Ok in Hp as ([] & Hp & [= <-]). do 5 next_message H. next_message H.
    + do 5 next_message H. next_message H. destruct rest; [|done]. cbn in H.
      repeat eexists; [|done|done|by right; eexists]. cbn [app]. reflexivity.
    + do 4 next_message H. destruct rest; [|done].
      repeat eexists; [|done|done|by left]. cbn [app]. reflexivity.
  - intros (count & total & chunks & placement & ns & overflow & category & elapsed & bytes & decision & ack & -> & Hc & Hp & Ho).
    cbn [run_states next_state mbind result_bind]. rewrite run_states_app run_chunks //.
    cbn [run_states next_state mbind result_bind]. rewrite Hp. by destruct Ho as [->|[excess ->]].
Qed.

Lemma accept_frame_Ok frame v u v' :
  accept_frame frame v = (Ok u, v') ↔
  frame = ControlFrame_new (sv_identity v) (next_sequence v) (cf_message frame) ∧
  next_state (sv_identity v) (sv_state v) (cf_message frame) = Ok (sv_state v') ∧
  v' = {| sv_identity := sv_identity v; next_sequence := next_sequence v + 1; sv_state := sv_state v' |} ∧
  next_sequence v + 1 ≤ u32_max.
Proof.
  unfold accept_frame. split.
  - match goal with |- context [match ?m with Ok _ => _ | Err _ => _ end] => destruct m as [w|e] eqn:E end; [|done].
    intros [= _ <-]. inv_ok. repeat match goal with H : Ok _ = Ok _ |- _ => injection H as <- end. simplify_eq.
    split_and!; try done. destruct frame as [p [] sq m], v as [[] n st]. unfold ControlFrame_new. simpl in *. f_equal; [done| |lia].
    f_equal; lia.
  - intros (-> & Hn & -> & Hm). destruct v as [[t c g] n st]. cbn [cf_message ControlFrame_new protocol cf_identity cf_sequence sv_identity next_sequence sv_state] in *.
    rewrite bool_decide_true // !Z.eqb_refl. cbn [negb orb bail_if mbind result_bind]. rewrite Hn.
    cbn [mbind result_bind]. unfold checked_add. rewrite bool_decide_true //. by destruct u.
Qed.

Lemma accept_all_Ok frames v u v' :
  next_sequence v ≤ u32_max →
  accept_all frames v = (Ok u, v') ↔
  ∃ ms, frames = number (sv_identity v) (next_sequence v) ms ∧
    run_states (sv_identity v) (sv_state v) ms = Ok (sv_state v') ∧
    v' = {| sv_identity := sv_identity v; next_sequence := next_sequence v + zlen ms; sv_state := sv_state v' |} ∧
    next_sequence v + zlen ms ≤ u32_max.
Proof.
  revert v. induction frames as [|f frames IH]; intros v Hv; cbn [accept_all].
  - unfold mret, M_ret. split.
    + intros [= _ <-]. exists []. cbn. rewrite Z.add_0_r. split_and!; try done. by destruct v.
    + intros ([|m ms] & Hf & Hr & Hv' & _); [|done]. cbn in *. injection Hr as Hr. destruct u. f_equal.
      rewrite Hv' -Hr Z.add_0_r. by destruct v.
  - rewrite M_bind_Ok. split.
    + intros ([] & v1 & (Hf & Hn & Hv1 & Hm)%accept_frame_Ok & Hr). rewrite Hv1 in Hr.
      apply IH in Hr as (ms & -> & Hr & -> & Hle); cbn [sv_identity next_sequence sv_state] in *; [|done].
      exists (cf_message f :: ms). cbn [number length]. split_and!; [by rewrite -Hf| |f_equal; lia|lia].
      cbn [run_states]. by rewrite Hn.
    + intros ([|m ms] & Hf & Hr & Hv' & Hle); [done|]. cbn [number run_states length] in *. injection Hf as -> ->.
      apply bind_Ok in Hr as (st & Hn & Hr).
      exists tt, {| sv_identity := sv_identity v; next_sequence := next_sequence v + 1; sv_state := st |}. split.
      * apply accept_frame_Ok. cbn. split_and!; try done. lia.
      * apply IH; cbn; [lia|]. exists ms. split_and!; [done|done| |lia]. rewrite Hv'. cbn. f_equal. lia.
Qed.

(** The validator [new] makes. *)
Definition start_validator (identity : RunnerIdentity) : SequenceValidator :=
  {| sv_identity := identity; next_sequence := 0; sv_state := SHello |}.

(** A validator is complete exactly after a whole conversation, its frames numbered from
    zero, all of one identity: hello, arguments, a valid placement, go, release, at most one
    output overflow, exit, result, decision and its acknowledgement, nothing left out,
    repeated or reordered. *)
Theorem validator_accepts_conversations identity frames :
  (∃ v, accept_all frames (start_validator identity) = (Ok tt, v) ∧ is_complete v = true) ↔
  ∃ messages, conversation identity messages ∧ frames = number identity 0 messages ∧ zlen messages ≤ u32_max.
Proof.
  split.
  - intros (v & (ms & -> & Hr & Hv & Hle)%accept_all_Ok & Hc%bool_decide_eq_true); [|done].
    exists ms. split_and!; [|done|done]. apply conversation_complete. by rewrite -Hc.
  - intros (ms & Hc%conversation_complete & -> & Hle).
    exists {| sv_identity := identity; next_sequence := 0 + zlen ms; sv_state := SComplete |}.
    split; [|done]. apply accept_all_Ok; [done|]. by exists ms.
Qed.

(** ** Transfers *)

(** The messages up to [MArgvEnd] transfer [argv]. *)
Definition transfers (messages : list ControlMessage) (argv : list (list byte)) : Prop :=
  ∃ count total chunks s0 s1,
    messages = MArgvBegin count total :: chunks ++ [MArgvEnd] ∧ forallb is_chunk chunks = true ∧
    ArgvAssembler_begin count total = Ok s0 ∧ push_messages chunks s0 = Ok s1 ∧ ArgvAssembler_finish s1 = Ok argv.

Lemma push_chunk_counts index offset total data s u s' :
  push_chunk index offset total data s = (Ok u, s') →
  expected_count s' = expected_count s ∧ expected_total s' = expected_total s ∧
  current_index s ≤ current_index s' ∧ received_total s ≤ received_total s'.
Proof.
  intros (d & _ & _ & _ & _ & _ & Hd & _ & _ & _ & ->)%push_chunk_Ok.
  cbn [expected_count expected_total current_index received_total]. split_and!; [done|done|case_match|]; lia.
Qed.

Lemma push_messages_counts ms s s' :
  push_messages ms s = Ok s' →
  expected_count s' = expected_count s ∧ expected_total s' = expected_total s ∧
  current_index s ≤ current_index s' ∧ received_total s ≤ received_total s'.
Proof.
  revert s. induction ms as [|m ms IH]; intros s H; cbn [push_messages] in H; [by injection H as <-|].
  destruct m; try done. destruct (push_chunk _ _ _ _ s) as [[u|e] s1] eqn:Hp; [|done].
  apply push_chunk_counts in Hp as (? & ? & ? & ?). apply IH in H as (? & ? & ? & ?). split_and!; congruence || lia.
Qed.

Lemma push_messages_inv ms s s' : assembler_inv s → push_messages ms s = Ok s' → assembler_inv s'.
Proof.
  revert s. induction ms as [|m ms IH]; intros s Hs H; cbn [push_messages] in H; [by injection H as <-|].
  destruct m; try done. destruct (push_chunk _ _ _ _ s) as [[u|e] s1] eqn:Hp; [|done].
  apply push_chunk_inv in Hp as (? & _); [|done]. by eapply IH.
Qed.

Lemma transfers_valid messages argv : transfers messages argv → argv_valid argv.
Proof.
  intros (count & total & chunks & s0 & s1 & _ & _ & Hb & Hp & Hf).
  pose proof (push_messages_counts _ _ _ Hp) as (Hc & Ht & Hi & Hr).
  assert (current_index s1 = expected_count s1 ∧ received_total s1 = expected_total s1) as [Hci Hrt].
  { unfold ArgvAssembler_finish in Hf. inv_ok. lia. }
  assert (expected_count s0 = count ∧ expected_total s0 = total ∧ current_index s0 = 0 ∧ received_total s0 = 0) as (? & ? & ? & ?).
  { unfold ArgvAssembler_begin in Hb. inv_ok. by match goal with H : Ok _ = Ok s0 |- _ => injection H as <- end. }
  destruct (begin_inv count total s0) as (Hinv & _); [lia|lia|done|].
  eapply finish_valid; [|exact Hf]. by eapply push_messages_inv.
Qed.

Lemma chunks_are_chunks index total ci cs : forallb is_chunk (chunk_messages index total ci cs) = true.
Proof. revert ci. induction cs as [|c cs IH]; intros ci; [done|]. apply IH. Qed.

Lemma arguments_are_chunks index arguments : forallb is_chunk (argument_messages index arguments) = true.
Proof.
  revert index. induction arguments as [|a arguments IH]; intros index; [done|]. cbn [argument_messages].
  by rewrite forallb_app chunks_are_chunks IH.
Qed.

Lemma transfers_sent arguments : argv_valid arguments → transfers (argv_messages arguments) arguments.
Proof.
  intros Hv. exists (zlen arguments), (zlen (concat arguments)), (argument_messages 0 arguments).
  exists (assembler_at arguments 0 []), (assembler_at arguments (length arguments) []).
  split_and!; [done|apply arguments_are_chunks|by apply begin_at| |by apply finish_all].
  exact (push_argument_messages arguments 0 Hv (Nat.le_0_l _)).
Qed.

Lemma transfers_functional messages a b : transfers messages a → transfers messages b → a = b.
Proof.
  intros (c & t & cs & s0 & s1 & -> & Hch & Hb & Hp & Hf) (c' & t' & cs' & s0' & s1' & Heq & _ & Hb' & Hp' & Hf').
  injection Heq as <- <- Heq. apply app_inj_tail in Heq as [<- _]. congruence.
Qed.

(** The argument vector survives its transfer. The frames the daemon sends for a valid
    vector, numbered in order, transfer exactly that vector, and it sends none for an
    invalid one; and whatever messages a peer sends, the vector they transfer is valid: at
    most 256 arguments of 1 to 64 KiB without NUL, 256 KiB in all. *)
Theorem argv_transfer_exact `{JsonCodec ControlFrame} identity sequence arguments :
  Forall u8s arguments →
  (∀ frames, argv_frames identity sequence arguments = Ok frames → sequence + zlen (argv_messages arguments) ≤ u32_max →
     argv_valid arguments ∧ frames = number identity sequence (argv_messages arguments) ∧
     transfers (argv_messages arguments) arguments) ∧
  (∀ messages argv, transfers messages argv → argv_valid argv).
Proof.
  intros Hu. split; [|apply transfers_valid]. intros frames Hf Hs.
  pose proof (argv_frames_invalid identity sequence arguments frames Hu Hf) as Hv.
  rewrite argv_frames_valid // in Hf. apply bind_Ok in Hf as ([] & _ & [= <-]).
  split_and!; [done|done|by apply transfers_sent].
Qed.

(** ** Frames on the wire *)

Lemma frame_roundtrip `{JsonCodec ControlFrame} frame bytes :
  RunnerIdentity_validate (cf_identity frame) = Ok tt → protocol frame = CONTROL_PROTOCOL →
  encode_frame frame = Ok bytes → decode_frame bytes = Ok frame.
Proof.
  unfold encode_frame, decode_frame. intros Hi Hp He. inv_ok.
  repeat match goal with H : Ok _ = Ok _ |- _ => injection H as <- end.
  match goal with H : to_vec _ = Some _ |- _ => apply from_slice_to_vec in H as -> end.
  assert (bail_if ((length x =? 0)%nat || (zlen x >? MAX_CONTROL_FRAME_BYTES)) OversizedFrame = Ok ()) as ->.
  { apply bail_if_Ok, orb_false. done. }
  cbn [mbind result_bind ok_or]. by rewrite Hi bool_decide_true.
Qed.
