(* ===== verification/RunnerRun.v ===== *)
(** [src/speculation_runner.rs], the runner of one candidate: its conversation with the
    daemon over packets, the counting of the candidate's output, and the order in which it
    forks and releases the candidate.

    System calls answer from the environment of the run: a record of one-shot results and
    scripts of packets, reads and waits that are consumed one by one.  A script that has
    ended blocks the run.  The failpoints, which are compiled out of a release build, are
    left out.

    The theorems: whatever the daemon sends and the kernel answers, the candidate is forked
    only after [Go], on the valid vector the daemon transferred, and released only after
    [PayloadRelease]; a run that returns has had a whole conversation; the argument loop ends
    however long the peer goes on; the excess of output is reported at most once and exactly
    when it first occurs. *)
From S2P Require Import Prelude Utf8 Base64 Protocol Speculation EvidenceFs RunnerProtocol.

(** ** The environment *)

(** A control message header; [cm_raw] reads its descriptors by index. *)
Record cmsg : Set := { cm_len : Z; cm_rights : bool; cm_raw : Z → Z }.

(** What [recvmsg] delivers. *)
Record packet : Set := { pk_bytes : list byte; pk_truncated : bool; pk_headers : list cmsg }.

Inductive recv_answer : Set := RecvFailed | RecvPacket (p : packet).
Inductive read_answer : Set := ReadBytes (n : Z) | ReadEof | ReadWouldBlock | ReadEio | ReadFailed.
Inductive wait_answer : Set := StillRunning | Exited (code : Z) | KilledBySignal | OtherStatus | WaitFailed.

(** What the kernel says of a received descriptor. *)
Record DescriptorFacts : Set := {
  df_writable : bool;                    (* the access mode is write-only or read-write *)
  df_metadata : option (Z * Z);          (* device and inode *)
  df_statfs : option Z;                  (* the magic of its file system *)
  df_statx : option (option Z);          (* the unique mount id, if the kernel gives one *)
  df_link : option (option str * option str);  (* the file name of its path, and its parent's *)
}.

Record Environment : Set := {
  undumpable : bool;
  spare_descriptors_closed : bool;
  connected : bool;
  pty_opened : RunnerResult unit;
  facts : Z → DescriptorFacts;
  go_received_at : RunnerResult Z;
  forked : list (list byte) → RunnerResult unit;
  placed_byte : option Z;
  release_written : bool;
  sent_whole : Z → bool;                 (* by sequence number *)
  elapsed_nanos : Z;
}.

(** What the run did, in order; a fork and a release are recorded before they are tried. *)
Inductive event : Set :=
  | Sent (m : ControlMessage)
  | Received (m : ControlMessage)
  | Forked (argv : list (list byte))
  | Released.

Record Run : Set := {
  packets : list recv_answer;
  reads : list read_answer;
  waits : list wait_answer;
  polls : list bool;
  validator : SequenceValidator;
  log : list event;
}.

(** Why a run stopped: the runner's error, or an answer that never comes. *)
Inductive Stop : Set := Failed (e : RunnerProtocolError) | Blocked.

Abbreviation Runner := (M Run Stop).

Definition with_validator (v : SequenceValidator) (s : Run) : Run :=
  {| packets := packets s; reads := reads s; waits := waits s; polls := polls s; validator := v; log := log s |}.
Definition record_event (e : event) : Runner unit := λ s,
  (Ok tt, {| packets := packets s; reads := reads s; waits := waits s; polls := polls s;
             validator := validator s; log := log s ++ [e] |}).

Definition lift_runner {A} (r : RunnerResult A) : Runner A := λ s,
  (match r with Ok a => Ok a | Err e => Err (Failed e) end, s).
Definition require (c : bool) (e : RunnerProtocolError) : Runner unit := lift_runner (if c then Ok tt else Err e).

Definition next_packet : Runner packet := λ s,
  match packets s with
  | [] => (Err Blocked, s)
  | answer :: rest =>
    let s := {| packets := rest; reads := reads s; waits := waits s; polls := polls s;
                validator := validator s; log := log s |} in
    match answer with
    | RecvPacket p => if (length (pk_bytes p) =? 0)%nat then (Err (Failed RunnerIo), s) else (Ok p, s)
    | RecvFailed => (Err (Failed RunnerIo), s)
    end
  end.

Definition next_wait : Runner wait_answer := λ s,
  match waits s with
  | [] => (Err Blocked, s)
  | answer :: rest =>
    (Ok answer, {| packets := packets s; reads := reads s; waits := rest; polls := polls s;
                   validator := validator s; log := log s |})
  end.

Definition next_poll : Runner bool := λ s,
  match polls s with
  | [] => (Err Blocked, s)
  | answer :: rest =>
    (Ok answer, {| packets := packets s; reads := reads s; waits := waits s; polls := rest;
                   validator := validator s; log := log s |})
  end.

(** ** Descriptors *)

(** [CMSG_LEN(0)] and [size_of::<RawFd>()]. *)
Definition CMSG_HEADER : Z := 16.
Definition RAW_FD_SIZE : Z := 4.

(** The loop over the headers: the files taken into ownership, the number of headers, and
    whether every one had the right shape. *)
Fixpoint collect_descriptors (headers : list cmsg) (files : list Z) (header_count : nat) (shape_valid : bool)
    : list Z * nat * bool :=
  match headers with
  | [] => (files, header_count, shape_valid)
  | h :: headers =>
    let header_count := S header_count in
    if cm_len h <? CMSG_HEADER then (files, header_count, false) else
    let payload_len := cm_len h - CMSG_HEADER in
    if negb (cm_rights h) || negb (payload_len mod RAW_FD_SIZE =? 0)
    then collect_descriptors headers files header_count false
    else
      let raws := cm_raw h <$> seqZ 0 (payload_len / RAW_FD_SIZE) in
      collect_descriptors headers (files ++ filter (λ raw, 0 ≤ raw) raws) header_count
        (shape_valid && forallb (λ raw, 0 <=? raw) raws)
  end.

Definition CGROUP2_SUPER_MAGIC : Z := 0x63677270.

Definition validate_placement_fd_name (f : DescriptorFacts) : RunnerResult unit :=
  target ← ok_or (df_link f) DescriptorViolation;
  bail_if (negb (bool_decide (fst target = Some (lit "cgroup.procs")))
           || negb (bool_decide (snd target = Some (lit "payload")))) DescriptorViolation.

Definition validate_placement_fd (f : DescriptorFacts) (expected : PlacementDescriptorEvidence)
    (identity : RunnerIdentity) : RunnerResult unit :=
  _ ← PlacementDescriptorEvidence_validate expected identity;
  _ ← bail_if (negb (df_writable f)) DescriptorViolation;
  metadata ← ok_or (df_metadata f) DescriptorViolation;
  _ ← bail_if (negb (bool_decide (df_statfs f = Some CGROUP2_SUPER_MAGIC))
               || negb (fst metadata =? file_dev expected)
               || negb (snd metadata =? file_ino expected)) DescriptorViolation;
  mnt_id ← ok_or (df_statx f) DescriptorViolation;
  _ ← bail_if (negb (bool_decide (mnt_id = Some (file_statx_mnt_id_unique expected)))) DescriptorViolation;
  validate_placement_fd_name f.

(** ** Output *)

Definition account_output_read (current read : Z) : Z * option Z :=
  let next := saturating_add u64_max current read in
  let limit := MAX_CANDIDATE_OUTPUT_BYTES in
  (next, if (current <=? limit) && (next >? limit) then Some (limit + 1) else None).

(** The loop over the answers of [read]; [None] when they end. *)
Fixpoint drain_reads (answers : list read_answer) (bytes : Z)
    : option (RunnerResult (Z * bool * option Z)) * list read_answer :=
  match answers with
  | [] => (None, [])
  | ReadBytes n :: answers =>
    let '(bytes, overflow) := account_output_read bytes n in
    if is_some overflow then (Some (Ok (bytes, false, overflow)), answers) else drain_reads answers bytes
  | ReadEof :: answers | ReadEio :: answers => (Some (Ok (bytes, true, None)), answers)
  | ReadWouldBlock :: answers => (Some (Ok (bytes, false, None)), answers)
  | ReadFailed :: answers => (Some (Err RunnerIo), answers)
  end.

Definition drain_available_with_eof (bytes : Z) : Runner (Z * bool * option Z) := λ s,
  let '(r, rest) := drain_reads (reads s) bytes in
  (match r with Some (Ok a) => Ok a | Some (Err e) => Err (Failed e) | None => Err Blocked end,
   {| packets := packets s; reads := rest; waits := waits s; polls := polls s;
      validator := validator s; log := log s |}).

Record LeaderCompletion : Set := { lc_category : RunnerExitCategory; lc_bytes : Z; lc_elapsed_ns : Z }.
Inductive ExecutionProgress : Set :=
  | OutputLimit (total_bytes reported_bytes : Z)
  | LeaderExited (completion : LeaderCompletion).

Definition exit_category_of (overflow_reported : bool) (bytes : Z) (status : wait_answer) : RunnerExitCategory :=
  if overflow_reported || (bytes >? MAX_CANDIDATE_OUTPUT_BYTES) then ROutputLimitExceeded
  else match status with
       | Exited code => if code =? 0 then RExitedZero else RExitedNonzero
       | KilledBySignal => RSignaled
       | _ => REvidenceIncomplete
       end.

(** Each round consumes an answer of [read]; the fuel is one more than there are. *)
Fixpoint drain_until_fuel (fuel : nat) (env : Environment) (bytes : Z) (overflow_reported : bool)
    : Runner ExecutionProgress :=
  match fuel with
  | O => λ s, (Err Blocked, s)
  | S fuel =>
    '(bytes, _, overflow) ← drain_available_with_eof bytes;
    match overflow with
    | Some reported => if negb overflow_reported then mret (OutputLimit bytes reported)
                       else drain_wait fuel env bytes overflow_reported
    | None => drain_wait fuel env bytes overflow_reported
    end
  end
with drain_wait (fuel : nat) (env : Environment) (bytes : Z) (overflow_reported : bool)
    : Runner ExecutionProgress :=
  match fuel with
  | O => λ s, (Err Blocked, s)
  | S fuel =>
    status ← next_wait;
    match status with
    | StillRunning => drain_until_fuel fuel env bytes overflow_reported
    | WaitFailed => λ s, (Err (Failed RunnerIo), s)
    | status =>
      mret (LeaderExited {| lc_category := exit_category_of overflow_reported bytes status; lc_bytes := bytes;
                            lc_elapsed_ns := Z.min u64_max (elapsed_nanos env) |})
    end
  end.

Definition drain_until_execution_event (env : Environment) (bytes : Z) (overflow_reported : bool)
    : Runner ExecutionProgress := λ s, drain_until_fuel (2 * S (length (reads s))) env bytes overflow_reported s.

Fixpoint drain_to_eof_fuel (fuel : nat) (bytes : Z) : Runner Z :=
  match fuel with
  | O => λ s, (Err Blocked, s)
  | S fuel =>
    '(bytes, eof, _) ← drain_available_with_eof bytes;
    if (eof : bool) then mret bytes else
    ready ← next_poll;
    _ ← require ready RunnerIo;
    drain_to_eof_fuel fuel bytes
  end.

Definition drain_to_eof (bytes : Z) : Runner Z := λ s, drain_to_eof_fuel (S (length (reads s))) bytes s.

(** ** The conversation *)

Section run.
Context `{JsonCodec ControlFrame}.

Definition accept_now (frame : ControlFrame) : Runner unit := λ s,
  let '(r, v) := accept_frame frame (validator s) in
  (match r with Ok u => Ok u | Err e => Err (Failed e) end, with_validator v s).

Definition send_frame_packet (env : Environment) (frame : ControlFrame) : Runner unit :=
  _ ← lift_runner (encode_frame frame);
  require (sent_whole env (cf_sequence frame)) RunnerIo.

Definition receive_frame_packet : Runner ControlFrame :=
  p ← next_packet;
  _ ← require (zlen (pk_bytes p) <=? MAX_CONTROL_FRAME_BYTES) OversizedFrame;
  lift_runner (decode_frame (pk_bytes p)).

Definition receive_frame_with_one_fd : Runner (ControlFrame * Z) :=
  p ← next_packet;
  let '(files, header_count, shape_valid) := collect_descriptors (pk_headers p) [] 0 true in
  _ ← require ((zlen (pk_bytes p) <=? MAX_CONTROL_FRAME_BYTES) && negb (pk_truncated p) && shape_valid
               && (header_count =? 1)%nat && (length files =? 1)%nat) DescriptorViolation;
  frame ← lift_runner (decode_frame (pk_bytes p));
  mret (frame, default 0 (last files)).

Definition send_runner_frame (env : Environment) (identity : RunnerIdentity) (message : ControlMessage) : Runner unit :=
  s ← get;
  let frame := ControlFrame_new identity (next_sequence (validator s)) message in
  _ ← accept_now frame;
  _ ← send_frame_packet env frame;
  record_event (Sent message).

(** An accepted frame is recorded. *)
Definition accept_received (frame : ControlFrame) : Runner unit :=
  _ ← accept_now frame;
  record_event (Received (cf_message frame)).

Definition receive_runner_frame : Runner ControlFrame :=
  frame ← receive_frame_packet;
  _ ← accept_received frame;
  mret frame.

(** Each round consumes a packet; the fuel is one more than there are. *)
Fixpoint receive_argv_fuel (fuel : nat) (assembler : ArgvAssembler) : Runner ArgvAssembler :=
  match fuel with
  | O => λ s, (Err Blocked, s)
  | S fuel =>
    frame ← receive_runner_frame;
    match cf_message frame with
    | MArgvChunk argument_index offset total data =>
      let '(r, assembler) := push_chunk argument_index offset total data assembler in
      _ ← lift_runner r;
      receive_argv_fuel fuel assembler
    | MArgvEnd => mret assembler
    | _ => lift_runner (Err InvalidSequence)
    end
  end.

Definition receive_argv (assembler : ArgvAssembler) : Runner ArgvAssembler := λ s,
  receive_argv_fuel (S (length (packets s))) assembler s.

(** The [loop] of the execution: a second output limit is impossible, so two rounds do. *)
Fixpoint await_completion (fuel : nat) (env : Environment) (identity : RunnerIdentity) (bytes : Z) (overflow_reported : bool)
    : Runner LeaderCompletion :=
  match fuel with
  | O => λ s, (Err Blocked, s)
  | S fuel =>
    progress ← drain_until_execution_event env bytes overflow_reported;
    match progress with
    | OutputLimit total_bytes reported_bytes =>
      _ ← send_runner_frame env identity (MOutputLimitExceeded reported_bytes);
      cleanup ← receive_runner_frame;
      _ ← require (bool_decide (cf_message cleanup = MOutputCleanupClaimed)) InvalidSequence;
      await_completion fuel env identity total_bytes true
    | LeaderExited completion => mret completion
    end
  end.

(** From the connection to the end of the arguments. *)
Definition handshake (env : Environment) (identity : RunnerIdentity) : Runner (list (list byte)) :=
  _ ← send_runner_frame env identity MHello;
  hello_ack ← receive_runner_frame;
  _ ← require (bool_decide (cf_message hello_ack = MHelloAck)) InvalidSequence;
  begin ← receive_runner_frame;
  match cf_message begin with
  | MArgvBegin argument_count total_bytes =>
    assembler ← lift_runner (ArgvAssembler_begin argument_count total_bytes);
    assembler ← receive_argv assembler;
    lift_runner (ArgvAssembler_finish assembler)
  | _ => lift_runner (Err InvalidSequence)
  end.

(** From [Ready] to the release of the candidate. *)
Definition place_and_release (env : Environment) (identity : RunnerIdentity) (argv : list (list byte)) : Runner unit :=
  _ ← lift_runner (pty_opened env);
  _ ← send_runner_frame env identity MReady;
  '(ready_ack, placement) ← receive_frame_with_one_fd;
  _ ← accept_received ready_ack;
  match cf_message ready_ack with
  | MReadyAck expected =>
    _ ← lift_runner (validate_placement_fd (facts env placement) expected identity);
    _ ← send_runner_frame env identity MPayloadFdAck;
    go ← receive_runner_frame;
    _ ← require (bool_decide (cf_message go = MGo)) InvalidSequence;
    now ← lift_runner (go_received_at env);
    _ ← send_runner_frame env identity (MGoReceived now);
    _ ← record_event (Forked argv);
    _ ← lift_runner (forked env argv);
    _ ← require (bool_decide (placed_byte env = Some 0x50)) RunnerIo;
    _ ← send_runner_frame env identity MPayloadPlaced;
    release ← receive_runner_frame;
    _ ← require (bool_decide (cf_message release = MPayloadRelease)) InvalidSequence;
    _ ← record_event Released;
    require (release_written env) RunnerIo
  | _ => lift_runner (Err DescriptorViolation)
  end.

(** From the execution to the acknowledged decision. *)
Definition report_result (env : Environment) (identity : RunnerIdentity) : Runner unit :=
  completion ← await_completion 2 env identity 0 false;
  _ ← send_runner_frame env identity (MLeaderExited (lc_category completion) (lc_elapsed_ns completion));
  bytes ← drain_to_eof (lc_bytes completion);
  _ ← send_runner_frame env identity (MOutputDrained bytes);
  accepted ← receive_runner_frame;
  _ ← require (bool_decide (cf_message accepted = MResultAccepted)) InvalidSequence;
  decision ← receive_runner_frame;
  match cf_message decision with
  | MDecision decision =>
    _ ← send_runner_frame env identity (MAck decision);
    s ← get;
    require (is_complete (validator s)) InvalidSequence
  | _ => lift_runner (Err InvalidSequence)
  end.

Definition run_internal_runner (env : Environment) (identity : RunnerIdentity) : Runner unit :=
  _ ← require (undumpable env) RunnerIo;
  _ ← require (spare_descriptors_closed env) InvalidFrame;
  _ ← require (connected env) RunnerIo;
  v ← lift_runner (SequenceValidator_new identity);
  _ ← (λ s, (Ok tt, with_validator v s));
  argv ← handshake env identity;
  _ ← place_and_release env identity argv;
  report_result env identity.

(** ** What the log may hold *)

Definition message_of (e : event) : option ControlMessage :=
  match e with Sent m | Received m => Some m | Forked _ | Released => None end.
Definition messages (l : list event) : list ControlMessage := omap message_of l.

(** [e] may happen after [before]. *)
Definition allowed (identity : RunnerIdentity) (before : list event) (e : event) : Prop :=
  match e with
  | Sent m | Received m => is_ok (run_states identity SHello (messages before ++ [m])) = true
  | Forked argv =>
    run_states identity SHello (messages before) = Ok SPayloadPlaced ∧
    ∃ transfer rest, messages before = MHello :: MHelloAck :: transfer ++ rest ∧ transfers transfer argv
  | Released =>
    run_states identity SHello (messages before) = Ok SExecutionEvent ∧ ∃ argv, Forked argv ∈ before
  end.

Definition log_ok (identity : RunnerIdentity) (s : Run) : Prop :=
  ∀ before e after, log s = before ++ e :: after → allowed identity before e.

(** The validator is in state [X] after the events [l], which are the log. *)
Definition at_log (identity : RunnerIdentity) (X : SequenceState) (l : list event) (s : Run) : Prop :=
  sv_identity (validator s) = identity ∧ sv_state (validator s) = X ∧ log s = l ∧
  run_states identity SHello (messages l) = Ok X.

Lemma messages_snoc l e : messages (l ++ [e]) = messages l ++ option_list (message_of e).
Proof. unfold messages. rewrite omap_app. by destruct e. Qed.

Lemma run_states_snoc identity X Y ms m :
  run_states identity SHello ms = Ok X → next_state identity X m = Ok Y →
  run_states identity SHello (ms ++ [m]) = Ok Y.
Proof. intros Hms Hm. rewrite run_states_app Hms. cbn [mbind result_bind run_states]. by rewrite Hm. Qed.

Lemma log_ok_snoc identity s s' e :
  log_ok identity s → allowed identity (log s) e → log s' = log s ++ [e] → log_ok identity s'.
Proof.
  intros Hs He Hlog before x after Hx. rewrite Hlog in Hx.
  destruct after as [|y after _] using rev_ind.
  - apply app_inj_tail in Hx as [<- <-]. done.
  - rewrite app_comm_cons app_assoc in Hx. apply app_inj_tail in Hx as [Hx _]. by eapply Hs.
Qed.

Lemma log_ok_same identity s s' : log_ok identity s → log s' = log s → log_ok identity s'.
Proof. intros Hs Hl before e after Hx. apply (Hs before e after). congruence. Qed.

(** ** The steps of the runner *)

Section steps.
Context (env : Environment) (identity : RunnerIdentity).
Abbreviation I := (log_ok identity).
Abbreviation at' := (at_log identity).

Lemma lift_then {A B} P (r : RunnerResult A) (f : A → Runner B) R :
  (∀ a, r = Ok a → triple I P (f a) R) → triple I P (lift_runner r ≫= f) R.
Proof. intros Hf s Hs HP. unfold lift_runner, mbind, M_bind. destruct r as [a|e]; [by apply Hf|done]. Qed.

Lemma lift_last {A} P (r : RunnerResult A) : triple I P (lift_runner r) (λ a s, r = Ok a ∧ P s).
Proof. intros s Hs HP. unfold lift_runner. by destruct r. Qed.

Lemma require_then {B} P c e (f : unit → Runner B) R :
  (c = true → triple I P (f tt) R) → triple I P (require c e ≫= f) R.
Proof. intros Hf. unfold require. destruct c; apply lift_then; intros a [= <-]; by apply Hf. Qed.

Lemma require_last P c e : triple I P (require c e) (λ _ s, c = true ∧ P s).
Proof. intros s Hs HP. unfold require, lift_runner. by destruct c. Qed.

Lemma next_packet_triple X l : triple I (at' X l) next_packet (λ _, at' X l).
Proof.
  intros s Hs HP. unfold next_packet. destruct (packets s) as [|[|p] rest]; [done| |].
  - by eapply log_ok_same.
  - destruct (_ =? 0)%nat; [by eapply log_ok_same|]. split; [by eapply log_ok_same|done].
Qed.

Lemma accept_now_triple X l frame :
  triple I (at' X l) (accept_now frame) (λ _ s, ∃ Y, next_state identity X (cf_message frame) = Ok Y ∧
    sv_identity (validator s) = identity ∧ sv_state (validator s) = Y ∧ log s = l ∧
    run_states identity SHello (messages l) = Ok X).
Proof.
  intros s Hs (Hi & HX & Hl & Hr). unfold accept_now. destruct (accept_frame frame (validator s)) as [[u|e] v] eqn:E.
  - apply accept_frame_Ok in E as (_ & Hn & Hv & _). rewrite Hi HX in Hn. split; [by eapply log_ok_same|].
    exists (sv_state v). split_and!; [done|by rewrite Hv|done|done|done].
  - by eapply log_ok_same.
Qed.

Lemma record_message_triple X Y l m (e : event) :
  message_of e = Some m → next_state identity X m = Ok Y →
  triple I (λ s, sv_identity (validator s) = identity ∧ sv_state (validator s) = Y ∧ log s = l ∧
                 run_states identity SHello (messages l) = Ok X)
    (record_event e) (λ _, at' Y (l ++ [e])).
Proof.
  intros He Hn s Hs (Hi & HY & Hl & Hr). unfold record_event. cbn [log].
  assert (run_states identity SHello (messages (l ++ [e])) = Ok Y) as Hrun.
  { rewrite messages_snoc He. by eapply run_states_snoc. }
  split.
  - eapply log_ok_snoc; [exact Hs| |done]. rewrite Hl.
    rewrite messages_snoc He in Hrun. cbn [option_list] in Hrun.
    destruct e; simplify_eq/=; by rewrite Hrun.
  - split_and!; [done|done|by rewrite Hl|done].
Qed.

Lemma send_triple X Y l m :
  next_state identity X m = Ok Y → triple I (at' X l) (send_runner_frame env identity m) (λ _, at' Y (l ++ [Sent m])).
Proof.
  intros Hn. eapply (triple_bind I _ get (λ s0 s, s0 = s ∧ at' X l s)); [by intros s Hs HP|].
  intros s0. eapply triple_bind.
  { eapply triple_weaken; [|intros a s _ HQ; exact HQ|apply (accept_now_triple X l)]. by intros s _ [_ ?]. }
  intros []. cbn [cf_message ControlFrame_new]. eapply triple_bind.
  { apply lift_then. intros bytes _. apply require_last. }
  intros []. eapply triple_weaken; [|intros a s _ HQ; exact HQ|by apply (record_message_triple X Y l m)].
  intros s _ (_ & Y' & HY & ? & ? & ? & ?). split_and!; try done. congruence.
Qed.

Lemma send_refused X l m s :
  next_state identity X m = Err InvalidSequence → I s → at' X l s →
  ∃ e s', send_runner_frame env identity m s = (Err e, s') ∧ I s'.
Proof.
  intros Hn Hs (Hi & HX & Hl & Hr). unfold send_runner_frame, get, mbind, M_bind. unfold accept_now.
  destruct (accept_frame _ (validator s)) as [[u|e] v] eqn:E.
  - apply accept_frame_Ok in E as (_ & Ha & _). rewrite Hi HX in Ha. cbn [cf_message ControlFrame_new] in Ha. congruence.
  - eexists _, _. split; [done|]. by eapply log_ok_same.
Qed.

Lemma send_then {B} X Y l m (f : unit → Runner B) R :
  next_state identity X m = Ok Y → triple I (at' Y (l ++ [Sent m])) (f tt) R →
  triple I (at' X l) (send_runner_frame env identity m ≫= f) R.
Proof. intros Hn Hf. eapply triple_bind; [by apply send_triple|]. by intros []. Qed.

Lemma accept_received_then {B} X l frame (f : unit → Runner B) R :
  (∀ Y, next_state identity X (cf_message frame) = Ok Y →
     triple I (at' Y (l ++ [Received (cf_message frame)])) (f tt) R) →
  triple I (at' X l) (accept_received frame ≫= f) R.
Proof.
  intros Hf. eapply (triple_bind I _ _ (λ _ s, ∃ Y, next_state identity X (cf_message frame) = Ok Y ∧
    at' Y (l ++ [Received (cf_message frame)]) s)).
  - eapply triple_bind; [apply accept_now_triple|]. intros [] s Hs (Y & HY & HP).
    pose proof (record_message_triple X Y l (cf_message frame) (Received (cf_message frame)) eq_refl HY s Hs HP) as Hr.
    destruct (record_event _ s) as [[a|e] s']; [|done]. destruct Hr as [? ?]. split; [done|]. by exists Y.
  - intros [] s Hs (Y & HY & HP). by apply (Hf Y).
Qed.

Lemma receive_then {B} X l (f : ControlFrame → Runner B) R :
  (∀ frame Y, next_state identity X (cf_message frame) = Ok Y →
     triple I (at' Y (l ++ [Received (cf_message frame)])) (f frame) R) →
  triple I (at' X l) (receive_runner_frame ≫= f) R.
Proof.
  intros Hf. eapply (triple_bind I _ _ (λ frame s, ∃ Y, next_state identity X (cf_message frame) = Ok Y ∧
    at' Y (l ++ [Received (cf_message frame)]) s)).
  - eapply (triple_bind I _ _ (λ _, at' X l)).
    { eapply triple_bind; [apply next_packet_triple|]. intros p. apply require_then. intros _.
      intros s Hs HP. unfold lift_runner. by destruct (decode_frame _). }
    intros frame. apply accept_received_then. intros Y HY. apply triple_ret. intros s _ Hat. by exists Y.
  - intros frame s Hs (Y & HY & HP). by apply (Hf frame Y).
Qed.

(** A frame of which the message is then required. *)
Lemma receive_exactly_then {B} X Y l m e (f : ControlFrame → Runner B) R :
  next_state identity X m = Ok Y →
  (∀ frame, cf_message frame = m → triple I (at' Y (l ++ [Received m])) (f frame) R) →
  triple I (at' X l) (frame ← receive_runner_frame; _ ← require (bool_decide (cf_message frame = m)) e; f frame) R.
Proof.
  intros Hn Hf. apply receive_then. intros frame Y' HY'. apply require_then. intros Hm%bool_decide_eq_true.
  rewrite Hm in HY' |- *. assert (Y' = Y) as -> by congruence. by apply Hf.
Qed.

(** A fork or a release. *)
Lemma record_action_then {B} X l e (f : unit → Runner B) R :
  message_of e = None → (run_states identity SHello (messages l) = Ok X → allowed identity l e) →
  triple I (at' X (l ++ [e])) (f tt) R → triple I (at' X l) (record_event e ≫= f) R.
Proof.
  intros He Ha Hf. eapply (triple_bind I _ _ (λ _, at' X (l ++ [e]))); [|by intros []]. intros s Hs (Hi & HX & Hl & Hr).
  split; [eapply log_ok_snoc; [exact Hs|rewrite Hl; by apply Ha|done]|].
  split_and!; [done|done|by cbn; rewrite Hl|]. by rewrite messages_snoc He app_nil_r.
Qed.

Lemma receive_argv_triple n a l :
  triple I (at' SArgvChunkOrEnd l) (receive_argv_fuel n a) (λ a' s, ∃ chunks es,
    at' SReady (l ++ es) s ∧ messages es = chunks ++ [MArgvEnd] ∧ forallb is_chunk chunks = true ∧
    push_messages chunks a = Ok a').
Proof.
  revert a l. induction n as [|n IH]; intros a l; cbn [receive_argv_fuel]; [by intros s Hs HP|].
  apply receive_then. intros frame Y HY. destruct (cf_message frame) eqn:Hm; try done.
  - injection HY as <-. destruct (push_chunk _ _ _ _ a) as [r a1] eqn:Hp. apply lift_then. intros [] ->.
    eapply triple_weaken; [by intros s _ HP; exact HP| |apply IH]. intros a' s _ (chunks & es & Hat & Hes & Hc & Hpush).
    exists (MArgvChunk argument_index offset total data :: chunks), (Received (MArgvChunk argument_index offset total data) :: es).
    split_and!; [by rewrite -app_assoc in Hat|by cbn; f_equal|done|]. cbn [push_messages]. by rewrite Hp.
  - injection HY as <-. apply triple_ret. intros s _ Hat. by exists [], [Received MArgvEnd].
Qed.

Lemma messages_app l1 l2 : messages (l1 ++ l2) = messages l1 ++ messages l2.
Proof. apply omap_app. Qed.

Lemma handshake_triple :
  triple I (at' SHello []) (handshake env identity) (λ argv s, ∃ l transfer,
    at' SReady l s ∧ messages l = MHello :: MHelloAck :: transfer ∧ transfers transfer argv).
Proof.
  unfold handshake. eapply send_then; [done|]. eapply receive_exactly_then; [done|]. intros hello_ack _.
  apply receive_then. intros frame Y HY. destruct (cf_message frame) eqn:Hm; try by (destruct Y; try done; intros s Hs HP).
  injection HY as <-. apply lift_then. intros a0 Hb.
  eapply (triple_bind I _ _ _ _ _ (λ s Hs HP, receive_argv_triple _ a0 _ s Hs HP)).
  intros a1. intros s Hs (chunks & es & Hat & Hes & Hc & Hpush).
  unfold lift_runner. destruct (ArgvAssembler_finish a1) as [argv|e] eqn:Hf; [|done]. split; [done|].
  eexists _, (MArgvBegin argument_count total_bytes :: chunks ++ [MArgvEnd]). split_and!; [exact Hat| |].
  - rewrite messages_app Hes. done.
  - by exists argument_count, total_bytes, chunks, a0, a1.
Qed.

Lemma receive_one_fd_then {B} X l (f : ControlFrame * Z → Runner B) R :
  (∀ a, triple I (at' X l) (f a) R) → triple I (at' X l) (receive_frame_with_one_fd ≫= f) R.
Proof.
  intros Hf. eapply (triple_bind I _ _ (λ _, at' X l)); [|done]. eapply triple_bind; [apply next_packet_triple|].
  intros p. destruct (collect_descriptors _ _ _ _) as [[files header_count] shape_valid]. apply require_then. intros _.
  apply lift_then. intros frame _. by apply triple_ret.
Qed.

Lemma place_triple l transfer argv :
  messages l = MHello :: MHelloAck :: transfer → transfers transfer argv →
  triple I (at' SReady l) (place_and_release env identity argv) (λ _ s, ∃ l',
    at' SExecutionEvent (l ++ l') s ∧ Forked argv ∈ l' ∧ Released ∈ l').
Proof.
  intros Hl Ht. unfold place_and_release. apply lift_then. intros [] _. eapply send_then; [done|].
  apply receive_one_fd_then. intros [ready_ack placement]. apply accept_received_then. intros Y HY.
  destruct (cf_message ready_ack) as [] eqn:Hm; try done. apply bind_Ok in HY as ([] & _ & [= <-]).
  apply lift_then. intros [] _. eapply send_then; [done|]. eapply receive_exactly_then; [done|]. intros go _.
  apply lift_then. intros now _. eapply send_then; [done|]. apply record_action_then; [done| |].
  { intros Hr. split; [done|]. rewrite !messages_app Hl. exists transfer. eexists. split; [|done]. cbn. by rewrite -!app_assoc. }
  apply lift_then. intros [] _. apply require_then. intros _. eapply send_then; [done|].
  eapply receive_exactly_then; [done|]. intros release _. apply record_action_then; [done| |].
  { intros Hr. split; [done|]. exists argv. rewrite !elem_of_app !list_elem_of_singleton. tauto. }
  intros s Hs HP. unfold require, lift_runner. destruct (release_written env); [|done]. split; [done|].
  rewrite -!app_assoc in HP. eexists. split_and!; [exact HP| |]; rewrite !elem_of_app !list_elem_of_singleton; tauto.
Qed.

(** Operations that neither converse nor act. *)
Definition quiet {A} (m : Runner A) : Prop := ∀ s, log (snd (m s)) = log s ∧ validator (snd (m s)) = validator s.

Lemma quiet_bind {A B} (m : Runner A) (f : A → Runner B) : quiet m → (∀ a, quiet (f a)) → quiet (m ≫= f).
Proof.
  intros Hm Hf s. unfold mbind, M_bind. specialize (Hm s). destruct (m s) as [[a|e] s']; [|done].
  destruct Hm as [<- <-]. apply Hf.
Qed.

Lemma quiet_then {A B} X l (m : Runner A) (f : A → Runner B) R :
  quiet m → (∀ a, triple I (at' X l) (f a) R) → triple I (at' X l) (m ≫= f) R.
Proof.
  intros Hm Hf. eapply triple_bind; [|exact Hf]. intros s Hs (Hi & HX & Hl & Hr). specialize (Hm s).
  destruct (m s) as [[a|e] s']; destruct Hm as [Hml Hmv]; simpl in *; [|by eapply log_ok_same].
  split; [by eapply log_ok_same|]. split_and!; congruence.
Qed.

Lemma quiet_drain bytes : quiet (drain_available_with_eof bytes).
Proof. intros s. unfold drain_available_with_eof. by destruct (drain_reads _ _). Qed.
Lemma quiet_wait : quiet next_wait.
Proof. intros s. unfold next_wait. by destruct (waits s). Qed.
Lemma quiet_poll : quiet next_poll.
Proof. intros s. unfold next_poll. by destruct (polls s). Qed.

Lemma quiet_drain_until n bytes reported :
  quiet (drain_until_fuel n env bytes reported) ∧ quiet (drain_wait n env bytes reported).
Proof.
  revert bytes. induction n as [|n IH]; intros bytes; [by split|]. split; cbn [drain_until_fuel drain_wait].
  - apply quiet_bind; [apply quiet_drain|]. intros [[b eof] o]. destruct o as [x|]; [|apply IH].
    destruct (negb reported); [done|apply IH].
  - apply quiet_bind; [apply quiet_wait|]. intros []; try done. apply IH.
Qed.

Lemma quiet_execution bytes reported : quiet (drain_until_execution_event env bytes reported).
Proof. intros s. apply quiet_drain_until. Qed.

Lemma quiet_eof n bytes : quiet (drain_to_eof_fuel n bytes).
Proof.
  revert bytes. induction n as [|n IH]; intros bytes; [done|]. cbn [drain_to_eof_fuel].
  apply quiet_bind; [apply quiet_drain|]. intros [[b eof] o]. destruct eof; [done|].
  apply quiet_bind; [apply quiet_poll|]. intros ready. apply quiet_bind; [by destruct ready|]. intros []. apply IH.
Qed.

Lemma completion_triple n bytes reported l X :
  X = SExecutionEvent ∨ X = SLeaderExited →
  triple I (at' X l) (await_completion n env identity bytes reported) (λ _ s, ∃ l' Y,
    (Y = SExecutionEvent ∨ Y = SLeaderExited) ∧ at' Y (l ++ l') s).
Proof.
  revert bytes reported l X. induction n as [|n IH]; intros bytes reported l X HX; cbn [await_completion]; [by intros s Hs HP|].
  apply quiet_then; [apply quiet_execution|]. intros [total rep|completion].
  - destruct HX as [->| ->].
    + eapply send_then; [done|]. eapply receive_exactly_then; [done|]. intros cleanup _.
      eapply triple_weaken; [by intros s _ HP; exact HP| |by apply IH; right].
      intros c s _ (l' & Y & HY & Hat). rewrite -!app_assoc in Hat. by eexists _, Y.
    + intros s Hs HP. pose proof (send_refused SLeaderExited l (MOutputLimitExceeded rep) s eq_refl Hs HP) as [e [s' [He Hs']]].
      unfold mbind, M_bind. by rewrite He.
  - apply triple_ret. intros s _ Hat. exists [], X. by rewrite app_nil_r.
Qed.

Lemma report_triple l :
  triple I (at' SExecutionEvent l) (report_result env identity) (λ _ s, ∃ l' decision,
    at' SComplete (l ++ l' ++ [Received (MDecision decision); Sent (MAck decision)]) s).
Proof.
  unfold report_result. eapply triple_bind; [by apply completion_triple; left|]. intros completion.
  intros s Hs (l' & Y & HY & Hat). revert s Hs Hat.
  assert (next_state identity Y (MLeaderExited (lc_category completion) (lc_elapsed_ns completion)) = Ok SOutputDrained) as Hn
    by by destruct HY as [->| ->].
  eapply send_then; [exact Hn|]. apply quiet_then; [intros s; apply quiet_eof|]. intros bytes.
  eapply send_then; [done|]. eapply receive_exactly_then; [done|]. intros accepted _.
  apply receive_then. intros frame Z HZ. destruct (cf_message frame) eqn:Hm; try done. injection HZ as <-.
  eapply send_then; [done|].
  eapply (triple_bind I _ get (λ _, at' SComplete _)); [by intros s Hs HP; split; [done|exact HP]|].
  intros s0 s Hs HP. unfold require, lift_runner. destruct (is_complete (validator s0)); [|done]. split; [done|].
  rewrite -!app_assoc in HP. exists (l' ++ [Sent (MLeaderExited (lc_category completion) (lc_elapsed_ns completion));
    Sent (MOutputDrained bytes); Received MResultAccepted]), decision. by rewrite -!app_assoc.
Qed.
End steps.



(** ** Whole runs *)

Lemma run_shape env identity s r s' :
  log s = [] → run_internal_runner env identity s = (r, s') →
  log_ok identity s' ∧ (r = Ok tt → ∃ argv l decision,
    at_log identity SComplete (l ++ [Received (MDecision decision); Sent (MAck decision)]) s' ∧ Forked argv ∈ l ∧ Released ∈ l).
Proof.
  intros Hlog Hrun. set (start := with_validator (start_validator identity) s).
  assert (triple (log_ok identity) (at_log identity SHello [])
    (argv ← handshake env identity; _ ← place_and_release env identity argv; report_result env identity)
    (λ _ s', ∃ argv l decision, at_log identity SComplete (l ++ [Received (MDecision decision); Sent (MAck decision)]) s'
      ∧ Forked argv ∈ l ∧ Released ∈ l)) as Htriple.
  { eapply triple_bind; [apply handshake_triple|]. intros argv s0 Hs0 (l & transfer & Hat & Hl & Ht). revert s0 Hs0 Hat.
    eapply triple_bind; [by eapply place_triple|]. intros [] s1 Hs1 (l1 & Hat & Hf & Hr).
    pose proof (report_triple env identity (l ++ l1) s1 Hs1 Hat) as Hrep.
    destruct (report_result env identity s1) as [[u|e] s2]; [|done]. destruct Hrep as [Hok (l2 & decision & Hat2)].
    split; [done|]. exists argv, ((l ++ l1) ++ l2), decision. rewrite -!app_assoc in Hat2 |- *. rewrite !elem_of_app. auto. }
  assert (log_ok identity start ∧ at_log identity SHello [] start) as [Hs0 Hat0].
  { split; [|by split_and!]. intros [|e0 before] e after Hx; simpl in Hx; congruence. }
  assert (log_ok identity s) as Hs by (intros [|e0 before] e after Hx; simpl in Hx; congruence).
  unfold run_internal_runner in Hrun. unfold require, lift_runner in Hrun. unfold mbind at 1 2 3 4 5, M_bind at 1 2 3 4 5 in Hrun.
  assert (∀ e : Stop, (Err e, s) = (r, s') → log_ok identity s' ∧ (r = Ok tt → ∃ argv l decision,
    at_log identity SComplete (l ++ [Received (MDecision decision); Sent (MAck decision)]) s' ∧ Forked argv ∈ l ∧ Released ∈ l))
    as Hearly by by intros e [= <- <-].
  destruct (undumpable env); [|exact (Hearly _ Hrun)]. destruct (spare_descriptors_closed env); [|exact (Hearly _ Hrun)].
  destruct (connected env); [|exact (Hearly _ Hrun)]. unfold SequenceValidator_new in Hrun.
  destruct (RunnerIdentity_validate identity); [|exact (Hearly _ Hrun)]. cbn [mbind result_bind] in Hrun.
  fold (start_validator identity) in Hrun. fold start in Hrun. specialize (Htriple start Hs0 Hat0).
  unfold mbind in Htriple, Hrun. rewrite Hrun in Htriple. destruct r as [[]|e]; [|done].
  destruct Htriple as [? ?]. by split.
Qed.

(** C7: Whatever the daemon sends and the kernel answers, in every run, finished or not: each
    frame was sent or accepted in its turn; the candidate is forked only between [Go] and
    [PayloadPlaced], on exactly the valid vector that was transferred; and it is released
    only after [PayloadRelease], when it was forked.  A run that returns without error has
    had a whole conversation and acknowledged the decision it was given. *)
Theorem runner_forks_and_releases_in_order env identity s :
  log s = [] →
  let '(r, s') := run_internal_runner env identity s in
  (∀ before e after, log s' = before ++ e :: after → allowed identity before e) ∧
  (∀ argv, Forked argv ∈ log s' → argv_valid argv) ∧
  (r = Ok tt → conversation identity (messages (log s')) ∧
     ∃ argv l decision, Forked argv ∈ log s' ∧ Released ∈ log s' ∧
       log s' = l ++ [Received (MDecision decision); Sent (MAck decision)]).
Proof.
  intros Hlog. destruct (run_internal_runner env identity s) as [r s'] eqn:Hrun.
  assert (log_ok identity s' ∧ (r = Ok tt → ∃ argv l decision,
    at_log identity SComplete (l ++ [Received (MDecision decision); Sent (MAck decision)]) s' ∧ Forked argv ∈ l ∧ Released ∈ l))
    as [Hok Hdone].
  { eapply run_shape; [exact Hlog|exact Hrun]. }
  split_and!; [exact Hok| |].
  - intros argv Hin. apply list_elem_of_split in Hin as (before & after & Hl).
    destruct (Hok _ _ _ Hl) as (_ & transfer & rest & _ & Ht). by eapply transfers_valid.
  - intros Hr. destruct (Hdone Hr) as (argv & l & decision & (_ & _ & Hl & Hc) & Hf & Hrel). rewrite Hl. split.
    + by apply conversation_complete.
    + exists argv, l, decision. rewrite !elem_of_app. auto.
Qed.

(** ** The argument loop ends *)

Lemma receive_consumes s :
  match packets s with
  | [] => receive_runner_frame s = (Err Blocked, s)
  | _ :: rest => ∃ r s', receive_runner_frame s = (r, s') ∧ packets s' = rest ∧ r ≠ Err Blocked
  end.
Proof.
  unfold receive_runner_frame, receive_frame_packet, next_packet, mbind, M_bind.
  destruct (packets s) as [|[|p] rest]; [done|by eexists _, _|].
  destruct (length (pk_bytes p) =? 0)%nat; [by eexists _, _|]. unfold require, lift_runner.
  destruct (zlen (pk_bytes p) <=? MAX_CONTROL_FRAME_BYTES); [|by eexists _, _].
  destruct (decode_frame (pk_bytes p)) as [frame|e]; [|by eexists _, _].
  unfold accept_received, accept_now, mbind, M_bind.
  destruct (accept_frame frame _) as [[u|e] v]; by eexists _, _.
Qed.

Lemma begin_bounds count total a :
  ArgvAssembler_begin count total = Ok a → received_total a = 0 ∧ expected_total a ≤ MAX_ARGV_BYTES.
Proof.
  unfold ArgvAssembler_begin. intros H0. inv_ok. match goal with H : Ok _ = Ok a |- _ => injection H as <- end.
  cbn [received_total expected_total]. lia.
Qed.

Lemma receive_argv_fuel_bounded n a s :
  0 ≤ received_total a ≤ MAX_ARGV_BYTES → expected_total a ≤ MAX_ARGV_BYTES → (length (packets s) < n)%nat →
  let '(r, s') := receive_argv_fuel n a s in
  zlen (packets s) - zlen (packets s') ≤ MAX_ARGV_BYTES - received_total a + 1 ∧ (r = Err Blocked → packets s' = []).
Proof.
  revert a s. induction n as [|n IH]; intros a s Ha He Hn; [lia|]. cbn [receive_argv_fuel].
  pose proof (receive_consumes s) as Hc. destruct (packets s) as [|p rest] eqn:Hp.
  { unfold mbind, M_bind. rewrite Hc. rewrite Hp. split; [simpl; lia|done]. }
  destruct Hc as (r & s1 & Hr & Hp1 & Hnb). unfold mbind, M_bind. rewrite Hr. cbn [length] in *.
  destruct r as [frame|e]; [|rewrite Hp1; split; [lia|congruence]].
  destruct (cf_message frame); try (unfold lift_runner, mret, M_ret; rewrite Hp1; split; [lia|done]).
  destruct (push_chunk _ _ _ _ a) as [r a1] eqn:Hpush. unfold lift_runner.
  destruct r as [u|e]; [|rewrite Hp1; split; [lia|done]].
  apply push_chunk_Ok in Hpush as (d & _ & _ & _ & _ & _ & Hd & _ & _ & Hr1%sum_exceeds_false & ->); [|lia|unfold MAX_ARGV_BYTES, MAX_ARGV_CHUNK_BYTES in *; lia].
  set (a1 := Build_ArgvAssembler _ _ _ _ _). specialize (IH a1 s1). cbn [received_total expected_total a1] in IH.
  rewrite Hp1 in IH. specialize (IH ltac:(lia) He ltac:(lia)). destruct (receive_argv_fuel n a1 s1) as [r2 s2].
  destruct IH as [IH1 IH2]. split; [lia|done].
Qed.

(** The loop that receives the arguments ends: from any begun assembler it consumes at
    most one packet per byte of the 256 KiB and one more, whatever they hold, and waits
    forever only when the peer neither sends nor closes. *)
Theorem argument_loop_terminates count total a s :
  ArgvAssembler_begin count total = Ok a →
  let '(r, s') := receive_argv a s in
  zlen (packets s) - zlen (packets s') ≤ MAX_ARGV_BYTES + 1 ∧ (r = Err Blocked → packets s' = []).
Proof.
  intros [Hr He]%begin_bounds.
  pose proof (receive_argv_fuel_bounded (S (length (packets s))) a s ltac:(unfold MAX_ARGV_BYTES; lia) He ltac:(lia)) as Hb.
  unfold receive_argv. destruct (receive_argv_fuel _ a s) as [r s']. destruct Hb as [Hb Hn]. split; [lia|done].
Qed.
End run.
