(* ===== verification/RunnerOutput.v ===== *)
(** The counting of the candidate's output in RunnerRun.v: every byte read is counted once,
    the excess is reported exactly when the limit is first crossed before the exit, and the
    fuel of the loops is enough. *)
From S2P Require Import Prelude Utf8 Base64 Protocol Speculation EvidenceFs RunnerProtocol RunnerRun.

Abbreviation limit := MAX_CANDIDATE_OUTPUT_BYTES.

Definition bytes_of_read (a : read_answer) : Z := match a with ReadBytes n => n | _ => 0 end.
Definition total_read (rs : list read_answer) : Z := foldr (λ a n, bytes_of_read a + n) 0 rs.

(** [read] never answers a negative count. *)
Definition counts (rs : list read_answer) : Prop := Forall (λ a, 0 ≤ bytes_of_read a) rs.

Lemma total_read_cons a rs : total_read (a :: rs) = bytes_of_read a + total_read rs.
Proof. done. Qed.

Lemma total_read_app r1 r2 : total_read (r1 ++ r2) = total_read r1 + total_read r2.
Proof. induction r1 as [|a r1 IH]; [done|]. cbn [app]. rewrite !total_read_cons IH. lia. Qed.

Lemma total_read_nonneg rs : counts rs → 0 ≤ total_read rs.
Proof. induction 1 as [|a rs Ha _ IH]; [done|]. rewrite total_read_cons. lia. Qed.

Lemma limit_small : limit < u64_max.
Proof. by vm_compute. Qed.

(** The counter after reading [used]. *)
Definition counted (b : Z) (used : list read_answer) : Z := Z.min u64_max (b + total_read used).

Lemma counted_app b u1 u2 : counts u2 → counted (counted b u1) u2 = counted b (u1 ++ u2).
Proof. intros H%total_read_nonneg. unfold counted. rewrite total_read_app. lia. Qed.

Lemma counted_over b used : limit < counted b used ↔ limit < b + total_read used.
Proof. unfold counted. pose proof limit_small. lia. Qed.

Lemma drain_reads_spec rs b b' eof overflow rest :
  counts rs → 0 ≤ b ≤ u64_max →
  drain_reads rs b = (Some (Ok (b', eof, overflow)), rest) →
  ∃ used, rs = used ++ rest ∧ b' = counted b used ∧
    overflow = if (b <=? limit) && (limit <? b') then Some (limit + 1) else None.
Proof.
  intros Hrs. revert b. induction Hrs as [|a rs Ha Hrs IH]; intros b Hb; [done|].
  assert (∀ eof0, (Some (Ok (E:=RunnerProtocolError) (b, eof0, None)), rs) = (Some (Ok (b', eof, overflow)), rest) →
    bytes_of_read a = 0 → ∃ used, a :: rs = used ++ rest ∧ b' = counted b used ∧
    overflow = if (b <=? limit) && (limit <? b') then Some (limit + 1) else None) as Hstop.
  { intros eof0 [= -> -> <- <-] Hz. exists [a]. split_and!; [done| |].
    - unfold counted. rewrite total_read_cons Hz. change (total_read []) with 0. lia.
    - assert ((b' <=? limit) && (limit <? b') = false) as -> by lia. done. }
  destruct a as [n| | | |]; cbn [drain_reads]; try (intros Hd; exact (Hstop _ Hd eq_refl)); [|done].
  cbn [bytes_of_read] in Ha. unfold account_output_read, saturating_add.
  assert (counted b [ReadBytes n] = Z.min u64_max (b + n)) as Hn by (unfold counted; rewrite total_read_cons; change (total_read []) with 0; f_equal; cbn; lia).
  rewrite -Hn. assert (0 ≤ counted b [ReadBytes n] ≤ u64_max) as Hb1 by (rewrite Hn; lia).
  destruct ((b <=? limit) && (counted b [ReadBytes n] >? limit)) eqn:Ho; cbn [is_some].
  - intros [= <- <- <- <-]. exists [ReadBytes n]. split_and!; [done|done|].
    by rewrite (_ : (b <=? limit) && (limit <? counted b [ReadBytes n]) = true); [|lia].
  - intros (used & -> & -> & ->)%IH; [|done]. exists (ReadBytes n :: used).
    assert (counts used) as Hu by (by apply Forall_app in Hrs as [? _]).
    rewrite counted_app //. split_and!; [done|done|]. cbn [app].
    assert (counted b [ReadBytes n] ≤ counted b (ReadBytes n :: used)) as Hle.
    { apply total_read_nonneg in Hu. unfold counted. rewrite !total_read_cons. change (total_read []) with 0. lia. }
    assert (b ≤ counted b [ReadBytes n]) by (rewrite Hn; lia).
    destruct (Z.leb_spec b limit); destruct (Z.leb_spec (counted b [ReadBytes n]) limit); simpl in *; try done; lia.
Qed.

(** What a drain leaves alone. *)
Definition same_but_reads (s s' : Run) : Prop := log s' = log s ∧ validator s' = validator s.

Lemma drain_available_Ok b b' eof overflow s s' :
  counts (reads s) → 0 ≤ b ≤ u64_max →
  drain_available_with_eof b s = (Ok (b', eof, overflow), s') →
  same_but_reads s s' ∧ ∃ used, reads s = used ++ reads s' ∧ b' = counted b used ∧
    overflow = if (b <=? limit) && (limit <? b') then Some (limit + 1) else None.
Proof.
  intros Hc Hb. unfold drain_available_with_eof. destruct (drain_reads (reads s) b) as [o rest] eqn:Hd.
  destruct o as [[a|e]|]; try done. intros [= -> <-]. split; [done|]. by apply drain_reads_spec in Hd.
Qed.

(** How the wait for an event of the execution ends. *)
Definition progressed (b : Z) (reported : bool) (used : list read_answer) (p : ExecutionProgress) : Prop :=
  match p with
  | OutputLimit total rep => reported = false ∧ total = counted b used ∧ limit < total ∧ rep = limit + 1
  | LeaderExited c =>
    lc_bytes c = counted b used ∧ reported = (limit <? lc_bytes c) ∧
    (lc_category c = ROutputLimitExceeded ↔ limit < lc_bytes c)
  end.

Lemma counts_rest used rest : counts (used ++ rest) → counts used ∧ counts rest.
Proof. apply Forall_app. Qed.

Lemma counted_bounds b used : counts used → 0 ≤ b ≤ u64_max → 0 ≤ counted b used ≤ u64_max ∧ b ≤ counted b used.
Proof. intros H%total_read_nonneg Hb. unfold counted. lia. Qed.

Lemma exit_category_limit reported b status :
  reported = (limit <? b) → exit_category_of reported b status = ROutputLimitExceeded ↔ limit < b.
Proof.
  intros ->. unfold exit_category_of. rewrite Z.gtb_ltb orb_diag. destruct (Z.ltb_spec limit b) as [Hl|Hl]; [done|].
  split; [|lia]. destruct status as [|code| | |]; try done. by destruct (code =? 0).
Qed.

Lemma drain_until_Ok n env b reported s p s' :
  counts (reads s) → 0 ≤ b ≤ u64_max → reported = (limit <? b) →
  (drain_until_fuel n env b reported s = (Ok p, s') ∨ drain_wait n env b reported s = (Ok p, s')) →
  same_but_reads s s' ∧ ∃ used, reads s = used ++ reads s' ∧ progressed b reported used p.
Proof.
  revert b s. induction n as [|n IH]; intros b s Hc Hb Hrep; cbn [drain_until_fuel drain_wait]; intros [Hrun|Hrun]; try done.
  - apply M_bind_Ok in Hrun as ([[b1 eof] overflow] & s1 & Hd & Hrun).
    apply drain_available_Ok in Hd as ([Hl1 Hv1] & used & Hu & -> & Ho); [|done|done].
    rewrite Hu in Hc. apply counts_rest in Hc as [Hc0 Hc1].
    pose proof (counted_bounds b used Hc0 Hb) as [Hb1 Hle].
    assert (reported = (limit <? counted b used) → drain_wait n env (counted b used) reported s1 = (Ok p, s') →
      same_but_reads s s' ∧ ∃ used, reads s = used ++ reads s' ∧ progressed b reported used p) as Hwait.
    { intros Hr Hw. destruct (IH (counted b used) s1 Hc1 Hb1 Hr (or_intror Hw)) as ([Hl2 Hv2] & used2 & Hu2 & Hp).
      split; [split; congruence|]. exists (used ++ used2). rewrite Hu Hu2 app_assoc. split; [done|].
      rewrite Hu2 in Hc1. apply counts_rest in Hc1 as [Hc2 _].
      destruct p as [total rep|c]; cbn [progressed] in *; by rewrite -counted_app. }
    destruct ((b <=? limit) && (limit <? counted b used)) eqn:Hx; subst overflow.
    + apply andb_true in Hx as [Hx1%Z.leb_le Hx2%Z.ltb_lt].
      assert (reported = false) as -> by (rewrite Hrep; by apply Z.ltb_ge). cbn [negb] in Hrun.
      unfold mret, M_ret in Hrun. simplify_eq. split; [done|]. exists used. split; [done|]. cbn [progressed]. by split_and!.
    + apply Hwait; [|done]. rewrite Hrep. apply andb_false_iff in Hx as [Hx%Z.leb_gt|Hx%Z.ltb_ge].
      * by rewrite !(proj2 (Z.ltb_lt _ _)); [|lia..].
      * by rewrite !(proj2 (Z.ltb_ge _ _)); [|lia..].
  - apply M_bind_Ok in Hrun as (status & s1 & Hw & Hrun). unfold next_wait in Hw.
    destruct (waits s) as [|w rest] eqn:Hws; [done|]. injection Hw as <- <-.
    assert (∀ st, (mret (LeaderExited {| lc_category := exit_category_of reported b st; lc_bytes := b;
      lc_elapsed_ns := Z.min u64_max (elapsed_nanos env) |}) : M Run Stop ExecutionProgress)
      {| packets := packets s; reads := reads s; waits := rest; polls := polls s; validator := validator s; log := log s |}
      = (Ok p, s') → same_but_reads s s' ∧ ∃ used, reads s = used ++ reads s' ∧ progressed b reported used p) as Hexit.
    { intros st. unfold mret, M_ret. intros [= <- <-]. split; [done|]. exists []. split; [done|].
      cbn [progressed lc_bytes lc_category]. split_and!; [unfold counted; simpl; lia|done|by apply exit_category_limit]. }
    destruct w; try exact (Hexit _ Hrun); [|done].
    set (s1 := Build_Run _ _ _ _ _ _) in Hrun.
    destruct (IH b s1 Hc Hb Hrep (or_introl Hrun)) as ([Hl2 Hv2] & used & Hu & Hp). split; [done|]. by exists used.
Qed.

Lemma drain_execution_Ok env b reported s p s' :
  counts (reads s) → 0 ≤ b ≤ u64_max → reported = (limit <? b) →
  drain_until_execution_event env b reported s = (Ok p, s') →
  same_but_reads s s' ∧ ∃ used, reads s = used ++ reads s' ∧ progressed b reported used p.
Proof. intros Hc Hb Hr Hrun. eapply drain_until_Ok; [done..|by left]. Qed.

Lemma drain_eof_Ok n b s b' s' :
  counts (reads s) → 0 ≤ b ≤ u64_max → drain_to_eof_fuel n b s = (Ok b', s') →
  same_but_reads s s' ∧ ∃ used, reads s = used ++ reads s' ∧ b' = counted b used.
Proof.
  revert b s. induction n as [|n IH]; intros b s Hc Hb Hrun; [done|]. cbn [drain_to_eof_fuel] in Hrun.
  apply M_bind_Ok in Hrun as ([[b1 eof] overflow] & s1 & Hd & Hrun).
  apply drain_available_Ok in Hd as ([Hl1 Hv1] & used & Hu & -> & _); [|done|done].
  rewrite Hu in Hc. apply counts_rest in Hc as [Hc0 Hc1]. pose proof (counted_bounds b used Hc0 Hb) as [Hb1 _].
  destruct eof; [unfold mret, M_ret in Hrun; simplify_eq; split; [done|by exists used]|].
  apply M_bind_Ok in Hrun as (ready & s2 & Hp & Hrun). unfold next_poll in Hp. destruct (polls s1); [done|].
  injection Hp as <- <-. apply M_bind_Ok in Hrun as ([] & s3 & Hr & Hrun). unfold require, lift_runner in Hr.
  destruct b0; [|done]. injection Hr as <-.
  apply IH in Hrun as ([Hl3 Hv3] & used2 & Hu2 & ->); [|done|done]. split; [split; simpl in *; congruence|].
  simpl in Hu2. exists (used ++ used2). rewrite Hu Hu2 app_assoc. split; [done|].
  rewrite counted_app //. rewrite Hu2 in Hc1. by apply counts_rest in Hc1 as [? _].
Qed.

Section run.
Context `{JsonCodec ControlFrame}.

Lemma send_Ok env identity m s u s' :
  send_runner_frame env identity m s = (Ok u, s') → log s' = log s ++ [Sent m] ∧ reads s' = reads s.
Proof.
  intros Hrun. apply M_bind_Ok in Hrun as (s0 & s1 & Hg & Hrun). injection Hg as -> <-.
  apply M_bind_Ok in Hrun as ([] & s2 & Ha & Hrun). unfold accept_now in Ha.
  destruct (accept_frame _ _) as [[u0|e] v]; [|done]. injection Ha as _ <-.
  apply M_bind_Ok in Hrun as ([] & s3 & Hp & Hrun).
  apply M_bind_Ok in Hp as (bytes & s4 & He & Hp). unfold lift_runner in He.
  destruct (encode_frame _); [|done]. injection He as _ <-. unfold require, lift_runner in Hp.
  destruct (sent_whole _ _); [|done]. injection Hp as <-. unfold record_event in Hrun. by simplify_eq.
Qed.

Lemma receive_Ok frame s s' :
  receive_runner_frame s = (Ok frame, s') → log s' = log s ++ [Received (cf_message frame)] ∧ reads s' = reads s.
Proof.
  intros Hrun. apply M_bind_Ok in Hrun as (f & s1 & Hf & Hrun).
  assert (log s1 = log s ∧ reads s1 = reads s) as [Hl1 Hr1].
  { apply M_bind_Ok in Hf as (p & s2 & Hp & Hf). unfold next_packet in Hp.
    destruct (packets s) as [|[|q] rest]; [done|done|]. destruct (_ =? 0)%nat; [done|]. injection Hp as _ <-.
    apply M_bind_Ok in Hf as ([] & s3 & Hq & Hf). unfold require, lift_runner in Hq.
    destruct (_ <=? _) in Hq; [|done]. injection Hq as <-. unfold lift_runner in Hf. by destruct (decode_frame _); simplify_eq. }
  apply M_bind_Ok in Hrun as ([] & s2 & Ha & Hrun). unfold mret, M_ret in Hrun. simplify_eq.
  apply M_bind_Ok in Ha as ([] & s3 & Hacc & Ha). unfold accept_now in Hacc.
  destruct (accept_frame _ _) as [[u0|e] v]; [|done]. injection Hacc as _ <-. unfold record_event in Ha. simplify_eq. simpl. by rewrite Hl1 Hr1.
Qed.

Lemma receive_exactly_Ok {B} m e (f : ControlFrame → Runner B) s b s' :
  (frame ← receive_runner_frame; _ ← require (bool_decide (cf_message frame = m)) e; f frame) s = (Ok b, s') →
  ∃ frame s1, f frame s1 = (Ok b, s') ∧ log s1 = log s ++ [Received m] ∧ reads s1 = reads s.
Proof.
  intros Hrun. apply M_bind_Ok in Hrun as (frame & s1 & Hf & Hrun). apply receive_Ok in Hf as [Hl Hr].
  apply M_bind_Ok in Hrun as ([] & s2 & Hq & Hrun). unfold require, lift_runner in Hq.
  case_bool_decide; [|done]. injection Hq as <-. subst. by exists frame, s1.
Qed.

(** The messages of an overflow. *)
Definition overflow_events (over : bool) : list event :=
  if over then [Sent (MOutputLimitExceeded (limit + 1)); Received MOutputCleanupClaimed] else [].

Lemma await_completion_Ok n env identity b reported s c s' :
  counts (reads s) → 0 ≤ b ≤ u64_max → reported = (limit <? b) →
  await_completion n env identity b reported s = (Ok c, s') →
  ∃ used, reads s = used ++ reads s' ∧ lc_bytes c = counted b used ∧
    (lc_category c = ROutputLimitExceeded ↔ limit < lc_bytes c) ∧
    log s' = log s ++ overflow_events (negb reported && (limit <? lc_bytes c)).
Proof.
  revert b reported s. induction n as [|n IH]; intros b reported s Hc Hb Hrep Hrun; [done|]. cbn [await_completion] in Hrun.
  apply M_bind_Ok in Hrun as (p & s1 & Hp & Hrun).
  apply drain_execution_Ok in Hp as ([Hl1 Hv1] & used & Hu & Hp); [|done..]. destruct p as [total rep|c0]; cbn [progressed] in Hp.
  - destruct Hp as (-> & -> & Hlim & ->). rewrite Hu in Hc. apply counts_rest in Hc as [Hc0 Hc1].
    pose proof (counted_bounds b used Hc0 Hb) as [Hb1 _].
    apply M_bind_Ok in Hrun as ([] & s2 & Hs & Hrun). apply send_Ok in Hs as [Hl2 Hr2].
    apply receive_exactly_Ok in Hrun as (frame & s3 & Hrun & Hl3 & Hr3).
    apply IH in Hrun as (used2 & Hu2 & Hby & Hcat & Hlog); [|congruence|done|by symmetry; apply Z.ltb_lt].
    exists (used ++ used2). assert (counts used2) as Hc2.
    { rewrite -Hr2 -Hr3 Hu2 in Hc1. by apply counts_rest in Hc1 as [? _]. }
    rewrite -counted_app //. split_and!; [|done|done|].
    + by rewrite Hu -Hr2 -Hr3 Hu2 app_assoc.
    + rewrite Hlog Hl3 Hl2 Hl1 /= app_nil_r. pose proof (counted_bounds _ used2 Hc2 Hb1) as [_ Hle].
      rewrite (proj2 (Z.ltb_lt _ _)); [by rewrite -app_assoc|lia].
  - unfold mret, M_ret in Hrun. injection Hrun as <- <-. destruct Hp as (Hby & Hr & Hcat).
    exists used. split_and!; [done|done|done|]. rewrite -Hr andb_negb_l app_nil_r. done.
Qed.

(** The output of the candidate is counted exactly. A finished run drained to the end
    reports every byte read (up to the 64-bit maximum); the excess over the limit is reported
    exactly when the limit was crossed before the exit, once, as the first byte too many, and
    the exit category says so in exactly those runs. *)
Theorem output_counted_exactly env identity s s' :
  counts (reads s) → report_result env identity s = (Ok tt, s') →
  ∃ before_exit after_exit category elapsed decision,
    reads s = before_exit ++ after_exit ++ reads s' ∧
    (category = ROutputLimitExceeded ↔ limit < total_read before_exit) ∧
    log s' = log s ++ overflow_events (limit <? total_read before_exit) ++
      [Sent (MLeaderExited category elapsed); Sent (MOutputDrained (Z.min u64_max (total_read (before_exit ++ after_exit))));
       Received MResultAccepted; Received (MDecision decision); Sent (MAck decision)].
Proof.
  intros Hc Hrun. apply M_bind_Ok in Hrun as (c & s1 & Hcomp & Hrun).
  apply await_completion_Ok in Hcomp as (used & Hu & Hby & Hcat & Hl1); [|done|done|done].
  rewrite Hu in Hc. apply counts_rest in Hc as [Hc0 Hc1].
  pose proof (counted_bounds 0 used Hc0 ltac:(unfold u64_max; lia)) as [Hb1 _]. rewrite -Hby in Hb1.
  apply M_bind_Ok in Hrun as ([] & s2 & Hs & Hrun). apply send_Ok in Hs as [Hl2 Hr2].
  apply M_bind_Ok in Hrun as (b & s3 & He & Hrun). apply drain_eof_Ok in He as ([Hl3 _] & used2 & Hu2 & Hb); [|congruence|done].
  assert (counts used2) as Hc2 by (rewrite -Hr2 Hu2 in Hc1; by apply counts_rest in Hc1 as [? _]).
  rewrite Hby counted_app // in Hb. assert (limit < lc_bytes c ↔ limit < total_read used) as Hover.
  { rewrite Hby counted_over. by rewrite Z.add_0_l. }
  apply M_bind_Ok in Hrun as ([] & s4 & Hs & Hrun). apply send_Ok in Hs as [Hl4 Hr4].
  apply receive_exactly_Ok in Hrun as (accepted & s5 & Hrun & Hl5 & Hr5).
  apply M_bind_Ok in Hrun as (frame & s6 & Hf & Hrun). apply receive_Ok in Hf as [Hl6 Hr6].
  destruct (cf_message frame) eqn:Hm; try done. apply M_bind_Ok in Hrun as ([] & s7 & Hs & Hrun). apply send_Ok in Hs as [Hl7 Hr7].
  apply M_bind_Ok in Hrun as (s8 & s9 & Hg & Hrun). injection Hg as -> <-. unfold require, lift_runner in Hrun.
  destruct (is_complete _) in Hrun; [|done]. injection Hrun as <-.
  exists used, used2, (lc_category c), (lc_elapsed_ns c), decision. split_and!.
  - rewrite Hu. f_equal. rewrite -Hr2 Hu2. f_equal. congruence.
  - by rewrite Hcat.
  - rewrite Hl7 Hl6 Hl5 Hl4 Hl3 Hl2 Hl1 Hb -!app_assoc. cbn [negb andb].
    rewrite (_ : (limit <? lc_bytes c) = (limit <? total_read used)); [|by apply Bool.eq_iff_eq_true; rewrite !Z.ltb_lt].
    unfold counted. by rewrite Z.add_0_l.
Qed.
End run.
