(* ===== verification/RunnerScenario.v ===== *)
(** A run of the runner that evaluates: one argument, a placement, an overflow of the output
    before the exit, and the decision to select.  It provides the states at which the
    theorems of RunnerProtocol.v, RunnerRun.v and RunnerOutput.v are applied. *)
From S2P Require Import Prelude Utf8 Base64 Protocol Speculation EvidenceFs SimKernel RunnerProtocol RunnerRun RunnerOutput.

Definition sample_runner : RunnerIdentity := {| ri_tournament_uuid := 7; ri_candidate_index := 0; ri_generation := 3 |}.

Definition sample_placement : PlacementDescriptorEvidence :=
  {| pd_kind := PayloadCgroupProcs; file_dev := 1; file_ino := 2; file_statx_mnt_id_unique := 9; payload_dev := 1;
     payload_ino := 3; payload_statx_mnt_id_unique := 9; pd_candidate_index := 0; pd_generation := 3 |}.

Definition sample_argv : list (list byte) := [lit "/bin/true"].

Definition sample_conversation : list ControlMessage :=
  [MHello; MHelloAck] ++ argv_messages sample_argv ++
  [MReady; MReadyAck sample_placement; MPayloadFdAck; MGo; MGoReceived 5; MPayloadPlaced; MPayloadRelease;
   MOutputLimitExceeded (limit + 1); MOutputCleanupClaimed; MLeaderExited ROutputLimitExceeded 8;
   MOutputDrained (limit + 60); MResultAccepted; MDecision Select; MAck Select].

#[export] Instance sample_frames : JsonCodec ControlFrame := table_codec (number sample_runner 0 sample_conversation).

(** The frame of a number, as a packet. *)
Definition packet_of (headers : list cmsg) (i : Z) : recv_answer :=
  RecvPacket {| pk_bytes := [i]; pk_truncated := false; pk_headers := headers |}.
Definition plain : Z → recv_answer := packet_of [].

Definition sample_env : Environment :=
  {| undumpable := true; spare_descriptors_closed := true; connected := true; pty_opened := Ok tt;
     facts := λ _, {| df_writable := true; df_metadata := Some (1, 2); df_statfs := Some CGROUP2_SUPER_MAGIC;
                      df_statx := Some (Some 9); df_link := Some (Some (lit "cgroup.procs"), Some (lit "payload")) |};
     go_received_at := Ok 5; forked := λ _, Ok tt; placed_byte := Some 0x50; release_written := true;
     sent_whole := λ _, true; elapsed_nanos := 8 |}.

Definition sample_run : Run :=
  {| packets := (plain <$> [1; 2; 3; 4]) ++ [packet_of [{| cm_len := 20; cm_rights := true; cm_raw := λ _, 5 |}] 6]
                ++ (plain <$> [8; 11; 13; 16; 17]);
     reads := [ReadBytes 10; ReadWouldBlock; ReadBytes limit; ReadBytes 20; ReadWouldBlock; ReadBytes 30; ReadEof];
     waits := [StillRunning; Exited 0]; polls := [true];
     validator := start_validator sample_runner; log := [] |}.

Example sample_run_completes :
  fst (run_internal_runner sample_env sample_runner sample_run) = Ok tt.
Proof. vm_compute. reflexivity. Qed.

(** ** The theorems applied to the run *)

Lemma runner_forks_and_releases_in_order_witness :
  let run := run_internal_runner sample_env sample_runner sample_run in
  fst run = Ok tt ∧ conversation sample_runner (messages (log (snd run))).
Proof.
  intros run. assert (fst run = Ok tt) as Hok by (vm_compute; reflexivity). split; [exact Hok|].
  pose proof (runner_forks_and_releases_in_order sample_env sample_runner sample_run eq_refl) as Hr.
  fold run in Hr. destruct run as [r s']. destruct Hr as (_ & _ & Hr). exact (proj1 (Hr Hok)).
Defined.

Lemma u8s_lit : Forall u8s sample_argv.
Proof. apply (bool_decide_unpack _). vm_compute. reflexivity. Qed.

Lemma argv_transfer_exact_witness :
  is_ok (argv_frames sample_runner 2 sample_argv) = true ∧ transfers (argv_messages sample_argv) sample_argv.
Proof.
  split; [vm_compute; reflexivity|].
  destruct (argv_frames sample_runner 2 sample_argv) as [frames|e] eqn:E; [|exfalso; revert E; vm_compute; discriminate].
  apply (proj1 (argv_transfer_exact sample_runner 2 sample_argv u8s_lit) frames E). vm_compute. discriminate.
Defined.

(** The assembler of [ArgvBegin 1 9]. *)
Definition sample_assembler : ArgvAssembler := assembler_at sample_argv 0 [].

Lemma argument_loop_terminates_witness :
  fst (receive_argv sample_assembler sample_run) ≠ Err Blocked.
Proof.
  pose proof (argument_loop_terminates 1 9 sample_assembler sample_run ltac:(vm_compute; reflexivity)) as Ht.
  destruct (receive_argv sample_assembler sample_run) as [r s'] eqn:E.
  destruct Ht as [_ Ht]. intros Hb. specialize (Ht Hb). revert Ht.
  assert (packets s' = packets (snd (receive_argv sample_assembler sample_run))) as -> by (rewrite E; reflexivity).
  vm_compute. discriminate.
Defined.

(** The run up to the release of the candidate. *)
Definition released_run : Run :=
  snd ((argv ← handshake sample_env sample_runner; place_and_release sample_env sample_runner argv) sample_run).

Lemma output_counted_exactly_witness :
  fst (report_result sample_env sample_runner released_run) = Ok tt ∧
  ∃ before_exit after_exit, reads released_run = before_exit ++ after_exit ++ [] ∧
    Sent (MOutputDrained (Z.min u64_max (total_read (before_exit ++ after_exit)))) ∈
      log (snd (report_result sample_env sample_runner released_run)).
Proof.
  assert (fst (report_result sample_env sample_runner released_run) = Ok tt) as Hok by (vm_compute; reflexivity).
  assert (counts (reads released_run)) as Hc.
  { assert (reads released_run = reads sample_run) as -> by (vm_compute; reflexivity).
    unfold counts. repeat constructor; vm_compute; discriminate. }
  assert (reads (snd (report_result sample_env sample_runner released_run)) = []) as Hend by (vm_compute; reflexivity).
  destruct (report_result sample_env sample_runner released_run) as [r s'] eqn:E. cbn [fst snd] in *. subst r.
  destruct (output_counted_exactly sample_env sample_runner released_run s' Hc E)
    as (before_exit & after_exit & category & elapsed & decision & Hreads & _ & Hlog).
  split; [reflexivity|]. rewrite Hend in Hreads. exists before_exit, after_exit. split; [exact Hreads|].
  rewrite Hlog. clear. generalize (log released_run). intros l. apply elem_of_app. right.
  apply elem_of_app. right. apply list_elem_of_further, list_elem_of_here.
Defined.
