(* ===== verification/TournamentRecord.v ===== *)
(** [src/speculation_registry.rs], the durable tournament record: its data, its validation,
    the lifecycles of the cgroups it accounts for, and the progress order that every write
    must respect.  The store of 1024 slots is in TournamentStore.v.

    The theorems: the evidence a record may carry is determined by its lifecycle states; a
    created cgroup is never forgotten before its removal is recorded; the progress order is
    a preorder, so no sequence of accepted writes takes public evidence back; the winner
    that validation recomputes is the one the score of Speculation.v selects. *)
From S2P Require Import Prelude Utf8 Base64 Protocol Speculation EvidenceFs.

(** ** Cgroup lifecycles *)

Inductive TournamentCgroupLifecycleState : Set :=
  | TPlanned
  | TCreatePending
  | TCreated
  | TRemovePending
  | TRemoved
  | TRollbackRequired.

#[global] Instance TournamentCgroupLifecycleState_eq_dec : EqDecision TournamentCgroupLifecycleState.
Proof. solve_decision. Defined.

Definition tournament_cgroup_is_legal_transition (self next : TournamentCgroupLifecycleState) : bool :=
  match self, next with
  | TPlanned, (TPlanned | TCreatePending | TRemoved | TRollbackRequired)
  | TCreatePending, (TCreatePending | TCreated | TRollbackRequired)
  | TCreated, (TCreated | TRemovePending | TRollbackRequired)
  | TRemovePending, (TRemovePending | TRemoved | TRollbackRequired)
  | TRemoved, (TRemoved | TRollbackRequired)
  | TRollbackRequired, TRollbackRequired => true
  | _, _ => false
  end.

Inductive CgroupForwardState : Set :=
  | Planned
  | ParentCreatePending
  | ParentCreated
  | ControlCreatePending
  | ControlCreated
  | PayloadCreatePending
  | PayloadCreated
  | ProbePending
  | ProbeEmpty
  | ControlAttachPending
  | ControlAttached
  | PayloadFdTransferPending
  | PayloadArmed
  | PayloadExecPending
  | PayloadAttached
  | PayloadKillPending
  | PayloadEmpty.

#[global] Instance CgroupForwardState_eq_dec : EqDecision CgroupForwardState.
Proof. solve_decision. Defined.

Inductive CgroupLifecycleState : Set :=
  | Forward (state : CgroupForwardState)
  | CleanupPending (from : CgroupForwardState)
  | ParentKillPending (from : CgroupForwardState)
  | ParentEmpty (from : CgroupForwardState)
  | PayloadRemovePending (from : CgroupForwardState)
  | PayloadRemoved (from : CgroupForwardState)
  | ControlRemovePending (from : CgroupForwardState)
  | ControlRemoved (from : CgroupForwardState)
  | ParentRemovePending (from : CgroupForwardState)
  | Removed
  | LRollbackRequired.

#[global] Instance CgroupLifecycleState_eq_dec : EqDecision CgroupLifecycleState.
Proof. solve_decision. Defined.

Inductive CgroupComponent : Set := Parent | Control | Payload.

#[global] Instance CgroupComponent_eq_dec : EqDecision CgroupComponent.
Proof. solve_decision. Defined.

Inductive AbsenceDisposition : Set :=
  | RequiredNeverCreated
  | RetryCreate
  | Forbidden
  | AcceptRemoval.

#[global] Instance AbsenceDisposition_eq_dec : EqDecision AbsenceDisposition.
Proof. solve_decision. Defined.

Definition cgroup_is_legal_transition (self next : CgroupLifecycleState) : bool :=
  if bool_decide (self = next) then true else
  match self, next with
  | Forward from, CleanupPending retained => bool_decide (from = retained)
  | Forward Planned, Forward ParentCreatePending
  | Forward Planned, Removed
  | Forward ParentCreatePending, Forward ParentCreated
  | Forward ParentCreated, Forward ControlCreatePending
  | Forward ControlCreatePending, Forward ControlCreated
  | Forward ControlCreated, Forward PayloadCreatePending
  | Forward PayloadCreatePending, Forward PayloadCreated
  | Forward PayloadCreated, Forward ProbePending
  | Forward ProbePending, Forward ProbeEmpty
  | Forward ProbeEmpty, Forward ControlAttachPending
  | Forward ControlAttachPending, Forward ControlAttached
  | Forward ControlAttached, Forward PayloadFdTransferPending
  | Forward PayloadFdTransferPending, Forward PayloadArmed
  | Forward PayloadArmed, Forward PayloadExecPending
  | Forward PayloadExecPending, Forward PayloadAttached
  | Forward PayloadAttached, Forward PayloadKillPending
  | Forward PayloadKillPending, Forward PayloadEmpty
  | Removed, Removed
  | LRollbackRequired, LRollbackRequired => true
  | CleanupPending from, ParentKillPending next
  | CleanupPending from, ParentEmpty next
  | ParentKillPending from, ParentEmpty next
  | ParentEmpty from, PayloadRemovePending next
  | PayloadRemovePending from, PayloadRemoved next
  | PayloadRemoved from, ControlRemovePending next
  | ControlRemovePending from, ControlRemoved next
  | ControlRemoved from, ParentRemovePending next => bool_decide (from = next)
  | ParentRemovePending _, Removed => true
  | _, LRollbackRequired => true
  | _, _ => false
  end.

Definition component_was_created (from : CgroupForwardState) (component : CgroupComponent) : bool :=
  match component with
  | Parent => negb (bool_decide (from ∈ [Planned; ParentCreatePending]))
  | Control =>
    negb (bool_decide (from ∈ [Planned; ParentCreatePending; ParentCreated; ControlCreatePending]))
  | Payload =>
    bool_decide (from ∈ [PayloadCreated; ProbePending; ProbeEmpty; ControlAttachPending;
      ControlAttached; PayloadFdTransferPending; PayloadArmed; PayloadExecPending; PayloadAttached;
      PayloadKillPending; PayloadEmpty])
  end.

Definition created_or_never (from : CgroupForwardState) (component : CgroupComponent) : AbsenceDisposition :=
  if component_was_created from component then Forbidden else RequiredNeverCreated.

Definition same_boot_absence (self : CgroupLifecycleState) (component : CgroupComponent)
    : AbsenceDisposition :=
  match self, component with
  | Forward Planned, _ => RequiredNeverCreated
  | Forward ParentCreatePending, Parent => RetryCreate
  | Forward ParentCreatePending, _ => RequiredNeverCreated
  | Forward (ParentCreated | ControlCreatePending), Parent => Forbidden
  | Forward ControlCreatePending, Control => RetryCreate
  | Forward (ParentCreated | ControlCreatePending), _ => RequiredNeverCreated
  | Forward (ControlCreated | PayloadCreatePending), Payload =>
    match self with Forward PayloadCreatePending => RetryCreate | _ => RequiredNeverCreated end
  | Forward (ControlCreated | PayloadCreatePending), _ => Forbidden
  | Forward _, _ => Forbidden
  | CleanupPending from, component
  | ParentKillPending from, component
  | ParentEmpty from, component => created_or_never from component
  | PayloadRemovePending _, Payload
  | PayloadRemoved _, Payload
  | ControlRemovePending _, (Payload | Control)
  | ControlRemoved _, (Payload | Control)
  | ParentRemovePending _, _
  | Removed, _ => AcceptRemoval
  | PayloadRemovePending from, component
  | PayloadRemoved from, component
  | ControlRemovePending from, component
  | ControlRemoved from, component => created_or_never from component
  | LRollbackRequired, _ => Forbidden
  end.

(** ** The record *)

Record TournamentCgroupEvidence : Set := {
  tc_deterministic_name_uuid : Uuid;
  tc_lifecycle : TournamentCgroupLifecycleState;
  tc_domain : option DurableDirectoryIdentity;
}.

#[global] Instance TournamentCgroupEvidence_eq_dec : EqDecision TournamentCgroupEvidence.
Proof. solve_decision. Defined.

Record CandidateCgroupEvidence : Set := {
  cc_candidate_index : Z;
  cc_deterministic_name_uuid : Uuid;
  cc_lifecycle : CgroupLifecycleState;
  cc_parent : option DurableDirectoryIdentity;
  cc_control : option DurableDirectoryIdentity;
  cc_payload : option DurableDirectoryIdentity;
}.

#[global] Instance CandidateCgroupEvidence_eq_dec : EqDecision CandidateCgroupEvidence.
Proof. solve_decision. Defined.

Record PrivateRootIdentities : Set := {
  source : DurableDirectoryIdentity;
  root_candidates : array2 DurableDirectoryIdentity;
  ledger_root : DurableDirectoryIdentity;
  cgroup_root : DurableDirectoryIdentity;
}.

#[global] Instance PrivateRootIdentities_eq_dec : EqDecision PrivateRootIdentities.
Proof. solve_decision. Defined.

Record PrivateCgroupRootLocator : Set := {
  canonical_path : SpeculationUnixPath;
  locator_identity : DurableDirectoryIdentity;
}.

#[global] Instance SpeculationUnixPath_eq_dec : EqDecision SpeculationUnixPath.
Proof. unfold SpeculationUnixPath. apply _. Defined.
#[global] Instance PrivateCgroupRootLocator_eq_dec : EqDecision PrivateCgroupRootLocator.
Proof. solve_decision. Defined.

Inductive ManagedOwnerRoleEvidence : Set := Probe | Runner.

#[global] Instance ManagedOwnerRoleEvidence_eq_dec : EqDecision ManagedOwnerRoleEvidence.
Proof. solve_decision. Defined.

Record ManagedOwnerEvidence : Set := {
  mo_candidate_index : Z;
  mo_role : ManagedOwnerRoleEvidence;
  mo_slot : Z;
  mo_generation : Z;
}.

#[global] Instance ManagedOwnerEvidence_eq_dec : EqDecision ManagedOwnerEvidence.
Proof. solve_decision. Defined.

(** The single version each schema enum has. *)
Inductive RecordSchema : Set := RecordV1.

#[global] Instance RecordSchema_eq_dec : EqDecision RecordSchema.
Proof. solve_decision. Defined.

Record TournamentRecord : Set := {
  rec_schema_version : RecordSchema;
  rec_boot_uuid : Uuid;
  roots : PrivateRootIdentities;
  cgroup_root_locator : PrivateCgroupRootLocator;
  tournament_cgroup : TournamentCgroupEvidence;
  cgroups : array2 CandidateCgroupEvidence;
  managed_owners : array2 (option ManagedOwnerEvidence);
  restart_prior_phase : option SpeculationPhase;
  terminal_completed_unix_ms : option Z;
  status : SpeculationStatus;
}.

#[global] Instance TournamentRecord_eq_dec : EqDecision TournamentRecord.
Proof. solve_decision. Defined.

(** ** Validation *)

Definition valid_directory_identity (identity : DurableDirectoryIdentity) : bool :=
  negb (is_nil (boot_uuid identity)) && negb (dd_dev identity =? 0) && negb (dd_ino identity =? 0)
  && negb (statx_mnt_id_unique identity =? 0).

Definition tournament_cgroup_validate (e : TournamentCgroupEvidence) (tournament_uuid boot : Uuid)
    : result EvidenceError unit :=
  _ ← bail_if (negb (tc_deterministic_name_uuid e =? tournament_uuid)
               || is_some_and (tc_domain e) (λ identity,
                    negb (boot_uuid identity =? boot) || negb (valid_directory_identity identity))) Corrupt;
  let should_have_identity := match tc_lifecycle e with TCreated | TRemovePending => true | _ => false end in
  bail_if (negb (Bool.eqb (is_some (tc_domain e)) should_have_identity)) Corrupt.

Definition immutable_identity_progresses_to (e next : TournamentCgroupEvidence) : bool :=
  (tc_deterministic_name_uuid e =? tc_deterministic_name_uuid next)
  && is_none_or (tc_domain e) (λ identity,
       bool_decide (tc_domain next = Some identity)
       || bool_decide (tc_lifecycle next = TRemoved) && negb (is_some (tc_domain next))).

(** How many of parent, control and payload a forward state has created. *)
Definition forward_floor (from : CgroupForwardState) : Z :=
  match from with
  | Planned | ParentCreatePending => 0
  | ParentCreated | ControlCreatePending => 1
  | ControlCreated | PayloadCreatePending => 2
  | _ => 3
  end.

Definition creation_floor (lifecycle : CgroupLifecycleState) : Z :=
  match lifecycle with
  | Forward from
  | CleanupPending from | ParentKillPending from | ParentEmpty from | PayloadRemovePending from
  | PayloadRemoved from | ControlRemovePending from | ControlRemoved from
  | ParentRemovePending from => forward_floor from
  | Removed | LRollbackRequired => 0
  end.

Definition present_floor (e : CandidateCgroupEvidence) : result EvidenceError Z :=
  match is_some (cc_parent e), is_some (cc_control e), is_some (cc_payload e) with
  | false, false, false => Ok 0
  | true, false, false => Ok 1
  | true, true, false => Ok 2
  | true, true, true => Ok 3
  | _, _, _ => Err Corrupt
  end.

Definition expected_present_floor (lifecycle : CgroupLifecycleState) (present : Z) : Z :=
  match lifecycle with
  | PayloadRemoved _ | ControlRemovePending _ => Z.min (creation_floor lifecycle) 2
  | ControlRemoved _ | ParentRemovePending _ => Z.min (creation_floor lifecycle) 1
  | Removed => 0
  | LRollbackRequired => present
  | _ => creation_floor lifecycle
  end.

Definition candidate_cgroup_validate (e : CandidateCgroupEvidence) (expected_index boot : Z)
    : result EvidenceError unit :=
  let identities :=
    option_list (cc_parent e) ++ option_list (cc_control e) ++ option_list (cc_payload e) in
  _ ← bail_if (negb (cc_candidate_index e =? expected_index)
               || is_nil (cc_deterministic_name_uuid e)
               || existsb (λ identity, negb (boot_uuid identity =? boot)) identities
               || existsb (λ identity, negb (valid_directory_identity identity)) identities) Corrupt;
  present ← present_floor e;
  bail_if (negb (present =? expected_present_floor (cc_lifecycle e) present)) Corrupt.

Definition validate_candidate_status (c : SpeculationCandidateStatus) : result EvidenceError unit :=
  _ ← bail_if (negb (Bool.eqb (cs_ready c) (is_some (ready_elapsed_ns c)))
               || negb (Bool.eqb (go_received c) (is_some (go_received_elapsed_ns c)))
               || (go_received c && negb (cs_ready c))
               || (result_accepted c && negb (go_received c))
               || (eligible c && (negb (result_accepted c) || negb (go_received c)))) Corrupt;
  let complete_result := is_some (cs_exit_success c) && is_some (exit_category c)
                         && is_some (cs_elapsed_ns c) && is_some (cs_output_bytes c) in
  let empty_result := negb (is_some (cs_exit_success c)) && negb (is_some (exit_category c))
                      && negb (is_some (cs_elapsed_ns c)) && negb (is_some (cs_output_bytes c)) in
  _ ← bail_if (if result_accepted c then negb complete_result else negb empty_result || eligible c) Corrupt;
  match cs_exit_success c, exit_category c with
  | Some success, Some category =>
    _ ← bail_if (negb (Bool.eqb success (bool_decide (category = ExitedZero)))) Corrupt;
    bail_if (eligible c
             && (bool_decide (category ∈ [SpawnFailed; OutputLimitExceeded; EvidenceIncomplete])
                 || is_none_or (cs_output_bytes c) (λ bytes, bytes >? MAX_CANDIDATE_OUTPUT_BYTES))) Corrupt
  | _, _ => Ok tt
  end.

(** [Reverse(a).cmp(Reverse(b))]. *)
Definition reverse_cmp {A} (cmp : A → A → comparison) (a b : A) : comparison := cmp b a.

(** The comparison of the two score tuples, lexicographic. *)
Definition score_cmp (a b : SpeculationCandidateStatus) : comparison :=
  then_with (bool_cmp (eligible a) (eligible b))
  (then_with (option_cmp bool_cmp (cs_exit_success a) (cs_exit_success b))
  (then_with (reverse_cmp (option_cmp Z.compare) (cs_elapsed_ns a) (cs_elapsed_ns b))
  (then_with (reverse_cmp (option_cmp Z.compare) (cs_output_bytes a) (cs_output_bytes b))
             (reverse_cmp Z.compare (cs_index a) (cs_index b))))).

Definition score_selected_index (cs : array2 SpeculationCandidateStatus) : option Z :=
  if negb (any2 eligible cs) then None
  else match score_cmp (at0 cs) (at1 cs) with
  | Gt | Eq => Some (cs_index (at0 cs))
  | Lt => Some (cs_index (at1 cs))
  end.

Definition validate_status_semantics (s : SpeculationStatus) : result EvidenceError unit :=
  let c0 := at0 (candidates s) in
  let c1 := at1 (candidates s) in
  _ ← bail_if (negb (bool_decide (st_schema_version s = StatusV1))
               || is_nil (tournament_uuid s)
               || is_nil (daemon_instance_uuid s)
               || (st_generation s =? 0)
               || negb (bool_decide (fixed_score_order s = SPECULATION_SCORE_ORDER))
               || negb (cs_index c0 =? 0)
               || negb (cs_index c1 =? 1)
               || is_nil (candidate_uuid c0)
               || is_nil (candidate_uuid c1)
               || (candidate_uuid c0 =? candidate_uuid c1)
               || (MAX_SPECULATION_ERROR_CODES <? length (error_codes s))%nat
               || any2 (λ c, negb (is_ok (validate_candidate_status c))) (candidates s)) Corrupt;
  let rollback_phase :=
    match st_phase s with RollbackRequired | DecisionUncertain | RollbackPending => true | _ => false end in
  _ ← bail_if (negb (Bool.eqb (rollback_required s) rollback_phase)) Corrupt;
  match st_phase s with
  | Selected =>
    selected ← ok_or (selected_index s) Corrupt;
    bail_if ((selected >? 1)
             || any2 (λ c, negb (cs_ready c) || negb (go_received c) || negb (result_accepted c)) (candidates s)
             || negb (is_some_and (index2 (candidates s) selected) eligible)
             || negb (bool_decide (score_selected_index (candidates s) = Some selected))) Corrupt
  | RolledBack | RollbackRequired | DecisionUncertain | RollbackPending =>
    bail_if (is_some (selected_index s)) Corrupt
  | _ =>
    bail_if (is_some_and (selected_index s) (λ selected,
      (selected >? 1) || negb (bool_decide (score_selected_index (candidates s) = Some selected)))) Corrupt
  end.

Definition cleanup_complete (c : SpeculationCandidateStatus) : bool :=
  let cleanup := cleanup c in
  runner_ack cleanup && bwrap_reaped cleanup && sync_eof cleanup && cgroup_empty cleanup
  && managed_tombstone cleanup.

Definition owner_invalid (index : Z) (owner : option ManagedOwnerEvidence) : bool :=
  is_some_and owner (λ owner, negb (mo_candidate_index owner =? index) || (mo_generation owner =? 0)).

Definition validate_core (r : TournamentRecord) : result EvidenceError unit :=
  let boot := rec_boot_uuid r in
  bail_if (negb (bool_decide (rec_schema_version r = RecordV1))
           || is_nil boot
           || negb (valid_directory_identity (source (roots r)))
           || negb (valid_directory_identity (ledger_root (roots r)))
           || negb (valid_directory_identity (cgroup_root (roots r)))
           || any2 (λ identity, negb (valid_directory_identity identity)) (root_candidates (roots r))
           || negb (boot =? boot_uuid (source (roots r)))
           || negb (boot =? boot_uuid (ledger_root (roots r)))
           || negb (boot =? boot_uuid (cgroup_root (roots r)))
           || any2 (λ identity, negb (boot_uuid identity =? boot)) (root_candidates (roots r))
           || negb (bool_decide (locator_identity (cgroup_root_locator r) = cgroup_root (roots r)))
           || negb (is_ok (tournament_cgroup_validate (tournament_cgroup r) (tournament_uuid (status r)) boot))
           || negb (is_ok (candidate_cgroup_validate (at0 (cgroups r)) 0 boot))
           || negb (is_ok (candidate_cgroup_validate (at1 (cgroups r)) 1 boot))
           || negb (cc_deterministic_name_uuid (at0 (cgroups r)) =? candidate_uuid (at0 (candidates (status r))))
           || negb (cc_deterministic_name_uuid (at1 (cgroups r)) =? candidate_uuid (at1 (candidates (status r))))
           || negb (is_ok (validate_status_semantics (status r)))
           || owner_invalid 0 (at0 (managed_owners r)) || owner_invalid 1 (at1 (managed_owners r))
           || is_some_and (restart_prior_phase r) (λ prior,
                is_terminal prior || bool_decide (prior = RollbackRequired)
                || negb (bool_decide (st_phase (status r) ∈ [RollbackRequired; RollbackPending; RolledBack]))))
    Corrupt.

Definition is_positive_terminal (r : TournamentRecord) : bool :=
  is_ok (validate_core r)
  && status_is_terminal (status r)
  && negb (rollback_required (status r))
  && all2 (λ c, bool_decide (cc_lifecycle c = Removed)) (cgroups r)
  && bool_decide (tc_lifecycle (tournament_cgroup r) = TRemoved)
  && all2 cleanup_complete (candidates (status r)).

Definition validate (r : TournamentRecord) : result EvidenceError unit :=
  _ ← validate_core r;
  bail_if (negb (Bool.eqb (is_some (terminal_completed_unix_ms r)) (is_positive_terminal r))) Corrupt.

(** ** Progress *)

Definition option_is_retained `{EqDecision T} (current next : option T) : bool :=
  is_none_or current (λ value, bool_decide (next = Some value)).

Definition slice_is_prefix `{EqDecision T} (current next : list T) : bool := is_prefix current next.

(** [!current || next]. *)
Definition flag_retained (current next : bool) : bool := negb current || next.

Definition cleanup_progresses_to (current next : SpeculationCleanupStatus) : bool :=
  flag_retained (runner_ack current) (runner_ack next)
  && flag_retained (bwrap_reaped current) (bwrap_reaped next)
  && flag_retained (sync_eof current) (sync_eof next)
  && flag_retained (cgroup_empty current) (cgroup_empty next)
  && flag_retained (managed_tombstone current) (managed_tombstone next).

Definition candidate_progresses_to (current next : SpeculationCandidateStatus) : bool :=
  (candidate_uuid current =? candidate_uuid next)
  && (cs_index current =? cs_index next)
  && flag_retained (cs_ready current) (cs_ready next)
  && option_is_retained (ready_elapsed_ns current) (ready_elapsed_ns next)
  && flag_retained (go_received current) (go_received next)
  && option_is_retained (go_received_elapsed_ns current) (go_received_elapsed_ns next)
  && flag_retained (result_accepted current) (result_accepted next)
  && option_is_retained (cs_exit_success current) (cs_exit_success next)
  && option_is_retained (exit_category current) (exit_category next)
  && option_is_retained (cs_elapsed_ns current) (cs_elapsed_ns next)
  && option_is_retained (cs_output_bytes current) (cs_output_bytes next)
  && flag_retained (eligible current) (eligible next)
  && cleanup_progresses_to (cleanup current) (cleanup next).

Definition managed_owner_progresses_to (current next : option ManagedOwnerEvidence) : bool :=
  match current, next with
  | None, _ => true
  | Some _, None => false
  | Some current, Some next =>
    if bool_decide (current = next) then true
    else (mo_candidate_index current =? mo_candidate_index next)
         && bool_decide (mo_role current = Probe) && bool_decide (mo_role next = Runner)
  end.

Definition immutable_identity_matches (r next : TournamentRecord) : bool :=
  (rec_boot_uuid r =? rec_boot_uuid next)
  && bool_decide (roots r = roots next)
  && bool_decide (cgroup_root_locator r = cgroup_root_locator next)
  && immutable_identity_progresses_to (tournament_cgroup r) (tournament_cgroup next)
  && (tournament_uuid (status r) =? tournament_uuid (status next))
  && (daemon_instance_uuid (status r) =? daemon_instance_uuid (status next))
  && (candidate_uuid (at0 (candidates (status r))) =? candidate_uuid (at0 (candidates (status next))))
  && (candidate_uuid (at1 (candidates (status r))) =? candidate_uuid (at1 (candidates (status next)))).

Definition public_evidence_progresses_to (r next : TournamentRecord)
    (retain_reason allow_rollback_selection_clear : bool) : bool :=
  (lease_deadline_unix_ms (status r) <=? lease_deadline_unix_ms (status next))
  && (negb retain_reason || option_is_retained (reason_code (status r)) (reason_code (status next)))
  && (allow_rollback_selection_clear
      || option_is_retained (selected_index (status r)) (selected_index (status next)))
  && slice_is_prefix (error_codes (status r)) (error_codes (status next))
  && zip_all2 candidate_progresses_to (candidates (status r)) (candidates (status next))
  && zip_all2 managed_owner_progresses_to (managed_owners r) (managed_owners next).

(** ** Lifecycles and the evidence they demand *)

Definition component_identity (e : CandidateCgroupEvidence) (component : CgroupComponent)
    : option DurableDirectoryIdentity :=
  match component with Parent => cc_parent e | Control => cc_control e | Payload => cc_payload e end.

Lemma candidate_cgroup_validate_Ok e i boot u :
  candidate_cgroup_validate e i boot = Ok u →
  cc_candidate_index e = i ∧ is_nil (cc_deterministic_name_uuid e) = false ∧
  ∃ present, present_floor e = Ok present ∧ present = expected_present_floor (cc_lifecycle e) present.
Proof.
  unfold candidate_cgroup_validate. intros H. inv_ok. split_and!; [lia|done|].
  eexists. split; [done|]. lia.
Qed.

Lemma present_floor_Ok e present :
  present_floor e = Ok present →
  ∀ component, is_some (component_identity e component) =
    (match component with Parent => 1 | Control => 2 | Payload => 3 end <=? present).
Proof.
  unfold present_floor. intros H component.
  destruct (cc_parent e) eqn:Ep, (cc_control e) eqn:Ec, (cc_payload e) eqn:El; simpl in H; simplify_eq;
    destruct component; simpl; by rewrite ?Ep ?Ec ?El.
Qed.

(** A validated candidate record and the recovery table agree: a cgroup directory whose
    absence the table forbids has its identity on record, and one with an identity on record
    may be absent only where the table forbids it or accepts its removal; so recovery never
    re-creates or ignores a directory that is on record. *)
Theorem absence_matches_evidence e i boot u component :
  candidate_cgroup_validate e i boot = Ok u → cc_lifecycle e ≠ LRollbackRequired →
  (same_boot_absence (cc_lifecycle e) component = Forbidden →
   is_some (component_identity e component) = true) ∧
  (is_some (component_identity e component) = true →
   same_boot_absence (cc_lifecycle e) component = Forbidden ∨
   same_boot_absence (cc_lifecycle e) component = AcceptRemoval).
Proof.
  intros (_ & _ & present & Hpresent & Hfloor)%candidate_cgroup_validate_Ok Hne.
  rewrite (present_floor_Ok e present Hpresent component). rewrite Hfloor. clear Hpresent Hfloor.
  destruct (cc_lifecycle e) as [f|f|f|f|f|f|f|f|f| |]; [..|by destruct component|done];
    clear Hne; destruct f, component; vm_compute; split; (done || by auto).
Qed.

Definition sample_identity : DurableDirectoryIdentity :=
  {| boot_uuid := 5; dd_dev := 1; dd_ino := 2; statx_mnt_id_unique := 3 |}.

Definition sample_cgroup (lifecycle : CgroupLifecycleState) parent control payload : CandidateCgroupEvidence :=
  {| cc_candidate_index := 0; cc_deterministic_name_uuid := 9; cc_lifecycle := lifecycle;
     cc_parent := parent; cc_control := control; cc_payload := payload |}.

Lemma absence_matches_evidence_witness :
  is_some (component_identity
    (sample_cgroup (Forward ControlCreatePending) (Some sample_identity) None None) Parent) = true.
Proof.
  apply (absence_matches_evidence
    (sample_cgroup (Forward ControlCreatePending) (Some sample_identity) None None) 0 5 tt Parent);
    [reflexivity|discriminate|reflexivity].
Defined.

(** The shared tournament cgroup is never forgotten: between two valid records that
    progress, an identity on record stays on record until the removal is recorded; in
    particular [RollbackRequired], which the transition table allows after [Created] and
    [RemovePending], cannot be entered from them by any record that validates. *)
Theorem tournament_cgroup_never_forgotten e next uuid boot u u' identity :
  tournament_cgroup_validate e uuid boot = Ok u →
  tournament_cgroup_validate next uuid boot = Ok u' →
  immutable_identity_progresses_to e next = true →
  tc_domain e = Some identity →
  (tc_domain next = Some identity ∧ (tc_lifecycle next = TCreated ∨ tc_lifecycle next = TRemovePending)
   ∨ tc_lifecycle next = TRemoved) ∧
  tc_lifecycle next ≠ TRollbackRequired.
Proof.
  intros He Hnext Hprog Hdom. unfold tournament_cgroup_validate in Hnext.
  unfold immutable_identity_progresses_to in Hprog. rewrite Hdom in Hprog. simpl in Hprog.
  apply bind_Ok in Hnext as ([] & _ & Hn). apply bail_if_Ok in Hn.
  apply negb_false_iff, Bool.eqb_prop in Hn.
  apply andb_true in Hprog as [_ [Hd|Hd]%orb_true_iff].
  - apply bool_decide_eq_true in Hd. rewrite Hd in Hn. simpl in Hn.
    destruct (tc_lifecycle next); try discriminate Hn; split; auto; discriminate.
  - apply andb_true in Hd as [Hl%bool_decide_eq_true _]. split; [by right|]. by rewrite Hl.
Qed.

Definition sample_domain (l : TournamentCgroupLifecycleState) : TournamentCgroupEvidence :=
  {| tc_deterministic_name_uuid := 4; tc_lifecycle := l; tc_domain := Some sample_identity |}.

Lemma tournament_cgroup_never_forgotten_witness :
  tournament_cgroup_is_legal_transition TCreated TRollbackRequired = true ∧
  tc_lifecycle (sample_domain TRemovePending) ≠ TRollbackRequired.
Proof.
  split; [reflexivity|].
  apply (tournament_cgroup_never_forgotten (sample_domain TCreated) (sample_domain TRemovePending)
    4 5 tt tt sample_identity); reflexivity.
Defined.

(** ** Progress is a preorder *)

Section progress.
Context {T : Type} `{EqDecision T}.

Lemma option_is_retained_refl (o : option T) : option_is_retained o o = true.
Proof. destruct o; [|done]. by apply bool_decide_eq_true. Qed.

Lemma option_is_retained_trans (a b c : option T) :
  option_is_retained a b = true → option_is_retained b c = true → option_is_retained a c = true.
Proof.
  destruct a as [a|]; [|done]. intros Hab%bool_decide_eq_true. by subst.
Qed.
End progress.

Lemma flag_retained_refl b : flag_retained b b = true.
Proof. by destruct b. Qed.
Lemma flag_retained_trans a b c :
  flag_retained a b = true → flag_retained b c = true → flag_retained a c = true.
Proof. by destruct a, b, c. Qed.

(** Chains two retention facts of one field. *)
Ltac retained :=
  first [ eapply flag_retained_trans; eassumption | eapply option_is_retained_trans; eassumption ].

Lemma cleanup_progresses_refl c : cleanup_progresses_to c c = true.
Proof. unfold cleanup_progresses_to. by rewrite !flag_retained_refl. Qed.

Lemma cleanup_progresses_trans a b c :
  cleanup_progresses_to a b = true → cleanup_progresses_to b c = true → cleanup_progresses_to a c = true.
Proof.
  unfold cleanup_progresses_to. intros Hab Hbc. inv_ok.
  repeat match goal with |- _ && _ = true => apply andb_true; split end; retained.
Qed.

Lemma candidate_progresses_refl c : candidate_progresses_to c c = true.
Proof.
  unfold candidate_progresses_to.
  by rewrite !Z.eqb_refl !flag_retained_refl !option_is_retained_refl cleanup_progresses_refl.
Qed.

Lemma candidate_progresses_trans a b c :
  candidate_progresses_to a b = true → candidate_progresses_to b c = true →
  candidate_progresses_to a c = true.
Proof.
  unfold candidate_progresses_to. intros Hab Hbc. inv_ok.
  repeat match goal with |- _ && _ = true => apply andb_true; split end; try retained; [lia|lia|].
  by eapply cleanup_progresses_trans.
Qed.

Lemma managed_owner_progresses_refl o : managed_owner_progresses_to o o = true.
Proof. destruct o; [|done]. simpl. by rewrite bool_decide_true. Qed.

Lemma managed_owner_progresses_trans a b c :
  managed_owner_progresses_to a b = true → managed_owner_progresses_to b c = true →
  managed_owner_progresses_to a c = true.
Proof.
  destruct a as [a|], b as [b|], c as [c|]; simpl; try done.
  repeat case_bool_decide; simplify_eq; try done; intros Hab Hbc; inv_ok; try done; try congruence.
  all: repeat match goal with |- _ && _ = true => apply andb_true; split end; try done; try lia.
Qed.

(** Evidence only accumulates: progress is reflexive and transitive, so along any
    sequence of accepted writes no flag is taken back, no measurement, exit result, error
    code or owner changes once set, no lease is shortened, and the selected index changes only through a
    write that may clear it. *)
Theorem public_evidence_progress_preorder r1 r2 r3 reason1 reason2 clear1 clear2 :
  public_evidence_progresses_to r1 r1 reason1 clear1 = true ∧
  (public_evidence_progresses_to r1 r2 reason1 clear1 = true →
   public_evidence_progresses_to r2 r3 reason2 clear2 = true →
   public_evidence_progresses_to r1 r3 (reason1 && reason2) (clear1 || clear2) = true).
Proof.
  unfold public_evidence_progresses_to, zip_all2, slice_is_prefix. split.
  - rewrite Z.leb_refl !option_is_retained_refl !candidate_progresses_refl !managed_owner_progresses_refl.
    rewrite (proj2 (is_prefix_spec _ _)) //. by destruct reason1, clear1.
  - intros H12 H23. inv_ok.
    repeat match goal with H : is_prefix _ _ = true |- _ => apply is_prefix_spec in H end.
    repeat match goal with |- _ && _ = true => apply andb_true; split end;
      try (by eapply candidate_progresses_trans); try (by eapply managed_owner_progresses_trans).
    + lia.
    + destruct reason1, reason2; simpl in *; try done; retained.
    + destruct clear1, clear2; simpl in *; try done; retained.
    + apply is_prefix_spec. by etrans.
Qed.

(** ** The winner *)

(** What the service hands to the score, for a candidate record. *)
Definition result_of (c : SpeculationCandidateStatus) (quiet overflowed : bool) : CandidateResult :=
  {| input_index := cs_index c; exit_success := cs_exit_success c; elapsed_ns := cs_elapsed_ns c;
     output_bytes := cs_output_bytes c; quiescent := quiet; output_overflowed := overflowed |}.

Lemma score_agrees c0 c1 quiet0 quiet1 over0 over1 :
  cs_index c0 = 0 → cs_index c1 = 1 →
  eligible c0 = is_eligible (result_of c0 quiet0 over0) →
  eligible c1 = is_eligible (result_of c1 quiet1 over1) →
  score_candidates (Array2 (result_of c0 quiet0 over0) (result_of c1 quiet1 over1)) =
  match score_selected_index (Array2 c0 c1) with Some i => DecisionSelected i | None => Rollback end.
Proof.
  intros H0 H1 E0 E1. unfold score_candidates, score_selected_index, any2, all2, compare_candidates.
  cbn [at0 at1]. rewrite -E0 -E1. unfold score_cmp. cbn [result_of input_index]. rewrite H0 H1. simpl.
  destruct (eligible c0), (eligible c1); simpl; try done.
  unfold reverse_cmp. by destruct (then_with _ _).
Qed.

(** The winner that record validation recomputes is the one the score selects, provided
    the recorded eligibility is the score's: the two comparisons, written separately in two
    files, agree in every tier and tie. *)
Theorem score_selected_index_agrees c0 c1 quiet0 quiet1 over0 over1 :
  cs_index c0 = 0 → cs_index c1 = 1 →
  eligible c0 = is_eligible (result_of c0 quiet0 over0) →
  eligible c1 = is_eligible (result_of c1 quiet1 over1) →
  score_candidates (Array2 (result_of c0 quiet0 over0) (result_of c1 quiet1 over1)) =
  match score_selected_index (Array2 c0 c1) with Some i => DecisionSelected i | None => Rollback end.
Proof. apply score_agrees. Qed.

(** A candidate that finished with the given exit, time and output. *)
Definition sample_finished (index : Z) (success : bool) (elapsed output : Z) : SpeculationCandidateStatus :=
  {| candidate_uuid := 101 + index; cs_index := index; cs_ready := true; ready_elapsed_ns := Some 1;
     go_received := true; go_received_elapsed_ns := Some 2; result_accepted := true;
     cs_exit_success := Some success; exit_category := Some (if success then ExitedZero else ExitedNonzero);
     cs_elapsed_ns := Some elapsed; cs_output_bytes := Some output; eligible := true;
     cleanup := {| runner_ack := true; bwrap_reaped := true; sync_eof := true; cgroup_empty := true;
                   managed_tombstone := true |} |}.

Lemma score_selected_index_agrees_witness :
  score_candidates (Array2 (result_of (sample_finished 0 true 30 5) true false)
                           (result_of (sample_finished 1 true 20 9) true false)) = DecisionSelected 1.
Proof.
  rewrite (score_selected_index_agrees (sample_finished 0 true 30 5) (sample_finished 1 true 20 9)
    true true false false eq_refl eq_refl eq_refl eq_refl).
  reflexivity.
Defined.

(** ** A sample record *)

Definition sample_waiting (index : Z) : SpeculationCandidateStatus :=
  {| candidate_uuid := 101 + index; cs_index := index; cs_ready := false; ready_elapsed_ns := None;
     go_received := false; go_received_elapsed_ns := None; result_accepted := false;
     cs_exit_success := None; exit_category := None; cs_elapsed_ns := None; cs_output_bytes := None;
     eligible := false;
     cleanup := {| runner_ack := false; bwrap_reaped := false; sync_eof := false; cgroup_empty := false;
                   managed_tombstone := false |} |}.

(** A tournament whose cgroups are only planned, in the given phase and generation. *)
Definition sample_record (phase : SpeculationPhase) (generation : Z) (prior : option SpeculationPhase)
    : TournamentRecord :=
  let planned i :=
    {| cc_candidate_index := i; cc_deterministic_name_uuid := 101 + i; cc_lifecycle := Forward Planned;
       cc_parent := None; cc_control := None; cc_payload := None |} in
  {| rec_schema_version := RecordV1; rec_boot_uuid := 5;
     roots := {| source := sample_identity; root_candidates := Array2 sample_identity sample_identity;
                 ledger_root := sample_identity; cgroup_root := sample_identity |};
     cgroup_root_locator := {| canonical_path := lit "/c"; locator_identity := sample_identity |};
     tournament_cgroup := {| tc_deterministic_name_uuid := 100; tc_lifecycle := TPlanned; tc_domain := None |};
     cgroups := Array2 (planned 0) (planned 1);
     managed_owners := Array2 None None;
     restart_prior_phase := prior; terminal_completed_unix_ms := None;
     status :=
       {| st_schema_version := StatusV1; tournament_uuid := 100; daemon_instance_uuid := 50;
          st_phase := phase; st_generation := generation; lease_deadline_unix_ms := 0;
          reason_code := if is_some prior then Some ContainmentEvidenceUnavailable else None;
          candidates := Array2 (sample_waiting 0) (sample_waiting 1);
          fixed_score_order := SPECULATION_SCORE_ORDER; selected_index := None;
          rollback_required := is_rollback_only phase; error_codes := [] |} |}.

Example sample_record_valid : validate (sample_record Prepared 1 None) = Ok tt.
Proof. reflexivity. Qed.
Example sample_record_normalized_valid : validate (sample_record RollbackPending 3 (Some Prepared)) = Ok tt.
Proof. reflexivity. Qed.
