(* ===== verification/TournamentOpen.v ===== *)
(** [src/speculation_registry.rs], opening the store: the manifest of slots ever
    materialized, the scan of the directory, and what they promise together.

    Opening a directory, whatever a crash left in it, gives a store that agrees with the
    directory; a slot is taken for vacant-and-never-written only if it has no file and the
    manifest has no mark for it, so a record whose file is lost reads as corrupt, not as
    free. *)
From stdpp Require Import vector.
From S2P Require Import Prelude Utf8 Protocol Speculation EvidenceFs TournamentRecord TournamentStore.

(** ** Bits of the manifest *)

Lemma slot_bit_testbit word slot :
  negb (Z.land word (slot_bit slot) =? 0) = Z.testbit word (Z.of_nat (slot mod 64)).
Proof.
  unfold slot_bit. set (b := Z.of_nat (slot mod 64)). assert (0 ≤ b) as Hb by lia.
  assert (Z.land word (Z.shiftl 1 b) = if Z.testbit word b then Z.shiftl 1 b else 0) as ->.
  { apply Z.bits_inj'. intros n Hn. rewrite Z.land_spec Z.shiftl_1_l Z.pow2_bits_eqb //.
    destruct (Z.eqb_spec b n) as [<-|Hne].
    - rewrite andb_true_r. destruct (Z.testbit word b); [|by rewrite Z.bits_0].
      rewrite Z.pow2_bits_eqb //. by rewrite Z.eqb_refl.
    - rewrite andb_false_r. destruct (Z.testbit word b); [|by rewrite Z.bits_0].
      rewrite Z.pow2_bits_eqb //. symmetry. by apply Z.eqb_neq. }
  destruct (Z.testbit word b); [|done]. rewrite Z.shiftl_1_l. apply negb_true_iff, Z.eqb_neq. lia.
Qed.

(** The mark of a slot in a vector of words. *)
Definition marked (words : Words) (slot : nat) : bool :=
  Z.testbit (vec_to_list words !!! (slot / 64)%nat) (Z.of_nat (slot mod 64)).

Lemma is_materialized_marked m slot : is_materialized m slot = marked (materialized_slots m) slot.
Proof. apply slot_bit_testbit. Qed.

Lemma words_lookup (words : Words) k (i : fin STORE_MATERIALIZATION_WORDS) :
  fin_to_nat i = k → vec_to_list words !!! k = words !!! i.
Proof. intros <-. apply list_lookup_total_correct, vlookup_lookup. done. Qed.

Lemma slot_word slot :
  (slot < MAX_TOURNAMENT_RECORDS)%nat → ∃ i : fin STORE_MATERIALIZATION_WORDS, fin_to_nat i = (slot / 64)%nat.
Proof.
  intros Hslot. assert (slot / 64 < STORE_MATERIALIZATION_WORDS)%nat as Hlt.
  { unfold MAX_TOURNAMENT_RECORDS, STORE_MATERIALIZATION_WORDS in *. apply Nat.Div0.div_lt_upper_bound. lia. }
  exists (nat_to_fin Hlt). apply fin_to_nat_to_fin.
Qed.

Lemma marked_merge a b slot :
  (slot < MAX_TOURNAMENT_RECORDS)%nat → marked (vzip_with Z.lor a b) slot = marked a slot || marked b slot.
Proof.
  intros [i Hi]%slot_word. unfold marked. rewrite !(words_lookup _ _ i) // vlookup_zip_with Z.lor_spec //.
Qed.

Lemma slot_bit_other word i slot :
  (i mod 64 ≠ slot mod 64)%nat →
  Z.testbit (Z.lor word (slot_bit i)) (Z.of_nat (slot mod 64)) = Z.testbit word (Z.of_nat (slot mod 64)).
Proof.
  intros Hne. rewrite Z.lor_spec /slot_bit Z.shiftl_1_l Z.pow2_bits_eqb; [|lia].
  rewrite (proj2 (Z.eqb_neq _ _)); [apply orb_false_r|lia].
Qed.

Lemma marked_mark words i slot :
  (slot < MAX_TOURNAMENT_RECORDS)%nat →
  marked (mark_materialized_word words i) slot = marked words slot || bool_decide (i = slot).
Proof.
  intros [f Hf]%slot_word. unfold marked, mark_materialized_word. rewrite !(words_lookup _ _ f) // lookup_fun_to_vec.
  pose proof (Nat.div_mod_eq i 64) as Hi. pose proof (Nat.div_mod_eq slot 64) as Hs.
  case_decide as Hword; rewrite Hf in Hword.
  - destruct (decide (i mod 64 = slot mod 64)%nat) as [Hbit|Hbit].
    + rewrite (bool_decide_true (i = slot)); [|lia]. rewrite Z.lor_spec orb_true_r.
      rewrite /slot_bit Z.shiftl_1_l Hbit Z.pow2_bits_true ?orb_true_r //. lia.
    + rewrite slot_bit_other // (bool_decide_false (i = slot)) ?orb_false_r //. congruence.
  - rewrite (bool_decide_false (i = slot)) ?orb_false_r //. congruence.
Qed.

Lemma marked_no_words slot : (slot < MAX_TOURNAMENT_RECORDS)%nat → marked no_words slot = false.
Proof.
  intros [i Hi]%slot_word. unfold marked. rewrite (words_lookup _ _ i) // lookup_fun_to_vec. apply Z.bits_0.
Qed.

Lemma marked_foldl ids words slot :
  (slot < MAX_TOURNAMENT_RECORDS)%nat →
  marked (foldl mark_materialized_word words ids) slot = marked words slot || bool_decide (slot ∈ ids).
Proof.
  intros Hslot. revert words. induction ids as [|i ids IH]; intros words; simpl.
  - by rewrite orb_false_r.
  - rewrite IH marked_mark // -orb_assoc. f_equal.
    destruct (decide (i = slot)) as [->|Hne].
    + rewrite (bool_decide_true (slot ∈ slot :: ids)); [by rewrite (bool_decide_true (slot = slot))|by left].
    + rewrite (bool_decide_false (i = slot)) //=. apply bool_decide_ext. rewrite elem_of_cons. naive_solver.
Qed.

(** ** The manifest on disk *)

Section open.
Context {W : Type} `{RecordStore W} `{JsonCodec TournamentStoreManifest} `{JsonCodec TournamentSlotRecord}.

Definition manifest_on_disk (w : W) (m : TournamentStoreManifest) : Prop :=
  ∃ id bytes, from_slice bytes = Some m ∧ rs_record w STORE_MANIFEST_LEAF = Some (id, bytes).

(** The records of all slots are where they were. *)
Definition slots_kept (w w' : W) : Prop :=
  ∀ i leaf, slot_leaf i = Ok leaf → rs_record w' leaf = rs_record w leaf.

(** No mark of a manifest is lost, and only those of [p] are added. *)
Definition marks_grow (p : Words) (w w' : W) : Prop :=
  ∀ m, manifest_on_disk w m → ∃ m', manifest_on_disk w' m' ∧
    ∀ i, (i < MAX_TOURNAMENT_RECORDS)%nat →
      (is_materialized m i = true → is_materialized m' i = true) ∧
      (is_materialized m' i = true → is_materialized m i = true ∨ marked p i = true).

Lemma manifest_on_disk_inj w m m' : manifest_on_disk w m → manifest_on_disk w m' → m = m'.
Proof. intros (id & bytes & Hb & Hr) (id' & bytes' & Hb' & Hr'). congruence. Qed.

Lemma slots_kept_refl w : slots_kept w w.
Proof. done. Qed.
Lemma slots_kept_trans w1 w2 w3 : slots_kept w1 w2 → slots_kept w2 w3 → slots_kept w1 w3.
Proof. intros H12 H23 i leaf Hl. rewrite (H23 i leaf) // (H12 i leaf) //. Qed.

Lemma marks_grow_same p w w' :
  rs_record w' STORE_MANIFEST_LEAF = rs_record w STORE_MANIFEST_LEAF → marks_grow p w w'.
Proof.
  intros Heq m (id & bytes & Hb & Hr). exists m. split; [|by auto]. exists id, bytes. by rewrite Heq.
Qed.
Lemma marks_grow_refl p w : marks_grow p w w.
Proof. by apply marks_grow_same. Qed.
Lemma marks_grow_trans p w1 w2 w3 : marks_grow p w1 w2 → marks_grow p w2 w3 → marks_grow p w1 w3.
Proof.
  intros H12 H23 m (m2 & Hm2 & H2)%H12. apply H23 in Hm2 as (m3 & Hm3 & H3).
  exists m3. split; [done|]. intros i Hi. destruct (H2 i Hi), (H3 i Hi). naive_solver.
Qed.

(** No mark is lost. *)
Definition marks_kept (w w' : W) : Prop :=
  ∀ m, manifest_on_disk w m → ∃ m', manifest_on_disk w' m' ∧
    ∀ i, (i < MAX_TOURNAMENT_RECORDS)%nat → is_materialized m i = true → is_materialized m' i = true.

Lemma marks_grow_kept p w w' : marks_grow p w w' → marks_kept w w'.
Proof.
  intros Hg m (m' & Hm' & Hb)%Hg. exists m'. split; [done|]. intros i Hi. by apply Hb.
Qed.
Lemma marks_kept_trans w1 w2 w3 : marks_kept w1 w2 → marks_kept w2 w3 → marks_kept w1 w3.
Proof.
  intros H12 H23 m (m2 & Hm2 & H2)%H12. apply H23 in Hm2 as (m3 & Hm3 & H3).
  exists m3. split; [done|]. intros i Hi Hm. apply H3; [done|]. by apply H2.
Qed.

#[local] Hint Resolve slots_kept_refl marks_grow_refl : core.

(** What a call that writes only the manifest leaves alone. *)
Lemma manifest_frame w w' :
  (∀ l, l ≠ STORE_MANIFEST_LEAF → rs_is_temp l = false → rs_record w' l = rs_record w l) → slots_kept w w'.
Proof.
  intros Hf i leaf Hl. apply Hf; [by eapply slot_leaf_not_manifest|by eapply slot_leaf_not_temp].
Qed.

Lemma rs_list_kept p w r w' : rs_list w = (r, w') → slots_kept w w' ∧ marks_grow p w w'.
Proof.
  intros [Hf _]%rs_list_spec. split.
  - intros i leaf Hl. apply Hf. by eapply slot_leaf_not_temp.
  - apply marks_grow_same, Hf, manifest_not_temp.
Qed.

Lemma merge_marked m present changed next :
  merge_materialized m present = (changed, next) →
  (∀ i, (i < MAX_TOURNAMENT_RECORDS)%nat → is_materialized next i = is_materialized m i || marked present i) ∧
  (changed = false → next = m) ∧ manifest_validate next = manifest_validate m.
Proof.
  intros [= <- <-]. split_and!; try done.
  - intros i Hi. rewrite !is_materialized_marked /= marked_merge //.
  - intros Heq%negb_false_iff%bool_decide_eq_true. destruct m; simpl in *. by rewrite Heq.
Qed.

(** The guarantees of one round and of the whole retry loop. *)
Definition persist_post (present : Words) (w w' : W) (m : TournamentStoreManifest) : Prop :=
  manifest_on_disk w' m ∧ manifest_validate m = Ok tt ∧
  ∀ i, (i < MAX_TOURNAMENT_RECORDS)%nat → marked present i = true → is_materialized m i = true.

Lemma persist_round_spec present w r w' :
  persist_round present w = (r, w') →
  slots_kept w w' ∧ marks_grow present w w' ∧ ∀ m, r = Ok (Some m) → persist_post present w w' m.
Proof.
  unfold persist_round. intros Hrun.
  apply M_bind_inv in Hrun as [(cur & w1 & Hread & Hrun)|(e & Hread & ->)];
    apply rs_read_spec in Hread as [Hsame Hval].
  2: { split_and!; [by intros i leaf _|by apply marks_grow_same|done]. }
  destruct (Hval _ eq_refl) as (bytes & Hbytes & Hrec).
  assert (slots_kept w w1) as Hk1 by by intros i leaf _.
  assert (marks_grow present w w1) as Hm1 by by apply marks_grow_same.
  assert (manifest_on_disk w1 (sj_value cur)) as Hdisk by (exists (sj_identity cur), bytes; by rewrite Hsame).
  apply M_bind_inv in Hrun as [([] & ws & Hv & Hrun)|(e & Hv & ->)]; injection Hv as Hv <-; [|done].
  destruct (merge_materialized _ _) as [changed next] eqn:Hmerge.
  apply merge_marked in Hmerge as (Hmarks & Hnext & Hnv). rewrite Hv in Hnv.
  assert (∀ i, (i < MAX_TOURNAMENT_RECORDS)%nat → marked present i = true → is_materialized next i = true)
    as Hpres by (intros i Hi Hp; by rewrite Hmarks // Hp orb_true_r).
  destruct changed; simpl in Hrun.
  2: { injection Hrun as <- <-. split_and!; try done. intros m [= <-]. split_and!; try done. by rewrite Hnext. }
  destruct (rs_replace _ _ _ _ w1) as [r2 w2] eqn:Hrep.
  apply rs_replace_spec in Hrep as [Hf Hpost]; [|apply manifest_not_temp].
  assert (slots_kept w w2) as Hk2 by (eapply slots_kept_trans; [done|by apply manifest_frame]).
  assert (∀ id, holds_value (rs_record w2 STORE_MANIFEST_LEAF) id next →
    marks_grow present w1 w2 ∧ manifest_on_disk w2 next) as Hwrote.
  { intros id (b2 & Hb2%from_slice_to_vec & Hr2). assert (manifest_on_disk w2 next) by (by exists id, b2).
    split; [|done]. intros m Hm. rewrite (manifest_on_disk_inj _ _ _ Hm Hdisk).
    exists next. split; [done|]. intros i Hi. rewrite Hmarks // orb_true_iff. by split; [left|]. }
  destruct r2 as [stored|e]; simpl in Hpost.
  - destruct Hpost as (_ & Hsj & [Hmk Hd]%Hwrote). injection Hrun as <- <-. rewrite Hsj.
    split_and!; [done|by eapply marks_grow_trans|]. by intros m [= <-].
  - assert (marks_grow present w w2) as Hmk2.
    { eapply marks_grow_trans; [done|]. destruct Hpost as [Hold|(_ & id & [? _]%Hwrote)]; [by apply marks_grow_same|done]. }
    destruct e; injection Hrun as <- <-; by split_and!.
Qed.

Lemma persist_rounds_spec n present w r w' :
  persist_rounds n present w = (r, w') →
  slots_kept w w' ∧ marks_grow present w w' ∧ ∀ m, r = Ok m → persist_post present w w' m.
Proof.
  revert w. induction n as [|n IH]; intros w Hrun; simpl in Hrun.
  { injection Hrun as <- <-. by split_and!. }
  apply M_bind_inv in Hrun as [(round & w1 & Hr & Hrun)|(e & Hr & ->)];
    apply persist_round_spec in Hr as (Hk & Hm & Hpost); [|by split_and!].
  destruct round as [m|].
  - injection Hrun as <- <-. split_and!; try done. intros m' [= <-]. by apply Hpost.
  - apply IH in Hrun as (Hk' & Hm' & Hpost'). split_and!.
    + by eapply slots_kept_trans.
    + by eapply marks_grow_trans.
    + intros m' Hm'eq. by apply Hpost'.
Qed.

Lemma create_manifest_kept p w r w' :
  create_manifest w = (r, w') → slots_kept w w' ∧ marks_grow p w w'.
Proof.
  unfold create_manifest. destruct (rs_create _ _ _ w) as [r1 w1] eqn:E. intros Hrun.
  assert (w1 = w') as -> by (destruct r1 as [|[]]; by simplify_eq). apply rs_create_spec in E as [Hf Hpost].
  split; [by apply manifest_frame|].
  intros m (id & bytes & Hb & Hr). rewrite Hr in Hpost.
  destruct r1; simpl in Hpost; [by destruct Hpost as [? _]|].
  destruct Hpost as [Hold|[? _]]; [|done]. exists m. split; [|by auto]. by exists id, bytes.
Qed.

Lemma ensure_manifest_kept p leaves w r w' :
  ensure_manifest leaves w = (r, w') →
  slots_kept w w' ∧ marks_grow p w w' ∧
  ∀ leaves', r = Ok leaves' → leaves' = leaves ∧ w' = w ∨ ∃ w1, rs_list w1 = (Ok leaves', w').
Proof.
  unfold ensure_manifest. destruct (existsb _ _); intros Hrun.
  { injection Hrun as <- <-. split_and!; try done. intros leaves' [= <-]. by left. }
  apply M_bind_inv in Hrun as [([] & w1 & Hg & Hrun)|(e & Hg & ->)]; injection Hg as Hg <-; [|done].
  apply M_bind_inv in Hrun as [([] & w1 & Hc & Hrun)|(e & Hc & ->)];
    apply (create_manifest_kept p) in Hc as [Hk Hm]; [|done].
  pose proof (rs_list_kept p _ _ _ Hrun) as [Hk' Hm']. split_and!.
  - by eapply slots_kept_trans.
  - by eapply marks_grow_trans.
  - intros leaves' ->. right. by exists w1.
Qed.

(** ** The scan *)

Definition same_records (w w' : W) : Prop := ∀ l, rs_record w' l = rs_record w l.

Lemma slot_coherent_same w w' i st : same_records w w' → slot_coherent w i st → slot_coherent w' i st.
Proof.
  intros Hs. destruct st as [|record id|]; try done. intros (Hv & leaf & Hl & bytes & Hb & Hr).
  split; [done|]. exists leaf. split; [done|]. exists bytes. by rewrite Hs.
Qed.

Lemma load_slot_spec leaf slot w st w' :
  slot_leaf slot = Ok leaf → load_slot leaf slot w = (st, w') →
  same_records w w' ∧ slot_coherent w' slot st ∧ st ≠ SVacant None.
Proof.
  intros Hleaf. unfold load_slot. destruct (rs_read leaf _ w) as [r w1] eqn:E.
  apply rs_read_spec in E as [Hs Hval]. destruct r as [entry|e]; intros [= <- <-]; [|done].
  destruct (Hval _ eq_refl) as (bytes & Hb & Hr). clear Hval.
  destruct (is_ok (slot_validate _ _)) eqn:Hv; [|done].
  apply is_ok_spec in Hv as [[] Hv]. unfold slot_validate in Hv. inv_ok.
  destruct (sj_value entry) as [sch n rec] eqn:Hsj. simpl in *.
  destruct rec as [record|]; [|done]. split_and!; try done.
  split; [done|]. exists leaf. split; [done|]. exists bytes. rewrite Hs Hr. split; [|done]. rewrite Hb.
  unfold slot_occupied. do 2 f_equal; [by destruct sch|lia].
Qed.

Lemma load_leaves_spec leaves sl seen unknown w sl' unknown' w' :
  length sl = MAX_TOURNAMENT_RECORDS →
  (∀ i st, sl !! i = Some st → slot_coherent w i st) →
  load_leaves leaves sl seen unknown w = (sl', unknown', w') →
  same_records w w' ∧ length sl' = MAX_TOURNAMENT_RECORDS ∧
  (∀ i st, sl' !! i = Some st → slot_coherent w' i st) ∧
  ∀ i leaf, sl' !! i = Some (SVacant None) → sl !! i = Some (SVacant None) ∧
    (slot_leaf i = Ok leaf → leaf ∉ leaves).
Proof.
  revert sl seen unknown w. induction leaves as [|leaf leaves IH]; intros sl seen unknown w Hlen Hco Hrun; simpl in Hrun.
  { injection Hrun as <- <- <-. split_and!; try done. intros i leaf Hi. split; [done|]. intros _ Hin. inversion Hin. }
  assert (∀ i leaf', slot_leaf i = Ok leaf' → parse_slot_leaf leaf ≠ Some i → leaf' ∉ leaves → leaf' ∉ leaf :: leaves)
    as Hskip.
  { intros i leaf' Hl Hp Hnin [->|?]%elem_of_cons; [|done]. by apply Hp, slot_leaf_roundtrip. }
  assert (∀ st w1 seen1, parse_slot_leaf leaf ≠ None → same_records w w1 → st ≠ SVacant None →
    (∀ i, parse_slot_leaf leaf = Some i → slot_coherent w1 i st) →
    load_leaves leaves (<[default O (parse_slot_leaf leaf) := st]> sl) seen1 unknown w1 = (sl', unknown', w') →
    same_records w w' ∧ length sl' = MAX_TOURNAMENT_RECORDS ∧
    (∀ i st, sl' !! i = Some st → slot_coherent w' i st) ∧
    ∀ i leaf', sl' !! i = Some (SVacant None) → sl !! i = Some (SVacant None) ∧
      (slot_leaf i = Ok leaf' → leaf' ∉ leaf :: leaves)) as Hset.
  { intros st w1 seen1 Hp Hsame Hst Hstco Hrun'. destruct (parse_slot_leaf leaf) as [slot|] eqn:Hslot; [|done].
    simpl in Hrun'. apply IH in Hrun' as (Hs' & Hl' & Hco' & Hvac).
    2: { by rewrite length_insert. }
    2: { intros i st' [(-> & -> & _)|[Hne Hi]]%list_lookup_insert_Some; [by apply Hstco|].
         eapply slot_coherent_same; [done|]. by apply Hco. }
    split_and!; try done.
    { intros l. by rewrite Hs' Hsame. }
    intros i leaf' Hi. destruct (Hvac i leaf' Hi) as [Hi' Hnin].
    apply list_lookup_insert_Some in Hi' as [(_ & Heq & _)|[Hne Hi']]; [by destruct (Hst Heq)|].
    split; [done|]. intros Hl. apply (Hskip i); [done|congruence|by apply Hnin]. }
  case_bool_decide as Hman.
  { apply IH in Hrun as (Hs & Hl & Hco' & Hvac); try done. split_and!; try done.
    intros i leaf' Hi. destruct (Hvac i leaf' Hi) as [Hi' Hnin]. split; [done|].
    intros Hl' [->|Hin]%elem_of_cons; [|by apply Hnin]. by apply slot_leaf_not_manifest in Hl'. }
  destruct (parse_slot_leaf leaf) as [slot|] eqn:Hslot.
  2: { apply IH in Hrun as (Hs & Hl & Hco' & Hvac); try done. split_and!; try done.
       intros i leaf' Hi. destruct (Hvac i leaf' Hi) as [Hi' Hnin]. split; [done|].
       intros Hl'. apply (Hskip i); [done|done|by apply Hnin]. }
  destruct (seen !!! slot).
  { by apply (Hset SCorrupt w seen) in Hrun. }
  destruct (load_slot leaf slot w) as [loaded w1] eqn:Hload.
  apply load_slot_spec in Hload as (Hs & Hlc & Hne); [|by apply slot_leaf_roundtrip].
  apply (Hset loaded w1 (<[slot := true]> seen)) in Hrun; try done. by intros i [= <-].
Qed.

Lemma load_leaves_untouched leaves sl seen unknown w i leaf :
  slot_leaf i = Ok leaf → leaf ∉ leaves → (load_leaves leaves sl seen unknown w).1.1 !! i = sl !! i.
Proof.
  intros Hleaf. revert sl seen unknown w. induction leaves as [|l leaves IH]; intros sl seen unknown w Hnin; [done|].
  apply not_elem_of_cons in Hnin as [Hne Hnin]. simpl. case_bool_decide; [by apply IH|].
  destruct (parse_slot_leaf l) as [slot|] eqn:Hslot; [|by apply IH].
  assert (slot ≠ i) as Hsi.
  { intros ->. apply slot_leaf_roundtrip in Hslot. congruence. }
  destruct (seen !!! slot); [by rewrite IH // list_lookup_insert_ne|].
  destruct (load_slot l slot w) as [loaded w1]. by rewrite IH // list_lookup_insert_ne.
Qed.

Lemma fresh_slots_lookup m i st :
  fresh_slots m !! i = Some st ↔
  (i < MAX_TOURNAMENT_RECORDS)%nat ∧ st = (if is_materialized m i then SCorrupt else SVacant None).
Proof.
  unfold fresh_slots. rewrite list_lookup_fmap fmap_Some. split.
  - by intros (k & [-> ?]%lookup_seq & ->).
  - intros [Hi ->]. exists i. by rewrite lookup_seq.
Qed.

(** What memory, manifest and directory say of one slot. *)
Definition slot_accounted (w : W) (m : TournamentStoreManifest) (i : nat) (st : SlotState) : Prop :=
  ∀ leaf, slot_leaf i = Ok leaf →
  (st ≠ SCorrupt → is_Some (rs_record w leaf) → is_materialized m i = true) ∧
  (st = SVacant None → is_materialized m i = false ∧ rs_record w leaf = None).

Definition accounted (ws : W * StoreState) : Prop :=
  ∃ m, manifest_on_disk (fst ws) m ∧ ∀ i st, slots (snd ws) !! i = Some st → slot_accounted (fst ws) m i st.

Lemma present_marked leaves slot leaf :
  slot_leaf slot = Ok leaf →
  marked (foldl mark_materialized_word no_words (omap parse_slot_leaf leaves)) slot = bool_decide (leaf ∈ leaves).
Proof.
  intros Hleaf. assert (slot < MAX_TOURNAMENT_RECORDS)%nat by by apply slot_leaf_Ok in Hleaf as [? _].
  rewrite marked_foldl // marked_no_words //=. apply bool_decide_ext. rewrite list_elem_of_omap. split.
  - intros (l & Hl & Hp). apply slot_leaf_roundtrip in Hp. by assert (l = leaf) as <- by congruence.
  - intros Hl. exists leaf. split; [done|]. by apply slot_leaf_roundtrip.
Qed.

Lemma slot_leaf_not_dot slot leaf : slot_leaf slot = Ok leaf → leaf ≠ lit "." ∧ leaf ≠ lit "..".
Proof. by intros [_ ->]%slot_leaf_Ok. Qed.

(** The listing that the scan uses names exactly the slots with a file. *)
Lemma listed_slots w leaves w' i leaf :
  rs_list w = (Ok leaves, w') → slot_leaf i = Ok leaf → leaf ∈ leaves ↔ is_Some (rs_record w' leaf).
Proof.
  intros [Hf Hn]%rs_list_spec Hl. pose proof (slot_leaf_not_dot _ _ Hl) as [Hd Hdd].
  rewrite Hf; [|by eapply slot_leaf_not_temp]. apply Hn; try done. by eapply slot_leaf_not_temp.
Qed.

Lemma load_store_spec leaves m w r w' :
  manifest_on_disk w m →
  (∀ i leaf, slot_leaf i = Ok leaf → leaf ∈ leaves ↔ is_Some (rs_record w leaf)) →
  (∀ i leaf, slot_leaf i = Ok leaf → leaf ∈ leaves → is_materialized m i = true) →
  load_store leaves m w = (r, w') →
  same_records w w' ∧
  ∃ s, r = Ok s ∧ coherent (w', s) ∧ accounted (w', s) ∧ poisoned s = false ∧
    ∀ i leaf, slot_leaf i = Ok leaf → rs_record w leaf = None → is_materialized m i = true →
      slots s !! i = Some SCorrupt.
Proof.
  intros Hm Hnames Hmarks. unfold load_store. destruct (load_leaves _ _ _ _ w) as [[sl unknown] w1] eqn:Hload.
  intros [= <- <-]. pose proof Hload as Hspec. apply load_leaves_spec in Hspec as (Hs & Hlen & Hco & Hvac).
  2: { unfold fresh_slots. by rewrite length_fmap length_seq. }
  2: { intros i st [_ ->]%fresh_slots_lookup. by destruct (is_materialized m i). }
  split; [done|]. eexists. split; [done|]. split_and!; try done.
  - exists m. split.
    { destruct Hm as (id & bytes & Hb & Hr). exists id, bytes. by rewrite /= Hs. }
    intros i st Hi leaf Hl. simpl in *. rewrite Hs. split.
    + intros _ Hin. eapply Hmarks; [done|]. by apply (Hnames i).
    + intros ->. destruct (Hvac i leaf Hi) as [[_ Hf]%fresh_slots_lookup Hnin].
      destruct (is_materialized m i); [done|]. split; [done|]. apply eq_None_not_Some.
      intros Hin%(Hnames i); [|done]. by apply Hnin.
  - intros i leaf Hl Hnone Hmat. simpl. pose proof (load_leaves_untouched leaves (fresh_slots m)
      (replicate MAX_TOURNAMENT_RECORDS false) 0 w i leaf Hl) as Hun. rewrite Hload /= in Hun. rewrite Hun.
    2: { intros [? Hin]%(Hnames i leaf Hl). congruence. }
    apply fresh_slots_lookup. rewrite Hmat. by apply slot_leaf_Ok in Hl as [? _].
Qed.

Lemma store_open_spec w r w' :
  store_open w = (r, w') →
  slots_kept w w' ∧ marks_kept w w' ∧
  ∀ s, r = Ok s → coherent (w', s) ∧ accounted (w', s) ∧ poisoned s = false ∧
    ∀ m i leaf, manifest_on_disk w m → slot_leaf i = Ok leaf → rs_record w leaf = None →
      is_materialized m i = true → slots s !! i = Some SCorrupt.
Proof.
  unfold store_open. intros Hrun.
  apply M_bind_inv in Hrun as [(leaves0 & w1 & Hlist & Hrun)|(e & Hlist & ->)];
    pose proof (rs_list_kept no_words _ _ _ Hlist) as [Hk1 Hm1%marks_grow_kept]; [|done].
  apply M_bind_inv in Hrun as [(leaves & w2 & Hens & Hrun)|(e & Hens & ->)];
    apply (ensure_manifest_kept no_words) in Hens as (Hk2 & Hm2%marks_grow_kept & Hwhich).
  2: { split_and!; [by eapply slots_kept_trans|by eapply marks_kept_trans|done]. }
  apply M_bind_inv in Hrun as [(m & w3 & Hper & Hrun)|(e & Hper & ->)];
    apply persist_rounds_spec in Hper as (Hk3 & Hm3%marks_grow_kept & Hpost).
  2: { split_and!; [do 2 (eapply slots_kept_trans; [done|]); done|
                    do 2 (eapply marks_kept_trans; [done|]); done|done]. }
  assert (slots_kept w w3) as Hk by (do 2 (eapply slots_kept_trans; [done|]); done).
  assert (marks_kept w w3) as Hm by (do 2 (eapply marks_kept_trans; [done|]); done).
  destruct (Hpost _ eq_refl) as (Hdisk & _ & Hmarks). simpl in Hrun.
  assert (∃ w0, rs_list w0 = (Ok leaves, w2)) as [w0 Hlisted].
  { destruct (Hwhich _ eq_refl) as [[-> ->]|?]; [by exists w|done]. }
  apply load_store_spec in Hrun as (Hs & s & -> & Hco & Hacc & Hp & Hlost); [|done|..].
  2: { intros i leaf Hl. rewrite (Hk3 i) //. by eapply listed_slots. }
  2: { intros i leaf Hl Hin. apply Hmarks; [by apply slot_leaf_Ok in Hl as [? _]|].
       rewrite (present_marked _ _ leaf) //. by apply bool_decide_eq_true. }
  split_and!.
  - intros i leaf Hl. rewrite Hs. by eapply Hk.
  - eapply marks_kept_trans; [done|]. by apply (marks_grow_kept no_words), marks_grow_same.
  - intros s' [= <-]. split_and!; try done. intros m0 i leaf Hm0 Hl Hnone Hmat.
    apply (Hlost i leaf); [done|by rewrite (Hk i)|]. apply Hm in Hm0 as (m' & Hm' & Hkeep).
    rewrite (manifest_on_disk_inj _ _ _ Hdisk Hm'). apply Hkeep; [|done]. by apply slot_leaf_Ok in Hl as [? _].
Qed.

(** Whatever is in the directory, opening the store changes no slot's file and loses no
    mark of the manifest, and a store it returns agrees with the directory: every valid slot
    is the record its file holds, and a slot is vacant without a file only if the directory
    has none and the manifest has no mark for it. *)
Theorem store_open_agrees w :
  let '(r, w') := store_open w in
  slots_kept w w' ∧ marks_kept w w' ∧
  ∀ s, r = Ok s → coherent (w', s) ∧ accounted (w', s) ∧ poisoned s = false.
Proof.
  destruct (store_open w) as [r w'] eqn:Hrun. apply store_open_spec in Hrun as (? & ? & Hs).
  split_and!; try done. intros s Hr. by apply Hs in Hr as (? & ? & ? & _).
Qed.

(** A lost record is noticed: if the file of a slot the store held as valid is gone when
    the directory is opened again, with the manifest as it was, the slot reads as corrupt,
    so it counts as live and is never allocated again. *)
Theorem lost_record_is_corrupt w s i record id leaf w2 r w3 s3 :
  coherent (w, s) → accounted (w, s) → slots s !! i = Some (SValid record id) →
  slot_leaf i = Ok leaf → rs_record w2 leaf = None →
  rs_record w2 STORE_MANIFEST_LEAF = rs_record w STORE_MANIFEST_LEAF →
  store_open w2 = (r, w3) → r = Ok s3 → slots s3 !! i = Some SCorrupt.
Proof.
  intros [_ Hco] (m & Hm & Hacc) Hi Hl Hnone Hsame Hrun Hr.
  apply store_open_spec in Hrun as (_ & _ & Hs). apply Hs in Hr as (_ & _ & _ & Hlost).
  apply (Hlost m i leaf); try done.
  - destruct Hm as (mid & bytes & Hb & Hrec). exists mid, bytes. by rewrite Hsame.
  - destruct (Hco _ _ Hi) as (_ & leaf' & Hl' & bytes & _ & Hrec). simpl in *.
    destruct (Hacc _ _ Hi leaf Hl) as [Hmark _]. apply Hmark; [done|].
    assert (leaf' = leaf) as <- by congruence. by eexists.
Qed.
End open.
