(* ===== verification/TournamentOps.v ===== *)
(** [src/speculation_registry.rs], the operations of an open store: allocation, restart
    normalization, and what every sequence of operations keeps.

    An allocation respects the limit of live tournaments, never takes a live slot and never
    duplicates a tournament; a restart normalization of an untouched record is refused by
    nothing but the file system; a record that carries a prior phase outside
    [RollbackRequired] is never normalized again. *)
From stdpp Require Import vector.
From S2P Require Import Prelude Utf8 Protocol Speculation EvidenceFs TournamentRecord TournamentStore TournamentOpen.

Section ops.
Context {W : Type} `{RecordStore W} `{JsonCodec TournamentStoreManifest} `{JsonCodec TournamentSlotRecord}.
Implicit Types (w : W) (s : StoreState).

Abbreviation Locked := (M (W * StoreState) EvidenceError).

(** ** What is kept *)

(** No tournament has two slots. *)
Definition unique_uuids (s : StoreState) : Prop :=
  ∀ i j r id r' id', slots s !! i = Some (SValid r id) → slots s !! j = Some (SValid r' id') →
    tournament_uuid (status r) = tournament_uuid (status r') → i = j.

Definition store_inv (ws : W * StoreState) : Prop :=
  coherent ws ∧ accounted ws ∧ unique_uuids (snd ws).

(** Only [slot] may have changed, on disk and in memory. *)
Definition touches (slot : nat) (ws ws' : W * StoreState) : Prop :=
  others_kept slot (fst ws) (fst ws') ∧ same_slots_but slot (snd ws) (snd ws').

Lemma touches_refl slot ws : touches slot ws ws.
Proof. by repeat split. Qed.

Lemma touches_set slot st w w' s s' :
  others_kept slot w w' → same_slots_but slot s s' → (slot < length (slots s))%nat →
  let s2 := {| slots := <[slot := st]> (slots s'); unknown_corrupt_records := unknown_corrupt_records s';
               poisoned := poisoned s' |} in
  touches slot (w, s) (w', s2) ∧ slots s2 !! slot = Some st.
Proof.
  intros Hw [Hs [Hl ?]] Hlt. simpl. repeat split; simpl; try naive_solver.
  - intros i Hi. rewrite list_lookup_insert_ne //. by apply Hs.
  - by rewrite length_insert.
  - rewrite list_lookup_insert_eq //. lia.
Qed.

Lemma accounted_update p slot w w' s s' st :
  accounted (w, s) → touches slot (w, s) (w', s') → slots s' !! slot = Some st →
  marks_grow p w w' → (∀ i, i ≠ slot → (i < MAX_TOURNAMENT_RECORDS)%nat → marked p i = false) →
  (∀ m m' leaf, manifest_on_disk w m → manifest_on_disk w' m' → slot_leaf slot = Ok leaf →
    st ≠ SCorrupt → is_materialized m' slot = true ∧ st ≠ SVacant None) →
  accounted (w', s').
Proof.
  intros (m & Hm & Hacc) [Hw [Hs Hl]] Hst Hgrow Hp Hslot.
  destruct (Hgrow m Hm) as (m' & Hm' & Hbits). exists m'. split; [done|].
  intros i st' Hi leaf Hleaf. simpl in *.
  assert (i < MAX_TOURNAMENT_RECORDS)%nat as Hlt by by apply slot_leaf_Ok in Hleaf as [? _].
  destruct (decide (i = slot)) as [->|Hne].
  - simplify_eq. assert (st = SCorrupt ∨ st ≠ SCorrupt) as [->|Hnc]
      by (destruct st; [by right..|by left]); [by split|].
    destruct (Hslot m m' leaf Hm Hm' Hleaf Hnc) as [Hmat Hnv]. by split.
  - rewrite Hs // in Hi. destruct (Hacc i st' Hi leaf Hleaf) as [Hf Hv]. destruct (Hbits i Hlt) as [Hb Hb'].
    rewrite (Hw i leaf) //. split; [by auto|]. intros [Hvm Hvr]%Hv. split; [|done].
    apply not_true_is_false. intros [?|Hmark]%Hb'; [congruence|]. by rewrite Hp in Hmark.
Qed.

Lemma unique_update slot w w' s s' st :
  unique_uuids s → touches slot (w, s) (w', s') → slots s' !! slot = Some st →
  (∀ r id, st = SValid r id → ∀ j r' id', slots s !! j = Some (SValid r' id') →
    tournament_uuid (status r) = tournament_uuid (status r') → j = slot) →
  unique_uuids s'.
Proof.
  intros Hun [_ [Hs _]] Hst Hfresh i j r id r' id' Hi Hj Heq. simpl in *.
  destruct (decide (i = slot)) as [->|Hi']; destruct (decide (j = slot)) as [->|Hj']; try done.
  - rewrite Hs // in Hj. symmetry. apply (Hfresh r id ltac:(congruence) _ _ _ Hj Heq).
  - rewrite Hs // in Hi. apply (Hfresh r' id' ltac:(congruence) _ _ _ Hi). done.
  - rewrite Hs // in Hi. rewrite Hs // in Hj. by eapply Hun.
Qed.

(** An operation on one slot that stored [record] there, or marked it corrupt. *)
Lemma store_inv_update p slot w w' s s' st :
  store_inv (w, s) → touches slot (w, s) (w', s') → slots s' !! slot = Some st →
  slot_coherent w' slot st →
  marks_grow p w w' → (∀ i, i ≠ slot → (i < MAX_TOURNAMENT_RECORDS)%nat → marked p i = false) →
  (∀ m m' leaf, manifest_on_disk w m → manifest_on_disk w' m' → slot_leaf slot = Ok leaf →
    st ≠ SCorrupt → is_materialized m' slot = true ∧ st ≠ SVacant None) →
  (∀ r id, st = SValid r id → ∀ j r' id', slots s !! j = Some (SValid r' id') →
    tournament_uuid (status r) = tournament_uuid (status r') → j = slot) →
  store_inv (w', s').
Proof.
  intros (Hco & Hacc & Hun) Ht Hst Hsc Hgrow Hp Hslot Hfresh. split_and!.
  - destruct Ht as [Hw Hs]. by eapply coherent_update.
  - by eapply accounted_update.
  - by eapply unique_update.
Qed.

Lemma store_inv_corrupt p slot w w' s s' :
  store_inv (w, s) → touches slot (w, s) (w', s') → slots s' !! slot = Some SCorrupt →
  marks_grow p w w' → (∀ i, i ≠ slot → (i < MAX_TOURNAMENT_RECORDS)%nat → marked p i = false) →
  store_inv (w', s').
Proof. intros. by eapply store_inv_update. Qed.

(** A write to a slot's file touches neither another slot's file nor the manifest. *)
Lemma write_slot_frame slot leaf entry w s r w' s' :
  slot_leaf slot = Ok leaf →
  (∀ r w', entry w = (r, w') → ∀ l, l ≠ leaf → rs_is_temp l = false → rs_record w' l = rs_record w l) →
  write_slot slot entry (w, s) = (r, (w', s')) → ∀ p, marks_grow p w w'.
Proof.
  intros Hleaf Hentry Hrun p. apply marks_grow_same. unfold write_slot in Hrun.
  destruct (entry w) as [r1 w1] eqn:E. assert (w1 = w') as <-.
  { destruct r1 as [e|e]; [|by injection Hrun]. destruct (is_ok _); [|by injection Hrun].
    destruct (sr_record _); by injection Hrun. }
  eapply Hentry; [done| |apply manifest_not_temp]. intros Heq. by apply slot_leaf_not_manifest in Hleaf.
Qed.

(** [record] duplicates no tournament of another slot. *)
Definition fresh_for (s : StoreState) (slot : nat) (record : TournamentRecord) : Prop :=
  ∀ j r id, slots s !! j = Some (SValid r id) →
    tournament_uuid (status record) = tournament_uuid (status r) → j = slot.

(** What an operation that stores [record] in [slot] ends with. *)
Definition stored_or_corrupt (slot : nat) (record : TournamentRecord) (s' : StoreState) (ok : bool) : Prop :=
  if ok then ∃ id, slots s' !! slot = Some (SValid record id) else slots s' !! slot = Some SCorrupt.

(** Replacing a slot's file and updating memory, the tail of every write. *)
Lemma replace_and_set {A} slot leaf id next (f : TournamentRecord * FileIdentity → A) w s r w' s' :
  store_inv (w, s) → validate next = Ok tt → (slot < length (slots s))%nat → slot_leaf slot = Ok leaf →
  fresh_for s slot next → slots s !! slot ≠ Some SCorrupt →
  (stored ← write_slot slot (rs_replace leaf id (slot_occupied slot next) MAX_SPECULATION_JSON_BYTES);
   _ ← set_slot slot (SValid (fst stored) (snd stored));
   mret (f stored)) (w, s) = (r, (w', s')) →
  store_inv (w', s') ∧ touches slot (w, s) (w', s') ∧ stored_or_corrupt slot next s' (is_ok r) ∧
  ∀ a, r = Ok a → ∃ id', a = f (next, id').
Proof.
  intros Hinv Hv Hlt Hleaf Hfresh Hnc Hrun.
  assert (∀ r1 w1 s1, write_slot slot (rs_replace leaf id (slot_occupied slot next) MAX_SPECULATION_JSON_BYTES)
    (w, s) = (r1, (w1, s1)) → ∀ p, marks_grow p w w1) as Hgrow.
  { intros r1 w1 s1 Hw. eapply write_slot_frame; [done| |done]. intros r2 w2 Hrep l Hl Htemp.
    apply rs_replace_spec in Hrep as [Hf _]; [by apply Hf|by eapply slot_leaf_not_temp]. }
  apply M_bind_inv in Hrun as [([stored id'] & [w1 s1] & Hw & Hrun)|(e & Hw & ->)];
    specialize (Hgrow _ _ _ Hw); eapply write_slot_replace_spec in Hw as (Hk & Hb & Hpost); try done.
  - destruct Hpost as (-> & -> & Hdisk & Hold). simpl in Hrun. injection Hrun as <- <- <-.
    destruct (touches_set slot (SValid next id') w w1 s s Hk Hb Hlt) as [Ht Hst].
    split_and!; [|done|by exists id'|intros a [= <-]; by exists id'].
    eapply (store_inv_update no_words); [done..| |done| | |].
    + split; [done|]. by exists leaf.
    + intros. by apply marked_no_words.
    + intros m m' leaf' Hm Hm' Hleaf' _. split; [|done]. assert (leaf' = leaf) as -> by congruence.
      destruct Hinv as (_ & (m0 & Hm0 & Hacc) & _). destruct (Hgrow no_words m0 Hm0) as (m1 & Hm1 & Hbits).
      rewrite (manifest_on_disk_inj _ _ _ Hm' Hm1). apply Hbits; [by apply slot_leaf_Ok in Hleaf as [? _]|].
      destruct (lookup_lt_is_Some_2 _ _ Hlt) as [st0 Hst0]. destruct (Hacc _ _ Hst0 leaf Hleaf) as [Hf _].
      apply Hf; [congruence|]. apply fmap_Some in Hold as (x & Hx & _). by exists x.
    + intros r0 id0 [= <- <-]. apply Hfresh.
  - rename Hpost into Hcorrupt. split_and!; try done.
    by eapply (store_inv_corrupt no_words); [..|intros; by apply marked_no_words].
Qed.

Lemma store_inv_length w s : store_inv (w, s) → length (slots s) = MAX_TOURNAMENT_RECORDS.
Proof. by intros [[? _] _]. Qed.

(** A commit of a record of the same tournament over a valid slot. *)
Lemma commit_inv slot id next current w s r w' s' id0 :
  store_inv (w, s) → validate next = Ok tt → slots s !! slot = Some (SValid current id0) →
  tournament_uuid (status next) = tournament_uuid (status current) →
  commit slot id next (w, s) = (r, (w', s')) →
  store_inv (w', s') ∧ touches slot (w, s) (w', s') ∧ stored_or_corrupt slot next s' (is_ok r) ∧
  ∀ u, r = Ok u → u = {| su_key := key_for slot next; su_record := next |}.
Proof.
  intros Hinv Hv Hst Huuid Hrun. pose proof (lookup_lt_Some _ _ _ Hst) as Hlt.
  pose proof (store_inv_length _ _ Hinv) as Hlen.
  assert (∃ leaf, slot_leaf slot = Ok leaf) as [leaf Hleaf] by (eexists; apply slot_leaf_Ok; split; [lia|done]).
  unfold commit in Hrun. rewrite Hleaf in Hrun.
  apply M_bind_inv in Hrun as [(l & ws & Hl & Hrun)|(e & Hl & _)]; [|done]. injection Hl as <- <-.
  apply replace_and_set in Hrun as (? & ? & ? & Hu); try done.
  - split_and!; try done. by intros u (id' & ->)%Hu.
  - intros j r0 id1 Hj Heq. destruct Hinv as (_ & _ & Hun). eapply Hun; [done..|]. congruence.
  - congruence.
Qed.

(** ** Writes *)

Lemma write_inv key g next kind w s r w' s' :
  store_inv (w, s) → write key g next kind (w, s) = (r, (w', s')) →
  store_inv (w', s') ∧ touches (key_slot key) (w, s) (w', s').
Proof.
  intros Hinv [[[= -> ->] _]|(current & id & Hv & _ & Hst & Href & Hc)]%write_run; [done|].
  apply write_not_refused in Href as (_ & _ & _ & Him & _).
  eapply commit_inv in Hc as (? & ? & _); try done.
  unfold immutable_identity_matches in Him. inv_ok. lia.
Qed.

(** C1: A write of the store is a compare-and-swap. It keeps memory, manifest and directory
    in agreement and every other slot as it was, on disk and in memory; it succeeds only on
    the record with the expected generation, moving it along an edge its kind allows to
    generation plus one; a failure leaves everything as it was or marks the slot corrupt;
    and once one writer has succeeded, another with the same key is refused and changes
    nothing. *)
Theorem write_is_compare_and_swap key g next kind w s :
  store_inv (w, s) →
  let '(r, (w', s')) := write key g next kind (w, s) in
  store_inv (w', s') ∧ touches (key_slot key) (w, s) (w', s') ∧
  match r with
  | Ok u =>
    su_record u = next ∧ su_key u = key_for (key_slot key) next ∧ st_generation (status next) = g + 1 ∧
    (∃ id', slots s' !! key_slot key = Some (SValid next id')) ∧
    (∃ current id, slots s !! key_slot key = Some (SValid current id) ∧
       st_generation (status current) = g ∧ write_kind_allows kind current next = true) ∧
    ∀ other kind', is_ok (fst (write key g other kind' (w', s'))) = false ∧
                   snd (write key g other kind' (w', s')) = (w', s')
  | Err _ => (w', s') = (w, s) ∨ slots s' !! key_slot key = Some SCorrupt
  end.
Proof.
  intros Hinv. destruct (write key g next kind (w, s)) as [r [w' s']] eqn:Hrun.
  pose proof (write_inv _ _ _ _ _ _ _ _ _ Hinv Hrun) as (Hinv' & Ht). split_and!; try done.
  apply write_run in Hrun as [[[= -> ->] (e & -> & _)]|(current & id & Hv & _ & Hst & Href & Hc)]; [by left|].
  pose proof (write_not_refused _ _ _ _ _ Href) as (Hg & Hg' & _ & Him & Hkind).
  eapply commit_inv in Hc as (_ & _ & Hpost & Hu); try done.
  2: { unfold immutable_identity_matches in Him. inv_ok. lia. }
  destruct r as [u|e]; [|by right]. destruct Hpost as [id' Hst']. rewrite (Hu u eq_refl). cbn [su_record su_key].
  split_and!; try done; eauto.
  intros other kind'. destruct (write key g other kind' (w', s')) as [r2 ws2] eqn:Hrun2.
  apply write_run in Hrun2 as [[-> (e & -> & _)]|(current2 & id2 & _ & _ & Hst2 & Href2 & _)]; [done|].
  apply write_not_refused in Href2 as (Hg2 & _). simplify_eq. lia.
Qed.

(** A write that is not refused is a commit. *)
Lemma write_commit slot g kind next current id w s :
  validate next = Ok tt → poisoned s = false → slots s !! slot = Some (SValid current id) →
  write_refused (key_for slot current) g kind current next = false →
  write (key_for slot current) g next kind (w, s) = commit slot id next (w, s).
Proof.
  intros Hv Hp Hst Href. unfold write, mbind, M_bind, lift, lock.
  rewrite Hv Hp. assert (valid_slot s (key_for slot current) = Ok (current, id)) as -> by by apply valid_slot_Ok.
  cbn [fst snd]. by rewrite Href.
Qed.

(** So it fails only with the slot marked corrupt. *)
Lemma write_accepted slot g kind next current id w s r w' s' :
  store_inv (w, s) → validate next = Ok tt → poisoned s = false → slots s !! slot = Some (SValid current id) →
  write_refused (key_for slot current) g kind current next = false →
  write (key_for slot current) g next kind (w, s) = (r, (w', s')) →
  store_inv (w', s') ∧ touches slot (w, s) (w', s') ∧ poisoned s' = false ∧
  stored_or_corrupt slot next s' (is_ok r) ∧
  ∀ u, r = Ok u → u = {| su_key := key_for slot next; su_record := next |}.
Proof.
  intros Hinv Hv Hp Hst Href Hrun. rewrite (write_commit _ _ _ _ _ _ _ _ Hv Hp Hst Href) in Hrun.
  pose proof (write_not_refused _ _ _ _ _ Href) as (_ & _ & _ & Him & _).
  eapply commit_inv in Hrun as (? & Ht & ? & ?); try done.
  - split_and!; try done. destruct Ht as (_ & _ & _ & _ & Hp'). simpl in Hp'. congruence.
  - unfold immutable_identity_matches in Him. inv_ok. lia.
Qed.

(** ** Allocation *)

Lemma note_materialized_run slot w s r w' s' :
  note_materialized slot (w, s) = (r, (w', s')) →
  slots_kept w w' ∧ marks_grow (mark_materialized_word no_words slot) w w' ∧
  match r with
  | Ok _ => s' = s ∧ ∃ m, persist_post (mark_materialized_word no_words slot) w w' m
  | Err _ => s' = {| slots := <[slot := SCorrupt]> (slots s);
                     unknown_corrupt_records := unknown_corrupt_records s; poisoned := poisoned s |}
  end.
Proof.
  unfold note_materialized. destruct (persist_materialized_slots _ w) as [r1 w1] eqn:E.
  apply persist_rounds_spec in E as (Hk & Hm & Hpost).
  destruct r1 as [m|e]; intros [= <- <- <-]; split_and!; eauto.
Qed.

Lemma marked_one slot i :
  (i < MAX_TOURNAMENT_RECORDS)%nat →
  marked (mark_materialized_word no_words slot) i = bool_decide (slot = i).
Proof. intros Hi. by rewrite marked_mark // marked_no_words. Qed.

(** A slot written for the first time: its file is created, then its mark. *)
Lemma create_and_mark slot leaf record w s r w' s' :
  store_inv (w, s) → validate record = Ok tt → slots s !! slot = Some (SVacant None) →
  slot_leaf slot = Ok leaf → fresh_for s slot record →
  (stored ← (stored ← write_slot slot (rs_create leaf (slot_occupied slot record) MAX_SPECULATION_JSON_BYTES);
             _ ← note_materialized slot;
             mret stored);
   _ ← set_slot slot (SValid (fst stored) (snd stored));
   mret (key_for slot record)) (w, s) = (r, (w', s')) →
  store_inv (w', s') ∧ touches slot (w, s) (w', s') ∧ stored_or_corrupt slot record s' (is_ok r) ∧
  ∀ k, r = Ok k → k = key_for slot record.
Proof.
  intros Hinv Hv Hst Hleaf Hfresh Hrun. pose proof (lookup_lt_Some _ _ _ Hst) as Hlt.
  assert (∀ w1, (∀ p, marks_grow p w w1) → ∀ w2, marks_grow (mark_materialized_word no_words slot) w1 w2 →
    marks_grow (mark_materialized_word no_words slot) w w2) as Htrans.
  { intros w1 Hw1 w2 Hw2. by eapply marks_grow_trans. }
  assert (∀ i, i ≠ slot → (i < MAX_TOURNAMENT_RECORDS)%nat →
    marked (mark_materialized_word no_words slot) i = false) as Hone.
  { intros i Hi Hm. rewrite marked_one //. by apply bool_decide_eq_false. }
  assert (∀ r1 w1 s1, write_slot slot (rs_create leaf (slot_occupied slot record) MAX_SPECULATION_JSON_BYTES)
    (w, s) = (r1, (w1, s1)) → ∀ p, marks_grow p w w1) as Hgrow.
  { intros r1 w1 s1 Hw. eapply write_slot_frame; [done| |done]. intros r2 w2 Hcr l Hl Htemp.
    apply rs_create_spec in Hcr as [Hf _]. by apply Hf. }
  assert (∀ r w', rs_create leaf (slot_occupied slot record) MAX_SPECULATION_JSON_BYTES w = (r, w') →
    (∀ l, l ≠ leaf → rs_is_temp l = false → rs_record w' l = rs_record w l) ∧
    write_post (λ id, id = None) (rs_record w leaf) (rs_record w' leaf) (slot_occupied slot record) r) as Hcreate.
  { intros r1 w1. apply rs_create_spec. }
  apply M_bind_inv in Hrun as [(stored & ws & Hw & Hrun)|(e & Hw & ->)];
    apply M_bind_inv in Hw as [([rec id] & [w1 s1] & Hw & Hn)|(e1 & Hw & He1)]; simplify_eq;
    pose proof (Hgrow _ _ _ Hw) as Hg; eapply write_slot_spec in Hw as (Hk & Hb & Hpost); try done.
  - destruct Hpost as (-> & -> & (bytes & Hbytes & Hrec) & Hold).
    apply M_bind_inv in Hn as [([] & [w2 s2] & Hn & Hret)|(e & Hn & ?)]; [|done].
    injection Hret as <- <-. apply note_materialized_run in Hn as (Hkn & Hmn & -> & m & Hdisk & _ & Hmat).
    simpl in Hrun. injection Hrun as <- <- <-.
    assert (others_kept slot w w2) as Hk2.
    { intros i l Hi Hl. rewrite (Hkn i) //. by apply Hk with i. }
    destruct (touches_set slot (SValid record id) w w2 s s Hk2 Hb Hlt) as [Ht Hst'].
    split_and!; [|done|by exists id|by intros k [= <-]].
    eapply (store_inv_update (mark_materialized_word no_words slot)); [done..| |by eapply Htrans|done| |].
    + split; [done|]. exists leaf. split; [done|]. exists bytes. split; [done|]. by rewrite (Hkn slot).
    + intros m0 m' leaf' _ Hm' Hl' _. split; [|done]. rewrite (manifest_on_disk_inj _ _ _ Hm' Hdisk).
      pose proof (store_inv_length _ _ Hinv). apply Hmat; [lia|]. rewrite marked_one; [by apply bool_decide_eq_true|lia].
    + intros r0 id0 [= <- <-]. apply Hfresh.
  - destruct Hpost as (-> & -> & _).
    apply M_bind_inv in Hn as [([] & [w2 s2] & Hn & Hret)|(e2 & Hn & ?)]; [done|].
    apply note_materialized_run in Hn as (Hkn & Hmn & ->).
    assert (others_kept slot w w') as Hk2.
    { intros i l Hi Hl. rewrite (Hkn i) //. by apply Hk with i. }
    destruct (touches_set slot SCorrupt w w' s s Hk2 Hb Hlt) as [Ht Hst']. split_and!; try done.
    by eapply store_inv_corrupt; [..|by eapply Htrans|].
  - rename Hpost into Hcorrupt. split_and!; try done.
    by eapply (store_inv_corrupt no_words); [..|intros; by apply marked_no_words].
Qed.

Lemma select_allocation_slot_Some s now slot :
  select_allocation_slot s now = Some slot →
  ∃ st, slots s !! slot = Some st ∧ slot_is_live st = false ∧
    (slot_is_vacant st = true ∨
     slot_is_reclaimable now st = true ∧ ∀ st', st' ∈ slots s → slot_is_vacant st' = false).
Proof.
  unfold select_allocation_slot. destruct (position slot_is_vacant (slots s)) as [i|] eqn:E.
  - intros [= <-]. apply position_Some in E as ((st & Hst & Hv) & _). exists st.
    split_and!; [done|by destruct st|by left].
  - intros ((st & Hst & Hv) & _)%position_Some. exists st.
    split_and!; [done| |right; split; [done|by apply position_None]].
    destruct st as [|rec id|]; try done. unfold slot_is_reclaimable in Hv. unfold slot_is_live.
    apply andb_true in Hv as [Hv _]. by rewrite Hv.
Qed.

Lemma filter_live_insert sl slot st st' :
  sl !! slot = Some st → slot_is_live st = false →
  (length (List.filter slot_is_live (<[slot := st']> sl)) ≤ S (length (List.filter slot_is_live sl)))%nat.
Proof.
  intros Hst Hlive. pose proof (lookup_lt_Some _ _ _ Hst) as Hlt.
  assert (length (List.filter slot_is_live sl) = length (List.filter slot_is_live (take slot sl)) +
    length (List.filter slot_is_live (drop (S slot) sl)))%nat as ->.
  { transitivity (length (List.filter slot_is_live (take slot sl ++ st :: drop (S slot) sl))).
    - by rewrite (take_drop_middle _ _ _ Hst).
    - by rewrite List.filter_app length_app /= Hlive. }
  rewrite insert_take_drop; [|done]. rewrite List.filter_app length_app. simpl.
  destruct (slot_is_live st'); simpl; lia.
Qed.

Lemma touches_live_count slot st ws w' s' :
  touches slot ws (w', s') → slots (snd ws) !! slot = Some st → slot_is_live st = false →
  occupied_live_count s' ≤ occupied_live_count (snd ws) + 1.
Proof.
  destruct ws as [w s]. intros [_ [Hs (Hl & Hu & _)]] Hst Hlive. simpl in *. unfold occupied_live_count.
  assert (∃ st', slots s' = <[slot := st']> (slots s)) as [st' Heq].
  { pose proof (lookup_lt_Some _ _ _ Hst) as Hlt. rewrite -Hl in Hlt.
    destruct (lookup_lt_is_Some_2 _ _ Hlt) as [st' Hst']. exists st'. apply list_eq. intros i.
    destruct (decide (i = slot)) as [->|Hne].
    - rewrite list_lookup_insert_eq //. lia.
    - by rewrite list_lookup_insert_ne // Hs. }
  rewrite Heq Hu. pose proof (filter_live_insert _ _ _ st' Hst Hlive). unfold saturating_add. lia.
Qed.

Lemma allocate_at_inv slot record st w s r w' s' :
  store_inv (w, s) → validate record = Ok tt → slots s !! slot = Some st → st ≠ SCorrupt →
  fresh_for s slot record → allocate_at s slot record (w, s) = (r, (w', s')) →
  store_inv (w', s') ∧ touches slot (w, s) (w', s') ∧ stored_or_corrupt slot record s' (is_ok r) ∧
  ∀ k, r = Ok k → k = key_for slot record.
Proof.
  intros Hinv Hv Hst Hnc Hfresh Hrun. pose proof (lookup_lt_Some _ _ _ Hst) as Hlt.
  pose proof (store_inv_length _ _ Hinv) as Hlen.
  assert (∃ leaf, slot_leaf slot = Ok leaf) as [leaf Hleaf] by (eexists; apply slot_leaf_Ok; split; [lia|done]).
  unfold allocate_at in Hrun. rewrite Hleaf Hst in Hrun.
  apply M_bind_inv in Hrun as [(l & ws & Hl & Hrun)|(e & Hl & _)]; [|done]. injection Hl as <- <-.
  destruct st as [[id|]|rec id|]; [| | |done].
  2: { by eapply create_and_mark. }
  all: apply (replace_and_set _ _ _ _ (λ _, key_for slot record)) in Hrun as (? & ? & ? & Hk); try done;
    [|congruence]; split_and!; try done; by intros k (_ & ->)%Hk.
Qed.

Lemma existsb_has_uuid_false id sl i r fid :
  existsb (has_uuid id) sl = false → sl !! i = Some (SValid r fid) → tournament_uuid (status r) ≠ id.
Proof.
  intros Hno Hi Heq. assert (existsb (has_uuid id) sl = true) as Hyes; [|congruence].
  apply existsb_exists. exists (SValid r fid). split; [by eapply list_elem_of_In, list_elem_of_lookup_2|].
  by apply Z.eqb_eq.
Qed.

(** The checks of an allocation. *)
Lemma allocate_prepared_run record now w s r ws' :
  allocate_prepared record now (w, s) = (r, ws') →
  (ws' = (w, s) ∧ is_ok r = false) ∨
  ∃ slot st, validate record = Ok tt ∧ st_phase (status record) = Prepared ∧
    occupied_live_count s < Z.of_nat MAX_LIVE_TOURNAMENTS ∧
    slots s !! slot = Some st ∧ slot_is_live st = false ∧
    (slot_is_vacant st = true ∨
     slot_is_reclaimable now st = true ∧ ∀ st', st' ∈ slots s → slot_is_vacant st' = false) ∧
    (∀ i r id, slots s !! i = Some (SValid r id) → tournament_uuid (status r) ≠ tournament_uuid (status record)) ∧
    allocate_at s slot record (w, s) = (r, ws').
Proof.
  intros Hrun.
  apply M_bind_inv in Hrun as [([] & ws & Hv & Hrun)|(e & Hv & ->)]; injection Hv as Hv <-; [|by left].
  apply M_bind_inv in Hrun as [([] & ws & Hg & Hrun)|(e & Hg & ->)]; injection Hg as Hg <-; [|by left].
  apply M_bind_inv in Hrun as [(state & ws & Hl & Hrun)|(e & Hl & ->)]; unfold lock in Hl;
    destruct (poisoned s); simplify_eq; [|by left].
  apply M_bind_inv in Hrun as [([] & ws & Hu & Hrun)|(e & Hu & ->)]; injection Hu as Hu <-; [|by left].
  apply M_bind_inv in Hrun as [([] & ws & Hc & Hrun)|(e & Hc & ->)]; injection Hc as Hc <-; [|by left].
  apply M_bind_inv in Hrun as [(slot & ws & Hs & Hrun)|(e & Hs & ->)]; injection Hs as Hs <-; [|by left].
  apply bail_if_Ok in Hg, Hu, Hc. apply ok_or_Ok, select_allocation_slot_Some in Hs as (st & Hst & Hlive & Hwhy).
  right. exists slot, st. apply orb_false in Hg as [Hp%negb_false_iff%bool_decide_eq_true _].
  split_and!; try done; [lia|]. intros i r0 id0. by apply existsb_has_uuid_false.
Qed.

(** C4: Allocating a tournament keeps memory, manifest and directory in agreement and every
    tournament in one slot. It succeeds only with fewer than eight live slots, for a
    prepared record of a tournament that is in no slot, in a slot that is vacant or, when
    none is, holds a terminal record past its retention, so a live or corrupt slot is never
    taken; a failure leaves everything as it was or marks that one slot corrupt; and the
    number of live slots never passes the limit by allocation. *)
Theorem allocate_prepared_safe record now w s :
  store_inv (w, s) →
  let '(r, (w', s')) := allocate_prepared record now (w, s) in
  store_inv (w', s') ∧
  occupied_live_count s' ≤ Z.max (occupied_live_count s) (Z.of_nat MAX_LIVE_TOURNAMENTS) ∧
  match r with
  | Ok key =>
    ∃ st id, key = key_for (key_slot key) record ∧ touches (key_slot key) (w, s) (w', s') ∧
      slots s !! key_slot key = Some st ∧ slots s' !! key_slot key = Some (SValid record id) ∧
      (slot_is_vacant st = true ∨
       slot_is_reclaimable now st = true ∧ ∀ st', st' ∈ slots s → slot_is_vacant st' = false) ∧
      occupied_live_count s < Z.of_nat MAX_LIVE_TOURNAMENTS ∧ st_phase (status record) = Prepared ∧
      ∀ i r id, slots s !! i = Some (SValid r id) → tournament_uuid (status r) ≠ tournament_uuid (status record)
  | Err _ => (w', s') = (w, s) ∨ ∃ slot, touches slot (w, s) (w', s') ∧ slots s' !! slot = Some SCorrupt
  end.
Proof.
  intros Hinv. destruct (allocate_prepared record now (w, s)) as [r [w' s']] eqn:Hrun.
  apply allocate_prepared_run in Hrun
    as [[[= -> ->] Hr]|(slot & st & Hv & Hp & Hcap & Hst & Hlive & Hwhy & Hfresh & Hrun)].
  { split_and!; [done|lia|]. destruct r; [done|by left]. }
  eapply allocate_at_inv in Hrun as (Hinv' & Ht & Hpost & Hk); [|done..| |].
  2: { by intros ->. }
  2: { intros j r0 id0 Hj Heq. by destruct (Hfresh _ _ _ Hj). }
  pose proof (touches_live_count _ _ _ _ _ Ht Hst Hlive) as Hcount. simpl in Hcount.
  split_and!; [done|lia|]. destruct r as [key|e]; [|right; by exists slot].
  destruct Hpost as [id Hst']. rewrite (Hk _ eq_refl). exists st, id. by split_and!.
Qed.

(** ** Restart normalization *)

Lemma normalized_status_valid current g :
  is_ok (validate_status_semantics (status current)) = true → 0 < g →
  is_ok (validate_status_semantics (status (normalized_record current g))) = true.
Proof.
  intros [[] Hv]%is_ok_spec Hg. apply is_ok_spec. exists tt. unfold validate_status_semantics in *.
  apply bind_Ok in Hv as ([] & Hfields%bail_if_Ok & Hv).
  apply bind_Ok. exists tt. split; [|reflexivity]. apply bail_if_Ok.
  cbn [normalized_record status st_schema_version tournament_uuid daemon_instance_uuid st_generation
       fixed_score_order candidates error_codes] in *.
  rewrite !orb_false in Hfields. destruct_and!. rewrite !orb_false. split_and!; try done. lia.
Qed.

Lemma normalized_valid current g :
  validate current = Ok tt → status_is_terminal (status current) = false →
  st_phase (status current) ≠ RollbackRequired → restart_prior_phase current = None → 0 < g →
  validate (normalized_record current g) = Ok tt.
Proof.
  intros Hv Hterm Hphase Hprior Hg. unfold validate in *.
  apply bind_Ok in Hv as ([] & Hcore & Htc%bail_if_Ok). apply bind_Ok. exists tt. split.
  - unfold validate_core in *. apply bail_if_Ok in Hcore. apply bail_if_Ok.
    rewrite !orb_false in Hcore. destruct_and!. rewrite !orb_false. split_and!; try done.
    + apply negb_false_iff. apply normalized_status_valid; [by apply negb_false_iff|done].
    + cbn. by rewrite bool_decide_false // orb_false_r.
  - apply bail_if_Ok. unfold is_positive_terminal in *. rewrite Hterm in Htc.
    rewrite andb_false_r /= in Htc. cbn [terminal_completed_unix_ms normalized_record].
    rewrite (andb_false_r (is_ok _)) /=. done.
Qed.

Lemma same_records_touches w w' slot s s' :
  same_records w w' → same_slots_but slot s s' → touches slot (w, s) (w', s').
Proof. intros Hw Hs. split; [|done]. intros i leaf _ _. apply Hw. Qed.

Lemma same_slots_refl slot s : same_slots_but slot s s.
Proof. by repeat split. Qed.

(** Reading changes no file; it may only mark the slot it read as corrupt. *)
Lemma store_inv_read w w' slot s s' :
  store_inv (w, s) → same_records w w' → same_slots_but slot s s' →
  s' = s ∨ slots s' !! slot = Some SCorrupt → store_inv (w', s').
Proof.
  intros Hinv Hw Hs [->|Hc].
  - destruct Hinv as ([Hlen Hco] & (m & (mid & bytes & Hb & Hr) & Hacc) & Hun). split_and!; [split; [done|]| |done].
    + intros i st Hi. eapply slot_coherent_same; [done|]. by apply Hco.
    + exists m. split; [exists mid, bytes; by rewrite /= Hw|]. intros i st Hi leaf Hl. simpl. rewrite Hw. by eapply Hacc.
  - eapply (store_inv_corrupt no_words); [done|by apply same_records_touches|done|by apply marks_grow_same|].
    intros. by apply marked_no_words.
Qed.

Lemma reload_slot_run slot record id w s r w' s' :
  (slot < length (slots s))%nat → reload_slot slot record id (w, s) = (r, (w', s')) →
  same_records w w' ∧ same_slots_but slot s s' ∧
  match r with
  | Ok found => found = Some record ∧ s' = s
  | Err _ => s' = s ∧ slot_leaf slot = Err InvalidLeaf ∨ slots s' !! slot = Some SCorrupt
  end.
Proof.
  intros Hlt Hrun.
  apply M_bind_inv in Hrun as [(leaf & ws & Hl & Hrun)|(e & Hl & ->)]; injection Hl as Hl <-.
  2: { subst. split_and!; [done|apply same_slots_refl|]. left. split; [done|].
       unfold slot_leaf in *. by destruct (_ <=? _)%nat; simplify_eq. }
  unfold read_back in Hrun. destruct (rs_read leaf _ w) as [r1 w1] eqn:E. apply rs_read_spec in E as [Hsame _].
  destruct r1 as [entry|e]; [destruct (_ && _) eqn:Hmatch|].
  - injection Hrun as <- <- <-. inv_ok. split_and!; [done|apply same_slots_refl|done..].
  - apply corrupt_and_fail in Hrun as (-> & -> & ? & ?); [|done]. split_and!; try done. by right.
  - apply corrupt_and_fail in Hrun as (-> & -> & ? & ?); [|done]. split_and!; try done. by right.
Qed.

(** Looking a tournament up in a store where it has one slot. *)
Lemma load_by_uuid_run slot record id w s r w' s' :
  store_inv (w, s) → slots s !! slot = Some (SValid record id) → poisoned s = false →
  load_by_uuid (tournament_uuid (status record)) (w, s) = (r, (w', s')) →
  store_inv (w', s') ∧ touches slot (w, s) (w', s') ∧
  match r with
  | Ok found => found = Some record ∧ s' = s
  | Err _ => slots s' !! slot = Some SCorrupt
  end.
Proof.
  intros Hinv Hst Hp Hrun. pose proof (lookup_lt_Some _ _ _ Hst) as Hlt.
  pose proof (store_inv_length _ _ Hinv) as Hlen.
  assert (position (has_uuid (tournament_uuid (status record))) (slots s) = Some slot) as Hpos.
  { apply position_Some. split.
    - exists (SValid record id). split; [done|]. by apply Z.eqb_eq.
    - intros j st Hj Hst'. destruct st as [|r' id'|]; try done. apply Z.eqb_neq. intros Heq.
      destruct Hinv as (_ & _ & Hun). specialize (Hun _ _ _ _ _ _ Hst' Hst Heq). lia. }
  unfold load_by_uuid in Hrun. apply M_bind_inv in Hrun as [(state & ws & Hl & Hrun)|(e & Hl & ->)];
    unfold lock in Hl; rewrite Hp in Hl; [|done]. injection Hl as <- <-. rewrite Hpos Hst in Hrun.
  apply reload_slot_run in Hrun as (Hw & Hs & Hr); [|done].
  assert (s' = s ∨ slots s' !! slot = Some SCorrupt) as Hwhich.
  { destruct r; [by left; destruct Hr|]. destruct Hr as [[? _]|?]; by auto. }
  split_and!; [by eapply store_inv_read|by apply same_records_touches|].
  destruct r as [found|e]; [done|]. destruct Hr as [[_ Hl]|?]; [|done].
  apply (f_equal is_ok) in Hl. unfold slot_leaf in Hl. by destruct (Nat.leb_spec MAX_TOURNAMENT_RECORDS slot); [lia|].
Qed.

(** A normalization that is not refused is a commit. *)
Lemma write_restart_normalization_commit slot g snapshot next current id w s :
  validate next = Ok tt → poisoned s = false → slots s !! slot = Some (SValid current id) →
  normalization_refused (key_for slot snapshot) g snapshot current next = false →
  write_restart_normalization (key_for slot snapshot) g snapshot next (w, s) = commit slot id next (w, s).
Proof.
  intros Hv Hp Hst Href. unfold write_restart_normalization, mbind, M_bind, lift, lock.
  rewrite Hv Hp. assert (valid_slot s (key_for slot snapshot) = Ok (current, id)) as -> by by apply valid_slot_Ok.
  cbn [fst snd]. by rewrite Href.
Qed.

Lemma immutable_identity_refl record next :
  rec_boot_uuid next = rec_boot_uuid record → roots next = roots record →
  cgroup_root_locator next = cgroup_root_locator record → tournament_cgroup next = tournament_cgroup record →
  tournament_uuid (status next) = tournament_uuid (status record) →
  daemon_instance_uuid (status next) = daemon_instance_uuid (status record) →
  candidates (status next) = candidates (status record) →
  immutable_identity_matches record next = true.
Proof.
  unfold immutable_identity_matches, immutable_identity_progresses_to. intros -> -> -> -> -> -> ->.
  rewrite !Z.eqb_refl. rewrite (bool_decide_true (roots _ = _)) // (bool_decide_true (cgroup_root_locator _ = _)) //=.
  destruct (tc_domain _) as [d|]; [|done]. cbn [is_none_or]. by rewrite (bool_decide_true (Some d = Some d)).
Qed.

(** The new generation and the refusal of a normalization that is due. *)
Lemma normalization_not_refused slot current g :
  status_is_terminal (status current) = false → st_generation (status current) + 1 = g →
  g ≤ u64_max → terminal_completed_unix_ms current = None →
  normalization_refused (key_for slot current) (st_generation (status current)) current current
    (normalized_record current g) = false.
Proof.
  intros Hterm <- Hmax Hnone. unfold normalization_refused.
  assert (checked_add u64_max (st_generation (status current)) 1 = Some (st_generation (status current) + 1)) as ->
    by by apply checked_add_Some.
  rewrite immutable_identity_refl // Hnone. cbn [normalized_record status st_generation tournament_uuid key_for
    key_tournament_uuid key_generation restart_prior_phase st_phase rollback_required selected_index is_some].
  by rewrite !Z.eqb_refl !bool_decide_true.
Qed.

Lemma non_terminal_not_completed r :
  validate r = Ok tt → status_is_terminal (status r) = false → terminal_completed_unix_ms r = None.
Proof.
  intros Hv Hterm. unfold validate in Hv. apply bind_Ok in Hv as ([] & _ & Htc%bail_if_Ok).
  unfold is_positive_terminal in Htc. rewrite Hterm andb_false_r /= in Htc.
  by destruct (terminal_completed_unix_ms r).
Qed.

(** A record whose daemon is gone and which no later phase accounts for. *)
Definition normalization_due (r : TournamentRecord) : bool :=
  negb (status_is_terminal (status r) || bool_decide (st_phase (status r) = RollbackRequired)).

(** A normalization, from the lookup on. *)
Lemma normalize_run slot current fid daemon w s r w' s' :
  store_inv (w, s) → poisoned s = false → slots s !! slot = Some (SValid current fid) →
  is_nil daemon = false → daemon_instance_uuid (status current) ≠ daemon →
  normalize_after_daemon_restart (key_for slot current) (st_generation (status current)) daemon (w, s)
    = (r, (w', s')) →
  (∃ e, r = Err e ∧ store_inv (w', s') ∧ touches slot (w, s) (w', s') ∧ slots s' !! slot = Some SCorrupt) ∨
  ∃ w1, store_inv (w1, s) ∧ same_slots_but slot s s ∧ touches slot (w, s) (w1, s) ∧
    if normalization_due current then
      if is_some (restart_prior_phase current) then r = Err Corrupt ∧ w' = w1 ∧ s' = s
      else (_ ← lift (ok_or (checked_add u64_max (st_generation (status current)) 1) GenerationMismatch);
            write_restart_normalization (key_for slot current) (st_generation (status current)) current
              (normalized_record current (st_generation (status current) + 1))) (w1, s) = (r, (w', s'))
    else r = Ok {| su_key := key_for slot current; su_record := current |} ∧ w' = w1 ∧ s' = s.
Proof.
  intros Hinv Hp Hst Hnil Hne Hrun. unfold normalize_after_daemon_restart in Hrun. rewrite Hnil in Hrun.
  apply M_bind_inv in Hrun as [([] & ws & Hg & Hrun)|(e & Hg & _)]; [|done]. injection Hg as <-.
  apply M_bind_inv in Hrun as [(found & [w1 s1] & Hl & Hrun)|(e & Hl & ->)];
    eapply load_by_uuid_run in Hl as (Hinv1 & Ht & Hr); try done.
  2: { left. by exists e. }
  destruct Hr as [-> ->]. right. exists w1. split_and!; [done|apply same_slots_refl|done|].
  apply M_bind_inv in Hrun as [(c & ws & Hc & Hrun)|(e & Hc & _)]; [|done]. injection Hc as <- <-.
  apply Z.eqb_neq in Hne. cbn [key_for key_generation key_slot] in Hrun. rewrite Z.eqb_refl Hne /= in Hrun.
  apply M_bind_inv in Hrun as [([] & ws & Hg & Hrun)|(e & Hg & _)]; [|done]. injection Hg as <-.
  unfold normalization_due. destruct (status_is_terminal _ || _); simpl.
  { by injection Hrun as <- <- <-. }
  destruct (is_some (restart_prior_phase current)).
  { apply M_bind_inv in Hrun as [([] & ws & Hg & _)|(e & Hg & ->)]; [done|]. by injection Hg as <- <- <-. }
  apply M_bind_inv in Hrun as [([] & ws & Hg & Hrun)|(e & Hg & _)]; [|done]. injection Hg as <-.
  apply M_bind_inv in Hrun as [(g & ws & Hg & Hrun)|(e & Hg & ->)]; injection Hg as Hg <-.
  - rewrite Hg. apply ok_or_Ok, checked_add_Some in Hg as [-> _]. done.
  - subst. by rewrite Hg.
Qed.

(** C5: A restart normalization is refused by nothing but the file system. For the record of
    an earlier daemon in a store in agreement, it returns a terminal or already normalized
    record unchanged, and otherwise rewrites it to [RollbackRequired] with the phase it was
    in, no winner and the next generation; it fails only with the slot marked corrupt by a
    failed read or write, for a record that still carries a prior phase, or at the last
    generation. *)
Theorem restart_normalization_complete slot current fid daemon w s :
  store_inv (w, s) → poisoned s = false → slots s !! slot = Some (SValid current fid) →
  is_nil daemon = false → daemon_instance_uuid (status current) ≠ daemon →
  is_u64 (st_generation (status current)) →
  let g := st_generation (status current) in
  let '(r, (w', s')) := normalize_after_daemon_restart (key_for slot current) g daemon (w, s) in
  store_inv (w', s') ∧ touches slot (w, s) (w', s') ∧
  match r with
  | Ok u =>
    if normalization_due current then
      let next := normalized_record current (g + 1) in
      u = {| su_key := key_for slot next; su_record := next |} ∧ ∃ id, slots s' !! slot = Some (SValid next id)
    else s' = s ∧ u = {| su_key := key_for slot current; su_record := current |}
  | Err _ =>
    slots s' !! slot = Some SCorrupt ∨
    normalization_due current = true ∧ (is_some (restart_prior_phase current) = true ∨ g = u64_max)
  end.
Proof.
  intros Hinv Hp Hst Hnil Hne Hg g. destruct (normalize_after_daemon_restart _ _ _ _) as [r [w' s']] eqn:Hrun.
  pose proof Hinv as ((_ & Hco) & _ & _). destruct (Hco _ _ Hst) as [Hv _].
  pose proof (normalize_run _ _ _ _ _ _ _ _ _ Hinv Hp Hst Hnil Hne Hrun)
    as [(e & -> & ? & ? & ?)|(w1 & Hinv1 & _ & Ht & Hrun1)]; [by split_and!; auto|]. clear Hrun. rename Hrun1 into Hrun.
  destruct (normalization_due current) eqn:Hdue; [|by destruct Hrun as (-> & -> & ->)].
  destruct (is_some (restart_prior_phase current)) eqn:Hprior.
  { destruct Hrun as (-> & -> & ->). split_and!; try done. right. by auto. }
  unfold normalization_due in Hdue. apply negb_true_iff, orb_false in Hdue as [Hterm Hphase%bool_decide_eq_false].
  apply M_bind_inv in Hrun as [(g' & ws & Hg' & Hrun)|(e & Hg' & ->)]; injection Hg' as Hg' <-.
  2: { unfold ok_or, checked_add in Hg'. case_bool_decide; [done|]. simplify_eq. split_and!; try done.
       right. split; [done|]. right. unfold is_u64 in Hg. subst g. lia. }
  apply ok_or_Ok, checked_add_Some in Hg' as [-> Hmax].
  assert (restart_prior_phase current = None) as Hnone by by destruct (restart_prior_phase current).
  assert (validate (normalized_record current (g + 1)) = Ok tt) as Hnext.
  { apply normalized_valid; try done. unfold is_u64 in Hg. subst g. lia. }
  assert (normalization_refused (key_for slot current) g current current (normalized_record current (g + 1)) = false)
    as Href by by apply normalization_not_refused; [..|by apply non_terminal_not_completed].
  rewrite (write_restart_normalization_commit _ _ _ _ _ _ _ _ Hnext Hp Hst Href) in Hrun.
  eapply commit_inv in Hrun as (Hinv' & [Hk' Hs'] & Hpost & Hu); [|done..].
  assert (touches slot (w, s) (w', s')) as Ht'.
  { split; [|done]. destruct Ht as [Hk _]. by eapply others_kept_trans. }
  split_and!; try done. destruct r as [u|e]; [|by left]. rewrite (Hu _ eq_refl). by split.
Qed.

(** C6: A rollback that a daemon crash interrupts twice is never recovered: a record beyond
    [RollbackRequired] that still carries the prior phase of an earlier normalization, as
    every record does that a recovery has moved to [RollbackPending], fails every later
    normalization by every daemon, in any state of the disk. *)
Theorem interrupted_rollback_is_stuck slot current fid daemon g w s :
  store_inv (w, s) → slots s !! slot = Some (SValid current fid) →
  st_phase (status current) = RollbackPending → is_some (restart_prior_phase current) = true →
  is_ok (fst (normalize_after_daemon_restart (key_for slot current) g daemon (w, s))) = false.
Proof.
  intros Hinv Hst Hphase Hprior. destruct (normalize_after_daemon_restart _ _ _ _) as [r [w' s']] eqn:Hrun.
  destruct (poisoned s) eqn:Hp.
  - unfold normalize_after_daemon_restart in Hrun.
    apply M_bind_inv in Hrun as [([] & ws & Hg & Hrun)|(e & Hg & ->)]; [|done]. injection Hg as _ <-.
    unfold load_by_uuid in Hrun. apply M_bind_inv in Hrun as [(? & ? & Hl & _)|(e & Hl & ->)]; [|done].
    apply M_bind_inv in Hl as [(? & ? & Hl & _)|(? & _ & ?)]; [|done]. unfold lock in Hl. by rewrite Hp in Hl.
  - destruct (decide (g = st_generation (status current) ∧ is_nil daemon = false ∧
      daemon_instance_uuid (status current) ≠ daemon)) as [(-> & Hnil & Hne)|Hno].
    + pose proof (normalize_run _ _ _ _ _ _ _ _ _ Hinv Hp Hst Hnil Hne Hrun)
        as [(e & -> & _)|(w1 & _ & _ & _ & Hr)]; [done|].
      unfold normalization_due, status_is_terminal in Hr. rewrite Hphase Hprior in Hr. by destruct Hr as [-> _].
    + unfold normalize_after_daemon_restart in Hrun.
      apply M_bind_inv in Hrun as [([] & ws & Hg & Hrun)|(e & Hg & ->)]; [|done].
      injection Hg as Hg%bail_if_Ok <-.
      apply M_bind_inv in Hrun as [(found & [w1 s1] & Hl & Hrun)|(e & Hl & ->)]; [|done].
      eapply load_by_uuid_run in Hl as (_ & _ & -> & _); [|done..].
      apply M_bind_inv in Hrun as [(c & ws & Hc & Hrun)|(e & Hc & ->)]; [|done]. injection Hc as <- <-.
      apply M_bind_inv in Hrun as [([] & ws & Hg' & Hrun)|(e & Hg' & ->)]; [|done].
      injection Hg' as Hg'%bail_if_Ok <-. exfalso. apply Hno. inv_ok. split_and!; [lia|done|].
      by apply Z.eqb_neq.
Qed.

(** ** Runs *)

Lemma allocate_prepared_inv record now w s r w' s' :
  store_inv (w, s) → allocate_prepared record now (w, s) = (r, (w', s')) → store_inv (w', s').
Proof.
  intros Hinv [[[= -> ->] _]|(slot & st & Hv & _ & _ & Hst & Hlive & _ & Hfresh & Hrun)]%allocate_prepared_run; [done|].
  eapply allocate_at_inv in Hrun as (? & _); try done; [by intros ->|].
  intros j r0 id0 Hj Heq. by destruct (Hfresh _ _ _ Hj).
Qed.

Lemma load_by_uuid_inv id w s r w' s' :
  store_inv (w, s) → load_by_uuid id (w, s) = (r, (w', s')) → store_inv (w', s').
Proof.
  intros Hinv Hrun. unfold load_by_uuid in Hrun.
  apply M_bind_inv in Hrun as [(state & ws & Hl & Hrun)|(e & Hl & ->)]; unfold lock in Hl;
    destruct (poisoned s); simplify_eq; [|done].
  destruct (position _ _) as [slot|]; [|by injection Hrun as _ <- <-].
  destruct (slots state !! slot) as [[|record fid|]|] eqn:Hst; try by injection Hrun as _ <- <-.
  apply reload_slot_run in Hrun as (Hw & Hs & Hr); [|by eapply lookup_lt_Some].
  eapply store_inv_read; [done..|]. destruct r; [by left; destruct Hr|]. destruct Hr as [[? _]|?]; by auto.
Qed.

Lemma normalization_not_refused_uuid key g snapshot current next :
  normalization_refused key g snapshot current next = false →
  tournament_uuid (status next) = tournament_uuid (status current).
Proof.
  unfold normalization_refused. intros Href. inv_ok.
  match goal with H : immutable_identity_matches _ _ = true |- _ => unfold immutable_identity_matches in H end.
  inv_ok. lia.
Qed.

Lemma normalize_inv key g daemon w s r w' s' :
  store_inv (w, s) → normalize_after_daemon_restart key g daemon (w, s) = (r, (w', s')) → store_inv (w', s').
Proof.
  intros Hinv Hrun. unfold normalize_after_daemon_restart in Hrun.
  apply M_bind_inv in Hrun as [([] & ws & Hg & Hrun)|(e & Hg & ->)]; injection Hg as Hg <-; [|by simplify_eq].
  apply M_bind_inv in Hrun as [(found & [w1 s1] & Hl & Hrun)|(e & Hl & ->)];
    apply load_by_uuid_inv in Hl; try done.
  apply M_bind_inv in Hrun as [(c & ws & Hc & Hrun)|(e & Hc & ->)]; injection Hc as Hc <-; [|by simplify_eq].
  apply M_bind_inv in Hrun as [([] & ws & Hg' & Hrun)|(e & Hg' & ->)]; injection Hg' as Hg' <-; [|by simplify_eq].
  destruct (status_is_terminal (status c) || _); [by unfold mret, M_ret in Hrun; simplify_eq|].
  apply M_bind_inv in Hrun as [([] & ws & Hp & Hrun)|(e & Hp & ->)]; injection Hp as Hp <-; [|by simplify_eq].
  apply M_bind_inv in Hrun as [(g' & ws & Hn & Hrun)|(e & Hn & ->)]; injection Hn as Hn <-; [|by simplify_eq].
  apply (checked_commit_run key _ (λ cur, normalization_refused key g c (fst cur) (normalized_record c g'))) in Hrun
    as [[[= -> ->] _]|(cur & id & Hv & _ & Hst & Href & Hc')]; [done|].
  eapply commit_inv in Hc' as (? & _); try done. by eapply normalization_not_refused_uuid.
Qed.

(** One call of an open store, by any thread: the mutex makes calls atomic. *)
Inductive store_step (ws : W * StoreState) : W * StoreState → Prop :=
  | step_allocate record now : store_step ws (snd (allocate_prepared record now ws))
  | step_write key g next kind : store_step ws (snd (write key g next kind ws))
  | step_compare_and_swap key g next : store_step ws (snd (compare_and_swap key g next ws))
  | step_normalize key g daemon : store_step ws (snd (normalize_after_daemon_restart key g daemon ws))
  | step_load id : store_step ws (snd (load_by_uuid id ws))
  | step_scan : store_step ws (snd (scan_recovery ws)).

Lemma compare_and_swap_state key g next ws :
  snd (compare_and_swap key g next ws) = snd (write key g next LivePhaseTransition ws).
Proof. unfold compare_and_swap, mbind, M_bind. by destruct (write _ _ _ _ ws) as [[]]. Qed.

Lemma store_step_inv ws ws' : store_step ws ws' → store_inv ws → store_inv ws'.
Proof.
  intros Hstep Hinv. destruct ws as [w s]. destruct Hstep as [record now|key g next kind|key g next|key g daemon|id|].
  - destruct (allocate_prepared _ _ _) as [r [w' s']] eqn:E. by eapply allocate_prepared_inv.
  - destruct (write _ _ _ _ _) as [r [w' s']] eqn:E. by eapply write_inv.
  - rewrite compare_and_swap_state. destruct (write _ _ _ _ _) as [r [w' s']] eqn:E. by eapply write_inv.
  - destruct (normalize_after_daemon_restart _ _ _ _) as [r [w' s']] eqn:E. by eapply normalize_inv.
  - destruct (load_by_uuid _ _) as [r [w' s']] eqn:E. by eapply load_by_uuid_inv.
  - unfold scan_recovery, mbind, M_bind, lock. by destruct (poisoned s).
Qed.

(** C2: Whatever sequence of calls reaches an open store, with whatever failures of the file
    system in between, each valid slot in memory is a valid record and byte for byte what
    its file holds, the manifest marks every slot with a file, and no tournament has two
    slots. *)
Theorem store_run_invariant ws ws' : rtc store_step ws ws' → store_inv ws → store_inv ws'.
Proof. induction 1 as [|ws1 ws2 ws3 Hstep _ IH]; [done|]. intros Hinv. by eapply IH, store_step_inv. Qed.
End ops.
