(* ===== verification/SpeculationService.v ===== *)
(** [src/speculation_service.rs], the parts without threads: availability and errors, the
    index of live and terminal tournaments, leases, and the decision between the two
    candidates.  The actor that owns one tournament is in SpeculationActor.v.

    The theorems: the index never holds more than eight live tournaments, never two
    tournaments in one slot, and its final size check cannot fail; the leases of successive
    phases never shrink exactly for run timeouts from 30 seconds to 10 minutes, while the
    protocol admits one second to one hour; the decision of the service is the winner its
    record is validated against unless a candidate failed to start. *)
From stdpp Require Import fin_maps gmap sets.
From S2P Require Import Prelude Utf8 Protocol Speculation EvidenceFs RunnerProtocol TournamentRecord TournamentStore.

(** ** Availability and errors *)

Inductive Availability : Set := Disabled | Reconciling | AReady | Unresolved | ShuttingDown.

#[global] Instance Availability_eq_dec : EqDecision Availability.
Proof. solve_decision. Defined.

Definition Availability_from_raw (value : Z) : Availability :=
  match value with
  | 1 => Reconciling
  | 2 => AReady
  | 3 => Unresolved
  | 4 => ShuttingDown
  | _ => Disabled
  end.

Inductive ServiceError : Set :=
  | Unsupported
  | Unavailable
  | SCapacity
  | InvalidRequest
  | InvalidTransition
  | SStaleGeneration
  | SGenerationExhausted
  | ContainmentUnavailable
  | SRollbackRequired
  | SDecisionUncertain
  | EvidenceUnavailable.

#[global] Instance ServiceError_eq_dec : EqDecision ServiceError.
Proof. solve_decision. Defined.

Definition public_code (e : ServiceError) : str :=
  match e with
  | Unsupported => lit "speculation_unsupported"
  | Unavailable => lit "speculation_unavailable"
  | SCapacity => lit "speculation_capacity_exhausted"
  | InvalidRequest => lit "speculation_invalid_request"
  | InvalidTransition => lit "speculation_invalid_transition"
  | SStaleGeneration => lit "speculation_stale_generation"
  | SGenerationExhausted => lit "speculation_generation_exhausted"
  | ContainmentUnavailable => lit "speculation_containment_unavailable"
  | SRollbackRequired => lit "speculation_rollback_required"
  | SDecisionUncertain => lit "speculation_decision_uncertain"
  | EvidenceUnavailable => lit "speculation_evidence_unavailable"
  end.

Definition require_ready (availability : Availability) : result ServiceError unit :=
  match availability with
  | AReady => Ok tt
  | Disabled => Err Unsupported
  | Reconciling | Unresolved | ShuttingDown => Err Unavailable
  end.

Definition map_store_error (error : EvidenceError) : ServiceError :=
  match error with
  | Capacity => SCapacity
  | GenerationMismatch => SStaleGeneration
  | Poisoned | Corrupt | Stale => EvidenceUnavailable
  | _ => InvalidRequest
  end.

Definition store_error_invalidates_authority (error : EvidenceError) : bool :=
  match error with Poisoned | Corrupt | Stale => true | _ => false end.

(** The availability after a store error, and the service's error. *)
Definition map_store_error_for_core (availability : Availability) (error : EvidenceError)
    : Availability * ServiceError :=
  (if store_error_invalidates_authority error then Unresolved else availability, map_store_error error).

(** ** The index *)

(** A live actor: its slot, its mailbox and its shared snapshot, the two by reference. *)
Record ActorHandle : Set := { handle_slot : nat; sender : Z; snapshot : Z }.
Record TerminalCacheEntry : Set := { entry_slot : nat; entry_status : SpeculationStatus }.

Record ServiceIndex : Set := {
  live : gmap Uuid ActorHandle;
  live_slots : gmap nat Uuid;
  terminal : gmap Uuid TerminalCacheEntry;
  terminal_slots : gmap nat Uuid;
}.

Definition ServiceIndex_default : ServiceIndex :=
  {| live := ∅; live_slots := ∅; terminal := ∅; terminal_slots := ∅ |}.

Definition evict_slot (slot : nat) (index : ServiceIndex) : ServiceIndex :=
  let index :=
    match live_slots index !! slot with
    | Some previous =>
      {| live := delete previous (live index); live_slots := delete slot (live_slots index);
         terminal := terminal index; terminal_slots := terminal_slots index |}
    | None => index
    end in
  match terminal_slots index !! slot with
  | Some previous =>
    {| live := live index; live_slots := live_slots index;
       terminal := delete previous (terminal index); terminal_slots := delete slot (terminal_slots index) |}
  | None => index
  end.

Definition insert_live (slot : nat) (id : Uuid) (handle : ActorHandle)
    : M ServiceIndex ServiceError unit := λ index,
  if (MAX_TOURNAMENT_RECORDS <=? slot)%nat then (Err EvidenceUnavailable, index) else
  let replacing_slot := live_slots index !! slot in
  if (MAX_LIVE_TOURNAMENTS <=? size (live index))%nat && negb (is_some replacing_slot)
     && negb (is_some (live index !! id))
  then (Err SCapacity, index) else
  let index := evict_slot slot index in
  let slots :=
    match live index !! id with
    | Some previous => delete (handle_slot previous) (live_slots index)
    | None => live_slots index
    end in
  (Ok tt, {| live := <[id := handle]> (live index); live_slots := <[slot := id]> slots;
             terminal := terminal index; terminal_slots := terminal_slots index |}).

Definition cache_terminal (slot : nat) (status : SpeculationStatus)
    : M ServiceIndex ServiceError unit := λ index,
  if (MAX_TOURNAMENT_RECORDS <=? slot)%nat then (Err EvidenceUnavailable, index) else
  let id := tournament_uuid status in
  let index := evict_slot slot index in
  let slots :=
    match terminal index !! id with
    | Some previous => delete (entry_slot previous) (terminal_slots index)
    | None => terminal_slots index
    end in
  let index :=
    {| live := live index; live_slots := live_slots index;
       terminal := <[id := {| entry_slot := slot; entry_status := status |}]> (terminal index);
       terminal_slots := <[slot := id]> slots |} in
  if (MAX_TOURNAMENT_RECORDS <? size (terminal index))%nat then (Err EvidenceUnavailable, index)
  else (Ok tt, index).

Definition publish_actor_terminal (slot : nat) (id : Uuid) (status : SpeculationStatus)
    : M ServiceIndex ServiceError unit := λ index,
  if negb (bool_decide (live_slots index !! slot = Some id)) || negb (is_some (live index !! id))
  then (Ok tt, index) else cache_terminal slot status index.

(** Where a status request reads: a cached terminal status, or a live actor's snapshot. *)
Inductive StatusSource : Set := CachedTerminal (status : SpeculationStatus) | LiveSnapshot (ref : Z).

Definition cached_status (id : Uuid) (index : ServiceIndex) : result ServiceError StatusSource :=
  match terminal index !! id with
  | Some entry => Ok (CachedTerminal (entry_status entry))
  | None =>
    match live index !! id with
    | Some handle => Ok (LiveSnapshot (snapshot handle))
    | None => Err InvalidRequest
    end
  end.

Definition cached_terminal (id : Uuid) (index : ServiceIndex) : option SpeculationStatus :=
  entry_status <$> terminal index !! id.

(** ** Requests, generations and leases *)

Definition validate_status_identity (status : SpeculationStatus) (tournament daemon : Uuid)
    (generation : Z) (exact_generation : bool) : result ServiceError unit :=
  _ ← bail_if (is_nil tournament || is_nil daemon || (generation =? 0)
               || negb (tournament_uuid status =? tournament)
               || negb (daemon_instance_uuid status =? daemon)) InvalidRequest;
  bail_if (exact_generation && negb (st_generation status =? generation)
           || negb exact_generation && (generation >? st_generation status)) SStaleGeneration.

Definition increment (generation : Z) : result ServiceError Z :=
  ok_or (checked_add u64_max generation 1) SGenerationExhausted.

(** A [Duration], in milliseconds. *)
Definition from_secs (secs : Z) : Z := secs * 1000.
Definition PREPARED_LEASE : Z := from_secs 30.
Definition READY_LEASE : Z := from_secs 30.
Definition PENDING_FINALIZE_LEASE : Z := from_secs (10 * 60).

Definition checked_lease_deadline_unix_ms (now_unix_ms lease : Z) : result ServiceError Z :=
  lease_ms ← (if lease <=? u64_max then Ok lease else Err SGenerationExhausted);
  ok_or (checked_add u64_max now_unix_ms lease_ms) SGenerationExhausted.

Definition lease_duration_for_phase (phase : SpeculationPhase) (run_timeout : Z) : option Z :=
  match phase with
  | Ready | GoPending => Some READY_LEASE
  | Running | ResultPending => Some run_timeout
  | PendingFinalize | FinalizingLoser | WinnerSelectionPending | FinalizingWinner =>
    Some PENDING_FINALIZE_LEASE
  | _ => None
  end.

Definition shutdown_claim_phase (phase : SpeculationPhase) : SpeculationPhase :=
  if is_legal_transition phase RollbackPending then RollbackPending else RollbackRequired.

Definition default_cleanup : SpeculationCleanupStatus :=
  {| runner_ack := false; bwrap_reaped := false; sync_eof := false; cgroup_empty := false;
     managed_tombstone := false |}.

Definition prepared_candidate (id : Uuid) (index : Z) : SpeculationCandidateStatus :=
  {| candidate_uuid := id; cs_index := index; cs_ready := false; ready_elapsed_ns := None;
     go_received := false; go_received_elapsed_ns := None; result_accepted := false;
     cs_exit_success := None; exit_category := None; cs_elapsed_ns := None; cs_output_bytes := None;
     eligible := false; cleanup := default_cleanup |}.

Definition prepared_status (tournament daemon : Uuid) (candidate_uuids : array2 Uuid)
    (generation lease_deadline : Z) : SpeculationStatus :=
  {| st_schema_version := StatusV1; tournament_uuid := tournament; daemon_instance_uuid := daemon;
     st_phase := Prepared; st_generation := generation; lease_deadline_unix_ms := lease_deadline;
     reason_code := Some PreparedLease;
     candidates := Array2 (prepared_candidate (at0 candidate_uuids) 0) (prepared_candidate (at1 candidate_uuids) 1);
     fixed_score_order := SPECULATION_SCORE_ORDER; selected_index := None; rollback_required := false;
     error_codes := [] |}.

(** The record [prepare] allocates. *)
Definition prepared_record (roots : PrivateRootIdentities) (locator : PrivateCgroupRootLocator)
    (status : SpeculationStatus) : TournamentRecord :=
  let cgroup candidate id :=
    {| cc_candidate_index := candidate; cc_deterministic_name_uuid := id; cc_lifecycle := Forward Planned;
       cc_parent := None; cc_control := None; cc_payload := None |} in
  {| rec_schema_version := RecordV1; rec_boot_uuid := boot_uuid (source roots); roots := roots;
     cgroup_root_locator := locator;
     tournament_cgroup := {| tc_deterministic_name_uuid := tournament_uuid status; tc_lifecycle := TPlanned;
                             tc_domain := None |};
     cgroups := Array2 (cgroup 0 (candidate_uuid (at0 (candidates status))))
                       (cgroup 1 (candidate_uuid (at1 (candidates status))));
     managed_owners := Array2 None None; restart_prior_phase := None; terminal_completed_unix_ms := None;
     status := status |}.

Definition fully_closed_cleanup : SpeculationCleanupStatus :=
  {| runner_ack := true; bwrap_reaped := true; sync_eof := true; cgroup_empty := true;
     managed_tombstone := true |}.

(** ** Results and the decision *)

Definition public_exit_category (category : RunnerExitCategory) : SpeculationExitCategory :=
  match category with
  | RExitedZero => ExitedZero
  | RExitedNonzero => ExitedNonzero
  | RSignaled => Signaled
  | RSpawnFailed => SpawnFailed
  | ROutputLimitExceeded => OutputLimitExceeded
  | REvidenceIncomplete => EvidenceIncomplete
  end.

(** What [collect_candidate_result] records of a finished candidate. *)
Definition accept_result (c : SpeculationCandidateStatus) (category : RunnerExitCategory)
    (elapsed output : Z) (output_overflowed : bool) : SpeculationCandidateStatus :=
  let eligible :=
    negb output_overflowed && (output <=? MAX_CANDIDATE_OUTPUT_BYTES)
    && negb (bool_decide (category ∈ [RSpawnFailed; ROutputLimitExceeded; REvidenceIncomplete])) in
  {| candidate_uuid := candidate_uuid c; cs_index := cs_index c; cs_ready := cs_ready c;
     ready_elapsed_ns := ready_elapsed_ns c; go_received := go_received c;
     go_received_elapsed_ns := go_received_elapsed_ns c; result_accepted := true;
     cs_exit_success := Some (bool_decide (category = RExitedZero));
     exit_category := Some (public_exit_category category); cs_elapsed_ns := Some elapsed;
     cs_output_bytes := Some output; eligible := eligible; cleanup := cleanup c |}.

(** The [CandidateResult] the decision is made on. *)
Definition decision_input (index : Z) (c : SpeculationCandidateStatus)
    (cgroup : CandidateCgroupEvidence) : CandidateResult :=
  {| input_index := index; exit_success := cs_exit_success c; elapsed_ns := cs_elapsed_ns c;
     output_bytes := cs_output_bytes c;
     quiescent := bool_decide (cc_lifecycle cgroup = Forward PayloadEmpty);
     output_overflowed := is_some_and (cs_output_bytes c) (λ bytes, bytes >? MAX_CANDIDATE_OUTPUT_BYTES) |}.

Definition decide_winner (record : TournamentRecord) : ScoreDecision :=
  score_candidates
    (Array2 (decision_input 0 (at0 (candidates (status record))) (at0 (cgroups record)))
            (decision_input 1 (at1 (candidates (status record))) (at1 (cgroups record)))).

Definition validate_recovery_records (recovery : list TournamentRecoveryRecord) : result ServiceError unit :=
  (fix go (seen : list Uuid) (recovery : list TournamentRecoveryRecord) :=
    match recovery with
    | [] => Ok tt
    | RecoveryValid _ record :: recovery =>
      if bool_decide (tournament_uuid (status record) ∈ seen) then Err EvidenceUnavailable
      else go (tournament_uuid (status record) :: seen) recovery
    | RecoveryCorrupt _ :: _ => Err EvidenceUnavailable
    end) [] recovery.

(** ** The index invariant *)

Section slot_map.
Context {A : Type} (slot_of : A → nat).
Implicit Types (m : gmap Uuid A) (sm : gmap nat Uuid).

(** The map of slots is the inverse of the map of tournaments. *)
Definition slot_map (m : gmap Uuid A) (sm : gmap nat Uuid) : Prop :=
  ∀ s u, sm !! s = Some u ↔ ∃ x, m !! u = Some x ∧ slot_of x = s.

Lemma slot_map_empty : slot_map ∅ ∅.
Proof. intros s u. rewrite lookup_empty. split; [done|]. intros (x & Hx & _). by rewrite lookup_empty in Hx. Qed.

Lemma slot_map_delete m sm slot u :
  slot_map m sm → sm !! slot = Some u → slot_map (delete u m) (delete slot sm).
Proof.
  intros Hm Hslot s v. rewrite lookup_delete_Some Hm. split.
  - intros (Hs & x & Hx & Hxs). exists x. rewrite lookup_delete_Some. split_and!; try done.
    intros <-. apply Hm in Hslot as (y & Hy & Hys). congruence.
  - intros (x & [Hv Hx]%lookup_delete_Some & Hxs). split; [|by exists x].
    intros <-. apply Hv. assert (sm !! slot = Some v) by (apply Hm; by exists x). congruence.
Qed.

Lemma slot_map_insert m sm slot u x :
  slot_map m sm → sm !! slot = None → slot_of x = slot →
  slot_map (<[u := x]> m)
    (<[slot := u]> match m !! u with Some p => delete (slot_of p) sm | None => sm end).
Proof.
  intros Hm Hslot Hx. assert (∀ s v, v ≠ u →
    (match m !! u with Some p => delete (slot_of p) sm | None => sm end) !! s = Some v ↔ sm !! s = Some v) as Hd.
  { intros s v Hv. destruct (m !! u) as [p|] eqn:Hu; [|done]. rewrite lookup_delete_Some. split; [by intros [_ ?]|].
    intros Hsv. split; [|done]. intros <-. assert (sm !! slot_of p = Some u) by (apply Hm; by exists p). congruence. }
  intros s v. rewrite lookup_insert_Some. split.
  - intros [[<- <-]|[Hs Hv]]; [exists x; by rewrite lookup_insert_eq|].
    destruct (decide (v = u)) as [->|Hne].
    + destruct (m !! u) as [p|] eqn:Hu; [apply lookup_delete_Some in Hv as [Hps Hv]|];
        apply Hm in Hv as (y & Hy & Hys); congruence.
    + apply Hd, Hm in Hv as (y & Hy & Hys); [|done]. exists y. by rewrite lookup_insert_ne.
  - intros (y & [[<- <-]|[Hne Hy]]%lookup_insert_Some & Hys); [left; split; congruence|].
    right. assert (sm !! s = Some v) as Hsv by (apply Hm; by exists y). split; [congruence|]. by apply Hd.
Qed.

Lemma slot_map_size m sm n :
  slot_map m sm → (∀ s, is_Some (sm !! s) → (s < n)%nat) → (size m ≤ n)%nat.
Proof.
  intros Hm Hb. transitivity (length ((λ p, slot_of p.2) <$> map_to_list m)).
  { by rewrite length_fmap length_map_to_list. }
  transitivity (length (seq 0 n)); [|by rewrite length_seq].
  apply submseteq_length, NoDup_submseteq.
  - apply NoDup_fmap_2_strong; [|apply NoDup_map_to_list].
    intros [u x] [v y] Hu%elem_of_map_to_list Hv%elem_of_map_to_list Heq. simpl in Heq.
    assert (sm !! slot_of x = Some u) by (apply Hm; by exists x).
    assert (sm !! slot_of y = Some v) by (apply Hm; by exists y).
    assert (u = v) as -> by congruence. congruence.
  - intros s ([u x] & -> & Hu%elem_of_map_to_list)%list_elem_of_fmap. apply elem_of_seq. simpl. split; [lia|].
    apply Hb. exists u. apply Hm. by exists x.
Qed.
End slot_map.

Record index_inv (index : ServiceIndex) : Prop := {
  inv_live : slot_map handle_slot (live index) (live_slots index);
  inv_terminal : slot_map entry_slot (terminal index) (terminal_slots index);
  inv_disjoint slot : is_Some (live_slots index !! slot) → terminal_slots index !! slot = None;
  inv_bound slot : is_Some (live_slots index !! slot) ∨ is_Some (terminal_slots index !! slot) →
                   (slot < MAX_TOURNAMENT_RECORDS)%nat;
  inv_size : (size (live index) ≤ MAX_LIVE_TOURNAMENTS)%nat;
}.

(** Another slot's tournament is untouched. *)
Definition other_slots_kept (slot : nat) (index index' : ServiceIndex) : Prop :=
  ∀ s, s ≠ slot → live_slots index' !! s = live_slots index !! s ∧
                  terminal_slots index' !! s = terminal_slots index !! s.

Lemma evict_slot_spec slot index :
  index_inv index →
  index_inv (evict_slot slot index) ∧ other_slots_kept slot index (evict_slot slot index) ∧
  live_slots (evict_slot slot index) !! slot = None ∧ terminal_slots (evict_slot slot index) !! slot = None ∧
  (size (live (evict_slot slot index)) ≤ size (live index) - (if is_some (live_slots index !! slot) then 1 else 0))%nat.
Proof.
  intros [Hl Ht Hd Hb Hs]. unfold evict_slot.
  destruct (live_slots index !! slot) as [u|] eqn:El; simpl.
  - rewrite (Hd slot (ex_intro _ u El)). apply Hl in El as Hx. destruct Hx as (h & Hh & Hhs).
    split_and!; simpl; try (by apply lookup_delete_eq); try (by apply Hd; eexists).
    + constructor; simpl; try done; [by apply slot_map_delete| | |].
      * intros s [v [_ Hv]%lookup_delete_Some]. apply Hd. by exists v.
      * intros s [[v [_ Hv]%lookup_delete_Some]|Hv]; apply Hb; [left; by exists v|by right].
      * rewrite map_size_delete_Some; [lia|by exists h].
    + intros s Hs'. simpl. by rewrite lookup_delete_ne.
    + rewrite map_size_delete_Some; [lia|by exists h].
  - destruct (terminal_slots index !! slot) as [u|] eqn:Et; simpl.
    + split_and!; simpl; try done; try (by apply lookup_delete_eq); [| |lia].
      * constructor; simpl; try done; [by apply slot_map_delete| |].
        -- intros s Hv. apply lookup_delete_None. right. by apply Hd.
        -- intros s [Hv|[v [_ Hv]%lookup_delete_Some]]; apply Hb; [by left|right; by exists v].
      * intros s Hs'. simpl. by rewrite lookup_delete_ne.
    + split_and!; try done; lia.
Qed.

Lemma insert_live_spec slot u h index :
  index_inv index → handle_slot h = slot →
  let '(r, index') := insert_live slot u h index in
  index_inv index' ∧ (∀ e, r = Err e → index' = index) ∧
  (r = Ok tt → live index' !! u = Some h ∧ live_slots index' !! slot = Some u).
Proof.
  intros Hinv Hh. unfold insert_live. destruct (Nat.leb_spec MAX_TOURNAMENT_RECORDS slot); [done|].
  destruct (_ && _) eqn:Hcap; [done|].
  pose proof (evict_slot_spec slot index Hinv) as ([Hl Ht Hd Hb Hs] & Hkept & Hls & Hts & Hsize).
  split_and!; [|done|by intros _; rewrite /= !lookup_insert_eq].
  assert (∀ s v, (match live (evict_slot slot index) !! u with
    | Some p => delete (handle_slot p) (live_slots (evict_slot slot index))
    | None => live_slots (evict_slot slot index) end) !! s = Some v → is_Some (live_slots (evict_slot slot index) !! s)) as Hsub.
  { intros s v. destruct (live (evict_slot slot index) !! u); [intros [_ ?]%lookup_delete_Some|intros ?]; by exists v. }
  constructor; simpl; try done.
  - by apply slot_map_insert.
  - intros s [v [[<- _]|[_ Hv]]%lookup_insert_Some]; [done|]. by eapply Hd, Hsub.
  - intros s [[v [[<- _]|[_ Hv]]%lookup_insert_Some]|Hv]; [done| |by apply Hb; right]. apply Hb. left. by eapply Hsub.
  - assert (size (live index) < MAX_LIVE_TOURNAMENTS ∨ is_some (live_slots index !! slot) = true
      ∨ is_some (live index !! u) = true)%nat as Hroom.
    { apply andb_false_iff in Hcap as [[Hc|Hc]%andb_false_iff|Hc].
      - left. by apply Nat.leb_gt in Hc.
      - right. left. by destruct (is_some _).
      - right. right. by destruct (is_some _). }
    destruct (live (evict_slot slot index) !! u) as [p|] eqn:Hu.
    + rewrite map_size_insert_Some; [done|by exists p].
    + rewrite map_size_insert_None //. inversion Hinv as [_ _ _ _ Hs0].
      destruct Hroom as [Hroom|[Hroom|Hroom]]; [lia|rewrite Hroom in Hsize; unfold MAX_LIVE_TOURNAMENTS in *; lia|].
      destruct (live index !! u) as [p|] eqn:Hup; [|done].
      assert (is_some (live_slots index !! slot) = true) as Hrep; [|rewrite Hrep in Hsize; unfold MAX_LIVE_TOURNAMENTS in *; lia].
      destruct (live_slots index !! slot) as [v|] eqn:Hv; [done|]. exfalso.
      unfold evict_slot in Hu. rewrite Hv in Hu. destruct (terminal_slots index !! slot); simpl in Hu; congruence.
Qed.

Lemma cache_terminal_spec slot st index :
  index_inv index → (slot < MAX_TOURNAMENT_RECORDS)%nat →
  let '(r, index') := cache_terminal slot st index in
  r = Ok tt ∧ index_inv index' ∧ cached_terminal (tournament_uuid st) index' = Some st ∧
  live_slots index' !! slot = None.
Proof.
  intros Hinv Hslot. unfold cache_terminal. rewrite (proj2 (Nat.leb_gt _ _) Hslot).
  pose proof (evict_slot_spec slot index Hinv) as ([Hl Ht Hd Hb Hs] & Hkept & Hls & Hts & Hsize).
  set (ev := evict_slot slot index) in *.
  set (tslots := <[slot := tournament_uuid st]> match terminal ev !! tournament_uuid st with
    | Some previous => delete (entry_slot previous) (terminal_slots ev) | None => terminal_slots ev end).
  set (t := <[tournament_uuid st := {| entry_slot := slot; entry_status := st |}]> (terminal ev)).
  assert (slot_map entry_slot t tslots) as Hmap by by apply slot_map_insert.
  assert (∀ s, s ≠ slot → is_Some (tslots !! s) → is_Some (terminal_slots ev !! s)) as Hsub.
  { intros s Hs' [v [[? _]|[_ Hv]]%lookup_insert_Some]; [congruence|].
    destruct (terminal ev !! _); [apply lookup_delete_Some in Hv as [_ Hv]|]; by exists v. }
  assert (∀ s, is_Some (tslots !! s) → (s < MAX_TOURNAMENT_RECORDS)%nat) as Hbound.
  { intros s Hv. destruct (decide (s = slot)) as [->|Hne]; [done|]. apply Hb. right. by apply Hsub. }
  pose proof (slot_map_size entry_slot t tslots _ Hmap Hbound) as Hle. simpl.
  fold t. rewrite (proj2 (Nat.ltb_ge _ _) Hle). split_and!; [done| |by rewrite /cached_terminal /= lookup_insert_eq|done].
  constructor; simpl; try done.
  - intros s Hv. destruct (decide (s = slot)) as [->|Hne]; [by rewrite Hls in Hv; destruct Hv|].
    apply eq_None_not_Some. intros [x Hx]%(Hsub s Hne). by rewrite (Hd s Hv) in Hx.
  - intros s [Hv|Hv]; [apply Hb; by left|by apply Hbound].
Qed.

(** ** Runs of the index *)

Inductive index_op : Set :=
  | OpInsert (slot : nat) (id : Uuid) (sender snapshot : Z)
  | OpCache (slot : nat) (status : SpeculationStatus)
  | OpPublish (slot : nat) (id : Uuid) (status : SpeculationStatus).

Definition index_step (index : ServiceIndex) (op : index_op) : ServiceIndex :=
  match op with
  | OpInsert slot id sender snapshot =>
    snd (insert_live slot id {| handle_slot := slot; sender := sender; snapshot := snapshot |} index)
  | OpCache slot status => snd (cache_terminal slot status index)
  | OpPublish slot id status => snd (publish_actor_terminal slot id status index)
  end.

Definition index_run (ops : list index_op) : ServiceIndex := foldl index_step ServiceIndex_default ops.

Lemma default_inv : index_inv ServiceIndex_default.
Proof.
  constructor; simpl; try apply slot_map_empty; try (intros s; rewrite !lookup_empty).
  - done.
  - intros [[? ?]|[? ?]]; done.
  - rewrite map_size_empty. unfold MAX_LIVE_TOURNAMENTS. lia.
Qed.

Lemma cache_terminal_inv slot st index : index_inv index → index_inv (snd (cache_terminal slot st index)).
Proof.
  intros Hinv. destruct (Nat.leb_spec MAX_TOURNAMENT_RECORDS slot) as [Hge|Hlt].
  - unfold cache_terminal. by rewrite (proj2 (Nat.leb_le _ _) Hge).
  - pose proof (cache_terminal_spec slot st index Hinv Hlt) as Hspec.
    destruct (cache_terminal slot st index). by destruct Hspec as (_ & ? & _).
Qed.

Lemma index_run_inv ops : index_inv (index_run ops).
Proof.
  unfold index_run. generalize ServiceIndex_default, default_inv. induction ops as [|op ops IH]; intros index Hinv; [done|].
  apply IH. destruct op as [slot id sd sn|slot st|slot id st]; simpl.
  - pose proof (insert_live_spec slot id {| handle_slot := slot; sender := sd; snapshot := sn |} index Hinv eq_refl) as Hspec.
    destruct (insert_live _ _ _ _). by destruct Hspec.
  - by apply cache_terminal_inv.
  - unfold publish_actor_terminal. destruct (_ || _); [done|]. by apply cache_terminal_inv.
Qed.

(** Whatever is inserted, cached and published, the index holds at most eight live
    tournaments, its slot maps are the exact inverses of its tournament maps, and no slot is
    both live and terminal; so the size check at the end of [cache_terminal] never fails,
    and a cached terminal status is found again while its slot is no longer live. *)
Theorem service_index_sound ops slot st :
  index_inv (index_run ops) ∧
  let '(r, index') := cache_terminal slot st (index_run ops) in
  is_ok r = (slot <? MAX_TOURNAMENT_RECORDS)%nat ∧
  (is_ok r = true → cached_status (tournament_uuid st) index' = Ok (CachedTerminal st) ∧
                    live_slots index' !! slot = None).
Proof.
  pose proof (index_run_inv ops) as Hinv. split; [done|].
  destruct (Nat.ltb_spec slot MAX_TOURNAMENT_RECORDS) as [Hlt|Hge].
  - pose proof (cache_terminal_spec slot st _ Hinv Hlt) as Hspec. destruct (cache_terminal _ _ _) as [r index'].
    destruct Hspec as (-> & _ & Hc & Hl). split; [done|]. intros _. split; [|done].
    unfold cached_terminal in Hc. apply fmap_Some in Hc as (entry & He & ->). unfold cached_status. by rewrite He.
  - unfold cache_terminal. by rewrite (proj2 (Nat.leb_le _ _) Hge).
Qed.

(** ** Leases *)

(** A claim of the next phase, made no earlier, never asks for an earlier deadline. *)
Definition leases_never_shrink (run_timeout : Z) : Prop :=
  ∀ p1 p2 l1 l2 t1 t2, is_legal_transition p1 p2 = true →
    lease_duration_for_phase p1 run_timeout = Some l1 → lease_duration_for_phase p2 run_timeout = Some l2 →
    t1 ≤ t2 → t1 + l1 ≤ t2 + l2.

(** The deadlines of successive phases never move back, as the store demands of every
    write, exactly for run timeouts from 30 seconds to 10 minutes; the protocol admits from
    1 second to 1 hour. *)
Theorem leases_never_shrink_iff run_timeout :
  (leases_never_shrink run_timeout ↔ READY_LEASE ≤ run_timeout ≤ PENDING_FINALIZE_LEASE) ∧
  timeout_in_range MIN_SPECULATION_TIMEOUT_MS = true ∧ MIN_SPECULATION_TIMEOUT_MS < READY_LEASE ∧
  timeout_in_range MAX_SPECULATION_TIMEOUT_MS = true ∧ PENDING_FINALIZE_LEASE < MAX_SPECULATION_TIMEOUT_MS.
Proof.
  split; [|done]. split.
  - intros Hmono. split.
    + pose proof (Hmono GoPending Running READY_LEASE run_timeout 0 0 eq_refl eq_refl eq_refl (Z.le_refl 0)). lia.
    + pose proof (Hmono ResultPending PendingFinalize run_timeout PENDING_FINALIZE_LEASE 0 0
        eq_refl eq_refl eq_refl (Z.le_refl 0)). lia.
  - intros Hr p1 p2 l1 l2 t1 t2 Hlegal H1 H2 Ht.
    destruct p1; simpl in H1; try discriminate H1; destruct p2; simpl in H2; try discriminate H2;
      try discriminate Hlegal; injection H1 as <-; injection H2 as <-; lia.
Qed.

(** ** The decision *)

Lemma accept_result_eligible c category elapsed output overflowed index cgroup :
  cs_index c = index → cc_lifecycle cgroup = Forward PayloadEmpty → 0 ≤ index < CANDIDATE_COUNT →
  category ∉ [RSpawnFailed; REvidenceIncomplete] →
  (overflowed = true ∨ category = ROutputLimitExceeded → MAX_CANDIDATE_OUTPUT_BYTES < output) →
  let accepted := accept_result c category elapsed output overflowed in
  eligible accepted = is_eligible (decision_input index accepted cgroup).
Proof.
  intros Hi Hq Hb Hcat Hover. unfold accept_result, is_eligible, decision_input.
  cbn [eligible cs_exit_success cs_elapsed_ns cs_output_bytes input_index exit_success elapsed_ns output_bytes
       quiescent output_overflowed is_some_and].
  assert ((index <? CANDIDATE_COUNT) = true) as -> by lia.
  rewrite (bool_decide_true (cc_lifecycle cgroup = _)) //.
  rewrite (bool_decide_true (is_Some (Some (bool_decide _)))) // (bool_decide_true (is_Some (Some elapsed))) //.
  cbn [andb]. rewrite andb_true_r Z.gtb_ltb Z.ltb_antisym.
  destruct (Z.leb_spec output MAX_CANDIDATE_OUTPUT_BYTES) as [Hle|Hgt].
  - destruct overflowed; [exfalso; assert (MAX_CANDIDATE_OUTPUT_BYTES < output) by auto; lia|]. simpl.
    apply negb_true_iff, bool_decide_eq_false. rewrite !elem_of_cons. intros [->|[->|[->|Hnil]]].
    + apply Hcat. by left.
    + assert (MAX_CANDIDATE_OUTPUT_BYTES < output) by auto. lia.
    + apply Hcat. by right; left.
    + inversion Hnil.
  - by rewrite andb_false_r.
Qed.

(** How one candidate ended, as its runner reported it. *)
Record Outcome : Set := {
  o_category : RunnerExitCategory;
  o_elapsed : Z;
  o_output : Z;
  o_overflowed : bool;
}.

Definition accept (c : SpeculationCandidateStatus) (o : Outcome) : SpeculationCandidateStatus :=
  accept_result c (o_category o) (o_elapsed o) (o_output o) (o_overflowed o).

(** The process was started, and an overflow is one of the bytes drained. *)
Definition started (o : Outcome) : Prop :=
  o_category o ∉ [RSpawnFailed; REvidenceIncomplete] ∧
  (o_overflowed o = true ∨ o_category o = ROutputLimitExceeded → MAX_CANDIDATE_OUTPUT_BYTES < o_output o).

(** A record whose candidates [c0] and [c1] ended so, with both payload cgroups empty. *)
Definition both_accepted (record : TournamentRecord) (c0 c1 : SpeculationCandidateStatus) (o0 o1 : Outcome) : Prop :=
  candidates (status record) = Array2 (accept c0 o0) (accept c1 o1) ∧ cs_index c0 = 0 ∧ cs_index c1 = 1 ∧
  cc_lifecycle (at0 (cgroups record)) = Forward PayloadEmpty ∧
  cc_lifecycle (at1 (cgroups record)) = Forward PayloadEmpty.

Lemma decision_input_result_of index c cgroup :
  cs_index c = index →
  decision_input index c cgroup =
  result_of c (bool_decide (cc_lifecycle cgroup = Forward PayloadEmpty))
    (is_some_and (cs_output_bytes c) (λ bytes, bytes >? MAX_CANDIDATE_OUTPUT_BYTES)).
Proof. by intros <-. Qed.

(** When both candidates were started, the winner the service decides on is the one
    against which its next write of the record is validated, and it rolls back exactly when
    the record has no winner. *)
Theorem decision_matches_validation record c0 c1 o0 o1 :
  both_accepted record c0 c1 o0 o1 → started o0 → started o1 →
  decide_winner record =
  match score_selected_index (candidates (status record)) with
  | Some i => DecisionSelected i
  | None => Rollback
  end.
Proof.
  intros (Hc & Hi0 & Hi1 & Hq0 & Hq1) [Hs0 Hv0] [Hs1 Hv1]. unfold decide_winner. rewrite Hc. cbn [at0 at1].
  pose proof (accept_result_eligible c0 _ (o_elapsed o0) _ _ 0 _ Hi0 Hq0 ltac:(done) Hs0 Hv0) as E0.
  pose proof (accept_result_eligible c1 _ (o_elapsed o1) _ _ 1 _ Hi1 Hq1 ltac:(done) Hs1 Hv1) as E1.
  cbv zeta in E0, E1. fold (accept c0 o0) in E0. fold (accept c1 o1) in E1.
  rewrite !decision_input_result_of // in E0 E1 |- *. by apply score_agrees.
Qed.

Lemma score_selected_index_none cs :
  eligible (at0 cs) = false → eligible (at1 cs) = false → score_selected_index cs = None.
Proof. intros E0 E1. unfold score_selected_index, any2. by rewrite E0 E1. Qed.

(** A record that names a winner the score of its candidates does not is refused. *)
Lemma wrong_winner_invalid record i :
  selected_index (status record) = Some i → score_selected_index (candidates (status record)) = None →
  validate record = Err Corrupt.
Proof.
  intros Hsel Hnone. unfold validate, validate_core.
  assert (is_ok (validate_status_semantics (status record)) = false) as ->.
  { apply not_true_is_false. unfold validate_status_semantics.
    intros [u (u1 & _ & (u2 & _ & Hu)%bind_Ok)%bind_Ok]%is_ok_spec. rewrite Hsel Hnone in Hu.
    assert (bool_decide (@None Z = Some i) = false) as Hne by by apply bool_decide_eq_false.
    destruct (st_phase (status record)); cbn [ok_or mbind result_bind is_some is_some_and] in Hu;
      rewrite ?Hne ?orb_true_r in Hu; discriminate Hu. }
  cbn [negb]. by rewrite !orb_true_r.
Qed.

(** When neither candidate could be started, the service does not roll back for want of
    an eligible one, as it means to: the score, which does not look at the exit category,
    selects a winner, and every record that names it is refused as corrupt. *)
Theorem spawn_failure_selects_unrecordable_winner record c0 c1 e0 e1 b0 b1 :
  both_accepted record c0 c1
    {| o_category := RSpawnFailed; o_elapsed := e0; o_output := b0; o_overflowed := false |}
    {| o_category := RSpawnFailed; o_elapsed := e1; o_output := b1; o_overflowed := false |} →
  b0 ≤ MAX_CANDIDATE_OUTPUT_BYTES → b1 ≤ MAX_CANDIDATE_OUTPUT_BYTES →
  ∃ winner, decide_winner record = DecisionSelected winner ∧
    ∀ next, candidates (status next) = candidates (status record) →
      selected_index (status next) = Some winner → validate next = Err Corrupt.
Proof.
  intros (Hc & Hi0 & Hi1 & Hq0 & Hq1) Hb0 Hb1.
  assert (∀ i c e b cg, 0 ≤ i < CANDIDATE_COUNT → b ≤ MAX_CANDIDATE_OUTPUT_BYTES → cc_lifecycle cg = Forward PayloadEmpty →
    is_eligible (decision_input i (accept_result c RSpawnFailed e b false) cg) = true) as Helig.
  { intros i c e b cg Hi Hb Hq. unfold is_eligible, decision_input. simpl. rewrite Hq.
    rewrite !bool_decide_true //. cbn [andb]. rewrite andb_true_r.
    rewrite (proj2 (Z.ltb_lt _ _) (proj2 Hi)) (proj2 (Z.leb_le _ _) Hb) Z.gtb_ltb.
    by rewrite (proj2 (Z.ltb_ge _ _) Hb). }
  assert (∀ c e b, eligible (accept_result c RSpawnFailed e b false) = false) as Hrec.
  { intros c e b. simpl. apply andb_false_r. }
  pose proof (Helig 0 c0 e0 b0 (at0 (cgroups record)) ltac:(done) Hb0 Hq0) as E0.
  pose proof (Helig 1 c1 e1 b1 (at1 (cgroups record)) ltac:(done) Hb1 Hq1) as E1.
  assert (∃ winner, decide_winner record = DecisionSelected winner) as [winner Hwin].
  { unfold decide_winner, score_candidates, compare_candidates. rewrite Hc. cbn [at0 at1].
    unfold accept. cbn [o_category o_elapsed o_output o_overflowed]. rewrite E0 E1.
    destruct (then_with _ _); by eexists. }
  exists winner. split; [done|]. intros next Hnext Hsel. eapply wrong_winner_invalid; [done|].
  rewrite Hnext Hc. apply score_selected_index_none; apply Hrec.
Qed.
