(* ===== verification/SpeculationActor.v ===== *)
(** [src/speculation_service.rs], the actor that owns one tournament: the claims of the next
    phase, the writes of evidence within a phase, the terminal transition, and the rollback
    of a tournament that was never armed, each through the store.

    The actor's record and key, its shared snapshot and the service's availability are the
    actor's state; the store is that of TournamentStore.v.  The theorems: a claim refines
    the abstract phase machine of Speculation.v and keeps actor, store and directory in
    agreement; closing an unowned prepared tournament fails only with its slot marked
    corrupt; a claim whose lease ends earlier than the recorded one is always refused. *)
From S2P Require Import Prelude Utf8 Protocol Speculation EvidenceFs TournamentRecord TournamentStore.
From S2P Require Import TournamentOpen TournamentOps SpeculationService.

Record Actor : Type := {
  a_key : TournamentKey;
  a_record : TournamentRecord;
  a_snapshot : SpeculationStatus;
  a_snapshot_poisoned : bool;
  a_run_timeout : Z;
  a_availability : Availability;
}.

Definition set_availability (availability : Availability) (a : Actor) : Actor :=
  {| a_key := a_key a; a_record := a_record a; a_snapshot := a_snapshot a;
     a_snapshot_poisoned := a_snapshot_poisoned a; a_run_timeout := a_run_timeout a;
     a_availability := availability |}.

(** [next.status.error_codes.push(..)], whose error is dropped. *)
Definition push_code (code : SpeculationErrorCode) (codes : SpeculationErrorCodes) : SpeculationErrorCodes :=
  snd (SpeculationErrorCodes_push code codes).

(** The record a claim writes. *)
Definition claimed_record (current : TournamentRecord) (generation : Z) (phase : SpeculationPhase)
    (reason : option SpeculationReasonCode) (deadline : option Z) : TournamentRecord :=
  let s := status current in
  {| rec_schema_version := rec_schema_version current; rec_boot_uuid := rec_boot_uuid current;
     roots := roots current; cgroup_root_locator := cgroup_root_locator current;
     tournament_cgroup := tournament_cgroup current; cgroups := cgroups current;
     managed_owners := managed_owners current; restart_prior_phase := restart_prior_phase current;
     terminal_completed_unix_ms := terminal_completed_unix_ms current;
     status :=
       {| st_schema_version := st_schema_version s; tournament_uuid := tournament_uuid s;
          daemon_instance_uuid := daemon_instance_uuid s; st_phase := phase; st_generation := generation;
          lease_deadline_unix_ms := default (lease_deadline_unix_ms s) deadline;
          reason_code := match reason with Some reason => Some reason | None => reason_code s end;
          candidates := candidates s; fixed_score_order := fixed_score_order s;
          selected_index := if is_rollback_only phase then None else selected_index s;
          rollback_required := is_rollback_only phase;
          error_codes :=
            if is_rollback_only phase then
              push_code (if bool_decide (phase = DecisionUncertain) then ErrDecisionUncertain else ErrRollbackRequired)
                (error_codes s)
            else error_codes s |} |}.

(** [next.clone()] with another status. *)
Definition with_status (r : TournamentRecord) (s : SpeculationStatus) : TournamentRecord :=
  {| rec_schema_version := rec_schema_version r; rec_boot_uuid := rec_boot_uuid r; roots := roots r;
     cgroup_root_locator := cgroup_root_locator r; tournament_cgroup := tournament_cgroup r;
     cgroups := cgroups r; managed_owners := managed_owners r; restart_prior_phase := restart_prior_phase r;
     terminal_completed_unix_ms := terminal_completed_unix_ms r; status := s |}.

(** [next.status.generation = generation]. *)
Definition with_generation (r : TournamentRecord) (generation : Z) : TournamentRecord :=
  let s := status r in
  with_status r
    {| st_schema_version := st_schema_version s; tournament_uuid := tournament_uuid s;
       daemon_instance_uuid := daemon_instance_uuid s; st_phase := st_phase s; st_generation := generation;
       lease_deadline_unix_ms := lease_deadline_unix_ms s; reason_code := reason_code s;
       candidates := candidates s; fixed_score_order := fixed_score_order s; selected_index := selected_index s;
       rollback_required := rollback_required s; error_codes := error_codes s |}.

(** The phase, the selected index and the reason set, with the flag the phase demands. *)
Definition with_phase (r : TournamentRecord) (phase : SpeculationPhase) (selected : option Z)
    (reason : option SpeculationReasonCode) : TournamentRecord :=
  let s := status r in
  with_status r
    {| st_schema_version := st_schema_version s; tournament_uuid := tournament_uuid s;
       daemon_instance_uuid := daemon_instance_uuid s; st_phase := phase; st_generation := st_generation s;
       lease_deadline_unix_ms := lease_deadline_unix_ms s; reason_code := reason;
       candidates := candidates s; fixed_score_order := fixed_score_order s; selected_index := selected;
       rollback_required := is_rollback_only phase; error_codes := error_codes s |}.

Definition with_completed (r : TournamentRecord) (now_unix_ms : Z) : TournamentRecord :=
  {| rec_schema_version := rec_schema_version r; rec_boot_uuid := rec_boot_uuid r; roots := roots r;
     cgroup_root_locator := cgroup_root_locator r; tournament_cgroup := tournament_cgroup r;
     cgroups := cgroups r; managed_owners := managed_owners r; restart_prior_phase := restart_prior_phase r;
     terminal_completed_unix_ms := Some now_unix_ms; status := status r |}.

(** A terminal record. *)
Definition terminal_record (r : TournamentRecord) (generation : Z) (phase : SpeculationPhase)
    (selected : option Z) (now_unix_ms : Z) : TournamentRecord :=
  with_completed (with_phase (with_generation r generation) phase selected (reason_code (status r))) now_unix_ms.

(** Candidate [i]'s cgroup removed and its cleanup fully closed. *)
Definition close_cgroup (c : CandidateCgroupEvidence) : CandidateCgroupEvidence :=
  {| cc_candidate_index := cc_candidate_index c; cc_deterministic_name_uuid := cc_deterministic_name_uuid c;
     cc_lifecycle := Removed; cc_parent := cc_parent c; cc_control := cc_control c; cc_payload := cc_payload c |}.

Definition close_status (c : SpeculationCandidateStatus) : SpeculationCandidateStatus :=
  {| candidate_uuid := candidate_uuid c; cs_index := cs_index c; cs_ready := cs_ready c;
     ready_elapsed_ns := ready_elapsed_ns c; go_received := go_received c;
     go_received_elapsed_ns := go_received_elapsed_ns c; result_accepted := result_accepted c;
     cs_exit_success := cs_exit_success c; exit_category := exit_category c; cs_elapsed_ns := cs_elapsed_ns c;
     cs_output_bytes := cs_output_bytes c; eligible := eligible c; cleanup := fully_closed_cleanup |}.

Definition on_candidate {A} (second : bool) (f : A → A) (a : array2 A) : array2 A :=
  if second then Array2 (at0 a) (f (at1 a)) else Array2 (f (at0 a)) (at1 a).

Definition close_candidate (second : bool) (r : TournamentRecord) : TournamentRecord :=
  let s := status r in
  {| rec_schema_version := rec_schema_version r; rec_boot_uuid := rec_boot_uuid r; roots := roots r;
     cgroup_root_locator := cgroup_root_locator r; tournament_cgroup := tournament_cgroup r;
     cgroups := on_candidate second close_cgroup (cgroups r); managed_owners := managed_owners r;
     restart_prior_phase := restart_prior_phase r; terminal_completed_unix_ms := terminal_completed_unix_ms r;
     status :=
       {| st_schema_version := st_schema_version s; tournament_uuid := tournament_uuid s;
          daemon_instance_uuid := daemon_instance_uuid s; st_phase := st_phase s;
          st_generation := st_generation s; lease_deadline_unix_ms := lease_deadline_unix_ms s;
          reason_code := reason_code s; candidates := on_candidate second close_status (candidates s);
          fixed_score_order := fixed_score_order s; selected_index := selected_index s;
          rollback_required := rollback_required s; error_codes := error_codes s |} |}.

Definition close_tournament (r : TournamentRecord) : TournamentRecord :=
  {| rec_schema_version := rec_schema_version r; rec_boot_uuid := rec_boot_uuid r; roots := roots r;
     cgroup_root_locator := cgroup_root_locator r;
     tournament_cgroup := {| tc_deterministic_name_uuid := tc_deterministic_name_uuid (tournament_cgroup r);
                             tc_lifecycle := TRemoved; tc_domain := tc_domain (tournament_cgroup r) |};
     cgroups := cgroups r; managed_owners := managed_owners r; restart_prior_phase := restart_prior_phase r;
     terminal_completed_unix_ms := terminal_completed_unix_ms r; status := status r |}.

Section actor.
Context {W : Type} `{RecordStore W} `{JsonCodec TournamentStoreManifest} `{JsonCodec TournamentSlotRecord}.

(** ** Operations on the store alone *)

Abbreviation Stored := (M (W * StoreState) ServiceError).

(** [.map_err(map_store_error)]. *)
Definition mapped {A} (m : M (W * StoreState) EvidenceError A) : Stored A := λ ws,
  match m ws with
  | (Ok a, ws) => (Ok a, ws)
  | (Err e, ws) => (Err (map_store_error e), ws)
  end.

(** A write at the generation of the key, of a record one generation on. *)
Definition write_next (key : TournamentKey) (kind : TournamentWriteKind) (next : Z → TournamentRecord)
    : Stored StoredTournamentUpdate :=
  generation ← lift (increment (key_generation key));
  mapped (write key (key_generation key) (next generation) kind).

(** [unix_time_ms()] is the argument [now]. *)
Definition write_rolled_back (update : StoredTournamentUpdate) (selected : option Z)
    (now : result ServiceError Z) : Stored StoredTournamentUpdate :=
  generation ← lift (increment (key_generation (su_key update)));
  now_unix_ms ← lift now;
  mapped (write (su_key update) (key_generation (su_key update))
            (terminal_record (su_record update) generation RolledBack selected now_unix_ms) LivePhaseTransition).

Definition transition_recovery_phase (update : StoredTournamentUpdate) (phase : SpeculationPhase)
    : Stored StoredTournamentUpdate :=
  if bool_decide (st_phase (status (su_record update)) = phase) then mret update else
  write_next (su_key update) LivePhaseTransition (λ generation,
    with_phase (with_generation (su_record update) generation) phase None (reason_code (status (su_record update)))).

Definition mutate_same (update : StoredTournamentUpdate) (mutate : TournamentRecord → TournamentRecord)
    : Stored StoredTournamentUpdate :=
  write_next (su_key update) SamePhaseEvidence (λ generation, mutate (with_generation (su_record update) generation)).

Definition finish_recovery (update : StoredTournamentUpdate) (now : result ServiceError Z)
    : Stored StoredTournamentUpdate := write_rolled_back update None now.

Definition close_unowned_prepared (key : TournamentKey) (record : TournamentRecord) (now : result ServiceError Z)
    : Stored StoredTournamentUpdate :=
  _ ← lift (bail_if (negb (bool_decide (st_phase (status record) = Prepared))
                     || negb (st_generation (status record) =? key_generation key)
                     || negb (tournament_uuid (status record) =? key_tournament_uuid key)) EvidenceUnavailable);
  stored ← write_next key LivePhaseTransition (λ generation,
    with_phase (with_generation record generation) RollbackPending None (Some ContainmentEvidenceUnavailable));
  stored ← mutate_same stored (close_candidate false);
  stored ← mutate_same stored (close_candidate true);
  stored ← mutate_same stored close_tournament;
  write_rolled_back stored (selected_index (status (su_record stored))) now.

(** ** The actor *)

Abbreviation Act := (M ((W * StoreState) * Actor) ServiceError).

Definition the_actor : Act Actor := λ '(ws, a), (Ok a, (ws, a)).
Definition set_actor (a : Actor) : Act unit := λ '(ws, _), (Ok tt, (ws, a)).

(** [.map_err(|error| self.map_store_error(error))]. *)
Definition call_store {A} (m : M (W * StoreState) EvidenceError A) : Act A := λ '(ws, a),
  match m ws with
  | (Ok x, ws) => (Ok x, (ws, a))
  | (Err e, ws) =>
    let '(availability, error) := map_store_error_for_core (a_availability a) e in
    (Err error, (ws, set_availability availability a))
  end.

Definition mark_unresolved : Act unit := λ '(ws, a), (Ok tt, (ws, set_availability Unresolved a)).

(** Key and record first, then the shared snapshot. *)
Definition install_stored (stored : StoredTournamentUpdate) : Act SpeculationStatus := λ '(ws, a),
  let s := status (su_record stored) in
  let installed snapshot availability :=
    {| a_key := su_key stored; a_record := su_record stored; a_snapshot := snapshot;
       a_snapshot_poisoned := a_snapshot_poisoned a; a_run_timeout := a_run_timeout a;
       a_availability := availability |} in
  if a_snapshot_poisoned a
  then (Err EvidenceUnavailable, (ws, installed (a_snapshot a) Unresolved))
  else (Ok s, (ws, installed s (a_availability a))).

(** The new deadline, if the phase has a lease. *)
Definition claim_deadline (phase : SpeculationPhase) (run_timeout : Z) (now : result ServiceError Z)
    : result ServiceError (option Z) :=
  match lease_duration_for_phase phase run_timeout with
  | Some lease =>
    now_unix_ms ← now;
    deadline ← checked_lease_deadline_unix_ms now_unix_ms lease;
    Ok (Some deadline)
  | None => Ok None
  end.

Definition claim_with_clock (tournament daemon : Uuid) (generation : Z) (phase : SpeculationPhase)
    (reason : option SpeculationReasonCode) (now : result ServiceError Z) : Act SpeculationStatus :=
  a ← the_actor;
  let current := a_record a in
  _ ← lift (validate_status_identity (status current) tournament daemon generation true);
  if bool_decide (st_phase (status current) = phase) && is_terminal phase then mret (status current) else
  _ ← lift (bail_if (negb (is_legal_transition (st_phase (status current)) phase)) InvalidTransition);
  next_generation ← lift (ok_or (checked_add u64_max generation 1) SGenerationExhausted);
  deadline ← lift (claim_deadline phase (a_run_timeout a) now);
  stored ← call_store (write (a_key a) generation (claimed_record current next_generation phase reason deadline)
                         LivePhaseTransition);
  install_stored stored.

Definition persist_same (mutate : TournamentRecord → TournamentRecord) : Act SpeculationStatus :=
  a ← the_actor;
  generation ← lift (increment (key_generation (a_key a)));
  stored ← call_store (write (a_key a) (key_generation (a_key a)) (mutate (with_generation (a_record a) generation))
                         SamePhaseEvidence);
  install_stored stored.

Definition actor_transition (phase : SpeculationPhase) (reason : option SpeculationReasonCode)
    (now : result ServiceError Z) : Act SpeculationStatus :=
  a ← the_actor;
  let s := status (a_record a) in
  claim_with_clock (tournament_uuid s) (daemon_instance_uuid s) (st_generation s) phase reason now.

Definition transition_terminal (phase : SpeculationPhase) (now : result ServiceError Z) : Act SpeculationStatus :=
  a ← the_actor;
  let current := a_record a in
  _ ← lift (bail_if (negb (is_terminal phase) || negb (is_legal_transition (st_phase (status current)) phase))
              InvalidTransition);
  generation ← lift (increment (key_generation (a_key a)));
  now_unix_ms ← lift now;
  stored ← call_store (write (a_key a) (key_generation (a_key a))
                         (terminal_record current generation phase
                            (if bool_decide (phase = RolledBack) then None else selected_index (status current))
                            now_unix_ms) LivePhaseTransition);
  install_stored stored.

(** [let _ = ..]. *)
Definition ignored {A} (m : Act A) : Act unit := λ s, (Ok tt, snd (m s)).

Definition never_armed (r : TournamentRecord) : bool :=
  all2 (λ c, bool_decide (cc_lifecycle c = Forward Planned)) (cgroups r)
  && bool_decide (tc_lifecycle (tournament_cgroup r) = TPlanned).

Definition all_closed (r : TournamentRecord) : bool :=
  all2 (λ c, bool_decide (cc_lifecycle c = Removed)) (cgroups r)
  && bool_decide (tc_lifecycle (tournament_cgroup r) = TRemoved)
  && all2 cleanup_complete (candidates (status r)).

(** [rollback_pipeline] from its last test on. *)
Definition rollback_conclude (now : result ServiceError Z) : Act unit :=
  a ← the_actor;
  if is_positive_terminal (a_record a) then mret tt
  else if all_closed (a_record a) then ignored (transition_terminal RolledBack now)
  else mark_unresolved.

(** [rollback_pipeline] of an actor that has no pipeline. *)
Definition rollback_unpiped (now : result ServiceError Z) : Act unit :=
  a ← the_actor;
  if status_is_terminal (status (a_record a)) then mret tt else
  claimed ← (if bool_decide (st_phase (status (a_record a)) = RollbackPending) then mret true else λ s,
    match actor_transition RollbackPending
            (match reason_code (status (a_record a)) with
             | Some reason => Some reason
             | None => Some ContainmentEvidenceUnavailable
             end) now s with
    | (Ok _, s) => (Ok true, s)
    | (Err _, s) => (Ok false, s)
    end);
  if negb claimed then mark_unresolved else
  a ← the_actor;
  if negb (never_armed (a_record a)) then mark_unresolved else
  _ ← ignored (persist_same (close_candidate false));
  _ ← ignored (persist_same (close_candidate true));
  _ ← ignored (persist_same close_tournament);
  rollback_conclude now.

(** The events of an actor that was never armed. *)
Definition on_rollback (tournament daemon : Uuid) (generation : Z) (reason : SpeculationReasonCode)
    (now : result ServiceError Z) : Act SpeculationStatus := λ s,
  match claim_with_clock tournament daemon generation RollbackPending (Some reason) now s with
  | (Ok st, s) => (Ok st, snd (rollback_unpiped now s))
  | (Err e, s) => (Err e, s)
  end.

Definition on_shutdown (now : result ServiceError Z) : Act unit := λ s,
  let a := snd s in
  let '(r, s) := actor_transition (shutdown_claim_phase (st_phase (status (a_record a)))) (Some DaemonShutdown) now s in
  (_ ← r; Ok tt, snd (rollback_unpiped now s)).

Definition on_watchdog_tick (now_unix_ms : Z) (now : result ServiceError Z) : Act unit := λ s,
  let a := snd s in
  if now_unix_ms >=? lease_deadline_unix_ms (status (a_record a)) then
    let reason := match reason_code (status (a_record a)) with
                  | Some reason => Some reason
                  | None => Some ContainmentEvidenceUnavailable
                  end in
    let '(_, s) := actor_transition (shutdown_claim_phase (st_phase (status (a_record a)))) reason now s in
    (Ok tt, snd (rollback_unpiped now s))
  else (Ok tt, s).

(** ** Claims *)

Abbreviation ActorState := ((W * StoreState) * Actor)%type.

(** The actor's record is the store's, and its snapshot shows it. *)
Definition actor_ok (sa : ActorState) : Prop :=
  let '(ws, a) := sa in
  store_inv ws ∧ a_snapshot_poisoned a = false ∧ a_snapshot a = status (a_record a) ∧
  ∃ slot id, a_key a = key_for slot (a_record a) ∧ slots (snd ws) !! slot = Some (SValid (a_record a) id).

(** The actor as a state of the abstract phase machine. *)
Definition abstract (a : Actor) : TournamentState :=
  {| phase := st_phase (status (a_record a)); generation := st_generation (status (a_record a)) |}.

(** Nothing of the actor but the availability changed. *)
Definition same_actor (a a' : Actor) : Prop := a' = set_availability (a_availability a') a.

Lemma same_actor_refl a : same_actor a a.
Proof. by destruct a. Qed.

(** A write by the actor: refused or failed without touching the actor, or installed. *)
Lemma call_store_write_run slot id g kind next (ws : W * StoreState) a r ws' a' :
  actor_ok (ws, a) → a_key a = key_for slot (a_record a) → slots (snd ws) !! slot = Some (SValid (a_record a) id) →
  (stored ← call_store (write (a_key a) g next kind); install_stored stored) (ws, a) = (r, (ws', a')) →
  (is_ok r = false ∧ same_actor a a' ∧ (ws' = ws ∨ slots (snd ws') !! slot = Some SCorrupt)) ∨
  (r = Ok (status next) ∧ actor_ok (ws', a') ∧ a_record a' = next ∧ a_run_timeout a' = a_run_timeout a ∧
   a_availability a' = a_availability a ∧ st_generation (status (a_record a)) = g ∧
   st_generation (status next) = g + 1 ∧ g + 1 ≤ u64_max ∧ write_kind_allows kind (a_record a) next = true).
Proof.
  intros (Hinv & Hpois & Hsnap & _) Hkey Hst Hrun. destruct ws as [w s]. simpl in Hst.
  apply M_bind_inv in Hrun as [(u & [[w1 s1] a1] & Hc & Hrun)|(e & Hc & ->)]; unfold call_store in Hc;
    destruct (write _ _ _ _ _) as [rw [w2 s2]] eqn:Hw; destruct rw as [u0|e0]; simplify_eq.
  - apply write_run in Hw as [[_ (e & ? & _)]|(current & id' & Hv & Hp & Hcur & Href & Hc)]; [done|].
    rewrite Hkey in Hcur Href Hc. cbn [key_slot key_for] in Hcur, Hc. simplify_eq.
    pose proof (write_not_refused _ _ _ _ _ Href) as (Hg & Hg' & _ & Him & Hkind).
    assert (g + 1 ≤ u64_max) as Hmax.
    { unfold write_refused in Href. inv_ok. destruct (checked_add u64_max g 1) eqn:E; [|done].
      by apply checked_add_Some in E as [_ ?]. }
    eapply commit_inv in Hc as (Hinv' & _ & [id2 Hst'] & Hu); try done.
    2: { unfold immutable_identity_matches in Him. inv_ok. lia. }
    rewrite (Hu _ eq_refl) in Hrun. unfold install_stored in Hrun. rewrite Hpois in Hrun.
    injection Hrun as <- <- <-. right. split_and!; try done.
    unfold actor_ok. cbn. split_and!; try done. by exists slot, id2.
  - left. destruct (map_store_error_for_core (a_availability a) e0) as [av er] eqn:Hm. simplify_eq.
    split_and!; [done|by destruct a|]. apply write_run in Hw as [[[= -> ->] _]|(current & id' & Hv & Hp & Hcur & Href & Hc)]; [by left|].
    right. rewrite Hkey in Hcur Href Hc. cbn [key_slot key_for] in Hcur, Hc.
    pose proof (write_not_refused _ _ _ _ _ Href) as (_ & _ & _ & Him & _).
    eapply commit_inv in Hc as (_ & _ & Hcor & _); try done.
    unfold immutable_identity_matches in Him. inv_ok. lia.
Qed.

Lemma validate_status_identity_Ok s t d g u :
  validate_status_identity s t d g true = Ok u → st_generation s = g.
Proof. unfold validate_status_identity. intros Hv. inv_ok. simpl in *. inv_ok. lia. Qed.

Lemma claim_run slot id tid did g phase reason now (ws : W * StoreState) a r ws' a' :
  actor_ok (ws, a) → a_key a = key_for slot (a_record a) → slots (snd ws) !! slot = Some (SValid (a_record a) id) →
  claim_with_clock tid did g phase reason now (ws, a) = (r, (ws', a')) →
  (is_ok r = false ∧ same_actor a a' ∧ (ws' = ws ∨ slots (snd ws') !! slot = Some SCorrupt)) ∨
  (r = Ok (status (a_record a')) ∧ actor_ok (ws', a') ∧
   transition g phase (abstract a) = (Ok tt, abstract a') ∧ a_run_timeout a' = a_run_timeout a).
Proof.
  intros Hok Hkey Hst Hrun.
  apply M_bind_inv in Hrun as [(a0 & s0 & Ha & Hrun)|(e & Ha & ->)]; [|done]. injection Ha as <- <-.
  apply M_bind_inv in Hrun as [([] & s1 & Hv & Hrun)|(e & Hv & ->)]; injection Hv as Hv <-.
  2: { left. subst. split_and!; [done|apply same_actor_refl|by left]. }
  apply validate_status_identity_Ok in Hv.
  destruct (bool_decide (st_phase (status (a_record a)) = phase) && is_terminal phase) eqn:Hsame.
  { unfold mret, M_ret in Hrun. simplify_eq. right. split_and!; try done.
    apply andb_true in Hsame as [Hph%bool_decide_eq_true Hterm].
    unfold transition, abstract. cbn [Speculation.phase generation]. rewrite Z.eqb_refl Hph.
    rewrite bool_decide_true //. by rewrite Hterm. }
  apply M_bind_inv in Hrun as [([] & s1 & Hl & Hrun)|(e & Hl & ->)]; injection Hl as Hl <-.
  2: { left. subst. split_and!; [done|apply same_actor_refl|by left]. }
  apply bail_if_Ok, negb_false_iff in Hl.
  apply M_bind_inv in Hrun as [(g' & s1 & Hg & Hrun)|(e & Hg & ->)]; injection Hg as Hg <-.
  2: { left. subst. split_and!; [done|apply same_actor_refl|by left]. }
  apply M_bind_inv in Hrun as [(d & s1 & Hd & Hrun)|(e & Hd & ->)]; injection Hd as Hd <-.
  2: { left. subst. split_and!; [done|apply same_actor_refl|by left]. }
  eapply call_store_write_run in Hrun as [Hfail|(-> & Hok' & Hrec & Ht & _ & _ & Hgen & Hmax & _)]; [by left|..]; try done.
  right. rewrite Hrec. split_and!; try done. unfold transition, abstract. cbn [Speculation.phase generation].
  rewrite Hv Z.eqb_refl /= Hl Hrec.
  assert (bool_decide (st_phase (status (a_record a)) = phase) && is_terminal (st_phase (status (a_record a))) = false)
    as ->.
  { case_bool_decide as Hph; [|done]. by rewrite Hph in Hsame |- *. }
  apply ok_or_Ok in Hg. by rewrite Hg.
Qed.

(** A claim by the actor refines the phase machine. When it answers a status, the
    abstract machine takes the same step from the actor's old phase and generation to its
    new ones, the status is the durable one, and actor, snapshot, store and directory agree
    on it; when it is refused or the write fails, record, key and snapshot are as before,
    and so is the store unless the failure marked the slot corrupt. *)
Theorem claim_refines_transition slot id tid did g phase reason now (ws : W * StoreState) a :
  actor_ok (ws, a) → a_key a = key_for slot (a_record a) → slots (snd ws) !! slot = Some (SValid (a_record a) id) →
  let '(r, (ws', a')) := claim_with_clock tid did g phase reason now (ws, a) in
  match r with
  | Ok st =>
    transition g phase (abstract a) = (Ok tt, abstract a') ∧ st = status (a_record a') ∧ actor_ok (ws', a')
  | Err _ => same_actor a a' ∧ (ws' = ws ∨ slots (snd ws') !! slot = Some SCorrupt)
  end.
Proof.
  intros Hok Hkey Hst. destruct (claim_with_clock _ _ _ _ _ _ _) as [r [ws' a']] eqn:Hrun.
  eapply claim_run in Hrun as [(Hr & Hsame & Hws)|(-> & Hok' & Htr & _)]; try done.
  by destruct r.
Qed.

(** A claim whose deadline is before the recorded one. *)
Definition lease_ends_early (a : Actor) (phase : SpeculationPhase) (now_unix_ms : Z) : Prop :=
  ∃ lease, lease_duration_for_phase phase (a_run_timeout a) = Some lease ∧
    now_unix_ms + lease < lease_deadline_unix_ms (status (a_record a)).

Lemma early_write_refused key g kind current next :
  lease_deadline_unix_ms (status next) < lease_deadline_unix_ms (status current) →
  write_refused key g kind current next = true.
Proof.
  intros Hlt. destruct (write_refused key g kind current next) eqn:Href; [done|]. unfold write_refused in Href.
  inv_ok. match goal with H : public_evidence_progresses_to _ _ _ _ = true |- _ =>
    unfold public_evidence_progresses_to in H end. inv_ok. lia.
Qed.

(** A claim whose lease would end before the recorded deadline is refused in every state
    of store and disk. So the run of a tournament with a timeout below 30 seconds is
    refused when it follows its preparation at once, and with a timeout above 10 minutes
    its finalization is refused after the run. *)
Theorem early_lease_refused slot id tid did g phase reason now_unix_ms (ws : W * StoreState) a :
  actor_ok (ws, a) → a_key a = key_for slot (a_record a) → slots (snd ws) !! slot = Some (SValid (a_record a) id) →
  lease_ends_early a phase now_unix_ms → is_terminal phase = false →
  let '(r, (ws', a')) := claim_with_clock tid did g phase reason (Ok now_unix_ms) (ws, a) in
  is_ok r = false ∧ same_actor a a' ∧ ws' = ws.
Proof.
  intros Hok Hkey Hst (lease & Hlease & Hearly) Hterm.
  destruct (claim_with_clock _ _ _ _ _ _ _) as [r [ws' a']] eqn:Hrun.
  apply M_bind_inv in Hrun as [(a0 & s0 & Ha & Hrun)|(e & Ha & ->)]; [|done]. injection Ha as <- <-.
  apply M_bind_inv in Hrun as [([] & s1 & Hv & Hrun)|(e & Hv & ->)]; injection Hv as Hv <-;
    [|subst; by split_and!; [|apply same_actor_refl|]].
  rewrite Hterm andb_false_r in Hrun.
  apply M_bind_inv in Hrun as [([] & s1 & Hl & Hrun)|(e & Hl & ->)]; injection Hl as Hl <-;
    [|subst; by split_and!; [|apply same_actor_refl|]].
  apply M_bind_inv in Hrun as [(g' & s1 & Hg & Hrun)|(e & Hg & ->)]; injection Hg as Hg <-;
    [|subst; by split_and!; [|apply same_actor_refl|]].
  apply M_bind_inv in Hrun as [(d & s1 & Hd & Hrun)|(e & Hd & ->)]; injection Hd as Hd <-;
    [|subst; by split_and!; [|apply same_actor_refl|]].
  assert (d = Some (now_unix_ms + lease)) as ->.
  { unfold claim_deadline in Hd. rewrite Hlease in Hd.
    apply bind_Ok in Hd as (n & [= <-] & Hd). apply bind_Ok in Hd as (x & Hx & [= <-]).
    unfold checked_lease_deadline_unix_ms in Hx. apply bind_Ok in Hx as (l & Hl' & Hx%ok_or_Ok).
    destruct (lease <=? u64_max); [|done]. injection Hl' as <-. by apply checked_add_Some in Hx as [-> _]. }
  set (next := claimed_record _ _ _ _ _) in Hrun. destruct ws as [w s].
  assert (∃ e, write (a_key a) g next LivePhaseTransition (w, s) = (Err e, (w, s))) as [e He].
  { destruct (write _ _ _ _ _) as [rw ws2] eqn:Hw. apply write_run in Hw
      as [[-> (e0 & -> & _)]|(current & id' & _ & _ & Hcur & Href & _)]; [by exists e0|].
    rewrite Hkey in Hcur. cbn [key_slot key_for] in Hcur. simpl in Hst. simplify_eq.
    rewrite early_write_refused in Href; [done|exact Hearly]. }
  unfold mbind, M_bind, call_store in Hrun. rewrite He in Hrun.
  destruct (map_store_error_for_core _ _) as [av er]. simplify_eq. split_and!; [done|by destruct a|done].
Qed.
End actor.
