(* ===== verification/TournamentScenario.v ===== *)
(** A run of the tournament store on the simulated directory of SimKernel.v: an empty
    directory is opened, a tournament allocated, a daemon restart normalizes it, recovery
    moves it to [RollbackPending], and a second restart finds it.

    The run evaluates; it provides the states at which the theorems of TournamentOpen.v and
    TournamentOps.v are applied, and shows how a tournament gets stuck. *)
From stdpp Require Import vector.
From S2P Require Import Prelude Utf8 Protocol Speculation EvidenceFs SimKernel TournamentRecord.
From S2P Require Import TournamentStore TournamentOpen TournamentOps SpeculationService SpeculationActor.

#[export] Instance TournamentSlotRecord_eq_dec : EqDecision TournamentSlotRecord.
Proof. solve_decision. Defined.

#[export] Instance sample_manifests : JsonCodec TournamentStoreManifest :=
  table_codec [manifest_fixed; snd (merge_materialized manifest_fixed (mark_materialized_word no_words 0))].

(** The records an actor with a run timeout of one second writes at time 1000 when it claims
    the phases up to [GoPending], and when it is rolled back instead. *)
Definition claimed (phase : SpeculationPhase) (deadline : option Z) (r : TournamentRecord) : TournamentRecord :=
  claimed_record r (st_generation (status r) + 1) phase None deadline.
Definition armed : TournamentRecord := claimed Armed None (sample_record Prepared 1 None).
Definition starting : TournamentRecord := claimed Starting None armed.
Definition ready : TournamentRecord := claimed Ready (Some 31000) starting.
Definition go_pending : TournamentRecord := claimed GoPending (Some 31000) ready.

#[export] Instance sample_slots : JsonCodec TournamentSlotRecord :=
  table_codec (slot_occupied 0 <$>
    [sample_record Prepared 1 None; sample_record RollbackRequired 2 (Some Prepared);
     sample_record RollbackPending 3 (Some Prepared); armed; starting; ready; go_pending]).

#[export] Instance sample_store : RecordStore sim := directory_store (λ _, true) sim_directory.

Definition in_state (r : result EvidenceError StoreState * sim) : sim * StoreState :=
  match r with
  | (Ok s, w) => (w, s)
  | (Err _, w) => (w, {| slots := []; unknown_corrupt_records := 0; poisoned := true |})
  end.

Definition opened : sim * StoreState := in_state (store_open (sim_empty [])).
Definition key0 (g : Z) : TournamentKey := {| key_slot := 0; key_generation := g; key_tournament_uuid := 100 |}.
Definition allocated : sim * StoreState := snd (allocate_prepared (sample_record Prepared 1 None) 1000 opened).
Definition normalized : sim * StoreState := snd (normalize_after_daemon_restart (key0 1) 1 51 allocated).
Definition pending : sim * StoreState :=
  snd (compare_and_swap (key0 2) 2 (sample_record RollbackPending 3 (Some Prepared)) normalized).

Example run_results :
  (is_ok (fst (store_open (sim_empty []))),
   fst (allocate_prepared (sample_record Prepared 1 None) 1000 opened),
   su_key <$> fst (normalize_after_daemon_restart (key0 1) 1 51 allocated),
   fst (compare_and_swap (key0 2) 2 (sample_record RollbackPending 3 (Some Prepared)) normalized),
   su_key <$> fst (normalize_after_daemon_restart (key0 3) 3 52 pending))
  = (true, Ok (key0 1), Ok (key0 2), Ok (key0 3), Err Corrupt).
Proof. vm_compute. reflexivity. Qed.

(** ** The states of the run keep the invariant *)

Definition no_valid_slot (s : StoreState) : bool :=
  forallb (λ st, match st with SValid _ _ => false | _ => true end) (slots s).

Lemma no_valid_unique s : no_valid_slot s = true → unique_uuids s.
Proof.
  unfold no_valid_slot. rewrite forallb_forall. intros Hno i j r id r' id' Hi _ _.
  by specialize (Hno _ (proj1 (list_elem_of_In _ _) (list_elem_of_lookup_2 _ _ _ Hi))).
Qed.

Lemma pair_inv (ws : sim * StoreState) : store_inv ws → store_inv (fst ws, snd ws).
Proof. by destruct ws. Qed.

Lemma opened_inv : store_inv opened.
Proof.
  assert (store_open (sim_empty []) = (Ok (snd opened), fst opened)) as Hrun by (vm_compute; reflexivity).
  apply store_open_spec in Hrun as (_ & _ & Hs). destruct (Hs _ eq_refl) as (Hco & Hacc & _ & _).
  split_and!; [exact Hco|exact Hacc|]. apply no_valid_unique. vm_compute. reflexivity.
Qed.

Lemma allocated_inv : store_inv allocated.
Proof. exact (store_step_inv _ _ (step_allocate opened _ _) opened_inv). Qed.

Lemma normalized_inv : store_inv normalized.
Proof. exact (store_step_inv _ _ (step_normalize allocated _ _ _) allocated_inv). Qed.

Lemma pending_inv : store_inv pending.
Proof. exact (store_step_inv _ _ (step_compare_and_swap normalized _ _ _) normalized_inv). Qed.

(** ** The theorems applied to the run *)

Lemma write_is_compare_and_swap_witness :
  let next := sample_record RollbackPending 3 (Some Prepared) in
  is_ok (fst (write (key0 2) 2 next LivePhaseTransition (fst normalized, snd normalized))) = true ∧
  store_inv (snd (write (key0 2) 2 next LivePhaseTransition (fst normalized, snd normalized))).
Proof.
  intros next. split; [vm_compute; reflexivity|].
  pose proof (write_is_compare_and_swap (key0 2) 2 next LivePhaseTransition (fst normalized) (snd normalized)
    (pair_inv _ normalized_inv)) as Hw.
  destruct (write _ _ _ _ _) as [r [w' s']]. destruct Hw as [Hw _]. exact Hw.
Defined.

Lemma allocate_prepared_safe_witness :
  let run := allocate_prepared (sample_record Prepared 1 None) 1000 (fst opened, snd opened) in
  is_ok (fst run) = true ∧ store_inv (snd run).
Proof.
  intros run. split; [vm_compute; reflexivity|].
  pose proof (allocate_prepared_safe (sample_record Prepared 1 None) 1000 (fst opened) (snd opened)
    (pair_inv _ opened_inv)) as Ha.
  fold run in Ha. destruct run as [r [w' s']]. destruct Ha as [Ha _]. exact Ha.
Defined.

(** The identity the file of slot 0 has in memory. *)
Definition identity0 (s : StoreState) : FileIdentity :=
  match slots s !! 0%nat with Some (SValid _ id) => id | _ => sim_file_ident 0 end.

Lemma restart_normalization_complete_witness :
  let run := normalize_after_daemon_restart (key_for 0 (sample_record Prepared 1 None)) 1 51
               (fst allocated, snd allocated) in
  is_ok (fst run) = true ∧ store_inv (snd run).
Proof.
  intros run. split; [vm_compute; reflexivity|].
  pose proof (restart_normalization_complete 0 (sample_record Prepared 1 None) (identity0 (snd allocated)) 51
    (fst allocated) (snd allocated) (pair_inv _ allocated_inv)
    ltac:(vm_compute; reflexivity) ltac:(vm_compute; reflexivity) eq_refl
    ltac:(vm_compute; discriminate) ltac:(vm_compute; split; discriminate)) as Hn.
  fold run in Hn. cbv zeta in Hn.
  change (normalize_after_daemon_restart (key_for 0 (sample_record Prepared 1 None))
    (st_generation (status (sample_record Prepared 1 None))) 51 (fst allocated, snd allocated)) with run in Hn.
  destruct run as [r [w' s']]. destruct Hn as [Hn _]. exact Hn.
Defined.

Lemma interrupted_rollback_is_stuck_witness :
  is_ok (fst (normalize_after_daemon_restart
    (key_for 0 (sample_record RollbackPending 3 (Some Prepared))) 3 52 (fst pending, snd pending))) = false.
Proof.
  apply (interrupted_rollback_is_stuck 0 (sample_record RollbackPending 3 (Some Prepared))
    (identity0 (snd pending)) 52 3 (fst pending) (snd pending));
    [exact (pair_inv _ pending_inv)|vm_compute; reflexivity|reflexivity|reflexivity].
Defined.

Lemma store_run_invariant_witness : store_inv pending.
Proof.
  apply (store_run_invariant allocated pending); [|apply allocated_inv].
  eapply rtc_l; [apply (step_normalize allocated (key0 1) 1 51)|].
  apply rtc_once. apply (step_compare_and_swap normalized).
Defined.

(** The directory of [allocated] without the file of slot 0. *)
Definition lost : sim :=
  {| sim_names := delete (lit "slot-0000.json") (sim_names (fst allocated));
     sim_contents := sim_contents (fst allocated); sim_faults := [] |}.

Lemma lost_record_is_corrupt_witness :
  slots (snd (in_state (store_open lost))) !! 0%nat = Some SCorrupt.
Proof.
  apply (lost_record_is_corrupt (fst allocated) (snd allocated) 0 (sample_record Prepared 1 None)
    (identity0 (snd allocated)) (lit "slot-0000.json") lost (Ok (snd (in_state (store_open lost))))
    (fst (in_state (store_open lost)))).
  - apply allocated_inv.
  - apply allocated_inv.
  - vm_compute. reflexivity.
  - reflexivity.
  - vm_compute. reflexivity.
  - vm_compute. reflexivity.
  - vm_compute. reflexivity.
  - reflexivity.
Defined.
