(* ===== verification/ActorScenario.v ===== *)
(** Runs of an actor on the simulated directory of SimKernel.v: the states at which the
    theorems of SpeculationService.v and SpeculationActor.v are applied.

    A tournament with a run timeout of one second, which the protocol admits, claims its
    phases up to [GoPending]; the claim of [Running] is then refused by the store, because
    its lease ends before the one of [GoPending]. *)
From S2P Require Import Prelude Utf8 Protocol Speculation EvidenceFs SimKernel RunnerProtocol TournamentRecord TournamentStore.
From S2P Require Import TournamentOpen TournamentOps SpeculationService SpeculationActor TournamentScenario.

Definition fresh_actor : Actor :=
  {| a_key := key0 1; a_record := sample_record Prepared 1 None;
     a_snapshot := status (sample_record Prepared 1 None); a_snapshot_poisoned := false;
     a_run_timeout := 1000; a_availability := AReady |}.

Definition actor_start : (sim * StoreState) * Actor := (allocated, fresh_actor).

(** The actor's next claim at time 1000, from the state of the previous one. *)
Definition next_claim (phase : SpeculationPhase) (sa : (sim * StoreState) * Actor)
    : result ServiceError SpeculationStatus * ((sim * StoreState) * Actor) :=
  actor_transition phase None (Ok 1000) sa.

Definition at_armed := snd (next_claim Armed actor_start).
Definition at_starting := snd (next_claim Starting at_armed).
Definition at_ready := snd (next_claim Ready at_starting).
Definition at_go_pending := snd (next_claim GoPending at_ready).

Example claim_results :
  (is_ok (fst (next_claim Armed actor_start)), is_ok (fst (next_claim Starting at_armed)),
   is_ok (fst (next_claim Ready at_starting)), is_ok (fst (next_claim GoPending at_ready)),
   fst (next_claim Running at_go_pending))
  = (true, true, true, true, Err SStaleGeneration).
Proof. vm_compute. reflexivity. Qed.

Lemma actor_start_ok : actor_ok actor_start.
Proof.
  split_and!; [exact allocated_inv|reflexivity|reflexivity|].
  exists 0%nat, (identity0 (snd allocated)). split; vm_compute; reflexivity.
Qed.

(** A claim that succeeds keeps the actor and its store in agreement. *)
Lemma next_claim_ok phase sa :
  is_ok (fst (next_claim phase sa)) = true → actor_ok sa → actor_ok (snd (next_claim phase sa)).
Proof.
  intros Hok Hinv. destruct sa as [ws a]. assert (actor_ok (ws, a)) as (_ & _ & _ & slot & id & Hkey & Hst) by done.
  unfold next_claim in *. destruct (actor_transition _ _ _ _) as [r [ws' a']] eqn:Hrun.
  unfold actor_transition, the_actor in Hrun. cbn [mbind M_bind] in Hrun.
  eapply claim_run in Hrun as [(Hr & _)|(_ & Hok' & _)]; [|exact Hok'|exact Hinv|exact Hkey|exact Hst].
  simpl in Hok. congruence.
Qed.

Lemma at_go_pending_ok : actor_ok at_go_pending.
Proof.
  do 4 (apply next_claim_ok; [vm_compute; reflexivity|]). apply actor_start_ok.
Qed.

Lemma actor_pair (sa : (sim * StoreState) * Actor) : actor_ok sa → actor_ok (fst sa, snd sa).
Proof. by destruct sa. Qed.

(** ** The theorems applied to the run *)

Lemma claim_refines_transition_witness :
  let run := claim_with_clock 100 50 1 Armed None (Ok 1000) (fst actor_start, snd actor_start) in
  is_ok (fst run) = true ∧ transition 1 Armed (abstract (snd actor_start)) = (Ok tt, abstract (snd (snd run))).
Proof.
  intros run. assert (is_ok (fst run) = true) as Hok by (vm_compute; reflexivity). split; [exact Hok|].
  pose proof (claim_refines_transition 0 (identity0 (snd (fst actor_start))) 100 50 1 Armed None (Ok 1000)
    (fst actor_start) (snd actor_start) (actor_pair _ actor_start_ok)
    ltac:(vm_compute; reflexivity) ltac:(vm_compute; reflexivity)) as Hc.
  fold run in Hc. destruct run as [[st|e] [ws' a']]; [apply Hc|discriminate Hok].
Defined.

Lemma running_ends_early : lease_ends_early (snd at_go_pending) Running 1000.
Proof. exists 1000. split; vm_compute; reflexivity. Qed.

Lemma early_lease_refused_witness :
  is_ok (fst (claim_with_clock 100 50 5 Running None (Ok 1000) (fst at_go_pending, snd at_go_pending))) = false.
Proof.
  pose proof (early_lease_refused 0 (identity0 (snd (fst at_go_pending))) 100 50 5 Running None 1000
    (fst at_go_pending) (snd at_go_pending) (actor_pair _ at_go_pending_ok)
    ltac:(vm_compute; reflexivity) ltac:(vm_compute; reflexivity)
    running_ends_early eq_refl) as Hr.
  destruct (claim_with_clock _ _ _ _ _ _ _) as [r [ws' a']]. destruct Hr as (Hr & _). exact Hr.
Defined.

(** ** The decision *)

(** Both candidates got their [Go]. *)
Definition sample_going (index : Z) : SpeculationCandidateStatus :=
  let c := sample_waiting index in
  {| candidate_uuid := candidate_uuid c; cs_index := cs_index c; cs_ready := true; ready_elapsed_ns := Some 1;
     go_received := true; go_received_elapsed_ns := Some 2; result_accepted := false; cs_exit_success := None;
     exit_category := None; cs_elapsed_ns := None; cs_output_bytes := None; eligible := false; cleanup := cleanup c |}.

Definition sample_decided (o0 o1 : Outcome) : TournamentRecord :=
  let r := sample_record ResultPending 9 None in
  let s := status r in
  let empty i := sample_cgroup (Forward PayloadEmpty) (Some sample_identity) (Some sample_identity) (Some sample_identity) in
  {| rec_schema_version := rec_schema_version r; rec_boot_uuid := rec_boot_uuid r; roots := roots r;
     cgroup_root_locator := cgroup_root_locator r; tournament_cgroup := tournament_cgroup r;
     cgroups := Array2 (empty 0) (empty 1); managed_owners := managed_owners r;
     restart_prior_phase := None; terminal_completed_unix_ms := None;
     status :=
       {| st_schema_version := st_schema_version s; tournament_uuid := tournament_uuid s;
          daemon_instance_uuid := daemon_instance_uuid s; st_phase := ResultPending; st_generation := 9;
          lease_deadline_unix_ms := 0; reason_code := None;
          candidates := Array2 (accept (sample_going 0) o0) (accept (sample_going 1) o1);
          fixed_score_order := SPECULATION_SCORE_ORDER; selected_index := None; rollback_required := false;
          error_codes := [] |} |}.

Definition exited (success : bool) (elapsed output : Z) : Outcome :=
  {| o_category := if success then RExitedZero else RExitedNonzero; o_elapsed := elapsed; o_output := output;
     o_overflowed := false |}.

Lemma exited_started success elapsed output : started (exited success elapsed output).
Proof.
  split; [|by destruct success; intros [?|?]].
  destruct success; apply (bool_decide_unpack _); reflexivity.
Qed.

Lemma decision_matches_validation_witness :
  decide_winner (sample_decided (exited true 30 5) (exited true 20 9)) = DecisionSelected 1.
Proof.
  rewrite (decision_matches_validation (sample_decided (exited true 30 5) (exited true 20 9))
    (sample_going 0) (sample_going 1) (exited true 30 5) (exited true 20 9)); [reflexivity|by split_and!|apply exited_started..].
Defined.

Definition unspawned : Outcome :=
  {| o_category := RSpawnFailed; o_elapsed := 3; o_output := 0; o_overflowed := false |}.

Lemma spawn_failure_selects_unrecordable_winner_witness :
  decide_winner (sample_decided unspawned unspawned) = DecisionSelected 0 ∧
  is_ok (validate (with_phase (sample_decided unspawned unspawned) WinnerSelectionPending (Some 0) None)) = false.
Proof.
  destruct (spawn_failure_selects_unrecordable_winner (sample_decided unspawned unspawned)
    (sample_going 0) (sample_going 1) 3 3 0 0) as (winner & Hwin & Hinv); [by split_and!|done|done|].
  assert (winner = 0) as -> by (vm_compute in Hwin; congruence).
  split; [exact Hwin|]. by rewrite (Hinv (with_phase (sample_decided unspawned unspawned) WinnerSelectionPending (Some 0) None)).
Defined.
