(* ===== verification/Lifecycle.v ===== *)
(** [src/session_lifecycle.rs], [LifecyclePublication]: who ends a session, and when the
    destruction of the session may begin.  Every operation of the type holds its mutex for
    its whole body, so each is one function on the state it guards; [wait_for_resolution]
    gives the mutex up between two rounds of its loop, so it is modelled by the round.

    Clocks are [Instant]s in milliseconds.  [Uuid::new_v4] and [Instant::now] are arguments
    of the operations that call them. *)
From S2P Require Import Prelude Utf8 Protocol.

Inductive FinalizeTrigger : Set :=
  | FinLeaderExited
  | FinCloseRequested
  | FinDaemonShutdown
  | FinParentCascade (parent_session_id : str).

#[global] Instance FinalizeTrigger_eq_dec : EqDecision FinalizeTrigger.
Proof. solve_decision. Defined.

Inductive SessionPresentation : Set :=
  | PresHealthy
  | PresMonitorFailed
  | PresEnding (trigger : FinalizeTrigger).

#[global] Instance SessionPresentation_eq_dec : EqDecision SessionPresentation.
Proof. solve_decision. Defined.

Inductive WriteOutcome : Set := Persisted | QueueFull | Timeout | IoFailed | WriterUnavailable.

#[global] Instance WriteOutcome_eq_dec : EqDecision WriteOutcome.
Proof. solve_decision. Defined.

Record ClaimAttempt : Set := {
  event_id : Uuid;
  authoritative_trigger : FinalizeTrigger;
  claimant : bool;
}.

Record PublicationResolution : Set := {
  res_event_id : Uuid;
  res_trigger : FinalizeTrigger;
  res_outcome : WriteOutcome;
}.

Inductive PublicationState : Set :=
  | Unclaimed (presentation : SessionPresentation)
  | Claimed (event_id : Uuid) (trigger : FinalizeTrigger) (deadline : Z)
  | Resolved (resolution : PublicationResolution).

(** The state under the mutex, and the atomic counter next to it. *)
Record LifecyclePublication : Set := {
  pub_state : PublicationState;
  conflicts : Z;
}.

Definition LifecyclePublication_default : LifecyclePublication :=
  {| pub_state := Unclaimed PresHealthy; conflicts := 0 |}.

Definition set_pub_state (p : LifecyclePublication) (s : PublicationState) : LifecyclePublication :=
  {| pub_state := s; conflicts := conflicts p |}.

(** [AtomicU64::fetch_add(1)] wraps around. *)
Definition add_conflict (p : LifecyclePublication) : LifecyclePublication :=
  {| pub_state := pub_state p; conflicts := (conflicts p + 1) mod 2 ^ 64 |}.

Definition PUBLICATION_TIMEOUT : Z := 100.

(** A [panic!] or [unreachable!] of the source. *)
Inductive Panic : Set := Panicked.

(** Whether the guard of an identity mutation is handed out. *)
Definition identity_commit_guard (p : LifecyclePublication) : bool :=
  match pub_state p with Unclaimed _ => true | _ => false end.

Section operations.
(** The last representable [Instant]: [checked_add] fails beyond it, and the source then
    reads the clock again. *)
Context (instant_max : Z).

Definition claim_deadline_at (now again : Z) : Z :=
  default again (checked_add instant_max now PUBLICATION_TIMEOUT).

(** [claim] on the publication and the session's [alive] flag. *)
Definition claim (new_id : Uuid) (now again : Z) (requested : FinalizeTrigger)
    (s : LifecyclePublication * bool) : ClaimAttempt * (LifecyclePublication * bool) :=
  let '(p, alive) := s in
  match pub_state p with
  | Unclaimed _ =>
    ({| event_id := new_id; authoritative_trigger := requested; claimant := true |},
     (set_pub_state p (Claimed new_id requested (claim_deadline_at now again)), false))
  | Claimed id trigger _ =>
    ({| event_id := id; authoritative_trigger := trigger; claimant := false |},
     (if bool_decide (trigger = requested) then p else add_conflict p, alive))
  | Resolved r =>
    ({| event_id := res_event_id r; authoritative_trigger := res_trigger r; claimant := false |},
     (if bool_decide (res_trigger r = requested) then p else add_conflict p, alive))
  end.

Definition mark_monitor_failed : M LifecyclePublication Panic bool := λ p,
  match pub_state p with
  | Unclaimed PresHealthy => (Ok true, set_pub_state p (Unclaimed PresMonitorFailed))
  | Unclaimed PresMonitorFailed | Claimed _ _ _ | Resolved _ => (Ok false, p)
  | Unclaimed (PresEnding _) => (Err Panicked, p)
  end.

Definition presentation (p : LifecyclePublication) : SessionPresentation :=
  match pub_state p with
  | Unclaimed presentation => presentation
  | Claimed _ trigger _ => PresEnding trigger
  | Resolved r => PresEnding (res_trigger r)
  end.

Definition authoritative_trigger_of (p : LifecyclePublication) : option FinalizeTrigger :=
  match pub_state p with
  | Unclaimed _ => None
  | Claimed _ trigger _ => Some trigger
  | Resolved r => Some (res_trigger r)
  end.

Definition resolve (id : Uuid) (outcome : WriteOutcome) (p : LifecyclePublication) :
    bool * LifecyclePublication :=
  match pub_state p with
  | Claimed current_id trigger _ =>
    if bool_decide (current_id = id) then
      (true, set_pub_state p (Resolved {| res_event_id := id; res_trigger := trigger; res_outcome := outcome |}))
    else (false, p)
  | _ => (false, p)
  end.

(** One round of the loop of [wait_for_resolution], with the mutex held: it returns, or it
    blocks for at most [remaining], or it panics. *)
Inductive wait_step : Set :=
  | WaitReturns (r : PublicationResolution)
  | WaitBlocks (remaining : Z)
  | WaitPanics.

Definition wait_round (now : Z) (p : LifecyclePublication) : wait_step * LifecyclePublication :=
  match pub_state p with
  | Unclaimed _ => (WaitPanics, p)
  | Resolved r => (WaitReturns r, p)
  | Claimed id trigger deadline =>
    if deadline <=? now then
      let r := {| res_event_id := id; res_trigger := trigger; res_outcome := Timeout |} in
      (WaitReturns r, set_pub_state p (Resolved r))
    else (WaitBlocks (Z.max 0 (deadline - now)), p)
  end.

(** Dropping a [ClaimResolutionGuard] of the event. *)
Definition drop_claim_resolution_guard (id : Uuid) (armed : bool) (p : LifecyclePublication) :
    LifecyclePublication :=
  if armed then snd (resolve id IoFailed p) else p.

(** ** Any interleaving of calls *)

(** A call of any thread on the publication and the [alive] flag, with what it read. *)
Inductive pub_call : Set :=
  | CallClaim (new_id : Uuid) (now again : Z) (requested : FinalizeTrigger)
  | CallMarkMonitorFailed
  | CallResolve (id : Uuid) (outcome : WriteOutcome)
  | CallWaitRound (now : Z)
  | CallDropGuard (id : Uuid) (armed : bool).

Definition run_call (c : pub_call) (s : LifecyclePublication * bool) : LifecyclePublication * bool :=
  match c with
  | CallClaim new_id now again requested => snd (claim new_id now again requested s)
  | CallMarkMonitorFailed => (snd (mark_monitor_failed (fst s)), snd s)
  | CallResolve id outcome => (snd (resolve id outcome (fst s)), snd s)
  | CallWaitRound now => (snd (wait_round now (fst s)), snd s)
  | CallDropGuard id armed => (drop_claim_resolution_guard id armed (fst s), snd s)
  end.

Definition run_calls (cs : list pub_call) (s : LifecyclePublication * bool) : LifecyclePublication * bool :=
  foldl (λ s c, run_call c s) s cs.
End operations.

(** The states the type is meant to have: [Ending] is never stored, the [alive] flag is
    down exactly when the publication is claimed, and the counter is a [u64]. *)
Definition is_claimed (p : LifecyclePublication) : bool := negb (identity_commit_guard p).

Definition well_formed (s : LifecyclePublication * bool) : Prop :=
  (∀ trigger, pub_state (fst s) ≠ Unclaimed (PresEnding trigger)) ∧
  snd s = negb (is_claimed (fst s)) ∧
  0 ≤ conflicts (fst s) < 2 ^ 64.

(** The event and the trigger a claimed publication stands for, and how far it has come. *)
Definition authority (p : LifecyclePublication) : option (Uuid * FinalizeTrigger) :=
  match pub_state p with
  | Unclaimed _ => None
  | Claimed id trigger _ => Some (id, trigger)
  | Resolved r => Some (res_event_id r, res_trigger r)
  end.

Definition resolution_of (p : LifecyclePublication) : option PublicationResolution :=
  match pub_state p with Resolved r => Some r | _ => None end.

Definition deadline_of (p : LifecyclePublication) : option Z :=
  match pub_state p with Claimed _ _ deadline => Some deadline | _ => None end.

(** What no call undoes: the authority once claimed, the deadline while claimed, and the
    resolution once made. *)
Definition progresses (p p' : LifecyclePublication) : Prop :=
  (∀ a, authority p = Some a → authority p' = Some a) ∧
  (∀ r, resolution_of p = Some r → resolution_of p' = Some r) ∧
  (∀ d d', deadline_of p = Some d → deadline_of p' = Some d' → d' = d).

#[global] Instance progresses_preorder : PreOrder progresses.
Proof.
  split.
  - intros p. split_and!; [done|done|congruence].
  - intros p1 p2 p3 (Ha & Hr & Hd) (Ha' & Hr' & Hd'). split_and!; [eauto|eauto|].
    intros d d' Hp1 Hp3. destruct (deadline_of p2) as [d2|] eqn:Hp2; [by rewrite (Hd' d2 d') // (Hd d d2)|].
    exfalso. unfold authority, resolution_of, deadline_of in *.
    destruct (pub_state p1), (pub_state p2), (pub_state p3); naive_solver.
Qed.

Section publication.
Context (instant_max : Z).

Lemma run_call_progresses c s : progresses (fst s) (fst (run_call instant_max c s)).
Proof.
  destruct s as [[[q|id t d|r] n] alive]; destruct c as [i now again req| |i o|now|i armed]; simpl;
    unfold progresses, authority, resolution_of, deadline_of, mark_monitor_failed, resolve, wait_round,
      drop_claim_resolution_guard; cbn [pub_state set_pub_state fst snd].
  all: try (destruct q as [| |q]); try (destruct armed); simpl; repeat case_bool_decide;
    try (destruct (d <=? now)); simpl; unfold resolve; simpl; repeat case_bool_decide; subst; simpl; naive_solver.
Qed.

Lemma run_call_well_formed c s : well_formed s → well_formed (run_call instant_max c s).
Proof.
  assert (∀ n, 0 ≤ (n + 1) mod 2 ^ 64 < 2 ^ 64) as Hmod by (intros n; by apply Z.mod_pos_bound).
  unfold well_formed. destruct s as [[st n] alive]. cbn [fst snd conflicts pub_state].
  intros (Hst & Halive & Hn).
  destruct c as [i now again req| |i o|now|i armed]; destruct st as [[| |q]|id t d|r];
    unfold is_claimed, identity_commit_guard in *; simpl in *; try (by destruct (Hst q));
    unfold mark_monitor_failed, resolve, wait_round, drop_claim_resolution_guard; simpl.
  all: try (destruct armed); unfold resolve; simpl; repeat case_bool_decide; try (destruct (d <=? now)); simpl;
    split_and!; try done; try apply Hmod; lia.
Qed.

Lemma run_calls_well_formed cs s : well_formed s → well_formed (run_calls instant_max cs s).
Proof.
  revert s. induction cs as [|c cs IH]; intros s Hs; [done|].
  by apply IH, run_call_well_formed.
Qed.

Lemma run_calls_progresses cs s : progresses (fst s) (fst (run_calls instant_max cs s)).
Proof.
  revert s. induction cs as [|c cs IH]; intros s; [reflexivity|].
  unfold run_calls. simpl. etrans; [apply run_call_progresses|apply IH].
Qed.

Lemma run_calls_app cs1 cs2 s :
  run_calls instant_max (cs1 ++ cs2) s = run_calls instant_max cs2 (run_calls instant_max cs1 s).
Proof. unfold run_calls. by rewrite foldl_app. Qed.
End publication.

(** C40: The representation of a publication is sound: whatever calls the threads make, in any
    order, [Ending] is never stored in an unclaimed publication, so that the [unreachable!]
    of [mark_monitor_failed] is not reached, [alive] is down exactly while the publication is
    claimed, and the conflict counter stays a [u64]. *)
Theorem publication_well_formed instant_max cs :
  let s := run_calls instant_max cs (LifecyclePublication_default, true) in
  well_formed s ∧ is_ok (fst (mark_monitor_failed (fst s))) = true ∧
  (identity_commit_guard (fst s) = true ↔ snd s = true) ∧
  (presentation (fst s) = PresHealthy ∨ presentation (fst s) = PresMonitorFailed ∨
   ∃ id trigger, authority (fst s) = Some (id, trigger) ∧ presentation (fst s) = PresEnding trigger).
Proof.
  intros s. assert (well_formed s) as Hs by by apply run_calls_well_formed.
  split; [done|]. destruct Hs as (Hst & Halive & _).
  unfold mark_monitor_failed, presentation, authority, is_claimed, identity_commit_guard in *.
  destruct (pub_state (fst s)) as [[| |t]|id t d|r]; simpl in *; rewrite ?Halive;
    try (by destruct (Hst t)); split_and!; try naive_solver.
Qed.

(** Authority over the end of a session is claimed once and never changes: in any
    interleaving of calls at most one claim reports itself the claimant, every later claim
    is answered with that claimant's event and trigger, and once the publication is resolved
    no call alters the resolution, so a late acknowledgement never overwrites a timeout. *)
Theorem authority_is_claimed_once instant_max cs1 cs2 id1 now1 again1 t1 id2 now2 again2 t2 :
  let s0 := (LifecyclePublication_default, true) in
  let s1 := run_calls instant_max cs1 s0 in
  let a1 := fst (claim instant_max id1 now1 again1 t1 s1) in
  let s2 := run_calls instant_max cs2 (snd (claim instant_max id1 now1 again1 t1 s1)) in
  let a2 := fst (claim instant_max id2 now2 again2 t2 s2) in
  claimant a2 = false ∧ event_id a2 = event_id a1 ∧
  authoritative_trigger a2 = authoritative_trigger a1 ∧
  (claimant a1 = true → event_id a1 = id1 ∧ authoritative_trigger a1 = t1) ∧
  (∀ r, resolution_of (fst (snd (claim instant_max id1 now1 again1 t1 s1))) = Some r →
        resolution_of (fst s2) = Some r).
Proof.
  intros s0 s1 a1 s2 a2.
  assert (authority (fst (snd (claim instant_max id1 now1 again1 t1 s1))) = Some (event_id a1, authoritative_trigger a1)) as Ha.
  { subst a1. destruct s1 as [[[q|id t d|r] n] alive]; unfold authority; simpl; [done|..]; by repeat case_bool_decide. }
  destruct (run_calls_progresses instant_max cs2 (snd (claim instant_max id1 now1 again1 t1 s1))) as (Hauth & Hres & _).
  fold s2 in Hauth, Hres. specialize (Hauth _ Ha).
  assert (claimant a1 = true → event_id a1 = id1 ∧ authoritative_trigger a1 = t1) as Hfirst.
  { subst a1. by destruct s1 as [[[q|id t d|r] n] alive]. }
  subst a2. destruct s2 as [[[q|id t d|r] n] alive]; unfold authority in Hauth; simpl in Hauth; simplify_eq.
  all: split_and!; simpl; auto.
Qed.
