(* ===== verification/JournalEvents.v ===== *)
(** [src/session_lifecycle.rs], the data of the exit journal: the identity of a session as
    it is stored, the two kinds of event with their constructors and the validation of what
    was loaded, and [fold_events], which turns the stored events into the exits reported.

    A Rust [String] is the list of its characters; [serde_json] and [Uuid::parse_str] are
    parameters.  The theorems: a field is cut at a character boundary within its bound and
    an event of this daemon loads back unchanged; what is reported depends only on which
    events were stored, not on their order or repetition; and a session is reported with
    its identity exactly when its events agree. *)
From stdpp Require Import fin_maps gmap.
From S2P Require Import Prelude Utf8 Sanitize Protocol EvidenceFs Lifecycle.

Definition JOURNAL_SCHEMA_VERSION : str := lit "1.0".
Definition MAX_EVENT_LINE_BYTES : Z := 16 * 1024.
Definition MAX_NAME_BYTES : nat := 128.
Definition MAX_PANE_BYTES : nat := 64.
Definition MAX_AGENT_BYTES : nat := 64.
Definition MAX_SIGNAL_BYTES : nat := 64.

(** ** Bounded fields *)

(** [str::is_char_boundary]. *)
Definition is_char_boundary (bs : list byte) (index : nat) : bool :=
  (index =? 0)%nat || (index =? length bs)%nat ||
  match bs !! index with Some b => negb (is_cont b) | None => false end.

(** [while end > 0 && !is_char_boundary(end) { end -= 1 }]. *)
Fixpoint floor_char_boundary (bs : list byte) (index : nat) : nat :=
  match index with
  | O => O
  | S previous => if is_char_boundary bs index then index else floor_char_boundary bs previous
  end.

(** [s[..index]], which panics when [index] is not a character boundary. *)
Fixpoint str_slice_to (s : str) (index : nat) : option str :=
  match index, s with
  | O, _ => Some []
  | _, [] => None
  | _, c :: s =>
    let n := length (encode c) in
    if (n <=? index)%nat then cons c <$> str_slice_to s (index - n) else None
  end.

(** [sanitized_field]; [None] stands for the panic of the slice. *)
Definition sanitized_field_checked (value : str) (max_bytes : nat) : option str :=
  let sanitized := terminal_text value in
  let bytes := utf8 sanitized in
  if (length bytes <=? max_bytes)%nat then Some sanitized
  else str_slice_to sanitized (floor_char_boundary bytes max_bytes).

(** The slice never panics ([sanitized_field_total]), so the default is not used. *)
Definition sanitized_field (value : str) (max_bytes : nat) : str :=
  default [] (sanitized_field_checked value max_bytes).

Definition sanitize_exit_signal (value : str) : str := sanitized_field value MAX_SIGNAL_BYTES.

(** ** Identities *)

Record LifecycleIdentity : Set := {
  li_session_id : str;
  li_name : str;
  li_pane_id : str;
  li_parent_session_id : option str;
  li_parent_pane_id : option str;
  li_agent_name : option str;
  li_created_unix_ms : Z;
  li_process_id : option Z;
  li_process_group_id : option Z;
  li_attached_clients : Z;
}.

Definition identity_sanitized (i : LifecycleIdentity) : LifecycleIdentity :=
  {| li_session_id := sanitized_field (li_session_id i) MAX_PANE_BYTES;
     li_name := sanitized_field (li_name i) MAX_NAME_BYTES;
     li_pane_id := sanitized_field (li_pane_id i) MAX_PANE_BYTES;
     li_parent_session_id := (λ v, sanitized_field v MAX_PANE_BYTES) <$> li_parent_session_id i;
     li_parent_pane_id := (λ v, sanitized_field v MAX_PANE_BYTES) <$> li_parent_pane_id i;
     li_agent_name := (λ v, sanitized_field v MAX_AGENT_BYTES) <$> li_agent_name i;
     li_created_unix_ms := li_created_unix_ms i;
     li_process_id := li_process_id i;
     li_process_group_id := li_process_group_id i;
     li_attached_clients := li_attached_clients i |}.

Record StoredIdentity : Set := {
  session_id : str;
  name : str;
  pane_id : str;
  parent_session_id : option str;
  parent_pane_id : option str;
  agent_name : option str;
  created_unix_ms : Z;
  process_id : option Z;
  process_group_id : option Z;
  attached_clients : Z;
}.

#[global] Instance StoredIdentity_eq_dec : EqDecision StoredIdentity.
Proof. solve_decision. Defined.

(** [u64::try_from(x).unwrap_or(u64::MAX)] on a [u128]. *)
Definition clamp_u64 (x : Z) : Z := if x <=? u64_max then x else u64_max.

Definition StoredIdentity_from (identity : LifecycleIdentity) : StoredIdentity :=
  let identity := identity_sanitized identity in
  {| session_id := li_session_id identity;
     name := li_name identity;
     pane_id := li_pane_id identity;
     parent_session_id := li_parent_session_id identity;
     parent_pane_id := li_parent_pane_id identity;
     agent_name := li_agent_name identity;
     created_unix_ms := clamp_u64 (li_created_unix_ms identity);
     process_id := li_process_id identity;
     process_group_id := li_process_group_id identity;
     attached_clients := li_attached_clients identity |}.

(** The sanitized identity, and whether it differs. *)
Definition sanitize_loaded (i : StoredIdentity) : StoredIdentity * bool :=
  let after :=
    {| session_id := sanitized_field (session_id i) MAX_PANE_BYTES;
       name := sanitized_field (name i) MAX_NAME_BYTES;
       pane_id := sanitized_field (pane_id i) MAX_PANE_BYTES;
       parent_session_id := (λ v, sanitized_field v MAX_PANE_BYTES) <$> parent_session_id i;
       parent_pane_id := (λ v, sanitized_field v MAX_PANE_BYTES) <$> parent_pane_id i;
       agent_name := (λ v, sanitized_field v MAX_AGENT_BYTES) <$> agent_name i;
       created_unix_ms := created_unix_ms i;
       process_id := process_id i;
       process_group_id := process_group_id i;
       attached_clients := attached_clients i |} in
  (after, negb (bool_decide (after = i))).

Definition stable_identity_matches (left right : StoredIdentity) : bool :=
  bool_decide (session_id left = session_id right)
  && bool_decide (name left = name right)
  && bool_decide (pane_id left = pane_id right)
  && bool_decide (parent_session_id left = parent_session_id right)
  && bool_decide (parent_pane_id left = parent_pane_id right)
  && bool_decide (agent_name left = agent_name right)
  && (created_unix_ms left =? created_unix_ms right)
  && bool_decide (process_id left = process_id right)
  && bool_decide (process_group_id left = process_group_id right).

(** ** Events *)

Inductive LifecycleEvent : Set :=
  | TriggerClaimed (schema_version : str) (event_id : Uuid) (event_seq : Z) (identity : StoredIdentity)
      (trigger_claimed_unix_ms : Z) (trigger : SessionExitTrigger)
  | LeaderReaped (schema_version : str) (event_id : Uuid) (event_seq : Z) (identity : StoredIdentity)
      (trigger_claimed_unix_ms reaped_unix_ms : Z) (trigger : SessionExitTrigger)
      (exit_code : Z) (signal : option str).

#[global] Instance LifecycleEvent_eq_dec : EqDecision LifecycleEvent.
Proof. solve_decision. Defined.

Definition trigger_claimed (event_id : Uuid) (identity : LifecycleIdentity) (trigger_claimed_unix_ms : Z)
    (trigger : SessionExitTrigger) : LifecycleEvent :=
  TriggerClaimed JOURNAL_SCHEMA_VERSION event_id 1 (StoredIdentity_from identity)
    (clamp_u64 trigger_claimed_unix_ms) trigger.

Definition leader_reaped (event_id : Uuid) (identity : LifecycleIdentity)
    (trigger_claimed_unix_ms reaped_unix_ms : Z) (trigger : SessionExitTrigger) (exit_code : Z)
    (signal : option str) : LifecycleEvent :=
  LeaderReaped JOURNAL_SCHEMA_VERSION event_id 2 (StoredIdentity_from identity)
    (clamp_u64 trigger_claimed_unix_ms) (clamp_u64 reaped_unix_ms) trigger exit_code
    (sanitize_exit_signal <$> signal).

Definition ev_event_id (e : LifecycleEvent) : Uuid :=
  match e with TriggerClaimed _ id _ _ _ _ | LeaderReaped _ id _ _ _ _ _ _ _ => id end.
Definition ev_identity (e : LifecycleEvent) : StoredIdentity :=
  match e with TriggerClaimed _ _ _ i _ _ | LeaderReaped _ _ _ i _ _ _ _ _ => i end.
Definition ev_session_id (e : LifecycleEvent) : str := session_id (ev_identity e).
Definition trigger_claimed_at (e : LifecycleEvent) : Z :=
  match e with TriggerClaimed _ _ _ _ at_ _ | LeaderReaped _ _ _ _ at_ _ _ _ _ => at_ end.
Definition ev_trigger (e : LifecycleEvent) : SessionExitTrigger :=
  match e with TriggerClaimed _ _ _ _ _ t | LeaderReaped _ _ _ _ _ _ t _ _ => t end.

Definition is_trigger_claimed (e : LifecycleEvent) : bool :=
  match e with TriggerClaimed _ _ _ _ _ _ => true | LeaderReaped _ _ _ _ _ _ _ _ _ => false end.

(** [to_json_line]: [None] when serialization fails or the line is longer than the cap. *)
Definition to_json_line `{JsonCodec LifecycleEvent} (e : LifecycleEvent) : option (list byte) :=
  line ← to_vec e;
  if saturating_add usize_max (Z.of_nat (length line)) 1 >? MAX_EVENT_LINE_BYTES then None
  else Some (line ++ [0x0a]).

Section loaded.
Context (uuid_parse_str : str → option Uuid).

Definition has_valid_shape (i : StoredIdentity) : bool :=
  is_some (uuid_parse_str (session_id i))
  && negb (bool_decide (name i = []))
  && is_prefix (lit "%") (pane_id i)
  && is_none_or (parent_session_id i) (λ id, is_some (uuid_parse_str id))
  && is_none_or (parent_pane_id i) (λ pane, is_prefix (lit "%") pane)
  && is_none_or (agent_name i) (λ name, negb (bool_decide (name = []))).

Definition sanitize_loaded_trigger (t : SessionExitTrigger) : option (SessionExitTrigger * bool) :=
  match t with
  | LeaderExited | CloseRequested | TriggerDaemonShutdown => Some (t, false)
  | ParentCascade parent =>
    let sanitized := sanitized_field parent MAX_PANE_BYTES in
    _ ← uuid_parse_str sanitized;
    Some (ParentCascade sanitized, negb (bool_decide (parent = sanitized)))
  | TriggerUnknown => None
  end.

(** The event with its texts sanitized, and whether that changed anything. *)
Definition validate_and_sanitize_loaded (e : LifecycleEvent) : option (LifecycleEvent * bool) :=
  '(e, changed) ← match e with
    | TriggerClaimed version id seq identity at_ trigger =>
      if negb (bool_decide (version = JOURNAL_SCHEMA_VERSION)) || negb (seq =? 1) then None else
      let '(identity, c1) := sanitize_loaded identity in
      '(trigger, c2) ← sanitize_loaded_trigger trigger;
      Some (TriggerClaimed version id seq identity at_ trigger, c1 || c2)
    | LeaderReaped version id seq identity at_ reaped trigger code signal =>
      if negb (bool_decide (version = JOURNAL_SCHEMA_VERSION)) || negb (seq =? 2) then None else
      let '(identity, c1) := sanitize_loaded identity in
      '(trigger, c2) ← sanitize_loaded_trigger trigger;
      let sanitized := (λ v, sanitized_field v MAX_SIGNAL_BYTES) <$> signal in
      Some (LeaderReaped version id seq identity at_ reaped trigger code sanitized,
            c1 || c2 || negb (bool_decide (signal = sanitized)))
    end;
  if has_valid_shape (ev_identity e) then Some (e, changed) else None.
End loaded.

(** ** Folding events into exits *)

Record FoldBucket : Set := { triggers : list LifecycleEvent; reaps : list LifecycleEvent }.

Definition FoldBucket_default : FoldBucket := {| triggers := []; reaps := [] |}.

(** A later [HashSet::insert] of an equal event is skipped; an event goes to the bucket of
    its session. *)
Definition fold_event (acc : list LifecycleEvent * gmap str FoldBucket) (e : LifecycleEvent) :
    list LifecycleEvent * gmap str FoldBucket :=
  let '(seen, buckets) := acc in
  if bool_decide (e ∈ seen) then (seen, buckets) else
  let bucket := default FoldBucket_default (buckets !! ev_session_id e) in
  let bucket :=
    if is_trigger_claimed e then {| triggers := triggers bucket ++ [e]; reaps := reaps bucket |}
    else {| triggers := triggers bucket; reaps := reaps bucket ++ [e] |} in
  (e :: seen, <[ev_session_id e := bucket]> buckets).

Definition fold_buckets (events : list LifecycleEvent) : gmap str FoldBucket :=
  snd (foldl fold_event ([], ∅) events).

Definition cross_conflict (trigger reap : LifecycleEvent) : bool :=
  negb (ev_event_id trigger =? ev_event_id reap)
  || negb (stable_identity_matches (ev_identity trigger) (ev_identity reap))
  || negb (trigger_claimed_at trigger =? trigger_claimed_at reap)
  || negb (bool_decide (ev_trigger trigger = ev_trigger reap)).

Definition conflicted_exit (sid : str) : RecentSessionExit :=
  {| rx_schema_version := JOURNAL_SCHEMA_VERSION; rx_session_id := sid; rx_name := []; rx_pane_id := [];
     rx_parent_session_id := None; rx_parent_pane_id := None; rx_agent_name := None;
     rx_created_unix_ms := 0; rx_trigger_claimed_unix_ms := 0; rx_reaped_unix_ms := None;
     rx_trigger := TriggerUnknown; rx_outcome_state := OutcomeUnknown; rx_exit_code := None;
     rx_signal := None; rx_evidence_state := Conflicted |}.

Definition evidence_state (storage_degraded from_trigger : bool) : ExitEvidenceState :=
  if storage_degraded then StorageDegraded
  else if from_trigger then EvidenceComplete else DegradedMissingTriggerEvent.

(** Outcome, time of reaping, exit code and signal. *)
Definition reap_outcome (reap : option LifecycleEvent) :
    ExitOutcomeState * option Z * option Z * option str :=
  match reap with
  | Some (LeaderReaped _ _ _ _ _ reaped _ code signal) => (OutcomeComplete, Some reaped, Some code, signal)
  | _ => (OutcomePending, None, None, None)
  end.

Definition fold_bucket (sid : str) (bucket : FoldBucket) (storage_degraded : bool) :
    option RecentSessionExit :=
  let trigger := head (triggers bucket) in
  let reap := head (reaps bucket) in
  let cross := match trigger, reap with Some t, Some r => cross_conflict t r | _, _ => false end in
  let conflicted := (1 <? length (triggers bucket))%nat || (1 <? length (reaps bucket))%nat || cross in
  source ← (if trigger is Some _ then trigger else reap);
  if conflicted then Some (conflicted_exit sid) else
  let identity := ev_identity source in
  '(public_trigger, evidence) ← match trigger with
    | Some t => Some (ev_trigger t, evidence_state storage_degraded true)
    | None => r ← reap; Some (ev_trigger r, evidence_state storage_degraded false)
    end;
  let '(outcome, reaped, code, signal) := reap_outcome reap in
  Some {| rx_schema_version := JOURNAL_SCHEMA_VERSION; rx_session_id := session_id identity;
          rx_name := name identity; rx_pane_id := pane_id identity;
          rx_parent_session_id := parent_session_id identity;
          rx_parent_pane_id := parent_pane_id identity; rx_agent_name := agent_name identity;
          rx_created_unix_ms := created_unix_ms identity;
          rx_trigger_claimed_unix_ms := trigger_claimed_at source; rx_reaped_unix_ms := reaped;
          rx_trigger := public_trigger; rx_outcome_state := outcome; rx_exit_code := code;
          rx_signal := signal; rx_evidence_state := evidence |}.

Definition exit_matches_scope (exit : RecentSessionExit) (scope : ExitListScope) : bool :=
  match scope with
  | TopLevel => negb (bool_decide (rx_evidence_state exit = Conflicted)) && negb (is_some (rx_parent_session_id exit))
  | Children => negb (bool_decide (rx_evidence_state exit = Conflicted)) && is_some (rx_parent_session_id exit)
  | AllScopes => true
  end.

(** The order of [String]: UTF-8 orders its bytes as it orders the characters. *)
Fixpoint str_compare (a b : str) : comparison :=
  match a, b with
  | [], [] => Eq
  | [], _ :: _ => Lt
  | _ :: _, [] => Gt
  | x :: a, y :: b => match Z.compare x y with Eq => str_compare a b | c => c end
  end.

(** The comparison of [sort_by]: newest first, then the greater session id. *)
Definition exit_compare (left right : RecentSessionExit) : comparison :=
  match Z.compare (rx_trigger_claimed_unix_ms right) (rx_trigger_claimed_unix_ms left) with
  | Eq => str_compare (rx_session_id right) (rx_session_id left)
  | c => c
  end.
Definition exit_le (left right : RecentSessionExit) : Prop := exit_compare left right ≠ Gt.

#[global] Instance exit_le_dec : RelDecision exit_le.
Proof. intros l r. unfold exit_le. apply _. Defined.

Definition folded_exits (events : list LifecycleEvent) (storage_degraded : bool) : list RecentSessionExit :=
  merge_sort exit_le
    (omap (λ '(sid, bucket), fold_bucket sid bucket storage_degraded) (map_to_list (fold_buckets events))).

Definition truncate {A} (n : Z) (l : list A) : list A := take (Z.to_nat n) l.

Definition fold_events (events : list LifecycleEvent) (storage_degraded : bool) (target : option str)
    (limit : Z) (scope : ExitListScope) : list RecentSessionExit :=
  let exits := folded_exits events storage_degraded in
  let exact := t ← target; List.find (λ exit, bool_decide (rx_session_id exit = t)) exits in
  match exact with
  | Some exact => truncate limit (if exit_matches_scope exact scope then [exact] else [])
  | None =>
    let exits := List.filter (λ exit, exit_matches_scope exit scope) exits in
    let exits := match target with
      | Some t => truncate 1 (List.filter (λ exit, bool_decide (rx_name exit = t) || bool_decide (rx_pane_id exit = t)) exits)
      | None => exits
      end in
    truncate limit exits
  end.

(** ** Lemmas on bounded fields *)

Lemma encode_lead c : is_char c = true → ∃ b bs, encode c = b :: bs ∧ is_cont b = false ∧ Forall (λ b, is_cont b = true) bs.
Proof.
  intros Hc. unfold encode. utf8_unfold.
  split_tests; eexists _, _; (split; [reflexivity|]); (split; [dlia|]); repeat constructor; cbv beta; dlia.
Qed.

Lemma floor_char_boundary_spec bs n :
  (n ≤ length bs)%nat →
  (floor_char_boundary bs n ≤ n)%nat ∧ is_char_boundary bs (floor_char_boundary bs n) = true.
Proof.
  induction n as [|n IH]; intros Hn; [done|]. cbn [floor_char_boundary].
  destruct (is_char_boundary bs (S n)) eqn:Hb; [done|]. destruct IH; [lia|]. split; [lia|done].
Qed.

Lemma str_slice_to_boundary s i :
  Forall (λ c, is_char c = true) s → (i ≤ length (utf8 s))%nat → is_char_boundary (utf8 s) i = true →
  ∃ t, str_slice_to s i = Some t ∧ length (utf8 t) = i ∧ t `prefix_of` s.
Proof.
  intros Hs. revert i. induction Hs as [|c s Hc Hs IH]; intros i Hi Hb.
  { simpl in Hi. destruct i; [|lia]. exists []. split_and!; [done|done|apply prefix_nil]. }
  destruct i as [|i]; [exists []; split_and!; [done|done|apply prefix_nil]|].
  destruct (encode_lead c Hc) as (b & bs & He & Hlead & Hcont).
  rewrite utf8_cons He in Hi Hb. cbn [str_slice_to]. rewrite He. cbn [length].
  rewrite length_app in Hi. cbn [length] in Hi.
  destruct (Nat.leb_spec (S (length bs)) (S i)) as [Hle|Hlt].
  - destruct (IH (S i - S (length bs))%nat) as (t & -> & Ht & Hpre); [lia| |].
    + assert (((b :: bs) ++ utf8 s) !! S i = utf8 s !! (S i - S (length bs))%nat) as Hlook by by rewrite lookup_app_r.
      revert Hb. unfold is_char_boundary. rewrite Hlook length_app. cbn [length].
      intros [[[=]%Nat.eqb_eq|H%Nat.eqb_eq]%orb_true_iff|H]%orb_true_iff; [|by rewrite H orb_true_r].
      assert ((S i - S (length bs) =? length (utf8 s))%nat = true) as ->; [|by rewrite orb_true_r].
      apply Nat.eqb_eq. lia.
    + exists (c :: t). split_and!; [done| |by apply prefix_cons].
      rewrite utf8_cons length_app He Ht. cbn [length]. lia.
  - exfalso. unfold is_char_boundary in Hb. rewrite length_app in Hb. cbn [length app] in Hb.
    assert (∃ x, (bs ++ utf8 s) !! i = Some x ∧ is_cont x = true) as (x & Hx & Hxc).
    { destruct (lookup_lt_is_Some_2 bs i) as [x Hx]; [lia|]. exists x. rewrite lookup_app_l; [|by eapply lookup_lt_Some].
      split; [done|]. by eapply Forall_lookup_1 in Hcont. }
    cbn in Hb. rewrite Hx Hxc orb_false_r in Hb. apply Nat.eqb_eq in Hb. lia.
Qed.

Definition plain (s : str) : Prop := Forall (λ ch, plain_char ch = true) s.

Lemma plain_is_char s : plain s → Forall (λ c, is_char c = true) s.
Proof. intros H. eapply Forall_impl; [exact H|]. by intros c [? _]%andb_true. Qed.

(** The slice of [sanitized_field] never panics, and what it gives is plain text that fits. *)
Lemma sanitized_field_total v n :
  ∃ t, sanitized_field_checked v n = Some t ∧ plain t ∧ (length (utf8 t) ≤ n)%nat ∧ t `prefix_of` terminal_text v.
Proof.
  pose proof (terminal_text_plain v) as Hp. unfold sanitized_field_checked.
  destruct (Nat.leb_spec (length (utf8 (terminal_text v))) n) as [Hle|Hlt]; [by exists (terminal_text v)|].
  destruct (floor_char_boundary_spec (utf8 (terminal_text v)) n) as [Hfl Hb]; [lia|].
  destruct (str_slice_to_boundary _ (floor_char_boundary (utf8 (terminal_text v)) n) (plain_is_char _ Hp)) as (t & -> & Ht & Hpre); [by etrans; [|apply Nat.lt_le_incl]|exact Hb|].
  exists t. split_and!; [done| |lia|done]. destruct Hpre as [k Hk]. unfold plain in *. rewrite Hk in Hp.
  by apply Forall_app in Hp as [? _].
Qed.

Lemma sanitized_field_spec v n :
  plain (sanitized_field v n) ∧ (length (utf8 (sanitized_field v n)) ≤ n)%nat.
Proof. unfold sanitized_field. by destruct (sanitized_field_total v n) as (t & -> & ? & ? & _). Qed.

#[global] Arguments sanitized_field : simpl never.

Lemma sanitized_field_fixed v n : plain v → (length (utf8 v) ≤ n)%nat → sanitized_field v n = v.
Proof.
  intros Hp Hn. unfold sanitized_field, sanitized_field_checked. rewrite terminal_text_of_plain //.
  by destruct (Nat.leb_spec (length (utf8 v)) n); [|lia].
Qed.

Lemma sanitized_field_idem v n : sanitized_field (sanitized_field v n) n = sanitized_field v n.
Proof. by apply sanitized_field_fixed; apply sanitized_field_spec. Qed.

#[global] Opaque sanitized_field.

Lemma sanitized_option_idem (o : option str) n :
  (λ v, sanitized_field v n) <$> ((λ v, sanitized_field v n) <$> o) = (λ v, sanitized_field v n) <$> o.
Proof. destruct o; [|done]. cbn [fmap option_fmap option_map]. by rewrite sanitized_field_idem. Qed.

Lemma sanitize_loaded_stored i : sanitize_loaded (StoredIdentity_from i) = (StoredIdentity_from i, false).
Proof.
  destruct i. unfold sanitize_loaded, StoredIdentity_from, identity_sanitized.
  cbn [session_id name pane_id parent_session_id parent_pane_id agent_name created_unix_ms process_id
       process_group_id attached_clients li_session_id li_name li_pane_id li_parent_session_id
       li_parent_pane_id li_agent_name li_created_unix_ms li_process_id li_process_group_id
       li_attached_clients].
  rewrite !sanitized_option_idem !sanitized_field_idem bool_decide_eq_true_2; done.
Qed.

(** A trigger that [public_trigger] gives for a parent whose id is a UUID. *)
Definition storable_trigger (uuid_parse_str : str → option Uuid) (t : SessionExitTrigger) : Prop :=
  match t with
  | TriggerUnknown => False
  | ParentCascade p => plain p ∧ (length (utf8 p) ≤ MAX_PANE_BYTES)%nat ∧ is_some (uuid_parse_str p) = true
  | _ => True
  end.

Lemma sanitize_loaded_trigger_storable parse t :
  storable_trigger parse t → sanitize_loaded_trigger parse t = Some (t, false).
Proof.
  destruct t as [| | |p|]; try done. intros (Hp & Hn & Hu). simpl. rewrite sanitized_field_fixed //.
  destruct (parse p); [|done]. simpl. by rewrite bool_decide_eq_true_2.
Qed.

Lemma validate_constructed parse i id at_ reaped t code signal :
  has_valid_shape parse (StoredIdentity_from i) = true → storable_trigger parse t →
  validate_and_sanitize_loaded parse (trigger_claimed id i at_ t) = Some (trigger_claimed id i at_ t, false) ∧
  validate_and_sanitize_loaded parse (leader_reaped id i at_ reaped t code signal)
  = Some (leader_reaped id i at_ reaped t code signal, false).
Proof.
  intros Hshape Ht. unfold validate_and_sanitize_loaded, trigger_claimed, leader_reaped.
  rewrite sanitize_loaded_stored sanitize_loaded_trigger_storable; [|done].
  rewrite bool_decide_eq_true_2; [|done]. cbn -[StoredIdentity_from]. rewrite Hshape. split; [done|].
  change (sanitize_exit_signal <$> signal) with ((λ v, sanitized_field v MAX_SIGNAL_BYTES) <$> signal).
  by rewrite sanitized_option_idem bool_decide_eq_true_2.
Qed.

(** ** Lemmas on the fold *)

Lemma str_compare_eq a b : str_compare a b = Eq ↔ a = b.
Proof.
  revert b. induction a as [|x a IH]; intros [|y b]; simpl; [done..|].
  destruct (Z.compare_spec x y) as [->|?|?]; [rewrite IH; naive_solver|split; [done|intros [=]; lia]..].
Qed.

Lemma str_compare_opp a b : str_compare b a = CompOpp (str_compare a b).
Proof.
  revert b. induction a as [|x a IH]; intros [|y b]; simpl; [done..|].
  rewrite (Z.compare_antisym x y). destruct (Z.compare x y); simpl; [apply IH|done..].
Qed.

Lemma str_compare_trans a b c : str_compare a b ≠ Gt → str_compare b c ≠ Gt → str_compare a c ≠ Gt.
Proof.
  revert b c. induction a as [|x a IH]; intros [|y b] [|z c]; simpl; try done.
  destruct (Z.compare_spec x y), (Z.compare_spec y z), (Z.compare_spec x z); subst; try done; try lia; eauto.
Qed.

Lemma exit_le_iff l r :
  exit_le l r ↔ rx_trigger_claimed_unix_ms r < rx_trigger_claimed_unix_ms l ∨
    rx_trigger_claimed_unix_ms r = rx_trigger_claimed_unix_ms l ∧ str_compare (rx_session_id r) (rx_session_id l) ≠ Gt.
Proof.
  unfold exit_le, exit_compare.
  destruct (Z.compare_spec (rx_trigger_claimed_unix_ms r) (rx_trigger_claimed_unix_ms l)); split; intros Hc; try done; try (left; lia); try (right; split; [lia|done]); try (destruct Hc as [?|[? ?]]; [lia|done || lia]).
Qed.

#[global] Instance exit_le_total : Total exit_le.
Proof.
  intros l r. rewrite !exit_le_iff (str_compare_opp (rx_session_id l)).
  destruct (Z.lt_trichotomy (rx_trigger_claimed_unix_ms r) (rx_trigger_claimed_unix_ms l)) as [?|[?|?]]; [by auto| |by auto].
  destruct (str_compare (rx_session_id l) (rx_session_id r)); simpl; naive_solver.
Qed.

#[global] Instance exit_le_trans : Transitive exit_le.
Proof.
  intros a b c. rewrite !exit_le_iff. intros [?|[? Hab]] [?|[? Hbc]]; [left; lia..|].
  right. split; [lia|]. by eapply str_compare_trans.
Qed.

Lemma exit_le_antisym l r : exit_le l r → exit_le r l → rx_session_id l = rx_session_id r.
Proof.
  rewrite !exit_le_iff (str_compare_opp (rx_session_id l)).
  intros [?|[? Hlr]] [?|[? Hrl]]; [lia..|]. apply str_compare_eq.
  by destruct (str_compare (rx_session_id l) (rx_session_id r)).
Qed.

(** What the buckets hold after a fold over [events]. *)
Definition bucket_of (events : list LifecycleEvent) (sid : str) : FoldBucket :=
  default FoldBucket_default (fold_buckets events !! sid).

Record folded (events seen : list LifecycleEvent) (buckets : gmap str FoldBucket) : Prop := {
  folded_seen e : e ∈ seen ↔ e ∈ events;
  folded_triggers sid e :
    e ∈ triggers (default FoldBucket_default (buckets !! sid)) ↔
    e ∈ events ∧ ev_session_id e = sid ∧ is_trigger_claimed e = true;
  folded_reaps sid e :
    e ∈ reaps (default FoldBucket_default (buckets !! sid)) ↔
    e ∈ events ∧ ev_session_id e = sid ∧ is_trigger_claimed e = false;
  folded_nodup sid :
    NoDup (triggers (default FoldBucket_default (buckets !! sid))) ∧
    NoDup (reaps (default FoldBucket_default (buckets !! sid)));
  folded_dom sid : is_Some (buckets !! sid) ↔ ∃ e, e ∈ events ∧ ev_session_id e = sid;
}.

Lemma fold_event_folded events seen buckets e :
  folded events seen buckets →
  folded (events ++ [e]) (fst (fold_event (seen, buckets) e)) (snd (fold_event (seen, buckets) e)).
Proof.
  intros [Hseen Htr Hre Hnd Hdom].
  assert (∀ x, x ∈ events ++ [e] ↔ x ∈ events ∨ x = e) as Hin.
  { intros x. by rewrite elem_of_app list_elem_of_singleton. }
  unfold fold_event. case_bool_decide as He; simpl; rewrite Hseen in He.
  - assert (∀ x, x ∈ events ++ [e] ↔ x ∈ events) as Hin' by (intros x; rewrite Hin; naive_solver).
    split; intros sid; try (intros x); rewrite ?Hin'; auto.
    rewrite Hdom. setoid_rewrite Hin'. done.
  - split.
    + intros x. rewrite elem_of_cons Hin Hseen. naive_solver.
    + intros sid x. rewrite Hin. destruct (decide (ev_session_id e = sid)) as [<-|Hne]; simplify_map_eq; simpl.
      * destruct (is_trigger_claimed e) eqn:Ht; simpl; rewrite ?elem_of_app ?list_elem_of_singleton Htr; clear -He Ht; (intuition (subst; auto)); congruence.
      * rewrite Htr. clear -Hne; naive_solver.
    + intros sid x. rewrite Hin. destruct (decide (ev_session_id e = sid)) as [<-|Hne]; simplify_map_eq; simpl.
      * destruct (is_trigger_claimed e) eqn:Ht; simpl; rewrite ?elem_of_app ?list_elem_of_singleton Hre; clear -He Ht; (intuition (subst; auto)); congruence.
      * rewrite Hre. clear -Hne; naive_solver.
    + intros sid. destruct (decide (ev_session_id e = sid)) as [<-|Hne]; simplify_map_eq; simpl; [|done].
      destruct (Hnd (ev_session_id e)) as [H1 H2].
      assert (∀ l, NoDup l → e ∉ l → NoDup (l ++ [e])) as Hsnoc.
      { intros l Hl Hel. apply NoDup_app. split_and!; [done| |apply NoDup_singleton].
        by intros x Hx ->%list_elem_of_singleton. }
      destruct (is_trigger_claimed e) eqn:Ht; simpl; split; try done;
        (apply Hsnoc; [done|]); [rewrite Htr|rewrite Hre]; clear -He; naive_solver.
    + intros sid. setoid_rewrite Hin. destruct (decide (ev_session_id e = sid)) as [<-|Hne]; simplify_map_eq.
      * split; [|done]. intros _. exists e. auto.
      * rewrite Hdom. clear -Hne; naive_solver.
Qed.

Lemma fold_buckets_folded events : ∃ seen, folded events seen (fold_buckets events).
Proof.
  unfold fold_buckets. exists (fst (foldl fold_event ([], ∅) events)).
  induction events as [|e events IH] using rev_ind.
  - split; intros sid; try intros x; simpl; rewrite ?lookup_empty /=; split; try done; try set_solver; try constructor.
  - rewrite foldl_app /=. destruct (foldl fold_event ([], ∅) events) as [seen buckets].
    by apply fold_event_folded.
Qed.

Lemma bucket_of_triggers events sid e :
  e ∈ triggers (bucket_of events sid) ↔ e ∈ events ∧ ev_session_id e = sid ∧ is_trigger_claimed e = true.
Proof. destruct (fold_buckets_folded events) as [seen H]. apply (folded_triggers _ _ _ H). Qed.

Lemma bucket_of_reaps events sid e :
  e ∈ reaps (bucket_of events sid) ↔ e ∈ events ∧ ev_session_id e = sid ∧ is_trigger_claimed e = false.
Proof. destruct (fold_buckets_folded events) as [seen H]. apply (folded_reaps _ _ _ H). Qed.

Lemma bucket_of_nodup events sid :
  NoDup (triggers (bucket_of events sid)) ∧ NoDup (reaps (bucket_of events sid)).
Proof. destruct (fold_buckets_folded events) as [seen H]. apply (folded_nodup _ _ _ H). Qed.

Lemma fold_buckets_Some events sid bucket :
  fold_buckets events !! sid = Some bucket ↔
  bucket = bucket_of events sid ∧ ∃ e, e ∈ events ∧ ev_session_id e = sid.
Proof.
  destruct (fold_buckets_folded events) as [seen H]. rewrite -(folded_dom _ _ _ H). unfold bucket_of.
  destruct (fold_buckets events !! sid); simpl; split; naive_solver.
Qed.

(** A bucket with two different events of a kind is conflicted, whatever they are. *)
Lemma fold_bucket_many sid bucket degraded :
  (1 <? length (triggers bucket))%nat || (1 <? length (reaps bucket))%nat = true →
  fold_bucket sid bucket degraded = Some (conflicted_exit sid).
Proof.
  unfold fold_bucket. destruct bucket as [[|t ts] [|r rs]]; cbn [triggers reaps head length]; intros Hm; try done; rewrite ?Hm //.
Qed.

Lemma Permutation_short {A} (l1 l2 : list A) : l1 ≡ₚ l2 → (1 <? length l1)%nat = false → l1 = l2.
Proof.
  intros Hp Hl%Nat.ltb_ge. destruct l1 as [|x [|y l1]]; simpl in Hl; [|..|lia].
  - by apply Permutation_nil in Hp as ->.
  - symmetry. by apply Permutation_singleton_l in Hp.
Qed.

Lemma fold_bucket_perm sid b1 b2 degraded :
  triggers b1 ≡ₚ triggers b2 → reaps b1 ≡ₚ reaps b2 →
  fold_bucket sid b1 degraded = fold_bucket sid b2 degraded.
Proof.
  intros Ht Hr.
  destruct ((1 <? length (triggers b1))%nat || (1 <? length (reaps b1))%nat) eqn:Hm.
  - rewrite !fold_bucket_many //. by rewrite -Ht -Hr.
  - apply orb_false in Hm as [Hm1 Hm2]. apply Permutation_short in Ht; [|done]. apply Permutation_short in Hr; [|done].
    destruct b1, b2; simpl in *; by subst.
Qed.

Lemma fold_bucket_session events sid degraded exit :
  fold_bucket sid (bucket_of events sid) degraded = Some exit → rx_session_id exit = sid.
Proof.
  assert (∀ e, head (triggers (bucket_of events sid)) = Some e → ev_session_id e = sid) as Ht.
  { intros e He. apply head_Some_elem_of, bucket_of_triggers in He. naive_solver. }
  assert (∀ e, head (reaps (bucket_of events sid)) = Some e → ev_session_id e = sid) as Hr.
  { intros e He. apply head_Some_elem_of, bucket_of_reaps in He. naive_solver. }
  unfold fold_bucket. destruct (head (triggers _)) as [t|], (head (reaps _)) as [r|]; simpl; [..|done].
  all: match goal with |- context [if ?c then _ else _] => destruct c end; [by intros [= <-]|].
  all: try destruct r; intros [= <-]; first [exact (Ht _ eq_refl)|exact (Hr _ eq_refl)].
Qed.

Lemma NoDup_omap_key {A B K} (f : A → option B) (key : A → K) (g : B → K) l :
  (∀ a b, a ∈ l → f a = Some b → g b = key a) → NoDup (key <$> l) → NoDup (g <$> omap f l).
Proof.
  induction l as [|a l IH]; intros Hkey Hnd; [constructor|]. simpl.
  apply NoDup_cons in Hnd as [Ha Hnd]. specialize (IH (λ a b Hl, Hkey a b (list_elem_of_further _ _ _ Hl)) Hnd).
  destruct (f a) as [b|] eqn:Hf; [|done]. simpl. constructor; [|done].
  rewrite (Hkey a b) //; [|by left]. intros (b' & Hg & (a' & Ha' & Hf')%list_elem_of_omap)%list_elem_of_fmap.
  apply Ha. rewrite Hg (Hkey a' b') //; [|by right]. by apply list_elem_of_fmap_2.
Qed.

Definition unsorted_exits (events : list LifecycleEvent) (degraded : bool) : list RecentSessionExit :=
  omap (λ '(sid, bucket), fold_bucket sid bucket degraded) (map_to_list (fold_buckets events)).

Lemma elem_of_unsorted_exits events degraded exit :
  exit ∈ unsorted_exits events degraded ↔
  (∃ e, e ∈ events ∧ ev_session_id e = rx_session_id exit) ∧
  fold_bucket (rx_session_id exit) (bucket_of events (rx_session_id exit)) degraded = Some exit.
Proof.
  unfold unsorted_exits. rewrite list_elem_of_omap. split.
  - intros ([sid bucket] & [-> He]%elem_of_map_to_list%fold_buckets_Some & Hf).
    pose proof (fold_bucket_session _ _ _ _ Hf) as <-. done.
  - intros [He Hf]. exists (rx_session_id exit, bucket_of events (rx_session_id exit)).
    split; [|done]. apply elem_of_map_to_list, fold_buckets_Some. done.
Qed.

Lemma unsorted_exits_keys events degraded : NoDup (rx_session_id <$> unsorted_exits events degraded).
Proof.
  apply (NoDup_omap_key _ fst); [|apply NoDup_fst_map_to_list].
  intros [sid bucket] exit [-> _]%elem_of_map_to_list%fold_buckets_Some Hf. by eapply fold_bucket_session.
Qed.

Lemma elem_of_folded_exits events degraded exit :
  exit ∈ folded_exits events degraded ↔ exit ∈ unsorted_exits events degraded.
Proof. unfold folded_exits. by rewrite merge_sort_Permutation. Qed.

Lemma folded_exits_keys events degraded : NoDup (rx_session_id <$> folded_exits events degraded).
Proof. unfold folded_exits. rewrite merge_sort_Permutation. apply unsorted_exits_keys. Qed.

Lemma bucket_of_set es1 es2 sid :
  (∀ e, e ∈ es1 ↔ e ∈ es2) →
  triggers (bucket_of es1 sid) ≡ₚ triggers (bucket_of es2 sid) ∧ reaps (bucket_of es1 sid) ≡ₚ reaps (bucket_of es2 sid).
Proof.
  intros Hset. split; apply NoDup_Permutation; try apply bucket_of_nodup; intros e;
    rewrite ?bucket_of_triggers ?bucket_of_reaps Hset; done.
Qed.

Lemma folded_exits_set es1 es2 degraded :
  (∀ e, e ∈ es1 ↔ e ∈ es2) → folded_exits es1 degraded = folded_exits es2 degraded.
Proof.
  intros Hset.
  assert (unsorted_exits es1 degraded ≡ₚ unsorted_exits es2 degraded) as Hp.
  { apply NoDup_Permutation; [eapply NoDup_fmap_1, unsorted_exits_keys..|]. intros exit.
    rewrite !elem_of_unsorted_exits.
    destruct (bucket_of_set es1 es2 (rx_session_id exit) Hset) as [Ht Hr].
    rewrite (fold_bucket_perm _ _ _ _ Ht Hr). setoid_rewrite Hset. done. }
  apply (Sorted_unique_strong exit_le); [|apply Sorted_merge_sort; apply _..|].
  - intros x y Hx%elem_of_folded_exits Hy%elem_of_folded_exits Hxy Hyx. rewrite -Hp in Hy.
    eapply NoDup_key_inj; [apply unsorted_exits_keys|done..|]. by apply exit_le_antisym.
  - unfold folded_exits. rewrite !merge_sort_Permutation. done.
Qed.

(** ** What is reported *)

Definition own (events : list LifecycleEvent) (sid : str) (e : LifecycleEvent) : Prop :=
  e ∈ events ∧ ev_session_id e = sid.

(** Two events of a session do not contradict each other: they are the same, or they are the
    claim and the reaping of one end of the session. *)
Definition agree (e1 e2 : LifecycleEvent) : Prop :=
  if bool_decide (is_trigger_claimed e1 = is_trigger_claimed e2) then e1 = e2
  else cross_conflict e1 e2 = false.

Definition unanimous (events : list LifecycleEvent) (sid : str) : Prop :=
  ∀ e1 e2, own events sid e1 → own events sid e2 → agree e1 e2.

(** The exit says what the event says. *)
Definition reports (exit : RecentSessionExit) (e : LifecycleEvent) : Prop :=
  let i := ev_identity e in
  rx_name exit = name i ∧ rx_pane_id exit = pane_id i ∧
  rx_parent_session_id exit = parent_session_id i ∧ rx_parent_pane_id exit = parent_pane_id i ∧
  rx_agent_name exit = agent_name i ∧ rx_created_unix_ms exit = created_unix_ms i ∧
  rx_trigger_claimed_unix_ms exit = trigger_claimed_at e ∧ rx_trigger exit = ev_trigger e ∧
  match e with
  | TriggerClaimed _ _ _ _ _ _ => True
  | LeaderReaped _ _ _ _ _ reaped _ code signal =>
    rx_outcome_state exit = OutcomeComplete ∧ rx_reaped_unix_ms exit = Some reaped ∧
    rx_exit_code exit = Some code ∧ rx_signal exit = signal
  end.

(** The fields [stable_identity_matches] compares. *)
Definition stable_fields (i : StoredIdentity) :=
  (session_id i, name i, pane_id i, parent_session_id i, parent_pane_id i, agent_name i,
   created_unix_ms i, process_id i, process_group_id i).

Lemma stable_identity_matches_spec i j : stable_identity_matches i j = true ↔ stable_fields i = stable_fields j.
Proof.
  unfold stable_identity_matches, stable_fields.
  rewrite !andb_true !bool_decide_eq_true Z.eqb_eq. split; [by intros ((((((((->&->)&->)&->)&->)&->)&->)&->)&->)|].
  intros [= -> -> -> -> -> -> -> -> ->]. done.
Qed.

Lemma cross_conflict_false t r :
  cross_conflict t r = false ↔
  ev_event_id t = ev_event_id r ∧ stable_fields (ev_identity t) = stable_fields (ev_identity r) ∧
  trigger_claimed_at t = trigger_claimed_at r ∧ ev_trigger t = ev_trigger r.
Proof.
  unfold cross_conflict. rewrite !orb_false !negb_false_iff !Z.eqb_eq stable_identity_matches_spec bool_decide_eq_true.
  tauto.
Qed.

Lemma cross_conflict_sym e1 e2 : cross_conflict e1 e2 = false → cross_conflict e2 e1 = false.
Proof. rewrite !cross_conflict_false. by intros (-> & -> & -> & ->). Qed.

Lemma elem_of_many {A} (l : list A) : NoDup l → (1 <? length l)%nat = true → ∃ x y, x ∈ l ∧ y ∈ l ∧ x ≠ y.
Proof.
  destruct l as [|x [|y l]]; try done. intros [Hx _]%NoDup_cons _. exists x, y.
  split_and!; [by left|by right; left|]. intros ->. apply Hx. by left.
Qed.

Lemma bucket_of_own events sid e :
  own events sid e ↔ e ∈ triggers (bucket_of events sid) ∨ e ∈ reaps (bucket_of events sid).
Proof. rewrite bucket_of_triggers bucket_of_reaps. unfold own. destruct (is_trigger_claimed e); naive_solver. Qed.

(** The conflict test of [fold_bucket] is unanimity. *)
Lemma conflicted_iff events sid :
  let b := bucket_of events sid in
  (1 <? length (triggers b))%nat || (1 <? length (reaps b))%nat ||
  match head (triggers b), head (reaps b) with Some t, Some r => cross_conflict t r | _, _ => false end = false ↔
  unanimous events sid.
Proof.
  intros b. pose proof (bucket_of_nodup events sid) as [Hnt Hnr].
  assert (∀ e, e ∈ triggers b → is_trigger_claimed e = true) as Ht by (intros e He; apply bucket_of_triggers in He; naive_solver).
  assert (∀ e, e ∈ reaps b → is_trigger_claimed e = false) as Hr by (intros e He; apply bucket_of_reaps in He; naive_solver).
  pose proof (bucket_of_own events sid) as Hown. fold b in Hnt, Hnr, Hown. unfold unanimous, agree. split.
  - intros [[H1 H2]%orb_false H3]%orb_false e1 e2. rewrite !Hown.
    destruct (triggers b) as [|t [|t' ts]]; [| |done]; destruct (reaps b) as [|r [|r' rs]]; try done; simpl in *;
      rewrite ?list_elem_of_singleton ?elem_of_nil; intros [?|?] [?|?]; subst; try done;
      repeat match goal with |- context [is_trigger_claimed ?e] =>
        first [rewrite (Ht e (list_elem_of_here _ _))|rewrite (Hr e (list_elem_of_here _ _))] end; simpl; try done.
    by apply cross_conflict_sym.
  - intros Hu. rewrite !orb_false. split_and!.
    + apply not_true_iff_false. intros (x & y & Hx & Hy & Hne)%elem_of_many; [|done]. destruct Hne.
      specialize (Hu x y). rewrite !Hown (Ht x) // (Ht y) // in Hu. apply Hu; by left.
    + apply not_true_iff_false. intros (x & y & Hx & Hy & Hne)%elem_of_many; [|done]. destruct Hne.
      specialize (Hu x y). rewrite !Hown (Hr x) // (Hr y) // in Hu. apply Hu; by right.
    + destruct (head (triggers b)) as [t|] eqn:Het, (head (reaps b)) as [r|] eqn:Her; try done.
      apply head_Some_elem_of in Het, Her. specialize (Hu t r).
      rewrite !Hown (Ht t) // (Hr r) // in Hu. apply Hu; [by left|by right].
Qed.

(** The exit of a session with events: conflicted and empty, or what every event says. *)
Lemma fold_bucket_cases events sid degraded :
  (∃ e, own events sid e) →
  ∃ exit, fold_bucket sid (bucket_of events sid) degraded = Some exit ∧
    (¬ unanimous events sid → exit = conflicted_exit sid) ∧
    (unanimous events sid →
      rx_evidence_state exit = evidence_state degraded (bool_decide (triggers (bucket_of events sid) ≠ [])) ∧
      (rx_outcome_state exit = OutcomePending ↔ reaps (bucket_of events sid) = []) ∧
      ∀ e, own events sid e → reports exit e).
Proof.
  intros [e0 He0]. pose proof (conflicted_iff events sid) as Hc. cbv zeta in Hc.
  pose proof (bucket_of_own events sid) as Hown.
  assert (∀ e, e ∈ triggers (bucket_of events sid) → is_trigger_claimed e = true) as Ht by (intros e He; apply bucket_of_triggers in He; naive_solver).
  assert (∀ e, e ∈ reaps (bucket_of events sid) → is_trigger_claimed e = false) as Hr by (intros e He; apply bucket_of_reaps in He; naive_solver).
  rewrite Hown in He0. unfold fold_bucket. revert Hc Hown Ht Hr He0.
  generalize (bucket_of events sid). intros [[|t ts] [|r rs]]; cbn [triggers reaps head]; intros Hc Hown Ht Hr He0.
  { exfalso. rewrite !elem_of_nil in He0. naive_solver. }
  all: cbn [mbind option_bind].
  all: match goal with |- context [if ?c then _ else _] => destruct c eqn:Hm end.
  all: try (eexists; split; [reflexivity|]; split; [done|]; intros Hu; apply Hc in Hu; congruence).
  all: apply orb_false in Hm as [Hm Hcross]; apply orb_false in Hm as [Hm1 Hm2].
  all: try (destruct ts; [|done]); try (destruct rs; [|done]).
  all: assert (unanimous events sid) as Hu by by apply Hc.
  all: try (assert (is_trigger_claimed t = true) as Htt by by apply Ht; left).
  all: try (assert (is_trigger_claimed r = false) as Hrr by by apply Hr; left).
  all: setoid_rewrite Hown; setoid_rewrite list_elem_of_singleton.
  - destruct r; [done|]. eexists. split; [reflexivity|]. split; [done|]. intros _.
    split_and!; [done|done|]. intros e [He%elem_of_nil| ->]; [done|]. by split_and!.
  - destruct t; [|done]. eexists. split; [reflexivity|]. split; [done|]. intros _.
    split_and!; [done|done|]. intros e [->|He%elem_of_nil]; [|done]. by split_and!.
  - destruct r; [done|]. destruct t; [|done]. eexists. split; [reflexivity|]. split; [done|]. intros _.
    split_and!; [done|done|]. apply cross_conflict_false in Hcross as (_ & [=] & [=] & [=]). simpl in *.
    intros e [->| ->]; by split_and!.
Qed.

(** The answer is a sublist of the folded exits, cut to the limit and to the scope. *)
Lemma fold_events_sublist events degraded target limit scope :
  let out := fold_events events degraded target limit scope in
  out `sublist_of` folded_exits events degraded ∧ (length out ≤ Z.to_nat limit)%nat ∧
  Forall (λ exit, exit_matches_scope exit scope = true) out.
Proof.
  set (all := folded_exits events degraded). unfold fold_events. fold all.
  assert (∀ l, l `sublist_of` all → Forall (λ exit, exit_matches_scope exit scope = true) l →
    truncate limit l `sublist_of` all ∧ (length (truncate limit l) ≤ Z.to_nat limit)%nat ∧
    Forall (λ exit, exit_matches_scope exit scope = true) (truncate limit l)) as Hcut.
  { intros l Hl Hs. unfold truncate. split_and!; [etrans; [apply sublist_take|done]|rewrite length_take; lia|by apply Forall_take]. }
  destruct (target ≫= _) as [exact|] eqn:He; apply Hcut.
  - destruct target as [t|]; [|done]. apply List.find_some in He as [Hin _].
    destruct (exit_matches_scope exact scope); [|apply sublist_nil_l].
    apply list_elem_of_In, list_elem_of_split in Hin as (l1 & l2 & ->).
    apply sublist_inserts_l, sublist_skip, sublist_nil_l.
  - destruct (exit_matches_scope exact scope) eqn:Hs; by repeat constructor.
  - destruct target; [etrans; [apply sublist_take|etrans; [apply filter_sublist|]]|]; apply filter_sublist.
  - assert (Forall (λ exit, exit_matches_scope exit scope = true) (List.filter (λ exit, exit_matches_scope exit scope) all)) as Hf.
    { apply Forall_forall. by intros x [_ ?]%elem_of_filter_bool. }
    destruct target; [|done]. apply Forall_take, Forall_forall. intros x [Hx _]%elem_of_filter_bool.
    by eapply Forall_forall in Hf.
Qed.

Lemma fold_events_all events degraded limit :
  Z.of_nat (length events) ≤ limit → fold_events events degraded None limit AllScopes = folded_exits events degraded.
Proof.
  intros Hlim. unfold fold_events, truncate. cbn [mbind option_bind].
  rewrite (_ : List.filter _ _ = folded_exits events degraded).
  - apply take_ge. transitivity (length events); [|lia].
    rewrite -(length_fmap rx_session_id) -(length_fmap ev_session_id events).
    apply submseteq_length, NoDup_submseteq; [apply folded_exits_keys|].
    intros sid (exit & -> & Hx)%list_elem_of_fmap.
    apply elem_of_folded_exits, elem_of_unsorted_exits in Hx as [(e' & He' & <-) _].
    by apply list_elem_of_fmap_2.
  - induction (folded_exits events degraded) as [|x l IH]; [done|]. simpl. by rewrite IH.
Qed.

(** What the journal reports depends only on which events it holds: their order, and how
    often one of them was stored, make no difference, for every target, limit and scope. *)
Theorem fold_events_order_irrelevant es1 es2 degraded target limit scope :
  (∀ e, e ∈ es1 ↔ e ∈ es2) →
  fold_events es1 degraded target limit scope = fold_events es2 degraded target limit scope.
Proof. intros H. unfold fold_events. by rewrite (folded_exits_set es1 es2). Qed.

(** The exits reported are faithful to the events: newest first, one per session, no more
    than the limit and all within the scope; an exit whose evidence is not conflicted says
    what every event of its session says, and this is the case exactly when the events of
    the session do not contradict each other; a conflicted exit carries no identity.  No
    session is left out when all are asked for. *)
Theorem reported_exits_faithful events degraded target limit scope :
  let out := fold_events events degraded target limit scope in
  StronglySorted exit_le out ∧ NoDup (rx_session_id <$> out) ∧ (length out ≤ Z.to_nat limit)%nat ∧
  (∀ exit, exit ∈ out →
    exit_matches_scope exit scope = true ∧
    (∃ e, own events (rx_session_id exit) e) ∧
    (rx_evidence_state exit = Conflicted ↔ ¬ unanimous events (rx_session_id exit)) ∧
    (rx_evidence_state exit = Conflicted → exit = conflicted_exit (rx_session_id exit)) ∧
    (rx_evidence_state exit ≠ Conflicted → ∀ e, own events (rx_session_id exit) e → reports exit e)) ∧
  (target = None → scope = AllScopes → Z.of_nat (length events) ≤ limit →
   ∀ e, e ∈ events → ev_session_id e ∈ rx_session_id <$> out).
Proof.
  intros out. destruct (fold_events_sublist events degraded target limit scope) as (Hsub & Hlen & Hscope).
  fold out in Hsub, Hlen, Hscope. split_and!; [| |done| |].
  - eapply StronglySorted_sublist; [exact Hsub|]. apply Sorted_StronglySorted; [apply _|].
    apply Sorted_merge_sort. apply _.
  - eapply sublist_NoDup; [apply folded_exits_keys|by apply sublist_map].
  - intros exit Hin. assert (Hex := Hin). rewrite Forall_forall in Hscope. split; [by apply Hscope|].
    apply (λ H, elem_of_sublist _ _ _ H Hsub), elem_of_folded_exits, elem_of_unsorted_exits in Hex as [Hown Hf].
    split; [done|].
    destruct (fold_bucket_cases events (rx_session_id exit) degraded Hown) as (exit' & Hf' & Hbad & Hgood).
    rewrite Hf in Hf'. injection Hf' as <-.
    assert (unanimous events (rx_session_id exit) → rx_evidence_state exit ≠ Conflicted) as Hu.
    { intros Hu. destruct (Hgood Hu) as [-> _]. by destruct degraded, (bool_decide _). }
    assert (rx_evidence_state exit = Conflicted ↔ ¬ unanimous events (rx_session_id exit)) as Hiff.
    { split; [intros Hc Hu'; by apply Hu in Hu'|]. intros Hn. by rewrite Hbad. }
    split_and!; [done|by intros ?%Hiff%Hbad|]. intros Hnc e He.
    assert (unanimous events (rx_session_id exit)) as Hun.
    { apply conflicted_iff, not_true_iff_false. intros Ht. apply Hnc, Hiff. intros Hun.
      apply conflicted_iff in Hun. congruence. }
    by apply Hgood.
  - intros -> -> Hlim e He.
    rewrite (_ : out = folded_exits events degraded); [|by apply fold_events_all].
    destruct (fold_bucket_cases events (ev_session_id e) degraded) as (exit & Hf & _); [by exists e|].
    assert (rx_session_id exit = ev_session_id e) as Hsid by by eapply fold_bucket_session.
    rewrite -Hsid. apply list_elem_of_fmap_2, elem_of_folded_exits, elem_of_unsorted_exits.
    rewrite Hsid. split; [by exists e|done].
Qed.
