(* ===== verification/JournalStorage.v ===== *)
(** [src/session_lifecycle.rs], the exit journal on disk: the bounded line reader, the two
    segments of [SecureStorage] with repair, rotation and append, and the writer thread.

    The system calls are the class [JournalOps], with their documented behaviour in
    [JournalKernel]; JournalScenario.v gives an instance.  A [BufReader] is the list of the
    buffers its [fill_buf] will answer.

    The theorems: the reader gives the same lines however the file is cut into buffers, and
    its loop ends; no sequence of appends, failed ones included, lets a segment outgrow its
    bound; an acknowledged event is read back after a restart unless the segment ended in a
    torn line, and is lost when it did. *)
From stdpp Require Import fin_maps gmap.
From S2P Require Import Prelude Utf8 Text Sanitize Protocol EvidenceFs Lifecycle JournalEvents.

Definition MAX_SEGMENT_BYTES : Z := 1024 * 1024.
Definition WRITER_QUEUE_CAPACITY : nat := 64.
Definition CURRENT_SEGMENT : leaf_name := lit "current.jsonl".
Definition PREVIOUS_SEGMENT : leaf_name := lit "previous.jsonl".
Definition LOCK_FILE : leaf_name := lit "journal.lock".
Definition OVERSIZED_SEGMENT_SENTINEL : list byte := lit "oversized segment discarded" ++ [0x0a].

(** ** The bounded line reader *)

Inductive BoundedLine : Set :=
  | Eof
  | Complete (line : list byte)
  | Invalid.

(** What [fill_buf] answers next: bytes, none at the end of the file, or an error. *)
Abbreviation reader := (list (result errno (list byte))).

Definition fits_line (line : list byte) (more : nat) : bool :=
  saturating_add usize_max (saturating_add usize_max (Z.of_nat (length line)) (Z.of_nat more)) 1
  <=? MAX_EVENT_LINE_BYTES.

Definition end_of_line (oversized : bool) (line : list byte) : BoundedLine :=
  if oversized then Invalid else Complete line.

(** The loop of [read_bounded_line], with its locals [line] and [oversized]. *)
Fixpoint read_bounded_line_loop (line : list byte) (oversized : bool) (r : reader) :
    result errno BoundedLine * reader :=
  match r with
  | [] => (Ok (if bool_decide (line = []) && negb oversized then Eof else Invalid), [])
  | Err e :: rest => (Err e, rest)
  | Ok [] :: rest => (Ok (if bool_decide (line = []) && negb oversized then Eof else Invalid), rest)
  | Ok available :: rest =>
    match position is_newline available with
    | Some newline =>
      if negb oversized && fits_line line newline then
        (Ok (end_of_line oversized (line ++ take newline available)), consume available (S newline) rest)
      else (Ok Invalid, consume available (S newline) rest)
    | None =>
      if negb oversized && fits_line line (length available) then
        read_bounded_line_loop (line ++ available) oversized rest
      else read_bounded_line_loop line true rest
    end
  end.

Definition read_bounded_line (r : reader) : result errno BoundedLine * reader :=
  read_bounded_line_loop [] false r.

(** A [LoadedEvents]. *)
Record LoadedEvents : Set := { events : list LifecycleEvent; degraded : bool }.

Definition mark_degraded (l : LoadedEvents) : LoadedEvents := {| events := events l; degraded := true |}.

Section load.
Context `{JsonCodec LifecycleEvent} (uuid_parse_str : str → option Uuid).

(** The body of the loop of [load_segment] on one line. *)
Definition load_line (line : BoundedLine) (loaded : LoadedEvents) : LoadedEvents :=
  match line with
  | Complete bytes =>
    match from_slice bytes ≫= validate_and_sanitize_loaded uuid_parse_str with
    | Some (event, changed) => {| events := events loaded ++ [event]; degraded := degraded loaded || changed |}
    | None => mark_degraded loaded
    end
  | _ => mark_degraded loaded
  end.

(** The loop; [None] when the fuel runs out. *)
Fixpoint load_lines (fuel : nat) (r : reader) (loaded : LoadedEvents) : option (result errno LoadedEvents) :=
  match fuel with
  | O => None
  | S fuel =>
    match read_bounded_line r with
    | (Err e, _) => Some (Err e)
    | (Ok Eof, _) => Some (Ok loaded)
    | (Ok line, r) => load_lines fuel r (load_line line loaded)
    end
  end.

(** The buffers still to come, by what they can hold: a round of the loop ends the file,
    fails, or takes something off this. *)
Definition reader_size (r : reader) : nat :=
  foldr (λ c n, match c with Ok bytes => S (length bytes) | Err _ => 1%nat end + n)%nat O r.

Definition load_fuel (r : reader) : nat := S (reader_size r).
End load.

(** ** The storage *)

Inductive JournalError : Set := JournalFailed.

(** The system calls of the journal. *)
Class JournalOps (W : Type) := {
  j_euid : Z;
  j_open_dir : list byte → M W errno Z;
  j_openat : Z → leaf_name → bool → bool → M W errno Z;
  j_fstat : Z → M W errno Metadata;
  j_len : Z → M W errno Z;
  j_set_len_0 : Z → M W errno unit;
  j_write_all : Z → list byte → M W errno unit;
  j_renameat : Z → leaf_name → leaf_name → M W errno unit;
  j_flock_nb : Z → M W errno unit;
  j_unlock : Z → W → W;
  (** What a [BufReader] over [file.take(limit)] will answer. *)
  j_read : Z → Z → W → reader * W;
}.

Section storage.
Context {W : Type} `{JournalOps W} `{JsonCodec LifecycleEvent} (uuid_parse_str : str → option Uuid).
Abbreviation IO := (M W JournalError).

(** [?] on the result of a system call. *)
Definition io {A} (m : M W errno A) : IO A := λ w,
  match m w with (Ok a, w) => (Ok a, w) | (Err _, w) => (Err JournalFailed, w) end.

Definition ensure {St} (ok : bool) : M St JournalError unit := lift (bail_if (negb ok) JournalFailed).

Definition validate_owner_mode (m : Metadata) : IO unit :=
  _ ← ensure (m_uid m =? j_euid); ensure (Z.land (m_mode m) 63 =? 0).

Definition validate_dir (dir : Z) : IO unit :=
  m ← io (j_fstat dir);
  _ ← ensure (bool_decide (file_type m = Directory));
  validate_owner_mode m.

Definition validate_regular (file : Z) : IO unit :=
  m ← io (j_fstat file);
  _ ← ensure (bool_decide (file_type m = RegularFile));
  _ ← ensure (m_nlink m =? 1);
  validate_owner_mode m.

Definition open_regular_at (dir : Z) (name : leaf_name) (create writable : bool) : IO (option Z) := λ w,
  match j_openat dir name create writable w with
  | (Ok file, w) => (_ ← validate_regular file; mret (Some file)) w
  | (Err ENOENT, w) => (if create then Err JournalFailed else Ok None, w)
  | (Err _, w) => (Err JournalFailed, w)
  end.

(** [.context(..)?] on an option. *)
Definition present {A} (o : option A) : IO A := lift (ok_or o JournalFailed).

Definition repair_oversized_segment (file : Z) : IO bool :=
  n ← io (j_len file);
  if n <=? MAX_SEGMENT_BYTES then mret false else
  _ ← io (j_set_len_0 file);
  _ ← io (j_write_all file OVERSIZED_SEGMENT_SENTINEL);
  mret true.

Record SecureStorage : Set := { dir : Z; lock_file : Z; current : Z; current_bytes : Z }.

(** The part of [open] that runs with the journal locked. *)
Definition open_locked (dir lock_file : Z) : IO SecureStorage :=
  current ← (open_regular_at dir CURRENT_SEGMENT true true ≫= present);
  previous ← open_regular_at dir PREVIOUS_SEGMENT false true;
  _ ← repair_oversized_segment current;
  _ ← match previous with Some p => repair_oversized_segment p | None => mret false end;
  n ← io (j_len current);
  mret {| dir := dir; lock_file := lock_file; current := current; current_bytes := n |}.

(** A [JournalLock] that is dropped because [?] left the function. *)
Definition unlock_on_error {A} (lock_file : Z) (m : IO A) : IO A := λ w,
  match m w with
  | (Err e, w) => (Err e, j_unlock lock_file w)
  | r => r
  end.

Definition storage_open (path : list byte) : IO SecureStorage :=
  _ ← ensure (negb (bool_decide (0 ∈ path)));
  dir ← io (j_open_dir path);
  _ ← validate_dir dir;
  lock_file ← (open_regular_at dir LOCK_FILE true true ≫= present);
  _ ← io (j_flock_nb lock_file);
  unlock_on_error lock_file (open_locked dir lock_file).

(** Methods of [&mut self] on the storage and the world. *)
Abbreviation SM := (M (SecureStorage * W) JournalError).

Definition on_world {A} (m : IO A) : SM A := λ '(s, w), let '(r, w) := m w in (r, (s, w)).
Definition self : SM SecureStorage := λ '(s, w), (Ok s, (s, w)).
Definition set_current_bytes (n : Z) : SM unit := λ '(s, w),
  (Ok tt, ({| dir := dir s; lock_file := lock_file s; current := current s; current_bytes := n |}, w)).
Definition set_current (file : Z) : SM unit := λ '(s, w),
  (Ok tt, ({| dir := dir s; lock_file := lock_file s; current := file; current_bytes := current_bytes s |}, w)).

Definition repair_oversized_segments : SM bool :=
  s ← self;
  repaired ← on_world (repair_oversized_segment (current s));
  n ← on_world (io (j_len (current s)));
  _ ← set_current_bytes n;
  previous ← on_world (open_regular_at (dir s) PREVIOUS_SEGMENT false true);
  match previous with
  | Some p => r ← on_world (repair_oversized_segment p); mret (repaired || r)
  | None => mret repaired
  end.

(** [rotate], up to and from the renaming. *)
Definition rotate_checks : SM unit :=
  s ← self;
  previous ← on_world (open_regular_at (dir s) PREVIOUS_SEGMENT false true);
  _ ← match previous with Some p => on_world (repair_oversized_segment p) | None => mret false end;
  _ ← on_world (repair_oversized_segment (current s));
  n ← on_world (io (j_len (current s)));
  set_current_bytes n.

Definition rotate_moves : SM unit :=
  s ← self;
  _ ← on_world (io (j_renameat (dir s) CURRENT_SEGMENT PREVIOUS_SEGMENT));
  file ← on_world (open_regular_at (dir s) CURRENT_SEGMENT true true ≫= present);
  _ ← set_current file;
  set_current_bytes 0.

Definition rotate : SM unit :=
  _ ← rotate_checks;
  rotate_moves.

Definition needs_rotation (s : SecureStorage) (line_len : Z) : bool :=
  (current_bytes s >? 0) && (saturating_add u64_max (current_bytes s) line_len >? MAX_SEGMENT_BYTES).

Definition append (event : LifecycleEvent) : SM bool :=
  repaired ← repair_oversized_segments;
  line ← lift (ok_or (to_json_line event) JournalFailed);
  let line_len := Z.of_nat (length line) in
  s ← self;
  let rotated := needs_rotation s line_len in
  _ ← (if rotated then rotate else mret tt);
  s ← self;
  _ ← on_world (io (j_write_all (current s) line));
  _ ← set_current_bytes (saturating_add u64_max (current_bytes s) line_len);
  mret (repaired || rotated).

(** The loop of [load_segment] over the first bytes of the file. *)
Definition read_segment (file : Z) (loaded : LoadedEvents) : IO LoadedEvents := λ w,
  let '(r, w) := j_read file MAX_SEGMENT_BYTES w in
  match load_lines uuid_parse_str (load_fuel r) r loaded with
  | Some (Ok loaded) => (Ok loaded, w)
  | _ => (Err JournalFailed, w)
  end.

Definition load_segment (file : Z) (loaded : LoadedEvents) : IO LoadedEvents :=
  n ← io (j_len file);
  let loaded := if n >? MAX_SEGMENT_BYTES then mark_degraded loaded else loaded in
  read_segment file loaded.

Definition load_named (dir : Z) (name : leaf_name) (loaded : LoadedEvents) : IO LoadedEvents :=
  file ← open_regular_at dir name false false;
  match file with
  | Some file => load_segment file loaded
  | None => mret loaded
  end.

Definition load_all (s : SecureStorage) : IO LoadedEvents :=
  loaded ← load_named (dir s) PREVIOUS_SEGMENT {| events := []; degraded := false |};
  load_named (dir s) CURRENT_SEGMENT loaded.

(** ** The writer thread *)

(** A [WriterRequest]: the event, and the publication and event id to acknowledge. *)
Record WriterRequest : Set := { req_event : LifecycleEvent; acknowledgement : option Uuid }.

(** The body of [writer_loop] for one request: the outcome given to the publication of the
    request, if it has one, is the second component. *)
Definition handle_request (request : WriterRequest) (snapshot : LoadedEvents) (sw : SecureStorage * W) :
    LoadedEvents * option (Uuid * WriteOutcome) * (SecureStorage * W) :=
  match append (req_event request) sw with
  | (Ok rotated, (s, w)) =>
    let '(snapshot, w) :=
      if rotated then
        match load_all s w with
        | (Ok loaded, w) =>
          ({| events := events loaded; degraded := degraded snapshot || degraded loaded |}, w)
        | (Err _, w) => (mark_degraded snapshot, w)
        end
      else ({| events := events snapshot ++ [req_event request]; degraded := degraded snapshot |}, w) in
    (snapshot, (λ id, (id, Persisted)) <$> acknowledgement request, (s, w))
  | (Err _, sw) => (mark_degraded snapshot, (λ id, (id, IoFailed)) <$> acknowledgement request, sw)
  end.

(** [try_send] on the bounded channel: [None] is a disconnected receiver. *)
Definition enqueue (request : WriterRequest) (queue : option (list WriterRequest)) :
    WriteOutcome * option (list WriterRequest) :=
  match queue with
  | None => (WriterUnavailable, None)
  | Some q =>
    if (WRITER_QUEUE_CAPACITY <=? length q)%nat then (QueueFull, Some q)
    else (Persisted, Some (q ++ [request]))
  end.

(** [enqueue_event]; [enqueue_claimed] resolves the publication instead of answering. *)
Definition enqueue_event (event : LifecycleEvent) (snapshot : LoadedEvents) (queue : option (list WriterRequest)) :
    WriteOutcome * LoadedEvents * option (list WriterRequest) :=
  match enqueue {| req_event := event; acknowledgement := None |} queue with
  | (Persisted, q) => (Persisted, snapshot, q)
  | (outcome, q) => (outcome, mark_degraded snapshot, q)
  end.

Definition enqueue_claimed (event : LifecycleEvent) (id : Uuid) (publication : LifecyclePublication)
    (snapshot : LoadedEvents) (queue : option (list WriterRequest)) :
    LifecyclePublication * LoadedEvents * option (list WriterRequest) :=
  match enqueue {| req_event := event; acknowledgement := Some id |} queue with
  | (Persisted, q) => (publication, snapshot, q)
  | (outcome, q) => (snd (resolve id outcome publication), mark_degraded snapshot, q)
  end.

Definition recent_exits (snapshot : LoadedEvents) (target : option str) (limit : Z) (scope : ExitListScope) :
    list RecentSessionExit :=
  fold_events (events snapshot) (degraded snapshot) target limit scope.
End storage.

(** ** The reader against a reference *)

(** The lines of a byte string, the reader's way: a line that is too long, or that no
    newline ends, is invalid. *)
Fixpoint lines_from (line : list byte) (bs : list byte) : list BoundedLine :=
  match bs with
  | [] => if bool_decide (line = []) then [] else [Invalid]
  | b :: bs =>
    if is_newline b then
      (if Z.of_nat (length line) + 1 <=? MAX_EVENT_LINE_BYTES then Complete line else Invalid) :: lines_from [] bs
    else lines_from (line ++ [b]) bs
  end.
Definition segment_lines (bs : list byte) : list BoundedLine := lines_from [] bs.

(** A reader whose buffers are not empty before the end and that does not fail. *)
Lemma fits_line_iff line n :
  fits_line line n = true ↔ Z.of_nat (length line + n) + 1 ≤ MAX_EVENT_LINE_BYTES.
Proof.
  unfold fits_line, saturating_add, MAX_EVENT_LINE_BYTES, usize_max, u64_max. rewrite Z.leb_le. lia.
Qed.

(** The locals stand for the bytes of the line read so far. *)
Definition line_so_far (line : list byte) (oversized : bool) (so_far : list byte) : Prop :=
  if oversized then Z.of_nat (length so_far) + 1 > MAX_EVENT_LINE_BYTES
  else line = so_far ∧ Z.of_nat (length so_far) + 1 ≤ MAX_EVENT_LINE_BYTES.

Lemma lines_from_app so_far bs1 bs2 :
  position is_newline bs1 = None → lines_from so_far (bs1 ++ bs2) = lines_from (so_far ++ bs1) bs2.
Proof.
  revert so_far. induction bs1 as [|b bs1 IH]; intros so_far; simpl; [by rewrite app_nil_r|].
  destruct (is_newline b); [done|]. destruct (position is_newline bs1) eqn:Hp; [done|]. intros _.
  by rewrite IH // -app_assoc.
Qed.

Lemma lines_from_newline so_far bs n :
  position is_newline bs = Some n →
  lines_from so_far bs =
  (if Z.of_nat (length so_far + n) + 1 <=? MAX_EVENT_LINE_BYTES then Complete (so_far ++ take n bs) else Invalid)
  :: segment_lines (drop (S n) bs).
Proof.
  revert so_far n. induction bs as [|b bs IH]; intros so_far n; simpl; [done|].
  destruct (is_newline b).
  - intros [= <-]. by rewrite Nat.add_0_r app_nil_r.
  - intros (k & Hk & ->)%fmap_Some. rewrite (IH _ k) // length_app /= -app_assoc /=.
    by rewrite (_ : (length so_far + 1 + k = length so_far + S k)%nat); [|lia].
Qed.

(** One call of the reader takes the first line of what is left. *)
Lemma read_loop_spec r line oversized so_far :
  well_cut r → line_so_far line oversized so_far →
  match read_bounded_line_loop line oversized r with
  | (Ok Eof, r') => lines_from so_far (reader_bytes r) = [] ∧ r' = []
  | (Ok l, r') => lines_from so_far (reader_bytes r) = l :: segment_lines (reader_bytes r') ∧ well_cut r'
  | (Err _, _) => False
  end.
Proof.
  intros Hr. revert line oversized so_far. induction Hr as [|c r (b & bs & ->) Hr IH]; intros line oversized so_far Hso.
  - simpl. unfold line_so_far in Hso. destruct oversized.
    + rewrite andb_false_r. rewrite bool_decide_eq_false_2; [by split; [|constructor]|].
      intros ->. unfold MAX_EVENT_LINE_BYTES in Hso. simpl in Hso. lia.
    + destruct Hso as [-> _]. simpl. case_bool_decide; simpl; split; try done. constructor.
  - cbn [read_bounded_line_loop]. set (available := b :: bs) in *.
    change (reader_bytes (Ok available :: r)) with (available ++ reader_bytes r).
    destruct (position is_newline available) as [n|] eqn:Hp.
    + assert (n < length available)%nat as Hlt by by eapply position_lt.
      assert (position is_newline (available ++ reader_bytes r) = Some n) as Hp'.
      { apply position_Some in Hp as [(x & Hx & Hxn) Hmin]. apply position_Some.
        split; [exists x; by rewrite lookup_app_l|]. intros j y Hj. rewrite lookup_app_l; [|lia]. by apply Hmin. }
      rewrite (lines_from_newline _ _ _ Hp') take_app_le; [|lia].
      rewrite drop_app_le; [|lia]. rewrite -consume_bytes.
      unfold line_so_far in Hso. destruct oversized; cbn [negb andb].
      * split; [|by apply consume_well_cut].
        destruct (Z.leb_spec (Z.of_nat (length so_far + n) + 1) MAX_EVENT_LINE_BYTES); [lia|done].
      * destruct Hso as [-> _]. destruct (fits_line so_far n) eqn:Hf; cbn [end_of_line].
        -- apply fits_line_iff in Hf. split; [|by apply consume_well_cut].
           destruct (Z.leb_spec (Z.of_nat (length so_far + n) + 1) MAX_EVENT_LINE_BYTES); [done|lia].
        -- apply not_true_iff_false in Hf. rewrite fits_line_iff in Hf. split; [|by apply consume_well_cut].
           destruct (Z.leb_spec (Z.of_nat (length so_far + n) + 1) MAX_EVENT_LINE_BYTES); [lia|done].
    + rewrite (lines_from_app _ _ _ Hp).
      unfold line_so_far in Hso. destruct oversized; cbn [negb andb].
      * apply IH. unfold line_so_far. rewrite length_app. lia.
      * destruct Hso as [-> Hfit]. destruct (fits_line so_far (length available)) eqn:Hf.
        -- apply fits_line_iff in Hf. apply IH. unfold line_so_far. rewrite length_app. split; [done|lia].
        -- apply not_true_iff_false in Hf. rewrite fits_line_iff in Hf. apply IH.
           unfold line_so_far. rewrite length_app. lia.
Qed.

Lemma consume_size available n rest :
  (n < length available)%nat → (reader_size (consume available (S n) rest) < S (length available) + reader_size rest)%nat.
Proof.
  intros Hn. unfold consume. destruct (drop (S n) available) as [|b bs] eqn:Hd; simpl; [lia|].
  apply (f_equal length) in Hd. rewrite length_drop /= in Hd. lia.
Qed.

(** Every call that does not end the file takes something off the reader. *)
Lemma read_loop_size r line oversized l r' :
  read_bounded_line_loop line oversized r = (Ok l, r') →
  l = Eof ∨ r = [] ∧ r' = [] ∨ (reader_size r' < reader_size r)%nat.
Proof.
  revert line oversized. induction r as [|[[|b bs]|e] r IH]; intros line oversized; cbn [read_bounded_line_loop].
  - intros [= <- <-]. auto.
  - intros [= <- <-]. right. right. simpl. lia.
  - set (available := b :: bs).
    assert (∀ n x, position is_newline available = Some n → (Ok x, consume available (S n) r) = (Ok (E:=errno) l, r') →
      l = Eof ∨ (Ok available :: r) = [] ∧ r' = [] ∨ (reader_size r' < reader_size (Ok available :: r))%nat) as Hc.
    { intros n x Hn%position_lt [= <- <-]. right. right. apply consume_size, Hn. }
    destruct (position is_newline available) as [n|] eqn:Hp.
    + destruct (negb oversized && fits_line line n); by apply Hc.
    + assert (∀ line oversized, read_bounded_line_loop line oversized r = (Ok l, r') →
        l = Eof ∨ (Ok available :: r) = [] ∧ r' = [] ∨ (reader_size r' < reader_size (Ok available :: r))%nat) as Hi.
      { intros l0 o0 [->|[[-> ->]|Hlt]]%IH; [by left| |]; right; right; simpl; lia. }
      destruct (negb oversized && fits_line line (length available)); apply Hi.
  - done.
Qed.

Section reader.
Context `{JsonCodec LifecycleEvent} (uuid_parse_str : str → option Uuid).

(** The lines of a segment, loaded one after another. *)
Definition load_bytes (bs : list byte) (loaded : LoadedEvents) : LoadedEvents :=
  foldl (λ l line, load_line uuid_parse_str line l) loaded (segment_lines bs).

Lemma load_lines_exact fuel r loaded :
  well_cut r → (load_fuel r ≤ fuel)%nat →
  load_lines uuid_parse_str fuel r loaded = Some (Ok (load_bytes (reader_bytes r) loaded)).
Proof.
  unfold load_bytes, load_fuel. revert r loaded. induction fuel as [|fuel IH]; intros r loaded Hr Hfuel; [lia|].
  cbn [load_lines]. unfold read_bounded_line.
  assert (line_so_far [] false []) as Hso by by split.
  pose proof (read_loop_spec r [] false [] Hr Hso) as Hspec.
  destruct (read_bounded_line_loop [] false r) as [[l|e] r'] eqn:Hread; [|done].
  apply read_loop_size in Hread as Hsize. destruct Hsize as [->|[[-> ->]|Hlt]].
  - unfold segment_lines. by destruct Hspec as [-> _].
  - by injection Hread as <-.
  - unfold segment_lines in *. destruct l as [|line|]; destruct Hspec as [Hl Hr']; rewrite Hl //=; apply IH; (done || lia).
Qed.

Lemma load_lines_ends r loaded : is_Some (load_lines uuid_parse_str (load_fuel r) r loaded).
Proof.
  assert (∀ fuel r loaded, (load_fuel r ≤ fuel)%nat → is_Some (load_lines uuid_parse_str fuel r loaded)) as Hgen; [|by apply Hgen].
  clear. unfold load_fuel. intros fuel. induction fuel as [|fuel IH]; intros r loaded Hfuel; [lia|].
  cbn [load_lines]. unfold read_bounded_line.
  destruct (read_bounded_line_loop [] false r) as [[l|e] r'] eqn:Hread; [|by eexists].
  apply read_loop_size in Hread as H'. destruct H' as [->|[[-> ->]|Hlt]]; [by eexists| |].
  - by injection Hread as <-.
  - destruct l; [by eexists|apply IH; lia..].
Qed.

(** A reader that will fail makes the load fail: no end of the file comes before. *)
Lemma read_loop_err r line oversized :
  Forall (λ c, c ≠ Ok []) r → (∃ e, Err e ∈ r) →
  match read_bounded_line_loop line oversized r with
  | (Ok l, r') => l ≠ Eof ∧ Forall (λ c, c ≠ Ok []) r' ∧ ∃ e, Err e ∈ r'
  | (Err _, _) => True
  end.
Proof.
  intros Hr. revert line oversized. induction Hr as [|c r Hc Hr IH]; intros line oversized [e He].
  { by apply elem_of_nil in He. }
  destruct c as [[|b bs]|e']; [done| |done]. cbn [read_bounded_line_loop].
  assert (∃ e, Err e ∈ r) as He' by (exists e; by apply elem_of_cons in He as [?|?]).
  set (available := b :: bs). destruct (position is_newline available) as [n|].
  - assert (Forall (λ c, c ≠ Ok []) (consume available (S n) r) ∧ ∃ e, Err e ∈ consume available (S n) r) as Hcons.
    { unfold consume. destruct (drop (S n) available); [done|]. split; [by constructor|].
      destruct He' as [e'' ?]. exists e''. by right. }
    destruct (negb oversized && fits_line line n) eqn:Hf; [|done].
    split; [|done]. apply andb_true in Hf as [->%negb_true_iff _]. done.
  - by destruct (negb oversized && fits_line line (length available)); apply IH.
Qed.

Lemma load_lines_err fuel r loaded :
  Forall (λ c, c ≠ Ok []) r → (∃ e, Err e ∈ r) → ∀ l, load_lines uuid_parse_str fuel r loaded ≠ Some (Ok l).
Proof.
  revert r loaded. induction fuel as [|fuel IH]; intros r loaded Hr He l; [done|]. cbn [load_lines].
  unfold read_bounded_line. pose proof (read_loop_err r [] false Hr He) as Hl.
  destruct (read_bounded_line_loop [] false r) as [[line|e] r']; [|done]. destruct Hl as (Hne & Hr' & He').
  destruct line; [done|by apply IH..].
Qed.

Lemma proper_well_cut r : Forall (λ c, c ≠ Ok []) r → ¬ (∃ e : errno, Err e ∈ r) → well_cut r.
Proof.
  intros Hr Hn. apply Forall_forall. intros [[|b bs]|e] Hc; [|eauto|].
  - rewrite Forall_forall in Hr. by destruct (Hr _ Hc).
  - destruct Hn. eauto.
Qed.

(** Loading adds events and may degrade. *)
Lemma load_bytes_from bs loaded :
  load_bytes bs loaded =
  {| events := events loaded ++ events (load_bytes bs {| events := []; degraded := false |});
     degraded := degraded loaded || degraded (load_bytes bs {| events := []; degraded := false |}) |}.
Proof.
  unfold load_bytes. generalize (segment_lines bs). intros ls.
  assert (∀ ls l1 l2, foldl (λ l line, load_line uuid_parse_str line l)
    {| events := events l1 ++ events l2; degraded := degraded l1 || degraded l2 |} ls =
    {| events := events l1 ++ events (foldl (λ l line, load_line uuid_parse_str line l) l2 ls);
       degraded := degraded l1 || degraded (foldl (λ l line, load_line uuid_parse_str line l) l2 ls) |}) as Hgen.
  { clear. intros ls. induction ls as [|line ls IH]; intros l1 l2; [done|]. simpl. rewrite -IH. f_equal.
    unfold load_line, mark_degraded. destruct line as [|bytes|]; cbn [events degraded]; rewrite ?orb_true_r; [done| |done].
    destruct (from_slice bytes ≫= validate_and_sanitize_loaded uuid_parse_str) as [[e ch]|]; cbn [events degraded];
      rewrite ?orb_true_r ?app_assoc ?orb_assoc //. }
  rewrite -(Hgen ls loaded {| events := []; degraded := false |}). simpl. rewrite app_nil_r orb_false_r.
  by destruct loaded.
Qed.

(** A segment that a whole line ends. *)
Definition clean (c : list byte) : Prop := c = [] ∨ ∃ c0, c = c0 ++ [0x0a].

Lemma segment_lines_clean c bs : clean c → segment_lines (c ++ bs) = segment_lines c ++ segment_lines bs.
Proof.
  intros [->|[c0 ->]]; [done|]. unfold segment_lines.
  assert (∀ so_far, lines_from so_far ((c0 ++ [0x0a]) ++ bs) = lines_from so_far (c0 ++ [0x0a]) ++ lines_from [] bs) as Hg; [|apply Hg].
  induction c0 as [|b c0 IH]; intros so_far; simpl; [done|]. destruct (is_newline b); simpl; by rewrite IH.
Qed.

Lemma position_newline json rest : 0x0a ∉ json → position is_newline (json ++ 0x0a :: rest) = Some (length json).
Proof.
  induction json as [|b json IH]; intros Hn; [done|]. apply not_elem_of_cons in Hn as [Hb Hn]. simpl.
  unfold is_newline at 1. rewrite IH //. by rewrite (proj2 (Z.eqb_neq b 10)).
Qed.

Lemma segment_lines_one json :
  0x0a ∉ json →
  segment_lines (json ++ [0x0a]) =
  [if Z.of_nat (length json) + 1 <=? MAX_EVENT_LINE_BYTES then Complete json else Invalid].
Proof.
  intros Hn. unfold segment_lines. rewrite (lines_from_newline _ _ _ (position_newline json [] Hn)).
  simpl. rewrite take_app_length drop_ge; [done|]. rewrite length_app /=. lia.
Qed.
End reader.

(** Loading a segment does not depend on how the reader cuts it into buffers: the loop
    ends for every reader, failing ones included, and over buffers that are cut anywhere it
    gives exactly the lines of the bytes, long and unterminated ones as invalid. *)
Theorem segment_reader_exact `{JsonCodec LifecycleEvent} parse (r : reader) loaded :
  is_Some (load_lines parse (load_fuel r) r loaded) ∧
  (well_cut r →
   load_lines parse (load_fuel r) r loaded =
   Some (Ok (foldl (λ l line, load_line parse line l) loaded (segment_lines (reader_bytes r))))).
Proof. split; [apply load_lines_ends|]. intros Hr. by apply load_lines_exact. Qed.

(** ** What the system calls promise *)

Class JournalKernel (W : Type) `{JournalOps W} := {
  jview : W → fs_view;
  j_open_dir_reads p : reads_only jview (j_open_dir p);
  j_fstat_reads f : reads_only jview (j_fstat f);
  j_len_reads f : reads_only jview (j_len f);
  j_flock_reads f : reads_only jview (j_flock_nb f);
  j_unlock_reads f w : jview (j_unlock f w) ≡ jview w;
  j_read_reads f n w : jview (snd (j_read f n w)) ≡ jview w;
  (** open(2) of an existing file. *)
  j_openat_reads d l wr : reads_only jview (j_openat d l false wr);
  j_openat_Ok d l wr w f w' : j_openat d l false wr w = (Ok f, w') → entries (jview w) d !! l = Some f;
  j_openat_ENOENT d l wr w w' : j_openat d l false wr w = (Err ENOENT, w') → entries (jview w) d !! l = None;
  (** open(2) with [O_CREAT]: the existing file, or a new empty one. *)
  j_create_Ok d l wr w f w' :
    j_openat d l true wr w = (Ok f, w') →
    entries (jview w) d !! l = Some f ∧ jview w' ≡ jview w ∨
    entries (jview w) d !! l = None ∧ contents (jview w) !! f = None ∧ (∀ d l, entries (jview w) d !! l ≠ Some f) ∧
    jview w' ≡ set_contents (set_entries (jview w) d (<[l := f]> (entries (jview w) d))) f [];
  j_create_Err d l wr w e w' : j_openat d l true wr w = (Err e, w') → jview w' ≡ jview w;
  (** fstat(2): a file with one link has one name. *)
  j_fstat_nlink f w m w' d l l' :
    j_fstat f w = (Ok m, w') → m_nlink m = 1 →
    entries (jview w) d !! l = Some f → entries (jview w) d !! l' = Some f → l = l';
  j_len_Ok f w n w' :
    j_len f w = (Ok n, w') → ∃ c, contents (jview w) !! f = Some c ∧ n = Z.of_nat (length c);
  j_set_len_Ok f w w' : j_set_len_0 f w = (Ok tt, w') → jview w' ≡ set_contents (jview w) f [];
  j_set_len_Err f w e w' : j_set_len_0 f w = (Err e, w') → jview w' ≡ jview w;
  (** write(2) of all bytes at the end of the file may stop anywhere. *)
  j_write_Ok f bytes w w' :
    j_write_all f bytes w = (Ok tt, w') →
    ∃ c, contents (jview w) !! f = Some c ∧ jview w' ≡ set_contents (jview w) f (c ++ bytes);
  j_write_Err f bytes w e w' :
    j_write_all f bytes w = (Err e, w') →
    jview w' ≡ jview w ∨
    ∃ c k, contents (jview w) !! f = Some c ∧ jview w' ≡ set_contents (jview w) f (c ++ take k bytes);
  (** rename(2) does nothing between two names of one file. *)
  j_renameat_Ok d from to w w' :
    j_renameat d from to w = (Ok tt, w') →
    ∃ f, entries (jview w) d !! from = Some f ∧
      (entries (jview w) d !! to = Some f ∧ jview w' ≡ jview w ∨
       jview w' ≡ set_entries (jview w) d (<[to := f]> (delete from (entries (jview w) d))));
  j_renameat_Err d from to w e w' : j_renameat d from to w = (Err e, w') → jview w' ≡ jview w;
  (** read(2) to the end of a [take], unless it fails on the way. *)
  j_read_Ok f n w r w' :
    j_read f n w = (r, w') →
    Forall (λ c, c ≠ Ok []) r ∧
    ((∃ e, Err e ∈ r) ∨ ∃ c, contents (jview w) !! f = Some c ∧ reader_bytes r = take (Z.to_nat n) c);
}.

Section bounded.
Context {W : Type} `{JournalKernel W} `{JsonCodec LifecycleEvent}.
Abbreviation IO := (M W JournalError).

(** The file [f] is a segment of the journal in the view, or the one being written. *)
Definition segment (s : SecureStorage) (v : fs_view) (f : Z) : Prop :=
  f = current s ∨ entries v (dir s) !! CURRENT_SEGMENT = Some f ∨ entries v (dir s) !! PREVIOUS_SEGMENT = Some f.

(** No segment is longer than its bound. *)
Definition bounded (s : SecureStorage) (v : fs_view) : Prop :=
  ∀ f c, segment s v f → contents v !! f = Some c → Z.of_nat (length c) ≤ MAX_SEGMENT_BYTES.

(** [current_bytes] is the length of the current segment. *)
Definition counted (s : SecureStorage) (v : fs_view) : Prop :=
  ∃ c, contents v !! current s = Some c ∧ current_bytes s = Z.of_nat (length c).

#[local] Instance bounded_proper s : Proper ((≡) ==> iff) (bounded s).
Proof. intros v v' [He Hc]. unfold bounded, segment. by rewrite !He Hc. Qed.
#[local] Instance counted_proper s : Proper ((≡) ==> iff) (counted s).
Proof. intros v v' [He Hc]. unfold counted. by rewrite Hc. Qed.

(** Every file of the view is within the bound where [segment] is, so a repair does nothing. *)
Definition small (v : fs_view) (f : Z) : Prop :=
  ∀ c, contents v !! f = Some c → Z.of_nat (length c) ≤ MAX_SEGMENT_BYTES.

(** ** Calls that leave the files alone *)

Lemma io_reads {A} (m : M W errno A) : reads_only jview m → reads_only jview (io m).
Proof. intros Hm w. specialize (Hm w). unfold io. by destruct (m w) as [[]]. Qed.

Lemma j_reads_bind {A B} (m : IO A) (k : A → IO B) :
  reads_only jview m → (∀ a, reads_only jview (k a)) → reads_only jview (m ≫= k).
Proof.
  intros Hm Hk w. unfold mbind, M_bind. specialize (Hm w). destruct (m w) as [[a|e] w']; [|done].
  etrans; [apply Hk|done].
Qed.

Lemma j_reads_lift {A} (r : result JournalError A) : reads_only (W:=W) jview (lift r).
Proof. done. Qed.

Lemma validate_regular_reads f : reads_only jview (validate_regular f).
Proof.
  unfold validate_regular. apply j_reads_bind; [apply io_reads, j_fstat_reads|]. intros m.
  repeat (apply j_reads_bind; [apply j_reads_lift|]; intros _). apply j_reads_lift.
Qed.

Lemma open_existing_reads d l wr : reads_only jview (open_regular_at d l false wr).
Proof.
  intros w. unfold open_regular_at. pose proof (j_openat_reads d l wr w) as Hr.
  destruct (j_openat d l false wr w) as [[f|e] w']; simpl in Hr.
  - rewrite -Hr. apply (j_reads_bind (validate_regular f) (λ _, mret (Some f))); [apply validate_regular_reads|done].
  - by destruct e.
Qed.

Lemma open_existing_Some d l wr w f w' :
  open_regular_at d l false wr w = (Ok (Some f), w') → entries (jview w) d !! l = Some f.
Proof.
  unfold open_regular_at. destruct (j_openat d l false wr w) as [[f'|e] w1] eqn:Ho; [|by destruct e].
  intros (u & w2 & Hv & Hret)%M_bind_Ok. injection Hret as <- <-. by eapply j_openat_Ok.
Qed.

Lemma repair_small f w : small (jview w) f → jview (snd (repair_oversized_segment f w)) ≡ jview w.
Proof.
  intros Hs. unfold repair_oversized_segment, mbind, M_bind, io.
  pose proof (j_len_reads f w) as Hr. destruct (j_len f w) as [[n|e] w1] eqn:Hl; [|done].
  apply j_len_Ok in Hl as (c & Hc & ->). specialize (Hs c Hc).
  by destruct (Z.leb_spec (Z.of_nat (length c)) MAX_SEGMENT_BYTES); [|lia].
Qed.

Lemma on_world_view {A} (m : IO A) s w : snd (on_world m (s, w)) = (s, snd (m w)).
Proof. unfold on_world. by destruct (m w). Qed.

(** Within the bound, the repair of both segments only reads and refreshes the count. *)
Lemma repair_segments_reads s w :
  bounded s (jview w) →
  match repair_oversized_segments (s, w) with
  | (r, (s', w')) =>
    dir s' = dir s ∧ current s' = current s ∧ jview w' ≡ jview w ∧
    (is_ok r = true → counted s' (jview w'))
  end.
Proof.
  intros Hb. unfold repair_oversized_segments, self, set_current_bytes, on_world, mbind, M_bind. simpl.
  assert (small (jview w) (current s)) as Hs1 by (intros c Hc; apply (Hb (current s)); [by left|done]).
  pose proof (repair_small _ _ Hs1) as Hv1. destruct (repair_oversized_segment (current s) w) as [[r1|e] w1]; simpl in Hv1; [|by split_and!].
  pose proof (j_len_reads (current s) w1) as Hv2. unfold io at 1. destruct (j_len (current s) w1) as [[n|e] w2] eqn:Hl; simpl in Hv2;
    [|split_and!; [done|done|by rewrite Hv2|done]].
  apply j_len_Ok in Hl as (c & Hc & ->).
  assert (jview w2 ≡ jview w) as H12 by by rewrite Hv2.
  pose proof (open_existing_reads (dir s) PREVIOUS_SEGMENT true w2) as Hv3.
  destruct (open_regular_at (dir s) PREVIOUS_SEGMENT false true w2) as [[[p|]|e] w3] eqn:Ho; simpl in Hv3.
  - apply open_existing_Some in Ho. assert (small (jview w3) p) as Hs3.
    { intros c' Hc'. destruct Hv3 as [He3 Hc3]. destruct H12 as [He12 Hc12]. apply (Hb p); [|congruence].
      right. right. by rewrite -He12. }
    pose proof (repair_small _ _ Hs3) as Hv4. destruct (repair_oversized_segment p w3) as [[r2|e] w4]; simpl in Hv4.
    + assert (jview w4 ≡ jview w) as H14 by by rewrite Hv4 Hv3.
      split_and!; [done|done|done|]. intros _. exists c. split; [|done]. destruct H14 as [_ ->]. destruct Hv1 as [_ <-]. done.
    + split_and!; [done|done|by rewrite Hv4 Hv3|done].
  - split_and!; [done|done|by rewrite Hv3|]. intros _. exists c. split; [|done].
    destruct Hv3 as [_ ->], Hv2 as [_ ->]. done.
  - split_and!; [done|done|by rewrite Hv3|done].
Qed.

(** ** Rotation *)

Definition created (v : fs_view) (d : Z) (l : leaf_name) (f : Z) : fs_view :=
  set_contents (set_entries v d (<[l := f]> (entries v d))) f [].
Definition renamed (v : fs_view) (d f : Z) : fs_view :=
  set_entries v d (<[PREVIOUS_SEGMENT := f]> (delete CURRENT_SEGMENT (entries v d))).
Definition with_current (s : SecureStorage) (f n : Z) : SecureStorage :=
  {| dir := dir s; lock_file := lock_file s; current := f; current_bytes := n |}.

Lemma segments_differ : CURRENT_SEGMENT ≠ PREVIOUS_SEGMENT.
Proof. intros Heq%(f_equal (λ l, l !! 0%nat)). vm_compute in Heq. discriminate. Qed.

Lemma created_equiv v v' d l f : v ≡ v' → created v d l f ≡ created v' d l f.
Proof. intros [He Hc]. split; simpl; [|by rewrite Hc]. intros d'. by rewrite !He. Qed.

Lemma bounded_created s v f g n :
  bounded s v → g = current s ∨ g = f → bounded (with_current s g n) (created v (dir s) CURRENT_SEGMENT f).
Proof.
  intros Hb Hg h c Hseg Hc. simpl in *. destruct (decide (h = f)) as [->|Hne].
  { rewrite lookup_insert_eq in Hc. injection Hc as <-. done. }
  rewrite lookup_insert_ne // in Hc. apply (Hb h); [|done].
  unfold segment in *. simpl in Hseg. rewrite decide_True // lookup_insert_eq in Hseg.
  rewrite (lookup_insert_ne _ _ PREVIOUS_SEGMENT) in Hseg; [|apply segments_differ]. naive_solver.
Qed.

Lemma bounded_renamed s v f :
  bounded s v → entries v (dir s) !! CURRENT_SEGMENT = Some f → bounded s (renamed v (dir s) f).
Proof.
  intros Hb Hf h c Hseg Hc. apply (Hb h); [|done]. unfold segment, renamed in *. simpl in Hseg.
  rewrite decide_True // lookup_insert_eq in Hseg.
  rewrite lookup_insert_ne in Hseg; [|apply not_eq_sym, segments_differ]. rewrite lookup_delete_eq in Hseg. naive_solver.
Qed.

Lemma bounded_count s v n : bounded s v → bounded (with_current s (current s) n) v.
Proof. done. Qed.

(** Opening with [O_CREAT]: the existing file, or a new empty one; an error may leave the
    new file behind. *)
Lemma create_spec d l wr w :
  match (open_regular_at d l true wr ≫= present) w with
  | (r, w') =>
    (jview w' ≡ jview w ∧ (∀ f, r = Ok f → entries (jview w) d !! l = Some f)) ∨
    ∃ f, entries (jview w) d !! l = None ∧ (∀ d l, entries (jview w) d !! l ≠ Some f) ∧
      jview w' ≡ created (jview w) d l f ∧ (∀ f', r = Ok f' → f' = f)
  end.
Proof.
  unfold open_regular_at. unfold mbind at 1, M_bind at 1.
  destruct (j_openat d l true wr w) as [[f|e] w1] eqn:Ho.
  - unfold mbind, M_bind, present, lift, mret, M_ret. pose proof (validate_regular_reads f w1) as Hv.
    apply j_create_Ok in Ho.
    destruct (validate_regular f w1) as [[u|e] w2]; simpl in Hv; destruct Ho as [[Hn Hw]|(Hn & _ & Hc & Hw)].
    + left. split; [by rewrite Hv|]. simpl. naive_solver.
    + right. exists f. split_and!; [done|done|by rewrite Hv|]. simpl. naive_solver.
    + left. split; [by rewrite Hv|]. naive_solver.
    + right. exists f. split_and!; [done|done|by rewrite Hv|]. naive_solver.
  - apply j_create_Err in Ho. destruct e; left; (split; [done|by intros f]) .
Qed.

(** The file found, validated to have one name. *)
Lemma open_existing_one_name d l wr w f w' l' :
  open_regular_at d l false wr w = (Ok (Some f), w') → entries (jview w) d !! l' = Some f → l' = l.
Proof.
  intros Ho Hl'. pose proof (open_existing_Some _ _ _ _ _ _ Ho) as Hl. revert Ho. unfold open_regular_at.
  pose proof (j_openat_reads d l wr w) as Hr.
  destruct (j_openat d l false wr w) as [[f'|e] w1] eqn:Hop; [|by destruct e]. simpl in Hr. destruct Hr as [He _].
  intros (u & w2 & Hv & Hret)%M_bind_Ok. injection Hret as -> ->.
  unfold validate_regular, io in Hv. apply M_bind_Ok in Hv as (m & w3 & Hm & Hv).
  destruct (j_fstat f w1) as [[m'|e] w4] eqn:Hst; [|done]. injection Hm as -> ->.
  apply M_bind_Ok in Hv as ([] & w5 & _ & Hv). apply M_bind_Ok in Hv as ([] & w6 & Hn & _).
  unfold ensure, lift in Hn. injection Hn as Hn _. apply bail_if_Ok, negb_false_iff, Z.eqb_eq in Hn.
  eapply j_fstat_nlink; [exact Hst|exact Hn|rewrite He; exact Hl'|rewrite He; exact Hl].
Qed.

Lemma open_existing_None d l wr w w' :
  open_regular_at d l false wr w = (Ok None, w') → entries (jview w) d !! l = None.
Proof.
  unfold open_regular_at. destruct (j_openat d l false wr w) as [[f|e] w1] eqn:Ho.
  - intros (u & w2 & _ & Hret)%M_bind_Ok. done.
  - destruct e; try done. intros _. by eapply j_openat_ENOENT.
Qed.

(** The checks of a rotation only look; they end with the two names known to stand for
    different files. *)
Lemma rotate_checks_reads s w :
  bounded s (jview w) →
  match rotate_checks (s, w) with
  | (r, (s', w')) =>
    (∃ n, s' = with_current s (current s) n) ∧ jview w' ≡ jview w ∧
    (is_ok r = true → ∀ f, entries (jview w) (dir s) !! CURRENT_SEGMENT = Some f →
      entries (jview w) (dir s) !! PREVIOUS_SEGMENT ≠ Some f)
  end.
Proof.
  intros Hb. unfold rotate_checks, self, set_current_bytes, on_world, mbind, M_bind, io.
  assert (∃ n, s = with_current s (current s) n) as Hs by (exists (current_bytes s); by destruct s).
  pose proof (open_existing_reads (dir s) PREVIOUS_SEGMENT true w) as Hv1.
  assert (∀ w', jview w' ≡ jview w → small (jview w') (current s)) as Hsm.
  { intros w' [_ Hc] c. rewrite Hc. apply Hb. by left. }
  destruct (open_regular_at (dir s) PREVIOUS_SEGMENT false true w) as [[[p|]|e] w1] eqn:Ho; simpl in Hv1; [..|by split_and!].
  - assert (∀ f, entries (jview w) (dir s) !! CURRENT_SEGMENT = Some f →
      entries (jview w) (dir s) !! PREVIOUS_SEGMENT ≠ Some f) as Hne.
    { intros f Hf Hp. pose proof (open_existing_Some _ _ _ _ _ _ Ho) as Hp'. rewrite Hp' in Hp. simplify_eq.
      by apply segments_differ, (open_existing_one_name _ _ _ _ _ _ _ Ho). }
    apply open_existing_Some in Ho. assert (small (jview w1) p) as Hsp.
    { destruct Hv1 as [_ Hc]. intros c. rewrite Hc. apply Hb. by right; right. }
    pose proof (repair_small _ _ Hsp) as Hv2. destruct (repair_oversized_segment p w1) as [[r2|e] w2]; simpl in Hv2;
      [|by split_and!; [|by rewrite Hv2|]].
    assert (jview w2 ≡ jview w) as Hv by by rewrite Hv2. clear Hv1 Hv2.
    pose proof (repair_small _ _ (Hsm _ Hv)) as Hv3. destruct (repair_oversized_segment (current s) w2) as [[r3|e] w3]; simpl in Hv3;
      [|by split_and!; [|by rewrite Hv3|]].
    pose proof (j_len_reads (current s) w3) as Hv4. destruct (j_len (current s) w3) as [[n|e] w4]; simpl in Hv4;
      (split_and!; [eauto| |done]); by rewrite Hv4 Hv3.
  - apply open_existing_None in Ho. simpl. unfold mret, M_ret.
    pose proof (repair_small _ _ (Hsm _ Hv1)) as Hv3. destruct (repair_oversized_segment (current s) w1) as [[r3|e] w3]; simpl in Hv3;
      [|by split_and!; [|by rewrite Hv3|]].
    pose proof (j_len_reads (current s) w3) as Hv4. destruct (j_len (current s) w3) as [[n|e] w4]; simpl in Hv4;
      (split_and!; [eauto| |by rewrite Ho]); by rewrite Hv4 Hv3.
Qed.

(** A rotation keeps the bound whatever fails; a finished one has moved the current segment
    and started an empty one. *)
Lemma rotate_spec s w :
  bounded s (jview w) →
  match rotate (s, w) with
  | (r, (s', w')) =>
    dir s' = dir s ∧ bounded s' (jview w') ∧
    (is_ok r = true → ∃ f n, entries (jview w) (dir s) !! CURRENT_SEGMENT = Some f ∧ f ≠ n ∧
      s' = with_current s n 0 ∧
      jview w' ≡ created (renamed (jview w) (dir s) f) (dir s) CURRENT_SEGMENT n)
  end.
Proof.
  intros Hb. unfold rotate. unfold mbind, M_bind. pose proof (rotate_checks_reads s w Hb) as Hc.
  destruct (rotate_checks (s, w)) as [[u|e] [s1 w1]]; destruct Hc as ((n1 & ->) & Hv1 & Hne);
    [specialize (Hne eq_refl)|by split_and!; [|rewrite Hv1|]].
  pose proof (create_spec (dir s) CURRENT_SEGMENT true) as Hcr.
  unfold rotate_moves, self, set_current, set_current_bytes. unfold mbind at 1, M_bind at 1. cbn [dir with_current].
  revert Hcr. generalize (open_regular_at (dir s) CURRENT_SEGMENT true true ≫= present). intros create Hcr.
  unfold on_world, io, mbind, M_bind.
  destruct (j_renameat (dir s) CURRENT_SEGMENT PREVIOUS_SEGMENT w1) as [[[]|e] w2] eqn:Hr; cbn [with_current].
  - apply j_renameat_Ok in Hr as (f & Hf & Hr). destruct Hv1 as [He1 Hc1].
    assert (jview w2 ≡ renamed (jview w) (dir s) f) as Hv2.
    { rewrite He1 in Hf. rewrite !He1 in Hr. destruct Hr as [[Hp _]|Hv]; [by destruct (Hne f Hf)|]. rewrite Hv.
      split; [|done]. intros d. simpl. by rewrite He1. }
    rewrite He1 in Hf. pose proof (bounded_renamed _ _ _ Hb Hf) as Hb2.
    specialize (Hcr w2).
    assert (entries (jview w2) (dir s) !! CURRENT_SEGMENT = None) as Hnone.
    { destruct Hv2 as [-> _]. simpl. rewrite decide_True // lookup_insert_ne; [apply lookup_delete_eq|apply not_eq_sym, segments_differ]. }
    destruct (create w2) as [[n|e] w3];
      destruct Hcr as [[Hv3 Hn]|(n' & _ & Hfree & Hv3 & Hn)].
    + by rewrite (Hn n eq_refl) in Hnone.
    + specialize (Hn n eq_refl) as ->. split_and!; [done| |].
      * rewrite Hv3 (created_equiv _ _ _ _ _ Hv2). by apply (bounded_created s); [|right].
      * intros _. exists f, n'. split_and!; [done| |done|by rewrite Hv3 (created_equiv _ _ _ _ _ Hv2)].
        intros ->. apply (Hfree (dir s) PREVIOUS_SEGMENT). destruct Hv2 as [-> _]. simpl.
        by rewrite decide_True // lookup_insert_eq.
    + split_and!; [done|by rewrite Hv3 Hv2|done].
    + split_and!; [done| |done]. rewrite Hv3 (created_equiv _ _ _ _ _ Hv2).
      by apply (bounded_created s _ _ (current s)); [|left].
  - apply j_renameat_Err in Hr. split_and!; [done|by rewrite Hr Hv1|done].
Qed.

(** ** Appending *)

Lemma to_json_line_length e line :
  to_json_line e = Some line → Z.of_nat (length line) ≤ MAX_EVENT_LINE_BYTES ∧ ∃ json, to_vec e = Some json ∧ line = json ++ [0x0a].
Proof.
  unfold to_json_line. destruct (to_vec e) as [json|]; [|done]. simpl.
  destruct (saturating_add usize_max (Z.of_nat (length json)) 1 >? MAX_EVENT_LINE_BYTES) eqn:Hc; [done|].
  intros [= <-]. split; [|by exists json]. rewrite length_app /=.
  revert Hc. unfold saturating_add, MAX_EVENT_LINE_BYTES, usize_max, u64_max. lia.
Qed.

Lemma set_contents_equiv v v' f c : v ≡ v' → set_contents v f c ≡ set_contents v' f c.
Proof. intros [He Hc]. split; [done|]. simpl. by rewrite Hc. Qed.

Lemma bounded_written s v f c :
  bounded s v → Z.of_nat (length c) ≤ MAX_SEGMENT_BYTES → bounded s (set_contents v f c).
Proof.
  intros Hb Hc g c' Hseg Hg. simpl in Hg. destruct (decide (g = f)) as [->|Hne].
  - rewrite lookup_insert_eq in Hg. by injection Hg as <-.
  - rewrite lookup_insert_ne // in Hg. by apply (Hb g).
Qed.

(** The last write of an append: room for the line keeps the bound, wherever it stops. *)
Lemma append_write_spec s w line :
  bounded s (jview w) →
  (∀ c, contents (jview w) !! current s = Some c → Z.of_nat (length c) + Z.of_nat (length line) ≤ MAX_SEGMENT_BYTES) →
  match io (j_write_all (current s) line) w with
  | (r, w') =>
    bounded s (jview w') ∧
    (is_ok r = true → ∃ c, contents (jview w) !! current s = Some c ∧ jview w' ≡ set_contents (jview w) (current s) (c ++ line))
  end.
Proof.
  intros Hb Hroom. unfold io. destruct (j_write_all (current s) line w) as [[[]|e] w'] eqn:Hw.
  - apply j_write_Ok in Hw as (c & Hc & Hw). split; [|eauto]. rewrite Hw. apply bounded_written; [done|].
    specialize (Hroom c Hc). rewrite length_app. lia.
  - apply j_write_Err in Hw as [Hw|(c & k & Hc & Hw)]; (split; [|done]); rewrite Hw; [done|].
    apply bounded_written; [done|]. specialize (Hroom c Hc). rewrite length_app length_take. lia.
Qed.

(** What a finished append has done to the files. *)
Definition appended (s : SecureStorage) (v : fs_view) (line : list byte) (s' : SecureStorage) (v' : fs_view) : Prop :=
  (∃ c, contents v !! current s = Some c ∧ current s' = current s ∧
    v' ≡ set_contents v (current s) (c ++ line)) ∨
  (∃ f, entries v (dir s) !! CURRENT_SEGMENT = Some f ∧ f ≠ current s' ∧
    (∃ c, contents v !! current s = Some c ∧ Z.of_nat (length c) + Z.of_nat (length line) > MAX_SEGMENT_BYTES) ∧
    v' ≡ set_contents (created (renamed v (dir s) f) (dir s) CURRENT_SEGMENT (current s')) (current s') line).

Lemma append_spec e s w :
  bounded s (jview w) →
  match append e (s, w) with
  | (r, (s', w')) =>
    dir s' = dir s ∧ bounded s' (jview w') ∧
    (is_ok r = true → ∃ line, to_json_line e = Some line ∧ appended s (jview w) line s' (jview w'))
  end.
Proof.
  intros Hb. unfold append. unfold mbind at 1, M_bind at 1. pose proof (repair_segments_reads s w Hb) as Hrep.
  destruct (repair_oversized_segments (s, w)) as [[b|e'] [s1 w1]]; destruct Hrep as (Hd1 & Hc1 & Hv1 & Hcount);
    [|split_and!; [done| |done]; rewrite Hv1; unfold bounded, segment in *; by rewrite Hd1 Hc1].
  assert (bounded s1 (jview w1)) as Hb1 by (rewrite Hv1; unfold bounded, segment in *; by rewrite Hd1 Hc1).
  destruct (Hcount eq_refl) as (c1 & Hc & Hn). unfold mbind at 1, M_bind at 1, lift at 1.
  destruct (to_json_line e) as [line|] eqn:Hline; cbn [ok_or]; [|done].
  destruct (to_json_line_length e line Hline) as [Hlen _].
  unfold self. unfold mbind at 1, M_bind at 1.
  destruct (needs_rotation s1 (Z.of_nat (length line))) eqn:Hrot.
  - unfold mbind at 1, M_bind at 1. pose proof (rotate_spec s1 w1 Hb1) as Hr.
    destruct (rotate (s1, w1)) as [[u|e'] [s2 w2]]; destruct Hr as (Hd2 & Hb2 & Hr); [|by rewrite -Hd1].
    destruct (Hr eq_refl) as (f & n & Hf & Hne & -> & Hv2).
    unfold on_world, set_current_bytes, mbind, M_bind. simpl.
    pose proof (append_write_spec (with_current s1 n 0) w2 line Hb2) as Hw. simpl in Hw.
    assert (contents (jview w2) !! n = Some []) as Hempty.
    { destruct Hv2 as [_ ->]. simpl. by rewrite lookup_insert_eq. }
    destruct (io (j_write_all n line) w2) as [[u'|e'] w3]; destruct Hw as [Hb3 Hw].
    1,3: intros c; rewrite Hempty; intros [= <-]; simpl; unfold MAX_EVENT_LINE_BYTES, MAX_SEGMENT_BYTES in *; lia.
    + split_and!; [done|by apply bounded_count|]. intros _. exists line. split; [done|]. right. simpl.
      destruct (Hw eq_refl) as (c & Hc' & Hv3). rewrite Hempty in Hc'. injection Hc' as <-.
      exists f. rewrite -Hd1. destruct Hv1 as [He1 Hcv1]. split_and!; [by rewrite -He1|done| |].
      { exists c1. rewrite -Hcv1 -Hc1. split; [done|]. revert Hrot.
        unfold needs_rotation, saturating_add, MAX_SEGMENT_BYTES, u64_max. rewrite Hn. lia. }
      rewrite Hv3 (set_contents_equiv _ _ _ _ Hv2). apply set_contents_equiv, created_equiv.
      split; [|done]. intros d. simpl. by rewrite !He1.
    + by split_and!.
  - unfold on_world, set_current_bytes, mbind, M_bind, mret, M_ret. simpl.
    pose proof (append_write_spec s1 w1 line Hb1) as Hw.
    destruct (io (j_write_all (current s1) line) w1) as [[u'|e'] w3]; destruct Hw as [Hb3 Hw].
    1,3: intros c; rewrite Hc; intros [= <-]; revert Hrot;
      unfold needs_rotation, saturating_add, MAX_EVENT_LINE_BYTES, MAX_SEGMENT_BYTES, u64_max in *; rewrite Hn; lia.
    + split_and!; [done|by apply (bounded_count s1)|]. intros _. exists line. split; [done|]. left. simpl.
      destruct (Hw eq_refl) as (c & Hc' & Hv3). exists c. rewrite -Hc1.
      assert (contents (jview w) !! current s1 = Some c) as Hcw by (destruct Hv1 as [_ <-]; done).
      split_and!; [done|done|]. rewrite Hv3. by apply set_contents_equiv.
    + by split_and!.
Qed.

(** ** Opening *)

Lemma repair_spec f w b w' :
  repair_oversized_segment f w = (Ok b, w') →
  small (jview w') f ∧ (∀ d, entries (jview w') d = entries (jview w) d) ∧
  (∀ g, g ≠ f → contents (jview w') !! g = contents (jview w) !! g).
Proof.
  unfold repair_oversized_segment, io, mbind, M_bind, mret, M_ret. pose proof (j_len_reads f w) as Hv.
  destruct (j_len f w) as [[n|e] w1] eqn:Hl; simpl in Hv; [|done].
  apply j_len_Ok in Hl as (c & Hc & ->). destruct Hv as [He1 Hc1].
  destruct (Z.leb_spec (Z.of_nat (length c)) MAX_SEGMENT_BYTES) as [Hle|_].
  { intros [= _ <-]. unfold small. rewrite Hc1 Hc. split_and!; naive_solver. }
  destruct (j_set_len_0 f w1) as [[[]|e] w2] eqn:Hs; [|done]. apply j_set_len_Ok in Hs as [He2 Hc2].
  destruct (j_write_all f OVERSIZED_SEGMENT_SENTINEL w2) as [[[]|e] w3] eqn:Hw; [|done]. intros [= _ <-].
  apply j_write_Ok in Hw as (c2 & Hc2' & He3 & Hc3). rewrite Hc2 /= lookup_insert_eq in Hc2'. injection Hc2' as <-.
  unfold small. split_and!.
  - intros c'. rewrite Hc3 /= lookup_insert_eq. intros [= <-]. done.
  - intros d. by rewrite He3 /= He2 /= He1.
  - intros g Hg. by rewrite Hc3 /= lookup_insert_ne // Hc2 /= lookup_insert_ne // Hc1.
Qed.

Lemma storage_open_spec path w s w' :
  storage_open path w = (Ok s, w') →
  bounded s (jview w') ∧ entries (jview w') (dir s) !! CURRENT_SEGMENT = Some (current s).
Proof.
  unfold storage_open. intros (? & w1 & _ & Ho)%M_bind_Ok.
  apply M_bind_Ok in Ho as (d & w2 & _ & Ho). apply M_bind_Ok in Ho as (? & w3 & _ & Ho).
  apply M_bind_Ok in Ho as (lf & w4 & _ & Ho). apply M_bind_Ok in Ho as (? & w5 & _ & Ho).
  unfold unlock_on_error in Ho. destruct (open_locked d lf w5) as [[s'|e] w6] eqn:Hl; [|done].
  injection Ho as -> ->. clear w1 w2 w3 w4. unfold open_locked in Hl.
  apply M_bind_Ok in Hl as (cur & w1 & Hcur & Hl). apply M_bind_Ok in Hl as (prev & w2 & Hprev & Hl).
  apply M_bind_Ok in Hl as (b1 & w3 & Hr1 & Hl). apply M_bind_Ok in Hl as (b2 & w4 & Hr2 & Hl).
  apply M_bind_Ok in Hl as (n & w7 & Hn & Hl). injection Hl as <- <-. cbn [dir current].
  assert (entries (jview w1) d !! CURRENT_SEGMENT = Some cur) as Hec.
  { pose proof (create_spec d CURRENT_SEGMENT true w5) as Hcr. rewrite Hcur in Hcr.
    destruct Hcr as [[[He _] Hf]|(f & _ & _ & [He _] & Hf)]; [rewrite He; by apply Hf|].
    rewrite (Hf cur eq_refl) He. simpl. by rewrite decide_True // lookup_insert_eq. }
  pose proof (open_existing_reads d PREVIOUS_SEGMENT true w1) as Hv2. rewrite Hprev in Hv2. destruct Hv2 as [He2 Hc2].
  apply repair_spec in Hr1 as (Hs1 & He3 & Hc3).
  assert ((∀ d, entries (jview w4) d = entries (jview w3) d) ∧
    ∀ f, f = cur ∨ prev = Some f → small (jview w4) f) as [He4 Hs4].
  { destruct prev as [p|].
    - apply repair_spec in Hr2 as (Hs2 & He4 & Hc4). split; [done|]. intros f Hf. destruct (decide (f = p)) as [->|Hne]; [done|].
      destruct Hf as [->|?]; [|by simplify_eq]. unfold small. rewrite Hc4 //.
    - injection Hr2 as _ <-. split; [done|]. by intros f [->|?]. }
  pose proof (j_len_reads cur w4) as Hv7. unfold io in Hn. destruct (j_len cur w4) as [[?|?] w8]; [|done].
  injection Hn as _ <-. simpl in Hv7. destruct Hv7 as [He7 Hc7].
  assert (∀ l, entries (jview w8) d !! l = entries (jview w1) d !! l) as Hent by (intros l; by rewrite He7 He4 He3 He2).
  split; [|by rewrite Hent]. intros f c Hf. rewrite Hc7. apply Hs4. unfold segment in Hf. cbn [current dir] in Hf.
  rewrite !Hent Hec in Hf. destruct Hf as [Hf|[Hf|Hf]]; [by left|left; by simplify_eq|].
  right. destruct prev as [p|].
  - apply open_existing_Some in Hprev. congruence.
  - apply open_existing_None in Hprev. congruence.
Qed.

(** Any number of appends, whatever becomes of each. *)
Definition run_appends (es : list LifecycleEvent) (sw : SecureStorage * W) : SecureStorage * W :=
  foldl (λ sw e, snd (append e sw)) sw es.

Lemma run_appends_bounded es s w :
  bounded s (jview w) → bounded (fst (run_appends es (s, w))) (jview (snd (run_appends es (s, w)))).
Proof.
  revert s w. induction es as [|e es IH]; intros s w Hb; [done|]. unfold run_appends. simpl.
  pose proof (append_spec e s w Hb) as Ha. destruct (append e (s, w)) as [r [s' w']]. simpl.
  apply IH. apply Ha.
Qed.

End bounded.

(** ** What a restart reads *)

Section restart.
Context {W : Type} `{JournalKernel W} `{JsonCodec LifecycleEvent} (uuid_parse_str : str → option Uuid).


Definition file_bytes (v : fs_view) (d : Z) (name : leaf_name) : list byte :=
  default [] (entries v d !! name ≫= λ f, contents v !! f).
Definition no_events : LoadedEvents := {| events := []; degraded := false |}.
Definition disk_loaded (v : fs_view) (d : Z) : LoadedEvents :=
  load_bytes uuid_parse_str (file_bytes v d CURRENT_SEGMENT)
    (load_bytes uuid_parse_str (file_bytes v d PREVIOUS_SEGMENT) no_events).

Lemma disk_loaded_events v d :
  events (disk_loaded v d) =
  events (load_bytes uuid_parse_str (file_bytes v d PREVIOUS_SEGMENT) no_events) ++
  events (load_bytes uuid_parse_str (file_bytes v d CURRENT_SEGMENT) no_events).
Proof. unfold disk_loaded. by rewrite load_bytes_from. Qed.

#[local] Instance file_bytes_proper : Proper ((≡) ==> (=) ==> (=) ==> (=)) file_bytes.
Proof. intros v v' [He Hc] d ? <- l ? <-. unfold file_bytes. by rewrite He Hc. Qed.

Lemma load_named_spec d name w loaded l w' :
  (∀ f, entries (jview w) d !! name = Some f → small (jview w) f) →
  load_named uuid_parse_str d name loaded w = (Ok l, w') →
  l = load_bytes uuid_parse_str (file_bytes (jview w) d name) loaded ∧ jview w' ≡ jview w.
Proof.
  intros Hsm (file & w1 & Ho & Hl)%M_bind_Ok. pose proof (open_existing_reads d name false w) as Hv. rewrite Ho in Hv.
  simpl in Hv. destruct file as [f|].
  - apply open_existing_Some in Ho. specialize (Hsm f Ho).
    unfold load_segment, read_segment, io in Hl. apply M_bind_Ok in Hl as (n & w2 & Hn & Hl).
    pose proof (j_len_reads f w1) as Hv2. destruct (j_len f w1) as [[n'|e] w3] eqn:Hlen; [|done].
    injection Hn as -> ->. simpl in Hv2. apply j_len_Ok in Hlen as (c & Hc & ->).
    destruct Hv as [He1 Hc1], Hv2 as [He2 Hc2]. rewrite Hc1 in Hc. specialize (Hsm c Hc).
    destruct (Z.gtb_spec (Z.of_nat (length c)) MAX_SEGMENT_BYTES); [lia|].
    pose proof (j_read_reads f MAX_SEGMENT_BYTES w2) as Hv3.
    destruct (j_read f MAX_SEGMENT_BYTES w2) as [r w4] eqn:Hr. simpl in Hv3.
    apply j_read_Ok in Hr as [Hp Hr].
    destruct (load_lines uuid_parse_str (load_fuel r) r loaded) as [[l'|]|] eqn:Hll; [|done..].
    injection Hl as <- <-. split; [|rewrite Hv3; split; [intros d'; by rewrite He2|congruence]].
    assert (¬ (∃ e, Err e ∈ r)) as Hne by (intros He; by apply (load_lines_err uuid_parse_str _ _ loaded Hp He l') in Hll).
    rewrite (load_lines_exact _ _ _ _ (proper_well_cut _ Hp Hne) (le_n _)) in Hll. injection Hll as <-.
    destruct Hr as [?|(c' & Hc' & ->)]; [done|]. rewrite Hc2 Hc1 Hc in Hc'. injection Hc' as <-.
    unfold file_bytes. rewrite Ho /= Hc /=. rewrite take_ge; [done|lia].
  - apply open_existing_None in Ho. injection Hl as <- <-. split; [|done].
    unfold file_bytes. by rewrite Ho.
Qed.

Lemma load_named_reads d name loaded : reads_only jview (load_named uuid_parse_str d name loaded).
Proof.
  apply j_reads_bind; [apply open_existing_reads|]. intros [f|]; [|done].
  apply j_reads_bind; [apply io_reads, j_len_reads|]. intros n w. unfold read_segment.
  pose proof (j_read_reads f MAX_SEGMENT_BYTES w) as Hv. destruct (j_read f MAX_SEGMENT_BYTES w) as [r w']. simpl in Hv.
  by destruct (load_lines _ _ _ _) as [[]|].
Qed.

Lemma load_all_reads s : reads_only jview (load_all uuid_parse_str s).
Proof. apply j_reads_bind; [apply load_named_reads|]. intros l. apply load_named_reads. Qed.

(** Within the bound, a successful [load_all] gives what the directory holds. *)
Lemma load_all_spec s w l w' :
  bounded s (jview w) → load_all uuid_parse_str s w = (Ok l, w') →
  l = disk_loaded (jview w) (dir s) ∧ jview w' ≡ jview w.
Proof.
  intros Hb (l1 & w1 & H1' & H2')%M_bind_Ok.
  apply load_named_spec in H1' as [-> Hv1]; [|intros f Hf c; apply Hb; by right; right].
  apply load_named_spec in H2' as [-> Hv2].
  - split; [|by rewrite Hv2]. unfold disk_loaded, no_events. by rewrite Hv1.
  - intros f Hf c. destruct Hv1 as [He Hc]. rewrite Hc. apply Hb. right. left. by rewrite -He.
Qed.
End restart.

(** ** The promises of the storage *)

Section promises.
Context {W : Type} `{JournalKernel W} `{JsonCodec LifecycleEvent} (parse : str → option Uuid).

(** The storage writes the file named current, which is not the previous one. *)
Definition named (s : SecureStorage) (v : fs_view) : Prop :=
  entries v (dir s) !! CURRENT_SEGMENT = Some (current s) ∧
  entries v (dir s) !! PREVIOUS_SEGMENT ≠ Some (current s).

(** The bytes of the two segments after an append. *)
Lemma appended_bytes s v line s' v' :
  named s v → dir s' = dir s → appended s v line s' v' →
  named s' v' ∧
  (file_bytes v' (dir s') CURRENT_SEGMENT = file_bytes v (dir s) CURRENT_SEGMENT ++ line ∧
   file_bytes v' (dir s') PREVIOUS_SEGMENT = file_bytes v (dir s) PREVIOUS_SEGMENT ∨
   file_bytes v' (dir s') CURRENT_SEGMENT = line ∧
   file_bytes v' (dir s') PREVIOUS_SEGMENT = file_bytes v (dir s) CURRENT_SEGMENT ∧
   Z.of_nat (length (file_bytes v (dir s) CURRENT_SEGMENT)) + Z.of_nat (length line) > MAX_SEGMENT_BYTES).
Proof.
  pose proof segments_differ as Hne. unfold named, file_bytes. intros [Hcur Hprev] ->.
  intros [(c & Hc & -> & [He Hcv])|(f & Hf & Hfn & (c & Hc & Hlong) & [He Hcv])].
  - rewrite !He !Hcv /=. split; [done|]. left. rewrite Hcur /= Hc lookup_insert_eq. split; [done|].
    destruct (entries v (dir s) !! PREVIOUS_SEGMENT) as [p|]; [|done]. simpl. rewrite lookup_insert_ne; congruence.
  - rewrite Hcur in Hf. injection Hf as <-. rewrite !He !Hcv /=. rewrite !decide_True // !lookup_insert_eq.
    rewrite (lookup_insert_ne _ _ PREVIOUS_SEGMENT) // lookup_insert_eq. split; [split; [done|congruence]|]. right.
    simpl. rewrite Hcur /= lookup_insert_eq lookup_insert_ne // lookup_insert_ne //.
    by rewrite Hc.
Qed.

Lemma file_bytes_bounded s v :
  bounded s v → Z.of_nat (length (file_bytes v (dir s) CURRENT_SEGMENT)) ≤ MAX_SEGMENT_BYTES.
Proof.
  intros Hb. unfold file_bytes. destruct (entries v (dir s) !! CURRENT_SEGMENT) as [f|] eqn:Hf; [simpl|done].
  destruct (contents v !! f) as [c|] eqn:Hc; [|done]. apply (Hb f); [by right; left|done].
Qed.

(** No segment outgrows its bound of one mebibyte: whatever was in the directory before,
    after the storage was opened no sequence of appends gets there, whichever of them fail
    and at whichever system call. *)
Theorem journal_segments_bounded path w s w' es f c :
  storage_open path w = (Ok s, w') →
  let '(s', w'') := run_appends es (s, w') in
  segment s' (jview w'') f → contents (jview w'') !! f = Some c → Z.of_nat (length c) ≤ MAX_SEGMENT_BYTES.
Proof.
  intros [Hb _]%storage_open_spec. apply (run_appends_bounded es) in Hb.
  destruct (run_appends es (s, w')) as [s' w'']. apply Hb.
Qed.

(** C10: An event that was acknowledged survives a restart: when the current segment ends in a
    whole line, a successful append makes every later load answer what it answered before with
    the event added.  Only an append for which the current segment has no room left, the line
    of the event included, rotates the segments: the load then answers the events of the
    former current segment with the event added.  And the segment ends in a whole line again. *)
Theorem acknowledged_event_survives_restart e s w rotated s' w' :
  bounded s (jview w) → named s (jview w) → clean (file_bytes (jview w) (dir s) CURRENT_SEGMENT) →
  (∀ json, to_vec e = Some json → 0x0a ∉ json) → validate_and_sanitize_loaded parse e = Some (e, false) →
  append e (s, w) = (Ok rotated, (s', w')) →
  let before := disk_loaded parse (jview w) (dir s) in
  let former := load_bytes parse (file_bytes (jview w) (dir s) CURRENT_SEGMENT) no_events in
  let after := disk_loaded parse (jview w') (dir s') in
  (∃ json, to_vec e = Some json ∧
    let full := MAX_SEGMENT_BYTES <? Z.of_nat (length (file_bytes (jview w) (dir s) CURRENT_SEGMENT)) + (Z.of_nat (length json) + 1) in
    events after = (if full then events former else events before) ++ [e]) ∧
  (degraded after = true → degraded before = true) ∧
  (∀ l w'', load_all parse s' w' = (Ok l, w'') → l = after) ∧
  bounded s' (jview w') ∧ named s' (jview w') ∧ clean (file_bytes (jview w') (dir s') CURRENT_SEGMENT).
Proof.
  intros Hb Hn Hcl Hone Hval Ha before former after. pose proof (append_spec e s w Hb) as Hsp. rewrite Ha in Hsp.
  destruct Hsp as (Hd & Hb' & Happ). destruct (Happ eq_refl) as (line & Hline & Happ'). clear Happ.
  destruct (to_json_line_length e line Hline) as (Hlen & json & Hjson & ->).
  specialize (Hone json Hjson). rewrite length_app /= in Hlen.
  assert (load_bytes parse (json ++ [0x0a]) no_events = {| events := [e]; degraded := false |}) as Hone_line.
  { unfold load_bytes. rewrite segment_lines_one //.
    destruct (Z.leb_spec (Z.of_nat (length json) + 1) MAX_EVENT_LINE_BYTES); [|lia].
    simpl. by rewrite (from_slice_to_vec e) //= Hval. }
  destruct (appended_bytes s _ _ s' _ Hn Hd Happ') as [Hn' Hbytes].
  assert (∀ bs loaded, clean bs → load_bytes parse (bs ++ json ++ [0x0a]) loaded =
    {| events := events (load_bytes parse bs loaded) ++ [e]; degraded := degraded (load_bytes parse bs loaded) |}) as Hext.
  { intros bs loaded Hbs. unfold load_bytes at 1. rewrite segment_lines_clean // foldl_app.
    change (foldl _ (foldl _ loaded (segment_lines bs)) (segment_lines (json ++ [0x0a])))
      with (load_bytes parse (json ++ [0x0a]) (load_bytes parse bs loaded)).
    rewrite load_bytes_from. unfold no_events in Hone_line. rewrite Hone_line. simpl. by rewrite orb_false_r. }
  subst before former after. unfold disk_loaded.
  split_and!; [| |by intros l w'' [-> _]%load_all_spec|done|done|].
  - exists json. split; [done|]. destruct Hbytes as [[Hc Hp]|(-> & -> & Hlong)].
    + pose proof (file_bytes_bounded s' _ Hb') as Hroom. rewrite Hc length_app length_app /= in Hroom.
      rewrite (proj2 (Z.ltb_ge _ _)); [|clear -Hroom; lia]. by rewrite Hc Hp Hext.
    + rewrite length_app /= in Hlong. rewrite (proj2 (Z.ltb_lt _ _)); [|clear -Hlong; lia].
      rewrite load_bytes_from. unfold no_events in *. by rewrite Hone_line.
  - destruct Hbytes as [[-> ->]|(-> & -> & _)]; [by rewrite Hext|].
    rewrite load_bytes_from. unfold no_events in *. rewrite Hone_line. simpl.
    rewrite orb_false_r (load_bytes_from parse _ (load_bytes _ _ _)) /=. intros ->. by rewrite orb_true_r.
  - right. destruct Hbytes as [[-> _]|(-> & _)]; [rewrite app_assoc|]; eauto.
Qed.

(** C11: After a torn write the next event is acknowledged and lost: when the current segment
    ends in a fragment without a newline, an append that does not rotate succeeds, so the
    writer answers [Persisted], but the line it wrote is glued to the fragment, and a restart
    loads the same events as before, without it. *)
Theorem torn_line_swallows_next_event e id snapshot s w c0 fragment json :
  bounded s (jview w) → named s (jview w) →
  file_bytes (jview w) (dir s) CURRENT_SEGMENT = c0 ++ fragment → clean c0 → fragment ≠ [] →
  0x0a ∉ fragment → to_vec e = Some json → 0x0a ∉ json → from_slice (T:=LifecycleEvent) (fragment ++ json) = None →
  Z.of_nat (length (c0 ++ fragment)) + Z.of_nat (length json) + 1 ≤ MAX_SEGMENT_BYTES →
  match handle_request parse {| req_event := e; acknowledgement := Some id |} snapshot (s, w) with
  | (_, answer, (s', w')) =>
    answer = Some (id, IoFailed) ∨
    answer = Some (id, Persisted) ∧
    events (disk_loaded parse (jview w') (dir s')) = events (disk_loaded parse (jview w) (dir s))
  end.
Proof.
  intros Hb Hn Hbytes Hcl Hfr Hnl Hjson Hone Hparse Hroom. unfold handle_request. cbn [req_event acknowledgement].
  pose proof (append_spec e s w Hb) as Hsp.
  destruct (append e (s, w)) as [[rotated|err] [s' w']]; [|by left].
  destruct Hsp as (Hd & Hb' & Happ). destruct (Happ eq_refl) as (line & Hline & Happ'). clear Happ.
  destruct (to_json_line_length e line Hline) as (Hlen & json' & Hjson' & ->). rewrite Hjson in Hjson'. injection Hjson' as <-.
  destruct (appended_bytes s _ _ s' _ Hn Hd Happ') as [Hn' [[Hc Hp]|(_ & _ & Hlong)]];
    [|rewrite Hbytes !length_app /= in Hlong; rewrite length_app in Hroom; lia].
  assert (events (disk_loaded parse (jview w') (dir s')) = events (disk_loaded parse (jview w) (dir s))) as Hsame.
  { unfold disk_loaded. rewrite Hc Hp Hbytes. rewrite !(load_bytes_from parse _ (load_bytes _ _ _)). simpl. f_equal.
    rewrite -app_assoc. unfold load_bytes.
    rewrite (segment_lines_clean c0 (fragment ++ json ++ [0x0a])) // (segment_lines_clean c0 fragment) // !foldl_app app_assoc.
    rewrite segment_lines_one; [|by apply not_elem_of_app].
    assert (segment_lines fragment = [Invalid]) as ->.
    { assert (position is_newline fragment = None) as Hnone.
      { apply position_None. intros x Hx. apply Z.eqb_neq. by intros ->. }
      apply (lines_from_app [] fragment []) in Hnone. rewrite app_nil_r in Hnone.
      unfold segment_lines. rewrite Hnone. simpl. by rewrite bool_decide_eq_false_2. }
    destruct (Z.of_nat (length (fragment ++ json)) + 1 <=? MAX_EVENT_LINE_BYTES); simpl; [|done].
    by rewrite Hparse. }
  destruct rotated; [|by right]. pose proof (load_all_reads parse s' w') as [He Hcv].
  destruct (load_all parse s' w') as [[l|err] w'']; (right; split; [done|]); rewrite -Hsame;
    unfold disk_loaded, file_bytes; simpl in He, Hcv; by rewrite !He !Hcv.
Qed.
End promises.
