(* ===== verification/Finalize.v ===== *)
(** [src/server.rs], the end of a session: [finalize_session], [publish_lifecycle_trigger],
    [publish_leader_reaped], the waiter thread with [wait_for_child_and_publish_reaped], and
    the termination of the process group ([terminate_process_group_for_request],
    [terminate_unreaped_process_group]), run by any number of threads against the
    publication of Lifecycle.v and the journal writer of JournalStorage.v.

    The threads interleave: a step of the system is one step of one thread, of the writer,
    of the clock, of the session's leader, or of the rest of the daemon (which shares the
    journal queue).  What a cleanup does to the session is recorded as the sequence of the
    calls it has returned from, and every signal to the process group as it is sent.  The
    mutex [session.child] is held over several steps; a round of the waiter's [try_wait] loop
    that finds the leader running leaves everything as it was and is not a step.

    The theorems: nothing of a session is destroyed and its group is not signalled before the
    claim of its end was answered or has timed out; the cleanup runs once, by one thread, in
    order; no signal is sent once the leader was reaped; an end reported as persisted was
    written; and every call returns. *)
From stdpp Require Import relations.
From S2P Require Import Prelude Utf8 Protocol EvidenceFs Lifecycle JournalEvents JournalStorage.

Definition public_trigger (t : FinalizeTrigger) : SessionExitTrigger :=
  match t with
  | FinLeaderExited => LeaderExited
  | FinCloseRequested => CloseRequested
  | FinDaemonShutdown => TriggerDaemonShutdown
  | FinParentCascade parent => ParentCascade parent
  end.

(** The calls of [finalize_session] between the two cleanup flags. *)
Inductive cleanup_call : Set :=
  | TerminateProcessGroup
  | CloseSubscribers
  | TerminateChildSessions
  | RemoveSession.
#[export] Instance cleanup_call_eq_dec : EqDecision cleanup_call.
Proof. solve_decision. Defined.

Definition cleanup_plan (t : FinalizeTrigger) : list cleanup_call :=
  (if bool_decide (t = FinLeaderExited) then [] else [TerminateProcessGroup]) ++
  [CloseSubscribers; TerminateChildSessions; RemoveSession].

(** ** The process group *)

Inductive group_signal : Set := SigHup | SigTerm | SigKill.

(** One call of [signal_process_group], or of [signal_unreaped_process_group] ([gs_residual]),
    and whether the leader, whose zombie keeps the group's number, was already reaped. *)
Record sent_signal : Set := { gs_signal : group_signal; gs_residual : bool; gs_leader_reaped : bool }.

(** The leader in the kernel, the flags of the session, the thread that holds
    [session.child], and the signals sent. *)
Record group_state : Set := {
  leader_exited : bool;
  kernel_reaped : bool;
  leader_exit_observed : bool;
  leader_was_reaped : bool;
  unreaped_cleanup_started : bool;
  child_held : option nat;
  group_log : list sent_signal;
}.

Definition group_idle : group_state :=
  {| leader_exited := false; kernel_reaped := false; leader_exit_observed := false; leader_was_reaped := false;
     unreaped_cleanup_started := false; child_held := None; group_log := [] |}.
Definition set_exited (g : group_state) (exited observed : bool) : group_state :=
  {| leader_exited := exited; kernel_reaped := kernel_reaped g; leader_exit_observed := observed;
     leader_was_reaped := leader_was_reaped g; unreaped_cleanup_started := unreaped_cleanup_started g;
     child_held := child_held g; group_log := group_log g |}.
Definition set_reaped (g : group_state) (kernel published : bool) (held : option nat) : group_state :=
  {| leader_exited := leader_exited g; kernel_reaped := kernel; leader_exit_observed := leader_exit_observed g;
     leader_was_reaped := published; unreaped_cleanup_started := unreaped_cleanup_started g;
     child_held := held; group_log := group_log g |}.
Definition set_held (g : group_state) (held : option nat) : group_state :=
  set_reaped g (kernel_reaped g) (leader_was_reaped g) held.
Definition set_ladder (g : group_state) (started : bool) (log : list sent_signal) : group_state :=
  {| leader_exited := leader_exited g; kernel_reaped := kernel_reaped g; leader_exit_observed := leader_exit_observed g;
     leader_was_reaped := leader_was_reaped g; unreaped_cleanup_started := started;
     child_held := child_held g; group_log := log |}.
Definition send (signal : group_signal) (residual : bool) (g : group_state) : group_state :=
  set_ladder g (unreaped_cleanup_started g)
    (group_log g ++ [{| gs_signal := signal; gs_residual := residual; gs_leader_reaped := kernel_reaped g |}]).

(** Where a thread that holds [session.child] is: in [terminate_process_group_for_request]
    ([Entered]), about to send one of its signals or waiting after it, in
    [terminate_unreaped_process_group] ([Residual], with [again] when the observation window
    follows), on its ladder, in that window, or about to return. *)
Inductive group_pc : Set :=
  | Entered
  | Signalling (signal : group_signal)
  | GroupWaiting (signal : group_signal)
  | Residual (again : bool)
  | Ladder (rest : list group_signal) (again : bool)
  | LastWindow
  | Leaving.

#[export] Instance group_signal_eq_dec : EqDecision group_signal.
Proof. solve_decision. Defined.
#[export] Instance group_pc_eq_dec : EqDecision group_pc.
Proof. solve_decision. Defined.

Definition next_signal (s : group_signal) : option group_signal :=
  match s with SigHup => Some SigTerm | SigTerm => Some SigKill | SigKill => None end.
Definition residual_ladder : list group_signal := [SigHup; SigTerm; SigKill].
Definition after_residual (again : bool) : group_pc := if again then LastWindow else Leaving.

(** One step of that thread; [group_exited] is what [kill(-pgid, 0)] said while it waited. *)
Definition group_step (group_exited : bool) (g : group_state) (at_ : group_pc) : option (group_pc * group_state) :=
  match at_ with
  | Entered =>
      Some (if leader_was_reaped g then Leaving else if leader_exit_observed g then Residual false else Signalling SigHup, g)
  | Signalling signal => Some (GroupWaiting signal, send signal false g)
  | GroupWaiting signal =>
      Some (if leader_exit_observed g then Residual true else if group_exited then LastWindow
            else if next_signal signal is Some signal' then Signalling signal' else LastWindow, g)
  | Residual again =>
      if leader_was_reaped g || unreaped_cleanup_started g then Some (after_residual again, g)
      else Some (Ladder residual_ladder again, set_ladder g true (group_log g))
  | Ladder (signal :: rest) again => Some (Ladder rest again, send signal true g)
  | Ladder [] again => Some (after_residual again, g)
  | LastWindow => Some (if leader_exit_observed g && negb (leader_was_reaped g) then Residual false else Leaving, g)
  | Leaving => None
  end.

(** ** The threads *)

(** Who called [publish_lifecycle_trigger]; the waiter before it reaps, when it has observed
    the leader's exit, and after it otherwise. *)
Inductive caller : Set := FromFinalize | FromWaiter (observed : bool).

(** Where a thread is. *)
Inductive pc : Set :=
  | Publishing (k : caller) (trigger : FinalizeTrigger)
  | Enqueuing (k : caller) (c : ClaimAttempt)
  | Waiting (k : caller) (c : ClaimAttempt)
  | Watching
  | Entering (c : ClaimAttempt)
  | Holding (c : ClaimAttempt) (at_ : group_pc)
  | Retrying (claim : option ClaimAttempt)
  | Storing (claim : option ClaimAttempt)
  | Reaped (c : ClaimAttempt)
  | WaitFailed
  | MarkingFailed
  | Sweeping (c : ClaimAttempt)
  | Cleaning (c : ClaimAttempt) (todo : list cleanup_call)
  | Terminating (c : ClaimAttempt) (at_ : group_pc) (todo : list cleanup_call)
  | AwaitingCleanup
  | Done
  | Unwound.

Record system : Type := {
  pub : LifecyclePublication;
  alive : bool;
  cleanup_started : bool;
  cleanup_complete : bool;
  cleanup_log : list cleanup_call;
  threads : list pc;
  clock : Z;
  (** [state.lifecycle_journal]: whether there is one, its queue ([None] once the writer is
      gone), the acknowledgement the writer is about to make, and the events it has appended. *)
  journal : bool;
  queue : option (list WriterRequest);
  acking : option (Uuid * WriteOutcome);
  written : list LifecycleEvent;
  grp : group_state;
}.

Definition set_thread (s : system) (i : nat) (t : pc) : system :=
  {| pub := pub s; alive := alive s; cleanup_started := cleanup_started s; cleanup_complete := cleanup_complete s;
     cleanup_log := cleanup_log s; threads := <[i := t]> (threads s); clock := clock s; journal := journal s;
     queue := queue s; acking := acking s; written := written s; grp := grp s |}.
Definition set_pub (s : system) (p : LifecyclePublication) (a : bool) : system :=
  {| pub := p; alive := a; cleanup_started := cleanup_started s; cleanup_complete := cleanup_complete s;
     cleanup_log := cleanup_log s; threads := threads s; clock := clock s; journal := journal s;
     queue := queue s; acking := acking s; written := written s; grp := grp s |}.
Definition set_cleanup (s : system) (started complete : bool) (log : list cleanup_call) : system :=
  {| pub := pub s; alive := alive s; cleanup_started := started; cleanup_complete := complete;
     cleanup_log := log; threads := threads s; clock := clock s; journal := journal s;
     queue := queue s; acking := acking s; written := written s; grp := grp s |}.
Definition set_queue (s : system) (q : option (list WriterRequest)) (a : option (Uuid * WriteOutcome))
    (es : list LifecycleEvent) : system :=
  {| pub := pub s; alive := alive s; cleanup_started := cleanup_started s; cleanup_complete := cleanup_complete s;
     cleanup_log := cleanup_log s; threads := threads s; clock := clock s; journal := journal s;
     queue := q; acking := a; written := es; grp := grp s |}.
Definition set_clock (s : system) (now : Z) : system :=
  {| pub := pub s; alive := alive s; cleanup_started := cleanup_started s; cleanup_complete := cleanup_complete s;
     cleanup_log := cleanup_log s; threads := threads s; clock := now; journal := journal s;
     queue := queue s; acking := acking s; written := written s; grp := grp s |}.

Definition set_group (s : system) (g : group_state) : system :=
  {| pub := pub s; alive := alive s; cleanup_started := cleanup_started s; cleanup_complete := cleanup_complete s;
     cleanup_log := cleanup_log s; threads := threads s; clock := clock s; journal := journal s;
     queue := queue s; acking := acking s; written := written s; grp := g |}.

Section finalize.
Context (instant_max : Z) (identity : LifecycleIdentity).

(** The rest of [publish_lifecycle_trigger] after the wait, in its caller. *)
Definition after_publish (k : caller) (c : ClaimAttempt) : pc :=
  match k with FromFinalize => Sweeping c | FromWaiter true => Entering c | FromWaiter false => Reaped c end.

(** [enqueue_claimed] of the claimant, or the resolution without a journal. *)
Definition enqueue_step (s : system) (c : ClaimAttempt) (claimed_at : Z) : system :=
  let event := trigger_claimed (event_id c) identity claimed_at (public_trigger (authoritative_trigger c)) in
  if journal s then
    let '(p, _, q) := enqueue_claimed event (event_id c) (pub s) {| events := []; degraded := false |} (queue s) in
    set_queue (set_pub s p (alive s)) q (acking s) (written s)
  else set_pub s (snd (resolve (event_id c) WriterUnavailable (pub s))) (alive s).

(** [publish_leader_reaped]; [claimed_at] is the time the claim stored. *)
Definition reap_step (s : system) (c : ClaimAttempt) (claimed_at : option Z) (now : Z) (code : Z) (signal : option str) : system :=
  match claimed_at with
  | Some at_ =>
    if journal s then
      let event := leader_reaped (event_id c) identity at_ now (public_trigger (authoritative_trigger c)) code signal in
      let '(_, _, q) := enqueue_event event {| events := []; degraded := false |} (queue s) in
      set_queue s q (acking s) (written s)
    else s
  | None => s
  end.

(** One step of thread [i] in [publish_lifecycle_trigger]. *)
Inductive publish_step (i : nat) (s : system) : system → Prop :=
  | step_claim k t id again c p a :
      threads s !! i = Some (Publishing k t) → claim instant_max id (clock s) again t (pub s, alive s) = (c, (p, a)) →
      publish_step i s (set_thread (set_pub s p a) i (if claimant c then Enqueuing k c else Waiting k c))
  | step_enqueue k c claimed_at :
      threads s !! i = Some (Enqueuing k c) →
      publish_step i s (set_thread (enqueue_step s c claimed_at) i (Waiting k c))
  | step_claimant_unwinds k c :
      threads s !! i = Some (Enqueuing k c) →
      publish_step i s (set_thread (set_pub s (drop_claim_resolution_guard (event_id c) true (pub s)) (alive s)) i Unwound)
  | step_wait k c r p :
      threads s !! i = Some (Waiting k c) → wait_round (clock s) (pub s) = (WaitReturns r, p) →
      publish_step i s (set_thread (set_pub s p (alive s)) i (after_publish k c)).

(** One step of the waiter: [wait_for_leader_exit_without_reaping], the claim of the leader's
    exit, [wait_for_child_and_publish_reaped], and what its outcome leads to.  A probe of the
    leader either reports its exit or fails; [try_wait] reaps an exited leader or fails. *)
Inductive waiter_step (i : nat) (s : system) : system → Prop :=
  | step_observe :
      threads s !! i = Some Watching → leader_exited (grp s) = true →
      waiter_step i s (set_thread (set_group s (set_exited (grp s) true true)) i (Publishing (FromWaiter true) FinLeaderExited))
  | step_probe_fails :
      threads s !! i = Some Watching → waiter_step i s (set_thread s i (Retrying None))
  | step_lock_child c :
      threads s !! i = Some (Entering c) → child_held (grp s) = None →
      waiter_step i s (set_thread (set_group s (set_held (grp s) (Some i))) i (Holding c (Residual false)))
  | step_waiter_group c at_ group_exited at' g :
      threads s !! i = Some (Holding c at_) → group_step group_exited (grp s) at_ = Some (at', g) →
      waiter_step i s (set_thread (set_group s g) i (Holding c at'))
  | step_try_reap c :
      threads s !! i = Some (Holding c Leaving) → leader_exited (grp s) = true →
      waiter_step i s (set_thread (set_group s (set_reaped (grp s) true (leader_was_reaped (grp s)) (Some i))) i (Storing (Some c)))
  | step_try_running c :
      threads s !! i = Some (Holding c Leaving) → leader_exited (grp s) = false →
      waiter_step i s (set_thread (set_group s (set_held (grp s) None)) i (Retrying (Some c)))
  | step_try_error c :
      threads s !! i = Some (Holding c Leaving) →
      waiter_step i s (set_thread (set_group s (set_held (grp s) None)) i WaitFailed)
  | step_poll_reap claim :
      threads s !! i = Some (Retrying claim) → child_held (grp s) = None → leader_exited (grp s) = true →
      waiter_step i s (set_thread (set_group s (set_reaped (grp s) true (leader_was_reaped (grp s)) (Some i))) i (Storing claim))
  | step_poll_error claim :
      threads s !! i = Some (Retrying claim) → child_held (grp s) = None →
      waiter_step i s (set_thread s i WaitFailed)
  | step_store claim :
      threads s !! i = Some (Storing claim) →
      waiter_step i s (set_thread (set_group s (set_reaped (grp s) (kernel_reaped (grp s)) true None)) i
                         (if claim is Some c then Reaped c else Publishing (FromWaiter false) FinLeaderExited))
  | step_reap c claimed_at now code signal :
      threads s !! i = Some (Reaped c) →
      waiter_step i s (set_thread (reap_step s c claimed_at now code signal) i (Publishing FromFinalize (authoritative_trigger c)))
  | step_wait_failed_ending t :
      threads s !! i = Some WaitFailed → authoritative_trigger_of (pub s) = Some t →
      waiter_step i s (set_thread s i (Publishing FromFinalize t))
  | step_wait_failed_healthy :
      threads s !! i = Some WaitFailed → authoritative_trigger_of (pub s) = None →
      waiter_step i s (set_thread s i MarkingFailed)
  | step_mark_failed r p :
      threads s !! i = Some MarkingFailed → mark_monitor_failed (pub s) = (r, p) →
      waiter_step i s (set_thread (set_pub s p (alive s)) i (if r is Ok _ then Done else Unwound)).

(** One step of [finalize_session] after the claim. *)
Inductive cleanup_step (i : nat) (s : system) : system → Prop :=
  | step_sweep_first c :
      threads s !! i = Some (Sweeping c) → cleanup_started s = false →
      cleanup_step i s (set_thread (set_cleanup s true (cleanup_complete s) (cleanup_log s)) i
                         (Cleaning c (cleanup_plan (authoritative_trigger c))))
  | step_sweep_later c :
      threads s !! i = Some (Sweeping c) → cleanup_started s = true →
      cleanup_step i s (set_thread s i AwaitingCleanup)
  | step_term_lock c todo :
      threads s !! i = Some (Cleaning c (TerminateProcessGroup :: todo)) → child_held (grp s) = None →
      cleanup_step i s (set_thread (set_group s (set_held (grp s) (Some i))) i (Terminating c Entered todo))
  | step_term_group c at_ todo group_exited at' g :
      threads s !! i = Some (Terminating c at_ todo) → group_step group_exited (grp s) at_ = Some (at', g) →
      cleanup_step i s (set_thread (set_group s g) i (Terminating c at' todo))
  | step_term_done c todo :
      threads s !! i = Some (Terminating c Leaving todo) →
      cleanup_step i s (set_thread (set_group (set_cleanup s (cleanup_started s) (cleanup_complete s)
                         (cleanup_log s ++ [TerminateProcessGroup])) (set_held (grp s) None)) i (Cleaning c todo))
  | step_terminator_unwinds c at_ todo :
      threads s !! i = Some (Terminating c at_ todo) →
      cleanup_step i s (set_thread (set_group (set_cleanup s (cleanup_started s) true (cleanup_log s))
                         (set_held (grp s) None)) i Unwound)
  | step_clean c call todo :
      threads s !! i = Some (Cleaning c (call :: todo)) → call ≠ TerminateProcessGroup →
      cleanup_step i s (set_thread (set_cleanup s (cleanup_started s) (cleanup_complete s) (cleanup_log s ++ [call])) i (Cleaning c todo))
  | step_clean_done c :
      threads s !! i = Some (Cleaning c []) →
      cleanup_step i s (set_thread (set_cleanup s (cleanup_started s) true (cleanup_log s)) i Done)
  | step_cleaner_unwinds c todo :
      threads s !! i = Some (Cleaning c todo) →
      cleanup_step i s (set_thread (set_cleanup s (cleanup_started s) true (cleanup_log s)) i Unwound)
  | step_await :
      threads s !! i = Some AwaitingCleanup → cleanup_complete s = true →
      cleanup_step i s (set_thread s i Done).

(** One step of thread [i]. *)
Inductive thread_step (i : nat) (s s' : system) : Prop :=
  | by_publishing : publish_step i s s' → thread_step i s s'
  | by_waiting : waiter_step i s s' → thread_step i s s'
  | by_cleaning : cleanup_step i s s' → thread_step i s s'.

(** The writer thread, the clock, the session's leader, and the rest of the daemon. *)
Inductive other_step (s : system) : system → Prop :=
  | step_tick d : 0 < d → other_step s (set_clock s (clock s + d))
  | step_leader_exits : other_step s (set_group s (set_exited (grp s) true (leader_exit_observed (grp s))))
  | step_append r q (ok : bool) :
      queue s = Some (r :: q) → acking s = None →
      other_step s (set_queue s (Some q) ((λ id, (id, if ok then Persisted else IoFailed)) <$> acknowledgement r)
                      (if ok then written s ++ [req_event r] else written s))
  | step_acknowledge id outcome :
      acking s = Some (id, outcome) →
      other_step s (set_queue (set_pub s (snd (resolve id outcome (pub s))) (alive s)) (queue s) None (written s))
  | step_writer_gone : other_step s (set_queue s None None (written s))
  | step_other_request r outcome q :
      acknowledgement r = None → enqueue r (queue s) = (outcome, q) →
      other_step s (set_queue s q (acking s) (written s)).

Definition step (s s' : system) : Prop := (∃ i, thread_step i s s') ∨ other_step s s'.

(** A healthy session; its waiter watches the leader, and other threads are about to end it,
    each for its own reason. *)
Definition starts (t : pc) : Prop :=
  match t with Publishing FromFinalize _ | Watching | Done => True | _ => False end.

Definition initial (s : system) : Prop :=
  pub s = LifecyclePublication_default ∧ alive s = true ∧ cleanup_started s = false ∧
  cleanup_complete s = false ∧ cleanup_log s = [] ∧ Forall starts (threads s) ∧
  grp s = group_idle ∧ acking s = None ∧ (∀ q r, queue s = Some q → r ∈ q → acknowledgement r = None).

Definition reachable (s : system) : Prop := ∃ s0, initial s0 ∧ rtc step s0 s.
End finalize.

(** ** Invariants *)

(** The claim a thread was answered with. *)
Definition holds (t : pc) : option ClaimAttempt :=
  match t with
  | Enqueuing _ c | Waiting _ c | Entering c | Holding c _ | Reaped c | Sweeping c | Cleaning c _ | Terminating c _ _ => Some c
  | Retrying claim | Storing claim => claim
  | _ => None
  end.

(** Threads past the wait for the resolution. *)
Definition past_barrier (t : pc) : bool :=
  match t with
  | Entering _ | Holding _ _ | Retrying (Some _) | Storing (Some _) | Reaped _ | Sweeping _ | Cleaning _ _
  | Terminating _ _ _ | AwaitingCleanup => true
  | _ => false
  end.

(** The cleanup a thread is in: its claim and the calls it has not returned from. *)
Definition cleaning (t : pc) : option (ClaimAttempt * list cleanup_call) :=
  match t with
  | Cleaning c todo => Some (c, todo)
  | Terminating c _ todo => Some (c, TerminateProcessGroup :: todo)
  | _ => None
  end.
Definition is_cleaning (t : pc) : bool := bool_decide (is_Some (cleaning t)).

(** The session's end was written: the claim event of the resolution is in the journal. *)
Definition claim_written (s : system) (id : Uuid) : Prop :=
  ∃ e, e ∈ written s ∧ ev_event_id e = id ∧ is_trigger_claimed e = true.

Record sys_inv (s : system) : Prop := {
  inv_wf : well_formed (pub s, alive s);
  inv_holds i t c : threads s !! i = Some t → holds t = Some c →
    authority (pub s) = Some (event_id c, authoritative_trigger c);
  inv_resolved i t : threads s !! i = Some t → past_barrier t = true → is_Some (resolution_of (pub s));
  inv_sweep_resolved : cleanup_started s = true → is_Some (resolution_of (pub s));
  inv_untouched : cleanup_started s = false →
    cleanup_log s = [] ∧ cleanup_complete s = false ∧
    ∀ i t, threads s !! i = Some t → cleaning t = None ∧ t ≠ AwaitingCleanup;
  inv_cleaner : cleanup_started s = true → cleanup_complete s = false →
    ∃ i t c todo, threads s !! i = Some t ∧ cleaning t = Some (c, todo) ∧
      cleanup_log s ++ todo = cleanup_plan (authoritative_trigger c) ∧
      ∀ j x, threads s !! j = Some x → is_Some (cleaning x) → j = i;
  inv_cleaned : cleanup_complete s = true →
    (∀ i t, threads s !! i = Some t → cleaning t = None) ∧
    ∃ id trigger, authority (pub s) = Some (id, trigger) ∧ cleanup_log s `prefix_of` cleanup_plan trigger;
}.

(** What the journal knows of this session's publication. *)
Record journal_inv (s : system) : Prop := {
  inv_queue q r id : queue s = Some q → r ∈ q → acknowledgement r = Some id →
    ev_event_id (req_event r) = id ∧ is_trigger_claimed (req_event r) = true;
  inv_acking id : acking s = Some (id, Persisted) → claim_written s id;
  inv_persisted r : resolution_of (pub s) = Some r → res_outcome r = Persisted → claim_written s (res_event_id r);
}.

(** ** Operations of the publication, seen from here *)

Lemma claim_authority instant_max id now again t p a c p' a' :
  claim instant_max id now again t (p, a) = (c, (p', a')) →
  authority p' = Some (event_id c, authoritative_trigger c) ∧
  (∀ r, resolution_of p' = Some r → resolution_of p = Some r).
Proof.
  unfold authority, resolution_of, claim. destruct (pub_state p) as [q|i' t' d|r] eqn:Hp.
  - by intros [= <- <- <-].
  - intros [= <- <- _]. case_bool_decide; simpl; by rewrite Hp.
  - intros [= <- <- _]. case_bool_decide; simpl; rewrite Hp; naive_solver.
Qed.

Lemma resolve_resolution id o p r :
  resolution_of (snd (resolve id o p)) = Some r →
  resolution_of p = Some r ∨ res_event_id r = id ∧ res_outcome r = o.
Proof.
  unfold resolution_of, resolve. destruct (pub_state p) as [q|i' t' d|r'] eqn:Hp; simpl; rewrite ?Hp //.
  - case_bool_decide; simpl; rewrite ?Hp //. intros [= <-]. by right.
  - auto.
Qed.

Lemma wait_round_resolution now p r p' :
  wait_round now p = (WaitReturns r, p') →
  resolution_of p' = Some r ∧ (resolution_of p = Some r ∨ res_outcome r = Timeout).
Proof.
  unfold resolution_of, wait_round. destruct (pub_state p) as [q|i' t' d|r'] eqn:Hp; [done|..].
  - destruct (d <=? now); [|done]. intros [= <- <-]. simpl. by auto.
  - intros [= <- <-]. rewrite Hp. by auto.
Qed.

Lemma enqueue_acknowledged r q o q' r' :
  enqueue r q = (o, q') → ∀ l', q' = Some l' → r' ∈ l' → (∃ l, q = Some l ∧ r' ∈ l) ∨ r' = r.
Proof.
  unfold enqueue. destruct q as [l|]; [|by intros [= <- <-]].
  destruct (WRITER_QUEUE_CAPACITY <=? length l)%nat; intros [= <- <-] l' [= <-]; [eauto|].
  rewrite elem_of_app list_elem_of_singleton. naive_solver.
Qed.

Section invariants.
Context (instant_max : Z) (identity : LifecycleIdentity).
Abbreviation tstep := (thread_step instant_max identity).
Abbreviation sstep := (step instant_max identity).

(** What the enqueue of the claim and of the reaping do. *)
Lemma enqueue_step_spec s c at_ :
  let s' := enqueue_step identity s c at_ in
  threads s' = threads s ∧ alive s' = alive s ∧ cleanup_started s' = cleanup_started s ∧
  cleanup_complete s' = cleanup_complete s ∧ cleanup_log s' = cleanup_log s ∧ acking s' = acking s ∧
  written s' = written s ∧ grp s' = grp s ∧
  (pub s' = pub s ∨ ∃ o, pub s' = snd (resolve (event_id c) o (pub s)) ∧ o ≠ Persisted) ∧
  (∀ q r, queue s' = Some q → r ∈ q → (∃ q0, queue s = Some q0 ∧ r ∈ q0) ∨
    ev_event_id (req_event r) = event_id c ∧ is_trigger_claimed (req_event r) = true ∧ acknowledgement r = Some (event_id c)).
Proof.
  unfold enqueue_step. destruct (journal s).
  - unfold enqueue_claimed. destruct (enqueue _ (queue s)) as [o q] eqn:Hq.
    pose proof (λ r', enqueue_acknowledged _ _ _ _ r' Hq) as Hack.
    destruct o; simpl; split_and!; try done; try (right; eexists; split; [reflexivity|done]); try (by left);
      intros q' r -> Hr; (destruct (Hack r q' eq_refl Hr) as [?| ->]; [by left|by right]).
  - simpl. split_and!; try done; [right; by eexists|]. intros q r Hq Hr. left. eauto.
Qed.

Lemma reap_step_spec s c claimed_at now code signal :
  let s' := reap_step identity s c claimed_at now code signal in
  pub s' = pub s ∧ threads s' = threads s ∧ alive s' = alive s ∧ cleanup_started s' = cleanup_started s ∧
  cleanup_complete s' = cleanup_complete s ∧ cleanup_log s' = cleanup_log s ∧ acking s' = acking s ∧
  written s' = written s ∧ grp s' = grp s ∧
  (∀ q r, queue s' = Some q → r ∈ q → (∃ q0, queue s = Some q0 ∧ r ∈ q0) ∨ acknowledgement r = None).
Proof.
  unfold reap_step. destruct claimed_at as [at_|]; [|split_and!; try done; eauto].
  destruct (journal s); [|split_and!; try done; eauto].
  unfold enqueue_event. destruct (enqueue _ (queue s)) as [o q] eqn:Hq.
  pose proof (λ r', enqueue_acknowledged _ _ _ _ r' Hq) as Hack.
  destruct o; simpl; split_and!; try done;
    intros q' r -> Hr; (destruct (Hack r q' eq_refl Hr) as [?| ->]; [by left|by right]).
Qed.

(** Every step makes at most one call on the publication. *)
Lemma thread_step_pub i s s' :
  tstep i s s' →
  (pub s', alive s') = (pub s, alive s) ∨ ∃ call, (pub s', alive s') = run_call instant_max call (pub s, alive s).
Proof.
  destruct 1 as [[k t id again c p a _ Hc|k c at_ _|k c _|k c r p _ Hw]
    |[| | | | | | | | | |c at_ now code signal _| | |r p _ Hm]
    |[| | | | | | | | |]]; simpl; try by left.
  - right. exists (CallClaim id (clock s) again t). cbn [run_call]. by rewrite Hc.
  - destruct (enqueue_step_spec s c at_) as (_ & -> & _ & _ & _ & _ & _ & _ & [->|(o & -> & _)] & _); [by left|].
    right. by exists (CallResolve (event_id c) o).
  - right. by exists (CallDropGuard (event_id c) true).
  - right. exists (CallWaitRound (clock s)). cbn [run_call fst snd]. by rewrite Hw.
  - destruct (reap_step_spec s c at_ now code signal) as (-> & _ & -> & _). by left.
  - right. exists CallMarkMonitorFailed. cbn [run_call fst snd]. by rewrite Hm.
Qed.

Lemma other_step_pub s s' :
  other_step s s' →
  (pub s', alive s') = (pub s, alive s) ∨ ∃ call, (pub s', alive s') = run_call instant_max call (pub s, alive s).
Proof. destruct 1 as [| | |id o _| |]; try by left. right. by exists (CallResolve id o). Qed.

Lemma step_pub s s' :
  sstep s s' → progresses (pub s) (pub s') ∧ (well_formed (pub s, alive s) → well_formed (pub s', alive s')).
Proof.
  intros Hs. assert ((pub s', alive s') = (pub s, alive s) ∨ ∃ call, (pub s', alive s') = run_call instant_max call (pub s, alive s))
    as [[= -> ->]|[call Heq]].
  { destruct Hs as [[i Hs]|Hs]; [by eapply thread_step_pub|by apply other_step_pub]. }
  - done.
  - rewrite Heq. split; [|apply run_call_well_formed].
    change (pub s') with (fst (pub s', alive s')). rewrite Heq. apply (run_call_progresses instant_max call (pub s, alive s)).
Qed.

(** What a thread still has to do, at most; in the termination of the group first. *)
Definition group_work (at_ : group_pc) : nat :=
  match at_ with
  | Entered => 18
  | Signalling SigHup => 17
  | GroupWaiting SigHup => 16
  | Signalling SigTerm => 15
  | GroupWaiting SigTerm => 14
  | Signalling SigKill => 13
  | GroupWaiting SigKill => 12
  | Residual true => 11
  | Ladder rest true => 7 + length rest
  | LastWindow => 6
  | Residual false => 5
  | Ladder rest false => 1 + length rest
  | Leaving => 0
  end.
Definition work (t : pc) : nat :=
  match t with
  | Watching => 128
  | Publishing (FromWaiter true) _ => 127
  | Enqueuing (FromWaiter true) _ => 126
  | Waiting (FromWaiter true) _ => 125
  | Entering _ => 124
  | Holding _ at_ => 100 + group_work at_
  | Retrying _ => 99
  | Storing _ => 98
  | Publishing (FromWaiter false) _ => 97
  | Enqueuing (FromWaiter false) _ => 96
  | Waiting (FromWaiter false) _ => 95
  | Reaped _ | WaitFailed => 94
  | Publishing FromFinalize _ => 93
  | Enqueuing FromFinalize _ => 92
  | Waiting FromFinalize _ => 91
  | Sweeping _ => 90
  | Cleaning _ todo => 2 + 20 * length todo
  | Terminating _ at_ todo => 3 + 20 * length todo + group_work at_
  | MarkingFailed | AwaitingCleanup => 1
  | Done | Unwound => 0
  end.
Definition total_work (s : system) : nat := sum_list_with work (threads s).
Definition finished (t : pc) : Prop := work t = 0%nat.

Lemma group_step_work group_exited g at_ at' g' :
  group_step group_exited g at_ = Some (at', g') → (group_work at' < group_work at_)%nat.
Proof.
  destruct at_ as [|[]|[]|[]|[|sg rest] []| |]; simpl; intros H; repeat case_match; simplify_eq; simpl; lia.
Qed.

(** How a step moves its thread and the cleanup. *)
Definition cleanup_of (s : system) : bool * bool * list cleanup_call :=
  (cleanup_started s, cleanup_complete s, cleanup_log s).

Definition cleanup_moves (s s' : system) (t t' : pc) : Prop :=
  (cleanup_of s' = cleanup_of s ∧ cleaning t' = cleaning t ∧ (t' = AwaitingCleanup → cleanup_started s = true)) ∨
  (∃ c, t = Sweeping c ∧ t' = Cleaning c (cleanup_plan (authoritative_trigger c)) ∧ cleanup_started s = false ∧
    cleanup_of s' = (true, cleanup_complete s, cleanup_log s)) ∨
  (∃ c call todo, cleaning t = Some (c, call :: todo) ∧ cleaning t' = Some (c, todo) ∧
    cleanup_of s' = (cleanup_started s, cleanup_complete s, cleanup_log s ++ [call])) ∨
  (∃ c todo, cleaning t = Some (c, todo) ∧ cleaning t' = None ∧ t' ≠ AwaitingCleanup ∧
    cleanup_of s' = (cleanup_started s, true, cleanup_log s)).

Lemma thread_step_moves i s s' :
  tstep i s s' →
  ∃ t t', threads s !! i = Some t ∧ threads s' = <[i := t']> (threads s) ∧
    (∀ c, holds t' = Some c → holds t = Some c ∨ authority (pub s') = Some (event_id c, authoritative_trigger c)) ∧
    (past_barrier t' = true → past_barrier t = true ∨ is_Some (resolution_of (pub s'))) ∧
    (work t' < work t)%nat ∧ cleanup_moves s s' t t'.
Proof.
  destruct 1 as [[k t id again c p a Ht Hc|k c at_ Ht|k c Ht|k c r p Ht Hw]
    |[Ht Hx|Ht|c Ht Hk|c at_ ex at' g Ht Hg|c Ht Hx|c Ht Hx|c Ht
    |cl Ht Hk Hx|cl Ht Hk|cl Ht|c at_ now code signal Ht|t Ht _|Ht _|r p Ht Hm]
    |[c Ht Hst|c Ht Hst
    |c todo Ht Hk|c at_ todo ex at' g Ht Hg|c todo Ht|c at_ todo Ht|c call todo Ht Hne|c Ht|c todo Ht|Ht _]];
    eexists _, _; (split; [exact Ht|]); cbn [threads set_thread set_pub set_cleanup set_group pub holds past_barrier].
  - split; [done|]. apply claim_authority in Hc as [Hc _].
    destruct (claimant c), k as [|[]]; (split_and!; [intros c' [= <-]; by right|done|simpl; lia|left; by split_and!]).
  - destruct (enqueue_step_spec s c at_) as (-> & _ & Hs1 & Hs2 & Hs3 & _).
    split_and!; [done|by left|done|destruct k as [|[]]; simpl; lia|]. left. unfold cleanup_of. simpl. by rewrite Hs1 Hs2 Hs3.
  - split_and!; [done|done|done|destruct k as [|[]]; simpl; lia|]. left. by split_and!.
  - split; [done|]. apply wait_round_resolution in Hw as [Hw _].
    destruct k as [|[]]; (split_and!; [by left|by right; rewrite Hw|simpl; lia|left; by split_and!]).
  - split_and!; [done|done|done|simpl; lia|]. left. by split_and!.
  - split_and!; [done|done|done|simpl; lia|]. left. by split_and!.
  - split_and!; [done|by left|by left|simpl; lia|]. left. by split_and!.
  - apply group_step_work in Hg. split_and!; [done|by left|by left|simpl; lia|]. left. by split_and!.
  - split_and!; [done|by left|by left|simpl; lia|]. left. by split_and!.
  - split_and!; [done|by left|by left|simpl; lia|]. left. by split_and!.
  - split_and!; [done|done|done|simpl; lia|]. left. by split_and!.
  - split_and!; [done|by left|by left|simpl; lia|]. left. by split_and!.
  - split_and!; [done|done|done|simpl; lia|]. left. by split_and!.
  - split; [done|]. destruct cl as [c|]; (split_and!; [try done; by left|try done; by left|simpl; lia|left; by split_and!]).
  - destruct (reap_step_spec s c at_ now code signal) as (_ & -> & _ & Hs1 & Hs2 & Hs3 & _).
    split_and!; [done|done|done|simpl; lia|]. left. unfold cleanup_of. simpl. by rewrite Hs1 Hs2 Hs3.
  - split_and!; [done|done|done|simpl; lia|]. left. by split_and!.
  - split_and!; [done|done|done|simpl; lia|]. left. by split_and!.
  - split; [done|]. destruct r; (split_and!; [done|done|simpl; lia|left; by split_and!]).
  - split_and!; [done|by left|by left|unfold cleanup_plan; case_bool_decide; simpl; lia|]. right. left. by exists c.
  - split_and!; [done|done|by left|simpl; lia|]. left. by split_and!.
  - split_and!; [done|by left|by left|simpl; lia|]. left. by split_and!.
  - apply group_step_work in Hg. split_and!; [done|by left|by left|simpl; lia|]. left. by split_and!.
  - split_and!; [done|by left|by left|simpl; lia|]. right. right. left. by exists c, TerminateProcessGroup, todo.
  - split_and!; [done|done|done|simpl; lia|]. right. right. right. by exists c, (TerminateProcessGroup :: todo).
  - split_and!; [done|by left|by left|simpl; lia|]. right. right. left. by exists c, call, todo.
  - split_and!; [done|done|done|simpl; lia|]. right. right. right. by exists c, [].
  - split_and!; [done|done|done|simpl; lia|]. right. right. right. by exists c, todo.
  - split_and!; [done|done|done|simpl; lia|]. left. by split_and!.
Qed.

Lemma other_step_keeps s s' : other_step s s' → threads s' = threads s ∧ cleanup_of s' = cleanup_of s.
Proof. by destruct 1. Qed.

Lemma progresses_authority p p' a : progresses p p' → authority p = Some a → authority p' = Some a.
Proof. intros (H & _). apply H. Qed.
Lemma progresses_resolved p p' : progresses p p' → is_Some (resolution_of p) → is_Some (resolution_of p').
Proof. intros (_ & H & _) [r Hr]. eauto. Qed.

Lemma other_step_inv s s' : sys_inv s → other_step s s' → sys_inv s'.
Proof.
  intros [Hwf Hho Hre Hsr Hun Hcl Hcd] Hs. destruct (step_pub s s' (or_intror Hs)) as [Hp Hwf'].
  apply other_step_keeps in Hs as [Hth Hc]. injection Hc as Hc1 Hc2 Hc3. split.
  - by apply Hwf'.
  - rewrite Hth. intros i t c Hi Hc. eapply progresses_authority; [exact Hp|by eapply Hho].
  - rewrite Hth. intros i t Hi Hb. eapply progresses_resolved; [exact Hp|by eapply Hre].
  - rewrite Hc1. intros H. by eapply progresses_resolved; [|apply Hsr].
  - by rewrite Hc1 Hc2 Hc3 Hth.
  - by rewrite Hc1 Hc2 Hc3 Hth.
  - rewrite Hc2 Hc3 Hth. intros H. destruct (Hcd H) as [Hnc (id & tr & Ha & Hpre)]. split; [done|].
    exists id, tr. split; [|done]. by eapply progresses_authority.
Qed.

(** The thread in the cleanup is alone there. *)
Lemma cleaner_alone s i t c todo :
  sys_inv s → threads s !! i = Some t → cleaning t = Some (c, todo) →
  cleanup_started s = true ∧ cleanup_complete s = false ∧
  cleanup_log s ++ todo = cleanup_plan (authoritative_trigger c) ∧
  ∀ j x, threads s !! j = Some x → is_Some (cleaning x) → j = i.
Proof.
  intros Hinv Hi Hct. assert (cleanup_started s = true) as Hst.
  { apply not_false_iff_true. intros H. destruct (inv_untouched s Hinv H) as (_ & _ & Hnone). destruct (Hnone i _ Hi). congruence. }
  assert (cleanup_complete s = false) as Hcomp.
  { apply not_true_iff_false. intros H. destruct (inv_cleaned s Hinv H) as [Hnc _]. specialize (Hnc i _ Hi). congruence. }
  destruct (inv_cleaner s Hinv Hst Hcomp) as (k & x & c' & todo' & Hk & Hx & Hlog & Huniq).
  assert (i = k) as <- by (eapply Huniq; [exact Hi|by rewrite Hct]). rewrite Hi in Hk. injection Hk as <-.
  rewrite Hct in Hx. by injection Hx as <- <-.
Qed.

(** The cleanup part of the invariant, along a move of thread [i]. *)
Lemma cleanup_moves_inv s s' i t t' :
  sys_inv s → threads s !! i = Some t → threads s' = <[i := t']> (threads s) → progresses (pub s) (pub s') →
  cleanup_moves s s' t t' →
  (cleanup_started s' = true → is_Some (resolution_of (pub s'))) ∧
  (cleanup_started s' = false →
    cleanup_log s' = [] ∧ cleanup_complete s' = false ∧
    ∀ i t, threads s' !! i = Some t → cleaning t = None ∧ t ≠ AwaitingCleanup) ∧
  (cleanup_started s' = true → cleanup_complete s' = false →
    ∃ i t c todo, threads s' !! i = Some t ∧ cleaning t = Some (c, todo) ∧
      cleanup_log s' ++ todo = cleanup_plan (authoritative_trigger c) ∧
      ∀ j x, threads s' !! j = Some x → is_Some (cleaning x) → j = i) ∧
  (cleanup_complete s' = true →
    (∀ i t, threads s' !! i = Some t → cleaning t = None) ∧
    ∃ id trigger, authority (pub s') = Some (id, trigger) ∧ cleanup_log s' `prefix_of` cleanup_plan trigger).
Proof.
  intros Hinv Hi Hth Hp Hmv. destruct (Hinv) as [Hwf Hho Hre Hsr Hun Hcl Hcd].
  assert (i < length (threads s))%nat as Hlt by by eapply lookup_lt_Some.
  assert (∀ j x, threads s' !! j = Some x → j = i ∧ x = t' ∨ j ≠ i ∧ threads s !! j = Some x) as Hlook.
  { intros j x. rewrite Hth. intros [(-> & -> & _)|[? ?]]%list_lookup_insert_Some; auto. }
  assert (threads s' !! i = Some t') as Hi' by by rewrite Hth list_lookup_insert_eq.
  assert (∀ j x, j ≠ i → threads s !! j = Some x → threads s' !! j = Some x) as Hother.
  { intros j x Hj Hx. by rewrite Hth list_lookup_insert_ne. }
  pose proof (λ c todo, cleaner_alone s i t c todo Hinv Hi) as Hcleaner.
  destruct Hmv as [(Hc & Ht & Haw)|[(c & -> & -> & Hst & Hc)|[(c & call & todo & Ht & Ht' & Hc)|(c & todo & Ht & Ht' & Haw & Hc)]]];
    injection Hc as -> -> ->.
  - split_and!.
    + intros H. by eapply progresses_resolved; [|apply Hsr].
    + intros H. destruct (Hun H) as (-> & -> & Hnone). split_and!; [done|done|].
      intros j x [[-> ->]|[_ Hx]]%Hlook; [|by apply (Hnone j)]. rewrite Ht. split; [by apply (Hnone i)|].
      intros Hx. rewrite Haw // in H.
    + intros H1 H2. destruct (Hcl H1 H2) as (k & x & c & todo & Hk & Hx & Hlog & Huniq).
      destruct (decide (k = i)) as [->|Hki].
      * rewrite Hi in Hk. injection Hk as <-. exists i, t', c, todo. split_and!; [done|by rewrite Ht|done|].
        intros j y [[-> ->]|[_ Hy]]%Hlook Hcy; [done|by eapply Huniq].
      * exists k, x, c, todo. split_and!; [by apply Hother|done|done|].
        intros j y [[-> ->]|[_ Hy]]%Hlook Hcy; [rewrite Ht in Hcy|]; by eapply Huniq.
    + intros H. destruct (Hcd H) as [Hnc (id & tr & Ha & Hpre)]. split.
      * intros j x [[-> ->]|[_ Hx]]%Hlook; [rewrite Ht|]; by eapply Hnc.
      * exists id, tr. split; [|done]. by eapply progresses_authority.
  - destruct (Hun Hst) as (Hlog & Hcomp & Hnone). rewrite Hlog Hcomp. split_and!; [|done| |done].
    + intros _. eapply progresses_resolved; [exact Hp|]. by eapply Hre.
    + intros _ _. exists i, (Cleaning c (cleanup_plan (authoritative_trigger c))), c, (cleanup_plan (authoritative_trigger c)).
      split_and!; [done..|]. intros j x [[-> _]|[_ Hx]]%Hlook [? Hcx]; [done|]. apply Hnone in Hx as [Hx _]. congruence.
  - destruct (Hcleaner _ _ Ht) as (Hst & Hcomp & Hlog & Huniq). rewrite Hst Hcomp. split_and!; [|done| |done].
    + intros _. by eapply progresses_resolved; [|apply Hsr].
    + intros _ _. exists i, t', c, todo. split_and!; [done|done|by rewrite -app_assoc|].
      intros j x [[-> _]|[_ Hx]]%Hlook Hcx; [done|by eapply Huniq].
  - destruct (Hcleaner _ _ Ht) as (Hst & Hcomp & Hlog & Huniq). rewrite Hst. split_and!; [|done|done|].
    + intros _. by eapply progresses_resolved; [|apply Hsr].
    + intros _. split.
      * intros j x [[-> ->]|[Hj Hx]]%Hlook; [done|]. apply eq_None_not_Some. intros Hcx. by apply Hj, (Huniq j x).
      * exists (event_id c), (authoritative_trigger c). split; [|by exists todo].
        eapply progresses_authority; [exact Hp|]. eapply Hho; [exact Hi|]. by destruct t; simplify_eq/=.
Qed.

Lemma thread_step_inv i s s' : sys_inv s → tstep i s s' → sys_inv s'.
Proof.
  intros Hinv Hs. destruct (step_pub s s') as [Hp Hwf']; [left; by exists i|].
  apply thread_step_moves in Hs as (t & t' & Hi & Hth & Hhold & Hbar & _ & Hmv).
  destruct (cleanup_moves_inv s s' i t t' Hinv Hi Hth Hp Hmv) as (H1 & H2 & H3 & H4).
  assert (∀ j x, threads s' !! j = Some x → j = i ∧ x = t' ∨ threads s !! j = Some x) as Hlook.
  { intros j x. rewrite Hth. intros [(-> & -> & _)|[? ?]]%list_lookup_insert_Some; auto. }
  split; try done.
  - apply Hwf', Hinv.
  - intros j x c [[-> ->]|Hx]%Hlook Hc.
    + destruct (Hhold c Hc) as [Ht|?]; [|done]. eapply progresses_authority; [exact Hp|]. by eapply (inv_holds s Hinv).
    + eapply progresses_authority; [exact Hp|]. by eapply (inv_holds s Hinv).
  - intros j x [[-> ->]|Hx]%Hlook Hb.
    + destruct (Hbar Hb) as [Ht|?]; [|done]. eapply progresses_resolved; [exact Hp|]. by eapply (inv_resolved s Hinv).
    + eapply progresses_resolved; [exact Hp|]. by eapply (inv_resolved s Hinv).
Qed.

Lemma initial_inv s : initial s → sys_inv s.
Proof.
  intros (Hp & Ha & Hs & Hc & Hl & Hth & _ & _).
  assert (∀ i t, threads s !! i = Some t → starts t) as Hst by (intros i t Hi; by eapply Forall_lookup_1 in Hth).
  split; rewrite ?Hp ?Ha ?Hs ?Hc ?Hl; try done.
  - intros i t c Hi Hh. apply Hst in Hi. by destruct t.
  - intros i t Hi Hb. apply Hst in Hi. by destruct t.
  - intros _. split_and!; [done|done|]. intros i t Hi. apply Hst in Hi. by destruct t.
Qed.

Lemma reachable_inv s : reachable instant_max identity s → sys_inv s.
Proof.
  intros (s0 & Hinit & Hrun). apply initial_inv in Hinit. induction Hrun as [|s1 s2 s3 [[i Hs]|Hs] _ IH]; [done|..].
  - apply IH. by eapply thread_step_inv.
  - apply IH. by eapply other_step_inv.
Qed.

(** ** The journal's side *)

Lemma claim_written_mono s s' id :
  (∀ e, e ∈ written s → e ∈ written s') → claim_written s id → claim_written s' id.
Proof. intros H (e & He & Hid). exists e. split; [by apply H|done]. Qed.

Lemma thread_step_journal i s s' : journal_inv s → tstep i s s' → journal_inv s'.
Proof.
  intros [Hq Hk Hp] Hs.
  assert (acking s' = acking s ∧ written s' = written s ∧
    (∀ r, resolution_of (pub s') = Some r → resolution_of (pub s) = Some r ∨ res_outcome r ≠ Persisted) ∧
    (∀ q r id, queue s' = Some q → r ∈ q → acknowledgement r = Some id → (∃ q0, queue s = Some q0 ∧ r ∈ q0) ∨
      ev_event_id (req_event r) = id ∧ is_trigger_claimed (req_event r) = true)) as (Ha & Hw & Hres & Hqs).
  { destruct Hs as [[k t id again c p a Ht Hc|k c at_ Ht|k c Ht|k c r p Ht Hw]
    |[| | | | | | | | | |c at_ now code signal Ht| | |r p Ht Hm]
    |[| | | | | | | | |]]; cbn [acking written queue set_thread set_pub set_cleanup set_group pub];
      try (split_and!; [done|done|by left|by left; eauto]).
    - apply claim_authority in Hc as [_ Hc]. split_and!; [done|done|by left; apply Hc|by left; eauto].
    - destruct (enqueue_step_spec s c at_) as (_ & _ & _ & _ & _ & -> & -> & _ & Hpub & Hqq). split_and!; [done|done| |].
      + destruct Hpub as [->|(o & -> & Ho)]; [by left|]. intros r [Hr|[_ Hr]]%resolve_resolution; [by left|right; congruence].
      + intros q r id Hqr Hr Hid. destruct (Hqq q r Hqr Hr) as [?|(He & Ht' & Hack)]; [by left|right].
        rewrite Hid in Hack. injection Hack as ->. done.
    - split_and!; [done|done| |by left; eauto]. intros r Hr. apply resolve_resolution in Hr as [Hr|[_ Hr]]; [by left|right; congruence].
    - split_and!; [done|done| |by left; eauto]. apply wait_round_resolution in Hw as [Hw Ho].
      intros r' Hr'. rewrite Hw in Hr'. injection Hr' as <-. destruct Ho as [?|Ho]; [by left|right; congruence].
    - destruct (reap_step_spec s c at_ now code signal) as (-> & _ & _ & _ & _ & _ & -> & -> & _ & Hqq). split_and!; [done|done|by left|].
      intros q r id Hqr Hr Hid. destruct (Hqq q r Hqr Hr) as [?|Hn]; [by left|congruence].
    - split_and!; [done|done| |by left; eauto]. intros r' Hr'. left. revert Hm Hr'. unfold mark_monitor_failed, resolution_of.
      destruct (pub_state (pub s)) as [[]| |] eqn:Hps; intros [= <- <-]; simpl; by rewrite ?Hps. }
  assert (∀ id, claim_written s' id ↔ claim_written s id) as Hcw by (intros id; unfold claim_written; by rewrite Hw).
  split.
  - intros q r id Hqr Hr Hid. destruct (Hqs q r id Hqr Hr Hid) as [(q0 & Hq0 & Hr0)|?]; [by eapply Hq|done].
  - intros id. rewrite Ha Hcw. apply Hk.
  - intros r Hr Ho. rewrite Hcw. destruct (Hres r Hr) as [?|?]; [by apply Hp|done].
Qed.

Lemma other_step_journal s s' : journal_inv s → other_step s s' → journal_inv s'.
Proof.
  intros [Hq Hk Hp] Hs. destruct Hs as [d _| |r q ok Hqs Hks|id o Hks| |r o q Hr Hqs]; split; simpl; try done.
  - intros q' r' id [= <-] Hr'. apply (Hq _ _ id Hqs). by right.
  - intros id. destruct (acknowledgement r) as [id'|] eqn:Hid; [|done]. destruct ok; [|done]. intros [= <-].
    destruct (Hq _ r id' Hqs) as [He Ht]; [by left|done|]. exists (req_event r). split; [|done]. simpl.
    apply elem_of_app. right. by apply list_elem_of_singleton.
  - intros r' Hr' Ho. eapply claim_written_mono; [|by apply Hp]. simpl. intros e He. destruct ok; [apply elem_of_app; by left|done].
  - intros r [Hr|[Hid Ho]]%resolve_resolution Hper; [by apply Hp|]. rewrite Hid. apply Hk. congruence.
  - intros q' r' id Hq' Hr' Hid. destruct (enqueue_acknowledged _ _ _ _ r' Hqs q' Hq' Hr') as [(q0 & Hq0 & Hr0)| ->]; [by eapply Hq|congruence].
Qed.

Lemma reachable_journal_inv s : reachable instant_max identity s → journal_inv s.
Proof.
  intros (s0 & Hinit & Hrun).
  assert (journal_inv s0) as Hinv.
  { destruct Hinit as (Hp & _ & _ & _ & _ & _ & _ & Ha & Hq). split.
    - intros q r id Hqs Hr Hid. specialize (Hq q r Hqs Hr). congruence.
    - by rewrite Ha.
    - by rewrite Hp. }
  clear Hinit. induction Hrun as [|s1 s2 s3 [[i Hs]|Hs] _ IH]; [done|..].
  - apply IH. by eapply thread_step_journal.
  - apply IH. by eapply other_step_journal.
Qed.
(** ** The process group's side *)

(** Where a thread that terminates the group is, and who holds [session.child]. *)
Definition group_of (t : pc) : option group_pc :=
  match t with Holding _ at_ | Terminating _ at_ _ => Some at_ | _ => None end.
Definition locks (t : pc) : bool :=
  match t with Holding _ _ | Terminating _ _ _ | Storing _ => true | _ => false end.

(** A thread sends, or goes on to send, without another look at [leader_reaped]. *)
Definition sends (at_ : group_pc) : bool :=
  match at_ with Signalling _ | GroupWaiting _ | Ladder _ _ => true | _ => false end.

(** The waiter only runs the residual ladder. *)
Definition residual_only (at_ : group_pc) : bool :=
  match at_ with Residual false | Ladder _ false | Leaving => true | _ => false end.

Definition residual_log (g : group_state) : list group_signal :=
  gs_signal <$> filter (λ x, gs_residual x = true) (group_log g).

(** How a step of thread [i] moves its pc and the group. *)
Inductive group_move (g : group_state) (i : nat) (t : pc) : group_state → pc → Prop :=
  | move_outside t' : locks t = false → locks t' = false → group_move g i t g t'
  | move_observe t' : locks t = false → locks t' = false → group_move g i t (set_exited g true true) t'
  | move_lock_waiter c : locks t = false → child_held g = None → group_move g i t (set_held g (Some i)) (Holding c (Residual false))
  | move_lock_cleaner c todo : locks t = false → child_held g = None → group_move g i t (set_held g (Some i)) (Terminating c Entered todo)
  | move_inside t' at_ at' ex g' :
      group_of t = Some at_ → group_step ex g at_ = Some (at', g') →
      (∃ c, t = Holding c at_ ∧ t' = Holding c at') ∨ (∃ c todo, t = Terminating c at_ todo ∧ t' = Terminating c at' todo) →
      group_move g i t g' t'
  | move_reap cl :
      group_of t = Some Leaving ∨ (locks t = false ∧ child_held g = None) →
      group_move g i t (set_reaped g true (leader_was_reaped g) (Some i)) (Storing cl)
  | move_store t' : locks t = true → group_of t = None → locks t' = false →
      group_move g i t (set_reaped g (kernel_reaped g) true None) t'
  | move_release t' : is_Some (group_of t) → locks t' = false → group_move g i t (set_held g None) t'.

Lemma thread_step_group i s s' :
  tstep i s s' → ∃ t t', threads s !! i = Some t ∧ threads s' = <[i := t']> (threads s) ∧ group_move (grp s) i t (grp s') t'.
Proof.
  destruct 1 as [[k t id again c p a Ht Hc|k c at_ Ht|k c Ht|k c r p Ht Hw]
    |[Ht Hx|Ht|c Ht Hk|c at_ ex at' g Ht Hg|c Ht Hx|c Ht Hx|c Ht
    |cl Ht Hk Hx|cl Ht Hk|cl Ht|c at_ now code signal Ht|t Ht _|Ht _|r p Ht Hm]
    |[c Ht Hst|c Ht Hst
    |c todo Ht Hk|c at_ todo ex at' g Ht Hg|c todo Ht|c at_ todo Ht|c call todo Ht Hne|c Ht|c todo Ht|Ht _]];
    eexists _, _; (split; [exact Ht|]).
  2: { destruct (enqueue_step_spec s c at_) as (Hth & _ & _ & _ & _ & _ & _ & Hg & _). simpl. rewrite Hth Hg. split; [done|by constructor]. }
  14: { destruct (reap_step_spec s c at_ now code signal) as (_ & Hth & _ & _ & _ & _ & _ & _ & Hg & _).
        simpl. rewrite Hth Hg. split; [done|by constructor]. }
  all: split; [reflexivity|]; simpl.
  1: by destruct (claimant c); constructor.
  2: by destruct k as [|[]]; constructor.
  all: try (by constructor); try (by eapply move_inside; [done|eassumption|eauto]); try (by apply move_reap; auto);
    try (by apply move_release); try (by destruct cl; apply move_store); by destruct r; constructor.
Qed.

Lemma group_step_frame ex g at_ at' g' :
  group_step ex g at_ = Some (at', g') →
  child_held g' = child_held g ∧ kernel_reaped g' = kernel_reaped g ∧ leader_was_reaped g' = leader_was_reaped g ∧
  (group_log g' = group_log g ∨ ∃ x, group_log g' = group_log g ++ [x] ∧ gs_leader_reaped x = kernel_reaped g ∧ sends at_ = true ∧
    (gs_residual x = false → ∃ sg, at_ = Signalling sg)) ∧
  (sends at' = true → leader_was_reaped g = false ∨ sends at_ = true) ∧
  (residual_only at_ = true → residual_only at' = true).
Proof.
  destruct at_ as [|sg|sg|[]|[|sg rest] []| |]; simpl; intros H; repeat case_match; simplify_eq/=;
    repeat match goal with H : _ || _ = false |- _ => apply orb_false_iff in H as [? ?] end;
    split_and!; try done; try (by left); try (by right); right; eexists; (split_and!; [reflexivity|done..|by eauto]).
Qed.

(** The mutex is held by the thread that is inside, and by no other. *)
Definition lock_inv (ths : list pc) (g : group_state) : Prop :=
  ∀ j, child_held g = Some j ↔ ∃ x, ths !! j = Some x ∧ locks x = true.

Lemma group_of_locks t at_ : group_of t = Some at_ → locks t = true.
Proof. by destruct t. Qed.

Lemma group_move_held g i t g' t' :
  group_move g i t g' t' →
  child_held g' = (if locks t' then Some i else if locks t then None else child_held g) ∨
  child_held g' = child_held g ∧ locks t = true ∧ locks t' = true.
Proof.
  destruct 1 as [t' Ht Ht'|t' Ht Ht'|c Ht Hk|c todo Ht Hk|t' at_ at' ex g' Ht Hg Hsame|cl Ht|t' Ht _ Ht'|t' [at_ Ht] Ht'];
    rewrite ?Ht ?Ht' //=; auto.
  - right. apply group_step_frame in Hg as [-> _]. by destruct Hsame as [(c & -> & ->)|(c & todo & -> & ->)].
  - rewrite (group_of_locks _ _ Ht). by left.
Qed.

Lemma group_move_free g i t g' t' : group_move g i t g' t' → locks t' = true → locks t = true ∨ child_held g = None.
Proof.
  destruct 1 as [t' Ht Ht'|t' Ht Ht'|c Ht Hk|c todo Ht Hk|t' at_ at' ex g' Ht Hg Hsame|cl [Ht|[_ Ht]]|t' Ht _ Ht'|t' [at_ Ht] Ht'];
    try congruence; eauto using group_of_locks.
Qed.

Lemma group_move_lock ths g i t g' t' :
  lock_inv ths g → ths !! i = Some t → group_move g i t g' t' → lock_inv (<[i := t']> ths) g'.
Proof.
  intros Hl Hi Hmv j. assert (i < length ths)%nat as Hlt by by eapply lookup_lt_Some.
  pose proof (group_move_held _ _ _ _ _ Hmv) as Hheld. pose proof (group_move_free _ _ _ _ _ Hmv) as Hfree.
  assert (locks t = true → child_held g = Some i) as Hme by (intros H; apply Hl; eauto).
  assert (child_held g' = if locks t' then Some i else if locks t then None else child_held g) as ->.
  { destruct Hheld as [?|(-> & Ht & ->)]; [done|by apply Hme]. }
  destruct (decide (j = i)) as [->|Hne].
  - rewrite list_lookup_insert_eq //. destruct (locks t') eqn:Ht'; [by split; eauto|].
    destruct (locks t) eqn:Ht; [|rewrite Hl]; (split; [|intros (x & [= <-] & ?); congruence]); [done|].
    intros (x & Hx & ?). congruence.
  - rewrite list_lookup_insert_ne //. destruct (locks t') eqn:Ht'.
    + rewrite -Hl. destruct (Hfree eq_refl) as [Ht|Hk]; [rewrite Hme //|rewrite Hk; split; congruence].
    + destruct (locks t) eqn:Ht; [|apply Hl]. rewrite -Hl Hme //. split; congruence.
Qed.

Lemma lock_unique ths g i j x y :
  lock_inv ths g → ths !! i = Some x → ths !! j = Some y → locks x = true → locks y = true → i = j.
Proof.
  intros Hl Hi Hj Hx Hy. assert (child_held g = Some i) as H1 by (apply Hl; eauto).
  assert (child_held g = Some j) as H2 by (apply Hl; eauto). congruence.
Qed.

(** What [leader_reaped] tells a thread inside, and the signals sent. *)
Record reap_inv (ths : list pc) (g : group_state) : Prop := {
  reap_told : kernel_reaped g = true → leader_was_reaped g = true ∨ ∃ j cl, ths !! j = Some (Storing cl);
  reap_sending j x at_ : ths !! j = Some x → group_of x = Some at_ → sends at_ = true → leader_was_reaped g = false;
  reap_sent : Forall (λ x, gs_leader_reaped x = false) (group_log g);
}.

Lemma group_move_told g i t g' t' :
  group_move g i t g' t' →
  (kernel_reaped g' = true → kernel_reaped g = true ∨ ∃ cl, t' = Storing cl) ∧
  (leader_was_reaped g' = leader_was_reaped g ∨ leader_was_reaped g' = true ∧ locks t = true ∧ group_of t' = None) ∧
  (∀ cl, t = Storing cl → leader_was_reaped g' = true) ∧
  (∀ at', group_of t' = Some at' → sends at' = true →
    leader_was_reaped g = false ∨ ∃ at_, group_of t = Some at_ ∧ sends at_ = true).
Proof.
  destruct 1 as [t' Ht Ht'|t' Ht Ht'|c Ht Hk|c todo Ht Hk|t' at_ at' ex g' Ht Hg Hsame|cl Ht|t' Ht Hn Ht'|t' [at_ Ht] Ht'].
  1,2: split_and!; [by left|by left|by intros cl ->|by intros at_ Hat%group_of_locks; congruence].
  1,2: split_and!; [by left|by left|by intros cl ->|by intros at_ [= <-]].
  - apply group_step_frame in Hg as (_ & -> & -> & _ & Hs & _). split_and!; [by left|by left|by intros cl ->|].
    intros at2 Hat Hsend. destruct (Hs) as [?|?]; [|by left|right; by exists at_].
    by destruct Hsame as [(c & -> & ->)|(c & todo & -> & ->)]; injection Hat as ->.
  - split_and!; [right; by exists cl|by left| |done]. intros cl' ->. by destruct Ht as [?|[? _]].
  - split_and!; [by left|right; split_and!; [done..|]|done|by intros at_ Hat%group_of_locks; congruence].
    destruct (group_of t') eqn:He; [|done]. apply group_of_locks in He. congruence.
  - split_and!; [by left|by left|by intros cl ->|by intros at2 Hat%group_of_locks; congruence].
Qed.

Lemma group_move_log g i t g' t' :
  group_move g i t g' t' →
  group_log g' = group_log g ∨ ∃ at_ x, group_of t = Some at_ ∧ group_log g' = group_log g ++ [x] ∧
    gs_leader_reaped x = kernel_reaped g ∧ sends at_ = true ∧ (gs_residual x = false → ∃ sg, at_ = Signalling sg).
Proof.
  destruct 1 as [t' Ht Ht'|t' Ht Ht'|c Ht Hk|c todo Ht Hk|t' at_ at' ex g' Ht Hg Hsame|cl Ht|t' Ht Hn Ht'|t' [at_ Ht] Ht']; try by left.
  apply group_step_frame in Hg as (_ & _ & _ & [?|(x & Hx)] & _); [by left|]. right. exists at_, x. naive_solver.
Qed.

Lemma sending_unreaped ths g i t at_ :
  lock_inv ths g → reap_inv ths g → ths !! i = Some t → group_of t = Some at_ → sends at_ = true → kernel_reaped g = false.
Proof.
  intros Hl Hr Hi Ht Hs. apply not_true_iff_false. intros Hk. pose proof (reap_sending _ _ Hr i t at_ Hi Ht Hs).
  destruct (reap_told _ _ Hr Hk) as [?|(j & cl & Hj)]; [congruence|].
  assert (i = j) as <- by (eapply (lock_unique ths g i j); [done..|by eapply group_of_locks|done]).
  rewrite Hi in Hj. by injection Hj as ->.
Qed.

Lemma group_move_reap ths g i t g' t' :
  lock_inv ths g → reap_inv ths g → ths !! i = Some t → group_move g i t g' t' → reap_inv (<[i := t']> ths) g'.
Proof.
  intros Hl Hr Hi Hmv. assert (i < length ths)%nat as Hlt by by eapply lookup_lt_Some.
  destruct (group_move_told _ _ _ _ _ Hmv) as (Hk & Hp & Hst & Hsend). split.
  - intros [Hold|[cl ->]]%Hk; [|right; exists i, cl; by rewrite list_lookup_insert_eq].
    destruct (reap_told _ _ Hr Hold) as [Hw|(j & cl & Hj)].
    + left. by destruct Hp as [-> |[? _]].
    + destruct (decide (j = i)) as [->|Hne]; [left; apply (Hst cl); congruence|].
      right. exists j, cl. by rewrite list_lookup_insert_ne.
  - intros j x at_ [(-> & -> & _)|[Hne Hj]]%list_lookup_insert_Some Hx Hs.
    + destruct Hp as [->|(_ & _ & Hn)]; [|congruence].
      destruct (Hsend _ Hx Hs) as [?|(at2 & Hat & Hs2)]; [done|by eapply (reap_sending _ _ Hr j)].
    + pose proof (reap_sending _ _ Hr j x at_ Hj Hx Hs). destruct Hp as [->|(_ & Hlk & _)]; [done|].
      destruct Hne. eapply (lock_unique ths g); [done..|by eapply group_of_locks].
  - destruct (group_move_log _ _ _ _ _ Hmv) as [-> |(at_ & x & Ht & -> & Hx & Hs & _)]; [apply Hr|].
    apply Forall_app. split; [apply Hr|]. constructor; [|done]. rewrite Hx. by eapply sending_unreaped.
Qed.

(** The residual ladder runs once, from its first rung. *)
Record ladder_inv (ths : list pc) (g : group_state) : Prop := {
  ladder_prefix : residual_log g `prefix_of` residual_ladder;
  ladder_fresh : unreaped_cleanup_started g = false → residual_log g = [];
  ladder_rung j x rest again : ths !! j = Some x → group_of x = Some (Ladder rest again) →
    unreaped_cleanup_started g = true ∧ residual_log g ++ rest = residual_ladder;
}.

Lemma residual_log_send g sg b :
  residual_log (send sg b g) = residual_log g ++ (if b then [sg] else []).
Proof. unfold residual_log. simpl. rewrite filter_app fmap_app. by destruct b. Qed.

Definition climbs (g : group_state) (o o' : option group_pc) (g' : group_state) : Prop :=
  (residual_log g' = residual_log g ∧ unreaped_cleanup_started g' = unreaped_cleanup_started g ∧
    ∀ rest again, o' ≠ Some (Ladder rest again)) ∨
  (∃ again, residual_log g' = residual_log g ∧ unreaped_cleanup_started g = false ∧
    unreaped_cleanup_started g' = true ∧ o' = Some (Ladder residual_ladder again)) ∨
  (∃ sg rest again, o = Some (Ladder (sg :: rest) again) ∧ o' = Some (Ladder rest again) ∧
    residual_log g' = residual_log g ++ [sg] ∧ unreaped_cleanup_started g' = unreaped_cleanup_started g).

Lemma group_step_climbs ex g at_ at' g' :
  group_step ex g at_ = Some (at', g') → climbs g (Some at_) (Some at') g'.
Proof.
  unfold climbs. destruct at_ as [|sg|sg|[]|[|sg rest] []| |]; simpl; intros H; repeat case_match; simplify_eq;
    repeat match goal with H : _ || _ = false |- _ => apply orb_false_iff in H as [? ?] end;
    rewrite ?residual_log_send ?app_nil_r; try (left; by split_and!); right; [left|left|right|right]; by repeat eexists.
Qed.

Lemma group_move_climbs g i t g' t' : group_move g i t g' t' → climbs g (group_of t) (group_of t') g'.
Proof.
  destruct 1 as [t' Ht Ht'|t' Ht Ht'|c Ht Hk|c todo Ht Hk|t' at_ at' ex g' Ht Hg Hsame|cl Ht|t' Ht Hn Ht'|t' Ht Ht'].
  5: { rewrite Ht. apply group_step_climbs in Hg. by destruct Hsame as [(c & -> & ->)|(c & todo & -> & ->)]. }
  all: left; split_and!; [done|done|]; intros rest again H; (done || (apply group_of_locks in H; congruence)).
Qed.

Lemma group_move_ladder ths g i t g' t' :
  lock_inv ths g → ladder_inv ths g → ths !! i = Some t → group_move g i t g' t' → ladder_inv (<[i := t']> ths) g'.
Proof.
  intros Hl [Hpre Hfresh Hrung] Hi [(Hlog & Hst & Hn)|[(again & Hlog & Hst & Hst' & Ht')|(sg & rest & again & Ht & Ht' & Hlog & Hst)]]%group_move_climbs;
    split; rewrite ?Hlog ?Hst ?Hst' //.
  - intros j x rest again [(-> & -> & _)|[Hne Hj]]%list_lookup_insert_Some Hx; [by apply Hn in Hx|by eapply Hrung].
  - intros j x rest again' [(-> & -> & _)|[Hne Hj]]%list_lookup_insert_Some Hx.
    + rewrite Ht' in Hx. injection Hx as <- _. by rewrite Hfresh.
    + destruct (Hrung _ _ _ _ Hj Hx). congruence.
  - destruct (Hrung _ _ _ _ Hi Ht) as [_ <-]. exists rest. by rewrite -app_assoc.
  - intros Hf. destruct (Hrung _ _ _ _ Hi Ht). congruence.
  - destruct (Hrung _ _ _ _ Hi Ht) as [Hs Heq].
    intros j x rest' again' [(-> & -> & _)|[Hne Hj]]%list_lookup_insert_Some Hx.
    + rewrite Ht' in Hx. injection Hx as <- _. by rewrite -app_assoc.
    + destruct Hne. by eapply (lock_unique ths g); [..|eapply group_of_locks|eapply group_of_locks].
Qed.

(** The group in a reachable state. *)
Record group_inv (s : system) : Prop := {
  inv_lock : lock_inv (threads s) (grp s);
  inv_reap : reap_inv (threads s) (grp s);
  inv_ladder : ladder_inv (threads s) (grp s);
  inv_waiter i c at_ : threads s !! i = Some (Holding c at_) → residual_only at_ = true;
  inv_signalled : group_log (grp s) ≠ [] → is_Some (resolution_of (pub s));
  inv_requested x : x ∈ group_log (grp s) → gs_residual x = false →
    ∃ id trigger, authority (pub s) = Some (id, trigger) ∧ trigger ≠ FinLeaderExited;
}.

Lemma group_move_waiter g i t g' t' :
  group_move g i t g' t' → (∀ c at_, t = Holding c at_ → residual_only at_ = true) →
  ∀ c at_, t' = Holding c at_ → residual_only at_ = true.
Proof.
  destruct 1 as [t' Ht Ht'|t' Ht Ht'|c Ht Hk|c todo Ht Hk|t' at_ at' ex g' Ht Hg Hsame|cl Ht|t' Ht Hn Ht'|t' Ht Ht'];
    intros Hold c2 at2 He; subst; try done; [by injection He as <- <-|].
  destruct Hsame as [(c & -> & [= <- <-])|(c & todo & -> & ?)]; [|done].
  apply group_step_frame in Hg as (_ & _ & _ & _ & _ & Hw). by eapply Hw, Hold.
Qed.

Lemma plan_unrequested log : log `prefix_of` cleanup_plan FinLeaderExited → TerminateProcessGroup ∉ log.
Proof.
  intros [k Hk] Hin. assert (TerminateProcessGroup ∈ cleanup_plan FinLeaderExited) as Hp.
  { rewrite Hk. apply elem_of_app. by left. }
  rewrite /cleanup_plan bool_decide_eq_true_2 //= !elem_of_cons elem_of_nil in Hp. naive_solver.
Qed.

Lemma plan_requested log rest trigger :
  log ++ TerminateProcessGroup :: rest = cleanup_plan trigger → trigger ≠ FinLeaderExited.
Proof.
  intros Heq ->. apply (plan_unrequested (log ++ TerminateProcessGroup :: rest)); [by rewrite Heq|].
  apply elem_of_app. right. by left.
Qed.

Lemma thread_step_group_inv i s s' : sys_inv s → group_inv s → tstep i s s' → group_inv s'.
Proof.
  intros Hs [Hl Hr Hla Hw Hsig Hreq] Hstep. destruct (step_pub s s') as [Hp _]; [left; by exists i|].
  apply thread_step_group in Hstep as (t & t' & Hi & Hth & Hmv).
  assert (∀ id tr, authority (pub s) = Some (id, tr) → authority (pub s') = Some (id, tr)) as Hauth
    by (intros id tr; by apply progresses_authority).
  split; rewrite ?Hth.
  - by eapply group_move_lock.
  - by eapply group_move_reap.
  - by eapply group_move_ladder.
  - intros j c at_ [(-> & -> & _)|[_ Hj]]%list_lookup_insert_Some; [|by eapply Hw].
    eapply group_move_waiter; [exact Hmv| |done]. intros c' at' ->. by eapply Hw.
  - intros Hne. eapply progresses_resolved; [exact Hp|].
    destruct (group_move_log _ _ _ _ _ Hmv) as [Heq|(at_ & x & Ht & _)]; [apply Hsig; congruence|].
    eapply (inv_resolved s Hs); [exact Hi|by destruct t].
  - intros x Hx Hres. assert (∃ id tr, authority (pub s) = Some (id, tr) ∧ tr ≠ FinLeaderExited) as (id & tr & Ha & Htr).
    { destruct (group_move_log _ _ _ _ _ Hmv) as [Heq|(at_ & y & Ht & Heq & _ & _ & Hy)]; rewrite Heq in Hx; [by eapply Hreq|].
      apply elem_of_app in Hx as [Hx| ->%list_elem_of_singleton]; [by eapply Hreq|].
      destruct (Hy Hres) as [sg ->]. destruct t as [| | | | |c at_| | | | | | | |c at_ todo| | |]; try done; injection Ht as ->.
      - by specialize (Hw i c _ Hi).
      - destruct (cleaner_alone s i _ c (TerminateProcessGroup :: todo) Hs Hi eq_refl) as (_ & _ & Hplan & _).
        exists (event_id c), (authoritative_trigger c). split; [by eapply (inv_holds s Hs)|by eapply (plan_requested (cleanup_log s))]. }
    exists id, tr. split; [by apply Hauth|done].
Qed.

Lemma other_step_group s s' :
  other_step s s' → grp s' = grp s ∨ grp s' = set_exited (grp s) true (leader_exit_observed (grp s)).
Proof. destruct 1; by [left|right]. Qed.

Lemma other_step_group_inv s s' : group_inv s → other_step s s' → group_inv s'.
Proof.
  intros [Hl Hr Hla Hw Hsig Hreq] Hstep. destruct (step_pub s s' (or_intror Hstep)) as [Hp _].
  assert (∀ id tr, authority (pub s) = Some (id, tr) → authority (pub s') = Some (id, tr)) as Hauth
    by (intros id tr; by apply progresses_authority).
  assert (lock_inv (threads s) (grp s') ∧ reap_inv (threads s) (grp s') ∧ ladder_inv (threads s) (grp s') ∧
    group_log (grp s') = group_log (grp s)) as (Hl' & Hr' & Hla' & Hlog).
  { destruct (other_step_group s s' Hstep) as [-> | ->]; split_and!; try done; [by destruct Hr|by destruct Hla]. }
  apply other_step_keeps in Hstep as [Hth _]. split; rewrite ?Hth ?Hlog //.
  - intros Hne. by eapply progresses_resolved; [exact Hp|apply Hsig].
  - intros x Hx Hres. destruct (Hreq x Hx Hres) as (id & tr & ? & ?). eauto.
Qed.

Lemma reachable_group_inv s : reachable instant_max identity s → group_inv s.
Proof.
  intros (s0 & Hinit & Hrun). pose proof (initial_inv s0 Hinit) as Hs0.
  assert (group_inv s0) as Hg0.
  { destruct Hinit as (_ & _ & _ & _ & _ & Hth & Hg & _).
    assert (∀ i t, threads s0 !! i = Some t → locks t = false) as Hn.
    { intros i t Hi. eapply Forall_lookup_1 in Hth; [|exact Hi]. by destruct t. }
    split; rewrite ?Hg; try done.
    - intros j. split; [done|]. intros (x & Hj & Hx). apply Hn in Hj. congruence.
    - split; [apply prefix_nil|done|]. intros j x rest again Hj Hx%group_of_locks. apply Hn in Hj. congruence.
    - intros i c at_ Hi%Hn. done.
    - intros x Hx%elem_of_nil. done. }
  clear Hinit. induction Hrun as [|s1 s2 s3 [[i Hs]|Hs] _ IH]; [done|..]; apply IH.
  - by eapply thread_step_inv.
  - by eapply thread_step_group_inv.
  - by eapply other_step_inv.
  - by eapply other_step_group_inv.
Qed.

End invariants.

(** ** What the protocol promises *)

Lemma reachable_plan instant_max identity s :
  reachable instant_max identity s → is_Some (resolution_of (pub s)) →
  ∃ id trigger, authority (pub s) = Some (id, trigger) ∧ alive s = false ∧ cleanup_log s `prefix_of` cleanup_plan trigger.
Proof.
  intros Hinv%reachable_inv [r Hr].
  assert (∃ id trigger, authority (pub s) = Some (id, trigger) ∧ cleanup_log s `prefix_of` cleanup_plan trigger) as (id & trigger & Ha & Hpre).
  { destruct (cleanup_started s) eqn:Hs.
    - destruct (cleanup_complete s) eqn:Hc; [by apply (inv_cleaned s Hinv Hc)|].
      destruct (inv_cleaner s Hinv Hs Hc) as (i & t & c & todo & Hi & Ht & Hlog & _).
      exists (event_id c), (authoritative_trigger c).
      split; [eapply (inv_holds s Hinv); [exact Hi|by destruct t; simplify_eq/=]|by exists todo].
    - destruct (inv_untouched s Hinv Hs) as [-> _]. unfold resolution_of, authority in *.
      destruct (pub_state (pub s)); try done. do 2 eexists. split; [done|apply prefix_nil]. }
  exists id, trigger. split_and!; [done| |done].
  destruct (inv_wf s Hinv) as (_ & Hal & _). simpl in Hal. rewrite Hal. unfold is_claimed, identity_commit_guard.
  unfold authority in Ha. by destruct (pub_state (pub s)).
Qed.

(** C8: Nothing of a session is destroyed, and its process group is not signalled, before the
    claim of its end is settled: in every reachable state in which the cleanup has begun or a
    signal was sent the publication is resolved and [alive] is down, and the calls made so far
    are an initial part of the plan for the trigger that was claimed first.  When that is the
    leader's exit, the group gets no signal but the residual ladder, which the waiter runs
    for the processes the leader left behind; whoever runs it, it is run at most once and in order,
    and no signal of either kind is sent after the leader was reaped, when the group's number
    may be another's.  No two threads clean; and every thread that was answered holds the
    same event and the same trigger, however many threads end the session at once. *)
Theorem finalize_barrier instant_max identity s :
  reachable instant_max identity s →
  (cleanup_started s = true ∨ cleanup_log s ≠ [] ∨ group_log (grp s) ≠ [] →
    ∃ id trigger r, authority (pub s) = Some (id, trigger) ∧ resolution_of (pub s) = Some r ∧
      alive s = false ∧ cleanup_log s `prefix_of` cleanup_plan trigger ∧
      (trigger = FinLeaderExited →
        TerminateProcessGroup ∉ cleanup_log s ∧ Forall (λ x, gs_residual x = true) (group_log (grp s)))) ∧
  residual_log (grp s) `prefix_of` [SigHup; SigTerm; SigKill] ∧
  Forall (λ x, gs_leader_reaped x = false) (group_log (grp s)) ∧
  (∀ i j ti tj, threads s !! i = Some ti → threads s !! j = Some tj →
    is_cleaning ti = true → is_cleaning tj = true → i = j) ∧
  (∀ i j ti tj ci cj, threads s !! i = Some ti → threads s !! j = Some tj →
    holds ti = Some ci → holds tj = Some cj →
    event_id ci = event_id cj ∧ authoritative_trigger ci = authoritative_trigger cj).
Proof.
  intros Hreach. pose proof (reachable_inv _ _ _ Hreach) as Hinv. pose proof (reachable_group_inv _ _ _ Hreach) as Hg.
  split_and!; [|apply Hg..| |].
  - intros Hst. assert (is_Some (resolution_of (pub s))) as Hres.
    { destruct Hst as [?|[Hlog|?]]; [by apply (inv_sweep_resolved s Hinv)| |by apply (inv_signalled s Hg)].
      apply (inv_sweep_resolved s Hinv), not_false_iff_true. intros Hf. by destruct (inv_untouched s Hinv Hf) as [? _]. }
    destruct (reachable_plan _ _ _ Hreach Hres) as (id & trigger & Ha & Hal & Hpre). destruct Hres as [r Hr].
    exists id, trigger, r. split_and!; [done..|]. intros ->. split.
    + intros Hin. by apply (plan_unrequested (cleanup_log s)).
    + apply Forall_forall. intros x Hx. apply not_false_iff_true. intros Hf.
      destruct (inv_requested s Hg x Hx Hf) as (id' & tr & Ha' & Hne). congruence.
  - intros i j ti tj Hi Hj Hci%bool_decide_eq_true Hcj%bool_decide_eq_true.
    destruct Hci as [[c todo] Hci]. destruct (cleaner_alone s i ti c todo Hinv Hi Hci) as (_ & _ & _ & Hu).
    by symmetry; eapply Hu.
  - intros i j ti tj ci cj Hi Hj Hci Hcj.
    pose proof (inv_holds s Hinv i ti ci Hi Hci) as H1. pose proof (inv_holds s Hinv j tj cj Hj Hcj) as H2.
    rewrite H1 in H2. by injection H2.
Qed.

(** An end that was published as persisted is in the journal: when the resolution says
    [Persisted], the writer has appended the claim event of that very claim, whatever the
    order in which the writer, the timeout of a waiter and an unwinding claimant came. *)
Theorem persisted_end_was_written instant_max identity s r :
  reachable instant_max identity s → resolution_of (pub s) = Some r → res_outcome r = Persisted →
  ∃ e, e ∈ written s ∧ ev_event_id e = res_event_id r ∧ is_trigger_claimed e = true.
Proof. intros Hinv%reachable_journal_inv Hr Hp. by apply (inv_persisted s Hinv). Qed.

Lemma sum_list_with_insert_lt {A} (f : A → nat) (l : list A) i x y :
  l !! i = Some x → (f y < f x)%nat → (sum_list_with f (<[i := y]> l) < sum_list_with f l)%nat.
Proof.
  revert i. induction l as [|z l IH]; intros [|i]; simpl; [done|done| |].
  - intros [= ->] ?. lia.
  - intros Hi Hlt. specialize (IH i Hi Hlt). lia.
Qed.

Lemma thread_step_work instant_max identity i s s' :
  thread_step instant_max identity i s s' → (total_work s' < total_work s)%nat.
Proof.
  intros (t & t' & Hi & Hth & _ & _ & Hw & _)%thread_step_moves. unfold total_work. rewrite Hth.
  by apply (sum_list_with_insert_lt _ _ _ t).
Qed.

Lemma other_steps_work s s' : rtc other_step s s' → total_work s' = total_work s.
Proof. induction 1 as [|s1 s2 s3 [Hth _]%other_step_keeps _ IH]; [done|]. rewrite IH. unfold total_work. by rewrite Hth. Qed.

(** Some thread can step, after the clock has moved to the deadline or the leader has exited
    if need be. *)
Definition may_step (instant_max : Z) (identity : LifecycleIdentity) (s : system) : Prop :=
  ∃ s1 i s', rtc other_step s s1 ∧ thread_step instant_max identity i s1 s'.

Section progress.
Context (instant_max : Z) (identity : LifecycleIdentity) (s : system).
Abbreviation may := (may_step instant_max identity s).

Lemma steps_now i s' : thread_step instant_max identity i s s' → may.
Proof. intros H. exists s, i, s'. by split. Qed.

Lemma steps_after_exit i s' :
  thread_step instant_max identity i (set_group s (set_exited (grp s) true (leader_exit_observed (grp s)))) s' → may.
Proof. intros H. eexists _, i, s'. split; [apply rtc_once, step_leader_exits|done]. Qed.

Lemma steps_after_tick d i s' : 0 ≤ d → thread_step instant_max identity i (set_clock s (clock s + d)) s' → may.
Proof.
  intros Hd H. destruct (decide (d = 0)) as [->|Hne].
  - rewrite Z.add_0_r in H. apply (steps_now i s'). by destruct s.
  - exists (set_clock s (clock s + d)), i, s'. split; [apply rtc_once, step_tick; lia|done].
Qed.

Lemma group_can_step at_ : at_ ≠ Leaving → ∃ at' g', group_step false (grp s) at_ = Some (at', g').
Proof.
  destruct at_ as [| | |again|[|sg rest] again| |]; simpl; try by eauto.
  destruct (leader_was_reaped (grp s) || unreaped_cleanup_started (grp s)); eauto.
Qed.

(** The thread that holds [session.child] can always go on. *)
Lemma holder_steps k : group_inv s → child_held (grp s) = Some k → may.
Proof.
  intros Hg Hk. apply (inv_lock s Hg) in Hk as (t & Hi & Ht).
  destruct t as [| | | | |c at_| |cl| | | | | |c at_ todo| | |]; try done.
  - destruct (decide (at_ = Leaving)) as [->|Hne].
    + eapply (steps_after_exit k), by_waiting, step_try_reap; [exact Hi|done].
    + destruct (group_can_step at_ Hne) as (at' & g' & Hstep). by eapply (steps_now k), by_waiting, step_waiter_group.
  - by eapply (steps_now k), by_waiting, step_store.
  - destruct (decide (at_ = Leaving)) as [->|Hne].
    + by eapply (steps_now k), by_cleaning, step_term_done.
    + destruct (group_can_step at_ Hne) as (at' & g' & Hstep). by eapply (steps_now k), by_cleaning, step_term_group.
Qed.

Lemma cleaner_steps i t c todo : group_inv s → threads s !! i = Some t → cleaning t = Some (c, todo) → may.
Proof.
  intros Hg Hi Ht. destruct t as [| | | | | | | | | | | |c' todo'|c' at_ todo'| | |]; try done; injection Ht as -> Htodo.
  - destruct todo' as [|call todo']; [by eapply (steps_now i), by_cleaning, step_clean_done|].
    destruct (decide (call = TerminateProcessGroup)) as [->|Hne]; [|by eapply (steps_now i), by_cleaning, step_clean].
    destruct (child_held (grp s)) as [k|] eqn:Hk; [by eapply holder_steps|by eapply (steps_now i), by_cleaning, step_term_lock].
  - apply (holder_steps i Hg). apply (inv_lock s Hg). eauto.
Qed.

Lemma waiter_of_resolution_steps i k c : sys_inv s → threads s !! i = Some (Waiting k c) → may.
Proof.
  intros Hinv Hi. pose proof (inv_holds s Hinv i _ c Hi eq_refl) as Ha. unfold authority in Ha.
  assert (∃ d r p, 0 ≤ d ∧ wait_round (clock s + d) (pub s) = (WaitReturns r, p)) as (d & r & p & Hd & Hw).
  { unfold wait_round. destruct (pub_state (pub s)) as [q|id tr d|r]; [done|..].
    - exists (Z.max 0 (d - clock s)). destruct (Z.leb_spec d (clock s + Z.max 0 (d - clock s))); [|lia].
      do 2 eexists. split; [lia|done].
    - exists 0. do 2 eexists. split; [lia|done]. }
  eapply (steps_after_tick d i); [done|]. eapply by_publishing, step_wait; [exact Hi|exact Hw].
Qed.

Lemma some_thread_steps : sys_inv s → group_inv s → ¬ Forall finished (threads s) → may.
Proof.
  intros Hinv Hg Hnf. apply not_Forall_Exists in Hnf; [|intros t; unfold finished; apply _].
  apply Exists_exists in Hnf as (t & Hin & Ht). apply list_elem_of_lookup in Hin as [i Hi].
  destruct t as [k tr|k c|k c| |c|c at_|cl|cl|c| | |c|c todo|c at_ todo| | |]; try (by destruct Ht).
  - destruct (claim instant_max 0 (clock s) 0 tr (pub s, alive s)) as [c [p a]] eqn:Hc. by eapply (steps_now i), by_publishing, step_claim.
  - by eapply (steps_now i), by_publishing, (step_enqueue _ _ i _ k c 0).
  - by eapply waiter_of_resolution_steps.
  - by eapply (steps_after_exit i), by_waiting, step_observe.
  - destruct (child_held (grp s)) as [k|] eqn:Hk; [by eapply holder_steps|by eapply (steps_now i), by_waiting, step_lock_child].
  - apply (holder_steps i Hg), (inv_lock s Hg). eauto.
  - destruct (child_held (grp s)) as [k|] eqn:Hk; [by eapply holder_steps|by eapply (steps_after_exit i), by_waiting, step_poll_reap].
  - apply (holder_steps i Hg), (inv_lock s Hg). eauto.
  - by eapply (steps_now i), by_waiting, (step_reap _ i _ c None 0 0 None).
  - destruct (authoritative_trigger_of (pub s)) as [tr|] eqn:Hat;
      [by eapply (steps_now i), by_waiting, step_wait_failed_ending|by eapply (steps_now i), by_waiting, step_wait_failed_healthy].
  - destruct (mark_monitor_failed (pub s)) as [r p] eqn:Hm. by eapply (steps_now i), by_waiting, step_mark_failed.
  - destruct (cleanup_started s) eqn:Hs; [by eapply (steps_now i), by_cleaning, step_sweep_later|by eapply (steps_now i), by_cleaning, step_sweep_first].
  - by eapply (cleaner_steps i).
  - by eapply (cleaner_steps i).
  - destruct (cleanup_complete s) eqn:Hc; [by eapply (steps_now i), by_cleaning, step_await|].
    assert (cleanup_started s = true) as Hs.
    { apply not_false_iff_true. intros Hf. destruct (inv_untouched s Hinv Hf) as (_ & _ & Hn). by destruct (Hn i _ Hi). }
    destruct (inv_cleaner s Hinv Hs Hc) as (k & t & c & todo & Hk & Ht' & _). by eapply (cleaner_steps k).
Qed.
End progress.

(** C9: Every call that ends a session returns: each step of a thread uses up a bounded amount
    of work, and from every reachable state, with the journal writer stuck or gone, the
    clock and the exit of the session's leader let all threads finish, with the cleanup
    completed if it had begun; nobody waits for ever on the publication, on [session.child]
    or on the thread that cleans. *)
Theorem finalize_completes instant_max identity s :
  reachable instant_max identity s →
  (∀ i s', thread_step instant_max identity i s s' → (total_work s' < total_work s)%nat) ∧
  ∃ s', rtc (step instant_max identity) s s' ∧ Forall finished (threads s') ∧
    (cleanup_started s' = true → cleanup_complete s' = true).
Proof.
  intros Hreach. split; [intros i s'; apply thread_step_work|].
  remember (total_work s) as n eqn:Hn. revert s Hreach Hn. induction (lt_wf n) as [n _ IH]. intros s Hreach ->.
  destruct (decide (Forall (λ t, work t = 0%nat) (threads s))) as [Hfin|Hnf].
  - exists s. split_and!; [constructor|done|]. intros Hs. apply not_false_iff_true. intros Hc.
    apply reachable_inv in Hreach as Hinv. destruct (inv_cleaner s Hinv Hs Hc) as (i & t & c & todo & Hi & Ht & _).
    eapply Forall_lookup_1 in Hfin; [|exact Hi]. by destruct t.
  - destruct (some_thread_steps instant_max identity s (reachable_inv _ _ _ Hreach) (reachable_group_inv _ _ _ Hreach) Hnf)
      as (s0 & i & s1 & Hother & Hs1).
    assert (rtc (step instant_max identity) s s1) as Hrun
      by (eapply rtc_r; [eapply rtc_subrel; [|exact Hother]; by right|left; by exists i]).
    destruct (IH (total_work s1)) with (s := s1) as (s' & Hs' & Hdone); [apply thread_step_work in Hs1; by rewrite -(other_steps_work s s0)| |done|].
    + destruct Hreach as (s2 & Hi & Hr). exists s2. split; [done|]. by etrans.
    + exists s'. split; [by etrans|done].
Qed.
