(* ===== verification/JournalScenario.v ===== *)
(** A journal directory in memory that keeps the laws of [JournalKernel], with a schedule of
    faults, one entry for each call: a call with a fault fails, a faulty write after the
    bytes the entry allows.  The theorems of Lifecycle.v, JournalEvents.v, JournalStorage.v
    and Finalize.v are applied to concrete inputs here. *)
From stdpp Require Import fin_maps gmap relations.
From S2P Require Import Prelude Utf8 Text Sanitize Protocol EvidenceFs SimKernel Lifecycle JournalEvents JournalStorage Finalize.

Record jsim : Type := {
  js_names : gmap leaf_name Z;
  js_contents : gmap Z (list byte);
  js_faults : list (option nat);
}.

(** The directory is descriptor 1. *)
Definition js_view (w : jsim) : fs_view :=
  {| entries := λ d, if decide (d = 1) then js_names w else ∅; contents := js_contents w |}.

Definition js_tick (w : jsim) : option nat * jsim :=
  match js_faults w with
  | [] => (None, w)
  | e :: es => (e, {| js_names := js_names w; js_contents := js_contents w; js_faults := es |})
  end.

(** A call that does [op] unless the schedule makes it do [bad]. *)
Definition js_call {A} (bad : nat → jsim → jsim) (op : M jsim errno A) : M jsim errno A := λ w,
  match js_tick w with
  | (Some k, w) => (Err EOTHER, bad k w)
  | (None, w) => op w
  end.
Definition nothing (k : nat) (w : jsim) : jsim := w.

Definition js_set_names (w : jsim) (names : gmap leaf_name Z) : jsim :=
  {| js_names := names; js_contents := js_contents w; js_faults := js_faults w |}.
Definition js_set_bytes (w : jsim) (f : Z) (bytes : list byte) : jsim :=
  {| js_names := js_names w; js_contents := <[f := bytes]> (js_contents w); js_faults := js_faults w |}.

(** A number above every file in use. *)
Definition js_fresh (w : jsim) : Z :=
  1 + foldr Z.max 1 ((map_to_list (js_names w)).*2 ++ (map_to_list (js_contents w)).*1).

Definition js_links (w : jsim) (f : Z) : Z :=
  Z.of_nat (length (List.filter (Z.eqb f) (map_to_list (js_names w)).*2)).

Definition js_fstat (f : Z) : M jsim errno Metadata := λ w,
  (Ok {| file_type := if f <=? 1 then Directory else RegularFile; m_uid := 1000;
         m_mode := if f <=? 1 then 448 else 384; m_nlink := js_links w f; m_dev := 1; m_ino := f |}, w).

Definition js_openat (d : Z) (l : leaf_name) (create writable : bool) : M jsim errno Z := λ w,
  match entries (js_view w) d !! l with
  | Some f => (Ok f, w)
  | None =>
    if create then
      if d =? 1 then
        let f := js_fresh w in (Ok f, js_set_bytes (js_set_names w (<[l := f]> (js_names w))) f [])
      else (Err EOTHER, w)
    else (Err ENOENT, w)
  end.

Definition js_len (f : Z) : M jsim errno Z := λ w,
  match js_contents w !! f with Some c => (Ok (Z.of_nat (length c)), w) | None => (Err EOTHER, w) end.
Definition js_set_len_0 (f : Z) : M jsim errno unit := λ w, (Ok tt, js_set_bytes w f []).

Definition js_write_some (f : Z) (bytes : list byte) (k : nat) (w : jsim) : jsim :=
  match js_contents w !! f with Some c => js_set_bytes w f (c ++ take k bytes) | None => w end.
Definition js_write (f : Z) (bytes : list byte) : M jsim errno unit := λ w,
  match js_contents w !! f with
  | Some c => (Ok tt, js_set_bytes w f (c ++ bytes))
  | None => (Err EOTHER, w)
  end.

Definition js_rename (d : Z) (from to : leaf_name) : M jsim errno unit := λ w,
  if negb (d =? 1) then (Err ENOENT, w) else
  match js_names w !! from with
  | Some f =>
    (Ok tt, if bool_decide (js_names w !! to = Some f) then w
            else js_set_names w (<[to := f]> (delete from (js_names w))))
  | None => (Err ENOENT, w)
  end.

(** The buffers of a reader: seven bytes at a time. *)
Fixpoint cut_fuel (fuel : nat) (bs : list byte) : reader :=
  match fuel, bs with
  | S fuel, _ :: _ => Ok (take 7 bs) :: cut_fuel fuel (drop 7 bs)
  | _, _ => []
  end.
Definition js_read (f n : Z) (w : jsim) : reader * jsim :=
  match js_tick w with
  | (Some _, w) => ([Err EOTHER], w)
  | (None, w) =>
    match js_contents w !! f with
    | Some c => let bs := take (Z.to_nat n) c in (cut_fuel (length bs) bs, w)
    | None => ([Err EOTHER], w)
    end
  end.

#[export] Instance jsim_ops : JournalOps jsim := {|
  j_euid := 1000;
  j_open_dir _ := js_call nothing (mret 1);
  j_openat d l c wr := js_call nothing (js_openat d l c wr);
  j_fstat f := js_call nothing (js_fstat f);
  j_len f := js_call nothing (js_len f);
  j_set_len_0 f := js_call nothing (js_set_len_0 f);
  j_write_all f bytes := js_call (js_write_some f bytes) (js_write f bytes);
  j_renameat d from to := js_call nothing (js_rename d from to);
  j_flock_nb _ := js_call nothing (mret tt);
  j_unlock _ w := w;
  j_read := js_read;
|}.

Lemma js_tick_view w e w' : js_tick w = (e, w') → js_names w' = js_names w ∧ js_contents w' = js_contents w.
Proof. unfold js_tick. by destruct (js_faults w); intros [= <- <-]. Qed.

Lemma js_view_ext w w' : js_names w' = js_names w → js_contents w' = js_contents w → js_view w' ≡ js_view w.
Proof. intros Hn Hc. split; [|done]. intros d. simpl. by rewrite Hn. Qed.

(** A call either met a fault, or ran on a world with the same files. *)
Lemma js_call_inv {A} bad (op : M jsim errno A) w r w' :
  js_call bad op w = (r, w') →
  ∃ w0, js_names w0 = js_names w ∧ js_contents w0 = js_contents w ∧
    (op w0 = (r, w') ∨ r = Err EOTHER ∧ ∃ k, w' = bad k w0).
Proof.
  unfold js_call. destruct (js_tick w) as [[k|] w0] eqn:Ht; apply js_tick_view in Ht as [Hn Hc].
  - intros [= <- <-]. eauto 10.
  - eauto 10.
Qed.

Lemma js_call_reads {A} (op : M jsim errno A) :
  (∀ w, js_view (snd (op w)) ≡ js_view w) → reads_only js_view (js_call nothing op).
Proof.
  intros Hop w. destruct (js_call nothing op w) as [r w'] eqn:Hc. simpl.
  apply js_call_inv in Hc as (w0 & Hn & Hcc & [Ho|(_ & k & ->)]); rewrite -(js_view_ext _ _ Hn Hcc); [|done].
  specialize (Hop w0). by rewrite Ho in Hop.
Qed.

Lemma js_fresh_free w : (∀ l, js_names w !! l ≠ Some (js_fresh w)) ∧ js_contents w !! js_fresh w = None.
Proof.
  assert (∀ x, x ∈ (map_to_list (js_names w)).*2 ++ (map_to_list (js_contents w)).*1 → x ≠ js_fresh w) as Hx.
  { intros x Hx%foldr_max_le. unfold js_fresh. lia. }
  split.
  - intros l Hl. eapply Hx; [|reflexivity]. apply elem_of_app. left.
    apply (list_elem_of_fmap_2 snd _ (l, js_fresh w)), elem_of_map_to_list, Hl.
  - apply eq_None_not_Some. intros [c Hc]. eapply Hx; [|reflexivity]. apply elem_of_app. right.
    apply (list_elem_of_fmap_2 fst _ (js_fresh w, c)), elem_of_map_to_list, Hc.
Qed.

(** A file with one link has one name. *)
Lemma js_links_one w f l l' :
  js_links w f = 1 → js_names w !! l = Some f → js_names w !! l' = Some f → l = l'.
Proof.
  unfold js_links. rewrite -!elem_of_map_to_list. intros Hone Hl Hl'.
  assert (∀ m : list (leaf_name * Z), NoDup m.*1 → (l, f) ∈ m → (l', f) ∈ m →
    length (List.filter (Z.eqb f) m.*2) = 1%nat → l = l') as Hgen.
  { clear. induction m as [|[k g] m IH]; [by intros _ ?%elem_of_nil|]. intros [Hk Hnd]%NoDup_cons. simpl.
    rewrite !elem_of_cons.
    assert (∀ k, (k, f) ∈ m → length (List.filter (Z.eqb f) m.*2) ≠ 0%nat) as Hpos.
    { intros k' Hin%(list_elem_of_fmap_2 snd) Hz%length_zero_iff_nil.
      assert (f ∈ List.filter (Z.eqb f) m.*2) as Hf by (apply elem_of_filter_bool; split; [done|apply Z.eqb_refl]).
      rewrite Hz in Hf. by apply elem_of_nil in Hf. }
    intros [Hq|Hl] [Hq'|Hl']; simplify_eq; [done|rewrite Z.eqb_refl /=..|]; intros Hlen.
    - destruct (Hpos _ Hl'). by injection Hlen.
    - destruct (Hpos _ Hl). by injection Hlen.
    - destruct (f =? g); [destruct (Hpos _ Hl); by injection Hlen|by apply IH]. }
  apply (Hgen _ (NoDup_fst_map_to_list _) Hl Hl'). lia.
Qed.

Lemma cut_fuel_spec fuel bs :
  (length bs ≤ fuel)%nat → Forall (λ c, c ≠ Ok []) (cut_fuel fuel bs) ∧ reader_bytes (cut_fuel fuel bs) = bs.
Proof.
  revert bs. induction fuel as [|fuel IH]; intros [|b bs] Hlen; simpl in *; try (by split); [lia|].
  destruct (IH (drop 6 bs)) as [Hp Hb]; [rewrite length_drop; lia|]. split.
  - by constructor.
  - unfold reader_bytes in *. simpl. rewrite Hb. by rewrite take_drop.
Qed.

#[export] Instance jsim_kernel : JournalKernel jsim.
Proof.
  refine {| jview := js_view |}.
  - intros p. by apply js_call_reads.
  - intros f. by apply js_call_reads.
  - intros f. apply js_call_reads. intros w. unfold js_len. by destruct (js_contents w !! f).
  - intros f. by apply js_call_reads.
  - done.
  - intros f n w. simpl. unfold js_read. destruct (js_tick w) as [[k|] w'] eqn:Ht; apply js_tick_view in Ht as [Hn Hc].
    + by apply js_view_ext.
    + destruct (js_contents w' !! f); by apply js_view_ext.
  - intros d l wr. apply js_call_reads. intros w. unfold js_openat. by destruct (entries (js_view w) d !! l).
  - intros d l wr w f w' (w0 & Hn & Hc & [Ho|[? _]])%js_call_inv; [|done]. revert Ho. unfold js_openat.
    destruct (js_view_ext _ _ Hn Hc) as [-> _]. by destruct (entries (js_view w) d !! l) eqn:He; intros [= <- <-].
  - intros d l wr w w' (w0 & Hn & Hc & [Ho|[? _]])%js_call_inv; [|done]. revert Ho. unfold js_openat.
    destruct (js_view_ext _ _ Hn Hc) as [-> _]. by destruct (entries (js_view w) d !! l).
  - intros d l wr w f w' (w0 & Hn & Hc & [Ho|[? _]])%js_call_inv; [|done]. revert Ho. unfold js_openat.
    destruct (js_view_ext _ _ Hn Hc) as [He Hcv]. rewrite He. destruct (entries (js_view w) d !! l) eqn:Hl.
    + intros [= <- <-]. left. split; [done|by apply js_view_ext].
    + destruct (Z.eqb_spec d 1) as [->|]; [|done]. intros [= <- <-]. right. destruct (js_fresh_free w0) as [Hf1 Hf2].
      split_and!; [done|by rewrite /= -Hc| |].
      * intros d' l'. rewrite -He. simpl. case_decide; [apply Hf1|by rewrite lookup_empty].
      * split; simpl; [|by rewrite Hc]. intros d'. by repeat case_decide; rewrite ?Hn.
  - intros d l wr w e w' (w0 & Hn & Hc & [Ho|[_ (k & ->)]])%js_call_inv; [|by apply js_view_ext]. revert Ho. unfold js_openat.
    destruct (entries (js_view w0) d !! l); [done|]. destruct (d =? 1); [done|]. intros [= _ <-]. by apply js_view_ext.
  - intros f w m w' d l l' (w0 & Hn & Hc & [[= <- _]|[? _]])%js_call_inv; [|done]. simpl. intros Hone.
    case_decide; [|by rewrite lookup_empty]. rewrite -Hn. by apply (js_links_one w0 f).
  - intros f w n w' (w0 & Hn & Hc & [Ho|[? _]])%js_call_inv; [|done]. revert Ho. unfold js_len. simpl. rewrite -Hc.
    destruct (js_contents w0 !! f) as [c|]; [|done]. intros [= <- _]. eauto.
  - intros f w w' (w0 & Hn & Hc & [[= <-]|[? _]])%js_call_inv; [|done]. split; simpl; [|by rewrite Hc].
    intros d. by rewrite Hn.
  - intros f w e w' (w0 & Hn & Hc & [?|[_ (k & ->)]])%js_call_inv; [done|by apply js_view_ext].
  - intros f bytes w w' (w0 & Hn & Hc & [Ho|[? _]])%js_call_inv; [|done]. revert Ho. unfold js_write. simpl. rewrite -Hc.
    destruct (js_contents w0 !! f) as [c|]; [|done]. intros [= <-]. exists c. split; [done|]. split; simpl; [|by rewrite Hc].
    intros d. by rewrite Hn.
  - intros f bytes w e w' (w0 & Hn & Hc & [Ho|[_ (k & ->)]])%js_call_inv.
    + revert Ho. unfold js_write. destruct (js_contents w0 !! f); [done|]. intros [= _ <-]. left. by apply js_view_ext.
    + unfold js_write_some. destruct (js_contents w0 !! f) as [c|] eqn:Hf; [|left; by apply js_view_ext].
      right. exists c, k. simpl. rewrite -Hc. split; [done|]. split; simpl; [|by rewrite Hc]. intros d. by rewrite Hn.
  - intros d from to w w' (w0 & Hn & Hc & [Ho|[? _]])%js_call_inv; [|done]. revert Ho. unfold js_rename.
    destruct (Z.eqb_spec d 1) as [->|]; [|done]. simpl. rewrite -Hn. destruct (js_names w0 !! from) as [f|]; [|done].
    intros [= <-]. exists f. split; [done|]. case_bool_decide; [left; split; [done|by apply js_view_ext]|].
    right. split; simpl; [|done]. intros d. by repeat case_decide.
  - intros d from to w e w' (w0 & Hn & Hc & [Ho|[_ (k & ->)]])%js_call_inv; [|by apply js_view_ext]. revert Ho. unfold js_rename.
    destruct (negb (d =? 1)); [intros [= _ <-]; by apply js_view_ext|].
    destruct (js_names w0 !! from); [done|]. intros [= _ <-]. by apply js_view_ext.
  - intros f n w r w'. simpl. unfold js_read. destruct (js_tick w) as [[k|] w0] eqn:Ht; apply js_tick_view in Ht as [Hn Hc].
    + intros [= <- _]. split; [by repeat constructor|]. left. exists EOTHER. by left.
    + rewrite -Hc. destruct (js_contents w0 !! f) as [c|]; intros [= <- _]; [|split; [by repeat constructor|left; exists EOTHER; by left]].
      destruct (cut_fuel_spec (length (take (Z.to_nat n) c)) (take (Z.to_nat n) c)) as [Hp Hb]; [done|]. eauto.
Defined.

(** ** A session that ends *)

Definition sample_parse (s : str) : option Uuid := match s with [] => None | _ => Some 7 end.

Definition sample_identity : LifecycleIdentity :=
  {| li_session_id := lit "5f0c"; li_name := lit "build"; li_pane_id := lit "%3"; li_parent_session_id := None;
     li_parent_pane_id := None; li_agent_name := Some (lit "codex"); li_created_unix_ms := 1000;
     li_process_id := Some 41; li_process_group_id := Some 41; li_attached_clients := 1 |}.

Definition sample_claimed : LifecycleEvent := trigger_claimed 9 sample_identity 2000 CloseRequested.
Definition sample_reaped : LifecycleEvent := leader_reaped 9 sample_identity 2000 2100 CloseRequested 130 (Some (lit "SIGINT")).
Definition sample_other : LifecycleEvent := trigger_claimed 10 sample_identity 3000 LeaderExited.

#[export] Instance sample_events : JsonCodec LifecycleEvent := table_codec [sample_claimed; sample_reaped; sample_other].

Definition empty_dir (faults : list (option nat)) : jsim :=
  {| js_names := ∅; js_contents := ∅; js_faults := faults |}.

Definition sample_storage : SecureStorage := {| dir := 1; lock_file := 3; current := 4; current_bytes := 0 |}.

Definition world_of (content : list byte) : jsim :=
  {| js_names := {[ LOCK_FILE := 3; CURRENT_SEGMENT := 4 ]}; js_contents := {[ 3 := []; 4 := content ]}; js_faults := [] |}.

Example opening_an_empty_directory :
  storage_open [0x6a] (empty_dir []) = (Ok {| dir := 1; lock_file := 2; current := 3; current_bytes := 0 |},
    {| js_names := {[ LOCK_FILE := 2; CURRENT_SEGMENT := 3 ]}; js_contents := {[ 2 := []; 3 := [] ]}; js_faults := [] |}).
Proof. vm_compute. reflexivity. Qed.

Example folding_one_session :
  (λ x, (rx_name x, rx_outcome_state x, rx_exit_code x, rx_evidence_state x)) <$>
    fold_events [sample_reaped; sample_claimed; sample_claimed] false None 10 TopLevel
  = [(lit "build", OutcomeComplete, Some 130, EvidenceComplete)].
Proof. vm_compute. reflexivity. Qed.

Example folding_a_contradiction :
  rx_evidence_state <$> fold_events [sample_claimed; sample_other] false None 10 AllScopes = [Conflicted] ∧
  fold_events [sample_claimed; sample_other] false None 10 TopLevel = [].
Proof. split; vm_compute; reflexivity. Qed.

Lemma world_bounded content :
  Z.of_nat (length content) ≤ MAX_SEGMENT_BYTES → bounded sample_storage (jview (world_of content)).
Proof.
  intros Hc f c _ Hf. change (({[ 3 := []; 4 := content ]} : gmap Z (list byte)) !! f = Some c) in Hf.
  apply lookup_insert_Some in Hf as [[<- <-]|[_ [<- <-]%lookup_singleton_Some]]; done.
Qed.

Lemma world_named content : named sample_storage (jview (world_of content)).
Proof. by split. Qed.

(** ** The theorems at these inputs *)

Lemma fold_events_order_irrelevant_witness :
  fold_events [sample_claimed; sample_reaped] false None 5 AllScopes
  = fold_events [sample_reaped; sample_claimed; sample_reaped] false None 5 AllScopes.
Proof. apply fold_events_order_irrelevant. intros e. rewrite !elem_of_cons. naive_solver. Defined.

Lemma reported_exits_faithful_witness :
  NoDup (rx_session_id <$> fold_events [sample_reaped; sample_claimed] true (Some (lit "build")) 1 AllScopes).
Proof. apply (reported_exits_faithful [sample_reaped; sample_claimed] true (Some (lit "build")) 1 AllScopes). Defined.

Lemma segment_reader_exact_witness :
  load_lines sample_parse (load_fuel [Ok [0; 0x0a; 1]; Ok [0x0a; 2]]) [Ok [0; 0x0a; 1]; Ok [0x0a; 2]] no_events
  = Some (Ok {| events := [sample_claimed; sample_reaped]; degraded := true |}).
Proof.
  destruct (segment_reader_exact sample_parse [Ok [0; 0x0a; 1]; Ok [0x0a; 2]] no_events) as [_ H].
  rewrite H; [by vm_compute|]. repeat constructor; eauto.
Defined.

Definition opened_storage : SecureStorage := {| dir := 1; lock_file := 2; current := 3; current_bytes := 0 |}.
Definition opened_world : jsim :=
  {| js_names := {[ LOCK_FILE := 2; CURRENT_SEGMENT := 3 ]}; js_contents := {[ 2 := []; 3 := [] ]}; js_faults := [] |}.

Lemma journal_segments_bounded_witness :
  Z.of_nat (length [0; 0x0a; 1; 0x0a]) ≤ MAX_SEGMENT_BYTES.
Proof.
  assert (storage_open [0x6a] (empty_dir []) = (Ok opened_storage, opened_world)) as Ho by (vm_compute; reflexivity).
  pose proof (journal_segments_bounded [0x6a] (empty_dir []) opened_storage opened_world
    [sample_claimed; sample_reaped] 3 [0; 0x0a; 1; 0x0a] Ho) as H.
  destruct (run_appends [sample_claimed; sample_reaped] (opened_storage, opened_world)) as [s w] eqn:Hrun.
  vm_compute in Hrun. injection Hrun as <- <-. apply H; [by left|reflexivity].
Defined.

Lemma acknowledged_event_survives_restart_witness :
  ∃ s' w', append sample_reaped (sample_storage, world_of [0; 0x0a]) = (Ok false, (s', w')) ∧
    named s' (jview w') ∧ load_all sample_parse s' w' = (Ok {| events := [sample_claimed; sample_reaped]; degraded := false |}, w').
Proof.
  eexists _, _. split; [vm_compute; reflexivity|]. split; [|vm_compute; reflexivity].
  eapply (acknowledged_event_survives_restart sample_parse sample_reaped sample_storage (world_of [0; 0x0a]) false).
  - by apply world_bounded.
  - apply world_named.
  - right. by exists [0].
  - intros json Hj. assert (json = [1]) as -> by (vm_compute in Hj; congruence). by intros [?|?%elem_of_nil]%elem_of_cons.
  - by vm_compute.
  - by vm_compute.
Defined.

Definition torn_world : jsim := world_of [0; 0x0a; 5].
Definition torn_request : WriterRequest := {| req_event := sample_reaped; acknowledgement := Some 9 |}.

Example torn_request_is_acknowledged :
  handle_request sample_parse torn_request no_events (sample_storage, torn_world) =
  ({| events := [sample_reaped]; degraded := false |}, Some (9, Persisted),
   ({| dir := 1; lock_file := 3; current := 4; current_bytes := 5 |}, world_of [0; 0x0a; 5; 1; 0x0a])).
Proof. vm_compute. reflexivity. Qed.

Lemma torn_line_swallows_next_event_witness :
  events (disk_loaded sample_parse (jview (world_of [0; 0x0a; 5; 1; 0x0a])) 1) = [sample_claimed].
Proof.
  assert (∀ x, 0x0a ≠ x → 0x0a ∉ [x]) as Hnot by (by intros x Hx [?|?%elem_of_nil]%elem_of_cons).
  assert (match handle_request sample_parse torn_request no_events (sample_storage, torn_world) with
    | (_, answer, (s', w')) => answer = Some (9, IoFailed) ∨ answer = Some (9, Persisted) ∧
      events (disk_loaded sample_parse (jview w') (dir s')) = events (disk_loaded sample_parse (jview torn_world) 1) end) as H.
  { apply (torn_line_swallows_next_event sample_parse sample_reaped 9 no_events sample_storage torn_world [0; 0x0a] [5] [1]);
      [by apply world_bounded|apply world_named|done|right; by exists [0]|done|by apply Hnot|by vm_compute|by apply Hnot|by vm_compute|done]. }
  rewrite torn_request_is_acknowledged in H. destruct H as [?|[_ H]]; [done|]. rewrite H. by vm_compute.
Defined.

(** ** Two threads end one session *)

Definition two_ends : system :=
  {| pub := LifecyclePublication_default; alive := true; cleanup_started := false; cleanup_complete := false;
     cleanup_log := []; threads := [Publishing FromFinalize FinCloseRequested; Watching];
     clock := 0; journal := true; queue := Some []; acking := None; written := []; grp := group_idle |}.

Definition unreaped_signal (residual : bool) (s : group_signal) : sent_signal :=
  {| gs_signal := s; gs_residual := residual; gs_leader_reaped := false |}.

Definition after_barrier : system :=
  {| pub := {| pub_state := Resolved {| res_event_id := 9; res_trigger := FinCloseRequested; res_outcome := Persisted |};
               conflicts := 1 |};
     alive := false; cleanup_started := true; cleanup_complete := false; cleanup_log := [TerminateProcessGroup];
     threads := [Cleaning {| event_id := 9; authoritative_trigger := FinCloseRequested; claimant := true |}
                   [CloseSubscribers; TerminateChildSessions; RemoveSession];
                 Storing (Some {| event_id := 9; authoritative_trigger := FinCloseRequested; claimant := false |})];
     clock := 0; journal := true; queue := Some []; acking := None; written := [sample_claimed];
     grp := {| leader_exited := true; kernel_reaped := true; leader_exit_observed := true; leader_was_reaped := false;
               unreaped_cleanup_started := true; child_held := Some 1%nat;
               group_log := unreaped_signal false SigHup :: (unreaped_signal true <$> residual_ladder) |} |}.

(** One step, after which the state is written out. *)
Ltac written_out :=
  lazymatch goal with |- rtc _ ?s _ => let s' := eval vm_compute in s in replace s with s' by (vm_compute; reflexivity) end.
Local Tactic Notation "thread" constr(i) "moves" uconstr(c) :=
  eapply rtc_l;
    [left; exists i; first [eapply by_publishing, c | eapply by_waiting, c | eapply by_cleaning, c]; vm_compute; reflexivity|written_out].
Local Tactic Notation "other" "moves" uconstr(c) := eapply rtc_l; [right; eapply c; vm_compute; reflexivity|written_out].

(** The close request claims, is written and acknowledged, begins the cleanup and hangs up on
    the group.  The leader exits of it; the waiter observes that, its trigger conflicts, and
    the closing thread runs the residual ladder and gives the mutex back.  The waiter then
    finds the ladder run and reaps. *)
Lemma after_barrier_reachable : reachable 1000000 sample_identity after_barrier.
Proof.
  exists two_ends. split.
  { split_and!; try done; [by repeat constructor|]. intros q r [= <-] Hr. by apply elem_of_nil in Hr. }
  thread 0%nat moves (step_claim _ _ _ _ _ _ 9 0). thread 0%nat moves (step_enqueue _ _ _ _ _ _ 2000).
  other moves (step_append _ _ _ true). other moves step_acknowledge.
  thread 0%nat moves step_wait. thread 0%nat moves step_sweep_first. thread 0%nat moves step_term_lock.
  do 2 thread 0%nat moves (step_term_group _ _ _ _ _ false).
  eapply rtc_l; [right; apply step_leader_exits|written_out]. thread 1%nat moves step_observe.
  thread 1%nat moves (step_claim _ _ _ _ _ _ 10 0). thread 1%nat moves step_wait.
  do 8 thread 0%nat moves (step_term_group _ _ _ _ _ false).
  thread 0%nat moves step_term_done. thread 1%nat moves step_lock_child.
  thread 1%nat moves (step_waiter_group _ _ _ _ _ false).
  thread 1%nat moves step_try_reap. apply rtc_refl.
Qed.

Lemma finalize_barrier_witness :
  TerminateProcessGroup ∈ cleanup_log after_barrier ∧ residual_log (grp after_barrier) = [SigHup; SigTerm; SigKill] ∧
  (∃ id trigger r, authority (pub after_barrier) = Some (id, trigger) ∧ resolution_of (pub after_barrier) = Some r ∧
    alive after_barrier = false ∧ cleanup_log after_barrier `prefix_of` cleanup_plan trigger ∧
    (trigger = FinLeaderExited → TerminateProcessGroup ∉ cleanup_log after_barrier ∧
      Forall (λ x, gs_residual x = true) (group_log (grp after_barrier)))).
Proof.
  split; [by left|]. split; [vm_compute; reflexivity|]. apply (finalize_barrier _ _ _ after_barrier_reachable). by left.
Defined.

Lemma persisted_end_was_written_witness :
  ∃ e, e ∈ written after_barrier ∧ ev_event_id e = 9 ∧ is_trigger_claimed e = true.
Proof.
  apply (persisted_end_was_written _ _ after_barrier
    {| res_event_id := 9; res_trigger := FinCloseRequested; res_outcome := Persisted |} after_barrier_reachable); reflexivity.
Defined.

Lemma finalize_completes_witness :
  ∃ s', rtc (step 1000000 sample_identity) after_barrier s' ∧ Forall finished (threads s') ∧
    (cleanup_started s' = true → cleanup_complete s' = true).
Proof. apply (finalize_completes _ _ _ after_barrier_reachable). Defined.

Lemma authority_is_claimed_once_witness :
  claimant (fst (claim 1000 4 0 0 FinLeaderExited (run_calls 1000 [CallResolve 3 Timeout]
    (snd (claim 1000 3 0 0 FinCloseRequested (LifecyclePublication_default, true)))))) = false.
Proof. apply (authority_is_claimed_once 1000 [] [CallResolve 3 Timeout] 3 0 0 FinCloseRequested 4 0 0 FinLeaderExited). Defined.
