(* ===== verification/OutputRing.v ===== *)
(** The output ring of a session and the captures taken from it
    ([append_ring_bytes], [capture_bytes_from_ring] and their helpers in [server.rs]).

    The ring is a [VecDeque<u8>], here the list of its bytes from front to back.  A
    [usize] or [u64] is a [Z] with its saturating operations written out. *)
From S2P Require Import Prelude Utf8.

Definition RING_LIMIT : Z := 2 * 1024 * 1024.

Definition len {A} (l : list A) : Z := Z.of_nat (length l).

Definition append_ring_bytes (ring bytes : list byte) : list byte :=
  if RING_LIMIT <=? len bytes then drop (Z.to_nat (len bytes - RING_LIMIT)) bytes
  else
    let overflow := saturating_sub (saturating_add usize_max (len ring) (len bytes)) RING_LIMIT in
    let ring := if 0 <? overflow then drop (Z.to_nat overflow) ring else ring in
    ring ++ bytes.

(** ** Lines of the ring *)

Definition newline : byte := 0x0a.

Definition ring_line_count (ring : list byte) : Z :=
  match ring with
  | [] => 0
  | _ =>
    let newline_count := len (List.filter (Z.eqb newline) ring) in
    if bool_decide (last ring = Some newline) then newline_count else newline_count + 1
  end.

(** The loop of [copy_ring_lines]; [line_index] counts the newlines passed. *)
Fixpoint copy_lines_loop (first : Z) (last : option Z) (line_index : Z) (ring : list byte)
    : list byte :=
  match ring with
  | [] => []
  | byte :: ring =>
    let out := if (first <=? line_index) && is_none_or last (λ last, line_index <=? last)
               then [byte] else [] in
    if byte =? newline then
      let line_index := line_index + 1 in
      if is_some_and last (λ last, last <? line_index) then out
      else out ++ copy_lines_loop first last line_index ring
    else out ++ copy_lines_loop first last line_index ring
  end.

Definition copy_ring_lines (ring : list byte) (first : Z) (last : option Z) : list byte :=
  if is_some_and last (λ last, last <? first) then [] else copy_lines_loop first last 0 ring.

(** The loop of [ring_byte_index_for_line], from byte [byte_index] on. *)
Fixpoint line_offset_loop (target_line line_index byte_index : Z) (ring : list byte) : Z :=
  match ring with
  | [] => byte_index
  | byte :: ring =>
    if byte =? newline then
      let line_index := line_index + 1 in
      if line_index =? target_line then byte_index + 1
      else line_offset_loop target_line line_index (byte_index + 1) ring
    else line_offset_loop target_line line_index (byte_index + 1) ring
  end.

Definition ring_byte_index_for_line (ring : list byte) (target_line : Z) : Z :=
  if target_line =? 0 then 0 else line_offset_loop target_line 0 0 ring.

(** [line] is an [i32]: [unsigned_abs] of a negative one is its opposite. *)
Definition capture_line_index (line line_count : Z) : Z :=
  if line <? 0 then saturating_sub line_count (- line) else line.

Definition capture_end_line_index (line line_count : Z) : Z :=
  if line <? 0 then saturating_sub line_count (- line)
  else line `min` saturating_sub line_count 1.

(** ** Captures *)

Definition capture_bytes_from_ring (ring : list byte) (start end_ : option Z) : list byte :=
  match ring with
  | [] => []
  | _ =>
    if is_some_and start (λ line, line <? 0) || is_some_and end_ (λ line, line <? 0) then
      let line_count := ring_line_count ring in
      let first := capture_line_index (default 0 start) line_count in
      if line_count <=? first then []
      else
        let last := (λ line, capture_end_line_index line line_count) <$> end_ in
        copy_ring_lines ring first last
    else copy_ring_lines ring (default 0 start) end_
  end.

(** [Session::capture_bytes]. *)
Definition capture_bytes (ring : list byte) (start end_ : option Z) : list byte :=
  match start, end_ with
  | None, None => ring
  | _, _ => capture_bytes_from_ring ring start end_
  end.

Definition capture_start_total_from_ring (ring : list byte) (total_bytes : Z) (start : option Z) : Z :=
  match ring with
  | [] => total_bytes
  | _ =>
    let ring_start_total := saturating_sub total_bytes (len ring) in
    match start with
    | None => ring_start_total
    | Some start =>
      let line_count := ring_line_count ring in
      let first := capture_line_index start line_count in
      if line_count <=? first then total_bytes
      else saturating_add u64_max ring_start_total (ring_byte_index_for_line ring first)
    end
  end.

Definition copy_ring_bytes_from_total (ring : list byte) (total_bytes start_total : Z) : list byte :=
  let ring_start_total := saturating_sub total_bytes (len ring) in
  let start := saturating_sub start_total ring_start_total `min` len ring in
  drop (Z.to_nat start) ring.

(** ** The ring holds the end of the output *)

(** The last [n] elements of a list. *)
Definition lastn {A} (n : Z) (l : list A) : list A := drop (Z.to_nat (len l - n)) l.

Lemma len_app {A} (a b : list A) : len (a ++ b) = len a + len b.
Proof. unfold len. rewrite length_app. lia. Qed.

Lemma len_nonneg {A} (l : list A) : 0 ≤ len l.
Proof. unfold len. lia. Qed.

Lemma len_drop {A} (l : list A) n : 0 ≤ n ≤ len l → len (drop (Z.to_nat n) l) = len l - n.
Proof. unfold len. rewrite length_drop. lia. Qed.

Lemma len_take {A} (l : list A) n : 0 ≤ n ≤ len l → len (take (Z.to_nat n) l) = n.
Proof. unfold len. rewrite length_take. lia. Qed.

Lemma len_cons {A} (x : A) l : len (x :: l) = len l + 1.
Proof. unfold len. simpl. lia. Qed.

Lemma len_nil {A} : len (@nil A) = 0.
Proof. done. Qed.

Lemma lastn_short {A} n (l : list A) : len l ≤ n → lastn n l = l.
Proof. intros H. unfold lastn. by rewrite (_ : Z.to_nat (len l - n) = 0%nat); [|lia]. Qed.

Lemma len_lastn {A} n (l : list A) : 0 ≤ n → len (lastn n l) = n `min` len l.
Proof.
  intros Hn. destruct (Z.le_gt_cases (len l) n) as [H|H].
  - rewrite lastn_short //. lia.
  - unfold lastn. pose proof (len_nonneg l). rewrite len_drop; lia.
Qed.

Lemma lastn_app_long {A} n (a b : list A) : n ≤ len b → lastn n (a ++ b) = lastn n b.
Proof.
  intros H. unfold lastn. rewrite len_app drop_app_ge; [|unfold len in *; lia].
  f_equal. unfold len in *. lia.
Qed.

Lemma lastn_app_short {A} n (a b : list A) :
  len b ≤ n → lastn n (a ++ b) = lastn (n - len b) a ++ b.
Proof.
  intros H. unfold lastn. rewrite len_app drop_app_le; [|unfold len in *; lia].
  do 2 f_equal. unfold len in *. lia.
Qed.

Lemma lastn_lastn {A} n m (l : list A) : 0 ≤ n ≤ m → lastn n (lastn m l) = lastn n l.
Proof.
  intros H. unfold lastn at 1 3. rewrite len_lastn; [|lia]. unfold lastn. rewrite drop_drop.
  f_equal. unfold len. lia.
Qed.

(** The ring as a function of the output: the last [RING_LIMIT] bytes. *)
Definition ring_of (output : list byte) : list byte := lastn RING_LIMIT output.

Lemma append_ring_bytes_output output bytes :
  append_ring_bytes (ring_of output) bytes = ring_of (output ++ bytes).
Proof.
  unfold append_ring_bytes, ring_of. rewrite len_lastn; [|done].
  destruct (RING_LIMIT <=? len bytes) eqn:Hb.
  { rewrite lastn_app_long; [done|lia]. }
  apply Z.leb_gt in Hb. assert (2 * RING_LIMIT ≤ usize_max) by done. pose proof (len_nonneg bytes). pose proof (len_nonneg output).
  rewrite lastn_app_short; [|lia]. f_equal.
  unfold saturating_sub, saturating_add.
  destruct (Z.le_gt_cases (len output) RING_LIMIT).
  - rewrite lastn_short; [|lia]. unfold lastn.
    case_match eqn:E; [|rewrite (_ : Z.to_nat _ = 0%nat) //; lia]. f_equal. lia.
  - rewrite -(lastn_lastn (RING_LIMIT - len bytes) RING_LIMIT); [|lia].
    set (r := lastn RING_LIMIT output). unfold lastn. unfold r at 2. rewrite len_lastn; [|done].
    case_match eqn:E; [|rewrite (_ : Z.to_nat _ = 0%nat) //; lia]. f_equal. lia.
Qed.

(** Whatever chunks the terminal wrote, the ring of a session is the last two mebibytes
    of the output, and all of it while it is shorter. *)
Theorem ring_keeps_last_bytes chunks :
  foldl append_ring_bytes [] chunks = lastn RING_LIMIT (mjoin chunks).
Proof.
  induction chunks as [|c chunks IH] using rev_ind; [done|].
  rewrite foldl_app join_app /= app_nil_r IH. apply append_ring_bytes_output.
Qed.

(** ** Lines *)

(** The lines of a buffer with their terminators; the last one may lack it. *)
Fixpoint ring_lines (bs : list byte) : list (list byte) :=
  match bs with
  | [] => []
  | b :: bs =>
    if b =? newline then [b] :: ring_lines bs
    else match ring_lines bs with
         | [] => [[b]]
         | l :: ls => (b :: l) :: ls
         end
  end.

(** The lines from [first] to [last], counted from zero and inclusive. *)
Definition line_slice (first : Z) (last : option Z) (ls : list (list byte)) : list (list byte) :=
  let ls := drop (Z.to_nat first) ls in
  match last with
  | None => ls
  | Some last => take (Z.to_nat (last - first + 1)) ls
  end.

(** A capture coordinate: negative ones count back from the end of the buffer. *)
Definition line_index (count line : Z) : Z := if line <? 0 then Z.max 0 (count + line) else line.

Lemma mjoin_ring_lines bs : mjoin (ring_lines bs) = bs.
Proof.
  induction bs as [|b bs IH]; [done|]. cbn [ring_lines].
  destruct (b =? newline); [by simpl; rewrite IH|].
  destruct (ring_lines bs) as [|l ls]; simpl in *; congruence.
Qed.

Lemma ring_lines_nil bs : ring_lines bs = [] → bs = [].
Proof. intros H. by rewrite -(mjoin_ring_lines bs) H. Qed.

Lemma ring_line_count_lines bs : ring_line_count bs = len (ring_lines bs).
Proof.
  induction bs as [|b bs IH]; [done|].
  unfold ring_line_count in *. cbn [List.filter ring_lines]. rewrite (Z.eqb_sym newline b).
  destruct bs as [|b' bs].
  { simpl. destruct (b =? newline) eqn:E; simpl; case_bool_decide as Hb; try done.
    - exfalso. apply Hb. f_equal. by apply Z.eqb_eq.
    - injection Hb as ->. done. }
  rewrite (_ : last (b :: b' :: bs) = last (b' :: bs)) //.
  destruct (b =? newline) eqn:E.
  - rewrite !len_cons. case_bool_decide; lia.
  - destruct (ring_lines (b' :: bs)) as [|l ls] eqn:Hl; [by apply ring_lines_nil in Hl|].
    rewrite len_cons in IH. rewrite len_cons. case_bool_decide; lia.
Qed.

(** The lines whose index, counted from [k], is in the range. *)
Fixpoint pick_lines (first : Z) (last : option Z) (k : Z) (ls : list (list byte)) : list byte :=
  match ls with
  | [] => []
  | l :: ls =>
    (if (first <=? k) && is_none_or last (λ last, k <=? last) then l else [])
    ++ pick_lines first last (k + 1) ls
  end.

Lemma pick_lines_past first e k ls : e < k → pick_lines first (Some e) k ls = [].
Proof.
  revert k. induction ls as [|l ls IH]; intros k Hk; [done|]. simpl.
  rewrite IH; [|lia]. rewrite (_ : (k <=? e) = false); [|lia]. by rewrite andb_false_r.
Qed.

Lemma copy_lines_loop_pick first last k bs :
  copy_lines_loop first last k bs = pick_lines first last k (ring_lines bs).
Proof.
  revert k. induction bs as [|b bs IH]; intros k; [done|]. cbn [copy_lines_loop ring_lines].
  destruct (b =? newline) eqn:E.
  - simpl. destruct (is_some_and last (λ last, last <? k + 1)) eqn:Hl; [|by rewrite IH].
    destruct last as [e|]; [|done]. simpl in Hl. rewrite pick_lines_past ?app_nil_r //. lia.
  - rewrite IH. destruct (ring_lines bs) as [|l ls]; simpl; [by rewrite app_nil_r|].
    rewrite app_assoc. f_equal. by case_match.
Qed.

Lemma pick_lines_none first k ls :
  0 ≤ k → pick_lines first None k ls = mjoin (drop (Z.to_nat (first - k)) ls).
Proof.
  revert k. induction ls as [|l ls IH]; intros k Hk; simpl; [by rewrite drop_nil|].
  rewrite andb_true_r IH; [|lia].
  destruct (first <=? k) eqn:E.
  - by rewrite (_ : Z.to_nat (first - k) = 0%nat); [rewrite (_ : Z.to_nat (first - (k + 1)) = 0%nat); [|lia]|lia].
  - by rewrite (_ : Z.to_nat (first - k) = S (Z.to_nat (first - (k + 1)))); [|lia].
Qed.

Lemma pick_lines_some first e k ls :
  0 ≤ k →
  pick_lines first (Some e) k ls =
  mjoin (take (Z.to_nat (e - Z.max first k + 1)) (drop (Z.to_nat (first - k)) ls)).
Proof.
  revert k. induction ls as [|l ls IH]; intros k Hk; simpl; [by rewrite drop_nil take_nil|].
  rewrite IH; [|lia].
  destruct (first <=? k) eqn:E; simpl.
  - rewrite (_ : Z.to_nat (first - k) = 0%nat); [|lia].
    rewrite (_ : Z.to_nat (first - (k + 1)) = 0%nat); [|lia]. rewrite !drop_0.
    destruct (k <=? e) eqn:E2.
    + rewrite (_ : Z.to_nat (e - first `max` k + 1) = S (Z.to_nat (e - first `max` (k + 1) + 1)));
        [done|lia].
    + rewrite (_ : Z.to_nat (e - first `max` k + 1) = 0%nat); [|lia].
      rewrite (_ : Z.to_nat (e - first `max` (k + 1) + 1) = 0%nat); [|lia]. done.
  - rewrite (_ : Z.to_nat (first - k) = S (Z.to_nat (first - (k + 1)))); [|lia]. simpl.
    do 3 f_equal. lia.
Qed.

Lemma copy_ring_lines_slice ring first last :
  0 ≤ first → copy_ring_lines ring first last = mjoin (line_slice first last (ring_lines ring)).
Proof.
  intros Hf. unfold copy_ring_lines, line_slice. rewrite copy_lines_loop_pick.
  destruct last as [e|]; simpl.
  - rewrite pick_lines_some // Z.max_l // Z.sub_0_r. case_match eqn:E; [|done].
    by rewrite (_ : Z.to_nat (e - first + 1) = 0%nat); [|lia].
  - by rewrite pick_lines_none // Z.sub_0_r.
Qed.

Lemma line_slice_past first last ls : len ls ≤ first → line_slice first last ls = [].
Proof.
  unfold line_slice, len. intros H. rewrite drop_ge; [|lia]. destruct last; [|done]. apply take_nil.
Qed.

Lemma line_slice_clamp first e ls :
  0 ≤ first < len ls → line_slice first (Some (e `min` (len ls - 1))) ls = line_slice first (Some e) ls.
Proof.
  unfold line_slice, len. intros H.
  destruct (Z.le_gt_cases e (Z.of_nat (length ls) - 1)); [by rewrite Z.min_l|].
  rewrite !take_ge //; rewrite length_drop; lia.
Qed.

(** A capture is a range of lines. *)
Lemma capture_bytes_lines ring start end_ :
  let count := len (ring_lines ring) in
  capture_bytes ring start end_ =
  mjoin (line_slice (line_index count (default 0 start)) (line_index count <$> end_)
           (ring_lines ring)).
Proof.
  cbn zeta. unfold capture_bytes.
  assert (capture_bytes_from_ring ring start end_ =
    mjoin (line_slice (line_index (len (ring_lines ring)) (default 0 start))
      (line_index (len (ring_lines ring)) <$> end_) (ring_lines ring))) as Hc.
  2:{ destruct start, end_; [done..|]. by rewrite /line_slice /= mjoin_ring_lines. }
  unfold capture_bytes_from_ring. destruct ring as [|b ring]; [by destruct end_; rewrite /line_slice /= ?drop_nil ?take_nil|].
  set (r := b :: ring). rewrite ring_line_count_lines. set (ls := ring_lines r).
  unfold capture_line_index, capture_end_line_index, line_index.
  assert (0 ≤ (if default 0 start <? 0 then Z.max 0 (len ls + default 0 start) else default 0 start))
    as Hf by (case_match; lia).
  destruct (is_some_and start _ || is_some_and end_ _) eqn:Hneg.
  - unfold saturating_sub. rewrite Z.sub_opp_r.
    set (f := if default 0 start <? 0 then _ else _) in *.
    destruct (len ls <=? f) eqn:Hp.
    { rewrite line_slice_past //. lia. }
    rewrite copy_ring_lines_slice //. f_equal. fold ls. destruct end_ as [e|]; [|done]. simpl.
    rewrite Z.sub_opp_r. destruct (e <? 0); [done|].
    rewrite (_ : Z.max 0 (len ls - 1) = len ls - 1); [|lia]. apply line_slice_clamp. lia.
  - apply orb_false in Hneg as [Hs He].
    rewrite (_ : (default 0 start <? 0) = false) in Hf |- *; [|by destruct start].
    rewrite copy_ring_lines_slice //. do 2 f_equal. destruct end_ as [e|]; simpl in *; [by rewrite He|done].
Qed.

(** A capture is exactly the range of lines its coordinates name: negative coordinates
    count back from the last line, a missing one leaves the range open, coordinates past
    either end are harmless, and the unbounded capture is the whole ring. *)
Theorem capture_is_line_range ring start end_ :
  let count := len (ring_lines ring) in
  capture_bytes ring start end_ =
  mjoin (line_slice (line_index count (default 0 start)) (line_index count <$> end_)
           (ring_lines ring)).
Proof. apply capture_bytes_lines. Qed.

(** ** The scan position of a waiting client *)

Lemma len_mjoin_take_S n (l : list byte) ls : len (mjoin (take (S n) (l :: ls))) = len l + len (mjoin (take n ls)).
Proof. apply len_app. Qed.

Lemma line_offset_loop_spec target k i bs :
  0 ≤ k < target →
  line_offset_loop target k i bs = i + len (mjoin (take (Z.to_nat (target - k)) (ring_lines bs))).
Proof.
  revert k i. induction bs as [|b bs IH]; intros k i Hk.
  { simpl. rewrite take_nil. unfold len. simpl. lia. }
  cbn [line_offset_loop ring_lines].
  rewrite (_ : Z.to_nat (target - k) = S (Z.to_nat (target - (k + 1)))); [|lia].
  destruct (b =? newline) eqn:E.
  - rewrite len_mjoin_take_S len_cons len_nil. destruct (k + 1 =? target) eqn:Ht.
    + rewrite (_ : Z.to_nat (target - (k + 1)) = 0%nat) /=; [|lia]. done.
    + rewrite IH; lia.
  - rewrite IH // (_ : Z.to_nat (target - k) = S (Z.to_nat (target - (k + 1)))); [|lia].
    destruct (ring_lines bs) as [|l ls]; rewrite !len_mjoin_take_S ?take_nil !len_cons;
      rewrite /= ?len_nil; lia.
Qed.

Lemma ring_byte_index_spec ring n :
  0 ≤ n → ring_byte_index_for_line ring n = len (mjoin (take (Z.to_nat n) (ring_lines ring))).
Proof.
  intros Hn. unfold ring_byte_index_for_line. case_match eqn:E.
  { by rewrite (_ : Z.to_nat n = 0%nat); [|lia]. }
  rewrite line_offset_loop_spec; [|lia]. by rewrite Z.sub_0_r Z.add_0_l.
Qed.

(** Dropping the bytes of the first lines leaves the other lines. *)
Lemma drop_lines n ls : drop (length (mjoin (take n ls) : list byte)) (mjoin ls) = mjoin (drop n ls).
Proof.
  revert ls. induction n as [|n IH]; intros [|l ls]; [done..|].
  cbn [take drop mjoin list_join]. rewrite length_app -drop_drop drop_app_length. apply IH.
Qed.

Lemma len_take_lines n ring : len (mjoin (take n (ring_lines ring))) ≤ len ring.
Proof.
  rewrite -{2}(mjoin_ring_lines ring) -{2}(take_drop n (ring_lines ring)) join_app len_app.
  pose proof (len_nonneg (mjoin (drop n (ring_lines ring)))). lia.
Qed.

Lemma len_ring_of output : len (ring_of output) = RING_LIMIT `min` len output.
Proof. by apply len_lastn. Qed.

(** The total number of bytes and the ring place the ring in the output. *)
Lemma ring_of_drop output :
  ring_of output = drop (Z.to_nat (saturating_sub (len output) (len (ring_of output)))) output.
Proof.
  unfold ring_of at 1, lastn, saturating_sub. rewrite len_ring_of. f_equal. unfold len. lia.
Qed.

Lemma capture_start_total_range output start :
  len output ≤ u64_max →
  let st := capture_start_total_from_ring (ring_of output) (len output) start in
  saturating_sub (len output) (len (ring_of output)) ≤ st ≤ len output.
Proof.
  intros Hmax. cbn zeta. pose proof (len_ring_of output) as Hr. pose proof (len_nonneg output).
  unfold capture_start_total_from_ring, saturating_sub, saturating_add in *.
  destruct (ring_of output) as [|b r]; [unfold len in *; simpl in *; lia|].
  pose proof (len_nonneg (b :: r)). destruct start as [l|]; [|lia].
  destruct (_ <=? capture_line_index l _) eqn:E; [lia|].
  assert (0 ≤ capture_line_index l (ring_line_count (b :: r))).
  { unfold capture_line_index, saturating_sub. case_match; lia. }
  rewrite ring_byte_index_spec //.
  pose proof (len_take_lines (Z.to_nat (capture_line_index l (ring_line_count (b :: r)))) (b :: r)).
  pose proof (len_nonneg (mjoin (take (Z.to_nat (capture_line_index l (ring_line_count (b :: r))))
    (ring_lines (b :: r))))). lia.
Qed.

(** What lies behind the scan position is the capture from the same coordinate. *)
Lemma copy_from_start_total output start :
  len output ≤ u64_max →
  let st := capture_start_total_from_ring (ring_of output) (len output) start in
  copy_ring_bytes_from_total (ring_of output) (len output) st = capture_bytes (ring_of output) start None.
Proof.
  intros Hmax. cbn zeta. pose proof (len_ring_of output) as Hr. pose proof (len_nonneg output).
  unfold copy_ring_bytes_from_total.
  set (r := ring_of output) in *. clearbody r.
  assert (saturating_sub (len output) (len r) = len output - len r) as Hrs by (unfold saturating_sub; lia).
  pose proof (len_nonneg r). rewrite Hrs. destruct start as [l|].
  2:{ unfold capture_start_total_from_ring. destruct r; [by rewrite drop_nil|].
    rewrite Hrs. unfold saturating_sub. by rewrite (_ : Z.to_nat _ = 0%nat); [|lia]. }
  rewrite capture_bytes_lines /line_slice /=. unfold capture_start_total_from_ring.
  destruct (decide (r = [])) as [->|Hne]; [by rewrite !drop_nil|].
  assert (∀ x y : Z, match r with [] => x | _ => y end = y) as Hm by (intros; by destruct r).
  rewrite Hm Hrs ring_line_count_lines. clear Hm. set (ls := ring_lines r).
  assert (line_index (len ls) l = capture_line_index l (len ls)) as ->.
  { unfold line_index, capture_line_index, saturating_sub. case_match; lia. }
  set (f := capture_line_index l (len ls)).
  assert (0 ≤ f) by (unfold f, capture_line_index, saturating_sub; case_match; lia).
  destruct (len ls <=? f) eqn:E.
  { rewrite !drop_ge //; unfold saturating_sub, len in *; lia. }
  rewrite ring_byte_index_spec //. fold ls.
  pose proof (len_take_lines (Z.to_nat f) r) as Ht. fold ls in Ht.
  pose proof (len_nonneg (mjoin (take (Z.to_nat f) ls))).
  rewrite -drop_lines. unfold ls at 3. rewrite mjoin_ring_lines. f_equal.
  unfold saturating_sub, saturating_add. unfold len in *. lia.
Qed.
