(* ===== verification/WaitContains.v ===== *)
(** Waiting for text in the output of a session ([WaitContainsScanner] and
    [wait_for_session_contains] in [server.rs]).

    The scanner looks at the output again each time it grows, and only at what is new
    when it can: it keeps the automaton state of the sanitizer and the end of the text
    seen.  The theorem is that it answers as a scan of the whole capture would. *)
From S2P Require Import Prelude Utf8 Sanitize OutputRing.

(** ** Text search *)

(** [str::contains]. *)
Fixpoint contains (needle text : str) : bool :=
  is_prefix needle text || match text with [] => false | _ :: text => contains needle text end.

(** [text[start..]] for the first character boundary at or after byte [start]. *)
Fixpoint from_char_boundary (start : Z) (text : str) : str :=
  if start <=? 0 then text
  else match text with
       | [] => []
       | ch :: text => from_char_boundary (start - len (encode ch)) text
       end.

Definition sanitized_tail_for_needle (text needle : str) : str :=
  let max_bytes := saturating_sub (str_len needle) 1 in
  if max_bytes =? 0 then []
  else if str_len text <=? max_bytes then text
  else from_char_boundary (str_len text - max_bytes) text.

Definition MAX_WAIT_CONTAINS_NEEDLE_BYTES : Z := 4096.

Inductive NeedleError : Set := NeedleEmpty | NeedleTooLong.

Definition validate_wait_contains_needle (needle : str) : result NeedleError unit :=
  bail_if (str_len needle =? 0) NeedleEmpty ;;
  bail_if (MAX_WAIT_CONTAINS_NEEDLE_BYTES <? str_len needle) NeedleTooLong.

(** ** The scanner *)

Record WaitContainsScanner : Set := {
  initialized : bool;
  last_total_bytes : Z;
  last_start : option Z;
  last_start_total : Z;
  sanitized_tail : str;
  sanitizer_state : TerminalCaptureState;
}.

Definition WaitContainsScanner_default : WaitContainsScanner := {|
  initialized := false; last_total_bytes := 0; last_start := None; last_start_total := 0;
  sanitized_tail := []; sanitizer_state := TerminalCaptureState_default;
|}.

Definition needs_full_scan (sc : WaitContainsScanner) (ring_start_total total_bytes : Z)
    (start : option Z) (start_total : Z) : bool :=
  negb (initialized sc)
  || negb (bool_decide (last_start sc = start))
  || negb (last_start_total sc =? start_total)
  || (last_total_bytes sc <? ring_start_total)
  || (last_total_bytes sc <? start_total)
  || (total_bytes <? last_total_bytes sc).

Definition contains_from_start (sc : WaitContainsScanner) (ring : list byte) (total_bytes : Z)
    (start : option Z) (start_total : Z) (needle : str) : bool * WaitContainsScanner :=
  let ring_start_total := saturating_sub total_bytes (len ring) in
  let '(matched, next_state, searchable_tail) :=
    if needs_full_scan sc ring_start_total total_bytes start start_total then
      let bytes := copy_ring_bytes_from_total ring total_bytes start_total in
      let '(sanitized, state) := terminal_capture_from_state bytes TerminalCaptureState_default in
      (contains needle sanitized, state, sanitized)
    else
      let new_start := saturating_sub (last_total_bytes sc) ring_start_total in
      let bytes := drop (Z.to_nat new_start) ring in
      let '(sanitized_delta, state) := terminal_capture_from_state bytes (sanitizer_state sc) in
      let searchable := sanitized_tail sc ++ sanitized_delta in
      (contains needle searchable, state, searchable) in
  (matched,
   if matched then sc
   else {| initialized := true; last_total_bytes := total_bytes; last_start := start;
           last_start_total := start_total; sanitizer_state := next_state;
           sanitized_tail := sanitized_tail_for_needle searchable_tail needle |}).

Definition scanner_contains (sc : WaitContainsScanner) (ring : list byte) (total_bytes : Z)
    (start : option Z) (needle : str) : bool * WaitContainsScanner :=
  let start_total := capture_start_total_from_ring ring total_bytes start in
  contains_from_start sc ring total_bytes start start_total needle.

(** ** The tail that is kept is enough *)

Lemma contains_spec needle text :
  contains needle text = true ↔ ∃ before after, text = before ++ needle ++ after.
Proof.
  induction text as [|c text IH]; cbn [contains].
  - rewrite orb_false_r is_prefix_spec. split.
    + intros [k Hk]. by exists [], k.
    + intros (b & a & Hba). symmetry in Hba. apply app_nil in Hba as [_ [-> _]%app_nil]. apply prefix_nil.
  - rewrite orb_true_iff IH is_prefix_spec. split.
    + intros [[k Hk]|(b & a & ->)]; [by exists [], k|by exists (c :: b), a].
    + intros ([|x b] & a & Hba); simplify_eq/=; [left; by eexists|right; by eexists _, _].
Qed.

Lemma len_encode_pos c : 1 ≤ len (encode c).
Proof. unfold len. pose proof (encode_length c). lia. Qed.

Lemma str_len_cons c s : str_len (c :: s) = len (encode c) + str_len s.
Proof. unfold str_len, len. rewrite utf8_cons length_app. lia. Qed.

Lemma str_len_nil : str_len [] = 0.
Proof. done. Qed.

Lemma str_len_app s t : str_len (s ++ t) = str_len s + str_len t.
Proof. unfold str_len. rewrite utf8_app length_app. lia. Qed.

Lemma str_len_nonneg s : 0 ≤ str_len s.
Proof. unfold str_len. lia. Qed.

(** [tail] is the longest suffix of [text] of at most [max] bytes. *)
Definition is_tail (max : Z) (text tail : str) : Prop :=
  tail `suffix_of` text ∧ str_len tail ≤ max ∧
  ∀ s, s `suffix_of` text → str_len s ≤ max → s `suffix_of` tail.

Lemma suffix_str_len s t : s `suffix_of` t → str_len s ≤ str_len t.
Proof. intros [k ->]. rewrite str_len_app. pose proof (str_len_nonneg k). lia. Qed.

Lemma is_tail_unique max text t1 t2 : is_tail max text t1 → is_tail max text t2 → t1 = t2.
Proof.
  intros (Hs1 & Hl1 & Hm1) (Hs2 & Hl2 & Hm2).
  apply (anti_symm suffix); [by apply Hm2|by apply Hm1].
Qed.

Lemma from_char_boundary_tail max text start :
  0 ≤ max → start = str_len text - max → is_tail max text (from_char_boundary start text).
Proof.
  intros Hmax. revert start. induction text as [|c text IH]; intros start ->; cbn [from_char_boundary].
  - rewrite str_len_nil (_ : (0 - max <=? 0) = true); [|lia].
    split; [done|]. split; [by rewrite str_len_nil|done].
  - rewrite str_len_cons. case_match eqn:E.
    { split; [done|]. split; [rewrite str_len_cons; lia|done]. }
    destruct (IH (str_len text - max) eq_refl) as (Hs & Hl & Hm).
    rewrite (_ : len (encode c) + str_len text - max - len (encode c) = str_len text - max); [|lia].
    split; [by apply suffix_cons_r|]. split; [done|]. intros s Hsuf Hle.
    destruct s as [|x s]; [apply suffix_nil|]. apply suffix_cons_inv in Hsuf as [[= -> ->]|Hsuf]; [rewrite str_len_cons in Hle; lia|by apply Hm].
Qed.

Lemma sanitized_tail_is_tail text needle :
  is_tail (saturating_sub (str_len needle) 1) text (sanitized_tail_for_needle text needle).
Proof.
  unfold sanitized_tail_for_needle. set (max := saturating_sub _ _).
  assert (0 ≤ max) by (unfold max, saturating_sub; lia). case_match eqn:E0.
  - split; [apply suffix_nil|]. split; [by rewrite /str_len|]. intros [|c s] _ Hs; [done|].
    rewrite str_len_cons in Hs. pose proof (len_encode_pos c). pose proof (str_len_nonneg s). lia.
  - case_match eqn:E; [split; [done|split; [lia|done]]|]. by apply from_char_boundary_tail.
Qed.

(** Appending to the tail and appending to the text give the same tail. *)
Lemma is_tail_app max text tail delta r :
  is_tail max text tail → is_tail max (tail ++ delta) r → is_tail max (text ++ delta) r.
Proof.
  intros (Hs & Hl & Hm) (Hs' & Hl' & Hm'). split; [|split; [done|]].
  - etrans; [done|]. destruct Hs as [k ->]. exists k. by rewrite assoc_L.
  - intros s [k Hk] Hle. apply Hm'; [|done].
    apply app_eq_inv in Hk as [(k' & -> & ->)|(k' & -> & ->)].
    + rewrite str_len_app in Hle. pose proof (str_len_nonneg delta).
      destruct (Hm k') as [z ->]; [by eexists|lia|]. exists z. by rewrite assoc_L.
    + exists (tail ++ k'). by rewrite assoc_L.
Qed.

(** An occurrence that ends after [text] begins in its tail. *)
Lemma contains_tail needle text tail delta :
  is_tail (saturating_sub (str_len needle) 1) text tail →
  contains needle text = false →
  contains needle (tail ++ delta) = contains needle (text ++ delta).
Proof.
  intros (Hs & Hl & Hm) Hno. apply eq_true_iff_eq. rewrite !contains_spec. split.
  { destruct Hs as [k ->]. intros (b & a & Hba). exists (k ++ b), a. by rewrite -!assoc_L -Hba. }
  assert (∀ b a, text ≠ b ++ needle ++ a) as Habs.
  { intros b a ->. apply not_true_iff_false in Hno. apply Hno, contains_spec. eauto. }
  intros (b & a & Hba). apply app_eq_inv in Hba as [(z & -> & Hz)|(z & -> & ->)].
  2:{ exists (tail ++ z), a. by rewrite assoc_L. }
  apply app_eq_inv in Hz as [(y & -> & ->)|(y & -> & ->)]; [|by apply Habs in Hno || by destruct (Habs b y)].
  destruct (Hm z) as [w ->]; [by eexists| |by exists w, a; rewrite -!assoc_L].
  destruct y as [|c y]; [by destruct (Habs b []); rewrite !app_nil_r|].
  unfold saturating_sub. rewrite str_len_app str_len_cons.
  pose proof (len_encode_pos c). pose proof (str_len_nonneg y). lia.
Qed.

(** ** The scanner's invariant *)

Section scanner.
Context (needle : str).

Definition reference_scan (output : list byte) (start : option Z) : bool :=
  contains needle
    (terminal_capture_from_state (capture_bytes (ring_of output) start None)
       TerminalCaptureState_default).1.

(** The part of the output the scanner has seen. *)
Definition scanned (sc : WaitContainsScanner) (output : list byte) : list byte :=
  take (Z.to_nat (last_total_bytes sc - last_start_total sc))
    (drop (Z.to_nat (last_start_total sc)) output).

Definition scanner_inv (sc : WaitContainsScanner) (output : list byte) : Prop :=
  initialized sc = true →
  0 ≤ last_start_total sc ≤ last_total_bytes sc ∧ last_total_bytes sc ≤ len output ∧
  let '(text, state) :=
    terminal_capture_from_state (scanned sc output) TerminalCaptureState_default in
  contains needle text = false ∧
  is_tail (saturating_sub (str_len needle) 1) text (sanitized_tail sc) ∧
  capture_wf (sanitizer_state sc) ∧ sanitizer_state sc ≡ state.

Lemma scanner_inv_grow sc output more : scanner_inv sc output → scanner_inv sc (output ++ more).
Proof.
  intros H Hi. destruct (H Hi) as (Hb & Hl & Ht). split; [done|].
  rewrite len_app. pose proof (len_nonneg more). split; [lia|].
  assert (scanned sc (output ++ more) = scanned sc output) as ->; [|done].
  unfold scanned, len in *. rewrite drop_app_le; [|lia].
  rewrite take_app_le //. rewrite length_drop. lia.
Qed.

Lemma capture_state_wf bytes s :
  capture_wf s → capture_wf (terminal_capture_from_state bytes s).2.
Proof.
  intros Hs. pose proof (terminal_capture_app bytes [] s Hs) as H.
  repeat case_match. apply H.
Qed.

Lemma copy_ring_drop output start_total :
  saturating_sub (len output) (len (ring_of output)) ≤ start_total ≤ len output →
  copy_ring_bytes_from_total (ring_of output) (len output) start_total =
  drop (Z.to_nat start_total) output.
Proof.
  intros H. unfold copy_ring_bytes_from_total. set (rs := saturating_sub _ _) in *.
  assert (0 ≤ rs) by (unfold rs, saturating_sub; lia).
  rewrite {2}ring_of_drop -/rs drop_drop. f_equal.
  unfold saturating_sub in *. pose proof (len_nonneg output). unfold rs in *.
  rewrite len_ring_of in H |- *. lia.
Qed.

(** What an incremental scan reads is what has not been seen. *)
Lemma unseen_drop sc output :
  saturating_sub (len output) (len (ring_of output)) ≤ last_total_bytes sc →
  drop (Z.to_nat (saturating_sub (last_total_bytes sc)
    (saturating_sub (len output) (len (ring_of output))))) (ring_of output) =
  drop (Z.to_nat (last_total_bytes sc)) output.
Proof.
  intros H. rewrite {2}ring_of_drop drop_drop. f_equal. unfold saturating_sub in *. lia.
Qed.

Lemma scanned_app sc output :
  0 ≤ last_start_total sc ≤ last_total_bytes sc →
  drop (Z.to_nat (last_start_total sc)) output =
  scanned sc output ++ drop (Z.to_nat (last_total_bytes sc)) output.
Proof.
  intros H. unfold scanned.
  rewrite -{1}(take_drop (Z.to_nat (last_total_bytes sc - last_start_total sc))
    (drop (Z.to_nat (last_start_total sc)) output)) drop_drop.
  do 2 f_equal. lia.
Qed.

Lemma scanner_inv_new output st start state tail :
  0 ≤ st ≤ len output →
  let '(text, state') := terminal_capture_from_state (drop (Z.to_nat st) output)
                           TerminalCaptureState_default in
  contains needle text = false →
  is_tail (saturating_sub (str_len needle) 1) text tail →
  capture_wf state → state ≡ state' →
  scanner_inv {| initialized := true; last_total_bytes := len output; last_start := start;
    last_start_total := st; sanitized_tail := tail; sanitizer_state := state |} output.
Proof.
  intros Hst. destruct (terminal_capture_from_state _ _) as [text state'] eqn:E.
  intros Hno Ht Hwf Heq _. cbn [last_start_total last_total_bytes sanitized_tail sanitizer_state].
  split; [done|]. split; [lia|]. unfold scanned. cbn [last_start_total last_total_bytes].
  rewrite take_ge ?E //. unfold len in *. rewrite length_drop. lia.
Qed.

Lemma scanner_contains_step sc output start :
  len output ≤ u64_max → scanner_inv sc output →
  let '(matched, sc') := scanner_contains sc (ring_of output) (len output) start needle in
  matched = reference_scan output start ∧ scanner_inv sc' output.
Proof.
  intros Hmax Hinv. unfold scanner_contains, contains_from_start, reference_scan.
  rewrite -copy_from_start_total //.
  pose proof (capture_start_total_range output start Hmax) as Hst. cbn zeta in Hst.
  set (st := capture_start_total_from_ring _ _ _) in *.
  assert (0 ≤ st ≤ len output) as Hst0 by (unfold saturating_sub in Hst; lia).
  rewrite (copy_ring_drop output st) //.
  pose proof (scanner_inv_new output st start) as Hnew.
  destruct (needs_full_scan _ _ _ _ _) eqn:Hfull.
  - pose proof (capture_state_wf (drop (Z.to_nat st) output) _ capture_wf_default) as Hwf.
    destruct (terminal_capture_from_state _ _) as [text state'].
    destruct (contains needle text) eqn:Hc; [done|]. split; [done|].
    apply Hnew; [done|done|apply sanitized_tail_is_tail|done|done].
  - unfold needs_full_scan in Hfull. inv_ok.
    match goal with H : initialized sc = true |- _ => destruct (Hinv H) as (Hb & Hl & Ht) end.
    rewrite unseen_drop; [|lia].
    assert (st = last_start_total sc) as Hsteq by lia. rewrite Hsteq (scanned_app sc) // in Hnew |- *.
    destruct (terminal_capture_from_state (scanned sc output) _) as [text1 s1] eqn:E1.
    destruct Ht as (Hno & Htail & Hwf & Heq).
    pose proof (terminal_capture_app (scanned sc output)
      (drop (Z.to_nat (last_total_bytes sc)) output) _ capture_wf_default) as Happ.
    rewrite E1 in Happ.
    pose proof (capture_state_wf (drop (Z.to_nat (last_total_bytes sc)) output) _ Hwf) as Hwf2.
    assert (capture_wf s1) as Hwf1.
    { pose proof (capture_state_wf (scanned sc output) _ capture_wf_default) as Hw. by rewrite E1 in Hw. }
    pose proof (terminal_capture_proper (drop (Z.to_nat (last_total_bytes sc)) output)
      _ _ Hwf Hwf1 Heq) as [Hout Hstate].
    destruct (terminal_capture_from_state _ s1) as [o2 s2].
    destruct (terminal_capture_from_state _ (sanitizer_state sc)) as [o2' s2'].
    destruct (terminal_capture_from_state (_ ++ _) _) as [o s].
    cbn [fst snd] in *. destruct Happ as (_ & -> & Hs). subst o2'.
    rewrite (contains_tail _ text1) //. destruct (contains needle (text1 ++ o2)) eqn:Hc; [done|].
    split; [done|]. apply Hnew; [lia|done| |done|by etrans].
    eapply is_tail_app; [done|]. apply sanitized_tail_is_tail.
Qed.
End scanner.

(** ** Any history of scans *)

(** Each event is the output that arrived since the last scan and the coordinate the scan
    starts from. *)
Fixpoint scan_answers (needle : str) (sc : WaitContainsScanner) (output : list byte)
    (events : list (list byte * option Z)) : list bool :=
  match events with
  | [] => []
  | (bytes, start) :: events =>
    let output := output ++ bytes in
    let '(matched, sc) := scanner_contains sc (ring_of output) (len output) start needle in
    matched :: scan_answers needle sc output events
  end.

Fixpoint reference_answers (needle : str) (output : list byte)
    (events : list (list byte * option Z)) : list bool :=
  match events with
  | [] => []
  | (bytes, start) :: events =>
    reference_scan needle (output ++ bytes) start :: reference_answers needle (output ++ bytes) events
  end.

Lemma scan_answers_reference needle sc output events :
  len (output ++ mjoin events.*1) ≤ u64_max → scanner_inv needle sc output →
  scan_answers needle sc output events = reference_answers needle output events.
Proof.
  revert sc output. induction events as [|[bytes start] events IH]; intros sc output Hlen Hinv; [done|].
  simpl in *. rewrite assoc_L in Hlen.
  pose proof (scanner_contains_step needle sc (output ++ bytes) start) as Hstep.
  destruct (scanner_contains _ _ _ _ _) as [m sc'].
  destruct Hstep as [-> Hinv']; [|by apply scanner_inv_grow|by rewrite IH].
  etrans; [|exact Hlen]. rewrite (len_app (output ++ bytes)). match goal with |- _ ≤ _ + len ?l => pose proof (len_nonneg l) end. lia.
Qed.

(** C14: However the output grows between the looks a waiting client takes at it, wherever its
    chunks cut an escape sequence or a character, and however the start coordinate moves,
    the scanner, which reads only what is new when it can, finds the text exactly when a
    search of the whole sanitized capture from that coordinate would. *)
Theorem incremental_scan_is_full_scan needle events :
  len (mjoin events.*1) ≤ u64_max →
  scan_answers needle WaitContainsScanner_default [] events = reference_answers needle [] events.
Proof. intros H. by apply scan_answers_reference. Qed.

Lemma incremental_scan_is_full_scan_witness :
  let events := [(lit "ab", None); (0x1b :: lit "[3", None); (lit "1mc", None)] in
  scan_answers (lit "bc") WaitContainsScanner_default [] events = [false; false; true].
Proof.
  cbn zeta. rewrite (incremental_scan_is_full_scan (lit "bc")
    [(lit "ab", None); (0x1b :: lit "[3", None); (lit "1mc", None)]); [|by vm_compute].
  vm_compute. reflexivity.
Defined.

(** ** The session's output as a waiting client sees it

    The reader thread of a session appends to the ring and then counts the append, both
    under [output_state], and closes the output at its end; [Exit] is the waiter thread
    that clears [alive]. *)

Record OutputProgress : Set := { revision : Z; closed : bool; total_bytes : Z }.

Definition mark_output_changed (p : OutputProgress) (appended_bytes : Z) : OutputProgress := {|
  revision := (revision p + 1) mod 2 ^ 64; closed := closed p;
  total_bytes := saturating_add u64_max (total_bytes p) appended_bytes |}.

Definition mark_output_closed (p : OutputProgress) : OutputProgress := {|
  revision := (revision p + 1) mod 2 ^ 64; closed := true; total_bytes := total_bytes p |}.

Record SessionOutput : Set := {
  out_ring : list byte;
  out_progress : OutputProgress;
  (** the size of a chunk in the ring but not in the progress yet *)
  out_appending : option Z;
  out_alive : bool;
}.

Definition SessionOutput_new : SessionOutput := {|
  out_ring := []; out_progress := {| revision := 0; closed := false; total_bytes := 0 |};
  out_appending := None; out_alive := true |}.

Inductive OutputEvent : Set := AppendRing (bytes : list byte) | MarkChanged | Close | Exit.

(** An event happens only where the reader thread is. *)
Definition output_event (st : SessionOutput) (ev : OutputEvent) : option SessionOutput :=
  match ev, out_appending st with
  | AppendRing bytes, None =>
    if closed (out_progress st) then None
    else Some {| out_ring := append_ring_bytes (out_ring st) bytes; out_progress := out_progress st;
                 out_appending := Some (len bytes); out_alive := out_alive st |}
  | MarkChanged, Some n =>
    Some {| out_ring := out_ring st; out_progress := mark_output_changed (out_progress st) n;
            out_appending := None; out_alive := out_alive st |}
  | Close, None =>
    if closed (out_progress st) then None
    else Some {| out_ring := out_ring st; out_progress := mark_output_closed (out_progress st);
                 out_appending := None; out_alive := out_alive st |}
  | Exit, _ =>
    Some {| out_ring := out_ring st; out_progress := out_progress st;
            out_appending := out_appending st; out_alive := false |}
  | _, _ => None
  end.

Fixpoint output_events (st : SessionOutput) (evs : list OutputEvent) : option SessionOutput :=
  match evs with
  | [] => Some st
  | ev :: evs => st ← output_event st ev; output_events st evs
  end.

(** ** [wait_for_session_contains] *)

Record WaitContainsResult : Set := { wc_matched : bool; wc_timed_out : bool; wc_exited : bool }.

(** What the other threads and the clock do in one round of the loop. *)
Record Round : Set := {
  before_check : list OutputEvent;
  expired : bool;
  while_waiting : list OutputEvent;
  wait_timed_out : bool;
}.

Section wait_loop.
Context (needle : str) (start : option Z) (deadline : bool).

(** The result with the state of the output it is about.  No result when the rounds run
    out or are not a possible schedule: a scan holds [output_state]. *)
Fixpoint wait_loop (scanner : WaitContainsScanner) (st : SessionOutput) (rounds : list Round)
    : option (WaitContainsResult * SessionOutput) :=
  match rounds, out_appending st with
  | r :: rounds, None =>
    let before_capture := out_progress st in
    let '(matched, scanner) :=
      scanner_contains scanner (out_ring st) (total_bytes before_capture) start needle in
    st' ← output_events st (before_check r);
    let timed_out st := ({| wc_matched := false; wc_timed_out := true;
                            wc_exited := negb (out_alive st) |}, st) in
    if matched then
      Some ({| wc_matched := true; wc_timed_out := false; wc_exited := negb (out_alive st') |}, st)
    else if negb (revision (out_progress st') =? revision before_capture) then
      if deadline && expired r then Some (timed_out st')
      else st' ← output_events st' (while_waiting r); wait_loop scanner st' rounds
    else if closed (out_progress st') then
      Some ({| wc_matched := false; wc_timed_out := false; wc_exited := true |}, st')
    else if deadline then
      if expired r then Some (timed_out st')
      else
        st' ← output_events st' (while_waiting r);
        if wait_timed_out r && (revision (out_progress st') =? revision before_capture)
        then Some (timed_out st')
        else wait_loop scanner st' rounds
    else st' ← output_events st' (while_waiting r); wait_loop scanner st' rounds
  | _, _ => None
  end.
End wait_loop.

Definition wait_for_session_contains (needle : str) (start : option Z) (deadline : bool)
    (st : SessionOutput) (rounds : list Round)
    : result NeedleError (option (WaitContainsResult * SessionOutput)) :=
  _ ← validate_wait_contains_needle needle;
  Ok (wait_loop needle start deadline WaitContainsScanner_default st rounds).

(** ** The answer is about the output *)

Definition capture_contains (needle : str) (start : option Z) (st : SessionOutput) : bool :=
  contains needle
    (terminal_capture_from_state (capture_bytes (out_ring st) start None)
       TerminalCaptureState_default).1.

Definition event_weight (ev : OutputEvent) : Z :=
  match ev with AppendRing bytes => 1 + len bytes | _ => 1 end.
Definition events_weight (evs : list OutputEvent) : Z := foldr (λ ev n, event_weight ev + n) 0 evs.
Definition round_weight (r : Round) : Z := events_weight (before_check r) + events_weight (while_waiting r).
Definition rounds_weight (rs : list Round) : Z := foldr (λ r n, round_weight r + n) 0 rs.

(** [output] is what the terminal wrote; [budget] bounds what is still to come. *)
Definition output_inv (output : list byte) (budget : Z) (st : SessionOutput) : Prop :=
  out_ring st = ring_of output ∧
  total_bytes (out_progress st) + default 0 (out_appending st) = len output ∧
  0 ≤ default 0 (out_appending st) ∧ 0 ≤ total_bytes (out_progress st) ∧
  0 ≤ revision (out_progress st) ∧
  (closed (out_progress st) = true → out_appending st = None) ∧
  revision (out_progress st) + len output + budget ≤ u64_max.

(** The progress counter tells every completed change. *)
Definition output_le (st st' : SessionOutput) : Prop :=
  revision (out_progress st) ≤ revision (out_progress st') ∧
  (revision (out_progress st') = revision (out_progress st) →
   out_progress st' = out_progress st ∧
   (out_appending st' = None → out_appending st = None ∧ out_ring st' = out_ring st)).

#[export] Instance output_le_preorder : PreOrder output_le.
Proof.
  split; [by intros st|]. intros a b c [Hab Hab'] [Hbc Hbc']. split; [lia|]. intros Heq.
  destruct Hbc' as [Hp Ha]; [lia|]. destruct Hab' as [Hp' Ha']; [congruence|].
  split; [congruence|]. intros Hn. destruct (Ha Hn) as [Hn' ?]. destruct (Ha' Hn'). split; congruence.
Qed.

Lemma event_weight_pos ev : 1 ≤ event_weight ev.
Proof. destruct ev as [bs| | |]; simpl; try lia. pose proof (len_nonneg bs). lia. Qed.

Lemma events_weight_nonneg evs : 0 ≤ events_weight evs.
Proof. induction evs as [|ev evs IH]; simpl; [done|]. pose proof (event_weight_pos ev). lia. Qed.

Lemma rounds_weight_nonneg rs : 0 ≤ rounds_weight rs.
Proof.
  induction rs as [|r rs IH]; simpl; [done|]. unfold round_weight.
  pose proof (events_weight_nonneg (before_check r)). pose proof (events_weight_nonneg (while_waiting r)). lia.
Qed.

Lemma rounds_weight_cons r rs :
  rounds_weight (r :: rs) =
  events_weight (before_check r) + (events_weight (while_waiting r) + rounds_weight rs).
Proof. rewrite Z.add_assoc. done. Qed.

Lemma output_inv_budget output b b' st : b' ≤ b → output_inv output b st → output_inv output b' st.
Proof. unfold output_inv. intros H (?&?&?&?&?&?&?). do 6 (split; [done|]). lia. Qed.

Lemma revision_step r b : 0 ≤ r → r + 1 + b ≤ u64_max → 0 ≤ b → (r + 1) mod 2 ^ 64 = r + 1.
Proof. unfold u64_max. intros. apply Z.mod_small. lia. Qed.

Lemma output_event_inv output budget st ev st' :
  0 ≤ budget →
  output_inv output (event_weight ev + budget) st → output_event st ev = Some st' →
  ∃ more, output_inv (output ++ more) budget st' ∧ output_le st st'.
Proof.
  intros Hb (Hr & Ht & Ha & Htot & Hrev & Hcl & Hmax) Hev. pose proof (len_nonneg output).
  unfold output_event in Hev.
  destruct ev as [bytes| | |], (out_appending st) as [n|] eqn:Hap; simplify_eq/=.
  - pose proof (len_nonneg bytes). destruct (closed (out_progress st)) eqn:Hc; simplify_eq/=.
    exists bytes. split; [|by split].
    unfold output_inv. cbn. rewrite len_app Hr append_ring_bytes_output Hc.
    repeat split; try done; lia.
  - exists []. rewrite app_nil_r. pose proof (revision_step (revision (out_progress st)) budget) as Hs.
    unfold output_inv, output_le. cbn. rewrite Hs; [|lia..]. unfold saturating_add.
    repeat split; try done; lia.
  - destruct (closed (out_progress st)) eqn:Hc; simplify_eq/=.
    exists []. rewrite app_nil_r. pose proof (revision_step (revision (out_progress st)) budget) as Hs.
    unfold output_inv, output_le. cbn. rewrite Hs; [|lia..]. repeat split; try done; lia.
  - exists []. rewrite app_nil_r. split; [|by split]. unfold output_inv. cbn.
    repeat split; try done; simpl; lia.
  - exists []. rewrite app_nil_r. split; [|by split]. unfold output_inv. cbn.
    repeat split; try done; simpl; lia.
Qed.

Lemma output_events_inv output budget st evs st' :
  0 ≤ budget →
  output_inv output (events_weight evs + budget) st → output_events st evs = Some st' →
  ∃ more, output_inv (output ++ more) budget st' ∧ output_le st st'.
Proof.
  intros Hb. revert output st. induction evs as [|ev evs IH]; intros output st Hinv Hev; simplify_eq/=.
  { exists []. rewrite app_nil_r. by split. }
  apply bind_Some in Hev as (st1 & H1 & H2). pose proof (events_weight_nonneg evs).
  eapply (output_event_inv output (events_weight evs + budget)) in H1 as (m1 & Hi1 & Hl1);
    [|lia|by rewrite Z.add_assoc].
  apply (IH (output ++ m1)) in H2 as (m2 & Hi2 & Hl2); [|done].
  exists (m1 ++ m2). rewrite assoc_L. split; [done|]. by etrans.
Qed.

Lemma output_inv_new budget : budget ≤ u64_max → output_inv [] budget SessionOutput_new.
Proof. intros H. unfold output_inv. cbn. repeat split; try done; lia. Qed.

Section wait_loop_theorems.
Context (needle : str) (start : option Z) (deadline : bool).

Definition answer_ok (answer : WaitContainsResult * SessionOutput) : Prop :=
  let '(r, st) := answer in
  if wc_matched r then capture_contains needle start st = true
  else if wc_timed_out r then deadline = true
  else wc_exited r = true ∧ capture_contains needle start st = false ∧
       closed (out_progress st) = true ∧ out_appending st = None.

(** A scan under [output_state] answers for the state it reads. *)
Lemma scan_answers_state output budget sc st :
  output_inv output budget st → 0 ≤ budget → out_appending st = None → scanner_inv needle sc output →
  let '(matched, sc') :=
    scanner_contains sc (out_ring st) (total_bytes (out_progress st)) start needle in
  matched = capture_contains needle start st ∧ scanner_inv needle sc' output.
Proof.
  intros (Hr & Ht & _ & _ & Hrev & _ & Hmax) Hb Hap Hsc. rewrite Hap /= in Ht.
  unfold capture_contains. rewrite Hr (_ : total_bytes (out_progress st) = len output); [|lia].
  apply scanner_contains_step; [lia|done].
Qed.

Lemma wait_loop_ok output sc st rounds answer :
  output_inv output (rounds_weight rounds) st → scanner_inv needle sc output →
  wait_loop needle start deadline sc st rounds = Some answer → answer_ok answer.
Proof.
  revert output sc st answer.
  induction rounds as [|r rounds IH]; intros output sc st answer Hinv Hsc Hrun; [done|].
  cbn [wait_loop] in Hrun. destruct (out_appending st) as [|] eqn:Hap; [done|].
  pose proof (rounds_weight_nonneg (r :: rounds)) as Hw. pose proof (rounds_weight_nonneg rounds) as Hw'.
  pose proof (scan_answers_state output _ sc st Hinv Hw Hap Hsc) as Hscan.
  destruct (scanner_contains _ _ _ _ _) as [matched sc']. destruct Hscan as [Hm Hsc'].
  apply bind_Some in Hrun as (st1 & H1 & Hrun).
  rewrite rounds_weight_cons in Hinv. pose proof (events_weight_nonneg (while_waiting r)).
  apply (output_events_inv output (events_weight (while_waiting r) + rounds_weight rounds))
    in H1 as (m1 & Hi1 & Hle1); [|lia|done].
  assert (∀ st2 a, output_events st1 (while_waiting r) = Some st2 →
    wait_loop needle start deadline sc' st2 rounds = Some a → answer_ok a) as Hloop.
  { intros st2 a H2 Ha.
    apply (output_events_inv (output ++ m1) (rounds_weight rounds)) in H2 as (m2 & Hi2 & _); [|done..].
    eapply (IH ((output ++ m1) ++ m2)); [done| |done]. by do 2 apply scanner_inv_grow. }
  destruct matched; simplify_eq/=; [done|].
  destruct (revision (out_progress st1) =? revision (out_progress st)) eqn:Hrev; simpl in Hrun.
  2:{ destruct deadline eqn:Hd; simpl in Hrun; [destruct (expired r); simplify_eq/=; [done|]|];
      apply bind_Some in Hrun as (st2 & H2 & Hrun); by eapply Hloop. }
  destruct Hle1 as [_ Hle1]. apply Z.eqb_eq in Hrev. destruct (Hle1 Hrev) as [Hp Ha].
  destruct (closed (out_progress st1)) eqn:Hcl; simplify_eq/=.
  - destruct Hi1 as (_ & _ & _ & _ & _ & Hc1 & _). destruct (Ha (Hc1 Hcl)) as [_ Hring].
    unfold capture_contains in *. rewrite Hring. auto.
  - destruct deadline eqn:Hd; [destruct (expired r); simplify_eq/=; [done|]|];
      apply bind_Some in Hrun as (st2 & H2 & Hrun); [|by eapply Hloop].
    destruct (wait_timed_out r && _); simplify_eq/=; [done|by eapply Hloop].
Qed.
End wait_loop_theorems.

(** The answer of a wait is about the output as it is: a match means that the text is in
    the sanitized capture from the start coordinate; an unmatched end means that the reader
    thread has closed the output and the final capture does not hold the text, no change
    between the last look and the check being missed; and the only other answer is the
    timeout of a wait that has one. *)
Theorem wait_answer_sound needle start deadline evs st rounds answer :
  output_events SessionOutput_new evs = Some st →
  events_weight evs + rounds_weight rounds ≤ u64_max →
  wait_for_session_contains needle start deadline st rounds = Ok (Some answer) →
  answer_ok needle start deadline answer.
Proof.
  intros Hst Hw Hrun. unfold wait_for_session_contains in Hrun. inv_ok. simplify_eq.
  eapply (output_events_inv [] (rounds_weight rounds)) in Hst as (m & Hinv & _);
    [|apply rounds_weight_nonneg|by apply output_inv_new].
  eapply wait_loop_ok; [done| |done]. done.
Qed.

(** Output arrives between the look and the check, and the reader closes. *)
Lemma wait_answer_sound_witness :
  answer_ok (lit "bc") None false
    ({| wc_matched := true; wc_timed_out := false; wc_exited := false |},
     {| out_ring := lit "abc"; out_progress := {| revision := 3; closed := true; total_bytes := 3 |};
        out_appending := None; out_alive := true |}).
Proof.
  apply (wait_answer_sound (lit "bc") None false [AppendRing (lit "ab"); MarkChanged]
    {| out_ring := lit "ab"; out_progress := {| revision := 1; closed := false; total_bytes := 2 |};
       out_appending := None; out_alive := true |}
    [ {| before_check := [AppendRing (lit "c"); MarkChanged]; expired := false;
         while_waiting := [Close]; wait_timed_out := false |};
      {| before_check := []; expired := false; while_waiting := []; wait_timed_out := false |} ]);
    vm_compute; congruence.
Defined.

(** Once the reader thread is gone, one look decides. *)
Lemma wait_ends_with_output needle start deadline evs st st' sc r rounds :
  output_events SessionOutput_new evs = Some st → events_weight evs + events_weight (before_check r) ≤ u64_max →
  closed (out_progress st) = true → output_events st (before_check r) = Some st' →
  is_Some (wait_loop needle start deadline sc st (r :: rounds)).
Proof.
  intros Hst Hw Hcl Hev.
  assert (∀ evs st st', closed (out_progress st) = true → out_appending st = None →
    output_events st evs = Some st' → out_progress st' = out_progress st) as Hquiet.
  { clear. induction evs as [|ev evs IH]; intros st st' Hc Ha H; simplify_eq/=; [done|].
    apply bind_Some in H as (st1 & H1 & H2). unfold output_event in H1.
    destruct ev; rewrite Ha ?Hc in H1; simplify_eq. by apply IH in H2. }
  eapply (output_events_inv [] (events_weight (before_check r))) in Hst as (m & Hinv & _);
    [|apply events_weight_nonneg|by apply output_inv_new].
  destruct Hinv as (_ & _ & _ & _ & _ & Hc & _). cbn [wait_loop]. rewrite (Hc Hcl).
  destruct (scanner_contains _ _ _ _ _) as [[] sc']; rewrite Hev /=; [done|].
  rewrite (Hquiet _ _ _ Hcl (Hc Hcl) Hev) Z.eqb_refl Hcl. done.
Qed.
