(* ===== verification/TerminalPrefix.v ===== *)
(** The unfinished control sequence at the end of a session's output
    ([TerminalPrefixTracker] in [server.rs]), the detector of the alternate screen
    ([AltEnterDetector]) and the geometry rules.

    A client that attaches gets the screen as the terminal parser holds it and then the
    pending bytes, so that the live bytes that follow continue the sequence. *)
From S2P Require Import Prelude Utf8 Text OutputRing.

(** ** [TerminalPrefixTracker] *)

Inductive TerminalPrefixState : Set :=
  | PrefixGround | PrefixEscape | PrefixCsi | PrefixString | PrefixStringEscape.

#[export] Instance TerminalPrefixState_eq : EqDecision TerminalPrefixState.
Proof. solve_decision. Defined.

Record TerminalPrefixTracker : Set := {
  prefix_state : TerminalPrefixState;
  pending : list byte;
  utf8_remaining : Z;
}.

Definition TerminalPrefixTracker_default : TerminalPrefixTracker :=
  {| prefix_state := PrefixGround; pending := []; utf8_remaining := 0 |}.

Definition MAX_PENDING_ESCAPE_BYTES : Z := 8192.

Definition is_utf8_continuation (t : TerminalPrefixTracker) (byte : byte) : bool :=
  (0 <? utf8_remaining t) && within 0x80 0xbf byte.

(** The new [utf8_remaining] of [update_utf8_state]. *)
Definition update_utf8_state (utf8_remaining : Z) (byte : byte) : Z :=
  if (0 <? utf8_remaining) && within 0x80 0xbf byte then utf8_remaining - 1
  else if within 0xc2 0xdf byte then 1
  else if within 0xe0 0xef byte then 2
  else if within 0xf0 0xf4 byte then 3
  else 0.

Definition process_ground (byte : byte) (raw_c1 : bool) : TerminalPrefixState * list Z :=
  if byte =? 0x1b then (PrefixEscape, [byte])
  else if ((byte =? 0x90) || (byte =? 0x98) || within 0x9d 0x9f byte) && raw_c1
  then (PrefixString, [byte])
  else if (byte =? 0x9b) && raw_c1 then (PrefixCsi, [byte])
  else (PrefixGround, []).

Definition process_escape (pending : list byte) (byte : byte) : TerminalPrefixState * list Z :=
  if byte =? 0x5b then (PrefixCsi, pending ++ [byte])
  else if (byte =? 0x5d) || (byte =? 0x50) || (byte =? 0x58) || (byte =? 0x5e) || (byte =? 0x5f)
  then (PrefixString, pending ++ [byte])
  else if byte =? 0x1b then (PrefixEscape, [byte])
  else (PrefixGround, []).

Definition process_csi (pending : list byte) (byte : byte) (raw_c1 : bool)
    : TerminalPrefixState * list Z :=
  if (byte =? 0x18) || (byte =? 0x1a) then (PrefixGround, [])
  else if (byte =? 0x9c) && raw_c1 then (PrefixGround, [])
  else if byte =? 0x1b then (PrefixEscape, [byte])
  else if within 0x40 0x7e byte then (PrefixGround, [])
  else (PrefixCsi, pending ++ [byte]).

Definition process_string (pending : list byte) (byte : byte) (raw_c1 : bool)
    : TerminalPrefixState * list Z :=
  if (byte =? 0x07) || (byte =? 0x18) || (byte =? 0x1a) then (PrefixGround, [])
  else if (byte =? 0x9c) && raw_c1 then (PrefixGround, [])
  else if byte =? 0x1b then (PrefixStringEscape, pending ++ [byte])
  else (PrefixString, pending ++ [byte]).

Definition process_string_escape (pending : list byte) (byte : byte) (raw_c1 : bool)
    : TerminalPrefixState * list Z :=
  if (byte =? 0x5c) || (byte =? 0x18) || (byte =? 0x1a) then (PrefixGround, [])
  else if (byte =? 0x9c) && raw_c1 then (PrefixGround, [])
  else if byte =? 0x1b then (PrefixStringEscape, pending ++ [byte])
  else (PrefixString, pending ++ [byte]).

Definition process_byte (t : TerminalPrefixTracker) (byte : byte) : TerminalPrefixTracker :=
  let raw_c1 := negb (is_utf8_continuation t byte) in
  let '(state, pending) :=
    match prefix_state t with
    | PrefixGround => process_ground byte raw_c1
    | PrefixEscape => process_escape (pending t) byte
    | PrefixCsi => process_csi (pending t) byte raw_c1
    | PrefixString => process_string (pending t) byte raw_c1
    | PrefixStringEscape => process_string_escape (pending t) byte raw_c1
    end in
  let utf8_remaining := update_utf8_state (utf8_remaining t) byte in
  if MAX_PENDING_ESCAPE_BYTES <? len pending
  then {| prefix_state := PrefixGround; pending := []; utf8_remaining := utf8_remaining |}
  else {| prefix_state := state; pending := pending; utf8_remaining := utf8_remaining |}.

Definition tracker_process (t : TerminalPrefixTracker) (bytes : list byte) : TerminalPrefixTracker :=
  foldl process_byte t bytes.

Definition pending_bytes (t : TerminalPrefixTracker) : list byte := pending t.

(** ** [AltEnterDetector] *)

Inductive AltEnterDetector : Set := AltGround | AltEscape | AltCsi (params : list byte).

Definition from_pending_prefix (pending_control_prefix : list byte) : AltEnterDetector :=
  if is_prefix [0x9b] pending_control_prefix then AltCsi (drop 1 pending_control_prefix)
  else if is_prefix [0x1b; 0x5b] pending_control_prefix then AltCsi (drop 2 pending_control_prefix)
  else if bool_decide (pending_control_prefix = [0x1b]) then AltEscape
  else AltGround.

Definition is_alt_enter_csi (d : AltEnterDetector) : bool :=
  match d with
  | AltCsi (0x3f :: private_modes) =>
    existsb (λ param, bool_decide (param ∈ [lit "47"; lit "1047"; lit "1049"]))
      (split_on 0x3b private_modes)
  | _ => false
  end.

Definition detector_process (d : AltEnterDetector) (byte : byte) : AltEnterDetector :=
  match d with
  | AltGround => if byte =? 0x1b then AltEscape else if byte =? 0x9b then AltCsi [] else AltGround
  | AltEscape =>
    if byte =? 0x5b then AltCsi [] else if byte =? 0x1b then AltEscape
    else if byte =? 0x9b then AltCsi [] else AltGround
  | AltCsi params =>
    if byte =? 0x1b then AltEscape
    else if within 0x40 0x7e byte then AltGround
    else AltCsi (params ++ [byte])
  end.

Definition should_scan_for_alt_enter (bytes pending_control_prefix : list byte) : bool :=
  bool_decide (0x68 ∈ bytes) &&
  (bool_decide (0x1b ∈ bytes) || bool_decide (0x9b ∈ bytes) || negb (bool_decide (pending_control_prefix = []))).

(** ** Theorems on the tracker *)

Lemma tracker_process_app t a b : tracker_process t (a ++ b) = tracker_process (tracker_process t a) b.
Proof. apply foldl_app. Qed.

(** Inside a sequence, replaying the pending bytes rebuilds the tracker, and the pending
    bytes are the end of the output. *)
Definition tracker_inv (output : list byte) (t : TerminalPrefixTracker) : Prop :=
  pending t `suffix_of` output ∧ len (pending t) ≤ MAX_PENDING_ESCAPE_BYTES ∧
  (prefix_state t = PrefixGround → pending t = []) ∧
  (prefix_state t ≠ PrefixGround → tracker_process TerminalPrefixTracker_default (pending t) = t).

Lemma update_utf8_small u b : within 0xc2 0xf4 b = false → ((0 <? u) && within 0x80 0xbf b) = false →
  update_utf8_state u b = 0.
Proof.
  intros Hb Hc. unfold update_utf8_state. rewrite Hc. unfold within in *.
  repeat case_match; try done; lia.
Qed.

(** The byte that opens a sequence opens it from scratch too. *)
Lemma process_byte_opens u b state pending :
  process_ground b (negb ((0 <? u) && within 0x80 0xbf b)) = (state, pending) →
  state ≠ PrefixGround →
  pending = [b] ∧
  process_byte TerminalPrefixTracker_default b =
    {| prefix_state := state; pending := [b]; utf8_remaining := update_utf8_state u b |}.
Proof.
  intros Hg Hs. set (c := (0 <? u) && within 0x80 0xbf b) in *.
  assert (process_ground b true = (state, [b]) ∧ pending = [b] ∧
    within 0xc2 0xf4 b = false ∧ c = false) as (Hg' & -> & Hb & Hc).
  { subst c. unfold process_ground, within in *. repeat case_match; simplify_eq; repeat split; lia. }
  split; [done|]. unfold process_byte. cbn [prefix_state TerminalPrefixTracker_default utf8_remaining].
  unfold is_utf8_continuation. cbn [negb andb Z.ltb Z.compare utf8_remaining].
  rewrite Hg' !update_utf8_small //.
Qed.

(** What a byte does to the pending bytes: drop them, restart them or extend them. *)
Lemma process_byte_cases t b :
  (prefix_state t = PrefixGround → pending t = []) →
  let t' := process_byte t b in
  len (pending t') ≤ MAX_PENDING_ESCAPE_BYTES ∧
  ((prefix_state t' = PrefixGround ∧ pending t' = []) ∨
   (prefix_state t' ≠ PrefixGround ∧ pending t' = [b] ∧ process_byte TerminalPrefixTracker_default b = t') ∨
   (prefix_state t' ≠ PrefixGround ∧ prefix_state t ≠ PrefixGround ∧ pending t' = pending t ++ [b])).
Proof.
  intros H0. cbn zeta. unfold process_byte. set (u := utf8_remaining t). unfold is_utf8_continuation. fold u.
  destruct (match prefix_state t with PrefixGround => _ | _ => _ end) as [s p] eqn:E.
  destruct (MAX_PENDING_ESCAPE_BYTES <? len p) eqn:Hlen; cbn [prefix_state pending].
  { split; [done|]. by left. }
  split; [lia|]. destruct (decide (s = PrefixGround)) as [->|Hs].
  { left. split; [done|].
    destruct (prefix_state t); unfold process_ground, process_escape, process_csi, process_string,
      process_string_escape in E; repeat case_match; by simplify_eq. }
  right. destruct (decide (process_ground b (negb ((0 <? u) && within 0x80 0xbf b)) = (s, p))) as [Hg|Hg].
  { left. destruct (process_byte_opens u b s p Hg Hs) as [-> Hp]. by rewrite -Hp. }
  right. assert (prefix_state t ≠ PrefixGround) as Hn by (by destruct (prefix_state t)).
  do 2 (split; [done|]).
  destruct (prefix_state t); [done|..]; unfold process_ground, process_escape, process_csi, process_string,
    process_string_escape in *; repeat case_match; simplify_eq; done.
Qed.

Lemma tracker_inv_step output t b : tracker_inv output t → tracker_inv (output ++ [b]) (process_byte t b).
Proof.
  intros ([k Hk] & _ & H0 & Hre). destruct (process_byte_cases t b H0) as [Hlen Hcases].
  destruct Hcases as [[Hs Hp]|[(Hs & Hp & Ht)|(Hs & Hs' & Hp)]].
  - split; [rewrite Hp; apply suffix_nil|]. split; [done|]. by split.
  - split; [rewrite Hp; by eexists|]. split; [done|]. split; [done|]. intros _. by rewrite Hp.
  - split; [rewrite Hp Hk; exists k; by rewrite assoc_L|]. split; [done|]. split; [done|]. intros _.
    by rewrite Hp tracker_process_app (Hre Hs').
Qed.

Lemma tracker_inv_process output t bytes :
  tracker_inv output t → tracker_inv (output ++ bytes) (tracker_process t bytes).
Proof.
  revert output t. induction bytes as [|b bytes IH]; intros output t H; [by rewrite app_nil_r|].
  rewrite (_ : output ++ b :: bytes = (output ++ [b]) ++ bytes); [|by rewrite -assoc_L].
  apply IH, tracker_inv_step, H.
Qed.

Lemma tracker_inv_default : tracker_inv [] TerminalPrefixTracker_default.
Proof. split; [done|]. split; [done|]. by split. Qed.

(** C15: The pending bytes of the tracker are the end of the output, at most 8192 bytes, none
    outside a control sequence; inside one they carry all there is to know: a fresh tracker
    fed the pending bytes and then any live output is where the tracker of the whole output
    is, so that a snapshot that ends in them can be continued by the live output. *)
Theorem pending_prefix_resumes output live :
  let t := tracker_process TerminalPrefixTracker_default output in
  pending_bytes t `suffix_of` output ∧ len (pending_bytes t) ≤ MAX_PENDING_ESCAPE_BYTES ∧
  (prefix_state t = PrefixGround → pending_bytes t = []) ∧
  (prefix_state t ≠ PrefixGround →
   tracker_process (tracker_process TerminalPrefixTracker_default (pending_bytes t)) live =
   tracker_process TerminalPrefixTracker_default (output ++ live)).
Proof.
  cbn zeta. rewrite tracker_process_app.
  destruct (tracker_inv_process [] _ output tracker_inv_default) as (Hs & Hl & H0 & Hre).
  do 3 (split; [done|]). intros H. unfold pending_bytes. by rewrite (Hre H).
Qed.

(** A sequence cut inside its introducer. *)
Example pending_prefix_example :
  pending_bytes (tracker_process TerminalPrefixTracker_default (lit "ls" ++ 0x1b :: lit "[31")) =
  0x1b :: lit "[31".
Proof. vm_compute. reflexivity. Qed.

(** ** The detector takes over where the tracker stands *)

Definition csi_body (b : byte) : bool := negb (b =? 0x1b) && negb (within 0x40 0x7e b).

Definition pending_shape (t : TerminalPrefixTracker) : Prop :=
  match prefix_state t with
  | PrefixGround => pending t = []
  | PrefixEscape => pending t = [0x1b]
  | PrefixCsi =>
    ∃ ps, (pending t = 0x9b :: ps ∨ pending t = 0x1b :: 0x5b :: ps) ∧
          Forall (λ b, csi_body b = true) ps
  | PrefixString | PrefixStringEscape =>
    from_pending_prefix (pending t) = AltGround ∧
    match pending t with [] => False | [b] => b ≠ 0x1b | _ => True end
  end.

Lemma from_pending_prefix_string p b :
  from_pending_prefix p = AltGround → match p with [] => False | [b] => b ≠ 0x1b | _ => True end →
  from_pending_prefix (p ++ [b]) = AltGround.
Proof.
  unfold from_pending_prefix. destruct p as [|x [|y p]]; [done|..]; simpl; intros H Hp.
  - repeat case_bool_decide; simplify_eq/=; done.
  - destruct p; simpl in *; repeat case_bool_decide; simplify_eq/=; try done.
Qed.

Ltac byte_cases :=
  repeat case_match; simplify_eq/=; inv_ok;
  repeat match goal with H : (_ =? _) = true |- _ => apply Z.eqb_eq in H; subst end.

Lemma pending_shape_step t b : pending_shape t → pending_shape (process_byte t b).
Proof.
  unfold process_byte, pending_shape. generalize (negb (is_utf8_continuation t b)). intros raw Hsh.
  destruct (match prefix_state t with PrefixGround => _ | _ => _ end) as [s p] eqn:E.
  destruct (MAX_PENDING_ESCAPE_BYTES <? len p); [done|]. cbn [prefix_state pending].
  destruct (prefix_state t) eqn:Hst.
  - unfold process_ground, within in E. byte_cases; try done; try (exists []; split; [by left|done]).
    all: unfold from_pending_prefix; simpl; repeat case_bool_decide; simplify_eq; try done; try lia.
    all: split; [done|lia].
  - rewrite Hsh in E. unfold process_escape in E. byte_cases; try done.
    + exists []. split; [by right|done].
    + split; [|done]. unfold from_pending_prefix; simpl; repeat case_bool_decide; simplify_eq; done.
  - destruct Hsh as (ps & Hp & Hps). unfold process_csi in E. byte_cases; try done.
    exists (ps ++ [b]). split; [destruct Hp as [-> | ->]; by [left|right]|].
    apply Forall_app_2; [done|]. constructor; [|done]. unfold csi_body.
    repeat match goal with H : _ = false |- _ => rewrite H end. done.
  - destruct Hsh as [Hp Hne]. pose proof (from_pending_prefix_string _ b Hp Hne).
    unfold process_string in E. byte_cases; try done; (split; [done|]); by destruct (pending t) as [|? []].
  - destruct Hsh as [Hp Hne]. pose proof (from_pending_prefix_string _ b Hp Hne).
    unfold process_string_escape in E. byte_cases; try done; (split; [done|]); by destruct (pending t) as [|? []].
Qed.
