(* ===== verification/SessionOutput.v ===== *)
(** The output side of a session: the terminal state kept for new attaches, the attached
    clients and their bounded channels, the broadcast of output and the terminal size
    ([Session::append_output], [broadcast_chunk], [subscribe_with_snapshot_and_apply_clamp],
    [unsubscribe] and the [Resize] request in [server.rs]).

    The terminal parser is the [vt100] crate: the operations the source calls are a class,
    and [None] is a panic of the crate, which the source catches.  A client's channel is a
    bounded queue in a store keyed by the subscriber's id, because the broadcast works on
    clones of the senders and may still hold one after the client left.  What a thread
    does under one lock is one event of a session; the interleavings are the event lists. *)
From S2P Require Import Prelude Utf8 OutputRing WaitContains TerminalPrefix.

Abbreviation chunk := (list byte) (only parsing).

Class Vt100 := {
  Parser : Type;
  Screen : Type;
  parser_new : Z → Z → Parser;
  parser_screen : Parser → Screen;
  parser_process : Parser → list byte → option Parser;
  parser_set_size : Parser → Z → Z → option Parser;
  alternate_screen : Screen → bool;
  set_scrollback_0 : Screen → Screen;
  set_size : Screen → Z → Z → option Screen;
  state_formatted : Screen → option (list byte);
}.

(** ** Geometry *)

Definition MAX_TERMINAL_ROWS : Z := 1000.
Definition MAX_TERMINAL_COLS : Z := 1000.
Definition MAX_TERMINAL_CELLS : Z := 200000.

Inductive SessionError : Set :=
  | GeometryMissing | GeometryZero | GeometryTooLarge | GeometryTooManyCells
  | TooManySubscribers | SnapshotPushFailed | NotAttached | PtyResizeFailed.

(** The product of two [u16]s fits the [u32] it is computed in. *)
Definition validate_terminal_geometry (rows cols : Z) : result SessionError unit :=
  bail_if ((rows =? 0) || (cols =? 0)) GeometryZero ;;
  bail_if ((MAX_TERMINAL_ROWS <? rows) || (MAX_TERMINAL_COLS <? cols)) GeometryTooLarge ;;
  bail_if (MAX_TERMINAL_CELLS <? rows * cols) GeometryTooManyCells.

Definition initial_pty_size (rows cols : option Z) : result SessionError (Z * Z) :=
  let rows := default 24 rows in
  let cols := default 80 cols in
  validate_terminal_geometry rows cols ;; Ok (rows, cols).

(** [tx] and [on_evict] are named by [sub_id]: the channel store and the calls made. *)
Record Subscriber : Set := { sub_id : Z; sub_rows : Z; sub_cols : Z }.

Definition clamp_to_smallest_with_candidate (subscribers : list Subscriber) (rows cols : Z) : Z * Z :=
  foldl (λ '(rows, cols) sub, (rows `min` sub_rows sub, cols `min` sub_cols sub)) (rows, cols) subscribers.

Definition clamp_to_smallest (subscribers : list Subscriber) : option (Z * Z) :=
  match subscribers with
  | [] => None
  | first :: rest => Some (clamp_to_smallest_with_candidate rest (sub_rows first) (sub_cols first))
  end.

(** ** Channels *)

Definition SUBSCRIBER_QUEUE_LIMIT : Z := 256.
Definition MAX_SUBSCRIBERS_PER_SESSION : Z := 32.

(** [ch_taken] is what the forwarding thread has taken out of the queue. *)
Record Channel : Set := { ch_queue : list chunk; ch_connected : bool; ch_taken : list chunk }.

Definition sync_channel : Channel := {| ch_queue := []; ch_connected := true; ch_taken := [] |}.

Definition ch_sent (ch : Channel) : list chunk := ch_taken ch ++ ch_queue ch.

Inductive TrySend : Set := Sent (ch : Channel) | Full | Disconnected.

Definition channel_try_send (ch : Channel) (c : chunk) : TrySend :=
  if negb (ch_connected ch) then Disconnected
  else if SUBSCRIBER_QUEUE_LIMIT <=? len (ch_queue ch) then Full
  else Sent {| ch_queue := ch_queue ch ++ [c]; ch_connected := true; ch_taken := ch_taken ch |}.

Definition try_send (chans : gmap Z Channel) (id : Z) (c : chunk) : TrySend :=
  match chans !! id with Some ch => channel_try_send ch c | None => Disconnected end.

(** ** The broadcast

    [bc_todo] are the clients the current pass has not tried yet, [bc_pending] those it
    found full. *)

Record Broadcast : Set := {
  bc_chunk : chunk;
  bc_todo : list Z;
  bc_pending : list Z;
  bc_disconnected : list Z;
}.

(** The start of the first pass of [broadcast_chunk]. *)
Definition broadcast_start (c : chunk) (subscribers : list Subscriber) : Broadcast :=
  {| bc_chunk := c; bc_todo := sub_id <$> subscribers; bc_pending := []; bc_disconnected := [] |}.

(** One [try_send] of either pass. *)
Definition broadcast_try (b : Broadcast) (chans : gmap Z Channel) : option (Broadcast * gmap Z Channel) :=
  match bc_todo b with
  | [] => None
  | id :: todo =>
    match try_send chans id (bc_chunk b) with
    | Sent ch =>
      Some ({| bc_chunk := bc_chunk b; bc_todo := todo; bc_pending := bc_pending b;
               bc_disconnected := bc_disconnected b |}, <[id := ch]> chans)
    | Full =>
      Some ({| bc_chunk := bc_chunk b; bc_todo := todo; bc_pending := bc_pending b ++ [id];
               bc_disconnected := bc_disconnected b |}, chans)
    | Disconnected =>
      Some ({| bc_chunk := bc_chunk b; bc_todo := todo; bc_pending := bc_pending b;
               bc_disconnected := bc_disconnected b ++ [id] |}, chans)
    end
  end.

(** The next round over the pending ones: [now < deadline]. *)
Definition broadcast_round (b : Broadcast) : option Broadcast :=
  match bc_todo b, bc_pending b with
  | [], _ :: _ =>
    Some {| bc_chunk := bc_chunk b; bc_todo := bc_pending b; bc_pending := [];
            bc_disconnected := bc_disconnected b |}
  | _, _ => None
  end.

(** The end of the loop, with nothing pending or with the deadline passed. *)
Definition broadcast_end (b : Broadcast) : option (list Z) :=
  match bc_todo b with
  | [] => Some (bc_disconnected b ++ bc_pending b)
  | _ => None
  end.

Definition evict_disconnected_subscribers (subscribers : list Subscriber) (disconnected : list Z)
    : list Subscriber * list Z :=
  (List.filter (λ sub, negb (bool_decide (sub_id sub ∈ disconnected))) subscribers,
   sub_id <$> List.filter (λ sub, bool_decide (sub_id sub ∈ disconnected)) subscribers).

(** ** The session *)

Section session.
Context `{V : Vt100}.

(** The terminal state an attach snapshot is made from. *)
Record Terminal := {
  terminal_screen : Parser;
  terminal_normal_screen : Screen;
  terminal_pending : TerminalPrefixTracker;
  terminal_parser_degraded : bool;
  styled_screen_revision : Z;
}.

Record Session := {
  s_ring : list byte;
  s_progress : OutputProgress;
  s_terminal : Terminal;
  s_subscribers : list Subscriber;
  s_next_subscriber_id : Z;
  s_size : Z * Z;                    (* rows, cols: the size last given to the terminal *)
  s_channels : gmap Z Channel;
  s_broadcast : option Broadcast;    (* the append that holds [broadcast_order] *)
  s_evict_calls : list Z;            (* the [on_evict] hooks called *)
}.

Definition with_terminal (s : Session) (t : Terminal) : Session := {|
  s_ring := s_ring s; s_progress := s_progress s; s_terminal := t;
  s_subscribers := s_subscribers s; s_next_subscriber_id := s_next_subscriber_id s;
  s_size := s_size s; s_channels := s_channels s; s_broadcast := s_broadcast s;
  s_evict_calls := s_evict_calls s |}.

Definition with_subscribers (s : Session) (subs : list Subscriber) : Session := {|
  s_ring := s_ring s; s_progress := s_progress s; s_terminal := s_terminal s;
  s_subscribers := subs; s_next_subscriber_id := s_next_subscriber_id s;
  s_size := s_size s; s_channels := s_channels s; s_broadcast := s_broadcast s;
  s_evict_calls := s_evict_calls s |}.

Definition with_channels (s : Session) (chans : gmap Z Channel) : Session := {|
  s_ring := s_ring s; s_progress := s_progress s; s_terminal := s_terminal s;
  s_subscribers := s_subscribers s; s_next_subscriber_id := s_next_subscriber_id s;
  s_size := s_size s; s_channels := chans; s_broadcast := s_broadcast s;
  s_evict_calls := s_evict_calls s |}.

Definition with_broadcast (s : Session) (b : option Broadcast) : Session := {|
  s_ring := s_ring s; s_progress := s_progress s; s_terminal := s_terminal s;
  s_subscribers := s_subscribers s; s_next_subscriber_id := s_next_subscriber_id s;
  s_size := s_size s; s_channels := s_channels s; s_broadcast := b;
  s_evict_calls := s_evict_calls s |}.

Definition mark_terminal_parser_degraded (t : Terminal) : Terminal := {|
  terminal_screen := terminal_screen t; terminal_normal_screen := terminal_normal_screen t;
  terminal_pending := TerminalPrefixTracker_default; terminal_parser_degraded := true;
  styled_screen_revision := styled_screen_revision t |}.

(** [checked_add] on the [u64]; an exhausted revision degrades the terminal. *)
Definition advance_styled_screen_revision (t : Terminal) : Terminal :=
  match checked_add u64_max (styled_screen_revision t) 1 with
  | Some revision => {|
      terminal_screen := terminal_screen t; terminal_normal_screen := terminal_normal_screen t;
      terminal_pending := terminal_pending t; terminal_parser_degraded := terminal_parser_degraded t;
      styled_screen_revision := revision |}
  | None => mark_terminal_parser_degraded t
  end.

(** The byte-wise loop of [process_terminal_screen]: the screen as it was just before the
    sequence that entered the alternate screen. *)
Fixpoint alt_scan (parser : Parser) (detector : AltEnterDetector) (normal_before_alt : option Screen)
    (bytes : list byte) : option (Parser * option Screen) :=
  match bytes with
  | [] => Some (parser, normal_before_alt)
  | byte :: bytes =>
    let was_alt := alternate_screen (parser_screen parser) in
    let before_alt_enter :=
      if negb was_alt && (byte =? 0x68) && is_alt_enter_csi detector
      then Some (parser_screen parser) else None in
    parser ← parser_process parser [byte];
    let is_alt := alternate_screen (parser_screen parser) in
    let normal_before_alt :=
      if negb was_alt && is_alt then before_alt_enter else normal_before_alt in
    alt_scan parser (detector_process detector byte) normal_before_alt bytes
  end.

Definition process_terminal_screen (parser : Parser) (bytes pending_control_prefix : list byte)
    : option (Parser * option Screen) :=
  let started_alt := alternate_screen (parser_screen parser) in
  if negb started_alt && should_scan_for_alt_enter bytes pending_control_prefix then
    '(parser, normal_before_alt) ←
      alt_scan parser (from_pending_prefix pending_control_prefix) None bytes;
    Some (parser, if alternate_screen (parser_screen parser) then normal_before_alt else None)
  else
    parser ← parser_process parser bytes;
    Some (parser, if started_alt && negb (alternate_screen (parser_screen parser))
                  then Some (parser_screen parser) else None).

(** The switch of the internal tests acts here as a panic of the parser does. *)
Definition update_terminal_snapshot_state (t : Terminal) (bytes : list byte) : Terminal :=
  if terminal_parser_degraded t then t
  else
    match process_terminal_screen (terminal_screen t) bytes (pending_bytes (terminal_pending t)) with
    | Some (parser, normal_screen) => {|
        terminal_screen := parser;
        terminal_normal_screen := default (terminal_normal_screen t) normal_screen;
        terminal_pending := tracker_process (terminal_pending t) bytes;
        terminal_parser_degraded := false;
        styled_screen_revision := styled_screen_revision t |}
    | None => mark_terminal_parser_degraded t
    end.

Definition ALT_SCREEN_ENTER : list byte := 0x1b :: lit "[?1049h".

(** [None] inside is an empty snapshot, [None] outside a panic. *)
Definition screen_state_snapshot (parser : Parser) (normal_screen : Screen) (rows cols : Z)
    (pending_control_prefix : list byte) : option (option chunk) :=
  normal ←
    (if alternate_screen (parser_screen parser) then
       normal ← set_size (set_scrollback_0 normal_screen) rows cols;
       formatted ← state_formatted normal;
       Some (formatted ++ ALT_SCREEN_ENTER)
     else Some []);
  screen ← set_size (set_scrollback_0 (parser_screen parser)) rows cols;
  formatted ← state_formatted screen;
  let snapshot := normal ++ formatted ++ pending_control_prefix in
  Some (match snapshot with [] => None | _ => Some snapshot end).

Definition initial_screen_state_snapshot (t : Terminal) (rows cols : Z) : option chunk * Terminal :=
  if terminal_parser_degraded t then (None, t)
  else
    match screen_state_snapshot (terminal_screen t) (terminal_normal_screen t) rows cols
            (pending_bytes (terminal_pending t)) with
    | Some chunk => (chunk, t)
    | None => (None, mark_terminal_parser_degraded t)
    end.

Definition resize_terminal_screen (t : Terminal) (rows cols : Z) : Terminal :=
  if terminal_parser_degraded t then t
  else
    match parser_set_size (terminal_screen t) rows cols with
    | Some parser =>
      advance_styled_screen_revision {|
        terminal_screen := parser; terminal_normal_screen := terminal_normal_screen t;
        terminal_pending := terminal_pending t; terminal_parser_degraded := false;
        styled_screen_revision := styled_screen_revision t |}
    | None => mark_terminal_parser_degraded t
    end.

(** ** Output *)

(** [append_output] up to the broadcast: one critical section of [output_state]. *)
Definition append_locked (s : Session) (bytes : list byte) : Session :=
  let terminal := update_terminal_snapshot_state (s_terminal s) bytes in
  let terminal :=
    if negb (bool_decide (bytes = [])) && negb (terminal_parser_degraded terminal)
    then advance_styled_screen_revision terminal else terminal in
  {| s_ring := append_ring_bytes (s_ring s) bytes;
     s_progress := mark_output_changed (s_progress s) (len bytes);
     s_terminal := terminal;
     s_subscribers := s_subscribers s; s_next_subscriber_id := s_next_subscriber_id s;
     s_size := s_size s; s_channels := s_channels s;
     s_broadcast := match s_subscribers s with [] => None | _ => Some (broadcast_start bytes (s_subscribers s)) end;
     s_evict_calls := s_evict_calls s |}.

(** The rest of [append_output] after the broadcast: eviction, then the hooks. *)
Definition append_finish (s : Session) (disconnected : list Z) : Session :=
  let '(subs, shutdowns) := evict_disconnected_subscribers (s_subscribers s) disconnected in
  {| s_ring := s_ring s; s_progress := s_progress s; s_terminal := s_terminal s;
     s_subscribers := subs; s_next_subscriber_id := s_next_subscriber_id s;
     s_size := s_size s; s_channels := s_channels s; s_broadcast := None;
     s_evict_calls := s_evict_calls s ++ shutdowns |}.

(** ** Attaching, detaching, resizing

    [pty_ok] is the answer of the pseudo-terminal to the resize call. *)

Definition apply_pty_size (s : Session) (rows cols : Z) (pty_ok : bool) : result SessionError unit * Session :=
  if pty_ok then
    (Ok tt, {| s_ring := s_ring s; s_progress := s_progress s;
               s_terminal := resize_terminal_screen (s_terminal s) rows cols;
               s_subscribers := s_subscribers s; s_next_subscriber_id := s_next_subscriber_id s;
               s_size := (rows, cols); s_channels := s_channels s; s_broadcast := s_broadcast s;
               s_evict_calls := s_evict_calls s |})
  else (Err PtyResizeFailed, s).

Definition apply_clamped_pty_size (s : Session) (pty_ok : bool) : result SessionError unit * Session :=
  match clamp_to_smallest (s_subscribers s) with
  | None => (Ok tt, s)
  | Some (rows, cols) =>
    if bool_decide (s_size s = (rows, cols)) then (Ok tt, s)
    else apply_pty_size s rows cols pty_ok
  end.

Definition remove_subscriber (s : Session) (id : Z) : Session :=
  with_subscribers s (List.filter (λ sub, negb (sub_id sub =? id)) (s_subscribers s)).

Definition subscribe_locked (s : Session) (rows cols : Z) (initial_chunk : option chunk)
    : result SessionError Z * Session :=
  let id := s_next_subscriber_id s in
  let s := {| s_ring := s_ring s; s_progress := s_progress s; s_terminal := s_terminal s;
              s_subscribers := s_subscribers s;
              s_next_subscriber_id := (s_next_subscriber_id s + 1) mod 2 ^ 64;
              s_size := s_size s; s_channels := s_channels s; s_broadcast := s_broadcast s;
              s_evict_calls := s_evict_calls s |} in
  if MAX_SUBSCRIBERS_PER_SESSION <=? len (s_subscribers s) then (Err TooManySubscribers, s)
  else
    let s := with_channels (with_subscribers s
               (s_subscribers s ++ [{| sub_id := id; sub_rows := rows; sub_cols := cols |}]))
               (<[id := sync_channel]> (s_channels s)) in
    match initial_chunk with
    | None => (Ok id, s)
    | Some c =>
      match try_send (s_channels s) id c with
      | Sent ch => (Ok id, with_channels s (<[id := ch]> (s_channels s)))
      | _ => (Err SnapshotPushFailed, remove_subscriber s id)
      end
    end.

Definition subscribe_with_snapshot_and_apply_clamp (s : Session) (rows cols : Z) (pty_ok : bool)
    : result SessionError Z * Session :=
  if (rows =? 0) || (cols =? 0) then (Err GeometryMissing, s)
  else
    match validate_terminal_geometry rows cols with
    | Err e => (Err e, s)
    | Ok _ =>
      let '(initial_chunk, terminal) :=
        if bool_decide (s_ring s = []) then (None, s_terminal s)
        else
          let '(snapshot_rows, snapshot_cols) :=
            clamp_to_smallest_with_candidate (s_subscribers s) rows cols in
          initial_screen_state_snapshot (s_terminal s) snapshot_rows snapshot_cols in
      match subscribe_locked (with_terminal s terminal) rows cols initial_chunk with
      | (Err e, s) => (Err e, s)
      | (Ok subscriber_id, s) =>
        match apply_clamped_pty_size s pty_ok with
        | (Ok _, s) => (Ok subscriber_id, s)
        | (Err err, s) => (Err err, remove_subscriber s subscriber_id)
        end
      end
    end.

(** An error of the resize is dropped. *)
Definition unsubscribe (s : Session) (subscriber_id : Z) (pty_ok : bool) : Session :=
  (apply_clamped_pty_size (remove_subscriber s subscriber_id) pty_ok).2.

Definition close_subscribers (s : Session) : Session := with_subscribers s [].

(** [iter_mut().find] changes the first match. *)
Fixpoint update_geometry (subs : list Subscriber) (id rows cols : Z) : option (list Subscriber) :=
  match subs with
  | [] => None
  | sub :: subs =>
    if sub_id sub =? id then Some ({| sub_id := id; sub_rows := rows; sub_cols := cols |} :: subs)
    else cons sub <$> update_geometry subs id rows cols
  end.

(** The [Resize] request. *)
Definition handle_resize (s : Session) (subscriber_id : option Z) (rows cols : Z) (pty_ok : bool)
    : result SessionError unit * Session :=
  match validate_terminal_geometry rows cols with
  | Err e => (Err e, s)
  | Ok _ =>
    match subscriber_id with
    | Some id =>
      match update_geometry (s_subscribers s) id rows cols with
      | None => (Err NotAttached, s)
      | Some subs => apply_clamped_pty_size (with_subscribers s subs) pty_ok
      end
    | None => apply_pty_size s rows cols pty_ok
    end
  end.

(** ** Events *)

Inductive Event : Set :=
  | EAppend (bytes : chunk)
  | ETrySend | ERound | EFinish
  | ESubscribe (rows cols : Z) (pty_ok : bool)
  | EUnsubscribe (id : Z) (pty_ok : bool)
  | EResize (id : option Z) (rows cols : Z) (pty_ok : bool)
  | EClose
  | ERecv (id : Z)
  | EHangUp (id : Z).

(** The forwarding thread takes a chunk; a failed write drops its end of the channel. *)
Definition channel_recv (ch : Channel) : Channel :=
  match ch_queue ch with
  | [] => ch
  | c :: queue => {| ch_queue := queue; ch_connected := ch_connected ch; ch_taken := ch_taken ch ++ [c] |}
  end.

Definition channel_hang_up (ch : Channel) : Channel :=
  {| ch_queue := ch_queue ch; ch_connected := false; ch_taken := ch_taken ch |}.

(** One event; [None] where no thread is at that point. *)
Definition session_step (s : Session) (ev : Event) : option Session :=
  match ev with
  | EAppend bytes => match s_broadcast s with None => Some (append_locked s bytes) | Some _ => None end
  | ETrySend =>
    b ← s_broadcast s;
    '(b, chans) ← broadcast_try b (s_channels s);
    Some (with_broadcast (with_channels s chans) (Some b))
  | ERound => b ← s_broadcast s; b ← broadcast_round b; Some (with_broadcast s (Some b))
  | EFinish => b ← s_broadcast s; disconnected ← broadcast_end b; Some (append_finish s disconnected)
  | ESubscribe rows cols pty_ok => Some (subscribe_with_snapshot_and_apply_clamp s rows cols pty_ok).2
  | EUnsubscribe id pty_ok => Some (unsubscribe s id pty_ok)
  | EResize id rows cols pty_ok => Some (handle_resize s id rows cols pty_ok).2
  | EClose => Some (close_subscribers s)
  | ERecv id => Some (with_channels s (alter channel_recv id (s_channels s)))
  | EHangUp id => Some (with_channels s (alter channel_hang_up id (s_channels s)))
  end.

Fixpoint session_run (s : Session) (evs : list Event) : option Session :=
  match evs with
  | [] => Some s
  | ev :: evs => s ← session_step s ev; session_run s evs
  end.

(** The session as [create_session] builds it. *)
Definition session_new (rows cols : Z) : Session := {|
  s_ring := []; s_progress := {| revision := 0; closed := false; total_bytes := 0 |};
  s_terminal := {|
    terminal_screen := parser_new rows cols; terminal_normal_screen := parser_screen (parser_new rows cols);
    terminal_pending := TerminalPrefixTracker_default; terminal_parser_degraded := false;
    styled_screen_revision := 0 |};
  s_subscribers := []; s_next_subscriber_id := 1; s_size := (rows, cols); s_channels := ∅;
  s_broadcast := None; s_evict_calls := [] |}.

Definition sent_to (s : Session) (id : Z) : list chunk :=
  default [] (ch_sent <$> s_channels s !! id).

(** The chunks of the output in a history. *)
Definition appended (evs : list Event) : list chunk :=
  omap (λ ev, match ev with EAppend c => Some c | _ => None end) evs.

(** ** Subscriber ids *)

Definition ids (s : Session) : list Z := sub_id <$> s_subscribers s.
Definition broadcast_ids (b : Broadcast) : list Z := bc_todo b ++ bc_pending b.

(** Ids are fresh while the counter does not wrap; [n] is how far it may still go. *)
Record ids_inv (n : Z) (s : Session) : Prop := {
  ids_next : 0 ≤ s_next_subscriber_id s ∧ s_next_subscriber_id s + n < 2 ^ 64;
  ids_below : Forall (λ id, id < s_next_subscriber_id s) (ids s);
  ids_distinct : NoDup (ids s);
  ids_broadcast : ∀ b, s_broadcast s = Some b →
    NoDup (broadcast_ids b) ∧ Forall (λ id, id < s_next_subscriber_id s) (broadcast_ids b);
}.

(** What the operations leave alone. *)
Definition same_attach (s s' : Session) : Prop :=
  s_subscribers s' = s_subscribers s ∧ s_next_subscriber_id s' = s_next_subscriber_id s ∧
  s_channels s' = s_channels s ∧ s_broadcast s' = s_broadcast s ∧ s_ring s' = s_ring s.

Lemma apply_pty_size_frame s rows cols pty_ok : same_attach s (apply_pty_size s rows cols pty_ok).2.
Proof. unfold apply_pty_size. by destruct pty_ok. Qed.

Lemma apply_clamped_frame s pty_ok : same_attach s (apply_clamped_pty_size s pty_ok).2.
Proof.
  unfold apply_clamped_pty_size. destruct (clamp_to_smallest _) as [[rows cols]|]; [|done].
  case_bool_decide; [done|apply apply_pty_size_frame].
Qed.

(** The first chunk of an attach that the state would give. *)
Definition attach_snapshot (s : Session) (rows cols : Z) : option chunk :=
  if bool_decide (s_ring s = []) then None
  else
    let '(rows, cols) := clamp_to_smallest_with_candidate (s_subscribers s) rows cols in
    (initial_screen_state_snapshot (s_terminal s) rows cols).1.

(** A subscription, or an error that leaves the other subscribers as they were. *)
Definition subscribed (s : Session) (rows cols : Z) (initial : option chunk) (r : result SessionError Z)
    (s' : Session) : Prop :=
  let id := s_next_subscriber_id s in
  s_broadcast s' = s_broadcast s ∧ (∀ j, j ≠ id → s_channels s' !! j = s_channels s !! j) ∧
  (s_next_subscriber_id s' = id ∨ s_next_subscriber_id s' = (id + 1) mod 2 ^ 64) ∧
  match r with
  | Ok id' =>
    id' = id ∧ s_next_subscriber_id s' = (id + 1) mod 2 ^ 64 ∧
    s_subscribers s' = s_subscribers s ++ [{| sub_id := id; sub_rows := rows; sub_cols := cols |}] ∧
    s_channels s' !! id ≠ None ∧ sent_to s' id = option_list initial
  | Err _ => s_subscribers s' `sublist_of` s_subscribers s
  end.

Lemma subscribe_locked_spec s rows cols initial :
  let '(r, s') := subscribe_locked s rows cols initial in subscribed s rows cols initial r s'.
Proof.
  unfold subscribe_locked, subscribed, sent_to.
  cbn [s_subscribers s_next_subscriber_id s_channels s_broadcast with_channels with_subscribers].
  destruct (_ <=? _); [by auto|]. destruct initial as [c|].
  - unfold try_send. rewrite lookup_insert_eq (_ : channel_try_send sync_channel c =
      Sent {| ch_queue := [c]; ch_connected := true; ch_taken := [] |}) //. cbn.
    split; [done|]. split; [intros j Hj; rewrite !lookup_insert_ne //|]. split; [by right|].
    do 3 (split; [done|]). by rewrite lookup_insert_eq.
  - cbn. split; [done|]. split; [intros j Hj; rewrite lookup_insert_ne //|]. split; [by right|].
    do 3 (split; [done|]). by rewrite lookup_insert_eq.
Qed.

(** The terminal state plays no part in who is attached. *)
Lemma subscribe_spec s rows cols pty_ok :
  let '(r, s') := subscribe_with_snapshot_and_apply_clamp s rows cols pty_ok in
  subscribed s rows cols (attach_snapshot s rows cols) r s'.
Proof.
  unfold subscribe_with_snapshot_and_apply_clamp.
  destruct (_ || _); [by unfold subscribed; auto|].
  destruct (validate_terminal_geometry rows cols); [|by unfold subscribed; auto].
  destruct (if bool_decide _ then _ else _) as [initial t] eqn:E.
  assert (initial = attach_snapshot s rows cols) as <-.
  { revert E. unfold attach_snapshot. case_bool_decide; [by intros [= <- <-]|].
    destruct (clamp_to_smallest_with_candidate _ _ _). by intros ->. }
  pose proof (subscribe_locked_spec (with_terminal s t) rows cols initial) as Hl.
  destruct (subscribe_locked _ _ _ _) as [[id|e] s2].
  2:{ by destruct Hl as (? & ? & ? & ?). }
  destruct Hl as (Hb & Hc & Hn & -> & Hn' & Hs & Hch & Hsent). cbn in *.
  destruct (apply_clamped_pty_size s2 pty_ok) as [r3 s3] eqn:E3.
  pose proof (apply_clamped_frame s2 pty_ok) as (Hsub & Hnext & Hchan & Hb3 & _).
  rewrite E3 /= in Hsub, Hnext, Hchan, Hb3.
  destruct r3 as [u|e3]; unfold subscribed, sent_to in *; cbn.
  - rewrite Hb3 Hnext Hsub Hchan. done.
  - rewrite Hb3 Hnext Hsub Hchan. do 3 (split; [done|]).
    rewrite Hs List.filter_app /= Z.eqb_refl /= app_nil_r. apply filter_sublist.
Qed.

(** ** Ids stay distinct *)

Lemma ids_inv_sub n n' s s' :
  ids_inv n s → 0 ≤ n' ≤ n →
  ids s' `sublist_of` ids s → s_next_subscriber_id s' = s_next_subscriber_id s →
  s_broadcast s' = s_broadcast s → ids_inv n' s'.
Proof.
  intros [Hn Hb Hd Hbc] Hle Hsub Hnext Hbr. split; rewrite ?Hnext ?Hbr; [lia| | |done].
  - apply Forall_forall. intros x Hx. apply (proj1 (Forall_forall _ _) Hb). by eapply elem_of_sublist.
  - by eapply sublist_NoDup.
Qed.

Lemma evict_ids_sublist subs dis :
  sub_id <$> (evict_disconnected_subscribers subs dis).1 `sublist_of` sub_id <$> subs.
Proof. apply sublist_map, filter_sublist. Qed.

Lemma update_geometry_ids subs id rows cols subs' :
  update_geometry subs id rows cols = Some subs' → sub_id <$> subs' = sub_id <$> subs.
Proof.
  revert subs'. induction subs as [|sub subs IH]; intros subs' H; simplify_eq/=.
  destruct (sub_id sub =? id) eqn:E; simplify_eq/=; [f_equal; lia|].
  destruct (update_geometry subs id rows cols) eqn:Hu; simplify_eq/=. f_equal. by apply IH.
Qed.

(** The events that neither append nor subscribe keep or shrink the list of clients. *)
Lemma quiet_step_frame s ev s' :
  session_step s ev = Some s' →
  match ev with EUnsubscribe _ _ | EResize _ _ _ _ | EClose | ERecv _ | EHangUp _ => True | _ => False end →
  ids s' `sublist_of` ids s ∧ s_next_subscriber_id s' = s_next_subscriber_id s ∧
  s_broadcast s' = s_broadcast s ∧ (∀ id, sent_to s' id = sent_to s id).
Proof.
  destruct ev as [bs| | | |r c ok|id ok|id r c ok| |id|id]; try done; intros [= <-] _.
  - unfold unsubscribe, sent_to, ids.
    pose proof (apply_clamped_frame (remove_subscriber s id) ok) as (-> & -> & -> & -> & _).
    split; [|done]. apply sublist_map, filter_sublist.
  - unfold handle_resize. destruct (validate_terminal_geometry r c); [|done].
    destruct id as [id|].
    + destruct (update_geometry _ _ _ _) as [subs|] eqn:Hu; [|done].
      unfold sent_to, ids.
      pose proof (apply_clamped_frame (with_subscribers s subs) ok) as (-> & -> & -> & -> & _).
      split; [|done]. cbn. by rewrite (update_geometry_ids _ _ _ _ _ Hu).
    + unfold sent_to, ids. pose proof (apply_pty_size_frame s r c ok) as (-> & -> & -> & -> & _). done.
  - split; [apply sublist_nil_l|done].
  - do 3 (split; [done|]). intros j. unfold sent_to. cbn. destruct (decide (j = id)) as [->|].
    + rewrite lookup_alter_eq. destruct (s_channels s !! id) as [[[|c q] k t]|]; [done| |done].
      unfold ch_sent, channel_recv. cbn. by rewrite -assoc_L.
    + by rewrite lookup_alter_ne.
  - do 3 (split; [done|]). intros j. unfold sent_to. cbn. destruct (decide (j = id)) as [->|].
    + rewrite lookup_alter_eq. by destruct (s_channels s !! id).
    + by rewrite lookup_alter_ne.
Qed.

(** One try moves the head of the round. *)
Lemma broadcast_try_spec b chans b' chans' :
  broadcast_try b chans = Some (b', chans') →
  ∃ id todo, bc_todo b = id :: todo ∧ bc_chunk b' = bc_chunk b ∧ bc_todo b' = todo ∧
    (∀ j, j ≠ id → chans' !! j = chans !! j) ∧
    ((bc_pending b' = bc_pending b ∧ bc_disconnected b' = bc_disconnected b ∧
      ∃ ch, chans' !! id = Some ch ∧ chans !! id ≠ None ∧
        ch_sent ch = default [] (ch_sent <$> chans !! id) ++ [bc_chunk b]) ∨
     (chans' = chans ∧ bc_pending b' = bc_pending b ++ [id] ∧ bc_disconnected b' = bc_disconnected b) ∨
     (chans' = chans ∧ bc_pending b' = bc_pending b ∧ bc_disconnected b' = bc_disconnected b ++ [id])).
Proof.
  unfold broadcast_try. destruct (bc_todo b) as [|id todo]; [done|]. intros H. exists id, todo.
  unfold try_send, channel_try_send in H.
  destruct (chans !! id) as [ch|] eqn:Hid; [|by simplify_eq; naive_solver].
  destruct (ch_connected ch); [|by simplify_eq/=; naive_solver].
  destruct (_ <=? _); simplify_eq/=; [naive_solver|].
  do 3 (split; [done|]). split; [intros j Hj; by rewrite lookup_insert_ne|]. left. do 2 (split; [done|]).
  eexists. rewrite lookup_insert_eq. split; [done|]. split; [done|]. unfold ch_sent. cbn. by rewrite assoc_L.
Qed.

Lemma broadcast_try_ids b chans b' chans' :
  broadcast_try b chans = Some (b', chans') → broadcast_ids b' ⊆+ broadcast_ids b.
Proof.
  intros Ht. apply broadcast_try_spec in Ht as (id & todo & Htodo & _ & Htodo' & _ & Hcases).
  unfold broadcast_ids. rewrite Htodo Htodo'.
  destruct Hcases as [(-> & _)|[(_ & -> & _)|(_ & -> & _)]]; simpl.
  - by apply submseteq_cons.
  - rewrite assoc_L. apply Permutation_submseteq. symmetry. apply Permutation_cons_append.
  - by apply submseteq_cons.
Qed.

Lemma broadcast_round_ids b b' : broadcast_round b = Some b' → broadcast_ids b' = broadcast_ids b.
Proof.
  unfold broadcast_round, broadcast_ids. destruct (bc_todo b), (bc_pending b); intros [=]; simplify_eq/=.
  by rewrite app_nil_r.
Qed.

Lemma ids_inv_broadcast n s s' b b' :
  ids_inv (n + 1) s → 0 ≤ n → s_broadcast s = Some b → s_broadcast s' = Some b' →
  broadcast_ids b' ⊆+ broadcast_ids b → ids s' = ids s →
  s_next_subscriber_id s' = s_next_subscriber_id s → ids_inv n s'.
Proof.
  intros [Hn Hb Hd Hbc] Hle Hbs Hbs' Hsub Hids Hnext. destruct (Hbc b Hbs) as [Hnd Hlt].
  split; rewrite ?Hnext ?Hids; [lia|done|done|]. rewrite Hbs'. intros b2 [= <-]. split.
  - apply submseteq_Permutation in Hsub as [k Hk]. rewrite Hk in Hnd. by apply NoDup_app in Hnd as [? _].
  - apply Forall_forall. intros x Hx. apply (proj1 (Forall_forall _ _) Hlt). by eapply elem_of_submseteq.
Qed.

Lemma ids_inv_subscribe n s rows cols pty_ok :
  ids_inv (n + 1) s → 0 ≤ n → ids_inv n (subscribe_with_snapshot_and_apply_clamp s rows cols pty_ok).2.
Proof.
  intros [Hn Hb Hd Hbc] Hle. pose proof (subscribe_spec s rows cols pty_ok) as Hs.
  destruct (subscribe_with_snapshot_and_apply_clamp s rows cols pty_ok) as [r s'].
  destruct Hs as (Hbr & _ & Hnext & Hr). cbn [snd].
  assert ((s_next_subscriber_id s + 1) mod 2 ^ 64 = s_next_subscriber_id s + 1) as Hmod
    by (apply Z.mod_small; lia).
  rewrite Hmod in Hnext Hr.
  assert (∀ l, Forall (λ id, id < s_next_subscriber_id s) l → Forall (λ id, id < s_next_subscriber_id s') l) as Hup.
  { intros l Hl. apply Forall_forall. intros x Hx. apply (proj1 (Forall_forall _ _) Hl) in Hx. lia. }
  assert (∀ b, s_broadcast s' = Some b → NoDup (broadcast_ids b) ∧
    Forall (λ id, id < s_next_subscriber_id s') (broadcast_ids b)) as Hbc'.
  { rewrite Hbr. intros b Hsb. destruct (Hbc b Hsb). auto. }
  destruct r as [id'|e]; [destruct Hr as (-> & Hnext' & Hsubs & _ & _)|].
  - split; [lia| | |done]; unfold ids; rewrite Hsubs fmap_app /=.
    + apply Forall_app. split; [by apply Hup|]. constructor; [lia|done].
    + apply NoDup_app. split; [done|]. split; [|apply NoDup_singleton].
      intros x Hx ->%list_elem_of_singleton. apply (proj1 (Forall_forall _ _) Hb) in Hx. lia.
  - split; [lia| | |done].
    + apply Hup, Forall_forall. intros x Hx. apply (proj1 (Forall_forall _ _) Hb).
      eapply elem_of_sublist; [done|]. by apply sublist_map.
    + eapply sublist_NoDup; [exact Hd|]. by apply sublist_map.
Qed.

Lemma ids_inv_step n s ev s' :
  ids_inv (n + 1) s → 0 ≤ n → session_step s ev = Some s' → ids_inv n s'.
Proof.
  intros Hinv Hn Hstep.
  destruct ev as [bs| | | |r c ok|id ok|id r c ok| |id|id].
  5:{ injection Hstep as <-. by apply ids_inv_subscribe. }
  5-9: destruct (quiet_step_frame _ _ _ Hstep I) as (Hs & Hne & Hb & _);
    by apply (ids_inv_sub (n + 1) n s); [|lia|..].
  - simpl in Hstep. destruct (s_broadcast s); simplify_eq/=.
    destruct Hinv as [Hne Hb Hd _]. split; cbn; [lia|done|done|].
    unfold ids in *. destruct (s_subscribers s); [done|]. intros b [= <-].
    unfold broadcast_ids, broadcast_start. cbn. by rewrite app_nil_r.
  - simpl in Hstep. apply bind_Some in Hstep as (b & Hb & ([b' chans] & Ht & [= <-])%bind_Some).
    apply (ids_inv_broadcast n s _ b b'); try done. by eapply broadcast_try_ids.
  - simpl in Hstep. apply bind_Some in Hstep as (b & Hb & (b' & Ht & [= <-])%bind_Some).
    apply (ids_inv_broadcast n s _ b b'); try done. by rewrite (broadcast_round_ids b b').
  - simpl in Hstep. apply bind_Some in Hstep as (b & Hb & (dis & Ht & [= <-])%bind_Some).
    destruct Hinv as [Hne Hbel Hd _]. unfold append_finish.
    pose proof (evict_ids_sublist (s_subscribers s) dis) as Hsub.
    destruct (evict_disconnected_subscribers _ _) as [subs sh]. split; cbn; [lia| | |done].
    + apply Forall_forall. intros x Hx. apply (proj1 (Forall_forall _ _) Hbel). by eapply elem_of_sublist.
    + by eapply sublist_NoDup.
Qed.

(** ** What an attached client is sent *)

(** [A] is the output since the attach, [snap] the first chunk: what was sent is the
    snapshot and a beginning of the output, all of it for a client that is still attached
    and not waited for by the broadcast. *)
Definition stream_inv (id : Z) (snap A : list chunk) (s : Session) : Prop :=
  id < s_next_subscriber_id s ∧ s_channels s !! id ≠ None ∧
  ∃ S, sent_to s id = snap ++ S ∧ S `prefix_of` A ∧
  match s_broadcast s with
  | None => id ∈ ids s → S = A
  | Some b =>
    (id ∈ broadcast_ids b → A = S ++ [bc_chunk b]) ∧
    (id ∉ broadcast_ids b → id ∈ bc_disconnected b ∨ (id ∈ ids s → S = A))
  end.

Lemma stream_inv_quiet id snap A s s' :
  stream_inv id snap A s → ids s' `sublist_of` ids s →
  s_next_subscriber_id s ≤ s_next_subscriber_id s' → s_broadcast s' = s_broadcast s →
  s_channels s' !! id ≠ None → sent_to s' id = sent_to s id → stream_inv id snap A s'.
Proof.
  intros (Hlt & _ & S & Hs & Hp & Hb) Hsub Hn Hbr Hch Hsent. split; [lia|]. split; [done|].
  exists S. rewrite Hsent Hbr. do 2 (split; [done|]).
  assert (id ∈ ids s' → id ∈ ids s) as Hin by (by intros Hin; eapply elem_of_sublist).
  destruct (s_broadcast s); [|auto]. destruct Hb as [H1 H2]. split; [done|].
  intros Hni. destruct (H2 Hni); auto.
Qed.

Lemma stream_inv_append id snap A s c :
  stream_inv id snap A s → s_broadcast s = None → stream_inv id snap (A ++ [c]) (append_locked s c).
Proof.
  intros (Hlt & Hch & S & Hs & Hp & Hb) Hbr. rewrite Hbr in Hb.
  split; [done|]. split; [done|]. exists S. split; [done|]. split; [by apply prefix_app_r|].
  unfold append_locked, ids in *. cbn. destruct (s_subscribers s) as [|sub subs] eqn:Hsubs; cbn.
  { intros Hin. by apply not_elem_of_nil in Hin. }
  unfold broadcast_ids. cbn. rewrite app_nil_r. split.
  - intros Hin. by rewrite (Hb Hin).
  - intros Hni. right. done.
Qed.

Lemma stream_inv_try id snap A s b b' chans n :
  ids_inv n s → stream_inv id snap A s → s_broadcast s = Some b →
  broadcast_try b (s_channels s) = Some (b', chans) →
  stream_inv id snap A (with_broadcast (with_channels s chans) (Some b')).
Proof.
  intros Hids (Hlt & Hch & S & Hs & Hp & Hb) Hbr Ht. rewrite Hbr in Hb. destruct Hb as [Hin Hout].
  destruct (ids_broadcast _ _ Hids b Hbr) as [Hnd _].
  apply broadcast_try_spec in Ht as (id0 & todo & Htodo & Hc & Htodo' & Hne & Hcases).
  unfold broadcast_ids in Hnd, Hin, Hout. rewrite Htodo /= in Hnd, Hin, Hout.
  apply NoDup_cons in Hnd as [Hni Hnd].
  unfold stream_inv, sent_to, broadcast_ids, ids. cbn. rewrite Hc Htodo'. split; [done|].
  destruct (decide (id = id0)) as [->|Hid].
  - pose proof (Hin ltac:(left)) as HA. destruct Hcases as [(Hpe & Hd & ch & Hch' & _ & Hsent)|Hcases].
    + split; [congruence|]. exists (S ++ [bc_chunk b]). rewrite Hch' /= Hsent.
      unfold sent_to in Hs. rewrite Hs -assoc_L. split; [done|]. split; [by rewrite HA|].
      rewrite Hpe. split; [done|]. intros _. right. done.
    + destruct Hcases as [(-> & -> & ->)|(-> & -> & ->)]; (split; [done|]); exists S; do 2 (split; [done|]).
      * split; [done|]. intros Hn. exfalso. apply Hn. apply elem_of_app. right. apply elem_of_app. right. left.
      * split; [by intros Hin'; destruct Hni|]. intros _. left. apply elem_of_app. right. left.
  - rewrite (Hne id Hid). split; [done|]. exists S. do 2 (split; [done|]).
    assert (∀ l, id ∈ l ++ [id0] ↔ id ∈ l) as Hsn by (intros l; rewrite elem_of_app list_elem_of_singleton; naive_solver).
    destruct Hcases as [(-> & -> & _)|[(_ & -> & ->)|(_ & -> & ->)]];
      rewrite ?assoc_L ?Hsn; rewrite elem_of_cons in Hin, Hout; naive_solver.
Qed.

Lemma stream_inv_finish id snap A s b dis :
  stream_inv id snap A s → s_broadcast s = Some b → broadcast_end b = Some dis →
  stream_inv id snap A (append_finish s dis).
Proof.
  intros (Hlt & Hch & S & Hs & Hp & Hb) Hbr He. rewrite Hbr in Hb. destruct Hb as [_ Hout].
  unfold append_finish, evict_disconnected_subscribers. split; [done|]. split; [done|].
  exists S. do 2 (split; [done|]). cbn.
  intros Hin. apply list_elem_of_fmap in Hin as (sub & -> & Hsub). apply elem_of_filter_bool in Hsub as [Hsub Hnd].
  unfold broadcast_end, broadcast_ids in *. destruct (bc_todo b); simplify_eq/=.
  apply negb_true_iff, bool_decide_eq_false in Hnd. rewrite elem_of_app in Hnd.
  destruct (Hout ltac:(naive_solver)) as [?|Heq]; [naive_solver|]. apply Heq. by apply list_elem_of_fmap_2.
Qed.

Lemma step_keeps_channels id s ev s' :
  session_step s ev = Some s' →
  match ev with EUnsubscribe _ _ | EResize _ _ _ _ | EClose | ERecv _ | EHangUp _ => True | _ => False end →
  s_channels s !! id ≠ None → s_channels s' !! id ≠ None.
Proof.
  destruct ev as [bs| | | |r c ok|id' ok|id' r c ok| |id'|id']; try done; intros [= <-] _ Hid.
  - unfold unsubscribe. by pose proof (apply_clamped_frame (remove_subscriber s id') ok) as (_ & _ & -> & _).
  - unfold handle_resize. destruct (validate_terminal_geometry r c); [|done].
    destruct id' as [id'|]; [destruct (update_geometry _ _ _ _) as [subs|]; [|done]|].
    + by pose proof (apply_clamped_frame (with_subscribers s subs) ok) as (_ & _ & -> & _).
    + by pose proof (apply_pty_size_frame s r c ok) as (_ & _ & -> & _).
  - done.
  - cbn. intros Hn. apply lookup_alter_None in Hn. done.
  - cbn. intros Hn. apply lookup_alter_None in Hn. done.
Qed.

Lemma stream_inv_step id snap A n s ev s' :
  ids_inv (n + 1) s → 0 ≤ n → stream_inv id snap A s → session_step s ev = Some s' →
  stream_inv id snap (A ++ appended [ev]) s'.
Proof.
  intros Hids Hn Hinv Hstep.
  destruct ev as [c| | | |r c ok|id' ok|id' r c ok| |id'|id']; cbn [appended omap list_omap]; rewrite ?app_nil_r.
  6-10: destruct (quiet_step_frame _ _ _ Hstep I) as (Hs & Hne & Hb & Hsent);
    (apply (stream_inv_quiet id snap A s); [done|done|lia|done| |done]).
  6-10: destruct Hinv as (_ & Hch & _); pose proof (step_keeps_channels id s _ s' Hstep) as Hk; by apply Hk.
  - simpl in Hstep. destruct (s_broadcast s) eqn:Hb; simplify_eq/=. by apply stream_inv_append.
  - simpl in Hstep. apply bind_Some in Hstep as (b & Hb & ([b' chans] & Ht & [= <-])%bind_Some).
    by eapply stream_inv_try.
  - simpl in Hstep. apply bind_Some in Hstep as (b & Hb & (b' & Ht & [= <-])%bind_Some).
    destruct Hinv as (Hlt & Hch & S & Hs & Hp & Hi). split; [done|]. split; [done|]. exists S.
    do 2 (split; [done|]). rewrite Hb in Hi. cbn. rewrite (broadcast_round_ids b b') //.
    unfold broadcast_round in Ht. by destruct (bc_todo b), (bc_pending b); simplify_eq/=.
  - simpl in Hstep. apply bind_Some in Hstep as (b & Hb & (dis & Ht & [= <-])%bind_Some).
    by eapply stream_inv_finish.
  - injection Hstep as <-. pose proof (subscribe_spec s r c ok) as Hs.
    destruct (subscribe_with_snapshot_and_apply_clamp s r c ok) as [res s']. cbn [snd].
    destruct Hs as (Hbr & Hch & Hnext & Hr). destruct Hinv as (Hlt & Hc & S & Hs & Hp & Hi).
    rewrite Z.mod_small in Hnext; [|destruct Hids; lia].
    assert (s_channels s' !! id = s_channels s !! id) as Heq by (apply Hch; lia).
    split; [lia|]. rewrite Heq. split; [done|]. exists S. unfold sent_to in *. rewrite Heq Hbr.
    do 2 (split; [done|]).
    assert (id ∈ ids s' → id ∈ ids s) as Hin.
    { unfold ids. destruct res as [idn|e]; [destruct Hr as (-> & _ & -> & _)|].
      - rewrite fmap_app elem_of_app list_elem_of_singleton /=. intros [?|?]; [done|lia].
      - intros Hin. eapply elem_of_sublist; [done|]. by apply sublist_map. }
    destruct (s_broadcast s); [|auto]. destruct Hi as [H1 H2]. split; [done|].
    intros Hni. destruct (H2 Hni); auto.
Qed.

Lemma session_run_inv id snap A n s evs s' :
  ids_inv (n + len evs) s → 0 ≤ n → stream_inv id snap A s → session_run s evs = Some s' →
  stream_inv id snap (A ++ appended evs) s'.
Proof.
  revert A s. induction evs as [|ev evs IH]; intros A s Hids Hn Hinv Hrun; simplify_eq/=.
  { by rewrite app_nil_r. }
  apply bind_Some in Hrun as (s1 & H1 & H2). rewrite len_cons Z.add_assoc in Hids. pose proof (len_nonneg evs).
  pose proof (ids_inv_step (n + len evs) s ev s1 Hids ltac:(lia) H1) as Hids1.
  eapply (stream_inv_step _ _ _ (n + len evs)) in H1; [|done|lia|done].
  specialize (IH _ s1 Hids1 Hn H1 H2). rewrite -assoc_L in IH. by destruct ev.
Qed.

Lemma session_run_ids n s evs s' :
  ids_inv (n + len evs) s → 0 ≤ n → session_run s evs = Some s' → ids_inv n s'.
Proof.
  revert s. induction evs as [|ev evs IH]; intros s Hids Hn Hrun; simplify_eq/=.
  { by rewrite Z.add_0_r in Hids. }
  apply bind_Some in Hrun as (s1 & H1 & H2). rewrite len_cons Z.add_assoc in Hids. pose proof (len_nonneg evs).
  apply (IH s1); [|done|done]. eapply ids_inv_step; [done|lia|done].
Qed.

Lemma ids_inv_new n rows cols : 0 ≤ n → 1 + n < 2 ^ 64 → ids_inv n (session_new rows cols).
Proof. intros. split; [split; [done|]; cbn; lia|constructor|apply NoDup_nil_2|done]. Qed.

(** C12: No client sees a gap.  Whoever attaches, at any point of any interleaving of
    appends, broadcasts, attaches, detaches, resizes and slow or dying clients, is sent the
    snapshot of the moment of its attach and then a beginning of the chunks the session
    appends from then on, in order and each once; it is sent all of them, up to the
    broadcast in flight, for as long as it stays attached. *)
Theorem attached_client_sees_no_gap rows cols evs0 s0 r c pty_ok id s1 evs s :
  session_run (session_new rows cols) evs0 = Some s0 →
  subscribe_with_snapshot_and_apply_clamp s0 r c pty_ok = (Ok id, s1) →
  session_run s1 evs = Some s →
  len evs0 + len evs + 2 < 2 ^ 64 →
  ∃ S, sent_to s id = option_list (attach_snapshot s0 r c) ++ S ∧ S `prefix_of` appended evs ∧
       (id ∈ ids s → s_broadcast s = None → S = appended evs).
Proof.
  intros H0 Hsub Hrun Hlen. pose proof (len_nonneg evs0). pose proof (len_nonneg evs).
  assert (ids_inv (len evs + 1) s0) as Hids.
  { eapply session_run_ids; [|lia|exact H0]. apply ids_inv_new; lia. }
  pose proof (subscribe_spec s0 r c pty_ok) as Hspec. rewrite Hsub in Hspec.
  destruct Hspec as (Hb & _ & _ & -> & Hnext & Hsubs & Hch & Hsent).
  pose proof (ids_inv_subscribe (len evs) s0 r c pty_ok Hids ltac:(lia)) as Hids1. rewrite Hsub in Hids1.
  assert (stream_inv (s_next_subscriber_id s0) (option_list (attach_snapshot s0 r c)) [] s1) as Hinv.
  { destruct Hids as [Hn Hbel Hd Hbc]. rewrite Z.mod_small in Hnext; [|lia].
    split; [lia|]. split; [done|]. exists []. rewrite app_nil_r. split; [done|]. split; [done|].
    rewrite Hb. destruct (s_broadcast s0) as [b|]; [|done]. split; [|auto].
    intros Hin. destruct (Hbc b eq_refl) as [_ Hlt]. apply (proj1 (Forall_forall _ _) Hlt) in Hin. lia. }
  eapply (session_run_inv _ _ _ 0) in Hinv as (_ & _ & S & Hs & Hp & Hi); [|done|done|exact Hrun].
  exists S. do 2 (split; [done|]). intros Hin Hbn. rewrite Hbn in Hi. by apply Hi.
Qed.

(** ** The size of the terminal *)

Definition valid_geometry (size : Z * Z) : Prop :=
  1 ≤ size.1 ≤ MAX_TERMINAL_ROWS ∧ 1 ≤ size.2 ≤ MAX_TERMINAL_COLS ∧ size.1 * size.2 ≤ MAX_TERMINAL_CELLS.

Definition sub_size (sub : Subscriber) : Z * Z := (sub_rows sub, sub_cols sub).

Definition geometry_inv (s : Session) : Prop :=
  valid_geometry (s_size s) ∧ Forall (λ sub, valid_geometry (sub_size sub)) (s_subscribers s).

(** The size suits every attached client and is not smaller than it must be. *)
Definition fits (s : Session) : Prop :=
  Forall (λ sub, (s_size s).1 ≤ sub_rows sub ∧ (s_size s).2 ≤ sub_cols sub) (s_subscribers s) ∧
  (s_subscribers s ≠ [] →
   (s_size s).1 ∈ sub_rows <$> s_subscribers s ∧ (s_size s).2 ∈ sub_cols <$> s_subscribers s).

Lemma validate_terminal_geometry_Ok rows cols u :
  0 ≤ rows → 0 ≤ cols → validate_terminal_geometry rows cols = Ok u → valid_geometry (rows, cols).
Proof. intros ?? H. unfold validate_terminal_geometry in H. inv_ok. unfold valid_geometry. cbn. lia. Qed.

Lemma clamp_candidate_spec subs rows cols :
  let '(r, c) := clamp_to_smallest_with_candidate subs rows cols in
  r ≤ rows ∧ c ≤ cols ∧ Forall (λ sub, r ≤ sub_rows sub ∧ c ≤ sub_cols sub) subs ∧
  r ∈ rows :: (sub_rows <$> subs) ∧ c ∈ cols :: (sub_cols <$> subs).
Proof.
  revert rows cols. induction subs as [|sub subs IH]; intros rows cols; cbn.
  { do 2 (split; [lia|]). split; [done|]. split; left. }
  specialize (IH (rows `min` sub_rows sub) (cols `min` sub_cols sub)).
  unfold clamp_to_smallest_with_candidate in IH.
  destruct (foldl _ _ subs) as [r c]. destruct IH as (Hr & Hc & Hall & Hir & Hic).
  split; [lia|]. split; [lia|]. split; [constructor; [lia|done]|].
  rewrite !elem_of_cons in Hir, Hic |- *. split; [destruct Hir|destruct Hic]; lia || auto.
Qed.

Lemma clamp_to_smallest_spec subs r c :
  clamp_to_smallest subs = Some (r, c) →
  Forall (λ sub, r ≤ sub_rows sub ∧ c ≤ sub_cols sub) subs ∧
  r ∈ sub_rows <$> subs ∧ c ∈ sub_cols <$> subs.
Proof.
  destruct subs as [|sub subs]; [done|]. intros [= H].
  pose proof (clamp_candidate_spec subs (sub_rows sub) (sub_cols sub)) as Hs. rewrite H in Hs.
  destruct Hs as (? & ? & ? & ? & ?). split; [by constructor|done].
Qed.

(** Valid bounds hold from below and above: the smallest rows and columns are valid. *)
Lemma clamp_valid subs r c :
  Forall (λ sub, valid_geometry (sub_size sub)) subs → clamp_to_smallest subs = Some (r, c) →
  valid_geometry (r, c).
Proof.
  intros Hall Hc. destruct (clamp_to_smallest_spec _ _ _ Hc) as (Hle & Hr & Hcc).
  apply list_elem_of_fmap in Hr as (s1 & -> & H1). apply list_elem_of_fmap in Hcc as (s2 & -> & H2).
  rewrite Forall_forall in Hall. rewrite Forall_forall in Hle.
  pose proof (Hall s1 H1) as V1. pose proof (Hall s2 H2) as V2. pose proof (Hle s1 H1).
  unfold valid_geometry, sub_size, MAX_TERMINAL_ROWS, MAX_TERMINAL_COLS, MAX_TERMINAL_CELLS in *.
  cbn in *. nia.
Qed.

Lemma apply_clamped_geometry s pty_ok :
  geometry_inv s → geometry_inv (apply_clamped_pty_size s pty_ok).2.
Proof.
  intros [Hs Hf]. unfold apply_clamped_pty_size.
  destruct (clamp_to_smallest _) as [[r c]|] eqn:Hc; [|by split].
  case_bool_decide; [by split|]. unfold apply_pty_size. destruct pty_ok; [|by split].
  split; [|done]. by eapply clamp_valid.
Qed.

Lemma apply_clamped_fits s pty_ok s' :
  apply_clamped_pty_size s pty_ok = (Ok tt, s') → fits s'.
Proof.
  unfold apply_clamped_pty_size. destruct (clamp_to_smallest _) as [[r c]|] eqn:Hc.
  - intros H. assert (s_size s' = (r, c) ∧ s_subscribers s' = s_subscribers s) as [Hsz Hsub].
    { case_bool_decide; simplify_eq/=; [done|]. unfold apply_pty_size in H. by destruct pty_ok; simplify_eq. }
    destruct (clamp_to_smallest_spec _ _ _ Hc) as (Hle & Hin). unfold fits. by rewrite Hsz Hsub.
  - intros [= <-]. unfold fits. destruct (s_subscribers s); [|done]. by split.
Qed.

Lemma update_geometry_valid subs id rows cols subs' :
  valid_geometry (rows, cols) → Forall (λ sub, valid_geometry (sub_size sub)) subs →
  update_geometry subs id rows cols = Some subs' → Forall (λ sub, valid_geometry (sub_size sub)) subs'.
Proof.
  intros Hv. revert subs'. induction subs as [|sub subs IH]; intros subs' Hall H; simplify_eq/=.
  apply Forall_cons in Hall as [? ?]. destruct (sub_id sub =? id); simplify_eq/=; [by constructor|].
  destruct (update_geometry subs id rows cols) eqn:Hu; simplify_eq/=. constructor; [done|]. by apply IH.
Qed.

Lemma filter_geometry p subs :
  Forall (λ sub, valid_geometry (sub_size sub)) subs →
  Forall (λ sub, valid_geometry (sub_size sub)) (List.filter p subs).
Proof.
  rewrite !Forall_forall. intros H x Hx. apply H. eapply elem_of_sublist; [done|]. apply filter_sublist.
Qed.

Definition event_u16 (ev : Event) : Prop :=
  match ev with
  | ESubscribe rows cols _ | EResize _ rows cols _ => 0 ≤ rows ≤ u16_max ∧ 0 ≤ cols ≤ u16_max
  | _ => True
  end.

Lemma subscribe_geometry s rows cols pty_ok :
  geometry_inv s → 0 ≤ rows → 0 ≤ cols →
  let '(r, s') := subscribe_with_snapshot_and_apply_clamp s rows cols pty_ok in
  geometry_inv s' ∧ (is_ok r = true → fits s').
Proof.
  intros Hg Hr Hc. unfold subscribe_with_snapshot_and_apply_clamp.
  destruct (_ || _); [done|]. destruct (validate_terminal_geometry rows cols) eqn:Hv; [|done].
  apply validate_terminal_geometry_Ok in Hv; [|done..].
  destruct (if bool_decide _ then _ else _) as [initial t].
  assert (geometry_inv (subscribe_locked (with_terminal s t) rows cols initial).2) as Hl.
  { destruct Hg as [Hs Hf]. unfold subscribe_locked. cbn. destruct (_ <=? _); [by split|].
    assert (Forall (λ sub, valid_geometry (sub_size sub)) (s_subscribers s ++
      [{| sub_id := s_next_subscriber_id s; sub_rows := rows; sub_cols := cols |}])).
    { apply Forall_app. split; [done|]. by constructor. }
    destruct initial; [|by split]. destruct (try_send _ _ _); split; try done; cbn; by apply filter_geometry. }
  destruct (subscribe_locked _ _ _ _) as [[id|e] s2]; [|done].
  apply (apply_clamped_geometry _ pty_ok) in Hl.
  destruct (apply_clamped_pty_size s2 pty_ok) as [[[]|e] s3] eqn:Ha.
  - split; [by rewrite Ha in Hl|]. intros _. by eapply apply_clamped_fits.
  - rewrite Ha in Hl. split; [|done]. destruct Hl. split; [done|]. cbn. by apply filter_geometry.
Qed.

Lemma resize_geometry s id rows cols pty_ok :
  geometry_inv s → 0 ≤ rows → 0 ≤ cols →
  let '(r, s') := handle_resize s id rows cols pty_ok in
  geometry_inv s' ∧ (id ≠ None → is_ok r = true → fits s').
Proof.
  intros Hg Hr Hc. unfold handle_resize. destruct (validate_terminal_geometry rows cols) eqn:Hv; [|done].
  apply validate_terminal_geometry_Ok in Hv; [|done..]. destruct id as [id|].
  - destruct (update_geometry _ _ _ _) as [subs|] eqn:Hu; [|done].
    assert (geometry_inv (with_subscribers s subs)) as Hg2.
    { destruct Hg. split; [done|]. by eapply update_geometry_valid. }
    apply (apply_clamped_geometry _ pty_ok) in Hg2.
    destruct (apply_clamped_pty_size (with_subscribers s subs) pty_ok) as [[[]|e] s3] eqn:Ha;
      (split; [done|]); [|done]. intros _ _. by eapply apply_clamped_fits.
  - unfold apply_pty_size. destruct pty_ok; [|done]. split; [|done]. by destruct Hg.
Qed.

Lemma unsubscribe_geometry s id pty_ok :
  geometry_inv s → geometry_inv (unsubscribe s id pty_ok) ∧ (pty_ok = true → fits (unsubscribe s id pty_ok)).
Proof.
  intros [Hs Hf]. unfold unsubscribe. split.
  { apply apply_clamped_geometry. split; [done|]. by apply filter_geometry. }
  intros ->. destruct (apply_clamped_pty_size (remove_subscriber s id) true) as [r s'] eqn:Ha. cbn.
  apply (apply_clamped_fits (remove_subscriber s id) true). rewrite Ha. f_equal.
  unfold apply_clamped_pty_size, apply_pty_size in Ha. repeat case_match; by simplify_eq.
Qed.

Lemma geometry_step s ev s' :
  geometry_inv s → event_u16 ev → session_step s ev = Some s' → geometry_inv s'.
Proof.
  intros Hg Hu Hstep. destruct ev as [c| | | |r c ok|id ok|id r c ok| |id|id]; simpl in Hstep.
  - destruct (s_broadcast s); simplify_eq/=. exact Hg.
  - apply bind_Some in Hstep as (b & _ & ([b' chans] & _ & [= <-])%bind_Some). exact Hg.
  - apply bind_Some in Hstep as (b & _ & (b' & _ & [= <-])%bind_Some). exact Hg.
  - apply bind_Some in Hstep as (b & _ & (dis & _ & [= <-])%bind_Some). destruct Hg.
    split; [done|]. cbn. by apply filter_geometry.
  - injection Hstep as <-. destruct Hu as [[??][??]]. pose proof (subscribe_geometry s r c ok Hg) as Hs.
    destruct (subscribe_with_snapshot_and_apply_clamp s r c ok). by apply Hs.
  - injection Hstep as <-. by apply unsubscribe_geometry.
  - injection Hstep as <-. destruct Hu as [[??][??]]. pose proof (resize_geometry s id r c ok Hg) as Hs.
    destruct (handle_resize s id r c ok). by apply Hs.
  - injection Hstep as <-. destruct Hg. by split.
  - injection Hstep as <-. exact Hg.
  - injection Hstep as <-. exact Hg.
Qed.

Lemma geometry_run s evs s' :
  geometry_inv s → Forall event_u16 evs → session_run s evs = Some s' → geometry_inv s'.
Proof.
  revert s. induction evs as [|ev evs IH]; intros s Hg Hu Hrun; simplify_eq/=; [done|].
  apply Forall_cons in Hu as [??]. apply bind_Some in Hrun as (s1 & H1 & H2).
  apply (IH s1); [|done|done]. by eapply geometry_step.
Qed.

(** C13: A session created with an accepted size keeps an accepted size through any
    interleaving, refused resizes of the pseudo-terminal included; and whenever an attach,
    a client's resize or a detach goes through, the terminal is exactly as large as the
    smallest of the clients attached then, in rows and in columns. *)
Theorem terminal_size_follows_clients rows cols r c evs s :
  0 ≤ default 24 rows → 0 ≤ default 80 cols →
  initial_pty_size rows cols = Ok (r, c) → Forall event_u16 evs →
  session_run (session_new r c) evs = Some s →
  valid_geometry (s_size s) ∧
  (∀ r c pty_ok id s', 0 ≤ r → 0 ≤ c →
     subscribe_with_snapshot_and_apply_clamp s r c pty_ok = (Ok id, s') → fits s') ∧
  (∀ id r c pty_ok s', 0 ≤ r → 0 ≤ c → handle_resize s (Some id) r c pty_ok = (Ok tt, s') → fits s') ∧
  (∀ id, fits (unsubscribe s id true)).
Proof.
  intros Hr Hc Hi Hu Hrun. unfold initial_pty_size in Hi. inv_ok. simplify_eq.
  match goal with H : validate_terminal_geometry _ _ = _ |- _ =>
    apply validate_terminal_geometry_Ok in H; [|done..]; rename H into Hv end.
  assert (geometry_inv s) as Hg by (eapply geometry_run; [|done|done]; by split).
  split; [apply Hg|]. split; [|split].
  - intros r' c' ok id s' Hr' Hc' Hs. pose proof (subscribe_geometry s r' c' ok Hg Hr' Hc') as H.
    rewrite Hs in H. by apply H.
  - intros id r' c' ok s' Hr' Hc' Hs. pose proof (resize_geometry s (Some id) r' c' ok Hg Hr' Hc') as H.
    rewrite Hs in H. by apply H.
  - intros id. by apply unsubscribe_geometry.
Qed.
End session.
