(* ===== verification/OutputScenario.v ===== *)
(** The theorems of the session output at concrete inputs: a terminal parser that keeps
    the text it was fed, and a session with a slow client and one that dies. *)
From S2P Require Import Prelude Utf8 OutputRing WaitContains TerminalPrefix SessionOutput.

(** A parser whose screen is its size and the bytes it saw. *)
#[export] Instance text_vt100 : Vt100 := {|
  Parser := Z * Z * list byte;
  Screen := Z * Z * list byte;
  parser_new rows cols := (rows, cols, []);
  parser_screen p := p;
  parser_process p bytes := let '(rows, cols, text) := p in Some (rows, cols, text ++ bytes);
  parser_set_size p rows cols := let '(_, _, text) := p in Some (rows, cols, text);
  alternate_screen _ := false;
  set_scrollback_0 s := s;
  set_size s rows cols := let '(_, _, text) := s in Some (rows, cols, text);
  state_formatted s := let '(_, _, text) := s in Some (0x1b :: lit "[H" ++ text);
|}.

(** One client is attached and output has been written before the second attaches; then the
    first one dies and is evicted, and the second reads on. *)
Definition before_attach : list Event :=
  [ESubscribe 24 80 true; EAppend (lit "ls"); ETrySend; EFinish; EHangUp 1].

Definition after_attach : list Event :=
  [EAppend (lit "a"); ETrySend; ERecv 2; ETrySend; EFinish; EAppend (lit "b"); ETrySend; EFinish].

Definition session_before : Session := default (session_new 24 80) (session_run (session_new 24 80) before_attach).
Definition session_attached : Session := (subscribe_with_snapshot_and_apply_clamp session_before 20 100 true).2.
Definition session_after : Session := default session_attached (session_run session_attached after_attach).

Lemma attached_client_sees_no_gap_witness :
  ids session_after = [2] ∧ sent_to session_after 2 = [0x1b :: lit "[Hls"; lit "a"; lit "b"] ∧
  ∃ S, sent_to session_after 2 = option_list (attach_snapshot session_before 20 100) ++ S ∧
    S `prefix_of` appended after_attach ∧
    (2 ∈ ids session_after → s_broadcast session_after = None → S = appended after_attach).
Proof.
  split; [vm_compute; reflexivity|]. split; [vm_compute; reflexivity|].
  apply (attached_client_sees_no_gap 24 80 before_attach session_before 20 100 true 2 session_attached
    after_attach session_after); vm_compute; reflexivity.
Defined.

Lemma terminal_size_follows_clients_witness :
  let evs := [ESubscribe 40 120 true; ESubscribe 30 200 true; EResize None 50 50 true] in
  let s := default (session_new 24 80) (session_run (session_new 24 80) evs) in
  s_size s = (50, 50) ∧ fits (unsubscribe s 2 true).
Proof.
  cbn zeta. split; [vm_compute; reflexivity|].
  destruct (terminal_size_follows_clients None None 24 80
    [ESubscribe 40 120 true; ESubscribe 30 200 true; EResize None 50 50 true]
    (default (session_new 24 80) (session_run (session_new 24 80)
      [ESubscribe 40 120 true; ESubscribe 30 200 true; EResize None 50 50 true]))) as (_ & _ & _ & H).
  - vm_compute. discriminate.
  - vm_compute. discriminate.
  - vm_compute. reflexivity.
  - repeat constructor; vm_compute; discriminate.
  - vm_compute. reflexivity.
  - apply H.
Defined.
