(* ===== verification/Sessions.v ===== *)
(** The registry of sessions of the daemon ([server.rs]): the three indexes and the
    reservations of [SessionMaps], names and targets, the metadata journal of a session
    with its undo and redo, and the removal of a session.

    An [Arc<Session>] is the session's id in a heap of sessions, so that all indexes share
    one object; the fields of a session that its output side uses are in [SessionOutput].
    Every operation holds the lock of the maps for its whole body. *)
From stdpp Require Import gmap.
From S2P Require Import Prelude Utf8 Protocol Text ProcessIdentity Lifecycle.

(** ** Names and targets *)

Definition MAX_SESSIONS : nat := 256.

Definition pane_of (pane_num : nat) : str := 0x25 :: dec (Z.of_nat pane_num).
Definition auto_name (pane_num : nat) : str := lit "lterm-" ++ dec (Z.of_nat pane_num).

Definition session_name_looks_like_bare_pane_id (name : str) : bool :=
  negb (bool_decide (name = [])) && forallb ascii_digit name.

Inductive RegistryError : Set :=
  | NameEmpty | NameTooLong | NameLikePane | NameLikeOption | NameLikeBarePane | NameLikeUuid
  | NameCharacters
  | TooManySessions | NameTaken | NoPaneId
  | ReservationMissing | IdCollision | ParentGone | ParentIdentityChanged
  | NoSuchSession | SessionEnding | NameIndexInconsistent
  | HistoryHasRedo | HistoryFull | NothingToUndo | NothingToRedo | HistoryMismatch
  | IndexPanic                          (* an index out of range *)
  | PurgeNeedsIrreversible | PurgeNeedsUuid | PurgeOtherSession | HistoryEmpty | PurgeOverflow.

(** ** The metadata of a session *)

Record MetadataValue : Set := { md_name : str; md_theme : option StatusTheme }.

#[export] Instance MetadataValue_eq : EqDecision MetadataValue.
Proof. solve_decision. Defined.

Inductive MetadataOperation : Set := OpRename | OpStatusTheme.

Record MetadataJournalEntry : Set := {
  operation : MetadataOperation;
  before : MetadataValue;
  after : MetadataValue;
}.

Record MetadataPurgeAggregate : Set := {
  purge_generation : Z;
  purged_entries_total : Z;
  last_purged_unix_ms : option Z;
}.

Record SessionMetadata : Set := {
  current : MetadataValue;
  entries : list MetadataJournalEntry;
  cursor : nat;
  purge : MetadataPurgeAggregate;
}.

Definition SessionMetadata_new (name : str) (status_theme : option StatusTheme) : SessionMetadata := {|
  current := {| md_name := name; md_theme := status_theme |};
  entries := []; cursor := 0;
  purge := {| purge_generation := 0; purged_entries_total := 0; last_purged_unix_ms := None |};
|}.

Definition MAX_METADATA_JOURNAL_ENTRIES : nat := 1024.

Definition validate_metadata_append (m : SessionMetadata) : result RegistryError unit :=
  bail_if (negb (cursor m =? length (entries m))%nat) HistoryHasRedo ;;
  bail_if (MAX_METADATA_JOURNAL_ENTRIES <=? length (entries m))%nat HistoryFull.

(** The three assignments that follow an accepted change. *)
Definition metadata_append (m : SessionMetadata) (op : MetadataOperation) (v : MetadataValue)
    : SessionMetadata := {|
  current := v;
  entries := entries m ++ [{| operation := op; before := current m; after := v |}];
  cursor := S (cursor m); purge := purge m |}.

Inductive MetadataStepDirection : Set := Undo | Redo.

(** The entry to apply, the value it expects, the one it gives and the new cursor. *)
Definition metadata_step_target (m : SessionMetadata) (direction : MetadataStepDirection)
    : result RegistryError (MetadataJournalEntry * MetadataValue * MetadataValue * nat) :=
  match direction with
  | Undo =>
    match cursor m with
    | O => Err NothingToUndo
    | S index =>
      entry ← ok_or (entries m !! index) IndexPanic;
      Ok (entry, after entry, before entry, index)
    end
  | Redo =>
    entry ← ok_or (entries m !! cursor m) NothingToRedo;
    Ok (entry, before entry, after entry, S (cursor m))
  end.

(** ** The registry *)

(** The fields of a [Session] that the registry reads or writes. *)
Record SessionEntry : Set := {
  se_id : str;
  se_pane : str;
  se_parent_pane : option str;
  se_parent_session : option str;
  se_parent_token : str;
  se_alive : bool;
  se_leader : option ProcessIdentity;
  se_metadata : SessionMetadata;
  se_lifecycle : LifecyclePublication;
}.

Definition se_name (s : SessionEntry) : str := md_name (current (se_metadata s)).

Definition with_metadata (s : SessionEntry) (m : SessionMetadata) : SessionEntry := {|
  se_id := se_id s; se_pane := se_pane s; se_parent_pane := se_parent_pane s;
  se_parent_session := se_parent_session s; se_parent_token := se_parent_token s;
  se_alive := se_alive s; se_leader := se_leader s; se_metadata := m; se_lifecycle := se_lifecycle s |}.

Record SessionMaps : Set := {
  heap : gmap str SessionEntry;       (* every session an [Arc] points to *)
  by_name : gmap str str;
  by_pane : gmap str str;
  by_id : gmap str str;
  reserved_names : gset str;
  reserved_panes : gset str;
}.

Definition SessionMaps_default : SessionMaps := {|
  heap := ∅; by_name := ∅; by_pane := ∅; by_id := ∅; reserved_names := ∅; reserved_panes := ∅ |}.

Definition with_indexes (m : SessionMaps) (names panes ids : gmap str str) : SessionMaps := {|
  heap := heap m; by_name := names; by_pane := panes; by_id := ids;
  reserved_names := reserved_names m; reserved_panes := reserved_panes m |}.

Definition with_reserved (m : SessionMaps) (names panes : gset str) : SessionMaps := {|
  heap := heap m; by_name := by_name m; by_pane := by_pane m; by_id := by_id m;
  reserved_names := names; reserved_panes := panes |}.

Definition with_session (m : SessionMaps) (s : SessionEntry) : SessionMaps := {|
  heap := <[se_id s := s]> (heap m); by_name := by_name m; by_pane := by_pane m; by_id := by_id m;
  reserved_names := reserved_names m; reserved_panes := reserved_panes m |}.

(** What an index holds under a key. *)
Definition deref (m : SessionMaps) (id : option str) : option SessionEntry := id ≫= λ id, heap m !! id.
Definition get_name (m : SessionMaps) (name : str) : option SessionEntry := deref m (by_name m !! name).
Definition get_pane (m : SessionMaps) (pane : str) : option SessionEntry := deref m (by_pane m !! pane).
Definition get_id (m : SessionMaps) (id : str) : option SessionEntry := deref m (by_id m !! id).

Definition normalize_target (target : str) : str :=
  let target := trim target in if bool_decide (target = []) then lit "main" else target.

Definition resolve_session_locked (m : SessionMaps) (target : str) : option SessionEntry :=
  match (if starts_with_char 0x25 target then get_pane m target else None) with
  | Some s => Some s
  | None =>
    match get_name m target with
    | Some s => Some s
    | None =>
      match get_id m target with
      | Some s => Some s
      | None => if starts_with_char 0x25 target then None else get_pane m (0x25 :: target)
      end
    end
  end.

Definition resolve_target (m : SessionMaps) (target : str) : result RegistryError SessionEntry :=
  ok_or (resolve_session_locked m (normalize_target target)) NoSuchSession.

(** ** Parents *)

Inductive ParentRequest : Set :=
  | PCapability (pane_id token : str)
  | PTmuxTarget (pane_id : str).

Definition parent_pane_id (r : ParentRequest) : str :=
  match r with PCapability p _ => p | PTmuxTarget p => p end.

Record ParentSession : Set := { ps_id : str; ps_pane : str }.

(** The parent found among the ancestors of a peer, with the processes in between. *)
Record ImplicitParentProof : Set := {
  ip_parent : ParentSession; ip_leader : ProcessIdentity; ip_chain : list ProcessSnapshot }.

Inductive ParentSelection : Set :=
  | Explicit (request : ParentRequest)
  | Implicit (proof : ImplicitParentProof).

Definition resolve_parent_session_locked (m : SessionMaps) (request : ParentRequest)
    : option ParentSession :=
  session ← get_pane m (parent_pane_id request);
  if negb (se_alive session) then None
  else
    let parent := {| ps_id := se_id session; ps_pane := se_pane session |} in
    match request with
    | PCapability _ token => if bool_decide (se_parent_token session = token) then Some parent else None
    | PTmuxTarget _ => Some parent
    end.

Definition resolve_implicit_parent_locked (m : SessionMaps) (proof : ImplicitParentProof)
    : result RegistryError ParentSession :=
  candidate ← ok_or (get_id m (ps_id (ip_parent proof))) ParentGone;
  bail_if (negb (se_alive candidate)
           || negb (bool_decide (se_pane candidate = ps_pane (ip_parent proof)))
           || negb (bool_decide (se_leader candidate = Some (ip_leader proof)))) ParentIdentityChanged ;;
  Ok (ip_parent proof).

(** ** Operations *)

Section registry.
(** [Uuid::parse_str] of the [uuid] crate. *)
Context (uuid_parse_str : str → option Uuid).

Definition validate_session_name_syntax (name : str) : result RegistryError unit :=
  bail_if (bool_decide (trim name = [])) NameEmpty ;;
  bail_if (128 <? str_len name) NameTooLong ;;
  bail_if (starts_with_char 0x25 name) NameLikePane ;;
  bail_if (starts_with_char 0x2d name) NameLikeOption ;;
  bail_if (session_name_looks_like_bare_pane_id name) NameLikeBarePane ;;
  bail_if (is_some (uuid_parse_str name)) NameLikeUuid ;;
  bail_if (negb (forallb (λ ch, is_ascii_alphanumeric ch || existsb (Z.eqb ch) [0x2e; 0x5f; 0x2d]) name))
    NameCharacters.

Definition name_in_use (m : SessionMaps) (name : str) : bool :=
  is_some (by_name m !! name) || bool_decide (name ∈ reserved_names m).

Definition pane_in_use (m : SessionMaps) (pane : str) : bool :=
  is_some (by_pane m !! pane) || bool_decide (pane ∈ reserved_panes m).

(** The loop of [reserve_session_identity] over the pane numbers. *)
Fixpoint select_identity (m : SessionMaps) (requested_name : option str) (pane_nums : list nat)
    : option (str * str) :=
  match pane_nums with
  | [] => None
  | pane_num :: pane_nums =>
    let pane_id := pane_of pane_num in
    if pane_in_use m pane_id then select_identity m requested_name pane_nums
    else
      let name := default (auto_name pane_num) requested_name in
      if negb (is_some requested_name) && name_in_use m name
      then select_identity m requested_name pane_nums
      else Some (pane_id, name)
  end.

Record SessionReservation : Set := { res_name : str; res_pane : str }.

Definition reserve_session_identity (m : SessionMaps) (requested_name : option str)
    : result RegistryError SessionReservation * SessionMaps :=
  let checks :=
    match requested_name with Some name => validate_session_name_syntax name | None => Ok tt end ;;
    bail_if (MAX_SESSIONS <=? size (by_pane m) + size (reserved_panes m))%nat TooManySessions ;;
    bail_if (is_some_and requested_name (name_in_use m)) NameTaken ;;
    ok_or (select_identity m requested_name (seq 0 MAX_SESSIONS)) NoPaneId in
  match checks with
  | Err e => (Err e, m)
  | Ok (pane_id, name) =>
    (Ok {| res_name := name; res_pane := pane_id |},
     with_reserved m ({[name]} ∪ reserved_names m) ({[pane_id]} ∪ reserved_panes m))
  end.

(** The [Drop] of an active reservation. *)
Definition reservation_drop (m : SessionMaps) (r : SessionReservation) : SessionMaps :=
  with_reserved m (reserved_names m ∖ {[res_name r]}) (reserved_panes m ∖ {[res_pane r]}).

(** [SessionReservation::commit] of a session built for the reservation; a failure drops
    the reservation. *)
Definition commit_checked (m : SessionMaps) (r : SessionReservation) (s : SessionEntry)
    (parent_selection : option ParentSelection) : result RegistryError (option ParentSession) :=
  bail_if (bool_decide (res_name r ∉ reserved_names m) || bool_decide (res_pane r ∉ reserved_panes m))
    ReservationMissing ;;
  bail_if (is_some (by_name m !! res_name r) || is_some (by_pane m !! se_pane s)
           || is_some (by_id m !! se_id s)) IdCollision ;;
  match parent_selection with
  | Some (Explicit request) =>
    parent ← ok_or (resolve_parent_session_locked m request) ParentGone; Ok (Some parent)
  | Some (Implicit proof) => parent ← resolve_implicit_parent_locked m proof; Ok (Some parent)
  | None => Ok None
  end.

Definition commit (m : SessionMaps) (r : SessionReservation) (s : SessionEntry)
    (parent_selection : option ParentSelection) : result RegistryError unit * SessionMaps :=
  match commit_checked m r s parent_selection with
  | Err e => (Err e, reservation_drop m r)
  | Ok parent =>
    let s := {| se_id := se_id s; se_pane := se_pane s; se_parent_pane := ps_pane <$> parent;
                se_parent_session := ps_id <$> parent; se_parent_token := se_parent_token s;
                se_alive := se_alive s; se_leader := se_leader s; se_metadata := se_metadata s;
                se_lifecycle := se_lifecycle s |} in
    let m := reservation_drop m r in
    (Ok tt, with_indexes (with_session m s) (<[res_name r := se_id s]> (by_name m))
              (<[se_pane s := se_id s]> (by_pane m)) (<[se_id s := se_id s]> (by_id m)))
  end.

(** [set_status_theme]; the answer is the session. *)
Definition set_status_theme (m : SessionMaps) (target : str) (status_theme : option StatusTheme)
    : result RegistryError unit * SessionMaps :=
  match resolve_target m target with
  | Err e => (Err e, m)
  | Ok s =>
    let md := se_metadata s in
    if bool_decide (md_theme (current md) = status_theme) then (Ok tt, m)
    else
      match validate_metadata_append md with
      | Err e => (Err e, m)
      | Ok _ =>
        let after := {| md_name := md_name (current md); md_theme := status_theme |} in
        (Ok tt, with_session m (with_metadata s (metadata_append md OpStatusTheme after)))
      end
  end.

Definition reject_identity_mutation_while_ending (s : SessionEntry) : result RegistryError unit :=
  match presentation (se_lifecycle s) with PresEnding _ => Err SessionEnding | _ => Ok tt end.

(** The guard of an identity mutation. *)
Definition session_commit_guard (s : SessionEntry) : result RegistryError unit :=
  bail_if (negb (identity_commit_guard (se_lifecycle s))) SessionEnding.

(** The index entry of [name] is this session. *)
Definition indexed_here (m : SessionMaps) (s : SessionEntry) (name : str) : bool :=
  is_some_and (get_name m name) (λ candidate, bool_decide (se_id candidate = se_id s)).
Definition indexed_elsewhere (m : SessionMaps) (s : SessionEntry) (name : str) : bool :=
  is_some_and (get_name m name) (λ candidate, negb (bool_decide (se_id candidate = se_id s))).

Definition rename_session (m : SessionMaps) (target new_name : str)
    : result RegistryError unit * SessionMaps :=
  let checks :=
    validate_session_name_syntax new_name ;;
    s ← resolve_target m target;
    reject_identity_mutation_while_ending s ;;
    let md := se_metadata s in
    if bool_decide (md_name (current md) = new_name) then
      bail_if (negb (indexed_here m s new_name)) NameIndexInconsistent ;; Ok None
    else
      bail_if (bool_decide (new_name ∈ reserved_names m) || indexed_elsewhere m s new_name) NameTaken ;;
      validate_metadata_append md ;;
      bail_if (negb (indexed_here m s (md_name (current md)))) NameIndexInconsistent ;;
      session_commit_guard s ;; Ok (Some s) in
  match checks with
  | Err e => (Err e, m)
  | Ok None => (Ok tt, m)
  | Ok (Some s) =>
    let md := se_metadata s in
    let after := {| md_name := new_name; md_theme := md_theme (current md) |} in
    let m' := with_indexes m (<[new_name := se_id s]> (delete (md_name (current md)) (by_name m)))
                (by_pane m) (by_id m) in
    (Ok tt, with_session m' (with_metadata s (metadata_append md OpRename after)))
  end.

Definition validate_metadata_name_transition (m : SessionMaps) (s : SessionEntry)
    (current_name next_name : str) : result RegistryError unit :=
  bail_if (negb (indexed_here m s current_name)) NameIndexInconsistent ;;
  if bool_decide (current_name = next_name) then Ok tt
  else
    validate_session_name_syntax next_name ;;
    bail_if (bool_decide (next_name ∈ reserved_names m) || indexed_elsewhere m s next_name) NameTaken.

Definition apply_metadata_name_transition (m : SessionMaps) (s : SessionEntry)
    (current_name next_name : str) : SessionMaps :=
  if bool_decide (current_name = next_name) then m
  else with_indexes m (<[next_name := se_id s]> (delete current_name (by_name m))) (by_pane m) (by_id m).

Definition metadata_step (m : SessionMaps) (target : str) (direction : MetadataStepDirection)
    : result RegistryError MetadataJournalEntry * SessionMaps :=
  let checks :=
    s ← resolve_target m target;
    reject_identity_mutation_while_ending s ;;
    let md := se_metadata s in
    '(entry, expected, next, next_cursor) ← metadata_step_target md direction;
    bail_if (negb (bool_decide (current md = expected))) HistoryMismatch ;;
    validate_metadata_name_transition m s (md_name (current md)) (md_name next) ;;
    session_commit_guard s ;;
    Ok (s, entry, next, next_cursor) in
  match checks with
  | Err e => (Err e, m)
  | Ok (s, entry, next, next_cursor) =>
    let md := se_metadata s in
    let m := apply_metadata_name_transition m s (md_name (current md)) (md_name next) in
    (Ok entry, with_session m (with_metadata s {|
       current := next; entries := entries md; cursor := next_cursor; purge := purge md |}))
  end.

(** [uuid_hyphenated] prints a parsed id; [now] is the clock clamped to a [u64]. *)
Definition metadata_purge_history (uuid_hyphenated : Uuid → str) (m : SessionMaps) (target : str)
    (irreversible : bool) (claimed_session_id : str) (now : Z)
    : result RegistryError nat * SessionMaps :=
  let checks :=
    bail_if (negb irreversible) PurgeNeedsIrreversible ;;
    parsed ← ok_or (uuid_parse_str claimed_session_id) PurgeNeedsUuid;
    bail_if (negb (bool_decide (uuid_hyphenated parsed = claimed_session_id))) PurgeNeedsUuid ;;
    s ← resolve_target m target;
    bail_if (negb (bool_decide (se_id s = claimed_session_id))) PurgeOtherSession ;;
    let md := se_metadata s in
    bail_if (bool_decide (length (entries md) = 0%nat)) HistoryEmpty ;;
    generation ← ok_or (checked_add u64_max (purge_generation (purge md)) 1) PurgeOverflow;
    total ← ok_or (checked_add u64_max (purged_entries_total (purge md)) (Z.of_nat (length (entries md))))
              PurgeOverflow;
    Ok (s, {| purge_generation := generation; purged_entries_total := total;
              last_purged_unix_ms := Some now |}) in
  match checks with
  | Err e => (Err e, m)
  | Ok (s, purge) =>
    let md := se_metadata s in
    (Ok (length (entries md)),
     with_session m (with_metadata s {| current := current md; entries := []; cursor := 0; purge := purge |}))
  end.

(** The indexes part of [remove_session]; the capabilities are in [Capabilities]. *)
Definition delete_if_here (m : SessionMaps) (s : SessionEntry) (index : gmap str str) (key : str)
    : gmap str str :=
  if is_some_and (deref m (index !! key)) (λ s', bool_decide (se_id s' = se_id s))
  then delete key index else index.

Definition remove_session (m : SessionMaps) (id : str) : SessionMaps :=
  match heap m !! id with
  | None => m
  | Some s =>
    with_indexes m (delete_if_here m s (by_name m) (se_name s))
      (delete_if_here m s (by_pane m) (se_pane s)) (delete_if_here m s (by_id m) (se_id s))
  end.
End registry.

(** ** Indexes over the heap *)

(** An index is exact when it maps the key of each live session to it and holds nothing
    else. *)
Definition index_ok (h : gmap str SessionEntry) (live : str → Prop) (key : SessionEntry → str)
    (index : gmap str str) : Prop :=
  ∀ k id, index !! k = Some id ↔ live id ∧ ∃ s, h !! id = Some s ∧ key s = k.

Section indexes.
Context (h : gmap str SessionEntry) (live : str → Prop) (key : SessionEntry → str) (index : gmap str str).
Hypothesis (Hok : index_ok h live key index).

Lemma index_ok_insert id s :
  ¬ live id → index !! key s = None →
  index_ok (<[id := s]> h) (λ id', id' = id ∨ live id') key (<[key s := id]> index).
Proof.
  intros Hnl Hk k id'. destruct (decide (k = key s)) as [->|Hne].
  - rewrite lookup_insert_eq. split.
    + intros [= <-]. split; [by left|]. exists s. by rewrite lookup_insert_eq.
    + intros [[->|Hl] (s' & Hs' & Hkey)]; [done|].
      rewrite lookup_insert_ne in Hs'; [|by intros ->]. exfalso.
      assert (index !! key s = Some id') as Hx by (apply Hok; eauto). congruence.
  - rewrite lookup_insert_ne // (Hok k id'). split.
    + intros [Hl (s' & Hs' & Hkey)]. split; [by right|]. exists s'.
      rewrite lookup_insert_ne //. by intros ->.
    + intros [[->|Hl] (s' & Hs' & Hkey)].
      * rewrite lookup_insert_eq in Hs'. congruence.
      * split; [done|]. rewrite lookup_insert_ne in Hs'; [eauto|]. by intros ->.
Qed.

(** A session whose key changes. *)
Lemma index_ok_rekey id s s' :
  h !! id = Some s → live id → (index !! key s' = None ∨ key s' = key s) →
  index_ok (<[id := s']> h) live key (<[key s' := id]> (delete (key s) index)).
Proof.
  intros Hs Hl Hfree k id'. destruct (decide (k = key s')) as [->|Hne].
  - rewrite lookup_insert_eq. split.
    + intros [= <-]. split; [done|]. exists s'. by rewrite lookup_insert_eq.
    + intros [Hl' (s2 & Hs2 & Hkey)]. destruct (decide (id' = id)) as [->|Hid]; [done|].
      rewrite lookup_insert_ne // in Hs2. exfalso.
      assert (index !! key s' = Some id') as Hx by (apply Hok; eauto).
      assert (index !! key s = Some id) as Hy by (apply Hok; eauto).
      destruct Hfree as [|Heq]; [congruence|]. rewrite Heq in Hx. congruence.
  - rewrite lookup_insert_ne //. destruct (decide (k = key s)) as [->|Hk].
    + rewrite lookup_delete_eq. split; [done|]. intros [Hl' (s2 & Hs2 & Hkey)].
      destruct (decide (id' = id)) as [->|Hid]; [rewrite lookup_insert_eq in Hs2; congruence|].
      rewrite lookup_insert_ne // in Hs2.
      assert (index !! key s = Some id') as Hx by (apply Hok; eauto).
      assert (index !! key s = Some id) as Hy by (apply Hok; eauto). congruence.
    + rewrite lookup_delete_ne // (Hok k id'). split; intros [Hl' (s2 & Hs2 & Hkey)]; split; try done; exists s2.
      * rewrite lookup_insert_ne //. intros ->. congruence.
      * destruct (decide (id' = id)) as [->|Hid]; [rewrite lookup_insert_eq in Hs2; congruence|].
        by rewrite lookup_insert_ne in Hs2.
Qed.

(** A session that changes and keeps its key. *)
Lemma index_ok_same_key id s s' :
  h !! id = Some s → key s' = key s → index_ok (<[id := s']> h) live key index.
Proof.
  intros Hs Hkey k id'. rewrite (Hok k id').
  split; intros [Hl (s2 & Hs2 & Hk2)]; (split; [done|]).
  - destruct (decide (id = id')) as [<-|Hid].
    + exists s'. rewrite lookup_insert_eq. split; [done|congruence].
    + exists s2. by rewrite lookup_insert_ne.
  - destruct (decide (id = id')) as [<-|Hid].
    + rewrite lookup_insert_eq in Hs2. simplify_eq. eauto.
    + rewrite lookup_insert_ne // in Hs2. eauto.
Qed.

Lemma index_ok_delete id s :
  h !! id = Some s → live id → index_ok h (λ id', id' ≠ id ∧ live id') key (delete (key s) index).
Proof.
  intros Hs Hl k id'. destruct (decide (k = key s)) as [->|Hk].
  - rewrite lookup_delete_eq. split; [done|]. intros [[Hid Hl'] (s2 & Hs2 & Hkey)].
    assert (index !! key s = Some id') as Hx by (apply Hok; eauto).
    assert (index !! key s = Some id) as Hy by (apply Hok; eauto). congruence.
  - rewrite lookup_delete_ne // (Hok k id'). split.
    + intros [Hl' (s2 & Hs2 & Hkey)]. split; [|eauto]. split; [|done]. intros ->. congruence.
    + intros [[? ?] ?]. auto.
Qed.

Lemma index_ok_live live' : (∀ id, live id ↔ live' id) → index_ok h live' key index.
Proof. intros H k id. rewrite (Hok k id). by rewrite H. Qed.
End indexes.

(** ** The journal as an editor's history

    What undo and redo promise: a sequence of values with a position in it. *)

Record Zipper : Set := { z_past : list MetadataValue; z_now : MetadataValue; z_future : list MetadataValue }.

Definition zipper_set (z : Zipper) (v : MetadataValue) : option Zipper :=
  match z_future z with
  | [] => Some {| z_past := z_now z :: z_past z; z_now := v; z_future := [] |}
  | _ => None
  end.

Definition zipper_step (z : Zipper) (d : MetadataStepDirection) : option Zipper :=
  match d, z_past z, z_future z with
  | Undo, v :: past, _ => Some {| z_past := past; z_now := v; z_future := z_now z :: z_future z |}
  | Redo, _, v :: future => Some {| z_past := z_now z :: z_past z; z_now := v; z_future := future |}
  | _, _, _ => None
  end.

Definition zipper_of (m : SessionMetadata) : Zipper := {|
  z_past := reverse (before <$> take (cursor m) (entries m));
  z_now := current m;
  z_future := after <$> drop (cursor m) (entries m) |}.

(** Each entry starts where the one before it ended, and the current value is the one at
    the cursor. *)
Fixpoint chain (v : MetadataValue) (es : list MetadataJournalEntry) : Prop :=
  match es with [] => True | e :: es => before e = v ∧ chain (after e) es end.

Fixpoint chain_end (v : MetadataValue) (es : list MetadataJournalEntry) : MetadataValue :=
  match es with [] => v | e :: es => chain_end (after e) es end.

Definition hist_ok (m : SessionMetadata) : Prop :=
  (cursor m ≤ length (entries m) ≤ MAX_METADATA_JOURNAL_ENTRIES)%nat ∧
  ∃ v0, chain v0 (take (cursor m) (entries m)) ∧ chain_end v0 (take (cursor m) (entries m)) = current m ∧
        chain (current m) (drop (cursor m) (entries m)).

#[local] Arguments reverse : simpl never.

Lemma chain_app v es1 es2 : chain v (es1 ++ es2) ↔ chain v es1 ∧ chain (chain_end v es1) es2.
Proof. revert v. induction es1 as [|e es1 IH]; intros v; simpl; [tauto|]. rewrite IH. tauto. Qed.

Lemma chain_end_app v es1 es2 : chain_end v (es1 ++ es2) = chain_end (chain_end v es1) es2.
Proof. revert v. induction es1 as [|e es1 IH]; intros v; [done|]. apply IH. Qed.

Lemma hist_ok_new name theme : hist_ok (SessionMetadata_new name theme).
Proof. split; [simpl; lia|]. by exists (current (SessionMetadata_new name theme)). Qed.

Lemma validate_metadata_append_Ok m u :
  validate_metadata_append m = Ok u →
  cursor m = length (entries m) ∧ (length (entries m) < MAX_METADATA_JOURNAL_ENTRIES)%nat.
Proof.
  unfold validate_metadata_append. intros H. inv_ok.
  repeat match goal with H : (_ =? _)%nat = true |- _ => apply Nat.eqb_eq in H
                       | H : (_ <=? _)%nat = false |- _ => apply Nat.leb_gt in H end. done.
Qed.

Lemma metadata_append_ok m op v u :
  hist_ok m → validate_metadata_append m = Ok u →
  hist_ok (metadata_append m op v) ∧ zipper_set (zipper_of m) v = Some (zipper_of (metadata_append m op v)).
Proof.
  intros [Hl (v0 & Hc & He & _)] Hv. apply validate_metadata_append_Ok in Hv as [Hcur Hlen].
  unfold hist_ok, zipper_of, zipper_set. cbn. rewrite Hcur !length_app /= firstn_all in Hc, He |- *.
  rewrite !drop_all !(take_ge (_ ++ _)); [|rewrite length_app /=; lia].
  rewrite (drop_ge (_ ++ _)); [|rewrite length_app /=; lia]. split.
  - split; [lia|]. exists v0. rewrite chain_app chain_end_app He /=. done.
  - simpl. by rewrite fmap_app reverse_app /=.
Qed.

(** The entry that an accepted step applies, and what it does to the history. *)
Lemma metadata_step_target_spec m d :
  hist_ok m →
  match metadata_step_target m d with
  | Ok (entry, expected, next, next_cursor) =>
    current m = expected ∧
    let m' := {| current := next; entries := entries m; cursor := next_cursor; purge := purge m |} in
    hist_ok m' ∧ zipper_step (zipper_of m) d = Some (zipper_of m')
  | Err e => (e = NothingToUndo ∨ e = NothingToRedo) ∧ zipper_step (zipper_of m) d = None
  end.
Proof.
  intros [Hl (v0 & Hc & He & Hf)]. destruct d; unfold metadata_step_target, zipper_step, zipper_of.
  - destruct (cursor m) as [|i] eqn:Hcur; [split; [by left|by destruct (after <$> _)]|].
    destruct (lookup_lt_is_Some_2 (entries m) i) as [e Hi]; [lia|]. rewrite Hi. cbn.
    rewrite (take_S_r _ _ e) // in Hc, He |- *. rewrite chain_app chain_end_app /= in Hc, He.
    destruct Hc as [Hc [Hb _]]. split; [done|]. unfold hist_ok. cbn. split.
    + split; [lia|]. exists v0. split; [done|]. split; [done|].
      rewrite (drop_S _ e i) //=. by rewrite He.
    + rewrite fmap_app reverse_app /= (drop_S _ e i) //=. by rewrite He.
  - destruct (entries m !! cursor m) as [e|] eqn:Hi; cbn.
    + rewrite (drop_S _ e) //= in Hf |- *. destruct Hf as [Hb Hf]. split; [done|].
      unfold hist_ok. cbn. rewrite (take_S_r _ _ e) //. split.
      * split; [apply lookup_lt_Some in Hi; lia|]. exists v0.
        rewrite chain_app chain_end_app He /=. done.
      * rewrite fmap_app reverse_app /= Hb. by destruct (reverse _).
    + split; [by right|]. apply lookup_ge_None in Hi. rewrite drop_ge //.
Qed.

(** ** The registry stays coherent *)

Definition live (m : SessionMaps) (id : str) : Prop := by_id m !! id = Some id.

#[export] Instance live_dec m id : Decision (live m id).
Proof. unfold live. solve_decision. Defined.

Section coherence.
Context (uuid_parse_str : str → option Uuid).

(** A name or pane of the maps is one the daemon could have given. *)
Definition good_name (name : str) : Prop := validate_session_name_syntax uuid_parse_str name = Ok tt.
Definition good_pane (pane : str) : Prop := ∃ n, (n < MAX_SESSIONS)%nat ∧ pane = pane_of n.

(** A journal in order whose names are all good. *)
Definition hist_good (md : SessionMetadata) : Prop :=
  hist_ok md ∧ good_name (md_name (current md)) ∧
  Forall (λ e, good_name (md_name (before e)) ∧ good_name (md_name (after e))) (entries md).

Record maps_inv (m : SessionMaps) (rs : list SessionReservation) : Prop := {
  mi_heap : ∀ id s, heap m !! id = Some s → se_id s = id ∧ hist_good (se_metadata s);
  mi_ids : index_ok (heap m) (live m) se_id (by_id m);
  mi_panes : index_ok (heap m) (live m) se_pane (by_pane m);
  mi_names : index_ok (heap m) (live m) se_name (by_name m);
  mi_reserved : reserved_names m = list_to_set (res_name <$> rs) ∧
                reserved_panes m = list_to_set (res_pane <$> rs);
  mi_distinct : NoDup (res_name <$> rs) ∧ NoDup (res_pane <$> rs);
  mi_free : ∀ r, r ∈ rs → by_name m !! res_name r = None ∧ by_pane m !! res_pane r = None;
  mi_good : ∀ id s, live m id → heap m !! id = Some s →
              good_name (se_name s) ∧ good_pane (se_pane s) ∧ is_Some (uuid_parse_str id);
  mi_good_reserved : ∀ r, r ∈ rs → good_name (res_name r) ∧ good_pane (res_pane r);
  mi_size : (size (by_pane m) + length rs ≤ MAX_SESSIONS)%nat;
}.

Lemma maps_inv_default : maps_inv SessionMaps_default [].
Proof.
  assert (∀ key, index_ok ∅ (live SessionMaps_default) key ∅) as Hix.
  { intros key k id. split; [by intros ?%lookup_empty_Some|]. unfold live. cbn. by intros [?%lookup_empty_Some _]. }
  split; cbn; try done.
  - split; constructor.
  - intros r Hr. by apply not_elem_of_nil in Hr.
  - rewrite map_size_empty. unfold MAX_SESSIONS. lia.
Qed.

(** A session that changes in place. *)
Lemma maps_inv_update m rs s s' :
  maps_inv m rs → heap m !! se_id s = Some s →
  se_id s' = se_id s → se_pane s' = se_pane s → se_name s' = se_name s → hist_good (se_metadata s') →
  maps_inv (with_session m s') rs.
Proof.
  intros [Hh Hi Hp Hn Hr Hd Hf Hg Hgr Hs] Hs0 Eid Epane Ename Hhist.
  split; cbn [with_session heap by_id by_pane by_name reserved_names reserved_panes]; try done;
    rewrite ?Eid.
  - intros id s2. destruct (decide (id = se_id s)) as [->|Hid].
    + rewrite lookup_insert_eq. by intros [= <-].
    + rewrite lookup_insert_ne //. apply Hh.
  - by eapply index_ok_same_key.
  - by eapply index_ok_same_key.
  - by eapply index_ok_same_key.
  - intros id s2 Hl. change (live m id) in Hl. destruct (decide (id = se_id s)) as [->|Hid].
    + rewrite lookup_insert_eq. intros [= <-]. rewrite Epane Ename. by apply Hg.
    + rewrite lookup_insert_ne //. by apply Hg.
Qed.

(** A session that takes a free name. *)
Lemma maps_inv_rename m rs s s' :
  maps_inv m rs → heap m !! se_id s = Some s → live m (se_id s) →
  se_id s' = se_id s → se_pane s' = se_pane s → hist_good (se_metadata s') →
  by_name m !! se_name s' = None → se_name s' ∉ reserved_names m → good_name (se_name s') →
  maps_inv (with_session (with_indexes m (<[se_name s' := se_id s]> (delete (se_name s) (by_name m)))
    (by_pane m) (by_id m)) s') rs.
Proof.
  intros [Hh Hi Hp Hn Hr Hd Hf Hg Hgr Hs] Hs0 Hl0 Eid Epane Hhist Hfree Hnr Hgood.
  split; cbn [with_session with_indexes heap by_id by_pane by_name reserved_names reserved_panes]; try done;
    rewrite ?Eid.
  - intros id s2. destruct (decide (id = se_id s)) as [->|Hid].
    + rewrite lookup_insert_eq. by intros [= <-].
    + rewrite lookup_insert_ne //. apply Hh.
  - by eapply index_ok_same_key.
  - by eapply index_ok_same_key.
  - eapply index_ok_rekey; [done|done|done|by left].
  - intros r Hrr. destruct (Hf r Hrr) as [Hfn Hfp]. split; [|done].
    destruct Hr as [Hr _]. rewrite Hr in Hnr.
    rewrite lookup_insert_ne; [by rewrite lookup_delete_None; right|].
    intros Heq. apply Hnr. rewrite Heq. apply elem_of_list_to_set. by apply list_elem_of_fmap_2.
  - intros id s2 Hl. change (live m id) in Hl. destruct (decide (id = se_id s)) as [->|Hid].
    + rewrite lookup_insert_eq. intros [= <-]. rewrite Epane. split; [done|]. by apply (Hg _ s).
    + rewrite lookup_insert_ne //. by apply Hg.
Qed.

Lemma maps_inv_remove m rs s :
  maps_inv m rs → heap m !! se_id s = Some s → live m (se_id s) →
  maps_inv (with_indexes m (delete (se_name s) (by_name m)) (delete (se_pane s) (by_pane m))
    (delete (se_id s) (by_id m))) rs.
Proof.
  intros [Hh Hi Hp Hn Hr Hd Hf Hg Hgr Hs] Hs0 Hl0.
  assert (∀ id, (id ≠ se_id s ∧ live m id) ↔
    live (with_indexes m (delete (se_name s) (by_name m)) (delete (se_pane s) (by_pane m))
      (delete (se_id s) (by_id m))) id) as Hlive.
  { intros id. unfold live. cbn. rewrite lookup_delete_Some. naive_solver. }
  split; cbn [with_indexes heap by_id by_pane by_name reserved_names reserved_panes]; try done.
  - eapply index_ok_live; [|exact Hlive]. by eapply index_ok_delete.
  - eapply index_ok_live; [|exact Hlive]. by eapply index_ok_delete.
  - eapply index_ok_live; [|exact Hlive]. by eapply index_ok_delete.
  - intros r Hrr. destruct (Hf r Hrr). rewrite !lookup_delete_None. auto.
  - intros id s2 [_ Hl]%Hlive. by apply Hg.
  - assert (by_pane m !! se_pane s = Some (se_id s)) as Hk by (apply Hp; eauto).
    rewrite map_size_delete_Some; [|by eexists]. lia.
Qed.

Lemma maps_inv_perm m rs rs' : rs ≡ₚ rs' → maps_inv m rs → maps_inv m rs'.
Proof.
  intros Hperm [Hh Hi Hp Hn Hr Hd Hf Hg Hgr Hs]. split; try done.
  - by rewrite -Hperm.
  - by rewrite -Hperm.
  - intros r Hin. apply Hf. by rewrite Hperm.
  - intros r Hin. apply Hgr. by rewrite Hperm.
  - by rewrite -Hperm.
Qed.

Lemma maps_inv_drop m r rs : maps_inv m (r :: rs) → maps_inv (reservation_drop m r) rs.
Proof.
  intros [Hh Hi Hp Hn [Hr1 Hr2] [Hd1 Hd2] Hf Hg Hgr Hs].
  rewrite !fmap_cons in Hd1, Hd2. apply NoDup_cons in Hd1 as [Hn1 Hd1]. apply NoDup_cons in Hd2 as [Hn2 Hd2].
  split; cbn [reservation_drop with_reserved heap by_id by_pane by_name reserved_names reserved_panes]; try done.
  - rewrite Hr1 Hr2 !fmap_cons !list_to_set_cons !difference_union_distr_l_L !difference_diag_L !left_id_L.
    split; apply difference_disjoint_L, disjoint_singleton_r;
      by rewrite elem_of_list_to_set.
  - intros r' Hr'. apply Hf. by right.
  - intros r' Hr'. apply Hgr. by right.
  - simpl in Hs. lia.
Qed.

Lemma maps_inv_commit m r rs s parent :
  let s' := {| se_id := se_id s; se_pane := se_pane s; se_parent_pane := ps_pane <$> parent;
               se_parent_session := ps_id <$> parent; se_parent_token := se_parent_token s;
               se_alive := se_alive s; se_leader := se_leader s; se_metadata := se_metadata s;
               se_lifecycle := se_lifecycle s |} in
  let m' := reservation_drop m r in
  maps_inv m (r :: rs) → se_pane s = res_pane r → se_name s = res_name r → hist_good (se_metadata s) →
  heap m !! se_id s = None → is_Some (uuid_parse_str (se_id s)) →
  maps_inv (with_indexes (with_session m' s') (<[res_name r := se_id s]> (by_name m'))
              (<[se_pane s := se_id s]> (by_pane m')) (<[se_id s := se_id s]> (by_id m'))) rs.
Proof.
  intros s' m' Hinv Epane Ename Hhist Hnew Huuid.
  assert (r ∈ r :: rs) as Hin by left.
  destruct (mi_free _ _ Hinv r Hin) as [Hfn Hfp]. destruct (mi_good_reserved _ _ Hinv r Hin) as [Hgn Hgp].
  pose proof (mi_distinct _ _ Hinv) as [Hd1 Hd2]. pose proof (mi_size _ _ Hinv) as Hsize.
  apply maps_inv_drop in Hinv. fold m' in Hinv. destruct Hinv as [Hh Hi Hp Hn Hr Hd Hf Hg Hgr Hs].
  assert (¬ live m' (se_id s)) as Hnl.
  { intros Hl. apply Hi in Hl as [_ (s2 & Hs2 & _)]. unfold m' in Hs2. cbn in Hs2. congruence. }
  assert (by_id m' !! se_id s' = None) as Hfi.
  { destruct (by_id m' !! se_id s') eqn:E; [|done]. pose proof E as E2.
    apply Hi in E2 as [Hl (s2 & Hs2 & Hid)]. destruct Hnl.
    pose proof (proj1 (Hh _ _ Hs2)) as Hx. unfold live. cbn in *. congruence. }
  assert (∀ id, id = se_id s ∨ live m' id ↔ live (with_indexes (with_session m' s') (<[res_name r := se_id s]> (by_name m'))
              (<[se_pane s := se_id s]> (by_pane m')) (<[se_id s := se_id s]> (by_id m'))) id) as Hlive.
  { intros id. unfold live. cbn. rewrite lookup_insert_Some. cbn in Hfi. split.
    - intros [->|Hl]; [by left|]. right. split; [|done]. intros <-. unfold live in Hl. cbn in Hl. congruence.
    - intros [[_ <-]|[_ Hl]]; [by left|by right]. }
  split; cbn [with_session with_indexes heap by_id by_pane by_name reserved_names reserved_panes]; try done.
  - intros id s2. cbn [se_id s']. destruct (decide (id = se_id s)) as [->|Hid].
    + rewrite lookup_insert_eq. by intros [= <-].
    + rewrite lookup_insert_ne //. apply Hh.
  - eapply index_ok_live; [|exact Hlive]. by apply (index_ok_insert _ _ se_id _ Hi (se_id s) s').
  - eapply index_ok_live; [|exact Hlive]. apply (index_ok_insert _ _ se_pane _ Hp (se_id s) s'); [done|].
    by rewrite (_ : se_pane s' = res_pane r).
  - eapply index_ok_live; [|exact Hlive]. rewrite -Ename.
    apply (index_ok_insert _ _ se_name _ Hn (se_id s) s'); [done|].
    by rewrite (_ : se_name s' = res_name r).
  - intros r2 Hr2. destruct (Hf r2 Hr2) as [Hf1 Hf2]. rewrite Epane.
    rewrite !fmap_cons in Hd1, Hd2. apply NoDup_cons in Hd1 as [Hn1 _]. apply NoDup_cons in Hd2 as [Hn2 _].
    rewrite !lookup_insert_ne //; intros Heq; [apply Hn2|apply Hn1]; rewrite Heq; by apply list_elem_of_fmap_2.
  - intros id s2 [->|Hl]%Hlive; cbn [se_id s'].
    + rewrite lookup_insert_eq. intros [= <-]. by rewrite (_ : se_name s' = res_name r) // (_ : se_pane s' = res_pane r).
    + rewrite lookup_insert_ne; [by apply Hg|]. by intros <-.
  - rewrite map_size_insert_None; [|by rewrite Epane]. change (by_pane m') with (by_pane m).
    cbn [length] in Hsize. lia.
Qed.

Lemma name_in_use_false m rs name :
  maps_inv m rs → name_in_use m name = false → by_name m !! name = None ∧ name ∉ res_name <$> rs.
Proof.
  intros Hinv H. unfold name_in_use in H. inv_ok.
  rewrite (proj1 (mi_reserved _ _ Hinv)) elem_of_list_to_set in H0. by destruct (by_name m !! name).
Qed.

Lemma pane_in_use_false m rs pane :
  maps_inv m rs → pane_in_use m pane = false → by_pane m !! pane = None ∧ pane ∉ res_pane <$> rs.
Proof.
  intros Hinv H. unfold pane_in_use in H. inv_ok.
  rewrite (proj2 (mi_reserved _ _ Hinv)) elem_of_list_to_set in H0. by destruct (by_pane m !! pane).
Qed.

Lemma select_identity_Some m requested nums pane name :
  select_identity m requested nums = Some (pane, name) →
  ∃ n, n ∈ nums ∧ pane = pane_of n ∧ pane_in_use m pane = false ∧
       name = default (auto_name n) requested ∧ (requested = None → name_in_use m name = false).
Proof.
  induction nums as [|n nums IH]; [done|]. cbn [select_identity].
  assert (∀ P : nat → Prop, (∃ n, n ∈ nums ∧ P n) → ∃ k, k ∈ n :: nums ∧ P k) as Hw.
  { intros P (k & Hk & HP). exists k. split; [by right|done]. }
  destruct (pane_in_use m (pane_of n)) eqn:Hp; [intros H; by apply Hw, IH|].
  destruct (negb (is_some requested) && name_in_use m (default (auto_name n) requested)) eqn:Hc;
    [intros H; by apply Hw, IH|].
  intros [= <- <-]. exists n. split; [left|]. split; [done|]. split; [done|]. split; [done|].
  intros ->. done.
Qed.

Lemma get_name_live m rs name s :
  maps_inv m rs → get_name m name = Some s →
  by_name m !! name = Some (se_id s) ∧ live m (se_id s) ∧ heap m !! se_id s = Some s ∧ se_name s = name.
Proof.
  intros Hinv (id & Hk & Hs)%bind_Some. pose proof (proj1 (mi_heap _ _ Hinv _ _ Hs)) as Hid. subst id.
  split; [done|]. apply (mi_names _ _ Hinv) in Hk as [Hl (s2 & Hs2 & Hn)]. naive_solver.
Qed.

Lemma get_pane_live m rs pane s :
  maps_inv m rs → get_pane m pane = Some s →
  by_pane m !! pane = Some (se_id s) ∧ live m (se_id s) ∧ heap m !! se_id s = Some s ∧ se_pane s = pane.
Proof.
  intros Hinv (id & Hk & Hs)%bind_Some. pose proof (proj1 (mi_heap _ _ Hinv _ _ Hs)) as Hid. subst id.
  split; [done|]. apply (mi_panes _ _ Hinv) in Hk as [Hl (s2 & Hs2 & Hn)]. naive_solver.
Qed.

Lemma get_id_live m rs id s :
  maps_inv m rs → get_id m id = Some s → live m (se_id s) ∧ heap m !! se_id s = Some s ∧ se_id s = id.
Proof.
  intros Hinv (id' & Hk & Hs)%bind_Some. pose proof (proj1 (mi_heap _ _ Hinv _ _ Hs)) as Hid. subst id'.
  apply (mi_ids _ _ Hinv) in Hk as [Hl (s2 & Hs2 & Hn)]. naive_solver.
Qed.

Lemma resolve_live m rs target s :
  maps_inv m rs → resolve_session_locked m target = Some s → live m (se_id s) ∧ heap m !! se_id s = Some s.
Proof.
  intros Hinv. unfold resolve_session_locked.
  destruct (if starts_with_char _ _ then get_pane m target else None) as [s1|] eqn:H1.
  { intros [= <-]. destruct (starts_with_char _ _); [|done].
    destruct (get_pane_live _ _ _ _ Hinv H1) as (_ & ? & ? & _). done. }
  destruct (get_name m target) as [s1|] eqn:H2.
  { intros [= <-]. destruct (get_name_live _ _ _ _ Hinv H2) as (_ & ? & ? & _). done. }
  destruct (get_id m target) as [s1|] eqn:H3.
  { intros [= <-]. destruct (get_id_live _ _ _ _ Hinv H3) as (? & ? & _). done. }
  destruct (starts_with_char _ _); [done|]. intros H4.
  destruct (get_pane_live _ _ _ _ Hinv H4) as (_ & ? & ? & _). done.
Qed.

Lemma resolve_target_live m rs target s :
  maps_inv m rs → resolve_target m target = Ok s → live m (se_id s) ∧ heap m !! se_id s = Some s.
Proof. intros Hinv H. unfold resolve_target in H. inv_ok. by eapply resolve_live. Qed.

(** The shortest form of a UUID has 32 digits. *)
Context (uuid_long : ∀ s, (length s < 32)%nat → uuid_parse_str s = None).

Lemma good_auto_name n : (n < MAX_SESSIONS)%nat → good_name (auto_name n).
Proof using uuid_long.
  intros Hn. unfold good_name, validate_session_name_syntax.
  assert (forallb (λ n, (length (auto_name n) <? 32)%nat) (seq 0 MAX_SESSIONS) = true) as Hlen
    by (vm_compute; reflexivity).
  rewrite forallb_forall in Hlen. specialize (Hlen n). rewrite in_seq in Hlen.
  rewrite uuid_long; [|apply Nat.ltb_lt, Hlen; lia].
  change (validate_session_name_syntax (λ _, None) (auto_name n) = Ok tt).
  assert (forallb (λ n, is_ok (validate_session_name_syntax (λ _, None) (auto_name n))) (seq 0 MAX_SESSIONS) = true)
    as Hall by (vm_compute; reflexivity).
  rewrite forallb_forall in Hall. specialize (Hall n). rewrite in_seq in Hall.
  apply is_ok_spec in Hall as [[] ?]; [done|lia].
Qed.

Lemma maps_inv_reserve m rs requested r m' :
  maps_inv m rs → reserve_session_identity uuid_parse_str m requested = (Ok r, m') → maps_inv m' (r :: rs).
Proof using uuid_long.
  intros Hinv. unfold reserve_session_identity.
  destruct (match requested with Some _ => _ | None => _ end ≫= _) as [[pane name]|] eqn:Hc; [|done].
  intros [= <- <-]. apply bind_Ok in Hc as (u & Hv & Hc). inv_ok.
  match goal with H : select_identity _ _ _ = _ |- _ =>
    apply select_identity_Some in H as (n & Hn & -> & Hpu & Hname & Hauto) end.
  match goal with H : (_ <=? _)%nat = false |- _ => apply Nat.leb_gt in H; rename H into Hcap end.
  apply elem_of_seq in Hn. pose proof (pane_in_use_false _ _ _ Hinv Hpu) as [Hfp Hnp].
  assert (name_in_use m name = false ∧ good_name name) as [Hnu Hgood].
  { subst name. destruct requested as [nm|]; simpl in *; [by destruct u|].
    split; [by apply Hauto|apply good_auto_name; lia]. }
  pose proof (name_in_use_false _ _ _ Hinv Hnu) as [Hfn Hnn].
  destruct Hinv as [Hh Hi Hp Hnm [Hr1 Hr2] [Hd1 Hd2] Hf Hg Hgr Hs].
  assert (length rs = size (reserved_panes m)) as Hlen.
  { rewrite Hr2 size_list_to_set // length_fmap //. }
  split; cbn [with_reserved heap by_id by_pane by_name reserved_names reserved_panes]; try done.
  - by rewrite Hr1 Hr2.
  - rewrite !fmap_cons. split; by apply NoDup_cons.
  - intros r' [->|Hr']%elem_of_cons; [done|by apply Hf].
  - intros r' [->|Hr']%elem_of_cons; [|by apply Hgr]. split; [done|]. exists n. split; [lia|done].
  - cbn [length]. lia.
Qed.

Lemma hist_good_append md op v u :
  hist_good md → good_name (md_name v) → validate_metadata_append md = Ok u →
  hist_good (metadata_append md op v).
Proof.
  intros (Hh & Hc & He) Hv Hu. split; [by eapply metadata_append_ok|]. split; [done|].
  cbn. apply Forall_app. split; [done|]. by constructor.
Qed.

(** An accepted step and the history it leaves. *)
Lemma hist_good_step md d entry expected next next_cursor :
  hist_good md → metadata_step_target md d = Ok (entry, expected, next, next_cursor) →
  current md = expected ∧ good_name (md_name next) ∧
  let md' := {| current := next; entries := entries md; cursor := next_cursor; purge := purge md |} in
  hist_good md' ∧ zipper_step (zipper_of md) d = Some (zipper_of md').
Proof.
  intros (Hh & Hc & He) Ht. pose proof (metadata_step_target_spec md d Hh) as Hs. rewrite Ht in Hs.
  destruct Hs as (Hcur & Hh' & Hz). split; [done|].
  assert (good_name (md_name next)) as Hg.
  { unfold metadata_step_target in Ht. rewrite Forall_lookup in He.
    destruct d; [destruct (cursor md); [done|]|]; inv_ok; simplify_eq; by edestruct He. }
  split; [done|]. split; [|done]. by split.
Qed.

(** A name that is neither reserved nor another session's is free, unless it is the
    session's own. *)
Lemma free_name m rs s name :
  maps_inv m rs → heap m !! se_id s = Some s → se_name s ≠ name →
  indexed_elsewhere m s name = false → by_name m !! name = None.
Proof.
  intros Hinv Hs Hne Hi. destruct (by_name m !! name) as [id|] eqn:Hk; [|done]. exfalso.
  pose proof Hk as Hk2. apply (mi_names _ _ Hinv) in Hk2 as [Hl (s2 & Hs2 & Hn2)].
  unfold indexed_elsewhere, get_name in Hi. rewrite Hk /= Hs2 /= in Hi. inv_ok.
  pose proof (proj1 (mi_heap _ _ Hinv _ _ Hs2)). congruence.
Qed.

Lemma hist_good_live m rs s : maps_inv m rs → heap m !! se_id s = Some s → hist_good (se_metadata s).
Proof. intros Hinv Hs. apply (mi_heap _ _ Hinv _ _ Hs). Qed.

Lemma set_status_theme_inv m rs target theme :
  maps_inv m rs → maps_inv (set_status_theme m target theme).2 rs.
Proof.
  intros Hinv. unfold set_status_theme. destruct (resolve_target m target) as [s|] eqn:Hr; [|done].
  destruct (resolve_target_live _ _ _ _ Hinv Hr) as [Hl Hs].
  case_bool_decide; [done|]. destruct (validate_metadata_append _) eqn:Hv; [|done].
  apply (maps_inv_update _ _ s); try done.
  assert (hist_good (se_metadata s)) as Hg by by eapply hist_good_live.
  eapply hist_good_append; [done| |done]. apply Hg.
Qed.

Lemma rename_session_inv m rs target name :
  maps_inv m rs → maps_inv (rename_session uuid_parse_str m target name).2 rs.
Proof.
  intros Hinv. unfold rename_session.
  destruct (validate_session_name_syntax uuid_parse_str name ≫= _) as [[s|]|] eqn:Hc; [|done..].
  apply bind_Ok in Hc as ([] & Hgood & Hc). apply bind_Ok in Hc as (s2 & Hr & Hc).
  apply bind_Ok in Hc as (? & _ & Hc). case_bool_decide as Hne; inv_ok; [done|]. simplify_eq.
  destruct (resolve_target_live _ _ _ _ Hinv Hr) as [Hl Hs].
  cbn [snd]. match goal with |- maps_inv (with_session _ ?s') _ => apply (maps_inv_rename m rs s s') end; try done.
  - eapply hist_good_append; [by eapply hist_good_live|by destruct x as []|done].
  - by eapply free_name.
Qed.

Lemma metadata_step_inv m rs target d :
  maps_inv m rs → maps_inv (metadata_step uuid_parse_str m target d).2 rs.
Proof.
  intros Hinv. unfold metadata_step.
  destruct (resolve_target m target ≫= _) as [[[[s entry] next] next_cursor]|] eqn:Hc; [|done].
  apply bind_Ok in Hc as (s2 & Hr & Hc). apply bind_Ok in Hc as (? & _ & Hc).
  apply bind_Ok in Hc as ([[[e2 exp] nx] nc] & Ht & Hc). apply bind_Ok in Hc as (? & _ & Hc).
  apply bind_Ok in Hc as ([] & Hv & Hc). inv_ok. simplify_eq.
  destruct (resolve_target_live _ _ _ _ Hinv Hr) as [Hl Hs].
  destruct (hist_good_step _ _ _ _ _ _ (hist_good_live _ _ _ Hinv Hs) Ht) as (_ & _ & Hhist & _).
  unfold apply_metadata_name_transition, validate_metadata_name_transition in *. inv_ok.
  case_bool_decide as Hn; inv_ok; cbn [snd].
  - by apply (maps_inv_update _ _ s).
  - match goal with |- maps_inv (with_session _ ?s') _ => apply (maps_inv_rename m rs s s') end; try done.
    + by eapply free_name.
    + by destruct x3.
Qed.

Lemma metadata_purge_inv hyph m rs target irr claimed now :
  maps_inv m rs → maps_inv (metadata_purge_history uuid_parse_str hyph m target irr claimed now).2 rs.
Proof.
  intros Hinv. unfold metadata_purge_history.
  destruct (bail_if (negb irr) PurgeNeedsIrreversible ≫= _) as [[s pg]|] eqn:Hc; [|done].
  inv_ok. simplify_eq.
  match goal with H : resolve_target _ _ = _ |- _ =>
    destruct (resolve_target_live _ _ _ _ Hinv H) as [Hl Hs] end.
  apply (maps_inv_update _ _ s); try done.
  split; [|split; [apply (hist_good_live _ _ _ Hinv Hs)|constructor]].
  split; [simpl; lia|]. by exists (current (se_metadata s)).
Qed.

Lemma remove_session_inv m rs id : maps_inv m rs → maps_inv (remove_session m id) rs.
Proof.
  intros Hinv. unfold remove_session. destruct (heap m !! id) as [s|] eqn:Hs; [|done].
  pose proof (proj1 (mi_heap _ _ Hinv _ _ Hs)) as Hid. subst id.
  assert (∀ (index : gmap str str) key (live' := live m),
    index_ok (heap m) live' key index →
    delete_if_here m s index (key s) = if decide (live m (se_id s)) then delete (key s) index else index) as Hdel.
  { intros index key live' Hok. unfold delete_if_here, deref.
    destruct (index !! key s) as [id|] eqn:Hk; simpl.
    - pose proof Hk as Hk2. apply Hok in Hk2 as [Hl (s2 & Hs2 & Hkey)]. rewrite Hs2 /=.
      pose proof (proj1 (mi_heap _ _ Hinv _ _ Hs2)) as Hid2. subst id. case_bool_decide as Heq.
      + rewrite Heq in Hl. by rewrite decide_True.
      + destruct (decide (live m (se_id s))) as [Hl'|]; [|done].
        assert (index !! key s = Some (se_id s)) as Hx by (apply Hok; eauto). congruence.
    - destruct (decide (live m (se_id s))) as [Hl'|]; [|done].
      assert (index !! key s = Some (se_id s)) as Hx by (apply Hok; eauto). congruence. }
  rewrite (Hdel _ se_name (mi_names _ _ Hinv)) (Hdel _ se_pane (mi_panes _ _ Hinv)) (Hdel _ se_id (mi_ids _ _ Hinv)).
  destruct (decide (live m (se_id s))) as [Hl|Hl]; [by apply maps_inv_remove|]. by destruct m.
Qed.

(** ** Histories of the registry

    The reservations are values held by the threads that create sessions. *)

Inductive RegistryEvent : Set :=
  | RReserve (requested_name : option str)
  | RDrop (i : nat)
  | RCommit (i : nat) (id token : str) (leader : option ProcessIdentity) (theme : option StatusTheme)
      (parent : option ParentSelection)
  | RTheme (target : str) (theme : option StatusTheme)
  | RRename (target new_name : str)
  | RStep (target : str) (direction : MetadataStepDirection)
  | RPurge (target : str) (irreversible : bool) (claimed : str) (now : Z)
  | RLifecycle (id : str) (alive : bool) (lifecycle : LifecyclePublication)
  | RRemove (id : str).

(** The session that [create_session] builds for a reservation. *)
Definition session_for (r : SessionReservation) (id token : str) (leader : option ProcessIdentity)
    (theme : option StatusTheme) : SessionEntry := {|
  se_id := id; se_pane := res_pane r; se_parent_pane := None; se_parent_session := None;
  se_parent_token := token; se_alive := true; se_leader := leader;
  se_metadata := SessionMetadata_new (res_name r) theme; se_lifecycle := LifecyclePublication_default |}.

Definition with_lifecycle (s : SessionEntry) (alive : bool) (p : LifecyclePublication) : SessionEntry := {|
  se_id := se_id s; se_pane := se_pane s; se_parent_pane := se_parent_pane s;
  se_parent_session := se_parent_session s; se_parent_token := se_parent_token s;
  se_alive := alive; se_leader := se_leader s; se_metadata := se_metadata s; se_lifecycle := p |}.

Context (uuid_hyphenated : Uuid → str).

(** A new id is a UUID no session has had. *)
Definition registry_step (st : SessionMaps * list SessionReservation) (ev : RegistryEvent)
    : option (SessionMaps * list SessionReservation) :=
  let '(m, rs) := st in
  match ev with
  | RReserve requested =>
    match reserve_session_identity uuid_parse_str m requested with
    | (Ok r, m) => Some (m, r :: rs)
    | (Err _, m) => Some (m, rs)
    end
  | RDrop i => r ← rs !! i; Some (reservation_drop m r, delete i rs)
  | RCommit i id token leader theme parent =>
    r ← rs !! i;
    if is_some (heap m !! id) || negb (is_some (uuid_parse_str id)) then None
    else Some ((commit m r (session_for r id token leader theme) parent).2, delete i rs)
  | RTheme target theme => Some ((set_status_theme m target theme).2, rs)
  | RRename target name => Some ((rename_session uuid_parse_str m target name).2, rs)
  | RStep target d => Some ((metadata_step uuid_parse_str m target d).2, rs)
  | RPurge target irr claimed now =>
    Some ((metadata_purge_history uuid_parse_str uuid_hyphenated m target irr claimed now).2, rs)
  | RLifecycle id alive p => s ← heap m !! id; Some (with_session m (with_lifecycle s alive p), rs)
  | RRemove id => Some (remove_session m id, rs)
  end.

Fixpoint registry_run (st : SessionMaps * list SessionReservation) (evs : list RegistryEvent)
    : option (SessionMaps * list SessionReservation) :=
  match evs with
  | [] => Some st
  | ev :: evs => st ← registry_step st ev; registry_run st evs
  end.

Lemma registry_step_inv m rs ev m' rs' :
  maps_inv m rs → registry_step (m, rs) ev = Some (m', rs') → maps_inv m' rs'.
Proof using uuid_long.
  intros Hinv Hstep. destruct ev as [req|i|i id token leader theme parent|t theme|t n|t d|t irr c now|id alive p|id];
    cbn [registry_step] in Hstep.
  - destruct (reserve_session_identity uuid_parse_str m req) as [[r|e] m1] eqn:Hr; simplify_eq.
    + by eapply maps_inv_reserve.
    + unfold reserve_session_identity in Hr. destruct (_ ≫= _) as [[]|]; by simplify_eq.
  - apply bind_Some in Hstep as (r & Hr & [= <- <-]). apply maps_inv_drop.
    eapply maps_inv_perm; [|done]. by apply delete_Permutation.
  - apply bind_Some in Hstep as (r & Hr & Hstep).
    destruct (is_some (heap m !! id) || negb (is_some (uuid_parse_str id))) eqn:Hg; simplify_eq. inv_ok.
    assert (maps_inv m (r :: delete i rs)) as Hinv' by (eapply maps_inv_perm; [by apply delete_Permutation|done]).
    unfold commit. destruct (commit_checked _ _ _ _); [|by apply maps_inv_drop].
    pose proof (mi_good_reserved _ _ Hinv' r ltac:(left)) as [Hgood _].
    apply (maps_inv_commit m r (delete i rs) (session_for r id token leader theme)); try done.
    + split; [apply hist_ok_new|]. split; [done|constructor].
    + cbn. by destruct (heap m !! id).
    + cbn. by destruct (uuid_parse_str id).
  - injection Hstep as <- <-. by apply set_status_theme_inv.
  - injection Hstep as <- <-. by apply rename_session_inv.
  - injection Hstep as <- <-. by apply metadata_step_inv.
  - injection Hstep as <- <-. by apply metadata_purge_inv.
  - apply bind_Some in Hstep as (s & Hs & [= <- <-]).
    pose proof (proj1 (mi_heap _ _ Hinv _ _ Hs)) as Hid. subst id.
    apply (maps_inv_update _ _ s); try done. exact (hist_good_live _ _ _ Hinv Hs).
  - injection Hstep as <- <-. by apply remove_session_inv.
Qed.

Lemma registry_run_inv m rs evs m' rs' :
  maps_inv m rs → registry_run (m, rs) evs = Some (m', rs') → maps_inv m' rs'.
Proof using uuid_long.
  revert m rs. induction evs as [|ev evs IH]; intros m rs Hinv Hrun; simplify_eq/=; [done|].
  apply bind_Some in Hrun as ([m1 rs1] & H1 & H2). apply (IH m1 rs1); [|done]. by eapply registry_step_inv.
Qed.

(** ** Targets *)

(** What a target may mean for a session. *)
Definition means (target : str) (s : SessionEntry) : Prop :=
  se_pane s = target ∨ se_name s = target ∨ se_id s = target ∨ se_pane s = 0x25 :: target.

Lemma good_name_not_pane name n : good_name name → name ≠ pane_of n.
Proof. intros H ->. unfold good_name, validate_session_name_syntax in H. inv_ok. done. Qed.

Lemma pane_digits n : (n < MAX_SESSIONS)%nat → session_name_looks_like_bare_pane_id (dec (Z.of_nat n)) = true ∧ (length (dec (Z.of_nat n)) < 31)%nat.
Proof.
  intros Hn.
  assert (forallb (λ n, session_name_looks_like_bare_pane_id (dec (Z.of_nat n)) && (length (dec (Z.of_nat n)) <? 31)%nat) (seq 0 MAX_SESSIONS) = true)
    as Hall by (vm_compute; reflexivity).
  rewrite forallb_forall in Hall. specialize (Hall n). rewrite in_seq in Hall.
  apply andb_true in Hall as [? ?%Nat.ltb_lt]; [done|lia].
Qed.

Lemma good_name_not_bare name n : (n < MAX_SESSIONS)%nat → good_name name → name ≠ dec (Z.of_nat n).
Proof.
  intros Hn H ->. destruct (pane_digits n Hn) as [Hd _]. unfold good_name, validate_session_name_syntax in H.
  inv_ok. congruence.
Qed.

Lemma good_name_not_uuid name : good_name name → uuid_parse_str name = None.
Proof.
  intros H. unfold good_name, validate_session_name_syntax in H. inv_ok. by destruct (uuid_parse_str name).
Qed.

Lemma pane_not_uuid n : (n < MAX_SESSIONS)%nat → uuid_parse_str (pane_of n) = None ∧ uuid_parse_str (dec (Z.of_nat n)) = None.
Proof using uuid_long.
  intros Hn. destruct (pane_digits n Hn) as [_ Hl]. split; apply uuid_long; [|lia]. simpl. lia.
Qed.

Lemma dec_not_pane n k : (n < MAX_SESSIONS)%nat → dec (Z.of_nat n) ≠ pane_of k.
Proof. intros Hn Heq. destruct (pane_digits n Hn) as [Hd _]. by rewrite Heq in Hd. Qed.

(** Live sessions that a target may mean are one session. *)
Lemma means_unique m rs target s1 s2 :
  maps_inv m rs → live m (se_id s1) → heap m !! se_id s1 = Some s1 →
  live m (se_id s2) → heap m !! se_id s2 = Some s2 → means target s1 → means target s2 → s1 = s2.
Proof using uuid_long.
  intros Hinv Hl1 Hs1 Hl2 Hs2 Hm1 Hm2.
  destruct (mi_good _ _ Hinv _ _ Hl1 Hs1) as (Hn1 & (p1 & Hlt1 & Hp1) & Hu1).
  destruct (mi_good _ _ Hinv _ _ Hl2 Hs2) as (Hn2 & (p2 & Hlt2 & Hp2) & Hu2).
  assert (se_pane s1 = se_pane s2 → s1 = s2) as Hpp.
  { intros Heq. assert (by_pane m !! se_pane s1 = Some (se_id s1)) as H1 by (apply (mi_panes _ _ Hinv); eauto).
    assert (by_pane m !! se_pane s2 = Some (se_id s2)) as H2 by (apply (mi_panes _ _ Hinv); eauto). congruence. }
  assert (se_name s1 = se_name s2 → s1 = s2) as Hnn.
  { intros Heq. assert (by_name m !! se_name s1 = Some (se_id s1)) as H1 by (apply (mi_names _ _ Hinv); eauto).
    assert (by_name m !! se_name s2 = Some (se_id s2)) as H2 by (apply (mi_names _ _ Hinv); eauto). congruence. }
  pose proof (pane_not_uuid p1 Hlt1) as [??]. pose proof (pane_not_uuid p2 Hlt2) as [??].
  pose proof (good_name_not_uuid _ Hn1). pose proof (good_name_not_uuid _ Hn2).
  pose proof (good_name_not_pane _ p2 Hn1). pose proof (good_name_not_pane _ p1 Hn2).
  pose proof (good_name_not_bare _ p2 Hlt2 Hn1). pose proof (good_name_not_bare _ p1 Hlt1 Hn2).
  pose proof (good_name_not_bare _ p2 Hlt2 Hn2). pose proof (good_name_not_bare _ p1 Hlt1 Hn1).
  destruct Hu1 as [u1 Hu1], Hu2 as [u2 Hu2].
  pose proof (dec_not_pane p1 p2 Hlt1). pose proof (dec_not_pane p2 p1 Hlt2).
  assert (se_id s1 = se_id s2 → s1 = s2) as Hii by (intros Heq; congruence).
  unfold means, pane_of in *. clear Hl1 Hl2 Hs1 Hs2 Hinv uuid_long.
  destruct Hm1 as [<-|[<-|[<-|Hm1]]], Hm2 as [Hm2|[Hm2|[Hm2|Hm2]]];
    (by auto) || (exfalso; congruence) || (apply Hpp; congruence).
Qed.

Lemma resolve_spec m rs target s :
  maps_inv m rs →
  resolve_session_locked m target = Some s ↔ live m (se_id s) ∧ heap m !! se_id s = Some s ∧ means target s.
Proof using uuid_long.
  intros Hinv.
  assert (∀ s', resolve_session_locked m target = Some s' → means target s') as Hmeans.
  { intros s'. unfold resolve_session_locked, means.
    destruct (if starts_with_char _ _ then get_pane m target else None) as [s1|] eqn:H1.
    { intros [= <-]. destruct (starts_with_char _ _); [|done].
      destruct (get_pane_live _ _ _ _ Hinv H1) as (_ & _ & _ & ?). auto. }
    destruct (get_name m target) as [s1|] eqn:H2.
    { intros [= <-]. destruct (get_name_live _ _ _ _ Hinv H2) as (_ & _ & _ & ?). auto. }
    destruct (get_id m target) as [s1|] eqn:H3.
    { intros [= <-]. destruct (get_id_live _ _ _ _ Hinv H3) as (_ & _ & ?). auto. }
    destruct (starts_with_char _ _); [done|]. intros H4.
    destruct (get_pane_live _ _ _ _ Hinv H4) as (_ & _ & _ & ?). auto. }
  split; [intros H; destruct (resolve_live _ _ _ _ Hinv H); auto|].
  intros (Hl & Hs & Hm). destruct (resolve_session_locked m target) as [s'|] eqn:Hr.
  { destruct (resolve_live _ _ _ _ Hinv Hr). f_equal.
    apply (means_unique m rs target); auto. }
  exfalso. destruct (mi_good _ _ Hinv _ _ Hl Hs) as (_ & (n & Hn & Hp) & _).
  assert (by_pane m !! se_pane s = Some (se_id s)) as Hkp by (apply (mi_panes _ _ Hinv); eauto).
  assert (by_name m !! se_name s = Some (se_id s)) as Hkn by (apply (mi_names _ _ Hinv); eauto).
  unfold resolve_session_locked in Hr. destruct Hm as [<-|[<-|[<-|Hm]]].
  - unfold get_pane in Hr. by rewrite Hkp /= Hs {1}Hp in Hr.
  - destruct (if starts_with_char _ _ then get_pane m _ else None); [done|]. unfold get_name in Hr.
    by rewrite Hkn /= Hs in Hr.
  - destruct (if starts_with_char _ _ then get_pane m _ else None); [done|]. destruct (get_name m _); [done|].
    unfold get_id in Hr. unfold live in Hl. by rewrite Hl /= Hs in Hr.
  - assert (starts_with_char 0x25 target = false) as Hns.
    { rewrite Hm in Hp. injection Hp as ->. destruct (dec (Z.of_nat n)) as [|c l] eqn:Hd; [done|]. simpl.
      apply Z.eqb_neq. intros ->. destruct (pane_digits n Hn) as [Hx _]. by rewrite Hd in Hx. }
    rewrite Hns in Hr. destruct (get_name m _); [done|]. destruct (get_id m _); [done|].
    unfold get_pane in Hr. by rewrite -Hm Hkp /= Hs in Hr.
Qed.

(** ** Theorems on histories *)

Lemma indexed_here_live m rs s :
  maps_inv m rs → live m (se_id s) → heap m !! se_id s = Some s → indexed_here m s (se_name s) = true.
Proof.
  intros Hinv Hl Hs. assert (by_name m !! se_name s = Some (se_id s)) as Hk by (apply (mi_names _ _ Hinv); eauto).
  unfold indexed_here, get_name. rewrite Hk /= Hs /=. by apply bool_decide_eq_true.
Qed.

Lemma validate_transition_spec m rs s next :
  maps_inv m rs → live m (se_id s) → heap m !! se_id s = Some s → good_name next →
  match validate_metadata_name_transition uuid_parse_str m s (se_name s) next with
  | Ok _ => True
  | Err e => e = NameTaken ∧ name_in_use m next = true
  end.
Proof.
  intros Hinv Hl Hs Hg. unfold validate_metadata_name_transition.
  rewrite (indexed_here_live _ _ _ Hinv Hl Hs) /=. case_bool_decide; [done|]. rewrite Hg /=.
  destruct (bool_decide (next ∈ reserved_names m) || indexed_elsewhere m s next) eqn:E; [|done]. cbn.
  split; [done|]. unfold name_in_use. apply orb_true_iff in E as [E|E]; [by rewrite E orb_true_r|].
  unfold indexed_elsewhere, get_name in E. by destruct (by_name m !! next).
Qed.

(** What an answer to an undo or redo says of the history. *)
Definition step_answer_ok (m : SessionMaps) (s : SessionEntry) (d : MetadataStepDirection)
    (answer : result RegistryError MetadataJournalEntry * SessionMaps) : Prop :=
  let z := zipper_of (se_metadata s) in
  match answer with
  | (Ok _, m') =>
    ∃ s', heap m' !! se_id s = Some s' ∧ zipper_step z d = Some (zipper_of (se_metadata s')) ∧
          by_name m' !! se_name s' = Some (se_id s)
  | (Err e, m') =>
    m' = m ∧
    match e with
    | SessionEnding => reject_identity_mutation_while_ending s = Err SessionEnding ∨
                       session_commit_guard s = Err SessionEnding
    | NothingToUndo | NothingToRedo => zipper_step z d = None
    | NameTaken => ∃ z', zipper_step z d = Some z' ∧ name_in_use m (md_name (z_now z')) = true
    | _ => False
    end
  end.

Lemma metadata_step_answer m rs target d s :
  maps_inv m rs → resolve_target m target = Ok s →
  step_answer_ok m s d (metadata_step uuid_parse_str m target d).
Proof.
  intros Hinv Hr. destruct (resolve_target_live _ _ _ _ Hinv Hr) as [Hl Hs].
  pose proof (hist_good_live _ _ _ Hinv Hs) as Hg.
  pose proof (metadata_step_inv m rs target d Hinv) as Hinv'. revert Hinv'.
  unfold metadata_step. rewrite Hr. cbn [mbind result_bind].
  destruct (reject_identity_mutation_while_ending s) as [[]|e] eqn:Hrej; cbn [mbind result_bind].
  2:{ intros _. split; [done|]. unfold reject_identity_mutation_while_ending in Hrej |- *. by case_match; simplify_eq; left. }
  destruct (metadata_step_target (se_metadata s) d) as [[[[entry exp] next] nc]|e] eqn:Ht; cbn [mbind result_bind].
  2:{ intros _. split; [done|]. pose proof (metadata_step_target_spec (se_metadata s) d (proj1 Hg)) as Hz.
      rewrite Ht in Hz. by destruct Hz as [[->| ->] Hz]. }
  destruct (hist_good_step _ _ _ _ _ _ Hg Ht) as (Hcur & Hgood & Hhist & Hz).
  rewrite bool_decide_true //. cbn [negb bail_if mbind result_bind].
  pose proof (validate_transition_spec m rs s (md_name next) Hinv Hl Hs Hgood) as Hv.
  change (md_name (current (se_metadata s))) with (se_name s).
  destruct (validate_metadata_name_transition _ _ _ _ _) as [?|e]; cbn [mbind result_bind].
  2:{ intros _. destruct Hv as [-> Hu]. split; [done|]. eexists. by split. }
  destruct (session_commit_guard s) as [?|e] eqn:Hgd; cbn [mbind result_bind snd].
  2:{ intros _. split; [done|]. unfold session_commit_guard in *.
      destruct (negb _); simplify_eq/=. by right. }
  intros Hinv'. eexists. split; [apply lookup_insert_eq|]. split; [done|].
  apply (mi_names _ _ Hinv'). split.
  - unfold live, apply_metadata_name_transition in *. by case_bool_decide.
  - eexists. split; [apply lookup_insert_eq|done].
Qed.

(** What a successful change does to the history. *)
Lemma set_status_theme_answer m rs target theme s m' :
  maps_inv m rs → resolve_target m target = Ok s → set_status_theme m target theme = (Ok tt, m') →
  m' = m ∨ ∃ s', heap m' !! se_id s = Some s' ∧
    zipper_set (zipper_of (se_metadata s)) {| md_name := se_name s; md_theme := theme |} =
    Some (zipper_of (se_metadata s')).
Proof.
  intros Hinv Hr H. destruct (resolve_target_live _ _ _ _ Hinv Hr) as [Hl Hs].
  unfold set_status_theme in H. rewrite Hr in H. case_bool_decide; simplify_eq; [by left|].
  destruct (validate_metadata_append _) eqn:Hv; simplify_eq. right.
  eexists. split; [apply lookup_insert_eq|]. eapply metadata_append_ok; [|done].
  apply (hist_good_live _ _ _ Hinv Hs).
Qed.

Lemma rename_session_answer m rs target name s m' :
  maps_inv m rs → resolve_target m target = Ok s → rename_session uuid_parse_str m target name = (Ok tt, m') →
  m' = m ∨ ∃ s', heap m' !! se_id s = Some s' ∧
    zipper_set (zipper_of (se_metadata s)) {| md_name := name; md_theme := md_theme (current (se_metadata s)) |} =
    Some (zipper_of (se_metadata s')).
Proof.
  intros Hinv Hr H. destruct (resolve_target_live _ _ _ _ Hinv Hr) as [Hl Hs].
  unfold rename_session in H. rewrite Hr in H.
  destruct (validate_session_name_syntax uuid_parse_str name ≫= _) as [[s2|]|] eqn:Hc; simplify_eq; [|by left].
  right. apply bind_Ok in Hc as ([] & Hgood & Hc). cbn [mbind result_bind] in Hc.
  apply bind_Ok in Hc as (? & _ & Hc). case_bool_decide; inv_ok; [done|]. simplify_eq.
  eexists. split; [apply lookup_insert_eq|]. eapply metadata_append_ok; [|done].
  apply (hist_good_live _ _ _ Hinv Hs).
Qed.

(** ** Admission *)

Lemma select_identity_None m name nums :
  select_identity m (Some name) nums = None → ∀ n, n ∈ nums → pane_in_use m (pane_of n) = true.
Proof.
  induction nums as [|k nums IH]; intros H n Hn; [by apply not_elem_of_nil in Hn|]. cbn in H.
  destruct (pane_in_use m (pane_of k)) eqn:Hk; [|done].
  apply elem_of_cons in Hn as [->|Hn]; [done|by apply IH].
Qed.

Lemma panes_distinct : NoDup (pane_of <$> seq 0 MAX_SESSIONS).
Proof.
  apply NoDup_fmap_2; [|apply NoDup_seq]. intros x y [= H%dec_inj]; lia.
Qed.

(** With room in the registry, some pane number is free. *)
Lemma free_pane m name :
  (size (by_pane m) + size (reserved_panes m) < MAX_SESSIONS)%nat →
  is_Some (select_identity m (Some name) (seq 0 MAX_SESSIONS)).
Proof.
  intros Hroom. destruct (select_identity m (Some name) (seq 0 MAX_SESSIONS)) eqn:E; [done|]. exfalso.
  pose proof (select_identity_None _ _ _ E) as Hall.
  assert (list_to_set (pane_of <$> seq 0 MAX_SESSIONS) ⊆ dom (by_pane m) ∪ reserved_panes m) as Hsub.
  { intros p Hp. apply elem_of_list_to_set in Hp. apply list_elem_of_fmap in Hp as (n & -> & Hn).
    specialize (Hall n Hn). unfold pane_in_use in Hall. apply elem_of_union.
    apply orb_true_iff in Hall as [Hx|Hx]; [left|right; by apply bool_decide_eq_true in Hx].
    apply elem_of_dom. by destruct (by_pane m !! pane_of n). }
  apply subseteq_size in Hsub. rewrite size_list_to_set in Hsub; [|apply panes_distinct].
  rewrite length_fmap length_seq in Hsub.
  pose proof (size_union_alt (dom (by_pane m)) (reserved_panes m)) as Hu.
  assert (size (reserved_panes m ∖ dom (by_pane m)) ≤ size (reserved_panes m))%nat
    by by apply subseteq_size, subseteq_difference_l.
  rewrite size_dom in Hu. lia.
Qed.

Lemma reserve_named_spec m rs name :
  maps_inv m rs →
  (∃ r m', reserve_session_identity uuid_parse_str m (Some name) = (Ok r, m') ∧ res_name r = name) ↔
  good_name name ∧ name_in_use m name = false ∧ (size (by_pane m) + length rs < MAX_SESSIONS)%nat.
Proof.
  intros Hinv.
  assert (size (reserved_panes m) = length rs) as Hlen.
  { rewrite (proj2 (mi_reserved _ _ Hinv)) size_list_to_set; [|apply (mi_distinct _ _ Hinv)]. apply length_fmap. }
  unfold reserve_session_identity. rewrite Hlen. split.
  - intros (r & m' & H & Hrn).
    destruct (validate_session_name_syntax uuid_parse_str name ≫= _) as [[pane nm]|] eqn:Hc; simplify_eq.
    apply bind_Ok in Hc as ([] & Hg & Hc). inv_ok. cbn [is_some_and] in *.
    match goal with H : select_identity _ _ _ = _ |- _ =>
      apply select_identity_Some in H as (n & Hn & -> & Hpu & Hname & Hauto) end.
    match goal with H : (_ <=? _)%nat = false |- _ => apply Nat.leb_gt in H end.
    done.
  - intros (Hg & Hu & Hroom). rewrite Hg. cbn [mbind result_bind].
    rewrite (proj2 (Nat.leb_gt _ _) Hroom). cbn [bail_if mbind result_bind is_some_and]. rewrite Hu.
    cbn [bail_if mbind result_bind]. rewrite -Hlen in Hroom.
    destruct (free_pane m name Hroom) as [[pane nm] Hsel]. rewrite Hsel. cbn.
    apply select_identity_Some in Hsel as (n & _ & _ & _ & -> & _). eauto.
Qed.

(** C16: In every history of reservations, commits, renames, undos and removals the three
    indexes of the daemon agree with its live sessions, each under its own name, pane and
    id, with valid names, no name or pane given twice or to a session and a reservation at
    once, at most 256 in all and every journal in order; and a removed session is in no
    index any more. *)
Theorem registry_stays_coherent evs m rs :
  registry_run (SessionMaps_default, []) evs = Some (m, rs) →
  maps_inv m rs ∧
  (∀ id, let m' := remove_session m id in
     by_id m' !! id = None ∧ (∀ k, by_name m' !! k ≠ Some id) ∧ (∀ k, by_pane m' !! k ≠ Some id)).
Proof using uuid_long.
  intros Hrun. assert (maps_inv m rs) as Hinv by (eapply registry_run_inv; [apply maps_inv_default|done]).
  split; [done|]. intros id. cbn zeta. pose proof (remove_session_inv m rs id Hinv) as Hinv'.
  assert (¬ live (remove_session m id) id) as Hdead.
  { unfold live, remove_session. destruct (heap m !! id) as [s|] eqn:Hs; cbn.
    - pose proof (proj1 (mi_heap _ _ Hinv _ _ Hs)) as <-. unfold delete_if_here, deref.
      destruct (by_id m !! se_id s) as [k|] eqn:Hk; cbn; [|by rewrite Hk].
      apply (mi_ids _ _ Hinv) in Hk as [_ (s2 & Hs2 & Hid2)]. rewrite Hs2 /= bool_decide_true //.
      by rewrite lookup_delete_eq.
    - intros Hl. apply (mi_ids _ _ Hinv) in Hl as [_ (s2 & Hs2 & _)]. congruence. }
  split; [|split].
  - destruct (by_id (remove_session m id) !! id) as [k|] eqn:Hk; [|done]. pose proof Hk as Hk2.
    apply (mi_ids _ _ Hinv') in Hk2 as [Hl (s2 & Hs2 & Hid2)].
    pose proof (proj1 (mi_heap _ _ Hinv' _ _ Hs2)). by subst.
  - intros k Hk. by apply (mi_names _ _ Hinv') in Hk as [Hl _].
  - intros k Hk. by apply (mi_panes _ _ Hinv') in Hk as [Hl _].
Qed.

(** A target never means two sessions: pane ids, names, session ids and bare pane numbers
    cannot be confused in any reachable registry, so the order in which the resolver tries
    them does not matter, and it finds a session exactly when the target names a live one. *)
Theorem target_means_one_session evs m rs target :
  registry_run (SessionMaps_default, []) evs = Some (m, rs) →
  (∀ s, resolve_session_locked m target = Some s ↔
        live m (se_id s) ∧ heap m !! se_id s = Some s ∧ means target s) ∧
  (∀ s1 s2, live m (se_id s1) → heap m !! se_id s1 = Some s1 → live m (se_id s2) →
     heap m !! se_id s2 = Some s2 → means target s1 → means target s2 → s1 = s2).
Proof using uuid_long.
  intros Hrun. assert (maps_inv m rs) as Hinv by (eapply registry_run_inv; [apply maps_inv_default|done]).
  split; [intros s; by eapply resolve_spec|]. intros s1 s2 ??????. by eapply means_unique.
Qed.

(** C17: The metadata journal is an editor's history.  In any reachable registry a change of
    name or theme that succeeds appends to the history at its tip; an undo or redo moves
    one step in it, with the name index following, or is refused without effect and only
    because there is no such step, the session is ending, or the name of that step is taken:
    the refusals the source makes for an inconsistent journal or index cannot occur. *)
Theorem metadata_journal_refines_history evs m rs target s :
  registry_run (SessionMaps_default, []) evs = Some (m, rs) →
  resolve_target m target = Ok s →
  (∀ d, step_answer_ok m s d (metadata_step uuid_parse_str m target d)) ∧
  (∀ theme m', set_status_theme m target theme = (Ok tt, m') → m' = m ∨
     ∃ s', heap m' !! se_id s = Some s' ∧
       zipper_set (zipper_of (se_metadata s)) {| md_name := se_name s; md_theme := theme |} =
       Some (zipper_of (se_metadata s'))) ∧
  (∀ name m', rename_session uuid_parse_str m target name = (Ok tt, m') → m' = m ∨
     ∃ s', heap m' !! se_id s = Some s' ∧
       zipper_set (zipper_of (se_metadata s))
         {| md_name := name; md_theme := md_theme (current (se_metadata s)) |} =
       Some (zipper_of (se_metadata s'))).
Proof using uuid_long.
  intros Hrun Hr. assert (maps_inv m rs) as Hinv by (eapply registry_run_inv; [apply maps_inv_default|done]).
  split; [intros d; by eapply metadata_step_answer|].
  split; intros x m' H; [by eapply set_status_theme_answer|by eapply rename_session_answer].
Qed.

(** A session with a given name is admitted exactly when the name is valid and free and
    fewer than 256 sessions and reservations exist: no pane number runs out before. *)
Theorem named_session_admitted evs m rs name :
  registry_run (SessionMaps_default, []) evs = Some (m, rs) →
  (∃ r m', reserve_session_identity uuid_parse_str m (Some name) = (Ok r, m') ∧ res_name r = name) ↔
  good_name name ∧ name_in_use m name = false ∧ (size (by_pane m) + length rs < MAX_SESSIONS)%nat.
Proof using uuid_long.
  intros Hrun. eapply reserve_named_spec, registry_run_inv; [apply maps_inv_default|done].
Qed.
End coherence.
