(* ===== verification/Capabilities.v ===== *)
(** Input capabilities ([issue_input_capability], [apply_capability_input],
    [revoke_input_capability] and the last step of [remove_session] in [server.rs]): bearer
    tokens that let a client write a bounded number of bytes to one session.

    A token is a [Z]; [CapabilityToken::new_random] is the list of candidates the loop
    draws.  A [Weak<Session>] upgrades while the session is in the heap. *)
From S2P Require Import Prelude Utf8 Protocol Base64 Lifecycle Sessions OutputRing.

Definition MAX_INPUT_CAPABILITIES : nat := 1024.
Definition MAX_INPUT_CAPABILITIES_PER_SESSION : nat := 64.
Definition MAX_INPUT_CAPABILITY_BUDGET : Z := 1024 * 1024.

Record InputCapabilityGrant : Set := { g_session_id : str; g_remaining : Z }.

Abbreviation grants_map := (gmap Z InputCapabilityGrant) (only parsing).

Inductive CapabilityError : Set :=
  | BudgetOutOfRange | CapNoSuchSession | SessionNotAlive | TooManyCapabilities
  | TooManyForSession | CapRejected | NoToken.

(** [upgrade().is_some_and(alive)]. *)
Definition grant_live (m : SessionMaps) (g : InputCapabilityGrant) : bool :=
  is_some_and (heap m !! g_session_id g) se_alive.

Definition retain_live (m : SessionMaps) (grants : grants_map) : grants_map :=
  filter (λ kv, grant_live m kv.2 = true) grants.

Definition grants_of (grants : grants_map) (session_id : str) : grants_map :=
  filter (λ kv, g_session_id kv.2 = session_id) grants.

(** The loop that draws a token: the first candidate that is not in use. *)
Definition fresh_token (grants : grants_map) (candidates : list Z) : option Z :=
  List.find (λ t, negb (is_some (grants !! t))) candidates.

Definition issue_input_capability (m : SessionMaps) (grants : grants_map) (target : str)
    (byte_budget : Z) (candidates : list Z) : result CapabilityError Z * grants_map :=
  if negb ((1 <=? byte_budget) && (byte_budget <=? MAX_INPUT_CAPABILITY_BUDGET)) then (Err BudgetOutOfRange, grants)
  else
    match resolve_session_locked m (normalize_target target) with
    | None => (Err CapNoSuchSession, grants)
    | Some session =>
      if negb (se_alive session) then (Err SessionNotAlive, grants)
      else
        let grants := retain_live m grants in
        if (MAX_INPUT_CAPABILITIES <=? size grants)%nat then (Err TooManyCapabilities, grants)
        else if (MAX_INPUT_CAPABILITIES_PER_SESSION <=? size (grants_of grants (se_id session)))%nat
        then (Err TooManyForSession, grants)
        else
          match fresh_token grants candidates with
          | None => (Err NoToken, grants)      (* the loop goes on *)
          | Some token =>
            (Ok token, <[token := {| g_session_id := se_id session; g_remaining := byte_budget |}]> grants)
          end
    end.

(** The answer is the session whose writer is given the bytes; that write may still fail, and
    the budget is spent all the same. *)
Definition apply_capability_input (m : SessionMaps) (grants : grants_map) (token : Z)
    (data : list byte) : result CapabilityError str * grants_map :=
  if (len data =? 0) || (MAX_CAPABILITY_INPUT_BYTES <? len data) then (Err CapRejected, grants)
  else
    match grants !! token with
    | None => (Err CapRejected, grants)
    | Some grant =>
      match heap m !! g_session_id grant with
      | None => (Err CapRejected, delete token grants)
      | Some session =>
        if negb (se_alive session) then (Err CapRejected, delete token grants)
        else if g_remaining grant <? len data then (Err CapRejected, grants)
        else
          let remaining := g_remaining grant - len data in
          (Ok (g_session_id grant),
           if remaining =? 0 then delete token grants
           else <[token := {| g_session_id := g_session_id grant; g_remaining := remaining |}]> grants)
      end
    end.

Definition revoke_input_capability (grants : grants_map) (token : Z) : grants_map := delete token grants.

(** The [retain] at the end of [remove_session]. *)
Definition drop_session_grants (grants : grants_map) (session_id : str) : grants_map :=
  filter (λ kv, g_session_id kv.2 ≠ session_id) grants.

(** ** Histories *)

Inductive CapabilityEvent : Set :=
  | CIssue (target : str) (byte_budget : Z) (candidates : list Z)
  | CInput (token : Z) (data : list byte)
  | CRevoke (token : Z)
  | CRemove (session_id : str)
  | CRegistry (m : SessionMaps).       (* whatever else happens to the sessions *)

(** One event, with the bytes it hands to a session's terminal. *)
Definition capability_step (st : SessionMaps * grants_map) (ev : CapabilityEvent)
    : (SessionMaps * grants_map) * option (Z * str * list byte) :=
  let '(m, grants) := st in
  match ev with
  | CIssue target budget candidates =>
    ((m, (issue_input_capability m grants target budget candidates).2), None)
  | CInput token data =>
    match apply_capability_input m grants token data with
    | (Ok session_id, grants) => ((m, grants), Some (token, session_id, data))
    | (Err _, grants) => ((m, grants), None)
    end
  | CRevoke token => ((m, revoke_input_capability grants token), None)
  | CRemove id => ((remove_session m id, drop_session_grants grants id), None)
  | CRegistry m => ((m, grants), None)
  end.

Fixpoint capability_run (st : SessionMaps * grants_map) (evs : list CapabilityEvent)
    : (SessionMaps * grants_map) * list (Z * str * list byte) :=
  match evs with
  | [] => (st, [])
  | ev :: evs =>
    let '(st, w) := capability_step st ev in
    let '(st, ws) := capability_run st evs in
    (st, option_list w ++ ws)
  end.

(** The bytes that went through a token, and where. *)
Definition through (token : Z) (ws : list (Z * str * list byte)) : list (str * list byte) :=
  omap (λ '(t, id, data), if t =? token then Some (id, data) else None) ws.

Definition spent (ws : list (str * list byte)) : Z := foldr (λ w n, len w.2 + n) 0 ws.

Definition issues (token : Z) (ev : CapabilityEvent) : Prop :=
  match ev with CIssue _ _ candidates => token ∈ candidates | _ => False end.

(** The budget left of a token that belongs to [id]. *)
Definition budget_left (grants : grants_map) (token : Z) : Z :=
  default 0 (g_remaining <$> grants !! token).

Definition grants_inv (grants : grants_map) : Prop :=
  (size grants ≤ MAX_INPUT_CAPABILITIES)%nat ∧
  (∀ id, size (grants_of grants id) ≤ MAX_INPUT_CAPABILITIES_PER_SESSION)%nat ∧
  map_Forall (λ _ g, 0 < g_remaining g ≤ MAX_INPUT_CAPABILITY_BUDGET) grants.

Lemma fresh_token_Some grants candidates token :
  fresh_token grants candidates = Some token → grants !! token = None ∧ token ∈ candidates.
Proof.
  intros H. apply List.find_some in H as [Hin Hf]. split; [by destruct (grants !! token)|by apply list_elem_of_In].
Qed.

Lemma issue_spec m grants target budget candidates :
  let '(r, grants') := issue_input_capability m grants target budget candidates in
  grants' ⊆ grants ∨
  ∃ token s, r = Ok token ∧ resolve_session_locked m (normalize_target target) = Some s ∧ token ∈ candidates ∧
    1 ≤ budget ≤ MAX_INPUT_CAPABILITY_BUDGET ∧
    let kept := retain_live m grants in
    kept !! token = None ∧ (size kept < MAX_INPUT_CAPABILITIES)%nat ∧
    (size (grants_of kept (se_id s)) < MAX_INPUT_CAPABILITIES_PER_SESSION)%nat ∧
    grants' = <[token := {| g_session_id := se_id s; g_remaining := budget |}]> kept.
Proof.
  unfold issue_input_capability.
  destruct ((1 <=? budget) && (budget <=? MAX_INPUT_CAPABILITY_BUDGET)) eqn:Hb; [|by left]. cbn [negb].
  destruct (resolve_session_locked _ _) as [s|]; [|by left]. destruct (se_alive s); [|by left]. cbn [negb].
  destruct (_ <=? size (retain_live m grants))%nat eqn:H1; [left; apply map_filter_subseteq|].
  destruct (_ <=? size (grants_of _ _))%nat eqn:H2; [left; apply map_filter_subseteq|].
  destruct (fresh_token _ _) as [token|] eqn:Hf; [|left; apply map_filter_subseteq].
  right. apply fresh_token_Some in Hf as [Hfree Hin]. exists token, s. inv_ok.
  apply Nat.leb_gt in H1, H2. repeat split; try done; lia.
Qed.

(** What an accepted input takes from its grant. *)
Lemma apply_spec m grants token data :
  let '(r, grants') := apply_capability_input m grants token data in
  (∀ t, t ≠ token → grants' !! t = grants !! t) ∧
  match r with
  | Ok id =>
    ∃ g, grants !! token = Some g ∧ g_session_id g = id ∧ 0 < len data ≤ g_remaining g ∧
      (g_remaining g = len data ∧ grants' = delete token grants ∨
       len data < g_remaining g ∧
       grants' = <[token := {| g_session_id := id; g_remaining := g_remaining g - len data |}]> grants)
  | Err _ => grants' ⊆ grants
  end.
Proof.
  unfold apply_capability_input. pose proof (len_nonneg data).
  destruct ((len data =? 0) || _) eqn:H0; [done|]. inv_ok.
  destruct (grants !! token) as [g|] eqn:Hg; [|done].
  assert (∀ t, t ≠ token → delete token grants !! t = grants !! t) as Hdel.
  { intros t Ht. by rewrite lookup_delete_ne. }
  destruct (heap m !! g_session_id g) as [s|]; [|split; [done|apply delete_subseteq]].
  destruct (se_alive s); [|split; [done|apply delete_subseteq]]. cbn [negb].
  destruct (g_remaining g <? len data) eqn:Hlt; [done|].
  destruct (g_remaining g - len data =? 0) eqn:Heq.
  - split; [done|]. exists g. repeat split; try done; [lia|lia|]. left. split; [lia|done].
  - split; [intros t Ht; by rewrite lookup_insert_ne|]. exists g. repeat split; try done; [lia|lia|].
    right. split; [lia|done].
Qed.

(** ** The limits *)

Lemma map_size_subseteq {A} (m1 m2 : gmap Z A) : m1 ⊆ m2 → (size m1 ≤ size m2)%nat.
Proof. intros H. rewrite -!(size_dom (D := gset Z)). by apply subseteq_size, subseteq_dom. Qed.

Lemma grants_inv_subseteq g g' : g' ⊆ g → grants_inv g → grants_inv g'.
Proof.
  intros Hsub (Hs & Hp & Ha). split; [|split].
  - pose proof (map_size_subseteq _ _ Hsub). lia.
  - intros id. etrans; [|apply (Hp id)]. apply map_size_subseteq. by apply map_filter_subseteq_mono.
  - intros t x Hx. apply (Ha t). by eapply lookup_weaken.
Qed.

Lemma size_grants_of_insert grants token g id :
  (size (grants_of (<[token := g]> grants) id) ≤
   if decide (g_session_id g = id) then S (size (grants_of grants id)) else size (grants_of grants id))%nat.
Proof.
  unfold grants_of. case_decide as Hid.
  - rewrite map_filter_insert_True //. rewrite map_size_insert. destruct (_ !! token); simpl; lia.
  - rewrite map_filter_insert_False //. apply map_size_subseteq. apply map_filter_subseteq_mono, delete_subseteq.
Qed.

Lemma grants_inv_step st ev : grants_inv st.2 → grants_inv (capability_step st ev).1.2.
Proof.
  destruct st as [m grants]. cbn [snd]. intros Hinv.
  destruct ev as [target budget cands|token data|token|id|m']; cbn [capability_step].
  - pose proof (issue_spec m grants target budget cands) as Hs.
    destruct (issue_input_capability _ _ _ _ _) as [r grants'].
    destruct Hs as [Hsub|(token & s & -> & _ & _ & Hb & Hfree & Hlt & Hps & ->)]; [by eapply grants_inv_subseteq|].
    assert (grants_inv (retain_live m grants)) as (Hs & Hp & Ha).
    { eapply grants_inv_subseteq; [|done]. apply map_filter_subseteq. }
    split; [|split]; cbn [fst snd].
    + rewrite map_size_insert_None //.
    + intros id. etrans; [apply size_grants_of_insert|]. case_decide as Hid; [|apply Hp]. cbn in Hid. by subst id.
    + apply map_Forall_insert; [done|]. split; [cbn; lia|done].
  - pose proof (apply_spec m grants token data) as Hs.
    destruct (apply_capability_input _ _ _ _) as [[id|e] grants']; cbn [fst snd].
    2:{ eapply grants_inv_subseteq; [apply Hs|done]. }
    destruct Hs as (_ & g & Hg & Hid & Hlen & [[_ ->]|[Hlt ->]]).
    { eapply grants_inv_subseteq; [apply delete_subseteq|done]. }
    destruct Hinv as (Hs & Hp & Ha). split; [|split].
    + rewrite map_size_insert_Some //.
    + intros id'. unfold grants_of in *. destruct (decide (id = id')) as [->|Hne].
      * rewrite map_filter_insert_True // map_size_insert_Some; [apply Hp|].
        exists g. by apply map_lookup_filter_Some.
      * rewrite map_filter_insert_False //. etrans; [|apply Hp]. apply map_size_subseteq, map_filter_subseteq_mono, delete_subseteq.
    + pose proof (Ha _ _ Hg) as Hr. cbn in Hr. apply map_Forall_insert_2; [cbn; lia|done].
  - eapply grants_inv_subseteq; [apply delete_subseteq|done].
  - eapply grants_inv_subseteq; [apply map_filter_subseteq|done].
  - done.
Qed.

Lemma grants_inv_run evs st st' ws :
  grants_inv st.2 → capability_run st evs = (st', ws) → grants_inv st'.2.
Proof.
  revert st st' ws. induction evs as [|ev evs IH]; intros st st' ws H0 H; simplify_eq/=; [done|].
  pose proof (grants_inv_step st ev H0) as H1. destruct (capability_step st ev) as [st1 w].
  destruct (capability_run st1 evs) as [st2 ws2] eqn:E. simplify_eq. by eapply IH.
Qed.

(** ** The budget *)

Definition belongs (grants : grants_map) (token : Z) (id : str) : Prop :=
  ∀ g, grants !! token = Some g → g_session_id g = id ∧ 0 < g_remaining g.

Lemma through_cons token w ws :
  through token (option_list w ++ ws) = through token (option_list w) ++ through token ws.
Proof. by destruct w as [[[t id] data]|]; simpl; [case_match|]. Qed.

Lemma spent_app a b : spent (a ++ b) = spent a + spent b.
Proof. induction a as [|w a IH]; simpl; [done|]. rewrite IH. lia. Qed.

Lemma budget_left_subseteq g g' token id :
  g' ⊆ g → belongs g token id → belongs g' token id ∧ budget_left g' token ≤ budget_left g token.
Proof.
  intros Hsub Hb. split; [intros x Hx; apply Hb; by eapply lookup_weaken|]. unfold budget_left.
  destruct (g' !! token) as [x|] eqn:Hx; cbn.
  - rewrite (lookup_weaken _ _ _ _ Hx Hsub) /=. lia.
  - destruct (g !! token) as [y|] eqn:Hy; cbn; [|lia]. destruct (Hb y Hy). lia.
Qed.

Lemma budget_step token id st ev :
  ¬ issues token ev → belongs st.2 token id →
  let '(st', w) := capability_step st ev in
  belongs st'.2 token id ∧ Forall (λ x, x.1 = id ∧ 0 < len x.2) (through token (option_list w)) ∧
  spent (through token (option_list w)) + budget_left st'.2 token ≤ budget_left st.2 token.
Proof.
  destruct st as [m grants]. cbn [snd]. intros Hni Hb.
  assert (∀ g', g' ⊆ grants → belongs g' token id ∧ Forall (λ x, x.1 = id ∧ 0 < len x.2) (through token (option_list None)) ∧
    spent (through token (option_list None)) + budget_left g' token ≤ budget_left grants token) as Hdrop.
  { intros g' Hg'. destruct (budget_left_subseteq _ _ _ _ Hg' Hb). done. }
  destruct ev as [target budget cands|t data|t|sid|m']; cbn [capability_step snd].
  - pose proof (issue_spec m grants target budget cands) as Hs.
    destruct (issue_input_capability _ _ _ _ _) as [r grants'].
    destruct Hs as [Hsub|(t & s & -> & _ & Hin & _ & _ & _ & _ & ->)]; [by apply Hdrop|]. cbn [snd].
    destruct (Hdrop (retain_live m grants)) as (Hb' & _ & Hle); [apply map_filter_subseteq|].
    assert (t ≠ token) as Hne by (intros ->; by apply Hni).
    unfold belongs, budget_left in *. by rewrite lookup_insert_ne.
  - pose proof (apply_spec m grants t data) as Hs.
    destruct (apply_capability_input _ _ _ _) as [[sid|e] grants']; cbn [snd]; [|apply Hdrop, Hs].
    destruct Hs as (Hother & g & Hg & Hid & Hlen & Hcase). simpl. destruct (t =? token) eqn:Ht.
    + apply Z.eqb_eq in Ht. subst t. destruct (Hb g Hg) as [Hgid _]. subst sid.
      assert (budget_left grants token = g_remaining g) as -> by (unfold budget_left; by rewrite Hg).
      destruct Hcase as [[Heq ->]|[Hlt ->]]; unfold belongs, budget_left.
      * rewrite lookup_delete_eq. split; [done|]. split; [constructor; [split; [done|cbn; lia]|done]|]. simpl. lia.
      * rewrite lookup_insert_eq. split; [intros g' [= <-]; split; [done|cbn; lia]|].
        split; [constructor; [split; [done|cbn; lia]|done]|]. simpl. lia.
    + apply Z.eqb_neq in Ht. unfold belongs, budget_left. rewrite Hother //.
  - apply Hdrop, delete_subseteq.
  - apply Hdrop, map_filter_subseteq.
  - by apply Hdrop.
Qed.

Lemma budget_run token id st evs :
  Forall (λ ev, ¬ issues token ev) evs → belongs st.2 token id →
  let '(st', ws) := capability_run st evs in
  Forall (λ x, x.1 = id ∧ 0 < len x.2) (through token ws) ∧
  spent (through token ws) + budget_left st'.2 token ≤ budget_left st.2 token ∧ belongs st'.2 token id.
Proof.
  revert st. induction evs as [|ev evs IH]; intros st Hni Hb; [done|]. apply Forall_cons in Hni as [Hn Hni].
  cbn [capability_run]. pose proof (budget_step token id st ev Hn Hb) as Hs.
  destruct (capability_step st ev) as [st1 w]. destruct Hs as (Hb1 & Hf & Hle).
  specialize (IH st1 Hni Hb1). destruct (capability_run st1 evs) as [st2 ws]. destruct IH as (Hf2 & Hle2 & Hb2).
  rewrite through_cons spent_app. split; [by apply Forall_app|]. split; [lia|done].
Qed.

Lemma spent_nothing (id : str) ws : Forall (λ x : str * list byte, x.1 = id ∧ 0 < len x.2) ws → spent ws ≤ 0 → ws = [].
Proof.
  destruct ws as [|w ws]; [done|]. intros [[_ Hw] Hf]%Forall_cons Hs. exfalso. simpl in Hs.
  assert (0 ≤ spent ws); [|lia]. clear Hs. induction Hf as [|x ws [_ Hx] _ IH]; simpl; lia.
Qed.

(** C18: A capability is worth its budget and no more: whatever happens after it was issued,
    inputs through it reach only the session it names, their sizes and what is left of the
    budget add up to at most the budget, and once it is gone (revoked, spent, or removed
    with its session) nothing goes through it; never are there more than 1024 of them or
    more than 64 for a session. *)
Theorem capability_budget_bounds_input m grants target budget candidates token grants1 evs st ws :
  grants_inv grants →
  issue_input_capability m grants target budget candidates = (Ok token, grants1) →
  Forall (λ ev, ¬ issues token ev) evs →
  capability_run (m, grants1) evs = (st, ws) →
  ∃ s, resolve_session_locked m (normalize_target target) = Some s ∧
    Forall (λ w, w.1 = se_id s) (through token ws) ∧
    spent (through token ws) + budget_left st.2 token ≤ budget ∧
    (∀ evs' st' ws', st.2 !! token = None → Forall (λ ev, ¬ issues token ev) evs' →
       capability_run st evs' = (st', ws') → through token ws' = []) ∧
    grants_inv st.2.
Proof.
  intros Hg Hi Hni Hrun. pose proof (issue_spec m grants target budget candidates) as Hs.
  pose proof (grants_inv_step (m, grants) (CIssue target budget candidates) Hg) as Hg1.
  cbn [capability_step fst snd] in Hg1. rewrite Hi in Hs, Hg1. cbn [snd] in Hg1.
  assert (∃ s, resolve_session_locked m (normalize_target target) = Some s ∧
    grants1 !! token = Some {| g_session_id := se_id s; g_remaining := budget |} ∧ 1 ≤ budget) as (s & Hres & Htok & Hb).
  { unfold issue_input_capability in Hi.
    repeat case_match; simplify_eq. eexists. split; [done|]. rewrite lookup_insert_eq. split; [done|].
    match goal with H : negb _ = false |- _ => apply negb_false_iff in H end. inv_ok. lia. }
  exists s. split; [done|].
  pose proof (budget_run token (se_id s) (m, grants1) evs Hni) as Hr. rewrite Hrun in Hr. cbn [snd] in Hr.
  destruct Hr as (Hf & Hle & Hbel).
  { intros g Hgt. rewrite Htok in Hgt. simplify_eq. cbn. split; [done|lia]. }
  split; [eapply Forall_impl; [done|]; by intros x [? _]|]. unfold budget_left in Hle at 2. rewrite Htok in Hle. split; [exact Hle|].
  split; [|by eapply (grants_inv_run evs (m, grants1))].
  intros evs' st' ws' Hnone Hni' Hrun'.
  pose proof (budget_run token (se_id s) st evs' Hni' Hbel) as Hr. rewrite Hrun' in Hr.
  destruct Hr as (Hf' & Hle' & Hbel'). unfold budget_left in Hle' at 2. rewrite Hnone /= in Hle'.
  eapply spent_nothing; [done|]. unfold budget_left in Hle'.
  destruct (st'.2 !! token) as [g|] eqn:Hgt; simpl in Hle'; [|lia]. destruct (Hbel' g Hgt). lia.
Qed.
