(* ===== verification/SessionScenario.v ===== *)
(** The theorems of the session registry and of the input capabilities at concrete inputs:
    a run that reserves, commits, renames, undoes and drops sessions, and a capability that
    is spent in two inputs. *)
From stdpp Require Import gmap.
From S2P Require Import Prelude Utf8 Protocol Text Base64 Lifecycle Sessions OutputRing Capabilities.

(** A parser of identifiers of 32 hexadecimal digits, and their form with hyphens left out. *)
Definition hex_digit (c : char) : option Z :=
  if ascii_digit c then Some (c - 0x30) else if within 0x61 0x66 c then Some (c - 0x57) else None.

Definition simple_uuid (s : str) : option Uuid :=
  if (length s =? 32)%nat
  then foldl (λ acc c, n ← acc; d ← hex_digit c; Some (16 * n + d)) (Some 0) s
  else None.

Definition show_uuid (u : Uuid) : str :=
  (λ i, let d := (u ≫ (4 * (31 - Z.of_nat i))) mod 16 in if d <? 10 then 0x30 + d else 0x57 + d) <$> seq 0 32.

Lemma simple_uuid_long s : (length s < 32)%nat → simple_uuid s = None.
Proof. intros H. unfold simple_uuid. by rewrite (proj2 (Nat.eqb_neq _ _)); [|lia]. Qed.

Definition id_a : str := repeat 0x61 32.
Definition id_b : str := repeat 0x62 32.

Example uuid_prints : show_uuid <$> simple_uuid id_a = Some id_a.
Proof. vm_compute. reflexivity. Qed.

(** Two sessions, a rename with its undo and redo, a reservation given up, one session gone. *)
Definition history : list RegistryEvent :=
  [RReserve (Some (lit "main")); RReserve None; RCommit 1 id_a (lit "t") None None None;
   RCommit 0 id_b (lit "u") None None (Some (Explicit (PCapability (pane_of 0) (lit "t"))));
   RRename (lit "main") (lit "build"); RStep (lit "build") Undo; RStep (lit "%0") Redo;
   RReserve (Some (lit "spare")); RDrop 0; RRemove id_b; RReserve (Some (lit "next"))].

Notation run := (registry_run simple_uuid show_uuid (SessionMaps_default, [])).

Definition reached : SessionMaps * list SessionReservation :=
  default (SessionMaps_default, []) (run history).

Lemma history_runs : run history = Some (reached.1, reached.2).
Proof. vm_compute. reflexivity. Qed.

Lemma registry_stays_coherent_witness :
  (resolve_session_locked reached.1 (lit "0") ≫= λ s, Some (se_name s)) = Some (lit "build") ∧
  by_id (remove_session reached.1 id_a) !! id_a = None.
Proof.
  split; [vm_compute; reflexivity|].
  apply (registry_stays_coherent simple_uuid simple_uuid_long show_uuid history reached.1 reached.2 history_runs).
Defined.

Lemma target_means_one_session_witness :
  resolve_session_locked reached.1 (lit "main") = None ∧
  (∀ s, live reached.1 (se_id s) → heap reached.1 !! se_id s = Some s → ¬ means (lit "main") s).
Proof.
  assert (resolve_session_locked reached.1 (lit "main") = None) as Hnone by (vm_compute; reflexivity).
  split; [exact Hnone|]. intros s Hl Hs Hm.
  destruct (target_means_one_session simple_uuid simple_uuid_long show_uuid history reached.1 reached.2
    (lit "main") history_runs) as [H _].
  pose proof (proj2 (H s) (conj Hl (conj Hs Hm))) as Hr. rewrite Hnone in Hr. discriminate.
Defined.

Lemma metadata_journal_refines_history_witness :
  ∃ s, resolve_target reached.1 (lit "build") = Ok s ∧
    zipper_of (se_metadata s) =
      {| z_past := [{| md_name := lit "main"; md_theme := None |}];
         z_now := {| md_name := lit "build"; md_theme := None |}; z_future := [] |} ∧
    step_answer_ok reached.1 s Undo (metadata_step simple_uuid reached.1 (lit "build") Undo).
Proof.
  eexists. split; [vm_compute; reflexivity|]. split; [vm_compute; reflexivity|].
  match goal with |- step_answer_ok _ ?s _ _ =>
    destruct (metadata_journal_refines_history simple_uuid simple_uuid_long show_uuid history reached.1 reached.2
      (lit "build") s history_runs) as [Hsteps _] end.
  - vm_compute. reflexivity.
  - exact (Hsteps Undo).
Defined.

Lemma named_session_admitted_witness :
  name_in_use reached.1 (lit "next") = true ∧
  ∃ r m', reserve_session_identity simple_uuid reached.1 (Some (lit "other")) = (Ok r, m') ∧
          res_name r = lit "other".
Proof.
  split; [vm_compute; reflexivity|].
  refine (proj2 (named_session_admitted simple_uuid simple_uuid_long show_uuid history reached.1 reached.2
    (lit "other") history_runs) _).
  split; [vm_compute; reflexivity|]. split; [vm_compute; reflexivity|]. vm_compute. lia.
Defined.

(** Half the registry is free, and an automatic name is refused all the same: the name tied
    to every free pane is taken. *)
Example automatic_names_run_out :
  let m := default SessionMaps_default
    (fst <$> run ((λ n, RReserve (Some (auto_name n))) <$> seq 128 128)) in
  size (reserved_panes m) = 128%nat ∧ (reserve_session_identity simple_uuid m None).1 = Err NoPaneId.
Proof. vm_compute. split; reflexivity. Qed.

(** A capability of five bytes: three are written, four are refused, two are written. *)
Definition spend : list CapabilityEvent :=
  [CInput 7 [1; 2; 3]; CInput 7 [1; 2; 3; 4]; CIssue (lit "build") 9 [8]; CInput 8 [6]; CInput 7 [4; 5];
   CInput 7 [1]].

Lemma capability_budget_bounds_input_witness :
  let grants := (issue_input_capability reached.1 ∅ (lit "build") 5 [7]).2 in
  let '(st, ws) := capability_run (reached.1, grants) spend in
  through 7 ws = [(id_a, [1; 2; 3]); (id_a, [4; 5])] ∧ spent (through 7 ws) + budget_left st.2 7 ≤ 5 ∧
  grants_inv st.2.
Proof.
  cbn zeta.
  destruct (capability_run (reached.1, (issue_input_capability reached.1 ∅ (lit "build") 5 [7]).2) spend)
    as [st ws] eqn:Hrun.
  destruct (capability_budget_bounds_input reached.1 ∅ (lit "build") 5 [7] 7
    (issue_input_capability reached.1 ∅ (lit "build") 5 [7]).2 spend st ws) as (s & _ & _ & Hle & _ & Hinv).
  - split; [|split; [|apply map_Forall_empty]].
    + rewrite map_size_empty. lia.
    + intros id. unfold grants_of. rewrite map_filter_empty map_size_empty. lia.
  - vm_compute. reflexivity.
  - unfold spend.
    repeat (apply Forall_cons; split; [intros H; first [exact H | apply list_elem_of_singleton in H; discriminate]|]).
    apply Forall_nil_2.
  - exact Hrun.
  - split; [|split; assumption].
    assert (through 7 (capability_run (reached.1, (issue_input_capability reached.1 ∅ (lit "build") 5 [7]).2) spend).2
            = [(id_a, [1; 2; 3]); (id_a, [4; 5])]) as Hw by (vm_compute; reflexivity).
    rewrite Hrun in Hw. exact Hw.
Defined.
