(* ===== verification/ProcessAncestry.v ===== *)
(** Parents of new sessions ([parent_request], [live_session_leaders],
    [resolve_peer_ancestry] and [validate_implicit_parent_chain] in [server.rs]): a client may
    name a parent with a capability, or the daemon walks the ancestors of the client's
    process to the nearest one that leads a live session.

    The order in which a hash map lists its values is that of [map_to_list]; the theorems
    hold for every list of leaders. *)
From stdpp Require Import gmap.
From S2P Require Import Prelude Utf8 Protocol Text ProcessIdentity Lifecycle Sessions.

Definition MAX_PROCESS_ANCESTRY_HOPS : nat := 64.

Inductive ParentProvenanceReason : Set :=
  | ExplicitCapability | VerifiedTmux | PeerAncestry
  | UnavailableNoCandidate | UnavailableInspection
  | RejectedCycle | RejectedDepth | RejectedStale | RejectedUnsupported.

Record LiveSessionLeader : Set := { ll_parent : ParentSession; ll_identity : ProcessIdentity }.

Inductive ImplicitParentResolution : Set :=
  | Selected (proof : ImplicitParentProof)
  | Root (reason : ParentProvenanceReason).

Definition resolution_provenance_reason (r : ImplicitParentResolution) : ParentProvenanceReason :=
  match r with Selected _ => PeerAncestry | Root reason => reason end.

Definition missing_peer_provenance_reason (platform_supported : bool) : ParentProvenanceReason :=
  if platform_supported then UnavailableInspection else RejectedUnsupported.

Definition request_provenance_reason (r : ParentRequest) : ParentProvenanceReason :=
  match r with PCapability _ _ => ExplicitCapability | PTmuxTarget _ => VerifiedTmux end.

(** ** Requests *)

Inductive ParentRequestError : Set :=
  | TmuxWithCapability | TmuxNotPane | CapabilityNotPane | TokenEmpty | TokenMissing | PaneMissing.

(** [strip_prefix('%')] followed by one or more digits. *)
Definition is_pane_id (s : str) : bool :=
  is_some_and (strip_str [0x25] s) (λ digits, negb (bool_decide (digits = [])) && forallb ascii_digit digits).

Definition parent_request (parent_pane_id parent_token tmux_parent_pane_id : option str)
    : result ParentRequestError (option ParentRequest) :=
  match tmux_parent_pane_id with
  | Some tmux =>
    bail_if (is_some parent_pane_id || is_some parent_token) TmuxWithCapability ;;
    let pane_id := normalize_target tmux in
    bail_if (negb (is_pane_id pane_id)) TmuxNotPane ;;
    Ok (Some (PTmuxTarget pane_id))
  | None =>
    match parent_pane_id, parent_token with
    | None, None => Ok None
    | Some pane, Some token =>
      let pane_id := normalize_target pane in
      bail_if (negb (is_pane_id pane_id)) CapabilityNotPane ;;
      bail_if (bool_decide (token = [])) TokenEmpty ;;
      Ok (Some (PCapability pane_id token))
    | Some _, None => Err TokenMissing
    | None, Some _ => Err PaneMissing
    end
  end.

(** ** Ancestors *)

Definition live_session_leaders (m : SessionMaps) : list LiveSessionLeader :=
  omap (λ '(_, id),
    s ← heap m !! id;
    if se_alive s then
      leader ← se_leader s;
      Some {| ll_parent := {| ps_id := se_id s; ps_pane := se_pane s |}; ll_identity := leader |}
    else None) (map_to_list (by_id m)).

Section ancestry.
Context (peer : ProcessIdentity) (leaders : list LiveSessionLeader).
Implicit Types inspector : ProcessInspector.

Definition same_pid (s : ProcessSnapshot) (l : LiveSessionLeader) : bool :=
  pi_pid (ll_identity l) =? pi_pid (ps_identity s).

Definition matches (s : ProcessSnapshot) (l : LiveSessionLeader) : bool :=
  same_pid s l && bool_decide (ll_identity l = ps_identity s).

(** The loop over the hops, with its locals. *)
Fixpoint ancestry_loop inspector (hops : nat) (chain : list ProcessSnapshot) (seen : list Z) (pid : Z)
    : ImplicitParentResolution :=
  match hops with
  | O => Root RejectedDepth
  | S hops =>
    if pid =? 0 then Root UnavailableNoCandidate
    else if bool_decide (pid ∈ seen) then Root RejectedCycle
    else
      let seen := pid :: seen in
      match inspector pid with
      | None => Root (if pid <=? 1 then UnavailableNoCandidate else UnavailableInspection)
      | Some snapshot =>
        if bool_decide (chain = []) && negb (bool_decide (ps_identity snapshot = peer)) then Root RejectedStale
        else if bool_decide (parent_pid snapshot ∈ seen) then Root RejectedCycle
        else
          match List.find (matches snapshot) leaders with
          | None =>
            if existsb (same_pid snapshot) leaders then Root RejectedStale
            else ancestry_loop inspector hops (chain ++ [snapshot]) seen (parent_pid snapshot)
          | Some leader =>
            Selected {| ip_parent := ll_parent leader; ip_leader := ll_identity leader;
                        ip_chain := chain ++ [snapshot] |}
          end
      end
  end.

Definition resolve_peer_ancestry inspector : ImplicitParentResolution :=
  ancestry_loop inspector MAX_PROCESS_ANCESTRY_HOPS [] [] (pi_pid peer).
End ancestry.

Definition resolve_implicit_parent (m : SessionMaps) (peer : option ProcessIdentity)
    (inspector : ProcessInspector) (platform_supported : bool) : ImplicitParentResolution :=
  match peer with
  | None => Root (missing_peer_provenance_reason platform_supported)
  | Some peer => resolve_peer_ancestry peer (live_session_leaders m) inspector
  end.

Inductive ChainError : Set := ProofInvalid | AncestryChanged | ChainChanged | LeaderChanged.

(** The loop over the snapshots of the proof. *)
Fixpoint validate_links (inspector : ProcessInspector) (chain : list ProcessSnapshot) : result ChainError unit :=
  match chain with
  | [] => Ok tt
  | expected :: rest =>
    current ← ok_or (inspector (pi_pid (ps_identity expected))) AncestryChanged;
    bail_if (negb (bool_decide (current = expected))) AncestryChanged ;;
    bail_if (is_some_and (head rest) (λ next, negb (parent_pid current =? pi_pid (ps_identity next)))) ChainChanged ;;
    validate_links inspector rest
  end.

Definition validate_implicit_parent_chain (proof : ImplicitParentProof) (inspector : ProcessInspector)
    : result ChainError unit :=
  bail_if (bool_decide (ip_chain proof = []) || (MAX_PROCESS_ANCESTRY_HOPS <? length (ip_chain proof))%nat)
    ProofInvalid ;;
  validate_links inspector (ip_chain proof) ;;
  bail_if (negb (bool_decide (ps_identity <$> last (ip_chain proof) = Some (ip_leader proof)))) LeaderChanged.

(** ** What a selected proof says *)

(** The first processes of the line of ancestors of [pid], itself included. *)
Fixpoint lineage (inspector : ProcessInspector) (pid : Z) (chain : list ProcessSnapshot) : Prop :=
  match chain with
  | [] => True
  | s :: rest => inspector pid = Some s ∧ lineage inspector (parent_pid s) rest
  end.

(** The pids a walk asks for and the one it would ask for next. *)
Definition walked (pid : Z) (chain : list ProcessSnapshot) : list Z := pid :: (parent_pid <$> chain).

Definition nearest_leader (peer : ProcessIdentity) (leaders : list LiveSessionLeader)
    (inspector : ProcessInspector) (proof : ImplicitParentProof) : Prop :=
  ∃ before s leader, ip_chain proof = before ++ [s] ∧
    lineage inspector (pi_pid peer) (before ++ [s]) ∧
    ps_identity <$> head (before ++ [s]) = Some peer ∧
    (length before < MAX_PROCESS_ANCESTRY_HOPS)%nat ∧
    NoDup (walked (pi_pid peer) (before ++ [s])) ∧ 0 ∉ walked (pi_pid peer) before ∧
    Forall (λ a, existsb (same_pid a) leaders = false) before ∧
    List.find (matches s) leaders = Some leader ∧
    ip_parent proof = ll_parent leader ∧ ip_leader proof = ll_identity leader.

Lemma find_none_existsb s leaders :
  existsb (same_pid s) leaders = false → List.find (matches s) leaders = None.
Proof.
  induction leaders as [|l leaders IH]; [done|]. cbn. intros [Hl Hr]%orb_false.
  unfold matches at 1. rewrite Hl /=. by apply IH.
Qed.

Lemma NoDup_walked_step (seen : list Z) pid s rest :
  NoDup (reverse seen ++ walked pid (s :: rest)) ↔ NoDup (reverse (pid :: seen) ++ walked (parent_pid s) rest).
Proof. unfold walked. rewrite reverse_cons -assoc //. Qed.

(** The loop after some steps: what it adds to its locals. *)
Definition loop_spec (peer : ProcessIdentity) (leaders : list LiveSessionLeader) (inspector : ProcessInspector)
    (hops : nat) (chain : list ProcessSnapshot) (seen : list Z) (pid : Z) (proof : ImplicitParentProof) : Prop :=
  ∃ before s leader, ip_chain proof = chain ++ before ++ [s] ∧
    lineage inspector pid (before ++ [s]) ∧
    (chain = [] → ps_identity <$> head (before ++ [s]) = Some peer) ∧
    (length before < hops)%nat ∧
    NoDup (reverse seen ++ walked pid (before ++ [s])) ∧ 0 ∉ walked pid before ∧
    Forall (λ a, existsb (same_pid a) leaders = false) before ∧
    List.find (matches s) leaders = Some leader ∧
    ip_parent proof = ll_parent leader ∧ ip_leader proof = ll_identity leader.

Lemma walked_fresh seen pid s rest :
  NoDup (reverse seen ++ walked pid (s :: rest)) → pid ∉ seen ∧ parent_pid s ∉ pid :: seen.
Proof.
  unfold walked. rewrite fmap_cons !NoDup_app !NoDup_cons. intros (_ & Hd & Hp & Hn & _).
  split; [intros Hin; apply (Hd pid); [by apply elem_of_reverse|by left]|].
  intros [Heq|Hin]%elem_of_cons; [apply Hp; rewrite -Heq; by left|].
  apply (Hd (parent_pid s)); [by apply elem_of_reverse|right; by left].
Qed.

Lemma ancestry_loop_Selected peer leaders inspector hops chain seen pid proof :
  NoDup seen →
  ancestry_loop peer leaders inspector hops chain seen pid = Selected proof →
  loop_spec peer leaders inspector hops chain seen pid proof.
Proof.
  revert chain seen pid. induction hops as [|hops IH]; intros chain seen pid Hnd H; [done|]. cbn [ancestry_loop] in H.
  destruct (pid =? 0) eqn:H0; [done|]. case_bool_decide as Hseen; [done|].
  destruct (inspector pid) as [s|] eqn:Hs; [|by destruct (pid <=? 1)].
  destruct (bool_decide (chain = []) && _) eqn:Hpeer; [done|]. case_bool_decide as Hcyc; [done|].
  assert (chain = [] → ps_identity s = peer) as Hhead.
  { intros ->. rewrite bool_decide_true // in Hpeer. cbn in Hpeer. by inv_ok. }
  assert (pid ≠ 0) as H0' by lia.
  destruct (List.find (matches s) leaders) as [leader|] eqn:Hf.
  - simplify_eq. exists [], s, leader. split; [done|]. split; [done|]. split; [intros Hc; cbn; by rewrite Hhead|].
    split; [simpl; lia|]. split.
    { change (walked pid ([] ++ [s])) with ([pid] ++ [parent_pid s]).
      rewrite assoc -!reverse_cons reverse_Permutation. by repeat constructor. }
    split; [intros ?%list_elem_of_singleton; congruence|]. done.
  - destruct (existsb (same_pid s) leaders) eqn:Hex; [done|].
    apply IH in H as (before & s' & leader & Hc & Hl & _ & Hlen & Hd & Hz & Hno & Hfind & Hp1 & Hp2).
    2:{ by constructor. }
    exists (s :: before), s', leader. rewrite Hc -assoc. split; [done|]. split; [done|].
    split; [intros Hn; cbn; by rewrite Hhead|]. split; [simpl; lia|]. split; [by apply NoDup_walked_step|].
    split; [by apply not_elem_of_cons|]. split; [by constructor|]. done.
Qed.

Lemma ancestry_loop_complete peer leaders inspector hops chain seen pid proof :
  loop_spec peer leaders inspector hops chain seen pid proof →
  ancestry_loop peer leaders inspector hops chain seen pid = Selected proof.
Proof.
  intros (before & s & leader & Hc & Hl & Hh & Hlen & Hd & Hz & Hno & Hf & Hp1 & Hp2).
  revert chain seen pid hops Hc Hl Hh Hlen Hd Hz.
  induction Hno as [|a before Ha Hno IH]; intros chain seen pid [|hops] Hc Hl Hh Hlen Hd Hz; try (simpl in Hlen; lia);
    cbn [app lineage] in Hl; destruct Hl as [Hs Hl]; cbn [ancestry_loop]; cbn [app] in Hd;
    pose proof (walked_fresh _ _ _ _ Hd) as [Hns Hnc]; apply not_elem_of_cons in Hz as [Hz0 Hz];
    rewrite (proj2 (Z.eqb_neq pid 0)) ?Hs; try done; rewrite (bool_decide_false _ Hns) (bool_decide_false _ Hnc).
  - rewrite (_ : bool_decide (chain = []) && _ = false).
    2:{ case_bool_decide as Hn; [|done]. specialize (Hh Hn). cbn in Hh. simplify_eq. by rewrite bool_decide_true. }
    rewrite Hf. f_equal. destruct proof. cbn in *. by subst.
  - rewrite (_ : bool_decide (chain = []) && _ = false).
    2:{ case_bool_decide as Hn; [|done]. specialize (Hh Hn). cbn in Hh. simplify_eq. by rewrite bool_decide_true. }
    rewrite (find_none_existsb _ _ Ha) Ha. apply IH; [by rewrite Hc -assoc|done| | |by apply NoDup_walked_step|done].
    + intros Hn. by destruct chain.
    + simpl in Hlen. lia.
Qed.

Lemma resolve_spec_Selected peer leaders inspector proof :
  resolve_peer_ancestry peer leaders inspector = Selected proof ↔ nearest_leader peer leaders inspector proof.
Proof.
  unfold resolve_peer_ancestry, nearest_leader. split.
  - intros H. apply ancestry_loop_Selected in H; [|constructor].
    destruct H as (before & s & leader & Hc & Hl & Hh & Hlen & Hd & Hrest).
    exists before, s, leader. split; [done|]. split; [done|]. split; [by apply Hh|]. done.
  - intros (before & s & leader & Hc & Hl & Hh & Hlen & Hd & Hrest). apply ancestry_loop_complete.
    exists before, s, leader. split; [done|]. split; [done|]. split; [done|]. done.
Qed.

(** ** Validation before the commit *)

(** Consecutive snapshots are of a process and its parent. *)
Fixpoint linked (pid : Z) (chain : list ProcessSnapshot) : Prop :=
  match chain with
  | [] => True
  | s :: rest => pi_pid (ps_identity s) = pid ∧ linked (parent_pid s) rest
  end.

Lemma lineage_linked inspector pid chain :
  inspector_ok inspector → lineage inspector pid chain → linked pid chain.
Proof.
  intros Hok. revert pid. induction chain as [|s chain IH]; intros pid; [done|].
  intros [Hs Hl]. split; [by apply Hok|by apply IH].
Qed.

Lemma validate_links_lineage inspector pid chain :
  linked pid chain → (validate_links inspector chain = Ok tt ↔ lineage inspector pid chain).
Proof.
  revert pid. induction chain as [|s chain IH]; intros pid; [done|]. intros [Hp Hl]. cbn [validate_links lineage].
  rewrite Hp -(IH _ Hl). destruct (inspector pid) as [c|]; cbn; [|split; [done|by intros [? _]]].
  case_bool_decide as Hc; cbn [negb bail_if mbind result_bind]; [subst c|split; [done|by intros [[= ->] _]]].
  assert (is_some_and (head chain) (λ next, negb (parent_pid s =? pi_pid (ps_identity next))) = false) as Hn.
  { destruct chain as [|n chain]; [done|]. destruct Hl as [Hn _]. cbn. by rewrite Hn Z.eqb_refl. }
  rewrite Hn. cbn. by split; [|intros []].
Qed.

Lemma nearest_leader_other peer leaders inspector inspector' proof :
  nearest_leader peer leaders inspector proof → lineage inspector' (pi_pid peer) (ip_chain proof) →
  nearest_leader peer leaders inspector' proof.
Proof.
  intros (before & s & leader & Hc & Hl & Hrest) Hl'. rewrite Hc in Hl'. by exists before, s, leader.
Qed.

Lemma nearest_leader_chain peer leaders inspector proof :
  nearest_leader peer leaders inspector proof →
  ip_chain proof ≠ [] ∧ (length (ip_chain proof) ≤ MAX_PROCESS_ANCESTRY_HOPS)%nat ∧
  lineage inspector (pi_pid peer) (ip_chain proof) ∧
  ps_identity <$> last (ip_chain proof) = Some (ip_leader proof).
Proof.
  intros (before & s & leader & Hc & Hl & _ & Hlen & _ & _ & _ & Hf & _ & Hp2). rewrite Hc Hp2.
  split; [by destruct before|]. split; [rewrite length_app /=; lia|]. split; [done|].
  rewrite last_snoc /=. apply List.find_some in Hf as [_ Hm]. unfold matches in Hm. inv_ok. congruence.
Qed.

Lemma validate_spec peer leaders inspector proof later :
  inspector_ok inspector → resolve_peer_ancestry peer leaders inspector = Selected proof →
  validate_implicit_parent_chain proof later = Ok tt ↔ nearest_leader peer leaders later proof.
Proof.
  intros Hok Hsel. apply resolve_spec_Selected in Hsel.
  pose proof (nearest_leader_chain _ _ _ _ Hsel) as (Hne & Hlen & Hl & Hlast).
  pose proof (validate_links_lineage later _ _ (lineage_linked _ _ _ Hok Hl)) as Hv.
  unfold validate_implicit_parent_chain.
  rewrite (bool_decide_false _ Hne) (proj2 (Nat.ltb_ge _ _) Hlen) /= Hlast bool_decide_true //.
  destruct (validate_links later (ip_chain proof)) as [[]|e]; cbn.
  - split; [intros _|done]. apply (nearest_leader_other _ _ inspector); [done|by apply Hv].
  - split; [done|]. intros Hn. apply nearest_leader_chain in Hn as (_ & _ & Hl' & _). by apply Hv in Hl'.
Qed.

(** C20: The implicit parent of a client is its nearest ancestor, at most 64 processes up and
    on an acyclic line, that leads a live session; and the check before the commit passes
    exactly when the search would, at that moment, select the same parent along the same
    line, so no process of the line has been replaced. *)
Theorem implicit_parent_is_nearest_leader peer leaders inspector proof :
  (resolve_peer_ancestry peer leaders inspector = Selected proof ↔
   nearest_leader peer leaders inspector proof) ∧
  (inspector_ok inspector → resolve_peer_ancestry peer leaders inspector = Selected proof →
   ∀ later, validate_implicit_parent_chain proof later = Ok tt ↔
            resolve_peer_ancestry peer leaders later = Selected proof).
Proof.
  split; [apply resolve_spec_Selected|]. intros Hok Hsel later.
  rewrite resolve_spec_Selected. by eapply validate_spec.
Qed.
