(* ===== verification/ChildEnv.v ===== *)
(** The environment of a session's shell ([sanitize_child_env], [scrub_ambient_multiplexer_env],
    [scrub_ambient_child_color_policy_env] and the calls of [create_session] in [server.rs]).

    Names and values are bytes.  [CommandBuilder] of the [portable_pty] crate is the map it
    builds: it starts as [base], [env_remove] deletes and [env] inserts. *)
From stdpp Require Import gmap.
From S2P Require Import Prelude Utf8 Protocol Text Sanitize.

Abbreviation envmap := (gmap (list byte) (list byte)) (only parsing).

Definition CMUX_CONTEXT_ENV : list str :=
  [lit "CMUX_WORKSPACE_ID"; lit "CMUX_SURFACE_ID"; lit "CMUX_WINDOW_ID"; lit "CMUX_SOCKET_PATH"].
Definition CHILD_COLOR_POLICY_ENV : list str :=
  [lit "NO_COLOR"; lit "FORCE_COLOR"; lit "CLICOLOR"; lit "CLICOLOR_FORCE"].
Definition AMBIENT_MULTIPLEXER_ENV : list str := [lit "TMUX"; lit "TMUX_PANE"; lit "LTERM_CMUX_MANAGED_ATTACH"].

(** ** What the daemon passes on of its own environment *)

Definition eq_ignore_ascii_case (a b : byte) : bool := ascii_upper a =? ascii_upper b.

Fixpoint zip_all (p : byte → byte → bool) (a b : list byte) : bool :=
  match a, b with
  | x :: a, y :: b => p x y && zip_all p a b
  | _, _ => true
  end.

Definition os_key_eq_ignore_ascii_case (key expected : list byte) : bool :=
  (length key =? length expected)%nat && zip_all eq_ignore_ascii_case key expected.

Definition os_key_starts_with_cmux_prefix (key : list byte) : bool :=
  match key with
  | c0 :: c1 :: c2 :: c3 :: c4 :: _ =>
    eq_ignore_ascii_case c0 0x43 && eq_ignore_ascii_case c1 0x4d && eq_ignore_ascii_case c2 0x55
    && eq_ignore_ascii_case c3 0x58 && (c4 =? 0x5f)
  | _ => false
  end.

Definition os_key_is_private_multiplexer_env (key : list byte) : bool :=
  os_key_eq_ignore_ascii_case key (lit "TMUX")
  || os_key_eq_ignore_ascii_case key (lit "TMUX_PANE")
  || os_key_eq_ignore_ascii_case key (lit "LTERM_CMUX_MANAGED_ATTACH")
  || os_key_starts_with_cmux_prefix key.

Definition env_remove_all (keys : list (list byte)) (cmd : envmap) : envmap := foldl (λ cmd key, delete key cmd) cmd keys.

(** [vars] are the names of the daemon's environment. *)
Definition scrub_ambient_multiplexer_env (vars : list (list byte)) (cmd : envmap) : envmap :=
  env_remove_all (List.filter os_key_is_private_multiplexer_env vars)
    (env_remove_all AMBIENT_MULTIPLEXER_ENV cmd).

Definition scrub_ambient_child_color_policy_env (cmd : envmap) : envmap := env_remove_all CHILD_COLOR_POLICY_ENV cmd.

(** ** What a client may add *)

Inductive EnvError : Set :=
  | KeyLength | KeyForbiddenChar | KeyFirstChar | KeyChars | ValueNul | ValueTooLarge
  | DangerousKey | PrivateKey.

Definition key_first_ok (c : char) : bool := (c =? 0x5f) || is_ascii_alphabetic c.
Definition key_char_ok (c : char) : bool := (c =? 0x5f) || is_ascii_alphanumeric c.

Definition validate_env_key (key : str) : result EnvError unit :=
  bail_if (bool_decide (key = []) || (128 <? str_len key)) KeyLength ;;
  bail_if (bool_decide (0x3d ∈ key) || bool_decide (0 ∈ key)) KeyForbiddenChar ;;
  match key with
  | [] => Ok tt
  | first :: chars =>
    bail_if (negb (key_first_ok first)) KeyFirstChar ;;
    bail_if (negb (forallb key_char_ok chars)) KeyChars
  end.

Definition validate_env_value (value : str) : result EnvError unit :=
  bail_if (bool_decide (0 ∈ value)) ValueNul ;;
  bail_if (32 * 1024 <? str_len value) ValueTooLarge.

Definition is_dangerous_env_key (key : str) : bool :=
  let upper := to_ascii_uppercase key in
  bool_decide (upper ∈ lit <$>
    ["LD_PRELOAD"; "LD_LIBRARY_PATH"; "LD_AUDIT"; "PATH"; "BASH_ENV"; "ENV"; "PROMPT_COMMAND"; "IFS";
     "BASHOPTS"; "SHELLOPTS"; "GLOBIGNORE"; "TERMINFO"; "TERMINFO_DIRS"; "TMPDIR";
     "PS0"; "PS1"; "PS2"; "PS3"; "PS4"]%string)
  || is_prefix (lit "DYLD_") upper || is_prefix (lit "BASH_FUNC_") upper.

Definition is_allowed_child_cmux_env_key (key : str) : bool := bool_decide (key ∈ CMUX_CONTEXT_ENV).

Definition is_private_multiplexer_env_key (key : str) (allow_cmux_context : bool) : bool :=
  let upper := to_ascii_uppercase key in
  bool_decide (upper ∈ [lit "TMUX"; lit "TMUX_PANE"; lit "LTERM_CMUX_MANAGED_ATTACH"])
  || (is_prefix (lit "CMUX_") upper && (negb allow_cmux_context || negb (is_allowed_child_cmux_env_key key))).

Definition check_env_entry (allow_cmux_context : bool) (key value : str) : result EnvError unit :=
  validate_env_key key ;;
  validate_env_value value ;;
  bail_if (is_dangerous_env_key key) DangerousKey ;;
  bail_if (is_private_multiplexer_env_key key allow_cmux_context) PrivateKey.

(** The entries in the order of the map. *)
Fixpoint sanitize_entries (allow_cmux_context : bool) (entries : list (str * str)) (safe : gmap str str)
    : result EnvError (gmap str str) :=
  match entries with
  | [] => Ok safe
  | (key, value) :: entries =>
    check_env_entry allow_cmux_context key value ;;
    sanitize_entries allow_cmux_context entries (<[key := value]> safe)
  end.

Definition sanitize_child_env (env : gmap str str) (allow_cmux_context : bool) : result EnvError (gmap str str) :=
  sanitize_entries allow_cmux_context (map_to_list env) ∅.

(** ** The command of a session *)

(** The values the daemon gives; [sv_tmux] holds the answers it needs in tmux mode. *)
Record ServerValues : Set := {
  sv_session : list byte; sv_pane : list byte; sv_token : list byte; sv_socket : list byte; sv_bin : list byte;
  sv_tmux : option (list byte * list byte);     (* the value of TMUX and of PATH *)
}.

Definition agent_name (env : gmap str str) : option str :=
  value ← env !! lit "LTERM_AGENT";
  let name := terminal_text value in
  if bool_decide (trim name = []) then None else Some name.

Definition set_server_env (v : ServerValues) (cmd : envmap) : envmap :=
  let cmd := <[lit "LTERM_BIN" := sv_bin v]> (<[lit "LTERM_SOCKET" := sv_socket v]>
    (<[lit "LTERM_PARENT_TOKEN" := sv_token v]> (<[lit "LTERM_PANE" := sv_pane v]>
    (<[lit "LTERM_SESSION" := sv_session v]> cmd)))) in
  match sv_tmux v with
  | None => cmd
  | Some (tmux, path) => <[lit "PATH" := path]> (<[lit "TMUX_PANE" := sv_pane v]> (<[lit "TMUX" := tmux]> cmd))
  end.

Definition set_client_env (safe : gmap str str) (cmd : envmap) : envmap :=
  foldl (λ cmd '(key, value), <[utf8 key := utf8 value]> cmd) cmd (map_to_list safe).

Definition child_env (base : envmap) (vars : list (list byte)) (env : gmap str str) (v : ServerValues)
    : result EnvError envmap :=
  let cmd := scrub_ambient_multiplexer_env vars base in
  let cmd := if is_some (agent_name env) then scrub_ambient_child_color_policy_env cmd else cmd in
  safe ← sanitize_child_env env (is_some (sv_tmux v));
  Ok (set_server_env v (set_client_env safe cmd)).

(** ** Lemmas *)

Lemma sanitize_entries_Ok allow entries safe safe' :
  sanitize_entries allow entries safe = Ok safe' →
  Forall (λ kv, check_env_entry allow kv.1 kv.2 = Ok tt) entries ∧
  safe' = foldl (λ acc kv, <[kv.1 := kv.2]> acc) safe entries.
Proof.
  revert safe. induction entries as [|[k v] entries IH]; intros safe H; [by simplify_eq/=|].
  cbn in H. apply bind_Ok in H as ([] & Hc & H). apply IH in H as [Hf ->]. split; [|done]. by constructor.
Qed.

Lemma insert_all_lookup {V} (l : list (list Z * V)) (m : gmap (list Z) V) k :
  NoDup l.*1 →
  foldl (λ acc kv, <[kv.1 := kv.2]> acc) m l !! k =
  match (list_to_map l : gmap (list Z) V) !! k with Some v => Some v | None => m !! k end.
Proof.
  revert m. induction l as [|[k' v] l IH]; intros m Hd; [by rewrite lookup_empty|].
  apply NoDup_cons in Hd as [Hk Hd]. cbn [foldl list_to_map fst snd]. rewrite IH //.
  destruct (decide (k = k')) as [->|Hne].
  - cbn. rewrite !lookup_insert_eq. by rewrite (not_elem_of_list_to_map_1 l).
  - cbn. rewrite !lookup_insert_ne //.
Qed.

Lemma sanitize_child_env_Ok env allow safe :
  sanitize_child_env env allow = Ok safe →
  safe = env ∧ map_Forall (λ k v, check_env_entry allow k v = Ok tt) env.
Proof.
  intros [Hf ->]%sanitize_entries_Ok. split.
  - apply map_eq. intros k. rewrite insert_all_lookup; [|apply NoDup_fst_map_to_list].
    rewrite list_to_map_to_list lookup_empty. by destruct (env !! k).
  - intros k v Hk%elem_of_map_to_list. rewrite Forall_forall in Hf. by apply (Hf (k, v)).
Qed.

Lemma env_remove_all_lookup keys cmd k :
  env_remove_all keys cmd !! k = if bool_decide (k ∈ keys) then None else cmd !! k.
Proof.
  unfold env_remove_all. revert cmd. induction keys as [|key keys IH]; intros cmd; [done|]. cbn [foldl].
  rewrite IH. case_bool_decide as H1; case_bool_decide as H2; try done.
  - destruct H2. by right.
  - apply elem_of_cons in H2 as [->|?]; [|done]. by rewrite lookup_delete_eq.
  - rewrite lookup_delete_ne //. intros ->. apply H2. by left.
Qed.

Lemma utf8_key_chars s : Forall (λ c, key_char_ok c = true) s → utf8 s = s.
Proof.
  unfold utf8. induction 1 as [|c s Hc Hs IH]; [done|]. rewrite fmap_cons /= IH.
  assert (encode c = [c]) as ->; [|done]. unfold encode.
  unfold key_char_ok, is_ascii_alphanumeric, is_ascii_alphabetic, ascii_digit, within in Hc.
  replace (c <? 0x80) with true by lia. done.
Qed.

(** Valid names are their own bytes. *)
Lemma key_ascii allow key value : check_env_entry allow key value = Ok tt → utf8 key = key.
Proof.
  unfold check_env_entry, validate_env_key. intros H. inv_ok. apply utf8_key_chars.
  destruct key as [|c key]; [constructor|]. inv_ok. constructor.
  - unfold key_first_ok, key_char_ok, is_ascii_alphanumeric in *. destruct (c =? 0x5f); [done|]. simpl in *.
    by rewrite orb_true_iff; left.
  - apply Forall_forall. intros y Hy. match goal with H : forallb key_char_ok key = true |- _ =>
      rewrite forallb_forall in H; apply H, list_elem_of_In, Hy end.
Qed.

Lemma set_client_env_lookup allow safe cmd k :
  map_Forall (λ k v, check_env_entry allow k v = Ok tt) safe →
  set_client_env safe cmd !! k = match safe !! k with Some v => Some (utf8 v) | None => cmd !! k end.
Proof.
  intros Hall. unfold set_client_env.
  rewrite (_ : foldl _ cmd (map_to_list safe) =
    foldl (λ acc kv, <[kv.1 := kv.2]> acc) cmd (prod_map id utf8 <$> map_to_list safe)).
  2:{ assert (Forall (λ kv, utf8 kv.1 = kv.1) (map_to_list safe)) as Hk.
      { apply Forall_forall. intros [k' v'] Hin%elem_of_map_to_list. by eapply key_ascii, Hall. }
      revert cmd. induction Hk as [|[k' v'] l Hk Hl IH]; intros cmd; [done|].
      cbn [foldl fmap list_fmap]. unfold prod_map. cbn [fst snd id] in Hk |- *. by rewrite Hk IH. }
  rewrite insert_all_lookup.
  - rewrite list_to_map_fmap list_to_map_to_list lookup_fmap. by destruct (safe !! k).
  - rewrite -list_fmap_compose. apply NoDup_fst_map_to_list.
Qed.

(** The two ways in which the source compares names without their case agree. *)
Lemma zip_all_upper key expected :
  length key = length expected → to_ascii_uppercase expected = expected →
  zip_all eq_ignore_ascii_case key expected = bool_decide (to_ascii_uppercase key = expected).
Proof.
  revert expected. induction key as [|c key IH]; intros [|e expected] Hl Hu; try done.
  simpl in Hl, Hu |- *. injection Hu as He Hu. injection Hl as Hl. rewrite IH //. unfold eq_ignore_ascii_case. rewrite He.
  repeat case_bool_decide; rewrite ?andb_true_r ?andb_false_r; simplify_eq; try done; try lia.
  - apply Z.eqb_neq. intros Heq. by rewrite Heq in H0.
Qed.

Lemma os_key_eq_upper key expected :
  to_ascii_uppercase expected = expected →
  os_key_eq_ignore_ascii_case key expected = bool_decide (to_ascii_uppercase key = expected).
Proof.
  intros Hu. unfold os_key_eq_ignore_ascii_case. destruct (Nat.eqb_spec (length key) (length expected)) as [Hl|Hl].
  - by apply zip_all_upper.
  - rewrite bool_decide_false //. intros He. apply Hl. rewrite -He. by rewrite /to_ascii_uppercase length_fmap.
Qed.

Lemma upper_underscore c : (ascii_upper c =? 0x5f) = (c =? 0x5f).
Proof. unfold ascii_upper, within. destruct ((0x61 <=? c) && (c <=? 0x7a)) eqn:E; lia. Qed.

Lemma decide_eqb (a b : Z) : bool_decide (a = b) = (b =? a).
Proof. case_bool_decide; lia. Qed.

Lemma os_prefix_upper key :
  os_key_starts_with_cmux_prefix key = is_prefix (lit "CMUX_") (to_ascii_uppercase key).
Proof.
  destruct key as [|c0 [|c1 [|c2 [|c3 [|c4 key]]]]]; try (cbn; repeat case_bool_decide; done).
  cbn. unfold eq_ignore_ascii_case. rewrite !decide_eqb andb_true_r !andb_assoc. rewrite -(upper_underscore c4).
  reflexivity.
Qed.

Lemma decide_in_cons (x a : str) l : bool_decide (x ∈ a :: l) = bool_decide (x = a) || bool_decide (x ∈ l).
Proof. rewrite -bool_decide_or. apply bool_decide_ext, elem_of_cons. Qed.

Lemma private_upper key :
  os_key_is_private_multiplexer_env key =
  bool_decide (to_ascii_uppercase key ∈ [lit "TMUX"; lit "TMUX_PANE"; lit "LTERM_CMUX_MANAGED_ATTACH"])
  || is_prefix (lit "CMUX_") (to_ascii_uppercase key).
Proof.
  unfold os_key_is_private_multiplexer_env. rewrite os_prefix_upper !os_key_eq_upper //.
  by rewrite !decide_in_cons orb_false_r !orb_assoc.
Qed.

Lemma private_client key allow :
  is_private_multiplexer_env_key key allow = false → os_key_is_private_multiplexer_env key = true →
  allow = true ∧ key ∈ CMUX_CONTEXT_ENV.
Proof.
  rewrite private_upper. unfold is_private_multiplexer_env_key.
  generalize (is_prefix (lit "CMUX_") (to_ascii_uppercase key)). intros prefix [H1 H2]%orb_false. rewrite H1 orb_false_l.
  intros ->. unfold is_allowed_child_cmux_env_key in H2. destruct allow; [|done]. simpl in H2. by inv_ok.
Qed.

(** The names the daemon sets. *)
Definition server_keys (v : ServerValues) : list (list byte) :=
  [lit "LTERM_SESSION"; lit "LTERM_PANE"; lit "LTERM_PARENT_TOKEN"; lit "LTERM_SOCKET"; lit "LTERM_BIN"] ++
  match sv_tmux v with Some _ => [lit "TMUX"; lit "TMUX_PANE"; lit "PATH"] | None => [] end.

Definition server_value (v : ServerValues) (k : list byte) : option (list byte) :=
  set_server_env v ∅ !! k.

Lemma set_server_env_lookup v cmd k :
  set_server_env v cmd !! k = match server_value v k with Some x => Some x | None => cmd !! k end.
Proof.
  unfold server_value, set_server_env.
  destruct (sv_tmux v) as [[t p]|]; rewrite !lookup_insert; repeat (case_decide; [done|]); by rewrite lookup_empty.
Qed.

Lemma server_value_keys v k : is_Some (server_value v k) ↔ k ∈ server_keys v.
Proof.
  unfold server_value, set_server_env, server_keys.
  assert (is_Some ((∅ : envmap) !! k) ↔ False) as He by (rewrite lookup_empty; split; [by intros []|done]).
  destruct (sv_tmux v) as [[t p]|]; rewrite !lookup_insert_is_Some' He
    ?elem_of_app !elem_of_cons elem_of_nil; naive_solver.
Qed.

Lemma dangerous_inherited k :
  is_dangerous_env_key k = true → os_key_is_private_multiplexer_env k = false ∧ k ∉ CHILD_COLOR_POLICY_ENV.
Proof.
  intros Hd. split.
  - rewrite private_upper. unfold is_dangerous_env_key in Hd. revert Hd.
    generalize (to_ascii_uppercase k). intros u Hd. apply orb_true_iff in Hd as [[Hd|Hd]%orb_true_iff|Hd].
    + apply bool_decide_eq_true in Hd. cbn in Hd.
      repeat (apply elem_of_cons in Hd as [->|Hd]; [reflexivity|]). by apply not_elem_of_nil in Hd.
    + apply is_prefix_spec in Hd as [r ->]. reflexivity.
    + apply is_prefix_spec in Hd as [r ->]. reflexivity.
  - intros Hc. unfold CHILD_COLOR_POLICY_ENV in Hc. revert Hd.
    repeat (apply elem_of_cons in Hc as [->|Hc]; [by vm_compute|]). by apply not_elem_of_nil in Hc.
Qed.

(** A variable of the child: set by the daemon, else by the client, else inherited. *)
Lemma child_env_lookup base vars env v cmd k :
  (∀ k, is_Some (base !! k) → os_key_is_private_multiplexer_env k = true → k ∈ vars) →
  child_env base vars env v = Ok cmd →
  map_Forall (λ k x, check_env_entry (is_some (sv_tmux v)) k x = Ok tt) env ∧
  cmd !! k =
    match server_value v k with
    | Some x => Some x
    | None =>
      match env !! k with
      | Some x => Some (utf8 x)
      | None =>
        if os_key_is_private_multiplexer_env k || is_some (agent_name env) && bool_decide (k ∈ CHILD_COLOR_POLICY_ENV)
        then None else base !! k
      end
    end.
Proof.
  intros Hvars H. unfold child_env in H. apply bind_Ok in H as (safe & Hs & H). simplify_eq.
  apply sanitize_child_env_Ok in Hs as [-> Hall]. split; [done|].
  rewrite set_server_env_lookup (set_client_env_lookup (is_some (sv_tmux v))) //.
  destruct (server_value v k); [done|].
  destruct (env !! k); [done|].
  assert (scrub_ambient_multiplexer_env vars base !! k =
    if os_key_is_private_multiplexer_env k then None else base !! k) as Hscrub.
  { unfold scrub_ambient_multiplexer_env. rewrite !env_remove_all_lookup.
    case_bool_decide as H1; [apply elem_of_filter_bool in H1 as [_ ->]; done|].
    rewrite elem_of_filter_bool in H1. case_bool_decide as H2.
    - assert (os_key_is_private_multiplexer_env k = true) as ->; [|done]. unfold AMBIENT_MULTIPLEXER_ENV in H2.
      repeat (apply elem_of_cons in H2 as [->|H2]; [reflexivity|]). by apply not_elem_of_nil in H2.
    - destruct (os_key_is_private_multiplexer_env k) eqn:Hp; [|done].
      destruct (base !! k) eqn:Hb; [|done]. destruct H1. split; [|done]. apply Hvars; [by rewrite Hb|done]. }
  destruct (is_some (agent_name env)); cbn [andb]; [|by rewrite orb_false_r Hscrub].
  unfold scrub_ambient_child_color_policy_env. rewrite env_remove_all_lookup Hscrub.
  case_bool_decide; [by rewrite orb_true_r|by rewrite orb_false_r].
Qed.

(** What a session's shell inherits is controlled.  The daemon's own variables always have
    the daemon's values; no multiplexer variable of the daemon's environment, in any case of
    letters, gets through, and in tmux mode the only others are the four of the CMUX context
    as the client gave them; a variable that steers the loader or the shell is the daemon's,
    never the client's; any other variable the client sends arrives unchanged. *)
Theorem child_env_isolated base vars env v cmd :
  (∀ k, is_Some (base !! k) → os_key_is_private_multiplexer_env k = true → k ∈ vars) →
  child_env base vars env v = Ok cmd →
  (∀ k, k ∈ server_keys v → is_Some (server_value v k) ∧ cmd !! k = server_value v k) ∧
  (∀ k x, cmd !! k = Some x → os_key_is_private_multiplexer_env k = true → k ∉ server_keys v →
     is_Some (sv_tmux v) ∧ k ∈ CMUX_CONTEXT_ENV ∧ ∃ y, env !! k = Some y ∧ x = utf8 y) ∧
  (∀ k, is_dangerous_env_key k = true → k ∉ server_keys v → cmd !! k = base !! k) ∧
  (∀ k y, env !! k = Some y → k ∉ server_keys v → cmd !! k = Some (utf8 y)).
Proof.
  intros Hvars H. pose proof (λ k, child_env_lookup base vars env v cmd k Hvars H) as Hl.
  pose proof (proj1 (Hl [])) as Hall.
  assert (∀ k, k ∉ server_keys v → server_value v k = None) as Hnone.
  { intros k Hk. apply eq_None_not_Some. by rewrite server_value_keys. }
  split; [|split; [|split]].
  - intros k Hk. apply server_value_keys in Hk. split; [done|]. rewrite (proj2 (Hl k)). by destruct Hk as [x ->].
  - intros k x Hk Hp Hs. rewrite (proj2 (Hl k)) (Hnone k Hs) Hp /= in Hk.
    destruct (env !! k) as [y|] eqn:Hy; [|done]. pose proof (Hall _ _ Hy) as Hc.
    unfold check_env_entry in Hc. inv_ok.
    match goal with H : is_private_multiplexer_env_key k _ = false |- _ =>
      destruct (private_client _ _ H Hp) as [Ht Hin] end.
    split; [by destruct (sv_tmux v)|]. split; [done|]. exists y. by simplify_eq.
  - intros k Hd Hs. rewrite (proj2 (Hl k)) (Hnone k Hs). destruct (env !! k) as [y|] eqn:Hy.
    + pose proof (Hall _ _ Hy) as Hc. unfold check_env_entry in Hc. inv_ok. congruence.
    + destruct (dangerous_inherited k Hd) as [-> Hcol]. by rewrite (bool_decide_false _ Hcol) andb_false_r.
  - intros k y Hy Hs. by rewrite (proj2 (Hl k)) (Hnone k Hs) Hy.
Qed.
