(* ===== verification/CreateSession.v ===== *)
(** The creation of a session ([create_session_with_inspector] in [server.rs]): the parent
    is chosen and a name and pane reserved, the shell is spawned with its environment, and
    the session is committed to the registry under its reservation.

    Other threads run between the reservation and the commit, so the two halves are two
    functions and the theorems allow any history of the registry in between.  What the
    operating system answers in the second half is a record. *)
From stdpp Require Import gmap.
From S2P Require Import Prelude Utf8 Protocol Text ProcessIdentity Lifecycle Sessions OutputRing SessionOutput ProcessAncestry ChildEnv.

Record NewSessionParams : Set := {
  np_name : option str;
  np_rows : option Z;
  np_cols : option Z;
  np_parent_pane_id : option str;
  np_parent_token : option str;
  np_tmux_parent_pane_id : option str;
  np_env : gmap str str;
  np_status_theme : option StatusTheme;
  np_tmux : bool;
}.

Inductive CreateError : Set :=
  | CreateParent (e : ParentRequestError)
  | CreateParentGone
  | CreateRegistry (e : RegistryError)
  | CreateGeometry (e : SessionError)
  | CreateEnv (e : EnvError)
  | CreateChain (e : ChainError)
  | CreateSystem.                   (* the pseudo-terminal, a path or the spawn failed *)

Definition map_err {E F A} (f : E → F) (r : result E A) : result F A :=
  match r with Ok a => Ok a | Err e => Err (f e) end.

(** What the system gives between the reservation and the commit. *)
Record SystemAnswers : Set := {
  sys_openpty : bool;
  sys_id : str;                            (* [Uuid::new_v4] *)
  sys_parent_token : str;
  sys_base : envmap;                       (* the environment [CommandBuilder] starts with *)
  sys_vars : list (list byte);             (* the names of the daemon's environment *)
  sys_paths : option (list byte * list byte);              (* the socket and the executable *)
  sys_tmux_paths : option (list byte * list byte);         (* the values of TMUX and of PATH *)
  sys_spawn : option Z;                    (* the pid of the child *)
  sys_inspector : ProcessInspector;
}.

Section create.
Context (uuid_parse_str : str → option Uuid).

Definition select_parent (m : SessionMaps) (params : NewSessionParams) (peer : option ProcessIdentity)
    (inspector : ProcessInspector) (platform_supported : bool) : result CreateError (option ParentSelection) :=
  request ← map_err CreateParent
    (parent_request (np_parent_pane_id params) (np_parent_token params) (np_tmux_parent_pane_id params));
  match request with
  | Some request =>
    _ ← ok_or (resolve_parent_session_locked m request) CreateParentGone;
    Ok (Some (Explicit request))
  | None =>
    match resolve_implicit_parent m peer inspector platform_supported with
    | Selected proof => Ok (Some (Implicit proof))
    | Root _ => Ok None
    end
  end.

(** Up to the reservation. *)
Definition create_begin (m : SessionMaps) (params : NewSessionParams) (peer : option ProcessIdentity)
    (inspector : ProcessInspector) (platform_supported : bool)
    : result CreateError (option ParentSelection * SessionReservation) * SessionMaps :=
  match select_parent m params peer inspector platform_supported with
  | Err e => (Err e, m)
  | Ok selection =>
    match reserve_session_identity uuid_parse_str m (np_name params) with
    | (Err e, m) => (Err (CreateRegistry e), m)
    | (Ok r, m) => (Ok (selection, r), m)
    end
  end.

Definition server_values (params : NewSessionParams) (r : SessionReservation) (sys : SystemAnswers)
    : result CreateError ServerValues :=
  '(socket, bin) ← ok_or (sys_paths sys) CreateSystem;
  tmux ← (if np_tmux params then Some <$> ok_or (sys_tmux_paths sys) CreateSystem else Ok None);
  Ok {| sv_session := utf8 (res_name r); sv_pane := utf8 (res_pane r); sv_token := utf8 (sys_parent_token sys);
        sv_socket := socket; sv_bin := bin; sv_tmux := tmux |}.

(** From the reservation to the commit: the environment of the child, its pid and the size
    of its terminal. *)
Definition spawn_session (params : NewSessionParams) (selection : option ParentSelection) (r : SessionReservation)
    (sys : SystemAnswers) : result CreateError (envmap * Z * (Z * Z)) :=
  size ← map_err CreateGeometry (initial_pty_size (np_rows params) (np_cols params));
  bail_if (negb (sys_openpty sys)) CreateSystem ;;
  values ← server_values params r sys;
  cmd ← map_err CreateEnv (child_env (sys_base sys) (sys_vars sys) (np_env params) values);
  process_id ← ok_or (sys_spawn sys) CreateSystem;
  (match selection with
   | Some (Implicit proof) => map_err CreateChain (validate_implicit_parent_chain proof (sys_inspector sys))
   | _ => Ok tt
   end) ;;
  Ok (cmd, process_id, size).

(** A failure drops the reservation. *)
Definition create_finish (m : SessionMaps) (params : NewSessionParams) (selection : option ParentSelection)
    (r : SessionReservation) (sys : SystemAnswers) : result CreateError envmap * SessionMaps :=
  match spawn_session params selection r sys with
  | Err e => (Err e, reservation_drop m r)
  | Ok (cmd, process_id, _) =>
    let leader := ps_identity <$> sys_inspector sys process_id in
    match commit m r (session_for r (sys_id sys) (sys_parent_token sys) leader (np_status_theme params)) selection with
    | (Err e, m) => (Err (CreateRegistry e), m)
    | (Ok _, m) => (Ok cmd, m)
    end
  end.

(** ** The parent of a new session *)

(** Who may be the parent of a session: the client showed the token of a live session with
    the pane, or named its pane through the tmux interface, or is a descendant of its leader
    with no leader of a live session in between. *)
Definition authorized_parent (params : NewSessionParams) (peer : option ProcessIdentity)
    (leaders : list LiveSessionLeader) (later : ProcessInspector) (q : SessionEntry) : Prop :=
  (∃ pane, np_parent_pane_id params = Some pane ∧ se_pane q = normalize_target pane ∧
     np_parent_token params = Some (se_parent_token q) ∧ se_parent_token q ≠ [] ∧
     np_tmux_parent_pane_id params = None) ∨
  (∃ pane, np_tmux_parent_pane_id params = Some pane ∧ se_pane q = normalize_target pane ∧
     np_parent_pane_id params = None ∧ np_parent_token params = None) ∨
  (np_parent_pane_id params = None ∧ np_parent_token params = None ∧ np_tmux_parent_pane_id params = None ∧
   ∃ p proof, peer = Some p ∧ nearest_leader p leaders later proof ∧ se_leader q = Some (ip_leader proof) ∧
     se_id q = ps_id (ip_parent proof)).

Lemma parent_request_Ok pane token tmux request :
  parent_request pane token tmux = Ok request →
  match request with
  | None => pane = None ∧ token = None ∧ tmux = None
  | Some (PCapability p t) => ∃ x, pane = Some x ∧ token = Some t ∧ tmux = None ∧ p = normalize_target x ∧ t ≠ []
  | Some (PTmuxTarget p) => ∃ x, tmux = Some x ∧ p = normalize_target x ∧ pane = None ∧ token = None
  end.
Proof.
  unfold parent_request. destruct tmux as [x|].
  - intros H. inv_ok. simplify_eq. exists x. destruct pane, token; done.
  - destruct pane as [x|], token as [t|]; intros H; try done; inv_ok; simplify_eq; [|done]. by exists x.
Qed.

Lemma select_parent_Ok m params peer inspector platform selection :
  select_parent m params peer inspector platform = Ok selection →
  match selection with
  | Some (Explicit request) =>
    parent_request (np_parent_pane_id params) (np_parent_token params) (np_tmux_parent_pane_id params) =
      Ok (Some request)
  | Some (Implicit proof) =>
    parent_request (np_parent_pane_id params) (np_parent_token params) (np_tmux_parent_pane_id params) = Ok None ∧
    ∃ p, peer = Some p ∧ resolve_peer_ancestry p (live_session_leaders m) inspector = Selected proof
  | None =>
    parent_request (np_parent_pane_id params) (np_parent_token params) (np_tmux_parent_pane_id params) = Ok None ∧
    ∀ p proof, peer = Some p → resolve_peer_ancestry p (live_session_leaders m) inspector ≠ Selected proof
  end.
Proof.
  unfold select_parent. destruct (parent_request _ _ _) as [[request|]|]; cbn [map_err mbind result_bind]; [|..|done].
  - destruct (resolve_parent_session_locked m request); cbn [ok_or mbind result_bind]; [|done]. by intros [= <-].
  - unfold resolve_implicit_parent. destruct peer as [p|]; [|intros [= <-]; by split].
    destruct (resolve_peer_ancestry _ _ _) as [proof|reason] eqn:Hr; intros [= <-]; (split; [done|]).
    + by exists p.
    + intros p' proof Hp Hsel. congruence.
Qed.

(** What the commit checks of the parent. *)
Definition parent_checked (selection : option ParentSelection) (q : SessionEntry) : Prop :=
  se_alive q = true ∧
  match selection with
  | Some (Explicit (PCapability pane token)) => se_pane q = pane ∧ se_parent_token q = token
  | Some (Explicit (PTmuxTarget pane)) => se_pane q = pane
  | Some (Implicit proof) => se_leader q = Some (ip_leader proof) ∧ se_id q = ps_id (ip_parent proof)
  | None => False
  end.

Lemma commit_checked_parent m rs r s selection parent :
  maps_inv uuid_parse_str m rs → commit_checked m r s selection = Ok parent →
  match parent with
  | None => selection = None
  | Some p => ∃ q, live m (se_id q) ∧ heap m !! se_id q = Some q ∧ ps_id p = se_id q ∧ ps_pane p = se_pane q ∧
                parent_checked selection q
  end.
Proof.
  intros Hinv H. unfold commit_checked in H. inv_ok. destruct selection as [[request|proof]|]; inv_ok; simplify_eq.
  - match goal with H : resolve_parent_session_locked _ _ = _ |- _ => apply bind_Some in H as (q & Hq & H) end.
    apply (get_pane_live _ _ _ _ _ Hinv) in Hq as (_ & Hl & Hs & Hp). exists q. split; [done|]. split; [done|].
    destruct (se_alive q) eqn:Ha; [|done]. simpl in *. unfold parent_checked. rewrite Ha.
    destruct request; simpl in *; [case_bool_decide|]; simplify_eq; done.
  - unfold resolve_implicit_parent_locked in *. inv_ok. simplify_eq.
    match goal with H : get_id _ _ = Some ?q |- _ =>
      destruct (get_id_live _ _ _ _ _ Hinv H) as (Hl & Hs & Hid); exists q end.
    by repeat split.
  - done.
Qed.

Lemma authorized_parent_intro m0 params peer inspector platform selection later q :
  inspector_ok inspector →
  select_parent m0 params peer inspector platform = Ok selection →
  match selection with
  | Some (Implicit proof) => validate_implicit_parent_chain proof later = Ok tt
  | _ => True
  end →
  parent_checked selection q →
  authorized_parent params peer (live_session_leaders m0) later q.
Proof.
  intros Hok Hsel Hv Hq. apply select_parent_Ok in Hsel. unfold authorized_parent.
  destruct selection as [[[pane token|pane]|proof]|]; [..|by destruct Hq]; destruct Hq as [Ha Hq].
  - apply parent_request_Ok in Hsel as (x & ? & ? & ? & ? & ?). destruct Hq as [Hp Ht].
    left. exists x. by subst.
  - apply parent_request_Ok in Hsel as (x & ? & ? & ? & ?). right. left. exists x. by subst.
  - destruct Hsel as [Hreq (p & Hp & Hr)]. apply parent_request_Ok in Hreq as (? & ? & ?).
    right. right. split; [done|]. split; [done|]. split; [done|]. exists p, proof. split; [done|].
    split; [|done]. by eapply validate_spec.
Qed.

(** ** The life of a creation *)

Context (uuid_long : ∀ s, (length s < 32)%nat → uuid_parse_str s = None).
Context (uuid_hyphenated : Uuid → str).

Lemma spawn_session_Ok params selection r sys cmd pid size :
  spawn_session params selection r sys = Ok (cmd, pid, size) →
  ∃ values, server_values params r sys = Ok values ∧ child_env (sys_base sys) (sys_vars sys) (np_env params) values = Ok cmd ∧
  match selection with
  | Some (Implicit proof) => validate_implicit_parent_chain proof (sys_inspector sys) = Ok tt
  | _ => True
  end.
Proof.
  unfold spawn_session. intros (sz & _ & H)%bind_Ok. apply bind_Ok in H as (? & _ & H).
  apply bind_Ok in H as (values & Hv & H). apply bind_Ok in H as (cmd' & Hc & H).
  apply bind_Ok in H as (pid' & _ & H). apply bind_Ok in H as (u & Hsel & H). simplify_eq. exists values.
  split; [done|]. split; [by destruct (child_env _ _ _ _); simplify_eq/=|].
  destruct selection as [[request|proof]|]; [done| |done].
  by destruct (validate_implicit_parent_chain _ _) as [[]|].
Qed.

(** What holds after a creation that ended with [answer]. *)
Definition created (params : NewSessionParams) (peer : option ProcessIdentity) (leaders : list LiveSessionLeader)
    (inspector : ProcessInspector) (r : SessionReservation) (sys : SystemAnswers) (m m' : SessionMaps)
    (answer : result CreateError envmap) : Prop :=
  match answer with
  | Err _ => m' = reservation_drop m r
  | Ok cmd =>
    ∃ s, live m' (sys_id sys) ∧ heap m' !! sys_id sys = Some s ∧ se_id s = sys_id sys ∧
      se_name s = res_name r ∧ se_pane s = res_pane r ∧
      (∃ values, server_values params r sys = Ok values ∧
         child_env (sys_base sys) (sys_vars sys) (np_env params) values = Ok cmd) ∧
      match se_parent_session s with
      | Some id => ∃ q, live m id ∧ heap m !! id = Some q ∧ se_alive q = true ∧
          se_parent_pane s = Some (se_pane q) ∧ authorized_parent params peer leaders (sys_inspector sys) q
      | None => np_parent_pane_id params = None ∧ np_parent_token params = None ∧
          np_tmux_parent_pane_id params = None ∧
          ∀ p proof, peer = Some p → ¬ nearest_leader p leaders inspector proof
      end
  end.

Lemma create_finish_spec m0 params peer inspector platform selection m rs r sys answer m' :
  inspector_ok inspector → select_parent m0 params peer inspector platform = Ok selection →
  maps_inv uuid_parse_str m (r :: rs) → heap m !! sys_id sys = None → is_Some (uuid_parse_str (sys_id sys)) →
  create_finish m params selection r sys = (answer, m') →
  maps_inv uuid_parse_str m' rs ∧ created params peer (live_session_leaders m0) inspector r sys m m' answer.
Proof.
  intros Hok Hsel Hinv Hnew Huuid H. unfold create_finish in H.
  destruct (spawn_session _ _ _ _) as [[[cmd pid] size]|e] eqn:Hsp; [|simplify_eq; by split; [apply maps_inv_drop|]].
  apply spawn_session_Ok in Hsp as (values & Hvals & Hcmd & Hchain).
  set (s := session_for _ _ _ _ _) in H. unfold commit in H.
  destruct (commit_checked m r s selection) as [parent|e] eqn:Hc; [|simplify_eq; by split; [apply maps_inv_drop|]].
  pose proof (commit_checked_parent _ _ _ _ _ _ Hinv Hc) as Hpar.
  pose proof (mi_good_reserved _ _ _ Hinv r ltac:(left)) as [Hgood _].
  assert (hist_good uuid_parse_str (se_metadata s)) as Hh.
  { split; [apply hist_ok_new|]. split; [done|constructor]. }
  pose proof (maps_inv_commit uuid_parse_str m r rs s parent Hinv eq_refl eq_refl Hh Hnew Huuid) as Hinv'.
  simplify_eq. split; [exact Hinv'|]. eexists. split; [apply lookup_insert_eq|]. split; [apply lookup_insert_eq|].
  split; [done|]. split; [done|]. split; [done|]. split; [by exists values|]. cbn [se_parent_session se_parent_pane].
  destruct parent as [p|]; cbn [fmap option_fmap option_map].
  - destruct Hpar as (q & Hl & Hs & Hid & Hpane & Hq). rewrite Hid Hpane. exists q.
    split; [done|]. split; [done|]. split; [apply Hq|]. split; [done|]. by eapply authorized_parent_intro.
  - subst selection. apply select_parent_Ok in Hsel as [Hreq Hno]. apply parent_request_Ok in Hreq as (? & ? & ?).
    do 3 (split; [done|]). intros p proof Hp Hn. apply (Hno p proof Hp). by apply resolve_spec_Selected.
Qed.

(** C19: However the registry changes between the two halves of a creation, the session comes
    to be under the name and pane reserved for it, with the environment computed for it; if
    a parent is recorded, it is live and alive at that moment and authorized: its token was
    shown, its pane was named for tmux, or it is led by the nearest leader above the client
    on a line of processes that still exists; no parent is recorded only if none was asked
    for and no leader was found.  A creation that fails leaves nothing but the registry
    without its reservation. *)
Theorem created_session_authorized evs1 m0 rs0 params peer inspector platform selection r m1 evs2 m rs i sys answer m' :
  inspector_ok inspector →
  registry_run uuid_parse_str uuid_hyphenated (SessionMaps_default, []) evs1 = Some (m0, rs0) →
  create_begin m0 params peer inspector platform = (Ok (selection, r), m1) →
  registry_run uuid_parse_str uuid_hyphenated (m1, r :: rs0) evs2 = Some (m, rs) →
  rs !! i = Some r →
  heap m !! sys_id sys = None → is_Some (uuid_parse_str (sys_id sys)) →
  create_finish m params selection r sys = (answer, m') →
  maps_inv uuid_parse_str m' (delete i rs) ∧
  created params peer (live_session_leaders m0) inspector r sys m m' answer ∧
  (∀ name, np_name params = Some name → res_name r = name).
Proof using uuid_long.
  intros Hok Hrun1 Hb Hrun2 Hi Hnew Huuid Hf.
  assert (maps_inv uuid_parse_str m0 rs0) as Hinv0 by (eapply registry_run_inv; [done|apply maps_inv_default|done]).
  unfold create_begin in Hb. destruct (select_parent _ _ _ _ _) as [sel|] eqn:Hsel; [|done].
  destruct (reserve_session_identity _ _ _) as [[r'|e] m1'] eqn:Hres; [|done]. simplify_eq.
  assert (maps_inv uuid_parse_str m rs) as Hinv.
  { eapply registry_run_inv; [done| |done]. by eapply maps_inv_reserve. }
  assert (maps_inv uuid_parse_str m (r :: delete i rs)) as Hinv' by (eapply maps_inv_perm; [by apply delete_Permutation|done]).
  destruct (create_finish_spec _ _ _ _ _ _ _ _ _ _ _ _ Hok Hsel Hinv' Hnew Huuid Hf) as [H1 H2].
  split; [done|]. split; [done|]. intros name Hname. rewrite Hname in Hres.
  unfold reserve_session_identity in Hres. destruct (validate_session_name_syntax _ _ ≫= _) as [[pane nm]|] eqn:Hc; simplify_eq.
  apply bind_Ok in Hc as (? & _ & Hc). inv_ok.
  match goal with H : select_identity _ _ _ = _ |- _ => apply select_identity_Some in H as (? & _ & _ & _ & -> & _) end.
  done.
Qed.
End create.
