(* ===== verification/CreateScenario.v ===== *)
(** The theorems on the creation of sessions at concrete inputs: a client two processes below
    the leader of a live session asks for a new one. *)
From stdpp Require Import gmap.
From S2P Require Import Prelude Utf8 Protocol Text ProcessIdentity Lifecycle Sessions OutputRing SessionOutput ProcessAncestry ChildEnv CreateSession SessionScenario.

(** Process [n] has the parent [n - 1] and started at time [n]. *)
Definition process (n : Z) : ProcessSnapshot :=
  {| ps_identity := {| pi_pid := n; start_marker := lit "linux:" ++ dec n |}; parent_pid := n - 1 |}.
Definition table : ProcessInspector := λ pid, if within 100 105 pid then Some (process pid) else None.

Lemma table_ok : inspector_ok table.
Proof. intros pid s H. unfold table in H. destruct (within 100 105 pid); by simplify_eq/=. Qed.

Definition leader_of (n : Z) : ProcessIdentity := ps_identity (process n).

Definition first_history : list RegistryEvent :=
  [RReserve (Some (lit "main")); RCommit 0 id_a (lit "token") (Some (leader_of 101)) None None].

Definition before_create : SessionMaps * list SessionReservation := default (SessionMaps_default, []) (run first_history).

Definition params : NewSessionParams := {|
  np_name := Some (lit "helper"); np_rows := Some 24; np_cols := Some 80; np_parent_pane_id := None;
  np_parent_token := None; np_tmux_parent_pane_id := None;
  np_env := {[lit "CMUX_WINDOW_ID" := lit "7"; lit "EDITOR" := lit "vi"]};
  np_status_theme := None; np_tmux := true |}.

Definition sys : SystemAnswers := {|
  sys_openpty := true; sys_id := id_b; sys_parent_token := lit "secret";
  sys_base := {[lit "PATH" := lit "/bin"; lit "Cmux_Surface_Id" := lit "3"; lit "TMUX" := lit "x"]};
  sys_vars := [lit "PATH"; lit "Cmux_Surface_Id"; lit "TMUX"];
  sys_paths := Some (lit "/run/s", lit "/bin/lterm"); sys_tmux_paths := Some (lit "/run/t,1,0", lit "/shim:/bin");
  sys_spawn := Some 105; sys_inspector := table |}.

Definition begun := create_begin simple_uuid before_create.1 params (Some (leader_of 103)) table true.
Definition proof_found : ImplicitParentProof := {|
  ip_parent := {| ps_id := id_a; ps_pane := lit "%0" |}; ip_leader := leader_of 101;
  ip_chain := [process 103; process 102; process 101] |}.
Definition reserved : SessionReservation := {| res_name := lit "helper"; res_pane := lit "%1" |}.

Lemma begun_spec : begun = (Ok (Some (Implicit proof_found), reserved), begun.2).
Proof. vm_compute. reflexivity. Qed.

(** Between the halves the parent is renamed and a reservation is made. *)
Definition meanwhile : list RegistryEvent := [RRename (lit "main") (lit "build"); RReserve None].
Definition then_state : SessionMaps * list SessionReservation :=
  default (SessionMaps_default, []) (registry_run simple_uuid show_uuid (begun.2, reserved :: before_create.2) meanwhile).
Definition finished := create_finish then_state.1 params (Some (Implicit proof_found)) reserved sys.

Lemma created_session_authorized_witness :
  (s ← heap finished.2 !! id_b; Some (se_parent_session s, se_leader s)) = Some (Some id_a, Some (leader_of 105)) ∧
  created params (Some (leader_of 103)) (live_session_leaders before_create.1) table reserved sys then_state.1
    finished.2 finished.1.
Proof.
  split; [vm_compute; reflexivity|].
  destruct (created_session_authorized simple_uuid simple_uuid_long show_uuid first_history before_create.1
    before_create.2 params (Some (leader_of 103)) table true (Some (Implicit proof_found)) reserved begun.2
    meanwhile then_state.1 then_state.2 1 sys finished.1 finished.2) as (_ & H & _).
  - exact table_ok.
  - vm_compute. reflexivity.
  - exact begun_spec.
  - vm_compute. reflexivity.
  - vm_compute. reflexivity.
  - vm_compute. reflexivity.
  - vm_compute. eexists. reflexivity.
  - apply surjective_pairing.
  - exact H.
Defined.

Lemma implicit_parent_is_nearest_leader_witness :
  let leaders := live_session_leaders before_create.1 in
  nearest_leader (leader_of 103) leaders table proof_found ∧
  resolve_peer_ancestry (leader_of 103) leaders (λ pid, if pid =? 102 then None else table pid) ≠ Selected proof_found.
Proof.
  cbn zeta.
  destruct (implicit_parent_is_nearest_leader (leader_of 103) (live_session_leaders before_create.1) table proof_found)
    as [Hiff Hlater].
  assert (resolve_peer_ancestry (leader_of 103) (live_session_leaders before_create.1) table = Selected proof_found)
    as Hsel by (vm_compute; reflexivity).
  split; [exact (proj1 Hiff Hsel)|]. intros H.
  pose proof (proj2 (Hlater table_ok Hsel (λ pid, if pid =? 102 then None else table pid)) H) as Hv.
  vm_compute in Hv. discriminate.
Defined.

Definition values : ServerValues := {|
  sv_session := lit "helper"; sv_pane := lit "%1"; sv_token := lit "secret"; sv_socket := lit "/run/s";
  sv_bin := lit "/bin/lterm"; sv_tmux := Some (lit "/run/t,1,0", lit "/shim:/bin") |}.
Definition shell_env : gmap (list Z) (list Z) :=
  match child_env (sys_base sys) (sys_vars sys) (np_env params) values with Ok cmd => cmd | Err _ => ∅ end.

Lemma child_env_isolated_witness :
  shell_env !! lit "TMUX" = Some (lit "/run/t,1,0") ∧ shell_env !! lit "Cmux_Surface_Id" = None ∧
  shell_env !! lit "EDITOR" = Some (lit "vi") ∧
  (∀ k, is_dangerous_env_key k = true → k ∉ server_keys values → shell_env !! k = sys_base sys !! k).
Proof.
  split; [vm_compute; reflexivity|]. split; [vm_compute; reflexivity|]. split; [vm_compute; reflexivity|].
  destruct (child_env_isolated (sys_base sys) (sys_vars sys) (np_env params) values shell_env) as (_ & _ & H & _).
  - intros k [x Hk] _. apply elem_of_map_to_list in Hk.
    assert (Forall (λ kv, kv.1 ∈ sys_vars sys) (map_to_list (sys_base sys))) as Hall by (apply (bool_decide_unpack _); vm_compute; exact I).
    rewrite Forall_forall in Hall. exact (Hall _ Hk).
  - vm_compute. reflexivity.
  - exact H.
Defined.
