(* ===== verification/ManagedArtifacts.v ===== *)
(** The private files of a managed launch ([ManagedArtifactBinding] in [launch_registry.rs]):
    what has been created under the control root, in which order, and how far its removal
    has come.

    The fields of the binding are grouped as the source compares them: what names the
    artifact, what has been made ([same_artifact] compares these two groups), and the progress
    of the socket's retirement and of the cleanup. *)
From S2P Require Import Prelude Utf8 Protocol Text.

Record ManagedDirectoryIdentity : Set := { md_boot : Uuid; md_dev : Z; md_ino : Z; md_mnt : Z }.
Record ManagedArtifactIdentity : Set := { ma_dev : Z; ma_ino : Z }.

#[export] Instance ManagedDirectoryIdentity_eq : EqDecision ManagedDirectoryIdentity.
Proof. solve_decision. Defined.
#[export] Instance ManagedArtifactIdentity_eq : EqDecision ManagedArtifactIdentity.
Proof. solve_decision. Defined.

Definition directory_identity_valid (d : ManagedDirectoryIdentity) : bool :=
  negb (is_nil (md_boot d)) && (negb (md_dev d =? 0) && negb (md_ino d =? 0)) && negb (md_mnt d =? 0).
Definition artifact_identity_valid (a : ManagedArtifactIdentity) : bool :=
  negb (ma_dev a =? 0) && negb (ma_ino a =? 0).

Inductive ManagedArtifactCleanupStep : Set := Ownership | Socket | Runner | Directory.

#[export] Instance ManagedArtifactCleanupStep_eq : EqDecision ManagedArtifactCleanupStep.
Proof. solve_decision. Defined.

Record ArtifactName : Set := {
  ab_nonce : Uuid; control_root : ManagedDirectoryIdentity; private_leaf : str }.

Record ArtifactMade : Set := {
  private_directory : option ManagedDirectoryIdentity;
  runner : option ManagedArtifactIdentity;
  socket : option ManagedArtifactIdentity;
  owner_file : option ManagedArtifactIdentity;
  runner_create_pending : bool;
  socket_create_pending : bool;
  owner_create_pending : bool;
}.

Record ArtifactCleanup : Set := {
  cleanup_quarantine : option str;
  cleanup_unlink_pending : option ManagedArtifactCleanupStep;
  socket_retire_pending : bool;
  socket_retired : bool;
  cleanup_ownership_removed : bool;
  cleanup_socket_removed : bool;
  cleanup_runner_removed : bool;
  cleanup_completed : bool;
}.

Record ManagedArtifactBinding : Set := {
  ab_name : ArtifactName; ab_made : ArtifactMade; ab_cleanup : ArtifactCleanup }.

#[export] Instance ArtifactName_eq : EqDecision ArtifactName.
Proof. solve_decision. Defined.
#[export] Instance ArtifactMade_eq : EqDecision ArtifactMade.
Proof. solve_decision. Defined.
#[export] Instance ArtifactCleanup_eq : EqDecision ArtifactCleanup.
Proof. solve_decision. Defined.
#[export] Instance ManagedArtifactBinding_eq : EqDecision ManagedArtifactBinding.
Proof. solve_decision. Defined.

Definition nothing_made : ArtifactMade := {|
  private_directory := None; runner := None; socket := None; owner_file := None;
  runner_create_pending := false; socket_create_pending := false; owner_create_pending := false |}.

Definition no_cleanup : ArtifactCleanup := {|
  cleanup_quarantine := None; cleanup_unlink_pending := None; socket_retire_pending := false;
  socket_retired := false; cleanup_ownership_removed := false; cleanup_socket_removed := false;
  cleanup_runner_removed := false; cleanup_completed := false |}.

Definition with_made (b : ManagedArtifactBinding) (made : ArtifactMade) : ManagedArtifactBinding := {|
  ab_name := ab_name b; ab_made := made; ab_cleanup := ab_cleanup b |}.
Definition with_cleanup (b : ManagedArtifactBinding) (c : ArtifactCleanup) : ManagedArtifactBinding := {|
  ab_name := ab_name b; ab_made := ab_made b; ab_cleanup := c |}.

Definition creation_pending (b : ManagedArtifactBinding) : bool :=
  runner_create_pending (ab_made b) || socket_create_pending (ab_made b) || owner_create_pending (ab_made b).

Definition step_removed (c : ArtifactCleanup) (step : ManagedArtifactCleanupStep) : bool :=
  match step with
  | Ownership => cleanup_ownership_removed c
  | Socket => cleanup_socket_removed c
  | Runner => cleanup_runner_removed c
  | Directory => cleanup_completed c
  end.

Definition cleanup_step_completed (b : ManagedArtifactBinding) (step : ManagedArtifactCleanupStep) : bool :=
  step_removed (ab_cleanup b) step.

Definition same_artifact (a b : ManagedArtifactBinding) : bool :=
  bool_decide (ab_name a = ab_name b) && bool_decide (ab_made a = ab_made b).

(** ** Creation *)

Inductive ManagedArtifactCreationPhase : Set :=
  | Reserved | DirectoryCreated | RunnerCreatePending | RunnerCreated
  | SocketCreatePending | SocketCreated | OwnerCreatePending | OwnerCreated.

#[export] Instance ManagedArtifactCreationPhase_eq : EqDecision ManagedArtifactCreationPhase.
Proof. solve_decision. Defined.

Definition creation_phase (b : ManagedArtifactBinding) : option ManagedArtifactCreationPhase :=
  let m := ab_made b in
  match is_some (private_directory m), is_some (runner m), is_some (socket m), is_some (owner_file m),
        runner_create_pending m, socket_create_pending m, owner_create_pending m with
  | false, false, false, false, false, false, false => Some Reserved
  | true, false, false, false, false, false, false => Some DirectoryCreated
  | true, false, false, false, true, false, false => Some RunnerCreatePending
  | true, true, false, false, false, false, false => Some RunnerCreated
  | true, true, false, false, false, true, false => Some SocketCreatePending
  | true, true, true, false, false, false, false => Some SocketCreated
  | true, true, true, false, false, false, true => Some OwnerCreatePending
  | true, true, true, true, false, false, false => Some OwnerCreated
  | _, _, _, _, _, _, _ => None
  end.

Definition creation_progresses_to (b next : ManagedArtifactBinding) : bool :=
  let same_directory := bool_decide (private_directory (ab_made b) = private_directory (ab_made next)) in
  let same_runner := bool_decide (runner (ab_made b) = runner (ab_made next)) in
  let same_socket := bool_decide (socket (ab_made b) = socket (ab_made next)) in
  match creation_phase b, creation_phase next with
  | Some Reserved, Some DirectoryCreated => true
  | Some DirectoryCreated, Some RunnerCreatePending => same_directory
  | Some RunnerCreatePending, Some RunnerCreated => same_directory
  | Some RunnerCreated, Some SocketCreatePending => same_directory && same_runner
  | Some SocketCreatePending, Some SocketCreated => same_directory && same_runner
  | Some SocketCreated, Some OwnerCreatePending => same_directory && same_runner && same_socket
  | Some OwnerCreatePending, Some OwnerCreated => same_directory && same_runner && same_socket
  | _, _ => false
  end.

(** ** Validity *)

(** The bytes ['/'] and NUL occur in UTF-8 only as themselves. *)
Definition validate_managed_artifact_leaf (leaf : str) : bool :=
  negb (bool_decide (leaf = [])) && (str_len leaf <=? 255)
  && negb (bool_decide (leaf = lit ".")) && negb (bool_decide (leaf = lit ".."))
  && negb (bool_decide (0x2f ∈ leaf)) && negb (bool_decide (0 ∈ leaf)).

(** The steps before a pending unlink are done, the step and those after it are not. *)
Definition unlink_in_order (c : ArtifactCleanup) (step : ManagedArtifactCleanupStep) : bool :=
  match step with
  | Ownership => negb (cleanup_ownership_removed c) && negb (cleanup_socket_removed c) && negb (cleanup_runner_removed c)
  | Socket => cleanup_ownership_removed c && negb (cleanup_socket_removed c) && negb (cleanup_runner_removed c)
  | Runner => cleanup_ownership_removed c && cleanup_socket_removed c && negb (cleanup_runner_removed c)
  | Directory => cleanup_ownership_removed c && cleanup_socket_removed c && cleanup_runner_removed c
                 && negb (cleanup_completed c)
  end.

(** The first checks of [validate]: what was made is there in its order. *)
Definition made_valid (b : ManagedArtifactBinding) : bool :=
  let m := ab_made b in
  is_none_or (private_directory m) directory_identity_valid
  && (negb (is_some (socket m)) || is_some (runner m))
  && (negb (is_some (runner m)) || is_some (private_directory m))
  && is_none_or (runner m) artifact_identity_valid
  && is_none_or (socket m) artifact_identity_valid
  && is_none_or (owner_file m) (λ identity, artifact_identity_valid identity && is_some (socket m))
  && is_some (creation_phase b).

(** The others: the cleanup goes in its order. *)
Definition cleanup_valid (b : ManagedArtifactBinding) : bool :=
  let m := ab_made b in
  let c := ab_cleanup b in
  is_none_or (cleanup_quarantine c)
    (λ q, validate_managed_artifact_leaf q && negb (bool_decide (q = private_leaf (ab_name b))))
  && (negb (cleanup_completed c) || is_some (cleanup_quarantine c))
  && (negb (socket_retire_pending c) || is_some (socket m) && negb (socket_retired c))
  && (negb (socket_retired c) || is_some (socket m) && negb (socket_retire_pending c))
  && (negb (cleanup_socket_removed c) || cleanup_ownership_removed c)
  && (negb (cleanup_runner_removed c) || cleanup_socket_removed c)
  && (negb (cleanup_completed c) || cleanup_runner_removed c)
  && is_none_or (cleanup_unlink_pending c) (λ step,
       is_some (cleanup_quarantine c) && negb (step_removed c step) && unlink_in_order c step).

Definition binding_valid (b : ManagedArtifactBinding) : bool :=
  negb (is_nil (ab_nonce (ab_name b)))
  && directory_identity_valid (control_root (ab_name b))
  && validate_managed_artifact_leaf (private_leaf (ab_name b))
  && made_valid b && cleanup_valid b.

(** [.{leaf}.cleanup-{nonce}]; the nonce in its simple form, 32 hexadecimal digits. *)
Definition hex_char (d : Z) : char := if d <? 10 then 0x30 + d else 0x57 + d.
Definition uuid_simple (u : Uuid) : str :=
  (λ i, hex_char (Z.land (Z.shiftr u (4 * (31 - Z.of_nat i))) 0xf)) <$> seq 0 32.

Definition quarantine_name (b : ManagedArtifactBinding) : str :=
  lit "." ++ private_leaf (ab_name b) ++ lit ".cleanup-" ++ uuid_simple (ab_nonce (ab_name b)).

(** ** Lemmas *)

Lemma same_artifact_refl b : same_artifact b b = true.
Proof. unfold same_artifact. by rewrite !bool_decide_true. Qed.

Lemma same_artifact_spec a b : same_artifact a b = true ↔ ab_name a = ab_name b ∧ ab_made a = ab_made b.
Proof. unfold same_artifact. by rewrite andb_true !bool_decide_eq_true. Qed.

Lemma quarantine_name_fresh b : quarantine_name b ≠ private_leaf (ab_name b).
Proof.
  intros H. apply (f_equal length) in H. unfold quarantine_name in H. rewrite !length_app in H. simpl in H. lia.
Qed.

(** A quarantine name made of plain characters is a leaf when the private leaf leaves room. *)
Lemma hex_char_plain d : 0 ≤ d < 16 → within 0x30 0x7a (hex_char d) = true.
Proof. intros Hd. unfold hex_char, within. destruct (d <? 10) eqn:E; lia. Qed.
