(* ===== verification/ManagedSlots.v ===== *)
(** The slots of the registry of managed processes ([SlotRecord], [validate_slot_record] and
    [validate_transition] in [launch_registry.rs]), with the relation that the table of
    transitions implements. *)
From S2P Require Import Prelude Utf8 Protocol Text ManagedArtifacts.

Definition SLOT_SCHEMA_VERSION : Z := 2.
Definition GATE_SCHEMA_VERSION : Z := 1.
Definition SLOT_COUNT : nat := 1024.
Definition TOMBSTONE_RETENTION : Z := 24 * 60 * 60.

(** [launch_registry::ProcessIdentity]. *)
Record ManagedIdentity : Set := { mi_boot : Uuid; mi_namespace : Z; mi_pid : Z; mi_start_ticks : Z }.

Inductive ManagedOwnerKind : Set := OwnerSpeculation.
Inductive ManagedOwnerRole : Set := RoleProbe | RoleRunner.

Record ManagedOwnerTag : Set := {
  ot_kind : ManagedOwnerKind; ot_tournament : Uuid; ot_candidate : Z; ot_role : ManagedOwnerRole }.

#[export] Instance ManagedIdentity_eq : EqDecision ManagedIdentity.
Proof. solve_decision. Defined.
#[export] Instance ManagedOwnerKind_eq : EqDecision ManagedOwnerKind.
Proof. solve_decision. Defined.
#[export] Instance ManagedOwnerRole_eq : EqDecision ManagedOwnerRole.
Proof. solve_decision. Defined.
#[export] Instance ManagedOwnerTag_eq : EqDecision ManagedOwnerTag.
Proof. solve_decision. Defined.

(** There is one kind of owner. *)
Definition owner_tag_valid (o : ManagedOwnerTag) : bool :=
  negb (is_nil (ot_tournament o)) && (ot_candidate o <? 2).

Inductive SlotState : Set :=
  | Vacant
  | IntentDurable (nonce : Uuid) (created_unix_secs : Z)
  | IdentityDurable (nonce : Uuid) (identity : ManagedIdentity) (release_may_have_occurred : bool)
  | CleanupPending (nonce : Uuid) (identity : ManagedIdentity) (release_may_have_occurred : bool)
  | ResolvedTombstone (nonce : Uuid) (identity : option ManagedIdentity) (resolved_unix_secs : Z).

Record SlotRecord : Set := {
  sl_schema : Z;
  sl_slot : Z;
  sl_generation : Z;
  sl_owner : option ManagedOwnerTag;
  sl_binding : option ManagedArtifactBinding;
  sl_state : SlotState;
}.

#[export] Instance SlotState_eq : EqDecision SlotState.
Proof. solve_decision. Defined.
#[export] Instance SlotRecord_eq : EqDecision SlotRecord.
Proof. solve_decision. Defined.

Definition with_binding (r : SlotRecord) (b : option ManagedArtifactBinding) : SlotRecord := {|
  sl_schema := sl_schema r; sl_slot := sl_slot r; sl_generation := sl_generation r; sl_owner := sl_owner r;
  sl_binding := b; sl_state := sl_state r |}.
Definition with_state (r : SlotRecord) (s : SlotState) : SlotRecord := {|
  sl_schema := sl_schema r; sl_slot := sl_slot r; sl_generation := sl_generation r; sl_owner := sl_owner r;
  sl_binding := sl_binding r; sl_state := s |}.

Definition state_nonce (s : SlotState) : option Uuid :=
  match s with
  | Vacant => None
  | IntentDurable n _ | IdentityDurable n _ _ | CleanupPending n _ _ | ResolvedTombstone n _ _ => Some n
  end.

Definition is_intent (s : SlotState) : bool := match s with IntentDurable _ _ => true | _ => false end.
Definition is_tombstone (s : SlotState) : bool := match s with ResolvedTombstone _ _ _ => true | _ => false end.
Definition is_vacant_state (s : SlotState) : bool := match s with Vacant => true | _ => false end.
Definition is_identity (s : SlotState) : bool := match s with IdentityDurable _ _ _ => true | _ => false end.

(** The binding of a valid slot. *)
Definition slot_binding_valid (r : SlotRecord) (b : ManagedArtifactBinding) : bool :=
  binding_valid b && is_some (sl_owner r)
  && bool_decide (state_nonce (sl_state r) = Some (ab_nonce (ab_name b)))
  && (negb (is_some (cleanup_quarantine (ab_cleanup b))) || is_tombstone (sl_state r)).

Definition validate_slot_record (r : SlotRecord) (expected_slot : Z) : bool :=
  (sl_schema r =? SLOT_SCHEMA_VERSION) && (sl_slot r =? expected_slot)
  && is_none_or (sl_owner r) owner_tag_valid
  && is_none_or (sl_binding r) (slot_binding_valid r)
  && match state_nonce (sl_state r) with
     | None => negb (is_some (sl_owner r)) && negb (is_some (sl_binding r))
     | Some nonce => negb (is_nil nonce)
     end.

(** ** The table of transitions *)

Definition cleanup_untouched (c : ArtifactCleanup) : bool :=
  negb (cleanup_ownership_removed c) && negb (cleanup_socket_removed c) && negb (cleanup_runner_removed c)
  && negb (cleanup_completed c).

Definition same_removed (before after : ArtifactCleanup) : bool :=
  bool_decide (cleanup_ownership_removed before = cleanup_ownership_removed after)
  && bool_decide (cleanup_socket_removed before = cleanup_socket_removed after)
  && bool_decide (cleanup_runner_removed before = cleanup_runner_removed after).

Definition all_removed (c : ArtifactCleanup) : bool :=
  cleanup_ownership_removed c && cleanup_socket_removed c && cleanup_runner_removed c.

Section binding_transitions.
Context (st : SlotState) (b b' : ManagedArtifactBinding).
Let c := ab_cleanup b.
Let c' := ab_cleanup b'.

Definition creation_progress : bool :=
  is_intent st && negb (is_some (cleanup_quarantine c)) && negb (is_some (cleanup_quarantine c'))
  && negb (is_some (cleanup_unlink_pending c)) && negb (is_some (cleanup_unlink_pending c'))
  && cleanup_untouched c && cleanup_untouched c'
  && negb (socket_retire_pending c) && negb (socket_retire_pending c')
  && negb (socket_retired c) && negb (socket_retired c')
  && creation_progresses_to b b'.

Definition retire_unchanged : bool :=
  bool_decide (cleanup_unlink_pending c = cleanup_unlink_pending c') && same_removed c c'
  && bool_decide (cleanup_completed c = cleanup_completed c').

Definition socket_retire_intent : bool :=
  same_artifact b b' && negb (is_some (cleanup_quarantine c)) && negb (is_some (cleanup_quarantine c'))
  && negb (socket_retire_pending c) && socket_retire_pending c'
  && negb (socket_retired c) && negb (socket_retired c') && retire_unchanged.

Definition socket_retire_receipt : bool :=
  same_artifact b b' && negb (is_some (cleanup_quarantine c)) && negb (is_some (cleanup_quarantine c'))
  && socket_retire_pending c && negb (socket_retire_pending c')
  && negb (socket_retired c) && socket_retired c' && retire_unchanged.

Definition socket_retirement_unchanged : bool :=
  bool_decide (socket_retire_pending c = socket_retire_pending c')
  && bool_decide (socket_retired c = socket_retired c').

(** The source compares the fields of what was made one by one. *)
Definition cleanup_progress : bool :=
  is_tombstone st && bool_decide (ab_made b = ab_made b')
  && negb (is_some (cleanup_quarantine c)) && is_some (cleanup_quarantine c')
  && negb (is_some (cleanup_unlink_pending c)) && negb (is_some (cleanup_unlink_pending c'))
  && cleanup_untouched c && cleanup_untouched c'.

Definition same_quarantine : bool :=
  bool_decide (cleanup_quarantine c = cleanup_quarantine c') && is_some (cleanup_quarantine c).

Definition cleanup_step_intent : bool :=
  is_tombstone st && same_artifact b b' && same_quarantine
  && negb (cleanup_completed c) && negb (cleanup_completed c')
  && negb (is_some (cleanup_unlink_pending c)) && is_some (cleanup_unlink_pending c')
  && same_removed c c'.

Definition receipt_table : bool :=
  match cleanup_unlink_pending c,
        cleanup_ownership_removed c, cleanup_socket_removed c, cleanup_runner_removed c,
        cleanup_ownership_removed c', cleanup_socket_removed c', cleanup_runner_removed c' with
  | Some Ownership, false, false, false, true, false, false => true
  | Some Socket, true, false, false, true, true, false => true
  | Some Runner, true, true, false, true, true, true => true
  | _, _, _, _, _, _, _ => false
  end.

Definition cleanup_step_receipt : bool :=
  is_tombstone st && same_artifact b b' && same_quarantine
  && negb (cleanup_completed c) && negb (cleanup_completed c')
  && is_some (cleanup_unlink_pending c) && negb (is_some (cleanup_unlink_pending c'))
  && receipt_table.

Definition cleanup_completion : bool :=
  is_tombstone st && same_artifact b b' && same_quarantine && all_removed c && all_removed c'
  && bool_decide (cleanup_unlink_pending c = Some Directory) && negb (is_some (cleanup_unlink_pending c'))
  && negb (cleanup_completed c) && cleanup_completed c'.

Definition logical_absence_completion : bool :=
  is_tombstone st && same_artifact b b' && same_quarantine
  && negb (is_some (cleanup_unlink_pending c)) && cleanup_untouched c
  && negb (is_some (cleanup_unlink_pending c')) && all_removed c' && cleanup_completed c'.

Definition old_boot_logical_absence_completion : bool :=
  is_tombstone st && same_artifact b b' && is_some (cleanup_quarantine c')
  && negb (is_some (cleanup_unlink_pending c')) && negb (socket_retire_pending c')
  && bool_decide (socket_retired c' = socket_retired c || is_some (socket (ab_made b)))
  && all_removed c' && negb (cleanup_completed c) && cleanup_completed c'.

Definition binding_changes : bool :=
  bool_decide (ab_name b = ab_name b')
  && (creation_progress || socket_retire_intent || socket_retire_receipt || old_boot_logical_absence_completion
      || socket_retirement_unchanged
         && (cleanup_progress || cleanup_step_intent || cleanup_step_receipt || cleanup_completion
             || logical_absence_completion)).
End binding_transitions.

Definition binding_update (current next : SlotRecord) : bool :=
  bool_decide (with_binding current (sl_binding next) = next)
  && match sl_binding current, sl_binding next with
     | None, Some _ => is_intent (sl_state current)
     | Some before, Some after => binding_changes (sl_state current) before after
     | Some before, None =>
       is_tombstone (sl_state current) && is_some (cleanup_quarantine (ab_cleanup before))
       && cleanup_completed (ab_cleanup before)
     | None, None => false
     end.

Definition same_nonce (current next : SlotRecord) (a b : Uuid) : bool :=
  (sl_generation current =? sl_generation next) && (a =? b).

Definition legal_states (current next : SlotRecord) : bool :=
  match sl_state current, sl_state next with
  | Vacant, IntentDurable _ _ =>
    is_some_and (checked_add u64_max (sl_generation current) 1) (λ g, g =? sl_generation next)
  | IntentDurable a _, IdentityDurable b _ _
  | IdentityDurable a _ _, CleanupPending b _ _
  | CleanupPending a _ _, ResolvedTombstone b _ _
  | IntentDurable a _, ResolvedTombstone b _ _ => same_nonce current next a b
  | ResolvedTombstone _ _ _, Vacant =>
    (sl_generation current =? sl_generation next) && negb (is_some (sl_binding current))
    && negb (is_some (sl_owner next)) && negb (is_some (sl_binding next))
  | _, _ => bool_decide (current = next)
  end.

Definition owner_stable (current next : SlotRecord) : bool :=
  match sl_state current, sl_state next with
  | Vacant, IntentDurable _ _ => is_none_or (sl_owner next) owner_tag_valid
  | ResolvedTombstone _ _ _, Vacant => negb (is_some (sl_owner next))
  | _, _ => bool_decide (sl_owner current = sl_owner next)
  end.

Definition validate_transition (current next : SlotRecord) : bool :=
  (sl_schema current =? SLOT_SCHEMA_VERSION) && (sl_schema next =? SLOT_SCHEMA_VERSION)
  && (sl_slot current =? sl_slot next)
  && owner_stable current next
  && (binding_update current next || bool_decide (sl_binding current = sl_binding next))
  && (binding_update current next || legal_states current next).

(** ** Progress *)

(** Where a binding stands: its creation, the retirement of the socket and the cleanup only
    go forward. *)
Definition phase_rank (p : option ManagedArtifactCreationPhase) : Z :=
  match p with
  | None | Some Reserved => 0 | Some DirectoryCreated => 1 | Some RunnerCreatePending => 2 | Some RunnerCreated => 3
  | Some SocketCreatePending => 4 | Some SocketCreated => 5 | Some OwnerCreatePending => 6 | Some OwnerCreated => 7
  end.

Definition weight (k : Z) (flag : bool) : Z := if flag then k else 0.

Definition cleanup_rank (c : ArtifactCleanup) : Z :=
  weight 1 (socket_retire_pending c) + weight 2 (socket_retired c) + weight 1 (is_some (cleanup_quarantine c))
  + weight 1 (is_some (cleanup_unlink_pending c)) + weight 2 (cleanup_ownership_removed c)
  + weight 2 (cleanup_socket_removed c) + weight 2 (cleanup_runner_removed c) + weight 5 (cleanup_completed c).

Definition binding_rank (b : ManagedArtifactBinding) : Z := 1 + phase_rank (creation_phase b) + cleanup_rank (ab_cleanup b).

(** A binding that is gone was removed when the process is resolved, and never there before. *)
Definition slot_binding_rank (r : SlotRecord) : Z :=
  match sl_binding r with
  | Some b => binding_rank b
  | None => if is_tombstone (sl_state r) || is_vacant_state (sl_state r) then 25 else 0
  end.

Definition state_rank (s : SlotState) : Z :=
  match s with
  | IntentDurable _ _ => 0 | IdentityDurable _ _ _ => 1 | CleanupPending _ _ _ => 2 | ResolvedTombstone _ _ _ => 3 | Vacant => 4
  end.

Definition slot_rank (r : SlotRecord) : Z := 32 * sl_generation r + state_rank (sl_state r) + slot_binding_rank r.

Lemma cleanup_rank_bounds c : 0 ≤ cleanup_rank c ≤ 16.
Proof.
  unfold cleanup_rank, weight. destruct c as [q u rp rt o s r d]; cbn.
  destruct q, u, rp, rt, o, s, r, d; cbn; lia.
Qed.

Lemma binding_rank_bounds b : 1 ≤ binding_rank b ≤ 24.
Proof.
  unfold binding_rank. pose proof (cleanup_rank_bounds (ab_cleanup b)).
  assert (0 ≤ phase_rank (creation_phase b) ≤ 7) by (destruct (creation_phase b) as [[]|]; cbn; lia). lia.
Qed.

Lemma same_artifact_phase b b' : same_artifact b b' = true → creation_phase b = creation_phase b'.
Proof. rewrite same_artifact_spec. intros [_ Hm]. unfold creation_phase. by rewrite Hm. Qed.

Lemma creation_progresses_rank b b' :
  creation_progresses_to b b' = true → phase_rank (creation_phase b) < phase_rank (creation_phase b').
Proof. unfold creation_progresses_to. destruct (creation_phase b) as [[]|], (creation_phase b') as [[]|]; cbn; try done; lia. Qed.

(** Solves a comparison of ranks from equations on the flags. *)
Ltac solve_rank :=
  unfold binding_rank, cleanup_rank, weight;
  repeat match goal with H : _ = true |- _ => progress rewrite ?H | H : _ = false |- _ => progress rewrite ?H end;
  repeat match goal with |- context [if ?b then _ else _] => destruct b eqn:? end;
  simplify_eq; try lia.

Lemma removed_same c c' :
  same_removed c c' = true →
  cleanup_ownership_removed c = cleanup_ownership_removed c' ∧ cleanup_socket_removed c = cleanup_socket_removed c' ∧
  cleanup_runner_removed c = cleanup_runner_removed c'.
Proof. unfold same_removed. intros H. inv_ok. done. Qed.

Section binding_rank.
Context (st : SlotState) (b b' : ManagedArtifactBinding).

Lemma creation_progress_rank : creation_progress st b b' = true → binding_rank b < binding_rank b'.
Proof.
  unfold creation_progress, cleanup_untouched. intros H. inv_ok.
  match goal with H : creation_progresses_to _ _ = true |- _ => apply creation_progresses_rank in H end. solve_rank.
Qed.

Lemma retire_intent_rank : socket_retire_intent b b' = true → binding_rank b < binding_rank b'.
Proof.
  unfold socket_retire_intent, retire_unchanged. intros H. inv_ok.
  match goal with H : same_removed _ _ = true |- _ => apply removed_same in H as (Ho & Hs & Hr) end.
  match goal with H : same_artifact _ _ = true |- _ => apply same_artifact_phase in H as Hph end.
  unfold binding_rank, cleanup_rank. rewrite Hph Ho Hs Hr.
  repeat match goal with H : _ = cleanup_unlink_pending _ |- _ => rewrite H; clear H | H : _ = cleanup_completed _ |- _ => rewrite H; clear H end.
  solve_rank.
Qed.

Lemma retire_receipt_rank : socket_retire_receipt b b' = true → binding_rank b < binding_rank b'.
Proof.
  unfold socket_retire_receipt, retire_unchanged. intros H. inv_ok.
  match goal with H : same_removed _ _ = true |- _ => apply removed_same in H as (Ho & Hs & Hr) end.
  match goal with H : same_artifact _ _ = true |- _ => apply same_artifact_phase in H as Hph end.
  unfold binding_rank, cleanup_rank. rewrite Hph Ho Hs Hr.
  repeat match goal with H : _ = cleanup_unlink_pending _ |- _ => rewrite H; clear H | H : _ = cleanup_completed _ |- _ => rewrite H; clear H end.
  solve_rank.
Qed.

Lemma unchanged_retirement :
  socket_retirement_unchanged b b' = true →
  socket_retire_pending (ab_cleanup b) = socket_retire_pending (ab_cleanup b') ∧
  socket_retired (ab_cleanup b) = socket_retired (ab_cleanup b').
Proof. unfold socket_retirement_unchanged. intros H. inv_ok. done. Qed.

Lemma cleanup_progress_rank :
  socket_retirement_unchanged b b' = true → cleanup_progress st b b' = true → binding_rank b < binding_rank b'.
Proof.
  intros [Hp Hr]%unchanged_retirement. unfold cleanup_progress, cleanup_untouched. intros H. inv_ok.
  assert (creation_phase b = creation_phase b') as Hph.
  { unfold creation_phase. match goal with H : ab_made b = _ |- _ => by rewrite H end. }
  unfold binding_rank, cleanup_rank. rewrite Hph Hp Hr. solve_rank.
Qed.

Lemma step_intent_rank :
  socket_retirement_unchanged b b' = true → cleanup_step_intent st b b' = true → binding_rank b < binding_rank b'.
Proof.
  intros [Hp Hr]%unchanged_retirement. unfold cleanup_step_intent, same_quarantine. intros H. inv_ok.
  match goal with H : same_removed _ _ = true |- _ => apply removed_same in H as (Ho & Hs & Hn) end.
  match goal with H : same_artifact _ _ = true |- _ => apply same_artifact_phase in H as Hph end.
  match goal with H : cleanup_quarantine _ = _ |- _ => rename H into Hq end.
  unfold binding_rank, cleanup_rank. rewrite Hph Hp Hr Ho Hs Hn Hq. solve_rank.
Qed.

Lemma step_receipt_rank :
  socket_retirement_unchanged b b' = true → cleanup_step_receipt st b b' = true → binding_rank b < binding_rank b'.
Proof.
  intros [Hp Hr]%unchanged_retirement. unfold cleanup_step_receipt, same_quarantine. intros H. inv_ok.
  match goal with H : same_artifact _ _ = true |- _ => apply same_artifact_phase in H as Hph end.
  match goal with H : cleanup_quarantine _ = _ |- _ => rename H into Hq end.
  match goal with H : receipt_table _ _ = true |- _ => rename H into Ht end.
  unfold binding_rank, cleanup_rank, weight. rewrite Hph Hp Hr Hq. unfold receipt_table in Ht.
  destruct (cleanup_unlink_pending (ab_cleanup b)) as [[]|], (cleanup_ownership_removed (ab_cleanup b)),
    (cleanup_socket_removed (ab_cleanup b)), (cleanup_runner_removed (ab_cleanup b)),
    (cleanup_ownership_removed (ab_cleanup b')), (cleanup_socket_removed (ab_cleanup b')),
    (cleanup_runner_removed (ab_cleanup b')); try discriminate Ht; solve_rank.
Qed.

Lemma completion_rank :
  socket_retirement_unchanged b b' = true → cleanup_completion st b b' = true → binding_rank b < binding_rank b'.
Proof.
  intros [Hp Hr]%unchanged_retirement. unfold cleanup_completion, same_quarantine, all_removed. intros H. inv_ok.
  match goal with H : same_artifact _ _ = true |- _ => apply same_artifact_phase in H as Hph end.
  match goal with H : cleanup_quarantine _ = cleanup_quarantine _ |- _ => rename H into Hq end.
  match goal with H : cleanup_unlink_pending _ = _ |- _ => rename H into Hu end.
  unfold binding_rank, cleanup_rank. rewrite Hph Hp Hr Hq Hu. solve_rank.
Qed.

Lemma logical_absence_rank :
  socket_retirement_unchanged b b' = true → logical_absence_completion st b b' = true → binding_rank b < binding_rank b'.
Proof.
  intros [Hp Hr]%unchanged_retirement.
  unfold logical_absence_completion, same_quarantine, all_removed, cleanup_untouched. intros H. inv_ok.
  match goal with H : same_artifact _ _ = true |- _ => apply same_artifact_phase in H as Hph end.
  match goal with H : cleanup_quarantine _ = cleanup_quarantine _ |- _ => rename H into Hq end.
  unfold binding_rank, cleanup_rank. rewrite Hph Hp Hr Hq. solve_rank.
Qed.

Lemma old_boot_rank : old_boot_logical_absence_completion st b b' = true → binding_rank b < binding_rank b'.
Proof.
  unfold old_boot_logical_absence_completion, all_removed. intros H. inv_ok.
  match goal with H : same_artifact _ _ = true |- _ => apply same_artifact_phase in H as Hph end.
  unfold binding_rank, cleanup_rank, weight. rewrite Hph.
  match goal with H : socket_retired _ = _ |- _ => rename H into Hr; rewrite Hr end.
  solve_rank; destruct (socket_retired (ab_cleanup b)); simplify_eq/=; lia.
Qed.

Lemma binding_changes_rank : binding_changes st b b' = true → binding_rank b < binding_rank b'.
Proof.
  unfold binding_changes. intros [_ H]%andb_true.
  repeat (apply orb_true_iff in H as [H|H]).
  - by apply creation_progress_rank.
  - by apply retire_intent_rank.
  - by apply retire_receipt_rank.
  - by apply old_boot_rank.
  - apply andb_true in H as [Hu H]. repeat (apply orb_true_iff in H as [H|H]).
    + by apply cleanup_progress_rank.
    + by apply step_intent_rank.
    + by apply step_receipt_rank.
    + by apply completion_rank.
    + by apply logical_absence_rank.
Qed.
End binding_rank.

Lemma binding_update_spec current next :
  binding_update current next = true →
  next = with_binding current (sl_binding next) ∧
  match sl_binding current, sl_binding next with
  | None, Some _ => is_intent (sl_state current) = true
  | Some before, Some after => binding_changes (sl_state current) before after = true
  | Some before, None => is_tombstone (sl_state current) = true ∧ is_Some (cleanup_quarantine (ab_cleanup before)) ∧
                         cleanup_completed (ab_cleanup before) = true
  | None, None => False
  end.
Proof.
  unfold binding_update. intros H. inv_ok. split; [done|].
  destruct (sl_binding current) as [b|], (sl_binding next) as [b'|]; try done. inv_ok.
  split; [done|]. split; [|done]. by destruct (cleanup_quarantine _).
Qed.

(** The transitions of the table, one by one. *)
Inductive slot_step (current next : SlotRecord) : Prop :=
  | StepSame : next = current → slot_step current next
  | StepBinding b : next = with_binding current b → binding_update current next = true → slot_step current next
  | StepIntent n t : sl_state current = Vacant → sl_state next = IntentDurable n t →
      sl_generation next = sl_generation current + 1 → sl_generation next ≤ u64_max →
      sl_binding next = sl_binding current → is_none_or (sl_owner next) owner_tag_valid = true → slot_step current next
  | StepIdentity n t i rel : sl_state current = IntentDurable n t → next = with_state current (IdentityDurable n i rel) →
      slot_step current next
  | StepCleanup n i rel i' rel' : sl_state current = IdentityDurable n i rel →
      next = with_state current (CleanupPending n i' rel') → slot_step current next
  | StepResolved n i rel i' t : sl_state current = CleanupPending n i rel →
      next = with_state current (ResolvedTombstone n i' t) → slot_step current next
  | StepUnspawned n t i' t' : sl_state current = IntentDurable n t →
      next = with_state current (ResolvedTombstone n i' t') → slot_step current next
  | StepVacant n i t : sl_state current = ResolvedTombstone n i t → sl_state next = Vacant →
      sl_generation next = sl_generation current → sl_binding current = None → sl_binding next = None →
      sl_owner next = None → slot_step current next.

Lemma with_state_eq current next s :
  sl_state next = s → sl_schema current = sl_schema next → sl_slot current = sl_slot next →
  sl_generation current = sl_generation next → sl_owner current = sl_owner next →
  sl_binding current = sl_binding next → next = with_state current s.
Proof. destruct current, next. cbn. intros. by subst. Qed.

Lemma validate_transition_step current next :
  validate_transition current next = true ↔
  sl_schema current = SLOT_SCHEMA_VERSION ∧ sl_schema next = SLOT_SCHEMA_VERSION ∧ sl_slot current = sl_slot next ∧
  slot_step current next.
Proof.
  unfold validate_transition. split.
  - intros H. inv_ok. do 3 (split; [lia|]).
    destruct (binding_update current next) eqn:Hb.
    { destruct (binding_update_spec _ _ Hb) as [Hn _]. by eapply StepBinding. }
    cbn [orb] in *. inv_ok. unfold owner_stable, legal_states, same_nonce in *.
    destruct (sl_state current) as [|n t|n i rel|n i rel|n i t] eqn:Hc, (sl_state next) as [|n' t'|n' i' rel'|n' i' rel'|n' i' t'] eqn:Hn;
      inv_ok; try (by eapply StepSame).
    + destruct (checked_add _ _ _) eqn:Hg; [|done]. apply checked_add_Some in Hg as [-> ?]. simpl in *.
      eapply StepIntent; [done..|lia|lia|done|done].
    + assert (n' = n) as -> by lia. eapply StepIdentity; [done|]. apply with_state_eq; done || lia.
    + assert (n' = n) as -> by lia. eapply StepUnspawned; [done|]. apply with_state_eq; done || lia.
    + assert (n' = n) as -> by lia. eapply StepCleanup; [done|]. apply with_state_eq; done || lia.
    + assert (n' = n) as -> by lia. eapply StepResolved; [done|]. apply with_state_eq; done || lia.
    + eapply StepVacant; try done; [lia|by destruct (sl_binding current)|by destruct (sl_binding next)|by destruct (sl_owner next)].
  - intros (Hs & Hs' & Hslot & Hstep). rewrite (proj2 (Z.eqb_eq _ _) Hs) (proj2 (Z.eqb_eq _ _) Hs') (proj2 (Z.eqb_eq _ _) Hslot).
    cbn [andb]. unfold owner_stable, legal_states, same_nonce.
    destruct Hstep as [->|b -> Hb|n t Hc Hn Hg Hmax Hbind Ho|n t i rel Hc ->|n i rel i' rel' Hc ->|n i rel i' t Hc ->
      |n t i' t' Hc ->|n i t Hc Hn Hg Hb1 Hb2 Ho].
    + rewrite !(bool_decide_true (_ = _)) // orb_true_r. destruct (sl_state current); try done; by rewrite orb_true_r.
    + rewrite Hb. cbn [with_binding sl_state sl_owner orb andb]. rewrite bool_decide_true // andb_true_r.
      by destruct (sl_state current).
    + rewrite Hc Hn Ho (bool_decide_true (_ = _)) // orb_true_r (proj2 (checked_add_Some _ _ _ (sl_generation next))); [|lia].
      cbn. by rewrite Z.eqb_refl orb_true_r.
    + rewrite Hc. cbn [with_state sl_state sl_owner sl_binding sl_generation].
      by rewrite !(bool_decide_true (_ = _)) // !Z.eqb_refl !orb_true_r.
    + rewrite Hc. cbn [with_state sl_state sl_owner sl_binding sl_generation].
      by rewrite !(bool_decide_true (_ = _)) // !Z.eqb_refl !orb_true_r.
    + rewrite Hc. cbn [with_state sl_state sl_owner sl_binding sl_generation].
      by rewrite !(bool_decide_true (_ = _)) // !Z.eqb_refl !orb_true_r.
    + rewrite Hc. cbn [with_state sl_state sl_owner sl_binding sl_generation].
      by rewrite !(bool_decide_true (_ = _)) // !Z.eqb_refl !orb_true_r.
    + rewrite Hc Hn Hg Hb1 Hb2 Ho Z.eqb_refl. cbn. by rewrite !orb_true_r.
Qed.

Lemma slot_step_rank current next : slot_step current next → next = current ∨ slot_rank current < slot_rank next.
Proof.
  assert (∀ b, sl_binding current = Some b → 1 ≤ binding_rank b ≤ 24) as Hb by (intros b _; apply binding_rank_bounds).
  unfold slot_rank, slot_binding_rank.
  destruct 1 as [->|b -> Hu|n t Hc Hn Hg Hmax Hbind Ho|n t i rel Hc ->|n i rel i' rel' Hc ->|n i rel i' t Hc ->
      |n t i' t' Hc ->|n i t Hc Hn Hg Hb1 Hb2 Ho]; [by left|right..].
  - apply binding_update_spec in Hu as [_ Hu]. cbn in Hu |- *.
    destruct (sl_binding current) as [b0|], b as [b1|]; [|..|done].
    + apply binding_changes_rank in Hu. lia.
    + destruct Hu as (Ht & _). rewrite Ht. specialize (Hb b0 eq_refl). cbn. lia.
    + rewrite (_ : is_tombstone _ || is_vacant_state _ = false); [|by destruct (sl_state current)].
      pose proof (binding_rank_bounds b1). lia.
  - rewrite Hc Hn Hg Hbind. cbn. destruct (sl_binding current); lia.
  - rewrite Hc. cbn. destruct (sl_binding current); lia.
  - rewrite Hc. cbn. destruct (sl_binding current); lia.
  - rewrite Hc. cbn. destruct (sl_binding current); lia.
  - rewrite Hc. cbn. destruct (sl_binding current); lia.
  - rewrite Hc Hn Hg Hb1 Hb2. cbn. lia.
Qed.

Lemma slot_rank_bounds r : 32 * sl_generation r ≤ slot_rank r ≤ 32 * sl_generation r + 29.
Proof.
  unfold slot_rank, slot_binding_rank. assert (0 ≤ state_rank (sl_state r) ≤ 4) by (destruct (sl_state r); cbn; lia).
  destruct (sl_binding r) as [b|]; [pose proof (binding_rank_bounds b); lia|]. destruct (is_tombstone _ || _); lia.
Qed.
