(* ===== verification/ManagedRegistry.v ===== *)
(** The operations of the registry of managed processes ([Registry], [ManagedLaunchReservation]
    and the process evidence of [launch_registry.rs]).

    The durable slots and gate registrations are maps.  What the system answers is a function
    of the time at which it is asked, and each call takes one unit of time: whether a lock is
    free, a file readable, a write kept, and what is seen of a process.  A crash leaves the
    same slots as a write that is not kept.  Every call holds the lock of the registry, except
    for the reads of the reconciliations; the writes of a launch reservation go without it, as
    in the source, and compare the slot with the record they hold. *)
From stdpp Require Import gmap.
From S2P Require Import Prelude Utf8 Protocol Text ManagedArtifacts ManagedSlots.

Inductive Evidence (A : Type) : Type := Present (a : A) | Absent | Unavailable.
Arguments Present {A} a.
Arguments Absent {A}.
Arguments Unavailable {A}.

Record GateRegistration : Set := {
  gr_slot : Z; gr_generation : Z; gr_nonce : Uuid; gr_identity : ManagedIdentity }.

#[export] Instance GateRegistration_eq : EqDecision GateRegistration.
Proof. solve_decision. Defined.

Record RegistrationRecord : Set := { rr_slot : Z; rr_generation : Z; rr_registration : option GateRegistration }.

#[export] Instance RegistrationRecord_eq : EqDecision RegistrationRecord.
Proof. solve_decision. Defined.

Inductive WriteAnswer : Set :=
  | Written
  | NotWritten                 (* an error before the rename *)
  | WrittenUnsynced.           (* the rename was done, the directory's sync failed *)

Record Env : Type := {
  env_lock : nat → bool;
  env_guard : nat → Z → bool;
  env_readable : nat → bool;
  env_write : nat → WriteAnswer;
  env_boot : nat → Evidence Uuid;
  env_namespace : nat → Z → Evidence Z;
  env_ticks : nat → Z → Evidence Z;
  env_pidfd : nat → Z → Evidence unit;
  env_signal : nat → bool;
  env_wait : nat → bool;
  env_clock : nat → option Z;
  env_uuid : nat → Uuid;
}.

Inductive Event : Set :=
  | LogWrite (r : SlotRecord)                      (* a slot file was replaced *)
  | LogSignal (opened : nat) (identity : ManagedIdentity).   (* SIGKILL to the descriptor opened then *)

Record World : Set := {
  w_slots : gmap Z SlotRecord;
  w_registrations : gmap Z RegistrationRecord;
  w_time : nat;
  w_log : list (nat * Event);
}.

Inductive ManagedError : Set :=
  | RegistryBusy | UnknownOrphanRisk | GenerationConflict | StateConflict | IllegalTransition
  | WriteError | ReadbackMismatch | Refused | EvidenceMissing | SignalError | WaitTimeout
  | OwnerExists | CapacityExhausted | GenerationExhausted | GuardBusy | ClockError.

Inductive ManagedReconcileCode : Set :=
  | InvalidIntentState | BusyGuardIdentityAbsent | RegistrationUnavailable | ProcessStillLive
  | ProcessEvidenceUnavailable | ReconciliationFailed | UnknownSlot | DuplicateOwner.

Inductive ReconcileOutcome : Set :=
  | OutcomeAbsent | OutcomeLive | OutcomeUnknown (code : ManagedReconcileCode) | OutcomeTombstone.

Record ManagedKey : Set := { mk_slot : Z; mk_generation : Z }.

#[export] Instance ManagedReconcileCode_eq : EqDecision ManagedReconcileCode.
Proof. solve_decision. Defined.
#[export] Instance ReconcileOutcome_eq : EqDecision ReconcileOutcome.
Proof. solve_decision. Defined.
#[export] Instance ManagedKey_eq : EqDecision ManagedKey.
Proof. solve_decision. Defined.

Section registry.
Context (env : Env) (slot_count : nat).

Abbreviation R A := (M World ManagedError A) (only parsing).

(** ** Calls of the system *)

Definition ask {A} (answer : nat → A) : R A := λ w,
  (Ok (answer (w_time w)),
   {| w_slots := w_slots w; w_registrations := w_registrations w; w_time := S (w_time w); w_log := w_log w |}).

Definition log (e : Event) : R unit := λ w,
  (Ok tt, {| w_slots := w_slots w; w_registrations := w_registrations w; w_time := w_time w;
             w_log := w_log w ++ [(w_time w, e)] |}).

Definition guard_or (c : bool) (e : ManagedError) : R unit := if c then mret tt else throw e.

Definition try_acquire : R unit := ok ← ask (env_lock env); guard_or ok RegistryBusy.

(** [atomic_replace_json] of a slot and of a registration. *)
Definition set_slot (r : SlotRecord) : R unit := λ w,
  (Ok tt, {| w_slots := <[sl_slot r := r]> (w_slots w); w_registrations := w_registrations w; w_time := w_time w;
             w_log := w_log w ++ [(w_time w, LogWrite r)] |}).

Definition set_registration (slot : Z) (r : RegistrationRecord) : R unit := λ w,
  (Ok tt, {| w_slots := w_slots w; w_registrations := <[slot := r]> (w_registrations w); w_time := w_time w;
             w_log := w_log w |}).

Definition keeping (write : R unit) : R unit :=
  answer ← ask (env_write env);
  match answer with
  | Written => write
  | NotWritten => throw WriteError
  | WrittenUnsynced => write ;; throw WriteError
  end.

(** ** Slots *)

(** [None] is [SlotRead::Unknown]. *)
Definition read_slot (slot : Z) : R (option SlotRecord) :=
  readable ← ask (env_readable env);
  w ← get;
  mret (if readable : bool then r ← w_slots w !! slot; if validate_slot_record r slot then Some r else None else None).

Definition read_valid_slot (slot : Z) : R SlotRecord :=
  r ← read_slot slot;
  match r with Some r => mret r | None => throw UnknownOrphanRisk end.

Definition replace_slot (expected next : SlotRecord) : R unit :=
  guard_or (validate_transition expected next) IllegalTransition ;;
  current ← read_valid_slot (sl_slot expected);
  guard_or (bool_decide (current = expected)) StateConflict ;;
  keeping (set_slot next) ;;
  readback ← read_valid_slot (sl_slot expected);
  guard_or (bool_decide (readback = next)) ReadbackMismatch.

Definition read_registration (slot : Z) : R RegistrationRecord :=
  readable ← ask (env_readable env);
  w ← get;
  match (if readable : bool then w_registrations w !! slot else None) with
  | Some r => guard_or (rr_slot r =? slot) Refused ;; mret r
  | None => throw UnknownOrphanRisk
  end.

Definition replace_registration (slot : Z) (next : RegistrationRecord) : R unit :=
  guard_or (rr_slot next =? slot) Refused ;;
  guard_or (is_none_or (rr_registration next) (λ g, (gr_slot g =? slot) && (gr_generation g =? rr_generation next))) Refused ;;
  keeping (set_registration slot next) ;;
  readback ← read_registration slot;
  guard_or (bool_decide (readback = next)) ReadbackMismatch.

(** ** Allocation *)

(** The locals of the loop: the slot selected and how many could not be read. *)
Fixpoint allocate_scan (now : Z) (owner : option ManagedOwnerTag) (slots : list Z)
    (selected : option SlotRecord) (unreadable : nat) : R (option SlotRecord * nat) :=
  match slots with
  | [] => mret (selected, unreadable)
  | slot :: slots =>
    read ← read_slot slot;
    match read with
    | None => allocate_scan now owner slots selected (S unreadable)
    | Some record =>
      guard_or (negb (is_some owner) || negb (bool_decide (sl_owner record = owner))) OwnerExists ;;
      match sl_state record with
      | Vacant => allocate_scan now owner slots (Some (default record selected)) unreadable
      | ResolvedTombstone _ _ resolved =>
        if bool_decide (resolved ≤ now) && (TOMBSTONE_RETENTION <=? now - resolved) && negb (is_some (sl_binding record)) then
          let vacant := {| sl_schema := sl_schema record; sl_slot := sl_slot record; sl_generation := sl_generation record;
                           sl_owner := None; sl_binding := sl_binding record; sl_state := Vacant |} in
          replace_slot record vacant ;;
          allocate_scan now owner slots (Some (default vacant selected)) unreadable
        else allocate_scan now owner slots selected unreadable
      | _ => allocate_scan now owner slots selected unreadable
      end
    end
  end.

Definition allocate_intent (now : Z) (owner : option ManagedOwnerTag) : R SlotRecord :=
  guard_or (is_none_or owner owner_tag_valid) Refused ;;
  try_acquire ;;
  '(selected, unreadable) ← allocate_scan now owner (Z.of_nat <$> seq 0 slot_count) None 0;
  guard_or (negb (is_some owner) || (unreadable =? 0)%nat) UnknownOrphanRisk ;;
  match selected with
  | None => throw CapacityExhausted
  | Some vacant =>
    match checked_add u64_max (sl_generation vacant) 1 with
    | None => throw GenerationExhausted
    | Some generation =>
      nonce ← ask (env_uuid env);
      replace_registration (sl_slot vacant)
        {| rr_slot := sl_slot vacant; rr_generation := generation; rr_registration := None |} ;;
      let intent := {| sl_schema := SLOT_SCHEMA_VERSION; sl_slot := sl_slot vacant; sl_generation := generation;
                       sl_owner := owner; sl_binding := None; sl_state := IntentDurable nonce now |} in
      replace_slot vacant intent ;;
      guarded ← ask (λ t, env_guard env t (sl_slot vacant));
      guard_or guarded GuardBusy ;;
      mret intent
    end
  end.

(** ** Evidence of processes *)

Definition if_present {A B} (e : Evidence A) (k : A → R (Evidence B)) : R (Evidence B) :=
  match e with Present a => k a | Absent => mret Absent | Unavailable => mret Unavailable end.

Definition observe_identity (pid : Z) : R (Evidence ManagedIdentity) :=
  boot ← ask (env_boot env);
  match boot with
  | Absent | Unavailable => mret Unavailable
  | Present boot_uuid =>
    namespace ← ask (λ t, env_namespace env t pid);
    if_present namespace (λ namespace,
      ticks ← ask (λ t, env_ticks env t pid);
      if_present ticks (λ ticks,
        mret (Present {| mi_boot := boot_uuid; mi_namespace := namespace; mi_pid := pid; mi_start_ticks := ticks |})))
  end.

(** [open_verified_pidfd]; a descriptor is named by the time at which it was opened. *)
Definition open_verified_pidfd (expected : ManagedIdentity) : R (Evidence nat) :=
  opened ← ask (λ t, (t, env_pidfd env t (mi_pid expected)));
  if_present (snd opened) (λ _,
    actual ← observe_identity (mi_pid expected);
    match actual with
    | Present actual => mret (if bool_decide (actual = expected) then Present (fst opened) else Absent)
    | Absent => mret Absent
    | Unavailable => mret Unavailable
    end).

Definition verify_exact_process (expected : ManagedIdentity) : R (Evidence unit) :=
  boot ← ask (env_boot env);
  match boot with
  | Absent | Unavailable => mret Unavailable
  | Present boot =>
    if negb (boot =? mi_boot expected) then mret Absent
    else
      pidfd ← open_verified_pidfd expected;
      if_present pidfd (λ _, mret (Present tt))
  end.

(** ** Identity and cleanup *)

Definition record_identity (intent : SlotRecord) (registration : GateRegistration) : R SlotRecord :=
  match sl_state intent with
  | IntentDurable nonce _ =>
    guard_or (gr_slot registration =? sl_slot intent) Refused ;;
    guard_or (gr_generation registration =? sl_generation intent) Refused ;;
    guard_or (gr_nonce registration =? nonce) Refused ;;
    durable ← read_registration (sl_slot intent);
    guard_or (bool_decide (rr_registration durable = Some registration)) Refused ;;
    let identity := {| sl_schema := SLOT_SCHEMA_VERSION; sl_slot := sl_slot intent; sl_generation := sl_generation intent;
                       sl_owner := sl_owner intent; sl_binding := sl_binding intent;
                       sl_state := IdentityDurable nonce (gr_identity registration) true |} in
    replace_slot intent identity ;;
    mret identity
  | _ => throw Refused
  end.

Definition registration_matches (sidecar : RegistrationRecord) (record : SlotRecord) (nonce : Uuid) : option GateRegistration :=
  match rr_registration sidecar with
  | Some g =>
    if (rr_generation sidecar =? sl_generation record) && (gr_nonce g =? nonce) && (gr_slot g =? sl_slot record)
       && (gr_generation g =? sl_generation record) then Some g else None
  | None => None
  end.

(** An error of the read counts as no registration. *)
Definition read_registration_opt (slot : Z) : R (option RegistrationRecord) := λ w,
  match read_registration slot w with (Ok r, w) => (Ok (Some r), w) | (Err _, w) => (Ok None, w) end.

Definition reconcile_intent (record : SlotRecord) : R ReconcileOutcome :=
  match sl_state record with
  | IntentDurable nonce _ =>
    free ← ask (λ t, env_guard env t (sl_slot record));
    if free : bool then mret OutcomeAbsent
    else
      sidecar ← read_registration_opt (sl_slot record);
      match sidecar ≫= λ s, registration_matches s record nonce with
      | None => mret (OutcomeUnknown RegistrationUnavailable)
      | Some registration =>
        evidence ← verify_exact_process (gr_identity registration);
        mret (match evidence with
              | Present _ => OutcomeLive
              | Absent => OutcomeUnknown BusyGuardIdentityAbsent
              | Unavailable => OutcomeUnknown ProcessEvidenceUnavailable
              end)
      end
  | _ => mret (OutcomeUnknown InvalidIntentState)
  end.

Definition persist_tombstone (current : SlotRecord) (nonce : Uuid) (identity : option ManagedIdentity) : R ReconcileOutcome :=
  now ← ask (env_clock env);
  match now with
  | None => throw ClockError
  | Some now =>
    replace_slot current (with_state current (ResolvedTombstone nonce identity now)) ;;
    mret OutcomeTombstone
  end.

(** The second half of [cleanup]: from the durable [CleanupPending] on. *)
Definition kill_and_resolve (pending : SlotRecord) (nonce : Uuid) (identity : ManagedIdentity) : R ReconcileOutcome :=
  pidfd ← open_verified_pidfd identity;
  match pidfd with
  | Present opened =>
    log (LogSignal opened identity) ;;
    sent ← ask (env_signal env);
    guard_or sent SignalError ;;
    waited ← ask (env_wait env);
    guard_or waited WaitTimeout ;;
    evidence ← verify_exact_process identity;
    match evidence with
    | Absent => persist_tombstone pending nonce (Some identity)
    | Present _ => mret (OutcomeUnknown ProcessStillLive)
    | Unavailable => mret (OutcomeUnknown ProcessEvidenceUnavailable)
    end
  | Absent => persist_tombstone pending nonce (Some identity)
  | Unavailable => mret (OutcomeUnknown ProcessEvidenceUnavailable)
  end.

Definition cleanup (slot generation : Z) : R ReconcileOutcome :=
  try_acquire ;;
  current ← read_valid_slot slot;
  guard_or (sl_generation current =? generation) GenerationConflict ;;
  match sl_state current with
  | IdentityDurable nonce identity release | CleanupPending nonce identity release =>
    let pending := with_state current (CleanupPending nonce identity release) in
    (if bool_decide (current = pending) then mret tt else replace_slot current pending) ;;
    kill_and_resolve pending nonce identity
  | ResolvedTombstone _ _ _ => mret OutcomeTombstone
  | IntentDurable nonce _ =>
    outcome ← reconcile_intent current;
    match outcome with OutcomeAbsent => persist_tombstone current nonce None | _ => mret outcome end
  | Vacant => mret OutcomeAbsent
  end.

(** ** Reconciliation *)

Record ManagedReconcileEntry : Set := {
  re_key : option ManagedKey; re_owner : option ManagedOwnerTag; re_binding : option ManagedArtifactBinding;
  re_outcome : ReconcileOutcome }.

Definition entry_of (record : SlotRecord) (slot : Z) (outcome : ReconcileOutcome) : ManagedReconcileEntry := {|
  re_key := Some {| mk_slot := slot; mk_generation := sl_generation record |}; re_owner := sl_owner record;
  re_binding := sl_binding record; re_outcome := outcome |}.

Definition unwrap_or {A} (m : R A) (d : A) : R A := λ w,
  match m w with (Ok a, w) => (Ok a, w) | (Err _, w) => (Ok d, w) end.

Definition reconcile_slot (slot : Z) : R (option ManagedReconcileEntry) :=
  read ← read_slot slot;
  match read with
  | None => mret (Some {| re_key := None; re_owner := None; re_binding := None; re_outcome := OutcomeUnknown UnknownSlot |})
  | Some record =>
    match sl_state record with
    | Vacant => mret None
    | ResolvedTombstone _ _ _ => mret (Some (entry_of record slot OutcomeTombstone))
    | _ =>
      outcome ← unwrap_or (cleanup slot (sl_generation record)) (OutcomeUnknown ReconciliationFailed);
      mret (Some (entry_of record slot outcome))
    end
  end.

Fixpoint reconcile_slots (slots : list Z) : R (list ManagedReconcileEntry) :=
  match slots with
  | [] => mret []
  | slot :: slots =>
    entry ← reconcile_slot slot;
    entries ← reconcile_slots slots;
    mret (match entry with Some e => e :: entries | None => entries end)
  end.

Definition reconcile_all : R (list ManagedReconcileEntry) := reconcile_slots (Z.of_nat <$> seq 0 slot_count).

Inductive ManagedOwnerOutcome : Set :=
  | OwnerAbsent | OwnerTombstone (key : ManagedKey) | OwnerUnknown (code : ManagedReconcileCode).

(** The search of [reconcile_owner]: the only record of the owner, or an answer at once. *)
Fixpoint find_owner (owner : ManagedOwnerTag) (slots : list Z) (matched : option SlotRecord)
    : R (ManagedOwnerOutcome + option SlotRecord) :=
  match slots with
  | [] => mret (inr matched)
  | slot :: slots =>
    read ← read_slot slot;
    match read with
    | None => mret (inl (OwnerUnknown UnknownSlot))
    | Some record =>
      if bool_decide (sl_owner record = Some owner) then
        if is_some matched then mret (inl (OwnerUnknown DuplicateOwner)) else find_owner owner slots (Some record)
      else find_owner owner slots matched
    end
  end.

Definition reconcile_owner (owner : ManagedOwnerTag) : R ManagedOwnerOutcome :=
  guard_or (owner_tag_valid owner) Refused ;;
  found ← find_owner owner (Z.of_nat <$> seq 0 slot_count) None;
  match found with
  | inl outcome => mret outcome
  | inr None => mret OwnerAbsent
  | inr (Some record) =>
    let key := {| mk_slot := sl_slot record; mk_generation := sl_generation record |} in
    match sl_state record with
    | ResolvedTombstone _ _ _ => mret (OwnerTombstone key)
    | Vacant => mret OwnerAbsent
    | _ =>
      outcome ← unwrap_or (cleanup (sl_slot record) (sl_generation record)) (OutcomeUnknown ReconciliationFailed);
      mret (match outcome with
            | OutcomeTombstone => OwnerTombstone key
            | OutcomeAbsent => OwnerAbsent
            | OutcomeLive => OwnerUnknown ProcessStillLive
            | OutcomeUnknown code => OwnerUnknown code
            end)
    end
  end.
End registry.
