(* ===== verification/ManagedOps.v ===== *)
(** The operations on the private files of a managed launch ([ManagedLaunchReservation] and the
    [..._artifact_...] methods of [Registry] in [launch_registry.rs]): each makes one step of
    a binding durable.  The caller does the step itself between the [begin] and the [finish]. *)
From stdpp Require Import gmap.
From S2P Require Import Prelude Utf8 Protocol Text ManagedArtifacts ManagedSlots ManagedRegistry.

Section ops.
Context (env : Env).

Abbreviation R A := (M World ManagedError A) (only parsing).

Definition update_binding (current : SlotRecord) (b : ManagedArtifactBinding) : R ManagedArtifactBinding :=
  replace_slot env current (with_binding current (Some b)) ;; mret b.

(** ** Creation, on the record a reservation holds *)

Definition advance (intent : SlotRecord) (b : ManagedArtifactBinding) : R (ManagedArtifactBinding * SlotRecord) :=
  replace_slot env intent (with_binding intent (Some b)) ;; mret (b, with_binding intent (Some b)).

Definition begin_artifact_creation (intent : SlotRecord) (root : ManagedDirectoryIdentity) (leaf : str)
    : R (ManagedArtifactBinding * SlotRecord) :=
  guard_or (directory_identity_valid root) Refused ;;
  guard_or (negb (is_some (sl_binding intent))) Refused ;;
  match sl_state intent with
  | IntentDurable nonce _ =>
    let b := {| ab_name := {| ab_nonce := nonce; control_root := root; private_leaf := leaf |};
                ab_made := nothing_made; ab_cleanup := no_cleanup |} in
    guard_or (binding_valid b) Refused ;;
    advance intent b
  | _ => throw Refused
  end.

(** The binding of a reservation, in the phase the operation asks for. *)
Definition in_phase (intent : SlotRecord) (phase : ManagedArtifactCreationPhase) : R ManagedArtifactBinding :=
  match sl_binding intent with
  | Some b => guard_or (bool_decide (creation_phase b = Some phase)) Refused ;; mret b
  | None => throw Refused
  end.

Definition set_made (b : ManagedArtifactBinding) (directory : option ManagedDirectoryIdentity)
    (run sock own : option ManagedArtifactIdentity) (run_pending sock_pending own_pending : bool) : ManagedArtifactBinding :=
  with_made b {| private_directory := directory; runner := run; socket := sock; owner_file := own;
                 runner_create_pending := run_pending; socket_create_pending := sock_pending;
                 owner_create_pending := own_pending |}.

Definition finish_artifact_creation (intent : SlotRecord) (directory : ManagedDirectoryIdentity)
    : R (ManagedArtifactBinding * SlotRecord) :=
  guard_or (directory_identity_valid directory) Refused ;;
  b ← in_phase intent Reserved;
  let m := ab_made b in
  advance intent (set_made b (Some directory) (runner m) (socket m) (owner_file m)
    (runner_create_pending m) (socket_create_pending m) (owner_create_pending m)).

Definition begin_artifact_runner_creation (intent : SlotRecord) : R (ManagedArtifactBinding * SlotRecord) :=
  b ← in_phase intent DirectoryCreated;
  let m := ab_made b in
  let b := set_made b (private_directory m) (runner m) (socket m) (owner_file m)
    true (socket_create_pending m) (owner_create_pending m) in
  guard_or (binding_valid b) Refused ;; advance intent b.

Definition finish_artifact_runner (intent : SlotRecord) (run : ManagedArtifactIdentity)
    : R (ManagedArtifactBinding * SlotRecord) :=
  guard_or (artifact_identity_valid run) Refused ;;
  b ← in_phase intent RunnerCreatePending;
  let m := ab_made b in
  advance intent (set_made b (private_directory m) (Some run) (socket m) (owner_file m)
    false (socket_create_pending m) (owner_create_pending m)).

Definition begin_artifact_socket_creation (intent : SlotRecord) : R (ManagedArtifactBinding * SlotRecord) :=
  b ← in_phase intent RunnerCreated;
  let m := ab_made b in
  let b := set_made b (private_directory m) (runner m) (socket m) (owner_file m)
    (runner_create_pending m) true (owner_create_pending m) in
  guard_or (binding_valid b) Refused ;; advance intent b.

Definition finish_artifact_socket (intent : SlotRecord) (sock : ManagedArtifactIdentity)
    : R (ManagedArtifactBinding * SlotRecord) :=
  guard_or (artifact_identity_valid sock) Refused ;;
  b ← in_phase intent SocketCreatePending;
  let m := ab_made b in
  advance intent (set_made b (private_directory m) (runner m) (Some sock) (owner_file m)
    (runner_create_pending m) false (owner_create_pending m)).

Definition begin_artifact_owner_creation (intent : SlotRecord) : R (ManagedArtifactBinding * SlotRecord) :=
  b ← in_phase intent SocketCreated;
  let m := ab_made b in
  let b := set_made b (private_directory m) (runner m) (socket m) (owner_file m)
    (runner_create_pending m) (socket_create_pending m) true in
  guard_or (binding_valid b) Refused ;; advance intent b.

Definition finish_artifact_owner (intent : SlotRecord) (own : ManagedArtifactIdentity)
    : R (ManagedArtifactBinding * SlotRecord) :=
  guard_or (artifact_identity_valid own) Refused ;;
  b ← in_phase intent OwnerCreatePending;
  let m := ab_made b in
  let b := set_made b (private_directory m) (runner m) (socket m) (Some own)
    (runner_create_pending m) (socket_create_pending m) false in
  guard_or (binding_valid b) Refused ;; advance intent b.

(** ** Retirement of the socket and cleanup *)

(** The first lines of every operation. *)
Definition locked_slot (key : ManagedKey) : R SlotRecord :=
  try_acquire env ;;
  current ← read_valid_slot env (mk_slot key);
  guard_or (sl_generation current =? mk_generation key) GenerationConflict ;;
  mret current.

Definition tombstone_slot (key : ManagedKey) : R SlotRecord :=
  current ← locked_slot key;
  guard_or (is_tombstone (sl_state current)) Refused ;;
  mret current.

Definition bound (current : SlotRecord) : R ManagedArtifactBinding :=
  match sl_binding current with Some b => mret b | None => throw Refused end.

Definition acknowledge_artifact_cleanup (key : ManagedKey) (binding : ManagedArtifactBinding) : R unit :=
  current ← locked_slot key;
  if negb (is_some (sl_binding current)) && is_tombstone (sl_state current) then mret tt
  else
    authoritative ← bound current;
    guard_or (same_artifact authoritative binding) Refused ;;
    guard_or (negb (creation_pending authoritative)) Refused ;;
    guard_or (is_tombstone (sl_state current) && is_some (cleanup_quarantine (ab_cleanup authoritative))
              && cleanup_completed (ab_cleanup authoritative)) Refused ;;
    replace_slot env current (with_binding current None).

Definition begin_artifact_cleanup (key : ManagedKey) (binding : ManagedArtifactBinding) : R ManagedArtifactBinding :=
  current ← tombstone_slot key;
  authoritative ← bound current;
  let c := ab_cleanup authoritative in
  guard_or (negb (socket_retire_pending c)) Refused ;;
  guard_or (negb (creation_pending authoritative)) Refused ;;
  guard_or (same_artifact authoritative binding) Refused ;;
  if is_some (cleanup_quarantine c) then mret authoritative
  else
    let quarantine := quarantine_name authoritative in
    guard_or (validate_managed_artifact_leaf quarantine) Refused ;;
    update_binding current (with_cleanup authoritative {|
      cleanup_quarantine := Some quarantine; cleanup_unlink_pending := cleanup_unlink_pending c;
      socket_retire_pending := socket_retire_pending c; socket_retired := socket_retired c;
      cleanup_ownership_removed := cleanup_ownership_removed c; cleanup_socket_removed := cleanup_socket_removed c;
      cleanup_runner_removed := cleanup_runner_removed c; cleanup_completed := false |}).

Definition with_retirement (b : ManagedArtifactBinding) (pending retired : bool) : ManagedArtifactBinding :=
  let c := ab_cleanup b in
  with_cleanup b {|
    cleanup_quarantine := cleanup_quarantine c; cleanup_unlink_pending := cleanup_unlink_pending c;
    socket_retire_pending := pending; socket_retired := retired;
    cleanup_ownership_removed := cleanup_ownership_removed c; cleanup_socket_removed := cleanup_socket_removed c;
    cleanup_runner_removed := cleanup_runner_removed c; cleanup_completed := cleanup_completed c |}.

Definition begin_artifact_socket_retirement (key : ManagedKey) (binding : ManagedArtifactBinding)
    : R ManagedArtifactBinding :=
  current ← locked_slot key;
  guard_or (is_identity (sl_state current)) Refused ;;
  authoritative ← bound current;
  let c := ab_cleanup authoritative in
  guard_or (negb (creation_pending authoritative) && is_some (owner_file (ab_made authoritative))) Refused ;;
  guard_or (same_artifact authoritative binding && negb (is_some (cleanup_quarantine c))
            && is_some (socket (ab_made authoritative))) Refused ;;
  if socket_retired c || socket_retire_pending c then mret authoritative
  else update_binding current (with_retirement authoritative true (socket_retired c)).

Definition finish_artifact_socket_retirement (key : ManagedKey) (binding : ManagedArtifactBinding)
    : R ManagedArtifactBinding :=
  current ← locked_slot key;
  authoritative ← bound current;
  let c := ab_cleanup authoritative in
  guard_or (same_artifact authoritative binding && negb (is_some (cleanup_quarantine c))) Refused ;;
  if socket_retired c then mret authoritative
  else
    guard_or (socket_retire_pending c) Refused ;;
    update_binding current (with_retirement authoritative false true).

(** The fields of the cleanup that the steps change. *)
Definition with_removed (b : ManagedArtifactBinding) (pending : option ManagedArtifactCleanupStep)
    (ownership sock run completed : bool) : ManagedArtifactBinding :=
  let c := ab_cleanup b in
  with_cleanup b {|
    cleanup_quarantine := cleanup_quarantine c; cleanup_unlink_pending := pending;
    socket_retire_pending := socket_retire_pending c; socket_retired := socket_retired c;
    cleanup_ownership_removed := ownership; cleanup_socket_removed := sock;
    cleanup_runner_removed := run; cleanup_completed := completed |}.

Definition begin_artifact_unlink (key : ManagedKey) (binding : ManagedArtifactBinding)
    (step : ManagedArtifactCleanupStep) : R ManagedArtifactBinding :=
  current ← tombstone_slot key;
  authoritative ← bound current;
  let c := ab_cleanup authoritative in
  guard_or (same_artifact authoritative binding) Refused ;;
  guard_or (is_some (cleanup_quarantine c) && negb (cleanup_completed c)) Refused ;;
  if cleanup_step_completed authoritative step then mret authoritative
  else
    match cleanup_unlink_pending c with
    | Some pending => guard_or (bool_decide (pending = step)) Refused ;; mret authoritative
    | None =>
      let pending := with_removed authoritative (Some step) (cleanup_ownership_removed c) (cleanup_socket_removed c)
        (cleanup_runner_removed c) (cleanup_completed c) in
      guard_or (binding_valid pending) Refused ;;
      update_binding current pending
    end.

(** The cleanup after a step, or a step that is out of order. *)
Definition advance_step (b : ManagedArtifactBinding) (step : ManagedArtifactCleanupStep) : option ManagedArtifactBinding :=
  let c := ab_cleanup b in
  match step with
  | Ownership =>
    if negb (cleanup_socket_removed c) && negb (cleanup_runner_removed c)
    then Some (with_removed b None true (cleanup_socket_removed c) (cleanup_runner_removed c) (cleanup_completed c)) else None
  | Socket =>
    if cleanup_ownership_removed c && negb (cleanup_runner_removed c)
    then Some (with_removed b None (cleanup_ownership_removed c) true (cleanup_runner_removed c) (cleanup_completed c)) else None
  | Runner =>
    if cleanup_ownership_removed c && cleanup_socket_removed c
    then Some (with_removed b None (cleanup_ownership_removed c) (cleanup_socket_removed c) true (cleanup_completed c)) else None
  | Directory => None
  end.

Definition finish_artifact_unlink (key : ManagedKey) (binding : ManagedArtifactBinding)
    (step : ManagedArtifactCleanupStep) : R ManagedArtifactBinding :=
  current ← tombstone_slot key;
  authoritative ← bound current;
  let c := ab_cleanup authoritative in
  guard_or (same_artifact authoritative binding) Refused ;;
  guard_or (is_some (cleanup_quarantine c) && negb (cleanup_completed c)) Refused ;;
  if cleanup_step_completed authoritative step then mret authoritative
  else
    guard_or (bool_decide (cleanup_unlink_pending c = Some step)) Refused ;;
    match advance_step authoritative step with
    | Some advanced => update_binding current advanced
    | None => throw Refused
    end.

Definition finish_artifact_cleanup (key : ManagedKey) (binding : ManagedArtifactBinding) : R ManagedArtifactBinding :=
  current ← tombstone_slot key;
  authoritative ← bound current;
  let c := ab_cleanup authoritative in
  guard_or (same_artifact authoritative binding) Refused ;;
  if cleanup_completed c then mret authoritative
  else
    guard_or (is_some (cleanup_quarantine c) && all_removed c
              && bool_decide (cleanup_unlink_pending c = Some Directory)) Refused ;;
    update_binding current (with_removed authoritative None (cleanup_ownership_removed c) (cleanup_socket_removed c)
      (cleanup_runner_removed c) true).

(** The boot the system says it is in. *)
Definition current_boot : R Uuid :=
  boot ← ask (env_boot env);
  match boot with Present boot => mret boot | _ => throw EvidenceMissing end.

Definition finish_artifact_logical_absence (key : ManagedKey) (binding : ManagedArtifactBinding)
    : R ManagedArtifactBinding :=
  current ← tombstone_slot key;
  authoritative ← bound current;
  let c := ab_cleanup authoritative in
  guard_or (same_artifact authoritative binding) Refused ;;
  guard_or (negb (creation_pending authoritative)) Refused ;;
  boot ← current_boot;
  guard_or (negb (md_boot (control_root (ab_name authoritative)) =? boot)) Refused ;;
  if cleanup_completed c then mret authoritative
  else
    let quarantine := default (quarantine_name authoritative) (cleanup_quarantine c) in
    guard_or (validate_managed_artifact_leaf quarantine) Refused ;;
    update_binding current (with_cleanup authoritative {|
      cleanup_quarantine := Some quarantine; cleanup_unlink_pending := None; socket_retire_pending := false;
      socket_retired := socket_retired c || is_some (socket (ab_made authoritative));
      cleanup_ownership_removed := true; cleanup_socket_removed := true; cleanup_runner_removed := true;
      cleanup_completed := true |}).

Definition finish_artifact_create_pending_absence (key : ManagedKey) (binding : ManagedArtifactBinding)
    : R ManagedArtifactBinding :=
  current ← tombstone_slot key;
  authoritative ← bound current;
  let c := ab_cleanup authoritative in
  let m := ab_made authoritative in
  guard_or (same_artifact authoritative binding && negb (is_some (private_directory m)) && negb (is_some (runner m))
            && negb (is_some (socket m)) && is_some (cleanup_quarantine c) && negb (is_some (cleanup_unlink_pending c))
            && negb (socket_retire_pending c) && negb (socket_retired c)) Refused ;;
  boot ← current_boot;
  guard_or (md_boot (control_root (ab_name authoritative)) =? boot) Refused ;;
  if cleanup_completed c then mret authoritative
  else update_binding current (with_removed authoritative (cleanup_unlink_pending c) true true true true).

Definition artifact_binding (key : ManagedKey) (expected_owner : ManagedOwnerTag) : R (option ManagedArtifactBinding) :=
  guard_or (owner_tag_valid expected_owner) Refused ;;
  current ← read_valid_slot env (mk_slot key);
  guard_or (sl_generation current =? mk_generation key) GenerationConflict ;;
  guard_or (is_tombstone (sl_state current)) Refused ;;
  guard_or (bool_decide (sl_owner current = Some expected_owner)) Refused ;;
  mret (sl_binding current).
End ops.
