(* ===== verification/ManagedHistory.v ===== *)
(** Histories of the registry of managed processes: whatever the system answers, the slots
    stay valid, owners unique, and every slot moves forward along the table of transitions. *)
From stdpp Require Import gmap relations.
From S2P Require Import Prelude Utf8 Protocol Text ManagedArtifacts ManagedSlots ManagedRegistry ManagedOps.

(** ** The invariant *)

Definition slot_ok (slot : Z) (r : SlotRecord) : Prop :=
  validate_slot_record r slot = true ∧ 0 ≤ sl_generation r ≤ u64_max.

(** What happened since [w0]: the same slots, each further on. *)
Definition evolves (w0 w : World) : Prop :=
  ∀ slot, match w_slots w0 !! slot, w_slots w !! slot with
          | Some r0, Some r => rtc slot_step r0 r
          | None, None => True
          | _, _ => False
          end.

Record world_inv (w : World) : Prop := {
  wi_slots : ∀ slot r, w_slots w !! slot = Some r → slot_ok slot r;
  wi_owners : ∀ s1 s2 r1 r2 o, w_slots w !! s1 = Some r1 → w_slots w !! s2 = Some r2 →
                sl_owner r1 = Some o → sl_owner r2 = Some o → s1 = s2;
}.

Definition since (w0 w : World) : Prop := world_inv w ∧ evolves w0 w.

Lemma evolves_refl w : evolves w w.
Proof. intros slot. by destruct (w_slots w !! slot). Qed.

Lemma slot_ok_parts slot r :
  slot_ok slot r →
  sl_schema r = SLOT_SCHEMA_VERSION ∧ sl_slot r = slot ∧ is_none_or (sl_owner r) owner_tag_valid = true ∧
  is_none_or (sl_binding r) (slot_binding_valid r) = true ∧
  match state_nonce (sl_state r) with
  | None => sl_owner r = None ∧ sl_binding r = None
  | Some nonce => is_nil nonce = false
  end.
Proof.
  intros [H _]. unfold validate_slot_record in H. inv_ok. do 2 (split; [lia|]). do 2 (split; [done|]).
  destruct (state_nonce (sl_state r)); inv_ok; [done|]. by destruct (sl_owner r), (sl_binding r).
Qed.

Lemma slot_ok_intro slot r :
  sl_schema r = SLOT_SCHEMA_VERSION → sl_slot r = slot → is_none_or (sl_owner r) owner_tag_valid = true →
  is_none_or (sl_binding r) (slot_binding_valid r) = true →
  match state_nonce (sl_state r) with
  | None => sl_owner r = None ∧ sl_binding r = None
  | Some nonce => is_nil nonce = false
  end → 0 ≤ sl_generation r ≤ u64_max → slot_ok slot r.
Proof.
  intros H1 H2 H3 H4 H5 H6. split; [|done]. unfold validate_slot_record.
  rewrite (proj2 (Z.eqb_eq _ _) H1) (proj2 (Z.eqb_eq _ _) H2) H3 H4.
  destruct (state_nonce (sl_state r)); [by rewrite H5|]. by destruct H5 as [-> ->].
Qed.

(** A slot after a replacement of one of them. *)
Definition with_slot (w : World) (r : SlotRecord) (t : nat) (l : list (nat * Event)) : World := {|
  w_slots := <[sl_slot r := r]> (w_slots w); w_registrations := w_registrations w; w_time := t; w_log := l |}.

Lemma since_same w0 w w' : w_slots w' = w_slots w → since w0 w → since w0 w'.
Proof.
  intros Hs [[H1 H2] H3]. split; [split|]; [by rewrite Hs|by rewrite Hs|]. intros slot. rewrite Hs. apply H3.
Qed.

Lemma since_replace w0 w current next w' :
  since w0 w → w_slots w !! sl_slot current = Some current → validate_transition current next = true →
  (slot_ok (sl_slot current) current → slot_ok (sl_slot current) next) →
  (sl_owner next = None ∨ sl_owner next = sl_owner current ∨
   ∀ slot r, w_slots w !! slot = Some r → sl_owner r ≠ sl_owner next) →
  w_slots w' = <[sl_slot next := next]> (w_slots w) → since w0 w'.
Proof.
  intros [[Hok Hown] Hev] Hc Ht Hnext Ho Hw.
  apply validate_transition_step in Ht as (_ & _ & Hslot & Hstep). rewrite -Hslot in Hw.
  split; [split|].
  - intros slot r. rewrite Hw. intros [[<- <-]|[_ Hr]]%lookup_insert_Some; [|by apply Hok]. by apply Hnext, Hok.
  - intros s1 s2 r1 r2 o. rewrite Hw. intros H1 H2 Ho1 Ho2.
    apply lookup_insert_Some in H1 as [[<- <-]|[Hn1 H1]], H2 as [[<- <-]|[Hn2 H2]]; [done|..|by eapply Hown].
    + destruct Ho as [Ho|[Ho|Ho]]; [congruence|apply (Hown _ _ current r2 o Hc H2); congruence|].
      exfalso. apply (Ho _ _ H2). congruence.
    + destruct Ho as [Ho|[Ho|Ho]]; [congruence|apply (Hown _ _ r1 current o H1 Hc); congruence|].
      exfalso. apply (Ho _ _ H1). congruence.
  - intros slot. rewrite Hw. specialize (Hev slot). destruct (decide (sl_slot current = slot)) as [<-|Hne].
    + rewrite lookup_insert_eq. rewrite Hc in Hev. destruct (w_slots w0 !! _); [|done]. by eapply rtc_r.
    + by rewrite lookup_insert_ne.
Qed.

(** ** Triples for the calls *)

Section triples.
Context (env : Env) (slot_count : nat) (w0 : World).

Abbreviation R A := (M World ManagedError A) (only parsing).
Notation T := (triple (E := ManagedError) (since w0)).

Lemma triple_post {A} (P : World → Prop) (m : R A) (Q Q' : A → World → Prop) :
  T P m Q → (∀ a w, Q a w → Q' a w) → T P m Q'.
Proof. intros H HQ. eapply triple_weaken; [|intros a w _; apply HQ|exact H]. done. Qed.

Lemma triple_pre {A} (P P' : World → Prop) (m : R A) (Q : A → World → Prop) :
  T P' m Q → (∀ w, P w → P' w) → T P m Q.
Proof. intros H HP. eapply triple_weaken; [intros w _; apply HP| |exact H]. done. Qed.

Lemma ask_triple {A} (f : nat → A) (P : World → Prop) (Q : A → World → Prop) :
  (∀ w, P w → Q (f (w_time w)) {| w_slots := w_slots w; w_registrations := w_registrations w;
                                  w_time := S (w_time w); w_log := w_log w |}) →
  T P (ask f) Q.
Proof. intros H w Hw HP. split; [by apply (since_same w0 w)|by apply H]. Qed.

(** A property of the slots. *)
Definition about_slots (P : World → Prop) : Prop := ∀ w w', w_slots w' = w_slots w → P w → P w'.

Lemma ask_keeps {A} (f : nat → A) (P : World → Prop) : about_slots P → T P (ask f) (λ _, P).
Proof. intros H. apply ask_triple. intros w. by apply H. Qed.

Lemma guard_or_triple (c : bool) e (P : World → Prop) : T P (guard_or c e) (λ _ w, c = true ∧ P w).
Proof. intros w Hw HP. destruct c; cbn; [done|]. done. Qed.

Lemma throw_triple {A} e (P : World → Prop) (Q : A → World → Prop) : T P (throw e) Q.
Proof. by intros w Hw _. Qed.

Lemma try_acquire_triple (P : World → Prop) : about_slots P → T P (try_acquire env) (λ _, P).
Proof.
  intros H. eapply triple_bind; [by apply ask_keeps|]. intros ok.
  eapply triple_post; [apply guard_or_triple|]. by intros ? w [_ ?].
Qed.

Definition holds (slot : Z) (r : SlotRecord) (w : World) : Prop := w_slots w !! slot = Some r.

Lemma about_slots_holds slot r : about_slots (holds slot r).
Proof. intros w w' Hw H. unfold holds. by rewrite Hw. Qed.

Lemma about_slots_and P Q : about_slots P → about_slots Q → about_slots (λ w, P w ∧ Q w).
Proof. intros HP HQ w w' Hw [? ?]. split; [by eapply HP|by eapply HQ]. Qed.

Lemma about_slots_pure (φ : Prop) : about_slots (λ _, φ).
Proof. by intros ???. Qed.

Lemma read_slot_triple slot (P : World → Prop) :
  about_slots P →
  T P (read_slot env slot) (λ r w, P w ∧ match r with Some r => holds slot r w ∧ slot_ok slot r | None => True end).
Proof.
  intros H. eapply triple_bind; [by apply ask_keeps|]. intros readable w Hw HP. cbn.
  split; [done|]. split; [done|]. destruct readable; [|done]. unfold holds. cbn.
  destruct (w_slots w !! slot) as [r|] eqn:Hr; cbn; [|done]. destruct (validate_slot_record r slot); [|done].
  split; [done|]. by apply (wi_slots _ (proj1 Hw)).
Qed.

Lemma read_valid_slot_triple slot (P : World → Prop) :
  about_slots P → T P (read_valid_slot env slot) (λ r w, P w ∧ holds slot r w ∧ slot_ok slot r).
Proof.
  intros H. eapply triple_bind; [by apply read_slot_triple|]. intros [r|]; [|apply throw_triple].
  apply triple_ret. done.
Qed.

(** A write that is kept or not: what held stays, or the write was done. *)
Lemma keeping_triple (write : R unit) (P Q : World → Prop) :
  about_slots P → T P write (λ _, Q) → T P (keeping env write) (λ _, Q).
Proof.
  intros Hab Hw. eapply triple_bind; [by apply ask_keeps|]. intros [| |].
  - exact Hw.
  - apply throw_triple.
  - eapply triple_bind; [exact Hw|]. intros []. apply throw_triple.
Qed.

Lemma set_slot_triple current next (P P' : World → Prop) :
  (∀ w, P w → holds (sl_slot current) current w) →
  validate_transition current next = true →
  (slot_ok (sl_slot current) current → slot_ok (sl_slot current) next) →
  (∀ w, P w → sl_owner next = None ∨ sl_owner next = sl_owner current ∨
     ∀ slot r, w_slots w !! slot = Some r → sl_owner r ≠ sl_owner next) →
  (∀ w w', w_slots w' = <[sl_slot next := next]> (w_slots w) → P w → P' w') →
  T P (set_slot next) (λ _ w, P' w ∧ holds (sl_slot current) next w).
Proof.
  intros Hh Ht Hnext Hown HP' w Hw HP. split.
  - eapply since_replace; [done|by apply Hh|done|done|by apply Hown|done].
  - split; [by eapply HP'|].
    apply validate_transition_step in Ht as (_ & _ & -> & _). apply lookup_insert_eq.
Qed.

Lemma replace_slot_gen current next (P P' : World → Prop) :
  about_slots P → about_slots P' →
  (validate_transition current next = true → slot_ok (sl_slot current) current → slot_ok (sl_slot current) next) →
  (∀ w, P w → sl_owner next = None ∨ sl_owner next = sl_owner current ∨
     ∀ slot r, w_slots w !! slot = Some r → sl_owner r ≠ sl_owner next) →
  (∀ w w', w_slots w' = <[sl_slot next := next]> (w_slots w) → P w → P' w') →
  T P (replace_slot env current next)
    (λ _ w, P' w ∧ holds (sl_slot current) next w ∧ slot_ok (sl_slot current) next).
Proof.
  intros Hab Hab' Hnext Hown HP'. unfold replace_slot.
  eapply triple_bind; [apply guard_or_triple|]. intros []. apply (triple_pure _ (validate_transition current next = true)); [by intros ? []|].
  intros Ht. eapply (triple_pre _ P); [|by intros ? []].
  eapply triple_bind; [by apply read_valid_slot_triple|]. intros cur.
  eapply triple_bind; [apply guard_or_triple|]. intros [].
  apply (triple_pure _ (cur = current)); [intros ? [H _]; by inv_ok|]. intros ->.
  eapply (triple_pre _ (λ w, P w ∧ holds (sl_slot current) current w)); [|by intros ? (_ & ? & ? & _)].
  eapply triple_bind.
  { apply keeping_triple; [apply about_slots_and; [done|apply about_slots_holds]|].
    apply (set_slot_triple current next _ P'); [by intros ? []|done|by apply Hnext|intros w []; by apply Hown|].
    intros w w' Hw [? _]. by eapply HP'. }
  intros []. eapply triple_bind; [apply read_valid_slot_triple, about_slots_and; [done|apply about_slots_holds]|].
  intros readback. eapply triple_post; [apply guard_or_triple|].
  intros [] w (Hr & [HP Hh] & _ & Hok). inv_ok. by subst.
Qed.

Lemma replace_slot_triple current next :
  (validate_transition current next = true → slot_ok (sl_slot current) current → slot_ok (sl_slot current) next) →
  sl_owner next = None ∨ sl_owner next = sl_owner current →
  T (λ _, True) (replace_slot env current next) (λ _ w, holds (sl_slot current) next w ∧ slot_ok (sl_slot current) next).
Proof.
  intros Hn Ho. eapply triple_post.
  - apply (replace_slot_gen current next _ (λ _, True)); [apply about_slots_pure..|done| |done].
    intros w _. destruct Ho; [by left|by right; left].
  - by intros ? w [_ ?].
Qed.
End triples.
