(* ===== verification/ManagedValid.v ===== *)
(** What the operations of the registry of managed processes write is valid: each step of the
    creation, the retirement and the cleanup of a binding keeps the order of its fields. *)
From stdpp Require Import gmap relations.
From S2P Require Import Prelude Utf8 Protocol Text ManagedArtifacts ManagedSlots ManagedRegistry ManagedOps ManagedHistory.

(** ** Validity of what is written *)

Lemma slot_ok_with_state slot r s n :
  slot_ok slot r → state_nonce (sl_state r) = Some n → state_nonce s = Some n →
  is_tombstone (sl_state r) = false ∨ is_tombstone s = true → slot_ok slot (with_state r s).
Proof.
  intros Hok Hn Hs Ht. pose proof Hok as [_ Hg]. apply slot_ok_parts in Hok as (H1 & H2 & H3 & H4 & H5).
  rewrite Hn in H5. apply slot_ok_intro; cbn; [done..| |by rewrite Hs|done].
  destruct (sl_binding r) as [b|]; [|done]. cbn in H4 |- *. unfold slot_binding_valid in *. cbn. inv_ok.
  apply andb_true; split; [apply andb_true; split; [apply andb_true; by split|]|].
  - rewrite bool_decide_true //. congruence.
  - apply orb_true_iff. destruct Ht as [Ht|Ht]; [left|by right].
    match goal with H : _ || _ = true |- _ => by rewrite Ht orb_false_r in H end.
Qed.

Lemma slot_ok_binding slot r b :
  slot_ok slot r → sl_binding r = Some b →
  binding_valid b = true ∧ is_Some (sl_owner r) ∧ state_nonce (sl_state r) = Some (ab_nonce (ab_name b)) ∧
  (cleanup_quarantine (ab_cleanup b) = None ∨ is_tombstone (sl_state r) = true).
Proof.
  intros Hok Hb. apply slot_ok_parts in Hok as (_ & _ & _ & H & _). rewrite Hb in H. cbn in H.
  unfold slot_binding_valid in H. inv_ok. split; [done|]. split; [by destruct (sl_owner r)|]. split; [done|].
  destruct (cleanup_quarantine _); [right|by left]. done.
Qed.

Lemma slot_ok_with_binding slot r b' :
  slot_ok slot r → binding_valid b' = true → is_Some (sl_owner r) →
  state_nonce (sl_state r) = Some (ab_nonce (ab_name b')) →
  (cleanup_quarantine (ab_cleanup b') = None ∨ is_tombstone (sl_state r) = true) →
  slot_ok slot (with_binding r (Some b')).
Proof.
  intros Hok Hv [o Ho] Hn Hq. pose proof Hok as [_ Hg]. apply slot_ok_parts in Hok as (H1 & H2 & H3 & H4 & H5).
  rewrite Hn in H5. apply slot_ok_intro; cbn; [done..| |by rewrite Hn|done].
  unfold slot_binding_valid. cbn. rewrite Hv Ho Hn bool_decide_true //. cbn.
  destruct Hq as [-> | ->]; [done|by rewrite orb_true_r].
Qed.

(** A binding that keeps its name. *)
Lemma slot_ok_rebind slot r b b' :
  slot_ok slot r → sl_binding r = Some b → ab_name b' = ab_name b → binding_valid b' = true →
  (cleanup_quarantine (ab_cleanup b') = cleanup_quarantine (ab_cleanup b) ∨ is_tombstone (sl_state r) = true) →
  slot_ok slot (with_binding r (Some b')).
Proof.
  intros Hok Hb Hname Hv Hq. destruct (slot_ok_binding _ _ _ Hok Hb) as (_ & Ho & Hn & Hq').
  apply slot_ok_with_binding; [done..|by rewrite Hname|]. destruct Hq as [->|?]; [done|by right].
Qed.

Lemma slot_ok_unbind slot r : slot_ok slot r → slot_ok slot (with_binding r None).
Proof.
  intros Hok. pose proof Hok as [_ Hg]. apply slot_ok_parts in Hok as (H1 & H2 & H3 & H4 & H5).
  apply slot_ok_intro; cbn; try done. destruct (state_nonce _); [done|]. by destruct H5.
Qed.

Lemma binding_valid_parts b :
  binding_valid b = true ↔
  (is_nil (ab_nonce (ab_name b)) = false ∧ directory_identity_valid (control_root (ab_name b)) = true ∧
   validate_managed_artifact_leaf (private_leaf (ab_name b)) = true) ∧ made_valid b = true ∧ cleanup_valid b = true.
Proof.
  unfold binding_valid. generalize (made_valid b) (cleanup_valid b). intros m c.
  rewrite !andb_true negb_true_iff. tauto.
Qed.

Lemma binding_valid_cleanup b c :
  binding_valid b = true → cleanup_valid (with_cleanup b c) = true → binding_valid (with_cleanup b c) = true.
Proof. rewrite !binding_valid_parts. intros (Hn & Hm & _) Hc. by split. Qed.

(** The order of a cleanup, as equations. *)
Ltac split_cleanup H :=
  unfold cleanup_valid in H; cbn in H; inv_ok.

Lemma quarantine_valid b :
  binding_valid b = true → cleanup_quarantine (ab_cleanup b) = None →
  validate_managed_artifact_leaf (quarantine_name b) = true →
  cleanup_completed (ab_cleanup b) = false ∧ cleanup_unlink_pending (ab_cleanup b) = None ∧
  is_none_or (Some (quarantine_name b))
    (λ q, validate_managed_artifact_leaf q && negb (bool_decide (q = private_leaf (ab_name b)))) = true.
Proof.
  intros (_ & _ & Hc)%binding_valid_parts Hq Hv. unfold cleanup_valid in Hc. rewrite Hq in Hc. inv_ok.
  split; [by destruct (cleanup_completed _)|]. split; [by destruct (cleanup_unlink_pending _)|].
  cbn. rewrite Hv bool_decide_false //. apply quarantine_name_fresh.
Qed.

(** Splits the flags of a cleanup and its socket. *)
Ltac cases_cleanup b :=
  destruct b as [nm md [qq u rp rt o s r d]]; cbn in *;
  destruct qq as [qq|], u as [[]|]; cbn in *; try done;
  destruct rp, rt, o, s, r, d, (is_some (socket md)); cbn in *; rewrite ?andb_true_r ?andb_false_r; try done.

Lemma retire_pending_valid b :
  binding_valid b = true → is_some (socket (ab_made b)) = true → socket_retired (ab_cleanup b) = false →
  binding_valid (with_retirement b true (socket_retired (ab_cleanup b))) = true.
Proof.
  intros Hv Hs Hr. apply binding_valid_cleanup; [done|]. apply binding_valid_parts in Hv as (_ & _ & Hv).
  unfold cleanup_valid in *. revert Hv Hs Hr. cases_cleanup b.
Qed.

Lemma retired_valid b :
  binding_valid b = true → socket_retire_pending (ab_cleanup b) = true →
  binding_valid (with_retirement b false true) = true.
Proof.
  intros Hv Hs. apply binding_valid_cleanup; [done|]. apply binding_valid_parts in Hv as (_ & _ & Hv).
  unfold cleanup_valid in *. revert Hv Hs. cases_cleanup b.
Qed.

Lemma advance_step_valid b step b' :
  binding_valid b = true → cleanup_unlink_pending (ab_cleanup b) = Some step →
  cleanup_completed (ab_cleanup b) = false → advance_step b step = Some b' → binding_valid b' = true.
Proof.
  intros Hv Hu Hc Ha. assert (b' = with_cleanup b (ab_cleanup b')) as ->.
  { unfold advance_step, with_removed in Ha. by repeat case_match; simplify_eq. }
  apply binding_valid_cleanup; [done|]. apply binding_valid_parts in Hv as (_ & _ & Hv).
  revert Hv Hu Hc Ha. unfold cleanup_valid, advance_step, with_removed. cases_cleanup b;
    intros; simplify_eq/=; rewrite ?andb_true_r; done.
Qed.

Lemma completed_valid b :
  binding_valid b = true → all_removed (ab_cleanup b) = true → is_some (cleanup_quarantine (ab_cleanup b)) = true →
  cleanup_unlink_pending (ab_cleanup b) = Some Directory →
  binding_valid (with_removed b None (cleanup_ownership_removed (ab_cleanup b)) (cleanup_socket_removed (ab_cleanup b))
    (cleanup_runner_removed (ab_cleanup b)) true) = true.
Proof.
  intros Hv Ha Hq Hu. apply binding_valid_cleanup; [done|]. apply binding_valid_parts in Hv as (_ & _ & Hv).
  revert Hv Ha Hq Hu. unfold cleanup_valid, all_removed. cases_cleanup b.
Qed.

Lemma create_absence_valid b :
  binding_valid b = true → is_some (cleanup_quarantine (ab_cleanup b)) = true →
  cleanup_unlink_pending (ab_cleanup b) = None →
  binding_valid (with_removed b (cleanup_unlink_pending (ab_cleanup b)) true true true true) = true.
Proof.
  intros Hv Hq Hu. apply binding_valid_cleanup; [done|]. apply binding_valid_parts in Hv as (_ & _ & Hv).
  revert Hv Hq Hu. unfold cleanup_valid. cases_cleanup b.
Qed.

Lemma quarantined_valid b q :
  binding_valid b = true → cleanup_quarantine (ab_cleanup b) = None → validate_managed_artifact_leaf q = true →
  q ≠ private_leaf (ab_name b) →
  let c := ab_cleanup b in
  binding_valid (with_cleanup b {|
    cleanup_quarantine := Some q; cleanup_unlink_pending := cleanup_unlink_pending c;
    socket_retire_pending := socket_retire_pending c; socket_retired := socket_retired c;
    cleanup_ownership_removed := cleanup_ownership_removed c; cleanup_socket_removed := cleanup_socket_removed c;
    cleanup_runner_removed := cleanup_runner_removed c; cleanup_completed := false |}) = true.
Proof.
  intros Hv Hq Hl Hne. cbn zeta. apply binding_valid_cleanup; [done|]. apply binding_valid_parts in Hv as (_ & _ & Hv).
  unfold cleanup_valid in *. rewrite Hq in Hv. cbn in *. rewrite Hl (bool_decide_false _ Hne). inv_ok.
  destruct (cleanup_unlink_pending (ab_cleanup b)); [done|]. cbn.
  repeat match goal with H : _ = true |- _ => rewrite H; clear H end. done.
Qed.

Lemma absent_valid b q :
  binding_valid b = true → validate_managed_artifact_leaf q = true → q ≠ private_leaf (ab_name b) →
  let c := ab_cleanup b in
  binding_valid (with_cleanup b {|
    cleanup_quarantine := Some q; cleanup_unlink_pending := None; socket_retire_pending := false;
    socket_retired := socket_retired c || is_some (socket (ab_made b));
    cleanup_ownership_removed := true; cleanup_socket_removed := true; cleanup_runner_removed := true;
    cleanup_completed := true |}) = true.
Proof.
  intros Hv Hl Hne. cbn zeta. apply binding_valid_cleanup; [done|]. apply binding_valid_parts in Hv as (_ & _ & Hv).
  unfold cleanup_valid in *. cbn in *. rewrite Hl bool_decide_false //. inv_ok.
  match goal with H : negb (socket_retired _) || _ = true |- _ => revert H end.
  by destruct (socket_retired (ab_cleanup b)), (is_some (socket (ab_made b))).
Qed.

(** While files are made, nothing of the cleanup has begun. *)
Lemma made_binding_valid b made :
  binding_valid b = true → made_valid (with_made b made) = true →
  cleanup_quarantine (ab_cleanup b) = None → socket_retire_pending (ab_cleanup b) = false →
  socket_retired (ab_cleanup b) = false → binding_valid (with_made b made) = true.
Proof.
  rewrite !binding_valid_parts. intros (Hn & _ & Hc) Hm Hq Hp Hr. split; [done|]. split; [done|].
  unfold cleanup_valid in *. cbn. rewrite Hq Hp Hr in Hc |- *. cbn in Hc |- *. inv_ok.
  repeat match goal with H : _ = true |- _ => rewrite H; clear H end. done.
Qed.

(** What the table asks of a step of the creation. *)
Lemma creation_step_clean intent b b' :
  validate_transition intent (with_binding intent (Some b')) = true → sl_binding intent = Some b →
  creation_phase b ≠ creation_phase b' →
  cleanup_quarantine (ab_cleanup b) = None ∧ socket_retire_pending (ab_cleanup b) = false ∧
  socket_retired (ab_cleanup b) = false.
Proof.
  intros Ht Hb Hph. unfold validate_transition in Ht. inv_ok.
  assert (binding_update intent (with_binding intent (Some b')) = true) as Hu.
  { match goal with H : binding_update _ _ || bool_decide (sl_binding _ = _) = true |- _ =>
      apply orb_true_iff in H as [H|H]; [done|] end.
    inv_ok. exfalso. apply Hph. cbn in *. congruence. }
  apply binding_update_spec in Hu as [_ Hu]. cbn in Hu. rewrite Hb in Hu. apply andb_true in Hu as [Hn Hch].
  assert (same_artifact b b' = false) as Hns.
  { destruct (same_artifact b b') eqn:Hs; [|done]. by apply same_artifact_phase in Hs. }
  assert (bool_decide (ab_made b = ab_made b') = false) as Hnm.
  { unfold same_artifact in Hns. by rewrite Hn in Hns. }
  unfold socket_retire_intent, socket_retire_receipt, old_boot_logical_absence_completion, cleanup_progress,
    cleanup_step_intent, cleanup_step_receipt, cleanup_completion, logical_absence_completion in *.
  rewrite Hns Hnm in Hch. cbn [andb orb] in Hch. rewrite ?andb_false_r in Hch. cbn [andb orb] in Hch.
  rewrite ?andb_false_r ?orb_false_r in Hch.
  unfold creation_progress in Hch. inv_ok. split; [by destruct (cleanup_quarantine _)|done].
Qed.
