(* ===== verification/ManagedRuns.v ===== *)
(** Every call of the registry of managed processes keeps the invariant of the slots, and runs
    of calls from a fresh registry. *)
From stdpp Require Import gmap relations.
From S2P Require Import Prelude Utf8 Protocol Text ManagedArtifacts ManagedSlots ManagedRegistry ManagedOps ManagedHistory ManagedValid.

Section calls.
Context (env : Env) (slot_count : nat) (w0 : World).

Abbreviation R A := (M World ManagedError A) (only parsing).
Notation T := (triple (E := ManagedError) (since w0)).

(** A call that keeps the invariant, whatever it answers. *)
Definition fine {A} (m : R A) : Prop := T (λ _, True) m (λ _ _, True).

Lemma fine_throw {A} e : fine (throw e : R A).
Proof. apply throw_triple. Qed.

Lemma fine_ret {A} (a : A) : fine (mret a).
Proof. by apply triple_ret. Qed.

Lemma fine_bind {A B} (m : R A) (k : A → R B) : fine m → (∀ a, fine (k a)) → fine (m ≫= k).
Proof. intros Hm Hk. eapply triple_bind; [exact Hm|]. intros a. apply Hk. Qed.

Lemma fine_guard {A} (c : bool) e (k : unit → R A) : (c = true → fine (k tt)) → fine (guard_or c e ≫= k).
Proof. intros Hk. destruct c; [by apply Hk|apply throw_triple]. Qed.

Lemma fine_ask {A B} (f : nat → A) (k : A → R B) : (∀ a, fine (k a)) → fine (ask f ≫= k).
Proof. intros Hk. apply fine_bind; [|done]. apply ask_keeps, about_slots_pure. Qed.

Lemma fine_read_valid {A} slot (k : SlotRecord → R A) :
  (∀ r, slot_ok slot r → fine (k r)) → fine (read_valid_slot env slot ≫= k).
Proof.
  intros Hk. eapply triple_bind; [apply read_valid_slot_triple, about_slots_pure|]. intros r.
  apply (triple_pure _ (slot_ok slot r)); [by intros w (_ & _ & ?)|]. intros Hok. eapply triple_pre; [by apply Hk|done].
Qed.

Lemma fine_read {A} slot (k : option SlotRecord → R A) :
  fine (k None) → (∀ r, slot_ok slot r → fine (k (Some r))) → fine (read_slot env slot ≫= k).
Proof.
  intros Hn Hk. eapply triple_bind; [apply read_slot_triple, about_slots_pure|]. intros [r|].
  - apply (triple_pure _ (slot_ok slot r)); [by intros w (_ & _ & ?)|]. intros Hok. eapply triple_pre; [by apply Hk|done].
  - eapply triple_pre; [exact Hn|done].
Qed.

Lemma fine_replace current next :
  (validate_transition current next = true → slot_ok (sl_slot current) current → slot_ok (sl_slot current) next) →
  sl_owner next = None ∨ sl_owner next = sl_owner current → fine (replace_slot env current next).
Proof. intros Hn Ho. eapply triple_post; [by apply replace_slot_triple|done]. Qed.

Lemma fine_acquire {A} (k : unit → R A) : fine (k tt) → fine (try_acquire env ≫= k).
Proof. intros Hk. apply fine_bind; [apply try_acquire_triple, about_slots_pure|]. by intros []. Qed.

(** A call that does not touch the slots. *)
Lemma fine_pure {A} (m : R A) : (∀ w, w_slots (m w).2 = w_slots w) → fine m.
Proof.
  intros H w Hw _. specialize (H w). destruct (m w) as [[a|e] w']; cbn in H; [split; [|done]|]; by eapply since_same.
Qed.

(** ** The calls *)

Lemma fine_read_registration slot : fine (read_registration env slot).
Proof.
  apply fine_pure. intros w. unfold read_registration, mbind, M_bind, ask, get. cbn.
  destruct (env_readable env (w_time w)); [|done]. destruct (w_registrations w !! slot); [|done].
  unfold guard_or. by destruct (_ =? _).
Qed.

Lemma fine_replace_registration slot r : fine (replace_registration env slot r).
Proof.
  unfold replace_registration. apply fine_guard. intros _. apply fine_guard. intros _.
  apply fine_bind.
  { apply keeping_triple; [apply about_slots_pure|]. eapply triple_post; [apply fine_pure|done]. done. }
  intros []. apply fine_bind; [apply fine_read_registration|]. intros rb.
  destruct (bool_decide _); [apply fine_ret|apply fine_throw].
Qed.

Lemma fine_observe pid : fine (observe_identity env pid).
Proof.
  apply fine_pure. intros w. unfold observe_identity, if_present, mbind, M_bind, ask. cbn.
  by repeat case_match; simplify_eq/=.
Qed.

Lemma fine_open_pidfd i : fine (open_verified_pidfd env i).
Proof.
  unfold open_verified_pidfd. apply fine_ask. intros [t [[]| |]]; cbn [snd fst if_present]; try apply fine_ret.
  apply fine_bind; [apply fine_observe|]. intros [a| |]; apply fine_ret.
Qed.

Lemma fine_verify i : fine (verify_exact_process env i).
Proof.
  unfold verify_exact_process. apply fine_ask. intros [boot| |]; try apply fine_ret.
  destruct (negb _); [apply fine_ret|]. apply fine_bind; [apply fine_open_pidfd|].
  intros [o| |]; apply fine_ret.
Qed.

Lemma fine_persist current nonce i :
  state_nonce (sl_state current) = Some nonce → fine (persist_tombstone env current nonce i).
Proof.
  intros Hn. unfold persist_tombstone. apply fine_ask. intros [now|]; [|apply fine_throw].
  apply fine_bind; [|intros []; apply fine_ret]. apply fine_replace; [|by right].
  intros _ Hok. eapply slot_ok_with_state; [done..|by right].
Qed.

Lemma fine_kill pending nonce i :
  state_nonce (sl_state pending) = Some nonce → fine (kill_and_resolve env pending nonce i).
Proof.
  intros Hn. unfold kill_and_resolve. apply fine_bind; [apply fine_open_pidfd|].
  intros [o| |]; [|by apply fine_persist|apply fine_ret].
  apply fine_bind; [by apply fine_pure|]. intros []. apply fine_ask. intros sent. apply fine_guard. intros _.
  apply fine_ask. intros waited. apply fine_guard. intros _. apply fine_bind; [apply fine_verify|].
  intros [[]| |]; [apply fine_ret|by apply fine_persist|apply fine_ret].
Qed.

Lemma fine_reconcile_intent r : fine (reconcile_intent env r).
Proof.
  unfold reconcile_intent. destruct (sl_state r) as [|n t|n i rel|n i rel|n i t]; try apply fine_ret.
  apply fine_ask. intros free. destruct free; [apply fine_ret|].
  apply fine_bind.
  { unfold read_registration_opt. intros w Hw HP. pose proof (fine_read_registration (sl_slot r) w Hw HP) as H.
    destruct (read_registration env (sl_slot r) w) as [[a|e] w']; [by destruct H|by split]. }
  intros sidecar. destruct (sidecar ≫= _) as [g|]; [|apply fine_ret].
  apply fine_bind; [apply fine_verify|]. intros e. apply fine_ret.
Qed.

Lemma with_state_same r : with_state r (sl_state r) = r.
Proof. by destruct r. Qed.

Lemma fine_cleanup slot generation : fine (cleanup env slot generation).
Proof.
  unfold cleanup. apply fine_acquire, fine_read_valid. intros r Hok. apply fine_guard. intros _.
  assert (∀ n i rel, state_nonce (sl_state r) = Some n → is_tombstone (sl_state r) = false →
    fine ((if bool_decide (r = with_state r (CleanupPending n i rel)) then mret tt
           else replace_slot env r (with_state r (CleanupPending n i rel))) ;;
          kill_and_resolve env (with_state r (CleanupPending n i rel)) n i)) as Hkill.
  { intros n i rel Hn Ht. apply fine_bind; [|intros []; by apply fine_kill].
    case_bool_decide; [apply fine_ret|]. apply fine_replace; [|by right].
    intros _ Hr. eapply slot_ok_with_state; [done|done|done|by left]. }
  destruct (sl_state r) as [|n t|n i rel|n i rel|n i t] eqn:Hs; [apply fine_ret| |by apply Hkill|by apply Hkill|apply fine_ret].
  apply fine_bind; [apply fine_reconcile_intent|]. intros []; try apply fine_ret. apply fine_persist. by rewrite Hs.
Qed.

Lemma fine_record_identity intent g : fine (record_identity env intent g).
Proof.
  unfold record_identity. destruct (sl_state intent) as [|n t|n i rel|n i rel|n i t] eqn:Hs; try apply fine_throw.
  apply fine_guard. intros _. apply fine_guard. intros _. apply fine_guard. intros _.
  apply fine_bind; [apply fine_read_registration|]. intros d. apply fine_guard. intros _.
  apply fine_bind; [|intros []; apply fine_ret]. apply fine_replace; [|by right].
  intros _ Hok. pose proof (slot_ok_with_state _ _ (IdentityDurable n (gr_identity g) true) n Hok) as H.
  rewrite Hs in H. specialize (H eq_refl eq_refl (or_introl eq_refl)).
  pose proof (slot_ok_parts _ _ Hok) as (Hsch & _). unfold with_state in H. by rewrite Hsch in H.
Qed.

Lemma fine_unwrap {A} (m : R A) d : fine m → fine (unwrap_or m d).
Proof.
  intros Hm w Hw HP. specialize (Hm w Hw HP). unfold unwrap_or. destruct (m w) as [[a|e] w']; [done|by split].
Qed.

Lemma fine_reconcile_all : fine (reconcile_all env slot_count).
Proof.
  unfold reconcile_all. induction (Z.of_nat <$> seq 0 slot_count) as [|slot slots IH]; [apply fine_ret|].
  cbn [reconcile_slots]. apply fine_bind.
  - unfold reconcile_slot. apply fine_read; [apply fine_ret|]. intros r Hok.
    destruct (sl_state r); try apply fine_ret;
      (apply fine_bind; [apply fine_unwrap, fine_cleanup|intros o; apply fine_ret]).
  - intros e. apply fine_bind; [exact IH|]. intros es. apply fine_ret.
Qed.

Lemma fine_find_owner o slots matched : fine (find_owner env o slots matched).
Proof.
  revert matched. induction slots as [|slot slots IH]; intros matched; cbn [find_owner]; [apply fine_ret|].
  apply fine_read; [apply fine_ret|]. intros r _. case_bool_decide; [|apply IH].
  destruct (is_some matched); [apply fine_ret|apply IH].
Qed.

Lemma fine_reconcile_owner o : fine (reconcile_owner env slot_count o).
Proof.
  unfold reconcile_owner. apply fine_guard. intros _. apply fine_bind; [apply fine_find_owner|].
  intros [out|[r|]]; try apply fine_ret. destruct (sl_state r); try apply fine_ret;
    (apply fine_bind; [apply fine_unwrap, fine_cleanup|intros out; apply fine_ret]).
Qed.

(** ** Allocation *)

(** None of the slots has the owner. *)
Definition free_of (owner : option ManagedOwnerTag) (slots : list Z) (w : World) : Prop :=
  match owner with
  | None => True
  | Some o => ∀ slot r, slot ∈ slots → w_slots w !! slot = Some r → sl_owner r ≠ Some o
  end.

Definition selected_ok (selected : option SlotRecord) : Prop :=
  match selected with
  | Some r => slot_ok (sl_slot r) r ∧ sl_state r = Vacant ∧ sl_binding r = None
  | None => True
  end.

Lemma about_free_of (φ : Prop) owner slots : about_slots (λ w, φ → free_of owner slots w).
Proof. intros w w' Hw H Hp. specialize (H Hp). unfold free_of in *. by rewrite Hw. Qed.

Lemma free_of_next owner vs slot r w :
  free_of owner vs w → holds slot r w → negb (is_some owner) || negb (bool_decide (sl_owner r = owner)) = true →
  free_of owner (slot :: vs) w.
Proof.
  unfold free_of. destruct owner as [o|]; [|done]. cbn. intros H Hr Ho. inv_ok.
  intros s r' [->|Hs]%elem_of_cons Hr'; [|by eapply H]. unfold holds in Hr. congruence.
Qed.

Lemma free_of_insert owner vs w w' slot r :
  w_slots w' = <[slot := r]> (w_slots w) → sl_owner r = None → free_of owner vs w → free_of owner vs w'.
Proof.
  unfold free_of. destruct owner as [o|]; [|done]. intros Hw Hr H s r' Hs. rewrite Hw.
  intros [[<- <-]|[_ Hr']]%lookup_insert_Some; [congruence|by eapply H].
Qed.

Lemma slot_ok_vacated slot r :
  slot_ok slot r → sl_binding r = None →
  slot_ok slot {| sl_schema := sl_schema r; sl_slot := sl_slot r; sl_generation := sl_generation r;
                  sl_owner := None; sl_binding := sl_binding r; sl_state := Vacant |}.
Proof.
  intros Hok Hb. pose proof Hok as [_ Hg]. apply slot_ok_parts in Hok as (H1 & H2 & _). apply slot_ok_intro; try done.
  cbn. by rewrite Hb.
Qed.

Lemma scan_triple now owner slots vs selected unreadable :
  selected_ok selected →
  T (λ w, unreadable = 0%nat → free_of owner vs w) (allocate_scan env now owner slots selected unreadable)
    (λ res w, selected_ok res.1 ∧ (res.2 = 0%nat → free_of owner (slots ++ vs) w)).
Proof.
  revert vs selected unreadable. induction slots as [|slot slots IH]; intros vs selected unreadable Hsel.
  { apply triple_ret. intros w _ H. by split. }
  assert (∀ sel n, selected_ok sel →
    T (λ w, n = 0%nat → free_of owner (slot :: vs) w) (allocate_scan env now owner slots sel n)
      (λ res w, selected_ok res.1 ∧ (res.2 = 0%nat → free_of owner ((slot :: slots) ++ vs) w))) as Hnext.
  { intros sel n Hs. eapply triple_post; [by apply (IH (slot :: vs))|]. intros res w [H1 H2]. split; [done|].
    intros H0. specialize (H2 H0). unfold free_of in *. destruct owner; [|done]. intros s r Hin. apply H2. set_solver. }
  cbn [allocate_scan]. eapply triple_bind; [apply read_slot_triple, about_free_of|]. intros [record|].
  2:{ eapply triple_pre; [by apply Hnext|]. done. }
  apply (triple_pure _ (slot_ok slot record)); [by intros w (_ & _ & ?)|]. intros Hok.
  pose proof (slot_ok_parts _ _ Hok) as (_ & Hslot & _ & _ & Hst).
  eapply triple_bind; [apply guard_or_triple|]. intros [].
  eapply (triple_pre _ _ (λ w, unreadable = 0%nat → free_of owner (slot :: vs) w)).
  2:{ intros w (Ho & H & Hh & _) H0. eapply free_of_next; [by apply H|done|done]. }
  destruct (sl_state record) as [|n t|n i rel|n i rel|n i resolved] eqn:Hs; try by apply Hnext.
  - apply Hnext. destruct selected; [done|]. cbn. rewrite Hslot Hs. cbn in Hst. by destruct Hst.
  - destruct (_ && _) eqn:Hc; [|by apply Hnext]. inv_ok.
    assert (sl_binding record = None) as Hb by by destruct (sl_binding record).
    pose proof (slot_ok_vacated slot record Hok Hb) as Hvok.
    set (vacant := {| sl_schema := _ |}) in *.
    eapply triple_bind.
    { apply (replace_slot_gen env w0 record vacant _ (λ w, unreadable = 0%nat → free_of owner (slot :: vs) w));
        [apply about_free_of..|by rewrite Hslot|by left|].
      intros w1 w2 Hw Hf Hn. eapply free_of_insert; [exact Hw|done|by apply Hf]. }
    intros []. eapply triple_pre; [apply (Hnext (Some (default vacant selected)) unreadable)|].
    + destruct selected; [done|]. cbn. rewrite Hslot. done.
    + by intros w [? _].
Qed.

(** A fresh slot's intent. *)
Lemma slot_ok_intent slot generation owner nonce now :
  is_none_or owner owner_tag_valid = true → 0 ≤ generation ≤ u64_max → is_nil nonce = false →
  slot_ok slot {| sl_schema := SLOT_SCHEMA_VERSION; sl_slot := slot; sl_generation := generation; sl_owner := owner;
                  sl_binding := None; sl_state := IntentDurable nonce now |}.
Proof. intros Ho Hg Hn. by apply slot_ok_intro. Qed.

Lemma no_owner_anywhere owner w :
  (∀ slot, is_Some (w_slots w0 !! slot) → slot ∈ Z.of_nat <$> seq 0 slot_count) → since w0 w →
  free_of owner (Z.of_nat <$> seq 0 slot_count) w →
  owner = None ∨ ∀ slot r, w_slots w !! slot = Some r → sl_owner r ≠ owner.
Proof.
  intros Hdom [_ Hev] Hf. destruct owner as [o|]; [right|by left]. intros slot r Hr. apply (Hf slot); [|done].
  apply Hdom. specialize (Hev slot). rewrite Hr in Hev. by destruct (w_slots w0 !! slot).
Qed.

Lemma checked_next g g' : 0 ≤ g → checked_add u64_max g 1 = Some g' → 0 ≤ g' ≤ u64_max ∧ g' = g + 1.
Proof. intros Hg [-> H]%checked_add_Some. lia. Qed.

Lemma fine_keeping_pure {A} (m : R A) (P : World → Prop) :
  about_slots P → fine m → (∀ w, w_slots (m w).2 = w_slots w) → T P m (λ _, P).
Proof.
  intros Hab Hm Hs w Hw HP. specialize (Hm w Hw I). specialize (Hs w).
  destruct (m w) as [[a|e] w']; cbn in *; [|done]. split; [by destruct Hm|]. by eapply Hab.
Qed.

Lemma read_registration_slots slot w : w_slots (read_registration env slot w).2 = w_slots w.
Proof.
  unfold read_registration, mbind, M_bind, ask, get. cbn.
  destruct (env_readable env (w_time w)); [|done]. destruct (w_registrations w !! slot); [|done].
  unfold guard_or. by destruct (_ =? _).
Qed.

Lemma bind_slots {A B} (m : R A) (k : A → R B) w :
  (∀ w, w_slots (m w).2 = w_slots w) → (∀ a w, w_slots (k a w).2 = w_slots w) →
  w_slots ((m ≫= k) w).2 = w_slots w.
Proof.
  intros Hm Hk. unfold mbind, M_bind. specialize (Hm w). destruct (m w) as [[a|e] w']; [|done]. cbn in *. by rewrite Hk.
Qed.

Lemma guard_or_slots c e w : w_slots (guard_or c e w : _ * World).2 = w_slots w.
Proof. by destruct c. Qed.

Lemma replace_registration_slots slot r w : w_slots (replace_registration env slot r w).2 = w_slots w.
Proof.
  unfold replace_registration. apply bind_slots; [apply guard_or_slots|]. intros [] w1.
  apply bind_slots; [apply guard_or_slots|]. intros [] w2. apply bind_slots.
  { intros w3. unfold keeping. apply bind_slots; [done|]. by intros [| |] w4. }
  intros [] w3. apply bind_slots; [apply read_registration_slots|]. intros rb w4. apply guard_or_slots.
Qed.

Lemma triple_pre_since {A} (P P' : World → Prop) (m : R A) (Q : A → World → Prop) :
  (∀ w, since w0 w → P w → P' w) → T P' m Q → T P m Q.
Proof. intros HP H w Hw Hp. apply H; [done|by apply HP]. Qed.

Lemma allocate_triple now owner :
  (∀ slot, is_Some (w_slots w0 !! slot) → slot ∈ Z.of_nat <$> seq 0 slot_count) →
  (∀ t, is_nil (env_uuid env t) = false) →
  T (λ _, True) (allocate_intent env slot_count now owner)
    (λ r w, holds (sl_slot r) r w ∧ slot_ok (sl_slot r) r ∧ sl_owner r = owner ∧ sl_binding r = None ∧
            is_intent (sl_state r) = true).
Proof.
  intros Hdom Hu. unfold allocate_intent. eapply triple_bind; [apply guard_or_triple|]. intros [].
  apply (triple_pure _ (is_none_or owner owner_tag_valid = true)); [by intros ? []|]. intros Ho.
  eapply triple_bind; [apply try_acquire_triple; intros ???; exact id|]. intros [].
  eapply triple_bind.
  { eapply triple_pre; [apply (scan_triple now owner _ [] None 0); done|]. intros w _ _. destruct owner; [|done].
    intros s r Hin. by apply not_elem_of_nil in Hin. }
  intros [selected unreadable]. cbn [fst snd]. rewrite app_nil_r.
  apply (triple_pure _ (selected_ok selected)); [by intros ? []|]. intros Hsel.
  eapply triple_bind; [apply guard_or_triple|]. intros [].
  destruct selected as [vacant|]; [|apply throw_triple].
  destruct (checked_add u64_max (sl_generation vacant) 1) as [g|] eqn:Hg; [|apply throw_triple].
  destruct Hsel as (Hvok & Hvs & Hvb). destruct (checked_next _ _ (proj1 (proj2 Hvok)) Hg) as [Hgb ->].
  eapply (triple_pre _ _ (λ w, owner = None ∨ free_of owner (Z.of_nat <$> seq 0 slot_count) w)).
  2:{ intros w (Hc & _ & Hf). destruct owner; [right|by left]. apply Hf. cbn in Hc. by apply Nat.eqb_eq. }
  assert (about_slots (λ w, owner = None ∨ free_of owner (Z.of_nat <$> seq 0 slot_count) w)) as Hab.
  { intros w w' Hw [?|Hf]; [by left|right]. by eapply (about_free_of True). }
  eapply triple_bind.
  { apply (ask_triple w0 _ _ (λ nonce w, is_nil nonce = false ∧ (owner = None ∨ free_of owner (Z.of_nat <$> seq 0 slot_count) w))).
    intros w Hw. split; [apply Hu|]. by eapply Hab. }
  intros nonce. apply (triple_pure _ (is_nil nonce = false)); [by intros ? []|]. intros Hn.
  eapply (triple_pre _ _ (λ w, owner = None ∨ free_of owner (Z.of_nat <$> seq 0 slot_count) w)); [|by intros ? []].
  eapply triple_bind.
  { apply fine_keeping_pure; [exact Hab|apply fine_replace_registration|intros; apply replace_registration_slots]. }
  intros []. set (intent := {| sl_schema := _; sl_slot := _; sl_generation := _; sl_owner := _; sl_binding := _; sl_state := _ |}).
  assert (slot_ok (sl_slot intent) intent) as Hok by by apply slot_ok_intent.
  eapply triple_bind.
  { apply (triple_pre_since (λ w, owner = None ∨ free_of owner (Z.of_nat <$> seq 0 slot_count) w)
      (λ w, sl_owner intent = None ∨ ∀ slot r, w_slots w !! slot = Some r → sl_owner r ≠ sl_owner intent)).
    - intros w Hw [->|Hf]; [by left|]. by apply no_owner_anywhere.
    - apply (replace_slot_gen env w0 vacant intent _ (λ _, True)); [|apply about_slots_pure|done|..|done].
      + intros w w' Hw. by rewrite Hw.
      + intros w [?|?]; [by left|by right; right]. }
  intros []. eapply triple_bind; [apply ask_keeps|].
  { intros w w' Hw [_ H]. split; [done|]. unfold holds in *. rewrite Hw. exact H. }
  intros b. eapply triple_bind; [apply guard_or_triple|]. intros []. apply triple_ret.
  intros w _ (_ & _ & Hh & _). done.
Qed.

(** ** Creation of the files *)

Lemma fine_in_phase {A} intent phase (k : ManagedArtifactBinding → R A) :
  (∀ b, sl_binding intent = Some b → creation_phase b = Some phase → fine (k b)) → fine (in_phase intent phase ≫= k).
Proof.
  intros Hk. unfold in_phase. destruct (sl_binding intent) as [b|] eqn:Hb; [|by intros w Hw _].
  destruct (bool_decide (creation_phase b = Some phase)) eqn:Hph; [|by intros w Hw _].
  apply bool_decide_eq_true in Hph. intros w Hw HP. exact (Hk b eq_refl Hph w Hw HP).
Qed.

(** A step of the creation: another phase, and valid where the binding before was. *)
Lemma fine_advance intent b made :
  sl_binding intent = Some b → creation_phase b ≠ creation_phase (with_made b made) →
  (binding_valid b = true → made_valid (with_made b made) = true) → fine (advance env intent (with_made b made)).
Proof.
  intros Hb Hph Hm. unfold advance. apply fine_bind; [|intros []; apply fine_ret]. apply fine_replace; [|by right].
  intros Ht Hok. destruct (creation_step_clean _ _ _ Ht Hb Hph) as (H1 & H2 & H3).
  destruct (slot_ok_binding _ _ _ Hok Hb) as (Hv & _). eapply slot_ok_rebind; [done..| |by left].
  apply made_binding_valid; auto.
Qed.

(** The steps that check the binding they write. *)
Lemma fine_begin_step intent b made :
  sl_binding intent = Some b → creation_phase b ≠ creation_phase (with_made b made) →
  fine (guard_or (binding_valid (with_made b made)) Refused ;; advance env intent (with_made b made)).
Proof.
  intros Hb Hph. apply fine_guard. intros Hv. apply fine_advance; [done..|]. intros _.
  by apply binding_valid_parts in Hv as (_ & ? & _).
Qed.

Ltac phases := unfold set_made, creation_phase in *; cbn in *; repeat case_match; simplify_eq/=; congruence.
Ltac made b :=
  rewrite binding_valid_parts; intros (_ & Hv & _); revert Hv; unfold made_valid, creation_phase in *;
  destruct b as [nm [dd rr ss oo rp sp op] cc]; cbn in *;
  destruct dd, rr, ss, oo, rp, sp, op; cbn in *; try done;
  rewrite ?andb_true_r; intros; inv_ok; repeat match goal with H : _ = true |- _ => rewrite H end; done.

Lemma fine_begin_creation intent root leaf :
  is_some (sl_owner intent) = true → fine (begin_artifact_creation env intent root leaf).
Proof.
  intros Ho. unfold begin_artifact_creation. apply fine_guard. intros _. apply fine_guard. intros Hnone.
  destruct (sl_state intent) as [|n t|n i rel|n i rel|n i t] eqn:Hs; try apply fine_throw.
  apply fine_guard. intros Hv. unfold advance. apply fine_bind; [|intros []; apply fine_ret].
  apply fine_replace; [|by right]. intros _ Hok. apply slot_ok_with_binding; [done..| |by rewrite Hs|by left].
  by destruct (sl_owner intent).
Qed.

Lemma fine_finish_creation intent d : fine (finish_artifact_creation env intent d).
Proof.
  unfold finish_artifact_creation. apply fine_guard. intros Hd. apply fine_in_phase. intros b Hb Hph.
  apply fine_advance; [done|phases|]. made b.
Qed.

Lemma fine_begin_runner intent : fine (begin_artifact_runner_creation env intent).
Proof. apply fine_in_phase. intros b Hb Hph. apply fine_begin_step; [done|phases]. Qed.

Lemma fine_begin_socket intent : fine (begin_artifact_socket_creation env intent).
Proof. apply fine_in_phase. intros b Hb Hph. apply fine_begin_step; [done|phases]. Qed.

Lemma fine_begin_owner intent : fine (begin_artifact_owner_creation env intent).
Proof. apply fine_in_phase. intros b Hb Hph. apply fine_begin_step; [done|phases]. Qed.

Lemma fine_finish_runner intent i : fine (finish_artifact_runner env intent i).
Proof.
  unfold finish_artifact_runner. apply fine_guard. intros Hi. apply fine_in_phase. intros b Hb Hph.
  apply fine_advance; [done|phases|]. made b.
Qed.

Lemma fine_finish_socket intent i : fine (finish_artifact_socket env intent i).
Proof.
  unfold finish_artifact_socket. apply fine_guard. intros Hi. apply fine_in_phase. intros b Hb Hph.
  apply fine_advance; [done|phases|]. made b.
Qed.

Lemma fine_finish_owner intent i : fine (finish_artifact_owner env intent i).
Proof.
  unfold finish_artifact_owner. apply fine_guard. intros _. apply fine_in_phase. intros b Hb Hph.
  apply fine_begin_step; [done|phases].
Qed.

(** ** Retirement of the socket and cleanup *)

Lemma fine_assoc {A B C} (m : R A) (f : A → R B) (g : B → R C) :
  fine (m ≫= λ a, f a ≫= g) → fine ((m ≫= f) ≫= g).
Proof.
  intros H w Hw HP. specialize (H w Hw HP).
  assert (((m ≫= f) ≫= g) w = (m ≫= λ a, f a ≫= g) w) as ->; [|done].
  unfold mbind, M_bind. by destruct (m w) as [[a|e] w'].
Qed.

Lemma fine_locked {A} key (k : SlotRecord → R A) :
  (∀ r, slot_ok (mk_slot key) r → fine (k r)) → fine (locked_slot env key ≫= k).
Proof.
  intros Hk. apply fine_assoc, fine_acquire, fine_assoc, fine_read_valid. intros r Hok.
  apply fine_assoc, fine_guard. intros _. exact (Hk r Hok).
Qed.

Lemma fine_tombstone {A} key (k : SlotRecord → R A) :
  (∀ r, slot_ok (mk_slot key) r → is_tombstone (sl_state r) = true → fine (k r)) → fine (tombstone_slot env key ≫= k).
Proof.
  intros Hk. apply fine_assoc, fine_locked. intros r Hok. apply fine_assoc, fine_guard. intros Ht.
  exact (Hk r Hok Ht).
Qed.

Lemma fine_bound {A} r (k : ManagedArtifactBinding → R A) :
  (∀ b, sl_binding r = Some b → fine (k b)) → fine (bound r ≫= k).
Proof.
  intros Hk. unfold bound. destruct (sl_binding r) as [b|]; [by apply Hk|]. by intros w Hw _.
Qed.

(** A binding that is written again, under its name. *)
Lemma fine_update current b b' :
  slot_ok (sl_slot current) current → sl_binding current = Some b → ab_name b' = ab_name b →
  (binding_valid b = true → binding_valid b' = true) →
  cleanup_quarantine (ab_cleanup b') = cleanup_quarantine (ab_cleanup b) ∨ is_tombstone (sl_state current) = true →
  fine (update_binding env current b').
Proof.
  intros Hok Hb Hn Hv Hq. apply fine_bind; [|intros []; apply fine_ret]. apply fine_replace; [|by right].
  intros _ _. eapply slot_ok_rebind; [done..| |done]. by apply Hv, (slot_ok_binding _ _ _ Hok Hb).
Qed.

Lemma slot_ok_self slot r : slot_ok slot r → slot_ok (sl_slot r) r.
Proof. intros Hok. by destruct (slot_ok_parts _ _ Hok) as (_ & -> & _). Qed.

Lemma fine_acknowledge key b : fine (acknowledge_artifact_cleanup env key b).
Proof.
  apply fine_locked. intros r Hok. destruct (_ && _); [apply fine_ret|]. apply fine_bound. intros a Hb.
  do 3 (apply fine_guard; intros _). apply fine_replace; [|by right]. intros _. apply slot_ok_unbind.
Qed.

Lemma fine_begin_cleanup key b : fine (begin_artifact_cleanup env key b).
Proof.
  apply fine_tombstone. intros r Hok Ht. apply fine_bound. intros a Hb. do 3 (apply fine_guard; intros _).
  destruct (is_some _) eqn:Hq; [apply fine_ret|]. apply fine_guard. intros Hl.
  eapply fine_update; [by eapply slot_ok_self|done|done| |by right]. intros Hv.
  apply quarantined_valid; [done| |done|apply quarantine_name_fresh]. by destruct (cleanup_quarantine _).
Qed.

Lemma fine_begin_retirement key b : fine (begin_artifact_socket_retirement env key b).
Proof.
  apply fine_locked. intros r Hok. apply fine_guard. intros _. apply fine_bound. intros a Hb.
  apply fine_guard. intros _. apply fine_guard. intros Hs. destruct (_ || _) eqn:Hr; [apply fine_ret|].
  eapply fine_update; [by eapply slot_ok_self|done|done| |by left]. intros Hv. apply orb_false_iff in Hr as [Hr _].
  apply andb_true in Hs as [_ Hs]. by apply retire_pending_valid.
Qed.

Lemma fine_finish_retirement key b : fine (finish_artifact_socket_retirement env key b).
Proof.
  apply fine_locked. intros r Hok. apply fine_bound. intros a Hb. apply fine_guard. intros _.
  destruct (socket_retired _); [apply fine_ret|]. apply fine_guard. intros Hp.
  eapply fine_update; [by eapply slot_ok_self|done|done| |by left]. intros Hv. by apply retired_valid.
Qed.

Lemma fine_begin_unlink key b step : fine (begin_artifact_unlink env key b step).
Proof.
  apply fine_tombstone. intros r Hok Ht. apply fine_bound. intros a Hb. do 2 (apply fine_guard; intros _).
  destruct (cleanup_step_completed _ _); [apply fine_ret|]. destruct (cleanup_unlink_pending _).
  - apply fine_guard. intros _. apply fine_ret.
  - apply fine_guard. intros Hv. by eapply fine_update; [eapply slot_ok_self| | | |right].
Qed.

Lemma fine_finish_unlink key b step : fine (finish_artifact_unlink env key b step).
Proof.
  apply fine_tombstone. intros r Hok Ht. apply fine_bound. intros a Hb. apply fine_guard. intros _.
  apply fine_guard. intros Hc. destruct (cleanup_step_completed _ _); [apply fine_ret|].
  apply fine_guard. intros Hp%bool_decide_eq_true. destruct (advance_step a step) as [a'|] eqn:Ha; [|apply fine_throw].
  apply andb_true in Hc as [_ Hc]. apply negb_true_iff in Hc.
  eapply fine_update; [by eapply slot_ok_self|done| | |by right].
  - unfold advance_step, with_removed in Ha. by repeat case_match; simplify_eq.
  - intros Hv. by eapply advance_step_valid.
Qed.

Lemma fine_finish_cleanup key b : fine (finish_artifact_cleanup env key b).
Proof.
  apply fine_tombstone. intros r Hok Ht. apply fine_bound. intros a Hb. apply fine_guard. intros _.
  destruct (cleanup_completed _) eqn:Hc; [apply fine_ret|]. apply fine_guard. intros Hg.
  apply andb_true in Hg as [[Hq Ha]%andb_true Hp%bool_decide_eq_true].
  eapply fine_update; [by eapply slot_ok_self|done|done| |by right]. intros Hv. by apply completed_valid.
Qed.

Lemma fine_current_boot {A} (k : Uuid → R A) : (∀ u, fine (k u)) → fine (current_boot env ≫= k).
Proof.
  intros Hk. apply fine_assoc, fine_ask. intros [u| |]; [exact (Hk u)|by intros w Hw _..].
Qed.

Lemma fine_logical_absence key b : fine (finish_artifact_logical_absence env key b).
Proof.
  apply fine_tombstone. intros r Hok Ht. apply fine_bound. intros a Hb. do 2 (apply fine_guard; intros _).
  apply fine_current_boot. intros u. apply fine_guard. intros _.
  destruct (cleanup_completed _) eqn:Hc; [apply fine_ret|]. apply fine_guard. intros Hl.
  eapply fine_update; [by eapply slot_ok_self|done|done| |by right]. intros Hv. apply absent_valid; [done..|].
  destruct (cleanup_quarantine (ab_cleanup a)) as [q|] eqn:Hq; [|apply quarantine_name_fresh].
  apply binding_valid_parts in Hv as (_ & _ & Hv). unfold cleanup_valid in Hv. rewrite Hq in Hv. cbn in Hv |- *. inv_ok. done.
Qed.

Lemma fine_create_absence key b : fine (finish_artifact_create_pending_absence env key b).
Proof.
  apply fine_tombstone. intros r Hok Ht. apply fine_bound. intros a Hb. apply fine_guard. intros Hg.
  apply fine_current_boot. intros u. apply fine_guard. intros _.
  destruct (cleanup_completed _) eqn:Hc; [apply fine_ret|]. inv_ok.
  eapply fine_update; [by eapply slot_ok_self|done|done| |by right]. intros Hv. apply create_absence_valid; [done..|].
  by destruct (cleanup_unlink_pending _).
Qed.

Lemma fine_artifact_binding key o : fine (artifact_binding env key o).
Proof.
  apply fine_guard. intros _. apply fine_read_valid. intros r _. do 3 (apply fine_guard; intros _). apply fine_ret.
Qed.

Lemma fine_allocate now owner :
  (∀ slot, is_Some (w_slots w0 !! slot) → slot ∈ Z.of_nat <$> seq 0 slot_count) →
  (∀ t, is_nil (env_uuid env t) = false) → fine (allocate_intent env slot_count now owner).
Proof. intros Hdom Hu. eapply triple_post; [by apply allocate_triple|done]. Qed.
End calls.

(** ** Runs *)

Inductive Call : Set :=
  | CallAllocate (now : Z) (owner : option ManagedOwnerTag)
  | CallRecordIdentity (intent : SlotRecord) (registration : GateRegistration)
  | CallCleanup (key : ManagedKey)
  | CallReconcileAll
  | CallReconcileOwner (owner : ManagedOwnerTag)
  | CallBeginCreation (intent : SlotRecord) (root : ManagedDirectoryIdentity) (leaf : str)
  | CallFinishCreation (intent : SlotRecord) (directory : ManagedDirectoryIdentity)
  | CallBeginRunner (intent : SlotRecord)
  | CallFinishRunner (intent : SlotRecord) (identity : ManagedArtifactIdentity)
  | CallBeginSocket (intent : SlotRecord)
  | CallFinishSocket (intent : SlotRecord) (identity : ManagedArtifactIdentity)
  | CallBeginOwner (intent : SlotRecord)
  | CallFinishOwner (intent : SlotRecord) (identity : ManagedArtifactIdentity)
  | CallBeginRetirement (key : ManagedKey) (b : ManagedArtifactBinding)
  | CallFinishRetirement (key : ManagedKey) (b : ManagedArtifactBinding)
  | CallBeginCleanup (key : ManagedKey) (b : ManagedArtifactBinding)
  | CallBeginUnlink (key : ManagedKey) (b : ManagedArtifactBinding) (step : ManagedArtifactCleanupStep)
  | CallFinishUnlink (key : ManagedKey) (b : ManagedArtifactBinding) (step : ManagedArtifactCleanupStep)
  | CallFinishCleanup (key : ManagedKey) (b : ManagedArtifactBinding)
  | CallLogicalAbsence (key : ManagedKey) (b : ManagedArtifactBinding)
  | CallCreateAbsence (key : ManagedKey) (b : ManagedArtifactBinding)
  | CallAcknowledge (key : ManagedKey) (b : ManagedArtifactBinding)
  | CallBinding (key : ManagedKey) (owner : ManagedOwnerTag).

(** The answer of a call does not matter here. *)
Definition forget {A} (m : M World ManagedError A) : M World ManagedError unit := m ;; mret tt.

Definition call (env : Env) (n : nat) (c : Call) : M World ManagedError unit :=
  match c with
  | CallAllocate now owner => forget (allocate_intent env n now owner)
  | CallRecordIdentity intent g => forget (record_identity env intent g)
  | CallCleanup key => forget (cleanup env (mk_slot key) (mk_generation key))
  | CallReconcileAll => forget (reconcile_all env n)
  | CallReconcileOwner o => forget (reconcile_owner env n o)
  | CallBeginCreation intent root leaf => forget (begin_artifact_creation env intent root leaf)
  | CallFinishCreation intent d => forget (finish_artifact_creation env intent d)
  | CallBeginRunner intent => forget (begin_artifact_runner_creation env intent)
  | CallFinishRunner intent i => forget (finish_artifact_runner env intent i)
  | CallBeginSocket intent => forget (begin_artifact_socket_creation env intent)
  | CallFinishSocket intent i => forget (finish_artifact_socket env intent i)
  | CallBeginOwner intent => forget (begin_artifact_owner_creation env intent)
  | CallFinishOwner intent i => forget (finish_artifact_owner env intent i)
  | CallBeginRetirement key b => forget (begin_artifact_socket_retirement env key b)
  | CallFinishRetirement key b => forget (finish_artifact_socket_retirement env key b)
  | CallBeginCleanup key b => forget (begin_artifact_cleanup env key b)
  | CallBeginUnlink key b step => forget (begin_artifact_unlink env key b step)
  | CallFinishUnlink key b step => forget (finish_artifact_unlink env key b step)
  | CallFinishCleanup key b => forget (finish_artifact_cleanup env key b)
  | CallLogicalAbsence key b => forget (finish_artifact_logical_absence env key b)
  | CallCreateAbsence key b => forget (finish_artifact_create_pending_absence env key b)
  | CallAcknowledge key b => acknowledge_artifact_cleanup env key b
  | CallBinding key o => forget (artifact_binding env key o)
  end.

(** The private directory is only made for a launch that has an owner. *)
Definition call_owned (c : Call) : bool :=
  match c with CallBeginCreation intent _ _ => is_some (sl_owner intent) | _ => true end.

(** A call with what the system answers to it; a new nonce is never nil. *)
Definition step_ok (s : Env * Call) : Prop := (∀ t, is_nil (env_uuid s.1 t) = false) ∧ call_owned s.2 = true.

Definition run_step (n : nat) (w : World) (s : Env * Call) : World := (call s.1 n s.2 w).2.
Definition run (n : nat) (steps : list (Env * Call)) (w : World) : World := foldl (run_step n) w steps.

(** The slots of a registry opened with [n] of them. *)
Definition slots_of (n : nat) (w : World) : Prop :=
  ∀ slot, is_Some (w_slots w !! slot) → slot ∈ Z.of_nat <$> seq 0 n.

Lemma fine_forget w0 {A} (m : M World ManagedError A) : fine w0 m → fine w0 (forget m).
Proof. intros H. apply fine_bind; [done|]. intros a. apply fine_ret. Qed.

Lemma fine_call env n w0 c : slots_of n w0 → step_ok (env, c) → fine w0 (call env n c).
Proof.
  intros Hdom [Hu Ho]. destruct c; cbn [call]; try apply fine_forget; auto using
    fine_allocate, fine_record_identity, fine_cleanup, fine_reconcile_all, fine_reconcile_owner, fine_begin_creation,
    fine_finish_creation, fine_begin_runner, fine_finish_runner, fine_begin_socket, fine_finish_socket,
    fine_begin_owner, fine_finish_owner, fine_begin_retirement, fine_finish_retirement, fine_begin_cleanup,
    fine_begin_unlink, fine_finish_unlink, fine_finish_cleanup, fine_logical_absence, fine_create_absence,
    fine_acknowledge, fine_artifact_binding.
Qed.

Lemma run_step_since n w s : slots_of n w → step_ok s → world_inv w → since w (run_step n w s).
Proof.
  intros Hdom Hs Hw. destruct s as [env c]. pose proof (fine_call env n w c Hdom Hs w (conj Hw (evolves_refl w)) I) as H.
  unfold run_step. cbn [fst snd]. destruct (call env n c w) as [[a|e] w']; [by destruct H|done].
Qed.

Lemma evolves_trans w1 w2 w3 : evolves w1 w2 → evolves w2 w3 → evolves w1 w3.
Proof.
  intros H1 H2 slot. specialize (H1 slot). specialize (H2 slot).
  destruct (w_slots w1 !! slot), (w_slots w2 !! slot), (w_slots w3 !! slot); try done. by etrans.
Qed.

Lemma slots_of_evolves n w w' : slots_of n w → evolves w w' → slots_of n w'.
Proof.
  intros Hdom Hev slot Hs. apply Hdom. specialize (Hev slot). destruct (w_slots w !! slot); [done|].
  by destruct (w_slots w' !! slot), Hs.
Qed.

Lemma run_since n steps w : slots_of n w → Forall step_ok steps → world_inv w → since w (run n steps w).
Proof.
  intros Hdom Hs. revert w Hdom. induction Hs as [|s steps Hs _ IH]; intros w Hdom Hw; [split; [done|apply evolves_refl]|].
  destruct (run_step_since n w s Hdom Hs Hw) as [Hw' Hev]. cbn [run foldl].
  destruct (IH (run_step n w s)) as [Hr Hev']; [by eapply slots_of_evolves|done|]. split; [done|by eapply evolves_trans].
Qed.

(** ** Progress *)

(** How many calls of a run change a slot. *)
Fixpoint changes (n : nat) (slot : Z) (steps : list (Env * Call)) (w : World) : Z :=
  match steps with
  | [] => 0
  | s :: steps =>
    (if bool_decide (w_slots (run_step n w s) !! slot = w_slots w !! slot) then 0 else 1)
    + changes n slot steps (run_step n w s)
  end.

Lemma steps_rank r r' : rtc slot_step r r' → r' = r ∨ slot_rank r < slot_rank r'.
Proof.
  induction 1 as [|r1 r2 r3 H _ IH]; [by left|]. apply slot_step_rank in H as [->|H]; [done|].
  right. destruct IH as [->|?]; lia.
Qed.

Lemma changes_rank n slot steps w r :
  slots_of n w → Forall step_ok steps → world_inv w → w_slots w !! slot = Some r →
  ∃ r', w_slots (run n steps w) !! slot = Some r' ∧ rtc slot_step r r' ∧
        changes n slot steps w ≤ slot_rank r' - slot_rank r.
Proof.
  intros Hdom Hs. revert w r Hdom. induction Hs as [|s steps Hs _ IH]; intros w r Hdom Hw Hr.
  { exists r. cbn. split; [done|]. split; [done|lia]. }
  destruct (run_step_since n w s Hdom Hs Hw) as [Hw' Hev]. pose proof (Hev slot) as Hsl. rewrite Hr in Hsl.
  destruct (w_slots (run_step n w s) !! slot) as [r1|] eqn:Hr1; [|done].
  destruct (IH (run_step n w s) r1) as (r' & Hr' & Hev' & Hch); [by eapply slots_of_evolves|done..|].
  exists r'. split; [done|]. split; [by etrans|]. cbn [changes]. rewrite Hr Hr1.
  destruct (steps_rank _ _ Hsl) as [->|Hlt]; [rewrite bool_decide_true //|case_bool_decide]; lia.
Qed.

(** ** The claims *)

(** C24: the registry of managed processes keeps its slots valid and each owner in one slot at
    most, whatever calls are made, whatever the system answers and wherever a write is lost;
    and every slot only moves along the table of transitions. *)
Theorem registry_history_valid n steps w :
  slots_of n w → Forall step_ok steps → world_inv w →
  world_inv (run n steps w) ∧
  ∀ slot r, w_slots w !! slot = Some r →
    ∃ r', w_slots (run n steps w) !! slot = Some r' ∧ rtc slot_step r r'.
Proof.
  intros Hdom Hs Hw. destruct (run_since n steps w Hdom Hs Hw) as [Hw' Hev]. split; [done|].
  intros slot r Hr. specialize (Hev slot). rewrite Hr in Hev. by destruct (w_slots (run n steps w) !! slot); [eexists|].
Qed.

(** a slot never comes back to a state it has left, so that comparing it with the record
    that a caller read before is enough to replace it; and between two generations the calls
    that change it are bounded, however many are made and however often they fail. *)
Theorem slot_changes_bounded n slot steps w r r' :
  slots_of n w → Forall step_ok steps → world_inv w →
  w_slots w !! slot = Some r → w_slots (run n steps w) !! slot = Some r' →
  changes n slot steps w ≤ 32 * (sl_generation r' - sl_generation r) + 29 ∧
  (r' = r → changes n slot steps w = 0).
Proof.
  intros Hdom Hs Hw Hr Hr'. destruct (changes_rank n slot steps w r Hdom Hs Hw Hr) as (r1 & Hr1 & _ & Hch).
  assert (r1 = r') as -> by congruence.
  assert (0 ≤ changes n slot steps w) as H0.
  { clear. revert w. induction steps as [|s steps IH]; intros w; cbn [changes]; [done|]. specialize (IH (run_step n w s)).
    case_bool_decide; lia. }
  pose proof (slot_rank_bounds r). pose proof (slot_rank_bounds r'). split; [lia|]. intros ->. lia.
Qed.
