(* ===== verification/ManagedExec.v ===== *)
(** What the calls of the registry of managed processes do to the slots: where a replacement
    can stop, and that it is done when the system answers. *)
From stdpp Require Import gmap.
From S2P Require Import Prelude Utf8 Protocol Text ManagedArtifacts ManagedSlots ManagedRegistry ManagedOps.

Definition tick (w : World) : World := {|
  w_slots := w_slots w; w_registrations := w_registrations w; w_time := S (w_time w); w_log := w_log w |}.

(** Only the time goes on. *)
Definition later (w w' : World) : Prop :=
  w_slots w' = w_slots w ∧ w_registrations w' = w_registrations w ∧ w_log w' = w_log w ∧ (w_time w ≤ w_time w')%nat.

Lemma later_trans w1 w2 w3 : later w1 w2 → later w2 w3 → later w1 w3.
Proof. intros (H1 & H2 & H3 & H4) (H5 & H6 & H7 & H8). split_and!; [congruence..|lia]. Qed.

Lemma later_refl w : later w w.
Proof. by split_and!. Qed.

Lemma later_tick w : later w (tick w).
Proof. split_and!; [done..|]. cbn. lia. Qed.

Section runs.
Context {A B : Type} (m : M World ManagedError A) (k : A → M World ManagedError B) (w w' : World).

Lemma bind_run a : m w = (Ok a, w') → (m ≫= k) w = k a w'.
Proof. intros H. unfold mbind, M_bind. by rewrite H. Qed.

Lemma bind_stop e : m w = (Err e, w') → (m ≫= k) w = (Err e, w').
Proof. intros H. unfold mbind, M_bind. by rewrite H. Qed.
End runs.

(** The slot as a reader finds it. *)
Definition stored (slots : gmap Z SlotRecord) (slot : Z) : option SlotRecord :=
  r ← slots !! slot; if validate_slot_record r slot then Some r else None.

Lemma stored_Some slots slot r : stored slots slot = Some r ↔ slots !! slot = Some r ∧ validate_slot_record r slot = true.
Proof.
  unfold stored. destruct (slots !! slot) as [x|]; [cbn|by split; [|intros [? _]]].
  destruct (validate_slot_record x slot) eqn:H.
  - split; [by intros [= <-]|by intros [? _]].
  - split; [done|]. intros [[= <-] ?]. congruence.
Qed.

Section exec.
Context (env : Env).

Lemma read_slot_run slot w :
  read_slot env slot w = (Ok (if env_readable env (w_time w) then stored (w_slots w) slot else None), tick w).
Proof. unfold read_slot, mbind, M_bind, ask, get. cbn. by destruct (env_readable env (w_time w)). Qed.

Lemma read_valid_run slot w :
  read_valid_slot env slot w =
  (match (if env_readable env (w_time w) then stored (w_slots w) slot else None) with
   | Some r => Ok r | None => Err UnknownOrphanRisk end, tick w).
Proof. unfold read_valid_slot, mbind, M_bind. rewrite read_slot_run. by repeat case_match. Qed.

Lemma read_valid_Ok slot w r w' :
  read_valid_slot env slot w = (Ok r, w') →
  w' = tick w ∧ w_slots w !! slot = Some r ∧ validate_slot_record r slot = true.
Proof.
  rewrite read_valid_run. destruct (env_readable _ _); [|done].
  destruct (stored _ _) as [x|] eqn:H; [|done]. intros [= -> <-]. by apply stored_Some in H.
Qed.

(** A replacement changes nothing, or does its write; and when it answers, the write is read. *)
Lemma replace_slot_effect current next w res w' :
  replace_slot env current next w = (res, w') →
  (w_slots w' = w_slots w ∧ res ≠ Ok tt) ∨
  (validate_transition current next = true ∧ w_slots w !! sl_slot current = Some current ∧
   w_slots w' = <[sl_slot next := next]> (w_slots w) ∧ (res = Ok tt → w_slots w' !! sl_slot current = Some next)).
Proof.
  unfold replace_slot, guard_or. destruct (validate_transition current next) eqn:Ht; [|intros [= <- <-]; by left].
  intros H. unfold mbind, M_bind at 1 in H. cbn in H. unfold M_bind at 1 in H. rewrite read_valid_run in H.
  destruct (if env_readable env (w_time w) then _ else _) as [cur|] eqn:Hr; [|injection H as <- <-; by left].
  destruct (bool_decide (cur = current)) eqn:Hc; [|injection H as <- <-; by left].
  apply bool_decide_eq_true in Hc as ->. cbn in H.
  assert (w_slots w !! sl_slot current = Some current) as Hcur.
  { destruct (env_readable env (w_time w)); [|done]. by apply stored_Some in Hr as [? _]. }
  unfold keeping, ask, mbind in H. unfold M_bind in H. cbn in H.
  destruct (env_write env (S (w_time w))); cbn in H.
  - rewrite read_valid_run in H. cbn in H. right. clear Hr.
    destruct (if env_readable env _ then _ else _) as [rb|] eqn:Hrb; [|injection H as <- <-; by split_and!].
    destruct (bool_decide (rb = next)) eqn:Hn; injection H as <- <-; split_and!; try done. intros _.
    apply bool_decide_eq_true in Hn as ->. destruct (env_readable env _); [|done]. by apply stored_Some in Hrb as [? _].
  - injection H as <- <-. by left.
  - injection H as <- <-. right. by split_and!.
Qed.

(** The system answers and keeps what is written. *)
Definition responsive : Prop :=
  ∀ t, env_lock env t = true ∧ env_readable env t = true ∧ env_write env t = Written.

Lemma read_valid_stored slot w r :
  responsive → stored (w_slots w) slot = Some r → read_valid_slot env slot w = (Ok r, tick w).
Proof. intros Hr Hs. rewrite read_valid_run. destruct (Hr (w_time w)) as (_ & -> & _). by rewrite Hs. Qed.

(** The world with a slot replaced, later on. *)
Definition wrote (r : SlotRecord) (w w' : World) : Prop := w_slots w' = <[sl_slot r := r]> (w_slots w).

Lemma replace_slot_done current next w :
  responsive → validate_transition current next = true → stored (w_slots w) (sl_slot current) = Some current →
  validate_slot_record next (sl_slot current) = true → sl_slot next = sl_slot current →
  ∃ w', replace_slot env current next w = (Ok tt, w') ∧ wrote next w w'.
Proof.
  intros Hr Ht Hc Hn Hsl. unfold replace_slot, guard_or. rewrite Ht. unfold mbind, M_bind at 1. cbn.
  unfold M_bind at 1. rewrite (read_valid_stored _ _ _ Hr Hc). rewrite bool_decide_true //. cbn.
  unfold keeping, ask, mbind, M_bind. cbn. destruct (Hr (S (w_time w))) as (_ & _ & ->). cbn.
  rewrite read_valid_run. cbn. destruct (Hr (S (S (w_time w)))) as (_ & -> & _).
  assert (stored (<[sl_slot next:=next]> (w_slots w)) (sl_slot current) = Some next) as ->.
  { apply stored_Some. split; [by rewrite -Hsl lookup_insert_eq|done]. }
  rewrite bool_decide_true //. cbn. by eexists.
Qed.
End exec.
