(* ===== verification/ManagedSignals.v ===== *)
(** Whom the registry of managed processes kills: a signal is only sent while the cleanup of
    the process is durable, through a descriptor that was verified after it was opened; and
    what a tombstone says of the process it replaces. *)
From stdpp Require Import gmap relations.
From S2P Require Import Prelude Utf8 Protocol Text ManagedArtifacts ManagedSlots ManagedRegistry ManagedOps ManagedHistory ManagedRuns ManagedExec.

(** The slots after the writes of a log. *)
Definition replay (base : gmap Z SlotRecord) (log : list (nat * Event)) : gmap Z SlotRecord :=
  foldl (λ m e, match snd e with LogWrite r => <[sl_slot r := r]> m | LogSignal _ _ => m end) base log.

Section signals.
Context (env : Env).

(** What was seen between the opening of a descriptor and now. *)
Definition verified (i : ManagedIdentity) (opened now : nat) : Prop :=
  env_pidfd env opened (mi_pid i) = Present tt ∧
  ∃ t, (opened < t ∧ S (S t) < now)%nat ∧ env_boot env t = Present (mi_boot i) ∧
       env_namespace env (S t) (mi_pid i) = Present (mi_namespace i) ∧
       env_ticks env (S (S t)) (mi_pid i) = Present (mi_start_ticks i).

(** An answer that an identity is not that of a process that runs. *)
Definition contradicts (i : ManagedIdentity) (t : nat) : Prop :=
  env_pidfd env t (mi_pid i) = Absent ∨ env_namespace env t (mi_pid i) = Absent ∨ env_ticks env t (mi_pid i) = Absent ∨
  (∃ b, env_boot env t = Present b ∧ b ≠ mi_boot i) ∨
  (∃ n, env_namespace env t (mi_pid i) = Present n ∧ n ≠ mi_namespace i) ∨
  (∃ k, env_ticks env t (mi_pid i) = Present k ∧ k ≠ mi_start_ticks i).

Ltac ends := do 2 eexists; split; [reflexivity|]; split; [split_and!; try done; cbn; lia|]; cbn.

Lemma open_verified_spec i w :
  ∃ ev w', open_verified_pidfd env i w = (Ok ev, w') ∧ later w w' ∧
    match ev with
    | Present opened => opened = w_time w ∧ verified i opened (w_time w')
    | Absent => ∃ t, (w_time w ≤ t < w_time w')%nat ∧ contradicts i t
    | Unavailable => True
    end.
Proof.
  unfold open_verified_pidfd, observe_identity, if_present, mbind, M_bind, ask. cbn.
  destruct (env_pidfd env (w_time w) (mi_pid i)) as [[]| |] eqn:Hp; cbn.
  2:{ ends. exists (w_time w). split; [lia|by left]. }
  2:{ ends. done. }
  destruct (env_boot env _) as [b| |] eqn:Hb; cbn; [|ends; done..].
  destruct (env_namespace env _ _) as [n| |] eqn:Hn; cbn.
  2:{ ends. exists (S (S (w_time w))). split; [lia|by right; left]. }
  2:{ ends. done. }
  destruct (env_ticks env _ _) as [k| |] eqn:Hk; cbn.
  2:{ ends. exists (S (S (S (w_time w)))). split; [lia|by do 2 right; left]. }
  2:{ ends. done. }
  case_bool_decide as Hi; ends.
  - split; [done|]. split; [done|]. exists (S (w_time w)). rewrite Hb Hn Hk -Hi. cbn. split; [lia|done].
  - destruct (decide (b = mi_boot i)) as [->|Hbi].
    2:{ exists (S (w_time w)). split; [lia|]. do 3 right. left. eauto. }
    destruct (decide (n = mi_namespace i)) as [->|Hni].
    2:{ exists (S (S (w_time w))). split; [lia|]. do 4 right. left. eauto. }
    exists (S (S (S (w_time w)))). split; [lia|]. do 5 right. exists k. split; [done|]. intros ->. by destruct i.
Qed.

Lemma verify_spec i w :
  ∃ ev w', verify_exact_process env i w = (Ok ev, w') ∧ later w w' ∧
    (ev = Absent → ∃ t, (w_time w ≤ t < w_time w')%nat ∧ contradicts i t).
Proof.
  unfold verify_exact_process. unfold mbind at 1, M_bind at 1, ask. cbn.
  destruct (env_boot env _) as [b| |] eqn:Hb; [|by ends..].
  destruct (negb _) eqn:Hne; cbn.
  { ends. intros _. exists (w_time w). split; [lia|]. do 3 right. left. exists b. split; [done|]. inv_ok. lia. }
  unfold mbind, M_bind. destruct (open_verified_spec i (tick w)) as (ev & w' & Heq & Hl & Hev). unfold tick in *.
  rewrite Heq. destruct Hl as (H1 & H2 & H3 & H4). cbn in *.
  destruct ev as [o| |]; (do 2 eexists; split; [reflexivity|]; split; [split_and!; [done..|lia]|]; try done).
  intros _. destruct Hev as (t & Ht & Hc). exists t. split; [lia|done].
Qed.

(** ** The log *)

Context (base : gmap Z SlotRecord).

Definition being_cleaned (slots : gmap Z SlotRecord) (i : ManagedIdentity) : Prop :=
  ∃ slot r nonce release, slots !! slot = Some r ∧ sl_state r = CleanupPending nonce i release.

Definition log_inv (w : World) : Prop :=
  w_slots w = replay base (w_log w) ∧
  ∀ l1 t opened i l2, w_log w = l1 ++ (t, LogSignal opened i) :: l2 →
    verified i opened t ∧ being_cleaned (replay base l1) i.

Lemma replay_snoc log e :
  replay base (log ++ [e]) =
  match snd e with LogWrite r => <[sl_slot r := r]> (replay base log) | LogSignal _ _ => replay base log end.
Proof. unfold replay. by rewrite foldl_app. Qed.

Lemma log_inv_same w w' : w_slots w' = w_slots w → w_log w' = w_log w → log_inv w → log_inv w'.
Proof. intros H1 H2 [H3 H4]. split; rewrite ?H1 H2 //. Qed.

Lemma snoc_eq {A} (l1 l2 l : list A) x y :
  l ++ [y] = l1 ++ x :: l2 → (l2 = [] ∧ x = y ∧ l1 = l) ∨ ∃ l2', l2 = l2' ++ [y] ∧ l = l1 ++ x :: l2'.
Proof.
  destruct (l2) as [|z l2' _] using rev_ind; [intros [-> [= ->]]%app_inj_2; auto|].
  rewrite app_comm_cons app_assoc. intros [-> [= ->]]%app_inj_2; [|done]. right. eauto.
Qed.

Lemma log_inv_snoc w w' e :
  w_log w' = w_log w ++ [e] →
  w_slots w' = match snd e with LogWrite r => <[sl_slot r := r]> (w_slots w) | LogSignal _ _ => w_slots w end →
  match snd e with
  | LogWrite _ => True
  | LogSignal opened i => verified i opened (fst e) ∧ being_cleaned (w_slots w) i
  end → log_inv w → log_inv w'.
Proof.
  intros Hl Hs He [Hr Hsig]. split; [by rewrite Hl replay_snoc Hs Hr|].
  intros l1 t opened i l2. rewrite Hl. intros [(-> & <- & ->)|(l2' & -> & Hw)]%snoc_eq; [|by eapply Hsig].
  cbn in He. by rewrite Hr in He.
Qed.

(** A call that sends no signal of its own. *)
Definition quiet {A} (m : M World ManagedError A) : Prop := ∀ w, log_inv w → log_inv (m w).2.

Lemma quiet_seq {A B} (m : M World ManagedError A) (k : A → M World ManagedError B) :
  quiet m → (∀ a, quiet (k a)) → quiet (m ≫= k).
Proof.
  intros Hm Hk w Hw. specialize (Hm w Hw). unfold mbind, M_bind. destruct (m w) as [[a|e] w']; [by apply Hk|done].
Qed.

Lemma quiet_ret {A} (a : A) : quiet (mret a).
Proof. by intros w Hw. Qed.

Lemma quiet_throw {A} e : quiet (throw e : M World ManagedError A).
Proof. by intros w Hw. Qed.

Lemma quiet_guard c e : quiet (guard_or c e).
Proof. by intros w Hw; destruct c. Qed.

Lemma quiet_ask {A} (f : nat → A) : quiet (ask f).
Proof. intros w. by apply log_inv_same. Qed.

Lemma quiet_get : quiet get.
Proof. by intros w Hw. Qed.

Lemma quiet_set_slot r : quiet (set_slot r).
Proof. intros w. by apply (log_inv_snoc w _ (w_time w, LogWrite r)). Qed.

Lemma quiet_set_registration slot r : quiet (set_registration slot r).
Proof. intros w. by apply log_inv_same. Qed.

Lemma quiet_unwrap {A} (m : M World ManagedError A) d : quiet m → quiet (unwrap_or m d).
Proof. intros Hm w Hw. specialize (Hm w Hw). unfold unwrap_or. by destruct (m w) as [[a|e] w']. Qed.

(** Goes through a call. *)
Ltac quiet :=
  repeat first [ assumption | apply quiet_ret | apply quiet_throw | apply quiet_guard | apply quiet_ask | apply quiet_get
               | apply quiet_set_slot | apply quiet_set_registration | apply quiet_seq; [|intros] | case_match ].

Lemma quiet_read_slot slot : quiet (read_slot env slot).
Proof. unfold read_slot. quiet. Qed.

Lemma quiet_read_valid slot : quiet (read_valid_slot env slot).
Proof. unfold read_valid_slot, read_slot. quiet. Qed.

Lemma quiet_keeping m : quiet m → quiet (keeping env m).
Proof. intros H. unfold keeping. quiet. Qed.

Lemma quiet_replace current next : quiet (replace_slot env current next).
Proof. unfold replace_slot, keeping, read_valid_slot, read_slot. quiet. Qed.

Lemma quiet_replace_registration slot r : quiet (replace_registration env slot r).
Proof. unfold replace_registration, keeping, read_registration. quiet. Qed.

Lemma quiet_scan now owner slots sel n : quiet (allocate_scan env now owner slots sel n).
Proof.
  revert sel n. induction slots as [|slot slots IH]; intros sel n; cbn [allocate_scan]; [apply quiet_ret|].
  apply quiet_seq; [apply quiet_read_slot|]. intros [r|]; [|apply IH]. apply quiet_seq; [apply quiet_guard|]. intros _.
  destruct (sl_state r); try apply IH. destruct (_ && _); [|apply IH].
  apply quiet_seq; [apply quiet_replace|]. intros _. apply IH.
Qed.

Lemma quiet_allocate n now owner : quiet (allocate_intent env n now owner).
Proof.
  unfold allocate_intent, try_acquire. repeat first [apply quiet_scan|apply quiet_replace_registration|apply quiet_replace|
    apply quiet_ret|apply quiet_throw|apply quiet_guard|apply quiet_ask|apply quiet_seq; [|intros]|case_match].
Qed.

Lemma quiet_observe i : quiet (observe_identity env i).
Proof. unfold observe_identity, if_present. quiet. Qed.

Lemma quiet_verify i : quiet (verify_exact_process env i).
Proof. intros w. destruct (verify_spec i w) as (ev & w' & -> & (H1 & H2 & H3 & H4) & _). by apply log_inv_same. Qed.

Lemma quiet_persist r n i : quiet (persist_tombstone env r n i).
Proof.
  unfold persist_tombstone. apply quiet_seq; [apply quiet_ask|]. intros [now|]; [|apply quiet_throw].
  apply quiet_seq; [apply quiet_replace|intros; apply quiet_ret].
Qed.

Lemma quiet_reconcile_intent r : quiet (reconcile_intent env r).
Proof.
  unfold reconcile_intent. destruct (sl_state r); try apply quiet_ret.
  apply quiet_seq; [apply quiet_ask|]. intros [|]; [apply quiet_ret|]. apply quiet_seq.
  - intros w Hw. unfold read_registration_opt.
    assert (quiet (read_registration env (sl_slot r))) as Hq by (unfold read_registration; quiet).
    specialize (Hq w Hw). by destruct (read_registration env (sl_slot r) w) as [[?|?] ?].
  - intros sc. destruct (sc ≫= _); [|apply quiet_ret]. apply quiet_seq; [apply quiet_verify|]. intros; apply quiet_ret.
Qed.

(** The signal of a cleanup, from the durable [CleanupPending] on. *)
Lemma quiet_kill pending nonce i w :
  being_cleaned (w_slots w) i → log_inv w → log_inv (kill_and_resolve env pending nonce i w).2.
Proof.
  intros Hb Hw. unfold kill_and_resolve.
  destruct (open_verified_spec i w) as (ev & w1 & Heq & Hl & Hev). destruct Hl as (H1 & H2 & H3 & H4).
  assert (log_inv w1) as Hw1 by by apply (log_inv_same w).
  rewrite (bind_run _ _ _ _ _ Heq).
  destruct ev as [opened| |]; [|by apply quiet_persist|done]. destruct Hev as [_ Hver].
  erewrite bind_run by reflexivity.
  match goal with |- log_inv (?m ?w2).2 => enough (log_inv w2 ∧ quiet m) as [? Hq]; [by apply Hq|] end. split.
  - apply (log_inv_snoc w1 _ (w_time w1, LogSignal opened i)); try done. by rewrite H1.
  - repeat first [apply quiet_persist|apply quiet_verify|apply quiet_ret|apply quiet_guard|apply quiet_ask
      |apply quiet_seq; [|intros]|case_match].
Qed.

Lemma quiet_cleanup slot generation : quiet (cleanup env slot generation).
Proof.
  unfold cleanup. apply quiet_seq; [unfold try_acquire; quiet|]. intros _ w Hw.
  destruct (read_valid_slot env slot w) as [[r|e] w1] eqn:Hr.
  2:{ rewrite (bind_stop _ _ _ _ _ Hr). pose proof (quiet_read_valid slot w Hw) as H. by rewrite Hr in H. }
  rewrite (bind_run _ _ _ _ _ Hr).
  apply read_valid_Ok in Hr as (-> & Hr & Hv). assert (log_inv (tick w)) as Hw1 by by apply (log_inv_same w).
  destruct (sl_generation r =? generation); [|done]. erewrite bind_run by reflexivity.
  assert (sl_slot r = slot) as Hs by (unfold validate_slot_record in Hv; inv_ok; lia).
  assert (∀ n i rel,
    log_inv (((if bool_decide (r = with_state r (CleanupPending n i rel)) then mret tt
      else replace_slot env r (with_state r (CleanupPending n i rel))) ;;
      kill_and_resolve env (with_state r (CleanupPending n i rel)) n i) (tick w)).2) as Hkill.
  { intros n i rel. case_bool_decide as Heq.
    - erewrite bind_run by reflexivity. apply quiet_kill; [|done]. exists slot, r, n, rel. split; [done|]. by rewrite Heq.
    - pose proof (quiet_replace r (with_state r (CleanupPending n i rel)) (tick w) Hw1) as Hq.
      destruct (replace_slot _ _ _ _) as [[[]|e] w2] eqn:Hrep.
      + rewrite (bind_run _ _ _ _ _ Hrep). apply quiet_kill; [|done].
        apply replace_slot_effect in Hrep as [[_ ?]|(_ & _ & _ & H)]; [done|].
        exists (sl_slot r), (with_state r (CleanupPending n i rel)), n, rel. split; [by apply H|done].
      + by rewrite (bind_stop _ _ _ _ _ Hrep). }
  destruct (sl_state r) as [|n t|n i rel|n i rel|n i t]; [done| |by apply Hkill|by apply Hkill|done].
  match goal with |- log_inv (?m _).2 => enough (quiet m) as Hq; [by apply Hq|] end.
  apply quiet_seq; [apply quiet_reconcile_intent|]. intros []; try apply quiet_ret. apply quiet_persist.
Qed.

Lemma quiet_reconcile_all n : quiet (reconcile_all env n).
Proof.
  unfold reconcile_all. induction (Z.of_nat <$> seq 0 n) as [|slot slots IH]; [apply quiet_ret|].
  cbn [reconcile_slots]. apply quiet_seq.
  - unfold reconcile_slot. apply quiet_seq; [apply quiet_read_slot|]. intros [r|]; [|apply quiet_ret].
    destruct (sl_state r); try apply quiet_ret;
      (apply quiet_seq; [apply quiet_unwrap, quiet_cleanup|intros; apply quiet_ret]).
  - intros e. apply quiet_seq; [exact IH|intros; apply quiet_ret].
Qed.

Lemma quiet_find_owner o slots m : quiet (find_owner env o slots m).
Proof.
  revert m. induction slots as [|slot slots IH]; intros m; cbn [find_owner]; [apply quiet_ret|].
  apply quiet_seq; [apply quiet_read_slot|]. intros [r|]; [|apply quiet_ret].
  case_bool_decide; [destruct (is_some m); [apply quiet_ret|]|]; apply IH.
Qed.

Lemma quiet_reconcile_owner n o : quiet (reconcile_owner env n o).
Proof.
  unfold reconcile_owner. apply quiet_seq; [apply quiet_guard|]. intros _.
  apply quiet_seq; [apply quiet_find_owner|]. intros [out|[r|]]; try apply quiet_ret.
  destruct (sl_state r); try apply quiet_ret;
    (apply quiet_seq; [apply quiet_unwrap, quiet_cleanup|intros; apply quiet_ret]).
Qed.

(** The operations on the files only write. *)
Ltac quiet_ops :=
  repeat first [ assumption | apply quiet_ret | apply quiet_throw | apply quiet_guard | apply quiet_ask
               | apply quiet_get
               | apply quiet_replace | apply quiet_read_valid | apply quiet_seq; [|intros] | case_match ].

Lemma quiet_call n c : quiet (call env n c).
Proof.
  destruct c; cbn [call]; unfold forget;
    first [ apply quiet_seq; [first [apply quiet_allocate|apply quiet_cleanup|apply quiet_reconcile_all|apply quiet_reconcile_owner]
                              |intros; apply quiet_ret]
          | unfold record_identity, read_registration, begin_artifact_creation, finish_artifact_creation,
              begin_artifact_runner_creation, finish_artifact_runner, begin_artifact_socket_creation, finish_artifact_socket,
              begin_artifact_owner_creation, finish_artifact_owner, begin_artifact_socket_retirement,
              finish_artifact_socket_retirement, begin_artifact_cleanup, begin_artifact_unlink, finish_artifact_unlink,
              finish_artifact_cleanup, finish_artifact_logical_absence, finish_artifact_create_pending_absence,
              acknowledge_artifact_cleanup, artifact_binding, advance, in_phase, tombstone_slot, locked_slot, bound,
              update_binding, current_boot, try_acquire; quiet_ops ].
Qed.

Lemma quiet_run n calls w : log_inv w → log_inv (run n ((env,.) <$> calls) w).
Proof.
  revert w. induction calls as [|c calls IH]; intros w Hw; [done|]. cbn [fmap list_fmap run foldl]. apply IH.
  by apply quiet_call.
Qed.

(** ** What the kernel promises *)

(** Which process has a pid at a time, within one boot. *)
Context (occupant : nat → Z → option ManagedIdentity).

Record kernel_laws : Prop := {
  kl_pidfd : ∀ t pid, env_pidfd env t pid = Absent → occupant t pid = None;
  kl_namespace_absent : ∀ t pid, env_namespace env t pid = Absent → occupant t pid = None;
  kl_namespace : ∀ t pid n j, env_namespace env t pid = Present n → occupant t pid = Some j → mi_namespace j = n;
  kl_ticks_absent : ∀ t pid, env_ticks env t pid = Absent → occupant t pid = None;
  kl_ticks : ∀ t pid k, env_ticks env t pid = Present k → ∃ j, occupant t pid = Some j ∧ mi_start_ticks j = k;
  kl_boot : ∀ t t' pid b j, env_boot env t = Present b → occupant t' pid = Some j → mi_boot j = b;
  (* the start tells the processes that have had a pid apart *)
  kl_start : ∀ t t' pid i j, occupant t pid = Some i → occupant t' pid = Some j →
               mi_boot i = mi_boot j → mi_start_ticks i = mi_start_ticks j → i = j;
  (* a process that has left its pid does not come back to it *)
  kl_leaves : ∀ t1 t2 t3 pid i, (t1 ≤ t2 ≤ t3)%nat → occupant t1 pid = Some i → occupant t3 pid = Some i →
                occupant t2 pid = Some i;
}.

Definition lived (i : ManagedIdentity) (t : nat) : Prop := ∃ t0, (t0 ≤ t)%nat ∧ occupant t0 (mi_pid i) = Some i.

Lemma verified_is_occupant i opened now :
  kernel_laws → verified i opened now → lived i opened → occupant opened (mi_pid i) = Some i.
Proof.
  intros K (_ & t & Ht & Hb & _ & Hk) (t0 & Ht0 & Hi). destruct (kl_ticks K _ _ _ Hk) as (j & Hj & Hjk).
  assert (j = i) as ->.
  { apply (kl_start K _ _ _ _ _ Hj Hi); [|done]. by rewrite (kl_boot K _ _ _ _ _ Hb Hj). }
  apply (kl_leaves K t0 opened (S (S t)) _ _); [lia|done..].
Qed.

Lemma contradicts_gone i t t' :
  kernel_laws → contradicts i t → lived i t → (t ≤ t')%nat → occupant t' (mi_pid i) ≠ Some i.
Proof.
  intros K Hc (t0 & Ht0 & Hi) Ht' Hi'.
  assert (occupant t (mi_pid i) = Some i) as Ho by (apply (kl_leaves K t0 t t'); [lia|done..]).
  destruct Hc as [H|[H|[H|[(b & H & Hne)|[(m & H & Hne)|(k & H & Hne)]]]]].
  - by rewrite (kl_pidfd K _ _ H) in Ho.
  - by rewrite (kl_namespace_absent K _ _ H) in Ho.
  - by rewrite (kl_ticks_absent K _ _ H) in Ho.
  - apply Hne. symmetry. by apply (kl_boot K _ _ _ _ _ H Ho).
  - apply Hne. symmetry. by apply (kl_namespace K _ _ _ _ H Ho).
  - apply Hne. destruct (kl_ticks K _ _ _ H) as (j & Hj & <-). congruence.
Qed.

(** ** Time *)

Definition timely {A} (m : M World ManagedError A) : Prop := ∀ w, (w_time w ≤ w_time (m w).2)%nat.

Lemma timely_bind {A B} (m : M World ManagedError A) (k : A → M World ManagedError B) :
  timely m → (∀ a, timely (k a)) → timely (m ≫= k).
Proof.
  intros Hm Hk w. specialize (Hm w). unfold mbind, M_bind. destruct (m w) as [[a|e] w']; [|done].
  etrans; [exact Hm|apply Hk].
Qed.

Lemma timely_guard c e : timely (guard_or c e).
Proof. by intros w; destruct c. Qed.

Lemma timely_ask {A} (f : nat → A) : timely (ask f).
Proof. intros w. cbn. lia. Qed.

Lemma timely_read slot : timely (read_valid_slot env slot).
Proof. intros w. rewrite read_valid_run. cbn. lia. Qed.

Lemma timely_replace current next : timely (replace_slot env current next).
Proof.
  unfold replace_slot, keeping. repeat first [apply timely_guard|apply timely_ask|apply timely_read|
    apply timely_bind; [|intros]|case_match; intros w; done].
Qed.

Lemma timely_persist r nonce i : timely (persist_tombstone env r nonce i).
Proof.
  unfold persist_tombstone. apply timely_bind; [apply timely_ask|]. intros [now|]; [|by intros w].
  apply timely_bind; [apply timely_replace|by intros [] w].
Qed.

Lemma kill_resolves pending nonce i w w' :
  kill_and_resolve env pending nonce i w = (Ok OutcomeTombstone, w') →
  ∃ t w1, (w_time w ≤ t < w_time w')%nat ∧ contradicts i t ∧
          persist_tombstone env pending nonce (Some i) w1 = (Ok OutcomeTombstone, w').
Proof.
  unfold kill_and_resolve. intros H.
  destruct (open_verified_spec i w) as (ev & w1 & Heq & Hl & Hev). rewrite (bind_run _ _ _ _ _ Heq) in H.
  assert (∀ w2, persist_tombstone env pending nonce (Some i) w2 = (Ok OutcomeTombstone, w') → (w_time w2 ≤ w_time w')%nat) as Hp.
  { intros w2 H2. pose proof (timely_persist pending nonce (Some i) w2) as Ht. by rewrite H2 in Ht. }
  destruct ev as [opened| |]; [|destruct Hev as (t & Ht & Hc); exists t, w1; specialize (Hp _ H); split_and!; [lia..|done|done]|done].
  apply M_bind_Ok in H as ([] & w2 & H2 & H). injection H2 as <-.
  apply M_bind_Ok in H as (sent & w3 & H3 & H). injection H3 as <- <-.
  apply M_bind_Ok in H as ([] & w4 & H4 & H). destruct (env_signal env _); [injection H4 as <-|done].
  apply M_bind_Ok in H as (waited & w5 & H5 & H). injection H5 as <- <-.
  apply M_bind_Ok in H as ([] & w6 & H6 & H). destruct (env_wait env _); [injection H6 as <-|done].
  match type of H with (_ ≫= _) ?wv = _ => destruct (verify_spec i wv) as (ev & w7 & Hv & Hl7 & Hgone) end.
  rewrite (bind_run _ _ _ _ _ Hv) in H. destruct ev as [|  |]; [done| |done].
  destruct (Hgone eq_refl) as (t & Ht & Hc). exists t, w7. specialize (Hp _ H).
  destruct Hl as (_ & _ & _ & Hl). cbn in Ht. split_and!; [lia|lia|done|done].
Qed.
Lemma persist_done r nonce i w w' :
  persist_tombstone env r nonce i w = (Ok OutcomeTombstone, w') →
  ∃ resolved, w_slots w' !! sl_slot r = Some (with_state r (ResolvedTombstone nonce i resolved)).
Proof.
  unfold persist_tombstone. intros (now & w1 & _ & H)%M_bind_Ok. destruct now as [now|]; [|done].
  apply M_bind_Ok in H as ([] & w2 & H & [= <-]). apply replace_slot_effect in H as [[_ ?]|(_ & _ & _ & H)]; [done|].
  exists now. by apply H.
Qed.

(** The way of a cleanup through a recorded identity. *)
Lemma cleanup_recorded slot generation nonce i release r out w w' :
  w_slots w !! slot = Some r →
  sl_state r = IdentityDurable nonce i release ∨ sl_state r = CleanupPending nonce i release →
  cleanup env slot generation w = (Ok out, w') →
  sl_slot r = slot ∧ ∃ w1, (w_time w ≤ w_time w1)%nat ∧
    kill_and_resolve env (with_state r (CleanupPending nonce i release)) nonce i w1 = (Ok out, w').
Proof.
  intros Hr Hst H. unfold cleanup in H.
  apply M_bind_Ok in H as ([] & w1 & H1 & H). unfold try_acquire in H1. apply M_bind_Ok in H1 as (b & w0 & H0 & H1).
  injection H0 as <- <-. destruct (env_lock env (w_time w)); [injection H1 as <-|done].
  apply M_bind_Ok in H as (r1 & w2 & H2 & H). apply read_valid_Ok in H2 as (-> & Hr1 & Hv). cbn in Hr1.
  assert (r1 = r) as -> by congruence. apply M_bind_Ok in H as ([] & w3 & H3 & H).
  destruct (sl_generation r =? generation); [injection H3 as <-|done].
  assert (((if bool_decide (r = with_state r (CleanupPending nonce i release)) then mret tt
     else replace_slot env r (with_state r (CleanupPending nonce i release))) ;;
    kill_and_resolve env (with_state r (CleanupPending nonce i release)) nonce i) (tick (tick w)) = (Ok out, w')) as Hk.
  { destruct Hst as [Hst|Hst]; rewrite Hst in H; exact H. }
  clear H. apply M_bind_Ok in Hk as ([] & w4 & H4 & Hk).
  split; [unfold validate_slot_record in Hv; inv_ok; lia|]. exists w4. split; [|exact Hk].
  case_bool_decide; [injection H4 as <-; cbn; lia|].
  pose proof (timely_replace r (with_state r (CleanupPending nonce i release)) (tick (tick w))) as Ht.
  rewrite H4 in Ht. cbn in Ht. lia.
Qed.
End signals.

(** ** The claims *)

(** C21: the registry only sends SIGKILL to a process whose cleanup is durable in a slot at that
    moment, through a descriptor opened before its identity was checked; so when the recorded
    process had that pid at some time before, the descriptor is that of the recorded process
    and of no other that took its pid.  This holds in every run of calls of a boot. *)
Theorem cleanup_kills_only_recorded env occupant n calls w l1 t opened i l2 :
  kernel_laws env occupant → w_log w = [] →
  w_log (run n ((env,.) <$> calls) w) = l1 ++ (t, LogSignal opened i) :: l2 →
  being_cleaned (replay (w_slots w) l1) i ∧
  (lived occupant i opened → occupant opened (mi_pid i) = Some i).
Proof.
  intros K Hw Hl. assert (log_inv env (w_slots w) w) as Hi.
  { split; [by rewrite Hw|]. intros ? ? ? ? ?. rewrite Hw. by intros ?%app_cons_not_nil. }
  destruct (quiet_run env (w_slots w) n calls w Hi) as [_ H]. destruct (H _ _ _ _ _ Hl) as [Hv Hc]. split; [done|].
  intros Hlived. by eapply verified_is_occupant.
Qed.

(** when the cleanup of a recorded process answers that it is resolved, the slot holds the
    tombstone with its identity, and the process does not run at that time or later. *)
Theorem tombstone_process_gone env occupant slot generation nonce i release r w w' :
  kernel_laws env occupant → w_slots w !! slot = Some r →
  sl_state r = IdentityDurable nonce i release ∨ sl_state r = CleanupPending nonce i release →
  lived occupant i (w_time w) → cleanup env slot generation w = (Ok OutcomeTombstone, w') →
  (∃ t resolved, w_slots w' !! slot = Some t ∧ sl_state t = ResolvedTombstone nonce (Some i) resolved) ∧
  ∀ t, (w_time w' ≤ t)%nat → occupant t (mi_pid i) ≠ Some i.
Proof.
  intros K Hr Hst (t0 & Ht0 & Hl) H.
  destruct (cleanup_recorded _ _ _ _ _ _ _ _ _ _ Hr Hst H) as (Hs & w1 & Hw1 & Hk).
  apply kill_resolves in Hk as (t & w5 & Ht & Hc & Hp). split.
  - apply persist_done in Hp as [resolved Hp]. cbn in Hp. rewrite Hs in Hp. eauto.
  - intros t' Ht'. eapply contradicts_gone; [done|done|exists t0; split; [lia|done]|lia].
Qed.
