(* ===== verification/ManagedRetry.v ===== *)
(** An operation on the files of a managed launch whose answer was lost can be made again: it
    finds its step done. *)
From stdpp Require Import gmap relations.
From S2P Require Import Prelude Utf8 Protocol Text ManagedArtifacts ManagedSlots ManagedRegistry ManagedOps ManagedHistory ManagedValid ManagedRuns ManagedExec.

Inductive ArtifactOp : Set :=
  | OpBeginRetirement | OpFinishRetirement | OpBeginCleanup
  | OpBeginUnlink (step : ManagedArtifactCleanupStep) | OpFinishUnlink (step : ManagedArtifactCleanupStep)
  | OpFinishCleanup | OpLogicalAbsence | OpCreateAbsence | OpAcknowledge.

(** The binding that the operation answers. *)
Definition artifact_op (env : Env) (key : ManagedKey) (b : ManagedArtifactBinding) (op : ArtifactOp)
    : M World ManagedError (option ManagedArtifactBinding) :=
  match op with
  | OpBeginRetirement => r ← begin_artifact_socket_retirement env key b; mret (Some r)
  | OpFinishRetirement => r ← finish_artifact_socket_retirement env key b; mret (Some r)
  | OpBeginCleanup => r ← begin_artifact_cleanup env key b; mret (Some r)
  | OpBeginUnlink step => r ← begin_artifact_unlink env key b step; mret (Some r)
  | OpFinishUnlink step => r ← finish_artifact_unlink env key b step; mret (Some r)
  | OpFinishCleanup => r ← finish_artifact_cleanup env key b; mret (Some r)
  | OpLogicalAbsence => r ← finish_artifact_logical_absence env key b; mret (Some r)
  | OpCreateAbsence => r ← finish_artifact_create_pending_absence env key b; mret (Some r)
  | OpAcknowledge => acknowledge_artifact_cleanup env key b ;; mret None
  end.

Notation R A := (M World ManagedError A) (only parsing).

(** ** Going through an operation that changed a slot *)

Definition keeps_slots {A} (m : R A) : Prop := ∀ w, w_slots (m w).2 = w_slots w.

Lemma peel {A B} (m : R A) (k : A → R B) w res w' :
  (m ≫= k) w = (res, w') → keeps_slots m → w_slots w' ≠ w_slots w →
  ∃ a w1, m w = (Ok a, w1) ∧ w_slots w1 = w_slots w ∧ k a w1 = (res, w').
Proof.
  intros H Hm Hne. specialize (Hm w). apply M_bind_inv in H as [(a & w1 & H1 & H)|(e & H & ->)].
  - rewrite H1 in Hm. eauto.
  - rewrite H in Hm. done.
Qed.

Lemma peel_guard {B} c e (k : unit → R B) w res w' :
  (guard_or c e ≫= k) w = (res, w') → w_slots w' ≠ w_slots w → c = true ∧ k tt w = (res, w').
Proof. destruct c; [done|]. by intros [= <- <-]. Qed.

Lemma run_guard {B} e (c : bool) (k : unit → R B) w : c = true → (guard_or c e ≫= k) w = k tt w.
Proof. by intros ->. Qed.

Lemma keeps_bind {A B} (m : R A) (k : A → R B) : keeps_slots m → (∀ a, keeps_slots (k a)) → keeps_slots (m ≫= k).
Proof. intros Hm Hk w. by apply bind_slots. Qed.

Lemma keeps_guard c e : keeps_slots (guard_or c e).
Proof. by destruct c. Qed.

Section with_env.
Context (env : Env).

Lemma keeps_locked key : keeps_slots (locked_slot env key).
Proof.
  apply keeps_bind; [by apply keeps_bind; [|intros; apply keeps_guard]|]. intros _.
  apply keeps_bind; [intros w; by rewrite read_valid_run|]. intros r. by apply keeps_bind; [apply keeps_guard|].
Qed.

Lemma keeps_tombstone key : keeps_slots (tombstone_slot env key).
Proof. apply keeps_bind; [apply keeps_locked|]. intros r. by apply keeps_bind; [apply keeps_guard|]. Qed.

Lemma keeps_bound r : keeps_slots (bound r).
Proof. intros w. unfold bound. by destruct (sl_binding r). Qed.

Lemma keeps_boot : keeps_slots (current_boot env).
Proof. apply keeps_bind; [done|]. by intros [] w. Qed.

Lemma locked_inv key w r w1 :
  locked_slot env key w = (Ok r, w1) →
  w_slots w !! mk_slot key = Some r ∧ sl_generation r = mk_generation key ∧ sl_slot r = mk_slot key.
Proof.
  unfold locked_slot, try_acquire. intros ([] & w2 & H1 & H)%M_bind_Ok.
  apply M_bind_Ok in H1 as (b & w3 & [= <- <-] & H1). destruct (env_lock env _); [injection H1 as <-|done].
  apply M_bind_Ok in H as (r1 & w4 & (-> & Hr & Hv)%read_valid_Ok & H).
  apply M_bind_Ok in H as ([] & w5 & H2 & [= <- <-]).
  destruct (sl_generation r1 =? mk_generation key) eqn:Hg; [|done]. split_and!; [done|lia|].
  unfold validate_slot_record in Hv. inv_ok. lia.
Qed.

Lemma tombstone_inv key w r w1 :
  tombstone_slot env key w = (Ok r, w1) →
  w_slots w !! mk_slot key = Some r ∧ sl_generation r = mk_generation key ∧ sl_slot r = mk_slot key ∧
  is_tombstone (sl_state r) = true.
Proof.
  intros (r1 & w2 & (H1 & H2 & H3)%locked_inv & H)%M_bind_Ok. apply M_bind_Ok in H as ([] & w3 & H4 & [= <- <-]).
  destruct (is_tombstone (sl_state r1)) eqn:Ht; [|done]. by split_and!.
Qed.

Lemma bound_inv r w b w1 : bound r w = (Ok b, w1) → sl_binding r = Some b.
Proof. unfold bound. destruct (sl_binding r); [by intros [= <- _]|done]. Qed.

Lemma update_effect current b w res w' :
  update_binding env current b w = (res, w') → w_slots w' ≠ w_slots w →
  w_slots w' !! sl_slot current = Some (with_binding current (Some b)).
Proof.
  unfold update_binding. intros H Hne. destruct (replace_slot env current (with_binding current (Some b)) w) as [r1 w1] eqn:Hr.
  assert (w' = w1) as ->.
  { destruct r1 as [[]|e]; [rewrite (bind_run _ _ _ _ _ Hr) in H|rewrite (bind_stop _ _ _ _ _ Hr) in H]; by injection H. }
  apply replace_slot_effect in Hr as [[? _]|(_ & _ & -> & _)]; [done|]. by rewrite lookup_insert_eq.
Qed.

(** ** Making it again *)

Lemma locked_run key w r :
  responsive env → stored (w_slots w) (mk_slot key) = Some r → sl_generation r = mk_generation key →
  ∃ w1, locked_slot env key w = (Ok r, w1) ∧ w_slots w1 = w_slots w.
Proof.
  intros He Hs Hg. exists (tick (tick w)). split; [|done]. unfold locked_slot, try_acquire.
  rewrite (bind_run _ _ _ (tick w) tt).
  2:{ erewrite bind_run by reflexivity. by destruct (He (w_time w)) as (-> & _). }
  rewrite (bind_run _ _ _ _ _ (read_valid_stored env _ (tick w) _ He Hs)). rewrite run_guard; [|lia]. done.
Qed.

Lemma tombstone_run key w r :
  responsive env → stored (w_slots w) (mk_slot key) = Some r → sl_generation r = mk_generation key →
  is_tombstone (sl_state r) = true → ∃ w1, tombstone_slot env key w = (Ok r, w1) ∧ w_slots w1 = w_slots w.
Proof.
  intros He Hs Hg Ht. destruct (locked_run key w r He Hs Hg) as (w1 & H1 & Hw1). exists w1. split; [|done].
  unfold tombstone_slot. rewrite (bind_run _ _ _ _ _ H1). by rewrite run_guard.
Qed.

Lemma bound_run r b w : sl_binding r = Some b → bound r w = (Ok b, w).
Proof. unfold bound. by intros ->. Qed.
End with_env.

(** ** One operation at a time *)

Lemma advance_step_facts a step a' :
  advance_step a step = Some a' →
  (∀ b, same_artifact a' b = same_artifact a b) ∧ cleanup_quarantine (ab_cleanup a') = cleanup_quarantine (ab_cleanup a) ∧
  cleanup_completed (ab_cleanup a') = cleanup_completed (ab_cleanup a) ∧ cleanup_step_completed a' step = true.
Proof. unfold advance_step. destruct step; repeat case_match; intros; simplify_eq; by split_and!. Qed.

Section retry.
Context (env env' : Env) (key : ManagedKey) (b : ManagedArtifactBinding) (w w' : World).
Context (Hrun : responsive env') (Hvalid : ∀ r, w_slots w' !! mk_slot key = Some r → validate_slot_record r (mk_slot key) = true).

(** The operation made again answers the binding in the slot and changes nothing. *)
Definition again {A} (m : R A) (answer : ManagedArtifactBinding → A) : Prop :=
  ∃ r a w1, w_slots w' !! mk_slot key = Some r ∧ sl_binding r = Some a ∧ m w' = (Ok (answer a), w1) ∧ w_slots w1 = w_slots w'.

Lemma again_locked {A} (k : SlotRecord → R A) answer r a :
  w_slots w' !! sl_slot r = Some (with_binding r (Some a)) → sl_slot r = mk_slot key → sl_generation r = mk_generation key →
  (∀ w1, w_slots w1 = w_slots w' →
    ∃ w2, k (with_binding r (Some a)) w1 = (Ok (answer a), w2) ∧ w_slots w2 = w_slots w1) →
  again (locked_slot env' key ≫= k) answer.
Proof.
  intros Hs Hsl Hg Hk. rewrite Hsl in Hs.
  destruct (locked_run env' key w' (with_binding r (Some a))) as (w1 & H1 & Hw1); [done| |done|].
  { apply stored_Some. split; [done|by apply Hvalid]. }
  destruct (Hk w1 Hw1) as (w2 & Hk2 & Hw2). exists (with_binding r (Some a)), a, w2. rewrite (bind_run _ _ _ _ _ H1).
  split_and!; [done|done|done|congruence].
Qed.

Lemma again_tombstone {A} (k : SlotRecord → R A) answer r a :
  w_slots w' !! sl_slot r = Some (with_binding r (Some a)) → sl_slot r = mk_slot key → sl_generation r = mk_generation key →
  is_tombstone (sl_state r) = true →
  (∀ w1, w_slots w1 = w_slots w' →
    ∃ w2, k (with_binding r (Some a)) w1 = (Ok (answer a), w2) ∧ w_slots w2 = w_slots w1) →
  again (tombstone_slot env' key ≫= k) answer.
Proof.
  intros Hs Hsl Hg Ht Hk. rewrite Hsl in Hs.
  destruct (tombstone_run env' key w' (with_binding r (Some a))) as (w1 & H1 & Hw1); [done| |done|done|].
  { apply stored_Some. split; [done|by apply Hvalid]. }
  destruct (Hk w1 Hw1) as (w2 & Hk2 & Hw2). exists (with_binding r (Some a)), a, w2. rewrite (bind_run _ _ _ _ _ H1).
  split_and!; [done|done|done|congruence].
Qed.

(** Peels the reads of an operation, its guards, and the change of the slot. *)
Ltac bind_of H Hne :=
  apply peel in H as (a & w2 & Ha & Hw2 & H); [|apply keeps_bound|exact Hne]; apply bound_inv in Ha; rewrite -Hw2 in Hne.
Ltac enter_tombstone H Hne :=
  apply peel in H as (r & w1 & Hl & Hw1 & H); [|apply keeps_tombstone|exact Hne];
  apply tombstone_inv in Hl as (Hslot & Hgen & Hsl & Ht); rewrite -Hw1 in Hne.
Ltac enter_locked H Hne :=
  apply peel in H as (r & w1 & Hl & Hw1 & H); [|apply keeps_locked|exact Hne];
  apply locked_inv in Hl as (Hslot & Hgen & Hsl); rewrite -Hw1 in Hne.
Ltac guard_of H Hne Hg := apply peel_guard in H as [Hg H]; [|exact Hne].
Ltac changed H Hne := apply update_effect in H; [|exact Hne].
Ltac found := intros w3 Hw3; exists w3; split; [|done]; erewrite (bind_run (bound _)); [|apply bound_run; reflexivity]; cbv beta zeta.

Lemma retry_begin_retirement res :
  begin_artifact_socket_retirement env key b w = (res, w') → w_slots w' ≠ w_slots w →
  again (begin_artifact_socket_retirement env' key b) id.
Proof.
  intros H Hne. enter_locked H Hne. guard_of H Hne Hg0. bind_of H Hne. guard_of H Hne Hg1. guard_of H Hne Hg2.
  destruct (_ || _); [by injection H as <- <-|]. changed H Hne.
  apply (again_locked _ _ r _ H); [done..|]. intros w3 Hw3. exists w3. split; [|done]. rewrite run_guard; [|done].
  erewrite (bind_run (bound _)); [|apply bound_run; reflexivity]. cbv beta zeta. rewrite !run_guard; [|done..]. cbn. by rewrite orb_true_r.
Qed.

Lemma retry_finish_retirement res :
  finish_artifact_socket_retirement env key b w = (res, w') → w_slots w' ≠ w_slots w →
  again (finish_artifact_socket_retirement env' key b) id.
Proof.
  intros H Hne. enter_locked H Hne. bind_of H Hne. guard_of H Hne Hg1.
  destruct (socket_retired _); [by injection H as <- <-|]. guard_of H Hne Hg2. changed H Hne.
  apply (again_locked _ _ r _ H); [done..|]. found. by rewrite run_guard.
Qed.

Lemma retry_begin_cleanup res :
  begin_artifact_cleanup env key b w = (res, w') → w_slots w' ≠ w_slots w → again (begin_artifact_cleanup env' key b) id.
Proof.
  intros H Hne. enter_tombstone H Hne. bind_of H Hne. guard_of H Hne Hg1. guard_of H Hne Hg2. guard_of H Hne Hg3.
  destruct (is_some _) eqn:Hq; [by injection H as <- <-|]. guard_of H Hne Hg4. changed H Hne.
  apply (again_tombstone _ _ r _ H); [done..|]. found. by rewrite !run_guard.
Qed.

Lemma retry_begin_unlink step res :
  begin_artifact_unlink env key b step w = (res, w') → w_slots w' ≠ w_slots w →
  again (begin_artifact_unlink env' key b step) id.
Proof.
  intros H Hne. enter_tombstone H Hne. bind_of H Hne. guard_of H Hne Hg1. guard_of H Hne Hg2.
  destruct (cleanup_step_completed _ _) eqn:Hc; [by injection H as <- <-|].
  destruct (cleanup_unlink_pending _). { apply peel_guard in H as [_ H]; [by injection H as <- <-|done]. }
  guard_of H Hne Hg3. changed H Hne.
  apply (again_tombstone _ _ r _ H); [done..|]. found. rewrite !run_guard; [|done..].
  cbn -[cleanup_step_completed]. destruct (cleanup_step_completed _ _); [done|]. by rewrite bool_decide_true.
Qed.

Lemma retry_finish_unlink step res :
  finish_artifact_unlink env key b step w = (res, w') → w_slots w' ≠ w_slots w →
  again (finish_artifact_unlink env' key b step) id.
Proof.
  intros H Hne. enter_tombstone H Hne. bind_of H Hne. guard_of H Hne Hg1. guard_of H Hne Hg2.
  destruct (cleanup_step_completed _ _) eqn:Hc; [by injection H as <- <-|]. guard_of H Hne Hg3.
  destruct (advance_step a step) as [a'|] eqn:Ha'; [|by injection H as <- <-]. changed H Hne.
  apply (again_tombstone _ _ r _ H); [done..|]. found. destruct (advance_step_facts _ _ _ Ha') as (H1 & H2 & H3 & H4).
  rewrite run_guard; [|by rewrite H1]. rewrite run_guard; [|by rewrite H2 H3]. by rewrite H4.
Qed.

Lemma retry_finish_cleanup res :
  finish_artifact_cleanup env key b w = (res, w') → w_slots w' ≠ w_slots w → again (finish_artifact_cleanup env' key b) id.
Proof.
  intros H Hne. enter_tombstone H Hne. bind_of H Hne. guard_of H Hne Hg1.
  destruct (cleanup_completed _) eqn:Hc; [by injection H as <- <-|]. guard_of H Hne Hg2. changed H Hne.
  apply (again_tombstone _ _ r _ H); [done..|]. found. by rewrite run_guard.
Qed.

(** The operations that ask for the boot. *)
Context (boot : Uuid) (Hboot : ∀ t, env_boot env t = Present boot) (Hboot' : ∀ t, env_boot env' t = Present boot).

Lemma peel_boot {B} (k : Uuid → R B) w0 res w1 :
  (current_boot env ≫= k) w0 = (res, w1) → w_slots w1 ≠ w_slots w0 → k boot (tick w0) = (res, w1).
Proof.
  intros H Hn. assert (current_boot env w0 = (Ok boot, tick w0)) as Hc.
  { unfold current_boot, mbind, M_bind, ask. cbn. by rewrite Hboot. }
  by rewrite (bind_run _ _ _ _ _ Hc) in H.
Qed.

Lemma run_boot {B} (k : Uuid → R B) w0 : (current_boot env' ≫= k) w0 = k boot (tick w0).
Proof. apply bind_run. unfold current_boot, mbind, M_bind, ask. cbn. by rewrite Hboot'. Qed.

Lemma retry_logical_absence res :
  finish_artifact_logical_absence env key b w = (res, w') → w_slots w' ≠ w_slots w →
  again (finish_artifact_logical_absence env' key b) id.
Proof.
  intros H Hne. enter_tombstone H Hne. bind_of H Hne. guard_of H Hne Hg1. guard_of H Hne Hg2.
  apply peel_boot in H; [|exact Hne]. guard_of H Hne Hg3.
  destruct (cleanup_completed _) eqn:Hc; [by injection H as <- <-|]. guard_of H Hne Hg4. changed H Hne.
  apply (again_tombstone _ _ r _ H); [done..|]. intros w3 Hw3. exists (tick w3). split; [|done].
  erewrite (bind_run (bound _)); [|apply bound_run; reflexivity]. cbv beta zeta.
  rewrite !run_guard; [|done..]. by rewrite run_boot run_guard.
Qed.

Lemma retry_create_absence res :
  finish_artifact_create_pending_absence env key b w = (res, w') → w_slots w' ≠ w_slots w →
  again (finish_artifact_create_pending_absence env' key b) id.
Proof.
  intros H Hne. enter_tombstone H Hne. bind_of H Hne. guard_of H Hne Hg1.
  apply peel_boot in H; [|exact Hne]. guard_of H Hne Hg3.
  destruct (cleanup_completed _) eqn:Hc; [by injection H as <- <-|]. changed H Hne.
  apply (again_tombstone _ _ r _ H); [done..|]. intros w3 Hw3. exists (tick w3). split; [|done].
  erewrite (bind_run (bound _)); [|apply bound_run; reflexivity]. cbv beta zeta.
  rewrite run_guard; [|exact Hg1]. by rewrite run_boot run_guard.
Qed.

Lemma retry_acknowledge res :
  acknowledge_artifact_cleanup env key b w = (res, w') → w_slots w' ≠ w_slots w →
  ∃ r w1, w_slots w' !! mk_slot key = Some r ∧ sl_binding r = None ∧
          acknowledge_artifact_cleanup env' key b w' = (Ok tt, w1) ∧ w_slots w1 = w_slots w'.
Proof.
  intros H Hne. enter_locked H Hne. destruct (_ && _); [by injection H as <- <-|]. bind_of H Hne.
  guard_of H Hne Hg1. guard_of H Hne Hg2. guard_of H Hne Hg3.
  apply replace_slot_effect in H as [[? _]|(_ & _ & H & _)]; [done|]. cbn in H.
  assert (w_slots w' !! mk_slot key = Some (with_binding r None)) as Hs by by rewrite H -Hsl lookup_insert_eq.
  destruct (locked_run env' key w' (with_binding r None)) as (w3 & H3 & Hw3); [done| |done|].
  { apply stored_Some. split; [done|by apply Hvalid]. }
  exists (with_binding r None), w3. split_and!; [done|done| |done].
  unfold acknowledge_artifact_cleanup. rewrite (bind_run _ _ _ _ _ H3). cbn. inv_ok.
  by match goal with Hi : is_tombstone _ = true |- _ => rewrite Hi end.
Qed.

Lemma again_op (m : R ManagedArtifactBinding) :
  again m id →
  ∃ r w1, w_slots w' !! mk_slot key = Some r ∧ (a ← m; mret (Some a)) w' = (Ok (sl_binding r), w1) ∧ w_slots w1 = w_slots w'.
Proof.
  intros (r & a & w1 & H1 & H2 & H3 & H4). exists r, w1. rewrite (bind_run _ _ _ _ _ H3) H2. by split_and!.
Qed.
End retry.

Lemma some_answer (m : R ManagedArtifactBinding) w res w' :
  (a ← m; mret (Some a)) w = (res, w') → ∃ res', m w = (res', w').
Proof. intros [(a & w1 & H & [= <- <-])|(e & H & _)]%M_bind_inv; eauto. Qed.

(** an operation on the files of a managed launch that changed its slot, and whose answer was
    an error or was lost, can be made again: it answers the binding that the slot holds and
    changes nothing. *)
Theorem lost_answer_retry env env' boot key b op w res w' :
  world_inv w → artifact_op env key b op w = (res, w') → w_slots w' ≠ w_slots w → responsive env' →
  (∀ t, env_boot env t = Present boot) → (∀ t, env_boot env' t = Present boot) →
  ∃ r w'', w_slots w' !! mk_slot key = Some r ∧
           artifact_op env' key b op w' = (Ok (sl_binding r), w'') ∧ w_slots w'' = w_slots w'.
Proof.
  intros Hw H Hne Hrun Hb Hb'.
  assert (∀ r, w_slots w' !! mk_slot key = Some r → validate_slot_record r (mk_slot key) = true) as Hvalid.
  { assert (fine w (artifact_op env key b op)) as Hf.
    { destruct op; cbn [artifact_op]; (apply fine_bind; [|intros; apply fine_ret]);
        auto using fine_acknowledge, fine_begin_retirement, fine_finish_retirement, fine_begin_cleanup, fine_begin_unlink,
          fine_finish_unlink, fine_finish_cleanup, fine_logical_absence, fine_create_absence. }
    specialize (Hf w (conj Hw (evolves_refl w)) I). rewrite H in Hf. intros r Hr.
    assert (world_inv w') as Hw' by (destruct res; [by destruct Hf as [[? _] _]|by destruct Hf]).
    by apply (wi_slots _ Hw'). }
  destruct op; cbn [artifact_op] in *; try (apply some_answer in H as [res' H]; apply again_op);
    eauto using retry_begin_retirement, retry_finish_retirement, retry_begin_cleanup, retry_begin_unlink,
      retry_finish_unlink, retry_finish_cleanup, retry_logical_absence, retry_create_absence.
  assert (∃ res', acknowledge_artifact_cleanup env key b w = (res', w')) as [res' Ha].
  { apply M_bind_inv in H as [([] & w1 & H & [= <- <-])|(e & H & _)]; eauto. }
  destruct (retry_acknowledge env env' key b w w' Hrun Hvalid res' Ha Hne) as (r & w1 & H1 & H2 & H3 & H4).
  exists r, w1. rewrite (bind_run _ _ _ _ _ H3) H2. by split_and!.
Qed.
