(* ===== verification/ManagedRecovery.v ===== *)
(** The recovery of the private directory of a managed launch ([cleanup_bound_private_runner_control]
    and [remove_private_runner_control_fd_relative] in [speculation_linux.rs]): the files it
    bound are unlinked one by one between the steps that the registry makes durable.

    The control root is a map of its children, and the calls of the system on it take one
    answer each, whether they are done.  Listing the private directory removes the temporaries
    that transactions have left in it.  The failpoints of the tests are left out. *)
From stdpp Require Import gmap.
From S2P Require Import Prelude Utf8 Protocol Text ManagedArtifacts ManagedSlots ManagedRegistry ManagedOps.
From S2P Require EvidenceFs.

Inductive ContainmentErrorCode : Set :=
  | Unsupported | InvalidIdentity | TopologyFailure | PinnedBwrapFailure | PeerRejected | DescriptorViolation
  | PlacementUnproven | TerminalBoundaryFailure | OutputLimit | Timeout | EvidenceUnavailable.

Inductive PrivateArtifactKind : Set := KindRunner | KindSocket | KindPartialSocket | KindOwnership | KindPartialOwnership.

Record PrivateRunnerOwnership : Set := {
  po_schema : Z; po_owner : ManagedOwnerTag; po_slot : Z; po_generation : Z; po_binding : ManagedArtifactBinding;
  po_directory : ManagedDirectoryIdentity; po_runner : ManagedArtifactIdentity; po_socket : ManagedArtifactIdentity }.

(** A name of the private directory; the record is what its bytes parse as, within 4 KiB, and
    [pn_json] says whether they are JSON at all, within the bound of a transaction. *)
Inductive NodeType : Set := RegularFile | SocketFile | SymbolicLink | OtherFile.
Record PrivateNode : Set := {
  pn_type : NodeType; pn_identity : ManagedArtifactIdentity; pn_own : bool; pn_mode : Z; pn_links : Z;
  pn_record : option PrivateRunnerOwnership; pn_json : bool }.

#[export] Instance NodeType_eq : EqDecision NodeType.
Proof. solve_decision. Defined.

(** [pd_private]: the directory is the user's own, of mode 0o700. *)
Record PrivateDir : Set := {
  pd_identity : ManagedDirectoryIdentity; pd_private : bool; pd_entries : gmap str PrivateNode }.
Inductive Child : Set := ChildDir (d : PrivateDir) | ChildOther.

Record PWorld : Set := {
  pw_registry : World;
  pw_parent : ManagedDirectoryIdentity;          (* the control root that is open *)
  pw_path_parent : ManagedDirectoryIdentity;     (* and the one its path names *)
  pw_children : gmap str Child;
}.

Definition with_registry (p : PWorld) (w : World) : PWorld := {|
  pw_registry := w; pw_parent := pw_parent p; pw_path_parent := pw_path_parent p; pw_children := pw_children p |}.
Definition with_children (p : PWorld) (c : gmap str Child) : PWorld := {|
  pw_registry := pw_registry p; pw_parent := pw_parent p; pw_path_parent := pw_path_parent p; pw_children := c |}.

Definition RUNNER_LEAF : str := lit "lterm".
Definition SOCKET_LEAF : str := lit "control.sock".
Definition PRIVATE_RUNNER_OWNER_LEAF : str := lit "owner.json".
#[global] Arguments RUNNER_LEAF : simpl never.
#[global] Arguments SOCKET_LEAF : simpl never.
#[global] Arguments PRIVATE_RUNNER_OWNER_LEAF : simpl never.

Record PrivateControlCleanupExpectations : Set := {
  ex_ownership : option PrivateRunnerOwnership;
  ex_ownership_file : option ManagedArtifactIdentity;
  ex_runner : option ManagedArtifactIdentity;
  ex_socket : option ManagedArtifactIdentity;
  ex_partial_socket_leaf : option str;
  ex_partial_owner_leaf : option str;
  ex_allow_unbound_files : bool;
}.

Record ManagedPrivateCleanupProgress : Set := { pp_key : ManagedKey; pp_current : ManagedArtifactBinding }.

Definition same_private_artifact_binding (a b : ManagedArtifactBinding) : bool :=
  bool_decide (ab_name a = ab_name b)
  && bool_decide (private_directory (ab_made a) = private_directory (ab_made b))
  && bool_decide (runner (ab_made a) = runner (ab_made b))
  && bool_decide (socket (ab_made a) = socket (ab_made b)).

(** The flags of [open]: a link is not followed, and only a path descriptor opens a socket. *)
Definition opens (kind : PrivateArtifactKind) (t : NodeType) : bool :=
  match kind, t with
  | KindSocket, _ | KindPartialSocket, _ => true
  | _, RegularFile | _, OtherFile => true
  | _, SocketFile | _, SymbolicLink => false
  end.

Definition valid_kind (kind : PrivateArtifactKind) (t : NodeType) : bool :=
  match kind with
  | KindRunner | KindOwnership | KindPartialOwnership => bool_decide (t = RegularFile)
  | KindSocket | KindPartialSocket => bool_decide (t = SocketFile)
  end.

(** 0o500 and 0o600; a partial socket may have any mode without the bits of 0o7000. *)
Definition mode_valid (kind : PrivateArtifactKind) (mode : Z) : bool :=
  match kind with
  | KindRunner => Z.land mode 4095 =? 320
  | KindSocket | KindOwnership | KindPartialOwnership => Z.land mode 4095 =? 384
  | KindPartialSocket => Z.land mode 3584 =? 0
  end.

Definition node_valid (kind : PrivateArtifactKind) (n : PrivateNode) : bool :=
  valid_kind kind (pn_type n) && pn_own n && mode_valid kind (pn_mode n) && (pn_links n =? 1).

(** [validate_temp_leaf_for_recovery]: a file of mode 0o600 of the user's own, with one name, that
    holds JSON. *)
Definition temp_valid (n : PrivateNode) : bool :=
  bool_decide (pn_type n = RegularFile) && pn_own n && (Z.land (pn_mode n) 4095 =? 384) && (pn_links n =? 1) && pn_json n.

Section recovery.
Context (env : Env) (sys : nat → bool) (parent_identity : ManagedDirectoryIdentity) (uuid_parse_str : str → option Uuid).

Abbreviation P A := (M PWorld ContainmentErrorCode A) (only parsing).

Definition managed {A} (m : M World ManagedError A) : P A := λ p,
  match m (pw_registry p) with
  | (Ok a, w) => (Ok a, with_registry p w)
  | (Err _, w) => (Err EvidenceUnavailable, with_registry p w)
  end.

Definition ensure (c : bool) (e : ContainmentErrorCode) : P unit := if c then mret tt else throw e.

(** A call of the system that is done, or fails with the error. *)
Definition syscall (e : ContainmentErrorCode) : P unit := done ← managed (ask sys); ensure done e.

Definition parent_is_expected : P unit :=
  syscall EvidenceUnavailable ;; p ← get; ensure (bool_decide (pw_parent p = parent_identity)) InvalidIdentity.

(** ** The private directory, named by its leaf *)

Definition child_dir (leaf : str) : P PrivateDir :=
  p ← get; match pw_children p !! leaf with Some (ChildDir d) => mret d | _ => throw InvalidIdentity end.

Definition reopen_private_child_from_parent (leaf : str) (expected : ManagedDirectoryIdentity) : P unit :=
  syscall InvalidIdentity ;;
  d ← child_dir leaf;
  syscall EvidenceUnavailable ;;
  ensure (bool_decide (pd_identity d = expected)) InvalidIdentity.

(** [open_existing_private_dir] of the leaf under the path of the control root. *)
Definition open_existing_private_dir (leaf : str) : P ManagedDirectoryIdentity :=
  syscall EvidenceUnavailable ;;
  d ← child_dir leaf;
  ensure (pd_private d) InvalidIdentity ;;
  mret (pd_identity d).

(** [ValidatedDirectory::revalidate]. *)
Definition revalidate (leaf : str) (identity : ManagedDirectoryIdentity) : P unit :=
  actual ← open_existing_private_dir leaf; ensure (bool_decide (actual = identity)) InvalidIdentity.


Definition set_entries (leaf : str) (f : gmap str PrivateNode → gmap str PrivateNode) : P unit :=
  p ← get;
  d ← child_dir leaf;
  put (with_children p (<[leaf := ChildDir {| pd_identity := pd_identity d; pd_private := pd_private d; pd_entries := f (pd_entries d) |}]> (pw_children p))).

Definition is_temp_name (name : str) : bool := EvidenceFs.transaction_temp_named uuid_parse_str name.

(** A temporary goes when it can be read, is valid, and can be unlinked; it stays otherwise. *)
Definition remove_temp (leaf name : str) : P bool :=
  read ← managed (ask sys);
  d ← child_dir leaf;
  if read && is_some_and (pd_entries d !! name) temp_valid then
    unlinked ← managed (ask sys);
    if unlinked : bool then set_entries leaf (delete name) ;; mret true else mret false
  else mret false.

(** The names that stay, and whether any was removed. *)
Fixpoint retain_names (leaf : str) (names : list str) : P (list str * bool) :=
  match names with
  | [] => mret ([], false)
  | name :: names =>
    gone ← (if is_temp_name name then remove_temp leaf name else mret false);
    kept ← retain_names leaf names;
    mret (if gone : bool then (kept.1, true) else (name :: kept.1, kept.2))
  end.

(** [ValidatedDirectory::list_leaf_names], under the lock of the directory. *)
Definition list_leaf_names (leaf : str) (identity : ManagedDirectoryIdentity) : P (list str) :=
  syscall EvidenceUnavailable ;;
  revalidate leaf identity ;;
  syscall EvidenceUnavailable ;;
  d ← child_dir leaf;
  kept ← retain_names leaf (map_to_list (pd_entries d)).*1;
  (if kept.2 : bool then syscall EvidenceUnavailable else mret tt) ;;
  revalidate leaf identity ;;
  mret kept.1.

Definition private_leaf_exists_at (leaf : str) : P bool :=
  syscall EvidenceUnavailable ;; p ← get; mret (is_some (pw_children p !! leaf)).

Definition open_validated_private_artifact_at (leaf name : str) (kind : PrivateArtifactKind)
    (expected : option ManagedArtifactIdentity) : P (option PrivateNode) :=
  syscall EvidenceUnavailable ;;
  d ← child_dir leaf;
  match pd_entries d !! name with
  | None => if is_some expected then throw InvalidIdentity else mret None
  | Some n =>
    ensure (opens kind (pn_type n)) EvidenceUnavailable ;;
    syscall EvidenceUnavailable ;;
    ensure (node_valid kind n && is_none_or expected (λ i, bool_decide (pn_identity n = i))) InvalidIdentity ;;
    mret (Some n)
  end.


(** [unlinkat] of a name, [fsync] of the directory, and the links left to the file that is open. *)
Definition unlink_and_check (leaf name : str) (n : PrivateNode) : P unit :=
  syscall EvidenceUnavailable ;;
  set_entries leaf (delete name) ;;
  syscall EvidenceUnavailable ;;
  syscall EvidenceUnavailable ;;
  ensure (pn_links n - 1 =? 0) InvalidIdentity.

(** The closure [unlink]. *)
Definition unlink_artifact (leaf : str) (artifact : option PrivateNode) (name : str) (kind : PrivateArtifactKind) : P unit :=
  match artifact with
  | None => mret tt
  | Some n =>
    syscall EvidenceUnavailable ;;
    again ← open_validated_private_artifact_at leaf name kind (Some (pn_identity n));
    ensure (is_some again) InvalidIdentity ;;
    unlink_and_check leaf name n
  end.

(** The closure [open_step_artifact]. *)
Definition open_step_artifact (leaf name : str) (kind : PrivateArtifactKind) (expected : option ManagedArtifactIdentity)
    (managed_cleanup completed : bool) : P (option PrivateNode) :=
  if completed then
    found ← open_validated_private_artifact_at leaf name kind None;
    ensure (negb (is_some found)) InvalidIdentity ;;
    mret None
  else
    artifact ← open_validated_private_artifact_at leaf name kind expected;
    ensure (negb (managed_cleanup && negb (is_some expected) && is_some artifact)) InvalidIdentity ;;
    mret artifact.

(** ** The progress that the registry makes durable *)

Definition progress_new (key : ManagedKey) (seed current : ManagedArtifactBinding) : P ManagedPrivateCleanupProgress :=
  ensure (same_private_artifact_binding seed current) InvalidIdentity ;;
  mret {| pp_key := key; pp_current := current |}.

Definition with_progress (progress : option ManagedPrivateCleanupProgress)
    (op : ManagedKey → ManagedArtifactBinding → M World ManagedError ManagedArtifactBinding) : P (option ManagedPrivateCleanupProgress) :=
  match progress with
  | None => mret None
  | Some p => b ← managed (op (pp_key p) (pp_current p)); mret (Some {| pp_key := pp_key p; pp_current := b |})
  end.

Definition progress_begin (progress : option ManagedPrivateCleanupProgress) (step : ManagedArtifactCleanupStep) :=
  with_progress progress (λ key b, begin_artifact_unlink env key b step).
Definition progress_finish (progress : option ManagedPrivateCleanupProgress) (step : ManagedArtifactCleanupStep) :=
  with_progress progress (λ key b, finish_artifact_unlink env key b step).

Definition step_completed (progress : option ManagedPrivateCleanupProgress) (step : ManagedArtifactCleanupStep) : bool :=
  is_some_and progress (λ p, cleanup_step_completed (pp_current p) step).

(** ** Removal of the directory *)

(** The names and the record of the owner agree with what is expected. *)
Definition expectations_agree (names : list str) (directory : ManagedDirectoryIdentity)
    (ex : PrivateControlCleanupExpectations) : P unit :=
  ensure (forallb (λ name, bool_decide (name = RUNNER_LEAF) || bool_decide (name = SOCKET_LEAF)
                     || bool_decide (name = PRIVATE_RUNNER_OWNER_LEAF)
                     || bool_decide (ex_partial_socket_leaf ex = Some name)
                     || bool_decide (ex_partial_owner_leaf ex = Some name)) names) EvidenceUnavailable ;;
  ensure (ex_allow_unbound_files ex || is_some (ex_runner ex) || negb (bool_decide (SOCKET_LEAF ∈ names))) InvalidIdentity ;;
  ensure (is_none_or (ex_ownership ex) (λ r,
            is_none_or (ex_runner ex) (λ i, bool_decide (i = po_runner r))
            && is_none_or (ex_socket ex) (λ i, bool_decide (i = po_socket r)))) InvalidIdentity ;;
  ensure (is_none_or (ex_ownership ex) (λ r, bool_decide (po_directory r = directory))) InvalidIdentity.

(** What is found of the files: runner, socket, owner and the partial names. *)
Record Found : Set := {
  fo_runner : option PrivateNode; fo_socket : option PrivateNode; fo_ownership : option PrivateNode;
  fo_partial_socket : option PrivateNode; fo_partial_owner : option PrivateNode }.

Definition or_else {A} (a b : option A) : option A := match a with Some _ => a | None => b end.

Definition find_artifacts (leaf : str) (ex : PrivateControlCleanupExpectations)
    (progress : option ManagedPrivateCleanupProgress) : P Found :=
  let managed_cleanup := is_some progress in
  let socket_retired := is_some_and progress (λ p, socket_retired (ab_cleanup (pp_current p))) in
  run ← open_step_artifact leaf RUNNER_LEAF KindRunner
    (or_else (ex_runner ex) (po_runner <$> ex_ownership ex)) managed_cleanup (step_completed progress Runner);
  sock ← open_step_artifact leaf SOCKET_LEAF KindSocket
    (or_else (ex_socket ex) (po_socket <$> ex_ownership ex)) managed_cleanup
    (step_completed progress Socket || socket_retired);
  own ← open_step_artifact leaf PRIVATE_RUNNER_OWNER_LEAF KindOwnership (ex_ownership_file ex) managed_cleanup
    (step_completed progress Ownership);
  partial_socket ← match ex_partial_socket_leaf ex with
                   | Some name => open_validated_private_artifact_at leaf name KindPartialSocket None
                   | None => mret None
                   end;
  partial_owner ← match ex_partial_owner_leaf ex with
                  | Some name => open_validated_private_artifact_at leaf name KindPartialOwnership None
                  | None => mret None
                  end;
  ensure (negb (is_some own && is_some partial_owner)) InvalidIdentity ;;
  ensure (negb (managed_cleanup && (is_some partial_socket || is_some partial_owner
                                    || negb (is_some (ex_ownership_file ex)) && is_some own))) InvalidIdentity ;;
  ensure (negb (managed_cleanup && negb (step_completed progress Ownership) && is_some (ex_ownership_file ex)
                && negb (is_some own))) InvalidIdentity ;;
  mret {| fo_runner := run; fo_socket := sock; fo_ownership := own; fo_partial_socket := partial_socket;
          fo_partial_owner := partial_owner |}.

(** One step: begin, unlink the name and its partial name, finish. *)
Definition removal_step (leaf : str) (step : ManagedArtifactCleanupStep) (artifact : option PrivateNode) (name : str)
    (kind : PrivateArtifactKind) (partial : option (str * option PrivateNode * PrivateArtifactKind)) (completed : bool)
    (progress : option ManagedPrivateCleanupProgress) : P (option ManagedPrivateCleanupProgress) :=
  if completed then mret progress
  else
    progress ← progress_begin progress step;
    unlink_artifact leaf artifact name kind ;;
    match partial with
    | Some (partial_leaf, partial_artifact, partial_kind) => unlink_artifact leaf partial_artifact partial_leaf partial_kind
    | None => mret tt
    end ;;
    progress_finish progress step.

Definition remove_private_runner_control_fd_relative (leaf : str) (directory : ManagedDirectoryIdentity)
    (ex : PrivateControlCleanupExpectations) (progress : option ManagedPrivateCleanupProgress)
    : P (option ManagedPrivateCleanupProgress) :=
  parent_is_expected ;;
  revalidate leaf directory ;;
  reopen_private_child_from_parent leaf directory ;;
  names ← list_leaf_names leaf directory;
  expectations_agree names directory ex ;;
  let ownership_completed := step_completed progress Ownership in
  let socket_completed := step_completed progress Socket in
  let runner_completed := step_completed progress Runner in
  found ← find_artifacts leaf ex progress;
  reopen_private_child_from_parent leaf directory ;;
  progress ← removal_step leaf Ownership (fo_ownership found) PRIVATE_RUNNER_OWNER_LEAF KindOwnership
    ((λ name, (name, fo_partial_owner found, KindPartialOwnership)) <$> ex_partial_owner_leaf ex) ownership_completed progress;
  progress ← removal_step leaf Socket (fo_socket found) SOCKET_LEAF KindSocket
    ((λ name, (name, fo_partial_socket found, KindPartialSocket)) <$> ex_partial_socket_leaf ex) socket_completed progress;
  progress ← removal_step leaf Runner (fo_runner found) RUNNER_LEAF KindRunner None runner_completed progress;
  reopen_private_child_from_parent leaf directory ;;
  progress ← progress_begin progress Directory;
  reopen_private_child_from_parent leaf directory ;;
  syscall EvidenceUnavailable ;;
  d ← child_dir leaf;
  ensure (bool_decide (pd_entries d = ∅)) EvidenceUnavailable ;;
  p ← get;
  put (with_children p (delete leaf (pw_children p))) ;;
  syscall EvidenceUnavailable ;;
  parent_is_expected ;;
  syscall EvidenceUnavailable ;;
  with_progress progress (λ key b, finish_artifact_cleanup env key b).

(** The names that a creation uses before it publishes: [.sock-] with the low 32 bits of the
    nonce, and [.owner.json.create-] with the nonce. *)
Definition private_socket_temp_leaf (nonce : Uuid) : str :=
  lit ".sock-" ++ drop 24 (uuid_simple nonce).
Definition private_owner_temp_leaf (nonce : Uuid) : str := lit ".owner.json.create-" ++ uuid_simple nonce.

(** ** The record of the owner *)

Definition read_private_runner_ownership (leaf : str) : P (option PrivateRunnerOwnership) :=
  syscall EvidenceUnavailable ;;
  d ← child_dir leaf;
  match pd_entries d !! PRIVATE_RUNNER_OWNER_LEAF with
  | None => mret None
  | Some n =>
    ensure (opens KindOwnership (pn_type n)) EvidenceUnavailable ;;
    syscall EvidenceUnavailable ;;
    ensure (node_valid KindOwnership n) InvalidIdentity ;;
    match pn_record n with
    | None => throw EvidenceUnavailable
    | Some record => ensure (po_schema record =? 1) InvalidIdentity ;; mret (Some record)
    end
  end.

Definition ownership_matches (record : PrivateRunnerOwnership) (key : ManagedKey) (binding : ManagedArtifactBinding)
    (expected_owner : option ManagedOwnerTag) (resolved_aliases : option (list ManagedReconcileEntry)) : bool :=
  match private_directory (ab_made binding), runner (ab_made binding), socket (ab_made binding) with
  | Some directory, Some run, Some sock =>
    (po_slot record =? mk_slot key) && (po_generation record =? mk_generation key)
    && bool_decide (po_directory record = directory) && bool_decide (po_runner record = run)
    && bool_decide (po_socket record = sock)
    && negb (is_some (cleanup_quarantine (ab_cleanup (po_binding record))))
    && owner_create_pending (ab_made (po_binding record)) && negb (owner_create_pending (ab_made binding))
    && same_private_artifact_binding (po_binding record) binding
    && is_none_or expected_owner (λ o, bool_decide (o = po_owner record))
    && is_none_or resolved_aliases (existsb (λ e,
         bool_decide (re_owner e = Some (po_owner record)) && bool_decide (re_key e = Some key)
         && bool_decide (re_outcome e = OutcomeTombstone)))
  | _, _, _ => false
  end.

Definition validate_private_runner_ownership_against_binding (record : PrivateRunnerOwnership) (key : ManagedKey)
    (binding : ManagedArtifactBinding) (expected_owner : option ManagedOwnerTag)
    (resolved_aliases : option (list ManagedReconcileEntry)) : P unit :=
  ensure (ownership_matches record key binding expected_owner resolved_aliases) InvalidIdentity.

(** ** [cleanup_bound_private_runner_control] *)

Definition retire_pending_socket (key : ManagedKey) (authoritative : ManagedArtifactBinding) : P ManagedArtifactBinding :=
  let m := ab_made authoritative in
  let leaf := private_leaf (ab_name authoritative) in
  match private_directory m with
  | None => throw InvalidIdentity
  | Some directory =>
    reopen_private_child_from_parent leaf directory ;;
    syscall EvidenceUnavailable ;;
    match socket m with
    | None => throw InvalidIdentity
    | Some identity =>
      found ← open_validated_private_artifact_at leaf SOCKET_LEAF KindSocket (Some identity);
      match found with
      | None => throw InvalidIdentity
      | Some n =>
        unlink_and_check leaf SOCKET_LEAF n ;;
        managed (finish_artifact_socket_retirement env key authoritative)
      end
    end
  end.

(** Moves the directory to its quarantine name, or finds it there; [false]: it is at neither. *)
Definition publish_quarantine (source quarantine : str) (expected : option ManagedDirectoryIdentity) : P bool :=
  present ← private_leaf_exists_at quarantine;
  if present : bool then
    match expected with
    | None => throw InvalidIdentity
    | Some directory => reopen_private_child_from_parent quarantine directory ;; mret true
    end
  else
    live ← private_leaf_exists_at source;
    if live : bool then
      match expected with
      | None => throw InvalidIdentity
      | Some directory =>
        reopen_private_child_from_parent source directory ;;
        syscall EvidenceUnavailable ;;
        p ← get;
        match pw_children p !! source, pw_children p !! quarantine with
        | Some child, None => put (with_children p (<[quarantine := child]> (delete source (pw_children p))))
        | _, _ => throw EvidenceUnavailable
        end ;;
        syscall EvidenceUnavailable ;;
        parent_is_expected ;;
        syscall EvidenceUnavailable ;;
        reopen_private_child_from_parent quarantine directory ;;
        mret true
      end
    else mret false.

Definition acknowledge (key : ManagedKey) (b : ManagedArtifactBinding) : P unit :=
  managed (acknowledge_artifact_cleanup env key b).

(** From the directory in quarantine to the acknowledgement. *)
Definition remove_quarantined (quarantine : str) (key : ManagedKey) (seed binding : ManagedArtifactBinding)
    (expected_owner : option ManagedOwnerTag) (resolved_aliases : option (list ManagedReconcileEntry)) : P unit :=
  match private_directory (ab_made binding) with
  | None => throw InvalidIdentity
  | Some directory =>
    actual ← open_existing_private_dir quarantine;
    ensure (bool_decide (actual = directory)) InvalidIdentity ;;
    ownership ← read_private_runner_ownership quarantine;
    match ownership with
    | Some record => validate_private_runner_ownership_against_binding record key binding expected_owner resolved_aliases
    | None => mret tt
    end ;;
    progress ← progress_new key seed binding;
    progress ← remove_private_runner_control_fd_relative quarantine directory
      {| ex_ownership := ownership; ex_ownership_file := owner_file (ab_made binding); ex_runner := runner (ab_made binding);
         ex_socket := socket (ab_made binding);
         ex_partial_socket_leaf := if socket_create_pending (ab_made binding)
                                   then Some (private_socket_temp_leaf (ab_nonce (ab_name binding))) else None;
         ex_partial_owner_leaf := if owner_create_pending (ab_made binding)
                                  then Some (private_owner_temp_leaf (ab_nonce (ab_name binding))) else None;
         ex_allow_unbound_files := false |} (Some progress);
    parent_is_expected ;;
    match progress with
    | Some progress => acknowledge key (pp_current progress)
    | None => throw InvalidIdentity
    end
  end.

Definition cleanup_bound_private_runner_control (key : ManagedKey) (binding : ManagedArtifactBinding)
    (expected_owner : option ManagedOwnerTag) (resolved_aliases : option (list ManagedReconcileEntry)) : P unit :=
  match expected_owner with
  | None => throw InvalidIdentity
  | Some owner =>
    stored ← managed (artifact_binding env key owner);
    match stored with
    | None => mret tt
    | Some authoritative =>
      ensure (same_private_artifact_binding binding authoritative) InvalidIdentity ;;
      ensure (negb (creation_pending authoritative)) InvalidIdentity ;;
      if negb (md_boot (control_root (ab_name authoritative)) =? md_boot parent_identity) then
        completed ← managed (finish_artifact_logical_absence env key authoritative);
        acknowledge key completed
      else
        parent_is_expected ;;
        ensure (bool_decide (control_root (ab_name binding) = parent_identity)) InvalidIdentity ;;
        syscall EvidenceUnavailable ;;
        p ← get;
        ensure (bool_decide (pw_path_parent p = parent_identity)) InvalidIdentity ;;
        authoritative ← (if socket_retire_pending (ab_cleanup authoritative) then retire_pending_socket key authoritative
                         else mret authoritative);
        cleanup_binding ← managed (begin_artifact_cleanup env key authoritative);
        if cleanup_completed (ab_cleanup cleanup_binding) then acknowledge key cleanup_binding
        else
          match cleanup_quarantine (ab_cleanup cleanup_binding) with
          | None => throw InvalidIdentity
          | Some quarantine =>
            let m := ab_made cleanup_binding in
            moved ← publish_quarantine (private_leaf (ab_name cleanup_binding)) quarantine (private_directory m);
            if moved : bool then remove_quarantined quarantine key binding cleanup_binding expected_owner resolved_aliases
            else if negb (is_some (private_directory m)) && negb (is_some (runner m)) && negb (is_some (socket m)) then
              completed ← managed (finish_artifact_create_pending_absence env key cleanup_binding);
              acknowledge key completed
            else throw EvidenceUnavailable
          end
    end
  end.
End recovery.
