(* ===== verification/ManagedRemoval.v ===== *)
(** What the recovery of a private directory removes: the directory that the binding names, and
    in it the files that the binding names and the temporaries that transactions have left there,
    whatever the system answers. *)
From stdpp Require Import gmap.
From S2P Require Import Prelude Utf8 Protocol Text ManagedArtifacts ManagedSlots ManagedRegistry ManagedOps ManagedExec ManagedRetry ManagedRecovery.

(** A name of the directory that the binding holds, with its inode. *)
Definition bound_node (b : ManagedArtifactBinding) (name : str) (n : PrivateNode) : Prop :=
  (name = RUNNER_LEAF ∧ runner (ab_made b) = Some (pn_identity n)) ∨
  (name = SOCKET_LEAF ∧ socket (ab_made b) = Some (pn_identity n)) ∨
  (name = PRIVATE_RUNNER_OWNER_LEAF ∧ owner_file (ab_made b) = Some (pn_identity n)).

Section removing.
Context (uuid_parse_str : str → option Uuid).

(** A name that may go: a bound file, or the temporary of a transaction. *)
Definition removable (b : ManagedArtifactBinding) (name : str) (n : PrivateNode) : Prop :=
  bound_node b name n ∨ is_temp_name uuid_parse_str name = true ∧ temp_valid n = true.

(** The directory is the same, less some of the names that may go. *)
Definition shrunk (b : ManagedArtifactBinding) (d d' : PrivateDir) : Prop :=
  pd_identity d' = pd_identity d ∧
  ∀ name, pd_entries d' !! name = pd_entries d !! name ∨
          pd_entries d' !! name = None ∧ ∃ n, pd_entries d !! name = Some n ∧ removable b name n.

(** Nothing is touched but the bound directory, which stays with the files that may not go, or is
    removed when it had no other. *)
Definition kept (b : ManagedArtifactBinding) (c0 c : gmap str Child) : Prop :=
  ∀ leaf child, c0 !! leaf = Some child →
    c !! leaf = Some child ∨
    ∃ d, child = ChildDir d ∧ private_directory (ab_made b) = Some (pd_identity d) ∧
         ((∃ leaf' d', c !! leaf' = Some (ChildDir d') ∧ shrunk b d d') ∨
          ∀ name n, pd_entries d !! name = Some n → removable b name n).

Lemma shrunk_refl b d : shrunk b d d.
Proof. split; [done|]. by left. Qed.

Lemma shrunk_trans b d1 d2 d3 : shrunk b d1 d2 → shrunk b d2 d3 → shrunk b d1 d3.
Proof.
  intros [H1 H2] [H3 H4]. split; [congruence|]. intros name. destruct (H4 name) as [->|(-> & n & Hn & Hb)]; [apply H2|].
  right. split; [done|]. exists n. split; [|done]. destruct (H2 name) as [<-|[Hn' _]]; [done|congruence].
Qed.

Lemma shrunk_empty b d d' name n :
  shrunk b d d' → pd_entries d' = ∅ → pd_entries d !! name = Some n → removable b name n.
Proof.
  intros [_ H] He Hn. destruct (H name) as [Hk|(_ & n' & Hn' & Hb)]; [|congruence].
  rewrite He lookup_empty in Hk. congruence.
Qed.

Lemma kept_refl b c : kept b c c.
Proof. intros leaf child H. by left. Qed.

(** The bound directory is changed where it is, moved, or removed. *)
Lemma kept_insert b c0 c leaf d d' :
  kept b c0 c → c !! leaf = Some (ChildDir d) → private_directory (ab_made b) = Some (pd_identity d) → shrunk b d d' →
  kept b c0 (<[leaf := ChildDir d']> c).
Proof.
  intros Hk Hl Hi Hs leaf0 child H0. destruct (Hk leaf0 child H0) as [Hc|(d0 & -> & Hd0 & Hrest)].
  - destruct (decide (leaf0 = leaf)) as [->|Hne]; [|left; by rewrite lookup_insert_ne].
    right. rewrite Hl in Hc. injection Hc as <-. exists d. split_and!; [done..|]. left. exists leaf, d'.
    by rewrite lookup_insert_eq.
  - right. exists d0. split_and!; [done..|]. destruct Hrest as [(leaf' & d1 & Hc & Hs1)|?]; [left|by right].
    destruct (decide (leaf' = leaf)) as [->|Hne].
    + exists leaf, d'. rewrite lookup_insert_eq. split; [done|]. eapply shrunk_trans; [exact Hs1|]. congruence.
    + exists leaf', d1. by rewrite lookup_insert_ne.
Qed.

Lemma kept_move b c0 c source quarantine d :
  kept b c0 c → c !! source = Some (ChildDir d) → c !! quarantine = None →
  private_directory (ab_made b) = Some (pd_identity d) → kept b c0 (<[quarantine := ChildDir d]> (delete source c)).
Proof.
  intros Hk Hs Hq Hi leaf0 child H0. destruct (Hk leaf0 child H0) as [Hc|(d0 & -> & Hd0 & Hrest)].
  - destruct (decide (leaf0 = source)) as [->|Hne].
    + right. rewrite Hs in Hc. injection Hc as <-. exists d. split_and!; [done..|]. left. exists quarantine, d.
      rewrite lookup_insert_eq. split; [done|apply shrunk_refl].
    + left. rewrite lookup_insert_ne; [by rewrite lookup_delete_ne|]. intros ->. congruence.
  - right. exists d0. split_and!; [done..|]. destruct Hrest as [(leaf' & d1 & Hc & Hs1)|?]; [left|by right].
    destruct (decide (leaf' = source)) as [->|Hne].
    + exists quarantine, d. rewrite lookup_insert_eq. split; [done|]. congruence.
    + exists leaf', d1. rewrite lookup_insert_ne; [by rewrite lookup_delete_ne|]. intros ->. congruence.
Qed.

Lemma kept_remove b c0 c leaf d :
  kept b c0 c → c !! leaf = Some (ChildDir d) → private_directory (ab_made b) = Some (pd_identity d) →
  pd_entries d = ∅ → kept b c0 (delete leaf c).
Proof.
  intros Hk Hl Hi He leaf0 child H0. destruct (Hk leaf0 child H0) as [Hc|(d0 & -> & Hd0 & Hrest)].
  - destruct (decide (leaf0 = leaf)) as [->|Hne]; [|left; by rewrite lookup_delete_ne].
    right. rewrite Hl in Hc. injection Hc as <-. exists d. split_and!; [done..|]. right. intros name n Hn.
    by rewrite He lookup_empty in Hn.
  - right. exists d0. split_and!; [done..|]. destruct Hrest as [(leaf' & d1 & Hc & Hs1)|?]; [|by right].
    destruct (decide (leaf' = leaf)) as [->|Hne].
    + right. intros name n. apply (shrunk_empty b d0 d1); [done|congruence].
    + left. exists leaf', d1. by rewrite lookup_delete_ne.
Qed.

(** ** Triples *)

Section removal.
Context (env : Env) (sys : nat → bool) (parent_identity : ManagedDirectoryIdentity).
Context (b : ManagedArtifactBinding) (c0 : gmap str Child).

Abbreviation P A := (M PWorld ContainmentErrorCode A) (only parsing).
Notation T := (triple (E := ContainmentErrorCode) (λ p : PWorld, kept b c0 (pw_children p))).

(** What holds of the children does not change with the registry. *)
Definition about_children (Q : PWorld → Prop) : Prop := ∀ p p', pw_children p' = pw_children p → Q p → Q p'.

Lemma managed_keeps {A} (m : M World ManagedError A) (Q : PWorld → Prop) :
  about_children Q → T Q (managed m) (λ _, Q).
Proof. intros HQ p Hp HP. unfold managed. destruct (m _) as [[a|e] w]; [split; [done|by apply (HQ p)]|done]. Qed.

Lemma ensure_keeps (c : bool) e (Q : PWorld → Prop) : T Q (ensure c e) (λ _ p, c = true ∧ Q p).
Proof. intros p Hp HP. by destruct c. Qed.

Lemma throw_any {A} e (Q : PWorld → Prop) (Q' : A → PWorld → Prop) : T Q (throw e) Q'.
Proof. by intros p Hp _. Qed.

Lemma keeps_post {A} (Q : PWorld → Prop) (m : P A) (Q1 Q2 : A → PWorld → Prop) :
  T Q m Q1 → (∀ a p, Q1 a p → Q2 a p) → T Q m Q2.
Proof. intros H H12. eapply triple_weaken; [|intros a p _; apply H12|exact H]. done. Qed.

Lemma keeps_pre {A} (Q Q' : PWorld → Prop) (m : P A) (Q1 : A → PWorld → Prop) :
  T Q' m Q1 → (∀ p, Q p → Q' p) → T Q m Q1.
Proof. intros H HQ. eapply triple_weaken; [intros p _; apply HQ| |exact H]. done. Qed.

Lemma syscall_keeps e (Q : PWorld → Prop) : about_children Q → T Q (syscall sys e) (λ _, Q).
Proof.
  intros HQ. eapply triple_bind; [by apply managed_keeps|]. intros ok.
  eapply keeps_post; [apply ensure_keeps|]. by intros _ p [_ ?].
Qed.

Lemma get_keeps (Q : PWorld → Prop) : T Q get (λ p0 p, p0 = p ∧ Q p).
Proof. by intros p Hp HP. Qed.

Definition any (p : PWorld) : Prop := True.

Lemma about_any : about_children any.
Proof. done. Qed.

(** The child at a leaf is the directory of the binding. *)
Definition bound_at (leaf : str) (p : PWorld) : Prop :=
  ∃ d, pw_children p !! leaf = Some (ChildDir d) ∧ private_directory (ab_made b) = Some (pd_identity d).

Lemma about_bound_at leaf : about_children (bound_at leaf).
Proof. intros p p' Hc. unfold bound_at. by rewrite Hc. Qed.

Hint Resolve about_any about_bound_at : core.

(** A call that leaves the children alone. *)
Definition idle {A} (m : P A) : Prop := ∀ p, pw_children (m p).2 = pw_children p.

Lemma idle_triple {A} (m : P A) Q : idle m → about_children Q → T Q m (λ _, Q).
Proof. intros Hm HQ p Hp HP. specialize (Hm p). destruct (m p) as [[a|e] p']; cbn in Hm; rewrite Hm; [split; [done|]|done]. by apply (HQ p). Qed.

Lemma idle_bind {A B} (m : P A) (k : A → P B) : idle m → (∀ a, idle (k a)) → idle (m ≫= k).
Proof. intros Hm Hk p. specialize (Hm p). unfold mbind, M_bind. destruct (m p) as [[a|e] p']; [by rewrite Hk|done]. Qed.

Lemma idle_managed {A} (m : M World ManagedError A) : idle (managed m).
Proof. intros p. unfold managed. by destruct (m _) as [[?|?] ?]. Qed.

Lemma idle_ensure c e : idle (ensure c e).
Proof. by destruct c. Qed.

Lemma idle_ret {A} (a : A) : idle (mret a).
Proof. done. Qed.

Lemma idle_throw {A} e : idle (throw e : P A).
Proof. done. Qed.

Lemma idle_get : idle get.
Proof. done. Qed.

Ltac idle := repeat first [ apply idle_ret | apply idle_throw | apply idle_get | apply idle_ensure | apply idle_managed
                          | apply idle_bind; [|intros] | case_match ].

Lemma idle_syscall e : idle (syscall sys e).
Proof. unfold syscall. idle. Qed.

Lemma idle_parent : idle (parent_is_expected sys parent_identity).
Proof. unfold parent_is_expected, syscall. idle. Qed.

Lemma idle_reopen leaf i : idle (reopen_private_child_from_parent sys leaf i).
Proof. unfold reopen_private_child_from_parent, syscall, child_dir. idle. Qed.

Lemma idle_open leaf name kind expected : idle (open_validated_private_artifact_at sys leaf name kind expected).
Proof. unfold open_validated_private_artifact_at, syscall, child_dir. idle. Qed.

Lemma idle_agree names d ex : idle (expectations_agree names d ex).
Proof. unfold expectations_agree. idle. Qed.

Lemma child_dir_triple leaf (Q : PWorld → Prop) :
  T Q (child_dir leaf) (λ d p, Q p ∧ pw_children p !! leaf = Some (ChildDir d)).
Proof.
  intros p Hp HP. unfold child_dir, get, mbind, M_bind. cbn. destruct (pw_children p !! leaf) as [[d|]|] eqn:Hd; [|done..].
  cbn. by rewrite Hd.
Qed.

(** What is opened under a name has the identity that is expected. *)
Lemma open_triple leaf name kind expected (Q : PWorld → Prop) :
  about_children Q →
  T Q (open_validated_private_artifact_at sys leaf name kind expected)
    (λ r p, Q p ∧ match r with
                  | Some n => is_none_or expected (λ i, bool_decide (pn_identity n = i)) = true ∧
                              ∃ d, pw_children p !! leaf = Some (ChildDir d) ∧ pd_entries d !! name = Some n
                  | None => True
                  end).
Proof.
  intros HQ. unfold open_validated_private_artifact_at. eapply triple_bind; [by apply syscall_keeps|]. intros [].
  eapply triple_bind; [apply child_dir_triple|]. intros d. destruct (pd_entries d !! name) as [n|] eqn:Hn.
  2:{ destruct (is_some expected); [apply throw_any|]. apply triple_ret. by intros p _ [? _]. }
  assert (about_children (λ p, Q p ∧ pw_children p !! leaf = Some (ChildDir d))) as Hab.
  { intros p p' Hc [? ?]. rewrite Hc. split; [by apply (HQ p)|done]. }
  eapply triple_bind; [apply ensure_keeps|]. intros []. eapply triple_bind.
  { apply syscall_keeps. intros p p' Hc [? ?]. split; [done|]. by apply (Hab p). }
  intros []. eapply triple_bind; [apply ensure_keeps|]. intros []. apply triple_ret.
  intros p _ (Hv & _ & HQp & Hc). apply andb_true in Hv as [_ Hv]. split; [done|]. split; [done|]. eauto.
Qed.

(** Opening the bound directory under a leaf. *)
Lemma reopen_triple leaf i (Q : PWorld → Prop) :
  about_children Q → private_directory (ab_made b) = Some i →
  T Q (reopen_private_child_from_parent sys leaf i) (λ _ p, Q p ∧ bound_at leaf p).
Proof.
  intros HQ Hi. eapply triple_bind; [by apply syscall_keeps|]. intros [].
  eapply triple_bind; [apply child_dir_triple|]. intros d. eapply triple_bind.
  { apply syscall_keeps. intros p p' Hc [? ?]. rewrite Hc. split; [by apply (HQ p)|done]. }
  intros []. eapply keeps_post; [apply ensure_keeps|]. intros [] p (Hd & HQp & Hc). split; [done|].
  exists d. split; [done|]. apply bool_decide_eq_true in Hd. congruence.
Qed.

(** The one place where a name goes: it may go. *)
Lemma set_entries_triple leaf name :
  T (λ p, ∃ d m, pw_children p !! leaf = Some (ChildDir d) ∧ private_directory (ab_made b) = Some (pd_identity d) ∧
                 pd_entries d !! name = Some m ∧ removable b name m)
    (set_entries leaf (delete name)) (λ _, bound_at leaf).
Proof.
  intros p Hp (d & m & Hd & Hi & Hn & Hb). unfold set_entries, child_dir, get, put, mbind, M_bind. cbn. rewrite Hd. cbn.
  split.
  - eapply kept_insert; [done..|]. split; [done|]. intros name'. cbn. destruct (decide (name' = name)) as [->|Hne].
    + right. rewrite lookup_delete_eq. eauto.
    + left. by rewrite lookup_delete_ne.
  - eexists. cbn. by rewrite lookup_insert_eq.
Qed.

Lemma unlink_triple leaf name n :
  T (λ p, ∃ d m, pw_children p !! leaf = Some (ChildDir d) ∧ private_directory (ab_made b) = Some (pd_identity d) ∧
                 pd_entries d !! name = Some m ∧ bound_node b name m)
    (unlink_and_check sys leaf name n) (λ _, bound_at leaf).
Proof.
  unfold unlink_and_check. eapply triple_bind.
  { apply syscall_keeps. intros p p' Hc. by rewrite Hc. }
  intros []. eapply (triple_bind _ _ _ (λ _, bound_at leaf)).
  - eapply keeps_pre; [apply set_entries_triple|]. intros p (d & m & Hd & Hi & Hn & Hb). exists d, m. by split_and!; [..|left].
  - intros []. eapply triple_bind; [by apply syscall_keeps|]. intros [].
    eapply triple_bind; [by apply syscall_keeps|]. intros []. eapply keeps_post; [apply ensure_keeps|]. by intros ? p [_ ?].
Qed.

(** Listing the names removes temporaries only. *)
Lemma remove_temp_triple leaf name :
  is_temp_name uuid_parse_str name = true → T (bound_at leaf) (remove_temp sys leaf name) (λ _, bound_at leaf).
Proof.
  intros Hname. unfold remove_temp. eapply triple_bind; [by apply managed_keeps|]. intros read.
  eapply triple_bind; [apply child_dir_triple|]. intros d.
  destruct (read && _) eqn:Hv; [|apply triple_ret; by intros p _ [? _]].
  apply andb_true in Hv as [_ Hv]. destruct (pd_entries d !! name) as [m|] eqn:Hm; [|done].
  assert (about_children (λ p, bound_at leaf p ∧ pw_children p !! leaf = Some (ChildDir d))) as Hab.
  { intros p p' Hc [? ?]. rewrite Hc. split; [by apply (about_bound_at leaf p)|done]. }
  eapply triple_bind; [by apply managed_keeps|]. intros [|]; [|apply triple_ret; by intros p _ [? _]].
  eapply (triple_bind _ _ _ (λ _, bound_at leaf)); [|intros []; by apply triple_ret].
  eapply keeps_pre; [apply set_entries_triple|]. intros p ((d' & Hd' & Hi) & Hd). exists d, m.
  split_and!; [done|congruence|done|by right].
Qed.

Lemma retain_names_triple leaf names :
  T (bound_at leaf) (retain_names sys uuid_parse_str leaf names) (λ _, bound_at leaf).
Proof.
  induction names as [|name names IH]; [by apply triple_ret|]. cbn [retain_names].
  eapply (triple_bind _ _ _ (λ _, bound_at leaf)).
  { destruct (is_temp_name _ name) eqn:Hn; [by apply remove_temp_triple|by apply triple_ret]. }
  intros gone. eapply triple_bind; [exact IH|]. intros kept. by apply triple_ret.
Qed.

Lemma revalidate_keeps leaf i Q : about_children Q → T Q (revalidate sys leaf i) (λ _, Q).
Proof. apply idle_triple. unfold revalidate, open_existing_private_dir, syscall, child_dir. idle. Qed.

Lemma list_triple leaf i : T (bound_at leaf) (list_leaf_names sys uuid_parse_str leaf i) (λ _, bound_at leaf).
Proof.
  unfold list_leaf_names. eapply triple_bind; [by apply syscall_keeps|]. intros [].
  eapply triple_bind; [by apply revalidate_keeps|]. intros []. eapply triple_bind; [by apply syscall_keeps|]. intros [].
  eapply triple_bind; [apply child_dir_triple|]. intros d. eapply keeps_pre; [|by intros p [H _]; exact H].
  eapply triple_bind; [apply retain_names_triple|]. intros kept.
  eapply (triple_bind _ _ _ (λ _, bound_at leaf)); [destruct kept.2; [by apply syscall_keeps|by apply triple_ret]|].
  intros []. eapply triple_bind; [by apply revalidate_keeps|]. intros []. by apply triple_ret.
Qed.

(** What may be unlinked under a name: nothing, or a file with the bound inode. *)
Definition unlinkable (name : str) (artifact : option PrivateNode) : Prop :=
  ∀ n, artifact = Some n → bound_node b name n.

Lemma bound_node_same name n n' : pn_identity n = pn_identity n' → bound_node b name n → bound_node b name n'.
Proof. unfold bound_node. by intros ->. Qed.

Lemma unlink_artifact_triple leaf artifact name kind :
  unlinkable name artifact → T (bound_at leaf) (unlink_artifact sys leaf artifact name kind) (λ _, bound_at leaf).
Proof.
  intros Hu. destruct artifact as [n|]; [|by apply triple_ret]. specialize (Hu n eq_refl). cbn [unlink_artifact].
  eapply triple_bind; [by apply syscall_keeps|]. intros []. eapply triple_bind; [by apply open_triple|].
  intros again. eapply triple_bind; [apply ensure_keeps|]. intros []. destruct again as [m|]; [|by intros p Hp [? _]].
  eapply keeps_pre; [apply unlink_triple|]. intros p (_ & (d & Hd & Hi) & Hm & d' & Hd' & Hn). cbn in Hm.
  apply bool_decide_eq_true in Hm. exists d, m. split_and!; [done|done|congruence|]. by apply (bound_node_same name n).
Qed.

(** The cleanup of a binding: its progress has the files of [b], and what is found is bound. *)
Definition progress_ok (progress : option ManagedPrivateCleanupProgress) : Prop :=
  ∃ p, progress = Some p ∧ same_artifact (pp_current p) b = true.

Lemma with_progress_triple progress op leaf :
  progress_ok progress →
  (∀ key a w a' w', op key a w = (Ok a', w') → same_artifact a b = true → same_artifact a' b = true) →
  T (bound_at leaf) (with_progress progress op) (λ progress' p, progress_ok progress' ∧ bound_at leaf p).
Proof.
  intros (q & -> & Hq) Hop p Hp HP. unfold with_progress, managed, mbind, M_bind.
  destruct (op (pp_key q) (pp_current q) (pw_registry p)) as [[a|e] w] eqn:Ho; cbn; [|done].
  split; [done|]. split; [|done]. eexists. split; [done|]. by eapply Hop.
Qed.

(** The operations answer a binding with the files of the one they were asked for. *)
Lemma same_artifact_trans x y : same_artifact x y = true → same_artifact y b = true → same_artifact x b = true.
Proof. rewrite !same_artifact_spec. intros [-> ->]. done. Qed.

Lemma update_answers current x w y w' : update_binding env current x w = (Ok y, w') → y = x.
Proof. intros (? & w1 & _ & [= <- _])%M_bind_Ok. done. Qed.

Ltac into H := apply M_bind_Ok in H as (? & ? & _ & H).
Ltac guarded H Hg := apply M_bind_Ok in H as ([] & ? & Hg & H); unfold guard_or in Hg.

Lemma begin_unlink_same step key a w a' w' :
  begin_artifact_unlink env key a step w = (Ok a', w') → same_artifact a b = true → same_artifact a' b = true.
Proof.
  intros H Hs. apply M_bind_Ok in H as (r & w1 & _ & H). apply M_bind_Ok in H as (x & w2 & _ & H). cbv zeta in H.
  guarded H Hg. destruct (same_artifact x a) eqn:Hx; [|done]. into H.
  assert (same_artifact x b = true) as Hxb by by eapply same_artifact_trans.
  destruct (cleanup_step_completed x step); [by injection H as <- _|].
  destruct (cleanup_unlink_pending (ab_cleanup x)).
  - into H. by injection H as <- _.
  - into H. by apply update_answers in H as ->.
Qed.

Lemma finish_unlink_same step key a w a' w' :
  finish_artifact_unlink env key a step w = (Ok a', w') → same_artifact a b = true → same_artifact a' b = true.
Proof.
  intros H Hs. apply M_bind_Ok in H as (r & w1 & _ & H). apply M_bind_Ok in H as (x & w2 & _ & H). cbv zeta in H.
  guarded H Hg. destruct (same_artifact x a) eqn:Hx; [|done]. into H.
  assert (same_artifact x b = true) as Hxb by by eapply same_artifact_trans.
  destruct (cleanup_step_completed x step); [by injection H as <- _|]. into H.
  destruct (advance_step x step) as [y|] eqn:Hy; [|done]. apply update_answers in H as ->.
  destruct (advance_step_facts _ _ _ Hy) as (Hb & _). by rewrite Hb.
Qed.

Lemma finish_cleanup_same key a w a' w' :
  finish_artifact_cleanup env key a w = (Ok a', w') → same_artifact a b = true → same_artifact a' b = true.
Proof.
  intros H Hs. apply M_bind_Ok in H as (r & w1 & _ & H). apply M_bind_Ok in H as (x & w2 & _ & H). cbv zeta in H.
  guarded H Hg. destruct (same_artifact x a) eqn:Hx; [|done].
  assert (same_artifact x b = true) as Hxb by by eapply same_artifact_trans.
  destruct (cleanup_completed (ab_cleanup x)); [by injection H as <- _|]. into H. by apply update_answers in H as ->.
Qed.

Lemma begin_cleanup_same key a w a' w' :
  begin_artifact_cleanup env key a w = (Ok a', w') → same_artifact a b = true →
  same_artifact a' b = true ∧ creation_pending a' = false.
Proof.
  intros H Hs. apply M_bind_Ok in H as (r & w1 & _ & H). apply M_bind_Ok in H as (x & w2 & _ & H). cbv zeta in H.
  into H. guarded H Hc. destruct (creation_pending x) eqn:Hp; [done|].
  guarded H Hg. destruct (same_artifact x a) eqn:Hx; [|done].
  assert (same_artifact x b = true) as Hxb by by eapply same_artifact_trans.
  destruct (is_some _); [by injection H as <- _|]. into H. by apply update_answers in H as ->.
Qed.

Lemma finish_retirement_same key a w a' w' :
  finish_artifact_socket_retirement env key a w = (Ok a', w') → same_artifact a b = true → same_artifact a' b = true.
Proof.
  intros H Hs. apply M_bind_Ok in H as (r & w1 & _ & H). apply M_bind_Ok in H as (x & w2 & _ & H). cbv zeta in H.
  guarded H Hg. destruct (same_artifact x a) eqn:Hx; [|done].
  assert (same_artifact x b = true) as Hxb by by eapply same_artifact_trans.
  destruct (socket_retired _); [by injection H as <- _|]. into H. by apply update_answers in H as ->.
Qed.

(** ** The removal of the directory *)

Record expected_of (ex : PrivateControlCleanupExpectations) : Prop := {
  eo_runner : or_else (ex_runner ex) (po_runner <$> ex_ownership ex) = runner (ab_made b);
  eo_socket : or_else (ex_socket ex) (po_socket <$> ex_ownership ex) = socket (ab_made b);
  eo_owner : ex_ownership_file ex = owner_file (ab_made b);
  eo_partial_socket : ex_partial_socket_leaf ex = None;
  eo_partial_owner : ex_partial_owner_leaf ex = None;
}.

Lemma open_step_triple leaf name kind expected completed :
  T (bound_at leaf) (open_step_artifact sys leaf name kind expected true completed)
    (λ r p, (∀ n, r = Some n → expected = Some (pn_identity n)) ∧ bound_at leaf p).
Proof.
  unfold open_step_artifact. destruct completed.
  - eapply triple_bind; [by apply open_triple|]. intros found. eapply triple_bind; [apply ensure_keeps|]. intros [].
    apply triple_ret. intros p _ (_ & H & _). split; [done|exact H].
  - eapply triple_bind; [by apply open_triple|]. intros artifact. eapply triple_bind; [apply ensure_keeps|]. intros [].
    apply triple_ret. intros p _ (Hg & H & Ha). split; [|exact H]. intros n ->. destruct Ha as [Ha _].
    destruct expected as [i|]; [|done]. cbn in Ha. apply bool_decide_eq_true in Ha. congruence.
Qed.

Lemma and_left (Q : PWorld → Prop) (φ : Prop) : about_children Q → about_children (λ p, φ ∧ Q p).
Proof. intros HQ p p' Hc [? ?]. split; [done|]. by apply (HQ p). Qed.

Definition found_ok (f : Found) : Prop :=
  unlinkable RUNNER_LEAF (fo_runner f) ∧ unlinkable SOCKET_LEAF (fo_socket f) ∧
  unlinkable PRIVATE_RUNNER_OWNER_LEAF (fo_ownership f).

Lemma find_artifacts_triple leaf ex progress :
  expected_of ex → progress_ok progress →
  T (bound_at leaf) (find_artifacts sys leaf ex progress) (λ f p, found_ok f ∧ bound_at leaf p).
Proof.
  intros [Hr Hs Ho Hps Hpo] (q & -> & _). unfold find_artifacts. rewrite Hr Hs Ho Hps Hpo. cbn [is_some].
  eapply triple_bind; [apply open_step_triple|]. intros run.
  apply (triple_pure _ (∀ n, run = Some n → runner (ab_made b) = Some (pn_identity n))); [by intros p []|]. intros Hrun.
  eapply keeps_pre; [|by intros p [_ H]; exact H].
  eapply triple_bind; [apply open_step_triple|]. intros sock.
  apply (triple_pure _ (∀ n, sock = Some n → socket (ab_made b) = Some (pn_identity n))); [by intros p []|]. intros Hsock.
  eapply keeps_pre; [|by intros p [_ H]; exact H].
  eapply triple_bind; [apply open_step_triple|]. intros own.
  apply (triple_pure _ (∀ n, own = Some n → owner_file (ab_made b) = Some (pn_identity n))); [by intros p []|]. intros Hown.
  eapply keeps_pre; [|by intros p [_ H]; exact H].
  eapply (triple_bind _ _ _ (λ _, bound_at leaf)); [by apply triple_ret|]. intros ps.
  eapply (triple_bind _ _ _ (λ _, bound_at leaf)); [by apply triple_ret|]. intros po.
  do 3 (eapply triple_bind; [apply ensure_keeps|]; intros []; eapply keeps_pre; [|by intros p [_ H]; exact H]).
  apply triple_ret. intros p _ H. split; [|exact H]. split_and!; intros n Hn; cbn in Hn.
  - left. by rewrite (Hrun n Hn).
  - right. left. by rewrite (Hsock n Hn).
  - right. right. by rewrite (Hown n Hn).
Qed.

Lemma removal_step_triple leaf step artifact name kind completed progress :
  unlinkable name artifact → progress_ok progress →
  T (bound_at leaf) (removal_step env sys leaf step artifact name kind None completed progress)
    (λ progress' p, progress_ok progress' ∧ bound_at leaf p).
Proof.
  intros Hu Hp. unfold removal_step. destruct completed; [by apply triple_ret|].
  eapply triple_bind; [apply with_progress_triple; [done|intros ?????; apply begin_unlink_same]|]. intros progress1.
  apply (triple_pure _ (progress_ok progress1)); [by intros p []|]. intros Hp1.
  eapply keeps_pre; [|by intros p [_ H]; exact H].
  eapply triple_bind; [by apply unlink_artifact_triple|]. intros [].
  eapply (triple_bind _ _ _ (λ _, bound_at leaf)); [by apply triple_ret|]. intros [].
  apply with_progress_triple; [done|]. intros ?????. apply finish_unlink_same.
Qed.

Lemma remove_directory_triple leaf p0 :
  T (λ p, p0 = p ∧ ∃ d, pw_children p !! leaf = Some (ChildDir d) ∧
                        private_directory (ab_made b) = Some (pd_identity d) ∧ pd_entries d = ∅)
    (put (with_children p0 (delete leaf (pw_children p0)))) (λ _, any).
Proof.
  intros p Hp (-> & d & Hd & Hi & He). split; [|done]. by eapply kept_remove.
Qed.

(** Goes over a call that leaves the children alone. *)
Ltac over H := eapply triple_bind; [apply idle_triple; [apply H|by auto]|]; intros [].

Lemma parent_keeps Q : about_children Q → T Q (parent_is_expected sys parent_identity) (λ _, Q).
Proof. apply idle_triple, idle_parent. Qed.

Lemma remove_triple leaf directory ex progress :
  private_directory (ab_made b) = Some directory → expected_of ex → progress_ok progress →
  T any (remove_private_runner_control_fd_relative env sys parent_identity uuid_parse_str leaf directory ex progress)
    (λ progress' _, progress_ok progress').
Proof.
  intros Hdir Hex Hprog. pose proof (eo_partial_socket _ Hex) as Hps. pose proof (eo_partial_owner _ Hex) as Hpo.
  unfold remove_private_runner_control_fd_relative. rewrite Hps Hpo. cbn [fmap option_fmap option_map].
  eapply triple_bind; [by apply parent_keeps|]. intros [].
  eapply triple_bind; [apply (idle_triple _ any); [unfold revalidate, open_existing_private_dir, syscall, child_dir; idle|done]|].
  intros []. eapply triple_bind; [by apply reopen_triple|]. intros [].
  eapply keeps_pre; [|by intros p [_ H]; exact H]. eapply triple_bind; [apply list_triple|]. intros names.
  eapply triple_bind; [apply idle_triple; [apply idle_agree|by auto]|]. intros [].
  eapply triple_bind; [by apply find_artifacts_triple|]. intros found.
  apply (triple_pure _ (found_ok found)); [by intros p []|]. intros (Hfr & Hfs & Hfo).
  eapply keeps_pre; [|by intros p [_ H]; exact H].
  eapply triple_bind; [by apply reopen_triple|]. intros []. eapply keeps_pre; [|by intros p [_ H]; exact H].
  do 3 (eapply triple_bind; [by apply removal_step_triple|]; let q := fresh "q" in let Hq := fresh "Hq" in intros q;
    apply (triple_pure _ (progress_ok q)); [by intros p []|]; intros Hq; eapply keeps_pre; [|by intros p [_ H]; exact H]).
  eapply triple_bind; [by apply reopen_triple|]. intros []. eapply keeps_pre; [|by intros p [_ H]; exact H].
  eapply triple_bind; [apply with_progress_triple; [done|intros ?????; apply begin_unlink_same]|]. intros q2.
  apply (triple_pure _ (progress_ok q2)); [by intros p []|]. intros Hq2. eapply keeps_pre; [|by intros p [_ H]; exact H].
  eapply triple_bind; [by apply reopen_triple|]. intros []. eapply keeps_pre; [|by intros p [_ H]; exact H].
  eapply triple_bind; [by apply syscall_keeps|]. intros [].
  eapply triple_bind; [apply child_dir_triple|]. intros d. eapply triple_bind; [apply ensure_keeps|]. intros [].
  eapply triple_bind; [apply get_keeps|]. intros p0. eapply triple_bind.
  { eapply keeps_pre; [apply remove_directory_triple|]. intros p (-> & He & (d' & Hd' & Hi) & Hd). split; [done|].
    exists d. apply bool_decide_eq_true in He. split_and!; [done|congruence|done]. }
  intros []. eapply triple_bind; [by apply syscall_keeps|]. intros []. eapply triple_bind; [by apply parent_keeps|].
  intros []. eapply triple_bind; [by apply syscall_keeps|]. intros [].
  intros p Hp _. destruct Hq2 as (x & -> & Hx). unfold with_progress, managed, mbind, M_bind.
  destruct (finish_artifact_cleanup _ _ _ _) as [[a|e] w] eqn:Ha; cbn; [|done]. split; [done|]. eexists. split; [done|].
  cbn. by eapply finish_cleanup_same.
Qed.

(** ** [cleanup_bound_private_runner_control] *)

Lemma idle_any {A} (m : P A) : idle m → T any m (λ _, any).
Proof. intros H. by apply idle_triple. Qed.

Lemma retire_triple key :
  T any (retire_pending_socket env sys key b) (λ a _, same_artifact a b = true).
Proof.
  unfold retire_pending_socket. destruct (private_directory (ab_made b)) as [directory|] eqn:Hd; [|apply throw_any].
  eapply triple_bind; [by apply reopen_triple|]. intros []. eapply keeps_pre; [|by intros p [_ H]; exact H].
  eapply triple_bind; [by apply syscall_keeps|]. intros [].
  destruct (socket (ab_made b)) as [identity|] eqn:Hs; [|apply throw_any].
  eapply triple_bind; [by apply open_triple|]. intros [n|]; [|apply throw_any].
  eapply triple_bind.
  { eapply keeps_pre; [apply unlink_triple|]. intros p ((d & Hdir & Hi) & Hn & d' & Hd' & Hname). cbn in Hn.
    apply bool_decide_eq_true in Hn. exists d, n. split_and!; [done|done|congruence|]. right. left. by rewrite Hs Hn. }
  intros [] p Hp _. unfold managed.
  destruct (finish_artifact_socket_retirement _ _ _ _) as [[a|e] w] eqn:Ho; [|done]. split; [done|].
  eapply finish_retirement_same; [done|apply same_artifact_refl].
Qed.

Lemma publish_triple source quarantine expected :
  expected = private_directory (ab_made b) →
  T any (publish_quarantine sys parent_identity source quarantine expected) (λ _, any).
Proof.
  intros ->. unfold publish_quarantine. eapply triple_bind; [apply idle_any; unfold private_leaf_exists_at, syscall; idle|].
  intros present. destruct (private_directory (ab_made b)) as [directory|] eqn:Hd.
  2:{ apply idle_any. unfold private_leaf_exists_at, syscall. idle. }
  destruct present.
  { eapply triple_bind; [apply idle_any, idle_reopen|]. intros []. by apply triple_ret. }
  eapply triple_bind; [apply idle_any; unfold private_leaf_exists_at, syscall; idle|]. intros live.
  destruct live; [|by apply triple_ret]. eapply triple_bind; [by apply reopen_triple|]. intros [].
  eapply keeps_pre; [|by intros p [_ H]; exact H]. eapply triple_bind; [by apply syscall_keeps|]. intros [].
  eapply triple_bind; [apply get_keeps|]. intros p0. eapply (triple_bind _ _ _ (λ _, any)).
  { intros p Hp (-> & d & Hdir & Hi). rewrite Hdir. destruct (pw_children p !! quarantine) eqn:Hq; [done|].
    split; [|done]. by eapply kept_move. }
  intros []. do 2 (eapply triple_bind; [apply idle_any; first [apply idle_syscall|apply idle_parent]|]; intros []).
  eapply triple_bind; [apply idle_any, idle_syscall|]. intros [].
  eapply triple_bind; [apply idle_any, idle_reopen|]. intros []. by apply triple_ret.
Qed.

(** A record of the owner that passes has the runner and the socket of the binding. *)
Lemma validate_ownership_triple record key a owner aliases :
  T any (validate_private_runner_ownership_against_binding record key a owner aliases)
    (λ _ _, runner (ab_made a) = Some (po_runner record) ∧ socket (ab_made a) = Some (po_socket record)).
Proof.
  eapply keeps_post; [apply ensure_keeps|]. intros [] p [Hm _]. unfold ownership_matches in Hm.
  destruct (private_directory _); [|done]. destruct (runner (ab_made a)) as [run|]; [|done].
  destruct (socket (ab_made a)) as [sock|]; [|done]. inv_ok. split; congruence.
Qed.

Lemma progress_new_triple key seed a :
  same_artifact a b = true → T any (progress_new key seed a) (λ q _, same_artifact (pp_current q) b = true).
Proof.
  intros Ha. unfold progress_new. eapply triple_bind; [apply ensure_keeps|]. intros []. by apply triple_ret.
Qed.

Lemma same_artifact_made a : same_artifact a b = true → ab_made a = ab_made b.
Proof. by intros [_ ?]%same_artifact_spec. Qed.

Lemma remove_quarantined_triple quarantine key seed a owner aliases :
  same_artifact a b = true → creation_pending a = false →
  T any (remove_quarantined env sys parent_identity uuid_parse_str quarantine key seed a owner aliases) (λ _, any).
Proof.
  intros Ha Hcp. pose proof (same_artifact_made a Ha) as Hm. unfold remove_quarantined.
  destruct (private_directory (ab_made a)) as [directory|] eqn:Hd; [|apply throw_any].
  eapply triple_bind; [apply idle_any; unfold open_existing_private_dir, syscall, child_dir; idle|]. intros actual.
  eapply triple_bind; [apply idle_any, idle_ensure|]. intros [].
  eapply triple_bind; [apply idle_any; unfold read_private_runner_ownership, syscall, child_dir; idle|]. intros ownership.
  eapply (triple_bind _ _ _ (λ _ _, ∀ record, ownership = Some record →
    runner (ab_made a) = Some (po_runner record) ∧ socket (ab_made a) = Some (po_socket record))).
  { destruct ownership as [record|]; [|by apply triple_ret].
    eapply keeps_post; [apply validate_ownership_triple|]. by intros [] p ? ? [= <-]. }
  intros []. apply (triple_pure _ (∀ record, ownership = Some record →
    runner (ab_made a) = Some (po_runner record) ∧ socket (ab_made a) = Some (po_socket record))); [by intros p ?|].
  intros Hown. eapply (keeps_pre _ any); [|done].
  eapply triple_bind; [by apply progress_new_triple|]. intros q. cbv beta.
  apply (triple_pure _ (same_artifact (pp_current q) b = true)); [by intros p ?|]. intros Hq.
  apply orb_false_iff in Hcp as [[_ Hps]%orb_false_iff Hpo].
  eapply triple_bind.
  { eapply (keeps_pre _ any); [|done]. apply remove_triple; [by rewrite -Hm| |by eexists]. split; cbn.
    - rewrite -Hm. destruct ownership as [record|]; [by destruct (Hown record eq_refl) as [-> _]|by destruct (runner _)].
    - rewrite -Hm. destruct ownership as [record|]; [by destruct (Hown record eq_refl) as [_ ->]|by destruct (socket _)].
    - by rewrite Hm.
    - by rewrite Hps.
    - by rewrite Hpo. }
  intros q'. eapply (keeps_pre _ any); [|done]. apply idle_any, idle_bind; [apply idle_parent|]. intros [].
  destruct q'; [apply idle_managed|apply idle_throw].
Qed.

(** After the checks: from the authoritative binding on. *)
Lemma after_checks_triple key binding owner aliases :
  T any
    (authoritative ← (if socket_retire_pending (ab_cleanup b) then retire_pending_socket env sys key b else mret b);
     cleanup_binding ← managed (begin_artifact_cleanup env key authoritative);
     if cleanup_completed (ab_cleanup cleanup_binding) then acknowledge env key cleanup_binding
     else
       match cleanup_quarantine (ab_cleanup cleanup_binding) with
       | None => throw InvalidIdentity
       | Some quarantine =>
         let m := ab_made cleanup_binding in
         moved ← publish_quarantine sys parent_identity (private_leaf (ab_name cleanup_binding)) quarantine (private_directory m);
         if moved : bool then
           remove_quarantined env sys parent_identity uuid_parse_str quarantine key binding cleanup_binding owner aliases
         else if negb (is_some (private_directory m)) && negb (is_some (runner m)) && negb (is_some (socket m)) then
           completed ← managed (finish_artifact_create_pending_absence env key cleanup_binding);
           acknowledge env key completed
         else throw EvidenceUnavailable
       end)
    (λ _, any).
Proof.
  eapply (triple_bind _ _ _ (λ a _, same_artifact a b = true)).
  { destruct (socket_retire_pending _); [apply retire_triple|]. apply triple_ret. intros; apply same_artifact_refl. }
  intros a. apply (triple_pure _ (same_artifact a b = true)); [by intros p ?|]. intros Ha.
  eapply (triple_bind _ _ _ (λ a' _, same_artifact a' b = true ∧ creation_pending a' = false)).
  { intros p Hp _. unfold managed. destruct (begin_artifact_cleanup _ _ _ _) as [[a'|e] w] eqn:Ho; [|done].
    split; [done|]. by eapply begin_cleanup_same. }
  intros a'. apply (triple_pure _ (same_artifact a' b = true ∧ creation_pending a' = false)); [by intros p ?|].
  intros [Ha' Hcp]. eapply (keeps_pre _ any); [|done].
  destruct (cleanup_completed _); [apply idle_any, idle_managed|].
  destruct (cleanup_quarantine _) as [quarantine|]; [|apply throw_any].
  eapply triple_bind; [apply publish_triple; by rewrite (same_artifact_made a')|]. intros moved.
  destruct moved; [by apply remove_quarantined_triple|].
  apply idle_any. destruct (_ && _); [|apply idle_throw]. apply idle_bind; [apply idle_managed|]. intros. apply idle_managed.
Qed.
End removal.
End removing.

Lemma read_binding env key o p stored p1 r :
  managed (artifact_binding env key o) p = (Ok stored, p1) → w_slots (pw_registry p) !! mk_slot key = Some r →
  stored = sl_binding r.
Proof.
  unfold managed. destruct (artifact_binding env key o (pw_registry p)) as [[x|e] w] eqn:Hs; [|done]. intros [= -> _] Hr.
  unfold artifact_binding in Hs. apply M_bind_Ok in Hs as (? & w1 & Hg & Hs).
  unfold guard_or in Hg. destruct (owner_tag_valid o); [injection Hg as _ <-|done].
  apply M_bind_Ok in Hs as (r' & w2 & (-> & Hr' & _)%read_valid_Ok & Hs).
  do 3 apply M_bind_Ok in Hs as (? & ? & _ & Hs). injection Hs as <- _. congruence.
Qed.

(** C23: whatever the system answers and wherever it stops, the recovery of a private directory
    touches no child of the control root but the directory that the durable binding names, and
    removes from it no file but those whose inode the binding names and the temporaries that
    transactions have left there (a file of the user's own, of mode 0o600, that holds JSON, under
    the name of a temporary); the directory itself is only removed when nothing else was in it. *)
Theorem recovery_removes_only_bound env sys parent_identity uuid_parse_str key binding owner aliases r b p res p' :
  w_slots (pw_registry p) !! mk_slot key = Some r → sl_binding r = Some b →
  cleanup_bound_private_runner_control env sys parent_identity uuid_parse_str key binding owner aliases p = (res, p') →
  kept uuid_parse_str b (pw_children p) (pw_children p').
Proof.
  intros Hr Hb H. unfold cleanup_bound_private_runner_control in H.
  destruct owner as [o|]; [|injection H as <- <-; apply kept_refl].
  apply M_bind_inv in H as [(stored & p1 & Hs & H)|(e & Hs & _)]; pose proof (idle_managed (artifact_binding env key o) p) as Hc;
    rewrite Hs in Hc; cbn in Hc; [|rewrite Hc; apply kept_refl].
  assert (stored = Some b) as -> by (rewrite -Hb; by eapply read_binding).
  match type of H with ?m _ = _ => enough (triple (λ p' : PWorld, kept uuid_parse_str b (pw_children p) (pw_children p')) any m (λ _, any)) as Ht end.
  { assert (kept uuid_parse_str b (pw_children p) (pw_children p1)) as Hk by (rewrite Hc; apply kept_refl).
    specialize (Ht p1 Hk I). rewrite H in Ht. destruct res; [by destruct Ht|done]. }
  clear H. eapply triple_bind; [apply idle_any, idle_ensure|]. intros [].
  eapply triple_bind; [apply idle_any, idle_ensure|]. intros [].
  destruct (negb _).
  { apply idle_any. apply idle_bind; [apply idle_managed|]. intros. apply idle_managed. }
  eapply triple_bind; [apply idle_any, idle_parent|]. intros [].
  eapply triple_bind; [apply idle_any, idle_ensure|]. intros [].
  eapply triple_bind; [apply idle_any, idle_syscall|]. intros [].
  eapply triple_bind; [apply idle_any, idle_get|]. intros p2.
  eapply triple_bind; [apply idle_any, idle_ensure|]. intros []. apply after_checks_triple.
Qed.
