(* ===== verification/ManagedComplete.v ===== *)
(** The recovery of a private directory completes: when the system answers and the directory is
    as the durable binding has it, wherever the cleanup was interrupted. *)
From stdpp Require Import gmap.
From S2P Require Import Prelude Utf8 Protocol Text ManagedArtifacts ManagedSlots ManagedRegistry ManagedOps ManagedHistory ManagedValid ManagedExec ManagedRetry ManagedRecovery.

(** A total triple: the call answers, with no error. *)
Definition runs {St E A} (P : St → Prop) (m : M St E A) (Q : A → St → Prop) : Prop :=
  ∀ s, P s → ∃ a s', m s = (Ok a, s') ∧ Q a s'.

Section runs_rules.
Context {St E : Type}.
Implicit Types P : St → Prop.

Lemma runs_bind {A B} P (m : M St E A) (k : A → M St E B) Q R :
  runs P m Q → (∀ a, runs (Q a) (k a) R) → runs P (m ≫= k) R.
Proof.
  intros Hm Hk s HP. destruct (Hm s HP) as (a & s1 & H1 & HQ). destruct (Hk a s1 HQ) as (b & s2 & H2 & HR).
  exists b, s2. split; [|done]. unfold mbind, M_bind. by rewrite H1.
Qed.

Lemma bind_at {A B} (m : M St E A) (k : A → M St E B) s a s' : m s = (Ok a, s') → (m ≫= k) s = k a s'.
Proof. intros H. unfold mbind, M_bind. by rewrite H. Qed.

Lemma runs_ret {A} P (a : A) (Q : A → St → Prop) : (∀ s, P s → Q a s) → runs P (mret a : M St E A) Q.
Proof. intros H s HP. exists a, s. split; [done|by apply H]. Qed.

Lemma runs_post {A} P (m : M St E A) (Q Q' : A → St → Prop) : runs P m Q → (∀ a s, Q a s → Q' a s) → runs P m Q'.
Proof. intros H HQ s HP. destruct (H s HP) as (a & s' & H1 & H2). eauto. Qed.
End runs_rules.

Section complete.
Context (env : Env) (sys : nat → bool) (parent_identity : ManagedDirectoryIdentity).
Context (Hrun : responsive env) (Hsys : ∀ t, sys t = true).

Abbreviation P A := (M PWorld ContainmentErrorCode A) (only parsing).

(** The slot [r0], whose binding changes. *)
Context (key : ManagedKey) (r0 : SlotRecord) (owner : ManagedOwnerTag).
Context (Hslot : sl_slot r0 = mk_slot key) (Hgen : sl_generation r0 = mk_generation key)
        (Hschema : sl_schema r0 = SLOT_SCHEMA_VERSION) (Htomb : is_tombstone (sl_state r0) = true)
        (Howner : sl_owner r0 = Some owner) (Hov : owner_tag_valid owner = true).

Definition bound_slot (a : ManagedArtifactBinding) : SlotRecord := with_binding r0 (Some a).

(** The binding can be that of the slot. *)
Definition fits (a : ManagedArtifactBinding) : Prop :=
  binding_valid a = true ∧ state_nonce (sl_state r0) = Some (ab_nonce (ab_name a)).

Lemma nonce_not_nil a : fits a → is_nil (ab_nonce (ab_name a)) = false.
Proof. intros [Hv _]. apply binding_valid_parts in Hv as ((H & _) & _). done. Qed.

Lemma fits_valid a : fits a → validate_slot_record (bound_slot a) (mk_slot key) = true.
Proof.
  intros Hf. pose proof (nonce_not_nil a Hf) as Hn. destruct Hf as [Hv Hs]. unfold validate_slot_record, bound_slot. cbn.
  rewrite (proj2 (Z.eqb_eq _ _) Hschema) (proj2 (Z.eqb_eq _ _) Hslot) Howner Hs Hn. cbn. rewrite Hov.
  unfold slot_binding_valid. cbn. rewrite Hv Howner Hs bool_decide_true // Htomb orb_true_r. done.
Qed.

Lemma unbound_valid a : fits a → validate_slot_record (with_binding r0 None) (mk_slot key) = true.
Proof.
  intros Hf. pose proof (nonce_not_nil a Hf) as Hn. destruct Hf as [_ Hs]. unfold validate_slot_record. cbn.
  by rewrite (proj2 (Z.eqb_eq _ _) Hschema) (proj2 (Z.eqb_eq _ _) Hslot) Howner Hs Hn /= Hov.
Qed.

(** The slot and the children of the control root. *)
Definition holds_slot (r : SlotRecord) (w : World) : Prop := stored (w_slots w) (mk_slot key) = Some r.

Record state (r : SlotRecord) (c : gmap str Child) (p : PWorld) : Prop := {
  st_slot : holds_slot r (pw_registry p);
  st_children : pw_children p = c;
  st_parent : pw_parent p = parent_identity;
  st_path : pw_path_parent p = parent_identity;
}.

(** ** Calls of the system *)

Lemma runs_syscall e r c : runs (state r c) (syscall sys e) (λ _, state r c).
Proof.
  intros p [H1 H2 H3 H4]. exists tt, (with_registry p (tick (pw_registry p))).
  unfold syscall, managed, ask, ensure, mbind, M_bind. cbn. rewrite Hsys. split; [done|]. by split.
Qed.

Lemma runs_ensure (P : PWorld → Prop) (b : bool) e : b = true → runs P (ensure b e) (λ _, P).
Proof. intros -> p HP. exists tt, p. done. Qed.

Lemma runs_get (P : PWorld → Prop) : runs (E := ContainmentErrorCode) P get (λ p0 p, p0 = p ∧ P p).
Proof. intros p HP. exists p, p. done. Qed.

Lemma runs_parent r c : runs (state r c) (parent_is_expected sys parent_identity) (λ _, state r c).
Proof.
  eapply runs_bind; [apply runs_syscall|]. intros []. eapply runs_bind; [apply runs_get|]. intros p0 p [-> Hp].
  exists tt, p. split; [|done]. unfold ensure. rewrite (st_parent _ _ _ Hp) bool_decide_true //.
Qed.

Lemma runs_child r c leaf d :
  c !! leaf = Some (ChildDir d) → runs (state r c) (child_dir leaf) (λ d' p, d' = d ∧ state r c p).
Proof.
  intros Hc p Hp. exists d, p. split; [|done]. unfold child_dir, get, mbind, M_bind.
  by rewrite (st_children _ _ _ Hp) Hc.
Qed.

Lemma runs_reopen r c leaf d i :
  c !! leaf = Some (ChildDir d) → pd_identity d = i →
  runs (state r c) (reopen_private_child_from_parent sys leaf i) (λ _, state r c).
Proof.
  intros Hc <-. eapply runs_bind; [apply runs_syscall|]. intros []. eapply runs_bind; [by apply runs_child|].
  intros d'. intros p [-> Hp]. revert p Hp. change (runs (state r c)
    (syscall sys EvidenceUnavailable ;; ensure (bool_decide (pd_identity d = pd_identity d)) InvalidIdentity) (λ _, state r c)).
  eapply runs_bind; [apply runs_syscall|]. intros []. apply runs_ensure. by apply bool_decide_eq_true.
Qed.

Lemma runs_pure {St E A} (φ : Prop) (P : St → Prop) (m : M St E A) Q : (φ → runs P m Q) → runs (λ s, φ ∧ P s) m Q.
Proof. intros H s [Hφ HP]. by apply H. Qed.

Lemma runs_managed {A} (m : M World ManagedError A) r r' c (φ : A → Prop) :
  runs (holds_slot r) m (λ a w, φ a ∧ holds_slot r' w) →
  runs (state r c) (managed m) (λ a p, φ a ∧ state r' c p).
Proof.
  intros Hm p [H1 H2 H3 H4]. destruct (Hm _ H1) as (a & w & Ho & Hφ & Hw). exists a, (with_registry p w).
  unfold managed. rewrite Ho. split; [done|]. split; [done|]. by split.
Qed.

(** ** The operations of the registry *)

Lemma runs_guard (P : World → Prop) (b : bool) e : b = true → runs P (guard_or b e) (λ _, P).
Proof. intros -> w HP. exists tt, w. done. Qed.

Lemma runs_locked r :
  sl_generation r = mk_generation key → runs (holds_slot r) (locked_slot env key) (λ x w, x = r ∧ holds_slot r w).
Proof.
  intros Hg w Hw. destruct (locked_run env key w r Hrun Hw Hg) as (w1 & H1 & Hw1). exists r, w1. split; [done|].
  split; [done|]. unfold holds_slot in *. by rewrite Hw1.
Qed.

Lemma runs_tombstone r :
  sl_generation r = mk_generation key → is_tombstone (sl_state r) = true →
  runs (holds_slot r) (tombstone_slot env key) (λ x w, x = r ∧ holds_slot r w).
Proof.
  intros Hg Ht w Hw. destruct (tombstone_run env key w r Hrun Hw Hg Ht) as (w1 & H1 & Hw1). exists r, w1. split; [done|].
  split; [done|]. unfold holds_slot in *. by rewrite Hw1.
Qed.

Lemma runs_bound a : runs (holds_slot (bound_slot a)) (bound (bound_slot a)) (λ x w, x = a ∧ holds_slot (bound_slot a) w).
Proof. intros w Hw. by exists a, w. Qed.

Lemma transition_rebind a a' :
  binding_changes (sl_state r0) a a' = true → validate_transition (bound_slot a) (bound_slot a') = true.
Proof.
  intros Hch. unfold validate_transition, bound_slot. cbn [sl_schema sl_slot with_binding].
  rewrite (proj2 (Z.eqb_eq _ _) Hschema) Z.eqb_refl. cbn [andb].
  assert (binding_update (with_binding r0 (Some a)) (with_binding r0 (Some a')) = true) as ->.
  { unfold binding_update. cbn. rewrite bool_decide_true //. }
  cbn [orb]. rewrite !andb_true_r. unfold owner_stable. cbn.
  destruct (sl_state r0); by apply bool_decide_eq_true.
Qed.

Lemma runs_replace a r' :
  validate_transition (bound_slot a) r' = true → validate_slot_record r' (mk_slot key) = true → sl_slot r' = mk_slot key →
  runs (holds_slot (bound_slot a)) (replace_slot env (bound_slot a) r') (λ _ w, holds_slot r' w).
Proof.
  intros Ht Hv Hs w Hw. destruct (replace_slot_done env (bound_slot a) r' w) as (w' & H1 & H2); cbn; rewrite ?Hslot //.
  exists tt, w'. split; [done|]. unfold holds_slot. apply stored_Some. rewrite H2. split; [|done].
  by rewrite -Hs lookup_insert_eq.
Qed.

Lemma runs_update a a' :
  binding_changes (sl_state r0) a a' = true → fits a' →
  runs (holds_slot (bound_slot a)) (update_binding env (bound_slot a) a') (λ x w, x = a' ∧ holds_slot (bound_slot a') w).
Proof.
  intros Hch Hf. eapply runs_bind.
  { apply (runs_replace a (bound_slot a')); [by apply transition_rebind|by apply fits_valid|done]. }
  intros []. by apply runs_ret.
Qed.

(** The reads with which every operation on the tombstone begins. *)
Lemma runs_enter {A} a (k : SlotRecord → ManagedArtifactBinding → M World ManagedError A) Q :
  runs (holds_slot (bound_slot a)) (k (bound_slot a) a) Q →
  runs (holds_slot (bound_slot a)) (r ← tombstone_slot env key; x ← bound r; k r x) Q.
Proof.
  intros Hk. eapply runs_bind; [by apply runs_tombstone|]. intros r. apply runs_pure. intros ->.
  eapply runs_bind; [apply runs_bound|]. intros x. apply runs_pure. by intros ->.
Qed.

(** ** The stages of the removal of a binding *)

Context (b : ManagedArtifactBinding) (q : str) (rt : bool).

Definition step_of (n : nat) : ManagedArtifactCleanupStep :=
  match n with 0%nat => Ownership | 1%nat => Socket | 2%nat => Runner | _ => Directory end.

Definition staged (n : nat) (pend : option ManagedArtifactCleanupStep) : ManagedArtifactBinding := with_cleanup b {|
  cleanup_quarantine := Some q; cleanup_unlink_pending := pend; socket_retire_pending := false; socket_retired := rt;
  cleanup_ownership_removed := bool_decide (1 ≤ n)%nat; cleanup_socket_removed := bool_decide (2 ≤ n)%nat;
  cleanup_runner_removed := bool_decide (3 ≤ n)%nat; cleanup_completed := false |}.

Definition removed : ManagedArtifactBinding := with_cleanup b {|
  cleanup_quarantine := Some q; cleanup_unlink_pending := None; socket_retire_pending := false; socket_retired := rt;
  cleanup_ownership_removed := true; cleanup_socket_removed := true; cleanup_runner_removed := true;
  cleanup_completed := true |}.

Definition stage_pending (n : nat) (pend : option ManagedArtifactCleanupStep) : Prop :=
  (n ≤ 3)%nat ∧ (pend = None ∨ pend = Some (step_of n)).

(** A binding in quarantine is at one of the stages. *)
Lemma stage_of a :
  binding_valid a = true → cleanup_quarantine (ab_cleanup a) = Some q → cleanup_completed (ab_cleanup a) = false →
  socket_retire_pending (ab_cleanup a) = false → socket_retired (ab_cleanup a) = rt →
  ab_name a = ab_name b → ab_made a = ab_made b →
  ∃ n pend, a = staged n pend ∧ stage_pending n pend.
Proof.
  intros (_ & _ & Hv)%binding_valid_parts Hq Hc Hp Hr Hn Hm. unfold cleanup_valid in Hv.
  destruct a as [nm md [qq u rp rt' o s r d]]. cbn in *. subst nm md qq rp d rt'. unfold staged, with_cleanup, stage_pending. cbn.
  destruct u as [[]|], o, s, r; cbn in Hv; repeat (rewrite andb_false_r in Hv; cbn in Hv); try done;
    first [ exists 0%nat; eexists; split; [reflexivity|split; [lia|cbn; tauto]]
          | exists 1%nat; eexists; split; [reflexivity|split; [lia|cbn; tauto]]
          | exists 2%nat; eexists; split; [reflexivity|split; [lia|cbn; tauto]]
          | exists 3%nat; eexists; split; [reflexivity|split; [lia|cbn; tauto]] ].
Qed.

(** One valid stage makes the others valid. *)
Lemma staged_parts n pend :
  fits (staged n pend) →
  validate_managed_artifact_leaf q = true ∧ q ≠ private_leaf (ab_name b) ∧
  negb rt || is_some (socket (ab_made b)) && true = true.
Proof.
  intros [(_ & _ & Hv)%binding_valid_parts _]. unfold cleanup_valid in Hv. cbn in Hv. by inv_ok.
Qed.

Lemma cleanup_fits n pend c :
  fits (staged n pend) → cleanup_valid (with_cleanup b c) = true → fits (with_cleanup b c).
Proof.
  intros [Hv Hn] Hc. split; [|exact Hn]. by apply (binding_valid_cleanup (staged n pend) c Hv).
Qed.

Lemma staged_fits n pend n' pend' :
  fits (staged n pend) → stage_pending n' pend' → fits (staged n' pend').
Proof.
  intros Hf [Hle Hp]. apply (cleanup_fits n pend _ Hf). destruct (staged_parts n pend Hf) as (Hl & Hne & Hr).
  unfold cleanup_valid. cbn. rewrite Hl Hr (bool_decide_false _ Hne).
  destruct n' as [|[|[|[|?]]]]; [| | | |lia]; by destruct Hp as [-> | ->].
Qed.

Lemma removed_fits n pend : fits (staged n pend) → fits removed.
Proof.
  intros Hf. apply (cleanup_fits n pend _ Hf). destruct (staged_parts n pend Hf) as (Hl & Hne & Hr).
  unfold cleanup_valid. cbn. by rewrite Hl Hr (bool_decide_false _ Hne).
Qed.

Ltac stages n := destruct n as [|[|[|[|?]]]]; [| | | |lia].

Lemma same_staged n pend n' pend' : same_artifact (staged n pend) (staged n' pend') = true.
Proof. by apply same_artifact_spec. Qed.

(** A change of the stage is in the table. *)
Lemma begin_changes n : (n ≤ 3)%nat → binding_changes (sl_state r0) (staged n None) (staged n (Some (step_of n))) = true.
Proof.
  intros Hn. unfold binding_changes. rewrite bool_decide_true //. cbn [andb].
  assert (cleanup_step_intent (sl_state r0) (staged n None) (staged n (Some (step_of n))) = true) as ->.
  { unfold cleanup_step_intent. rewrite Htomb same_staged. unfold same_quarantine, same_removed, staged. cbn.
    rewrite bool_decide_true //. cbn. by rewrite !(bool_decide_true (_ = _)). }
  unfold socket_retirement_unchanged. cbn. rewrite !bool_decide_true //. cbn. by rewrite !orb_true_r.
Qed.

Lemma finish_changes n : (n < 3)%nat → binding_changes (sl_state r0) (staged n (Some (step_of n))) (staged (S n) None) = true.
Proof.
  intros Hn. unfold binding_changes. rewrite bool_decide_true //. cbn [andb].
  assert (cleanup_step_receipt (sl_state r0) (staged n (Some (step_of n))) (staged (S n) None) = true) as ->.
  { unfold cleanup_step_receipt. rewrite Htomb same_staged. unfold same_quarantine, receipt_table, staged. cbn.
    rewrite bool_decide_true //. cbn. by destruct n as [|[|[|?]]]; [| | |lia]. }
  unfold socket_retirement_unchanged. cbn. rewrite !bool_decide_true //. cbn. by rewrite !orb_true_r.
Qed.

Lemma completion_changes : binding_changes (sl_state r0) (staged 3 (Some Directory)) removed = true.
Proof.
  unfold binding_changes. rewrite bool_decide_true //. cbn [andb].
  assert (cleanup_completion (sl_state r0) (staged 3 (Some Directory)) removed = true) as ->.
  { unfold cleanup_completion. rewrite Htomb. unfold same_quarantine, removed, staged, same_artifact. cbn.
    by rewrite !(bool_decide_true (_ = _)). }
  unfold socket_retirement_unchanged. cbn. rewrite !bool_decide_true //. cbn. by rewrite !orb_true_r.
Qed.

(** The operations at a stage. *)
Lemma runs_begin_unlink n pend :
  fits (staged n pend) → stage_pending n pend →
  runs (holds_slot (bound_slot (staged n pend))) (begin_artifact_unlink env key (staged n pend) (step_of n))
    (λ x w, x = staged n (Some (step_of n)) ∧ holds_slot (bound_slot (staged n (Some (step_of n)))) w).
Proof.
  intros Hf [Hn Hp]. unfold begin_artifact_unlink. apply runs_enter. cbv beta zeta.
  eapply runs_bind; [apply runs_guard, same_staged|]. intros []. eapply runs_bind; [by apply runs_guard|]. intros [].
  assert (cleanup_step_completed (staged n pend) (step_of n) = false) as -> by by stages n.
  destruct Hp as [-> | ->]; cbn [ab_cleanup cleanup_unlink_pending staged with_cleanup].
  - assert (fits (staged n (Some (step_of n)))) as Hf' by (eapply staged_fits; [exact Hf|split; [done|by right]]).
    eapply runs_bind; [apply runs_guard, Hf'|]. intros []. by apply (runs_update (staged n None)); [apply begin_changes|].
  - eapply runs_bind; [apply runs_guard; by apply bool_decide_eq_true|]. intros []. by apply runs_ret.
Qed.

Lemma runs_finish_unlink n a :
  fits (staged n (Some (step_of n))) → (n < 3)%nat → same_artifact (staged n (Some (step_of n))) a = true →
  runs (holds_slot (bound_slot (staged n (Some (step_of n))))) (finish_artifact_unlink env key a (step_of n))
    (λ x w, x = staged (S n) None ∧ holds_slot (bound_slot (staged (S n) None)) w).
Proof.
  intros Hf Hn Ha. unfold finish_artifact_unlink. apply runs_enter. cbv beta zeta.
  eapply runs_bind; [by apply runs_guard|]. intros []. eapply runs_bind; [by apply runs_guard|]. intros [].
  assert (cleanup_step_completed (staged n (Some (step_of n))) (step_of n) = false) as -> by by destruct n as [|[|[|?]]]; [| | |lia].
  eapply runs_bind; [apply runs_guard; by apply bool_decide_eq_true|]. intros [].
  assert (advance_step (staged n (Some (step_of n))) (step_of n) = Some (staged (S n) None)) as ->
    by by destruct n as [|[|[|?]]]; [| | |lia].
  apply runs_update; [by apply finish_changes|]. eapply staged_fits; [exact Hf|]. split; [lia|by left].
Qed.

Lemma runs_finish_cleanup a :
  fits (staged 3 (Some Directory)) → same_artifact (staged 3 (Some Directory)) a = true →
  runs (holds_slot (bound_slot (staged 3 (Some Directory)))) (finish_artifact_cleanup env key a)
    (λ x w, x = removed ∧ holds_slot (bound_slot removed) w).
Proof.
  intros Hf Ha. unfold finish_artifact_cleanup. apply runs_enter. cbv beta zeta.
  eapply runs_bind; [by apply runs_guard|]. intros []. cbn [cleanup_completed ab_cleanup staged with_cleanup].
  eapply runs_bind; [by apply runs_guard|]. intros [].
  apply (runs_update (staged 3 (Some Directory)) removed); [apply completion_changes|by eapply removed_fits].
Qed.

(** A binding whose cleanup is complete is acknowledged. *)
Lemma runs_acknowledge a x :
  fits a → same_artifact a x = true → creation_pending a = false → is_some (cleanup_quarantine (ab_cleanup a)) = true →
  cleanup_completed (ab_cleanup a) = true →
  runs (holds_slot (bound_slot a)) (acknowledge_artifact_cleanup env key x) (λ _ w, holds_slot (with_binding r0 None) w).
Proof.
  intros Hf Hx Hcp Hq Hc. unfold acknowledge_artifact_cleanup. eapply runs_bind; [by apply runs_locked|]. intros r.
  apply runs_pure. intros ->. cbn [bound_slot with_binding sl_binding is_some negb andb].
  eapply runs_bind; [apply runs_bound|]. intros y. apply runs_pure. intros ->.
  eapply runs_bind; [by apply runs_guard|]. intros []. eapply runs_bind; [apply runs_guard; by rewrite Hcp|]. intros [].
  eapply runs_bind; [apply runs_guard; cbn; by rewrite Htomb Hq Hc|]. intros [].
  apply (runs_replace a (with_binding r0 None)); [|by eapply unbound_valid|done].
  unfold validate_transition, bound_slot. cbn [sl_schema sl_slot with_binding].
  rewrite (proj2 (Z.eqb_eq _ _) Hschema) Z.eqb_refl. cbn [andb].
  assert (binding_update (with_binding r0 (Some a)) (with_binding r0 None) = true) as ->.
  { unfold binding_update. cbn. by rewrite bool_decide_true // Htomb Hq Hc. }
  cbn [orb]. rewrite !andb_true_r. unfold owner_stable. cbn. destruct (sl_state r0); by apply bool_decide_eq_true.
Qed.

(** ** The directory at a stage *)

Context (directory : ManagedDirectoryIdentity) (ownership : option PrivateRunnerOwnership).

Definition file_ok (kind : PrivateArtifactKind) (identity : option ManagedArtifactIdentity) (gone : bool)
    (entry : option PrivateNode) : Prop :=
  match entry with
  | Some m => gone = false ∧ identity = Some (pn_identity m) ∧ node_valid kind m = true
  | None => gone = true ∨ identity = None
  end.

Record dir_ok (n : nat) (d : PrivateDir) : Prop := {
  do_identity : pd_identity d = directory;
  do_private : pd_private d = true;
  do_owner : file_ok KindOwnership (owner_file (ab_made b)) (bool_decide (1 ≤ n)%nat) (pd_entries d !! PRIVATE_RUNNER_OWNER_LEAF);
  do_socket : file_ok KindSocket (socket (ab_made b)) (bool_decide (2 ≤ n)%nat || rt) (pd_entries d !! SOCKET_LEAF);
  do_runner : file_ok KindRunner (runner (ab_made b)) (bool_decide (3 ≤ n)%nat) (pd_entries d !! RUNNER_LEAF);
  do_others : ∀ name, name ≠ PRIVATE_RUNNER_OWNER_LEAF → name ≠ SOCKET_LEAF → name ≠ RUNNER_LEAF →
                pd_entries d !! name = None;
}.

Lemma dir_empty d : dir_ok 3 d → pd_entries d = ∅.
Proof.
  intros [_ _ Ho Hs Hr Hoth]. apply map_empty. intros name.
  assert (∀ kind i entry, file_ok kind i true entry → entry = None) as Hgone by (intros kind i [m|]; [by intros []|done]).
  destruct (decide (name = PRIVATE_RUNNER_OWNER_LEAF)) as [->|]; [by eapply Hgone|].
  destruct (decide (name = SOCKET_LEAF)) as [->|]; [by eapply Hgone|].
  destruct (decide (name = RUNNER_LEAF)) as [->|]; [by eapply Hgone|]. by apply Hoth.
Qed.

Lemma node_valid_opens kind m : node_valid kind m = true → opens kind (pn_type m) = true.
Proof. unfold node_valid. intros H. inv_ok. by destruct kind, (pn_type m). Qed.

Lemma runs_open r c leaf d name kind expected :
  c !! leaf = Some (ChildDir d) →
  match pd_entries d !! name with
  | Some m => node_valid kind m = true ∧ is_none_or expected (λ i, bool_decide (pn_identity m = i)) = true
  | None => expected = None
  end →
  runs (state r c) (open_validated_private_artifact_at sys leaf name kind expected)
    (λ x p, x = pd_entries d !! name ∧ state r c p).
Proof.
  intros Hc Hm. eapply runs_bind; [apply runs_syscall|]. intros []. eapply runs_bind; [by apply runs_child|].
  intros d'. apply runs_pure. intros ->. destruct (pd_entries d !! name) as [m|].
  - destruct Hm as [Hv Hi]. eapply runs_bind; [by apply runs_ensure, node_valid_opens|]. intros [].
    eapply runs_bind; [apply runs_syscall|]. intros []. eapply runs_bind; [apply runs_ensure; by rewrite Hv Hi|]. intros [].
    by apply runs_ret.
  - rewrite Hm. by apply runs_ret.
Qed.

Lemma runs_open_step r c leaf d name kind expected gone :
  c !! leaf = Some (ChildDir d) → file_ok kind expected gone (pd_entries d !! name) →
  runs (state r c) (open_step_artifact sys leaf name kind expected true gone)
    (λ x p, x = pd_entries d !! name ∧ state r c p).
Proof.
  intros Hc Hf. unfold open_step_artifact. destruct gone.
  - assert (pd_entries d !! name = None) as Hn by (destruct (pd_entries d !! name); [by destruct Hf|done]).
    eapply runs_bind; [eapply runs_open; [done|by rewrite Hn]|]. intros found. apply runs_pure. intros ->. rewrite Hn.
    eapply runs_bind; [by apply runs_ensure|]. intros []. by apply runs_ret.
  - eapply runs_bind.
    { eapply runs_open; [done|]. destruct (pd_entries d !! name) as [m|]; [|by destruct Hf].
      destruct Hf as (_ & -> & Hv). split; [done|]. by apply bool_decide_eq_true. }
    intros artifact. apply runs_pure. intros ->. eapply runs_bind; [apply runs_ensure|intros []; by apply runs_ret].
    destruct (pd_entries d !! name) as [m|]; [by destruct Hf as (_ & -> & _)|]. by rewrite andb_false_r.
Qed.

(** The directory without a name. *)
Definition without (name : str) (d : PrivateDir) : PrivateDir := {|
  pd_identity := pd_identity d; pd_private := pd_private d; pd_entries := delete name (pd_entries d) |}.

Lemma runs_unlink_and_check r c leaf d name m :
  c !! leaf = Some (ChildDir d) → pn_links m = 1 →
  runs (state r c) (unlink_and_check sys leaf name m) (λ _, state r (<[leaf := ChildDir (without name d)]> c)).
Proof.
  intros Hc Hl. eapply runs_bind; [apply runs_syscall|]. intros [].
  eapply (runs_bind _ _ _ (λ _, state r (<[leaf := ChildDir (without name d)]> c))).
  - intros p [H1 H2 H3 H4]. eexists tt, _. split.
    + unfold set_entries, child_dir, get, put, mbind, M_bind. cbn. by rewrite H2 Hc.
    + by split.
  - intros []. do 2 (eapply runs_bind; [apply runs_syscall|]; intros []). apply runs_ensure. by rewrite Hl.
Qed.

Lemma node_valid_links kind m : node_valid kind m = true → pn_links m = 1.
Proof. unfold node_valid. intros H. inv_ok. lia. Qed.

Lemma without_absent name d : pd_entries d !! name = None → without name d = d.
Proof. intros H. unfold without. rewrite delete_id //. by destruct d. Qed.

Lemma runs_unlink_artifact r c leaf d name kind :
  c !! leaf = Some (ChildDir d) → (∀ m, pd_entries d !! name = Some m → node_valid kind m = true) →
  runs (state r c) (unlink_artifact sys leaf (pd_entries d !! name) name kind)
    (λ _, state r (<[leaf := ChildDir (without name d)]> c)).
Proof.
  intros Hc Hv. destruct (pd_entries d !! name) as [m|] eqn:Hm; cbn [unlink_artifact].
  2:{ apply runs_ret. intros p Hp. by rewrite (without_absent _ _ Hm) insert_id. }
  specialize (Hv m eq_refl). eapply runs_bind; [apply runs_syscall|]. intros [].
  eapply runs_bind; [eapply (runs_open _ _ _ d); [done|]; rewrite Hm; split; [done|by apply bool_decide_eq_true]|].
  intros again. apply runs_pure. intros ->. rewrite Hm. eapply runs_bind; [by apply runs_ensure|]. intros [].
  apply runs_unlink_and_check; [done|by eapply node_valid_links].
Qed.

(** ** The steps *)

Definition progress_at (n : nat) (pend : option ManagedArtifactCleanupStep) : option ManagedPrivateCleanupProgress :=
  Some {| pp_key := key; pp_current := staged n pend |}.

(** The slot at a stage, and the directory with it. *)
Definition at_stage (n : nat) (pend : option ManagedArtifactCleanupStep) (leaf : str) (c : gmap str Child) (d : PrivateDir)
    (p : PWorld) : Prop :=
  state (bound_slot (staged n pend)) (<[leaf := ChildDir d]> c) p.

Lemma runs_progress op n pend n' pend' c leaf d :
  runs (holds_slot (bound_slot (staged n pend))) (op key (staged n pend))
    (λ x w, x = staged n' pend' ∧ holds_slot (bound_slot (staged n' pend')) w) →
  runs (at_stage n pend leaf c d) (with_progress (progress_at n pend) op)
    (λ x p, x = progress_at n' pend' ∧ at_stage n' pend' leaf c d p).
Proof.
  intros Hop. unfold with_progress, progress_at, at_stage. eapply runs_bind; [eapply runs_managed, Hop|]. intros x.
  apply runs_pure. intros ->. by apply runs_ret.
Qed.

(** The kind, the name and the identity of the file of each step. *)
Definition step_kind (m : nat) : PrivateArtifactKind :=
  match m with 0%nat => KindOwnership | 1%nat => KindSocket | _ => KindRunner end.
Definition step_name (m : nat) : str :=
  match m with 0%nat => PRIVATE_RUNNER_OWNER_LEAF | 1%nat => SOCKET_LEAF | _ => RUNNER_LEAF end.

Lemma dir_ok_valid n d m node :
  dir_ok n d → (m ≤ 2)%nat → pd_entries d !! step_name m = Some node → node_valid (step_kind m) node = true.
Proof.
  intros [_ _ Ho Hs Hr _] Hm Hn. destruct m as [|[|[|?]]]; [| | |lia]; cbn in *.
  - rewrite Hn in Ho. by destruct Ho as (_ & _ & ?).
  - rewrite Hn in Hs. by destruct Hs as (_ & _ & ?).
  - rewrite Hn in Hr. by destruct Hr as (_ & _ & ?).
Qed.

Lemma names_differ :
  (PRIVATE_RUNNER_OWNER_LEAF ≠ SOCKET_LEAF ∧ PRIVATE_RUNNER_OWNER_LEAF ≠ RUNNER_LEAF) ∧ SOCKET_LEAF ≠ RUNNER_LEAF.
Proof. apply (bool_decide_unpack _). by vm_compute. Qed.

(** The stage after the step [m]. *)
Lemma dir_ok_without m d : (m ≤ 2)%nat → dir_ok m d → dir_ok (S m) (without (step_name m) d).
Proof.
  intros Hm [H1 H2 Ho Hs Hr Hoth]. destruct names_differ as [[Hos Hor] Hsr].
  assert (∀ name name' kind i gone gone',
    file_ok kind i gone (pd_entries d !! name') →
    (name' = name ∧ gone' = true) ∨ (name' ≠ name ∧ gone' = gone) →
    file_ok kind i gone' (pd_entries (without name d) !! name')) as Hfile.
  { intros name name' kind i gone gone' Hf Hc. cbn. destruct Hc as [[-> ->]|[Hne ->]].
    - rewrite lookup_delete_eq. by left.
    - by rewrite lookup_delete_ne. }
  split; [done|done|..].
  - eapply Hfile; [exact Ho|]. destruct m as [|[|[|?]]]; [left; by split|right; by split|right; by split|lia].
  - eapply Hfile; [exact Hs|]. destruct m as [|[|[|?]]]; [right; split; [cbn; congruence|done]|left; by split|right; by split|lia].
  - eapply Hfile; [exact Hr|].
    destruct m as [|[|[|?]]]; [right; split; [cbn; congruence|done]|right; split; [cbn; congruence|done]|left; by split|lia].
  - intros name' ???. cbn. apply lookup_delete_None. right. by apply Hoth.
Qed.

(** One step, done before or done now. *)
Lemma runs_step m n n0 pend leaf c d :
  (m ≤ 2)%nat → n = max n0 m → fits (staged n pend) → stage_pending n pend → dir_ok n d →
  runs (at_stage n pend leaf c d)
    (removal_step env sys leaf (step_of m) (pd_entries d !! step_name m) (step_name m) (step_kind m) None
       (bool_decide (S m ≤ n0)%nat) (progress_at n pend))
    (λ x p, ∃ pend' d', x = progress_at (max n0 (S m)) pend' ∧ at_stage (max n0 (S m)) pend' leaf c d' p ∧
       stage_pending (max n0 (S m)) pend' ∧ dir_ok (max n0 (S m)) d' ∧
       ∀ name, name ≠ step_name m → pd_entries d' !! name = pd_entries d !! name).
Proof.
  intros Hm Hn Hf Hp Hd. unfold removal_step. case_bool_decide as Hc.
  - replace (max n0 (S m)) with n by lia. apply runs_ret. intros p Hs. by exists pend, d.
  - assert (n = m) as -> by lia. replace (max n0 (S m)) with (S m) by lia.
    eapply runs_bind; [apply (runs_progress (λ key b, begin_artifact_unlink env key b (step_of m))); by apply runs_begin_unlink|].
    intros x. apply runs_pure. intros ->. eapply runs_bind.
    { apply (runs_unlink_artifact _ _ leaf d); [by rewrite lookup_insert_eq|]. intros node. by apply (dir_ok_valid m). }
    intros []. eapply (runs_bind _ _ _ (λ _, at_stage m (Some (step_of m)) leaf c (without (step_name m) d))).
    { apply runs_ret. intros p Hs. unfold at_stage. by rewrite insert_insert_eq in Hs. }
    intros []. eapply runs_post.
    + apply (runs_progress (λ key b, finish_artifact_unlink env key b (step_of m)) m (Some (step_of m)) (S m) None).
      apply runs_finish_unlink; [|lia|apply same_staged]. eapply staged_fits; [exact Hf|]. split; [lia|by right].
    + intros x p [-> Hs]. exists None, (without (step_name m) d). split_and!; [done|done|split; [lia|by left]| |].
      * by apply dir_ok_without.
      * intros name Hne. cbn. by rewrite lookup_delete_ne.
Qed.

(** ** The removal of the directory *)

Context (Hmade : made_valid b = true).
Context (Hown : match ownership with
                | Some record => runner (ab_made b) = Some (po_runner record) ∧ socket (ab_made b) = Some (po_socket record) ∧
                                 po_directory record = directory
                | None => True
                end).

Definition expectations : PrivateControlCleanupExpectations := {|
  ex_ownership := ownership; ex_ownership_file := owner_file (ab_made b); ex_runner := runner (ab_made b);
  ex_socket := socket (ab_made b); ex_partial_socket_leaf := None; ex_partial_owner_leaf := None;
  ex_allow_unbound_files := false |}.

Lemma socket_has_runner m : socket (ab_made b) = Some m → is_some (runner (ab_made b)) = true.
Proof. intros Hs. pose proof Hmade as H. unfold made_valid in H. rewrite Hs in H. cbn in H. by inv_ok. Qed.

Lemma runs_agree (P : PWorld → Prop) n d names :
  dir_ok n d → (∀ name, name ∈ names → is_Some (pd_entries d !! name)) →
  runs P (expectations_agree names directory expectations) (λ _, P).
Proof.
  intros [_ _ _ Hs _ Hoth] Hin. unfold expectations_agree.
  eapply runs_bind; [apply runs_ensure|].
  { apply forallb_forall. intros name [m Hm]%list_elem_of_In%Hin.
    destruct (decide (name = PRIVATE_RUNNER_OWNER_LEAF)) as [->|H1]; [by rewrite (bool_decide_true (_ = PRIVATE_RUNNER_OWNER_LEAF)) // orb_true_r|].
    destruct (decide (name = SOCKET_LEAF)) as [->|H2]; [by rewrite (bool_decide_true (SOCKET_LEAF = SOCKET_LEAF)) // orb_true_r|].
    destruct (decide (name = RUNNER_LEAF)) as [->|H3]; [by rewrite bool_decide_true|].
    by rewrite (Hoth name H1 H2 H3) in Hm. }
  intros []. eapply runs_bind; [apply runs_ensure|].
  { destruct (bool_decide (SOCKET_LEAF ∈ _)) eqn:Hsock; [|by rewrite orb_true_r].
    apply bool_decide_eq_true in Hsock. destruct (Hin _ Hsock) as [m Hm]. rewrite Hm in Hs.
    destruct Hs as (_ & Hi & _). cbn [expectations ex_runner]. by rewrite (socket_has_runner _ Hi). }
  intros []. pose proof Hown as Hrec. cbn [expectations ex_ownership ex_runner ex_socket]. destruct ownership as [record|].
  - destruct Hrec as (H1 & H2 & H3). eapply runs_bind; [apply runs_ensure; cbn; rewrite H1 H2 /=; by rewrite !bool_decide_true|].
    intros []. apply runs_ensure. by apply bool_decide_eq_true.
  - eapply runs_bind; [by apply runs_ensure|]. intros []. by apply runs_ensure.
Qed.

Lemma expected_runner : or_else (runner (ab_made b)) (po_runner <$> ownership) = runner (ab_made b).
Proof. destruct ownership as [record|]; [by destruct Hown as (-> & _)|by destruct (runner _)]. Qed.
Lemma expected_socket : or_else (socket (ab_made b)) (po_socket <$> ownership) = socket (ab_made b).
Proof. destruct ownership as [record|]; [by destruct Hown as (_ & -> & _)|by destruct (socket _)]. Qed.

Lemma runs_find r c leaf d n pend :
  c !! leaf = Some (ChildDir d) → dir_ok n d →
  runs (state r c) (find_artifacts sys leaf expectations (progress_at n pend))
    (λ f p, f = {| fo_runner := pd_entries d !! RUNNER_LEAF; fo_socket := pd_entries d !! SOCKET_LEAF;
                   fo_ownership := pd_entries d !! PRIVATE_RUNNER_OWNER_LEAF;
                   fo_partial_socket := None; fo_partial_owner := None |} ∧ state r c p).
Proof.
  intros Hc [_ _ Ho Hs Hr _]. unfold find_artifacts. cbn [expectations ex_runner ex_socket ex_ownership ex_ownership_file
    ex_partial_socket_leaf ex_partial_owner_leaf]. rewrite expected_runner expected_socket.
  eapply runs_bind; [by apply (runs_open_step _ _ _ d)|]. intros ?. apply runs_pure. intros ->.
  eapply runs_bind; [by apply (runs_open_step _ _ _ d)|]. intros ?. apply runs_pure. intros ->.
  eapply runs_bind; [by apply (runs_open_step _ _ _ d)|]. intros ?. apply runs_pure. intros ->.
  eapply (runs_bind _ _ _ (λ x p, x = None ∧ state r c p)); [by apply runs_ret|]. intros ?. apply runs_pure. intros ->.
  eapply (runs_bind _ _ _ (λ x p, x = None ∧ state r c p)); [by apply runs_ret|]. intros ?. apply runs_pure. intros ->.
  eapply runs_bind; [apply runs_ensure; by rewrite andb_false_r|]. intros [].
  eapply runs_bind; [apply runs_ensure|].
  { cbn. destruct (pd_entries d !! PRIVATE_RUNNER_OWNER_LEAF) as [m|]; [|by rewrite /= andb_false_r].
    by destruct Ho as (_ & -> & _). }
  intros []. eapply runs_bind; [apply runs_ensure|].
  { cbn. destruct (pd_entries d !! PRIVATE_RUNNER_OWNER_LEAF) as [m|]; [by rewrite /= andb_false_r|].
    destruct Ho as [-> | ->]; [done|by rewrite /= andb_false_r]. }
  intros []. by apply runs_ret.
Qed.

Lemma runs_reopen_at n pend leaf c d :
  pd_identity d = directory →
  runs (at_stage n pend leaf c d) (reopen_private_child_from_parent sys leaf directory) (λ _, at_stage n pend leaf c d).
Proof. intros Hd. apply (runs_reopen _ _ _ d); [by rewrite lookup_insert_eq|done]. Qed.

Lemma runs_open_dir r c leaf d :
  c !! leaf = Some (ChildDir d) → pd_private d = true →
  runs (state r c) (open_existing_private_dir sys leaf) (λ x p, x = pd_identity d ∧ state r c p).
Proof.
  intros Hc Hp. eapply runs_bind; [apply runs_syscall|]. intros []. eapply runs_bind; [by apply runs_child|].
  intros d'. apply runs_pure. intros ->. eapply runs_bind; [by apply runs_ensure|]. intros []. by apply runs_ret.
Qed.

Lemma runs_revalidate r c leaf d :
  c !! leaf = Some (ChildDir d) → pd_private d = true → runs (state r c) (revalidate sys leaf (pd_identity d)) (λ _, state r c).
Proof.
  intros Hc Hp. unfold revalidate. eapply runs_bind; [by apply (runs_open_dir _ _ _ d)|]. intros ?. apply runs_pure. intros ->.
  apply runs_ensure. by apply bool_decide_eq_true.
Qed.

(** ** Temporaries of transactions *)

Context (uuid_parse_str : str → option Uuid).

Abbreviation is_temp := (is_temp_name uuid_parse_str) (only parsing).

(** [d'] is [d] without those of its temporaries that are in [names]. *)
Record without_temps (names : list str) (d d' : PrivateDir) : Prop := {
  wt_identity : pd_identity d' = pd_identity d;
  wt_private : pd_private d' = pd_private d;
  wt_entries : ∀ name, pd_entries d' !! name = if is_temp name && bool_decide (name ∈ names) then None else pd_entries d !! name;
}.

Lemma runs_remove_temp r c leaf d name m :
  c !! leaf = Some (ChildDir d) → pd_entries d !! name = Some m → temp_valid m = true →
  runs (state r c) (remove_temp sys leaf name) (λ x p, x = true ∧ state r (<[leaf := ChildDir (without name d)]> c) p).
Proof.
  intros Hc Hm Hv. unfold remove_temp.
  assert (runs (state r c) (managed (ask sys)) (λ x p, x = true ∧ state r c p)) as Hask.
  { intros p [H1 H2 H3 H4]. exists true, (with_registry p (tick (pw_registry p))). unfold managed, ask. cbn. rewrite Hsys.
    split; [done|]. split; [done|]. by split. }
  eapply runs_bind; [exact Hask|]. intros read. apply runs_pure. intros ->.
  eapply runs_bind; [by apply (runs_child _ _ _ d)|]. intros d'. apply runs_pure. intros ->. rewrite Hm. cbn [is_some_and andb]. rewrite Hv.
  eapply runs_bind; [exact Hask|]. intros unlinked. apply runs_pure. intros ->.
  eapply (runs_bind _ _ _ (λ _, state r (<[leaf := ChildDir (without name d)]> c))); [|intros []; by apply runs_ret].
  intros p [H1 H2 H3 H4]. eexists tt, _. split; [unfold set_entries, child_dir, get, put, mbind, M_bind; cbn; by rewrite H2 Hc|by split].
Qed.

Lemma runs_retain r leaf names c d :
  NoDup names → c !! leaf = Some (ChildDir d) →
  (∀ name, name ∈ names → is_temp name = true → ∃ m, pd_entries d !! name = Some m ∧ temp_valid m = true) →
  runs (state r c) (retain_names sys uuid_parse_str leaf names) (λ x p,
    (∀ name, name ∈ x.1 → name ∈ names ∧ is_temp name = false) ∧
    ∃ d', without_temps names d d' ∧ state r (<[leaf := ChildDir d']> c) p).
Proof.
  intros Hnd. revert c d. induction Hnd as [|name names Hnew Hnd IH]; intros c d Hc Hv.
  { apply runs_ret. intros p Hp. split; [by intros name ?%not_elem_of_nil|]. exists d. rewrite insert_id //.
    split; [|done]. split; [done..|]. intros name. by rewrite bool_decide_false ?andb_false_r; [|apply not_elem_of_nil]. }
  cbn [retain_names]. destruct (is_temp_name _ name) eqn:Ht.
  - destruct (Hv name) as (m & Hm & Hmv); [by left|done|].
    eapply runs_bind; [by apply (runs_remove_temp _ _ _ d name m)|]. intros gone. apply runs_pure. intros ->.
    eapply runs_bind; [apply (IH _ (without name d)); [by rewrite lookup_insert_eq|]|].
    { intros name' Hin Ht'. destruct (Hv name') as (m' & Hm' & ?); [by right|done|]. exists m'. split; [|done]. cbn.
      rewrite lookup_delete_ne //. by intros ->. }
    intros kept. apply runs_ret. intros p [Hk (d' & [W1 W2 W3] & Hp)]. split; [intros n ?%Hk; split; [right|]; tauto|].
    exists d'. rewrite insert_insert_eq in Hp. split; [|done]. split; [done..|]. intros n. rewrite W3. cbn.
    destruct (decide (n = name)) as [->|Hne].
    + rewrite (bool_decide_false (name ∈ names)) // andb_false_r lookup_delete_eq Ht bool_decide_true //. by left.
    + rewrite lookup_delete_ne //. destruct (is_temp n) eqn:Htn; cbn [andb]; [|by rewrite ?Htn]. rewrite ?Htn. cbn [andb].
      by rewrite (bool_decide_ext (n ∈ names) (n ∈ name :: names)); [|rewrite elem_of_cons; tauto].
  - eapply (runs_bind _ _ _ (λ x p, x = false ∧ state r c p)); [by apply runs_ret|]. intros gone. apply runs_pure. intros ->.
    eapply runs_bind; [apply (IH _ d Hc); intros n ?; apply Hv; by right|].
    intros kept. apply runs_ret. intros p [Hk (d' & [W1 W2 W3] & Hp)]. split.
    { intros n [->|?%Hk]%elem_of_cons; [split; [by left|done]|split; [right|]; tauto]. }
    exists d'. split; [|done]. split; [done..|]. intros n. rewrite W3.
    destruct (decide (n = name)) as [->|Hne]; [by rewrite Ht|].
    by rewrite (bool_decide_ext (n ∈ names) (n ∈ name :: names)); [|rewrite elem_of_cons; tauto].
Qed.

(** A directory of a stage, with temporaries that transactions have left. *)
Record dir_with_temps (n : nat) (d : PrivateDir) : Prop := {
  dt_identity : pd_identity d = directory;
  dt_private : pd_private d = true;
  dt_owner : file_ok KindOwnership (owner_file (ab_made b)) (bool_decide (1 ≤ n)%nat) (pd_entries d !! PRIVATE_RUNNER_OWNER_LEAF);
  dt_socket : file_ok KindSocket (socket (ab_made b)) (bool_decide (2 ≤ n)%nat || rt) (pd_entries d !! SOCKET_LEAF);
  dt_runner : file_ok KindRunner (runner (ab_made b)) (bool_decide (3 ≤ n)%nat) (pd_entries d !! RUNNER_LEAF);
  dt_others : ∀ name m, name ≠ PRIVATE_RUNNER_OWNER_LEAF → name ≠ SOCKET_LEAF → name ≠ RUNNER_LEAF →
                pd_entries d !! name = Some m → is_temp name = true ∧ temp_valid m = true;
}.

Lemma bound_names_not_temps :
  is_temp PRIVATE_RUNNER_OWNER_LEAF = false ∧ is_temp SOCKET_LEAF = false ∧ is_temp RUNNER_LEAF = false.
Proof. by split_and!. Qed.

Lemma without_temps_ok n d d' :
  dir_with_temps n d → without_temps (map_to_list (pd_entries d)).*1 d d' → dir_ok n d'.
Proof.
  intros [D1 D2 D3 D4 D5 D6] [W1 W2 W3]. destruct bound_names_not_temps as (T1 & T2 & T3).
  split; rewrite ?W1 ?W2 ?W3 ?T1 ?T2 ?T3 //. intros name H1 H2 H3. rewrite W3.
  destruct (pd_entries d !! name) as [m|] eqn:Hm; [|by destruct (_ && _)].
  destruct (D6 name m H1 H2 H3 Hm) as [-> _]. rewrite bool_decide_true //.
  apply list_elem_of_fmap. exists (name, m). split; [done|]. by apply elem_of_map_to_list.
Qed.

(** Listing the names leaves a directory of the stage. *)
Lemma runs_list r c leaf n d :
  c !! leaf = Some (ChildDir d) → dir_with_temps n d →
  runs (state r c) (list_leaf_names sys uuid_parse_str leaf directory) (λ x p,
    ∃ d', (dir_ok n d' ∧ ∀ name, name ∈ x → is_Some (pd_entries d' !! name)) ∧ state r (<[leaf := ChildDir d']> c) p).
Proof.
  intros Hc Hd. pose proof (dt_private _ _ Hd) as Hpr. pose proof Hd as Hok. rewrite -(dt_identity _ _ Hd) in Hok |- *.
  unfold list_leaf_names. eapply runs_bind; [apply runs_syscall|]. intros [].
  eapply runs_bind; [by apply runs_revalidate|]. intros []. eapply runs_bind; [apply runs_syscall|]. intros [].
  eapply runs_bind; [by apply (runs_child _ _ _ d)|]. intros x. apply runs_pure. intros ->.
  eapply runs_bind; [apply (runs_retain _ _ _ _ d); [apply NoDup_fst_map_to_list|done|]|].
  { intros name ([k m] & -> & Hm%elem_of_map_to_list)%list_elem_of_fmap Ht. cbn in *. exists m. split; [done|].
    destruct bound_names_not_temps as (T1 & T2 & T3).
    apply (dt_others _ _ Hd k m); [intros ->; congruence..|done]. }
  intros [names removed_any] p [Hk (d' & Hw & Hp)]. cbn [fst snd] in *.
  pose proof (wt_identity _ _ _ Hw) as Hi. assert (pd_private d' = true) as Hpr' by by rewrite (wt_private _ _ _ Hw).
  set (c' := <[leaf := ChildDir d']> c) in *. assert (c' !! leaf = Some (ChildDir d')) as Hc' by by rewrite lookup_insert_eq.
  assert (∀ name, name ∈ names → is_Some (pd_entries d' !! name)) as Hnames.
  { intros name [Hin Ht]%Hk. rewrite (wt_entries _ _ _ Hw) Ht. cbn [andb].
    apply list_elem_of_fmap in Hin as ([k m] & -> & Hm%elem_of_map_to_list). by rewrite Hm. }
  pose proof (without_temps_ok n d d' Hd Hw) as Hok'. rewrite -Hi.
  enough (runs (state r c') ((if removed_any then syscall sys EvidenceUnavailable else mret tt) ;;
    revalidate sys leaf (pd_identity d') ;; mret names) (λ x p, x = names ∧ state r c' p)) as Hlast.
  { destruct (Hlast p Hp) as (x & p' & Hrun' & -> & Hp'). exists names, p'. split; [done|]. by exists d'. }
  eapply (runs_bind _ _ _ (λ _, state r c')); [destruct removed_any; [apply runs_syscall|by apply runs_ret]|]. intros [].
  eapply runs_bind; [by apply runs_revalidate|]. intros []. by apply runs_ret.
Qed.

(** The last step, and the directory itself. *)
Definition remove_emptied (leaf : str) (progress : option ManagedPrivateCleanupProgress) : P (option ManagedPrivateCleanupProgress) :=
  reopen_private_child_from_parent sys leaf directory ;;
  progress ← progress_begin env progress Directory;
  reopen_private_child_from_parent sys leaf directory ;;
  syscall sys EvidenceUnavailable ;;
  d ← child_dir leaf;
  ensure (bool_decide (pd_entries d = ∅)) EvidenceUnavailable ;;
  p ← get;
  put (with_children p (delete leaf (pw_children p))) ;;
  syscall sys EvidenceUnavailable ;;
  parent_is_expected sys parent_identity ;;
  syscall sys EvidenceUnavailable ;;
  with_progress progress (λ key b, finish_artifact_cleanup env key b).

Lemma runs_remove_emptied pend leaf c d :
  fits (staged 3 pend) → stage_pending 3 pend → dir_ok 3 d →
  runs (at_stage 3 pend leaf c d) (remove_emptied leaf (progress_at 3 pend))
    (λ x p, x = Some {| pp_key := key; pp_current := removed |} ∧ state (bound_slot removed) (delete leaf c) p).
Proof.
  intros Hf Hp Hd. pose proof (do_identity _ _ Hd) as Hi. pose proof (dir_empty d Hd) as He.
  assert (fits (staged 3 (Some Directory))) as Hf' by (eapply staged_fits; [exact Hf|split; [lia|by right]]).
  unfold remove_emptied. eapply runs_bind; [by apply runs_reopen_at|]. intros [].
  eapply runs_bind; [apply (runs_progress (λ key b, begin_artifact_unlink env key b Directory)); by apply runs_begin_unlink|].
  intros ?. apply runs_pure. intros ->. eapply runs_bind; [by apply runs_reopen_at|]. intros [].
  eapply runs_bind; [apply runs_syscall|]. intros [].
  eapply runs_bind; [apply (runs_child _ _ _ d); by rewrite lookup_insert_eq|]. intros ?. apply runs_pure. intros ->.
  eapply runs_bind; [apply runs_ensure; by apply bool_decide_eq_true|]. intros [].
  eapply runs_bind; [apply runs_get|]. intros p0.
  eapply (runs_bind _ _ _ (λ _, state (bound_slot (staged 3 (Some Directory))) (delete leaf c))).
  { intros p [-> [H1 H2 H3 H4]]. eexists tt, _. split; [done|]. split; [done| |done..]. cbn. rewrite H2.
    by rewrite delete_insert_eq. }
  intros []. eapply runs_bind; [apply runs_syscall|]. intros []. eapply runs_bind; [apply runs_parent|]. intros [].
  eapply runs_bind; [apply runs_syscall|]. intros []. unfold with_progress. cbn [progress_at pp_key pp_current].
  eapply runs_bind; [eapply runs_managed, runs_finish_cleanup; [done|apply same_staged]|]. intros ?. apply runs_pure.
  intros ->. by apply runs_ret.
Qed.

Lemma runs_remove n pend leaf c d :
  fits (staged n pend) → stage_pending n pend → dir_with_temps n d → c !! leaf = Some (ChildDir d) →
  runs (state (bound_slot (staged n pend)) c)
    (remove_private_runner_control_fd_relative env sys parent_identity uuid_parse_str leaf directory expectations (progress_at n pend))
    (λ x p, x = Some {| pp_key := key; pp_current := removed |} ∧ state (bound_slot removed) (delete leaf c) p).
Proof.
  intros Hf Hp Hd Hc. unfold remove_private_runner_control_fd_relative.
  pose proof (dt_identity _ _ Hd) as Hi. pose proof (dt_private _ _ Hd) as Hpr.
  eapply runs_bind; [apply runs_parent|]. intros []. eapply (runs_bind _ _ _ (λ _, state (bound_slot (staged n pend)) c)).
  { rewrite -Hi. by apply (runs_revalidate _ _ _ d). }
  intros []. eapply runs_bind; [by apply (runs_reopen _ _ _ d)|]. intros [].
  eapply runs_bind; [by apply (runs_list _ _ _ n d)|]. intros names p (d1 & [Hd1 Hnames] & Hp1). revert p Hp1.
  clear d Hd Hc Hi Hpr. rename d1 into d, Hd1 into Hd. pose proof (do_identity _ _ Hd) as Hi.
  rewrite -(delete_insert_eq c leaf (ChildDir d)). set (c' := <[leaf := ChildDir d]> c).
  assert (c' !! leaf = Some (ChildDir d)) as Hc by by rewrite lookup_insert_eq. clearbody c'. rename c into c0, c' into c.
  match goal with |- ∀ p, _ → ∃ x p', ?m p = _ ∧ _ => change (runs (state (bound_slot (staged n pend)) c) m
    (λ x p, x = Some {| pp_key := key; pp_current := removed |} ∧ state (bound_slot removed) (delete leaf c) p)) end.
  eapply runs_bind; [by apply (runs_agree _ n d)|]. intros []. cbv zeta.
  eapply runs_bind; [by apply (runs_find _ _ _ d)|]. intros ?. apply runs_pure. intros ->.
  eapply runs_bind; [by apply (runs_reopen _ _ _ d)|]. intros [].
  cbn [fo_ownership fo_socket fo_runner expectations ex_partial_owner_leaf ex_partial_socket_leaf fmap option_fmap option_map].
  change (step_completed (progress_at n pend) Ownership) with (bool_decide (1 ≤ n)%nat).
  change (step_completed (progress_at n pend) Socket) with (bool_decide (2 ≤ n)%nat).
  change (step_completed (progress_at n pend) Runner) with (bool_decide (3 ≤ n)%nat).
  intros p Hs. assert (at_stage n pend leaf c d p) as Hst by (unfold at_stage; by rewrite insert_id).
  destruct (runs_step 0 n n pend leaf c d) with (s := p) as (x1 & p1 & H1 & pend1 & d1 & -> & Hs1 & Hp1 & Hd1 & He1);
    [lia|lia|done..|].
  assert (fits (staged (max n 1) pend1)) as Hf1 by by eapply staged_fits.
  destruct (runs_step 1 (max n 1) n pend1 leaf c d1) with (s := p1) as (x2 & p2 & H2 & pend2 & d2 & -> & Hs2 & Hp2 & Hd2 & He2);
    [lia|lia|done..|].
  assert (fits (staged (max n 2) pend2)) as Hf2 by by eapply staged_fits.
  destruct (runs_step 2 (max n 2) n pend2 leaf c d2) with (s := p2) as (x3 & p3 & H3 & pend3 & d3 & -> & Hs3 & Hp3 & Hd3 & _);
    [lia|lia|done..|].
  destruct names_differ as [[Hos Hor] Hsr].
  cbn [step_name step_of step_kind] in *. rewrite He1 in H2; [|congruence]. rewrite He2 in H3; [|congruence].
  rewrite He1 in H3; [|congruence]. rewrite (bind_at _ _ _ _ _ H1) (bind_at _ _ _ _ _ H2) (bind_at _ _ _ _ _ H3).
  destruct Hp as [Hn _]. replace (max n 3) with 3%nat in * by lia.
  apply (runs_remove_emptied pend3 leaf c d3); [by eapply staged_fits|done..].
Qed.
End complete.
