(* ===== verification/ManagedRecovered.v ===== *)
(** Recovery from wherever a cleanup was interrupted: the theorem that it completes. *)
From stdpp Require Import gmap.
From S2P Require Import Prelude Utf8 Protocol Text ManagedArtifacts ManagedSlots ManagedRegistry ManagedOps ManagedHistory ManagedValid ManagedExec ManagedRetry ManagedRecovery ManagedComplete.

(** ** The state to recover from *)

Section placed.
Context (uuid_parse_str : str → option Uuid).

(** The directory has the files that the binding still has, and no other name than those of
    temporaries that transactions have left. *)
Record dir_matches (b : ManagedArtifactBinding) (d : PrivateDir) : Prop := {
  dm_identity : private_directory (ab_made b) = Some (pd_identity d);
  dm_private : pd_private d = true;
  dm_owner : file_ok KindOwnership (owner_file (ab_made b)) (cleanup_ownership_removed (ab_cleanup b))
               (pd_entries d !! PRIVATE_RUNNER_OWNER_LEAF);
  dm_socket : file_ok KindSocket (socket (ab_made b)) (cleanup_socket_removed (ab_cleanup b) || socket_retired (ab_cleanup b))
                (pd_entries d !! SOCKET_LEAF);
  dm_runner : file_ok KindRunner (runner (ab_made b)) (cleanup_runner_removed (ab_cleanup b)) (pd_entries d !! RUNNER_LEAF);
  dm_others : ∀ name m, name ≠ PRIVATE_RUNNER_OWNER_LEAF → name ≠ SOCKET_LEAF → name ≠ RUNNER_LEAF →
                pd_entries d !! name = Some m → is_temp_name uuid_parse_str name = true ∧ temp_valid m = true;
}.

(** The record of the owner, when it is still there. *)
Definition record_ok (b : ManagedArtifactBinding) (key : ManagedKey) (owner : ManagedOwnerTag)
    (aliases : option (list ManagedReconcileEntry)) (d : PrivateDir) : Prop :=
  ∀ n, pd_entries d !! PRIVATE_RUNNER_OWNER_LEAF = Some n →
    ∃ record, pn_record n = Some record ∧ po_schema record = 1 ∧ ownership_matches record key b (Some owner) aliases = true.

Definition quarantine_of (b : ManagedArtifactBinding) : str := default (quarantine_name b) (cleanup_quarantine (ab_cleanup b)).

(** The directory is where the cleanup can have left it. *)
Definition placed (b : ManagedArtifactBinding) (key : ManagedKey) (owner : ManagedOwnerTag)
    (aliases : option (list ManagedReconcileEntry)) (c : gmap str Child) : Prop :=
  let leaf := private_leaf (ab_name b) in
  let q := quarantine_of b in
  match private_directory (ab_made b) with
  | None => c !! leaf = None ∧ c !! q = None ∧ cleanup_untouched (ab_cleanup b) = true ∧
            cleanup_unlink_pending (ab_cleanup b) = None
  | Some _ => ∃ d, dir_matches b d ∧ record_ok b key owner aliases d ∧
      (is_some (cleanup_quarantine (ab_cleanup b)) = true ∧ c !! q = Some (ChildDir d) ∧ c !! leaf = None ∨
       c !! leaf = Some (ChildDir d) ∧ c !! q = None)
  end.

End placed.

Section recovered.
Context (env : Env) (sys : nat → bool) (parent_identity : ManagedDirectoryIdentity) (uuid_parse_str : str → option Uuid).
Context (Hrun : responsive env) (Hsys : ∀ t, sys t = true).
Context (key : ManagedKey) (r0 : SlotRecord) (owner : ManagedOwnerTag).
Context (Hslot : sl_slot r0 = mk_slot key) (Hgen : sl_generation r0 = mk_generation key)
        (Hschema : sl_schema r0 = SLOT_SCHEMA_VERSION) (Htomb : is_tombstone (sl_state r0) = true)
        (Howner : sl_owner r0 = Some owner) (Hov : owner_tag_valid owner = true).

Notation bound_slot := (bound_slot r0).
Notation fits := (fits r0).
Notation holds_slot := (holds_slot key).
Notation state := (state parent_identity key).
Notation dir_matches := (dir_matches uuid_parse_str).
Notation placed := (placed uuid_parse_str).

(** ** The beginning of the cleanup *)

Lemma enter {A} a (k : SlotRecord → ManagedArtifactBinding → M World ManagedError A) Q :
  runs (holds_slot (bound_slot a)) (k (bound_slot a) a) Q →
  runs (holds_slot (bound_slot a)) (r ← tombstone_slot env key; x ← bound r; k r x) Q.
Proof. by apply runs_enter. Qed.

Lemma update a a' :
  binding_changes (sl_state r0) a a' = true → fits a' →
  runs (holds_slot (bound_slot a)) (update_binding env (bound_slot a) a') (λ x w, x = a' ∧ holds_slot (bound_slot a') w).
Proof. by eapply runs_update. Qed.

Lemma unquarantined_parts a :
  fits a → cleanup_quarantine (ab_cleanup a) = None →
  cleanup_completed (ab_cleanup a) = false ∧ cleanup_unlink_pending (ab_cleanup a) = None.
Proof.
  intros [(_ & _ & Hv)%binding_valid_parts _] Hq. unfold cleanup_valid in Hv. rewrite Hq in Hv. inv_ok.
  split; [by destruct (cleanup_completed _)|by destruct (cleanup_unlink_pending _)].
Qed.

Lemma runs_begin_fresh a :
  fits a → cleanup_quarantine (ab_cleanup a) = None → socket_retire_pending (ab_cleanup a) = false →
  creation_pending a = false → cleanup_untouched (ab_cleanup a) = true →
  validate_managed_artifact_leaf (quarantine_name a) = true →
  let s := staged a (quarantine_name a) (socket_retired (ab_cleanup a)) 0 None in
  runs (holds_slot (bound_slot a)) (begin_artifact_cleanup env key a) (λ x w, (x = s ∧ fits s) ∧ holds_slot (bound_slot s) w).
Proof.
  intros Hf Hq Hp Hcp Hu Hl s. destruct (unquarantined_parts a Hf Hq) as [Hc Hup].
  unfold cleanup_untouched in Hu. apply andb_true in Hu as [[[Ho Hs]%andb_true Hr]%andb_true _].
  apply negb_true_iff in Ho, Hs, Hr.
  assert (with_cleanup a {|
    cleanup_quarantine := Some (quarantine_name a); cleanup_unlink_pending := cleanup_unlink_pending (ab_cleanup a);
    socket_retire_pending := socket_retire_pending (ab_cleanup a); socket_retired := socket_retired (ab_cleanup a);
    cleanup_ownership_removed := cleanup_ownership_removed (ab_cleanup a);
    cleanup_socket_removed := cleanup_socket_removed (ab_cleanup a);
    cleanup_runner_removed := cleanup_runner_removed (ab_cleanup a); cleanup_completed := false |} = s) as Heq.
  { unfold s, staged. by rewrite Hup Hp Ho Hs Hr. }
  assert (fits s) as Hfs.
  { destruct Hf as [Hv Hn]. split; [|exact Hn]. rewrite -Heq. by apply quarantined_valid, quarantine_name_fresh. }
  unfold begin_artifact_cleanup. apply enter. cbv beta zeta.
  eapply runs_bind; [apply runs_guard; by rewrite Hp|]. intros []. eapply runs_bind; [apply runs_guard; by rewrite Hcp|]. intros [].
  eapply runs_bind; [apply runs_guard, same_artifact_refl|]. intros []. rewrite Hq. cbn [is_some].
  eapply runs_bind; [by apply runs_guard|]. intros []. rewrite Heq. eapply runs_post; [apply (update a s)|]; [|done|].
  - unfold binding_changes. rewrite bool_decide_true //. cbn [andb].
    assert (cleanup_progress (sl_state r0) a s = true) as ->.
    { unfold cleanup_progress, cleanup_untouched. cbn. rewrite Htomb Hq Hup Ho Hs Hr Hc. cbn. by rewrite bool_decide_true. }
    unfold socket_retirement_unchanged. cbn. rewrite Hp !bool_decide_true //. cbn. by rewrite !orb_true_r.
  - by intros x w [-> ?].
Qed.

(** Where the quarantine is durable, beginning again answers the binding. *)
Lemma runs_begin_again a :
  socket_retire_pending (ab_cleanup a) = false → creation_pending a = false →
  is_some (cleanup_quarantine (ab_cleanup a)) = true →
  runs (holds_slot (bound_slot a)) (begin_artifact_cleanup env key a) (λ x w, x = a ∧ holds_slot (bound_slot a) w).
Proof.
  intros Hp Hcp Hq. unfold begin_artifact_cleanup. apply enter. cbv beta zeta.
  eapply runs_bind; [apply runs_guard; by rewrite Hp|]. intros []. eapply runs_bind; [apply runs_guard; by rewrite Hcp|]. intros [].
  eapply runs_bind; [apply runs_guard, same_artifact_refl|]. intros []. rewrite Hq. by apply runs_ret.
Qed.

Lemma runs_finish_retirement a :
  fits a → socket_retire_pending (ab_cleanup a) = true → cleanup_quarantine (ab_cleanup a) = None →
  let s := with_retirement a false true in
  runs (holds_slot (bound_slot a)) (finish_artifact_socket_retirement env key a)
    (λ x w, (x = s ∧ fits s) ∧ holds_slot (bound_slot s) w).
Proof.
  intros [Hv Hn] Hp Hq s. assert (fits s) as Hfs by (split; [by apply retired_valid|exact Hn]).
  assert (socket_retired (ab_cleanup a) = false) as Hr.
  { apply binding_valid_parts in Hv as (_ & _ & Hv). unfold cleanup_valid in Hv. rewrite Hp in Hv. inv_ok.
    destruct (socket_retired _); [|done].
    match goal with H : negb true || _ = true |- _ => cbn in H; by rewrite andb_false_r in H end. }
  unfold finish_artifact_socket_retirement. eapply runs_bind; [by apply runs_locked|]. intros r. apply runs_pure. intros ->.
  eapply runs_bind; [apply runs_bound|]. intros x. apply runs_pure. intros ->. cbv zeta.
  eapply runs_bind; [apply runs_guard; by rewrite same_artifact_refl Hq|]. intros []. rewrite Hr Hp.
  eapply runs_bind; [by apply runs_guard|]. intros []. eapply runs_post; [apply (update a s)|]; [|done|].
  - unfold binding_changes. rewrite bool_decide_true //. cbn [andb].
    assert (socket_retire_receipt a s = true) as ->.
    { unfold socket_retire_receipt, retire_unchanged, same_removed, same_artifact. cbn. rewrite Hq Hp Hr. cbn.
      by rewrite !bool_decide_true. }
    by rewrite !orb_true_r.
  - by intros x w [-> ?].
Qed.

(** ** The directory *)

Lemma record_ok_made b b' aliases d :
  ab_name b' = ab_name b → ab_made b' = ab_made b → record_ok b key owner aliases d → record_ok b' key owner aliases d.
Proof.
  intros Hn Hm H n Hl. destruct (H n Hl) as (record & H1 & H2 & H3). exists record. split_and!; [done..|].
  unfold ownership_matches, same_private_artifact_binding in *. by rewrite Hn Hm.
Qed.

Lemma runs_retire b c d :
  fits b → c !! private_leaf (ab_name b) = Some (ChildDir d) → dir_matches b d →
  socket_retire_pending (ab_cleanup b) = true → cleanup_quarantine (ab_cleanup b) = None →
  cleanup_untouched (ab_cleanup b) = true →
  let s := with_retirement b false true in
  runs (state (bound_slot b) c) (retire_pending_socket env sys key b)
    (λ x p, (x = s ∧ fits s ∧ dir_matches s (without SOCKET_LEAF d)) ∧
            state (bound_slot s) (<[private_leaf (ab_name b) := ChildDir (without SOCKET_LEAF d)]> c) p).
Proof.
  intros Hf Hc Hd Hp Hq Hu s. pose proof Hf as [(_ & _ & Hv)%binding_valid_parts _].
  unfold cleanup_untouched in Hu. apply andb_true in Hu as [[[Ho Hsr]%andb_true Hr]%andb_true _].
  apply negb_true_iff in Ho, Hsr, Hr.
  unfold cleanup_valid in Hv. rewrite Hp in Hv. cbn [negb orb] in Hv. inv_ok.
  assert (socket_retired (ab_cleanup b) = false) as Hrt by done.
  pose proof (dm_socket uuid_parse_str b d Hd) as Hsock. rewrite Hsr Hrt in Hsock. destruct (socket (ab_made b)) as [i|] eqn:Hs; [|done].
  destruct (pd_entries d !! SOCKET_LEAF) as [m|] eqn:Hm; [|by destruct Hsock]. destruct Hsock as (_ & [= Him] & Hval).
  unfold retire_pending_socket. rewrite (dm_identity uuid_parse_str b d Hd) Hs.
  eapply runs_bind; [by apply (runs_reopen sys parent_identity Hsys key _ _ _ d)|]. intros [].
  eapply runs_bind; [by apply runs_syscall|]. intros [].
  eapply runs_bind.
  { apply (runs_open sys parent_identity Hsys key _ _ _ d); [done|]. rewrite Hm. split; [done|]. by apply bool_decide_eq_true. }
  intros found. apply runs_pure. intros ->. rewrite Hm.
  eapply runs_bind; [apply (runs_unlink_and_check sys parent_identity Hsys key _ _ _ d); [done|by eapply node_valid_links]|].
  intros []. eapply runs_post; [eapply runs_managed, runs_finish_retirement; done|].
  intros x p [[-> Hfs] Hst]. split; [|done]. split; [done|]. split; [done|].
  destruct names_differ as [[Hos Hor] Hsr']. destruct Hd as [D1 D2 D3 D4 D5 D6]. split; cbn.
  - done.
  - done.
  - by rewrite lookup_delete_ne.
  - rewrite lookup_delete_eq. left. by rewrite orb_true_r.
  - by rewrite lookup_delete_ne.
  - intros name n ??? [_ Hn]%lookup_delete_Some. by apply (D6 name).
Qed.

(** The directory is at its quarantine name afterwards, and nowhere else. *)
Lemma runs_publish r c leaf q d :
  leaf ≠ q →
  c !! q = Some (ChildDir d) ∧ c !! leaf = None ∨ c !! leaf = Some (ChildDir d) ∧ c !! q = None →
  ∃ c', c' !! q = Some (ChildDir d) ∧ c' !! leaf = None ∧
    runs (state r c) (publish_quarantine sys parent_identity leaf q (Some (pd_identity d))) (λ x p, x = true ∧ state r c' p).
Proof.
  intros Hne Hpl.
  assert (∀ c name, runs (state r c) (private_leaf_exists_at sys name) (λ x p, x = is_some (c !! name) ∧ state r c p)) as Hex.
  { intros c1 name. eapply runs_bind; [by apply runs_syscall|]. intros []. intros p Hp. eexists _, p. split; [done|].
    by rewrite (st_children _ _ _ _ _ Hp). }
  destruct Hpl as [[Hq Hl]|[Hl Hq]].
  - exists c. split_and!; [done..|]. unfold publish_quarantine. eapply runs_bind; [apply Hex|]. intros x. apply runs_pure.
    intros ->. rewrite Hq. cbn [is_some]. eapply runs_bind; [by apply (runs_reopen sys parent_identity Hsys key _ _ _ d)|].
    intros []. by apply runs_ret.
  - exists (<[q := ChildDir d]> (delete leaf c)). rewrite lookup_insert_eq.
    split; [done|]. split; [by rewrite lookup_insert_ne ?lookup_delete_eq|].
    unfold publish_quarantine. eapply runs_bind; [apply Hex|]. intros x. apply runs_pure.
    intros ->. rewrite Hq. cbn [is_some]. eapply runs_bind; [apply Hex|]. intros x. apply runs_pure.
    intros ->. rewrite Hl. cbn [is_some]. eapply runs_bind; [by apply (runs_reopen sys parent_identity Hsys key _ _ _ d)|].
    intros []. eapply runs_bind; [by apply runs_syscall|]. intros [].
    eapply runs_bind; [apply runs_get|]. intros p0.
    eapply (runs_bind _ _ _ (λ _, state r (<[q := ChildDir d]> (delete leaf c)))).
    { intros p [-> [H1 H2 H3 H4]]. rewrite H2 Hl Hq. eexists tt, _. split; [done|]. by split. }
    intros []. eapply runs_bind; [by apply runs_syscall|]. intros []. eapply runs_bind; [by apply runs_parent|]. intros [].
    eapply runs_bind; [by apply runs_syscall|]. intros [].
    eapply runs_bind; [apply (runs_reopen sys parent_identity Hsys key _ _ _ d); [by rewrite lookup_insert_eq|done]|].
    intros []. by apply runs_ret.
Qed.

Lemma runs_read_ownership r c leaf a aliases d :
  c !! leaf = Some (ChildDir d) → dir_matches a d → record_ok a key owner aliases d →
  runs (state r c) (read_private_runner_ownership sys leaf)
    (λ x p, (∀ record, x = Some record → ownership_matches record key a (Some owner) aliases = true) ∧ state r c p).
Proof.
  intros Hc Hd Hrec. unfold read_private_runner_ownership. eapply runs_bind; [by apply runs_syscall|]. intros [].
  eapply runs_bind; [by apply (runs_child parent_identity key _ _ _ d)|]. intros x. apply runs_pure. intros ->.
  pose proof (dm_owner uuid_parse_str a d Hd) as Ho. destruct (pd_entries d !! PRIVATE_RUNNER_OWNER_LEAF) as [n|] eqn:Hn; [|by apply runs_ret].
  destruct Ho as (_ & _ & Hv). destruct (Hrec n Hn) as (record & Hr & Hs & Hm).
  eapply runs_bind; [by apply runs_ensure, node_valid_opens|]. intros []. eapply runs_bind; [by apply runs_syscall|]. intros [].
  eapply runs_bind; [by apply runs_ensure|]. intros []. rewrite Hr.
  eapply runs_bind; [apply runs_ensure; by apply Z.eqb_eq|]. intros []. apply runs_ret. intros p Hp. split; [|done].
  by intros record' [= <-].
Qed.

Lemma matches_parts record a aliases directory :
  ownership_matches record key a (Some owner) aliases = true → private_directory (ab_made a) = Some directory →
  runner (ab_made a) = Some (po_runner record) ∧ socket (ab_made a) = Some (po_socket record) ∧ po_directory record = directory.
Proof.
  unfold ownership_matches. intros H Hd. rewrite Hd in H. destruct (runner (ab_made a)) as [run|]; [|done].
  destruct (socket (ab_made a)) as [sock|]; [|done]. inv_ok. split_and!; congruence.
Qed.

(** The directory of a stage, as the stage has it. *)
Lemma dir_at_stage a q rt n pend d :
  a = staged a q rt n pend → dir_matches a d → dir_with_temps a rt (pd_identity d) uuid_parse_str n d.
Proof.
  intros Heq [D1 D2 D3 D4 D5 D6].
  assert (cleanup_ownership_removed (ab_cleanup a) = bool_decide (1 ≤ n)%nat) as E1 by by rewrite Heq.
  assert (cleanup_socket_removed (ab_cleanup a) = bool_decide (2 ≤ n)%nat) as E2 by by rewrite Heq.
  assert (cleanup_runner_removed (ab_cleanup a) = bool_decide (3 ≤ n)%nat) as E3 by by rewrite Heq.
  assert (socket_retired (ab_cleanup a) = rt) as E4 by by rewrite Heq.
  rewrite E1 in D3. rewrite E2 E4 in D4. rewrite E3 in D5. by split.
Qed.

Lemma runs_ack a x c :
  fits a → same_artifact a x = true → creation_pending a = false → is_some (cleanup_quarantine (ab_cleanup a)) = true →
  cleanup_completed (ab_cleanup a) = true →
  runs (state (bound_slot a) c) (acknowledge env key x) (λ _, state (with_binding r0 None) c).
Proof.
  intros. unfold acknowledge. eapply runs_post; [eapply (runs_managed _ _ _ _ _ _ (λ _, True))|by intros [] p [_ ?]].
  eapply runs_post; [by eapply runs_acknowledge|]. done.
Qed.

Lemma runs_remove_quarantined seed a q c d aliases :
  fits a → cleanup_quarantine (ab_cleanup a) = Some q → cleanup_completed (ab_cleanup a) = false →
  socket_retire_pending (ab_cleanup a) = false → creation_pending a = false →
  same_private_artifact_binding seed a = true → dir_matches a d → record_ok a key owner aliases d →
  c !! q = Some (ChildDir d) →
  runs (state (bound_slot a) c) (remove_quarantined env sys parent_identity uuid_parse_str q key seed a (Some owner) aliases)
    (λ _, state (with_binding r0 None) (delete q c)).
Proof.
  intros Hf Hq Hc Hp Hcp Hseed Hd Hrec Hl. pose proof Hf as [Hv _].
  destruct (stage_of a q (socket_retired (ab_cleanup a)) a) as (n & pend & Heq & Hst); [done..|].
  pose proof (dir_at_stage _ _ _ _ _ _ Heq Hd) as Hok. apply binding_valid_parts in Hv as (_ & Hmade & _).
  unfold creation_pending in Hcp. apply orb_false_iff in Hcp as [[Hrp Hsp]%orb_false_iff Hop].
  unfold remove_quarantined. rewrite (dm_identity uuid_parse_str a d Hd).
  eapply runs_bind; [apply (runs_open_dir sys parent_identity Hsys key _ _ _ d); [done|apply (dm_private uuid_parse_str a d Hd)]|]. intros x. apply runs_pure. intros ->.
  eapply runs_bind; [apply runs_ensure; by apply bool_decide_eq_true|]. intros [].
  eapply runs_bind; [by apply (runs_read_ownership _ _ _ a aliases d)|]. intros ownership. apply runs_pure. intros Hown.
  eapply (runs_bind _ _ _ (λ _, state (bound_slot a) c)).
  { destruct ownership as [record|]; [|by apply runs_ret]. apply runs_ensure. by apply Hown. }
  intros []. eapply (runs_bind _ _ _ (λ x p, x = {| pp_key := key; pp_current := a |} ∧ state (bound_slot a) c p)).
  { eapply runs_bind; [by apply runs_ensure|]. intros []. by apply runs_ret. }
  intros x. apply runs_pure. intros ->. rewrite Hsp Hop. eapply runs_bind.
  { assert (match ownership with
            | Some record => runner (ab_made a) = Some (po_runner record) ∧ socket (ab_made a) = Some (po_socket record) ∧
                             po_directory record = pd_identity d
            | None => True
            end) as Hown'.
    { destruct ownership as [record|]; [|done]. eapply matches_parts; [by apply Hown|apply (dm_identity uuid_parse_str a d Hd)]. }
    pose proof (runs_remove env sys parent_identity Hrun Hsys key r0 owner Hslot Hgen Hschema Htomb
      Howner Hov a q (socket_retired (ab_cleanup a)) (pd_identity d) ownership Hmade Hown' uuid_parse_str n pend q c d) as H.
    rewrite /progress_at -Heq in H. apply H; done. }
  intros x. apply runs_pure. intros ->. eapply runs_bind; [by apply runs_parent|]. intros [].
  cbn [pp_current]. apply (runs_ack (removed a q (socket_retired (ab_cleanup a)))); try done.
  - apply (removed_fits _ _ _ _ n pend). by rewrite -Heq.
  - apply same_artifact_refl.
  - unfold creation_pending. cbn. by rewrite Hrp Hsp Hop.
Qed.

(** ** A launch whose directory was never made, and one of an earlier boot *)

Context (boot : Uuid) (Hboot : ∀ t, env_boot env t = Present boot).

Lemma runs_boot r : runs (holds_slot r) (current_boot env) (λ x w, x = boot ∧ holds_slot r w).
Proof. intros w Hw. exists boot, (tick w). unfold current_boot, mbind, M_bind, ask. cbn. by rewrite Hboot. Qed.

Lemma runs_create_absence a :
  fits a → is_some (cleanup_quarantine (ab_cleanup a)) = true → cleanup_completed (ab_cleanup a) = false →
  socket_retire_pending (ab_cleanup a) = false → cleanup_untouched (ab_cleanup a) = true →
  cleanup_unlink_pending (ab_cleanup a) = None → private_directory (ab_made a) = None →
  runner (ab_made a) = None → socket (ab_made a) = None → md_boot (control_root (ab_name a)) = boot →
  let s := with_removed a None true true true true in
  runs (holds_slot (bound_slot a)) (finish_artifact_create_pending_absence env key a)
    (λ x w, (x = s ∧ fits s) ∧ holds_slot (bound_slot s) w).
Proof.
  intros Hf Hq Hc Hp Hu Hup Hd Hr Hs Hb s.
  assert (socket_retired (ab_cleanup a) = false) as Hrt.
  { destruct Hf as [(_ & _ & Hv)%binding_valid_parts _]. unfold cleanup_valid in Hv. rewrite Hs in Hv. inv_ok.
    by destruct (socket_retired _). }
  assert (fits s) as Hfs.
  { destruct Hf as [Hv Hn]. split; [|exact Hn]. pose proof (create_absence_valid a Hv Hq Hup) as H. by rewrite Hup in H. }
  unfold finish_artifact_create_pending_absence. apply enter. cbv beta zeta.
  eapply runs_bind; [apply runs_guard; by rewrite same_artifact_refl Hd Hr Hs Hq Hup Hp Hrt|]. intros [].
  eapply runs_bind; [apply runs_boot|]. intros u. apply runs_pure. intros ->.
  eapply runs_bind; [apply runs_guard; by apply Z.eqb_eq|]. intros []. rewrite Hc Hup.
  eapply runs_post; [apply (update a s)|]; [|done|by intros x w [-> ?]].
  unfold binding_changes. rewrite bool_decide_true //. cbn [andb].
  assert (logical_absence_completion (sl_state r0) a s = true) as ->.
  { unfold logical_absence_completion, same_quarantine, same_artifact. cbn. rewrite Htomb Hup Hu Hq !bool_decide_true //. }
  unfold socket_retirement_unchanged. cbn. rewrite !bool_decide_true //. cbn. by rewrite !orb_true_r.
Qed.

Lemma runs_logical_absence a :
  fits a → creation_pending a = false → md_boot (control_root (ab_name a)) ≠ boot →
  validate_managed_artifact_leaf (quarantine_of a) = true →
  runs (holds_slot (bound_slot a)) (finish_artifact_logical_absence env key a)
    (λ x w, (same_artifact x a = true ∧ fits x ∧ is_some (cleanup_quarantine (ab_cleanup x)) = true ∧
             cleanup_completed (ab_cleanup x) = true) ∧ holds_slot (bound_slot x) w).
Proof.
  intros Hf Hcp Hb Hl. unfold finish_artifact_logical_absence. apply enter. cbv beta zeta.
  eapply runs_bind; [apply runs_guard, same_artifact_refl|]. intros [].
  eapply runs_bind; [apply runs_guard; by rewrite Hcp|]. intros [].
  eapply runs_bind; [apply runs_boot|]. intros u. apply runs_pure. intros ->.
  eapply runs_bind; [apply runs_guard, negb_true_iff; by apply Z.eqb_neq|]. intros [].
  destruct (cleanup_completed (ab_cleanup a)) eqn:Hc.
  { apply runs_ret. intros w Hw. split; [|done]. split_and!; [apply same_artifact_refl|done| |done].
    destruct Hf as [(_ & _ & Hv)%binding_valid_parts _]. unfold cleanup_valid in Hv. rewrite Hc in Hv. by inv_ok. }
  eapply runs_bind; [by apply runs_guard|]. intros []. destruct Hf as [Hv Hn].
  assert (quarantine_of a ≠ private_leaf (ab_name a)) as Hne.
  { unfold quarantine_of. destruct (cleanup_quarantine (ab_cleanup a)) as [q|] eqn:Hq; [|apply quarantine_name_fresh].
    apply binding_valid_parts in Hv as (_ & _ & Hv). unfold cleanup_valid in Hv. rewrite Hq in Hv. cbn in Hv |- *. by inv_ok. }
  pose proof (absent_valid a _ Hv Hl Hne) as Hv'. cbn zeta in Hv'.
  match type of Hv' with binding_valid ?x = true => set (s := x) in * end.
  eapply runs_post; [apply (update a s)|]; [|by split|].
  - unfold binding_changes. rewrite bool_decide_true //. cbn [andb].
    assert (old_boot_logical_absence_completion (sl_state r0) a s = true) as ->.
    { unfold old_boot_logical_absence_completion, same_artifact. cbn. by rewrite Htomb Hc !bool_decide_true. }
    by rewrite !orb_true_r.
  - intros x w [-> Hw]. split; [|done]. split_and!; [by apply same_artifact_spec|by split|done|done].
Qed.

Lemma runs_publish_none r c leaf q :
  c !! q = None → c !! leaf = None →
  runs (state r c) (publish_quarantine sys parent_identity leaf q None) (λ x p, x = false ∧ state r c p).
Proof.
  intros Hq Hl.
  assert (∀ name, runs (state r c) (private_leaf_exists_at sys name) (λ x p, x = is_some (c !! name) ∧ state r c p)) as Hex.
  { intros name. eapply runs_bind; [by apply runs_syscall|]. intros []. intros p Hp. eexists _, p. split; [done|].
    by rewrite (st_children _ _ _ _ _ Hp). }
  unfold publish_quarantine. eapply runs_bind; [apply Hex|]. intros x. apply runs_pure. intros ->. rewrite Hq. cbn [is_some].
  eapply runs_bind; [apply Hex|]. intros x. apply runs_pure. intros ->. rewrite Hl. by apply runs_ret.
Qed.

(** ** The whole recovery *)

(** A binding to recover from: no file of it is being made, nothing was removed before the
    quarantine, and its directory is where the cleanup can have left it. *)
Record recoverable (b : ManagedArtifactBinding) (aliases : option (list ManagedReconcileEntry)) (c : gmap str Child) : Prop := {
  rc_created : creation_pending b = false;
  rc_room : validate_managed_artifact_leaf (quarantine_of b) = true;
  rc_fresh : cleanup_quarantine (ab_cleanup b) = None → cleanup_untouched (ab_cleanup b) = true;
  rc_retire : socket_retire_pending (ab_cleanup b) = true → cleanup_quarantine (ab_cleanup b) = None;
  rc_root : md_boot (control_root (ab_name b)) = md_boot parent_identity → control_root (ab_name b) = parent_identity;
  rc_place : control_root (ab_name b) = parent_identity → cleanup_completed (ab_cleanup b) = false → placed b key owner aliases c;
}.

(** From a binding whose quarantine is durable. *)
Lemma runs_from_quarantine seed a aliases c q :
  fits a → creation_pending a = false → cleanup_quarantine (ab_cleanup a) = Some q → quarantine_of a = q →
  socket_retire_pending (ab_cleanup a) = false → same_private_artifact_binding seed a = true →
  control_root (ab_name a) = parent_identity → md_boot parent_identity = boot →
  cleanup_completed (ab_cleanup a) = false → placed a key owner aliases c →
  runs (state (bound_slot a) c)
    (moved ← publish_quarantine sys parent_identity (private_leaf (ab_name a)) q (private_directory (ab_made a));
     if moved : bool then remove_quarantined env sys parent_identity uuid_parse_str q key seed a (Some owner) aliases
     else if negb (is_some (private_directory (ab_made a))) && negb (is_some (runner (ab_made a))) && negb (is_some (socket (ab_made a))) then
       completed ← managed (finish_artifact_create_pending_absence env key a);
       acknowledge env key completed
     else throw EvidenceUnavailable)
    (λ _ p, state (with_binding r0 None) (pw_children p) p ∧
            pw_children p !! private_leaf (ab_name a) = None ∧ pw_children p !! q = None).
Proof.
  intros Hf Hcp Hq Hqo Hp Hseed Hroot Hbt Hc Hpl. unfold placed in Hpl. rewrite Hqo in Hpl.
  assert (private_leaf (ab_name a) ≠ q) as Hne.
  { destruct Hf as [(_ & _ & Hv)%binding_valid_parts _]. unfold cleanup_valid in Hv. rewrite Hq in Hv. cbn in Hv. inv_ok. congruence. }
  destruct (private_directory (ab_made a)) as [directory|] eqn:Hd.
  - destruct Hpl as (d & Hdm & Hrec & Hpl).
    destruct (runs_publish (bound_slot a) c (private_leaf (ab_name a)) q d Hne) as (c' & Hq' & Hl' & Hpub).
    { destruct Hpl as [(_ & ? & ?)|[? ?]]; [by left|by right]. }
    rewrite (dm_identity uuid_parse_str a d Hdm) in Hd. injection Hd as <-. eapply runs_bind; [exact Hpub|]. intros x. apply runs_pure. intros ->.
    eapply runs_post; [by apply (runs_remove_quarantined _ _ _ _ d)|]. intros [] p Hs. rewrite (st_children _ _ _ _ _ Hs).
    split; [done|]. split; [by rewrite lookup_delete_ne|by rewrite lookup_delete_eq].
  - destruct Hpl as (Hl & Hqn & Hu & Hup). pose proof Hf as [(_ & Hm & _)%binding_valid_parts _]. unfold made_valid in Hm.
    rewrite Hd in Hm. inv_ok. destruct (runner (ab_made a)) eqn:Hr; [done|]. destruct (socket (ab_made a)) eqn:Hs; [done|].
    eapply runs_bind; [by apply runs_publish_none|]. intros x. apply runs_pure. intros ->. cbn [is_some negb andb].
    eapply runs_bind; [eapply runs_managed, runs_create_absence; try done; [by rewrite Hq|by rewrite Hroot]|].
    intros x. apply runs_pure. intros [-> Hfs]. eapply runs_post; [by apply runs_ack; [|apply same_artifact_refl| |rewrite /= Hq|]|].
    intros [] p Hs'. by rewrite (st_children _ _ _ _ _ Hs').
Qed.

Lemma staged_fresh b q rt : cleanup_quarantine (ab_cleanup b) = None → quarantine_of (staged b q rt 0 None) = q.
Proof. done. Qed.

(** From a binding without a quarantine: it is made durable first. *)
Lemma runs_from_fresh seed a aliases c :
  fits a → creation_pending a = false → cleanup_quarantine (ab_cleanup a) = None →
  socket_retire_pending (ab_cleanup a) = false → cleanup_untouched (ab_cleanup a) = true →
  validate_managed_artifact_leaf (quarantine_name a) = true → same_private_artifact_binding seed a = true →
  control_root (ab_name a) = parent_identity → md_boot parent_identity = boot → placed a key owner aliases c →
  runs (state (bound_slot a) c)
    (cleanup_binding ← managed (begin_artifact_cleanup env key a);
     if cleanup_completed (ab_cleanup cleanup_binding) then acknowledge env key cleanup_binding
     else
       match cleanup_quarantine (ab_cleanup cleanup_binding) with
       | None => throw InvalidIdentity
       | Some quarantine =>
         let m := ab_made cleanup_binding in
         moved ← publish_quarantine sys parent_identity (private_leaf (ab_name cleanup_binding)) quarantine (private_directory m);
         if moved : bool then remove_quarantined env sys parent_identity uuid_parse_str quarantine key seed cleanup_binding (Some owner) aliases
         else if negb (is_some (private_directory m)) && negb (is_some (runner m)) && negb (is_some (socket m)) then
           completed ← managed (finish_artifact_create_pending_absence env key cleanup_binding);
           acknowledge env key completed
         else throw EvidenceUnavailable
       end)
    (λ _ p, state (with_binding r0 None) (pw_children p) p ∧
            pw_children p !! private_leaf (ab_name a) = None ∧ pw_children p !! quarantine_of a = None).
Proof.
  intros Hf Hcp Hq Hp Hu Hl Hseed Hroot Hbt Hpl. assert (quarantine_of a = quarantine_name a) as Hqo by by rewrite /quarantine_of Hq.
  eapply runs_bind; [by eapply runs_managed, runs_begin_fresh|]. intros x. apply runs_pure. intros [-> Hfs].
  set (s := staged a (quarantine_name a) (socket_retired (ab_cleanup a)) 0 None) in *. cbn [cleanup_completed s staged ab_cleanup
    with_cleanup cleanup_quarantine]. cbv zeta. rewrite Hqo.
  apply (runs_from_quarantine seed s aliases c (quarantine_name a)); try done.
  unfold placed in *. cbn [s staged ab_cleanup with_cleanup ab_made ab_name]. rewrite Hqo in Hpl.
  change (quarantine_of s) with (quarantine_name a). destruct (private_directory (ab_made a)) as [directory|] eqn:Hd.
  - destruct Hpl as (d & Hdm & Hrec & Hpl). exists d. split_and!.
    + unfold cleanup_untouched in Hu. inv_ok. destruct Hdm as [D1 D2 D3 D4 D5 D6].
      split; cbn; try done.
      * by match goal with H : cleanup_ownership_removed _ = false |- _ => rewrite H in D3 end.
      * by match goal with H : cleanup_socket_removed _ = false |- _ => rewrite H in D4 end.
      * by match goal with H : cleanup_runner_removed _ = false |- _ => rewrite H in D5 end.
    + by eapply record_ok_made; [..|exact Hrec].
    + destruct Hpl as [(Hs & _)|?]; [by rewrite Hq in Hs|by right].
  - destruct Hpl as (H1 & H2 & _ & _). by split_and!.
Qed.

Lemma runs_artifact_binding a :
  runs (holds_slot (bound_slot a)) (artifact_binding env key owner) (λ x w, x = Some a ∧ holds_slot (bound_slot a) w).
Proof.
  unfold artifact_binding. eapply runs_bind; [by apply runs_guard|]. intros [].
  eapply (runs_bind _ _ _ (λ x w, x = bound_slot a ∧ holds_slot (bound_slot a) w)).
  { intros w Hw. exists (bound_slot a), (tick w). split; [by apply read_valid_stored|done]. }
  intros x. apply runs_pure. intros ->. eapply runs_bind; [apply runs_guard; by apply Z.eqb_eq|]. intros [].
  eapply runs_bind; [by apply runs_guard|]. intros []. eapply runs_bind; [apply runs_guard; by apply bool_decide_eq_true|].
  intros []. by apply runs_ret.
Qed.

Definition done_with (b : ManagedArtifactBinding) (p : PWorld) : Prop :=
  holds_slot (with_binding r0 None) (pw_registry p) ∧
  (control_root (ab_name b) = parent_identity → cleanup_completed (ab_cleanup b) = false →
   pw_children p !! private_leaf (ab_name b) = None ∧ pw_children p !! quarantine_of b = None).

(** As [runs_managed], with a slot that depends on the answer. *)
Lemma runs_managed_slot {A} (m : M World ManagedError A) r r' c (φ : A → Prop) :
  runs (holds_slot r) m (λ a w, φ a ∧ holds_slot (r' a) w) →
  runs (state r c) (managed m) (λ a p, φ a ∧ state (r' a) c p).
Proof.
  intros Hm p [H1 H2 H3 H4]. destruct (Hm _ H1) as (a & w & Ho & Hφ & Hw). exists a, (with_registry p w).
  unfold managed. rewrite Ho. split; [done|]. split; [done|]. by split.
Qed.

(** After the checks. *)
Lemma runs_after_checks seed b aliases c :
  fits b → recoverable b aliases c → control_root (ab_name b) = parent_identity → md_boot parent_identity = boot →
  same_private_artifact_binding seed b = true →
  runs (state (bound_slot b) c)
    (authoritative ← (if socket_retire_pending (ab_cleanup b) then retire_pending_socket env sys key b else mret b);
     cleanup_binding ← managed (begin_artifact_cleanup env key authoritative);
     if cleanup_completed (ab_cleanup cleanup_binding) then acknowledge env key cleanup_binding
     else
       match cleanup_quarantine (ab_cleanup cleanup_binding) with
       | None => throw InvalidIdentity
       | Some quarantine =>
         let m := ab_made cleanup_binding in
         moved ← publish_quarantine sys parent_identity (private_leaf (ab_name cleanup_binding)) quarantine (private_directory m);
         if moved : bool then remove_quarantined env sys parent_identity uuid_parse_str quarantine key seed cleanup_binding (Some owner) aliases
         else if negb (is_some (private_directory m)) && negb (is_some (runner m)) && negb (is_some (socket m)) then
           completed ← managed (finish_artifact_create_pending_absence env key cleanup_binding);
           acknowledge env key completed
         else throw EvidenceUnavailable
       end)
    (λ _, done_with b).
Proof.
  intros Hf [Hcp Hroom Hfresh Hret _ Hplace] Hroot Hbt Hseed.
  assert (∀ p q', quarantine_of b = q' → state (with_binding r0 None) (pw_children p) p ∧
    pw_children p !! private_leaf (ab_name b) = None ∧ pw_children p !! q' = None → done_with b p) as Hdone.
  { intros p q' <- (Hs & H1 & H2). split; [apply (st_slot _ _ _ _ _ Hs)|done]. }
  destruct (socket_retire_pending (ab_cleanup b)) eqn:Hp.
  - specialize (Hret eq_refl). pose proof (Hfresh Hret) as Hu. destruct (unquarantined_parts b Hf Hret) as [Hc _].
    pose proof (Hplace Hroot Hc) as Hpl. unfold placed in Hpl. destruct (private_directory (ab_made b)) as [directory|] eqn:Hd.
    2:{ exfalso. destruct Hf as [(_ & Hm & Hv)%binding_valid_parts _]. unfold made_valid in Hm. unfold cleanup_valid in Hv.
        rewrite Hd in Hm. rewrite Hp in Hv. cbn in Hv. inv_ok. by destruct (socket (ab_made b)), (runner (ab_made b)). }
    destruct Hpl as (d & Hdm & Hrec & Hpl). destruct Hpl as [(Hq & _)|[Hl Hq]]; [by rewrite Hret in Hq|].
    eapply runs_bind; [by apply (runs_retire b c d)|]. intros x. apply runs_pure. intros (-> & Hfs & Hds).
    set (s := with_retirement b false true) in *. eapply runs_post; [apply (runs_from_fresh seed s aliases); try done|].
    + by rewrite /quarantine_of Hret in Hroom.
    + unfold placed. change (private_directory (ab_made s)) with (private_directory (ab_made b)). rewrite Hd.
      exists (without SOCKET_LEAF d). split; [done|]. split; [|right].
      * intros n Hn. cbn in Hn. apply lookup_delete_Some in Hn as [_ Hn]. by apply (record_ok_made b s aliases d eq_refl eq_refl Hrec).
      * change (private_leaf (ab_name s)) with (private_leaf (ab_name b)). change (quarantine_of s) with (quarantine_of b).
        rewrite lookup_insert_eq. split; [done|]. rewrite lookup_insert_ne //. congruence.
    + intros [] p Hp'. by apply (Hdone p (quarantine_of s)).
  - eapply (runs_bind _ _ _ (λ x p, x = b ∧ state (bound_slot b) c p)); [by apply runs_ret|]. intros x. apply runs_pure. intros ->.
    destruct (cleanup_quarantine (ab_cleanup b)) as [q|] eqn:Hq.
    + eapply runs_bind; [eapply runs_managed, runs_begin_again; [done..|by rewrite Hq]|]. intros x. apply runs_pure. intros ->.
      destruct (cleanup_completed (ab_cleanup b)) eqn:Hc.
      * eapply runs_post; [by apply runs_ack; [|apply same_artifact_refl| |rewrite Hq|]|].
        intros [] p Hs. split; [apply (st_slot _ _ _ _ _ Hs)|intros _ ?; congruence].
      * rewrite Hq. cbv zeta. assert (quarantine_of b = q) as Hqo by by rewrite /quarantine_of Hq.
        eapply runs_post; [apply (runs_from_quarantine seed b aliases c q); auto|]. intros [] p. by apply Hdone.
    + destruct (unquarantined_parts b Hf Hq) as [Hc _]. eapply runs_post.
      * apply (runs_from_fresh seed b aliases c); auto. by rewrite /quarantine_of Hq in Hroom.
      * intros [] p. by apply Hdone.
Qed.

Lemma same_private_root x b : same_private_artifact_binding x b = true → control_root (ab_name x) = control_root (ab_name b).
Proof. unfold same_private_artifact_binding. intros H. inv_ok. congruence. Qed.

Lemma runs_recovery seed b aliases c :
  fits b → recoverable b aliases c → md_boot parent_identity = boot → same_private_artifact_binding seed b = true →
  runs (state (bound_slot b) c) (cleanup_bound_private_runner_control env sys parent_identity uuid_parse_str key seed (Some owner) aliases)
    (λ _, done_with b).
Proof.
  intros Hf Hrec Hbt Hseed. unfold cleanup_bound_private_runner_control.
  eapply runs_bind; [eapply runs_managed, runs_artifact_binding|]. intros x. apply runs_pure. intros ->.
  eapply runs_bind; [by apply runs_ensure|]. intros [].
  eapply runs_bind; [apply runs_ensure; by rewrite (rc_created _ _ _ Hrec)|]. intros [].
  destruct (md_boot (control_root (ab_name b)) =? md_boot parent_identity) eqn:Hb; cbn [negb].
  - apply Z.eqb_eq in Hb. pose proof (rc_root _ _ _ Hrec Hb) as Hroot. eapply runs_bind; [by apply runs_parent|]. intros [].
    eapply runs_bind; [apply runs_ensure, bool_decide_eq_true; by rewrite (same_private_root _ _ Hseed)|]. intros [].
    eapply runs_bind; [by apply runs_syscall|]. intros []. eapply runs_bind; [apply runs_get|]. intros p0.
    eapply (runs_bind _ _ _ (λ _, state (bound_slot b) c)).
    { intros p [-> Hs]. exists tt, p. split; [|done]. unfold ensure.
      by rewrite (st_path _ _ _ _ _ Hs) bool_decide_true. }
    intros []. by apply runs_after_checks.
  - apply Z.eqb_neq in Hb. rewrite Hbt in Hb. eapply runs_bind.
    { eapply runs_managed_slot, runs_logical_absence; [exact Hf|apply (rc_created _ _ _ Hrec)|done|apply (rc_room _ _ _ Hrec)]. }
    intros x. apply runs_pure. intros (Hx & Hfx & Hqx & Hcx). pose proof Hx as [_ Hm]%same_artifact_spec.
    assert (creation_pending x = false) as Hcp by (unfold creation_pending; rewrite Hm; apply (rc_created _ _ _ Hrec)).
    eapply runs_post; [by apply runs_ack; [|apply same_artifact_refl|..]|]. intros [] p Hs.
    split; [apply (st_slot _ _ _ _ _ Hs)|]. intros Hroot. by rewrite -Hbt Hroot in Hb.
Qed.
End recovered.

