(* ===== verification/ManagedScenario.v ===== *)
(** Concrete histories of the registry of managed processes: the theorems of the registry at
    inputs where their hypotheses hold. *)
From stdpp Require Import gmap relations.
From S2P Require Import Prelude Utf8 Protocol Text ManagedArtifacts ManagedSlots ManagedRegistry ManagedOps ManagedHistory ManagedValid ManagedRuns ManagedExec ManagedSignals ManagedRetry ManagedRecovery ManagedRemoval ManagedComplete ManagedRecovered.

(** ** The data *)

Definition the_owner : ManagedOwnerTag := {|
  ot_kind := OwnerSpeculation; ot_tournament := 7; ot_candidate := 0; ot_role := RoleRunner |}.
Definition the_root : ManagedDirectoryIdentity := {| md_boot := 9; md_dev := 1; md_ino := 2; md_mnt := 3 |}.
Definition the_directory : ManagedDirectoryIdentity := {| md_boot := 9; md_dev := 1; md_ino := 4; md_mnt := 3 |}.
Definition file (ino : Z) : ManagedArtifactIdentity := {| ma_dev := 1; ma_ino := ino |}.
Definition the_process : ManagedIdentity := {| mi_boot := 9; mi_namespace := 8; mi_pid := 42; mi_start_ticks := 1000 |}.
Definition the_leaf : str := lit "runner-0".

Definition vacant_slot (slot : Z) : SlotRecord := {|
  sl_schema := SLOT_SCHEMA_VERSION; sl_slot := slot; sl_generation := 0; sl_owner := None; sl_binding := None; sl_state := Vacant |}.

Definition genesis : World := {|
  w_slots := {[0 := vacant_slot 0; 1 := vacant_slot 1]};
  w_registrations := {[0 := {| rr_slot := 0; rr_generation := 0; rr_registration := None |};
                       1 := {| rr_slot := 1; rr_generation := 0; rr_registration := None |}]};
  w_time := 0; w_log := [] |}.

(** Everything answers; the process runs until [gone]. *)
Definition alive (gone t : nat) (pid : Z) : bool := (t <? gone)%nat && (pid =? 42).

Definition answers (gone : nat) : Env := {|
  env_lock := λ _, true; env_guard := λ _ _, true; env_readable := λ _, true; env_write := λ _, Written;
  env_boot := λ _, Present 9;
  env_namespace := λ t pid, if alive gone t pid then Present 8 else Absent;
  env_ticks := λ t pid, if alive gone t pid then Present 1000 else Absent;
  env_pidfd := λ t pid, if alive gone t pid then Present tt else Absent;
  env_signal := λ _, true; env_wait := λ _, true; env_clock := λ _, Some 5000; env_uuid := λ _, 11 |}.

Definition occupant_of (gone t : nat) (pid : Z) : option ManagedIdentity := if alive gone t pid then Some the_process else None.

Lemma occupant_Some gone t pid i : occupant_of gone t pid = Some i ↔ alive gone t pid = true ∧ i = the_process.
Proof.
  unfold occupant_of. destruct (alive gone t pid); [|by split; [|intros [? _]]].
  split; [by intros [= <-]|by intros [_ ->]].
Qed.

Lemma answers_laws gone : kernel_laws (answers gone) (occupant_of gone).
Proof.
  split; cbn.
  - intros t pid. unfold occupant_of. by destruct (alive gone t pid).
  - intros t pid. unfold occupant_of. by destruct (alive gone t pid).
  - intros t pid n j Hn [Ha ->]%occupant_Some. rewrite Ha in Hn. by injection Hn as <-.
  - intros t pid. unfold occupant_of. by destruct (alive gone t pid).
  - intros t pid k Hk. unfold occupant_of. destruct (alive gone t pid); [|done]. injection Hk as <-. by exists the_process.
  - intros t t' pid b j [= <-] [_ ->]%occupant_Some. done.
  - intros t t' pid i j [_ ->]%occupant_Some [_ ->]%occupant_Some. done.
  - intros t1 t2 t3 pid i Ht [_ ->]%occupant_Some [Ha _]%occupant_Some. apply occupant_Some. split; [|done].
    unfold alive in *. apply andb_true_iff in Ha as [Ha Hp]. rewrite Hp andb_true_r. apply Nat.ltb_lt in Ha. apply Nat.ltb_lt. lia.
Qed.

(** ** A launch from the beginning *)

Definition first_intent : SlotRecord := {|
  sl_schema := SLOT_SCHEMA_VERSION; sl_slot := 0; sl_generation := 1; sl_owner := Some the_owner; sl_binding := None;
  sl_state := IntentDurable 11 100 |}.

Definition calls : list Call := [
  CallAllocate 100 (Some the_owner); CallBeginCreation first_intent the_root the_leaf; CallReconcileAll;
  CallAllocate 200 (Some the_owner) ].

Definition steps : list (Env * Call) := (answers 100,.) <$> calls.

Lemma genesis_slots : slots_of 2 genesis.
Proof.
  intros slot [r H]. cbn in H. apply lookup_insert_Some in H as [[<- _]|[_ H]]; [by left|].
  apply lookup_singleton_Some in H as [<- _]. right. by left.
Qed.

Lemma genesis_inv : world_inv genesis.
Proof.
  assert (∀ slot r, w_slots genesis !! slot = Some r → r = vacant_slot slot ∧ (slot = 0 ∨ slot = 1)) as Hv.
  { intros slot r H. cbn in H. apply lookup_insert_Some in H as [[<- <-]|[_ H]]; [by split; [|left]|].
    apply lookup_singleton_Some in H as [<- <-]. by split; [|right]. }
  split.
  - intros slot r [-> Hs]%Hv. split; [destruct Hs as [-> | ->]; reflexivity|]. cbn. unfold u64_max. lia.
  - intros s1 s2 r1 r2 o [-> _]%Hv _ [=].
Qed.

Lemma steps_ok : Forall step_ok steps.
Proof. by repeat constructor. Qed.

(** The registry keeps its invariant through an allocation, the reservation of a directory, a
    reconciliation that finds the launch gone, and a second allocation for its owner. *)
Lemma registry_history_valid_witness :
  world_inv (run 2 steps genesis) ∧
  ∃ r', w_slots (run 2 steps genesis) !! 0 = Some r' ∧ rtc slot_step (vacant_slot 0) r'.
Proof.
  destruct (registry_history_valid 2 steps genesis genesis_slots steps_ok genesis_inv) as [H1 H2].
  split; [exact H1|]. apply H2. reflexivity.
Defined.

Definition resolved_first : SlotRecord :=
  default (vacant_slot 0) (w_slots (run 2 steps genesis) !! 0).

Lemma slot_changes_bounded_witness :
  changes 2 0 steps genesis = 3 ∧ changes 2 0 steps genesis ≤ 32 * (sl_generation resolved_first - 0) + 29.
Proof.
  split; [vm_compute; reflexivity|].
  assert (w_slots (run 2 steps genesis) !! 0 = Some resolved_first) as H by (vm_compute; reflexivity).
  destruct (slot_changes_bounded 2 0 steps genesis (vacant_slot 0) resolved_first genesis_slots steps_ok genesis_inv
    eq_refl H) as [Hb _]. exact Hb.
Defined.

(** ** A process that is killed *)

Definition durable_slot : SlotRecord := {|
  sl_schema := SLOT_SCHEMA_VERSION; sl_slot := 0; sl_generation := 1; sl_owner := Some the_owner; sl_binding := None;
  sl_state := IdentityDurable 11 the_process true |}.

Definition running : World := {| w_slots := {[0 := durable_slot]}; w_registrations := ∅; w_time := 1; w_log := [] |}.

Definition the_key : ManagedKey := {| mk_slot := 0; mk_generation := 1 |}.
Definition kill_log : list (nat * Event) := w_log (run 1 ((answers 11,.) <$> [CallCleanup the_key]) running).

Lemma cleanup_kills_only_recorded_witness :
  ∃ t opened, kill_log !! 1%nat = Some (t, LogSignal opened the_process) ∧
    being_cleaned (replay (w_slots running) (take 1 kill_log)) the_process ∧
    occupant_of 11 opened 42 = Some the_process.
Proof.
  assert (∃ t opened, kill_log = take 1 kill_log ++ (t, LogSignal opened the_process) :: drop 2 kill_log ∧ (1 ≤ opened)%nat) as
    (t & opened & H & Ho).
  { eexists _, _. split; [vm_compute; reflexivity|lia]. }
  destruct (cleanup_kills_only_recorded (answers 11) (occupant_of 11) 1 [CallCleanup the_key] running (take 1 kill_log) t opened
    the_process (drop 2 kill_log) (answers_laws 11) eq_refl H) as [H1 H2].
  exists t, opened. split; [rewrite H; reflexivity|]. split; [exact H1|]. apply H2. exists 1%nat. split; [exact Ho|reflexivity].
Defined.

Lemma tombstone_process_gone_witness :
  let w' := (cleanup (answers 11) 0 1 running).2 in
  (∃ t resolved, w_slots w' !! 0 = Some t ∧ sl_state t = ResolvedTombstone 11 (Some the_process) resolved) ∧
  ∀ t, (w_time w' ≤ t)%nat → occupant_of 11 t 42 ≠ Some the_process.
Proof.
  intros w'. assert (cleanup (answers 11) 0 1 running = (Ok OutcomeTombstone, w')) as H by (vm_compute; reflexivity).
  apply (tombstone_process_gone (answers 11) (occupant_of 11) 0 1 11 the_process true durable_slot running w'
    (answers_laws 11) eq_refl (or_introl eq_refl)); [|exact H]. exists 1%nat. split; [reflexivity|reflexivity].
Defined.

(** ** A launch whose files are all made, resolved *)

Definition full_made : ArtifactMade := {|
  private_directory := Some the_directory; runner := Some (file 5); socket := Some (file 6); owner_file := Some (file 7);
  runner_create_pending := false; socket_create_pending := false; owner_create_pending := false |}.
Definition full_binding : ManagedArtifactBinding := {|
  ab_name := {| ab_nonce := 11; control_root := the_root; private_leaf := the_leaf |}; ab_made := full_made;
  ab_cleanup := no_cleanup |}.

Definition resolved_slot (b : ManagedArtifactBinding) : SlotRecord := {|
  sl_schema := SLOT_SCHEMA_VERSION; sl_slot := 0; sl_generation := 1; sl_owner := Some the_owner; sl_binding := Some b;
  sl_state := ResolvedTombstone 11 (Some the_process) 4000 |}.
Definition resolved_world (b : ManagedArtifactBinding) : World := {|
  w_slots := {[0 := resolved_slot b]}; w_registrations := ∅; w_time := 0; w_log := [] |}.

Lemma resolved_inv : world_inv (resolved_world full_binding).
Proof.
  split.
  - intros slot r H. cbn in H. apply lookup_singleton_Some in H as [<- <-]. split; [vm_compute; reflexivity|]. cbn. unfold u64_max. lia.
  - intros s1 s2 r1 r2 o H1 H2 _ _. cbn in H1, H2. apply lookup_singleton_Some in H1 as [<- _].
    by apply lookup_singleton_Some in H2 as [<- _].
Qed.

(** The writes are done, but their answers are lost. *)
Definition unsynced : Env :=
  let e := answers 0 in
  {| env_lock := env_lock e; env_guard := env_guard e; env_readable := env_readable e; env_write := λ _, WrittenUnsynced;
     env_boot := env_boot e; env_namespace := env_namespace e; env_ticks := env_ticks e; env_pidfd := env_pidfd e;
     env_signal := env_signal e; env_wait := env_wait e; env_clock := env_clock e; env_uuid := env_uuid e |}.

Lemma lost_answer_retry_witness :
  let m env := artifact_op env the_key full_binding OpBeginCleanup in
  (m unsynced (resolved_world full_binding)).1 = Err WriteError ∧
  ∃ r w'', w_slots (m unsynced (resolved_world full_binding)).2 !! 0 = Some r ∧
    m (answers 0) (m unsynced (resolved_world full_binding)).2 = (Ok (sl_binding r), w'') ∧
    w_slots w'' = w_slots (m unsynced (resolved_world full_binding)).2.
Proof.
  intros m. split; [vm_compute; reflexivity|].
  apply (lost_answer_retry unsynced (answers 0) 9 the_key full_binding OpBeginCleanup (resolved_world full_binding)
    (m unsynced (resolved_world full_binding)).1 (m unsynced (resolved_world full_binding)).2 resolved_inv).
  - apply surjective_pairing.
  - intros H. apply (f_equal (λ s, s !! 0)) in H. vm_compute in H. discriminate.
  - intros t. split; [reflexivity|split; reflexivity].
  - reflexivity.
  - reflexivity.
Defined.

(** ** Its directory *)

Definition node (t : NodeType) (ino mode : Z) (record : option PrivateRunnerOwnership) : PrivateNode := {|
  pn_type := t; pn_identity := file ino; pn_own := true; pn_mode := mode; pn_links := 1; pn_record := record;
  pn_json := bool_decide (t = RegularFile) |}.

(** Identifiers of 32 hexadecimal digits. *)
Definition parse_simple (s : str) : option Uuid :=
  if (length s =? 32)%nat && forallb is_ascii_hexdigit s then Some 1 else None.
Definition temp_leaf : str :=
  EvidenceFs.TRANSACTION_TEMP_PREFIX ++ replicate 32 0x61 ++ EvidenceFs.TRANSACTION_TEMP_SUFFIX.

Definition the_record : PrivateRunnerOwnership := {|
  po_schema := 1; po_owner := the_owner; po_slot := 0; po_generation := 1;
  po_binding := with_made full_binding {|
    private_directory := Some the_directory; runner := Some (file 5); socket := Some (file 6); owner_file := None;
    runner_create_pending := false; socket_create_pending := false; owner_create_pending := true |};
  po_directory := the_directory; po_runner := file 5; po_socket := file 6 |}.

Definition the_dir : PrivateDir := {|
  pd_identity := the_directory; pd_private := true;
  pd_entries := {[PRIVATE_RUNNER_OWNER_LEAF := node RegularFile 7 384 (Some the_record);
                  SOCKET_LEAF := node SocketFile 6 384 None; RUNNER_LEAF := node RegularFile 5 320 None;
                  temp_leaf := node RegularFile 8 384 None]} |}.

Definition to_recover : PWorld := {|
  pw_registry := resolved_world full_binding; pw_parent := the_root; pw_path_parent := the_root;
  pw_children := {[the_leaf := ChildDir the_dir; lit "other" := ChildOther]} |}.

Definition no_aliases : option (list ManagedReconcileEntry) := None.

Definition recovery : result ContainmentErrorCode unit * PWorld :=
  cleanup_bound_private_runner_control (answers 0) (λ _, true) the_root parse_simple the_key full_binding (Some the_owner) no_aliases to_recover.

Lemma recovery_removes_only_bound_witness : kept parse_simple full_binding (pw_children to_recover) (pw_children recovery.2).
Proof.
  apply (recovery_removes_only_bound (answers 0) (λ _, true) the_root parse_simple the_key full_binding (Some the_owner) no_aliases
    (resolved_slot full_binding) full_binding to_recover recovery.1 recovery.2 eq_refl eq_refl). apply surjective_pairing.
Defined.

Lemma the_dir_matches : dir_matches parse_simple full_binding the_dir.
Proof.
  split.
  - reflexivity.
  - reflexivity.
  - vm_compute. by split_and!.
  - vm_compute. by split_and!.
  - vm_compute. by split_and!.
  - intros name m H1 H2 H3. unfold the_dir, pd_entries. do 3 (rewrite lookup_insert_ne; [|done]).
    intros [<- <-]%lookup_singleton_Some. split; vm_compute; reflexivity.
Qed.

Lemma is_recoverable : recoverable the_root parse_simple the_key the_owner full_binding no_aliases (pw_children to_recover).
Proof.
  split; try (vm_compute; done).
  intros _ _. unfold placed. cbn [full_binding ab_made full_made private_directory]. exists the_dir.
  split; [apply the_dir_matches|]. split; [|right; split; vm_compute; reflexivity].
  intros n Hn. vm_compute in Hn. injection Hn as <-. exists the_record. split_and!; [reflexivity|reflexivity|vm_compute; reflexivity].
Qed.


(** Interrupted after the record of the owner was unlinked and before that was made durable: the
    recovery does not know its own unlink, and refuses. *)
Definition unreceipted : ManagedArtifactBinding := staged full_binding (quarantine_name full_binding) false 0 (Some Ownership).
Definition to_refuse : PWorld := {|
  pw_registry := resolved_world unreceipted; pw_parent := the_root; pw_path_parent := the_root;
  pw_children := {[quarantine_name full_binding := ChildDir (without PRIVATE_RUNNER_OWNER_LEAF the_dir)]} |}.

Example unlink_without_receipt_is_refused :
  (cleanup_bound_private_runner_control (answers 0) (λ _, true) the_root parse_simple the_key unreceipted (Some the_owner)
    no_aliases to_refuse).1 = Err InvalidIdentity.
Proof. vm_compute. reflexivity. Qed.
