(* ===== verification/TmuxArgs.v ===== *)
(** Command lines of tmux ([tmux_compat.rs]): the scanners of short flags that the commands
    share, and the reference they implement.

    Every loop [while i < args.len()] of the source advances by one argument or by two, and
    looks at most at the next one: [args_loop] is that loop, and its body sees the argument,
    the arguments after it and the locals.  The reference is [tokens]: the options of a command
    line with their values, clusters taken apart, and its words. *)
From S2P Require Import Prelude Utf8 Protocol Text.

(** ** Flags *)

Definition flag_char (s : string) : char := match lit s with c :: _ => c | [] => 0 end.
Definition in_flags (flags : str) (c : char) : bool := existsb (Z.eqb c) flags.
Definition starts_dash (arg : str) : bool := starts_with_char 0x2d arg.
Definition DASH_DASH : str := lit "--".

Definition is_value_taking_short_flag (flag : char) : bool := in_flags (lit "Ftfcnxy") flag.

Definition short_flag_takes_value (flag : char) (extra_value_flags boolean_value_overrides : str) : bool :=
  is_value_taking_short_flag flag && negb (in_flags boolean_value_overrides flag) || in_flags extra_value_flags flag.

Definition short_cluster (arg : str) : option str :=
  match arg with
  | c :: cluster => if (c =? 0x2d) && negb (bool_decide (cluster = [])) && negb (starts_dash cluster)
                    then Some cluster else None
  | [] => None
  end.

(** [rest.strip_prefix('=').unwrap_or(rest)]. *)
Definition strip_equals (rest : str) : str := default rest (strip_str (lit "=") rest).

(** The value of a flag with [rest] after it in the cluster, and [next] the argument after the
    cluster. *)
Definition value_for_short_flag (rest : str) (flag : char) (next : option str)
    (extra_value_flags boolean_value_overrides : str) : option str :=
  if negb (short_flag_takes_value flag extra_value_flags boolean_value_overrides) then None
  else match rest with [] => next | _ => Some (strip_equals rest) end.

(** The loops over [cluster.char_indices()]: [rest] is the cluster after the flag. *)
Fixpoint cluster_flag_value (cluster : str) (pos : nat) (needle : char) (next : option str)
    (extra_value_flags boolean_value_overrides : str) : option (nat * option str) :=
  match cluster with
  | [] => None
  | flag :: rest =>
    let value := value_for_short_flag rest flag next extra_value_flags boolean_value_overrides in
    if flag =? needle then Some (pos, value)
    else if is_some value
            || short_flag_takes_value flag extra_value_flags boolean_value_overrides && bool_decide (rest = [])
    then None
    else cluster_flag_value rest (S pos) needle next extra_value_flags boolean_value_overrides
  end.

Definition short_cluster_flag_value (arg : str) (needle : char) (next : option str)
    (extra_value_flags boolean_value_overrides : str) : option (nat * option str) :=
  cluster ← short_cluster arg;
  cluster_flag_value cluster 0 needle next extra_value_flags boolean_value_overrides.

Definition has_flag_in_arg (arg : str) (needle : char) (extra_value_flags boolean_value_overrides : str) : bool :=
  match short_cluster arg with
  | Some cluster => is_some (cluster_flag_value cluster 0 needle None extra_value_flags boolean_value_overrides)
  | None => false
  end.

(** The number of arguments that a flag takes, less one: whether it takes the next one. *)
Fixpoint cluster_takes_next (cluster : str) (next : option str) (extra_value_flags boolean_value_overrides : str) : bool :=
  match cluster with
  | [] => false
  | flag :: rest =>
    if short_flag_takes_value flag extra_value_flags boolean_value_overrides
    then bool_decide (rest = []) && is_some next
    else cluster_takes_next rest next extra_value_flags boolean_value_overrides
  end.

Definition flag_arg_width (flag : str) (next : option str) (extra_value_flags boolean_value_overrides : str) : bool :=
  match short_cluster flag with
  | Some cluster => cluster_takes_next cluster next extra_value_flags boolean_value_overrides
  | None => false
  end.

(** ** Loops over the arguments *)

Inductive arg_step (St : Type) : Type :=
  | Next (s : St) (two : bool)
  | Stop (s : St).
Arguments Next {St} s two.
Arguments Stop {St} s.

Fixpoint args_loop {St} (body : str → list str → St → arg_step St) (args : list str) (s : St) : St :=
  match args with
  | [] => s
  | arg :: rest =>
    match body arg rest s with
    | Stop s => s
    | Next s two => match two, rest with true, _ :: rest => args_loop body rest s | _, _ => args_loop body rest s end
    end
  end.

Inductive TmuxError : Set :=
  | MissingValue (flag : char) | UnsupportedFlag (flag : str) | NotDetached | OneName | NameMissing | FiltersUnsupported
  | UnsupportedTarget | InvalidNumber (flag : char) | ZeroNumber | EnvAssignment | TooLarge | ClusteredTarget
  | PositionalCount | InvalidOptionName | InvalidOptionValue | TargetUnavailable.
#[global] Instance TmuxError_eq : EqDecision TmuxError.
Proof. solve_decision. Defined.

(** A step that may fail: the loop of the source returns with the error. *)
Definition step_ok {St} (r : result TmuxError St) (two : bool) : arg_step (result TmuxError St) :=
  match r with Ok s => Next (Ok s) two | Err e => Stop (Err e) end.

Definition target_value (value : option str) : result TmuxError str :=
  match value with
  | Some value => if bool_decide (value = []) then Err (MissingValue (flag_char "t")) else Ok value
  | None => Err (MissingValue (flag_char "t"))
  end.

Definition value_for_option (value : option str) (flag : char) : result TmuxError str := ok_or value (MissingValue flag).

(** ** The scanners *)

Section scanners.
Context (args : list str).

Definition parse_target_with_value_flags (extra_value_flags : str) : result TmuxError (option str) :=
  args_loop (λ arg rest s,
    let next := head rest in
    if bool_decide (arg = DASH_DASH) then Stop s
    else if bool_decide (arg = lit "-t") then step_ok (Some <$> target_value next) true
    else match strip_str (lit "-t=") arg with
    | Some value => step_ok (Some <$> target_value (Some value)) false
    | None =>
      if is_prefix (lit "-t") arg && (2 <? length arg)%nat then step_ok (Some <$> target_value (Some (drop 2 arg))) false
      else match short_cluster_flag_value arg (flag_char "t") next extra_value_flags [] with
      | Some (_, Some value) =>
        step_ok (Some <$> target_value (Some value)) (flag_arg_width arg next extra_value_flags [])
      | Some (_, None) => step_ok (Some <$> target_value next) (flag_arg_width arg next extra_value_flags [])
      | None => if starts_dash arg then Next s (flag_arg_width arg next extra_value_flags []) else Stop s
      end
    end) args (Ok None).

Definition parse_target : result TmuxError (option str) := parse_target_with_value_flags [].

(** Scanners that answer at once keep the answer in the locals. *)
Definition parse_format : option str :=
  args_loop (λ arg rest s,
    let next := head rest in
    if bool_decide (arg = DASH_DASH) then Stop s
    else if bool_decide (arg = lit "-F") then Stop next
    else match strip_str (lit "-F=") arg with
    | Some value => Stop (Some value)
    | None =>
      if is_prefix (lit "-F") arg && (2 <? length arg)%nat then Stop (Some (strip_equals (drop 2 arg)))
      else match short_cluster_flag_value arg (flag_char "F") next [] [] with
      | Some (_, Some value) => Stop (Some value)
      | Some (_, None) => Stop next
      | None => Next s (starts_dash arg && flag_arg_width arg next [] [])
      end
    end) args None.

Fixpoint buffer_cluster_width (cluster : str) (next : option str) : option bool :=
  match cluster with
  | [] => None
  | flag :: rest =>
    if flag =? flag_char "b" then Some (bool_decide (rest = []) && is_some next)
    else if is_some (value_for_short_flag rest flag next [] [])
            || is_value_taking_short_flag flag && bool_decide (rest = [])
    then None
    else buffer_cluster_width rest next
  end.

Definition buffer_option_width (arg : str) (next : option str) : option bool :=
  if bool_decide (arg = lit "-b") then Some (is_some next)
  else if is_prefix (lit "-b") arg && (2 <? length arg)%nat then Some false
  else
    cluster ← short_cluster arg;
    buffer_cluster_width cluster next.

Definition buffer_path_arg : option str :=
  args_loop (λ arg rest s,
    let next := head rest in
    if bool_decide (arg = DASH_DASH) then Stop next
    else match buffer_option_width arg next with
    | Some two => Next s two
    | None => if starts_dash arg then Next s (flag_arg_width arg next [] []) else Stop (Some arg)
    end) args None.

Definition parse_command_filter : option str :=
  args_loop (λ arg rest s,
    let next := head rest in
    if bool_decide (arg = DASH_DASH) then Stop next
    else if bool_decide (arg = lit "-F") then Next s true
    else if is_prefix (lit "-F") arg then Next s false
    else if starts_dash arg then Next s (flag_arg_width arg next [] []) else Stop (Some arg)) args None.

Definition reject_filter : result TmuxError unit :=
  args_loop (λ arg rest s,
    let next := head rest in
    if bool_decide (arg = DASH_DASH) then Stop s
    else if bool_decide (arg = lit "-f") || is_some (short_cluster_flag_value arg (flag_char "f") next [] [])
    then Stop (Err FiltersUnsupported)
    else Next s (starts_dash arg && flag_arg_width arg next [] [])) args (Ok tt).

(** [needle] with its dash; a needle of one letter is also looked for in clusters. *)
Definition has_flag (needle : str) : bool :=
  args_loop (λ arg rest s,
    let next := head rest in
    if bool_decide (arg = DASH_DASH) then Stop s
    else if bool_decide (arg = needle) then Stop true
    else if match strip_str (lit "-") needle with
            | Some short =>
              (str_len short =? 1) &&
              match short with c :: _ => is_some (short_cluster_flag_value arg c next [] []) | [] => false end
            | None => false
            end
    then Stop true
    else Next s (starts_dash arg && flag_arg_width arg next [] [])) args false.
End scanners.

(** ** The reference: the tokens of a command line *)

Inductive Token : Set :=
  | Opt (flag : char) (value : option str)   (* a short flag, alone or in a cluster *)
  | Plain (arg : str)                        (* a dash alone or a long option *)
  | Word (arg : str) (rest : list str)       (* a word, and what follows it *)
  | After (rest : list str).                 (* what follows the double dash *)

Section tokens.
Context (takes_value : char → bool).

(** A cluster ends with the first flag that takes a value: the rest of the cluster, or the
    next argument. *)
Fixpoint cluster_tokens (cluster : str) (next : option str) : list Token * bool :=
  match cluster with
  | [] => ([], false)
  | c :: rest =>
    if takes_value c then
      match rest with
      | [] => ([Opt c next], is_some next)
      | _ => ([Opt c (Some (strip_equals rest))], false)
      end
    else let '(ts, two) := cluster_tokens rest next in (Opt c None :: ts, two)
  end.

Fixpoint tokens (args : list str) : list Token :=
  match args with
  | [] => []
  | arg :: rest =>
    if bool_decide (arg = DASH_DASH) then [After rest]
    else match short_cluster arg with
    | Some cluster =>
      let '(ts, two) := cluster_tokens cluster (head rest) in
      ts ++ match two, rest with true, _ :: rest => tokens rest | _, _ => tokens rest end
    | None => (if starts_dash arg then Plain arg else Word arg rest) :: tokens rest
    end
  end.
End tokens.

(** The values given to a flag, in order. *)
Fixpoint values_of (flag : char) (ts : list Token) : list (option str) :=
  match ts with
  | [] => []
  | Opt c v :: ts => if c =? flag then v :: values_of flag ts else values_of flag ts
  | _ :: ts => values_of flag ts
  end.

(** The tokens before the first word. *)
Fixpoint leading (ts : list Token) : list Token :=
  match ts with
  | (Opt _ _ | Plain _) as t :: ts => t :: leading ts
  | _ => []
  end.

(** The first word, after the double dash if none comes before it. *)
Fixpoint first_word (ts : list Token) : option str :=
  match ts with
  | Word w _ :: _ => Some w
  | After rest :: _ => head rest
  | _ :: ts => first_word ts
  | [] => None
  end.

(** What follows the options: the words from the first one on, or what follows the dash. *)
Fixpoint operands (ts : list Token) : option (list str) :=
  match ts with
  | Word w rest :: _ => Some (w :: rest)
  | After rest :: _ => Some rest
  | _ :: ts => operands ts
  | [] => None
  end.

(** A reading of the options before the first word, one after the other. *)
Fixpoint read_options {A} (on_option : char → option str → A → result TmuxError A) (on_plain : str → A → result TmuxError A)
    (ts : list Token) (a : A) : result TmuxError A :=
  match ts with
  | Opt c v :: ts => a ← on_option c v a; read_options on_option on_plain ts a
  | Plain p :: ts => a ← on_plain p a; read_options on_option on_plain ts a
  | _ => Ok a
  end.

(** The options of the whole line, words left out. *)
Fixpoint all_options (ts : list Token) : list Token :=
  match ts with
  | Opt c v :: ts => Opt c v :: all_options ts
  | _ :: ts => all_options ts
  | [] => []
  end.

Fixpoint last_target (values : list (option str)) (target : option str) : result TmuxError (option str) :=
  match values with
  | [] => Ok target
  | v :: values => value ← target_value v; last_target values (Some value)
  end.

(** ** The scanners implement the reference *)

Section cluster_lemmas.
Context (extra ov : str).
Local Abbreviation V := (λ c, short_flag_takes_value c extra ov).

Lemma cluster_takes_next_tokens cluster next :
  cluster_takes_next cluster next extra ov = (cluster_tokens V cluster next).2.
Proof.
  induction cluster as [|c rest IH]; simpl; [done|]. destruct (short_flag_takes_value c extra ov).
  - by destruct rest.
  - rewrite IH. by destruct (cluster_tokens _ rest next).
Qed.

Lemma cluster_flag_value_tokens cluster pos needle next :
  snd <$> cluster_flag_value cluster pos needle next extra ov = head (values_of needle (cluster_tokens V cluster next).1).
Proof.
  revert pos. induction cluster as [|c rest IH]; intros pos; simpl; [done|].
  unfold value_for_short_flag. destruct (short_flag_takes_value c extra ov); simpl.
  - destruct rest as [|d rest]; simpl; destruct (c =? needle); simpl; try done.
    destruct next; done.
  - destruct (c =? needle) eqn:Hc; [by destruct (cluster_tokens _ rest next); simpl; rewrite Hc|].
    rewrite IH. destruct (cluster_tokens _ rest next); simpl. by rewrite Hc.
Qed.

(** A cluster gives a flag that takes a value at most once. *)
Lemma cluster_values_once cluster next needle :
  V needle = true → (length (values_of needle (cluster_tokens V cluster next).1) ≤ 1)%nat.
Proof.
  intros Hn. induction cluster as [|c rest IH]; simpl; [lia|]. destruct (short_flag_takes_value c extra ov) eqn:Hc.
  - destruct rest; simpl; destruct (c =? needle); simpl; lia.
  - destruct (cluster_tokens _ rest next) eqn:Hr; simpl in *. destruct (c =? needle) eqn:E; [|lia].
    assert (c = needle) as -> by lia. simpl in Hn. congruence.
Qed.

(** The value of a flag that takes one is only missing when there is no next argument. *)
Lemma cluster_value_missing cluster next needle :
  V needle = true → head (values_of needle (cluster_tokens V cluster next).1) = Some None → next = None.
Proof.
  intros Hn. induction cluster as [|c rest IH]; simpl; [done|]. destruct (short_flag_takes_value c extra ov) eqn:Hc.
  - destruct rest; simpl; destruct (c =? needle); simpl; naive_solver.
  - destruct (cluster_tokens _ rest next); simpl in *. destruct (c =? needle) eqn:E; [|done].
    assert (c = needle) as -> by lia. simpl in Hn. congruence.
Qed.

Lemma flag_arg_width_tokens arg cluster next :
  short_cluster arg = Some cluster → flag_arg_width arg next extra ov = (cluster_tokens V cluster next).2.
Proof. intros H. unfold flag_arg_width. rewrite H. apply cluster_takes_next_tokens. Qed.
End cluster_lemmas.

Lemma args_ind (P : list str → Prop) :
  P [] → (∀ arg rest, P rest → (∀ x rest', rest = x :: rest' → P rest') → P (arg :: rest)) → ∀ args, P args.
Proof.
  intros H0 H1 args. induction args as [args IH] using list_len_ind.
  destruct args as [|arg rest]; [done|]. apply H1; [apply IH; simpl; lia|].
  intros x rest' ->. apply IH. simpl. lia.
Qed.

Lemma short_cluster_cons c v : c ≠ 0x2d → short_cluster (0x2d :: c :: v) = Some (c :: v).
Proof.
  intros Hc. unfold short_cluster, starts_dash, starts_with_char.
  rewrite bool_decide_eq_false_2 //. by replace (c =? 0x2d) with false by lia.
Qed.

Lemma strip_equals_other d v : d ≠ 0x3d → strip_equals (d :: v) = d :: v.
Proof.
  intros Hd. unfold strip_equals, strip_str. cbn [lit is_prefix]. simpl. by rewrite bool_decide_false //; intros [=].
Qed.

Lemma short_cluster_dash arg cluster : short_cluster arg = Some cluster → starts_dash arg = true.
Proof. destruct arg as [|c arg]; [done|]. simpl. by destruct (c =? 0x2d). Qed.

(** The first two characters of an argument, as the source tests them. *)
Lemma flag_arg_cases c arg :
  c ≠ 0x2d →
  arg = [0x2d; c] ∨ (∃ v, arg = 0x2d :: c :: 0x3d :: v) ∨ (∃ d v, arg = 0x2d :: c :: d :: v ∧ d ≠ 0x3d) ∨
  (arg ≠ [0x2d; c] ∧ is_prefix [0x2d; c] arg = false).
Proof.
  intros Hc. destruct (is_prefix [0x2d; c] arg) eqn:Hp.
  - apply is_prefix_spec in Hp as [v ->]. destruct v as [|d v]; [by left|right].
    destruct (decide (d = 0x3d)) as [->|Hd]; [left|right; left]; simpl; eauto.
  - repeat right. split; [|done]. intros ->. simpl in Hp. rewrite !bool_decide_true // in Hp.
Qed.

Lemma leading_cluster tv cluster next ts :
  leading ((cluster_tokens tv cluster next).1 ++ ts) = (cluster_tokens tv cluster next).1 ++ leading ts.
Proof.
  induction cluster as [|c rest IH]; simpl; [done|]. destruct (tv c); [by destruct rest|].
  destruct (cluster_tokens tv rest next); simpl in *. by rewrite IH.
Qed.

Lemma values_of_app flag a b : values_of flag (a ++ b) = values_of flag a ++ values_of flag b.
Proof. induction a as [|[c v| | |] a IH]; simpl; [done|destruct (c =? flag); simpl|..]; by rewrite IH. Qed.

Lemma first_word_cluster tv cluster next ts : first_word ((cluster_tokens tv cluster next).1 ++ ts) = first_word ts.
Proof.
  induction cluster as [|c rest IH]; simpl; [done|]. destruct (tv c); [by destruct rest|].
  by destruct (cluster_tokens tv rest next).
Qed.

(** What a scanner does with one argument, told by its tokens. *)
Definition token_body {St} (tv : char → bool) (on_values : list Token → bool → St → arg_step St) (on_plain : str → St → arg_step St) (on_word : str → list str → St → arg_step St)
    (on_end : list str → St → arg_step St) (arg : str) (rest : list str) (s : St) : arg_step St :=
  if bool_decide (arg = DASH_DASH) then on_end rest s
  else match short_cluster arg with
  | Some cluster => let '(ts, two) := cluster_tokens tv cluster (head rest) in on_values ts two s
  | None => if starts_dash arg then on_plain arg s else on_word arg rest s
  end.

Lemma args_loop_ext {St} (f g : str → list str → St → arg_step St) args s :
  (∀ arg rest s, f arg rest s = g arg rest s) → args_loop f args s = args_loop g args s.
Proof.
  intros Hfg. revert s. induction args as [|arg rest IH Hrest] using args_ind; intros s; simpl; [done|].
  rewrite Hfg. destruct (g arg rest s) as [s' two|s']; [|done]. destruct two; [|by apply IH].
  destruct rest as [|x rest']; [done|]. by eapply Hrest.
Qed.

(** What a step leaves of the arguments. *)
Definition after_step (rest : list str) (two : bool) : list str :=
  match two, rest with true, _ :: rest => rest | _, _ => rest end.

Lemma args_loop_inv {St} (I : list str → St → Prop) (Q : St → Prop) (body : str → list str → St → arg_step St) args s :
  (∀ arg rest s, I (arg :: rest) s →
    match body arg rest s with Next s' two => I (after_step rest two) s' | Stop s' => Q s' end) →
  (∀ s, I [] s → Q s) → I args s → Q (args_loop body args s).
Proof.
  intros Hstep Hend. revert s. induction args as [|arg rest IH Hrest] using args_ind; intros s Hs; simpl; [by apply Hend|].
  specialize (Hstep arg rest s Hs). destruct (body arg rest s) as [s' two|s']; [|done].
  unfold after_step in Hstep. destruct two; [|by apply IH]. destruct rest as [|x rest']; [by apply Hend|]. by eapply Hrest.
Qed.

(** A scanner that looks at the tokens is a function of the tokens of the whole command line. *)
Section token_loop.
Context {St : Type} (tv : char → bool) (inv : St → bool).
Context (on_values : list Token → bool → St → arg_step St) (on_plain : str → St → arg_step St) (on_word : str → list str → St → arg_step St) (on_end : list str → St → arg_step St).
Context (F : list Token → St → St).
Local Abbreviation body := (token_body tv on_values on_plain on_word on_end).

Hypothesis F_nil : ∀ s, F [] s = s.
Hypothesis F_end : ∀ rest s, inv s = true → on_end rest s = Stop (F [After rest] s).
Hypothesis F_plain : ∀ a s, inv s = true →
  match on_plain a s with
  | Stop s' => ∀ k, F (Plain a :: k) s = s'
  | Next s' two => two = false ∧ inv s' = true ∧ ∀ k, F (Plain a :: k) s = F k s'
  end.
Hypothesis F_word : ∀ w rest s, inv s = true →
  match on_word w rest s with
  | Stop s' => ∀ k, F (Word w rest :: k) s = s'
  | Next s' two => two = false ∧ inv s' = true ∧ ∀ k, F (Word w rest :: k) s = F k s'
  end.
Hypothesis F_values : ∀ cluster next s, inv s = true →
  let '(ts, two) := cluster_tokens tv cluster next in
  match on_values ts two s with
  | Stop s' => ∀ k, F (ts ++ k) s = s'
  | Next s' two' => two' = two ∧ inv s' = true ∧ ∀ k, F (ts ++ k) s = F k s'
  end.

Lemma token_loop args s : inv s = true → args_loop body args s = F (tokens tv args) s.
Proof using All.
  revert s. induction args as [|arg rest IH Hrest] using args_ind; intros s Hs; simpl; [done|].
  unfold token_body at 1. case_bool_decide as Hd; [by rewrite F_end|].
  destruct (short_cluster arg) as [cluster|] eqn:Hc.
  - specialize (F_values cluster (head rest) s Hs).
    destruct (cluster_tokens tv cluster (head rest)) as [ts two].
    destruct (on_values ts two s) as [s' two'|s']; [|by rewrite F_values].
    destruct F_values as (-> & Hs' & Hk). rewrite Hk. destruct two; [|by apply IH].
    destruct rest as [|x rest']; [done|]. by eapply Hrest.
  - destruct (starts_dash arg).
    { specialize (F_plain arg s Hs). destruct (on_plain arg s) as [s' two|s']; [|by rewrite F_plain].
      destruct F_plain as (-> & Hs' & Hk). rewrite Hk. by apply IH. }
    specialize (F_word arg rest s Hs). destruct (on_word arg rest s) as [s' two|s']; [|by rewrite F_word].
    destruct F_word as (-> & Hs' & Hk). rewrite Hk. by apply IH.
Qed.
End token_loop.

(** Loops that read options and end at the first word, and loops that pass over words. *)
Section readers.
Context {A : Type} (tv : char → bool).
Context (on_option : char → option str → A → result TmuxError A) (plain : str → A → result TmuxError A).
Context (finish : A → list str → A).
Local Abbreviation read := (read_options on_option plain).

Definition step_read (r : result TmuxError A) (read : A → result TmuxError A) (two : bool) : arg_step (result TmuxError A) :=
  match r with Ok a => step_ok (read a) two | Err e => Stop (Err e) end.

Lemma read_cluster cluster next k a :
  let ts := (cluster_tokens tv cluster next).1 in read (ts ++ k) a = (read ts a ≫= read k).
Proof.
  cbv zeta. revert a. induction cluster as [|c rest IH]; intros a; simpl; [done|]. destruct (tv c).
  - destruct rest; simpl; by destruct (on_option _ _ a).
  - destruct (cluster_tokens tv rest next) as [ts two]; simpl in *. destruct (on_option c None a); simpl; [apply IH|done].
Qed.

Lemma operands_cluster cluster next k : operands ((cluster_tokens tv cluster next).1 ++ k) = operands k.
Proof.
  induction cluster as [|c rest IH]; simpl; [done|]. destruct (tv c); [by destruct rest|].
  by destruct (cluster_tokens tv rest next).
Qed.

Lemma all_options_cluster cluster next k :
  all_options ((cluster_tokens tv cluster next).1 ++ k) = (cluster_tokens tv cluster next).1 ++ all_options k.
Proof.
  induction cluster as [|c rest IH]; simpl; [done|]. destruct (tv c); [by destruct rest|].
  destruct (cluster_tokens tv rest next); simpl in *. by rewrite IH.
Qed.

Lemma options_loop args a :
  args_loop (token_body tv (λ ts two s, step_read s (read ts) two) (λ p s, step_read s (plain p) false)
    (λ w rest s, Stop (flip finish (w :: rest) <$> s)) (λ rest s, Stop (flip finish rest <$> s))) args (Ok a) =
  (a ← read (tokens tv args) a; Ok (from_option (finish a) a (operands (tokens tv args)))).
Proof.
  rewrite (token_loop tv is_ok _ _ _ _ (λ ts s, a ← s; a ← read ts a; Ok (from_option (finish a) a (operands ts)))) //.
  - by intros [].
  - intros p [b|e]; [|done]. intros _. simpl. destruct (plain p b); simpl; [done|]. done.
  - intros cluster next [b|e]; [|done]. intros _.
    pose proof (read_cluster cluster next) as Hr. pose proof (operands_cluster cluster next) as Ho.
    destruct (cluster_tokens tv cluster next) as [ts two]; simpl in *.
    destruct (read ts b) eqn:Hb; simpl; [split_and!; [done..|]|]; intros k; by rewrite Hr Hb /= ?Ho.
Qed.

Lemma words_loop args a :
  args_loop (token_body tv (λ ts two s, step_read s (read ts) two) (λ _ s, Next s false)
    (λ _ _ s, Next s false) (λ _ s, Stop s)) args (Ok a) =
  read (all_options (tokens tv args)) a.
Proof.
  rewrite (token_loop tv is_ok _ _ _ _ (λ ts s, a ← s; read (all_options ts) a)) //.
  - by intros [].
  - by intros rest [].
  - intros cluster next [b|e]; [|done]. intros _.
    pose proof (read_cluster cluster next) as Hr. pose proof (all_options_cluster cluster next) as Ho.
    destruct (cluster_tokens tv cluster next) as [ts two]; simpl in *.
    destruct (read ts b) eqn:Hb; simpl; [split_and!; [done..|]|]; intros k; by rewrite Ho Hr Hb.
Qed.
End readers.

Section target.
Context (extra : str).
Local Abbreviation V := (λ c, short_flag_takes_value c extra []).
Local Abbreviation t := (flag_char "t").

Lemma takes_t : short_flag_takes_value t extra [] = true.
Proof. done. Qed.

Lemma target_step arg rest (s : result TmuxError (option str)) :
  (let next := head rest in
   if bool_decide (arg = DASH_DASH) then Stop s
   else if bool_decide (arg = lit "-t") then step_ok (Some <$> target_value next) true
   else match strip_str (lit "-t=") arg with
   | Some value => step_ok (Some <$> target_value (Some value)) false
   | None =>
     if is_prefix (lit "-t") arg && (2 <? length arg)%nat then step_ok (Some <$> target_value (Some (drop 2 arg))) false
     else match short_cluster_flag_value arg t next extra [] with
     | Some (_, Some value) =>
       step_ok (Some <$> target_value (Some value)) (flag_arg_width arg next extra [])
     | Some (_, None) => step_ok (Some <$> target_value next) (flag_arg_width arg next extra [])
     | None => if starts_dash arg then Next s (flag_arg_width arg next extra []) else Stop s
     end
   end) =
  token_body V (λ ts two s, match values_of t ts with v :: _ => step_ok (Some <$> target_value v) two | [] => Next s two end)
    (λ _ s, Next s false) (λ _ _ s, Stop s) (λ _ s, Stop s) arg rest s.
Proof.
  cbv zeta. unfold token_body. case_bool_decide as Hd; [done|].
  destruct (flag_arg_cases t arg ltac:(done)) as [->|[[v ->]|[(d & v & -> & Hd')|[Hne Hp]]]].
  - simpl. destruct (head rest); simpl; [|done]. by destruct (bool_decide _).
  - rewrite short_cluster_cons //.
  - rewrite short_cluster_cons //. rewrite bool_decide_false //.
    replace (strip_str (lit "-t=") _) with (None : option str).
    2:{ unfold strip_str. simpl. rewrite bool_decide_false //; naive_solver. }
    simpl. by rewrite strip_equals_other.
  - rewrite bool_decide_false // Hp.
    replace (strip_str (lit "-t=") arg) with (None : option str).
    2:{ unfold strip_str. destruct (is_prefix (lit "-t=") arg) eqn:Hq; [|done].
        apply is_prefix_spec in Hq as [k ->]. done. }
    unfold short_cluster_flag_value, andb. destruct (short_cluster arg) as [cluster|] eqn:Hc; simpl.
    2:{ unfold flag_arg_width. by rewrite Hc. }
    rewrite (flag_arg_width_tokens _ _ _ cluster) // (short_cluster_dash arg cluster) //.
    pose proof (cluster_flag_value_tokens extra [] cluster 0 t (head rest)) as Hv.
    pose proof (cluster_value_missing extra [] cluster (head rest) t eq_refl) as Hm.
    destruct (cluster_tokens _ cluster (head rest)) as [ts two]; simpl in *.
    destruct (cluster_flag_value _ _ _ _ _ _) as [[pos v]|], (values_of t ts) as [|w ws]; simpl in *; simplify_eq; try done.
    destruct w as [w|]; [done|]. by rewrite Hm.
Qed.

Definition targets_of (ts : list Token) (s : result TmuxError (option str)) : result TmuxError (option str) :=
  target ← s; last_target (values_of t (leading ts)) target.

Lemma parse_target_tokens args :
  parse_target_with_value_flags args extra = last_target (values_of t (leading (tokens V args))) None.
Proof.
  unfold parse_target_with_value_flags. rewrite (args_loop_ext _ _ _ _ target_step).
  rewrite (token_loop V is_ok _ _ _ _ targets_of) //.
  - by intros [target|e].
  - by intros rest [target|e].
  - by intros w rest [target|e].
  - intros cluster next [target|e]; [|done]. intros _.
    pose proof (cluster_values_once extra [] cluster next t takes_t) as Honce.
    pose proof (leading_cluster V cluster next) as Hlead.
    destruct (cluster_tokens _ cluster next) as [ts two]; simpl in *.
    destruct (values_of t ts) as [|v [|]] eqn:Hv; simpl in *; [..|lia].
    + split_and!; [done..|]. intros k. by rewrite Hlead values_of_app Hv.
    + destruct (target_value v) as [value|e] eqn:Ht; simpl.
      * split_and!; [done..|]. intros k. by rewrite Hlead values_of_app Hv /= Ht.
      * intros k. by rewrite Hlead values_of_app Hv /= Ht.
Qed.
End target.

Local Abbreviation V0 := (λ c, short_flag_takes_value c [] []).

(** The flag value of a cluster, as the tokens have it. *)
Lemma short_cluster_value arg needle next cluster :
  short_cluster arg = Some cluster →
  snd <$> short_cluster_flag_value arg needle next [] [] = head (values_of needle (cluster_tokens V0 cluster next).1).
Proof. intros Hc. unfold short_cluster_flag_value. rewrite Hc. apply cluster_flag_value_tokens. Qed.

Lemma short_cluster_value_is_some arg needle next cluster :
  short_cluster arg = Some cluster →
  is_some (short_cluster_flag_value arg needle next [] []) =
  negb (bool_decide (values_of needle (cluster_tokens V0 cluster next).1 = [])).
Proof.
  intros Hc. pose proof (short_cluster_value arg needle next cluster Hc) as H.
  destruct (short_cluster_flag_value _ _ _ _ _), (values_of needle _); simpl in *; simplify_eq; done.
Qed.

Lemma no_cluster_value arg needle next : short_cluster arg = None → short_cluster_flag_value arg needle next [] [] = None.
Proof. intros Hc. unfold short_cluster_flag_value. by rewrite Hc. Qed.

Lemma no_cluster_width arg next : short_cluster arg = None → starts_dash arg && flag_arg_width arg next [] [] = false.
Proof. intros Hc. unfold flag_arg_width. rewrite Hc. apply andb_false_r. Qed.

Lemma strip_flag_None c arg : is_prefix [0x2d; c] arg = false → strip_str [0x2d; c; 0x3d] arg = None.
Proof.
  intros Hp. unfold strip_str. destruct (is_prefix [0x2d; c; 0x3d] arg) eqn:Hq; [|done].
  apply is_prefix_spec in Hq as [k ->]. simpl in Hp. by rewrite !bool_decide_true in Hp.
Qed.

Lemma strip_flag_other c d v : d ≠ 0x3d → strip_str [0x2d; c; 0x3d] (0x2d :: c :: d :: v) = None.
Proof.
  intros Hd. unfold strip_str. cbn [is_prefix].
  assert (bool_decide (0x3d = d) = false) as -> by (apply bool_decide_eq_false; congruence).
  by rewrite !andb_false_r.
Qed.

Lemma parse_format_tokens args : parse_format args = from_option id None (head (values_of (flag_char "F") (tokens V0 args))).
Proof.
  unfold parse_format. rewrite (args_loop_ext _ (token_body V0
    (λ ts two s, match values_of (flag_char "F") ts with v :: _ => Stop v | [] => Next s two end) (λ _ s, Next s false) (λ _ _ s, Next s false) (λ _ s, Stop s))).
  2:{ intros arg rest s. cbv zeta. unfold token_body. case_bool_decide as Hd; [done|].
      destruct (flag_arg_cases (flag_char "F") arg ltac:(done)) as [->|[[v ->]|[(d & v & -> & Hd')|[Hne Hp]]]].
      - done.
      - by rewrite short_cluster_cons.
      - rewrite short_cluster_cons // bool_decide_false // strip_flag_other //.
      - rewrite bool_decide_false // strip_flag_None // Hp. unfold andb at 1.
        destruct (short_cluster arg) as [cluster|] eqn:Hc.
        2:{ rewrite no_cluster_value // no_cluster_width //. by destruct (starts_dash arg). }
        rewrite (flag_arg_width_tokens _ _ _ cluster) // (short_cluster_dash arg cluster) //.
        pose proof (short_cluster_value arg (flag_char "F") (head rest) cluster Hc) as Hv.
        pose proof (cluster_value_missing [] [] cluster (head rest) (flag_char "F") eq_refl) as Hm.
        destruct (cluster_tokens _ cluster (head rest)) as [ts two]; simpl in *.
        destruct (short_cluster_flag_value _ _ _ _ _) as [[pos v]|], (values_of _ ts) as [|w ws]; simpl in *; simplify_eq; try done.
        destruct w; [done|]. by rewrite Hm. }
  rewrite (token_loop V0 (λ _, true) _ _ _ _ (λ ts s, default s (head (values_of (flag_char "F") ts)))) //.
  intros cluster next s _. destruct (cluster_tokens _ cluster next) as [ts two].
  destruct (values_of _ ts) eqn:Hv; [split_and!; [done..|]|]; intros k; by rewrite values_of_app Hv.
Qed.

Lemma has_flag_tokens c args :
  c ≠ 0x2d → c < 0x80 → has_flag args [0x2d; c] = negb (bool_decide (values_of c (tokens V0 args) = [])).
Proof.
  intros Hc0 Hascii. assert (str_len [c] = 1) as Hlen.
  { unfold str_len, utf8, encode. simpl. by rewrite (proj2 (Z.ltb_lt c 0x80) Hascii). }
  unfold has_flag. rewrite (args_loop_ext _ (token_body V0
    (λ ts two s, if bool_decide (values_of c ts = []) then Next s two else Stop true) (λ _ s, Next s false) (λ _ _ s, Next s false) (λ _ s, Stop s))).
  2:{ intros arg rest s. cbv zeta. unfold token_body. case_bool_decide as Hd; [done|].
      change (strip_str (lit "-") [0x2d; c]) with (Some [c]). cbv iota. rewrite Hlen Z.eqb_refl andb_true_l.
      case_bool_decide as Hn.
      - subst arg. rewrite short_cluster_cons //. cbn [cluster_tokens].
        destruct (short_flag_takes_value c [] []); simpl; by rewrite Z.eqb_refl.
      - destruct (short_cluster arg) as [cluster|] eqn:Hc.
        2:{ rewrite no_cluster_value // no_cluster_width //. by destruct (starts_dash arg). }
        rewrite (short_cluster_value_is_some _ _ _ cluster) // (flag_arg_width_tokens _ _ _ cluster) // (short_cluster_dash arg cluster) //.
        destruct (cluster_tokens _ cluster (head rest)) as [ts two]. simpl. by case_bool_decide. }
  rewrite (token_loop V0 (λ _, true) _ _ _ _ (λ ts s, if bool_decide (values_of c ts = []) then s else true)) //.
  intros cluster next s _. destruct (cluster_tokens _ cluster next) as [ts two].
  case_bool_decide as Hv; [split_and!; [done..|]|]; intros k; rewrite values_of_app.
  - by rewrite Hv.
  - rewrite bool_decide_false //. by intros [? _]%app_nil.
Qed.

Lemma reject_filter_tokens args :
  reject_filter args = if bool_decide (values_of (flag_char "f") (tokens V0 args) = []) then Ok tt else Err FiltersUnsupported.
Proof.
  unfold reject_filter. rewrite (args_loop_ext _ (token_body V0
    (λ ts two s, if bool_decide (values_of (flag_char "f") ts = []) then Next s two else Stop (Err FiltersUnsupported))
    (λ _ s, Next s false) (λ _ _ s, Next s false) (λ _ s, Stop s))).
  2:{ intros arg rest s. cbv zeta. unfold token_body. case_bool_decide as Hd; [done|].
      case_bool_decide as Hn; [by subst arg|]. rewrite orb_false_l.
      destruct (short_cluster arg) as [cluster|] eqn:Hc.
      2:{ rewrite no_cluster_value // no_cluster_width //. by destruct (starts_dash arg). }
      rewrite (short_cluster_value_is_some _ _ _ cluster) // (flag_arg_width_tokens _ _ _ cluster) // (short_cluster_dash arg cluster) //.
      destruct (cluster_tokens _ cluster (head rest)) as [ts two]. simpl. by case_bool_decide. }
  rewrite (token_loop V0 (λ _, true) _ _ _ _ (λ ts s, if bool_decide (values_of (flag_char "f") ts = []) then s else Err FiltersUnsupported)) //.
  intros cluster next s _. destruct (cluster_tokens _ cluster next) as [ts two].
  case_bool_decide as Hv; [split_and!; [done..|]|]; intros k; rewrite values_of_app.
  - by rewrite Hv.
  - rewrite bool_decide_false //. by intros [? _]%app_nil.
Qed.

(** [buffer_path_arg] also takes the value of [-b]. *)
Local Abbreviation Vb := (λ c, short_flag_takes_value c (lit "b") []).

Lemma takes_or_b c : short_flag_takes_value c (lit "b") [] = short_flag_takes_value c [] [] || (c =? flag_char "b").
Proof. unfold short_flag_takes_value. simpl. by rewrite !orb_false_r. Qed.

Lemma value_taking c : is_value_taking_short_flag c = short_flag_takes_value c [] [].
Proof. unfold short_flag_takes_value. simpl. by rewrite andb_true_r orb_false_r. Qed.

Lemma buffer_width arg next cluster :
  short_cluster arg = Some cluster →
  match buffer_option_width arg next with Some two => two | None => flag_arg_width arg next [] [] end =
  (cluster_tokens Vb cluster next).2.
Proof.
  intros Hc. unfold buffer_option_width.
  destruct (flag_arg_cases (flag_char "b") arg ltac:(done)) as [->|[[v ->]|[(d & v & -> & Hd')|[Hne Hp]]]].
  - by simplify_eq/=.
  - by simplify_eq/=.
  - rewrite short_cluster_cons // in Hc. simplify_eq. rewrite bool_decide_false //.
  - rewrite bool_decide_false // Hp Hc. rewrite (flag_arg_width_tokens _ _ _ cluster) //. simpl. clear Hne Hp Hc.
    assert (∀ (o : option bool) b, match o with Some two => two | None => b end = default b o) as Hdef by by intros [].
    rewrite Hdef. induction cluster as [|c rest IH]; [done|]. cbn [cluster_tokens buffer_cluster_width]. rewrite takes_or_b value_taking.
    unfold value_for_short_flag. destruct (c =? flag_char "b") eqn:Hb.
    + assert (c = flag_char "b") as -> by lia. simpl. by destruct rest.
    + destruct (short_flag_takes_value c [] []); simpl.
      * destruct rest; simpl; [by destruct next|done].
      * by destruct (cluster_tokens V0 rest next), (cluster_tokens Vb rest next).
Qed.

(** A scanner for the first word, that passes over options. *)
Lemma first_word_loop tv args :
  args_loop (token_body tv (λ _ two s, Next s two) (λ _ s, Next s false) (λ w _ _, Stop (Some w)) (λ rest _, Stop (head rest))) args None =
  first_word (tokens tv args).
Proof.
  rewrite (token_loop tv (λ s, negb (is_some s)) _ _ _ _ (λ ts s, match s with None => first_word ts | Some w => Some w end)) //.
  - by intros [].
  - by intros rest [].
  - by intros w rest [].
  - intros cluster next [s|] Hs; [done|]. pose proof (first_word_cluster tv cluster next) as Hw.
    by destruct (cluster_tokens tv cluster next).
Qed.

Lemma buffer_path_tokens args : buffer_path_arg args = first_word (tokens Vb args).
Proof.
  rewrite -first_word_loop. apply args_loop_ext. intros arg rest s. cbv zeta. unfold token_body.
  case_bool_decide as Hd; [done|]. destruct (short_cluster arg) as [cluster|] eqn:Hc.
  - pose proof (buffer_width arg (head rest) cluster Hc) as Hw. rewrite (short_cluster_dash arg cluster) //.
    destruct (cluster_tokens _ cluster (head rest)) as [ts two]; simpl in Hw. subst two. by destruct (buffer_option_width _ _).
  - assert (buffer_option_width arg (head rest) = None) as ->.
    { unfold buffer_option_width.
      destruct (flag_arg_cases (flag_char "b") arg ltac:(done)) as [->|[[v ->]|[(d & v & -> & Hd')|[Hne Hp]]]]; [done..|].
      by rewrite bool_decide_false // Hp Hc. }
    unfold flag_arg_width. rewrite Hc. by destruct (starts_dash arg).
Qed.

Lemma command_filter_tokens args : parse_command_filter args = first_word (tokens V0 args).
Proof.
  unfold parse_command_filter. rewrite -first_word_loop.
  induction args as [|arg rest IH Hrest] using args_ind; [done|]. cbn [args_loop]. unfold token_body at 1.
  case_bool_decide as Hd; [done|].
  destruct (flag_arg_cases (flag_char "F") arg ltac:(done)) as [->|[[v ->]|[(d & v & -> & Hd')|[Hne Hp]]]].
  - cbn. destruct rest as [|x rest]; [done|]. by apply (Hrest x).
  - rewrite bool_decide_false // short_cluster_cons //.
  - rewrite bool_decide_false // short_cluster_cons //.
  - rewrite bool_decide_false // Hp. destruct (short_cluster arg) as [cluster|] eqn:Hc.
    + rewrite (short_cluster_dash arg cluster) // (flag_arg_width_tokens _ _ _ cluster) //.
      destruct (cluster_tokens _ cluster (head rest)) as [ts two]. simpl.
      destruct two; [|done]. destruct rest as [|x rest]; [done|]. by apply (Hrest x).
    + unfold flag_arg_width. rewrite Hc. by destruct (starts_dash arg).
Qed.

(** C39: the scanners of a tmux command line, each of which walks over the arguments with rules
    of its own, all read the line as one tokenizer does: clusters of short flags taken apart,
    and each flag that takes a value taking the rest of its cluster or the next argument.
    [-t] is the last one before the first word, [-F] the first one, a flag of one byte or a
    filter is found wherever it is, and a path or command is the first word. *)
Theorem scanners_read_tokens args extra c :
  c ≠ 0x2d →
  parse_target_with_value_flags args extra =
    last_target (values_of (flag_char "t") (leading (tokens (λ c, short_flag_takes_value c extra []) args))) None ∧
  parse_format args = from_option id None (head (values_of (flag_char "F") (tokens V0 args))) ∧
  (c < 0x80 → has_flag args [0x2d; c] = negb (bool_decide (values_of c (tokens V0 args) = []))) ∧
  reject_filter args = (if bool_decide (values_of (flag_char "f") (tokens V0 args) = []) then Ok tt else Err FiltersUnsupported) ∧
  buffer_path_arg args = first_word (tokens Vb args) ∧
  parse_command_filter args = first_word (tokens V0 args).
Proof.
  intros Hc. split_and!; [apply parse_target_tokens|apply parse_format_tokens|by apply has_flag_tokens|
    apply reject_filter_tokens|apply buffer_path_tokens|apply command_filter_tokens].
Qed.
