(* ===== verification/TmuxCommands.v ===== *)
(** The command lines of the tmux commands ([tmux_compat.rs]): each parser keeps the locals of
    its source function in a record, and walks over the arguments with the scanners of
    TmuxArgs.v.  The effects of a command after its line is parsed are those of the daemon's
    requests and are not modelled here. *)
From S2P Require Import Prelude Utf8 Protocol Text Base64 TmuxArgs.

(** ** Targets *)

Definition split_colon (s : str) : option (str * str) := split_once (lit ":") s.

Definition tmux_window_target_session (target : str) : option str :=
  '(session, window) ← split_colon target;
  if bool_decide (session = []) then None else if bool_decide (window = lit "0") then Some session else None.

Definition reject_unsupported_tmux_window_target (target : str) : result TmuxError unit :=
  match split_colon target with
  | None => Ok tt
  | Some (session, window) =>
    if negb (bool_decide (session = [])) && bool_decide (window = lit "0") then Ok tt else Err UnsupportedTarget
  end.

Definition normalize_tmux_target (target : str) : result TmuxError str :=
  reject_unsupported_tmux_window_target target ;; Ok (default target (tmux_window_target_session target)).

(** ** Numbers *)

(** [str::parse::<i32>]. *)
Definition parse_i32 (s : str) : option Z :=
  match s with
  | 0x2d :: digits => if starts_with_char 0x2b digits then None else Z.opp <$> parse_unsigned 2147483648 digits
  | _ => parse_unsigned 2147483647 s
  end.

Definition parse_capture_line_value (flag : char) (value : option str) : result TmuxError (option Z) :=
  match value with
  | None => Err (MissingValue flag)
  | Some value =>
    if bool_decide (value = lit "-") then Ok None
    else if (flag =? flag_char "S") && bool_decide (to_ascii_lowercase value = lit "top") then Ok (Some 0)
    else Some <$> ok_or (parse_i32 value) (InvalidNumber flag)
  end.

Definition parse_send_keys_repeat (value : option str) : result TmuxError Z :=
  value ← value_for_option value (flag_char "N");
  repeat ← ok_or (parse_unsigned usize_max value) (InvalidNumber (flag_char "N"));
  bail_if (repeat =? 0) ZeroNumber ;; Ok repeat.

Definition parse_resize_dimension (flag : char) (value : option str) : result TmuxError Z :=
  value ← value_for_option value flag;
  dimension ← ok_or (parse_unsigned u16_max value) (InvalidNumber flag);
  bail_if (dimension =? 0) ZeroNumber ;; Ok dimension.

(** ** new-session and new-window *)

Record NewArgs : Set := {
  na_detached : bool; na_print : bool; na_format : str; na_target : option str; na_name : option str; na_cwd : option str;
  na_command : list str }.

Definition new_session_args : NewArgs := {|
  na_detached := false; na_print := false; na_format := lit "#{pane_id}"; na_target := None; na_name := None; na_cwd := None;
  na_command := [] |}.
Definition new_window_args : NewArgs := {|
  na_detached := false; na_print := false; na_format := lit "#{session_name}:#{window_index}"; na_target := None; na_name := None;
  na_cwd := None; na_command := [] |}.

Definition set_na (a : NewArgs) (detached print : bool) (format : str) (target name cwd : option str) (command : list str) : NewArgs := {|
  na_detached := detached; na_print := print; na_format := format; na_target := target; na_name := name; na_cwd := cwd;
  na_command := command |}.

Definition na_set_detached (a : NewArgs) : NewArgs :=
  set_na a true (na_print a) (na_format a) (na_target a) (na_name a) (na_cwd a) (na_command a).
Definition na_set_print (a : NewArgs) : NewArgs :=
  set_na a (na_detached a) true (na_format a) (na_target a) (na_name a) (na_cwd a) (na_command a).
Definition na_set_format (a : NewArgs) (v : str) : NewArgs :=
  set_na a (na_detached a) (na_print a) v (na_target a) (na_name a) (na_cwd a) (na_command a).
Definition na_set_target (a : NewArgs) (v : str) : NewArgs :=
  set_na a (na_detached a) (na_print a) (na_format a) (Some v) (na_name a) (na_cwd a) (na_command a).
Definition na_set_name (a : NewArgs) (v : str) : NewArgs :=
  set_na a (na_detached a) (na_print a) (na_format a) (na_target a) (Some v) (na_cwd a) (na_command a).
Definition na_set_cwd (a : NewArgs) (v : str) : NewArgs :=
  set_na a (na_detached a) (na_print a) (na_format a) (na_target a) (na_name a) (Some v) (na_command a).
Definition na_set_command (a : NewArgs) (command : list str) : NewArgs :=
  set_na a (na_detached a) (na_print a) (na_format a) (na_target a) (na_name a) (na_cwd a) command.

(** The value of a flag of [new-session] and [new-window]. *)
Definition na_set_value (flag : char) (value : option str) (a : NewArgs) : result TmuxError NewArgs :=
  if flag =? flag_char "F" then na_set_format a <$> value_for_option value flag
  else if flag =? flag_char "t" then na_set_target a <$> target_value value
  else if flag =? flag_char "c" then na_set_cwd a <$> value_for_option value flag
  else na_set_name a <$> value_for_option value flag.

Definition cluster_value (rest : str) (next : option str) : option str * bool :=
  match rest with [] => (next, true) | _ => (Some (strip_equals rest), false) end.

Fixpoint new_session_cluster (cluster : str) (next : option str) (a : NewArgs) : result TmuxError (NewArgs * bool) :=
  match cluster with
  | [] => Ok (a, false)
  | flag :: rest =>
    if flag =? flag_char "d" then new_session_cluster rest next (na_set_detached a)
    else if flag =? flag_char "P" then new_session_cluster rest next (na_set_print a)
    else if in_flags (lit "Fsc") flag then
      let '(value, consumed_next) := cluster_value rest next in
      a ← na_set_value flag value a; Ok (a, consumed_next)
    else if is_value_taking_short_flag flag then Ok (a, bool_decide (rest = []) && is_some next)
    else new_session_cluster rest next a
  end.

Definition parse_new_session_short_flags (flag : str) (next : option str) (a : NewArgs) : result TmuxError (NewArgs * bool) :=
  match short_cluster flag with
  | None => Ok (a, false)
  | Some cluster => new_session_cluster cluster next a
  end.

(** A result of a step that says how many arguments it took. *)
Definition step_took {St} (r : result TmuxError (St * bool)) : arg_step (result TmuxError St) :=
  match r with Ok (s, two) => Next (Ok s) two | Err e => Stop (Err e) end.

Definition new_session_step (arg : str) (rest : list str) (s : result TmuxError NewArgs) : arg_step (result TmuxError NewArgs) :=
  match s with
  | Err e => Stop (Err e)
  | Ok a =>
    let next := head rest in
    if bool_decide (arg = lit "-d") then Next (Ok (na_set_detached a)) false
    else if bool_decide (arg = lit "-P") then Next (Ok (na_set_print a)) false
    else if bool_decide (arg = lit "-F") then step_ok (na_set_value (flag_char "F") next a) true
    else if bool_decide (arg = lit "-s") then step_ok (na_set_value (flag_char "s") next a) true
    else if bool_decide (arg = lit "-c") then step_ok (na_set_value (flag_char "c") next a) true
    else if bool_decide (arg = DASH_DASH) then Stop (Ok (na_set_command a rest))
    else if starts_dash arg then step_took (parse_new_session_short_flags arg next a)
    else Stop (Ok (na_set_command a (arg :: rest)))
  end.

Definition parse_new_session_args (args : list str) : result TmuxError NewArgs :=
  args_loop new_session_step args (Ok new_session_args).

Fixpoint new_window_cluster (cluster : str) (next : option str) (a : NewArgs) : result TmuxError (NewArgs * bool) :=
  match cluster with
  | [] => Ok (a, false)
  | flag :: rest =>
    if flag =? flag_char "d" then new_window_cluster rest next (na_set_detached a)
    else if flag =? flag_char "P" then new_window_cluster rest next (na_set_print a)
    else if in_flags (lit "abkS") flag then new_window_cluster rest next a
    else if in_flags (lit "Ftnc") flag then
      let '(value, consumed_next) := cluster_value rest next in
      a ← na_set_value flag value a; Ok (a, consumed_next)
    else Err (UnsupportedFlag [flag])
  end.

Definition parse_new_window_short_flags (flag : str) (next : option str) (a : NewArgs) : result TmuxError (NewArgs * bool) :=
  match short_cluster flag with
  | None => Err (UnsupportedFlag flag)
  | Some cluster => new_window_cluster cluster next a
  end.

Definition new_window_step (arg : str) (rest : list str) (s : result TmuxError NewArgs) : arg_step (result TmuxError NewArgs) :=
  match s with
  | Err e => Stop (Err e)
  | Ok a =>
    let next := head rest in
    if bool_decide (arg = lit "-d") then Next (Ok (na_set_detached a)) false
    else if bool_decide (arg = lit "-P") then Next (Ok (na_set_print a)) false
    else if bool_decide (arg = lit "-F") then step_ok (na_set_value (flag_char "F") next a) true
    else if bool_decide (arg = lit "-t") then step_ok (na_set_value (flag_char "t") next a) true
    else if bool_decide (arg = lit "-n") then step_ok (na_set_value (flag_char "n") next a) true
    else if bool_decide (arg = lit "-c") then step_ok (na_set_value (flag_char "c") next a) true
    else if bool_decide (arg = DASH_DASH) then Stop (Ok (na_set_command a rest))
    else if starts_dash arg then step_took (parse_new_window_short_flags arg next a)
    else Stop (Ok (na_set_command a (arg :: rest)))
  end.

(** The line of [new_window], up to its check that the window is detached. *)
Definition parse_new_window_args (args : list str) : result TmuxError NewArgs :=
  a ← args_loop new_window_step args (Ok new_window_args);
  bail_if (negb (na_detached a)) NotDetached ;; Ok a.

(** ** capture-pane *)

Record CapturePaneArgs : Set := { cp_target : option str; cp_print : bool; cp_start : option Z; cp_end : option Z }.
Definition CapturePaneArgs_default : CapturePaneArgs := {| cp_target := None; cp_print := false; cp_start := None; cp_end := None |}.
Definition CAPTURE_VALUE_FLAGS : str := lit "SEbt".

Definition cp_set_target (a : CapturePaneArgs) (v : str) : CapturePaneArgs :=
  {| cp_target := Some v; cp_print := cp_print a; cp_start := cp_start a; cp_end := cp_end a |}.
Definition cp_set_print (a : CapturePaneArgs) : CapturePaneArgs :=
  {| cp_target := cp_target a; cp_print := true; cp_start := cp_start a; cp_end := cp_end a |}.
Definition cp_set_start (a : CapturePaneArgs) (v : option Z) : CapturePaneArgs :=
  {| cp_target := cp_target a; cp_print := cp_print a; cp_start := v; cp_end := cp_end a |}.
Definition cp_set_end (a : CapturePaneArgs) (v : option Z) : CapturePaneArgs :=
  {| cp_target := cp_target a; cp_print := cp_print a; cp_start := cp_start a; cp_end := v |}.

(** The branch of a cluster, or of a flag with its value attached. *)
Definition capture_cluster (flag : str) (next : option str) (a : CapturePaneArgs) : result TmuxError CapturePaneArgs :=
  a ← match strip_str (lit "-t=") flag with
      | Some value => cp_set_target a <$> target_value (Some value)
      | None =>
        if is_prefix (lit "-t") flag && (2 <? length flag)%nat then cp_set_target a <$> target_value (Some (drop 2 flag))
        else match short_cluster_flag_value flag (flag_char "t") next CAPTURE_VALUE_FLAGS [] with
        | Some (_, Some value) => cp_set_target a <$> target_value (Some value)
        | Some (_, None) => cp_set_target a <$> target_value next
        | None => Ok a
        end
      end;
  let a := if has_flag_in_arg flag (flag_char "p") CAPTURE_VALUE_FLAGS [] then cp_set_print a else a in
  a ← match short_cluster_flag_value flag (flag_char "S") next CAPTURE_VALUE_FLAGS [] with
      | Some (_, value) => cp_set_start a <$> parse_capture_line_value (flag_char "S") value
      | None => Ok a
      end;
  match short_cluster_flag_value flag (flag_char "E") next CAPTURE_VALUE_FLAGS [] with
  | Some (_, value) => cp_set_end a <$> parse_capture_line_value (flag_char "E") value
  | None => Ok a
  end.

Definition capture_pane_step (arg : str) (rest : list str) (s : result TmuxError CapturePaneArgs)
    : arg_step (result TmuxError CapturePaneArgs) :=
  match s with
  | Err e => Stop (Err e)
  | Ok a =>
    let next := head rest in
    if bool_decide (arg = DASH_DASH) then Stop s
    else if bool_decide (arg = lit "-p") then Next (Ok (cp_set_print a)) false
    else if bool_decide (arg = lit "-t") then step_ok (cp_set_target a <$> target_value next) true
    else if bool_decide (arg = lit "-S") then step_ok (cp_set_start a <$> parse_capture_line_value (flag_char "S") next) true
    else if bool_decide (arg = lit "-E") then step_ok (cp_set_end a <$> parse_capture_line_value (flag_char "E") next) true
    else if bool_decide (arg = lit "-b") then Next s true
    else if bool_decide (arg = lit "-e") || bool_decide (arg = lit "-J") then Next s false
    else if starts_dash arg then
      step_ok (capture_cluster arg next a) (flag_arg_width arg next CAPTURE_VALUE_FLAGS [])
    else Next s false
  end.

Definition parse_capture_pane_args (args : list str) : result TmuxError CapturePaneArgs :=
  args_loop capture_pane_step args (Ok CapturePaneArgs_default).

(** ** send-keys *)

Record SendKeysArgs : Set := { sk_target : option str; sk_literal : bool; sk_repeat : Z; sk_keys : list str }.

Definition send_keys_step (arg : str) (rest : list str) (s : result TmuxError SendKeysArgs) : arg_step (result TmuxError SendKeysArgs) :=
  match s with
  | Err e => Stop (Err e)
  | Ok a =>
    let next := head rest in
    let with_repeat r := {| sk_target := sk_target a; sk_literal := sk_literal a; sk_repeat := r; sk_keys := sk_keys a |} in
    let with_keys k := {| sk_target := sk_target a; sk_literal := sk_literal a; sk_repeat := sk_repeat a; sk_keys := k |} in
    if bool_decide (arg = lit "-t") then Next s true
    else if bool_decide (arg = lit "-l") then
      Next (Ok {| sk_target := sk_target a; sk_literal := true; sk_repeat := sk_repeat a; sk_keys := sk_keys a |}) false
    else if bool_decide (arg = lit "-N") then step_ok (with_repeat <$> parse_send_keys_repeat next) true
    else if bool_decide (arg = DASH_DASH) then Stop (Ok (with_keys rest))
    else if starts_dash arg then
      step_ok (match short_cluster_flag_value arg (flag_char "N") next (lit "N") [] with
               | Some (_, value) => with_repeat <$> parse_send_keys_repeat (match value with Some v => Some v | None => next end)
               | None => Ok a
               end) (flag_arg_width arg next (lit "N") [])
    else Stop (Ok (with_keys (arg :: rest)))
  end.

Definition parse_send_keys_args (args : list str) : result TmuxError SendKeysArgs :=
  target ← parse_target_with_value_flags args (lit "N");
  args_loop send_keys_step args (Ok {| sk_target := target; sk_literal := false; sk_repeat := 1; sk_keys := [] |}).

Definition control_key_byte (key : str) : option Z :=
  suffix ← strip_str (lit "C-") key;
  match suffix with
  | [c] =>
    if (c =? flag_char "@") || (c =? 0x20) then Some 0x00
    else if c =? 0x5b then Some 0x1b else if c =? 0x5c then Some 0x1c else if c =? 0x5d then Some 0x1d
    else if c =? 0x5e then Some 0x1e else if c =? 0x5f then Some 0x1f else if c =? 0x3f then Some 0x7f
    else if is_ascii_alphabetic c then Some (Z.land (ascii_upper c) 0x1f) else None
  | _ => None
  end.

Definition any_of (names : list string) (key : str) : bool := existsb (λ n, bool_decide (key = lit n)) names.

Definition key_bytes (key : str) : list byte :=
  if any_of ["C-m"; "Enter"; "enter"; "Return"]%string key then [0x0d]
  else if any_of ["C-j"]%string key then [0x0a]
  else if any_of ["C-c"]%string key then [0x03]
  else if any_of ["C-d"]%string key then [0x04]
  else if any_of ["C-z"]%string key then [0x1a]
  else if any_of ["Tab"; "tab"]%string key then [0x09]
  else if any_of ["Space"; "space"]%string key then [0x20]
  else if any_of ["Escape"; "Esc"; "escape"]%string key then [0x1b]
  else if any_of ["BSpace"; "Backspace"; "backspace"]%string key then [0x7f]
  else if any_of ["Up"; "up"]%string key then 0x1b :: lit "[A"
  else if any_of ["Down"; "down"]%string key then 0x1b :: lit "[B"
  else if any_of ["Right"; "right"]%string key then 0x1b :: lit "[C"
  else if any_of ["Left"; "left"]%string key then 0x1b :: lit "[D"
  else match control_key_byte key with Some b => [b] | None => utf8 key end.

Definition keys_to_bytes (keys : list str) (literal : bool) : list byte :=
  if literal then utf8 (mjoin keys) else mjoin (key_bytes <$> keys).

Definition repeated_send_payload (bytes : list byte) (repeat : Z) : result TmuxError (list byte) :=
  if bool_decide (bytes = []) then Ok []
  else
    let total := Z.of_nat (length bytes) * repeat in
    bail_if (usize_max <? total) TooLarge ;;
    bail_if (MAX_SEND_DATA_BYTES <? total) TooLarge ;;
    Ok (mjoin (replicate (Z.to_nat repeat) bytes)).

(** The bytes that [send_keys] sends, and where. *)
Definition send_keys (args : list str) (default_target : str) : result TmuxError (str * list byte) :=
  a ← parse_send_keys_args args;
  target ← normalize_tmux_target (default default_target (sk_target a));
  bytes ← repeated_send_payload (keys_to_bytes (sk_keys a) (sk_literal a)) (sk_repeat a);
  Ok (target, bytes).

(** ** resize-pane *)

Definition resize_pane_step (arg : str) (rest : list str) (s : result TmuxError (option Z * option Z))
    : arg_step (result TmuxError (option Z * option Z)) :=
  match s with
  | Err e => Stop (Err e)
  | Ok (rows, cols) =>
    let next := head rest in
    let or_next value := match value with Some v => Some v | None => next end in
    (* [width_for_value_flag] *)
    let width pos := match short_cluster arg with Some cluster => bool_decide (drop (S pos) cluster = []) && is_some next | None => false end in
    if bool_decide (arg = DASH_DASH) then Stop s
    else match short_cluster_flag_value arg (flag_char "x") next [] [] with
    | Some (pos, value) => step_ok ((λ cols, (rows, Some cols)) <$> parse_resize_dimension (flag_char "x") (or_next value)) (width pos)
    | None =>
      match short_cluster_flag_value arg (flag_char "y") next [] [] with
      | Some (pos, value) => step_ok ((λ rows, (Some rows, cols)) <$> parse_resize_dimension (flag_char "y") (or_next value)) (width pos)
      | None => Next s (starts_dash arg && flag_arg_width arg next [] [])
      end
    end
  end.

Definition parse_resize_args (args : list str) : result TmuxError (option Z * option Z) :=
  args_loop resize_pane_step args (Ok (None, None)).

(** ** display-message *)

Record DisplayArgs : Set := { da_print : bool; da_target : option str; da_message : option str }.

Definition da_set_print (a : DisplayArgs) : DisplayArgs := {| da_print := true; da_target := da_target a; da_message := da_message a |}.
Definition da_set_target (a : DisplayArgs) (v : str) : DisplayArgs := {| da_print := da_print a; da_target := Some v; da_message := da_message a |}.
Definition da_set_message (a : DisplayArgs) (v : str) : DisplayArgs := {| da_print := da_print a; da_target := da_target a; da_message := Some v |}.

Definition or_next (value next : option str) : option str := match value with Some v => Some v | None => next end.

Definition display_cluster (flag : str) (next : option str) (a : DisplayArgs) : result TmuxError DisplayArgs :=
  let a := if has_flag_in_arg flag (flag_char "p") [] [] then da_set_print a else a in
  a ← match short_cluster_flag_value flag (flag_char "t") next [] [] with
      | Some (_, value) => da_set_target a <$> target_value (or_next value next)
      | None => Ok a
      end;
  match short_cluster_flag_value flag (flag_char "F") next [] [] with
  | Some (_, value) => da_set_message a <$> value_for_option (or_next value next) (flag_char "F")
  | None => Ok a
  end.

Definition display_message_step (arg : str) (rest : list str) (s : result TmuxError DisplayArgs) : arg_step (result TmuxError DisplayArgs) :=
  match s with
  | Err e => Stop (Err e)
  | Ok a =>
    let next := head rest in
    if bool_decide (arg = lit "-p") then Next (Ok (da_set_print a)) false
    else if bool_decide (arg = lit "-t") then step_ok (da_set_target a <$> target_value next) true
    else if bool_decide (arg = lit "-F") then step_ok (da_set_message a <$> value_for_option next (flag_char "F")) true
    else if bool_decide (arg = DASH_DASH) then Stop (Ok (da_set_message a (join [0x20] rest)))
    else if starts_dash arg then step_ok (display_cluster arg next a) (flag_arg_width arg next [] [])
    else Stop (Ok (da_set_message a (join [0x20] (arg :: rest))))
  end.

Definition parse_display_args (args : list str) : result TmuxError DisplayArgs :=
  args_loop display_message_step args (Ok {| da_print := false; da_target := None; da_message := None |}).

(** ** rename-session *)

Definition rename_session_step (arg : str) (rest : list str) (s : result TmuxError (option str * option str))
    : arg_step (result TmuxError (option str * option str)) :=
  match s with
  | Err e => Stop (Err e)
  | Ok (target, name) =>
    let with_target value := (λ t, (Some t, name)) <$> target_value value in
    if bool_decide (arg = lit "-t") then step_ok (with_target (head rest)) true
    else if bool_decide (arg = DASH_DASH) then
      if (1 <? length rest)%nat || (length rest =? 1)%nat && is_some name then Stop (Err OneName)
      else Stop (Ok (target, match rest with value :: _ => Some value | [] => name end))
    else match strip_str (lit "-t=") arg with
    | Some value => step_ok (with_target (Some value)) false
    | None =>
      if is_prefix (lit "-t") arg && (2 <? length arg)%nat then step_ok (with_target (Some (drop 2 arg))) false
      else if starts_dash arg then Stop (Err (UnsupportedFlag arg))
      else if is_some name then Stop (Err OneName) else Next (Ok (target, Some arg)) false
    end
  end.

Definition rename_session (args : list str) (default_target : str) : result TmuxError (str * str) :=
  '(target, name) ← args_loop rename_session_step args (Ok (None, None));
  name ← ok_or name NameMissing;
  Ok (default default_target target, name).

(** ** split-window *)

Definition SPLIT_VALUE_FLAGS : str := lit "elp".
Definition SPLIT_BOOLEAN_OVERRIDES : str := lit "f".

Record SplitArgs : Set := {
  sw_horizontal : bool; sw_backward : bool; sw_print : bool; sw_detached : bool;
  sw_format : str; sw_target : option str; sw_cwd : option str; sw_command : list str; sw_env : gmap str str }.

Definition split_args : SplitArgs := {|
  sw_horizontal := true; sw_backward := false; sw_print := false; sw_detached := false;
  sw_format := lit "#{pane_id}"; sw_target := None; sw_cwd := None; sw_command := []; sw_env := ∅ |}.

Definition sw_flags (a : SplitArgs) (horizontal backward print detached : bool) : SplitArgs := {|
  sw_horizontal := horizontal; sw_backward := backward; sw_print := print; sw_detached := detached;
  sw_format := sw_format a; sw_target := sw_target a; sw_cwd := sw_cwd a; sw_command := sw_command a; sw_env := sw_env a |}.
Definition sw_values (a : SplitArgs) (format : str) (target cwd : option str) (env : gmap str str) : SplitArgs := {|
  sw_horizontal := sw_horizontal a; sw_backward := sw_backward a; sw_print := sw_print a; sw_detached := sw_detached a;
  sw_format := format; sw_target := target; sw_cwd := cwd; sw_command := sw_command a; sw_env := env |}.
Definition sw_set_command (a : SplitArgs) (command : list str) : SplitArgs := {|
  sw_horizontal := sw_horizontal a; sw_backward := sw_backward a; sw_print := sw_print a; sw_detached := sw_detached a;
  sw_format := sw_format a; sw_target := sw_target a; sw_cwd := sw_cwd a; sw_command := command; sw_env := sw_env a |}.

Definition parse_split_window_env_assignment (assignment : str) (env : gmap str str) : result TmuxError (gmap str str) :=
  '(key, value) ← ok_or (split_once (lit "=") assignment) EnvAssignment;
  bail_if (bool_decide (key = [])) EnvAssignment ;; Ok (<[key := value]> env).

(** One boolean flag: the letter, and what it sets. *)
Definition sw_set_flag (flag : char) (a : SplitArgs) : SplitArgs :=
  if flag =? flag_char "h" then sw_flags a true (sw_backward a) (sw_print a) (sw_detached a)
  else if flag =? flag_char "v" then sw_flags a false (sw_backward a) (sw_print a) (sw_detached a)
  else if flag =? flag_char "b" then sw_flags a (sw_horizontal a) true (sw_print a) (sw_detached a)
  else if flag =? flag_char "d" then sw_flags a (sw_horizontal a) (sw_backward a) (sw_print a) true
  else sw_flags a (sw_horizontal a) (sw_backward a) true (sw_detached a).

Definition sw_set_value (flag : char) (value : option str) (a : SplitArgs) : result TmuxError SplitArgs :=
  if flag =? flag_char "F" then (λ v, sw_values a v (sw_target a) (sw_cwd a) (sw_env a)) <$> value_for_option value flag
  else if flag =? flag_char "t" then (λ v, sw_values a (sw_format a) (Some v) (sw_cwd a) (sw_env a)) <$> target_value value
  else if flag =? flag_char "c" then (λ v, sw_values a (sw_format a) (sw_target a) (Some v) (sw_env a)) <$> value_for_option value flag
  else
    v ← value_for_option value flag;
    env ← parse_split_window_env_assignment v (sw_env a);
    Ok (sw_values a (sw_format a) (sw_target a) (sw_cwd a) env).

(** The branch of a cluster looks for each flag in turn. *)
Definition split_cluster_flag (arg : str) (a : SplitArgs) (flag : char) : SplitArgs :=
  if has_flag_in_arg arg flag SPLIT_VALUE_FLAGS SPLIT_BOOLEAN_OVERRIDES then sw_set_flag flag a else a.

Definition split_cluster_value (arg : str) (next : option str) (a : result TmuxError SplitArgs) (flag : char) : result TmuxError SplitArgs :=
  a ← a;
  match short_cluster_flag_value arg flag next SPLIT_VALUE_FLAGS SPLIT_BOOLEAN_OVERRIDES with
  | Some (_, value) => sw_set_value flag (or_next value next) a
  | None => Ok a
  end.

Definition split_cluster (arg : str) (next : option str) (a : SplitArgs) : result TmuxError SplitArgs :=
  foldl (split_cluster_value arg next) (Ok (foldl (split_cluster_flag arg) a (lit "hvbdP"))) (lit "Ftce").

Definition split_window_step (arg : str) (rest : list str) (s : result TmuxError SplitArgs) : arg_step (result TmuxError SplitArgs) :=
  match s with
  | Err e => Stop (Err e)
  | Ok a =>
    let next := head rest in
    match arg with
    | [0x2d; c] =>
      if in_flags (lit "hvbdP") c then Next (Ok (sw_set_flag c a)) false
      else if in_flags (lit "Ftce") c then step_ok (sw_set_value c next a) true
      else if c =? 0x2d then Stop (Ok (sw_set_command a rest))
      else step_ok (split_cluster arg next a) (flag_arg_width arg next SPLIT_VALUE_FLAGS SPLIT_BOOLEAN_OVERRIDES)
    | _ =>
      if starts_dash arg then
        step_ok (split_cluster arg next a) (flag_arg_width arg next SPLIT_VALUE_FLAGS SPLIT_BOOLEAN_OVERRIDES)
      else Stop (Ok (sw_set_command a (arg :: rest)))
    end
  end.

Definition contains_str (needle s : str) : bool := is_some (split_once needle s).

(** Whether the command or its environment marks it as a helper of the HUD. *)
Definition is_omx_hud_watch_command (command : option str) (pane_env : gmap str str) : bool :=
  match command with
  | None => false
  | Some command =>
    let has_owner_env := is_some_and (pane_env !! lit "OMX_TMUX_HUD_OWNER") (λ value, bool_decide (trim value = lit "1")) in
    let has_owner_command :=
      contains_str (lit "OMX_TMUX_HUD_OWNER=1") command || contains_str (lit "OMX_TMUX_HUD_OWNER='1'") command
      || contains_str (lit "OMX_TMUX_HUD_OWNER=" ++ [0x22] ++ lit "1" ++ [0x22]) command in
    (has_owner_env || has_owner_command) && contains_str (lit "hud --watch") command
  end.

Definition split_direction (horizontal backward : bool) : str :=
  match horizontal, backward with
  | true, true => lit "left" | true, false => lit "right" | false, true => lit "up" | false, false => lit "down"
  end.

(** [shell_join] joins the words of a command with the quoting of the [shlex] crate. *)
Definition tmux_shell_command (shell_join : list str → result TmuxError str) (args : list str) : result TmuxError (option str) :=
  match args with
  | [] => Ok None
  | [arg] => Ok (Some arg)
  | _ => Some <$> shell_join args
  end.

(** What [split_window] has decided before it asks the daemon for anything: the arguments with
    [detached] as it stands then, the shell command, and the direction of a visible split. *)
Definition plan_split_window (shell_join : list str → result TmuxError str) (args : list str)
    : result TmuxError (SplitArgs * option str * str) :=
  a ← args_loop split_window_step args (Ok split_args);
  command ← tmux_shell_command shell_join (sw_command a);
  let a := if is_omx_hud_watch_command command (sw_env a)
           then sw_flags a (sw_horizontal a) (sw_backward a) (sw_print a) true else a in
  match sw_target a with
  | Some target => reject_unsupported_tmux_window_target target ;; bail_if (negb (sw_detached a)) UnsupportedTarget
  | None => Ok tt
  end ;;
  Ok (a, command, split_direction (sw_horizontal a) (sw_backward a)).
