(* ===== verification/TmuxReading.v ===== *)
(** The parsers of the tmux commands read their line as the tokenizer of TmuxArgs.v does: each
    option sets its field, in order, and the words that follow are the command. *)
From S2P Require Import Prelude Utf8 Protocol Text TmuxArgs TmuxCommands.

(** Decides a test of a flag against letters. *)
Ltac eval_lits :=
  repeat match goal with
  | |- context [flag_char ?s] => let x := eval vm_compute in (flag_char s) in change (flag_char s) with x
  | H : context [flag_char ?s] |- _ => let x := eval vm_compute in (flag_char s) in change (flag_char s) with x in H
  | |- context [lit ?s] => let x := eval vm_compute in (lit s) in change (lit s) with x
  | H : context [lit ?s] |- _ => let x := eval vm_compute in (lit s) in change (lit s) with x in H
  end.
Ltac flag_cases :=
  unfold short_flag_takes_value, is_value_taking_short_flag, in_flags in *; eval_lits; cbn [existsb] in *; lia.

(** ** new-session *)

Definition session_takes (c : char) : bool := short_flag_takes_value c (lit "s") [].

(** What an option of [new-session] sets; other options are accepted and do nothing. *)
Definition session_option (flag : char) (value : option str) (a : NewArgs) : result TmuxError NewArgs :=
  if flag =? flag_char "d" then Ok (na_set_detached a)
  else if flag =? flag_char "P" then Ok (na_set_print a)
  else if in_flags (lit "Fsc") flag then na_set_value flag value a
  else Ok a.

Lemma missing_value flag a : flag_char "t" ≠ flag → na_set_value flag None a = Err (MissingValue flag).
Proof.
  intros Ht. unfold na_set_value. destruct (flag =? flag_char "F"); [done|].
  destruct (flag =? flag_char "t") eqn:E; [lia|]. by destruct (flag =? flag_char "c").
Qed.

Lemma session_cluster_tokens cluster next a :
  new_session_cluster cluster next a =
  (λ a, (a, (cluster_tokens session_takes cluster next).2)) <$>
    read_options session_option (λ _, Ok) (cluster_tokens session_takes cluster next).1 a.
Proof.
  revert a. induction cluster as [|flag rest IH]; intros a; [done|]. cbn [new_session_cluster cluster_tokens].
  destruct (flag =? flag_char "d") eqn:Ed; [assert (flag = flag_char "d") as -> by lia|
   destruct (flag =? flag_char "P") eqn:Ep; [assert (flag = flag_char "P") as -> by lia|]].
  1,2: replace (session_takes _) with false by done; rewrite IH;
       by destruct (cluster_tokens session_takes rest next).
  destruct (session_takes flag) eqn:Ht; unfold session_takes in Ht.
  - destruct (in_flags (lit "Fsc") flag) eqn:Ef.
    + assert (flag_char "t" ≠ flag) by flag_cases.
      destruct rest; cbn; unfold session_option; rewrite Ed Ep Ef; [destruct next|]; rewrite ?missing_value //;
        by destruct (na_set_value flag _ a).
    + replace (is_value_taking_short_flag flag) with true by flag_cases.
      destruct rest; cbn; unfold session_option; rewrite Ed Ep Ef //.
  - replace (in_flags (lit "Fsc") flag) with false by flag_cases.
    replace (is_value_taking_short_flag flag) with false by flag_cases. rewrite IH.
    destruct (cluster_tokens session_takes rest next). cbn. unfold session_option.
    rewrite Ed Ep. by replace (in_flags (lit "Fsc") flag) with false by flag_cases.
Qed.

(** A step on a cluster, told by its tokens. *)
Lemma took_read {A} (r : result TmuxError A) two : step_took ((λ a, (a, two)) <$> r) = step_ok r two.
Proof. by destruct r. Qed.

Lemma new_session_step_tokens arg rest a :
  new_session_step arg rest (Ok a) =
  token_body session_takes (λ ts two s, step_read s (read_options session_option (λ _, Ok) ts) two)
    (λ p s, step_read s (λ a, Ok a) false) (λ w rest s, Stop (flip na_set_command (w :: rest) <$> s))
    (λ rest s, Stop (flip na_set_command rest <$> s)) arg rest (Ok a).
Proof.
  unfold new_session_step, token_body. cbv zeta.
  case_bool_decide as H1; [by subst arg|]. case_bool_decide as H2; [by subst arg|].
  case_bool_decide as H3; [subst arg; by destruct rest|]. case_bool_decide as H4; [subst arg; by destruct rest|].
  case_bool_decide as H5; [subst arg; by destruct rest|]. case_bool_decide as H6; [done|].
  unfold parse_new_session_short_flags. destruct (short_cluster arg) as [cluster|] eqn:Hc; [|by destruct (starts_dash arg)].
  rewrite (short_cluster_dash arg cluster) // session_cluster_tokens took_read.
  by destruct (cluster_tokens session_takes cluster (head rest)).
Qed.

(** The loops keep an error; a body may thus be compared on good states only. *)
Lemma args_loop_ok {A} (f g : str → list str → result TmuxError A → arg_step (result TmuxError A)) args a :
  (∀ arg rest a, f arg rest (Ok a) = g arg rest (Ok a)) →
  (∀ arg rest a, match f arg rest (Ok a) with Next (Err _) _ => False | _ => True end) →
  args_loop f args (Ok a) = args_loop g args (Ok a).
Proof.
  intros Hfg Hok. revert a. induction args as [|arg rest IH Hrest] using args_ind; intros a; simpl; [done|].
  specialize (Hok arg rest a). rewrite -Hfg. destruct (f arg rest (Ok a)) as [[b|e] two|s']; [|done..].
  destruct two; [|by apply IH]. destruct rest as [|x rest']; [done|]. by eapply Hrest.
Qed.

Lemma new_session_reads args :
  parse_new_session_args args =
  let ts := tokens session_takes args in
  a ← read_options session_option (λ _, Ok) ts new_session_args;
  Ok (from_option (na_set_command a) a (operands ts)).
Proof.
  cbv zeta. rewrite -options_loop. apply args_loop_ok; [apply new_session_step_tokens|].
  intros arg rest a. rewrite new_session_step_tokens. unfold token_body, step_read, step_ok.
  case_bool_decide; [done|]. destruct (short_cluster arg); [destruct (cluster_tokens _ _ _)|by destruct (starts_dash arg)].
  by destruct (read_options _ _ _ _).
Qed.

(** ** new-window *)

Definition window_takes (c : char) : bool := in_flags (lit "Ftnc") c.

Definition window_option (flag : char) (value : option str) (a : NewArgs) : result TmuxError NewArgs :=
  if flag =? flag_char "d" then Ok (na_set_detached a)
  else if flag =? flag_char "P" then Ok (na_set_print a)
  else if in_flags (lit "abkS") flag then Ok a
  else if window_takes flag then na_set_value flag value a
  else Err (UnsupportedFlag [flag]).

Lemma missing_value_err flag a : ∃ e, na_set_value flag None a = Err e.
Proof.
  unfold na_set_value. destruct (flag =? flag_char "F"); [eauto|].
  destruct (flag =? flag_char "t"); [eauto|]. destruct (flag =? flag_char "c"); eauto.
Qed.

Lemma window_cluster_tokens cluster next a :
  new_window_cluster cluster next a =
  (λ a, (a, (cluster_tokens window_takes cluster next).2)) <$>
    read_options window_option (λ p _, Err (UnsupportedFlag p)) (cluster_tokens window_takes cluster next).1 a.
Proof.
  revert a. induction cluster as [|flag rest IH]; intros a; [done|]. cbn [new_window_cluster cluster_tokens].
  assert (∀ b, window_takes flag = false → window_option flag None a = b →
    (match b with Ok a => new_window_cluster rest next a | Err e => Err e end) =
    (λ a, (a, (let '(ts, two) := cluster_tokens window_takes rest next in (Opt flag None :: ts, two)).2)) <$>
     read_options window_option (λ p _, Err (UnsupportedFlag p)) (let '(ts, two) := cluster_tokens window_takes rest next in (Opt flag None :: ts, two)).1 a) as Hskip.
  { intros b Hw Hb. destruct b as [a'|e]; [rewrite IH|]; destruct (cluster_tokens window_takes rest next); cbn; by rewrite Hb. }
  destruct (window_takes flag) eqn:Ht.
  - unfold window_takes in Ht. replace (flag =? flag_char "d") with false by flag_cases.
    replace (flag =? flag_char "P") with false by flag_cases. replace (in_flags (lit "abkS") flag) with false by flag_cases.
    rewrite Ht.
    assert (∀ v, window_option flag v a = na_set_value flag v a) as Ho.
    { intros v. unfold window_option, window_takes. rewrite Ht. replace (flag =? flag_char "d") with false by flag_cases.
      replace (flag =? flag_char "P") with false by flag_cases. by replace (in_flags (lit "abkS") flag) with false by flag_cases. }
    destruct rest; cbn; rewrite Ho; [destruct next; [|by destruct (missing_value_err flag a) as [e ->]]|];
      by destruct (na_set_value flag _ a).
  - rewrite -(Hskip _ eq_refl eq_refl). unfold window_option, window_takes in *. rewrite Ht.
    destruct (flag =? flag_char "d"); [done|]. destruct (flag =? flag_char "P"); [done|].
    by destruct (in_flags (lit "abkS") flag).
Qed.

Lemma new_window_step_tokens arg rest a :
  new_window_step arg rest (Ok a) =
  token_body window_takes (λ ts two s, step_read s (read_options window_option (λ p _, Err (UnsupportedFlag p)) ts) two)
    (λ p s, step_read s ((λ p _, Err (UnsupportedFlag p)) p) false) (λ w rest s, Stop (flip na_set_command (w :: rest) <$> s))
    (λ rest s, Stop (flip na_set_command rest <$> s)) arg rest (Ok a).
Proof.
  unfold new_window_step, token_body. cbv zeta.
  case_bool_decide as H1; [by subst arg|]. case_bool_decide as H2; [by subst arg|].
  case_bool_decide as H3; [subst arg; by destruct rest|]. case_bool_decide as H4; [subst arg; by destruct rest as [|[|x w] rest]|].
  case_bool_decide as H5; [subst arg; by destruct rest|]. case_bool_decide as H6; [subst arg; by destruct rest|].
  case_bool_decide as H7; [done|]. unfold parse_new_window_short_flags.
  destruct (short_cluster arg) as [cluster|] eqn:Hc; [|by destruct (starts_dash arg)].
  rewrite (short_cluster_dash arg cluster) // window_cluster_tokens took_read.
  by destruct (cluster_tokens window_takes cluster (head rest)).
Qed.

Lemma new_window_reads args :
  parse_new_window_args args =
  let ts := tokens window_takes args in
  a ← read_options window_option (λ p _, Err (UnsupportedFlag p)) ts new_window_args;
  bail_if (negb (na_detached a)) NotDetached ;; Ok (from_option (na_set_command a) a (operands ts)).
Proof.
  unfold parse_new_window_args. cbv zeta.
  rewrite (args_loop_ok _ _ _ _ new_window_step_tokens).
  { rewrite options_loop. destruct (read_options _ _ _ _) as [a|]; [|done]. cbn.
    by destruct (operands _); cbn; destruct (na_detached a). }
  intros arg rest a. rewrite new_window_step_tokens. unfold token_body, step_read, step_ok.
  case_bool_decide; [done|]. destruct (short_cluster arg); [destruct (cluster_tokens _ _ _)|by destruct (starts_dash arg)].
  by destruct (read_options _ _ _ _).
Qed.
