(* ===== verification/TmuxOptions.v ===== *)
(** The user options of tmux ([set-option @name], [show-option @name], [tmux_compat.rs]): the
    line of the command, the identity an option belongs to, and the store of the options.

    Two functions read the same line: a scan that only decides whether the command is about a
    user option at all, and the strict parser.  The options live in two maps of the store, by
    pane and by root session, with limits on identities, on options of an identity and on all
    options. *)
From S2P Require Import Prelude Utf8 Protocol Text TmuxArgs TmuxCommands.

Definition USER_OPTION_NAME_MAX_BYTES : Z := 128.
Definition USER_OPTION_VALUE_MAX_BYTES : Z := 4096.
Definition USER_OPTIONS_PER_IDENTITY_MAX : nat := 64.
Definition USER_OPTION_IDENTITIES_MAX : nat := 512.
Definition USER_OPTION_ENTRIES_MAX : nat := N.to_nat 4096.

Inductive StoreError : Set :=
  | Line (e : TmuxError) | NoName | TooManyPositional | UnsupportedOptionFlag | InvalidName | ValueTooLong | ValueUnsafe
  | Unavailable | CyclicParents | ParentUnavailable | NoValue | IdentityLimit | EntryLimit | PerIdentityLimit
  | StoreTooLarge | NoQuarantinePath | NoChannel | LockUnsupported | ChannelEmpty | ChannelTooLong | ChannelControl | UnknownOption | IoFailed.
#[global] Instance StoreError_eq : EqDecision StoreError.
Proof. solve_decision. Defined.

(** ** The line *)

Inductive UserOptionCommand : Set := CmdSet | CmdShow.
#[global] Instance UserOptionCommand_eq : EqDecision UserOptionCommand.
Proof. solve_decision. Defined.

Record UserOptionArgs : Set := {
  uo_quiet : bool; uo_value_only : bool; uo_pane : bool; uo_unset : bool; uo_target : option str; uo_name : str;
  uo_value : option str }.

Definition user_option_flag_supported (command : UserOptionCommand) (flag : char) : bool :=
  in_flags (lit "qp") flag
  || match command with CmdSet => flag =? flag_char "u" | CmdShow => flag =? flag_char "v" end.

(** The first flag of a cluster that takes a value, with what is attached to it. *)
Fixpoint scan_value_flag (command : UserOptionCommand) (cluster : str) : option (char * str) :=
  match cluster with
  | [] => None
  | flag :: rest =>
    if (flag =? flag_char "t") || negb (user_option_flag_supported command flag) && is_value_taking_short_flag flag
    then Some (flag, rest) else scan_value_flag command rest
  end.

Definition dash_option (arg : str) : bool := starts_dash arg && negb (bool_decide (arg = lit "-")).
Definition attached_target (arg : str) : bool := is_prefix (lit "-t") arg && (2 <? length arg)%nat.
Definition option_name (arg : str) : option str := if starts_with_char 0x40 arg then Some arg else None.

(** The locals are whether options may still come, and the answer. *)
Definition scan_step (command : UserOptionCommand) (arg : str) (rest : list str) (s : bool * option str)
    : arg_step (bool * option str) :=
  let '(options, _) := s in
  let next := head rest in
  if options && bool_decide (arg = DASH_DASH) then Next (false, None) false
  else if options && bool_decide (arg = lit "-t") then Next s true
  else if options && attached_target arg then Next s false
  else if options && dash_option arg then
    match short_cluster arg with
    | None => Next s false
    | Some cluster =>
      match scan_value_flag command cluster with
      | Some (flag, attached) =>
        if flag =? flag_char "t" then Next s (bool_decide (attached = []) && is_some next)
        else if bool_decide (attached = []) then
          match next with
          | None => Stop (options, None)
          | Some value => if starts_with_char 0x40 value then Stop (options, Some value) else Next s true
          end
        else Next s false
      | None => Next s false
      end
    end
  else Stop (options, option_name arg).

Definition actual_user_option_name (args : list str) (command : UserOptionCommand) : option str :=
  (args_loop (scan_step command) args (true, None)).2.

(** The flags of a cluster of the strict parser. *)
Fixpoint strict_cluster (is_set : bool) (cluster : str) (a : UserOptionArgs) : result StoreError UserOptionArgs :=
  match cluster with
  | [] => Ok a
  | flag :: rest =>
    let set q v p u := {| uo_quiet := q; uo_value_only := v; uo_pane := p; uo_unset := u; uo_target := uo_target a;
                          uo_name := uo_name a; uo_value := uo_value a |} in
    if flag =? flag_char "q" then strict_cluster is_set rest (set true (uo_value_only a) (uo_pane a) (uo_unset a))
    else if flag =? flag_char "p" then strict_cluster is_set rest (set (uo_quiet a) (uo_value_only a) true (uo_unset a))
    else if (flag =? flag_char "u") && is_set then strict_cluster is_set rest (set (uo_quiet a) (uo_value_only a) (uo_pane a) true)
    else if (flag =? flag_char "v") && negb is_set then strict_cluster is_set rest (set (uo_quiet a) true (uo_pane a) (uo_unset a))
    else Err UnsupportedOptionFlag
  end.

Definition uo_set_target (a : UserOptionArgs) (target : str) : UserOptionArgs :=
  {| uo_quiet := uo_quiet a; uo_value_only := uo_value_only a; uo_pane := uo_pane a; uo_unset := uo_unset a;
     uo_target := Some target; uo_name := uo_name a; uo_value := uo_value a |}.

(** The locals of the strict parser: the record, the words, whether options may still come. *)
Definition StrictState : Set := UserOptionArgs * list str * bool.

Definition strict_stop (r : result StoreError StrictState) (two : bool) : arg_step (result StoreError StrictState) :=
  match r with Ok s => Next (Ok s) two | Err e => Stop (Err e) end.

Definition option_value (value : option str) : result StoreError str := ok_or value (Line (MissingValue (flag_char "t"))).

Definition strict_step (is_set : bool) (arg : str) (rest : list str) (s : result StoreError StrictState)
    : arg_step (result StoreError StrictState) :=
  match s with
  | Err e => Stop (Err e)
  | Ok (a, positional, options) =>
    let with_target value := (λ v, (uo_set_target a v, positional, options)) <$> option_value value in
    if options && bool_decide (arg = DASH_DASH) then Next (Ok (a, positional, false)) false
    else if options && bool_decide (arg = lit "-t") then strict_stop (with_target (head rest)) true
    else if options && attached_target arg then strict_stop (with_target (Some (drop 2 arg))) false
    else if options && dash_option arg then
      match short_cluster arg with
      | None => Stop (Err UnsupportedOptionFlag)
      | Some cluster =>
        if in_flags cluster (flag_char "t") then Stop (Err (Line ClusteredTarget))
        else strict_stop ((λ a, (a, positional, options)) <$> strict_cluster is_set cluster a) false
      end
    else Next (Ok (a, positional ++ [arg], false)) false
  end.

Definition no_option_args : UserOptionArgs := {|
  uo_quiet := false; uo_value_only := false; uo_pane := false; uo_unset := false; uo_target := None; uo_name := []; uo_value := None |}.

Definition parse_user_option_args (args : list str) (is_set : bool) : result StoreError UserOptionArgs :=
  '(a, positional, _) ← args_loop (strict_step is_set) args (Ok (no_option_args, [], true));
  let expected := if is_set && negb (uo_unset a) then 2%nat else 1%nat in
  bail_if (negb (bool_decide (length positional = expected))) (Line PositionalCount) ;;
  match positional with
  | [] => Err (Line PositionalCount)
  | name :: rest => Ok {|
      uo_quiet := uo_quiet a; uo_value_only := uo_value_only a; uo_pane := uo_pane a; uo_unset := uo_unset a;
      uo_target := uo_target a; uo_name := name; uo_value := last rest |}
  end.

(** ** Names and values *)

Definition is_control (c : char) : bool := within 0 0x1f c || within 0x7f 0x9f c.

Definition validate_user_option_name (name : str) : result StoreError unit :=
  bail_if (negb (within 2 USER_OPTION_NAME_MAX_BYTES (str_len name)) || negb (starts_with_char 0x40 name)
           || negb (forallb (λ b, is_ascii_alphanumeric b || in_flags (lit "_.:-") b) (utf8 (drop 1 name)))) InvalidName.

Definition UNICODE_FORMAT_RANGES : list (Z * Z) :=
  [(0x00ad, 0x00ad); (0x0600, 0x0605); (0x061c, 0x061c); (0x06dd, 0x06dd); (0x070f, 0x070f); (0x0890, 0x0891); (0x08e2, 0x08e2);
   (0x180e, 0x180e); (0x200b, 0x200f); (0x202a, 0x202e); (0x2060, 0x2064); (0x2066, 0x206f); (0xfeff, 0xfeff); (0xfff9, 0xfffb);
   (0x110bd, 0x110bd); (0x110cd, 0x110cd); (0x13430, 0x1343f); (0x1bca0, 0x1bca3); (0x1d173, 0x1d17a); (0xe0001, 0xe0001);
   (0xe0020, 0xe007f)].

Definition is_unsafe_user_option_char (c : char) : bool :=
  is_control c
  || existsb (λ '(lo, hi), within lo hi c) UNICODE_FORMAT_RANGES
  || in_flags [0x00ad; 0x034f; 0x061c; 0x115f; 0x1160; 0x17b4; 0x17b5; 0x2028; 0x2029; 0x3164; 0xfeff; 0xffa0] c
  || within 0x180b 0x180f c || within 0x200b 0x200f c || within 0x202a 0x202e c || within 0x2060 0x206f c
  || within 0xfe00 0xfe0f c || within 0x1bca0 0x1bca3 c || within 0x1d173 0x1d17a c || within 0xe0000 0xe0fff c.

Definition validate_user_option_value (value : str) : result StoreError unit :=
  bail_if (USER_OPTION_VALUE_MAX_BYTES <? str_len value) ValueTooLong ;;
  bail_if (existsb is_unsafe_user_option_char value) ValueUnsafe.

(** ** Identities *)

Definition target_matches_info (target : str) (info : SessionInfo) : bool :=
  bool_decide (target = si_name info) || bool_decide (target = si_pane_id info) || bool_decide (target = si_id info)
  || negb (starts_with_char 0x25 target) && negb (bool_decide (target = [])) && bool_decide (0x25 :: target = si_pane_id info).

(** [collect] into a map: the last session of an id wins. *)
Definition sessions_by_id (sessions : list SessionInfo) : gmap str SessionInfo :=
  foldl (λ m info, <[si_id info := info]> m) ∅ sessions.

(** The walk to the root.  Each turn adds an id to [seen], so that the sessions bound it. *)
Fixpoint root_walk (fuel : nat) (by_id : gmap str SessionInfo) (seen : gset str) (info : SessionInfo) : result StoreError str :=
  match fuel, si_parent_session_id info with
  | _, None => Ok (si_id info)
  | O, Some _ => Err CyclicParents
  | S fuel, Some parent_id =>
    bail_if (bool_decide (si_id info ∈ seen)) CyclicParents ;;
    parent ← ok_or (by_id !! parent_id) ParentUnavailable;
    root_walk fuel by_id ({[ si_id info ]} ∪ seen) parent
  end.

Definition root_session_identity_from_snapshot (info : SessionInfo) (sessions : list SessionInfo) : result StoreError str :=
  root_walk (S (S (length sessions))) (sessions_by_id sessions) ∅ info.

Definition user_option_identity_from_snapshot (args : UserOptionArgs) (default_target : str) (sessions : list SessionInfo)
    : result StoreError str :=
  target ← match normalize_tmux_target (default default_target (uo_target args)) with Ok t => Ok t | Err e => Err (Line e) end;
  info ← ok_or (List.find (target_matches_info target) sessions) Unavailable;
  if uo_pane args then Ok (si_id info) else root_session_identity_from_snapshot info sessions.

(** ** The scan and the parser agree *)

Definition command_of (is_set : bool) : UserOptionCommand := if is_set then CmdSet else CmdShow.

Lemma strict_cluster_scan is_set cluster a a' :
  in_flags cluster (flag_char "t") = false → strict_cluster is_set cluster a = Ok a' →
  scan_value_flag (command_of is_set) cluster = None.
Proof.
  revert a. induction cluster as [|c rest IH]; intros a Ht Hs; [done|]. cbn [scan_value_flag strict_cluster] in *.
  unfold in_flags in Ht. cbn [existsb] in Ht. apply orb_false in Ht as [Hc Ht].
  assert ((c =? flag_char "t") = false) as -> by lia. rewrite orb_false_l.
  assert (user_option_flag_supported (command_of is_set) c = true ∧ ∃ b, strict_cluster is_set rest b = Ok a') as [-> [b Hb]].
  { unfold user_option_flag_supported, command_of, in_flags. change (lit "qp") with [flag_char "q"; flag_char "p"]. cbn [existsb].
    destruct (c =? flag_char "q"); [by eauto|]. destruct (c =? flag_char "p"); [by eauto|].
    destruct is_set; rewrite ?andb_true_r ?andb_false_r in Hs; simpl in Hs.
    - destruct (c =? flag_char "u"); [by eauto|done].
    - destruct (c =? flag_char "v"); [by eauto|done]. }
  simpl. by eapply IH.
Qed.

(** The scan answers with the first word of the strict parser. *)
Definition scan_agrees (found : option str) (s : result StoreError StrictState) (pending : bool → option str) : Prop :=
  match s with
  | Ok (_, word :: _, _) => found = option_name word
  | Ok (_, [], options) => found = pending options
  | Err _ => True
  end.

Definition scan_from (is_set : bool) (args : list str) (options : bool) : option str :=
  (args_loop (scan_step (command_of is_set)) args (options, None)).2.

Lemma scan_next is_set arg rest options s' two :
  scan_step (command_of is_set) arg rest (options, None) = Next s' two → s'.2 = None →
  scan_from is_set (arg :: rest) options = scan_from is_set (after_step rest two) s'.1.
Proof.
  intros Hs Hn. unfold scan_from. cbn [args_loop]. rewrite Hs. destruct s' as [o f]; simpl in Hn; subst f. by destruct two, rest.
Qed.

Lemma scan_agrees_step is_set found arg rest s :
  scan_agrees found s (scan_from is_set (arg :: rest)) →
  match strict_step is_set arg rest s with
  | Next s' two => scan_agrees found s' (scan_from is_set (after_step rest two))
  | Stop s' => scan_agrees found s' (λ _, None)
  end.
Proof.
  destruct s as [[[a words] options]|e]; [|done]. cbn [strict_step].
  assert (∀ s' two, scan_step (command_of is_set) arg rest (options, None) = Next s' two → s'.2 = None →
    ∀ b, scan_agrees found (Ok (a, words, options)) (scan_from is_set (arg :: rest)) →
         scan_agrees found (Ok (b, words, s'.1)) (scan_from is_set (after_step rest two))) as Hnext.
  { intros s' two Hs Hn b. unfold scan_agrees. destruct words; [|done]. by rewrite (scan_next _ _ _ _ _ _ Hs Hn). }
  intros H. destruct (options && bool_decide (arg = DASH_DASH)) eqn:H1.
  { apply (Hnext (false, None) false); [|done..]. unfold scan_step. by rewrite H1. }
  destruct (options && bool_decide (arg = lit "-t")) eqn:H2.
  { destruct (option_value (head rest)) as [v|e]; [|done]. apply (Hnext (options, None) true); [|done..].
    unfold scan_step. by rewrite H1 H2. }
  destruct (options && attached_target arg) eqn:H3.
  { apply (Hnext (options, None) false); [|done..]. unfold scan_step. by rewrite H1 H2 H3. }
  destruct (options && dash_option arg) eqn:H4.
  - destruct (short_cluster arg) as [cluster|] eqn:H5; [|done]. destruct (in_flags cluster (flag_char "t")) eqn:H6; [done|].
    destruct (strict_cluster is_set cluster a) as [b|e] eqn:H7; [|done]. simpl.
    apply (Hnext (options, None) false); [|done..]. unfold scan_step. by rewrite H1 H2 H3 H4 H5 (strict_cluster_scan _ _ _ _ H6 H7).
  - unfold scan_agrees in *. simpl. destruct words; simpl; [|done]. rewrite H. unfold scan_from. cbn [args_loop]. unfold scan_step.
    by rewrite H1 H2 H3 H4.
Qed.

Lemma routed_name args is_set parsed :
  parse_user_option_args args is_set = Ok parsed →
  actual_user_option_name args (command_of is_set) = option_name (uo_name parsed).
Proof.
  intros H. unfold parse_user_option_args in H. apply bind_Ok in H as ([[a words] options] & Hloop & H).
  assert (scan_agrees (actual_user_option_name args (command_of is_set)) (Ok (a, words, options)) (λ _, None)) as Hagree.
  { rewrite -Hloop. apply (args_loop_inv (λ line s, scan_agrees (actual_user_option_name args (command_of is_set)) s (scan_from is_set line))).
    - intros arg rest s. apply scan_agrees_step.
    - by intros [[[? []]?]|].
    - done. }
  inv_ok. destruct words as [|name words]; simplify_eq. done.
Qed.

(** Whatever line the strict parser of a user-option command accepts, the scan that decides
    whether the command is about a user option has found the very name that the parser
    answers: nothing is set or shown that was routed elsewhere, and no user option is taken
    for something else. *)
Theorem routing_finds_the_name args is_set parsed :
  parse_user_option_args args is_set = Ok parsed →
  actual_user_option_name args (command_of is_set) = option_name (uo_name parsed).
Proof. apply routed_name. Qed.

(** ** The walk to the root *)

(** One turn of the walk: [parent] is the session that [info] names as its parent. *)
Definition parent_of (sessions : list SessionInfo) (info parent : SessionInfo) : Prop :=
  parent ∈ sessions ∧ si_parent_session_id info = Some (si_id parent).

Definition session_map : Type := gmap str SessionInfo.

Lemma sessions_by_id_lookup sessions (m : session_map) id info :
  NoDup (si_id <$> sessions) → (∀ x, x ∈ sessions → m !! si_id x = None) →
  (foldl (λ m info, <[si_id info := info]> m) m sessions : session_map) !! id = Some info ↔
  (info ∈ sessions ∧ si_id info = id) ∨ m !! id = Some info.
Proof.
  revert m. induction sessions as [|x l IH]; intros m Hnd Hm; simpl; [set_solver|].
  apply NoDup_cons in Hnd as [Hx Hnd]. rewrite IH //.
  - rewrite lookup_insert_Some elem_of_cons. specialize (Hm x ltac:(by left)). naive_solver congruence.
  - intros y Hy. rewrite lookup_insert_ne; [by apply Hm; right|]. intros Heq. apply Hx. rewrite Heq. by apply list_elem_of_fmap_2.
Qed.

Lemma sessions_by_id_spec sessions id info :
  NoDup (si_id <$> sessions) → sessions_by_id sessions !! id = Some info ↔ info ∈ sessions ∧ si_id info = id.
Proof.
  intros Hnd. unfold sessions_by_id. rewrite (sessions_by_id_lookup sessions (∅ : session_map)) //. set_solver.
Qed.

Section root_walk.
Context (sessions : list SessionInfo) (unique : NoDup (si_id <$> sessions)).
Local Abbreviation parent := (parent_of sessions).

(** What the walk from [info] answers. *)
Definition root_answer (info : SessionInfo) (r : result StoreError str) : Prop :=
  match r with
  | Ok id => ∃ root, rtc parent info root ∧ si_parent_session_id root = None ∧ si_id root = id
  | Err CyclicParents => ∃ x, rtc parent info x ∧ tc parent x x
  | Err ParentUnavailable => ∃ x parent_id, rtc parent info x ∧ si_parent_session_id x = Some parent_id ∧ parent_id ∉ si_id <$> sessions
  | Err _ => False
  end.

Lemma root_walk_answer (start : SessionInfo) (fuel : nat) (seen : gset str) (info : SessionInfo) :
  info ∈ sessions → rtc parent start info →
  (∀ id, id ∈ seen → ∃ x, x ∈ sessions ∧ si_id x = id ∧ rtc parent start x ∧ tc parent x info) →
  (length sessions < fuel + size (seen : gset str))%nat →
  root_answer start (root_walk fuel (sessions_by_id sessions) seen info).
Proof.
  revert seen info. induction fuel as [|fuel IH]; intros seen info Hinfo Hrtc Hseen Hfuel; cbn [root_walk].
  - destruct (si_parent_session_id info) eqn:Hp; [|by exists info].
    assert (seen ⊆ list_to_set (si_id <$> sessions)) as Hsub.
    { intros id (x & Hx & <- & _)%Hseen. by apply elem_of_list_to_set, list_elem_of_fmap_2. }
    apply subseteq_size in Hsub. rewrite size_list_to_set // length_fmap in Hsub. lia.
  - destruct (si_parent_session_id info) as [pid|] eqn:Hp; [|by exists info].
    case_bool_decide as Hin; simpl.
    { destruct (Hseen _ Hin) as (x & Hx & Hid & Hsx & Hxi). exists x. split; [done|].
      by rewrite {2}(NoDup_key_inj si_id sessions x info). }
    destruct (sessions_by_id sessions !! pid) as [p|] eqn:Hlook; simpl.
    + apply sessions_by_id_spec in Hlook as [Hps Hpid]; [|done].
      assert (parent info p) as Hstep by (split; [done|by rewrite Hp Hpid]).
      apply IH; [done|by eapply rtc_r|..].
      * intros id [->%elem_of_singleton|Hid]%elem_of_union; [exists info; by repeat split; try apply tc_once|].
        destruct (Hseen _ Hid) as (x & Hx & Heq & Hsx & Hxi). exists x. repeat split; [done..|]. by eapply tc_r.
      * rewrite size_union; [rewrite size_singleton; lia|set_solver].
    + exists info, pid. repeat split; [done..|]. intros (p & -> & Hin')%list_elem_of_fmap.
      assert (sessions_by_id sessions !! si_id p = Some p) by by apply sessions_by_id_spec. congruence.
Qed.
End root_walk.

(** The walk from a pane to its root session ends for every snapshot the daemon can give,
    and its answer is exact: the id of the session without a parent that the parents lead to,
    a cycle if the parents lead into one, or the parent that the snapshot does not hold. *)
Theorem root_identity_exact sessions info :
  NoDup (si_id <$> sessions) → info ∈ sessions →
  root_answer sessions info (root_session_identity_from_snapshot info sessions).
Proof.
  intros Hnd Hin. apply root_walk_answer; [done..|set_solver|lia].
Qed.
