(* ===== verification/TmuxStore.v ===== *)
(** The store of the tmux shim ([CompatStore], [tmux_compat.rs]): its file, and the operations
    on user options and panes.

    Every operation holds a lock on the store for its whole length, so that an operation is
    one step on the directory.  The directory holds the store, the file it is first written
    to, and the files that broken stores were moved to.  The JSON of the store is a library's:
    [to_vec_pretty] and [from_slice] are parameters. *)
From S2P Require Import Prelude Utf8 Protocol Text TmuxArgs TmuxCommands TmuxOptions.

Record CompatPane : Set := {
  pn_pane_id : str; pn_session_name : str; pn_immutable_id : option str;
  pn_cmux_surface_id : option str; pn_cmux_workspace_id : option str; pn_cmux_window_id : option str }.
#[global] Instance CompatPane_eq : EqDecision CompatPane.
Proof. solve_decision. Defined.

Record CapturedCompatPane : Set := { cap_pane_id : str; cap_immutable_id : str; cap_stored : option CompatPane }.

Record ManagedAttachLease : Set := {
  la_pane_id : str; la_token : str; la_pid : Z; la_process_start_id : option str;
  la_cmux_surface_id : option str; la_cmux_workspace_id : option str; la_cmux_window_id : option str; la_updated_secs : Z }.

Abbreviation UserOptions := (gmap str (gmap str str)).

Record CompatStore : Type := {
  st_panes : gmap str CompatPane;
  st_pane_user_options : UserOptions;
  st_session_user_options : UserOptions;
  st_wait_generations : gmap str Z;
  st_wait_generation_touched_secs : gmap str Z;
  st_managed_attaches : gmap str ManagedAttachLease }.

Definition CompatStore_default : CompatStore := {|
  st_panes := ∅; st_pane_user_options := ∅; st_session_user_options := ∅; st_wait_generations := ∅;
  st_wait_generation_touched_secs := ∅; st_managed_attaches := ∅ |}.

Definition with_panes (s : CompatStore) (panes : gmap str CompatPane) : CompatStore := {|
  st_panes := panes; st_pane_user_options := st_pane_user_options s; st_session_user_options := st_session_user_options s;
  st_wait_generations := st_wait_generations s; st_wait_generation_touched_secs := st_wait_generation_touched_secs s;
  st_managed_attaches := st_managed_attaches s |}.
Definition with_options (s : CompatStore) (pane session : UserOptions) : CompatStore := {|
  st_panes := st_panes s; st_pane_user_options := pane; st_session_user_options := session;
  st_wait_generations := st_wait_generations s; st_wait_generation_touched_secs := st_wait_generation_touched_secs s;
  st_managed_attaches := st_managed_attaches s |}.
Definition with_waits (s : CompatStore) (generations touched : gmap str Z) : CompatStore := {|
  st_panes := st_panes s; st_pane_user_options := st_pane_user_options s; st_session_user_options := st_session_user_options s;
  st_wait_generations := generations; st_wait_generation_touched_secs := touched;
  st_managed_attaches := st_managed_attaches s |}.
Definition with_attaches (s : CompatStore) (attaches : gmap str ManagedAttachLease) : CompatStore := {|
  st_panes := st_panes s; st_pane_user_options := st_pane_user_options s; st_session_user_options := st_session_user_options s;
  st_wait_generations := st_wait_generations s; st_wait_generation_touched_secs := st_wait_generation_touched_secs s;
  st_managed_attaches := attaches |}.

(** ** The file *)

Definition COMPAT_STORE_MAX_BYTES : Z := 16 * 1024 * 1024.
Definition STORE_FILE : str := lit "tmux-compat-store.json".
Definition TMP_FILE : str := lit "tmux-compat-store.json.tmp".
Abbreviation Dir := (gmap str (list byte)).

(** What the system answers to the two calls of a save. *)
Inductive SaveIo : Set := Saved | WriteFailed (partial : list byte) | RenameFailed.

Definition quarantine_name (pid now : Z) (reason : str) (attempt : nat) : str :=
  STORE_FILE ++ lit ".corrupt." ++ dec pid ++ lit "." ++ dec now ++ lit "." ++ reason
  ++ match attempt with O => [] | _ => lit "." ++ dec (Z.of_nat attempt) end.

Section store_file.
Context (to_vec_pretty : CompatStore → list byte) (from_slice : list byte → option CompatStore).
(** The process, and its clock at each attempt of a quarantine. *)
Context (pid : Z) (clock : nat → Z).

(** The attempts from [attempt] on, [tries] of them; the rename of a file that is there, to a
    name that is free, is taken to succeed. *)
Fixpoint quarantine_attempts (tries attempt : nat) (reason : str) (dir : Dir) : option str :=
  match tries with
  | O => None
  | S tries =>
    let name := quarantine_name pid (clock attempt) reason attempt in
    if is_some (dir !! name) then quarantine_attempts tries (S attempt) reason dir else Some name
  end.

Definition quarantine_store_file (reason : str) : M Dir StoreError unit := λ dir,
  match quarantine_attempts 100 0 reason dir with
  | Some name =>
    match dir !! STORE_FILE with
    | Some bytes => (Ok tt, <[name := bytes]> (delete STORE_FILE dir))
    | None => (Ok tt, dir)
    end
  | None => (Err NoQuarantinePath, dir)
  end.

Definition load_store : M Dir StoreError CompatStore :=
  dir ← get;
  match dir !! STORE_FILE with
  | None => mret CompatStore_default
  | Some bytes =>
    if COMPAT_STORE_MAX_BYTES <? Z.of_nat (length bytes) then quarantine_store_file (lit "oversized") ;; mret CompatStore_default
    else match from_slice bytes with
    | Some store => mret store
    | None => quarantine_store_file (lit "corrupt") ;; mret CompatStore_default
    end
  end.

Definition save_store (io : SaveIo) (store : CompatStore) : M Dir StoreError unit := λ dir,
  let bytes := to_vec_pretty store in
  if COMPAT_STORE_MAX_BYTES <? Z.of_nat (length bytes) then (Err StoreTooLarge, dir)
  else match io with
  | WriteFailed partial => (Err IoFailed, <[TMP_FILE := partial]> dir)
  | RenameFailed => (Err IoFailed, <[TMP_FILE := bytes]> dir)
  | Saved => (Ok tt, <[STORE_FILE := bytes]> (delete TMP_FILE (<[TMP_FILE := bytes]> dir)))
  end.

Definition update_store {T} (io : SaveIo) (f : CompatStore → result StoreError (T * CompatStore)) : M Dir StoreError T :=
  store ← load_store;
  '(result, store) ← lift (f store);
  save_store io store ;;
  mret result.

Definition read_store {T} (f : CompatStore → result StoreError T) : M Dir StoreError T :=
  store ← load_store; lift (f store).

(** ** User options *)

Definition prune_map (live : gset str) (options : UserOptions) : UserOptions :=
  filter (λ '(identity, o), identity ∈ live ∧ o ≠ ∅) options.
Definition prune_user_options (live : gset str) (s : CompatStore) : CompatStore :=
  with_options s (prune_map live (st_pane_user_options s)) (prune_map live (st_session_user_options s)).

Definition user_option_identity_count (s : CompatStore) : nat :=
  size (dom (st_pane_user_options s) ∪ dom (st_session_user_options s) : gset str).
Definition entries (options : UserOptions) : nat := map_fold (λ _ o n, (size o + n)%nat) 0%nat options.
Definition user_option_entry_count (s : CompatStore) : nat :=
  (entries (st_pane_user_options s) + entries (st_session_user_options s))%nat.

Definition options_of (pane : bool) (s : CompatStore) : UserOptions :=
  if pane then st_pane_user_options s else st_session_user_options s.
Definition set_options_of (pane : bool) (s : CompatStore) (options : UserOptions) : CompatStore :=
  if pane then with_options s options (st_session_user_options s) else with_options s (st_pane_user_options s) options.

Definition option_of (pane : bool) (s : CompatStore) (identity name : str) : option str :=
  options_of pane s !! identity ≫= λ o, o !! name.

Definition identity_entries (identity : str) (s : CompatStore) : nat :=
  (size (default ∅ (st_pane_user_options s !! identity)) + size (default ∅ (st_session_user_options s !! identity)))%nat.

(** The body of [mutate_user_option] once the store is pruned. *)
Definition unset_user_option (a : UserOptionArgs) (identity : str) (s : CompatStore) : CompatStore :=
  let options := options_of (uo_pane a) s in
  match options !! identity with
  | Some o =>
    let o := delete (uo_name a) o in
    set_options_of (uo_pane a) s (if bool_decide (o = ∅) then delete identity options else <[identity := o]> options)
  | None => s
  end.

Definition check_user_option_limits (a : UserOptionArgs) (identity : str) (s : CompatStore) : result StoreError unit :=
  if is_some (option_of (uo_pane a) s identity (uo_name a)) then Ok tt
  else
    let identity_exists := is_some (st_pane_user_options s !! identity) || is_some (st_session_user_options s !! identity) in
    bail_if (negb identity_exists && (USER_OPTION_IDENTITIES_MAX <=? user_option_identity_count s)%nat) IdentityLimit ;;
    bail_if (USER_OPTION_ENTRIES_MAX <=? user_option_entry_count s)%nat EntryLimit ;;
    bail_if (USER_OPTIONS_PER_IDENTITY_MAX <=? identity_entries identity s)%nat PerIdentityLimit.

Definition set_user_option (a : UserOptionArgs) (identity : str) (s : CompatStore) : result StoreError CompatStore :=
  if uo_unset a then Ok (unset_user_option a identity s)
  else
    value ← ok_or (uo_value a) NoValue;
    check_user_option_limits a identity s ;;
    let options := options_of (uo_pane a) s in
    Ok (set_options_of (uo_pane a) s (<[identity := <[uo_name a := value]> (default ∅ (options !! identity))]> options)).

Definition live_identities (sessions : list SessionInfo) : gset str := list_to_set (si_id <$> sessions).

Definition mutate_user_option (a : UserOptionArgs) (default_target : str) (sessions : list SessionInfo) (io : SaveIo)
    : M Dir StoreError unit :=
  identity ← lift (user_option_identity_from_snapshot a default_target sessions);
  store ← load_store;
  let store := prune_user_options (live_identities sessions) store in
  store ← lift (set_user_option a identity store);
  save_store io store.

Definition read_user_option (a : UserOptionArgs) (default_target : str) (sessions : list SessionInfo) : M Dir StoreError (option str) :=
  identity ← lift (user_option_identity_from_snapshot a default_target sessions);
  store ← load_store;
  mret (option_of (uo_pane a) store identity (uo_name a)).

(** The commands. *)
Definition set_option (args : list str) (default_target : str) (sessions : list SessionInfo) (io : SaveIo) : M Dir StoreError unit :=
  if negb (is_some (actual_user_option_name args CmdSet)) then mret tt
  else
    parsed ← lift (parse_user_option_args args true);
    lift (validate_user_option_name (uo_name parsed)) ;;
    lift (match uo_value parsed with Some value => validate_user_option_value value | None => Ok tt end) ;;
    mutate_user_option parsed default_target sessions io.

(** What [show_option] prints of a user option; [None] is the legacy command. *)
Definition show_option (args : list str) (default_target : str) (sessions : list SessionInfo) : M Dir StoreError (option str) :=
  if negb (is_some (actual_user_option_name args CmdShow)) then mret None
  else
    parsed ← lift (parse_user_option_args args false);
    lift (validate_user_option_name (uo_name parsed)) ;;
    value ← read_user_option parsed default_target sessions;
    match value with
    | Some value => mret (Some ((if uo_value_only parsed then value else uo_name parsed ++ [0x20] ++ value) ++ [0x0a]))
    | None => if uo_quiet parsed then mret (Some []) else throw UnknownOption
    end.

(** ** Panes *)

Definition remember_pane (info : SessionInfo) (surface : option (str * option str * option str)) (sessions : list SessionInfo)
    (io : SaveIo) : M Dir StoreError unit :=
  store ← load_store;
  let store := prune_user_options (live_identities sessions) store in
  save_store io (with_panes store (<[si_pane_id info := {|
    pn_pane_id := si_pane_id info; pn_session_name := si_name info; pn_immutable_id := Some (si_id info);
    pn_cmux_surface_id := (λ s, s.1.1) <$> surface; pn_cmux_workspace_id := surface ≫= λ s, s.1.2;
    pn_cmux_window_id := surface ≫= λ s, s.2 |}]> (st_panes store))).

Definition matches_captured (panes : gmap str CompatPane) (c : CapturedCompatPane) : bool :=
  is_some_and (cap_stored c) (λ before,
    is_none_or (pn_immutable_id before) (λ id, bool_decide (id = cap_immutable_id c))
    && bool_decide (panes !! cap_pane_id c = Some before)).

Definition forget_pane (panes : gmap str CompatPane) (c : CapturedCompatPane) : gmap str CompatPane :=
  if matches_captured panes c then delete (cap_pane_id c) panes else panes.

Definition forget_identity (s : CompatStore) (id : str) : CompatStore :=
  with_options s (delete id (st_pane_user_options s)) (delete id (st_session_user_options s)).

Definition forget_panes_and_user_options (captured : list CapturedCompatPane) (immutable_ids : list str) (io : SaveIo)
    : M Dir StoreError unit :=
  update_store io (λ s,
    let s := with_panes s (foldl forget_pane (st_panes s) captured) in
    Ok (tt, foldl forget_identity s immutable_ids)).

(** ** What a file holds *)

Definition readable (bytes : list byte) : option CompatStore :=
  if COMPAT_STORE_MAX_BYTES <? Z.of_nat (length bytes) then None else from_slice bytes.
Definition store_of (dir : Dir) : CompatStore := default CompatStore_default (dir !! STORE_FILE ≫= readable).

Lemma quarantine_path_fresh now reason attempt :
  quarantine_name pid now reason attempt ≠ STORE_FILE ∧ quarantine_name pid now reason attempt ≠ TMP_FILE.
Proof.
  split; intros H; apply (f_equal (drop (length STORE_FILE))) in H; unfold quarantine_name in H;
    rewrite drop_app_length in H; vm_compute (drop _ _) in H; done.
Qed.

Lemma quarantine_attempts_free tries attempt reason dir name :
  quarantine_attempts tries attempt reason dir = Some name →
  dir !! name = None ∧ name ≠ STORE_FILE ∧ name ≠ TMP_FILE.
Proof.
  revert attempt. induction tries as [|tries IH]; intros attempt; simpl; [done|].
  destruct (dir !! quarantine_name _ _ _ _) eqn:Hn; simpl; [by apply IH|]. intros [= <-]. split; [done|]. apply quarantine_path_fresh.
Qed.

(** No file but the store and the file of its next version is touched, and a store that
    cannot be read is kept under another name. *)
Definition keeps_files (dir dir' : Dir) : Prop :=
  (∀ name bytes, name ≠ STORE_FILE → name ≠ TMP_FILE → dir !! name = Some bytes → dir' !! name = Some bytes) ∧
  (∀ bytes, dir !! STORE_FILE = Some bytes → readable bytes = None → ∃ name, name ≠ TMP_FILE ∧ dir' !! name = Some bytes).

Lemma quarantine_store_file_spec reason dir bytes :
  dir !! STORE_FILE = Some bytes →
  match quarantine_store_file reason dir with
  | (Ok _, dir') => dir' !! STORE_FILE = None ∧ ∃ name, name ≠ STORE_FILE ∧ name ≠ TMP_FILE ∧ dir !! name = None ∧
      dir' = <[name := bytes]> (delete STORE_FILE dir)
  | (Err e, dir') => e = NoQuarantinePath ∧ dir' = dir
  end.
Proof.
  intros Hs. unfold quarantine_store_file. destruct (quarantine_attempts _ _ _ _) as [name|] eqn:Hq; [|done].
  apply quarantine_attempts_free in Hq as (Hfree & Hns & Hnt). rewrite Hs. split.
  - rewrite lookup_insert_ne //. apply lookup_delete_eq.
  - by exists name.
Qed.

Lemma load_shim_store_spec dir :
  match load_store dir with
  | (Ok s, dir') => s = store_of dir ∧ store_of dir' = s ∧ keeps_files dir dir' ∧
      (∀ bytes, dir' !! STORE_FILE = Some bytes → is_Some (readable bytes))
  | (Err e, dir') => e = NoQuarantinePath ∧ dir' = dir
  end.
Proof.
  unfold load_store, mbind, M_bind, get. cbv beta iota.
  destruct (dir !! STORE_FILE) as [bytes|] eqn:Hs.
  2:{ cbn. unfold store_of. rewrite Hs. split_and!; [done..| |congruence]. split; [done|congruence]. }
  assert (∀ reason, readable bytes = None →
    match (quarantine_store_file reason ;; mret CompatStore_default) dir with
    | (Ok s, dir') => s = store_of dir ∧ store_of dir' = s ∧ keeps_files dir dir' ∧
        (∀ bytes, dir' !! STORE_FILE = Some bytes → is_Some (readable bytes))
    | (Err e, dir') => e = NoQuarantinePath ∧ dir' = dir
    end) as Hquarantine.
  { intros reason Hr. pose proof (quarantine_store_file_spec reason dir bytes Hs) as Hq.
    unfold mbind, M_bind. destruct (quarantine_store_file reason dir) as [[[]|e] dir']; [|done]. cbn.
    destruct Hq as (Hnone & name & Hns & Hnt & Hfree & ->). unfold store_of. rewrite Hnone Hs /= Hr.
    split_and!; [done..| |congruence]. split.
    - intros x b Hx _ Hb. rewrite lookup_insert_ne; [|congruence]. by rewrite lookup_delete_ne.
    - intros b Hb _. exists name. rewrite lookup_insert_eq. by simplify_eq. }
  destruct (COMPAT_STORE_MAX_BYTES <? _) eqn:Hlen.
  { apply Hquarantine. unfold readable. by rewrite Hlen. }
  destruct (from_slice bytes) as [s|] eqn:Hf.
  2:{ apply Hquarantine. unfold readable. by rewrite Hlen. }
  cbn. assert (readable bytes = Some s) as Hr by (unfold readable; by rewrite Hlen).
  unfold store_of. rewrite Hs /= Hr. split_and!; [done..| |naive_solver]. split; [done|naive_solver].
Qed.

End store_file.

(** ** A change of the store happens whole or not at all *)

Section updates.
Context (to_vec_pretty : CompatStore → list byte) (from_slice : list byte → option CompatStore).
Context (codec : ∀ s, from_slice (to_vec_pretty s) = Some s).
Context (pid : Z) (clock : nat → Z).
Local Abbreviation stored := (store_of from_slice).
Local Abbreviation reads := (readable from_slice).
Local Abbreviation kept := (keeps_files from_slice).
Local Abbreviation load := (load_store from_slice pid clock).
Local Abbreviation save := (save_store to_vec_pretty).
Local Abbreviation update := (update_store to_vec_pretty from_slice pid clock).

Lemma tmp_not_store : TMP_FILE ≠ STORE_FILE.
Proof. done. Qed.

Lemma save_store_spec io s dir :
  (∀ name, name ≠ STORE_FILE → name ≠ TMP_FILE → (save io s dir).2 !! name = dir !! name) ∧
  match save io s dir with
  | (Ok _, dir') => io = Saved ∧ stored dir' = s
  | (Err e, dir') => dir' !! STORE_FILE = dir !! STORE_FILE
  end.
Proof.
  unfold save_store. destruct (COMPAT_STORE_MAX_BYTES <? _) eqn:Hlen; [done|]. pose proof tmp_not_store.
  destruct io; simpl; split; intros; try (by rewrite ?lookup_insert_ne ?lookup_delete_ne //).
  - rewrite lookup_insert_ne // lookup_delete_ne // lookup_insert_ne //.
  - split; [done|]. unfold store_of, readable. by rewrite lookup_insert_eq /= Hlen codec.
Qed.

Lemma store_of_eq dir dir' : dir' !! STORE_FILE = dir !! STORE_FILE → stored dir' = stored dir.
Proof. unfold store_of. by intros ->. Qed.

Lemma update_store_spec {T} io (f : CompatStore → result StoreError (T * CompatStore)) dir r dir' :
  update io f dir = (r, dir') →
  kept dir dir' ∧
  match r with
  | Ok x => ∃ s', f (stored dir) = Ok (x, s') ∧ io = Saved ∧ stored dir' = s'
  | Err _ => stored dir' = stored dir
  end.
Proof.
  unfold update_store. intros H. pose proof (load_shim_store_spec to_vec_pretty from_slice pid clock dir) as Hload.
  apply M_bind_inv in H as [(s & dir1 & H1 & H)|(e & H1 & ->)]; rewrite H1 in Hload.
  2:{ destruct Hload as [_ ->]. split; [|done]. split; [done|]. intros bytes Hb _. by exists STORE_FILE. }
  destruct Hload as (-> & Hsame & [Hk1 Hk2] & Hread).
  apply M_bind_inv in H as [([x s'] & dir2 & H2 & H)|(e & H2 & ->)]; unfold lift in H2; simplify_eq.
  2:{ by split. }
  pose proof (save_store_spec io s' dir2) as [Hother Hsave].
  apply M_bind_inv in H as [([] & dir3 & H3 & H)|(e & H3 & ->)]; rewrite H3 /= in Hother, Hsave.
  - unfold mret, M_ret in H. simplify_eq. destruct Hsave as [-> Hsave]. split; [|by exists s']. split.
    + intros name bytes Hs Ht Hb. rewrite Hother //. by apply Hk1.
    + intros bytes Hb Hr. destruct (Hk2 bytes Hb Hr) as (name & Hnt & Hname). exists name. split; [done|].
      rewrite Hother //. intros ->. destruct (Hread _ Hname). congruence.
  - split; [|by rewrite (store_of_eq dir2)]. split.
    + intros name bytes Hs Ht Hb. rewrite Hother //. by apply Hk1.
    + intros bytes Hb Hr. destruct (Hk2 bytes Hb Hr) as (name & Hnt & Hname). exists name. split; [done|].
      destruct (decide (name = STORE_FILE)) as [->|]; [by rewrite Hsave|by rewrite Hother].
Qed.

(** The two operations that spell out the steps of [update_store]. *)
Lemma mutate_user_option_update a default_target sessions io dir :
  mutate_user_option to_vec_pretty from_slice pid clock a default_target sessions io dir =
  match user_option_identity_from_snapshot a default_target sessions with
  | Ok identity => update io (λ s,
      (λ s, (tt, s)) <$> set_user_option a identity (prune_user_options (live_identities sessions) s)) dir
  | Err e => (Err e, dir)
  end.
Proof.
  unfold mutate_user_option, update_store. destruct (user_option_identity_from_snapshot _ _ _) as [identity|e]; [|done].
  unfold lift, mbind, M_bind, mret, M_ret. destruct (load dir) as [[s|e] dir1]; [|done].
  destruct (set_user_option _ _ _) as [s'|e]; [|done]. simpl. by destruct (save io s' dir1) as [[[]|] ?].
Qed.

Lemma remember_pane_update info surface sessions io dir :
  remember_pane to_vec_pretty from_slice pid clock info surface sessions io dir =
  update io (λ s, let s := prune_user_options (live_identities sessions) s in
    Ok (tt, with_panes s (<[si_pane_id info := {|
      pn_pane_id := si_pane_id info; pn_session_name := si_name info; pn_immutable_id := Some (si_id info);
      pn_cmux_surface_id := (λ s, s.1.1) <$> surface; pn_cmux_workspace_id := surface ≫= λ s, s.1.2;
      pn_cmux_window_id := surface ≫= λ s, s.2 |}]> (st_panes s)))) dir.
Proof.
  unfold remember_pane, update_store, lift, mbind, M_bind, mret, M_ret.
  destruct (load dir) as [[s|e] dir1]; [|done]. simpl. by destruct (save io _ dir1) as [[[]|] ?].
Qed.
End updates.
