(* ===== verification/TmuxUserOptions.v ===== *)
(** User options as a map: what [set-option], [show-option] and the removal of sessions do to
    the options that later commands see, and the limits that every store keeps. *)
From S2P Require Import Prelude Utf8 Protocol Text TmuxArgs TmuxCommands TmuxOptions TmuxStore.

(** ** The options a store holds *)

Lemma options_of_set pane pane' s options :
  options_of pane' (set_options_of pane s options) = if bool_decide (pane' = pane) then options else options_of pane' s.
Proof. by destruct pane, pane'. Qed.

Lemma prune_map_Some (live : gset str) (options : UserOptions) identity o :
  prune_map live options !! identity = Some o ↔ options !! identity = Some o ∧ identity ∈ live ∧ o ≠ ∅.
Proof. apply map_lookup_filter_Some. Qed.

Lemma prune_map_name (live : gset str) (options : UserOptions) identity (name : str) :
  prune_map live options !! identity ≫= (λ o, o !! name) =
  if bool_decide (identity ∈ live) then options !! identity ≫= (λ o, o !! name) else None.
Proof.
  destruct (prune_map live options !! identity) as [o|] eqn:Hp.
  - apply prune_map_Some in Hp as (-> & Hl & _). by rewrite bool_decide_true.
  - case_bool_decide as Hl; [|done]. destruct (options !! identity) as [o|] eqn:Ho; [|done]. simpl.
    destruct (decide (o = ∅)) as [->|Hne]; [done|].
    assert (prune_map live options !! identity = Some o) as Hs by by apply prune_map_Some. congruence.
Qed.

Lemma option_of_prune (live : gset str) pane s identity name :
  option_of pane (prune_user_options live s) identity name =
  if bool_decide (identity ∈ live) then option_of pane s identity name else None.
Proof. unfold option_of. destruct pane; apply prune_map_name. Qed.

(** What a command of a user option leaves under a name. *)
Definition after_command (a : UserOptionArgs) (identity : str) (old : bool → str → str → option str) (pane : bool) (id name : str) : option str :=
  if bool_decide (pane = uo_pane a ∧ id = identity ∧ name = uo_name a)
  then (if uo_unset a then None else uo_value a) else old pane id name.

Lemma set_user_option_exact a identity s s' :
  set_user_option a identity s = Ok s' →
  ∀ pane id name, option_of pane s' id name = after_command a identity (λ pane, option_of pane s) pane id name.
Proof.
  intros H pane id name. unfold set_user_option in H. unfold after_command.
  destruct (uo_unset a) eqn:Hu.
  - simplify_eq/=. unfold unset_user_option, option_of. destruct (options_of (uo_pane a) s !! identity) as [o|] eqn:Ho.
    2:{ case_bool_decide as Hsame; [|done]. destruct Hsame as (-> & -> & ->). by rewrite Ho. }
    rewrite options_of_set.
    assert ((if bool_decide (delete (uo_name a) o = ∅) then delete identity (options_of (uo_pane a) s)
      else <[identity := delete (uo_name a) o]> (options_of (uo_pane a) s)) !! id ≫= (λ o, o !! name) =
      if bool_decide (id = identity) then delete (uo_name a) o !! name else options_of (uo_pane a) s !! id ≫= (λ o, o !! name)) as Hnew.
    { destruct (decide (id = identity)) as [->|Hid].
      - rewrite (bool_decide_true (identity = identity)) //. case_bool_decide as He; [by rewrite lookup_delete_eq /= He|by rewrite lookup_insert_eq].
      - rewrite (bool_decide_false (id = identity)) //. by case_bool_decide; rewrite ?lookup_delete_ne ?lookup_insert_ne. }
    destruct (decide (pane = uo_pane a)) as [->|Hp].
    2:{ rewrite (bool_decide_false (pane = uo_pane a)) // bool_decide_false //. tauto. }
    rewrite (bool_decide_true (uo_pane a = uo_pane a)) // Hnew.
    destruct (decide (id = identity)) as [->|Hid].
    2:{ rewrite (bool_decide_false (id = identity)) // bool_decide_false //. tauto. }
    rewrite (bool_decide_true (identity = identity)) //. destruct (decide (name = uo_name a)) as [->|Hn].
    + by rewrite bool_decide_true // lookup_delete_eq.
    + rewrite bool_decide_false; [|tauto]. by rewrite lookup_delete_ne // Ho.
  - inv_ok. destruct (uo_value a) as [value|] eqn:Hv; simplify_eq/=. inv_ok. simplify_eq. unfold option_of. rewrite options_of_set.
    case_bool_decide as Hp; [subst pane|by rewrite bool_decide_false; [|tauto]].
    destruct (decide (id = identity)) as [->|Hid].
    + rewrite lookup_insert_eq /=. destruct (decide (name = uo_name a)) as [->|Hn].
      * by rewrite bool_decide_true // lookup_insert_eq.
      * rewrite bool_decide_false; [|tauto]. rewrite lookup_insert_ne //. by destruct (options_of _ s !! identity).
    + rewrite bool_decide_false; [|tauto]. by rewrite lookup_insert_ne.
Qed.

(** ** The limits *)

Lemma entries_insert (options : UserOptions) identity o :
  options !! identity = None → entries (<[identity := o]> options) = (size o + entries options)%nat.
Proof. intros H. unfold entries. rewrite map_fold_insert_L; [done|lia|done]. Qed.

Lemma entries_delete (options : UserOptions) identity o :
  options !! identity = Some o → entries options = (size o + entries (delete identity options))%nat.
Proof. intros H. unfold entries. rewrite {1}(map_fold_delete_L _ _ identity o) //. lia. Qed.

(** Every identity of [small] has at most as many options there as in [big]. *)
Definition fewer (small big : UserOptions) : Prop :=
  ∀ identity o, small !! identity = Some o → ∃ o', big !! identity = Some o' ∧ (size o ≤ size o')%nat.

Lemma entries_fewer small big : fewer small big → (entries small ≤ entries big)%nat.
Proof.
  revert big. induction small as [|identity o small Hnew IH] using map_ind; intros big Hf.
  { unfold entries at 1. rewrite map_fold_empty. lia. }
  destruct (Hf identity o) as (o' & Ho' & Hle); [by rewrite lookup_insert_eq|].
  rewrite (entries_insert _ _ _ Hnew) (entries_delete _ _ _ Ho').
  assert (entries small ≤ entries (delete identity big))%nat; [|lia]. apply IH. intros id x Hx.
  assert (id ≠ identity) by congruence. destruct (Hf id x) as (x' & Hx' & ?); [by rewrite lookup_insert_ne|].
  exists x'. by rewrite lookup_delete_ne.
Qed.

(** What every store keeps. *)
Record options_ok (s : CompatStore) : Prop := {
  ok_identities : (user_option_identity_count s ≤ USER_OPTION_IDENTITIES_MAX)%nat;
  ok_entries : (user_option_entry_count s ≤ USER_OPTION_ENTRIES_MAX)%nat;
  ok_each : ∀ identity, (identity_entries identity s ≤ USER_OPTIONS_PER_IDENTITY_MAX)%nat;
  ok_valid : ∀ pane identity name value, option_of pane s identity name = Some value →
    validate_user_option_name name = Ok tt ∧ validate_user_option_value value = Ok tt }.

(** A store with fewer options of the same names. *)
Record options_below (small big : CompatStore) : Prop := {
  below_fewer : ∀ pane, fewer (options_of pane small) (options_of pane big);
  below_names : ∀ pane identity name value, option_of pane small identity name = Some value →
    option_of pane big identity name = Some value }.

Lemma options_below_ok small big : options_below small big → options_ok big → options_ok small.
Proof.
  intros [Hf Hn] [H1 H2 H3 H4]. pose proof (Hf true) as Ht. pose proof (Hf false) as Hs. simpl in Ht, Hs. split.
  - etrans; [|exact H1]. unfold user_option_identity_count. apply subseteq_size. intros identity. rewrite !elem_of_union !elem_of_dom.
    intros [[o Ho]|[o Ho]]; [left; apply Ht in Ho as (o' & ? & _)|right; apply Hs in Ho as (o' & ? & _)]; by exists o'.
  - unfold user_option_entry_count in *. pose proof (entries_fewer _ _ Ht). pose proof (entries_fewer _ _ Hs). lia.
  - intros identity. etrans; [|apply (H3 identity)]. unfold identity_entries.
    assert (∀ small big : UserOptions, fewer small big →
      (size (default ∅ (small !! identity)) ≤ size (default ∅ (big !! identity)))%nat) as Hsize.
    { intros sm bg Hfew. destruct (sm !! identity) as [o|] eqn:Ho; simpl; [|rewrite map_size_empty; lia].
      by apply Hfew in Ho as (o' & -> & ?). }
    pose proof (Hsize _ _ Ht). pose proof (Hsize _ _ Hs). lia.
  - intros pane identity name value Hv. by eapply H4, Hn.
Qed.

Lemma prune_below (live : gset str) s : options_below (prune_user_options live s) s.
Proof.
  split.
  - intros pane identity o Ho. assert (prune_map live (options_of pane s) !! identity = Some o) as Hp by by destruct pane.
    apply prune_map_Some in Hp as [Hp _]. by exists o.
  - intros pane identity name value. rewrite option_of_prune. by case_bool_decide.
Qed.

Lemma forget_identity_below s id : options_below (forget_identity s id) s.
Proof.
  split.
  - intros pane identity o Ho. assert (delete id (options_of pane s) !! identity = Some o) as Hd by by destruct pane.
    apply lookup_delete_Some in Hd as [_ Hd]. by exists o.
  - intros pane identity name value. unfold option_of.
    replace (options_of pane (forget_identity s id)) with (delete id (options_of pane s)) by by destruct pane.
    destruct (decide (identity = id)) as [->|Hne]; [by rewrite lookup_delete_eq|by rewrite lookup_delete_ne].
Qed.

Lemma unset_below a identity s : uo_unset a = true → options_below (unset_user_option a identity s) s.
Proof.
  intros Hu. split.
  - intros pane id o. unfold unset_user_option. destruct (options_of (uo_pane a) s !! identity) as [x|] eqn:Hx; [|by eauto].
    rewrite options_of_set. case_bool_decide as Hp; [subst pane|by eauto]. intros Ho.
    assert (id = identity ∧ o = delete (uo_name a) x ∨ options_of (uo_pane a) s !! id = Some o) as [[-> ->]|Hs]; [|..|by eauto].
    + case_bool_decide; [apply lookup_delete_Some in Ho as [_ ?]; by right|]. apply lookup_insert_Some in Ho as [[-> <-]|[_ ?]]; auto.
    + exists x. split; [done|]. apply map_subseteq_size, delete_subseteq.
  - intros pane id name value. rewrite (set_user_option_exact a identity s).
    + unfold after_command. rewrite Hu. by case_bool_decide.
    + unfold set_user_option. by rewrite Hu.
Qed.

Lemma size_insert_option (o : gmap str str) name value :
  (size (<[name := value]> o) ≤ size o + (if is_some (o !! name) then 0 else 1))%nat.
Proof. rewrite map_size_insert. by destruct (o !! name); simpl; lia. Qed.

Lemma entries_set (options : UserOptions) identity name value :
  let o := default ∅ (options !! identity) in
  (entries (<[identity := <[name := value]> o]> options) ≤
   entries options + (if is_some (options !! identity ≫= λ o, o !! name) then 0 else 1))%nat.
Proof.
  cbv zeta. destruct (options !! identity) as [o|] eqn:Ho; simpl.
  - rewrite -(insert_delete_eq options identity) entries_insert; [|apply lookup_delete_eq].
    rewrite (entries_delete options identity o Ho). pose proof (size_insert_option o name value). lia.
  - rewrite entries_insert //. pose proof (size_insert_option ∅ name value) as H. rewrite lookup_empty map_size_empty /= in H. lia.
Qed.

(** The maps of a store after a value is set. *)
Definition put_option (a : UserOptionArgs) (value : str) (identity : str) (s : CompatStore) : CompatStore :=
  let options := options_of (uo_pane a) s in
  set_options_of (uo_pane a) s (<[identity := <[uo_name a := value]> (default ∅ (options !! identity))]> options).

Lemma put_option_counts a value identity s :
  let new := if is_some (option_of (uo_pane a) s identity (uo_name a)) then 0%nat else 1%nat in
  let fresh := if is_some (st_pane_user_options s !! identity) || is_some (st_session_user_options s !! identity) then 0%nat else 1%nat in
  let s' := put_option a value identity s in
  (user_option_identity_count s' ≤ user_option_identity_count s + fresh)%nat ∧
  (user_option_entry_count s' ≤ user_option_entry_count s + new)%nat ∧
  (∀ id, (identity_entries id s' ≤ identity_entries id s + if bool_decide (id = identity) then new else 0)%nat).
Proof.
  cbv zeta. split_and!.
  - unfold user_option_identity_count.
    assert (dom (st_pane_user_options (put_option a value identity s)) ∪ dom (st_session_user_options (put_option a value identity s))
      = {[ identity ]} ∪ (dom (st_pane_user_options s) ∪ dom (st_session_user_options s) : gset str)) as ->.
    { unfold put_option. destruct (uo_pane a); simpl; rewrite dom_insert_L; set_solver. }
    destruct (is_some (st_pane_user_options s !! identity) || _) eqn:Hin.
    + rewrite subseteq_union_1_L; [lia|]. intros ? ->%elem_of_singleton. rewrite elem_of_union !elem_of_dom.
      destruct (st_pane_user_options s !! identity); [left; by eexists|]. destruct (st_session_user_options s !! identity); [right; by eexists|done].
    + rewrite size_union; [rewrite size_singleton; lia|]. apply orb_false in Hin as [H1 H2].
      intros ? ->%elem_of_singleton. rewrite elem_of_union !elem_of_dom.
      by intros [[x Hx]|[x Hx]]; [rewrite Hx in H1|rewrite Hx in H2].
  - unfold user_option_entry_count, put_option, option_of. destruct (uo_pane a); simpl.
    + pose proof (entries_set (st_pane_user_options s) identity (uo_name a) value) as H. simpl in H. lia.
    + pose proof (entries_set (st_session_user_options s) identity (uo_name a) value) as H. simpl in H. lia.
  - intros id. unfold identity_entries, put_option, option_of. destruct (uo_pane a); simpl.
    + case_bool_decide as Hid; [subst id|rewrite lookup_insert_ne //; lia]. rewrite lookup_insert_eq /=.
      destruct (st_pane_user_options s !! identity) as [o|]; simpl;
        [pose proof (size_insert_option o (uo_name a) value)|pose proof (size_insert_option ∅ (uo_name a) value) as H; rewrite lookup_empty /= in H]; lia.
    + case_bool_decide as Hid; [subst id|rewrite lookup_insert_ne //; lia]. rewrite lookup_insert_eq /=.
      destruct (st_session_user_options s !! identity) as [o|]; simpl;
        [pose proof (size_insert_option o (uo_name a) value)|pose proof (size_insert_option ∅ (uo_name a) value) as H; rewrite lookup_empty /= in H]; lia.
Qed.

Lemma set_user_option_ok a identity s s' :
  validate_user_option_name (uo_name a) = Ok tt → (∀ value, uo_value a = Some value → validate_user_option_value value = Ok tt) →
  options_ok s → set_user_option a identity s = Ok s' → options_ok s'.
Proof.
  intros Hname Hvalue Hok Hs. pose proof (set_user_option_exact a identity s s' Hs) as Hexact.
  unfold set_user_option in Hs. destruct (uo_unset a) eqn:Hu.
  { simplify_eq. by eapply options_below_ok, Hok; apply unset_below. }
  inv_ok. destruct (uo_value a) as [w|] eqn:Hv; simplify_eq/=. inv_ok. simplify_eq/=. rename x into value.
  fold (put_option a value identity s) in Hexact |- *.
  destruct Hok as [H1 H2 H3 H4].
  destruct (put_option_counts a value identity s) as (Hids & Hents & Heach). cbv zeta in *.
  assert (validate_user_option_name (uo_name a) = Ok tt ∧ validate_user_option_value value = Ok tt) as Hnew by auto.
  assert (∀ pane id name v, option_of pane (put_option a value identity s) id name = Some v →
    validate_user_option_name name = Ok tt ∧ validate_user_option_value v = Ok tt) as Hvalid.
  { intros pane id name v. rewrite Hexact. unfold after_command. rewrite Hu Hv. case_bool_decide as Hsame; [|by apply H4].
    destruct Hsame as (_ & _ & ->). by intros [= <-]. }
  unfold check_user_option_limits in *. destruct (is_some (option_of (uo_pane a) s identity (uo_name a))) eqn:Hex.
  - split; [|lia| |done].
    + unfold option_of in Hex. destruct (uo_pane a); simpl in Hex;
        destruct (st_pane_user_options s !! identity), (st_session_user_options s !! identity); simpl in *; try done; lia.
    + intros id. specialize (H3 id). specialize (Heach id). destruct (bool_decide (id = identity)); lia.
  - inv_ok. rewrite ->Nat.leb_gt in *. split; [|lia| |done].
    + destruct (is_some (st_pane_user_options s !! identity) || is_some (st_session_user_options s !! identity)); cbn [negb andb] in *; [lia|].
      rewrite ->Nat.leb_gt in *. lia.
    + intros id. specialize (H3 id). specialize (Heach id). case_bool_decide; [subst id|]; lia.
Qed.

(** ** The commands *)

Section commands.
Context (to_vec_pretty : CompatStore → list byte) (from_slice : list byte → option CompatStore).
Context (codec : ∀ s, from_slice (to_vec_pretty s) = Some s).
Context (pid : Z) (clock : nat → Z).
Local Abbreviation stored := (store_of from_slice).

(** The option that a directory holds under a name. *)
Definition held (dir : Dir) (pane : bool) (identity name : str) : option str := option_of pane (stored dir) identity name.

(** What is left of the options when only some identities live. *)
Definition of_live (live : gset str) (options : bool → str → str → option str) (pane : bool) (identity name : str) : option str :=
  if bool_decide (identity ∈ live) then options pane identity name else None.

Lemma set_option_cases args target sessions io dir r dir' :
  set_option to_vec_pretty from_slice pid clock args target sessions io dir = (r, dir') →
  (dir' = dir ∧ (r = Ok tt → actual_user_option_name args CmdSet = None)) ∨
  ∃ a identity, actual_user_option_name args CmdSet = Some (uo_name a) ∧
    parse_user_option_args args true = Ok a ∧ validate_user_option_name (uo_name a) = Ok tt ∧
    (∀ value, uo_value a = Some value → validate_user_option_value value = Ok tt) ∧
    user_option_identity_from_snapshot a target sessions = Ok identity ∧
    update_store to_vec_pretty from_slice pid clock io (λ s,
      (λ s, (tt, s)) <$> set_user_option a identity (prune_user_options (live_identities sessions) s)) dir = (r, dir').
Proof.
  unfold set_option. destruct (actual_user_option_name args CmdSet) as [name|] eqn:Hroute; simpl.
  2:{ intros [= <- <-]. by left. }
  unfold mbind, M_bind, lift. destruct (parse_user_option_args args true) as [a|e] eqn:Hp; [|by intros [= <- <-]; left].
  destruct (validate_user_option_name (uo_name a)) as [[]|e] eqn:Hn; [|by intros [= <- <-]; left].
  destruct (match uo_value a with Some _ => _ | None => _ end) as [[]|e] eqn:Hv; [|by intros [= <- <-]; left].
  rewrite mutate_user_option_update. destruct (user_option_identity_from_snapshot a target sessions) as [identity|e] eqn:Hi; [|by intros [= <- <-]; left].
  intros H. right. exists a, identity. split_and!; [|done..| |done|done].
  - pose proof (routed_name args true a Hp) as Hname. simpl in Hname. unfold option_name in Hname.
    unfold validate_user_option_name in Hn. apply bail_if_Ok in Hn. apply orb_false in Hn as [[_ Hat]%orb_false _].
    apply negb_false_iff in Hat. rewrite Hat in Hname. congruence.
  - intros value Hval. by rewrite Hval in Hv.
Qed.

(** C34: the user options are a map from scopes, identities and names to values.  A set-option that
    succeeds is the change its line names, on the identity that the target resolves to, and
    nothing else but that the options of sessions that are gone are dropped; one that fails
    changes no option at all, whatever went wrong; and show-option prints what the map holds. *)
Theorem user_options_refine_map args target sessions io dir r dir' :
  set_option to_vec_pretty from_slice pid clock args target sessions io dir = (r, dir') →
  match r with
  | Err _ => held dir' = held dir
  | Ok _ => (actual_user_option_name args CmdSet = None ∧ dir' = dir) ∨
    ∃ a identity, parse_user_option_args args true = Ok a ∧ user_option_identity_from_snapshot a target sessions = Ok identity ∧
      ∀ pane id name, held dir' pane id name =
        after_command a identity (of_live (live_identities sessions) (held dir)) pane id name
  end ∧
  ∀ args' target' sessions' out dir'',
    show_option from_slice pid clock args' target' sessions' dir' = (Ok (Some out), dir'') →
    ∃ a identity, parse_user_option_args args' false = Ok a ∧ user_option_identity_from_snapshot a target' sessions' = Ok identity ∧
      held dir'' = held dir' ∧
      match held dir' (uo_pane a) identity (uo_name a) with
      | Some value => out = (if uo_value_only a then value else uo_name a ++ [0x20] ++ value) ++ [0x0a]
      | None => uo_quiet a = true ∧ out = []
      end.
Proof.
  intros H. split.
  - apply set_option_cases in H as [[-> Hr]|(a & identity & Hroute & Hp & _ & _ & Hi & H)].
    { destruct r as [[]|e]; [left; auto|done]. }
    apply update_store_spec in H as [_ H]; [|done]. destruct r as [[]|e].
    + right. exists a, identity. split_and!; [done..|]. destruct H as (s' & Hf & _ & Hs'). intros pane id name.
      destruct (set_user_option _ _ _) as [s|] eqn:Hset; simplify_eq/=. unfold held.
      rewrite (set_user_option_exact _ _ _ _ Hset). unfold after_command, of_live, held. by rewrite option_of_prune.
    + unfold held. by rewrite H.
  - clear H. intros args' target' sessions' out dir''. unfold show_option.
    destruct (negb _); [by intros [= ?]|]. unfold mbind, M_bind, lift.
    destruct (parse_user_option_args args' false) as [a|e] eqn:Hp; [|done].
    destruct (validate_user_option_name (uo_name a)); [|done]. unfold read_user_option, mbind, M_bind, lift.
    destruct (user_option_identity_from_snapshot a target' sessions') as [identity|e] eqn:Hi; [|done].
    pose proof (load_shim_store_spec to_vec_pretty from_slice pid clock dir') as Hload.
    destruct (load_store _ _ _ dir') as [[s|e] dir1]; [|done]. destruct Hload as (-> & Hsame & _). simpl.
    intros Hout. exists a, identity. split_and!; [done..| |].
    + unfold held. destruct (option_of _ _ _ _); [|destruct (uo_quiet a)]; unfold mret, M_ret, throw in Hout; simplify_eq; by rewrite Hsame.
    + unfold held. destruct (option_of _ _ _ _); [|destruct (uo_quiet a)]; unfold mret, M_ret, throw in Hout; by simplify_eq.
Qed.
End commands.
