(* ===== verification/TmuxWait.v ===== *)
(** The channels of [tmux wait-for] ([wait_for], [prune_wait_generations], [tmux_compat.rs]).

    A channel has a generation in the store that every signal adds to.  A waiter notes the
    generation and then looks at it again and again; a channel that nobody touched for a week,
    or that is one too many, is dropped.  The store of channels is a hash map, so the order in
    which its keys come is a parameter. *)
From S2P Require Import Prelude Utf8 Protocol Text TmuxArgs TmuxCommands TmuxOptions TmuxStore.

Definition WAIT_GENERATION_RETENTION_SECS : Z := 7 * 24 * 60 * 60.
Definition WAIT_GENERATION_MAX_CHANNELS : nat := N.to_nat 4096.
Definition WAIT_GENERATION_MAX_CHANNEL_BYTES : Z := 1024.
(** Instants and durations are in milliseconds. *)
Definition WAIT_GENERATION_TOUCH_INTERVAL : Z := 30000.
Definition WAIT_GENERATION_FORCE_READ_INTERVAL : Z := 1000.

(** ** The line *)

Definition wait_for_step (arg : str) (rest : list str) (s : result StoreError (bool * option str))
    : arg_step (result StoreError (bool * option str)) :=
  match s with
  | Err e => Stop (Err e)
  | Ok (signal, channel) =>
    if bool_decide (arg = lit "-S") then
      match head rest with
      | Some value => Next (Ok (true, Some value)) true
      | None => Stop (Err (Line (MissingValue (flag_char "S"))))
      end
    else if bool_decide (arg = lit "-L") || bool_decide (arg = lit "-U") then Stop (Err LockUnsupported)
    else Next (Ok (signal, Some arg)) false
  end.

Definition validate_wait_channel (channel : str) : result StoreError unit :=
  bail_if (bool_decide (channel = [])) ChannelEmpty ;;
  bail_if (WAIT_GENERATION_MAX_CHANNEL_BYTES <? str_len channel) ChannelTooLong ;;
  bail_if (existsb is_control channel) ChannelControl.

Definition parse_wait_for (args : list str) : result StoreError (bool * str) :=
  '(signal, channel) ← args_loop wait_for_step args (Ok (false, None));
  channel ← ok_or channel NoChannel;
  validate_wait_channel channel ;; Ok (signal, channel).

(** ** Generations *)

(** [sort_by_key]: earlier keys first, equal keys in the order they came. *)
Fixpoint insert_by_key (x : str * Z) (l : list (str * Z)) : list (str * Z) :=
  match l with
  | [] => [x]
  | y :: l' => if x.2 <=? y.2 then x :: l else y :: insert_by_key x l'
  end.
Definition sort_by_key (l : list (str * Z)) : list (str * Z) := foldr insert_by_key [] l.

Section generations.
(** The order in which a hash map gives its keys. *)
Context (hash_order : gmap str Z → list str).

Definition generation (s : CompatStore) (channel : str) : Z := default 0 (st_wait_generations s !! channel).

Definition remove_channel (s : CompatStore) (channel : str) : CompatStore :=
  with_waits s (delete channel (st_wait_generations s)) (delete channel (st_wait_generation_touched_secs s)).

(** [or_insert(now)] for every channel. *)
Definition touch_untouched (now : Z) (s : CompatStore) : CompatStore :=
  with_waits s (st_wait_generations s)
    (st_wait_generation_touched_secs s ∪ ((λ _, now) <$> st_wait_generations s)).

Definition stale_channels (cutoff : Z) (protected : option str) (s : CompatStore) : list str :=
  List.filter (λ channel, negb (bool_decide (protected = Some channel))
                          && is_some_and (st_wait_generation_touched_secs s !! channel) (λ t, t <? cutoff))
    (hash_order (st_wait_generation_touched_secs s)).

Definition drop_orphans (s : CompatStore) : CompatStore :=
  with_waits s (st_wait_generations s)
    (filter (λ '(channel, _), is_Some (st_wait_generations s !! channel)) (st_wait_generation_touched_secs s)).

(** The oldest channels beyond the limit. *)
Definition overflow_channels (now : Z) (protected : option str) (s : CompatStore) : list str :=
  let candidates := List.filter (λ channel, negb (bool_decide (protected = Some channel))) (hash_order (st_wait_generations s)) in
  let dated := (λ channel, (channel, default now (st_wait_generation_touched_secs s !! channel))) <$> candidates in
  fst <$> take (size (st_wait_generations s) - WAIT_GENERATION_MAX_CHANNELS) (sort_by_key dated).

Definition prune_wait_generations (now : Z) (protected : option str) (s : CompatStore) : CompatStore :=
  let cutoff := saturating_sub now WAIT_GENERATION_RETENTION_SECS in
  let s := touch_untouched now s in
  let s := foldl remove_channel s (stale_channels cutoff protected s) in
  let s := drop_orphans s in
  if (size (st_wait_generations s) <=? WAIT_GENERATION_MAX_CHANNELS)%nat then s
  else foldl remove_channel s (overflow_channels now protected s).

Definition touch_wait_generation (now : Z) (channel : str) (s : CompatStore) : CompatStore :=
  with_waits s (st_wait_generations s) (<[channel := now]> (st_wait_generation_touched_secs s)).

Definition touch_existing_wait_generation (now : Z) (channel : str) (s : CompatStore) : CompatStore :=
  if is_some (st_wait_generations s !! channel) then touch_wait_generation now channel s else s.

(** The changes of the store: [now] is the clock of the pruning, [touched] the one after it. *)
Definition signal_channel (now touched : Z) (channel : str) (s : CompatStore) : result StoreError (unit * CompatStore) :=
  let s := prune_wait_generations now None s in
  let s := with_waits s (<[channel := saturating_add u64_max (generation s channel) 1]> (st_wait_generations s))
             (st_wait_generation_touched_secs s) in
  Ok (tt, touch_wait_generation touched channel s).

Definition watch_channel (now touched : Z) (channel : str) (s : CompatStore) : result StoreError (Z * CompatStore) :=
  let s := prune_wait_generations now (Some channel) s in
  let s := touch_existing_wait_generation touched channel s in
  Ok (generation s channel, s).

Definition wait_generation_has_advanced (observed_generation current_generation : Z) : bool :=
  (observed_generation <? current_generation)
  || (0 <? observed_generation) && (0 <? current_generation) && (current_generation <? observed_generation).

(** ** The loop of a waiter *)

(** The length of the store file and when it was written; the answer of [stat] is the
    system's. *)
Definition StoreSignature : Type := option (Z * option Z).

Record WaitLoop : Type := {
  wl_next_touch : Z; wl_last_store_signature : option StoreSignature; wl_last_forced_read : Z; wl_sleep_for : Z }.

Definition should_read_wait_store (current last : option StoreSignature) (now last_forced_read : Z) : bool :=
  negb (bool_decide (current = last))
  || (WAIT_GENERATION_FORCE_READ_INTERVAL <=? saturating_sub now last_forced_read).

(** What the system answers in a turn: the two signatures, the two clocks, the fate of a save. *)
Record WaitEnv : Type := { we_now : Z; we_before : option StoreSignature; we_after : option StoreSignature;
  we_prune : Z; we_touch : Z; we_io : SaveIo }.

Context (to_vec_pretty : CompatStore → list byte) (from_slice : list byte → option CompatStore).
Context (pid : Z) (clock : nat → Z).
Local Abbreviation update := (update_store to_vec_pretty from_slice pid clock).
Local Abbreviation read := (read_store from_slice pid clock).

Definition signal (channel : str) (env : WaitEnv) : M Dir StoreError unit :=
  update (we_io env) (signal_channel (we_prune env) (we_touch env) channel).
Definition watch (channel : str) (env : WaitEnv) : M Dir StoreError Z :=
  update (we_io env) (watch_channel (we_prune env) (we_touch env) channel).

(** The state of a waiter before its first turn. *)
Definition start_wait (env : WaitEnv) : WaitLoop := {|
  wl_next_touch := we_now env + WAIT_GENERATION_TOUCH_INTERVAL; wl_last_store_signature := we_before env;
  wl_last_forced_read := we_now env; wl_sleep_for := 100 |}.

(** One turn of the loop, up to its sleep: whether the channel has advanced, or the loop's
    state of the next turn. *)
Definition wait_turn (channel : str) (observed : Z) (w : WaitLoop) (env : WaitEnv) : M Dir StoreError (bool * WaitLoop) :=
  let now := we_now env in
  '(current, w) ←
    (if wl_next_touch w <=? now then
       current ← watch channel env;
       mret (current, {| wl_next_touch := now + WAIT_GENERATION_TOUCH_INTERVAL; wl_last_store_signature := we_after env;
                         wl_last_forced_read := now; wl_sleep_for := wl_sleep_for w |})
     else if should_read_wait_store (we_before env) (wl_last_store_signature w) now (wl_last_forced_read w) then
       current ← read (λ s, Ok (generation s channel));
       mret (current, {| wl_next_touch := wl_next_touch w; wl_last_store_signature := we_after env;
                         wl_last_forced_read := now; wl_sleep_for := wl_sleep_for w |})
     else mret (observed, w));
  mret (wait_generation_has_advanced observed current,
        {| wl_next_touch := wl_next_touch w; wl_last_store_signature := wl_last_store_signature w;
           wl_last_forced_read := wl_last_forced_read w; wl_sleep_for := Z.min (wl_sleep_for w + 100) 1000 |}).
End generations.

(** ** The sort *)

Definition not_after (x y : str * Z) : Prop := x.2 ≤ y.2.

Lemma insert_by_key_perm x l : insert_by_key x l ≡ₚ x :: l.
Proof. induction l as [|y l IH]; simpl; [done|]. case_match; [done|]. rewrite IH. constructor. Qed.

Lemma sort_by_key_perm l : sort_by_key l ≡ₚ l.
Proof. induction l as [|x l IH]; simpl; [done|]. by rewrite insert_by_key_perm IH. Qed.

Lemma sort_by_key_sorted l : StronglySorted not_after (sort_by_key l).
Proof.
  induction l as [|x l IH]; simpl; [constructor|].
  induction (sort_by_key l) as [|y k IHk]; simpl; [repeat constructor|].
  apply StronglySorted_inv in IH as [Hk Hy]. destruct (x.2 <=? y.2) eqn:Hle.
  - constructor; [by constructor|]. constructor; [unfold not_after; lia|].
    eapply Forall_impl; [exact Hy|]. unfold not_after. intros z. lia.
  - constructor; [by apply IHk|]. rewrite insert_by_key_perm. constructor; [unfold not_after; lia|done].
Qed.

(** ** Pruning *)

Definition generations_of (s : CompatStore) : gmap str Z := st_wait_generations s.
Definition touched_of (s : CompatStore) : gmap str Z := st_wait_generation_touched_secs s.

Lemma remove_channels_lookup channels s channel :
  generations_of (foldl remove_channel s channels) !! channel =
    (if bool_decide (channel ∈ channels) then None else generations_of s !! channel) ∧
  touched_of (foldl remove_channel s channels) !! channel =
    (if bool_decide (channel ∈ channels) then None else touched_of s !! channel).
Proof.
  revert s. induction channels as [|c l IH]; intros s; simpl; [done|].
  destruct (IH (remove_channel s c)) as [-> ->]. unfold generations_of, touched_of. simpl.
  rewrite !(bool_decide_ext (channel ∈ c :: l) _ (elem_of_cons l channel c)).
  destruct (decide (channel = c)) as [->|Hne].
  - rewrite (bool_decide_true (_ ∨ _)); [|by left]. rewrite !lookup_delete_eq. by case_bool_decide.
  - rewrite !lookup_delete_ne //. rewrite (bool_decide_ext (channel = c ∨ channel ∈ l) (channel ∈ l)) //. naive_solver.
Qed.

Lemma remove_channels_size channels s :
  NoDup channels → (∀ c, c ∈ channels → is_Some (generations_of s !! c)) →
  size (generations_of (foldl remove_channel s channels)) = (size (generations_of s) - length channels)%nat.
Proof.
  revert s. induction channels as [|c l IH]; intros s Hnd Hin; simpl; [lia|]. apply NoDup_cons in Hnd as [Hc Hnd].
  rewrite IH //.
  - unfold generations_of. simpl. rewrite map_size_delete_Some; [|apply Hin; by left]. lia.
  - intros c' Hc'. unfold generations_of. simpl. rewrite lookup_delete_ne; [apply Hin; by right|by intros ->].
Qed.

(** The rest of the store is left alone. *)
Definition same_but_waits (s s' : CompatStore) : Prop :=
  st_panes s' = st_panes s ∧ st_pane_user_options s' = st_pane_user_options s ∧
  st_session_user_options s' = st_session_user_options s ∧ st_managed_attaches s' = st_managed_attaches s.

#[global] Instance same_but_waits_preorder : PreOrder same_but_waits.
Proof. split; [by repeat split|]. intros s1 s2 s3 (?&?&?&?) (?&?&?&?). split_and!; congruence. Qed.

Lemma remove_channels_same channels s : same_but_waits s (foldl remove_channel s channels).
Proof. revert s. induction channels as [|c l IH]; intros s; simpl; [done|]. etrans; [|apply IH]. done. Qed.

Section prune.
Context (hash_order : gmap str Z → list str).
Context (hash_order_keys : ∀ m, hash_order m ≡ₚ (map_to_list m).*1).

Lemma hash_order_elem m c : c ∈ hash_order m ↔ is_Some (m !! c).
Proof.
  rewrite hash_order_keys list_elem_of_fmap. split.
  - intros ([k x] & -> & H%elem_of_map_to_list). by exists x.
  - intros [x H]. exists (c, x). split; [done|]. by apply elem_of_map_to_list.
Qed.

Lemma hash_order_NoDup m : NoDup (hash_order m).
Proof. rewrite hash_order_keys. apply NoDup_fst_map_to_list. Qed.

Lemma hash_order_length m : length (hash_order m) = size m.
Proof. by rewrite hash_order_keys length_fmap length_map_to_list. Qed.

Lemma stale_channels_elem cutoff protected s c :
  c ∈ stale_channels hash_order cutoff protected s ↔
  protected ≠ Some c ∧ ∃ t, touched_of s !! c = Some t ∧ t < cutoff.
Proof.
  unfold stale_channels. rewrite elem_of_filter_bool hash_order_elem. fold (touched_of s). split.
  - intros [[t Ht] [H1 H2]%andb_true]. rewrite Ht in H2. simpl in H2. apply negb_true_iff, bool_decide_eq_false in H1.
    split; [done|]. exists t. split; [done|lia].
  - intros [H1 (t & Ht & H2)]. rewrite Ht. split; [by eexists|]. rewrite bool_decide_false //. simpl. lia.
Qed.

(** The state of the pruning before it counts. *)
Definition fresh_channels (now : Z) (protected : option str) (s : CompatStore) : CompatStore :=
  let s := touch_untouched now s in
  drop_orphans (foldl remove_channel s (stale_channels hash_order (saturating_sub now WAIT_GENERATION_RETENTION_SECS) protected s)).

Lemma touch_untouched_touched now s c :
  touched_of (touch_untouched now s) !! c =
  match touched_of s !! c with Some t => Some t | None => (λ _, now) <$> generations_of s !! c end.
Proof. unfold touched_of, touch_untouched. simpl. rewrite lookup_union lookup_fmap. by destruct (_ !! c), (_ !! c). Qed.

Lemma drop_orphans_lookup s c :
  generations_of (drop_orphans s) = generations_of s ∧
  touched_of (drop_orphans s) !! c = if is_some (generations_of s !! c) then touched_of s !! c else None.
Proof.
  split; [done|]. unfold touched_of, drop_orphans, generations_of. cbn [st_wait_generation_touched_secs with_waits].
  rewrite map_lookup_filter. destruct (st_wait_generation_touched_secs s !! c); simpl; [|by case_match].
  destruct (st_wait_generations s !! c); [by rewrite option_guard_True|by rewrite option_guard_False // => -[]].
Qed.

(** A channel is dropped before the count exactly when its last touch is too old. *)
Lemma fresh_channels_lookup now protected s c :
  generations_of (fresh_channels now protected s) !! c =
    (if bool_decide (protected ≠ Some c ∧ default now (touched_of s !! c) < saturating_sub now WAIT_GENERATION_RETENTION_SECS)
     then None else generations_of s !! c) ∧
  touched_of (fresh_channels now protected s) !! c =
    (if is_some (generations_of (fresh_channels now protected s) !! c) then Some (default now (touched_of s !! c)) else None).
Proof.
  unfold fresh_channels. set (cutoff := saturating_sub now WAIT_GENERATION_RETENTION_SECS).
  set (s1 := touch_untouched now s). set (gone := stale_channels hash_order cutoff protected s1). cbv zeta.
  destruct (drop_orphans_lookup (foldl remove_channel s1 gone) c) as [-> ->].
  destruct (remove_channels_lookup gone s1 c) as [-> ->]. change (generations_of s1) with (generations_of s).
  assert (c ∈ gone ↔ protected ≠ Some c ∧ ∃ t, touched_of s1 !! c = Some t ∧ t < cutoff) as Hgone by apply stale_channels_elem.
  unfold s1 in *. rewrite touch_untouched_touched in Hgone |- *. split.
  - destruct (generations_of s !! c) as [g|] eqn:Hc; [|by repeat case_bool_decide].
    erewrite bool_decide_ext; [done|]. rewrite Hgone. destruct (touched_of s !! c); simpl; naive_solver.
  - destruct (bool_decide (c ∈ gone)); [done|]. destruct (generations_of s !! c) as [g|] eqn:Hc; simpl; [|done].
    by destruct (touched_of s !! c).
Qed.

Lemma overflow_channels_spec now protected s :
  (WAIT_GENERATION_MAX_CHANNELS < size (generations_of s))%nat →
  NoDup (overflow_channels hash_order now protected s) ∧
  length (overflow_channels hash_order now protected s) = (size (generations_of s) - WAIT_GENERATION_MAX_CHANNELS)%nat ∧
  (∀ c, c ∈ overflow_channels hash_order now protected s → protected ≠ Some c ∧ is_Some (generations_of s !! c)) ∧
  (∀ c c', c ∈ overflow_channels hash_order now protected s → c' ∉ overflow_channels hash_order now protected s →
    protected ≠ Some c' → is_Some (generations_of s !! c') →
    default now (touched_of s !! c) ≤ default now (touched_of s !! c')).
Proof.
  intros Hsize. unfold overflow_channels. fold (generations_of s) (touched_of s).
  set (ok := λ channel, negb (bool_decide (protected = Some channel))).
  set (candidates := List.filter ok (hash_order (generations_of s))).
  set (date := λ channel, (channel, default now (touched_of s !! channel))).
  set (n := (size (generations_of s) - WAIT_GENERATION_MAX_CHANNELS)%nat).
  assert (NoDup candidates) as Hnd by (eapply sublist_NoDup; [apply hash_order_NoDup|apply filter_sublist]).
  assert (∀ c, c ∈ candidates ↔ protected ≠ Some c ∧ is_Some (generations_of s !! c)) as Hin.
  { intros c. unfold candidates. rewrite elem_of_filter_bool hash_order_elem. unfold ok. rewrite negb_true_iff bool_decide_eq_false. tauto. }
  assert (n ≤ length candidates)%nat as Hn.
  { assert (hash_order (generations_of s) ⊆+ option_list protected ++ candidates) as Hsub.
    { apply NoDup_submseteq; [apply hash_order_NoDup|]. intros c. rewrite hash_order_elem elem_of_app Hin.
      destruct (decide (protected = Some c)) as [->|]; [left; by left|auto]. }
    apply submseteq_length in Hsub. rewrite length_app hash_order_length in Hsub.
    unfold n, WAIT_GENERATION_MAX_CHANNELS. destruct protected; simpl in Hsub; lia. }
  set (l := sort_by_key (date <$> candidates)).
  assert (fst <$> l ≡ₚ candidates) as Hperm.
  { unfold l. rewrite sort_by_key_perm -list_fmap_compose. by rewrite (list_fmap_ext _ id) ?list_fmap_id. }
  assert (∀ x, x ∈ l → x = date x.1) as Hdate.
  { intros x. unfold l. rewrite sort_by_key_perm list_elem_of_fmap. by intros (c & -> & _). }
  assert (length l = length candidates) as Hlen by by rewrite -Hperm length_fmap.
  split_and!.
  - rewrite -Hperm -(take_drop n l) fmap_app in Hnd. by apply NoDup_app in Hnd as [? _].
  - rewrite length_fmap length_take. lia.
  - intros c Hc. apply Hin. rewrite -Hperm -(take_drop n l) fmap_app elem_of_app. by left.
  - intros c c' Hc Hc' Hp Hgen. apply list_elem_of_fmap in Hc as (x & -> & Hx).
    assert (c' ∈ fst <$> drop n l) as Hd.
    { assert (c' ∈ candidates) as Hcand by by apply Hin. rewrite -Hperm -(take_drop n l) fmap_app elem_of_app in Hcand. tauto. }
    apply list_elem_of_fmap in Hd as (y & -> & Hy).
    pose proof (sort_by_key_sorted (date <$> candidates)) as Hsort. fold l in Hsort. rewrite -(take_drop n l) in Hsort.
    pose proof (StronglySorted_app_1_elem_of _ _ _ x y Hsort Hx Hy) as Hle. unfold not_after in Hle.
    assert (x = date x.1) as Hdx by (apply Hdate; rewrite -(take_drop n l); set_solver).
    assert (y = date y.1) as Hdy by (apply Hdate; rewrite -(take_drop n l); set_solver).
    rewrite Hdx Hdy in Hle. done.
Qed.

Lemma prune_cases now protected s :
  prune_wait_generations hash_order now protected s =
  if (size (generations_of (fresh_channels now protected s)) <=? WAIT_GENERATION_MAX_CHANNELS)%nat then fresh_channels now protected s
  else foldl remove_channel (fresh_channels now protected s) (overflow_channels hash_order now protected (fresh_channels now protected s)).
Proof. done. Qed.

(** What is left of a channel. *)
Lemma prune_lookup now protected s :
  (∀ c g, generations_of (prune_wait_generations hash_order now protected s) !! c = Some g → generations_of s !! c = Some g) ∧
  (∀ c t, touched_of (prune_wait_generations hash_order now protected s) !! c = Some t →
    is_Some (generations_of (prune_wait_generations hash_order now protected s) !! c) ∧ t = default now (touched_of s !! c)) ∧
  (size (generations_of (prune_wait_generations hash_order now protected s)) ≤ WAIT_GENERATION_MAX_CHANNELS)%nat.
Proof.
  rewrite prune_cases.
  assert (∀ c, generations_of (fresh_channels now protected s) !! c = None ∨
    generations_of (fresh_channels now protected s) !! c = generations_of s !! c) as Hsub.
  { intros c. destruct (fresh_channels_lookup now protected s c) as [-> _]. case_bool_decide; auto. }
  pose proof (λ c, proj2 (fresh_channels_lookup now protected s c)) as Htouch.
  destruct (_ <=? _)%nat eqn:Hle.
  - apply Nat.leb_le in Hle. split_and!; [..|done].
    + intros c g Hg. destruct (Hsub c); congruence.
    + intros c t. rewrite Htouch. by destruct (generations_of (fresh_channels now protected s) !! c); [intros [= <-]|].
  - apply Nat.leb_gt in Hle. destruct (overflow_channels_spec now protected _ Hle) as (Hnd & Hlen & Hin & _).
    split_and!.
    + intros c g. destruct (remove_channels_lookup (overflow_channels hash_order now protected (fresh_channels now protected s))
        (fresh_channels now protected s) c) as [-> _]. case_bool_decide; [done|]. destruct (Hsub c); congruence.
    + intros c t. destruct (remove_channels_lookup (overflow_channels hash_order now protected (fresh_channels now protected s))
        (fresh_channels now protected s) c) as [-> ->]. case_bool_decide; [done|].
      rewrite Htouch. by destruct (generations_of (fresh_channels now protected s) !! c); [intros [= <-]|].
    + rewrite remove_channels_size //; [lia|]. intros c Hc. by apply Hin.
Qed.

(** A channel that was touched within the week stays unless there are too many. *)
Lemma prune_keeps now protected s c :
  protected = Some c ∨ saturating_sub now WAIT_GENERATION_RETENTION_SECS ≤ default now (touched_of s !! c) →
  protected = Some c ∨ (size (generations_of s) ≤ WAIT_GENERATION_MAX_CHANNELS)%nat →
  generations_of (prune_wait_generations hash_order now protected s) !! c = generations_of s !! c.
Proof.
  intros Hrecent Hroom.
  assert (generations_of (fresh_channels now protected s) !! c = generations_of s !! c) as Hfresh.
  { destruct (fresh_channels_lookup now protected s c) as [-> _]. rewrite bool_decide_false //. intros [Hp Hold].
    destruct Hrecent; [done|lia]. }
  rewrite prune_cases.
  destruct (_ <=? _)%nat eqn:Hle; [done|]. apply Nat.leb_gt in Hle.
  destruct (overflow_channels_spec now protected _ Hle) as (_ & _ & Hin & _).
  destruct (remove_channels_lookup (overflow_channels hash_order now protected (fresh_channels now protected s))
    (fresh_channels now protected s) c) as [-> _]. rewrite bool_decide_false //.
  intros [Hp _]%Hin. destruct Hroom as [?|Hroom]; [done|].
  assert (size (generations_of (fresh_channels now protected s)) ≤ size (generations_of s))%nat; [|lia].
  apply map_subseteq_size, map_subseteq_spec. intros c' g. destruct (fresh_channels_lookup now protected s c') as [-> _].
  by case_bool_decide.
Qed.
End prune.
