(* ===== verification/TmuxAttach.v ===== *)
(** Leases of managed attaches ([prepare_managed_attach], [claim_managed_attach],
    [tmux_compat.rs]): while a pane is shown on one cmux surface, an attach of it on another
    surface gives way.

    A lease names the process that holds it with the identity of its start, so that a pid that
    was given to another process does not keep a lease.  What the system says of processes at a
    call is the argument [env]. *)
From S2P Require Import Prelude Utf8 Protocol Text TmuxArgs TmuxCommands TmuxOptions TmuxStore.

Definition MANAGED_ATTACH_LEASE_TTL_SECS : Z := 120.

Record CmuxSurfaceContext : Set := { cx_surface_ref : str; cx_workspace_ref : option str; cx_window_ref : option str }.
#[global] Instance CmuxSurfaceContext_eq : EqDecision CmuxSurfaceContext.
Proof. solve_decision. Defined.

(** Signal 0 to a pid, the start of its process, the caller's pid, the clock of the call. *)
Record ProcEnv : Type := { pe_kill_zero : Z → bool; pe_start : Z → option str; pe_self : Z; pe_now : Z }.

Definition i32_max : Z := 2147483647.
Definition process_is_live (env : ProcEnv) (pid : Z) : bool :=
  if pid =? 0 then false else if i32_max <? pid then false else pe_kill_zero env pid.

Definition lease_owner_is_live (env : ProcEnv) (lease : ManagedAttachLease) : bool :=
  if negb (process_is_live env (la_pid lease)) then false
  else match la_process_start_id lease with
  | None => false
  | Some expected => bool_decide (pe_start env (la_pid lease) = Some expected)
  end.

Definition lease_owner_blocks_duplicate (env : ProcEnv) (lease : ManagedAttachLease) : bool :=
  if lease_owner_is_live env lease then true
  else negb (is_some (la_process_start_id lease)) && process_is_live env (la_pid lease)
       && (saturating_sub (pe_now env) MANAGED_ATTACH_LEASE_TTL_SECS <=? la_updated_secs lease).

Definition prune_managed_attach_leases (env : ProcEnv) (s : CompatStore) : CompatStore :=
  with_attaches s (filter (λ '(_, lease), lease_owner_blocks_duplicate env lease = true) (st_managed_attaches s)).

Record ManagedAttachClaim : Set := { mc_proceed : bool; mc_owner_surface_id : option str }.

Definition claim_managed_attach (env : ProcEnv) (pane_id token : str) (surface : CmuxSurfaceContext) (s : CompatStore)
    : result StoreError (ManagedAttachClaim * CompatStore) :=
  let s := prune_managed_attach_leases env s in
  let take s :=
    Ok ({| mc_proceed := true; mc_owner_surface_id := Some (cx_surface_ref surface) |},
        with_attaches s (<[pane_id := {|
          la_pane_id := pane_id; la_token := token; la_pid := pe_self env; la_process_start_id := pe_start env (pe_self env);
          la_cmux_surface_id := Some (cx_surface_ref surface); la_cmux_workspace_id := cx_workspace_ref surface;
          la_cmux_window_id := cx_window_ref surface; la_updated_secs := pe_now env |}]> (st_managed_attaches s))) in
  match st_managed_attaches s !! pane_id with
  | Some existing =>
    if negb (lease_owner_blocks_duplicate env existing) then take (with_attaches s (delete pane_id (st_managed_attaches s)))
    else if is_some_and (la_cmux_surface_id existing) (λ owner, negb (bool_decide (owner = cx_surface_ref surface)))
    then Ok ({| mc_proceed := false; mc_owner_surface_id := la_cmux_surface_id existing |}, s)
    else take s
  | None => take s
  end.

Definition release_managed_attach (env : ProcEnv) (pane_id token : str) (s : CompatStore) : result StoreError (unit * CompatStore) :=
  let s := prune_managed_attach_leases env s in
  Ok (tt, if is_some_and (st_managed_attaches s !! pane_id) (λ lease, bool_decide (la_token lease = token))
          then with_attaches s (delete pane_id (st_managed_attaches s)) else s).

Definition renew_managed_attach (env : ProcEnv) (pane_id token : str) (s : CompatStore) : result StoreError (bool * CompatStore) :=
  let s := prune_managed_attach_leases env s in
  match st_managed_attaches s !! pane_id with
  | None => Ok (false, s)
  | Some lease =>
    if negb (bool_decide (la_token lease = token)) then Ok (false, s)
    else Ok (true, with_attaches s (<[pane_id := {|
      la_pane_id := la_pane_id lease; la_token := la_token lease; la_pid := la_pid lease;
      la_process_start_id := la_process_start_id lease; la_cmux_surface_id := la_cmux_surface_id lease;
      la_cmux_workspace_id := la_cmux_workspace_id lease; la_cmux_window_id := la_cmux_window_id lease;
      la_updated_secs := pe_now env |}]> (st_managed_attaches s)))
  end.

(** What [prepare_managed_attach] decides: to attach, with the token of a guard or without; or
    to leave, closing its own surface if another one shows the pane. *)
Inductive ManagedAttachDecision : Set := Proceed (guard : option (str * str)) | Exit (close : option CmuxSurfaceContext).

Definition managed_attach_env_enabled (value : option str) : bool :=
  is_some_and value (λ v, any_of ["1"; "true"; "yes"; "on"]%string (to_ascii_lowercase (trim v))).

Definition prepare_managed_attach (to_vec_pretty : CompatStore → list byte) (from_slice : list byte → option CompatStore)
    (pid : Z) (clock : nat → Z) (variable : option str) (surface : option CmuxSurfaceContext) (pane_id token : str)
    (env : ProcEnv) (io : SaveIo) : M Dir StoreError ManagedAttachDecision :=
  if negb (managed_attach_env_enabled variable) then mret (Proceed None)
  else match surface with
  | None => mret (Proceed None)
  | Some current_surface =>
    claim ← update_store to_vec_pretty from_slice pid clock io (claim_managed_attach env pane_id token current_surface);
    if mc_proceed claim then mret (Proceed (Some (pane_id, token)))
    else if is_some_and (mc_owner_surface_id claim) (λ owner, negb (bool_decide (owner = cx_surface_ref current_surface)))
    then mret (Exit (Some current_surface))
    else mret (Exit None)
  end.
