(* ===== verification/TmuxRuns.v ===== *)
(** Histories of the store of the tmux shim: the processes that share it call in any order,
    and each call holds the lock.  What a waiter of a channel sees, what the owner of a lease
    can count on, and the limits of the store. *)
From S2P Require Import Prelude Utf8 Protocol Text TmuxArgs TmuxCommands TmuxOptions TmuxStore TmuxUserOptions TmuxWait TmuxAttach.

(** A call with what the system answers to it. *)
Inductive StoreCall : Type :=
  | CallSetOption (args : list str) (target : str) (sessions : list SessionInfo) (io : SaveIo)
  | CallShowOption (args : list str) (target : str) (sessions : list SessionInfo)
  | CallRemember (info : SessionInfo) (surface : option (str * option str * option str)) (sessions : list SessionInfo) (io : SaveIo)
  | CallForget (captured : list CapturedCompatPane) (immutable_ids : list str) (io : SaveIo)
  | CallSignal (channel : str) (env : WaitEnv)
  | CallWatch (channel : str) (env : WaitEnv)
  | CallClaim (env : ProcEnv) (pane_id token : str) (surface : CmuxSurfaceContext) (io : SaveIo)
  | CallRenew (env : ProcEnv) (pane_id token : str) (io : SaveIo)
  | CallRelease (env : ProcEnv) (pane_id token : str) (io : SaveIo).

(** The process that calls, and its clock while it moves a broken store aside. *)
Record Caller : Type := { ca_pid : Z; ca_clock : nat → Z }.

Section runs.
Context (to_vec_pretty : CompatStore → list byte) (from_slice : list byte → option CompatStore).
Context (codec : ∀ s, from_slice (to_vec_pretty s) = Some s).
Context (hash_order : gmap str Z → list str).
Context (hash_order_keys : ∀ m, hash_order m ≡ₚ (map_to_list m).*1).
Local Abbreviation stored := (store_of from_slice).
Local Abbreviation upd c := (update_store to_vec_pretty from_slice (ca_pid c) (ca_clock c)).

Definition run_call (c : Caller) (call : StoreCall) (dir : Dir) : Dir :=
  match call with
  | CallSetOption args target sessions io => (set_option to_vec_pretty from_slice (ca_pid c) (ca_clock c) args target sessions io dir).2
  | CallShowOption args target sessions => (show_option from_slice (ca_pid c) (ca_clock c) args target sessions dir).2
  | CallRemember info surface sessions io => (remember_pane to_vec_pretty from_slice (ca_pid c) (ca_clock c) info surface sessions io dir).2
  | CallForget captured ids io => (forget_panes_and_user_options to_vec_pretty from_slice (ca_pid c) (ca_clock c) captured ids io dir).2
  | CallSignal channel env => (signal hash_order to_vec_pretty from_slice (ca_pid c) (ca_clock c) channel env dir).2
  | CallWatch channel env => (watch hash_order to_vec_pretty from_slice (ca_pid c) (ca_clock c) channel env dir).2
  | CallClaim env pane token surface io => (upd c io (claim_managed_attach env pane token surface) dir).2
  | CallRenew env pane token io => (upd c io (renew_managed_attach env pane token) dir).2
  | CallRelease env pane token io => (upd c io (release_managed_attach env pane token) dir).2
  end.

Definition run_calls (calls : list (Caller * StoreCall)) (dir : Dir) : Dir :=
  foldl (λ dir '(c, call), run_call c call dir) dir calls.

(** The change that a call makes of what the store holds, if it makes one. *)
Definition store_change (call : StoreCall) (s s' : CompatStore) : Prop :=
  match call with
  | CallSetOption args target sessions _ => ∃ a identity,
      parse_user_option_args args true = Ok a ∧ validate_user_option_name (uo_name a) = Ok tt ∧
      (∀ value, uo_value a = Some value → validate_user_option_value value = Ok tt) ∧
      set_user_option a identity (prune_user_options (live_identities sessions) s) = Ok s'
  | CallShowOption _ _ _ => False
  | CallRemember _ _ sessions _ => ∃ panes, s' = with_panes (prune_user_options (live_identities sessions) s) panes
  | CallForget _ ids _ => ∃ panes, s' = foldl forget_identity (with_panes s panes) ids
  | CallSignal channel env => signal_channel hash_order (we_prune env) (we_touch env) channel s = Ok (tt, s')
  | CallWatch channel env => ∃ g, watch_channel hash_order (we_prune env) (we_touch env) channel s = Ok (g, s')
  | CallClaim env pane token surface _ => ∃ r, claim_managed_attach env pane token surface s = Ok (r, s')
  | CallRenew env pane token _ => ∃ r, renew_managed_attach env pane token s = Ok (r, s')
  | CallRelease env pane token _ => ∃ r, release_managed_attach env pane token s = Ok (r, s')
  end.

Lemma update_cases {T} c io (f : CompatStore → result StoreError (T * CompatStore)) dir :
  stored (upd c io f dir).2 = stored dir ∨ ∃ x, f (stored dir) = Ok (x, stored (upd c io f dir).2).
Proof.
  destruct (upd c io f dir) as [r dir'] eqn:H. apply update_store_spec in H as [_ H]; [|done]. simpl.
  destruct r as [x|e]; [right|by left]. destruct H as (s' & Hf & _ & ->). by exists x.
Qed.

Lemma show_option_stored c args target sessions dir :
  stored (show_option from_slice (ca_pid c) (ca_clock c) args target sessions dir).2 = stored dir.
Proof.
  unfold show_option. destruct (negb _); [done|]. unfold mbind, M_bind, lift.
  destruct (parse_user_option_args args false) as [a|]; [|done]. destruct (validate_user_option_name (uo_name a)); [|done].
  unfold read_user_option, mbind, M_bind, lift. destruct (user_option_identity_from_snapshot _ _ _); [|done].
  pose proof (load_shim_store_spec to_vec_pretty from_slice (ca_pid c) (ca_clock c) dir) as Hload.
  destruct (load_store _ _ _ dir) as [[s|e] dir1]; [|by destruct Hload as [_ ->]]. destruct Hload as (-> & Hsame & _). simpl.
  by destruct (option_of _ _ _ _); [|destruct (uo_quiet a)].
Qed.

(** The calls that are one update of the store. *)
Local Ltac by_update :=
  lazymatch goal with
  | |- context [update_store _ _ (ca_pid ?c) _ ?io ?f ?dir] => destruct (update_cases c io f dir) as [?|[? Hs]]; [by left|right]
  end.

Lemma run_call_cases c call dir :
  stored (run_call c call dir) = stored dir ∨ store_change call (stored dir) (stored (run_call c call dir)).
Proof.
  destruct call; simpl; unfold signal, watch, forget_panes_and_user_options.
  - destruct (set_option _ _ _ _ _ _ _ _ _) as [r dir'] eqn:H. simpl.
    apply set_option_cases in H as [[-> _]|(a & identity & _ & Hp & Hn & Hv & _ & H)]; [by left|].
    pose proof (update_cases c io (λ s, (λ s, (tt, s)) <$> set_user_option a identity (prune_user_options (live_identities sessions) s)) dir) as Hc.
    rewrite H /= in Hc. destruct Hc as [?|[[] Hset]]; [by left|right]. exists a, identity. split_and!; [done..|].
    by destruct (set_user_option _ _ _); simplify_eq/=.
  - left. apply show_option_stored.
  - rewrite remember_pane_update. by_update. simplify_eq/=. by eexists.
  - by_update. simplify_eq/=. by eexists.
  - by_update. by destruct x.
  - by_update. by eexists.
  - by_update. by eexists.
  - by_update. by eexists.
  - by_update. by eexists.
Qed.

(** ** Limits *)

Lemma options_ok_ext s s' :
  st_pane_user_options s' = st_pane_user_options s → st_session_user_options s' = st_session_user_options s →
  options_ok s → options_ok s'.
Proof.
  intros H1 H2 [Ha Hb Hc Hd].
  assert (∀ pane, options_of pane s' = options_of pane s) as Ho by by intros [].
  split; unfold user_option_identity_count, user_option_entry_count, identity_entries, option_of in *.
  - by rewrite H1 H2.
  - by rewrite H1 H2.
  - intros id. by rewrite H1 H2.
  - intros pane id name value. rewrite Ho. apply Hd.
Qed.

Lemma prune_same now protected s : same_but_waits s (prune_wait_generations hash_order now protected s).
Proof.
  unfold prune_wait_generations. cbv zeta. set (s1 := foldl remove_channel _ _).
  assert (same_but_waits s (drop_orphans s1)) as H.
  { transitivity (touch_untouched now s); [done|]. transitivity s1; [apply remove_channels_same|done]. }
  destruct (_ <=? _)%nat; [done|]. etrans; [exact H|apply remove_channels_same].
Qed.

Lemma signal_same now touched channel s s' : signal_channel hash_order now touched channel s = Ok (tt, s') → same_but_waits s s'.
Proof. intros [= <-]. etrans; [apply (prune_same now None)|done]. Qed.

Lemma watch_same now touched channel s g s' : watch_channel hash_order now touched channel s = Ok (g, s') → same_but_waits s s'.
Proof.
  intros [= _ <-]. etrans; [apply (prune_same now (Some channel))|]. unfold touch_existing_wait_generation. by case_match.
Qed.

(** A change of the leases alone. *)
Lemma attach_change_same s s' :
  (∃ env pane token surface r, claim_managed_attach env pane token surface s = Ok (r, s')) ∨
  (∃ env pane token r, renew_managed_attach env pane token s = Ok (r, s')) ∨
  (∃ env pane token r, release_managed_attach env pane token s = Ok (r, s')) →
  ∃ attaches, s' = with_attaches s attaches.
Proof.
  intros [(env & pane & token & surface & r & H)|[(env & pane & token & r & H)|(env & pane & token & r & H)]].
  - unfold claim_managed_attach in H. repeat case_match; simplify_eq/=; by eexists.
  - unfold renew_managed_attach in H. repeat case_match; simplify_eq/=; by eexists.
  - unfold release_managed_attach in H. simplify_eq/=. case_match; by eexists.
Qed.

Lemma forget_identities_below ids s : options_below (foldl forget_identity s ids) s.
Proof.
  revert s. induction ids as [|id ids IH]; intros s; simpl.
  - split; [|done]. intros pane identity o. by exists o.
  - destruct (IH (forget_identity s id)) as [Hf Hn], (forget_identity_below s id) as [Hf' Hn']. split; [|eauto].
    intros pane identity o Ho. apply Hf in Ho as (o1 & Ho1 & ?). apply Hf' in Ho1 as (o2 & ? & ?). exists o2. split; [done|lia].
Qed.

Lemma change_options_ok call s s' : store_change call s s' → options_ok s → options_ok s'.
Proof.
  intros H Hok. destruct call; simpl in H.
  - destruct H as (a & identity & _ & Hn & Hv & Hset). eapply set_user_option_ok; [done..| |done].
    eapply options_below_ok, Hok. apply prune_below.
  - done.
  - destruct H as [panes ->]. eapply (options_ok_ext (prune_user_options (live_identities sessions) s)); [done..|].
    eapply options_below_ok, Hok. apply prune_below.
  - destruct H as [panes ->]. eapply options_below_ok; [apply forget_identities_below|]. by apply (options_ok_ext s).
  - apply signal_same in H as (_ & Hp & Hs & _). by apply (options_ok_ext s).
  - destruct H as [g H]. apply watch_same in H as (_ & Hp & Hs & _). by apply (options_ok_ext s).
  - destruct (attach_change_same s s') as [attaches ->]; [naive_solver|]. by apply (options_ok_ext s).
  - destruct (attach_change_same s s') as [attaches ->]; [naive_solver|]. by apply (options_ok_ext s).
  - destruct (attach_change_same s s') as [attaches ->]; [naive_solver|]. by apply (options_ok_ext s).
Qed.

(** One more channel than the limit: a signal prunes before it adds. *)
Definition channels_ok (s : CompatStore) : Prop := (size (generations_of s) ≤ S WAIT_GENERATION_MAX_CHANNELS)%nat.

(** The channels after a change. *)
Lemma change_generations call s s' :
  store_change call s s' →
  match call with
  | CallSignal channel env => generations_of s' = <[channel := saturating_add u64_max
        (generation (prune_wait_generations hash_order (we_prune env) None s) channel) 1]>
        (generations_of (prune_wait_generations hash_order (we_prune env) None s)) ∧
      touched_of s' = <[channel := we_touch env]> (touched_of (prune_wait_generations hash_order (we_prune env) None s))
  | CallWatch channel env => generations_of s' = generations_of (prune_wait_generations hash_order (we_prune env) (Some channel) s) ∧
      ∀ c, touched_of s' !! c = touched_of (prune_wait_generations hash_order (we_prune env) (Some channel) s) !! c ∨
           touched_of s' !! c = Some (we_touch env)
  | _ => generations_of s' = generations_of s ∧ touched_of s' = touched_of s
  end.
Proof.
  intros H. destruct call; simpl in H; try done.
  - destruct H as (a & identity & _ & _ & _ & H). unfold set_user_option in H. destruct (uo_unset a).
    + simplify_eq. unfold unset_user_option. destruct (_ !! identity); [|done]. by destruct (uo_pane a).
    + inv_ok. simplify_eq. by destruct (uo_pane a).
  - by destruct H as [panes ->].
  - destruct H as [panes ->]. assert (∀ t, generations_of (foldl forget_identity t immutable_ids) = generations_of t ∧
      touched_of (foldl forget_identity t immutable_ids) = touched_of t) as Hf; [|by destruct (Hf (with_panes s panes)) as [-> ->]].
    induction immutable_ids as [|id ids IH]; intros t; simpl; [done|]. by destruct (IH (forget_identity t id)) as [-> ->].
  - by injection H as <-.
  - destruct H as [g H]. unfold watch_channel in H. simplify_eq. unfold touch_existing_wait_generation.
    destruct (is_some _); [|by auto]. split; [done|]. intros c. unfold touched_of, touch_wait_generation. simpl.
    destruct (decide (c = channel)) as [->|]; [right; apply lookup_insert_eq|left; by rewrite lookup_insert_ne].
  - destruct (attach_change_same s s') as [attaches ->]; [naive_solver|done].
  - destruct (attach_change_same s s') as [attaches ->]; [naive_solver|done].
  - destruct (attach_change_same s s') as [attaches ->]; [naive_solver|done].
Qed.

Lemma change_channels_ok call s s' : store_change call s s' → channels_ok s → channels_ok s'.
Proof.
  intros H Hok. apply change_generations in H. unfold channels_ok in *.
  destruct call; try (by destruct H as [-> _]).
  - destruct H as [-> _]. pose proof (proj2 (proj2 (prune_lookup hash_order hash_order_keys (we_prune env) None s))).
    rewrite map_size_insert. case_match; simpl; lia.
  - destruct H as [-> _]. pose proof (proj2 (proj2 (prune_lookup hash_order hash_order_keys (we_prune env) (Some channel) s))). lia.
Qed.

(** An invariant of what the store holds, kept by every change, holds in every history. *)
Lemma run_calls_inv (I : CompatStore → Prop) (P : StoreCall → Prop) calls dir :
  (∀ call s s', P call → store_change call s s' → I s → I s') → Forall (λ x, P x.2) calls →
  I (stored dir) → I (stored (run_calls calls dir)).
Proof.
  intros Hstep. revert dir. induction calls as [|[c call] calls IH]; intros dir Hall HI; [done|].
  apply Forall_cons in Hall as [Hp Hall]. simpl. apply IH; [done|].
  destruct (run_call_cases c call dir) as [->|H]; [done|]. by eapply Hstep.
Qed.

(** C35: whatever the processes that share the store do, in any order and with any failures of
    the system, the options in it stay within the limits on identities, on options of an
    identity and on all options, every name and value in it is one that the validation
    accepts, and there are never more than 4097 channels. *)
Theorem store_limits_kept calls dir :
  options_ok (stored dir) → channels_ok (stored dir) →
  options_ok (stored (run_calls calls dir)) ∧ channels_ok (stored (run_calls calls dir)).
Proof.
  intros Ho Hc. split; (eapply (run_calls_inv _ (λ _, True)); [|by apply Forall_true|done]).
  - intros call s s' _. apply change_options_ok.
  - intros call s s' _. apply change_channels_ok.
Qed.
End runs.
