(* ===== verification/TmuxShared.v ===== *)
(** What the processes that share the store of the tmux shim can count on: a waiter is woken by
    a signal and by nothing else, and the owner of a lease keeps its pane. *)
From S2P Require Import Prelude Utf8 Protocol Text TmuxArgs TmuxCommands TmuxOptions TmuxStore TmuxUserOptions TmuxWait TmuxAttach TmuxRuns.

Section shared.
Context (to_vec_pretty : CompatStore → list byte) (from_slice : list byte → option CompatStore).
Context (codec : ∀ s, from_slice (to_vec_pretty s) = Some s).
Context (hash_order : gmap str Z → list str).
Context (hash_order_keys : ∀ m, hash_order m ≡ₚ (map_to_list m).*1).
Local Abbreviation stored := (store_of from_slice).
Local Abbreviation run := (run_calls to_vec_pretty from_slice hash_order).
Local Abbreviation change := (store_change hash_order).
Local Abbreviation prune := (prune_wait_generations hash_order).

(** ** Waiters *)

Definition signals (channel : str) (call : StoreCall) : Prop :=
  match call with CallSignal c _ => c = channel | _ => False end.

(** A turn that looks at the store answers by the generation that is there. *)
Definition looks (w : WaitLoop) (env : WaitEnv) : bool :=
  (wl_next_touch w <=? we_now env)
  || should_read_wait_store (we_before env) (wl_last_store_signature w) (we_now env) (wl_last_forced_read w).

Lemma prune_protected now channel s :
  generations_of (prune now (Some channel) s) !! channel = generations_of s !! channel.
Proof. apply prune_keeps; [done|by left..]. Qed.

Lemma watch_channel_generations now touched channel s g s' :
  watch_channel hash_order now touched channel s = Ok (g, s') →
  generations_of s' = generations_of (prune now (Some channel) s) ∧ g = default 0 (generations_of s' !! channel).
Proof.
  intros H. assert (s' = touch_existing_wait_generation touched channel (prune now (Some channel) s)) as -> by by injection H.
  split; [|by injection H]. unfold touch_existing_wait_generation. by case_match.
Qed.

Lemma watch_touches now touched channel s g s' t :
  watch_channel hash_order now touched channel s = Ok (g, s') → touched_of s' !! channel = Some t → t = touched.
Proof.
  intros H Ht. assert (s' = touch_existing_wait_generation touched channel (prune now (Some channel) s)) as -> by by injection H.
  unfold touch_existing_wait_generation in Ht. destruct (st_wait_generations (prune now (Some channel) s) !! channel) eqn:E; simpl in Ht.
  - unfold touched_of, touch_wait_generation in Ht. simpl in Ht. rewrite lookup_insert_eq in Ht. by simplify_eq.
  - apply prune_lookup in Ht as [[g' Hg] _]; [|done]. unfold generations_of in Hg. congruence.
Qed.

Lemma watch_answer c channel env dir g dir' :
  watch hash_order to_vec_pretty from_slice (ca_pid c) (ca_clock c) channel env dir = (Ok g, dir') →
  g = generation (stored dir) channel ∧ generations_of (stored dir') !! channel = generations_of (stored dir) !! channel ∧
  ∃ s', watch_channel hash_order (we_prune env) (we_touch env) channel (stored dir) = Ok (g, s') ∧ stored dir' = s'.
Proof.
  unfold watch. intros H. apply update_store_spec in H as [_ (s' & Hf & _ & Hs')]; [|done].
  pose proof (watch_channel_generations _ _ _ _ _ _ Hf) as [Hg ->]. rewrite Hs' Hg prune_protected. split_and!; [done..|].
  exists s'. split; [|done]. rewrite Hf Hg. by rewrite prune_protected.
Qed.

Lemma wait_turn_answer c channel observed w env dir advanced w' dir' :
  wait_turn hash_order to_vec_pretty from_slice (ca_pid c) (ca_clock c) channel observed w env dir = (Ok (advanced, w'), dir') →
  advanced = if looks w env then wait_generation_has_advanced observed (generation (stored dir) channel)
             else wait_generation_has_advanced observed observed.
Proof.
  unfold wait_turn, looks. cbv zeta. intros H. destruct (wl_next_touch w <=? we_now env); simpl.
  - apply M_bind_Ok in H as ([g w1] & dir1 & H & Hr). unfold mret, M_ret in Hr. simplify_eq.
    apply M_bind_Ok in H as (g' & dir2 & H & Hr). unfold mret, M_ret in Hr. simplify_eq.
    by apply watch_answer in H as [-> _].
  - destruct (should_read_wait_store _ _ _ _).
    + apply M_bind_Ok in H as ([g w1] & dir1 & H & Hr). unfold mret, M_ret in Hr. simplify_eq.
      apply M_bind_Ok in H as (g' & dir2 & H & Hr). unfold mret, M_ret in Hr. simplify_eq.
      unfold read_store in H. pose proof (load_shim_store_spec to_vec_pretty from_slice (ca_pid c) (ca_clock c) dir) as Hload.
      apply M_bind_Ok in H as (s & dir3 & H & Hr). rewrite H in Hload. destruct Hload as (-> & _).
      unfold lift in Hr. by simplify_eq.
    + apply M_bind_Ok in H as ([g w1] & dir1 & H & Hr). unfold mret, M_ret in H, Hr. by simplify_eq.
Qed.

Lemma advanced_spec observed g :
  is_u64 observed → is_u64 g →
  wait_generation_has_advanced observed g = true ↔ g ≠ observed ∧ g ≠ 0.
Proof.
  unfold wait_generation_has_advanced, is_u64. rewrite orb_true_iff !andb_true_iff !Z.ltb_lt. lia.
Qed.

(** a waiter is never woken by anything but a signal of its channel: whatever else the
    processes that share the store do after it noted the generation, be it so much that the
    channel is dropped, no turn of its loop says that the channel has advanced. *)
Theorem no_wake_without_signal c channel env dir observed dir1 calls w turn_env advanced w' dir' :
  is_u64 observed →
  watch hash_order to_vec_pretty from_slice (ca_pid c) (ca_clock c) channel env dir = (Ok observed, dir1) →
  Forall (λ x, ¬ signals channel x.2) calls →
  wait_turn hash_order to_vec_pretty from_slice (ca_pid c) (ca_clock c) channel observed w turn_env (run calls dir1) = (Ok (advanced, w'), dir') →
  advanced = false.
Proof.
  intros Hu Hwatch Hquiet Hturn. apply watch_answer in Hwatch as (Hobs & Hsame & _). apply wait_turn_answer in Hturn as ->.
  assert (generations_of (stored (run calls dir1)) !! channel = None ∨
    generations_of (stored (run calls dir1)) !! channel = Some observed) as Hrun.
  { apply (run_calls_inv to_vec_pretty from_slice codec hash_order
      (λ s, generations_of s !! channel = None ∨ generations_of s !! channel = Some observed) (λ call, ¬ signals channel call)); [|done|].
    - intros call s s' Hq Hch HI. apply change_generations in Hch.
      assert (∀ now p, generations_of (prune now p s) !! channel = None ∨ generations_of (prune now p s) !! channel = Some observed) as Hp.
      { intros now p. destruct (generations_of (prune now p s) !! channel) as [g|] eqn:Hg; [right|by left].
        apply prune_lookup in Hg; [|done]. destruct HI; congruence. }
      destruct call; try (by destruct Hch as [-> _]).
      destruct Hch as [-> _]. simpl in Hq. by rewrite lookup_insert_ne.
    - rewrite Hsame. unfold generation in Hobs. fold (generations_of (stored dir)) in Hobs.
      destruct (generations_of (stored dir) !! channel); [right|by left]. by rewrite Hobs. }
  assert (generation (stored (run calls dir1)) channel = 0 ∨ generation (stored (run calls dir1)) channel = observed) as Hg.
  { unfold generations_of in Hrun. unfold generation. by destruct Hrun as [->| ->]; [left|right]. }
  apply not_true_is_false. intros Hadv. destruct (looks w turn_env); apply advanced_spec in Hadv as [H1 H2];
    destruct Hg; unfold is_u64, u64_max in *; lia.
Qed.

(** The clocks of a call that works on channels: within a week from [from]. *)
Definition within_week (from : Z) (call : StoreCall) : Prop :=
  match call with
  | CallSignal _ env | CallWatch _ env =>
    from ≤ we_touch env ∧ from ≤ we_prune env ∧ we_prune env ≤ from + WAIT_GENERATION_RETENTION_SECS
  | _ => True
  end.

(** The signals of a call go to some of the channels [all]. *)
Definition signals_within (all : gset str) (call : StoreCall) : Prop :=
  match call with CallSignal c _ => c ∈ all | _ => True end.

(** The channels that a history signals. *)
Definition signalled (calls : list (Caller * StoreCall)) : list str :=
  omap (λ x, match x.2 with CallSignal c _ => Some c | _ => None end) calls.

(** What a waiter relies on: few channels, and its own not forgotten. *)
Definition waiting_state (all : gset str) (from : Z) (channel : str) (ok : option Z → Prop) (s : CompatStore) : Prop :=
  dom (generations_of s) ⊆ all ∧ ok (generations_of s !! channel) ∧ ∀ t, touched_of s !! channel = Some t → from ≤ t.

Section waiting.
Context (all : gset str) (few : (size all ≤ WAIT_GENERATION_MAX_CHANNELS)%nat).
Context (from : Z) (epoch : 0 ≤ from) (channel : str).

Lemma prune_waiting ok now p s :
  from ≤ now → now ≤ from + WAIT_GENERATION_RETENTION_SECS →
  waiting_state all from channel ok s → waiting_state all from channel ok (prune now p s).
Proof.
  intros Hlo Hhi (Hdom & Hok & Ht). destruct (prune_lookup hash_order hash_order_keys now p s) as (Hg & Htouch & _). split_and!.
  - intros c [g Hc]%elem_of_dom. apply Hdom, elem_of_dom. exists g. by apply Hg.
  - rewrite prune_keeps //; right.
    + unfold saturating_sub. destruct (touched_of s !! channel) eqn:E; simpl; [specialize (Ht _ eq_refl)|]; lia.
    + rewrite -(size_dom (D := gset str)). apply subseteq_size in Hdom. lia.
  - intros t [_ ->]%Htouch. destruct (touched_of s !! channel); simpl; [by apply Ht|done].
Qed.

Lemma signal_waiting ok (ok' : option Z → Prop) c env s s' :
  within_week from (CallSignal c env) → c ∈ all → change (CallSignal c env) s s' →
  (∀ g, ok g → if bool_decide (c = channel) then ok' (Some (saturating_add u64_max (default 0 g) 1)) else ok' g) →
  waiting_state all from channel ok s → waiting_state all from channel ok' s'.
Proof.
  intros (Ht1 & Hp1 & Hp2) Hc Hch Hok Hs. apply change_generations in Hch as [Hg Ht].
  apply (prune_waiting ok (we_prune env) None) in Hs as (Hdom & Hoks & Htouch); [|done..]. specialize (Hok _ Hoks).
  unfold waiting_state. rewrite Hg Ht. unfold generation. fold (generations_of (prune (we_prune env) None s)). split_and!.
  - rewrite dom_insert_L. set_solver.
  - case_bool_decide; [subst c; by rewrite lookup_insert_eq|by rewrite lookup_insert_ne].
  - intros t. destruct (decide (c = channel)) as [->|]; [rewrite lookup_insert_eq; by intros [= <-]|rewrite lookup_insert_ne //; apply Htouch].
Qed.

(** Nothing takes a waiter's channel away, and a signal only adds to it. *)
Lemma change_waiting ok call s s' :
  (∀ g, ok g → ok (Some (saturating_add u64_max (default 0 g) 1))) →
  within_week from call ∧ signals_within all call → change call s s' →
  waiting_state all from channel ok s → waiting_state all from channel ok s'.
Proof.
  intros Hok [Hw Hin] Hch Hs.
  assert (∀ c env, call = CallSignal c env → waiting_state all from channel ok s') as Hsig.
  { intros c env ->. eapply (signal_waiting ok ok); [done..| |done]. intros g Hg. case_bool_decide; auto. }
  pose proof (change_generations _ _ _ _ Hch) as H. destruct call; try (destruct H as [H1 H2]; unfold waiting_state; by rewrite H1 H2); [by eapply Hsig|].
  destruct Hw as (Ht1 & Hp1 & Hp2), H as [Hg Ht]. apply (prune_waiting ok (we_prune env) (Some channel0)) in Hs as (Hdom & Hoks & Htouch); [|done..].
  unfold waiting_state. rewrite Hg. split_and!; [done..|]. intros t Hs'. destruct (Ht channel) as [Heq|Heq]; rewrite Heq in Hs'; [by apply Htouch|by simplify_eq].
Qed.
Lemma runs_waiting ok calls dir :
  (∀ g, ok g → ok (Some (saturating_add u64_max (default 0 g) 1))) →
  Forall (λ x, within_week from x.2 ∧ signals_within all x.2) calls →
  waiting_state all from channel ok (stored dir) → waiting_state all from channel ok (stored (run calls dir)).
Proof.
  intros Hok Hcalls. apply (run_calls_inv to_vec_pretty from_slice codec hash_order _
    (λ call, within_week from call ∧ signals_within all call)); [|done].
  intros call s s'. by apply change_waiting.
Qed.
End waiting.

(** C33: a signal is not lost: when a process signals a channel after a waiter noted its
    generation, then whatever else happens to the store before and after the signal, every later turn of
    the waiter that looks at the store is told, and a turn looks at it at the latest a second
    after the last look.  It takes clocks within a week, no more than the limit of channels, and
    a generation that can still grow. *)
Theorem signal_wakes_waiter c cs channel env senv dir observed dir1 before after w turn_env advanced w' dir' :
  let from := we_prune env in
  let all := dom (generations_of (stored dir1)) ∪ list_to_set (signalled (before ++ (cs, CallSignal channel senv) :: after)) : gset str in
  0 ≤ from → from ≤ we_touch env → observed < u64_max →
  (size all ≤ WAIT_GENERATION_MAX_CHANNELS)%nat →
  Forall (λ x, within_week from x.2) (before ++ (cs, CallSignal channel senv) :: after) →
  watch hash_order to_vec_pretty from_slice (ca_pid c) (ca_clock c) channel env dir = (Ok observed, dir1) →
  (signal hash_order to_vec_pretty from_slice (ca_pid cs) (ca_clock cs) channel senv (run before dir1)).1 = Ok tt →
  wait_turn hash_order to_vec_pretty from_slice (ca_pid c) (ca_clock c) channel observed w turn_env
    (run (before ++ (cs, CallSignal channel senv) :: after) dir1) = (Ok (advanced, w'), dir') →
  (looks w turn_env = true → advanced = true) ∧
  (wl_last_forced_read w + WAIT_GENERATION_FORCE_READ_INTERVAL ≤ we_now turn_env → looks w turn_env = true).
Proof.
  intros from all Hepoch Htouch Hroom Hfew Hweek Hwatch Hsignal Hturn. split.
  2:{ intros Hlate. unfold looks, should_read_wait_store, saturating_sub, WAIT_GENERATION_FORCE_READ_INTERVAL in *.
      apply orb_true_iff. right. apply orb_true_iff. right. lia. }
  apply wait_turn_answer in Hturn as ->. intros ->.
  assert (Forall (λ x, within_week from x.2 ∧ signals_within all x.2) (before ++ (cs, CallSignal channel senv) :: after)) as Hall.
  { apply Forall_forall. intros [c' call] Hx. rewrite Forall_forall in Hweek. split; [by apply (Hweek _ Hx)|].
    destruct call; try done. simpl. unfold all. apply elem_of_union_r, elem_of_list_to_set, list_elem_of_omap. by eexists. }
  apply Forall_app in Hall as [Hbefore Hall]. apply Forall_cons in Hall as [[Hwk Hin] Hafter].
  (* the state the waiter leaves behind *)
  assert (waiting_state all from channel (λ g, observed ≤ default 0 g) (stored dir1)) as H1.
  { apply watch_answer in Hwatch as (Hobs & Hsame & s' & Hf & Hs'). split_and!.
    - unfold all. set_solver.
    - by rewrite Hsame Hobs.
    - intros t Ht. rewrite Hs' in Ht. by rewrite (watch_touches _ _ _ _ _ _ _ Hf Ht). }
  apply (runs_waiting all Hfew from Hepoch channel _ before) in H1; [|unfold saturating_add, u64_max in *; intros g; simpl; lia|done].
  set (dir2 := run before dir1) in *.
  assert (run (before ++ (cs, CallSignal channel senv) :: after) dir1 =
    run after (run_call to_vec_pretty from_slice hash_order cs (CallSignal channel senv) dir2)) as -> by (unfold run_calls, dir2; by rewrite foldl_app).
  set (dir3 := run_call to_vec_pretty from_slice hash_order cs (CallSignal channel senv) dir2) in *.
  assert (change (CallSignal channel senv) (stored dir2) (stored dir3)) as Hch.
  { unfold dir3. simpl in Hsignal |- *. unfold signal in *.
    destruct (update_store _ _ _ _ _ _ dir2) as [r d] eqn:Hu; simpl in Hsignal; subst r.
    apply update_store_spec in Hu as [_ (s' & Hf & _ & Hs')]; [|done]. simpl. by rewrite Hs'. }
  assert (waiting_state all from channel (λ g, observed < default 0 g) (stored dir3)) as H3.
  { eapply (signal_waiting all Hfew from Hepoch channel (λ g, observed ≤ default 0 g)); [done..| |done].
    intros g Hg. rewrite bool_decide_true //. unfold saturating_add, u64_max in *. simpl. lia. }
  apply (runs_waiting all Hfew from Hepoch channel _ after) in H3 as (_ & Hlast & _); [|unfold saturating_add, u64_max in *; intros g; simpl; lia|done].
  unfold wait_generation_has_advanced, generation. fold (generations_of (stored (run after dir3))).
  apply orb_true_iff. left. by apply Z.ltb_lt.
Qed.

(** ** Leases *)

Section lease.
Context (pane token start surface : str) (owner : Z).

Definition owner_runs (env : ProcEnv) : Prop := process_is_live env owner = true ∧ pe_start env owner = Some start.

Definition owns (s : CompatStore) : Prop :=
  ∃ lease, st_managed_attaches s !! pane = Some lease ∧ la_token lease = token ∧ la_pid lease = owner ∧
    la_process_start_id lease = Some start ∧ la_cmux_surface_id lease = Some surface.

(** While the owner runs: it does not release, and nobody attaches on its own surface. *)
Definition respects (call : StoreCall) : Prop :=
  match call with
  | CallClaim env p _ surf _ => owner_runs env ∧ (p = pane → cx_surface_ref surf ≠ surface)
  | CallRenew env _ _ _ => owner_runs env
  | CallRelease env p t _ => owner_runs env ∧ ¬ (p = pane ∧ t = token)
  | _ => True
  end.

Lemma owner_blocks env lease :
  la_pid lease = owner → la_process_start_id lease = Some start →
  owner_runs env ↔ lease_owner_blocks_duplicate env lease = true.
Proof.
  intros Hpid Hstart. unfold lease_owner_blocks_duplicate, lease_owner_is_live, owner_runs. rewrite Hpid Hstart.
  destruct (process_is_live env owner); simpl; [|naive_solver]. case_bool_decide; naive_solver.
Qed.

Lemma prune_owns env s : owner_runs env → owns s → owns (prune_managed_attach_leases env s).
Proof.
  intros Hruns (lease & Hl & Ht & Hp & Hs & Hc). exists lease. split_and!; [|done..].
  apply map_lookup_filter_Some. split; [done|]. by apply owner_blocks.
Qed.

(** The owner keeps the pane through every change that respects it. *)
Lemma claim_owned env p t surf s r s' :
  owner_runs env → (p = pane → cx_surface_ref surf ≠ surface) → owns s → claim_managed_attach env p t surf s = Ok (r, s') →
  owns s' ∧ (p = pane → r = {| mc_proceed := false; mc_owner_surface_id := Some surface |}).
Proof.
  intros Hruns Hsurf Howns Hclaim. apply (prune_owns env) in Howns as Hpruned; [|done].
  unfold claim_managed_attach in Hclaim. set (s1 := prune_managed_attach_leases env s) in *.
  destruct (decide (p = pane)) as [->|Hne].
  - destruct Hpruned as (lease & Hl & Ht & Hp & Hs & Hc). rewrite Hl in Hclaim.
    assert (lease_owner_blocks_duplicate env lease = true) as Hb by by apply owner_blocks.
    rewrite Hb Hc /= in Hclaim. rewrite bool_decide_false /= in Hclaim; [|by apply not_eq_sym, Hsurf]. simplify_eq. split; [|done]. by exists lease.
  - assert (∀ attaches, attaches !! pane = st_managed_attaches s1 !! pane → owns (with_attaches s1 attaches)) as Hother.
    { intros attaches Heq. destruct Hpruned as (lease & Hl & H). exists lease. simpl. by rewrite Heq. }
    split; [|done]. destruct (st_managed_attaches s1 !! p) as [existing|]; [destruct (negb _); [|destruct (is_some_and _ _)]|];
      simplify_eq/=; try done; apply Hother; by rewrite lookup_insert_ne ?lookup_delete_ne.
Qed.

Lemma change_owned call s s' : respects call → change call s s' → owns s → owns s'.
Proof.
  intros Hr Hch Hs.
  assert (∀ s', st_managed_attaches s' = st_managed_attaches s → owns s') as Hsame by (intros t Ht; unfold owns; by rewrite Ht).
  destruct call; simpl in Hr, Hch.
  - destruct Hch as (a & identity & _ & _ & _ & Hset). apply Hsame. unfold set_user_option in Hset. destruct (uo_unset a).
    + simplify_eq. unfold unset_user_option. destruct (_ !! identity); [|done]. by destruct (uo_pane a).
    + inv_ok. simplify_eq. by destruct (uo_pane a).
  - done.
  - destruct Hch as [panes ->]. by apply Hsame.
  - destruct Hch as [panes ->]. apply Hsame. clear.
    assert (∀ t, st_managed_attaches (foldl forget_identity t immutable_ids) = st_managed_attaches t) as ->; [|done].
    induction immutable_ids as [|id ids IH]; intros t; simpl; [done|]. by rewrite IH.
  - apply signal_same in Hch as (_ & _ & _ & H). by apply Hsame.
  - destruct Hch as [g Hch]. apply watch_same in Hch as (_ & _ & _ & H). by apply Hsame.
  - destruct Hr as [Hruns Hsurf], Hch as [r Hch]. by eapply claim_owned.
  - destruct Hch as [r Hch]. apply (prune_owns env) in Hs as (lease & Hl & H); [|done]. unfold renew_managed_attach in Hch.
    destruct (decide (pane_id = pane)) as [->|Hne].
    + rewrite Hl in Hch. destruct (negb _); simplify_eq/=; [by exists lease|]. eexists. split; [apply lookup_insert_eq|done].
    + repeat case_match; simplify_eq/=; exists lease; try done. by rewrite /= lookup_insert_ne.
  - destruct Hr as [Hruns Hnot], Hch as [r Hch]. apply (prune_owns env) in Hs as (lease & Hl & Ht & H); [|done].
    unfold release_managed_attach in Hch. simplify_eq. destruct (is_some_and _ _) eqn:Hmine; [|by exists lease].
    exists lease. simpl. rewrite lookup_delete_ne; [done|]. intros ->. rewrite Hl /= in Hmine. apply bool_decide_eq_true in Hmine. naive_solver.
Qed.
End lease.

(** C38: a managed attach that went ahead keeps its pane: while its process runs and has not let go, and nobody
    attaches the pane on that very surface, every attach of the pane on another surface is told
    to leave and who the owner is, and the lease can be renewed; and once the process is gone,
    even if its pid runs again as another process, the next attach goes ahead. *)
Theorem managed_attach_exclusive c io env pane token surf start dir r dir1 calls :
  update_store to_vec_pretty from_slice (ca_pid c) (ca_clock c) io (claim_managed_attach env pane token surf) dir = (Ok r, dir1) →
  mc_proceed r = true → pe_start env (pe_self env) = Some start →
  Forall (λ x, respects pane token start (cx_surface_ref surf) (pe_self env) x.2) calls →
  (∀ env' token' surf' answer s',
    claim_managed_attach env' pane token' surf' (stored (run calls dir1)) = Ok (answer, s') →
    if bool_decide (owner_runs start (pe_self env) env') then
      cx_surface_ref surf' ≠ cx_surface_ref surf → answer = {| mc_proceed := false; mc_owner_surface_id := Some (cx_surface_ref surf) |}
    else mc_proceed answer = true) ∧
  (∀ env', owner_runs start (pe_self env) env' → ∃ s', renew_managed_attach env' pane token (stored (run calls dir1)) = Ok (true, s')).
Proof.
  intros Hclaim Hproceed Hstart Hcalls.
  assert (owns pane token start (cx_surface_ref surf) (pe_self env) (stored (run calls dir1))) as Howns.
  { apply (run_calls_inv to_vec_pretty from_slice codec hash_order _ (respects pane token start (cx_surface_ref surf) (pe_self env)));
      [intros call s s'; apply change_owned|done|].
    apply update_store_spec in Hclaim as [_ (s' & Hf & _ & ->)]; [|done]. unfold claim_managed_attach in Hf.
    repeat case_match; simplify_eq/=; eexists; (split; [apply lookup_insert_eq|done]). }
  split.
  - intros env' token' surf' answer s' Hc. case_bool_decide as Hruns.
    + intros Hne. by eapply claim_owned in Hc as [_ Hc]; [apply Hc| | |].
    + destruct Howns as (lease & Hl & Ht & Hp & Hs & Hsurf).
      assert (st_managed_attaches (prune_managed_attach_leases env' (stored (run calls dir1))) !! pane = None) as Hnone.
      { apply map_lookup_filter_None. right. intros x Hx Hb. simplify_eq. apply Hruns. by eapply owner_blocks. }
      unfold claim_managed_attach in Hc. rewrite Hnone in Hc. by simplify_eq.
  - intros env' Hruns. pose proof (prune_owns _ _ _ _ _ env' _ Hruns Howns) as (lease & Hl & Ht & _).
    unfold renew_managed_attach. rewrite Hl Ht bool_decide_true //=. by eexists.
Qed.
End shared.
