(* ===== verification/TmuxTree.v ===== *)
(** The tree of a session in a snapshot ([session_tree_from_snapshot], [snapshot_parent],
    [tmux_compat.rs]): what [kill-session] will end, worked out before it ends anything. *)
From S2P Require Import Prelude Utf8 Protocol Text TmuxArgs TmuxCommands TmuxOptions TmuxStore.

Inductive TreeError : Set :=
  | EmptyIdentity | DuplicateId | DuplicatePane | DuplicateName | TargetAbsent | ParentCycle | MissingParent
  | PaneMismatch | IncompleteParent | MissingDescendantParent | InconsistentParents | DescendantCycle | OutOfFuel.
#[global] Instance TreeError_eq : EqDecision TreeError.
Proof. solve_decision. Defined.

Abbreviation index := (gmap str SessionInfo).

Fixpoint index_snapshot (sessions : list SessionInfo) (by_id by_pane by_name : index) : result TreeError (index * index * index) :=
  match sessions with
  | [] => Ok (by_id, by_pane, by_name)
  | pane :: rest =>
    bail_if (bool_decide (si_id pane = []) || bool_decide (si_pane_id pane = []) || bool_decide (si_name pane = [])) EmptyIdentity ;;
    bail_if (is_some (by_id !! si_id pane)) DuplicateId ;;
    bail_if (is_some (by_pane !! si_pane_id pane)) DuplicatePane ;;
    bail_if (is_some (by_name !! si_name pane)) DuplicateName ;;
    index_snapshot rest (<[si_id pane := pane]> by_id) (<[si_pane_id pane := pane]> by_pane) (<[si_name pane := pane]> by_name)
  end.

Definition or_else {A} (a b : option A) : option A := match a with Some x => Some x | None => b end.

Definition resolve_target (target : str) (by_id by_pane by_name : index) : option SessionInfo :=
  let percent := starts_with_char 0x25 target in
  let resolved := or_else (if percent then by_pane !! target else None) (or_else (by_name !! target) (by_id !! target)) in
  if negb (is_some resolved) && negb percent then by_pane !! (0x25 :: target) else resolved.

Definition snapshot_parent (pane : SessionInfo) (by_id : index) : result TreeError (option SessionInfo) :=
  match si_parent_session_id pane, si_parent_pane_id pane with
  | None, None => Ok None
  | Some parent_id, Some parent_pane_id =>
    parent ← ok_or (by_id !! parent_id) MissingParent;
    bail_if (negb (bool_decide (si_pane_id parent = parent_pane_id))) PaneMismatch ;;
    Ok (Some parent)
  | _, _ => Err IncompleteParent
  end.

Fixpoint find_root (fuel : nat) (by_id : index) (ancestors : gset str) (root : SessionInfo) : result TreeError SessionInfo :=
  match fuel with
  | O => Err OutOfFuel
  | S fuel =>
    bail_if (bool_decide (si_id root ∈ ancestors)) ParentCycle ;;
    parent ← snapshot_parent root by_id;
    match parent with
    | None => Ok root
    | Some parent => find_root fuel by_id ({[ si_id root ]} ∪ ancestors) parent
    end
  end.

Definition references (parent child : SessionInfo) : bool :=
  bool_decide (si_parent_session_id child = Some (si_id parent)) || bool_decide (si_parent_pane_id child = Some (si_pane_id parent)).

(** The loop over the sessions for one parent of the tree. *)
Fixpoint add_children (by_id : index) (parent : SessionInfo) (sessions tree : list SessionInfo) (captured : gset str)
    : result TreeError (list SessionInfo * gset str) :=
  match sessions with
  | [] => Ok (tree, captured)
  | child :: rest =>
    if negb (references parent child) then add_children by_id parent rest tree captured
    else
      actual ← snapshot_parent child by_id;
      actual_parent ← ok_or actual MissingDescendantParent;
      bail_if (negb (bool_decide (si_id actual_parent = si_id parent))) InconsistentParents ;;
      bail_if (bool_decide (si_id child ∈ captured)) DescendantCycle ;;
      add_children by_id parent rest (tree ++ [child]) ({[ si_id child ]} ∪ captured)
  end.

Fixpoint grow_tree (fuel : nat) (by_id : index) (sessions tree : list SessionInfo) (captured : gset str) (cursor : nat)
    : result TreeError (list SessionInfo) :=
  match tree !! cursor with
  | None => Ok tree
  | Some parent =>
    match fuel with
    | O => Err OutOfFuel
    | S fuel =>
      '(tree, captured) ← add_children by_id parent sessions tree captured;
      grow_tree fuel by_id sessions tree captured (S cursor)
    end
  end.

Definition session_tree_from_snapshot (target : str) (sessions : list SessionInfo) : result TreeError (list SessionInfo) :=
  '(by_id, by_pane, by_name) ← index_snapshot sessions ∅ ∅ ∅;
  resolved ← ok_or (resolve_target target by_id by_pane by_name) TargetAbsent;
  root ← find_root (S (length sessions)) by_id ∅ resolved;
  grow_tree (length sessions) by_id sessions [root] {[ si_id root ]} 0.

(** What [kill_session_with_cmux_cleanup] has worked out before it kills: the session to kill, the identities whose
    options it forgets, and the panes as the store holds them. *)
Definition plan_kill_session (target : str) (sessions : list SessionInfo) (stored_pane : str → option CompatPane)
    : result TreeError (str * list str * list CapturedCompatPane) :=
  tree ← session_tree_from_snapshot target sessions;
  match tree with
  | [] => Err TargetAbsent
  | root :: _ => Ok (si_id root, si_id <$> tree,
      (λ pane, {| cap_pane_id := si_pane_id pane; cap_immutable_id := si_id pane; cap_stored := stored_pane (si_pane_id pane) |}) <$> tree)
  end.

(** ** Snapshots *)

(** [child_of sessions child parent]: the snapshot has [parent] as the parent of [child]. *)
Definition child_of (sessions : list SessionInfo) (child parent : SessionInfo) : Prop :=
  parent ∈ sessions ∧ si_parent_session_id child = Some (si_id parent) ∧ si_parent_pane_id child = Some (si_pane_id parent).

Definition indexed (key : SessionInfo → str) (sessions : list SessionInfo) (m : index) : Prop :=
  NoDup (key <$> sessions) ∧ ∀ k s, m !! k = Some s ↔ s ∈ sessions ∧ key s = k.

Lemma indexed_snoc (key : SessionInfo → str) (sessions : list SessionInfo) (m : index) (s : SessionInfo) :
  indexed key sessions m → m !! key s = None → indexed key (sessions ++ [s]) (<[key s := s]> m).
Proof.
  intros [Hnd Hm] Hnew. split.
  - rewrite fmap_app NoDup_app. split_and!; [done| |apply NoDup_singleton]. intros k (x & -> & Hx)%list_elem_of_fmap Heq.
    simpl in Heq. apply list_elem_of_singleton in Heq. assert (m !! key s = Some x); [by apply Hm|congruence].
  - intros k x. rewrite lookup_insert_Some elem_of_app list_elem_of_singleton Hm. split.
    + intros [[<- <-]|(Hne & Hx & <-)]; auto.
    + intros [[Hx| ->] <-]; [|by left]. destruct (decide (key s = key x)) as [Heq|]; [|auto].
      assert (m !! key s = Some x) by (apply Hm; auto). congruence.
Qed.

Lemma index_snapshot_indexed (sessions done_ : list SessionInfo) by_id by_pane by_name i p n :
  indexed si_id done_ by_id → indexed si_pane_id done_ by_pane → indexed si_name done_ by_name →
  index_snapshot sessions by_id by_pane by_name = Ok (i, p, n) →
  indexed si_id (done_ ++ sessions) i ∧ indexed si_pane_id (done_ ++ sessions) p ∧ indexed si_name (done_ ++ sessions) n.
Proof.
  revert done_ by_id by_pane by_name. induction sessions as [|s rest IH]; intros d a b c Ha Hb Hc; simpl.
  - intros [= <- <- <-]. by rewrite app_nil_r.
  - intros H. inv_ok. rewrite (cons_middle s d rest) app_assoc. eapply IH; [..|done]; apply indexed_snoc; try done.
    + by destruct (a !! si_id s).
    + by destruct (b !! si_pane_id s).
    + by destruct (c !! si_name s).
Qed.

Lemma indexed_nil (key : SessionInfo → str) : indexed key [] (∅ : index).
Proof. split; [constructor|]. intros k s. rewrite lookup_empty. set_solver. Qed.

Lemma snapshot_parent_spec sessions by_id pane :
  indexed si_id sessions by_id →
  match snapshot_parent pane by_id with
  | Ok (Some parent) => child_of sessions pane parent
  | Ok None => si_parent_session_id pane = None ∧ si_parent_pane_id pane = None
  | Err e => e ∈ [MissingParent; PaneMismatch; IncompleteParent] ∧ ∀ parent, child_of sessions pane parent → False
  end.
Proof.
  intros [_ Hid]. unfold snapshot_parent, child_of.
  destruct (si_parent_session_id pane) as [pid|], (si_parent_pane_id pane) as [ppane|]; simpl; try done; try (split; [set_solver|naive_solver]).
  destruct (by_id !! pid) as [parent|] eqn:Hp; simpl.
  - apply Hid in Hp as [Hp <-]. case_bool_decide as Hpane; simpl; [by rewrite -Hpane|]. split; [set_solver|].
    intros q (Hq & Hqid & Hqp). simplify_eq. assert (by_id !! si_id q = Some q) as H1 by by apply Hid.
    assert (by_id !! si_id q = Some parent) as H2 by (apply Hid; auto). congruence.
  - split; [set_solver|]. intros q (Hq & Hqid & _). simplify_eq. assert (by_id !! si_id q = Some q) by by apply Hid. congruence.
Qed.

Section tree.
Context (sessions : list SessionInfo) (by_id : index) (ids : indexed si_id sessions by_id).
Local Abbreviation child := (child_of sessions).

Lemma same_id x y : x ∈ sessions → y ∈ sessions → si_id x = si_id y → x = y.
Proof. intros. eapply (NoDup_key_inj si_id sessions); [apply ids|done..]. Qed.

Lemma find_root_spec (start : SessionInfo) (fuel : nat) (ancestors : gset str) (root : SessionInfo) :
  root ∈ sessions → rtc child start root →
  (∀ id, id ∈ ancestors → ∃ x, x ∈ sessions ∧ si_id x = id ∧ rtc child start x ∧ tc child x root) →
  (length sessions < fuel + size (ancestors : gset str))%nat →
  match find_root fuel by_id ancestors root with
  | Ok r => r ∈ sessions ∧ rtc child start r ∧ si_parent_session_id r = None ∧ si_parent_pane_id r = None
  | Err e => e ∈ [ParentCycle; MissingParent; PaneMismatch; IncompleteParent] ∧ ∃ x, rtc child start x ∧
      (tc child x x ∨ ¬ (si_parent_session_id x = None ∧ si_parent_pane_id x = None) ∧ ∀ p, ¬ child x p)
  end.
Proof.
  revert ancestors root. induction fuel as [|fuel IH]; intros ancestors root Hroot Hrtc Hanc Hfuel; cbn [find_root].
  { assert (ancestors ⊆ list_to_set (si_id <$> sessions)) as Hsub.
    { intros id (x & Hx & <- & _)%Hanc. by apply elem_of_list_to_set, list_elem_of_fmap_2. }
    apply subseteq_size in Hsub. rewrite size_list_to_set in Hsub; [|apply ids]. rewrite length_fmap in Hsub. lia. }
  case_bool_decide as Hin; simpl.
  { destruct (Hanc _ Hin) as (x & Hx & Hid & Hsx & Hxr). split; [set_solver|]. exists x. split; [done|left].
    by rewrite {2}(same_id x root). }
  pose proof (snapshot_parent_spec sessions by_id root ids) as Hp.
  destruct (snapshot_parent root by_id) as [[parent|]|e] eqn:Hsp; simpl.
  - apply IH; [apply Hp|by eapply rtc_r|..].
    + intros id [->%elem_of_singleton|Hid]%elem_of_union; [exists root; by repeat split; try apply tc_once|].
      destruct (Hanc _ Hid) as (x & Hx & Heq & Hsx & Hxi). exists x. repeat split; [done..|]. by eapply tc_r.
    + rewrite size_union; [rewrite size_singleton; lia|set_solver].
  - destruct Hp as [Hp1 Hp2]. by rewrite Hp1 Hp2.
  - destruct Hp as [He Hno]. split; [set_solver|]. exists root. split; [done|right]. split; [|exact Hno].
    intros [H1 H2]. unfold snapshot_parent in Hsp. by rewrite H1 H2 in Hsp.
Qed.

(** A part of the tree, with the sessions of it whose children are in it. *)
Record partial (root : SessionInfo) (tree : list SessionInfo) (captured : gset str) : Prop := {
  pt_nodup : NoDup (si_id <$> tree);
  pt_captured : captured = list_to_set (si_id <$> tree);
  pt_known : ∀ s, s ∈ tree → s ∈ sessions ∧ rtc child s root;
  pt_root : head tree = Some root }.

Lemma partial_snoc root tree captured parent c :
  partial root tree captured → parent ∈ tree → c ∈ sessions → child c parent → si_id c ∉ captured →
  partial root (tree ++ [c]) ({[ si_id c ]} ∪ captured).
Proof.
  intros [Hnd Hcap Hk Hr] Hp Hc Hch Hnew. split.
  - rewrite fmap_app NoDup_app. split_and!; [done| |apply NoDup_singleton].
    intros x Hx Heq. simpl in Heq. apply list_elem_of_singleton in Heq as ->. subst captured. set_solver.
  - rewrite fmap_app list_to_set_app_L Hcap. simpl. set_solver.
  - intros s [Hs|Hs]%elem_of_app; [by apply Hk|]. apply list_elem_of_singleton in Hs as ->. split; [done|].
    eapply rtc_l; [done|]. by apply Hk.
  - by destruct tree.
Qed.

Lemma partial_root root : root ∈ sessions → partial root [root] {[ si_id root ]}.
Proof.
  intros Hr. split; [apply NoDup_singleton|simpl; set_solver| |done]. by intros s ->%list_elem_of_singleton.
Qed.

Lemma add_children_spec root parent todo tree captured :
  (∀ s, s ∈ todo → s ∈ sessions) → parent ∈ tree → partial root tree captured →
  match add_children by_id parent todo tree captured with
  | Ok (tree', captured') => tree `prefix_of` tree' ∧ partial root tree' captured' ∧ ∀ c, c ∈ todo → child c parent → c ∈ tree'
  | Err e => e ≠ OutOfFuel
  end.
Proof.
  revert tree captured. induction todo as [|c todo IH]; intros tree captured Hin Hp Hpart; cbn [add_children].
  { split_and!; [done..|set_solver]. }
  assert (∀ s, s ∈ todo → s ∈ sessions) as Hin' by set_solver.
  assert (parent ∈ sessions) as Hps by by apply (pt_known _ _ _ Hpart).
  destruct (references parent c) eqn:Href; simpl.
  - pose proof (snapshot_parent_spec sessions by_id c ids) as Hc.
    destruct (snapshot_parent c by_id) as [[actual|]|e]; simpl; [|done|set_solver].
    destruct (bool_decide (si_id actual = si_id parent)) eqn:Hsame; simpl; [apply bool_decide_eq_true in Hsame|done].
    destruct (bool_decide (si_id c ∈ captured)) eqn:Hcap; simpl; [done|apply bool_decide_eq_false in Hcap].
    assert (actual = parent) as -> by (apply same_id; [apply Hc|done..]).
    specialize (IH (tree ++ [c]) ({[ si_id c ]} ∪ captured) Hin').
    destruct (add_children _ _ _ _ _) as [[tree' captured']|e].
    + destruct IH as (Hpre & Hpart' & Hall); [set_solver|eapply partial_snoc; [done..| |done|done]; set_solver|].
      split_and!; [by etrans; [apply prefix_app_r|]|done|]. intros s [->|Hs]%elem_of_cons Hch; [|by apply Hall].
      eapply elem_of_prefix; [|exact Hpre]. set_solver.
    + apply IH; [set_solver|eapply partial_snoc; [done..| |done|done]; set_solver].
  - specialize (IH tree captured Hin' Hp Hpart). destruct (add_children _ _ _ _ _) as [[tree' captured']|e]; [|done].
    destruct IH as (Hpre & Hpart' & Hall). split_and!; [done..|]. intros s [->|Hs]%elem_of_cons Hch; [|by apply Hall].
    destruct Hch as (_ & Hch & _). unfold references in Href. by rewrite bool_decide_true in Href.
Qed.

Lemma partial_length root tree captured : partial root tree captured → (length tree ≤ length sessions)%nat.
Proof.
  intros [Hnd _ Hk _]. rewrite -!(length_fmap si_id). apply submseteq_length, NoDup_submseteq; [done|].
  intros id (s & -> & Hs)%list_elem_of_fmap. by apply list_elem_of_fmap_2, Hk.
Qed.

Lemma grow_tree_spec root fuel tree captured cursor :
  partial root tree captured → (length sessions ≤ fuel + cursor)%nat →
  (∀ p c, p ∈ take cursor tree → c ∈ sessions → child c p → c ∈ tree) →
  match grow_tree fuel by_id sessions tree captured cursor with
  | Ok tree' => (∃ captured', partial root tree' captured') ∧ ∀ p c, p ∈ tree' → c ∈ sessions → child c p → c ∈ tree'
  | Err e => e ≠ OutOfFuel
  end.
Proof.
  revert tree captured cursor. induction fuel as [|fuel IH]; intros tree captured cursor Hpart Hfuel Hdone; cbn [grow_tree];
    (destruct (tree !! cursor) as [parent|] eqn:Hcur;
      [|split; [by exists captured|]; apply lookup_ge_None in Hcur; intros p c Hp; apply Hdone; by rewrite take_ge]).
  - apply lookup_lt_Some in Hcur. pose proof (partial_length _ _ _ Hpart). lia.
  - pose proof (add_children_spec root parent sessions tree captured ltac:(done) (list_elem_of_lookup_2 _ _ _ Hcur) Hpart) as Hadd.
    destruct (add_children _ _ _ _ _) as [[tree' captured']|e]; simpl; [|done]. destruct Hadd as (Hpre & Hpart' & Hall).
    apply IH; [done|lia|]. intros p c Hp Hc Hch. apply lookup_lt_Some in Hcur as Hlt.
    destruct Hpre as [k ->]. rewrite take_app_le in Hp; [|lia]. rewrite (take_S_r _ _ parent) // elem_of_app list_elem_of_singleton in Hp.
    destruct Hp as [Hp| ->]; [|by apply Hall]. apply elem_of_app. left. by eapply Hdone.
Qed.
End tree.

(** The pane that a target may be: a target that starts with a percent sign is one as it is, and
    another is one without its percent sign. *)
Definition pane_of_target (target : str) : str := if starts_with_char 0x25 target then target else 0x25 :: target.

Definition answers_to (target : str) (s : SessionInfo) : Prop :=
  target = si_name s ∨ target = si_id s ∨ pane_of_target target = si_pane_id s.

(** The session that a target names: names come before identifiers; a pane comes first when the
    target has its percent sign, and last when it has not. *)
Definition named_by (sessions : list SessionInfo) (target : str) (s : SessionInfo) : Prop :=
  let no (key : SessionInfo → str) (k : str) := ∀ x, x ∈ sessions → key x ≠ k in
  s ∈ sessions ∧
  if starts_with_char 0x25 target
  then si_pane_id s = target ∨
    no si_pane_id target ∧ (si_name s = target ∨ no si_name target ∧ si_id s = target)
  else si_name s = target ∨
    no si_name target ∧ (si_id s = target ∨ no si_id target ∧ si_pane_id s = 0x25 :: target).

Lemma indexed_None (key : SessionInfo → str) (sessions : list SessionInfo) (m : index) k :
  indexed key sessions m → m !! k = None → ∀ x, x ∈ sessions → key x ≠ k.
Proof. intros [_ Hm] Hk x Hx <-. assert (m !! key x = Some x) by (by apply Hm). congruence. Qed.

Lemma resolve_target_spec target sessions by_id by_pane by_name :
  indexed si_id sessions by_id → indexed si_pane_id sessions by_pane → indexed si_name sessions by_name →
  match resolve_target target by_id by_pane by_name with
  | Some s => named_by sessions target s
  | None => ∀ s, s ∈ sessions → ¬ answers_to target s
  end.
Proof.
  intros Hi Hp Hn. unfold resolve_target, named_by, answers_to, pane_of_target.
  assert (∀ k s, by_id !! k = Some s → s ∈ sessions ∧ si_id s = k) as Hi' by apply Hi.
  assert (∀ k s, by_pane !! k = Some s → s ∈ sessions ∧ si_pane_id s = k) as Hp' by apply Hp.
  assert (∀ k s, by_name !! k = Some s → s ∈ sessions ∧ si_name s = k) as Hn' by apply Hn.
  pose proof (indexed_None _ _ _ target Hi) as Ni. pose proof (λ k, indexed_None _ _ _ k Hp) as Np.
  pose proof (indexed_None _ _ _ target Hn) as Nn.
  destruct (starts_with_char 0x25 target); simpl.
  - rewrite andb_false_r. destruct (by_pane !! target) eqn:E1; simpl; [naive_solver|]. specialize (Np target E1).
    destruct (by_name !! target) eqn:E2; simpl; [naive_solver|]. specialize (Nn eq_refl).
    destruct (by_id !! target) eqn:E3; simpl; [naive_solver|]. naive_solver.
  - rewrite andb_true_r. destruct (by_name !! target) eqn:E2; simpl; [naive_solver|]. specialize (Nn eq_refl).
    destruct (by_id !! target) eqn:E3; simpl; [naive_solver|]. specialize (Ni eq_refl).
    destruct (by_pane !! (0x25 :: target)) eqn:E1; [naive_solver|]. specialize (Np _ E1). naive_solver.
Qed.

(** ** Snapshots that the daemon gives *)

Record coherent (sessions : list SessionInfo) : Prop := {
  co_named : ∀ s, s ∈ sessions → si_id s ≠ [] ∧ si_pane_id s ≠ [] ∧ si_name s ≠ [];
  co_ids : NoDup (si_id <$> sessions);
  co_panes : NoDup (si_pane_id <$> sessions);
  co_names : NoDup (si_name <$> sessions);
  co_parents : ∀ s, s ∈ sessions → (si_parent_session_id s = None ∧ si_parent_pane_id s = None) ∨ ∃ p, child_of sessions s p;
  co_acyclic : ∀ s, ¬ tc (child_of sessions) s s }.

Lemma index_snapshot_ok (sessions done_ : list SessionInfo) (a b c : index) :
  coherent (done_ ++ sessions) → indexed si_id done_ a → indexed si_pane_id done_ b → indexed si_name done_ c →
  is_ok (index_snapshot sessions a b c) = true.
Proof.
  revert done_ a b c. induction sessions as [|s rest IH]; intros d a b c Hco Ha Hb Hc; [done|]. cbn [index_snapshot].
  destruct (co_named _ Hco s) as (H1 & H2 & H3); [set_solver|].
  rewrite (bool_decide_false (si_id s = [])) // (bool_decide_false (si_pane_id s = [])) // (bool_decide_false (si_name s = [])) //=.
  assert (∀ (key : SessionInfo → str) (m : index), NoDup (key <$> d ++ s :: rest) → indexed key d m → m !! key s = None) as Hnew.
  { intros key m Hnd [_ Hm]. destruct (m !! key s) as [x|] eqn:Hx; [|done]. apply Hm in Hx as [Hx Heq].
    rewrite fmap_app NoDup_app in Hnd. destruct Hnd as (_ & Hdis & _). exfalso. eapply (Hdis (key x)); [by apply list_elem_of_fmap_2|].
    rewrite Heq. set_solver. }
  destruct Hco as [Hn Hi Hp Hm Hpar Hac]. rewrite !(Hnew _ _ _ Ha) // !(Hnew _ _ _ Hb) // !(Hnew _ _ _ Hc) //=.
  apply (IH (d ++ [s])); [by rewrite -app_assoc|apply indexed_snoc; auto..].
Qed.

Section coherent.
Context (sessions : list SessionInfo) (co : coherent sessions) (by_id : index) (ids : indexed si_id sessions by_id).
Local Abbreviation child := (child_of sessions).

Lemma child_unique c p q : child c p → child c q → p = q.
Proof. intros (Hp & H1 & _) (Hq & H2 & _). apply (same_id sessions by_id ids); congruence. Qed.

Lemma references_child p c : p ∈ sessions → c ∈ sessions → references p c = true ↔ child c p.
Proof.
  intros Hp Hc. unfold references. rewrite orb_true_iff !bool_decide_eq_true. split; [|intros (_ & ? & ?); auto].
  destruct (co_parents _ co c Hc) as [[H1 H2]|[q Hq]]; [intros []; congruence|].
  pose proof Hq as (Hqs & H1 & H2). intros [H|H]; simplify_eq.
  - by replace p with q by (apply (same_id sessions by_id ids); congruence).
  - replace p with q; [done|]. apply (NoDup_key_inj si_pane_id sessions); [apply co|done..|congruence].
Qed.

Lemma snapshot_parent_child c p : child c p → snapshot_parent c by_id = Ok (Some p).
Proof.
  intros Hc. pose proof (snapshot_parent_spec sessions by_id c ids) as Hs.
  destruct (snapshot_parent c by_id) as [[q|]|e].
  - by rewrite (child_unique c p q).
  - destruct Hc as (_ & ? & _), Hs. congruence.
  - destruct Hs as [_ Hs]. by destruct (Hs p).
Qed.

Lemma add_children_ok parent todo tree captured :
  (∀ s, s ∈ todo → s ∈ sessions) → NoDup (si_id <$> todo) → parent ∈ sessions →
  (∀ c, c ∈ todo → child c parent → si_id c ∉ captured) →
  ∃ tree' captured', add_children by_id parent todo tree captured = Ok (tree', captured') ∧
    ∀ x, x ∈ tree' → x ∈ tree ∨ child x parent.
Proof.
  revert tree captured. induction todo as [|c todo IH]; intros tree captured Hin Hnd Hp Hnew; cbn [add_children]; [by eauto|].
  apply NoDup_cons in Hnd as [Hc Hnd]. destruct (references parent c) eqn:Href; simpl.
  - apply references_child in Href as Hch; [|done|set_solver]. rewrite (snapshot_parent_child c parent) //= (bool_decide_true (si_id parent = si_id parent)) //=.
    rewrite (bool_decide_false (si_id c ∈ captured)); [|apply Hnew; [set_solver|done]]. simpl.
    destruct (IH (tree ++ [c]) ({[ si_id c ]} ∪ captured)) as (t & cap & -> & Ht); [set_solver|done|done|..].
    + intros x Hx Hxp. apply not_elem_of_union. split; [|apply Hnew; [set_solver|done]].
      intros Heq%elem_of_singleton. apply Hc. rewrite -Heq. by apply list_elem_of_fmap_2.
    + exists t, cap. split; [done|]. intros x [Hx|Hx]%Ht; [|by right]. apply elem_of_app in Hx as [Hx|Hx]; [by left|].
      apply list_elem_of_singleton in Hx as ->. by right.
  - apply IH; [set_solver|done|done|]. intros x Hx. apply Hnew. set_solver.
Qed.

Lemma grow_tree_ok root fuel tree captured cursor :
  si_parent_session_id root = None → partial sessions root tree captured → (length sessions ≤ fuel + cursor)%nat →
  (∀ x, x ∈ tree → x = root ∨ ∃ p, p ∈ take cursor tree ∧ child x p) →
  is_ok (grow_tree fuel by_id sessions tree captured cursor) = true.
Proof.
  intros Hroot. revert tree captured cursor.
  induction fuel as [|fuel IH]; intros tree captured cursor Hpart Hfuel Hpar; cbn [grow_tree];
    (destruct (tree !! cursor) as [parent|] eqn:Hcur; [|done]); pose proof (lookup_lt_Some _ _ _ Hcur) as Hlt.
  { pose proof (partial_length _ _ _ _ Hpart). lia. }
  assert (parent ∈ sessions) as Hps by (apply (pt_known _ _ _ _ Hpart); by eapply list_elem_of_lookup_2).
  destruct (add_children_ok parent sessions tree captured) as (tree' & captured' & Hadd & Hnew); [done|apply ids|done|..].
  { intros c Hc Hch. rewrite (pt_captured _ _ _ _ Hpart). intros (x & Heq & Hx)%elem_of_list_to_set%list_elem_of_fmap.
    assert (x = c) as ->. { apply (same_id sessions by_id ids); [by apply (pt_known _ _ _ _ Hpart)|done..]. }
    destruct (Hpar c Hx) as [->|(p & Hp & Hcp)]; [destruct Hch as (_ & ? & _); congruence|].
    rewrite (child_unique c p parent) // in Hp. pose proof (pt_nodup _ _ _ _ Hpart) as Hnd.
    rewrite -(take_drop_middle tree cursor parent) // fmap_app NoDup_app in Hnd. destruct Hnd as (_ & Hdis & _).
    apply (Hdis (si_id parent)); [by apply list_elem_of_fmap_2|]. set_solver. }
  rewrite Hadd /=.
  pose proof (add_children_spec sessions by_id ids root parent sessions tree captured ltac:(done) (list_elem_of_lookup_2 _ _ _ Hcur) Hpart) as Hspec.
  rewrite Hadd in Hspec. destruct Hspec as ([k ->] & Hpart' & _).
  apply IH; [done|lia|]. intros x Hx. rewrite take_app_le; [|lia]. rewrite (take_S_r _ _ parent) //.
  destruct (Hnew x Hx) as [Hx'|Hch]; [|right; exists parent; set_solver].
  destruct (Hpar x Hx') as [->|(p & Hp & Hxp)]; [by left|right; exists p; set_solver].
Qed.
End coherent.

Lemma index_snapshot_all sessions i p n :
  index_snapshot sessions ∅ ∅ ∅ = Ok (i, p, n) →
  indexed si_id sessions i ∧ indexed si_pane_id sessions p ∧ indexed si_name sessions n.
Proof. intros H. by apply (index_snapshot_indexed sessions []) in H; [|apply indexed_nil..]. Qed.

Lemma index_snapshot_fuel (sessions : list SessionInfo) (a b c : index) : index_snapshot sessions a b c ≠ Err OutOfFuel.
Proof.
  revert a b c. induction sessions as [|s rest IH]; intros a b c; simpl; [done|].
  intros H. repeat (apply bind_Err in H as [H|(? & ? & H)]; [by apply bail_if_Err in H as [_ H]|]). by apply IH in H.
Qed.

Lemma rtc_child_in sessions s x : s ∈ sessions → rtc (child_of sessions) s x → x ∈ sessions.
Proof. intros Hs. induction 1 as [|x y z Hxy _ IH]; [done|]. apply IH, Hxy. Qed.

(** C36: the plan that kill-session makes before it asks the daemon to end anything is right: the
    tree starts at the root of the session that the target names (by its pane with the percent
    sign, its name, its identifier, or its pane without the percent sign, in this order), holds
    exactly the sessions whose parents lead to that root, each once, and the options and panes to
    forget are those of just these; and on a snapshot that the daemon can give, a target is
    refused exactly when no session answers to it. *)
Theorem session_tree_exact target sessions :
  match session_tree_from_snapshot target sessions with
  | Ok tree => ∃ named root, named_by sessions target named ∧ rtc (child_of sessions) named root ∧
      si_parent_session_id root = None ∧ NoDup (si_id <$> tree) ∧
      (∀ s, s ∈ tree ↔ s ∈ sessions ∧ rtc (child_of sessions) s root) ∧
      ∀ stored_pane, ∃ captured, plan_kill_session target sessions stored_pane = Ok (si_id root, si_id <$> tree, captured) ∧
        cap_pane_id <$> captured = si_pane_id <$> tree
  | Err e => e ≠ OutOfFuel ∧
      (coherent sessions → e = TargetAbsent ∧ ∀ s, s ∈ sessions → ¬ answers_to target s)
  end.
Proof.
  unfold plan_kill_session. destruct (session_tree_from_snapshot target sessions) as [tree|e] eqn:Htree;
    unfold session_tree_from_snapshot in Htree.
  - apply bind_Ok in Htree as ([[i p] n] & Hidx & Htree). apply bind_Ok in Htree as (named & Hnamed & Htree).
    apply bind_Ok in Htree as (root & Hroot & Htree). apply ok_or_Ok in Hnamed.
    apply index_snapshot_all in Hidx as (Hi & Hp & Hn).
    pose proof (resolve_target_spec target sessions i p n Hi Hp Hn) as Hres. rewrite Hnamed in Hres. pose proof Hres as [Hin _].
    pose proof (find_root_spec sessions i Hi named (S (length sessions)) ∅ named Hin (rtc_refl _ _) ltac:(set_solver) ltac:(lia)) as Hwalk.
    rewrite Hroot in Hwalk. destruct Hwalk as (Hrs & Hrtc & Hnone & _).
    assert (partial sessions root [root] {[ si_id root ]}) as Hpart by by apply (partial_root sessions i Hi).
    pose proof (grow_tree_spec sessions i Hi root (length sessions) [root] _ 0 Hpart ltac:(lia) ltac:(set_solver)) as Hgrow.
    rewrite Htree in Hgrow. destruct Hgrow as ([captured [Hnd Hcap Hknown Hhead]] & Hclosed).
    destruct tree as [|r tree]; simplify_eq/=. exists named, root. split_and!; [done..| |].
    + intros s. split; [by apply Hknown|]. intros [Hs Hsr]. revert Hs.
      induction Hsr as [x|x y z Hxy Hyz IH]; intros Hs; [by left|]. apply (Hclosed y x); [|done..].
      apply IH; [done..|]. apply Hxy.
    + intros stored_pane. eexists. split; [done|]. simpl. f_equal. clear. by induction tree as [|x tree IH]; simpl; [|rewrite IH].
  - apply bind_Err in Htree as [Hidx|([[i p] n] & Hidx & Htree)].
    { split; [intros ->; by apply index_snapshot_fuel in Hidx|]. intros Hco.
      pose proof (index_snapshot_ok sessions [] ∅ ∅ ∅ Hco (indexed_nil _) (indexed_nil _) (indexed_nil _)) as Hok. by rewrite Hidx in Hok. }
    apply index_snapshot_all in Hidx as (Hi & Hp & Hn).
    pose proof (resolve_target_spec target sessions i p n Hi Hp Hn) as Hres.
    destruct (resolve_target target i p n) as [named|]; cbn [ok_or mbind result_bind] in Htree; [|by simplify_eq; split].
    destruct Hres as [Hin _].
    pose proof (find_root_spec sessions i Hi named (S (length sessions)) ∅ named Hin (rtc_refl _ _) ltac:(set_solver) ltac:(lia)) as Hwalk.
    destruct (find_root (S (length sessions)) i ∅ named) as [root|e'] eqn:Hroot; cbn [mbind result_bind] in Htree; [|simplify_eq].
    + destruct Hwalk as (Hrs & _ & Hnone & _).
      pose proof (partial_root sessions i Hi root Hrs) as Hpart.
      pose proof (grow_tree_spec sessions i Hi root (length sessions) [root] _ 0 Hpart ltac:(lia) ltac:(set_solver)) as Hgrow.
      rewrite Htree in Hgrow. split; [done|]. intros Hco.
      pose proof (grow_tree_ok sessions Hco i Hi root (length sessions) [root] _ 0 Hnone Hpart ltac:(lia) ltac:(set_solver)) as Hok.
      by rewrite Htree in Hok.
    + destruct Hwalk as [He (x & Hx & Hbad)]. split; [set_solver|]. intros Hco. destruct Hbad as [Hcyc|[Hsome Hno]].
      * by destruct (co_acyclic _ Hco x).
      * destruct (co_parents _ Hco x) as [?|[q Hq]]; [by apply (rtc_child_in sessions named)|done|by destruct (Hno q)].
Qed.
