(* ===== verification/CmuxStatus.v ===== *)
(** The status pills of cmux ([mod cmux_status], [tmux_compat.rs]): a sink that brings the pills
    that cmux shows for a pane in line with the last line of the status program.

    The sink remembers what it has applied, compares it with what is wanted, and issues the
    difference as commands of the cmux program; a command that fails is not remembered, and
    after three failures in a row the sink goes dark.  How a command runs is the argument
    [run], as it is the trait [CmuxCommandRunner] in the source; the runner of the program
    ([cli_runner]) gives the command line to [exec], which answers whether the process ended
    in time and with success.  What cmux does with a command is not modelled.  The JSON of a
    line is decoded by a library: the sink is given the decoded line. *)
From S2P Require Import Prelude Utf8 Protocol JournalEvents Text TmuxAttach.

Definition CMUX_STATUS_FAILURE_LIMIT : Z := 3.
Definition CMUX_STATUS_SCHEMA : str := lit "cmux-status".
Definition CMUX_STATUS_FIELD_MAX_CHARS : nat := 256.
Definition CMUX_STATUS_KEY_MAX_CHARS : nat := 64.

Record PillIn : Set := {
  pi_key : str; pi_label : option str; pi_value : str; pi_color : option str; pi_icon : option str; pi_priority : Z }.
Record CmuxStatusInput : Set := { ci_schema : str; ci_pills : list PillIn }.

Record PillState : Set := {
  ps_value : str; ps_color : option str; ps_icon : option str; ps_priority : Z; ps_label : option str }.
#[global] Instance PillState_eq : EqDecision PillState.
Proof. solve_decision. Defined.

Inductive CmuxCommand : Set :=
  | SetStatus (key : str) (state : PillState)
  | ClearStatus (key : str).

Abbreviation pills := (gmap str PillState).

(** ** Keys and fields *)

Definition segment_char (c : char) : bool := is_ascii_alphanumeric c || (c =? 0x2d) || (c =? 0x5f).
Definition is_valid_cmux_ref_segment (value : str) : bool := negb (bool_decide (value = [])) && forallb segment_char value.

Definition is_valid_pill_key (key : str) : bool :=
  (length key <=? CMUX_STATUS_KEY_MAX_CHARS)%nat && is_valid_cmux_ref_segment key.

Definition cap_field (value : str) : str := take CMUX_STATUS_FIELD_MAX_CHARS value.

(** [color.len()] counts bytes: the test of the digits leaves only strings for which it counts characters. *)
Definition sanitize_pill_color (color : option str) : option str :=
  color ← color;
  if (str_len color =? 7) && starts_with_char 0x23 color && forallb is_ascii_hexdigit (drop 1 color) then Some color else None.

Definition sanitize_pill_icon (icon : option str) : option str :=
  icon ← icon;
  let capped := cap_field icon in
  if is_valid_cmux_ref_segment capped then Some capped else None.

Definition sanitize_cmux_pane_segment (pane_id : str) : str :=
  let sanitized := (λ c, if segment_char c then c else 0x5f) <$> pane_id in
  if bool_decide (sanitized = []) then lit "_" else sanitized.

Definition key_prefix_of (pane_id : str) : str := lit "lterm." ++ sanitize_cmux_pane_segment pane_id ++ lit ".".

(** ** The difference *)

(** The keys of a [BTreeMap], in order. *)
Definition key_le (a b : str) : Prop := str_compare a b ≠ Gt.
#[global] Instance key_le_dec : RelDecision key_le.
Proof. intros a b. unfold key_le. apply _. Defined.
Definition ordered_keys (m : pills) : list str := merge_sort key_le (map_to_list m).*1.

Definition plan_commands (applied desired : pills) : list CmuxCommand :=
  omap (λ key, state ← desired !! key; if bool_decide (applied !! key = Some state) then None else Some (SetStatus key state))
    (ordered_keys desired)
  ++ omap (λ key, if is_some (desired !! key) then None else Some (ClearStatus key)) (ordered_keys applied).

(** ** The command line of a command *)

Definition status_target_args (workspace_ref : option str) : list str :=
  match workspace_ref with Some r => [lit "--workspace"; r] | None => [] end.
Definition flag_arg (flag : string) (value : option str) : list str :=
  match value with Some v => [lit flag; v] | None => [] end.

Definition build_command_with_capabilities (command : CmuxCommand) (workspace_ref : option str) (set_status_label : bool) : list str :=
  match command with
  | SetStatus key s =>
    [lit "set-status"; key; ps_value s] ++ (if set_status_label then flag_arg "--label" (ps_label s) else [])
    ++ flag_arg "--icon" (ps_icon s) ++ flag_arg "--color" (ps_color s) ++ [lit "--priority"; dec (ps_priority s)]
    ++ status_target_args workspace_ref
  | ClearStatus key => [lit "clear-status"; key] ++ status_target_args workspace_ref
  end.

(** ** The sink *)

Record CmuxStatusSink : Type := {
  snk_workspace : CmuxSurfaceContext; snk_key_prefix : str; snk_applied : pills; snk_cmux_available : bool;
  snk_consecutive_failures : Z; snk_healthy : bool; snk_set_status_label : bool }.

(** [detected] is what [cmux set-status --help] said of labels. *)
Definition new_sink (workspace : CmuxSurfaceContext) (pane_id : str) (cmux_available detected : bool) : CmuxStatusSink := {|
  snk_workspace := workspace; snk_key_prefix := key_prefix_of pane_id; snk_applied := ∅; snk_cmux_available := cmux_available;
  snk_consecutive_failures := 0; snk_healthy := true; snk_set_status_label := if cmux_available then detected else false |}.

Definition with_applied (s : CmuxStatusSink) (applied : pills) (failures : Z) : CmuxStatusSink := {|
  snk_workspace := snk_workspace s; snk_key_prefix := snk_key_prefix s; snk_applied := applied;
  snk_cmux_available := snk_cmux_available s; snk_consecutive_failures := failures; snk_healthy := snk_healthy s;
  snk_set_status_label := snk_set_status_label s |}.

Definition pill_state (p : PillIn) : PillState := {|
  ps_value := cap_field (pi_value p); ps_color := sanitize_pill_color (pi_color p); ps_icon := sanitize_pill_icon (pi_icon p);
  ps_priority := pi_priority p; ps_label := cap_field <$> pi_label p |}.

Definition build_desired_pills (s : CmuxStatusSink) (input : CmuxStatusInput) : pills :=
  foldl (λ m p, if negb (is_valid_pill_key (pi_key p)) then m else <[snk_key_prefix s ++ pi_key p := pill_state p]> m) ∅ (ci_pills input).

Definition commit_applied (command : CmuxCommand) (desired applied : pills) : pills :=
  match command with
  | SetStatus key _ => match desired !! key with Some state => <[key := state]> applied | None => applied end
  | ClearStatus key => delete key applied
  end.

Definition record_failure (s : CmuxStatusSink) : CmuxStatusSink :=
  let failures := saturating_add u32_max (snk_consecutive_failures s) 1 in
  {| snk_workspace := snk_workspace s; snk_key_prefix := snk_key_prefix s; snk_applied := snk_applied s;
     snk_cmux_available := snk_cmux_available s; snk_consecutive_failures := failures;
     snk_healthy := if (CMUX_STATUS_FAILURE_LIMIT <=? failures) && snk_healthy s then false else snk_healthy s;
     snk_set_status_label := snk_set_status_label s |}.

(** The commands that were run, each with its answer. *)
Definition CmuxLog : Type := list (CmuxCommand * bool).

Section sink.
Context {W : Type} (run : CmuxCommand → W → bool * W).

(** The sink and the world after the commands, and what was run. *)
Fixpoint run_commands (commands : list CmuxCommand) (desired : pills) (s : CmuxStatusSink) (w : W) : CmuxStatusSink * W * CmuxLog :=
  match commands with
  | [] => (s, w, [])
  | command :: rest =>
    let '(ok, w) := run command w in
    if ok then
      let '(s, w, log) := run_commands rest desired (with_applied s (commit_applied command desired (snk_applied s)) 0) w in
      (s, w, (command, true) :: log)
    else
      let s := record_failure s in
      if negb (snk_healthy s) then (s, w, [(command, false)])
      else let '(s, w, log) := run_commands rest desired s w in (s, w, (command, false) :: log)
  end.

(** [None] is a line that is not the JSON of a status. *)
Definition apply_with_runner (input : option CmuxStatusInput) (s : CmuxStatusSink) (w : W) : CmuxStatusSink * W * CmuxLog :=
  match input with
  | None => (s, w, [])
  | Some input =>
    if negb (bool_decide (ci_schema input = CMUX_STATUS_SCHEMA)) then (s, w, [])
    else
      let desired := build_desired_pills s input in
      let commands := plan_commands (snk_applied s) desired in
      if bool_decide (length commands = 0%nat) then (s, w, [])
      else if negb (snk_cmux_available s) || negb (snk_healthy s) then (s, w, [])
      else run_commands commands desired s w
  end.

Fixpoint clear_keys (keys : list str) (w : W) : W * CmuxLog :=
  match keys with
  | [] => (w, [])
  | key :: rest =>
    let '(ok, w) := run (ClearStatus key) w in
    let '(w, log) := clear_keys rest w in (w, (ClearStatus key, ok) :: log)
  end.

Definition cleanup_with_runner (s : CmuxStatusSink) (w : W) : CmuxStatusSink * W * CmuxLog :=
  let '(w, log) := clear_keys (ordered_keys (snk_applied s)) w in
  (with_applied s ∅ (snk_consecutive_failures s), w, log).

(** [Drop]. *)
Definition drop_sink (s : CmuxStatusSink) (w : W) : W * CmuxLog :=
  if negb (snk_cmux_available s) then (w, []) else let '(_, w, log) := cleanup_with_runner s w in (w, log).

(** The lines of a status program, one after the other. *)
Fixpoint apply_lines (inputs : list (option CmuxStatusInput)) (s : CmuxStatusSink) (w : W) : CmuxStatusSink * W * CmuxLog :=
  match inputs with
  | [] => (s, w, [])
  | input :: inputs =>
    let '(s, w, log) := apply_with_runner input s w in
    let '(s, w, log') := apply_lines inputs s w in (s, w, log ++ log')
  end.
End sink.

(** ** The runner of the program *)

(** [CliCmuxCommandRunner]: [exec] runs a command line of cmux, and answers whether it exited with success within
    the time it has. *)
Definition cli_runner {W} (exec : list str → W → bool * W) (s : CmuxStatusSink) (command : CmuxCommand) : W → bool * W :=
  exec (build_command_with_capabilities command (cx_workspace_ref (snk_workspace s)) (snk_set_status_label s)).

Definition sink_apply {W} (exec : list str → W → bool * W) (input : option CmuxStatusInput) (s : CmuxStatusSink) (w : W) :=
  apply_with_runner (cli_runner exec s) input s w.

(** ** Orphans *)

(** [str::lines]: the end of a line is a line feed, with the carriage return before it. *)
Definition strip_cr (line : str) : str := match last line with Some 0x0d => take (length line - 1) line | _ => line end.
Fixpoint lines_go (s line : str) : list str :=
  match s with
  | [] => if bool_decide (line = []) then [] else [line]
  | c :: s => if c =? 0x0a then strip_cr line :: lines_go s [] else lines_go s (line ++ [c])
  end.
Definition str_lines (s : str) : list str := lines_go s [].

(** [split('.')]. *)
Fixpoint split_char (sep : char) (s part : str) : list str :=
  match s with
  | [] => [part]
  | c :: s => if c =? sep then part :: split_char sep s [] else split_char sep s (part ++ [c])
  end.

(** What the help of [set-status] says of labels. *)
Definition cmux_set_status_help_supports_label (help : str) : bool :=
  existsb (λ line, let trimmed := trim_start line in
    bool_decide (trimmed = lit "--label") || is_prefix (lit "--label ") trimmed || is_prefix (lit "--label" ++ [0x09]) trimmed)
    (str_lines help).

Definition is_valid_cmux_status_key (key : str) : bool :=
  negb (bool_decide (key = [])) && forallb is_valid_cmux_ref_segment (split_char 0x2e key []).

Definition line_key (line : str) : option str :=
  let trimmed := trim line in
  if bool_decide (trimmed = []) then None
  else
    first_token ← head (split_white trimmed);
    '(key, _) ← split_once (lit "=") first_token;
    if is_valid_cmux_status_key key then Some key else None.

Definition parse_cmux_list_status_keys (output : str) : list str := omap line_key (str_lines output).

Definition orphan_keys_to_clear (list_status_keys : list str) (key_prefix : str) : list str :=
  List.filter (is_prefix key_prefix) list_status_keys.

(** [list_status] is the output of the command, if it succeeds. *)
Definition reconcile_orphans {W} (run : CmuxCommand → W → bool * W) (list_status : W → option str * W) (s : CmuxStatusSink) (w : W)
    : W * CmuxLog :=
  if negb (snk_cmux_available s) || negb (snk_healthy s) then (w, [])
  else
    let '(output, w) := list_status w in
    match output with
    | None => (w, [])
    | Some output => clear_keys run (orphan_keys_to_clear (parse_cmux_list_status_keys output) (snk_key_prefix s)) w
    end.

(** ** What a command is for *)

Definition effect (command : CmuxCommand) (m : pills) : pills :=
  match command with SetStatus key state => <[key := state]> m | ClearStatus key => delete key m end.
Definition command_key (command : CmuxCommand) : str := match command with SetStatus key _ => key | ClearStatus key => key end.

(** A command of a plan does for its key what is desired. *)
Definition towards (desired : pills) (command : CmuxCommand) : Prop :=
  match command with SetStatus key state => desired !! key = Some state | ClearStatus key => desired !! key = None end.

Lemma effect_towards desired command m key :
  towards desired command →
  effect command m !! key = if bool_decide (key = command_key command) then desired !! key else m !! key.
Proof.
  intros Ht. destruct command as [k st|k]; simpl in *; case_bool_decide as Hk; try subst k.
  - by rewrite lookup_insert_eq.
  - by rewrite lookup_insert_ne.
  - by rewrite lookup_delete_eq.
  - by rewrite lookup_delete_ne.
Qed.

Lemma ordered_keys_elem m key : key ∈ ordered_keys m ↔ is_Some (m !! key).
Proof.
  unfold ordered_keys. rewrite merge_sort_Permutation list_elem_of_fmap. split.
  - intros ([k x] & -> & H%elem_of_map_to_list). by exists x.
  - intros [x H]. exists (key, x). split; [done|]. by apply elem_of_map_to_list.
Qed.

Lemma plan_towards applied desired : Forall (towards desired) (plan_commands applied desired).
Proof.
  apply Forall_app. split; apply Forall_forall; intros c (key & Hk & Hc)%list_elem_of_omap.
  - destruct (desired !! key) as [st|] eqn:Hd; simpl in Hc; [|done]. by case_bool_decide; simplify_eq.
  - destruct (desired !! key) as [st|] eqn:Hd; simpl in Hc; by simplify_eq.
Qed.

(** The keys that a plan touches are those on which the two maps differ. *)
Lemma plan_keys applied desired key :
  key ∈ command_key <$> plan_commands applied desired ↔ applied !! key ≠ desired !! key.
Proof.
  unfold plan_commands. rewrite fmap_app elem_of_app !list_elem_of_fmap. split.
  - intros [(c & -> & (k & Hk & Hc)%list_elem_of_omap)|(c & -> & (k & Hk & Hc)%list_elem_of_omap)].
    + destruct (desired !! k) as [st|] eqn:Hd; simpl in Hc; [|done]. case_bool_decide; simplify_eq/=. by rewrite Hd.
    + apply ordered_keys_elem in Hk as [x Hx]. destruct (desired !! k) eqn:Hd; simplify_eq/=. by rewrite Hd Hx.
  - intros Hne. destruct (desired !! key) as [st|] eqn:Hd.
    + left. exists (SetStatus key st). split; [done|]. apply list_elem_of_omap. exists key. split; [apply ordered_keys_elem; by eexists|].
      by rewrite Hd /= bool_decide_false.
    + right. exists (ClearStatus key). split; [done|]. apply list_elem_of_omap. exists key.
      destruct (applied !! key) eqn:Ha; [|done]. split; [apply ordered_keys_elem; by eexists|]. by rewrite Hd.
Qed.

Lemma plan_empty applied desired : plan_commands applied desired = [] ↔ applied = desired.
Proof.
  split; [|intros ->].
  - intros H. apply map_eq. intros key. apply dec_stable. intros Hne. apply plan_keys in Hne. rewrite H in Hne. by apply not_elem_of_nil in Hne.
  - destruct (plan_commands desired desired) as [|c l] eqn:H; [done|]. assert (command_key c ∈ command_key <$> plan_commands desired desired) as Hin
      by (rewrite H; by left). by apply plan_keys in Hin.
Qed.

Lemma effects_towards desired commands m key :
  Forall (towards desired) commands →
  foldl (λ m c, effect c m) m commands !! key =
  if bool_decide (key ∈ command_key <$> commands) then desired !! key else m !! key.
Proof.
  revert m. induction commands as [|c commands IH]; intros m Hall; simpl; [done|].
  apply Forall_cons in Hall as [Hc Hall]. rewrite IH // (effect_towards desired) //.
  destruct (decide (key ∈ command_key <$> commands)) as [Hin|Hin].
  - rewrite !bool_decide_true //. by right.
  - rewrite (bool_decide_false (key ∈ command_key <$> commands)) //. apply (f_equal (λ b : bool, if b then _ else _)), bool_decide_ext.
    rewrite elem_of_cons. tauto.
Qed.

Lemma ordered_keys_NoDup m : NoDup (ordered_keys m).
Proof. unfold ordered_keys. rewrite merge_sort_Permutation. apply NoDup_fst_map_to_list. Qed.

Lemma NoDup_omap_keys (f : str → option CmuxCommand) keys :
  (∀ key c, f key = Some c → command_key c = key) → NoDup keys → NoDup (command_key <$> omap f keys).
Proof.
  intros Hf. induction 1 as [|key keys Hk _ IH]; simpl; [constructor|]. destruct (f key) as [c|] eqn:Hc; [|done].
  simpl. apply NoDup_cons. split; [|done]. intros (c' & Heq & (k' & Hk' & Hc')%list_elem_of_omap)%list_elem_of_fmap.
  apply Hk. by rewrite -(Hf _ _ Hc) Heq (Hf _ _ Hc').
Qed.

(** A plan touches each key once. *)
Lemma plan_NoDup applied desired : NoDup (command_key <$> plan_commands applied desired).
Proof.
  unfold plan_commands. rewrite fmap_app NoDup_app. split_and!.
  - apply NoDup_omap_keys; [|apply ordered_keys_NoDup]. intros key c. destruct (desired !! key); simpl; [|done].
    case_bool_decide; [done|]. by intros [= <-].
  - intros key (c & -> & (k & _ & Hc)%list_elem_of_omap)%list_elem_of_fmap (c' & Heq & (k' & _ & Hc')%list_elem_of_omap)%list_elem_of_fmap.
    destruct (desired !! k) as [st|] eqn:Hd; simpl in Hc; [|done]. case_bool_decide; [done|]. injection Hc as <-.
    destruct (desired !! k') eqn:Hd'; simpl in Hc'; [done|]. injection Hc' as <-. simpl in Heq. congruence.
  - apply NoDup_omap_keys; [|apply ordered_keys_NoDup]. intros key c. destruct (desired !! key); simpl; [done|]. by intros [= <-].
Qed.

(** Running a plan in full gives what is desired. *)
Lemma plan_reaches applied desired : foldl (λ m c, effect c m) applied (plan_commands applied desired) = desired.
Proof.
  apply map_eq. intros key. rewrite (effects_towards desired); [|apply plan_towards]. case_bool_decide as Hk; [done|].
  apply dec_stable. intros Hne. by apply Hk, plan_keys.
Qed.

Lemma effect_other c m key : key ≠ command_key c → effect c m !! key = m !! key.
Proof. destruct c; simpl; intros; [by rewrite lookup_insert_ne|by rewrite lookup_delete_ne]. Qed.

Lemma prefix_app_true (p k : str) : is_prefix p (p ++ k) = true.
Proof. apply is_prefix_spec. by eexists. Qed.

Lemma build_desired_prefix s input key : is_Some (build_desired_pills s input !! key) →
  ∃ seg, key = snk_key_prefix s ++ seg ∧ is_valid_pill_key seg = true.
Proof.
  unfold build_desired_pills. generalize (ci_pills input). intros l.
  assert (∀ m : pills, (is_Some (m !! key) → ∃ seg, key = snk_key_prefix s ++ seg ∧ is_valid_pill_key seg = true) →
    is_Some (foldl (λ m p, if negb (is_valid_pill_key (pi_key p)) then m else <[snk_key_prefix s ++ pi_key p := pill_state p]> m) m l !! key) →
    ∃ seg, key = snk_key_prefix s ++ seg ∧ is_valid_pill_key seg = true) as Hgen.
  { induction l as [|p l IH]; intros m Hm; simpl; [done|]. apply IH. destruct (is_valid_pill_key (pi_key p)) eqn:Hv; simpl; [|done].
    intros [x [[<- _]|[_ Hx]]%lookup_insert_Some]; [by eexists|]. apply Hm. by eexists. }
  apply Hgen. rewrite lookup_empty. by intros [].
Qed.

(** ** What the sink remembers *)

(** A command that was answered with success does what it is for. *)
Definition acknowledge (m : pills) (e : CmuxCommand * bool) : pills := if e.2 then effect e.1 m else m.
Definition acknowledged (log : CmuxLog) : pills := foldl acknowledge ∅ log.

Lemma acknowledge_all log m :
  forallb snd log = true → foldl acknowledge m log = foldl (λ m c, effect c m) m log.*1.
Proof.
  revert m. induction log as [|[c ok] log IH]; intros m; simpl; [done|]. intros [-> Hall]%andb_true. by apply IH.
Qed.

Section log.
Context {W : Type} (run : CmuxCommand → W → bool * W).

(** What stays as it is, but for a sink that goes dark. *)
Definition same_sink (s s' : CmuxStatusSink) : Prop :=
  snk_key_prefix s' = snk_key_prefix s ∧ snk_cmux_available s' = snk_cmux_available s ∧
  snk_workspace s' = snk_workspace s ∧ snk_set_status_label s' = snk_set_status_label s.

Lemma run_commands_log commands desired s w s' w' log :
  Forall (towards desired) commands → run_commands run commands desired s w = (s', w', log) →
  same_sink s s' ∧ snk_applied s' = foldl acknowledge (snk_applied s) log ∧
  (forallb snd log = true → snk_healthy s' = snk_healthy s) ∧
  ∃ rest, commands = log.*1 ++ rest ∧ (rest = [] ∨ snk_healthy s' = false).
Proof.
  intros Ht. revert s w s' w' log. induction Ht as [|c commands Hc _ IH]; intros s w s' w' log; cbn [run_commands].
  { intros [= <- <- <-]. split_and!; [by split_and!|done..|]. exists []. by split; [|left]. }
  destruct (run c w) as [ok w1]. destruct ok.
  - assert (commit_applied c desired (snk_applied s) = effect c (snk_applied s)) as ->.
    { destruct c; simpl in *; [by rewrite Hc|done]. }
    destruct (run_commands run commands desired _ w1) as [[s2 w2] log2] eqn:Hrun. intros [= <- <- <-].
    apply IH in Hrun as (Hsame & Happ & Hh & rest & -> & Hrest). split_and!; [done..|]. by exists rest.
  - destruct (negb (snk_healthy (record_failure s))) eqn:Hdark.
    + intros [= <- <- <-]. split_and!; [by split_and!|done|done|]. exists commands. split; [done|right]. by apply negb_true_iff.
    + destruct (run_commands run commands desired (record_failure s) w1) as [[s2 w2] log2] eqn:Hrun. intros [= <- <- <-].
      apply IH in Hrun as (Hsame & Happ & _ & rest & -> & Hrest). split_and!; [done..|]. by exists rest.
Qed.

Lemma clear_keys_log keys w : (clear_keys run keys w).2.*1 = ClearStatus <$> keys.
Proof.
  revert w. induction keys as [|key keys IH]; intros w; simpl; [done|]. destruct (run (ClearStatus key) w) as [ok w1].
  specialize (IH w1). destruct (clear_keys run keys w1) as [w2 log]. cbn [snd fmap list_fmap fst] in *. by f_equal.
Qed.

Lemma drop_sink_log s w :
  (drop_sink run s w).2.*1 = if snk_cmux_available s then ClearStatus <$> ordered_keys (snk_applied s) else [].
Proof.
  unfold drop_sink, cleanup_with_runner. destruct (snk_cmux_available s); [simpl|done].
  pose proof (clear_keys_log (ordered_keys (snk_applied s)) w) as Hlog. by destruct (clear_keys run _ w).
Qed.

(** A line whose status is not of this schema, or a sink that may not run commands, changes nothing. *)
Definition listens (s : CmuxStatusSink) (input : option CmuxStatusInput) (line : CmuxStatusInput) : Prop :=
  input = Some line ∧ ci_schema line = CMUX_STATUS_SCHEMA ∧ snk_cmux_available s = true ∧ snk_healthy s = true.

Lemma apply_log input s w s' w' log :
  apply_with_runner run input s w = (s', w', log) →
  same_sink s s' ∧ snk_applied s' = foldl acknowledge (snk_applied s) log ∧
  ((s' = s ∧ log = [] ∧ ∀ line, ¬ listens s input line) ∨
   ∃ line rest, listens s input line ∧ plan_commands (snk_applied s) (build_desired_pills s line) = log.*1 ++ rest ∧
     (rest = [] ∨ snk_healthy s' = false) ∧ (forallb snd log = true → rest = [])).
Proof.
  unfold apply_with_runner, listens. assert (same_sink s s) as Hrefl by by split_and!.
  destruct input as [line|]; [|intros [= <- <- <-]; split_and!; [done..|left; split_and!; [done..|naive_solver]]].
  case_bool_decide as Hschema; cbn [negb]; [|intros [= <- <- <-]; split_and!; [done..|left; split_and!; [done..|naive_solver]]].
  destruct (negb (snk_cmux_available s) || negb (snk_healthy s)) eqn:Hoff.
  { intros Hrun. assert ((s, w, []) = (s', w', log)) as [= <- <- <-] by (revert Hrun; by case_bool_decide).
    split_and!; [done..|left]. split_and!; [done..|]. intros l (_ & _ & Ha & Hh). by rewrite Ha Hh in Hoff. }
  apply orb_false_iff in Hoff as [Ha%negb_false_iff Hh%negb_false_iff].
  case_bool_decide as Hlen.
  { apply nil_length_inv in Hlen. intros [= <- <- <-]. split_and!; [done..|right]. exists line, []. rewrite Hlen. by split_and!; [..|left|]. }
  intros Hrun. apply run_commands_log in Hrun as (Hsame & Happ & Hok & rest & Hplan & Hrest); [|apply plan_towards].
  split_and!; [done..|right]. exists line, rest. split_and!; [done..|]. intros Hall. destruct Hrest as [?|Hdark]; [done|].
  rewrite (Hok Hall) in Hdark. congruence.
Qed.

(** The keys of a pane's pills. *)
Definition own_key (pane_id key : str) : Prop := ∃ seg, is_valid_pill_key seg = true ∧ key = key_prefix_of pane_id ++ seg.

Record remembers (pane_id : str) (s : CmuxStatusSink) (log : CmuxLog) : Prop := {
  rm_prefix : snk_key_prefix s = key_prefix_of pane_id;
  rm_applied : snk_applied s = acknowledged log;
  rm_keys : ∀ key, is_Some (snk_applied s !! key) → own_key pane_id key;
  rm_log : ∀ c, c ∈ log.*1 → own_key pane_id (command_key c) }.

Lemma acknowledge_keys (P : str → Prop) log m :
  (∀ key, is_Some (m !! key) → P key) → (∀ c, c ∈ log.*1 → P (command_key c)) →
  ∀ key, is_Some (foldl acknowledge m log !! key) → P key.
Proof.
  revert m. induction log as [|[c ok] log IH]; intros m Hm Hlog; [done|]. apply IH; [|intros c' Hc'; apply Hlog; by right].
  intros key. unfold acknowledge. destruct ok; [|apply Hm]. simpl. destruct (decide (key = command_key c)) as [->|Hne].
  - intros _. apply Hlog. by left.
  - rewrite effect_other //. apply Hm.
Qed.

Lemma plan_own pane_id s log line c :
  remembers pane_id s log → c ∈ plan_commands (snk_applied s) (build_desired_pills s line) → own_key pane_id (command_key c).
Proof.
  intros [Hp _ Hkeys _] Hc. assert (command_key c ∈ command_key <$> plan_commands (snk_applied s) (build_desired_pills s line)) as Hk
    by by apply list_elem_of_fmap_2.
  apply plan_keys in Hk. destruct (build_desired_pills s line !! command_key c) as [st|] eqn:Hd.
  - destruct (build_desired_prefix s line (command_key c)) as (seg & -> & ?); [by eexists|]. exists seg. by rewrite Hp.
  - apply Hkeys. by destruct (snk_applied s !! command_key c).
Qed.

Lemma apply_remembers pane_id input s w s' w' log new :
  remembers pane_id s log → apply_with_runner run input s w = (s', w', new) → remembers pane_id s' (log ++ new).
Proof.
  intros Hr Hrun. apply apply_log in Hrun as ((Hp & _) & Happ & Hcase).
  assert (∀ c, c ∈ new.*1 → own_key pane_id (command_key c)) as Hnew.
  { intros c Hc. destruct Hcase as [(_ & -> & _)|(line & rest & _ & Hplan & _)]; [by apply not_elem_of_nil in Hc|].
    apply (plan_own pane_id s log line); [done|]. rewrite Hplan. apply elem_of_app. by left. }
  destruct Hr as [Hprefix Happlied Hkeys Hlog]. split; [by rewrite Hp| | |].
  - by rewrite Happ Happlied /acknowledged foldl_app.
  - rewrite Happ. by apply acknowledge_keys.
  - intros c. rewrite fmap_app elem_of_app. intros [?|?]; auto.
Qed.

Lemma lines_remember pane_id inputs s w s' w' log new :
  remembers pane_id s log → apply_lines run inputs s w = (s', w', new) →
  remembers pane_id s' (log ++ new) ∧ snk_cmux_available s' = snk_cmux_available s.
Proof.
  revert s w log new. induction inputs as [|input inputs IH]; intros s w log new Hr; simpl; [intros [= <- <- <-]; by rewrite app_nil_r|].
  destruct (apply_with_runner run input s w) as [[s1 w1] log1] eqn:H1. destruct (apply_lines run inputs s1 w1) as [[s2 w2] log2] eqn:H2.
  intros [= <- <- <-]. rewrite app_assoc. pose proof (apply_log _ _ _ _ _ _ H1) as ((_ & Hav & _) & _).
  apply (apply_remembers pane_id _ _ _ _ _ log) in H1; [|done]. destruct (IH _ _ _ _ H1 H2) as [? ->]. done.
Qed.

(** C37: Over any lines, whatever cmux makes of the commands and whichever of them fail or time out,
    the sink remembers exactly the result of the commands that succeeded, and names no pill but
    those of its own pane.  A line that it listens to issues the difference between that and
    the pills of the line, each pill at most once and all of them unless the sink goes dark on
    the way; when all the commands succeed, it remembers the pills of the line.  Any other line
    issues nothing.  When the sink is dropped, it clears each pill that it remembers, once. *)
Theorem sink_issues_the_difference workspace pane_id available detected inputs w s w1 log :
  apply_lines run inputs (new_sink workspace pane_id available detected) w = (s, w1, log) →
  snk_applied s = acknowledged log ∧
  (∀ c, c ∈ log.*1 → own_key pane_id (command_key c)) ∧
  (∀ input s' w2 new, apply_with_runner run input s w1 = (s', w2, new) →
    (∀ line, listens s input line →
      let wanted := build_desired_pills s line in
      NoDup (command_key <$> new.*1) ∧
      (∀ c, c ∈ new.*1 → acknowledged log !! command_key c ≠ wanted !! command_key c ∧ towards wanted c) ∧
      ((∀ key, acknowledged log !! key ≠ wanted !! key → key ∈ command_key <$> new.*1) ∨ snk_healthy s' = false) ∧
      (forallb snd new = true → acknowledged (log ++ new) = wanted)) ∧
    ((∀ line, ¬ listens s input line) → new = [])) ∧
  (drop_sink run s w1).2.*1 = (if available then ClearStatus <$> ordered_keys (acknowledged log) else []).
Proof.
  intros Hrun. apply (lines_remember pane_id _ _ _ _ _ []) in Hrun as [[Hp Happ Hkeys Hlog] Hav];
    [|by split; [| |intros key; rewrite lookup_empty; intros []|intros c ?%not_elem_of_nil]].
  simpl in Happ, Hlog, Hav. split_and!; [done..| |by rewrite drop_sink_log Hav Happ].
  intros input s' w2 new Happly. apply apply_log in Happly as (_ & _ & Hcase). split.
  2:{ intros Hno. destruct Hcase as [(_ & ? & _)|(line & rest & Hl & _)]; [done|by destruct (Hno line)]. }
  intros line Hl wanted. destruct Hcase as [(_ & _ & Hno)|(line' & rest & Hl' & Hplan & Hrest & Hall)]; [by destruct (Hno line)|].
  assert (line' = line) as -> by (destruct Hl as (-> & _), Hl' as ([= ->] & _); done).
  rewrite Happ -/wanted in Hplan. pose proof (plan_NoDup (acknowledged log) wanted) as Hnd. pose proof (plan_towards (acknowledged log) wanted) as Ht.
  rewrite Hplan in Hnd, Ht. split_and!.
  - rewrite fmap_app in Hnd. by apply NoDup_app in Hnd as [? _].
  - intros c Hc. split; [|eapply Forall_forall in Ht; [done|]; apply elem_of_app; by left].
    apply plan_keys. rewrite Hplan. apply list_elem_of_fmap_2, elem_of_app. by left.
  - destruct Hrest as [->|?]; [left|by right]. intros key Hk%plan_keys. by rewrite Hplan app_nil_r in Hk.
  - intros Hok. rewrite /acknowledged foldl_app -/(acknowledged log) acknowledge_all // -(app_nil_r new.*1) -(Hall Hok) -Hplan.
    apply plan_reaches.
Qed.
End log.

(** ** The circuit breaker *)

Section breaker.
Context {W : Type} (run : CmuxCommand → W → bool * W).

(** The failures at the end of a history. *)
Definition streak (history : list bool) : Z := foldl (λ (n : Z) (ok : bool), if ok then 0 else n + 1) 0 history.

Lemma streak_snoc history ok : streak (history ++ [ok]) = if ok then 0 else streak history + 1.
Proof. unfold streak. by rewrite foldl_app. Qed.

Definition three_failures : list bool := [false; false; false].

(** What the sink knows of the commands that were run. *)
Record counted (s : CmuxStatusSink) (history : list bool) : Prop := {
  co_streak : snk_consecutive_failures s = streak history;
  co_bounds : 0 ≤ streak history ≤ 3;
  co_healthy : snk_healthy s = true ↔ streak history < 3;
  co_last : ∀ h1 h2, history = h1 ++ three_failures ++ h2 → h2 = [] }.

Lemma streak_app_three h : streak (h ++ three_failures) = streak h + 3.
Proof. unfold streak. rewrite foldl_app. simpl. lia. Qed.

Lemma streak_nonneg h : 0 ≤ streak h.
Proof. induction h as [|ok h IH] using rev_ind; [done|]. rewrite streak_snoc. destruct ok; lia. Qed.

(** A history in good health may go on. *)
Lemma three_snoc (history : list bool) (ok : bool) :
  (∀ h1 h2, history = h1 ++ three_failures ++ h2 → h2 = []) → streak history < 3 →
  ∀ h1 h2, history ++ [ok] = h1 ++ three_failures ++ h2 → h2 = [].
Proof.
  intros Hlast Hlow h1 h2 Heq. destruct h2 as [|b h2 _] using rev_ind; [done|].
  rewrite !app_assoc in Heq. apply app_inj_tail in Heq as [Heq _]. rewrite -app_assoc in Heq.
  pose proof (Hlast h1 h2 Heq) as ->. rewrite app_nil_r in Heq. subst history. rewrite streak_app_three in Hlow.
  pose proof (streak_nonneg h1). lia.
Qed.

Lemma counted_step (s : CmuxStatusSink) (history : list bool) (applied : pills) (ok : bool) :
  counted s history → snk_healthy s = true →
  counted (if ok then with_applied s applied 0 else record_failure s) (history ++ [ok]).
Proof.
  intros [Hs Hb Hh Hl] Hhealthy. apply Hh in Hhealthy as Hlow.
  split; [..|by apply three_snoc]; rewrite streak_snoc; destruct ok; simpl; try lia.
  - unfold saturating_add, u32_max. lia.
  - rewrite Hhealthy. done.
  - unfold CMUX_STATUS_FAILURE_LIMIT, saturating_add, u32_max. rewrite Hhealthy andb_true_r. case_match; [|lia]. split; [done|lia].
Qed.

Lemma run_commands_counted commands desired s w history s' w' log :
  counted s history → snk_healthy s = true →
  run_commands run commands desired s w = (s', w', log) → counted s' (history ++ log.*2).
Proof.
  revert s w history s' w' log. induction commands as [|c commands IH]; intros s w history s' w' log Hc Hh; cbn [run_commands].
  { intros [= <- <- <-]. by rewrite app_nil_r. }
  destruct (run c w) as [[] w1].
  - destruct (run_commands run commands desired _ w1) as [[s2 w2] log2] eqn:Hrun. intros [= <- <- <-].
    cbn [fmap list_fmap snd]. rewrite (app_assoc history [true] log2.*2).
    refine (IH _ _ _ _ _ _ _ _ Hrun); [by apply (counted_step s history _ true)|done].
  - pose proof (counted_step s history ∅ false Hc Hh) as Hf. destruct (snk_healthy (record_failure s)) eqn:Hh2; cbn [negb].
    + destruct (run_commands run commands desired _ w1) as [[s2 w2] log2] eqn:Hrun. intros [= <- <- <-].
      cbn [fmap list_fmap snd]. rewrite (app_assoc history [false] log2.*2). by eapply IH.
    + by intros [= <- <- <-].
Qed.

Lemma apply_counted input s w history s' w' log :
  counted s history → apply_with_runner run input s w = (s', w', log) → counted s' (history ++ log.*2).
Proof.
  intros Hc. unfold apply_with_runner. destruct input as [line|]; [|by intros [= <- <- <-]; rewrite app_nil_r].
  repeat (case_match; [by intros [= <- <- <-]; rewrite app_nil_r|]).
  intros Hrun. eapply run_commands_counted; [done| |done]. by destruct (snk_healthy s); rewrite ?orb_true_r in H1.
Qed.

(** The sink gives up in time: over any lines and however commands fail, no command but
    those of the final cleanup is run after three failures in a row, and the sink goes dark
    only for that reason. *)
Theorem breaker_stops_after_three workspace pane_id available detected inputs w s' w' log :
  apply_lines run inputs (new_sink workspace pane_id available detected) w = (s', w', log) →
  (∀ before after, log.*2 = before ++ three_failures ++ after → after = []) ∧
  (snk_healthy s' = false ↔ ∃ before, log.*2 = before ++ three_failures).
Proof.
  assert (∀ s w s' w' h0 h, counted s h0 → apply_lines run inputs s w = (s', w', h) → counted s' (h0 ++ h.*2)) as Hall.
  { induction inputs as [|input inputs IH]; intros s v t v' h0 h Hc; simpl; [by intros [= <- <- <-]; rewrite app_nil_r|].
    destruct (apply_with_runner run input s v) as [[s1 w1] a1] eqn:H1. destruct (apply_lines run inputs s1 w1) as [[s2 w2] a2] eqn:H2.
    intros [= <- <- <-]. rewrite fmap_app app_assoc. eapply IH; [by eapply apply_counted|done]. }
  intros H. apply (Hall _ _ _ _ []) in H as [Hs Hb Hh Hl].
  2:{ split; [done|done|done|]. intros h1 h2 Heq. by destruct h1. }
  simpl in *. split; [done|]. rewrite -not_true_iff_false Hh. generalize dependent (log.*2). intros history. intros. split.
  - intros Hlow. assert (streak history = 3) as H3 by lia. clear -H3.
    destruct history as [|x h _] using rev_ind; [done|]. rewrite streak_snoc in H3. destruct x; [done|].
    destruct h as [|x h _] using rev_ind; [done|]. rewrite streak_snoc in H3. destruct x; [done|].
    destruct h as [|x h _] using rev_ind; [done|]. rewrite streak_snoc in H3. destruct x; [done|].
    exists h. by rewrite -!app_assoc.
  - intros [before ->]. rewrite streak_app_three. pose proof (streak_nonneg before). lia.
Qed.
End breaker.

(** ** Orphans *)

Lemma trim_start_before (a b : str) c : is_whitespace c = false → ∃ a', trim_start (a ++ c :: b) = a' ++ c :: b.
Proof.
  intros Hc. induction a as [|d a IH]; simpl; [exists []; by rewrite Hc|].
  destruct (is_whitespace d); [done|]. by exists (d :: a).
Qed.

(** A word at the start of a line is kept by the trim. *)
Lemma trim_word (p rest : str) : plain_word p → ∃ rest', trim (p ++ rest) = p ++ rest'.
Proof.
  intros [Hne Hp]. destruct p as [|c p]; [done|]. pose proof Hp as Hp'. cbn [forallb] in Hp. apply andb_true in Hp as [Hc _].
  apply negb_true_iff in Hc. unfold trim. cbn [trim_start app]. rewrite Hc.
  assert (∃ d q, c :: p = q ++ [d] ∧ is_whitespace d = false) as (d & q & Hq & Hd).
  { destruct (c :: p) as [|d q _] eqn:E using rev_ind; [done|]. exists d, q. split; [done|].
    rewrite forallb_app in Hp'. simpl in Hp'. apply andb_true in Hp' as [_ [Hd _]%andb_true]. by apply negb_true_iff in Hd. }
  replace (c :: p ++ rest) with (q ++ [d] ++ rest) by by rewrite app_assoc -Hq.
  rewrite !reverse_app -app_assoc. change (reverse [d]) with [d].
  destruct (trim_start_before (reverse rest) (reverse q) d Hd) as [r Hr]. simpl in Hr |- *. rewrite Hr.
  exists (reverse r). rewrite reverse_app reverse_cons reverse_involutive. by rewrite -Hq.
Qed.

Lemma split_white_go_first (s word : str) : word ≠ [] → ∃ q l, split_white_go s word = (word ++ q) :: l.
Proof.
  revert word. induction s as [|c s IH]; intros word Hw; simpl.
  - rewrite bool_decide_false //. exists [], []. by rewrite app_nil_r.
  - destruct (is_whitespace c).
    + rewrite bool_decide_false //. exists []. eexists. by rewrite app_nil_r.
    + destruct (IH (word ++ [c])) as (q & l & ->); [by destruct word|]. exists (c :: q), l. by rewrite -app_assoc.
Qed.

Definition key_char (c : char) : bool := segment_char c || (c =? 0x2e).

Lemma key_char_plain c : key_char c = true → is_whitespace c = false ∧ c ≠ 0x3d ∧ c ≠ 0x0a.
Proof.
  unfold key_char, segment_char, is_ascii_alphanumeric, is_ascii_alphabetic, ascii_digit, is_whitespace, within.
  intros H. split; [|lia]. apply not_true_is_false. intros H2. lia.
Qed.

Lemma split_char_first (sep : char) (s part : str) : ∃ q l, split_char sep s part = (part ++ q) :: l.
Proof.
  revert part. induction s as [|c s IH]; intros part; simpl; [exists [], []; by rewrite app_nil_r|].
  destruct (c =? sep); [exists []; eexists; by rewrite app_nil_r|]. destruct (IH (part ++ [c])) as (q & l & ->).
  exists (c :: q), l. by rewrite -app_assoc.
Qed.

Lemma split_char_chars (s part : str) :
  forallb is_valid_cmux_ref_segment (split_char 0x2e s part) = true → forallb key_char s = true.
Proof.
  revert part. induction s as [|c s IH]; intros part; simpl; [done|]. destruct (c =? 0x2e) eqn:Hc; simpl.
  - intros [_ H]%andb_true. rewrite (IH _ H) andb_true_r. unfold key_char. by rewrite Hc orb_true_r.
  - intros H. rewrite (IH _ H) andb_true_r. destruct (split_char_first 0x2e s (part ++ [c])) as (q & l & Hq).
    rewrite Hq in H. simpl in H. apply andb_true in H as [[_ H]%andb_true _]. rewrite !forallb_app in H.
    apply andb_true in H as [[_ H]%andb_true _]. simpl in H. apply andb_true in H as [H _]. unfold key_char. by rewrite H.
Qed.

Lemma status_key_chars key : is_valid_cmux_status_key key = true → key ≠ [] ∧ ∀ c, c ∈ key → key_char c = true.
Proof.
  unfold is_valid_cmux_status_key. intros [H1 H2]%andb_true. apply negb_true_iff, bool_decide_eq_false in H1. split; [done|].
  apply split_char_chars in H2. intros c Hc. rewrite forallb_forall in H2. by apply H2, list_elem_of_In.
Qed.

(** A line of the status of a key is read as that key. *)
Lemma line_key_valid key rest : is_valid_cmux_status_key key = true → line_key (key ++ [0x3d] ++ rest) = Some key.
Proof.
  intros Hkey. pose proof (status_key_chars key Hkey) as [Hne Hchars].
  assert (plain_word (key ++ [0x3d])) as Hplain.
  { split; [by destruct key|]. apply forallb_forall. intros c [Hc|Hc]%list_elem_of_In%elem_of_app.
    - apply negb_true_iff. by apply key_char_plain, Hchars.
    - by apply list_elem_of_singleton in Hc as ->. }
  unfold line_key. destruct (trim_word (key ++ [0x3d]) rest Hplain) as [rest' Htrim]. rewrite -app_assoc in Htrim. rewrite Htrim.
  rewrite bool_decide_false; [|by destruct key].
  destruct Hplain as [Hw Hplain]. unfold split_white. rewrite (split_white_word (key ++ [0x3d]) rest' []) //.
  destruct (split_white_go_first rest' ([] ++ key ++ [0x3d])) as (q & l & ->); [by destruct key|]. simpl.
  rewrite -app_assoc. change ([0x3d] ++ q) with (lit "=" ++ q). rewrite split_once_app.
  - simpl. by rewrite Hkey.
  - intros k Hk. destruct (drop k key) as [|c d] eqn:Hd; [apply (f_equal length) in Hd; rewrite length_drop in Hd; simpl in Hd; lia|].
    assert (c ∈ key) as Hc by (rewrite -(take_drop k key) Hd; set_solver). apply Hchars, key_char_plain in Hc as (_ & Hne' & _).
    simpl. rewrite bool_decide_false //.
Qed.

(** The output of [cmux list-status]: a line per pill. *)
Definition status_lines (entries : list (str * str)) : str :=
  mjoin ((λ e : str * str, e.1 ++ [0x3d] ++ e.2 ++ [0x0a]) <$> entries).

Lemma lines_go_line (line s part : str) :
  0x0a ∉ line → lines_go (line ++ 0x0a :: s) part = strip_cr (part ++ line) :: lines_go s [].
Proof.
  revert part. induction line as [|c line IH]; intros part Hn; simpl; [by rewrite app_nil_r|].
  apply not_elem_of_cons in Hn as [Hc Hn]. destruct (c =? 0x0a) eqn:E; [lia|]. rewrite IH // -app_assoc //.
Qed.

Lemma strip_cr_after (p rest : str) c : c ≠ 0x0d → ∃ rest', strip_cr (p ++ [c] ++ rest) = p ++ [c] ++ rest'.
Proof.
  intros Hc. unfold strip_cr. destruct rest as [|d rest _] using rev_ind.
  - exists []. rewrite last_snoc. repeat (case_match; try done).
  - destruct (decide (d = 0x0d)) as [->|Hd]; rewrite !app_assoc last_snoc.
    + exists rest. rewrite take_app_length' -?app_assoc //. rewrite !length_app. simpl. lia.
    + exists (rest ++ [d]). rewrite -!app_assoc. repeat (case_match; try done).
Qed.

Lemma status_lines_cons key rest entries :
  status_lines ((key, rest) :: entries) = (key ++ [0x3d] ++ rest) ++ 0x0a :: status_lines entries.
Proof.
  change (status_lines ((key, rest) :: entries)) with ((key ++ [0x3d] ++ rest ++ [0x0a]) ++ status_lines entries).
  by rewrite -!app_assoc.
Qed.

Lemma parse_status_lines entries key rest :
  Forall (λ e : str * str, 0x0a ∉ e.1 ∧ 0x0a ∉ e.2) entries → (key, rest) ∈ entries → is_valid_cmux_status_key key = true →
  key ∈ parse_cmux_list_status_keys (status_lines entries).
Proof.
  intros Hall Hin Hkey. unfold parse_cmux_list_status_keys, str_lines.
  induction Hall as [|[k r] entries [Hk Hr] Hall IH]; [by apply not_elem_of_nil in Hin|]. simpl in Hk, Hr.
  rewrite status_lines_cons lines_go_line; [|rewrite !not_elem_of_app list_elem_of_singleton; split_and!; done].
  apply elem_of_cons in Hin as [Heq|Hin].
  - simplify_eq. destruct (strip_cr_after k r 0x3d) as [r' Hstrip]; [done|]. cbn [omap list_omap app].
    rewrite Hstrip line_key_valid //. by left.
  - cbn [omap list_omap]. destruct (line_key _); [right|]; by apply IH.
Qed.

(** ** Panes *)

Lemma split_at_dot (a b s t : str) : 0x2e ∉ a → 0x2e ∉ b → a ++ 0x2e :: s = b ++ 0x2e :: t → a = b.
Proof.
  revert b. induction a as [|c a IH]; intros [|d b] Ha Hb H; simpl in H; simplify_eq; [done|set_solver|set_solver|].
  f_equal. apply (IH b); set_solver.
Qed.

Lemma sanitized_no_dot pane_id : 0x2e ∉ sanitize_cmux_pane_segment pane_id.
Proof.
  unfold sanitize_cmux_pane_segment. case_bool_decide; [by vm_compute; set_solver|].
  intros (c & Heq & _)%list_elem_of_fmap. by destruct (segment_char c) eqn:Hc; [subst c|].
Qed.

(** The panes of the daemon are numbered. *)
Definition pane_of (n : Z) : str := 0x25 :: dec n.

Lemma digit_segment c : ascii_digit c = true → segment_char c = true.
Proof. intros H. unfold segment_char, is_ascii_alphanumeric. by rewrite H orb_true_r. Qed.

Lemma sanitize_pane n : 0 ≤ n → sanitize_cmux_pane_segment (pane_of n) = 0x5f :: dec n.
Proof.
  intros Hn. unfold sanitize_cmux_pane_segment, pane_of. cbn [fmap list_fmap]. rewrite bool_decide_false //.
  change (segment_char 0x25) with false. cbv iota. f_equal. pose proof (dec_digits n Hn) as Hd. revert Hd.
  generalize (dec n). intros s. induction s as [|c s IH]; [done|]. simpl. intros [Hc Hs]%andb_true.
  f_equal; [by rewrite digit_segment|by apply IH].
Qed.

Lemma own_key_pane n m rest :
  0 ≤ n → 0 ≤ m → is_prefix (key_prefix_of (pane_of n)) (key_prefix_of (pane_of m) ++ rest) = true → n = m.
Proof.
  intros Hn Hm [k Hk]%is_prefix_spec. unfold key_prefix_of in Hk. rewrite -!app_assoc in Hk. apply app_inj_1 in Hk as [_ Hk]; [|done].
  apply split_at_dot in Hk; [|apply sanitized_no_dot..]. rewrite !sanitize_pane // in Hk. injection Hk as Hk. symmetry. by apply dec_inj.
Qed.

Lemma segment_no_dot (seg : str) : forallb segment_char seg = true → split_char 0x2e seg [] = [seg].
Proof.
  assert (∀ part, forallb segment_char seg = true → split_char 0x2e seg part = [part ++ seg]) as H; [|by apply H].
  induction seg as [|c seg IH]; intros part; simpl; [by rewrite app_nil_r|]. intros [Hc Hs]%andb_true.
  destruct (c =? 0x2e) eqn:E; [assert (c = 0x2e) as -> by lia; done|]. by rewrite IH // -app_assoc.
Qed.

Lemma split_char_dot (a s : str) : 0x2e ∉ a → split_char 0x2e (a ++ 0x2e :: s) [] = a :: split_char 0x2e s [].
Proof.
  assert (∀ part, 0x2e ∉ a → split_char 0x2e (a ++ 0x2e :: s) part = (part ++ a) :: split_char 0x2e s []) as H; [|by apply H].
  induction a as [|c a IH]; intros part; simpl; [by rewrite app_nil_r|]. intros [Hc Ha]%not_elem_of_cons.
  destruct (c =? 0x2e) eqn:E; [lia|]. by rewrite IH // -app_assoc.
Qed.

(** The keys that the sink of a pane writes are found in the output of [cmux list-status]. *)
Lemma written_key_valid n seg : 0 ≤ n → is_valid_pill_key seg = true → is_valid_cmux_status_key (key_prefix_of (pane_of n) ++ seg) = true.
Proof.
  intros Hn [_ Hseg]%andb_true. unfold is_valid_cmux_status_key, key_prefix_of. rewrite sanitize_pane //.
  replace ((lit "lterm." ++ (0x5f :: dec n) ++ lit ".") ++ seg) with (lit "lterm" ++ 0x2e :: (0x5f :: dec n) ++ 0x2e :: seg)
    by by rewrite -!app_assoc.
  rewrite split_char_dot; [|by vm_compute; set_solver]. rewrite split_char_dot; [|rewrite -sanitize_pane //; apply sanitized_no_dot].
  unfold is_valid_cmux_ref_segment in Hseg. apply andb_true in Hseg as [Hne Hchars]. rewrite segment_no_dot //. cbn [forallb].
  replace (is_valid_cmux_ref_segment (lit "lterm")) with true by by vm_compute.
  assert (is_valid_cmux_ref_segment (0x5f :: dec n) = true) as ->.
  { unfold is_valid_cmux_ref_segment. rewrite bool_decide_false //. cbn [forallb negb andb]. change (segment_char 0x5f) with true.
    pose proof (dec_digits n Hn) as Hd. rewrite forallb_forall in Hd. apply forallb_forall. intros c Hc. by apply digit_segment, Hd. }
  unfold is_valid_cmux_ref_segment. rewrite Hne Hchars. by destruct (lit "lterm").
Qed.

(** Attaching to a pane asks cmux to clear every pill that an earlier sink of that pane has left
    behind, and no pill of another pane or program, when cmux lists its pills a line each. *)
Theorem reconcile_clears_orphans {W} (run : CmuxCommand → W → bool * W) (list_status : W → option str * W)
    workspace detected n w w1 entries :
  0 ≤ n → list_status w = (Some (status_lines entries), w1) → Forall (λ e : str * str, 0x0a ∉ e.1 ∧ 0x0a ∉ e.2) entries →
  let cleared := (reconcile_orphans run list_status (new_sink workspace (pane_of n) true detected) w).2.*1 in
  (∀ seg, is_valid_pill_key seg = true → key_prefix_of (pane_of n) ++ seg ∈ entries.*1 →
    ClearStatus (key_prefix_of (pane_of n) ++ seg) ∈ cleared) ∧
  (∀ c, c ∈ cleared → ∃ key, c = ClearStatus key ∧ is_prefix (key_prefix_of (pane_of n)) key = true ∧
    ∀ m seg, 0 ≤ m → m ≠ n → key ≠ key_prefix_of (pane_of m) ++ seg).
Proof.
  intros Hn Hlist Hlines cleared. unfold cleared, reconcile_orphans.
  cbn [new_sink snk_cmux_available snk_healthy snk_key_prefix negb orb]. rewrite Hlist clear_keys_log. split.
  - intros seg Hseg ([k rest] & Hk & Hin)%list_elem_of_fmap. simpl in Hk. subst k. apply list_elem_of_fmap_2, elem_of_filter_bool.
    split; [|apply prefix_app_true]. eapply parse_status_lines; [done..|]. by apply written_key_valid.
  - intros c (key & -> & [_ Hkey]%elem_of_filter_bool)%list_elem_of_fmap. exists key. split_and!; [done..|].
    intros m seg Hm Hne ->. by apply own_key_pane in Hkey.
Qed.
