(* ===== verification/TmuxFormat.v ===== *)
(** Formats of tmux ([expand_format], [format_replacement], [tmux_compat.rs]): the variables that a
    [-F] option may name, what they stand for, and the words of a fish shell. *)
From S2P Require Import Prelude Utf8 Protocol Text Sanitize TmuxArgs TmuxCommands TmuxOptions TmuxStore.

(** What a variable stands for, in the order in which the source tries its names. *)
Inductive FormatField : Set :=
  | FPaneId | FSessionName | FWindowIndex | FCurrentCommand | FStartCommand | FCurrentPath | FActive | FPaneDead | FPanePid
  | FInMode | FHistorySize | FWindowId | FWindowPanes | FClientName | FEmpty | FExtendedKeys | FCols | FRows.

Definition format_fields : list (str * FormatField) :=
  [(lit "#{pane_id}", FPaneId); (lit "#D", FPaneId); (lit "#{session_name}", FSessionName); (lit "#S", FSessionName);
   (lit "#I", FWindowIndex); (lit "#{pane_current_command}", FCurrentCommand); (lit "#{pane_start_command}", FStartCommand);
   (lit "#{pane_current_path}", FCurrentPath); (lit "#{pane_active}", FActive); (lit "#{pane_dead}", FPaneDead);
   (lit "#{pane_pid}", FPanePid); (lit "#{pane_in_mode}", FInMode); (lit "#{history_size}", FHistorySize);
   (lit "#{window_id}", FWindowId); (lit "#{window_index}", FWindowIndex); (lit "#{window_name}", FSessionName);
   (lit "#{window_active}", FActive); (lit "#{window_panes}", FWindowPanes); (lit "#{client_name}", FClientName);
   (lit "#{client_session}", FSessionName); (lit "#{client_pane}", FPaneId); (lit "#{client_pid}", FEmpty);
   (lit "#{client_tty}", FEmpty); (lit "#{extended-keys-format}", FExtendedKeys); (lit "#{window_width}", FCols);
   (lit "#{window_height}", FRows)].

(** [trim_start_matches('%')]. *)
Fixpoint trim_percent (s : str) : str := match s with c :: s' => if c =? 0x25 then trim_percent s' else s | [] => [] end.

Definition current_command (command : str) : str :=
  match head (split_white command) with
  | Some word => match rsplit_once (lit "/") word with Some (_, name) => name | None => word end
  | None => lit "sh"
  end.

Definition field_value (field : FormatField) (info : SessionInfo) (current_command : str) : str :=
  match field with
  | FPaneId => si_pane_id info
  | FSessionName => si_name info
  | FWindowIndex | FInMode | FHistorySize => lit "0"
  | FCurrentCommand => current_command
  | FStartCommand => si_command info
  | FCurrentPath => si_cwd info
  | FActive | FWindowPanes => lit "1"
  | FPaneDead => if si_alive info then lit "0" else lit "1"
  | FPanePid => match si_process_id info with Some pid => dec pid | None => [] end
  | FWindowId => lit "@" ++ trim_percent (si_pane_id info)
  | FClientName => lit "lterm"
  | FEmpty => []
  | FExtendedKeys => lit "xterm"
  | FCols => dec (si_cols info)
  | FRows => dec (si_rows info)
  end.

Definition format_replacement (rest : str) (info : SessionInfo) (current_command : str) : option (nat * str) :=
  '(needle, field) ← List.find (λ p, is_prefix p.1 rest) format_fields;
  Some (length needle, field_value field info current_command).

(** [find('}')] and the slices of the source: an accepted name is ASCII, so that its characters are its bytes. *)
Definition session_user_option_format_token (rest : str) : option (nat * str) :=
  if negb (is_prefix (lit "#{@") rest) then None
  else
    end_ ← position (Z.eqb 0x7d) rest;
    let name := drop 2 (take end_ rest) in
    if is_ok (validate_user_option_name name) then Some (S end_, name) else None.

Definition session_user_option_format_replacement (rest : str) (info : SessionInfo) (options : UserOptions) : option (nat * str) :=
  '(len, name) ← session_user_option_format_token rest;
  Some (len, default [] (options !! si_id info ≫= λ o, o !! name)).

(** One turn of the loop of [expand_format]: what it appends, and by how much it advances. *)
Definition expand_step (rest : str) (info : SessionInfo) (options : option UserOptions) : option (nat * str) :=
  if is_prefix (lit "#{pane_width}") rest then Some (length (lit "#{pane_width}"), dec (si_cols info))
  else if is_prefix (lit "#{pane_height}") rest then Some (length (lit "#{pane_height}"), dec (si_rows info))
  else match (options ≫= session_user_option_format_replacement rest info) with
  | Some (len, value) => Some (len, terminal_text value)
  | None =>
    match format_replacement rest info (current_command (si_command info)) with
    | Some (len, value) => Some (len, terminal_text value)
    | None => None
    end
  end.

(** The loop; [skip] characters are left of the variable that was just replaced. *)
Fixpoint expand_from (rest : str) (skip : nat) (info : SessionInfo) (options : option UserOptions) : str :=
  match rest with
  | [] => []
  | c :: rest' =>
    match skip with
    | S skip => expand_from rest' skip info options
    | O =>
      match expand_step rest info options with
      | Some (len, value) => value ++ expand_from rest' (len - 1) info options
      | None => c :: expand_from rest' 0 info options
      end
    end
  end.

Definition expand_format_with_session_user_options (format : str) (info : SessionInfo) (options : option UserOptions) : str :=
  expand_from format 0 info options.
Definition expand_format (format : str) (info : SessionInfo) : str := expand_format_with_session_user_options format info None.

Fixpoint format_uses_session_user_options (format : str) : bool :=
  match format with
  | [] => false
  | _ :: rest => is_some (session_user_option_format_token format) || format_uses_session_user_options rest
  end.

(** ** The reference: a format is read once, and its variables have values *)

Inductive FormatToken : Set :=
  | Literal (c : char) | Width | Height | UserOption (name : str) | Field (field : FormatField).

Definition token_at (user : bool) (rest : str) : option (nat * FormatToken) :=
  if is_prefix (lit "#{pane_width}") rest then Some (length (lit "#{pane_width}"), Width)
  else if is_prefix (lit "#{pane_height}") rest then Some (length (lit "#{pane_height}"), Height)
  else match (if user then session_user_option_format_token rest else None) with
  | Some (len, name) => Some (len, UserOption name)
  | None => (λ p, (length p.1, Field p.2)) <$> List.find (λ p, is_prefix p.1 rest) format_fields
  end.

Fixpoint format_tokens (user : bool) (rest : str) (skip : nat) : list FormatToken :=
  match rest with
  | [] => []
  | c :: rest' =>
    match skip with
    | S skip => format_tokens user rest' skip
    | O =>
      match token_at user rest with
      | Some (len, token) => token :: format_tokens user rest' (len - 1)
      | None => Literal c :: format_tokens user rest' 0
      end
    end
  end.

Definition token_value (info : SessionInfo) (options : UserOptions) (token : FormatToken) : str :=
  match token with
  | Literal c => [c]
  | Width => dec (si_cols info)
  | Height => dec (si_rows info)
  | UserOption name => terminal_text (default [] (options !! si_id info ≫= λ o, o !! name))
  | Field field => terminal_text (field_value field info (current_command (si_command info)))
  end.

Lemma expand_from_tokens rest skip info options :
  expand_from rest skip info options =
  mjoin (token_value info (default ∅ options) <$> format_tokens (is_some options) rest skip).
Proof.
  revert skip. induction rest as [|c rest IH]; intros skip; [done|]. cbn [expand_from format_tokens]. destruct skip as [|skip]; [|apply IH].
  unfold expand_step, token_at. destruct (is_prefix (lit "#{pane_width}") (c :: rest)); [by rewrite IH|].
  destruct (is_prefix (lit "#{pane_height}") (c :: rest)); [by rewrite IH|].
  assert (∀ o, match format_replacement (c :: rest) info (current_command (si_command info)) with
      | Some (len, value) => Some (len, terminal_text value) | None => None end =
    (λ '(len, token), (len, token_value info o token)) <$>
      ((λ p, (length p.1, Field p.2)) <$> List.find (λ p, is_prefix p.1 (c :: rest)) format_fields)) as Hfield.
  { intros o. unfold format_replacement. by destruct (List.find _ format_fields) as [[needle field]|]. }
  destruct options as [options|]; cbn [mbind option_bind is_some].
  - unfold session_user_option_format_replacement. destruct (session_user_option_format_token (c :: rest)) as [[len name]|]; cbn [mbind option_bind].
    + by rewrite IH.
    + rewrite (Hfield options). destruct (List.find _ format_fields) as [[needle field]|]; by rewrite /= IH.
  - rewrite (Hfield ∅). destruct (List.find _ format_fields) as [[needle field]|]; by rewrite /= IH.
Qed.

Lemma token_at_variable user rest len token : token_at user rest = Some (len, token) → ∀ c, token ≠ Literal c.
Proof.
  unfold token_at. destruct (is_prefix (lit "#{pane_width}") rest); [by intros [= <- <-]|].
  destruct (is_prefix (lit "#{pane_height}") rest); [by intros [= <- <-]|].
  destruct (if user then _ else None) as [[??]|]; [by intros [= <- <-]|].
  destruct (List.find _ _) as [[??]|]; [by intros [= <- <-]|done].
Qed.

Lemma format_tokens_literal user rest skip c : Literal c ∈ format_tokens user rest skip → c ∈ rest.
Proof.
  revert skip. induction rest as [|d rest IH]; intros skip; cbn [format_tokens]; [by intros ?%not_elem_of_nil|].
  destruct skip as [|skip]; [|intros H; right; by eapply IH].
  destruct (token_at user (d :: rest)) as [[len token]|] eqn:Ht; intros [H|H]%elem_of_cons; try (right; by eapply IH).
  - by destruct (token_at_variable _ _ _ _ Ht c).
  - simplify_eq. by left.
Qed.

(** A format is read once: which variables it names does not depend on the session or on its
    options, every variable is replaced by its value, and a value is never read again as a
    format, whatever it holds; and what is printed has no control character but those of the
    format itself. *)
Theorem expansion_reads_format_once format info options :
  expand_format_with_session_user_options format info options =
    mjoin (token_value info (default ∅ options) <$> format_tokens (is_some options) format 0) ∧
  (0 ≤ si_cols info → 0 ≤ si_rows info →
   ∀ c, c ∈ expand_format_with_session_user_options format info options → c ∈ format ∨ plain_char c = true).
Proof.
  assert (expand_format_with_session_user_options format info options =
    mjoin (token_value info (default ∅ options) <$> format_tokens (is_some options) format 0)) as Heq by apply expand_from_tokens.
  split; [done|]. intros Hcols Hrows c. rewrite Heq list_elem_of_join. intros (v & Hc & (t & -> & Ht)%list_elem_of_fmap).
  assert (∀ s, c ∈ terminal_text s → plain_char c = true) as Htext.
  { intros s Hs. pose proof (terminal_text_plain s) as Hp. rewrite Forall_forall in Hp. by apply Hp. }
  assert (∀ n, 0 ≤ n → c ∈ dec n → plain_char c = true) as Hdec.
  { intros n Hn Hin. pose proof (dec_digits n Hn) as Hd. rewrite forallb_forall in Hd. specialize (Hd c (proj1 (list_elem_of_In _ _) Hin)).
    unfold ascii_digit, within in Hd. unfold plain_char, is_char, is_c0_or_c1, within. lia. }
  destruct t; simpl in Hc; [left|right; eauto..]. apply list_elem_of_singleton in Hc as ->.
  by eapply format_tokens_literal.
Qed.

(** ** Words of fish *)

(** [replace] of one character. *)
Definition replace_char (c : char) (by_ : str) (s : str) : str := mjoin ((λ d, if d =? c then by_ else [d]) <$> s).

Definition fish_quote (value : str) : str :=
  lit "'" ++ replace_char 0x27 (lit "\'") (replace_char 0x5c (lit "\\") value) ++ lit "'".

(** A word in single quotes as fish reads it: a backslash stands for itself, but before a quote or a backslash. *)
Fixpoint fish_inside (s : str) : option (str * str) :=
  match s with
  | [] => None
  | c :: rest =>
    if c =? 0x27 then Some ([], rest)
    else
      match rest with
      | d :: rest' =>
        if (c =? 0x5c) && ((d =? 0x27) || (d =? 0x5c)) then '(word, after) ← fish_inside rest'; Some (d :: word, after)
        else '(word, after) ← fish_inside rest; Some (c :: word, after)
      | [] => None
      end
  end.
Definition fish_word (s : str) : option (str * str) :=
  match s with c :: rest => if c =? 0x27 then fish_inside rest else None | [] => None end.

(** Fish reads a quoted value as that value, whatever comes after it. *)
Lemma fish_quote_word value rest : fish_word (fish_quote value ++ rest) = Some (value, rest).
Proof.
  unfold fish_quote. change (lit "'") with [0x27]. cbn [app fish_word]. rewrite Z.eqb_refl -app_assoc.
  induction value as [|c value IH]; [done|].
  assert (replace_char 0x27 (lit "\'") (replace_char 0x5c (lit "\\") (c :: value)) =
    (if c =? 0x5c then lit "\\" else if c =? 0x27 then lit "\'" else [c]) ++
    replace_char 0x27 (lit "\'") (replace_char 0x5c (lit "\\") value)) as ->.
  { unfold replace_char. cbn [fmap list_fmap mjoin list_join]. rewrite fmap_app join_app. f_equal.
    destruct (c =? 0x5c) eqn:E; [done|]. cbn. by destruct (c =? 0x27). }
  set (tail := replace_char _ _ (replace_char _ _ value)) in *. rewrite -app_assoc.
  destruct (c =? 0x5c) eqn:E1; [assert (c = 0x5c) as -> by lia; simpl; by rewrite IH|].
  destruct (c =? 0x27) eqn:E2; [assert (c = 0x27) as -> by lia; simpl; by rewrite IH|].
  cbn [app fish_inside] in IH |- *. rewrite E2 E1. destruct (tail ++ 0x27 :: rest) as [|d k]; [by destruct tail|]. by rewrite IH.
Qed.
