(* ===== verification/TmuxScenario.v ===== *)
(** The theorems of the tmux shim at concrete inputs: two sessions, a store that is
    written as a sequence of numbers, a waiter with its signal, two attaches, and a cmux that obeys. *)
From S2P Require Import Prelude Utf8 Protocol Text TmuxArgs TmuxCommands TmuxOptions TmuxStore TmuxUserOptions TmuxWait TmuxAttach TmuxRuns TmuxShared TmuxTree CmuxStatus.

(** ** A codec and an order *)

(** Values as sequences of numbers that can be read back. *)
Class Coded (A : Type) : Type := {
  put : A → list Z; get : list Z → option (A * list Z); get_put : ∀ a rest, get (put a ++ rest) = Some (a, rest) }.

#[local, refine] Instance Z_coded : Coded Z := {| put z := [z]; get l := match l with z :: l => Some (z, l) | [] => None end |}.
Proof. done. Defined.

#[local, refine] Instance prod_coded {A B} `{Coded A, Coded B} : Coded (A * B) := {|
  put p := put p.1 ++ put p.2; get l := '(a, l) ← get l; '(b, l) ← get l; Some ((a, b), l) |}.
Proof. intros [a b] rest. rewrite -app_assoc get_put /= get_put //. Defined.

#[local, refine] Instance option_coded {A} `{Coded A} : Coded (option A) := {|
  put o := match o with Some a => 1 :: put a | None => [0] end;
  get l := match l with 1 :: l => '(a, l) ← get l; Some (Some a, l) | _ :: l => Some (None, l) | [] => None end |}.
Proof. intros [a|] rest; [|done]. cbn [app]. by rewrite get_put. Defined.

Fixpoint get_many {A} `{Coded A} (n : nat) (l : list Z) : option (list A * list Z) :=
  match n with
  | O => Some ([], l)
  | S n => '(a, l) ← get l; '(rest, l) ← get_many n l; Some (a :: rest, l)
  end.

#[local, refine] Instance list_coded {A} `{Coded A} : Coded (list A) := {|
  put xs := Z.of_nat (length xs) :: mjoin (put <$> xs);
  get l := match l with n :: l => get_many (Z.to_nat n) l | [] => None end |}.
Proof.
  intros xs rest. cbn [app]. rewrite Nat2Z.id. induction xs as [|x xs IH]; [done|].
  cbn [length get_many fmap list_fmap mjoin list_join]. by rewrite -app_assoc get_put /= IH.
Defined.

#[local, refine] Instance gmap_coded {A} `{Coded A} : Coded (gmap str A) := {|
  put m := put (A := list (str * A)) (map_to_list m); get l := '(xs, l) ← get (A := list (str * A)) l; Some (list_to_map xs : gmap str A, l) |}.
Proof. intros m rest. by rewrite get_put /= list_to_map_to_list. Defined.

Definition coded_as {A B} `{Coded B} (f : A → B) (g : B → A) (fg : ∀ a, g (f a) = a) : Coded A.
Proof.
  refine {| put a := put (f a); get l := '(b, l) ← get l; Some (g b, l) |}. intros a rest. by rewrite get_put /= fg.
Defined.

#[local] Instance CompatPane_coded : Coded CompatPane.
Proof.
  apply (coded_as
    (λ p, (pn_pane_id p, pn_session_name p, pn_immutable_id p, pn_cmux_surface_id p, pn_cmux_workspace_id p, pn_cmux_window_id p))
    (λ '(a, b, c, d, e, f), {| pn_pane_id := a; pn_session_name := b; pn_immutable_id := c; pn_cmux_surface_id := d;
       pn_cmux_workspace_id := e; pn_cmux_window_id := f |})). by intros [].
Defined.

#[local] Instance ManagedAttachLease_coded : Coded ManagedAttachLease.
Proof.
  apply (coded_as
    (λ l, (la_pane_id l, la_token l, la_pid l, la_process_start_id l, la_cmux_surface_id l, la_cmux_workspace_id l, la_cmux_window_id l, la_updated_secs l))
    (λ '(a, b, c, d, e, f, g, h), {| la_pane_id := a; la_token := b; la_pid := c; la_process_start_id := d;
       la_cmux_surface_id := e; la_cmux_workspace_id := f; la_cmux_window_id := g; la_updated_secs := h |})). by intros [].
Defined.

#[local] Instance CompatStore_coded : Coded CompatStore.
Proof.
  apply (coded_as
    (λ s, (st_panes s, st_pane_user_options s, st_session_user_options s, st_wait_generations s, st_wait_generation_touched_secs s, st_managed_attaches s))
    (λ '(a, b, c, d, e, f), {| st_panes := a; st_pane_user_options := b; st_session_user_options := c; st_wait_generations := d;
       st_wait_generation_touched_secs := e; st_managed_attaches := f |})). by intros [].
Defined.

Definition to_vec (s : CompatStore) : list byte := put s.
Definition from_vec (bytes : list byte) : option CompatStore := fst <$> get bytes.
Lemma vec_codec s : from_vec (to_vec s) = Some s.
Proof. unfold from_vec, to_vec. by rewrite -(app_nil_r (put s)) get_put. Qed.

Definition key_order (m : gmap str Z) : list str := (map_to_list m).*1.
Lemma key_order_keys m : key_order m ≡ₚ (map_to_list m).*1.
Proof. done. Qed.

(** ** Sessions and user options *)

Definition session (id name pane : string) (parent : option (string * string)) : SessionInfo := {|
  si_id := lit id; si_name := lit name; si_pane_id := lit pane; si_command := lit "fish"; si_cwd := lit "/"; si_created_unix_ms := 0;
  si_alive := true; si_exit_code := None; si_rows := 24; si_cols := 80;
  si_parent_pane_id := (λ p, lit p.2) <$> parent; si_parent_session_id := (λ p, lit p.1) <$> parent;
  si_attached_clients := 0; si_process_id := None; si_process_group_id := None; si_status_theme := None; si_agent_name := None;
  si_lifecycle_state := None |}.

Definition root_session : SessionInfo := session "s1" "work" "%1" None.
Definition child_session : SessionInfo := session "s2" "split" "%2" (Some ("s1", "%1")%string).
Definition two_sessions : list SessionInfo := [root_session; child_session].

Definition set_line : list str := [lit "-t"; lit "%2"; lit "@role"; lit "tests"].
Definition show_line : list str := [lit "-v"; lit "@role"].
Definition after_set : Dir := (set_option to_vec from_vec 7 (λ _, 0) set_line (lit "%1") two_sessions Saved ∅).2.

(** An option set on a split is the option of its root session. *)
Example set_then_shown :
  (show_option from_vec 7 (λ _, 0) show_line (lit "work") two_sessions after_set).1 = Ok (Some (lit "tests" ++ [0x0a])).
Proof. vm_compute. reflexivity. Qed.

Lemma user_options_refine_map_witness :
  ∃ a identity, parse_user_option_args show_line false = Ok a ∧
    user_option_identity_from_snapshot a (lit "work") two_sessions = Ok identity ∧
    held from_vec after_set (uo_pane a) identity (uo_name a) = Some (lit "tests").
Proof.
  destruct (user_options_refine_map to_vec from_vec vec_codec 7 (λ _, 0) set_line (lit "%1") two_sessions Saved ∅ (Ok tt) after_set)
    as [_ Hshow]; [vm_compute; reflexivity|].
  destruct (Hshow show_line (lit "work") two_sessions (lit "tests" ++ [0x0a]) after_set) as (a & identity & Ha & Hid & _ & _);
    [vm_compute; reflexivity|].
  exists a, identity. split; [exact Ha|]. split; [exact Hid|]. vm_compute in Ha. injection Ha as <-. vm_compute in Hid.
  injection Hid as <-. vm_compute. reflexivity.
Defined.

Lemma routing_finds_the_name_witness : actual_user_option_name set_line CmdSet = Some (lit "@role").
Proof.
  rewrite (routing_finds_the_name set_line true {| uo_quiet := false; uo_value_only := false; uo_pane := false; uo_unset := false;
    uo_target := Some (lit "%2"); uo_name := lit "@role"; uo_value := Some (lit "tests") |}); vm_compute; reflexivity.
Defined.

Lemma root_identity_exact_witness :
  root_answer two_sessions child_session (root_session_identity_from_snapshot child_session two_sessions) ∧
  root_session_identity_from_snapshot child_session two_sessions = Ok (lit "s1").
Proof.
  split; [|vm_compute; reflexivity]. apply (root_identity_exact two_sessions child_session).
  - apply (bool_decide_unpack _). vm_compute. exact I.
  - right. left.
Defined.

Example tree_of_two : si_id <$> default [] (match session_tree_from_snapshot (lit "split") two_sessions with Ok t => Some t | Err _ => None end)
  = [lit "s1"; lit "s2"].
Proof. vm_compute. reflexivity. Qed.

(** ** Command lines *)

Lemma scanners_read_tokens_witness :
  parse_target_with_value_flags [lit "-dt"; lit "a"; lit "-tb"; lit "x"; lit "-tc"] [] = Ok (Some (lit "b")) ∧
  has_flag [lit "-dt"; lit "a"; lit "x"] [0x2d; flag_char "d"] = true.
Proof.
  destruct (scanners_read_tokens [lit "-dt"; lit "a"; lit "-tb"; lit "x"; lit "-tc"] [] (flag_char "d")) as (Ht & _); [done|].
  destruct (scanners_read_tokens [lit "-dt"; lit "a"; lit "x"] [] (flag_char "d")) as (_ & _ & Hf & _); [done|].
  split; [rewrite Ht|rewrite Hf; [|done]]; vm_compute; reflexivity.
Defined.

(** ** Channels *)

Definition caller (pid : Z) : Caller := {| ca_pid := pid; ca_clock := λ _, 0 |}.
Definition wait_env (now prune : Z) : WaitEnv := {|
  we_now := now; we_before := None; we_after := None; we_prune := prune; we_touch := prune; we_io := Saved |}.
Definition done_channel : str := lit "done".
Definition other_channel : str := lit "other".
Definition watched : Dir := (watch key_order to_vec from_vec 1 (λ _, 0) done_channel (wait_env 0 100) ∅).2.
Definition first_turn : WaitLoop := start_wait (wait_env 0 100).

Definition before_signal : list (Caller * StoreCall) :=
  [(caller 2, CallSignal other_channel (wait_env 0 110)); (caller 3, CallSetOption set_line (lit "%1") two_sessions Saved)].
Definition history : list (Caller * StoreCall) :=
  before_signal ++ (caller 2, CallSignal done_channel (wait_env 0 120)) :: [].
Definition signalled_dir : Dir := run_calls to_vec from_vec key_order history watched.

(** What a turn of the waiter finds. *)
Definition turn (dir : Dir) : result StoreError (bool * WaitLoop) * Dir :=
  wait_turn key_order to_vec from_vec 1 (λ _, 0) done_channel 0 first_turn (wait_env 1000 121) dir.
Definition woken (dir : Dir) : bool := match (turn dir).1 with Ok (advanced, _) => advanced | Err _ => false end.
Definition next_turn (dir : Dir) : WaitLoop := match (turn dir).1 with Ok (_, w) => w | Err _ => first_turn end.

Lemma signal_wakes_waiter_witness : woken signalled_dir = true.
Proof.
  destruct (signal_wakes_waiter to_vec from_vec vec_codec key_order key_order_keys (caller 1) (caller 2) done_channel (wait_env 0 100)
    (wait_env 0 120) ∅ 0 watched before_signal [] first_turn (wait_env 1000 121) (woken signalled_dir) (next_turn signalled_dir)
    (turn signalled_dir).2) as [Hwake Hlook].
  - vm_compute. discriminate.
  - vm_compute. discriminate.
  - vm_compute. reflexivity.
  - apply Nat.leb_le. vm_compute. reflexivity.
  - repeat constructor; vm_compute; discriminate.
  - vm_compute. reflexivity.
  - vm_compute. reflexivity.
  - vm_compute. reflexivity.
  - apply Hwake, Hlook. vm_compute. discriminate.
Defined.

Lemma no_wake_without_signal_witness : woken (run_calls to_vec from_vec key_order before_signal watched) = false.
Proof.
  apply (no_wake_without_signal to_vec from_vec vec_codec key_order key_order_keys (caller 1) done_channel (wait_env 0 100) ∅ 0 watched
    before_signal first_turn (wait_env 1000 121) _ (next_turn (run_calls to_vec from_vec key_order before_signal watched))
    (turn (run_calls to_vec from_vec key_order before_signal watched)).2).
  - unfold is_u64, u64_max. lia.
  - vm_compute. reflexivity.
  - repeat constructor; vm_compute; [discriminate|intros []].
  - vm_compute. reflexivity.
Defined.

Lemma empty_options_ok : options_ok CompatStore_default.
Proof.
  split; [by apply Nat.leb_le; vm_compute| |intros identity|].
  - apply Nat.leb_le. vm_compute. reflexivity.
  - unfold identity_entries. simpl. rewrite lookup_empty /= map_size_empty. apply Nat.leb_le. vm_compute. reflexivity.
  - intros [] identity name value; unfold option_of; simpl; by rewrite lookup_empty.
Qed.

Lemma store_limits_kept_witness :
  options_ok (store_of from_vec (run_calls to_vec from_vec key_order history ∅)) ∧
  channels_ok (store_of from_vec (run_calls to_vec from_vec key_order history ∅)).
Proof.
  apply (store_limits_kept to_vec from_vec vec_codec key_order key_order_keys history ∅).
  - exact empty_options_ok.
  - apply Nat.leb_le. vm_compute. reflexivity.
Defined.

(** ** Attaches *)

Definition proc_env (self : Z) : ProcEnv := {|
  pe_kill_zero := λ pid, (pid =? 10) || (pid =? 11); pe_start := λ pid, Some (lit "boot:" ++ dec pid); pe_self := self; pe_now := 50 |}.
Definition surface (name : string) : CmuxSurfaceContext := {| cx_surface_ref := lit name; cx_workspace_ref := None; cx_window_ref := None |}.
Definition claimed : Dir :=
  (update_store to_vec from_vec 10 (λ _, 0) Saved (claim_managed_attach (proc_env 10) (lit "%1") (lit "t10") (surface "left")) ∅).2.
Definition attach_history : list (Caller * StoreCall) :=
  [(caller 11, CallClaim (proc_env 11) (lit "%1") (lit "t11") (surface "right") Saved);
   (caller 12, CallSignal done_channel (wait_env 0 120))].

Lemma managed_attach_exclusive_witness :
  ∃ s', renew_managed_attach (proc_env 10) (lit "%1") (lit "t10")
    (store_of from_vec (run_calls to_vec from_vec key_order attach_history claimed)) = Ok (true, s').
Proof.
  destruct (managed_attach_exclusive to_vec from_vec vec_codec key_order (caller 10) Saved (proc_env 10) (lit "%1") (lit "t10")
    (surface "left") (lit "boot:10") ∅ {| mc_proceed := true; mc_owner_surface_id := Some (lit "left") |} claimed attach_history) as [_ Hrenew].
  - vm_compute. reflexivity.
  - reflexivity.
  - vm_compute. reflexivity.
  - repeat constructor; [by vm_compute..|]. intros _. vm_compute. discriminate.
  - apply Hrenew. split; vm_compute; reflexivity.
Defined.

(** ** Pills *)

(** A cmux that shows what it is told and answers with success, and one that cannot be reached. *)
Definition obey (c : CmuxCommand) (w : pills) : bool * pills := (true, effect c w).
Definition refuse (c : CmuxCommand) (w : pills) : bool * pills := (false, w).
Definition one_pill : CmuxStatusInput := {| ci_schema := CMUX_STATUS_SCHEMA; ci_pills :=
  [{| pi_key := lit "build"; pi_label := Some (lit "model"); pi_value := lit "ok"; pi_color := Some (lit "#00ff00"); pi_icon := None; pi_priority := 1 |}] |}.
Definition pill_sink : CmuxStatusSink := new_sink (surface "left") (lit "%1") true false.
Definition after_line : CmuxStatusSink * pills * CmuxLog := apply_lines obey [Some one_pill] pill_sink ∅.

(** The program that cmux is: it accepts a command line that has no label. *)
Definition without_label (argv : list str) (w : list (list str)) : bool * list (list str) :=
  (negb (bool_decide (lit "--label" ∈ argv)), w ++ [argv]).
Example label_left_out : (sink_apply without_label (Some one_pill) pill_sink []).1.2 =
  [[lit "set-status"; lit "lterm._1.build"; lit "ok"; lit "--color"; lit "#00ff00"; lit "--priority"; lit "1"]].
Proof. vm_compute. reflexivity. Qed.
Example label_in_help : cmux_set_status_help_supports_label (lit "  --label <text>") = true ∧
  cmux_set_status_help_supports_label (lit "set-progress --label <text>") = false.
Proof. vm_compute. done. Qed.

Lemma sink_issues_the_difference_witness :
  acknowledged after_line.2 = build_desired_pills pill_sink one_pill ∧
  (drop_sink obey after_line.1.1 after_line.1.2).2.*1 = [ClearStatus (lit "lterm._1.build")].
Proof.
  destruct (sink_issues_the_difference obey (surface "left") (lit "%1") true false [] ∅ pill_sink ∅ []) as (_ & _ & Hline & _);
    [vm_compute; reflexivity|].
  destruct (sink_issues_the_difference obey (surface "left") (lit "%1") true false [Some one_pill] ∅ after_line.1.1 after_line.1.2 after_line.2)
    as (_ & _ & _ & Hdrop); [vm_compute; reflexivity|].
  split; [|rewrite Hdrop; vm_compute; reflexivity].
  destruct (Hline (Some one_pill) after_line.1.1 after_line.1.2 after_line.2) as [Hlisten _]; [vm_compute; reflexivity|].
  apply (Hlisten one_pill); [by repeat split|vm_compute; reflexivity].
Defined.

Definition other_pill (value : string) : option CmuxStatusInput := Some {| ci_schema := CMUX_STATUS_SCHEMA; ci_pills :=
  [{| pi_key := lit "build"; pi_label := None; pi_value := lit value; pi_color := None; pi_icon := None; pi_priority := 1 |}] |}.
Definition failing_lines : list (option CmuxStatusInput) := [other_pill "a"; None; other_pill "b"; other_pill "c"; other_pill "d"].
Definition after_failures : CmuxStatusSink * pills * CmuxLog := apply_lines refuse failing_lines pill_sink ∅.

Lemma breaker_stops_after_three_witness : after_failures.2.*2 = three_failures ∧ snk_healthy after_failures.1.1 = false.
Proof.
  split; [vm_compute; reflexivity|].
  destruct (breaker_stops_after_three refuse (surface "left") (lit "%1") true false failing_lines ∅ after_failures.1.1 after_failures.1.2 after_failures.2)
    as [_ Hhealth]; [vm_compute; reflexivity|].
  apply Hhealth. exists []. vm_compute. reflexivity.
Defined.

Definition left_pill : str := key_prefix_of (pane_of 1) ++ lit "old".

Lemma reconcile_clears_orphans_witness :
  ClearStatus left_pill ∈
    (reconcile_orphans obey (λ w, (Some (status_lines [(left_pill, lit "x")]), w)) (new_sink (surface "left") (pane_of 1) true false) ∅).2.*1.
Proof.
  destruct (reconcile_clears_orphans obey (λ w, (Some (status_lines [(left_pill, lit "x")]), w)) (surface "left") false 1 ∅ ∅
    [(left_pill, lit "x")]) as [Hcleared _].
  - lia.
  - reflexivity.
  - repeat constructor; apply (bool_decide_unpack _); vm_compute; exact I.
  - apply (Hcleared (lit "old")); [vm_compute; reflexivity|]. by left.
Defined.
