(* ===== verification/Ledger.v ===== *)
(** The ledger that a client of a speculation keeps ([speculation_ledger.rs]): a record for
    each tournament, in the directory of records of EvidenceFs.v.

    The record says what was last observed of the tournament and which mutation, if any, was
    about to be requested.  [moves] is the order in which the records of a tournament follow
    each other: generations grow, and a requested mutation is only left with its generation. *)
From S2P Require Import Prelude Utf8 Protocol EvidenceFs.

Inductive ClientLedgerSchema : Set := LedgerV1.
Inductive LedgerAction : Set :=
  | LedgerPrepared | ArmRequested | StatusMirrored | FinalizeRequested | RollbackRequested_.

#[global] Instance ClientLedgerSchema_eq_dec : EqDecision ClientLedgerSchema.
Proof. solve_decision. Defined.
#[global] Instance LedgerAction_eq_dec : EqDecision LedgerAction.
Proof. solve_decision. Defined.

Definition is_requested (a : LedgerAction) : bool :=
  match a with ArmRequested | FinalizeRequested | RollbackRequested_ => true | _ => false end.

Record ClientRootIdentities : Set := {
  cr_source : DurableDirectoryIdentity;
  cr_candidates : array2 DurableDirectoryIdentity;
  cr_ledger_root : DurableDirectoryIdentity;
  cr_cgroup_root : DurableDirectoryIdentity;
}.
#[global] Instance ClientRootIdentities_eq_dec : EqDecision ClientRootIdentities.
Proof. solve_decision. Defined.

Record ClientLedgerRecord : Set := {
  lr_schema_version : ClientLedgerSchema;
  lr_tournament_uuid : Uuid;
  lr_daemon_instance_uuid : Uuid;
  lr_generation : Z;
  lr_action : LedgerAction;
  lr_roots : ClientRootIdentities;
  lr_status : SpeculationStatus;
}.
#[global] Instance ClientLedgerRecord_eq_dec : EqDecision ClientLedgerRecord.
Proof. solve_decision. Defined.

Definition all_roots_share_boot (roots : ClientRootIdentities) : bool :=
  let expected := boot_uuid (cr_ledger_root roots) in
  (boot_uuid (cr_source roots) =? expected) && (boot_uuid (cr_cgroup_root roots) =? expected)
  && all2 (λ identity, boot_uuid identity =? expected) (cr_candidates roots).

Definition ledger_validate (r : ClientLedgerRecord) : result EvidenceError unit :=
  bail_if (negb (bool_decide (lr_schema_version r = LedgerV1))
    || is_nil (lr_tournament_uuid r) || is_nil (lr_daemon_instance_uuid r) || (lr_generation r =? 0)
    || negb (lr_tournament_uuid r =? tournament_uuid (lr_status r))
    || negb (lr_daemon_instance_uuid r =? daemon_instance_uuid (lr_status r))
    || negb (lr_generation r =? st_generation (lr_status r))
    || negb (cs_index (at0 (candidates (lr_status r))) =? 0)
    || negb (cs_index (at1 (candidates (lr_status r))) =? 1)
    || negb (all_roots_share_boot (lr_roots r))) Corrupt ;;
  bail_if (bool_decide (lr_action r = LedgerPrepared) && negb (bool_decide (st_phase (lr_status r) = Prepared))) Corrupt.

Definition same_identity_as (a b : ClientLedgerRecord) : bool :=
  (lr_tournament_uuid a =? lr_tournament_uuid b) && (lr_daemon_instance_uuid a =? lr_daemon_instance_uuid b)
  && bool_decide (lr_roots a = lr_roots b).

Definition ClientLedgerEntry : Set := StoredJson ClientLedgerRecord.

Inductive ClientLedgerAuthority : Set := CurrentBoot | CleanupOnlyAfterBoot.
#[global] Instance ClientLedgerAuthority_eq_dec : EqDecision ClientLedgerAuthority.
Proof. solve_decision. Defined.

Record TournamentLedgerEntry : Set := { te_entry : ClientLedgerEntry; te_authority : ClientLedgerAuthority }.

Definition classify_ledger_authority (stored_root current_root : DurableDirectoryIdentity)
    : result EvidenceError ClientLedgerAuthority :=
  if bool_decide (stored_root = current_root) then Ok CurrentBoot
  else if negb (boot_uuid stored_root =? boot_uuid current_root) then Ok CleanupOnlyAfterBoot
  else Err Stale.

(** The record of [mirror_status] before it is validated. *)
Definition mirrored_record (current : ClientLedgerRecord) (status : SpeculationStatus) : ClientLedgerRecord := {|
  lr_schema_version := LedgerV1; lr_tournament_uuid := tournament_uuid status;
  lr_daemon_instance_uuid := daemon_instance_uuid status; lr_generation := st_generation status;
  lr_action := StatusMirrored; lr_roots := lr_roots current; lr_status := status |}.

Section ledger.
Context {W : Type} `{RecordStore W} `{JsonCodec ClientLedgerRecord}.
(** The [Display] of a UUID. *)
Context (hyphenated : Uuid → str).
Local Abbreviation IO := (M W EvidenceError).

(** [CString::new] refuses a NUL. *)
Definition record_leaf (tournament_uuid : Uuid) : result EvidenceError leaf_name :=
  let leaf := utf8 (hyphenated tournament_uuid ++ lit ".json") in
  if bool_decide (0 ∈ leaf) then Err InvalidLeaf else Ok leaf.

Definition require_current_root (root : DurableDirectoryIdentity) (r : ClientLedgerRecord) : result EvidenceError unit :=
  bail_if (negb (bool_decide (cr_ledger_root (lr_roots r) = root))) Stale.

Definition create_prepared (root : DurableDirectoryIdentity) (record : ClientLedgerRecord) : IO ClientLedgerEntry :=
  lift (ledger_validate record) ;;
  guard (negb (bool_decide (lr_action record = LedgerPrepared))
         || negb (bool_decide (cr_ledger_root (lr_roots record) = root))) InvalidIdentity ;;
  leaf ← lift (record_leaf (lr_tournament_uuid record));
  rs_create leaf record MAX_SPECULATION_JSON_BYTES.

Definition write_before_action (root : DurableDirectoryIdentity) (current : ClientLedgerEntry) (next : ClientLedgerRecord)
    (action : LedgerAction) (generation : Z) : IO ClientLedgerEntry :=
  lift (ledger_validate (sj_value current)) ;;
  lift (ledger_validate next) ;;
  lift (require_current_root root (sj_value current)) ;;
  guard (negb (same_identity_as (sj_value current) next)
    || negb (bool_decide (lr_action next = action)) || negb (lr_generation next =? generation)
    || negb (lr_generation (sj_value current) =? generation) || is_requested (lr_action (sj_value current))
    || bool_decide (action = LedgerPrepared) || bool_decide (action = StatusMirrored)) GenerationMismatch ;;
  leaf ← lift (record_leaf (lr_tournament_uuid next));
  rs_replace leaf (sj_identity current) next MAX_SPECULATION_JSON_BYTES.

Definition mirror_status (root : DurableDirectoryIdentity) (current : ClientLedgerEntry) (status : SpeculationStatus)
    : IO ClientLedgerEntry :=
  let cur := sj_value current in
  lift (ledger_validate cur) ;;
  lift (require_current_root root cur) ;;
  guard (negb (tournament_uuid status =? lr_tournament_uuid cur)
    || negb (daemon_instance_uuid status =? lr_daemon_instance_uuid cur)
    || (st_generation status <? lr_generation cur)
    || is_requested (lr_action cur) && (st_generation status =? lr_generation cur)) GenerationMismatch ;;
  let next := mirrored_record cur status in
  lift (ledger_validate next) ;;
  leaf ← lift (record_leaf (lr_tournament_uuid next));
  rs_replace leaf (sj_identity current) next MAX_SPECULATION_JSON_BYTES.

Definition read_verified (root : DurableDirectoryIdentity) (tournament daemon : Uuid) : IO ClientLedgerEntry :=
  leaf ← lift (record_leaf tournament);
  entry ← rs_read leaf MAX_SPECULATION_JSON_BYTES;
  lift (ledger_validate (sj_value entry)) ;;
  guard (negb (lr_tournament_uuid (sj_value entry) =? tournament)
         || negb (lr_daemon_instance_uuid (sj_value entry) =? daemon)) Stale ;;
  lift (require_current_root root (sj_value entry)) ;;
  mret entry.

Definition read_tournament (root : DurableDirectoryIdentity) (tournament : Uuid) : IO TournamentLedgerEntry :=
  guard (is_nil tournament) InvalidIdentity ;;
  leaf ← lift (record_leaf tournament);
  entry ← rs_read leaf MAX_SPECULATION_JSON_BYTES;
  lift (ledger_validate (sj_value entry)) ;;
  guard (negb (lr_tournament_uuid (sj_value entry) =? tournament)) Stale ;;
  authority ← lift (classify_ledger_authority (cr_ledger_root (lr_roots (sj_value entry))) root);
  mret {| te_entry := entry; te_authority := authority |}.
End ledger.

(** ** The order of the records of a tournament *)

(** [b] may be written over [a]. *)
Definition moves (a b : ClientLedgerRecord) : Prop :=
  same_identity_as a b = true ∧
  (lr_generation a < lr_generation b ∨ lr_generation a = lr_generation b ∧ is_requested (lr_action a) = false).

Definition later (a b : ClientLedgerRecord) : Prop := a = b ∨ moves a b.

Lemma same_identity_spec a b :
  same_identity_as a b = true ↔
  lr_tournament_uuid a = lr_tournament_uuid b ∧ lr_daemon_instance_uuid a = lr_daemon_instance_uuid b ∧ lr_roots a = lr_roots b.
Proof. unfold same_identity_as. rewrite !andb_true_iff !Z.eqb_eq bool_decide_eq_true. tauto. Qed.

#[global] Instance later_preorder : PreOrder later.
Proof.
  split; [by left|]. intros a b c [->|[Hab1 Hab2]] [->|[Hbc1 Hbc2]]; [by left|by right|by right|right].
  apply same_identity_spec in Hab1 as (?&?&?). apply same_identity_spec in Hbc1 as (?&?&?).
  split; [apply same_identity_spec; intuition congruence|]. lia || (destruct Hab2 as [|[? ?]], Hbc2 as [|[? ?]]; [left; lia..|right; split; [lia|done]]).
Qed.

Lemma later_tournament a b : later a b → lr_tournament_uuid a = lr_tournament_uuid b.
Proof. intros [->|[H _]]; [done|]. by apply same_identity_spec in H as (? & _). Qed.

Lemma later_daemon a b : later a b → lr_daemon_instance_uuid a = lr_daemon_instance_uuid b.
Proof. intros [->|[H _]]; [done|]. by apply same_identity_spec in H as (_ & ? & _). Qed.

Lemma later_generation a b : later a b → lr_generation a ≤ lr_generation b.
Proof. intros [->|[_ H]]; [done|]. lia. Qed.

(** A requested mutation is the last record of its generation. *)
Lemma later_requested a b : later a b → is_requested (lr_action a) = true → a = b ∨ lr_generation a < lr_generation b.
Proof. intros [->|[_ [H|[_ H]]]] Ha; [by left|by right|congruence]. Qed.

(** ** What an operation does to the directory *)

Lemma lift_run {W E A B} (x : result E A) (f : A → M W E B) w r w' :
  (lift x ≫= f) w = (r, w') → (∃ a, x = Ok a ∧ f a w = (r, w')) ∨ is_ok r = false ∧ w' = w.
Proof. unfold mbind, M_bind, lift. destruct x as [a|e]; [eauto|]. intros [= <- <-]. by right. Qed.

Section effects.
Context {W : Type} `{RecordStore W} `{JsonCodec ClientLedgerRecord}.
Context (hyphenated : Uuid → str).
(** 36 hexadecimal digits and hyphens, and all of the UUID. *)
Definition uuid_char (c : char) : bool := within 0x30 0x39 c || within 0x61 0x66 c || (c =? 0x2d).
Context (hyphenated_chars : ∀ u, Forall (λ c, uuid_char c = true) (hyphenated u)).
Context (hyphenated_inj : ∀ u v, hyphenated u = hyphenated v → u = v).

Definition leaf_of (u : Uuid) : leaf_name := utf8 (hyphenated u ++ lit ".json").
(** The record of a tournament in the directory. *)
Definition ledger_of (w : W) (u : Uuid) : option (FileIdentity * list byte) := rs_record w (leaf_of u).

Lemma leaf_of_ascii u : leaf_of u = hyphenated u ++ lit ".json".
Proof.
  apply utf8_ascii, Forall_app_2.
  - eapply Forall_impl; [apply hyphenated_chars|]. unfold uuid_char, within. intros c Hc. cbn beta in *. lia.
  - repeat constructor; done.
Qed.

Lemma leaf_of_inj u v : leaf_of u = leaf_of v → u = v.
Proof. rewrite !leaf_of_ascii. intros Hl%app_inj_2; [|done]. by apply hyphenated_inj, Hl. Qed.

Lemma leaf_of_not_temp u : rs_is_temp (leaf_of u) = false.
Proof.
  apply not_true_is_false. intros Ht%rs_temp_prefix. rewrite leaf_of_ascii in Ht. destruct Ht as [k Hk].
  pose proof (hyphenated_chars u) as Hc. destruct (hyphenated u) as [|c s].
  - by apply (f_equal (λ l, l !! 1%nat)) in Hk.
  - apply Forall_cons in Hc as [Hc _]. apply (f_equal head) in Hk. vm_compute in Hk. injection Hk as ->. by vm_compute in Hc.
Qed.

Lemma record_leaf_Ok u leaf : record_leaf hyphenated u = Ok leaf → leaf = leaf_of u.
Proof. unfold record_leaf. fold (leaf_of u). case_bool_decide; [done|]. by intros [= <-]. Qed.

(** Nothing but the record of [u] may have changed. *)
Definition only (u : Uuid) (w w' : W) : Prop := ∀ v, v ≠ u → ledger_of w' v = ledger_of w v.
Definition unchanged (w w' : W) : Prop := ∀ v, ledger_of w' v = ledger_of w v.

(** The directory holds an entry, and the directory has been given a record. *)
Definition holds (w : W) (e : ClientLedgerEntry) : Prop :=
  ∃ bytes, ledger_of w (lr_tournament_uuid (sj_value e)) = Some (sj_identity e, bytes) ∧ from_slice bytes = Some (sj_value e).
Definition written (w w' : W) (v : ClientLedgerRecord) : Prop :=
  only (lr_tournament_uuid v) w w' ∧ ∃ id, holds w' {| sj_value := v; sj_identity := id |}.

Lemma holds_value_holds w id v :
  holds_value (ledger_of w (lr_tournament_uuid v)) id v → holds w {| sj_value := v; sj_identity := id |}.
Proof. intros (bytes & Hb & Hw). exists bytes. split; [done|]. by apply from_slice_to_vec. Qed.

Definition created (w w' : W) (v : ClientLedgerRecord) : Prop :=
  written w w' v ∧ ledger_of w (lr_tournament_uuid v) = None ∧ lr_action v = LedgerPrepared.
Definition replaced (w w' : W) (current : ClientLedgerEntry) (v : ClientLedgerRecord) : Prop :=
  written w w' v ∧ fst <$> ledger_of w (lr_tournament_uuid v) = Some (sj_identity current) ∧ moves (sj_value current) v.

Lemma create_run w v r w' :
  rs_create (leaf_of (lr_tournament_uuid v)) v MAX_SPECULATION_JSON_BYTES w = (r, w') →
  match r with
  | Ok e => sj_value e = v ∧ holds w' e ∧ written w w' v ∧ ledger_of w (lr_tournament_uuid v) = None
  | Err _ => unchanged w w' ∨ written w w' v ∧ ledger_of w (lr_tournament_uuid v) = None
  end.
Proof.
  intros Hrun. apply rs_create_spec in Hrun as [Hothers Hpost].
  assert (only (lr_tournament_uuid v) w w') as Honly.
  { intros u Hu. apply Hothers; [|apply leaf_of_not_temp]. by intros ->%leaf_of_inj. }
  fold (ledger_of w (lr_tournament_uuid v)) (ledger_of w' (lr_tournament_uuid v)) in Hpost. destruct r as [e|e]; simpl in Hpost.
  - destruct Hpost as (Hnone & Hv & Hh). apply holds_value_holds in Hh. destruct e as [v' id]; simpl in *; subst v'.
    split_and!; [done..|by split; [|exists id]|by apply fmap_None in Hnone].
  - destruct Hpost as [Hsame|(Hnone & id & Hh)]; [left|right].
    + intros u. destruct (decide (u = lr_tournament_uuid v)) as [->|Hu]; [done|by apply Honly].
    + apply holds_value_holds in Hh. split; [split; [done|by exists id]|by apply fmap_None in Hnone].
Qed.

Lemma replace_run current w v r w' :
  rs_replace (leaf_of (lr_tournament_uuid v)) (sj_identity current) v MAX_SPECULATION_JSON_BYTES w = (r, w') →
  moves (sj_value current) v →
  match r with
  | Ok e => sj_value e = v ∧ holds w' e ∧ replaced w w' current v
  | Err _ => unchanged w w' ∨ replaced w w' current v
  end.
Proof.
  intros Hrun Hmoves. apply rs_replace_spec in Hrun as [Hothers Hpost]; [|apply leaf_of_not_temp].
  assert (only (lr_tournament_uuid v) w w') as Honly.
  { intros u Hu. apply Hothers; [|apply leaf_of_not_temp]. by intros ->%leaf_of_inj. }
  fold (ledger_of w (lr_tournament_uuid v)) (ledger_of w' (lr_tournament_uuid v)) in Hpost. destruct r as [e|e]; simpl in Hpost.
  - destruct Hpost as (Hid & Hv & Hh). apply holds_value_holds in Hh. destruct e as [v' id]; simpl in *; subst v'.
    split_and!; [done..|]. split_and!; [|done..]. by split; [|exists id].
  - destruct Hpost as [Hsame|(Hid & id & Hh)]; [left|right].
    + intros u. destruct (decide (u = lr_tournament_uuid v)) as [->|Hu]; [done|by apply Honly].
    + apply holds_value_holds in Hh. split_and!; [|done..]. by split; [|exists id].
Qed.

Lemma unchanged_refl w : unchanged w w.
Proof. done. Qed.

Lemma create_prepared_spec root record w r w' :
  create_prepared hyphenated root record w = (r, w') →
  match r with
  | Ok e => sj_value e = record ∧ holds w' e ∧ created w w' record
  | Err _ => unchanged w w' ∨ created w w' record
  end.
Proof.
  intros Hrun. unfold create_prepared in Hrun.
  do 2 (apply lift_run in Hrun as [(? & ? & Hrun)|[? ->]]; [|destruct r; [done|left; apply unchanged_refl]]). inv_ok.
  apply lift_run in Hrun as [(leaf & ->%record_leaf_Ok & Hrun)|[? ->]]; [|destruct r; [done|left; apply unchanged_refl]].
  apply create_run in Hrun. unfold created. destruct r; naive_solver.
Qed.

Lemma write_before_action_spec root current next action generation w r w' :
  write_before_action hyphenated root current next action generation w = (r, w') →
  match r with
  | Ok e => sj_value e = next ∧ holds w' e ∧ replaced w w' current next ∧
      is_requested (lr_action next) = true ∧ is_requested (lr_action (sj_value current)) = false ∧
      lr_action next = action ∧ lr_generation next = generation ∧ lr_generation (sj_value current) = generation
  | Err _ => unchanged w w' ∨ replaced w w' current next
  end.
Proof.
  intros Hrun. unfold write_before_action in Hrun.
  do 4 (apply lift_run in Hrun as [(? & ? & Hrun)|[? ->]]; [|destruct r; [done|left; apply unchanged_refl]]). inv_ok.
  apply lift_run in Hrun as [(leaf & ->%record_leaf_Ok & Hrun)|[? ->]]; [|destruct r; [done|left; apply unchanged_refl]].
  assert (moves (sj_value current) next) as Hm by (split; [done|right; split; [lia|done]]).
  apply replace_run in Hrun; [|done]. destruct r as [e|e]; [|done]. destruct Hrun as (Hv & Hh & Hr). split_and!; [done..| |done|done|lia|lia].
  destruct action, (lr_action next); naive_solver.
Qed.

Lemma mirror_status_spec root current status w r w' :
  mirror_status hyphenated root current status w = (r, w') →
  match r with
  | Ok e => sj_value e = mirrored_record (sj_value current) status ∧ holds w' e ∧
      replaced w w' current (mirrored_record (sj_value current) status)
  | Err _ => unchanged w w' ∨ replaced w w' current (mirrored_record (sj_value current) status)
  end.
Proof.
  intros Hrun. unfold mirror_status in Hrun.
  do 4 (apply lift_run in Hrun as [(? & ? & Hrun)|[? ->]]; [|destruct r; [done|left; apply unchanged_refl]]). inv_ok.
  apply lift_run in Hrun as [(leaf & ->%record_leaf_Ok & Hrun)|[? ->]]; [|destruct r; [done|left; apply unchanged_refl]].
  eapply replace_run; [exact Hrun|]. split.
  - apply same_identity_spec. simpl. split_and!; [lia|lia|done].
  - simpl. destruct (is_requested (lr_action (sj_value current))); simpl in *; lia.
Qed.

Lemma read_run u w (r : result EvidenceError ClientLedgerEntry) w' :
  rs_read (leaf_of u) MAX_SPECULATION_JSON_BYTES w = (r, w') →
  unchanged w w' ∧ ∀ e, r = Ok e → lr_tournament_uuid (sj_value e) = u → holds w' e.
Proof.
  intros [Hsame Hread]%rs_read_spec. split; [by intros v; apply Hsame|]. intros e He Hu.
  destruct (Hread e He) as (bytes & Hb & Hw). exists bytes. split; [|done]. unfold ledger_of. by rewrite Hu Hsame.
Qed.

Lemma read_verified_spec root u d w r w' :
  read_verified hyphenated root u d w = (r, w') →
  unchanged w w' ∧ ∀ e, r = Ok e → holds w' e ∧ lr_tournament_uuid (sj_value e) = u.
Proof.
  intros Hrun. unfold read_verified in Hrun.
  apply lift_run in Hrun as [(leaf & ->%record_leaf_Ok & Hrun)|[? ->]]; [|by destruct r].
  apply M_bind_inv in Hrun as [(e & w1 & Hread & Hrun)|(e & Hread & ->)]; [|by apply read_run in Hread as [? _]].
  apply read_run in Hread as [Hsame Hh].
  do 3 (apply lift_run in Hrun as [(? & ? & Hrun)|[? ->]]; [|by destruct r]). injection Hrun as <- <-. split; [done|].
  intros ? [= <-]. inv_ok. split; [apply Hh; [done|lia]|lia].
Qed.

Lemma read_tournament_spec root u w r w' :
  read_tournament hyphenated root u w = (r, w') →
  unchanged w w' ∧ ∀ t, r = Ok t → holds w' (te_entry t) ∧ lr_tournament_uuid (sj_value (te_entry t)) = u ∧
    ledger_validate (sj_value (te_entry t)) = Ok tt ∧
    classify_ledger_authority (cr_ledger_root (lr_roots (sj_value (te_entry t)))) root = Ok (te_authority t).
Proof.
  intros Hrun. unfold read_tournament in Hrun.
  apply lift_run in Hrun as [(? & ? & Hrun)|[? ->]]; [|by destruct r].
  apply lift_run in Hrun as [(leaf & ->%record_leaf_Ok & Hrun)|[? ->]]; [|by destruct r].
  apply M_bind_inv in Hrun as [(e & w1 & Hread & Hrun)|(e & Hread & ->)]; [|by apply read_run in Hread as [? _]].
  apply read_run in Hread as [Hsame Hh].
  apply lift_run in Hrun as [([] & Hvalid & Hrun)|[? ->]]; [|by destruct r].
  apply lift_run in Hrun as [(? & Hu & Hrun)|[? ->]]; [|by destruct r].
  apply lift_run in Hrun as [(a & Ha & Hrun)|[? ->]]; [|by destruct r]. injection Hrun as <- <-. split; [done|].
  intros ? [= <-]. inv_ok. simpl. split_and!; [apply Hh; [done|lia]|lia|done|done].
Qed.
End effects.
