(* ===== verification/LedgerClient.v ===== *)
(** The client of a speculation ([speculate_run], [speculate_status], [speculate_finalize] and
    [speculate_rollback], [client.rs]).

    A client is a program of commands: the operations on its ledger, requests to the daemon,
    and what it asks of the system.  A command is one step; between two of them anything may
    happen to the ledger and to the daemon.  [Polling] is a client that is still polling when
    the rounds it was given are used up: how many a client makes is up to its clock. *)
From S2P Require Import Prelude Utf8 Base64 Protocol EvidenceFs Ledger.

Inductive SpeculationClientError : Set :=
  | CeUnsupported | CeUnavailable | CeCapacityExhausted | CeInvalidRequest | CeInvalidTransition | CeStaleGeneration
  | CeGenerationExhausted | CeContainmentUnavailable | CeRollbackRequired | CeDecisionUncertain | CeEvidenceUnavailable
  | CeProtocolMismatch | CeTransport | CeTransportProtocol | CeResponseInvalid | CeDaemonRejected.
#[global] Instance SpeculationClientError_eq_dec : EqDecision SpeculationClientError.
Proof. solve_decision. Defined.

Definition client_error_code (e : SpeculationClientError) : str :=
  match e with
  | CeUnsupported => lit "speculation_unsupported"
  | CeUnavailable => lit "speculation_unavailable"
  | CeCapacityExhausted => lit "speculation_capacity_exhausted"
  | CeInvalidRequest => lit "speculation_invalid_request"
  | CeInvalidTransition => lit "speculation_invalid_transition"
  | CeStaleGeneration => lit "speculation_stale_generation"
  | CeGenerationExhausted => lit "speculation_generation_exhausted"
  | CeContainmentUnavailable => lit "speculation_containment_unavailable"
  | CeRollbackRequired => lit "speculation_rollback_required"
  | CeDecisionUncertain => lit "speculation_decision_uncertain"
  | CeEvidenceUnavailable => lit "speculation_evidence_unavailable"
  | CeProtocolMismatch => lit "speculation_protocol_mismatch"
  | CeTransport => lit "speculation_transport"
  | CeTransportProtocol => lit "speculation_transport_protocol"
  | CeResponseInvalid => lit "speculation_response_invalid"
  | CeDaemonRejected => lit "speculation_daemon_rejected"
  end.

Definition daemon_errors : list SpeculationClientError :=
  [CeUnsupported; CeUnavailable; CeCapacityExhausted; CeInvalidRequest; CeInvalidTransition; CeStaleGeneration;
   CeGenerationExhausted; CeContainmentUnavailable; CeRollbackRequired; CeDecisionUncertain; CeEvidenceUnavailable;
   CeProtocolMismatch].
Definition from_daemon_code (code : str) : SpeculationClientError :=
  default CeDaemonRejected (List.find (λ e, bool_decide (code = client_error_code e)) daemon_errors).

Definition is_ambiguous_mutation_loss (e : SpeculationClientError) : bool :=
  match e with CeTransport | CeTransportProtocol | CeResponseInvalid => true | _ => false end.

Definition map_speculation_evidence (e : EvidenceError) : SpeculationClientError :=
  match e with
  | Unsupported => CeUnsupported
  | InvalidDirectory | InvalidIdentity | Overlap | InvalidLeaf => CeInvalidRequest
  | Capacity => CeCapacityExhausted
  | GenerationMismatch => CeStaleGeneration
  | AlreadyExists | Missing | TooLarge | Corrupt | Stale | Io | Poisoned => CeEvidenceUnavailable
  end.

(** What comes back over the socket: nothing, too many bytes, bytes that are not the strict
    JSON of an answer, or the answer's three fields. *)
Inductive RpcAnswer (T : Type) : Type :=
  | RpcLost | RpcTooLong | RpcNotJson | RpcOuter (ok : bool) (error : option str) (answer : option T).
Arguments RpcLost {T}.
Arguments RpcTooLong {T}.
Arguments RpcNotJson {T}.
Arguments RpcOuter {T} ok error answer.

Definition strict_rpc_result {T} (a : RpcAnswer T) : result SpeculationClientError T :=
  match a with
  | RpcLost => Err CeTransport
  | RpcTooLong => Err CeTransportProtocol
  | RpcNotJson => Err CeResponseInvalid
  | RpcOuter true None (Some answer) => Ok answer
  | RpcOuter false (Some code) None => Err (from_daemon_code code)
  | RpcOuter _ _ _ => Err CeResponseInvalid
  end.

(** ** Requests *)

Record IdentityRequest : Set := { iq_tournament_uuid : Uuid; iq_daemon_instance_uuid : Uuid; iq_generation : Z }.

Inductive SpeculationRequest : Set :=
  | Prepare (request : SpeculationPrepareRequest) | Arm (request : IdentityRequest) | Status (request : IdentityRequest)
  | Finalize (request : IdentityRequest) | Rollback (request : IdentityRequest).

(** ** Answers of the daemon *)

Definition status_candidates_differ (s : SpeculationStatus) : bool :=
  negb (is_nil (candidate_uuid (at0 (candidates s)))) && negb (is_nil (candidate_uuid (at1 (candidates s))))
  && negb (candidate_uuid (at0 (candidates s)) =? candidate_uuid (at1 (candidates s))).

Definition selection_required (phase : SpeculationPhase) : bool :=
  match phase with
  | PendingFinalize | FinalizingLoser | WinnerSelectionPending | FinalizingWinner | Selected => true
  | _ => false
  end.

Definition candidate_closed (c : SpeculationCandidateStatus) : bool :=
  let cleanup := cleanup c in
  runner_ack cleanup && bwrap_reaped cleanup && sync_eof cleanup && cgroup_empty cleanup && managed_tombstone cleanup.

Definition validate_speculation_status (s : SpeculationStatus) (tournament daemon : Uuid) (minimum_generation : Z)
    : result SpeculationClientError unit :=
  bail_if (is_nil tournament || is_nil daemon || (minimum_generation =? 0)
    || negb (tournament_uuid s =? tournament) || negb (daemon_instance_uuid s =? daemon)
    || (st_generation s <? minimum_generation)
    || negb (cs_index (at0 (candidates s)) =? 0) || negb (cs_index (at1 (candidates s)) =? 1)
    || negb (status_candidates_differ s)
    || negb (bool_decide (fixed_score_order s = SPECULATION_SCORE_ORDER))
    || match selected_index s with Some index => 1 <? index | None => false end
    || (lease_deadline_unix_ms s =? 0)
    || negb (bool_decide (rollback_required s = is_rollback_only (st_phase s)))) CeResponseInvalid ;;
  bail_if (negb (bool_decide (selection_required (st_phase s) = match selected_index s with Some _ => true | None => false end)))
    CeResponseInvalid ;;
  bail_if (status_is_terminal s && any2 (λ c, negb (candidate_closed c)) (candidates s)) CeResponseInvalid ;;
  match st_phase s with
  | Selected =>
    if match selected_index s with None => true | Some _ => rollback_required s end then Err CeResponseInvalid else Ok tt
  | RolledBack =>
    if match selected_index s with Some _ => true | None => rollback_required s end then Err CeResponseInvalid else Ok tt
  | phase =>
    if is_rollback_only phase && match selected_index s with Some _ => true | None => false end
    then Err CeResponseInvalid else Ok tt
  end.

Definition validate_prepare_status (s : SpeculationStatus) : result SpeculationClientError unit :=
  validate_speculation_status s (tournament_uuid s) (daemon_instance_uuid s) (st_generation s) ;;
  bail_if (negb (bool_decide (st_phase s = Prepared)) || match selected_index s with Some _ => true | None => false end
           || rollback_required s) CeResponseInvalid.

Definition validate_observed_status_against_journal (current : ClientLedgerEntry) (s : SpeculationStatus)
    : result SpeculationClientError unit :=
  let cur := sj_value current in
  validate_speculation_status s (lr_tournament_uuid cur) (lr_daemon_instance_uuid cur) (lr_generation cur) ;;
  bail_if ((st_generation s =? lr_generation cur) && negb (bool_decide (s = lr_status cur))) CeResponseInvalid.

(** ** What a phase means to an operation *)

Inductive RequestedActionPlan : Set := PlanStart | PlanRecoverStatusOnly | PlanReject.
Definition requested_action_plan (current desired : LedgerAction) : RequestedActionPlan :=
  if negb (is_requested current) then PlanStart
  else if bool_decide (current = desired) then PlanRecoverStatusOnly else PlanReject.

Inductive RunObservation : Set := Continue | Stop.
Definition classify_run_phase (phase : SpeculationPhase) : RunObservation :=
  match phase with
  | Prepared | Armed | Starting | Ready | GoPending | Running | ResultPending | FinalizingLoser | WinnerSelectionPending
  | FinalizingWinner => Continue
  | PendingFinalize | RollbackRequired | DecisionUncertain | RollbackPending | Selected | RolledBack => Stop
  end.

Inductive FinalizePhaseAction : Set := FinalizeStart | FinalizePoll | FinalizeReturn | FinalizeReject.
Definition classify_finalize_phase (phase : SpeculationPhase) : FinalizePhaseAction :=
  match phase with
  | PendingFinalize => FinalizeStart
  | FinalizingLoser | WinnerSelectionPending | FinalizingWinner | RollbackPending => FinalizePoll
  | RollbackRequired | DecisionUncertain | Selected | RolledBack => FinalizeReturn
  | Prepared | Armed | Starting | Ready | GoPending | Running | ResultPending => FinalizeReject
  end.

Inductive RollbackPhaseAction : Set := RollbackStart | RollbackPoll | RollbackReturn.
Definition classify_rollback_phase (phase : SpeculationPhase) : RollbackPhaseAction :=
  match phase with
  | Selected | RolledBack => RollbackReturn
  | FinalizingLoser | WinnerSelectionPending | FinalizingWinner | RollbackPending => RollbackPoll
  | Prepared | Armed | Starting | Ready | GoPending | Running | ResultPending | PendingFinalize | RollbackRequired
  | DecisionUncertain => RollbackStart
  end.

Definition cleanup_only_observable (phase : SpeculationPhase) : bool :=
  match phase with RollbackRequired | DecisionUncertain | RollbackPending | Selected | RolledBack => true | _ => false end.

Definition run_stops (s : SpeculationStatus) : bool :=
  match classify_run_phase (st_phase s) with Stop => true | Continue => false end.
Definition finalize_stops (s : SpeculationStatus) : bool := status_is_terminal s || is_rollback_only (st_phase s).

(** ** Programs *)

Record ClockReading : Set := { ck_unix_ms : option Z; ck_now_ms : Z }.

Inductive Cmd : Set :=
  | CmdOpenRoots (source candidate0 candidate1 ledger_root cgroup_root : list byte)
  | CmdOpenLedger (ledger_root : list byte)
  | CmdSocket
  | CmdProtocol
  | CmdRequest (request : SpeculationRequest)
  | CmdClock
  | CmdCreate (root : DurableDirectoryIdentity) (record : ClientLedgerRecord)
  | CmdWrite (root : DurableDirectoryIdentity) (current : ClientLedgerEntry) (next : ClientLedgerRecord)
      (action : LedgerAction) (generation : Z)
  | CmdMirror (root : DurableDirectoryIdentity) (current : ClientLedgerEntry) (status : SpeculationStatus)
  | CmdVerified (root : DurableDirectoryIdentity) (tournament daemon : Uuid)
  | CmdTournament (root : DurableDirectoryIdentity) (tournament : Uuid).

(** What a command answers: the directories by their identities, the protocol version of the
    daemon, the status in its answer to a request. *)
Definition answer (c : Cmd) : Set :=
  match c with
  | CmdOpenRoots _ _ _ _ _ => result EvidenceError ClientRootIdentities
  | CmdOpenLedger _ => result EvidenceError DurableDirectoryIdentity
  | CmdSocket => result SpeculationClientError unit
  | CmdProtocol => RpcAnswer Z
  | CmdRequest _ => RpcAnswer SpeculationStatus
  | CmdClock => ClockReading
  | CmdTournament _ _ => result EvidenceError TournamentLedgerEntry
  | _ => result EvidenceError ClientLedgerEntry
  end.

Inductive Prog (A : Type) : Type :=
  | Done (r : result SpeculationClientError A)
  | Do (c : Cmd) (k : answer c → Prog A)
  | Polling.
Arguments Done {A} r.
Arguments Do {A} c k.
Arguments Polling {A}.

#[global] Instance Prog_ret : MRet Prog := λ A a, Done (Ok a).
Fixpoint prog_bind {A B} (f : A → Prog B) (p : Prog A) : Prog B :=
  match p with
  | Done (Ok a) => f a
  | Done (Err e) => Done (Err e)
  | Do c k => Do c (λ x, prog_bind f (k x))
  | Polling => Polling
  end.
#[global] Instance Prog_bind : MBind Prog := @prog_bind.

Definition pure {A} (r : result SpeculationClientError A) : Prog A := Done r.
(** The result of a program as a value: the source matches on it. *)
Fixpoint attempt {A} (p : Prog A) : Prog (result SpeculationClientError A) :=
  match p with
  | Done r => Done (Ok r)
  | Do c k => Do c (λ x, attempt (k x))
  | Polling => Polling
  end.

Definition evidence {A} (r : result EvidenceError A) : result SpeculationClientError A :=
  match r with Ok a => Ok a | Err e => Err (map_speculation_evidence e) end.
Definition ledger_op (c : Cmd) (entry : answer c → result EvidenceError ClientLedgerEntry) : Prog ClientLedgerEntry :=
  Do c (λ r, Done (evidence (entry r))).
Definition create_cmd root record : Prog ClientLedgerEntry := ledger_op (CmdCreate root record) id.
Definition write_cmd root current next action generation : Prog ClientLedgerEntry :=
  ledger_op (CmdWrite root current next action generation) id.
Definition mirror_cmd root current status : Prog ClientLedgerEntry := ledger_op (CmdMirror root current status) id.
Definition verified_cmd root tournament daemon : Prog ClientLedgerEntry := ledger_op (CmdVerified root tournament daemon) id.
Definition speculation_rpc_at (request : SpeculationRequest) : Prog SpeculationStatus :=
  Do (CmdRequest request) (λ a, Done (strict_rpc_result a)).
Definition clock : Prog ClockReading := Do CmdClock (λ t, Done (Ok t)).

Definition require_speculation_protocol_at : Prog unit :=
  Do CmdProtocol (λ a, Done (
    version ← strict_rpc_result a;
    bail_if (version <? SPECULATION_PROTOCOL_VERSION) CeProtocolMismatch)).

Definition readback_ledger (root : DurableDirectoryIdentity) (candidate : ClientLedgerEntry) : Prog ClientLedgerEntry :=
  exact ← verified_cmd root (lr_tournament_uuid (sj_value candidate)) (lr_daemon_instance_uuid (sj_value candidate));
  pure (bail_if (negb (bool_decide (sj_identity exact = sj_identity candidate))
                 || negb (bool_decide (sj_value exact = sj_value candidate))) CeEvidenceUnavailable) ;;
  mret exact.

Definition requested_record (current : ClientLedgerRecord) (action : LedgerAction) : ClientLedgerRecord := {|
  lr_schema_version := lr_schema_version current; lr_tournament_uuid := lr_tournament_uuid current;
  lr_daemon_instance_uuid := lr_daemon_instance_uuid current; lr_generation := lr_generation current;
  lr_action := action; lr_roots := lr_roots current; lr_status := lr_status current |}.

Definition write_requested_action (root : DurableDirectoryIdentity) (current : ClientLedgerEntry) (action : LedgerAction)
    : Prog ClientLedgerEntry :=
  stored ← write_cmd root current (requested_record (sj_value current) action) action (lr_generation (sj_value current));
  readback_ledger root stored.

Definition observe_and_mirror_newer_status (root : DurableDirectoryIdentity) (current : ClientLedgerEntry)
    (s : SpeculationStatus) : Prog ClientLedgerEntry :=
  pure (validate_observed_status_against_journal current s) ;;
  if st_generation s =? lr_generation (sj_value current) then mret current
  else stored ← mirror_cmd root current s; readback_ledger root stored.

Definition identity_request (current : ClientLedgerEntry) : IdentityRequest := {|
  iq_tournament_uuid := lr_tournament_uuid (sj_value current);
  iq_daemon_instance_uuid := lr_daemon_instance_uuid (sj_value current);
  iq_generation := lr_generation (sj_value current) |}.

Definition status_rpc (current : ClientLedgerEntry) : Prog SpeculationStatus :=
  s ← speculation_rpc_at (Status (identity_request current));
  pure (validate_speculation_status s (lr_tournament_uuid (sj_value current)) (lr_daemon_instance_uuid (sj_value current))
          (lr_generation (sj_value current))) ;;
  mret s.

(** Durations and instants are in milliseconds. *)
Definition CONTROL_ACK_TIMEOUT : Z := 5000.
Definition poll_deadline (s : SpeculationStatus) (t : ClockReading) : Z :=
  let now_unix_ms := default (lease_deadline_unix_ms s) (ck_unix_ms t) in
  ck_now_ms t + Z.min (saturating_sub (lease_deadline_unix_ms s) now_unix_ms) 3700000 + CONTROL_ACK_TIMEOUT.
Definition observation_deadline (s : SpeculationStatus) : Prog Z := t ← clock; mret (poll_deadline s t).

Fixpoint poll_loop (rounds : nat) (root : DurableDirectoryIdentity) (current : ClientLedgerEntry) (deadline : Z)
    (stop : SpeculationStatus → bool) : Prog (SpeculationStatus * ClientLedgerEntry) :=
  match rounds with
  | O => Polling
  | S rounds =>
    r ← attempt (status_rpc current);
    match r with
    | Ok s =>
      current ← observe_and_mirror_newer_status root current s;
      next_deadline ← observation_deadline s;
      let deadline := Z.max deadline next_deadline in
      if stop s then mret (s, current)
      else
        t ← clock;
        if deadline <=? ck_now_ms t then pure (Err CeTransport) else poll_loop rounds root current deadline stop
    | Err error =>
      if is_ambiguous_mutation_loss error then
        t ← clock;
        if ck_now_ms t <? deadline then poll_loop rounds root current deadline stop else pure (Err error)
      else pure (Err error)
    end
  end.

Definition poll_journaled_status_until (rounds : nat) (root : DurableDirectoryIdentity) (current : ClientLedgerEntry)
    (stop : SpeculationStatus → bool) : Prog (SpeculationStatus * ClientLedgerEntry) :=
  deadline ← observation_deadline (lr_status (sj_value current));
  poll_loop rounds root current deadline stop.

(** The poll that an operation ends with: its status. *)
Definition poll_to_end (rounds : nat) (root : DurableDirectoryIdentity) (current : ClientLedgerEntry)
    (stop : SpeculationStatus → bool) : Prog SpeculationStatus :=
  '(s, _) ← poll_journaled_status_until rounds root current stop; mret s.

(** A mutation whose intent is in the ledger, and the entry after its answer.  A lost answer
    leaves the entry as it is. *)
Definition send_requested (root : DurableDirectoryIdentity) (current : ClientLedgerEntry) (request : SpeculationRequest)
    (validated : bool) : Prog ClientLedgerEntry :=
  r ← attempt (speculation_rpc_at request);
  match r with
  | Ok s =>
    pure (if validated then validate_speculation_status s (lr_tournament_uuid (sj_value current))
                              (lr_daemon_instance_uuid (sj_value current)) (lr_generation (sj_value current))
          else Ok tt) ;;
    pure (bail_if (st_generation s =? lr_generation (sj_value current)) CeResponseInvalid) ;;
    observe_and_mirror_newer_status root current s
  | Err error =>
    if is_ambiguous_mutation_loss error || bool_decide (error = CeStaleGeneration) then mret current else pure (Err error)
  end.

Definition invalid_request {E A} (r : result E A) : result SpeculationClientError A :=
  match r with Ok a => Ok a | Err _ => Err CeInvalidRequest end.

Definition prepared_ledger_record (s : SpeculationStatus) (roots : ClientRootIdentities) : ClientLedgerRecord := {|
  lr_schema_version := LedgerV1; lr_tournament_uuid := tournament_uuid s; lr_daemon_instance_uuid := daemon_instance_uuid s;
  lr_generation := st_generation s; lr_action := LedgerPrepared; lr_roots := roots; lr_status := s |}.

Definition speculate_run (rounds : nat) (source candidate0 candidate1 ledger_root cgroup_root : list byte) (timeout_ms : Z)
    (argv : list (list byte)) : Prog SpeculationStatus :=
  wire_source ← pure (invalid_request (SpeculationUnixPath_from_bytes source));
  wire_candidate0 ← pure (invalid_request (SpeculationUnixPath_from_bytes candidate0));
  wire_candidate1 ← pure (invalid_request (SpeculationUnixPath_from_bytes candidate1));
  wire_ledger ← pure (invalid_request (SpeculationUnixPath_from_bytes ledger_root));
  wire_cgroup ← pure (invalid_request (SpeculationUnixPath_from_bytes cgroup_root));
  wire_argv ← pure (invalid_request (SpeculationArgv_from_os_strings argv));
  pure (bail_if (u64_max <? timeout_ms) CeInvalidRequest) ;;
  roots ← Do (CmdOpenRoots source candidate0 candidate1 ledger_root cgroup_root) (λ r, pure (evidence r));
  let root := cr_ledger_root roots in
  Do CmdSocket pure ;;
  require_speculation_protocol_at ;;
  request ← pure (invalid_request (SpeculationPrepareRequest_new wire_source (Array2 wire_candidate0 wire_candidate1)
                                     wire_ledger wire_cgroup timeout_ms wire_argv));
  prepared ← speculation_rpc_at (Prepare request);
  pure (validate_prepare_status prepared) ;;
  created ← create_cmd root (prepared_ledger_record prepared roots);
  prepared_entry ← readback_ledger root created;
  arm_entry ← write_requested_action root prepared_entry ArmRequested;
  current ← send_requested root arm_entry (Arm (identity_request arm_entry)) true;
  poll_to_end rounds root current run_stops.

Definition open_tournament (ledger_root : list byte) (tournament : Uuid)
    : Prog (DurableDirectoryIdentity * TournamentLedgerEntry) :=
  root ← Do (CmdOpenLedger ledger_root) (λ r, pure (evidence r));
  t ← Do (CmdTournament root tournament) (λ r, pure (evidence r));
  mret (root, t).

Definition speculate_status (ledger_root : list byte) (tournament : Uuid) : Prog SpeculationStatus :=
  '(_, t) ← open_tournament ledger_root tournament;
  Do CmdSocket pure ;;
  require_speculation_protocol_at ;;
  s ← status_rpc (te_entry t);
  pure (validate_observed_status_against_journal (te_entry t) s) ;;
  pure (bail_if (bool_decide (te_authority t = CleanupOnlyAfterBoot) && negb (cleanup_only_observable (st_phase s)))
          CeEvidenceUnavailable) ;;
  mret s.

Definition speculate_finalize (rounds : nat) (ledger_root : list byte) (tournament : Uuid) : Prog SpeculationStatus :=
  '(root, t) ← open_tournament ledger_root tournament;
  pure (bail_if (negb (bool_decide (te_authority t = CurrentBoot))) CeEvidenceUnavailable) ;;
  Do CmdSocket pure ;;
  require_speculation_protocol_at ;;
  observed ← status_rpc (te_entry t);
  current ← observe_and_mirror_newer_status root (te_entry t) observed;
  match classify_finalize_phase (st_phase observed) with
  | FinalizeReject => pure (Err CeInvalidTransition)
  | FinalizeReturn => mret observed
  | FinalizePoll => poll_to_end rounds root current finalize_stops
  | FinalizeStart =>
    match requested_action_plan (lr_action (sj_value current)) FinalizeRequested with
    | PlanRecoverStatusOnly => poll_to_end rounds root current finalize_stops
    | PlanReject => pure (Err CeEvidenceUnavailable)
    | PlanStart =>
      current ← write_requested_action root current FinalizeRequested;
      current ← send_requested root current (Finalize (identity_request current)) false;
      poll_to_end rounds root current finalize_stops
    end
  end.

Definition speculate_rollback (rounds : nat) (ledger_root : list byte) (tournament : Uuid) : Prog SpeculationStatus :=
  '(root, t) ← open_tournament ledger_root tournament;
  Do CmdSocket pure ;;
  require_speculation_protocol_at ;;
  observed ← status_rpc (te_entry t);
  pure (validate_observed_status_against_journal (te_entry t) observed) ;;
  if bool_decide (te_authority t = CleanupOnlyAfterBoot) then
    if cleanup_only_observable (st_phase observed) then mret observed else pure (Err CeEvidenceUnavailable)
  else
    current ← observe_and_mirror_newer_status root (te_entry t) observed;
    match classify_rollback_phase (st_phase observed) with
    | RollbackReturn => mret observed
    | RollbackPoll => poll_to_end rounds root current status_is_terminal
    | RollbackStart =>
      match requested_action_plan (lr_action (sj_value current)) RollbackRequested_ with
      | PlanRecoverStatusOnly => poll_to_end rounds root current status_is_terminal
      | PlanReject => pure (Err CeEvidenceUnavailable)
      | PlanStart =>
        current ← write_requested_action root current RollbackRequested_;
        current ← send_requested root current (Rollback (identity_request current)) false;
        poll_to_end rounds root current status_is_terminal
      end
    end.
