(* ===== verification/LedgerRuns.v ===== *)
(** Any number of clients of speculations on one directory of ledgers: their commands come in
    any order, each may stop anywhere, and the daemon and the system answer anything.

    [safe] is what a program of LedgerClient.v keeps to: it only writes over entries that it
    has read, and only sends a mutation that it has just recorded.  [steady] runs a program
    against a daemon that always gives the same answer. *)
From S2P Require Import Prelude Utf8 Base64 Protocol EvidenceFs Ledger LedgerClient.

(** A mutation that is recorded, to be sent or sent. *)
Record Mutation : Set := { mu_tournament : Uuid; mu_generation : Z; mu_action : LedgerAction }.
Definition mu_key (t : Mutation) : Uuid * Z := (mu_tournament t, mu_generation t).

Definition mutation_of (request : SpeculationRequest) : option Mutation :=
  let with_action q a := Some {| mu_tournament := iq_tournament_uuid q; mu_generation := iq_generation q; mu_action := a |} in
  match request with
  | Prepare _ | Status _ => None
  | Arm q => with_action q ArmRequested
  | Finalize q => with_action q FinalizeRequested
  | Rollback q => with_action q RollbackRequested_
  end.

(** ** What a client knows and may do *)

Definition Known : Type := list ClientLedgerEntry * option Mutation.

Definition allows (g : Known) (c : Cmd) : Prop :=
  match c with
  | CmdWrite _ current _ _ _ => current ∈ g.1 ∧ g.2 = None
  | CmdMirror _ current _ => current ∈ g.1
  | CmdRequest request => match mutation_of request with Some t => g.2 = Some t | None => True end
  | _ => True
  end.

Definition learn (g : Known) (r : result EvidenceError ClientLedgerEntry) : Known :=
  match r with Ok e => (e :: g.1, g.2) | Err _ => g end.

Definition gains (g : Known) (c : Cmd) : answer c → Known :=
  match c with
  | CmdCreate _ _ | CmdMirror _ _ _ | CmdVerified _ _ _ => learn g
  | CmdWrite _ _ next action _ => λ r,
    match r with
    | Ok e => (e :: g.1, Some {| mu_tournament := lr_tournament_uuid next; mu_generation := lr_generation next; mu_action := action |})
    | Err _ => g
    end
  | CmdTournament _ _ => λ r, match r with Ok t => (te_entry t :: g.1, g.2) | Err _ => g end
  | CmdRequest request => λ _, match mutation_of request with Some _ => (g.1, None) | None => g end
  | _ => λ _, g
  end.

(** What every answer of the ledger satisfies. *)
Definition sound (c : Cmd) : answer c → Prop :=
  match c with
  | CmdCreate _ record => λ r, ∀ e, r = Ok e → sj_value e = record
  | CmdWrite _ _ next _ _ => λ r, ∀ e, r = Ok e → sj_value e = next
  | CmdMirror _ current s => λ r, ∀ e, r = Ok e → sj_value e = mirrored_record (sj_value current) s
  | CmdTournament _ u => λ r, ∀ t, r = Ok t → lr_tournament_uuid (sj_value (te_entry t)) = u
  | _ => λ _, True
  end.

Fixpoint safe {A} (g : Known) (p : Prog A) (Q : Known → result SpeculationClientError A → Prop) : Prop :=
  match p with
  | Done r => Q g r
  | Polling => True
  | Do c k => allows g c ∧ ∀ r, sound c r → safe (gains g c r) (k r) Q
  end.

Lemma safe_bind {A B} (p : Prog A) (f : A → Prog B) g Q :
  safe g p (λ g r, match r with Ok a => safe g (f a) Q | Err e => Q g (Err e) end) → safe g (p ≫= f) Q.
Proof.
  revert g. induction p as [[a|e]|c k IH|]; intros g; simpl; [done|done| |done].
  intros [Hc Hk]. split; [done|]. intros r Hr. by apply IH, Hk.
Qed.

Lemma safe_attempt {A} (p : Prog A) g Q : safe g p (λ g r, Q g (Ok r)) → safe g (attempt p) Q.
Proof.
  revert g. induction p as [r|c k IH|]; intros g; simpl; [done| |done].
  intros [Hc Hk]. split; [done|]. intros r Hr. by apply IH, Hk.
Qed.

Lemma safe_pure {A} (r : result SpeculationClientError A) g Q : Q g r → safe g (pure r) Q.
Proof. done. Qed.

(** Errors are no promise. *)
Definition lenient {A} (Q : Known → result SpeculationClientError A → Prop) : Prop := ∀ g e, Q g (Err e).

(** A check that ends the program when it fails. *)
Lemma safe_check {A B} (r : result SpeculationClientError A) (f : A → Prog B) g Q :
  lenient Q → (∀ a, r = Ok a → safe g (f a) Q) → safe g (pure r ≫= f) Q.
Proof. intros HQ Hf. apply safe_bind. destruct r; simpl; [by apply Hf|apply HQ]. Qed.

(** A command that teaches nothing about the ledger. *)
Lemma safe_bind_lenient {A B} (p : Prog A) (f : A → Prog B) g Q :
  lenient Q → safe g p (λ g r, ∀ a, r = Ok a → safe g (f a) Q) → safe g (p ≫= f) Q.
Proof.
  intros HQ Hp. apply safe_bind. revert g Hp.
  induction p as [[a|e]|c k IH|]; intros g Hp; simpl in *; [by apply Hp|apply HQ| |done].
  destruct Hp as [Hc Hk]. split; [done|]. intros r Hr. by apply IH, Hk.
Qed.

(** A single command and what follows it. *)
Lemma safe_command {A B} (c : Cmd) (h : answer c → result SpeculationClientError A) (f : A → Prog B) g Q :
  lenient Q → allows g c → (∀ r a, sound c r → h r = Ok a → safe (gains g c r) (f a) Q) →
  safe g (Do c (λ r, Done (h r)) ≫= f) Q.
Proof.
  intros HQ Hc Hf. apply safe_bind. split; [done|]. intros r Hr. specialize (Hf r). cbn [safe].
  destruct (h r) as [a|e]; [by apply Hf|apply HQ].
Qed.

Lemma evidence_Ok {A} (r : result EvidenceError A) a : evidence r = Ok a → r = Ok a.
Proof. destruct r; simpl; naive_solver. Qed.

#[local] Arguments prog_bind : simpl never.

Section programs.
Context (root : DurableDirectoryIdentity).

Lemma readback_safe stored g Q :
  lenient Q → (∀ exact, sj_value exact = sj_value stored → Q (exact :: g.1, g.2) (Ok exact)) →
  safe g (readback_ledger root stored) Q.
Proof.
  intros HQ H. unfold readback_ledger. apply safe_bind_lenient; [done|]. split; [done|].
  intros [exact|e] _; simpl; [|done]. intros ? [= <-]. apply safe_check; [done|]. intros [] Hok. inv_ok. by apply H.
Qed.

Lemma write_requested_safe current action g Q :
  lenient Q → current ∈ g.1 → g.2 = None →
  (∀ stored exact, sj_value exact = requested_record (sj_value current) action →
    Q (exact :: stored :: g.1, Some {| mu_tournament := lr_tournament_uuid (sj_value current);
      mu_generation := lr_generation (sj_value current); mu_action := action |}) (Ok exact)) →
  safe g (write_requested_action root current action) Q.
Proof.
  intros HQ Hin HT H. unfold write_requested_action. apply safe_bind_lenient; [done|]. split; [done|].
  intros [stored|e] Hr; simpl; [|done]. intros ? [= <-]. apply readback_safe; [done|].
  intros exact Hexact. simpl. apply H. by rewrite Hexact (Hr stored).
Qed.

(** An entry of the ledger that holds a status. *)
Definition journals (entry : ClientLedgerEntry) (s : SpeculationStatus) : Prop :=
  lr_status (sj_value entry) = s ∧ lr_tournament_uuid (sj_value entry) = tournament_uuid s ∧
  lr_daemon_instance_uuid (sj_value entry) = daemon_instance_uuid s ∧ lr_generation (sj_value entry) = st_generation s.

Lemma status_identity s t d n u :
  validate_speculation_status s t d n = Ok u → tournament_uuid s = t ∧ daemon_instance_uuid s = d ∧ n ≤ st_generation s.
Proof. unfold validate_speculation_status. intros H. inv_ok. lia. Qed.

Lemma observe_safe current s g Q :
  lenient Q → current ∈ g.1 →
  (∀ known entry, g.1 ⊆ known → entry ∈ known → journals entry s → Q (known, g.2) (Ok entry)) →
  safe g (observe_and_mirror_newer_status root current s) Q.
Proof.
  intros HQ Hin H. unfold observe_and_mirror_newer_status. apply safe_check; [done|]. intros [] Hobs.
  unfold validate_observed_status_against_journal in Hobs. inv_ok. destruct (status_identity _ _ _ _ _ H0) as (Ht & Hd & Hg).
  destruct (st_generation s =? lr_generation (sj_value current)) eqn:Hsame.
  - apply safe_pure. destruct g. apply H; [done..|].
    apply negb_false_iff, bool_decide_eq_true in H1. by split_and!; [| |lia..].
  - apply safe_bind_lenient; [done|]. split; [done|]. intros [stored|e] Hr; simpl; [|done]. intros ? [= <-].
    apply readback_safe; [done|]. intros exact Hexact. apply H; simpl; [set_solver..|].
    unfold journals. by rewrite Hexact (Hr stored).
Qed.

Lemma status_rpc_safe current g Q :
  lenient Q → (∀ s, tournament_uuid s = lr_tournament_uuid (sj_value current) → Q g (Ok s)) → safe g (status_rpc current) Q.
Proof.
  intros HQ H. unfold status_rpc. apply safe_bind_lenient; [done|]. split; [done|]. intros r _ s _.
  apply safe_check; [done|]. intros [] (Ht & _ & _)%status_identity. by apply H.
Qed.

Lemma clock_safe g Q : (∀ t, Q g (Ok t)) → safe g clock Q.
Proof. intros H. split; [done|]. intros t _. apply H. Qed.

Lemma poll_loop_safe rounds current deadline stop g Q :
  lenient Q → current ∈ g.1 →
  (∀ known s entry, g.1 ⊆ known → entry ∈ known → journals entry s → stop s = true → Q (known, g.2) (Ok (s, entry))) →
  safe g (poll_loop rounds root current deadline stop) Q.
Proof.
  intros HQ. revert current deadline g. induction rounds as [|rounds IH]; intros current deadline g Hin H; [done|].
  cbn [poll_loop]. apply safe_bind, safe_attempt. unfold status_rpc. apply safe_bind. split; [done|]. intros a _.
  assert (∀ known error, g.1 ⊆ known → current ∈ known →
    safe (known, g.2) (if is_ambiguous_mutation_loss error
      then t ← clock; if ck_now_ms t <? deadline then poll_loop rounds root current deadline stop else pure (Err error)
      else pure (Err error)) Q) as Hretry.
  { intros known error Hk Hc. destruct (is_ambiguous_mutation_loss error); [|apply HQ].
    apply safe_bind, clock_safe. intros t. destruct (_ <? deadline); [|apply HQ]. apply IH; [done|].
    intros known' s entry Hk'. apply H. simpl in Hk'. set_solver. }
  destruct (strict_rpc_result a) as [s|error]; simpl; [|by destruct g; apply (Hretry _ error)].
  destruct (validate_speculation_status s _ _ _) as [[]|error] eqn:Hv; [|by destruct g; apply (Hretry _ error)].
  change (mret s) with (Done (Ok s)). simpl. apply safe_bind, observe_safe; [intros ??; apply HQ|done|].
  intros known entry Hk He Hj. split; [done|]. intros t _. cbn [gains].
  destruct (stop s) eqn:Hstop; [by apply H|]. split; [done|]. intros t0 _. cbn [gains].
  destruct (_ <=? ck_now_ms t0); [apply HQ|]. apply IH; [done|]. intros known' s' entry' Hk'. apply H. simpl in Hk'. set_solver.
Qed.

Lemma poll_to_end_safe rounds current stop g Q :
  lenient Q → current ∈ g.1 →
  (∀ known s entry, g.1 ⊆ known → entry ∈ known → journals entry s → stop s = true → Q (known, g.2) (Ok s)) →
  safe g (poll_to_end rounds root current stop) Q.
Proof.
  intros HQ Hin H. unfold poll_to_end, poll_journaled_status_until. apply safe_bind, safe_bind. unfold observation_deadline.
  apply safe_bind, clock_safe. intros t. apply poll_loop_safe; [intros ??; apply HQ|done|]. intros known s entry Hk He Hj Hs.
  by eapply H.
Qed.

Lemma send_requested_safe current request validated g t Q :
  lenient Q → current ∈ g.1 → mutation_of request = Some t → g.2 = Some t →
  (∀ known entry, g.1 ⊆ known → entry ∈ known → Q (known, None) (Ok entry)) →
  safe g (send_requested root current request validated) Q.
Proof.
  intros HQ Hin Hm Ht H. unfold send_requested. apply safe_bind, safe_attempt. split; [by rewrite /= Hm|]. intros a _.
  cbn [gains]. rewrite Hm. cbn beta. destruct (strict_rpc_result a) as [s|error].
  - apply safe_check; [done|]. intros [] _. apply safe_check; [done|]. intros [] _. apply observe_safe; [done|done|].
    intros known entry Hk He _. by apply (H known entry).
  - cbn [safe]. cbv beta iota. case_match; [by apply H|apply HQ].
Qed.
End programs.

(** ** The operations *)

Inductive Operation : Set :=
  | OpRun (rounds : nat) (source candidate0 candidate1 ledger_root cgroup_root : list byte) (timeout_ms : Z) (argv : list (list byte))
  | OpStatus (ledger_root : list byte) (tournament : Uuid)
  | OpFinalize (rounds : nat) (ledger_root : list byte) (tournament : Uuid)
  | OpRollback (rounds : nat) (ledger_root : list byte) (tournament : Uuid).

Definition program (o : Operation) : Prog SpeculationStatus :=
  match o with
  | OpRun rounds source candidate0 candidate1 ledger_root cgroup_root timeout_ms argv =>
    speculate_run rounds source candidate0 candidate1 ledger_root cgroup_root timeout_ms argv
  | OpStatus ledger_root tournament => speculate_status ledger_root tournament
  | OpFinalize rounds ledger_root tournament => speculate_finalize rounds ledger_root tournament
  | OpRollback rounds ledger_root tournament => speculate_rollback rounds ledger_root tournament
  end.

(** The phase in which an operation may end, and whether its status must be in the ledger. *)
Definition ends_in (o : Operation) (s : SpeculationStatus) (journaled : Prop) : Prop :=
  match o with
  | OpRun _ _ _ _ _ _ _ _ => run_stops s = true ∧ journaled
  | OpStatus _ u => tournament_uuid s = u
  | OpFinalize _ _ _ => finalize_stops s = true ∧ journaled
  | OpRollback _ _ u => tournament_uuid s = u ∧ cleanup_only_observable (st_phase s) = true ∨ status_is_terminal s = true ∧ journaled
  end.

Lemma ends_in_impl o s (P Q : Prop) : (P → Q) → ends_in o s P → ends_in o s Q.
Proof. destruct o; simpl; tauto. Qed.

Definition promise (o : Operation) (g : Known) (r : result SpeculationClientError SpeculationStatus) : Prop :=
  ∀ s, r = Ok s → ends_in o s (∃ entry, entry ∈ g.1 ∧ journals entry s).

Lemma promise_lenient o : lenient (promise o).
Proof. by intros g e s [=]. Qed.

Lemma protocol_safe {B} (f : unit → Prog B) g Q : lenient Q → safe g (f tt) Q → safe g (require_speculation_protocol_at ≫= f) Q.
Proof. intros HQ Hf. apply safe_command; [done|done|]. by intros r [] _ _. Qed.

Lemma socket_safe {B} (f : unit → Prog B) g Q : lenient Q → safe g (f tt) Q → safe g (Do CmdSocket pure ≫= f) Q.
Proof. intros HQ Hf. apply (safe_command CmdSocket id); [done|done|]. by intros r [] _ _. Qed.

Lemma open_tournament_safe ledger_root u g Q :
  lenient Q → (∀ root t, lr_tournament_uuid (sj_value (te_entry t)) = u → Q (te_entry t :: g.1, g.2) (Ok (root, t))) →
  safe g (open_tournament ledger_root u) Q.
Proof.
  intros HQ H. unfold open_tournament. apply (safe_command (CmdOpenLedger ledger_root) evidence); [done|done|]. intros r root _ _.
  apply (safe_command (CmdTournament root u) evidence); [done|done|]. intros r' t Hr ->%evidence_Ok. apply H. by apply Hr.
Qed.

Lemma speculate_run_safe rounds source c0 c1 ledger_root cgroup_root timeout_ms argv Q :
  lenient Q →
  (∀ known T s entry, entry ∈ known → journals entry s → run_stops s = true → Q (known, T) (Ok s)) →
  safe ([], None) (speculate_run rounds source c0 c1 ledger_root cgroup_root timeout_ms argv) Q.
Proof.
  intros HQ H. unfold speculate_run. do 7 (apply safe_check; [done|]; intros ? _).
  apply (safe_command (CmdOpenRoots source c0 c1 ledger_root cgroup_root) evidence); [done|done|]. intros r roots _ _. cbn [gains].
  apply socket_safe; [done|]. apply protocol_safe; [done|]. apply safe_check; [done|]. intros request _.
  apply safe_command; [done|done|]. intros ? prepared _ _. cbn [gains mutation_of].
  apply safe_check; [done|]. intros [] _. apply (safe_command (CmdCreate _ _) evidence); [done|done|].
  intros r' created _ ->%evidence_Ok. cbn [gains learn fst snd].
  apply safe_bind, readback_safe; [intros ??; apply HQ|]. intros prepared_entry _. cbn [fst snd].
  apply safe_bind, write_requested_safe; [intros ??; apply HQ|cbn; set_solver|done|]. intros stored arm_entry Harm.
  apply safe_bind. eapply send_requested_safe; [intros ??; apply HQ|cbn; set_solver|done|by rewrite /= Harm|].
  intros known entry _ He. apply poll_to_end_safe; [done|done|]. intros known' s e _. apply H.
Qed.

(** The end of finalize and rollback: record the mutation, send it, and poll. *)
Lemma request_and_poll_safe rounds root current action (request : ClientLedgerEntry → SpeculationRequest) stop g Q :
  lenient Q → current ∈ g.1 → g.2 = None →
  (∀ entry, mutation_of (request entry) = Some {| mu_tournament := lr_tournament_uuid (sj_value entry);
      mu_generation := lr_generation (sj_value entry); mu_action := action |}) →
  (∀ known T s entry, entry ∈ known → journals entry s → stop s = true → Q (known, T) (Ok s)) →
  safe g (current ← write_requested_action root current action;
          current ← send_requested root current (request current) false;
          poll_to_end rounds root current stop) Q.
Proof.
  intros HQ Hin HT Hm H. apply safe_bind, write_requested_safe; [intros ??; apply HQ|done..|]. intros stored exact Hexact.
  apply safe_bind. eapply send_requested_safe; [intros ??; apply HQ|cbn; set_solver|apply Hm|by rewrite Hexact|].
  intros known entry _ He. apply poll_to_end_safe; [done|done|]. intros known' s e _. apply H.
Qed.

Lemma speculate_finalize_safe rounds ledger_root u Q :
  lenient Q →
  (∀ known T s entry, entry ∈ known → journals entry s → finalize_stops s = true → Q (known, T) (Ok s)) →
  safe ([], None) (speculate_finalize rounds ledger_root u) Q.
Proof.
  intros HQ H. unfold speculate_finalize. apply safe_bind, open_tournament_safe; [intros ??; apply HQ|]. intros root t _.
  apply safe_check; [done|]. intros [] _. apply socket_safe; [done|]. apply protocol_safe; [done|].
  apply safe_bind, status_rpc_safe; [intros ??; apply HQ|]. intros observed _.
  apply safe_bind, observe_safe; [intros ??; apply HQ|cbn; set_solver|]. intros known current _ Hin Hj. cbn [fst snd].
  assert (safe (known, None) (poll_to_end rounds root current finalize_stops) Q) as Hpoll.
  { apply poll_to_end_safe; [done|done|]. intros known' s e _. apply H. }
  destruct (classify_finalize_phase (st_phase observed)) eqn:Hphase; [|done| |apply HQ].
  - destruct (requested_action_plan _ _); [|done|apply HQ]. by apply request_and_poll_safe.
  - apply (H known None observed current); [done..|]. unfold finalize_stops, status_is_terminal. by destruct (st_phase observed).
Qed.

Lemma speculate_rollback_safe rounds ledger_root u Q :
  lenient Q →
  (∀ known T s entry, entry ∈ known → journals entry s → status_is_terminal s = true → Q (known, T) (Ok s)) →
  (∀ g s, tournament_uuid s = u → cleanup_only_observable (st_phase s) = true → Q g (Ok s)) →
  safe ([], None) (speculate_rollback rounds ledger_root u) Q.
Proof.
  intros HQ H Hcleanup. unfold speculate_rollback. apply safe_bind, open_tournament_safe; [intros ??; apply HQ|]. intros root t Hu.
  apply socket_safe; [done|]. apply protocol_safe; [done|].
  apply safe_bind, status_rpc_safe; [intros ??; apply HQ|]. intros observed Hobs.
  apply safe_check; [done|]. intros [] _. case_bool_decide.
  { destruct (cleanup_only_observable _) eqn:Hc; [|apply HQ]. apply Hcleanup; [by rewrite Hobs|done]. }
  apply safe_bind, observe_safe; [intros ??; apply HQ|cbn; set_solver|]. intros known current _ Hin Hj. cbn [fst snd].
  assert (safe (known, None) (poll_to_end rounds root current status_is_terminal) Q) as Hpoll.
  { apply poll_to_end_safe; [done|done|]. intros known' s e _. apply H. }
  destruct (classify_rollback_phase (st_phase observed)) eqn:Hphase; [|done|].
  - destruct (requested_action_plan _ _); [|done|apply HQ]. by apply request_and_poll_safe.
  - apply (H known None observed current); [done..|]. unfold status_is_terminal. by destruct (st_phase observed).
Qed.

Lemma speculate_status_safe ledger_root u Q :
  lenient Q → (∀ g s, tournament_uuid s = u → Q g (Ok s)) → safe ([], None) (speculate_status ledger_root u) Q.
Proof.
  intros HQ H. unfold speculate_status. apply safe_bind, open_tournament_safe; [intros ??; apply HQ|]. intros root t Hu.
  apply socket_safe; [done|]. apply protocol_safe; [done|].
  apply safe_bind, status_rpc_safe; [intros ??; apply HQ|]. intros observed Hobs.
  do 2 (apply safe_check; [done|]; intros [] _). apply H. by rewrite Hobs.
Qed.

Lemma program_safe o : safe ([], None) (program o) (promise o).
Proof.
  destruct o; cbn [program].
  - apply speculate_run_safe; [apply promise_lenient|]. intros known T s entry He Hj Hs s' [= <-]. split; [done|by exists entry].
  - apply speculate_status_safe; [apply promise_lenient|]. by intros g s Hu s' [= <-].
  - apply speculate_finalize_safe; [apply promise_lenient|]. intros known T s entry He Hj Hs s' [= <-]. split; [done|by exists entry].
  - apply speculate_rollback_safe; [apply promise_lenient|..].
    + intros known T s entry He Hj Hs s' [= <-]. right. split; [done|by exists entry].
    + intros g s Hu Hc s' [= <-]. by left.
Qed.

(** ** A daemon that goes on answering *)

(** A daemon whose every answer is the same status, and a clock that advances by [tick]
    milliseconds with each command. *)
Section steady.
Context (s : SpeculationStatus) (tick : Z) (Htick : 0 ≤ tick < CONTROL_ACK_TIMEOUT).

Definition steady_reply (t : Z) (c : Cmd) : answer c :=
  match c as c return answer c with
  | CmdRequest _ => RpcOuter true None (Some s)
  | CmdClock => {| ck_unix_ms := Some t; ck_now_ms := t |}
  | CmdProtocol => RpcOuter true None (Some SPECULATION_PROTOCOL_VERSION)
  | CmdSocket => Ok tt
  | CmdOpenRoots _ _ _ _ _ | CmdOpenLedger _ | CmdCreate _ _ | CmdWrite _ _ _ _ _ | CmdMirror _ _ _
  | CmdVerified _ _ _ | CmdTournament _ _ => Err Io
  end.

(** The result of a program and when it comes, if the rounds of its polls suffice. *)
Fixpoint steady {A} (t : Z) (p : Prog A) : option (result SpeculationClientError A * Z) :=
  match p with
  | Done r => Some (r, t)
  | Do c k => steady (t + tick) (k (steady_reply t c))
  | Polling => None
  end.

Lemma steady_bind {A B} t (p : Prog A) (f : A → Prog B) :
  steady t (p ≫= f) =
  match steady t p with
  | Some (Ok a, t') => steady t' (f a)
  | Some (Err e, t') => Some (Err e, t')
  | None => None
  end.
Proof. revert t. induction p as [[a|e]|c k IH|]; intros t; [done..| |done]. apply IH. Qed.

Lemma steady_attempt {A} t (p : Prog A) : steady t (attempt p) = (λ '(r, t'), (Ok r, t')) <$> steady t p.
Proof. revert t. induction p as [r|c k IH|]; intros t; [done| |done]. apply IH. Qed.

Lemma steady_clock {B} t (f : ClockReading → Prog B) :
  steady t (clock ≫= f) = steady (t + tick) (f {| ck_unix_ms := Some t; ck_now_ms := t |}).
Proof. unfold clock. by rewrite steady_bind. Qed.

Lemma steady_deadline {B} t (f : Z → Prog B) status :
  steady t (observation_deadline status ≫= f) =
  steady (t + tick) (f (poll_deadline status {| ck_unix_ms := Some t; ck_now_ms := t |})).
Proof. unfold observation_deadline. by rewrite steady_bind steady_clock. Qed.

Lemma steady_poll_loop root current stop rounds t deadline :
  validate_observed_status_against_journal current s = Ok tt →
  st_generation s = lr_generation (sj_value current) → stop s = false →
  steady t (poll_loop rounds root current deadline stop) = None.
Proof.
  intros Hobs Hgen Hstop. revert t deadline. induction rounds as [|rounds IH]; intros t deadline; [done|]. cbn [poll_loop].
  assert (validate_speculation_status s (lr_tournament_uuid (sj_value current)) (lr_daemon_instance_uuid (sj_value current))
    (lr_generation (sj_value current)) = Ok tt) as Hv.
  { unfold validate_observed_status_against_journal in Hobs. by destruct (validate_speculation_status _ _ _ _) as [[]|]. }
  assert (steady t (status_rpc current) = Some (Ok s, t + tick)) as Hrpc.
  { unfold status_rpc. rewrite steady_bind. cbn [steady speculation_rpc_at steady_reply strict_rpc_result].
    by rewrite steady_bind Hv. }
  rewrite steady_bind steady_attempt Hrpc. cbn [fmap option_fmap option_map].
  assert (steady (t + tick) (observe_and_mirror_newer_status root current s) = Some (Ok current, t + tick)) as Hobserve.
  { unfold observe_and_mirror_newer_status. rewrite steady_bind Hobs. cbn [steady pure]. by rewrite Hgen Z.eqb_refl. }
  rewrite steady_bind Hobserve steady_deadline Hstop steady_clock. cbn [ck_now_ms].
  rewrite (proj2 (Z.leb_gt _ _)); [apply IH|]. unfold poll_deadline. cbn [ck_now_ms ck_unix_ms default]. unfold saturating_sub, CONTROL_ACK_TIMEOUT in *. lia.
Qed.

(** C28: a poll has no deadline of its own while the daemon answers: however many rounds it
    makes, and whenever the lease ends, a poll whose every answer is the status that the ledger
    already holds, in a phase it waits to leave, goes on.  Each answer moves the deadline to at
    least [CONTROL_ACK_TIMEOUT] from then, and the clock is read again sooner than that. *)
Theorem poll_has_no_deadline root current stop rounds t :
  validate_observed_status_against_journal current s = Ok tt →
  st_generation s = lr_generation (sj_value current) → stop s = false →
  steady t (poll_to_end rounds root current stop) = None.
Proof.
  intros. unfold poll_to_end, poll_journaled_status_until. by rewrite steady_bind steady_deadline steady_poll_loop.
Qed.
End steady.
