(* ===== verification/LedgerSystem.v ===== *)
(** The system of the clients of LedgerRuns.v: one directory of ledgers, the clients that were
    started and how far each has come, the mutations that were sent, and every state that the
    directory has been in.

    Any client may take the next step, so a client that stops for ever has crashed.  The answers of
    the daemon and of the operating system are arbitrary; those of the ledger are Ledger.v's. *)
From stdpp Require Import list relations.
From S2P Require Import Prelude Utf8 Base64 Protocol EvidenceFs Ledger LedgerClient LedgerRuns.

Section system.
Context {W : Type} `{RecordStore W} `{JsonCodec ClientLedgerRecord}.
Context (hyphenated : Uuid → str).
Context (hyphenated_chars : ∀ u, Forall (λ c, uuid_char c = true) (hyphenated u)).
Context (hyphenated_inj : ∀ u v, hyphenated u = hyphenated v → u = v).

(** A command run on the directory. *)
Definition runs (c : Cmd) (w : W) : answer c → W → Prop :=
  match c with
  | CmdCreate root record => λ r w', create_prepared hyphenated root record w = (r, w')
  | CmdWrite root current next action generation => λ r w',
    write_before_action hyphenated root current next action generation w = (r, w')
  | CmdMirror root current status => λ r w', mirror_status hyphenated root current status w = (r, w')
  | CmdVerified root tournament daemon => λ r w', read_verified hyphenated root tournament daemon w = (r, w')
  | CmdTournament root tournament => λ r w', read_tournament hyphenated root tournament w = (r, w')
  | _ => λ _ w', w' = w
  end.

Definition sent_by (c : Cmd) : list Mutation :=
  match c with CmdRequest request => option_list (mutation_of request) | _ => [] end.

Record System := {
  sy_dir : W;
  sy_clients : list (Operation * Prog SpeculationStatus);
  sy_sent : list Mutation;
  sy_seen : list W;
}.

Definition started (w : W) : System := {| sy_dir := w; sy_clients := []; sy_sent := []; sy_seen := [w] |}.

Inductive sys_step : System → System → Prop :=
  | StartClient s o :
    sys_step s {| sy_dir := sy_dir s; sy_clients := sy_clients s ++ [(o, program o)];
                  sy_sent := sy_sent s; sy_seen := sy_seen s |}
  | ClientCommand s i o c k r w' :
    sy_clients s !! i = Some (o, Do c k) → runs c (sy_dir s) r w' →
    sys_step s {| sy_dir := w'; sy_clients := <[i := (o, k r)]> (sy_clients s);
                  sy_sent := sy_sent s ++ sent_by c; sy_seen := w' :: sy_seen s |}.

(** A client knows the file that it writes over by its inode number alone
    ([replace_private_record]).  From [w] to [w'] a client wrote over a file that had the inode number
    of the one it had read, in [w0], and was not that file. *)
Definition overwrites_stranger (seen : list W) (w w' : W) : Prop :=
  ∃ w0 current v, w0 ∈ seen ∧ holds hyphenated w0 current ∧ replaced hyphenated w w' current v ∧
    ledger_of hyphenated w0 (lr_tournament_uuid v) ≠ ledger_of hyphenated w (lr_tournament_uuid v).
Definition inode_reused (seen : list W) : Prop := ∃ w w', w ∈ seen ∧ w' ∈ seen ∧ overwrites_stranger seen w w'.

(** ** The ledger only advances *)

Definition recorded (w : W) (u : Uuid) (v : ClientLedgerRecord) : Prop :=
  ∃ id bytes, ledger_of hyphenated w u = Some (id, bytes) ∧ from_slice bytes = Some v.

Definition advances (w w' : W) : Prop := ∀ u v, recorded w u v → ∃ v', recorded w' u v' ∧ later v v'.

#[local] Instance advances_preorder : PreOrder advances.
Proof.
  split; [by intros w u v Hv; exists v|]. intros w1 w2 w3 H12 H23 u v Hv.
  destruct (H12 u v Hv) as (v2 & Hv2 & Hl2), (H23 u v2 Hv2) as (v3 & Hv3 & Hl3).
  exists v3. split; [done|by transitivity v2].
Qed.

Lemma recorded_unique w u v v' : recorded w u v → recorded w u v' → v = v'.
Proof. intros (id & b & Hb & Hv) (id' & b' & Hb' & Hv'). simplify_eq. congruence. Qed.

Lemma holds_recorded w e : holds hyphenated w e → recorded w (lr_tournament_uuid (sj_value e)) (sj_value e).
Proof. intros (b & Hb & Hv). by exists (sj_identity e), b. Qed.

Lemma unchanged_advances w w' : unchanged hyphenated w w' → advances w w'.
Proof. intros Hs u v (id & b & Hb & Hv). exists v. split; [|done]. exists id, b. by rewrite Hs. Qed.

Lemma written_recorded w w' v : written hyphenated w w' v → recorded w' (lr_tournament_uuid v) v.
Proof. intros [_ [id Hh]]. by apply holds_recorded in Hh. Qed.

Lemma written_advances w w' v :
  written hyphenated w w' v → (∀ v0, recorded w (lr_tournament_uuid v) v0 → later v0 v) → advances w w'.
Proof.
  intros Hw Hv0 u v1 Hv1. destruct (decide (u = lr_tournament_uuid v)) as [->|Hu].
  - exists v. split; [by eapply written_recorded|by apply Hv0].
  - destruct Hw as [Hw _]. exists v1. split; [|done]. destruct Hv1 as (id & b & Hb & Hv1). exists id, b. by rewrite Hw.
Qed.

Lemma created_advances w w' v : created hyphenated w w' v → advances w w'.
Proof. intros (Hw & Hnone & _). eapply written_advances; [done|]. intros v0 (id & b & Hb & _). congruence. Qed.

(** A client that knew the record it writes over wrote over that record, or over a file that has
    taken its inode number. *)
Lemma replaced_known seen w w0 w' current v :
  w0 ∈ seen → holds hyphenated w0 current → replaced hyphenated w w' current v →
  overwrites_stranger seen w w' ∨ recorded w (lr_tournament_uuid v) (sj_value current).
Proof.
  intros Hw0 Hh Hr. destruct (decide (ledger_of hyphenated w0 (lr_tournament_uuid v) = ledger_of hyphenated w (lr_tournament_uuid v)))
    as [Heq|Hne]; [right|left; by exists w0, current, v].
  destruct Hh as (b0 & Hb0 & Hv0), Hr as (_ & _ & Hm).
  assert (lr_tournament_uuid (sj_value current) = lr_tournament_uuid v) as Hu by (apply later_tournament; by right).
  exists (sj_identity current), b0. split; [by rewrite -Heq -Hu|done].
Qed.

Lemma replaced_advances w w' current v :
  recorded w (lr_tournament_uuid v) (sj_value current) → replaced hyphenated w w' current v → advances w w'.
Proof.
  intros Hr (Hw & _ & Hm). eapply written_advances; [done|]. intros v0 Hv0. rewrite (recorded_unique _ _ _ _ Hv0 Hr). by right.
Qed.

(** ** What a step of a client does *)

(** A mutation of the ledger: its record is there or has been followed by one of a later
    generation. *)
Definition placed (w : W) (t : Mutation) : Prop :=
  is_requested (mu_action t) = true ∧ ∃ v, recorded w (mu_tournament t) v ∧
    (lr_generation v = mu_generation t ∧ lr_action v = mu_action t ∨ mu_generation t < lr_generation v).

Lemma placed_advances w w' t : advances w w' → placed w t → placed w' t.
Proof.
  intros Hadv (Hreq & v & Hv & Hg). split; [done|]. destruct (Hadv _ _ Hv) as (v' & Hv' & Hl). exists v'. split; [done|].
  pose proof (later_generation _ _ Hl). destruct Hg as [[Hg Ha]|Hg]; [|right; lia].
  rewrite -Ha in Hreq. destruct (later_requested _ _ Hl Hreq) as [<-|]; [by left|right; lia].
Qed.

Definition knows (seen : list W) (g : Known) : Prop := ∀ e, e ∈ g.1 → ∃ w, w ∈ seen ∧ holds hyphenated w e.

(** The mutation that a command records. *)
Definition new_tokens (g : Known) (c : Cmd) (r : answer c) : list Mutation :=
  match g.2 with None => option_list (gains g c r).2 | Some _ => [] end.

(** Its directory advances; what it learned is in the directory; and what it recorded there was
    not recorded before. *)
Definition effect (w w' : W) (g : Known) (c : Cmd) (r : answer c) : Prop :=
  sound c r ∧ advances w w' ∧ (∀ e, e ∈ (gains g c r).1 → e ∈ g.1 ∨ holds hyphenated w' e) ∧
  Forall (λ t, placed w' t ∧ ∀ t', placed w t' → mu_key t' ≠ mu_key t) (new_tokens g c r) ∧
  option_list (gains g c r).2 ++ sent_by c ≡ₚ new_tokens g c r ++ option_list g.2.

Lemma effect_learn w w' g c (r : answer c) :
  sound c r → advances w w' → (∀ e, e ∈ (gains g c r).1 → e ∈ g.1 ∨ holds hyphenated w' e) →
  (gains g c r).2 = g.2 → sent_by c = [] → effect w w' g c r.
Proof.
  intros Hs Ha Hk HT Hsent. unfold effect, new_tokens. rewrite HT Hsent app_nil_r. split_and!; [done..| |].
  - destruct (g.2); constructor.
  - by destruct (g.2).
Qed.

Lemma learn_learns w' g (r : result EvidenceError ClientLedgerEntry) :
  (∀ e, r = Ok e → holds hyphenated w' e) → ∀ e, e ∈ (learn g r).1 → e ∈ g.1 ∨ holds hyphenated w' e.
Proof. intros Hr e. destruct r as [e'|]; simpl; [|by left]. intros [->|He]%elem_of_cons; [right; by apply Hr|by left]. Qed.

Lemma learn_token g r : (learn g r).2 = g.2.
Proof. by destruct r. Qed.

Lemma create_effect w w' g root record (r : answer (CmdCreate root record)) :
  runs (CmdCreate root record) w r w' → effect w w' g (CmdCreate root record) r.
Proof.
  intros Hrun. simpl in Hrun. apply create_prepared_spec in Hrun; [|done..]. apply effect_learn; [| | |apply learn_token|done]; simpl.
  - by intros e ->; destruct Hrun as (? & _).
  - destruct r as [e|e]; [destruct Hrun as (_ & _ & Hc)|destruct Hrun as [?|Hc]; [by apply unchanged_advances|]];
      by apply created_advances with record.
  - apply learn_learns. by intros e ->; destruct Hrun as (_ & ? & _).
Qed.

Section known.
Context (seen : list W) (w : W) (g : Known).
Context (Hknows : knows seen g).

Lemma known_advances current v w' :
  current ∈ g.1 → replaced hyphenated w w' current v →
  overwrites_stranger seen w w' ∨ advances w w' ∧ recorded w (lr_tournament_uuid v) (sj_value current).
Proof.
  intros (w0 & Hw0 & Hh)%Hknows Hr. destruct (replaced_known seen w w0 w' current v) as [?|Hrec]; [done..|by left|right].
  split; [by eapply replaced_advances|done].
Qed.

Lemma mirror_effect root current s (r : answer (CmdMirror root current s)) w' :
  current ∈ g.1 → runs (CmdMirror root current s) w r w' →
  overwrites_stranger seen w w' ∨ effect w w' g (CmdMirror root current s) r.
Proof.
  intros Hin Hrun. simpl in Hrun. apply mirror_status_spec in Hrun; [|done..].
  assert (overwrites_stranger seen w w' ∨ advances w w') as [?|Hadv]; [|by left|right].
  { destruct r; [destruct Hrun as (_ & _ & Hr)|destruct Hrun as [?|Hr]; [right; by apply unchanged_advances|]];
      apply (known_advances _ _ _ Hin) in Hr as [?|[? _]]; by [left|right]. }
  apply effect_learn; [by intros e ->; destruct Hrun as (? & _)|done| |apply learn_token|done].
  apply learn_learns. by intros e ->; destruct Hrun as (_ & ? & _).
Qed.

Lemma write_effect root current next action generation (r : answer (CmdWrite root current next action generation)) w' :
  current ∈ g.1 → g.2 = None → runs (CmdWrite root current next action generation) w r w' →
  overwrites_stranger seen w w' ∨ effect w w' g (CmdWrite root current next action generation) r.
Proof.
  intros Hin HT Hrun. simpl in Hrun. apply write_before_action_spec in Hrun; [|done..]. unfold effect, new_tokens. rewrite HT. destruct r as [e|e]; simpl.
  - destruct Hrun as (Hv & Hh & Hr & Hreq & Hcur & <- & Hgen & Hgen').
    destruct (known_advances _ _ _ Hin Hr) as [?|[Hadv Hrec]]; [by left|right].
    split_and!; [by intros ? [= <-]|done| | |done].
    + intros e' [->|He']%elem_of_cons; [by right|by left].
    + apply Forall_singleton. split; [split; [done|]|].
      * exists next. split; [|by left]. destruct Hr as (Hw & _). by eapply written_recorded.
      * intros t' (Hreq' & v & Hv' & Hg) [= Hu Hgt]. rewrite Hu in Hv'. rewrite (recorded_unique _ _ _ _ Hv' Hrec) in Hg.
        destruct Hg as [[_ Ha]|Hg]; [congruence|lia].
  - assert (overwrites_stranger seen w w' ∨ advances w w') as [?|Hadv]; [|by left|right].
    { destruct Hrun as [?|Hr]; [right; by apply unchanged_advances|].
      apply (known_advances _ _ _ Hin) in Hr as [?|[? _]]; by [left|right]. }
    split_and!; [done..|by left| |]; by rewrite HT.
Qed.

Lemma runs_effect c (r : answer c) w' : allows g c → runs c w r w' → overwrites_stranger seen w w' ∨ effect w w' g c r.
Proof.
  destruct c as [| | | |request| |root record|root current next action generation|root current s|root u d|root u].
  all: intros Ha Hrun; try by (right; simpl in Hrun; subst w'; apply effect_learn; [done|reflexivity|by left|done|done]).
  - right. simpl in Ha, Hrun. subst w'. unfold effect, new_tokens. simpl. destruct (mutation_of request) as [t|].
    + rewrite Ha. split_and!; [done|reflexivity|by left|constructor|done].
    + split_and!; [done|reflexivity|by left| |rewrite app_nil_r]; by destruct g.2.
  - right. by apply create_effect.
  - destruct Ha. by apply write_effect.
  - by apply mirror_effect.
  - right. apply read_verified_spec in Hrun as [Hsame Hr]. apply effect_learn; [done|by apply unchanged_advances| |apply learn_token|done].
    apply learn_learns. intros e He. by apply Hr.
  - right. apply read_tournament_spec in Hrun as [Hsame Hr]. apply effect_learn; [|by apply unchanged_advances| |by destruct r|done].
    + intros t Ht. by apply Hr in Ht as (_ & ? & _).
    + intros e. destruct r as [t|]; simpl; [|by left]. intros [->|He]%elem_of_cons; [right|by left]. by apply (Hr t).
Qed.
End known.

(** ** The invariant of the system *)

(** [gs] is what each client knows. *)
Record tracked (s : System) (gs : list Known) : Prop := {
  tr_safe : Forall2 (λ c g, safe g c.2 (promise c.1)) (sy_clients s) gs;
  tr_knows : Forall (knows (sy_seen s)) gs;
  tr_current : sy_dir s ∈ sy_seen s;
  tr_advances : Forall (λ w, advances w (sy_dir s)) (sy_seen s);
  tr_once : NoDup (mu_key <$> sy_sent s ++ omap snd gs);
  tr_placed : Forall (placed (sy_dir s)) (sy_sent s ++ omap snd gs);
}.

Lemma tokens_insert (gs : list Known) i g g' : gs !! i = Some g →
  ∃ rest, omap snd gs ≡ₚ option_list g.2 ++ rest ∧ omap snd (<[i:=g']> gs) ≡ₚ option_list g'.2 ++ rest.
Proof.
  intros Hi. exists (omap snd (take i gs) ++ omap snd (drop (S i) gs)).
  rewrite insert_take_drop; [|by eapply lookup_lt_Some]. split; [rewrite -{1}(take_drop_middle _ _ _ Hi)|].
  - rewrite omap_app /=. destruct g.2; simpl; [by rewrite Permutation_middle|done].
  - rewrite omap_app /=. destruct g'.2; simpl; [by rewrite Permutation_middle|done].
Qed.

Lemma started_tracked w : tracked (started w) [].
Proof. split; simpl; [constructor|constructor|set_solver|by apply Forall_singleton|constructor|constructor]. Qed.

Lemma knows_more seen w g : knows seen g → knows (w :: seen) g.
Proof. intros Hg e He. destruct (Hg e He) as (w0 & Hw0 & Hh). exists w0. split; [by right|done]. Qed.

Lemma start_tracked s gs o : tracked s gs →
  tracked {| sy_dir := sy_dir s; sy_clients := sy_clients s ++ [(o, program o)]; sy_sent := sy_sent s; sy_seen := sy_seen s |}
    (gs ++ [([], None)]).
Proof.
  intros [Hsafe Hknows Hcur Hadv Honce Hplaced]. split; simpl; [| |done|done|..].
  - apply Forall2_app; [done|]. apply Forall2_cons. split; [apply program_safe|constructor].
  - apply Forall_app. split; [done|]. apply Forall_singleton. intros e He. simpl in He. set_solver.
  - by rewrite omap_app /= app_nil_r.
  - by rewrite omap_app /= app_nil_r.
Qed.

(** New tokens have keys of their own. *)
Lemma tokens_fresh w w' new old :
  advances w w' → NoDup (mu_key <$> old) → Forall (placed w) old → (length new ≤ 1)%nat →
  Forall (λ t, placed w' t ∧ ∀ t', placed w t' → mu_key t' ≠ mu_key t) new →
  NoDup (mu_key <$> new ++ old) ∧ Forall (placed w') (new ++ old).
Proof.
  intros Hadv Hnd Hold Hlen Hnew. assert (Forall (placed w') old) as Hold'.
  { eapply Forall_impl; [done|]. intros t. by apply placed_advances. }
  destruct new as [|t [|]]; [done| |simpl in Hlen; lia]. apply Forall_singleton in Hnew as [Ht Hfresh]. simpl. split.
  - apply NoDup_cons. split; [|done]. intros (t' & Ht' & Hin)%list_elem_of_fmap.
    eapply Forall_forall in Hold; [|exact Hin]. by apply (Hfresh t').
  - by constructor.
Qed.

Lemma command_tracked s gs i o c k r w' :
  tracked s gs → sy_clients s !! i = Some (o, Do c k) → runs c (sy_dir s) r w' →
  overwrites_stranger (sy_seen s) (sy_dir s) w' ∨
  ∃ gs', tracked {| sy_dir := w'; sy_clients := <[i := (o, k r)]> (sy_clients s);
                    sy_sent := sy_sent s ++ sent_by c; sy_seen := w' :: sy_seen s |} gs'.
Proof.
  intros [Hsafe Hknows Hcur Hadv Honce Hplaced] Hi Hrun.
  destruct (Forall2_lookup_l _ _ _ _ _ Hsafe Hi) as (g & Hg & Hc & Hk). simpl in Hc, Hk.
  pose proof (proj1 (Forall_lookup _ _) Hknows _ _ Hg) as Hkg.
  destruct (runs_effect _ (sy_dir s) _ Hkg _ _ _ Hc Hrun) as [?|(Hs & Ha & Hlearn & Hnew & Hperm)]; [by left|right].
  set (g' := gains g c r) in *. destruct (tokens_insert gs i g g' Hg) as (rest & Hold & Hnext).
  assert (sy_sent s ++ sent_by c ++ omap snd (<[i:=g']> gs) ≡ₚ new_tokens g c r ++ sy_sent s ++ omap snd gs) as Htokens.
  { rewrite Hnext Hold (Permutation_app_swap_app (sent_by c)) (Permutation_app_swap_app (sy_sent s))
      (Permutation_app_swap_app (sy_sent s) (sent_by c)) (assoc_L (++)) Hperm -(assoc_L (++)).
    by rewrite (Permutation_app_swap_app (sy_sent s)). }
  destruct (tokens_fresh _ _ (new_tokens g c r) _ Ha Honce Hplaced) as [Honce' Hplaced'].
  { unfold new_tokens. destruct g.2, (gains g c r).2; simpl; lia. }
  { done. }
  exists (<[i:=g']> gs). split; simpl; [| |by left|..].
  - by apply Forall2_insert; [|apply Hk].
  - apply Forall_insert.
    + eapply Forall_impl; [done|]. intros g0. apply knows_more.
    + intros e [He|He]%Hlearn; [by apply (knows_more _ w' _ Hkg)|]. exists w'. split; [by left|done].
  - apply Forall_cons. split; [done|]. eapply Forall_impl; [done|]. intros w0 Hw0. by transitivity (sy_dir s).
  - by rewrite -(assoc_L (++)) Htokens.
  - by rewrite -(assoc_L (++)) Htokens.
Qed.

Definition reachable (s : System) : Prop := ∃ w, rtc sys_step (started w) s.

Lemma step_seen s s' : sys_step s s' → ∃ new, sy_seen s' = new ++ sy_seen s.
Proof. intros [|]; simpl; [by exists []|by exists [w']]. Qed.

Lemma inode_reused_more new seen : inode_reused seen → inode_reused (new ++ seen).
Proof.
  intros (w & w' & Hw & Hw' & w0 & current & v & Hw0 & Hrest).
  exists w, w'. split_and!; [apply elem_of_app; by right..|]. exists w0, current, v. split; [apply elem_of_app; by right|done].
Qed.

(** Distinct files have distinct inode numbers: no client is misled. *)
Definition inodes_kept (seen : list W) : Prop :=
  ∀ w1 w2 u id b1 b2, w1 ∈ seen → w2 ∈ seen →
    ledger_of hyphenated w1 u = Some (id, b1) → ledger_of hyphenated w2 u = Some (id, b2) → b1 = b2.

Lemma inodes_kept_not_reused seen : inodes_kept seen → ¬ inode_reused seen.
Proof.
  intros Hkept (w & w' & Hw & _ & w0 & current & v & Hw0 & (b0 & Hb0 & _) & (_ & Hid & Hm) & Hne). apply Hne.
  assert (lr_tournament_uuid (sj_value current) = lr_tournament_uuid v) as Hu by (apply later_tournament; by right).
  apply fmap_Some in Hid as ([id b] & Hb & Hid). simpl in Hid. subst id. rewrite Hu in Hb0.
  by rewrite Hb0 Hb (Hkept w0 w _ _ _ _ Hw0 Hw Hb0 Hb).
Qed.

Lemma reachable_tracked s : reachable s → inode_reused (sy_seen s) ∨ ∃ gs, tracked s gs.
Proof.
  intros [w Hs]. revert s Hs. apply (rtc_ind_r (λ s, inode_reused (sy_seen s) ∨ ∃ gs, tracked s gs)).
  { right. exists []. apply started_tracked. }
  intros s s' _ Hstep [Hre|[gs Hgs]].
  { left. destruct (step_seen _ _ Hstep) as [new ->]. by apply inode_reused_more. }
  destruct Hstep as [s o|s i o c k r w' Hi Hrun].
  - right. eexists. by apply start_tracked.
  - destruct (command_tracked _ _ _ _ _ _ _ _ Hgs Hi Hrun) as [(w0 & current & v & Hw0 & Hst)|?]; [left|by right].
    exists (sy_dir s), w'. simpl. split_and!; [right; apply tr_current with gs; done|by left|].
    exists w0, current, v. split; [by right|done].
Qed.

(** ** The theorems *)



End system.
