(* ===== verification/LedgerScenario.v ===== *)
(** Clients of one tournament on the simulated directory of SimKernel.v: a run that is armed and
    whose answer is lost, two clients that finalize it at the same time, one of which crashes,
    and one that rolls back what has been selected.

    A second store, whose files take the two inode numbers in turn, shows what a client with an
    old entry does when its inode number has come back. *)
From stdpp Require Import list relations.
From S2P Require Import Prelude Utf8 Base64 Protocol EvidenceFs SimKernel TournamentRecord.
From S2P Require Import Ledger LedgerClient LedgerRuns LedgerSystem.

(** ** Schedules *)

Inductive Reply : Set :=
  | ReplyRoots (r : ClientRootIdentities) | ReplyRoot (r : DurableDirectoryIdentity) | ReplySocket | ReplyVersion (v : Z)
  | ReplyStatus (s : SpeculationStatus) | ReplyLost | ReplyClock (unix_ms now_ms : Z) | ReplyLedger.

Section schedule.
Context {W : Type} `{RecordStore W} `{JsonCodec ClientLedgerRecord}.
Context (hyphenated : Uuid → str).

Definition give (c : Cmd) (a : Reply) (w : W) : option (answer c * W) :=
  match c as c return option (answer c * W) with
  | CmdOpenRoots _ _ _ _ _ => match a with ReplyRoots r => Some (Ok r, w) | _ => None end
  | CmdOpenLedger _ => match a with ReplyRoot r => Some (Ok r, w) | _ => None end
  | CmdSocket => match a with ReplySocket => Some (Ok tt, w) | _ => None end
  | CmdProtocol => match a with ReplyVersion v => Some (RpcOuter true None (Some v), w) | _ => None end
  | CmdRequest _ =>
    match a with
    | ReplyStatus s => Some (RpcOuter true None (Some s), w)
    | ReplyLost => Some (RpcLost, w)
    | _ => None
    end
  | CmdClock => match a with ReplyClock u t => Some ({| ck_unix_ms := Some u; ck_now_ms := t |}, w) | _ => None end
  | CmdCreate root record => Some (create_prepared hyphenated root record w)
  | CmdWrite root current next action generation => Some (write_before_action hyphenated root current next action generation w)
  | CmdMirror root current status => Some (mirror_status hyphenated root current status w)
  | CmdVerified root u d => Some (read_verified hyphenated root u d w)
  | CmdTournament root u => Some (read_tournament hyphenated root u w)
  end.

Lemma give_runs c a w r w' : give c a w = Some (r, w') → runs hyphenated c w r w'.
Proof. destruct c; simpl; try (by intros [= ->]); destruct a; naive_solver. Qed.

Inductive Event : Set := Start (o : Operation) | Step (i : nat) (a : Reply).

Definition take (e : Event) (s : System) : option System :=
  match e with
  | Start o => Some {| sy_dir := sy_dir s; sy_clients := sy_clients s ++ [(o, program o)];
                       sy_sent := sy_sent s; sy_seen := sy_seen s |}
  | Step i a =>
    match sy_clients s !! i with
    | Some (o, Do c k) =>
      '(r, w') ← give c a (sy_dir s);
      Some {| sy_dir := w'; sy_clients := <[i := (o, k r)]> (sy_clients s);
              sy_sent := sy_sent s ++ sent_by c; sy_seen := w' :: sy_seen s |}
    | _ => None
    end
  end.

Fixpoint take_all (es : list Event) (s : System) : option System :=
  match es with
  | [] => Some s
  | e :: es => s ← take e s; take_all es s
  end.

Lemma take_step e s s' : take e s = Some s' → sys_step hyphenated s s'.
Proof.
  destruct e as [o|i a]; simpl; [intros [= <-]; constructor|].
  destruct (sy_clients s !! i) as [[o [|c k|]]|] eqn:Hi; [done| |done..].
  destruct (give c a (sy_dir s)) as [[r w']|] eqn:Hg; [|done]. intros [= <-].
  eapply ClientCommand; [exact Hi|by eapply give_runs].
Qed.

Lemma take_all_reachable es w s : take_all es (started w) = Some s → reachable hyphenated s.
Proof.
  intros Hs. exists w. revert Hs. generalize (started w). induction es as [|e es IH]; simpl; intros s0; [intros [= ->]; constructor|].
  destruct (take e s0) as [s1|] eqn:He; [|done]. intros Hs. eapply rtc_l; [by eapply take_step|by apply IH].
Qed.
End schedule.

(** ** UUIDs *)

(** A text for each number, in place of the [Display] of a UUID. *)
Definition sample_uuid_text (u : Uuid) : str := (if u <? 0 then [0x2d] else []) ++ replicate (Z.abs_nat u) 0x30.

Lemma sample_uuid_chars u : Forall (λ c, uuid_char c = true) (sample_uuid_text u).
Proof. apply Forall_app_2; [destruct (u <? 0); by repeat constructor|]. by apply Forall_replicate. Qed.

Lemma sample_uuid_inj u v : sample_uuid_text u = sample_uuid_text v → u = v.
Proof.
  unfold sample_uuid_text. intros Ht. destruct (u <? 0) eqn:Hu, (v <? 0) eqn:Hv; simpl in Ht.
  - injection Ht as Ht%(f_equal length). rewrite !length_replicate in Ht. lia.
  - destruct (Z.abs_nat v); discriminate.
  - destruct (Z.abs_nat u); discriminate.
  - apply (f_equal length) in Ht. rewrite !length_replicate in Ht. lia.
Qed.

(** ** The clients *)

Definition closed_candidate (c : SpeculationCandidateStatus) : SpeculationCandidateStatus :=
  {| candidate_uuid := candidate_uuid c; cs_index := cs_index c; cs_ready := true; ready_elapsed_ns := None;
     go_received := true; go_received_elapsed_ns := None; result_accepted := true; cs_exit_success := Some true;
     exit_category := None; cs_elapsed_ns := Some 1; cs_output_bytes := Some 1; eligible := true;
     cleanup := {| runner_ack := true; bwrap_reaped := true; sync_eof := true; cgroup_empty := true; managed_tombstone := true |} |}.

Definition observed (phase : SpeculationPhase) (generation : Z) : SpeculationStatus :=
  {| st_schema_version := StatusV1; tournament_uuid := 3; daemon_instance_uuid := 2; st_phase := phase;
     st_generation := generation; lease_deadline_unix_ms := 9000; reason_code := None;
     candidates := Array2 (closed_candidate (sample_waiting 0)) (closed_candidate (sample_waiting 1));
     fixed_score_order := SPECULATION_SCORE_ORDER;
     selected_index := if selection_required phase then Some 1 else None;
     rollback_required := is_rollback_only phase; error_codes := [] |}.

Definition client_roots : ClientRootIdentities :=
  {| cr_source := sample_identity; cr_candidates := Array2 sample_identity sample_identity;
     cr_ledger_root := sample_identity; cr_cgroup_root := sample_identity |}.

Definition ledger_record (s : SpeculationStatus) (a : LedgerAction) : ClientLedgerRecord :=
  requested_record (prepared_ledger_record s client_roots) a.

#[export] Instance sample_ledgers : JsonCodec ClientLedgerRecord :=
  table_codec [ledger_record (observed Prepared 1) LedgerPrepared; ledger_record (observed Prepared 1) ArmRequested;
    ledger_record (observed PendingFinalize 3) StatusMirrored; ledger_record (observed PendingFinalize 3) FinalizeRequested;
    ledger_record (observed Selected 5) StatusMirrored; ledger_record (observed FinalizingLoser 4) StatusMirrored].

Definition run_operation : Operation := OpRun 9 (lit "/s") (lit "/a") (lit "/b") (lit "/l") (lit "/g") 1000 [lit "/bin/true"].

(** The replies to a client until the daemon has been asked for the status. *)
Definition opening (i : nat) (s : SpeculationStatus) : list Event :=
  Step i <$> [ReplyRoot sample_identity; ReplyLedger; ReplySocket; ReplyVersion SPECULATION_PROTOCOL_VERSION; ReplyStatus s].

Definition schedule : list Event :=
  [Start run_operation] ++
  (Step 0 <$> [ReplyRoots client_roots; ReplySocket; ReplyVersion SPECULATION_PROTOCOL_VERSION; ReplyStatus (observed Prepared 1);
    ReplyLedger; ReplyLedger; ReplyLedger; ReplyLedger; ReplyLost; ReplyClock 8000 1; ReplyStatus (observed PendingFinalize 3);
    ReplyLedger; ReplyLedger; ReplyClock 8000 2]) ++
  [Start (OpFinalize 9 (lit "/l") 3); Start (OpFinalize 9 (lit "/l") 3)] ++
  opening 1 (observed PendingFinalize 3) ++ opening 2 (observed PendingFinalize 3) ++
  (Step 1 <$> [ReplyLedger; ReplyLedger]) ++ [Step 2 ReplyLedger; Step 1 ReplyLost; Start (OpRollback 9 (lit "/l") 3)] ++
  opening 3 (observed Selected 5) ++ (Step 3 <$> [ReplyLedger; ReplyLedger]).

#[export] Instance ledger_store : RecordStore sim := directory_store (λ _, true) sim_directory.

Definition in_system {W} (w : W) (s : option System) : System := default (started w) s.

Definition settled : System := in_system (sim_empty []) (take_all sample_uuid_text schedule (started (sim_empty []))).

(** The result of each client, and whether it was still at it. *)
Definition outcomes {W} (s : System (W := W)) : list (option (result SpeculationClientError SpeculationPhase)) :=
  (λ c, match snd c with
        | Done (Ok status) => Some (Ok (st_phase status))
        | Done (Err e) => Some (Err e)
        | _ => None
        end) <$> sy_clients s.

Definition stored_ledger (w : sim) (u : Uuid) : option ClientLedgerRecord :=
  '(_, bytes) ← ledger_of sample_uuid_text w u; from_slice bytes.

Definition ended {W} (s : System (W := W)) (i : nat) : option (Operation * result SpeculationClientError SpeculationStatus) :=
  match sy_clients s !! i with Some (o, Done r) => Some (o, r) | _ => None end.

Lemma ended_client {W} (s : System (W := W)) i o r : ended s i = Some (o, r) → sy_clients s !! i = Some (o, Done r).
Proof. unfold ended. destruct (sy_clients s !! i) as [[? []]|]; naive_solver. Qed.

Example settled_run : outcomes settled = [Some (Ok PendingFinalize); None; Some (Err CeEvidenceUnavailable); Some (Ok Selected)].
Proof. vm_compute. reflexivity. Qed.

Example settled_sent : sy_sent settled =
  [{| mu_tournament := 3; mu_generation := 1; mu_action := ArmRequested |};
   {| mu_tournament := 3; mu_generation := 3; mu_action := FinalizeRequested |}].
Proof. vm_compute. reflexivity. Qed.

Example settled_ledger :
  stored_ledger (sy_dir settled) 3 = Some (ledger_record (observed Selected 5) StatusMirrored).
Proof. vm_compute. reflexivity. Qed.

(** ** No inode number of the run is used twice *)

Definition same_bytes (w1 w2 : sim) : bool :=
  forallb (λ p, match sim_names w2 !! p.1 with
                | Some f => negb (f =? p.2) || bool_decide (default [] (sim_contents w1 !! f) = default [] (sim_contents w2 !! f))
                | None => true
                end) (map_to_list (sim_names w1)).

Lemma same_bytes_kept ws :
  forallb (λ w1, forallb (same_bytes w1) ws) ws = true → inodes_kept sample_uuid_text ws.
Proof.
  rewrite forallb_forall. intros Hall w1 w2 u id b1 b2 H1 H2 Hb1 Hb2.
  specialize (Hall w1 (proj1 (list_elem_of_In _ _) H1)). rewrite forallb_forall in Hall.
  specialize (Hall w2 (proj1 (list_elem_of_In _ _) H2)). unfold same_bytes in Hall. rewrite forallb_forall in Hall.
  apply fmap_Some in Hb1 as (f1 & Hf1 & [= -> ->]). apply fmap_Some in Hb2 as (f2 & Hf2 & [= Hf ->]). subst f2.
  simpl in Hf1, Hf2. specialize (Hall (leaf_of sample_uuid_text u, f1)). simpl in Hall.
  rewrite Hf2 Z.eqb_refl in Hall. simpl in Hall. eapply bool_decide_eq_true, Hall, list_elem_of_In, elem_of_map_to_list, Hf1.
Qed.

Lemma settled_inodes : inodes_kept sample_uuid_text (sy_seen settled).
Proof. apply same_bytes_kept. vm_compute. reflexivity. Qed.

Lemma in_system_reachable {W} `{RecordStore W} (w : W) es :
  let s := take_all sample_uuid_text es (started w) in
  match s with Some _ => True | None => False end → reachable sample_uuid_text (in_system w s).
Proof.
  simpl. destruct (take_all _ _ _) as [s|] eqn:Hs; [|done]. intros _. by eapply take_all_reachable.
Qed.

Lemma settled_reachable : reachable sample_uuid_text settled.
Proof. apply in_system_reachable. vm_compute. exact I. Qed.

Lemma settled_distinct : ¬ inode_reused sample_uuid_text (sy_seen settled).
Proof. apply inodes_kept_not_reused, settled_inodes. Qed.

(** ** The theorems applied to the run *)




Lemma poll_has_no_deadline_witness :
  let entry := {| sj_value := ledger_record (observed FinalizingLoser 4) StatusMirrored; sj_identity := sim_file_ident 2 |} in
  steady (observed FinalizingLoser 4) 50 1000000 (poll_to_end 1000 sample_identity entry finalize_stops) = None.
Proof.
  apply (poll_has_no_deadline (observed FinalizingLoser 4) 50); [unfold CONTROL_ACK_TIMEOUT; lia|vm_compute; reflexivity..].
Defined.

(** ** A file system that reuses inode numbers *)

(** Records by name, and how many have been written: the files take the inode numbers 0 and 1 in
    turn. *)
Record recycling : Type := { ry_records : gmap leaf_name (FileIdentity * list byte); ry_count : Z }.

Definition ry_write {T} `{JsonCodec T} (leaf : leaf_name) (v : T) : M recycling EvidenceError (StoredJson T) := λ w,
  match to_vec v with
  | None => (Err Corrupt, w)
  | Some bytes =>
    let id := {| fi_dev := 1; fi_ino := ry_count w mod 2 |} in
    (Ok {| sj_value := v; sj_identity := id |},
     {| ry_records := <[leaf := (id, bytes)]> (ry_records w); ry_count := ry_count w + 1 |})
  end.

Definition ry_create {T} `{JsonCodec T} (leaf : leaf_name) (v : T) (cap : Z) : M recycling EvidenceError (StoredJson T) := λ w,
  match ry_records w !! leaf with Some _ => (Err AlreadyExists, w) | None => ry_write leaf v w end.

Definition ry_replace {T} `{JsonCodec T} (leaf : leaf_name) (expected : FileIdentity) (v : T) (cap : Z)
    : M recycling EvidenceError (StoredJson T) := λ w,
  match ry_records w !! leaf with
  | Some (id, _) => if bool_decide (id = expected) then ry_write leaf v w else (Err Stale, w)
  | None => (Err Missing, w)
  end.

Definition ry_read {T} `{JsonCodec T} (leaf : leaf_name) (cap : Z) : M recycling EvidenceError (StoredJson T) := λ w,
  match ry_records w !! leaf with
  | Some (id, bytes) =>
    match from_slice bytes with Some v => (Ok {| sj_value := v; sj_identity := id |}, w) | None => (Err Corrupt, w) end
  | None => (Err Missing, w)
  end.

Lemma ry_write_spec {T} `{JsonCodec T} leaf (v : T) (identity : option FileIdentity → Prop) w r w' :
  identity (fst <$> ry_records w !! leaf) → ry_write leaf v w = (r, w') →
  (∀ l, l ≠ leaf → ry_records w' !! l = ry_records w !! l) ∧
  write_post identity (ry_records w !! leaf) (ry_records w' !! leaf) v r.
Proof.
  intros Hid. unfold ry_write. destruct (to_vec v) as [bytes|] eqn:Hv; intros [= <- <-]; [|split; [done|by left]].
  simpl. split; [by intros l Hl; rewrite lookup_insert_ne|]. rewrite lookup_insert_eq. split_and!; [done..|by exists bytes].
Qed.

#[export] Instance recycling_store : RecordStore recycling.
Proof.
  refine {| rs_record w l := ry_records w !! l; rs_is_temp _ := false; rs_create T _ := ry_create; rs_replace T _ := ry_replace;
            rs_read T _ := ry_read; rs_list w := (Ok (map_to_list (ry_records w)).*1, w) |}; [done|..].
  - intros T ? leaf v cap w r w'. unfold ry_create. destruct (ry_records w !! leaf) as [p|] eqn:Hp.
    + intros [= <- <-]. split; [done|]. by left.
    + intros Hw. rewrite -Hp. apply (ry_write_spec _ _ (λ id, id = None)) in Hw as [? ?]; [by split; [intros; auto|]|by rewrite Hp].
  - intros T ? leaf expected v cap w r w' _. unfold ry_replace. destruct (ry_records w !! leaf) as [[id b]|] eqn:Hp.
    + case_bool_decide as Hid; [|intros [= <- <-]; split; [done|by left]].
      intros Hw. rewrite -Hp. apply (ry_write_spec _ _ (λ i, i = Some expected)) in Hw as [? ?]; [by split; [intros; auto|]|].
      by rewrite Hp /= Hid.
    + intros [= <- <-]. split; [done|by left].
  - intros T ? leaf cap w r w'. unfold ry_read. destruct (ry_records w !! leaf) as [[id b]|]; [|by intros [= <- <-]].
    destruct (from_slice b) as [v|] eqn:Hb; intros [= <- <-]; [|done]. split; [done|]. intros ? [= <-]. by exists b.
  - intros w r w' [= <- <-]. split; [done|]. intros names [= <-] l _ _ _. rewrite list_elem_of_fmap. split.
    + intros ([l' p] & -> & Hl%elem_of_map_to_list). by exists p.
    + intros [p Hp]. exists (l, p). split; [done|]. by apply elem_of_map_to_list.
Defined.

(** Two clients have read the ledger.  The first finalizes the tournament, and the ledger follows it
    to generation 4 in a file whose inode number is the one that both have read: the second
    writes over it, takes the ledger back to generation 3, and finalizes generation 3 again. *)
Definition recycled : System :=
  in_system {| ry_records := ∅; ry_count := 0 |} (take_all sample_uuid_text (
    [Start run_operation] ++
    (Step 0 <$> [ReplyRoots client_roots; ReplySocket; ReplyVersion SPECULATION_PROTOCOL_VERSION; ReplyStatus (observed Prepared 1);
      ReplyLedger; ReplyLedger; ReplyLedger; ReplyLedger; ReplyLost; ReplyClock 8000 1; ReplyStatus (observed PendingFinalize 3);
      ReplyLedger; ReplyLedger; ReplyClock 8000 2]) ++
    [Start (OpFinalize 9 (lit "/l") 3); Start (OpFinalize 9 (lit "/l") 3)] ++
    opening 1 (observed PendingFinalize 3) ++ opening 2 (observed PendingFinalize 3) ++
    (Step 1 <$> [ReplyLedger; ReplyLedger; ReplyStatus (observed FinalizingLoser 4); ReplyLedger; ReplyLedger]) ++
    (Step 2 <$> [ReplyLedger; ReplyLedger; ReplyLost])) (started {| ry_records := ∅; ry_count := 0 |})).

Example recycled_reachable : reachable sample_uuid_text recycled.
Proof. apply in_system_reachable. vm_compute. exact I. Qed.

Example recycled_inode_sends_twice : sy_sent recycled =
  [{| mu_tournament := 3; mu_generation := 1; mu_action := ArmRequested |};
   {| mu_tournament := 3; mu_generation := 3; mu_action := FinalizeRequested |};
   {| mu_tournament := 3; mu_generation := 3; mu_action := FinalizeRequested |}].
Proof. vm_compute. reflexivity. Qed.
