(* ===== verification/AttachOutput.v ===== *)
(** What an attached client looks for in the output that it passes on to its terminal
    ([TerminalOutputTracker], [client.rs]): the kitty keyboard protocol, the alternate screen and
    the cursor, and what can damage its status row; and what it writes when it detaches.

    Each chunk of output is scanned by itself, and with the tail of the former ones for the
    sequences that began there. *)
From S2P Require Import Prelude Utf8 Text.

(** ** Parameters of control sequences *)

Definition csi_first_step (acc : result (option Z) (Z * bool)) (byte : byte) : result (option Z) (Z * bool) :=
  '(value, seen_digit) ← acc;
  if within 0x30 0x39 byte then Ok (saturating_add u16_max (Z.min u16_max (value * 10)) (byte - 0x30), true)
  else if byte =? 0x3b then Err (Some (if seen_digit : bool then value else 0))
  else Err None.

(** The value at an early return is the error of the loop. *)
Definition csi_first_numeric_param (params : list byte) : option Z :=
  match foldl csi_first_step (Ok (0, false)) params with
  | Ok (value, seen_digit) => Some (if seen_digit : bool then value else 0)
  | Err early => early
  end.

Definition csi_numeric_step (acc : option (list (option Z) * Z * bool)) (byte : byte) : option (list (option Z) * Z * bool) :=
  '(out, current, seen_digit) ← acc;
  if within 0x30 0x39 byte then Some (out, saturating_add u16_max (Z.min u16_max (current * 10)) (byte - 0x30), true)
  else if byte =? 0x3b then Some (out ++ [if seen_digit : bool then Some current else None], 0, false)
  else None.

Definition csi_numeric_params (params : list byte) : option (list (option Z)) :=
  '(out, current, seen_digit) ← foldl csi_numeric_step (Some ([], 0, false)) params;
  Some (out ++ [if seen_digit : bool then Some current else None]).

Definition csi_decstbm_touches_status_area (params : list byte) (status_scroll_bottom : option Z) : bool :=
  if bool_decide (params = []) then true
  else match status_scroll_bottom with
  | None => true
  | Some status_scroll_bottom =>
    match csi_numeric_params params with
    | None => true
    | Some params =>
      if bool_decide (params = []) || forallb (λ param, default 0 param =? 0) params then true
      else match params !! 1%nat with
      | Some (Some bottom) => if bottom =? 0 then true else status_scroll_bottom <? bottom
      | _ => true
      end
    end
  end.

Definition csi_sequence_can_damage_status_area (final_byte : byte) (params : list byte) (status_scroll_bottom : option Z) : bool :=
  if final_byte =? 0x4a then is_none_or (csi_first_numeric_param params) (λ param, param <=? 3)
  else if final_byte =? 0x72 then csi_decstbm_touches_status_area params status_scroll_bottom
  else false.

Definition parse_csi_u_number (params : list byte) : option Z :=
  if bool_decide (params = []) || negb (forallb ascii_digit params) then None else parse_unsigned u32_max params.

Definition alt_screen_param_matches (params : list byte) : bool :=
  existsb (λ param, bool_decide (param ∈ [lit "47"; lit "1047"; lit "1049"])) (split_on 0x3b params).
Definition dectcem_param_matches (params : list byte) : bool :=
  existsb (λ param, bool_decide (param = lit "25")) (split_on 0x3b params).

(** ** The keyboard protocol *)

Definition i32_min : Z := -2147483648.
Definition i32_max : Z := 2147483647.

Record KeyboardProtocolRestoreState : Set := { kitty_push_depth : Z; kitty_direct_flags : Z }.
Definition KeyboardProtocolRestoreState_default : KeyboardProtocolRestoreState := {| kitty_push_depth := 0; kitty_direct_flags := 0 |}.

Definition MAX_KEYBOARD_PROTOCOL_RESTORE_POPS : Z := 16.

Definition with_depth (s : KeyboardProtocolRestoreState) (depth : Z) : KeyboardProtocolRestoreState :=
  {| kitty_push_depth := depth; kitty_direct_flags := kitty_direct_flags s |}.

Definition observe_kitty_push (s : KeyboardProtocolRestoreState) : KeyboardProtocolRestoreState :=
  with_depth s (Z.min (kitty_push_depth s + 1) MAX_KEYBOARD_PROTOCOL_RESTORE_POPS).

Definition observe_kitty_pop (s : KeyboardProtocolRestoreState) (count : Z) : KeyboardProtocolRestoreState :=
  if count <=? 0 then s else with_depth s (Z.max i32_min (Z.min i32_max (kitty_push_depth s - count))).

Record KeyboardProtocolDirectChange : Set := { dc_flags : Z; dc_mode : Z }.

Definition apply_direct (change : KeyboardProtocolDirectChange) (current : Z) : Z :=
  if dc_mode change =? 1 then dc_flags change
  else if dc_mode change =? 2 then Z.lor current (dc_flags change)
  else if dc_mode change =? 3 then Z.land current (Z.lnot (dc_flags change))
  else current.

Definition observe_kitty_direct (s : KeyboardProtocolRestoreState) (change : KeyboardProtocolDirectChange)
    : KeyboardProtocolRestoreState :=
  if 0 <? kitty_push_depth s then s
  else {| kitty_push_depth := kitty_push_depth s; kitty_direct_flags := apply_direct change (kitty_direct_flags s) |}.

Definition clamp (low high x : Z) : Z := Z.min high (Z.max low x).

Definition keyboard_protocol_pop_count (params : list byte) : option Z :=
  if bool_decide (params = []) then Some 1
  else if negb (forallb ascii_digit params) then None
  else count ← parse_unsigned i32_max params; Some (clamp 0 MAX_KEYBOARD_PROTOCOL_RESTORE_POPS count).

Definition keyboard_protocol_direct_change (params : list byte) : option KeyboardProtocolDirectChange :=
  let parts := split_on 0x3b params in
  flags ← parse_csi_u_number (default [] (parts !! 0%nat));
  mode ← match parts !! 1%nat with Some part => parse_csi_u_number part | None => Some 1 end;
  if negb (within 1 3 mode) then None else Some {| dc_flags := flags; dc_mode := mode |}.

(** ** The scans *)

Definition is_final (byte : byte) : bool := within 0x40 0x7e byte.

(** The loop [while j < scan_end] that looks for the final byte: its index. *)
Fixpoint find_final (bytes : list byte) (rounds j : nat) : option nat :=
  match rounds with
  | O => None
  | S rounds =>
    match bytes !! j with
    | Some byte => if is_final byte then Some j else find_final bytes rounds (S j)
    | None => None
    end
  end.

Definition slice (bytes : list byte) (from to : nat) : list byte := take (to - from) (drop from bytes).

Definition observe_kitty (kind : byte) (params : list byte) (s : KeyboardProtocolRestoreState) : KeyboardProtocolRestoreState :=
  if kind =? 0x3e then observe_kitty_push s
  else if kind =? 0x3c then
    match keyboard_protocol_pop_count params with Some count => observe_kitty_pop s count | None => s end
  else if kind =? 0x3d then
    match keyboard_protocol_direct_change params with Some change => observe_kitty_direct s change | None => s end
  else s.

Fixpoint keyboard_loop (bytes : list byte) (min_final_index rounds i : nat) (s : KeyboardProtocolRestoreState)
    : KeyboardProtocolRestoreState :=
  match rounds with
  | O => s
  | S rounds =>
    if negb (i + 3 <? length bytes)%nat then s
    else if (0 <? min_final_index)%nat && (min_final_index <=? i)%nat then s
    else if negb (bytes !!! i =? 0x1b) || negb (bytes !!! S i =? 0x5b) then keyboard_loop bytes min_final_index rounds (S i) s
    else
      let kind := bytes !!! (i + 2)%nat in
      if negb (kind =? 0x3e) && negb (kind =? 0x3c) && negb (kind =? 0x3d) then keyboard_loop bytes min_final_index rounds (S i) s
      else
        let scan_end := Nat.min (length bytes) (i + 64) in
        let s := match find_final bytes (scan_end - (i + 3)) (i + 3) with
                 | Some j =>
                   if (bytes !!! j =? 0x75) && (min_final_index <=? j)%nat then observe_kitty kind (slice bytes (i + 3) j) s else s
                 | None => s
                 end in
        keyboard_loop bytes min_final_index rounds (S i) s
  end.

Definition observe_keyboard_protocol_sequences_after (bytes : list byte) (min_final_index : nat)
    (s : KeyboardProtocolRestoreState) : KeyboardProtocolRestoreState :=
  keyboard_loop bytes min_final_index (length bytes) 0 s.
Definition observe_keyboard_protocol_sequences (bytes : list byte) (s : KeyboardProtocolRestoreState)
    : KeyboardProtocolRestoreState :=
  observe_keyboard_protocol_sequences_after bytes 0 s.

Record AltScreenState : Set := { alt_active : bool; cursor_visible : bool }.
Definition AltScreenState_default : AltScreenState := {| alt_active := false; cursor_visible := true |}.

Definition observe_mode (set : bool) (params : list byte) (s : AltScreenState) : AltScreenState :=
  {| alt_active := if alt_screen_param_matches params then set else alt_active s;
     cursor_visible := if dectcem_param_matches params then set else cursor_visible s |}.

Fixpoint alt_screen_loop (bytes : list byte) (min_final_index rounds i : nat) (s : AltScreenState) : AltScreenState :=
  match rounds with
  | O => s
  | S rounds =>
    if negb (i + 3 <? length bytes)%nat then s
    else if (0 <? min_final_index)%nat && (min_final_index <=? i)%nat then s
    else if negb (bytes !!! i =? 0x1b) || negb (bytes !!! S i =? 0x5b) || negb (bytes !!! (i + 2)%nat =? 0x3f)
    then alt_screen_loop bytes min_final_index rounds (S i) s
    else
      let scan_end := Nat.min (length bytes) (i + 64) in
      let s := match find_final bytes (scan_end - (i + 3)) (i + 3) with
               | Some j =>
                 if ((bytes !!! j =? 0x68) || (bytes !!! j =? 0x6c)) && (min_final_index <=? j)%nat
                 then observe_mode (bytes !!! j =? 0x68) (slice bytes (i + 3) j) s else s
               | None => s
               end in
      alt_screen_loop bytes min_final_index rounds (S i) s
  end.

Definition observe_alt_screen_sequences_after (bytes : list byte) (min_final_index : nat) (s : AltScreenState) : AltScreenState :=
  alt_screen_loop bytes min_final_index (length bytes) 0 s.
Definition observe_alt_screen_sequences (bytes : list byte) (s : AltScreenState) : AltScreenState :=
  observe_alt_screen_sequences_after bytes 0 s.

Fixpoint damage_loop (bytes : list byte) (min_final_index : nat) (status_scroll_bottom : option Z) (rounds i : nat) : bool :=
  match rounds with
  | O => false
  | S rounds =>
    if negb (i <? length bytes)%nat then false
    else if (0 <? min_final_index)%nat && (min_final_index <=? i)%nat then false
    else if (bytes !!! i =? 0x1b) && (i + 1 <? length bytes)%nat && (bytes !!! S i =? 0x63) then
      if (min_final_index <=? i + 1)%nat then true
      else damage_loop bytes min_final_index status_scroll_bottom rounds (i + 2)
    else if (bytes !!! i =? 0x1b) && (i + 1 <? length bytes)%nat && (bytes !!! S i =? 0x5b) then
      let params_start := (i + 2)%nat in
      let scan_end := Nat.min (length bytes) (i + 64) in
      match find_final bytes (scan_end - params_start) params_start with
      | Some j =>
        if (min_final_index <=? j)%nat
           && csi_sequence_can_damage_status_area (bytes !!! j) (slice bytes params_start j) status_scroll_bottom
        then true
        else damage_loop bytes min_final_index status_scroll_bottom rounds (S i)
      | None => damage_loop bytes min_final_index status_scroll_bottom rounds (S i)
      end
    else damage_loop bytes min_final_index status_scroll_bottom rounds (S i)
  end.

Definition observe_status_area_damage_sequences_after (bytes : list byte) (min_final_index : nat)
    (status_scroll_bottom : option Z) : bool :=
  damage_loop bytes min_final_index status_scroll_bottom (length bytes) 0.
Definition observe_status_area_damage_sequences (bytes : list byte) (status_scroll_bottom : option Z) : bool :=
  observe_status_area_damage_sequences_after bytes 0 status_scroll_bottom.

(** ** The tracker *)

(** The two states are shared with the guards that restore the terminal, in the same thread. *)
Record TerminalOutputTracker : Set := {
  restore_state : KeyboardProtocolRestoreState;
  alt_screen : AltScreenState;
  tr_status_scroll_bottom : option Z;
  tr_tail : list byte;
}.

Definition TerminalOutputTracker_new (restore_state : KeyboardProtocolRestoreState) (alt_screen : AltScreenState)
    (status_scroll_bottom : option Z) : TerminalOutputTracker :=
  {| restore_state := restore_state; alt_screen := alt_screen; tr_status_scroll_bottom := status_scroll_bottom; tr_tail := [] |}.

Definition set_status_scroll_bottom (t : TerminalOutputTracker) (status_scroll_bottom : option Z) : TerminalOutputTracker :=
  {| restore_state := restore_state t; alt_screen := alt_screen t; tr_status_scroll_bottom := status_scroll_bottom;
     tr_tail := tr_tail t |}.

Definition TAIL_LIMIT : nat := 64.

Definition kept_tail (old_tail bytes : list byte) : list byte :=
  if (TAIL_LIMIT <=? length bytes)%nat then drop (length bytes - TAIL_LIMIT) bytes
  else
    let old_keep := Nat.min (length old_tail) (TAIL_LIMIT - length bytes) in
    drop (length old_tail - old_keep) old_tail ++ bytes.

(** The result is [status_area_dirty]. *)
Definition observe (t : TerminalOutputTracker) (bytes : list byte) : bool * TerminalOutputTracker :=
  let old_tail := tr_tail t in
  let bottom := tr_status_scroll_bottom t in
  let '(dirty, keyboard, alt) :=
    if negb (bool_decide (old_tail = [])) && negb (bool_decide (bytes = [])) then
      let prefix_len := Nat.min (length bytes) TAIL_LIMIT in
      let boundary := old_tail ++ take prefix_len bytes in
      ((if is_some bottom then observe_status_area_damage_sequences_after boundary (length old_tail) bottom else false),
       observe_keyboard_protocol_sequences_after boundary (length old_tail) (restore_state t),
       observe_alt_screen_sequences_after boundary (length old_tail) (alt_screen t))
    else (false, restore_state t, alt_screen t) in
  let keyboard := observe_keyboard_protocol_sequences bytes keyboard in
  let alt := observe_alt_screen_sequences bytes alt in
  let dirty := dirty || (if is_some bottom then observe_status_area_damage_sequences bytes bottom else false) in
  (dirty, {| restore_state := keyboard; alt_screen := alt; tr_status_scroll_bottom := bottom; tr_tail := kept_tail old_tail bytes |}).

(** The chunks of an output, one after the other. *)
Fixpoint observe_all (t : TerminalOutputTracker) (chunks : list (list byte)) : bool * TerminalOutputTracker :=
  match chunks with
  | [] => (false, t)
  | bytes :: chunks =>
    let '(dirty, t) := observe t bytes in
    let '(more, t) := observe_all t chunks in (dirty || more, t)
  end.

(** ** Detaching *)

Definition keyboard_protocol_restore_bytes (s : KeyboardProtocolRestoreState) : list byte :=
  let push_depth := clamp 0 MAX_KEYBOARD_PROTOCOL_RESTORE_POPS (kitty_push_depth s) in
  concat (replicate (Z.to_nat push_depth) (0x1b :: lit "[<u"))
  ++ (if negb (kitty_direct_flags s =? 0) then 0x1b :: lit "[=0u" else []).

Definition normal_attach_terminal_cleanup_bytes (alt_screen_active : bool) : list byte :=
  (if alt_screen_active then (0x1b :: lit "[?1049l") ++ (0x1b :: lit "[?47l") ++ (0x1b :: lit "[?1047l") else [])
  ++ (0x1b :: lit "[r") ++ (0x1b :: lit "[?25h") ++ (0x1b :: lit "[?2004l") ++ (0x1b :: lit "[0m") ++ [0x0d; 0x0a].

(** What dropping [RawAttachTerminalGuards] writes, with the guard of the raw mode first; the client
    drops them when both of its ends are terminals. *)
Definition detach_bytes (t : TerminalOutputTracker) : list byte :=
  keyboard_protocol_restore_bytes (restore_state t) ++ normal_attach_terminal_cleanup_bytes (alt_active (alt_screen t)).

Definition panic_terminal_cleanup_bytes : list byte :=
  (0x1b :: lit "[?1049l") ++ (0x1b :: lit "[?47l") ++ (0x1b :: lit "[?1047l")
  ++ (0x1b :: lit "[r") ++ (0x1b :: lit "[?25h") ++ (0x1b :: lit "[?2004l")
  ++ concat (replicate 16 (0x1b :: lit "[<u")) ++ (0x1b :: lit "[=0u") ++ (0x1b :: lit "[0m") ++ [0x0d; 0x0a].

Definition cursor_clamp_into_scroll_region (rows : Z) : option (list byte) :=
  if rows <=? 1 then None else Some ((0x1b :: lit "[") ++ dec (rows - 1) ++ lit ";1H").
