(* ===== verification/AttachTracking.v ===== *)
(** The scans of AttachOutput.v find the same sequences however the output is cut into chunks. *)
From S2P Require Import Prelude Utf8 Text AttachOutput.

(** ** Sequences in a text *)

(** [event w] is the sequence at the start of [w] and the index of its last byte. *)
Section events.
Context {E : Type} (event : list byte → option (E * nat)).

Definition local : Prop := ∀ w e j, event w = Some (e, j) →
  (j < 64 ∧ j < length w)%nat ∧ ∀ w', take (S j) w' = take (S j) w → event w' = Some (e, j).
Definition apart : Prop := ∀ w e j i, event w = Some (e, j) → (0 < i ≤ j)%nat → event (drop i w) = None.

(** The sequences that begin at the first [n] bytes and end at [least] or later. *)
Fixpoint events (w : list byte) (n least : nat) {struct w} : list E :=
  match w, n with
  | _ :: w', S n =>
    match event w with Some (e, j) => if (least <=? j)%nat then [e] else [] | None => [] end ++ events w' n (pred least)
  | _, _ => []
  end.

Lemma events_nil w n least : (∀ i, (i < n)%nat → event (drop i w) = None) → events w n least = [].
Proof.
  revert w least. induction n as [|n IH]; intros [|x w] least Hnone; [done..|]. cbn [events].
  rewrite (Hnone 0%nat) /=; [|lia]. apply IH. intros i Hi. apply (Hnone (S i)). lia.
Qed.

Lemma events_zero w least : events w 0 least = [].
Proof. by destruct w. Qed.

Context (Hlocal : local) (Hapart : apart).

Lemma event_app w b e j : event w = Some (e, j) → event (w ++ b) = Some (e, j).
Proof. intros He. destruct (Hlocal w e j He) as [[_ Hj] Hw]. apply Hw. rewrite take_app_le //. Qed.

Lemma event_prefix w b e j : event (w ++ b) = Some (e, j) → (j < length w)%nat → event w = Some (e, j).
Proof. intros He Hj. destruct (Hlocal _ e j He) as [_ Hw]. apply Hw. rewrite take_app_le //. Qed.

(** A sequence that ends beyond [a] is the only one that [a] begins from there on. *)
Lemma events_cross x a b e j : event (x :: a ++ b) = Some (e, j) → (length a < j)%nat →
  event (x :: a) = None ∧ (∀ least, events a (length a) least = []) ∧ ∀ least, events (a ++ b) (length a) least = [].
Proof.
  intros He Hj. assert (∀ i, (i < length a)%nat → event (drop i (a ++ b)) = None) as Hnone.
  { intros i Hi. apply (Hapart (x :: a ++ b) e j (S i)); [done|lia]. }
  split_and!.
  - destruct (event (x :: a)) as [[e' j']|] eqn:He'; [|done]. pose proof (event_app (x :: a) b _ _ He') as Ha. simpl in Ha.
    destruct (Hlocal _ _ _ He') as [[_ Hj'] _]. simpl in Hj'. rewrite He in Ha. injection Ha as -> ->. lia.
  - intros least. apply events_nil. intros i Hi. specialize (Hnone i Hi). rewrite drop_app_le in Hnone; [|lia].
    destruct (event (drop i a)) as [[e' j']|] eqn:He'; [|done]. rewrite (event_app _ b _ _ He') in Hnone. done.
  - intros least. by apply events_nil.
Qed.

Lemma events_from a b n : events (a ++ b) (length a + n) 0 = events (a ++ b) (length a) 0 ++ events b n 0.
Proof. induction a as [|x a IH]; [by destruct b, n|]. cbn [length Nat.add events app]. by rewrite IH (assoc_L (++)). Qed.

Lemma events_within a b :
  events (a ++ b) (length a) 0 = events a (length a) 0 ++ events (a ++ b) (length a) (length a).
Proof.
  induction a as [|x a IH]; [done|]. cbn [length events app pred].
  destruct (event (x :: a ++ b)) as [[e j]|] eqn:He.
  - destruct (Nat.leb_spec (S (length a)) j) as [Hj|Hj].
    + destruct (events_cross x a b e j He Hj) as (-> & Ha & Hab). by rewrite Ha !Hab.
    + rewrite (event_prefix (x :: a) b e j He) /=; [|simpl; lia]. by rewrite IH.
  - destruct (event (x :: a)) as [[e j]|] eqn:He'; [|done]. apply (event_app _ b) in He'. simpl in He'. congruence.
Qed.

Definition all_events (w : list byte) : list E := events w (length w) 0.

Lemma all_events_app a b : all_events (a ++ b) = all_events a ++ events (a ++ b) (length a) (length a) ++ all_events b.
Proof. unfold all_events. by rewrite length_app events_from events_within (assoc_L (++)). Qed.

(** Only the last 64 bytes before the cut and the first 64 after it matter. *)
Lemma cross_drop c t b : (c = [] ∨ 64 ≤ length t)%nat →
  events (c ++ t ++ b) (length c + length t) (length c + length t) = events (t ++ b) (length t) (length t).
Proof.
  intros [->|Ht]; [done|]. induction c as [|x c IH]; [done|]. cbn [length Nat.add events app pred].
  rewrite IH. destruct (event _) as [[e j]|] eqn:He; [|done]. destruct (Hlocal _ _ _ He) as [[Hj _] _].
  by destruct (Nat.leb_spec (S (length c + length t)) j); [lia|].
Qed.

Lemma event_take w b : event (w ++ take 64 b) = event (w ++ b).
Proof.
  assert (∀ j, (j < 64)%nat → take (S j) (w ++ take 64 b) = take (S j) (w ++ b)) as Htake.
  { intros j Hj. rewrite !take_app take_take. f_equal. f_equal. lia. }
  destruct (event (w ++ b)) as [[e j]|] eqn:He.
  - destruct (Hlocal _ _ _ He) as [[Hj _] Hw]. apply Hw. by apply Htake.
  - destruct (event (w ++ take 64 b)) as [[e j]|] eqn:He'; [|done].
    destruct (Hlocal _ _ _ He') as [[Hj _] Hw]. rewrite (Hw (w ++ b)) in He; [done|]. symmetry. by apply Htake.
Qed.

Lemma cross_take t b least : events (t ++ take 64 b) (length t) least = events (t ++ b) (length t) least.
Proof.
  revert least. induction t as [|x t IH]; intros least; [by destruct b|]. cbn [length events app]. rewrite IH.
  by rewrite (event_take (x :: t) b : event (x :: t ++ take 64 b) = event (x :: t ++ b)).
Qed.
End events.

(** ** Control sequences *)

Lemma find_final_Some w n k j :
  find_final w n k = Some j ↔
  (k ≤ j < k + n)%nat ∧ (∃ b, w !! j = Some b ∧ is_final b = true) ∧
  ∀ m, (k ≤ m < j)%nat → ∃ b, w !! m = Some b ∧ is_final b = false.
Proof.
  revert k. induction n as [|n IH]; intros k; [split; [done|intros (? & _); lia]|]. cbn [find_final].
  destruct (w !! k) as [b|] eqn:Hk.
  - destruct (is_final b) eqn:Hb.
    + split; [intros [= <-]|intros (Hj & _ & Hbefore)]; [split_and!; [lia|lia|by exists b|intros m; lia]|].
      destruct (decide (j = k)) as [->|Hne]; [done|]. destruct (Hbefore k) as (b' & Hb' & Hf); [lia|]. congruence.
    + rewrite IH. split; intros (Hj & Hf & Hbefore).
      * split_and!; [lia..|done|]. intros m Hm. destruct (decide (m = k)) as [->|]; [by exists b|apply Hbefore; lia].
      * destruct Hf as (b' & Hb' & Hf). assert (j ≠ k) by congruence.
        split_and!; [lia..|by exists b'|]. intros m Hm. apply Hbefore. lia.
  - split; [done|]. intros (Hj & (b & Hb & _) & Hbefore). destruct (decide (j = k)) as [->|]; [congruence|].
    destruct (Hbefore k) as (b' & Hb' & _); [lia|congruence].
Qed.

Lemma late_index (i j least : nat) : (i ≤ j)%nat → (least - i <=? j - i)%nat = (least <=? j)%nat.
Proof. intros Hj. destruct (Nat.leb_spec (least - i) (j - i)), (Nat.leb_spec least j); lia. Qed.

Section csi.
(** The bytes before the parameters, what the third byte may be, and the final bytes. *)
Context (head : nat) (kind accept : byte → bool).
Context (Hhead : (head = 2 ∨ head = 3)%nat).
Context (Hkind : head = 3%nat → kind 0x1b = false) (Haccept : accept 0x5b = false ∧ accept 0x63 = false).

Definition starts_csi (w : list byte) : bool := (w !!! 0%nat =? 0x1b) && (w !!! 1%nat =? 0x5b) && kind (w !!! 2%nat).

(** The third byte, the parameters and the final byte. *)
Definition csi_event (w : list byte) : option ((byte * list byte * byte) * nat) :=
  if starts_csi w then
    j ← find_final w (64 - head) head;
    if accept (w !!! j) then Some ((w !!! 2%nat, slice w head j, w !!! j), j) else None
  else None.

Lemma csi_event_Some w e j : csi_event w = Some (e, j) ↔
  starts_csi w = true ∧ find_final w (64 - head) head = Some j ∧ accept (w !!! j) = true ∧ e = (w !!! 2%nat, slice w head j, w !!! j).
Proof.
  unfold csi_event. destruct (starts_csi w); [|split; [done|by intros (? & _)]].
  destruct (find_final _ _ _) as [j'|]; cbn [mbind option_bind]; [|split; [done|by intros (_ & ? & _)]]. split.
  - destruct (accept (w !!! j')) eqn:Ha; [|done]. intros [= <- <-]. by split_and!.
  - intros (_ & [= ->] & -> & ->). done.
Qed.

Lemma take_lookup_total (w w' : list byte) n i : take n w' = take n w → (i < n)%nat → w' !!! i = w !!! i.
Proof. intros Ht Hi. rewrite -(lookup_total_take_lt w' n) // Ht lookup_total_take_lt //. Qed.

Lemma take_lookup (w w' : list byte) n i : take n w' = take n w → (i < n)%nat → w' !! i = w !! i.
Proof. intros Ht Hi. rewrite -(lookup_take_lt w' n) // Ht lookup_take_lt //. Qed.

Lemma csi_event_bounds w e j : csi_event w = Some (e, j) → (head ≤ j < 64 ∧ j < length w)%nat.
Proof.
  intros (_ & (Hj & (b & Hb%lookup_lt_Some & _) & _)%find_final_Some & _)%csi_event_Some. lia.
Qed.

Lemma slice_take (w w' : list byte) j : take (S j) w' = take (S j) w → slice w' head j = slice w head j.
Proof.
  intros Ht. assert (∀ l : list byte, slice l head j = drop head (take j (take (S j) l))) as Hs; [|by rewrite !Hs Ht].
  intros l. unfold slice. rewrite take_take Nat.min_l; [|lia]. destruct (Nat.le_gt_cases head j).
  - rewrite take_drop_commute. f_equal. f_equal. lia.
  - replace (j - head)%nat with 0%nat by lia. rewrite (drop_ge (take j l)); [done|]. rewrite length_take. lia.
Qed.

Lemma csi_event_local : local csi_event.
Proof.
  intros w e j He. pose proof (csi_event_bounds w e j He) as Hj. split; [lia|]. intros w' Ht.
  apply csi_event_Some in He as (Hs & Hf & Ha & ->).
  assert (∀ i, (i ≤ j)%nat → w' !!! i = w !!! i) as Hw by (intros i Hi; apply (take_lookup_total w w' (S j)); [done|lia]).
  apply csi_event_Some. split_and!.
  - unfold starts_csi in *. by rewrite !Hw; [|lia..].
  - apply find_final_Some in Hf as (Hr & Hb & Hbefore). apply find_final_Some. split_and!; [lia..| |].
    + by rewrite (take_lookup _ _ _ _ Ht); [|lia].
    + intros m Hm. rewrite (take_lookup _ _ _ _ Ht); [|lia]. by apply Hbefore.
  - by rewrite Hw; [|lia].
  - rewrite (slice_take _ _ _ Ht) !Hw; [done|lia..].
Qed.

(** No other sequence begins inside one. *)
Lemma csi_event_inside w e j i : csi_event w = Some (e, j) → (0 < i ≤ j)%nat → w !!! i = 0x1b →
  w !!! S i = 0x5b ∨ w !!! S i = 0x63 → False.
Proof.
  intros He Hi Hesc Hnext. pose proof (csi_event_bounds w e j He) as Hj.
  apply csi_event_Some in He as (Hs & (_ & (b & Hb & Hfin) & Hbefore)%find_final_Some & Ha & _).
  unfold starts_csi in Hs. rewrite !andb_true_iff !Z.eqb_eq in Hs. destruct Hs as ((_ & H1) & H2).
  apply list_lookup_total_correct in Hb. destruct (decide (i = 1%nat)) as [->|]; [congruence|].
  destruct (Nat.le_gt_cases head i) as [Hh|].
  - assert (i ≠ j) by (intros ->; rewrite -Hb Hesc in Hfin; done).
    destruct (decide (S i = j)) as [<-|].
    + destruct Haccept, Hnext as [Hn|Hn]; congruence.
    + destruct (Hbefore (S i)) as (b' & Hb'%list_lookup_total_correct & Hf); [lia|]. rewrite -Hb' in Hf.
      destruct Hnext as [Hn|Hn]; rewrite Hn in Hf; discriminate Hf.
  - assert (i = 2 ∧ head = 3)%nat as [-> Hh] by lia. rewrite Hesc Hkind // in H2.
Qed.

Lemma starts_csi_drop i w : starts_csi (drop i w) = true → w !!! i = 0x1b ∧ w !!! S i = 0x5b.
Proof.
  unfold starts_csi. rewrite !lookup_total_drop !andb_true_iff !Z.eqb_eq Nat.add_0_r Nat.add_1_r. tauto.
Qed.

Lemma csi_event_apart : apart csi_event.
Proof.
  intros w e j i He Hi. destruct (csi_event (drop i w)) as [[e' j']|] eqn:He'; [|done].
  apply csi_event_Some in He' as ([Hesc Hnext]%starts_csi_drop & _). exfalso. by eapply csi_event_inside; [..|left].
Qed.

(** The loops look for a sequence at an index of the whole text. *)
Lemma find_final_drop (w : list byte) i n k : find_final w n (i + k) = Nat.add i <$> find_final (drop i w) n k.
Proof.
  revert k. induction n as [|n IH]; intros k; [done|]. cbn [find_final]. rewrite lookup_drop.
  destruct (w !! (i + k)%nat) as [b|]; [|done]. destruct (is_final b); [done|]. by rewrite -Nat.add_succ_r IH.
Qed.

Lemma find_final_cap (w : list byte) stop k : find_final w (Nat.min (length w) stop - k) k = find_final w (stop - k) k.
Proof.
  apply option_eq. intros j. rewrite !find_final_Some. split; intros (Hj & (b & Hb & Hf) & Hbefore).
  - split_and!; [lia..|by exists b|done].
  - pose proof (lookup_lt_Some _ _ _ Hb). split_and!; [lia..|by exists b|done].
Qed.

Lemma csi_event_at (w : list byte) i :
  csi_event (drop i w) =
  if (w !!! i =? 0x1b) && (w !!! S i =? 0x5b) && kind (w !!! (i + 2)%nat) then
    match find_final w (Nat.min (length w) (i + 64) - (i + head)) (i + head) with
    | Some j => if accept (w !!! j) then Some ((w !!! (i + 2)%nat, slice w (i + head) j, w !!! j), (j - i)%nat) else None
    | None => None
    end
  else None.
Proof.
  unfold csi_event, starts_csi. rewrite !lookup_total_drop Nat.add_0_r Nat.add_1_r.
  destruct (_ && kind _); [|done]. rewrite find_final_cap find_final_drop. replace (i + 64 - (i + head))%nat with (64 - head)%nat by lia.
  destruct (find_final (drop i w) _ _) as [j|]; [|done]. cbn [mbind option_bind fmap option_fmap option_map].
  rewrite lookup_total_drop. destruct (accept (w !!! (i + j)%nat)); [|reflexivity]. unfold slice. rewrite drop_drop.
  replace (i + j - (i + head))%nat with (j - head)%nat by lia. by replace (i + j - i)%nat with j by lia.
Qed.

Lemma csi_events_short w i n least : (length w ≤ i + head)%nat → events csi_event (drop i w) n least = [].
Proof.
  intros Hw. apply events_nil. intros i' _. rewrite drop_drop. destruct (csi_event _) as [[e j]|] eqn:He; [|done].
  apply csi_event_bounds in He. rewrite length_drop in He. lia.
Qed.
End csi.

(** ** The loops *)

Definition scan_bound (w : list byte) (least i : nat) : nat := (if least =? 0 then length w - i else least - i)%nat.

(** One round of a loop. *)
Lemma events_round {E} (event : list byte → option (E * nat)) w least i :
  (i < length w)%nat → (0 <? least)%nat && (least <=? i)%nat = false →
  events event (drop i w) (scan_bound w least i) (least - i) =
  match event (drop i w) with Some (e, j) => if (least - i <=? j)%nat then [e] else [] | None => [] end
  ++ events event (drop (S i) w) (scan_bound w least (S i)) (least - S i).
Proof.
  intros Hi Hleast. destruct (lookup_lt_is_Some_2 w i Hi) as [x Hx]. rewrite (drop_S _ _ _ Hx).
  assert (∃ n, scan_bound w least i = S n ∧ scan_bound w least (S i) = n) as (n & -> & ->).
  { exists (scan_bound w least (S i)). split; [|done]. unfold scan_bound.
    rewrite andb_false_iff Nat.ltb_ge Nat.leb_gt in Hleast. destruct (Nat.eqb_spec least 0); lia. }
  cbn [events]. by replace (pred (least - i)) with (least - S i)%nat by lia.
Qed.

Lemma events_end {E} (event : list byte → option (E * nat)) w least i :
  (0 <? least)%nat && (least <=? i)%nat = true → events event (drop i w) (scan_bound w least i) (least - i) = [].
Proof.
  rewrite andb_true_iff Nat.ltb_lt Nat.leb_le. intros Hi. unfold scan_bound. rewrite (proj2 (Nat.eqb_neq _ _)); [|lia].
  replace (least - i)%nat with 0%nat by lia.
  by destruct (drop i w).
Qed.

Definition keyboard_event : list byte → option (byte * list byte * byte * nat) :=
  csi_event 3 (λ k, (k =? 0x3e) || (k =? 0x3c) || (k =? 0x3d)) (λ b, b =? 0x75).
Definition keyboard_apply (s : KeyboardProtocolRestoreState) (e : byte * list byte * byte) : KeyboardProtocolRestoreState :=
  observe_kitty e.1.1 e.1.2 s.

Lemma keyboard_loop_events w least rounds i s : (length w - i ≤ rounds)%nat →
  keyboard_loop w least rounds i s = foldl keyboard_apply s (events keyboard_event (drop i w) (scan_bound w least i) (least - i)).
Proof.
  revert i s. induction rounds as [|rounds IH]; intros i s Hr; [rewrite drop_ge //; lia|]. cbn [keyboard_loop].
  destruct (Nat.ltb_spec (i + 3) (length w)) as [Hi|Hi]; cbn [negb].
  2:{ rewrite csi_events_short //. lia. }
  destruct ((0 <? least)%nat && (least <=? i)%nat) eqn:Hleast; [by rewrite events_end|].
  rewrite events_round; [|lia|done]. rewrite foldl_app -IH; [|lia]. unfold keyboard_event at 1. rewrite csi_event_at; [|by right|done].
  rewrite -!negb_orb. destruct (w !!! i =? 0x1b), (w !!! S i =? 0x5b); cbn [negb orb andb]; [|done..].
  destruct (_ || _ || _); cbn [negb]; [|done]. destruct (find_final _ _ _) as [j|] eqn:Hf; [|done].
  apply find_final_Some in Hf as (Hj & _). destruct (w !!! j =? 0x75); [|done]. rewrite late_index; [|lia].
  cbn [andb]. by destruct (least <=? j)%nat.
Qed.

Definition alt_event : list byte → option (byte * list byte * byte * nat) :=
  csi_event 3 (λ k, k =? 0x3f) (λ b, (b =? 0x68) || (b =? 0x6c)).
Definition alt_apply (s : AltScreenState) (e : byte * list byte * byte) : AltScreenState := observe_mode (e.2 =? 0x68) e.1.2 s.

Lemma alt_screen_loop_events w least rounds i s : (length w - i ≤ rounds)%nat →
  alt_screen_loop w least rounds i s = foldl alt_apply s (events alt_event (drop i w) (scan_bound w least i) (least - i)).
Proof.
  revert i s. induction rounds as [|rounds IH]; intros i s Hr; [rewrite drop_ge //; lia|]. cbn [alt_screen_loop].
  destruct (Nat.ltb_spec (i + 3) (length w)) as [Hi|Hi]; cbn [negb].
  2:{ rewrite csi_events_short //. lia. }
  destruct ((0 <? least)%nat && (least <=? i)%nat) eqn:Hleast; [by rewrite events_end|].
  rewrite events_round; [|lia|done]. rewrite foldl_app -IH; [|lia]. unfold alt_event at 1. rewrite csi_event_at; [|by right|done].
  destruct (w !!! i =? 0x1b), (w !!! S i =? 0x5b), (w !!! (i + 2)%nat =? 0x3f); cbn [negb orb andb]; [|done..].
  destruct (find_final _ _ _) as [j|] eqn:Hf; [|done].
  apply find_final_Some in Hf as (Hj & _). destruct (_ || _); [|done]. rewrite late_index; [|lia].
  cbn [andb]. by destruct (least <=? j)%nat.
Qed.

Definition damage_csi : list byte → option (byte * list byte * byte * nat) :=
  csi_event 2 (λ _, true) (λ b, (b =? 0x4a) || (b =? 0x72)).
(** [ESC c] or a control sequence. *)
Definition damage_event (w : list byte) : option (byte * list byte * byte * nat) :=
  if (w !!! 0%nat =? 0x1b) && (w !!! 1%nat =? 0x63) then Some ((0x63, [], 0x63), 1%nat) else damage_csi w.
Definition damages (bottom : option Z) (e : byte * list byte * byte) : bool :=
  (e.2 =? 0x63) || csi_sequence_can_damage_status_area e.2 e.1.2 bottom.

Lemma damage_event_reset w i : w !!! i = 0x1b → w !!! S i = 0x63 → damage_event (drop i w) = Some ((0x63, [], 0x63), 1%nat).
Proof. intros H0 H1. unfold damage_event. by rewrite !lookup_total_drop Nat.add_0_r Nat.add_1_r H0 H1. Qed.

Lemma damage_event_other w i b : w !!! i = b → b ≠ 0x1b → damage_event (drop i w) = None.
Proof.
  intros H0 Hb. unfold damage_event, damage_csi, csi_event, starts_csi. rewrite lookup_total_drop Nat.add_0_r H0.
  by rewrite (proj2 (Z.eqb_neq _ _) Hb).
Qed.

Lemma total_in_range (w : list byte) i : w !!! i ≠ inhabitant → (i < length w)%nat.
Proof. intros Hi. destruct (Nat.lt_ge_cases i (length w)); [done|].
  destruct Hi. rewrite list_lookup_total_alt lookup_ge_None_2 //.
Qed.

Lemma damages_csi b k params bottom :
  csi_sequence_can_damage_status_area b params bottom = ((b =? 0x4a) || (b =? 0x72)) && damages bottom (k, params, b).
Proof.
  unfold damages, csi_sequence_can_damage_status_area. cbn [fst snd].
  destruct (Z.eqb_spec b 0x4a) as [->|]; [done|]. by destruct (Z.eqb_spec b 0x72) as [->|].
Qed.

Lemma damage_loop_events w least bottom rounds i : (length w - i ≤ rounds)%nat →
  damage_loop w least bottom rounds i = existsb (damages bottom) (events damage_event (drop i w) (scan_bound w least i) (least - i)).
Proof.
  revert i. induction rounds as [|rounds IH]; intros i Hr; [rewrite drop_ge //; lia|]. cbn [damage_loop]. rewrite Nat.add_1_r.
  destruct (Nat.ltb_spec i (length w)) as [Hi|Hi]; cbn [negb]; [|rewrite drop_ge //].
  destruct ((0 <? least)%nat && (least <=? i)%nat) eqn:Hleast; [by rewrite events_end|].
  rewrite events_round; [|lia|done]. rewrite existsb_app -IH; [|lia].
  destruct (Z.eqb_spec (w !!! i) 0x1b) as [Hesc|Hesc].
  2:{ by rewrite (damage_event_other w i (w !!! i)). }
  assert (w !!! S i ≠ inhabitant → (S i <? length w)%nat = true) as Hnext.
  { intros Hn%total_in_range. by apply Nat.ltb_lt. }
  destruct (Z.eqb_spec (w !!! S i) 0x63) as [Hc|Hc].
  - rewrite Hnext; [|by rewrite Hc]. cbn [andb]. rewrite damage_event_reset //.
    replace (least - i <=? 1)%nat with (least <=? S i)%nat by (rewrite -(late_index i (S i)); [f_equal; lia|lia]).
    destruct (Nat.leb_spec least (S i)) as [|Hl]; [done|]. cbn [existsb orb]. symmetry. rewrite IH; [|lia].
    apply Nat.ltb_lt in Hnext; [|by rewrite Hc]. rewrite (events_round _ w least (S i)); [|lia|].
    + rewrite (damage_event_other w (S i) 0x63) // IH; [|lia]. by replace (i + 2)%nat with (S (S i)) by lia.
    + rewrite andb_false_iff Nat.leb_gt. right. lia.
  - rewrite andb_false_r. unfold damage_event at 1. rewrite !lookup_total_drop Nat.add_0_r Nat.add_1_r.
    rewrite (proj2 (Z.eqb_neq _ _) Hc) andb_false_r. unfold damage_csi at 1. rewrite csi_event_at; [|by left|done]. rewrite Hesc.
    destruct (Z.eqb_spec (w !!! S i) 0x5b) as [Hb|Hb]; [|by rewrite andb_false_r].
    rewrite Hnext; [|by rewrite Hb]. cbn [Z.eqb Pos.eqb andb]. destruct (find_final _ _ _) as [j|] eqn:Hf; [|done].
    apply find_final_Some in Hf as (Hj & _). rewrite (damages_csi _ (w !!! (i + 2)%nat)).
    destruct (_ || _); cbn [andb]; [|by rewrite andb_false_r]. rewrite late_index; [|lia].
    destruct (least <=? j)%nat; cbn [andb existsb]; [by rewrite orb_false_r; destruct (damages _ _)|done].
Qed.

Lemma damage_local : local damage_event.
Proof.
  intros w e j. unfold damage_event. destruct (_ && _) eqn:Hr; [intros [= <- <-]|].
  - rewrite andb_true_iff !Z.eqb_eq in Hr. destruct Hr as [H0 H1]. split.
    + split; [lia|]. apply total_in_range. by rewrite H1.
    + intros w' Ht. by rewrite !(take_lookup_total w w' 2 _ Ht) ?H0 ?H1; [|lia..].
  - intros He. assert (local damage_csi) as Hl by (apply csi_event_local; [by left|done]).
    assert (2 ≤ j)%nat by (apply csi_event_bounds in He; [lia|by left|done]).
    destruct (Hl w e j He) as [Hb Hw]. split; [done|]. intros w' Ht.
    rewrite !(take_lookup_total w w' (S j) _ Ht); [|lia..]. rewrite Hr. by apply Hw.
Qed.

Lemma damage_apart : apart damage_event.
Proof.
  intros w e j i He Hi. destruct (damage_event (drop i w)) as [[e' j']|] eqn:He'; [exfalso|done].
  assert (w !!! i = 0x1b ∧ (w !!! S i = 0x5b ∨ w !!! S i = 0x63)) as [Hesc Hnext].
  { unfold damage_event in He'. destruct (_ && _) eqn:Hr in He'.
    - rewrite !lookup_total_drop andb_true_iff !Z.eqb_eq Nat.add_0_r Nat.add_1_r in Hr. tauto.
    - apply csi_event_Some in He' as (Hs & _). unfold starts_csi in Hs.
      rewrite !lookup_total_drop !andb_true_iff !Z.eqb_eq Nat.add_0_r Nat.add_1_r in Hs. tauto. }
  unfold damage_event in He. destruct (_ && _) eqn:Hr in He.
  - injection He as <- <-. rewrite andb_true_iff !Z.eqb_eq in Hr. replace i with 1%nat in Hesc by lia. destruct Hr. congruence.
  - by apply (csi_event_inside 2 _ _ (or_introl eq_refl) (λ h, match h with end) (conj eq_refl eq_refl) w e j i He Hi Hesc Hnext).
Qed.

Lemma keyboard_local : local keyboard_event.
Proof. apply csi_event_local; [by right|done]. Qed.
Lemma keyboard_apart : apart keyboard_event.
Proof. apply csi_event_apart; [by right|done..]. Qed.
Lemma alt_local : local alt_event.
Proof. apply csi_event_local; [by right|done]. Qed.
Lemma alt_apart : apart alt_event.
Proof. apply csi_event_apart; [by right|done..]. Qed.

#[local] Hint Resolve damage_local damage_apart keyboard_local keyboard_apart alt_local alt_apart : core.

(** ** What a chunk adds *)

(** The sequences of [b] after [a]: the one that [a] began, and those of [b]. *)
Definition added {E} (event : list byte → option (E * nat)) (a b : list byte) : list E :=
  events event (a ++ b) (length a) (length a) ++ all_events event b.

Lemma added_all {E} (event : list byte → option (E * nat)) a b : local event → apart event →
  all_events event (a ++ b) = all_events event a ++ added event a b.
Proof. intros. by apply all_events_app. Qed.

Lemma added_app {E} (event : list byte → option (E * nat)) a b c : local event → apart event →
  added event a (b ++ c) = added event a b ++ added event (a ++ b) c.
Proof.
  intros Hl Ha. apply (app_inv_head (all_events event a)). rewrite -(added_all _ a (b ++ c)) //.
  rewrite (assoc_L (++) (all_events event a)) -(added_all _ a b) // -added_all //. by rewrite (assoc_L (++)).
Qed.

Lemma added_nil {E} (event : list byte → option (E * nat)) a : local event → apart event → added event a [] = [].
Proof.
  intros Hl Ha. apply (app_inv_head (all_events event a)). by rewrite -added_all // !app_nil_r.
Qed.

Definition tail_of (a : list byte) : list byte := drop (length a - 64) a.

Lemma tail_of_split a : ∃ c, a = c ++ tail_of a ∧ (c = [] ∨ 64 ≤ length (tail_of a))%nat.
Proof.
  exists (take (length a - 64) a). unfold tail_of. rewrite take_drop length_drop. split; [done|].
  destruct (Nat.le_gt_cases 64 (length a)); [right; lia|left]. by replace (length a - 64)%nat with 0%nat by lia.
Qed.

Lemma kept_tail_of a bytes : kept_tail (tail_of a) bytes = tail_of (a ++ bytes).
Proof.
  unfold kept_tail, tail_of, TAIL_LIMIT. rewrite length_app length_drop drop_app.
  destruct (Nat.leb_spec 64 (length bytes)) as [Hb|Hb].
  - rewrite (drop_ge a); [|lia]. cbn [app]. f_equal. lia.
  - rewrite drop_drop. replace (length a + length bytes - 64 - length a)%nat with 0%nat by lia.
    rewrite drop_0. f_equal. f_equal. lia.
Qed.

(** The scan of the boundary finds what crosses it. *)
Lemma boundary_events {E} (event : list byte → option (E * nat)) a b : local event → apart event → tail_of a ≠ [] →
  let boundary := tail_of a ++ take (Nat.min (length b) 64) b in
  events event boundary (scan_bound boundary (length (tail_of a)) 0) (length (tail_of a) - 0)
  ++ all_events event b = added event a b.
Proof.
  intros Hl Ha Ht boundary. unfold added. f_equal. unfold scan_bound, boundary.
  rewrite (proj2 (Nat.eqb_neq _ _)) ?Nat.sub_0_r; [|by rewrite length_zero_iff_nil].
  assert (take (Nat.min (length b) 64) b = take 64 b) as -> by (destruct (Nat.le_ge_cases (length b) 64); [rewrite Nat.min_l // !take_ge //|rewrite Nat.min_r //]).
  rewrite cross_take //. destruct (tail_of_split a) as (c & Hc & Hlong). rewrite {4 5 6}Hc length_app -(assoc_L (++)).
  by rewrite cross_drop.
Qed.

(** ** The tracker *)

(** The tracker after sequences have been added. *)
Definition tracked (t : TerminalOutputTracker) (a b : list byte) : bool * TerminalOutputTracker :=
  (is_some (tr_status_scroll_bottom t) && existsb (damages (tr_status_scroll_bottom t)) (added damage_event a b),
   {| restore_state := foldl keyboard_apply (restore_state t) (added keyboard_event a b);
      alt_screen := foldl alt_apply (alt_screen t) (added alt_event a b);
      tr_status_scroll_bottom := tr_status_scroll_bottom t; tr_tail := tail_of (a ++ b) |}).

Lemma tail_of_nil a : tail_of a = [] → a = [].
Proof. destruct (tail_of_split a) as (c & Hc & Hlong). intros Ht. rewrite Ht in Hc, Hlong. destruct Hlong as [->|]; [done|]. simpl in *. lia. Qed.

Lemma scan_all {E} (event : list byte → option (E * nat)) w : events event (drop 0 w) (scan_bound w 0 0) (0 - 0) = all_events event w.
Proof. unfold scan_bound. by rewrite drop_0 Nat.sub_0_r. Qed.

Ltac loops := rewrite ?damage_loop_events ?keyboard_loop_events ?alt_screen_loop_events ?scan_all ?drop_0; [|lia..].

Lemma observe_tracked t a b : tr_tail t = tail_of a → observe t b = tracked t a b.
Proof.
  intros Ht. unfold observe, tracked. rewrite Ht kept_tail_of. set (bottom := tr_status_scroll_bottom t).
  unfold observe_status_area_damage_sequences, observe_keyboard_protocol_sequences, observe_alt_screen_sequences,
    observe_status_area_damage_sequences_after, observe_keyboard_protocol_sequences_after, observe_alt_screen_sequences_after.
  case_bool_decide as Ha; cbn [negb andb].
  { apply tail_of_nil in Ha as ->. loops. unfold added. cbn [length app]. rewrite !events_zero. by destruct bottom. }
  case_bool_decide as Hb; cbn [negb].
  { subst b. loops. by rewrite !(added_nil _ a) ?app_nil_r //; destruct bottom. }
  unfold TAIL_LIMIT. loops.
  rewrite -(boundary_events damage_event) -?(boundary_events keyboard_event) -?(boundary_events alt_event).
  all: try done.
  rewrite existsb_app !foldl_app. by destruct bottom.
Qed.

Lemma observe_all_tracked chunks t a : tr_tail t = tail_of a → observe_all t chunks = tracked t a (concat chunks).
Proof.
  revert t a. induction chunks as [|b chunks IH]; intros t a Ht; cbn [observe_all concat].
  - unfold tracked. rewrite !(added_nil _ a) ?app_nil_r //.
    rewrite andb_false_r -Ht. by destruct t.
  - rewrite (observe_tracked t a b Ht). unfold tracked at 1. cbn beta iota zeta. rewrite (IH _ (a ++ b)); [|done]. unfold tracked.
    cbn [restore_state alt_screen tr_status_scroll_bottom tr_tail].
    rewrite !(added_app _ a b) //.
    by rewrite existsb_app !foldl_app -(assoc_L (++)) andb_orb_distrib_r.
Qed.

(** C30: the tracker is not misled by how the output is cut into chunks: after any chunks it is in
    the state, and has seen the status row damaged, as if all of the output had come in one. *)
Theorem observation_ignores_chunks keyboard alt bottom chunks :
  observe_all (TerminalOutputTracker_new keyboard alt bottom) chunks =
  observe (TerminalOutputTracker_new keyboard alt bottom) (concat chunks).
Proof. by rewrite (observe_all_tracked _ _ []) // (observe_tracked _ []). Qed.
