(* ===== verification/AttachRestore.v ===== *)
(** What detaching leaves of the keyboard protocol and the screen modes that the output of a
    session has set (AttachOutput.v), on a terminal that reads the output as the tracker does,
    and runs of the tracker against such a terminal. *)
From S2P Require Import Prelude Utf8 Text AttachOutput AttachTracking.

(** ** A terminal with the kitty keyboard protocol *)

(** As the protocol has it: a push saves the current flags, a pop brings the saved ones back, and
    a change concerns the current flags only. *)
Class KittyTerminal (T : Type) := {
  kt_flags : T → Z;
  kt_write : Z → T → T;
  kt_push : list byte → T → T;
  kt_pop : T → T;
  kt_flags_write f t : kt_flags (kt_write f t) = f;
  kt_write_flags t : kt_write (kt_flags t) t = t;
  kt_write_write f g t : kt_write f (kt_write g t) = kt_write f t;
  kt_pop_push params t : kt_pop (kt_push params t) = t;
  kt_pop_write f t : kt_pop (kt_write f t) = kt_pop t;
}.

(** The main screen and the alternate one have a stack each, and sequences concern the screen that
    is shown. *)
Record Screens (T : Type) : Type := { sc_main : T; sc_alt : T; sc_on_alt : bool }.
Arguments sc_main {T} s.
Arguments sc_alt {T} s.
Arguments sc_on_alt {T} s.

Definition screen {T} (t : Screens T) (alt : bool) : T := if alt then sc_alt t else sc_main t.
Definition shown {T} (t : Screens T) : T := screen t (sc_on_alt t).
Definition hidden {T} (t : Screens T) : T := screen t (negb (sc_on_alt t)).
Definition on_shown {T} (f : T → T) (t : Screens T) : Screens T :=
  if sc_on_alt t then {| sc_main := sc_main t; sc_alt := f (sc_alt t); sc_on_alt := true |}
  else {| sc_main := f (sc_main t); sc_alt := sc_alt t; sc_on_alt := false |}.
Definition show {T} (alt : bool) (t : Screens T) : Screens T := {| sc_main := sc_main t; sc_alt := sc_alt t; sc_on_alt := alt |}.

(** The count of a pop, as it is written. *)
Definition pop_number (params : list byte) : option Z :=
  if bool_decide (params = []) then Some 1
  else if negb (forallb ascii_digit params) then None else parse_unsigned i32_max params.

(** What the terminal looks at: the sequences of the keyboard protocol and the modes. *)
Definition screen_event : list byte → option (byte * list byte * byte * nat) :=
  csi_event 3 (λ k, (k =? 0x3e) || (k =? 0x3c) || (k =? 0x3d) || (k =? 0x3f)) (λ b, (b =? 0x75) || (b =? 0x68) || (b =? 0x6c)).
Definition is_keyboard (e : byte * list byte * byte) : bool :=
  ((e.1.1 =? 0x3e) || (e.1.1 =? 0x3c) || (e.1.1 =? 0x3d)) && (e.2 =? 0x75).
Definition is_mode (e : byte * list byte * byte) : bool := (e.1.1 =? 0x3f) && ((e.2 =? 0x68) || (e.2 =? 0x6c)).

Section terminal.
Context {T : Type} `{KittyTerminal T}.

Definition keyboard_op (kind : byte) (params : list byte) (t : T) : T :=
  if kind =? 0x3e then kt_push params t
  else if kind =? 0x3c then match pop_number params with Some n => Nat.iter (Z.to_nat n) kt_pop t | None => t end
  else match keyboard_protocol_direct_change params with Some c => kt_write (apply_direct c (kt_flags t)) t | None => t end.

Definition terminal_apply (t : Screens T) (e : byte * list byte * byte) : Screens T :=
  if is_keyboard e then on_shown (keyboard_op e.1.1 e.1.2) t
  else if is_mode e && alt_screen_param_matches e.1.2 then show (e.2 =? 0x68) t
  else t.

(** The terminal after it has read some output. *)
Definition terminal_reads (t : Screens T) (out : list byte) : Screens T := foldl terminal_apply t (all_events screen_event out).
End terminal.

(** No more than sixteen pushes are open at a time, none is popped that was open before, and
    whenever the screen changes, the pushes and the flags set without one ([flags]) on the screen that
    is left have been undone. *)
Fixpoint well_nested (depth flags : Z) (on_alt : bool) (es : list (byte * list byte * byte)) : bool :=
  match es with
  | [] => true
  | (kind, params, final) as e :: es =>
    if is_keyboard e then
      if kind =? 0x3e then (depth <? MAX_KEYBOARD_PROTOCOL_RESTORE_POPS) && well_nested (depth + 1) flags on_alt es
      else if kind =? 0x3c then
        match pop_number params with
        | Some n => (1 <=? n) && (n <=? depth) && well_nested (depth - n) flags on_alt es
        | None => well_nested depth flags on_alt es
        end
      else
        match keyboard_protocol_direct_change params with
        | Some c => well_nested depth (if depth =? 0 then apply_direct c flags else flags) on_alt es
        | None => well_nested depth flags on_alt es
        end
    else if is_mode e && alt_screen_param_matches params then
      (eqb (final =? 0x68) on_alt || (depth =? 0) && (flags =? 0)) && well_nested depth flags (final =? 0x68) es
    else well_nested depth flags on_alt es
  end.

(** The sequences that the tracker looks for are among those. *)
Lemma csi_events_filter head (kind kind' accept accept' : byte → bool) w n least :
  (∀ k, kind' k = true → kind k = true) → (∀ b, accept' b = true → accept b = true) →
  events (csi_event head kind' accept') w n least =
  List.filter (λ e, kind' e.1.1 && accept' e.2) (events (csi_event head kind accept) w n least).
Proof.
  intros Hk Ha. revert n least. induction w as [|x w IH]; intros [|n] least; [done..|]. cbn [events].
  rewrite IH List.filter_app. f_equal. unfold csi_event, starts_csi.
  generalize ((x :: w) !!! 2%nat) as k. intros k. destruct (_ =? 27), (_ =? 91); cbn [andb]; try by destruct (kind' k), (kind k).
  destruct (find_final _ _ _) as [j|]; cbn [mbind option_bind]; [|by destruct (kind' k), (kind k)].
  generalize ((x :: w) !!! j) as b. intros b. specialize (Hk k). specialize (Ha b).
  destruct (kind k) eqn:H1, (kind' k) eqn:H2, (accept b) eqn:H3, (accept' b) eqn:H4;
    try done; try (by specialize (Hk eq_refl)); try (by specialize (Ha eq_refl));
    (destruct (least <=? j)%nat; [|done]); cbn [List.filter fst snd]; by rewrite H2 ?H4.
Qed.

Lemma keyboard_events_filter w : all_events keyboard_event w = List.filter is_keyboard (all_events screen_event w).
Proof. apply csi_events_filter; [intros k ->; by rewrite orb_true_l|by intros b ->]. Qed.
Lemma alt_events_filter w : all_events alt_event w = List.filter is_mode (all_events screen_event w).
Proof. apply csi_events_filter; [intros k ->; by rewrite orb_true_r|]. intros b Hb. by rewrite -orb_assoc Hb orb_true_r. Qed.

(** ** Sequences that follow each other *)

(** Nothing that was begun before a control sequence ends in it. *)
Lemma no_crossing head kind accept a b :
  (head = 2 ∨ head = 3)%nat → (head = 3%nat → kind 0x1b = false) → accept 0x5b = false ∧ accept 0x63 = false →
  all_events (csi_event head kind accept) (a ++ 0x1b :: 0x5b :: b) =
  all_events (csi_event head kind accept) a ++ all_events (csi_event head kind accept) (0x1b :: 0x5b :: b).
Proof.
  intros Hh Hk Ha. rewrite added_all; [|by apply csi_event_local|by apply csi_event_apart]. f_equal. unfold added.
  enough (∀ q, events (csi_event head kind accept) (q ++ 0x1b :: 0x5b :: b) (length q) (length q) = []) as -> by done.
  intros q. induction q as [|x q IH]; [by rewrite events_zero|]. cbn [app events length pred]. rewrite IH app_nil_r.
  destruct (csi_event _ _ _ _) as [[e j]|] eqn:He; [|done]. destruct (Nat.leb_spec (S (length q)) j) as [Hj|]; [exfalso|done].
  assert (∀ n, (x :: q ++ 0x1b :: 0x5b :: b) !!! (S (length q) + n)%nat = (0x1b :: 0x5b :: b) !!! n) as Hat.
  { intros n. change (x :: q ++ 0x1b :: 0x5b :: b) with ((x :: q) ++ 0x1b :: 0x5b :: b).
    rewrite (lookup_total_app_r (x :: q)); [|simpl; lia]. f_equal. simpl. lia. }
  apply (csi_event_inside head kind accept Hh Hk Ha _ e j (S (length q)) He); [lia|..].
  - rewrite -(Nat.add_0_r (S (length q))) Hat. done.
  - left. rewrite -(Nat.add_1_r (S (length q))) Hat. done.
Qed.

Lemma screen_crossing a b :
  all_events screen_event (a ++ 0x1b :: 0x5b :: b) = all_events screen_event a ++ all_events screen_event (0x1b :: 0x5b :: b).
Proof. unfold screen_event. by rewrite no_crossing; [|right|..]. Qed.

Lemma pop_sequence_events rest : rest = [] ∨ (∃ b, rest = 0x1b :: 0x5b :: b) →
  all_events screen_event ((0x1b :: lit "[<u") ++ rest) = (0x3c, [], 0x75) :: all_events screen_event rest.
Proof. intros [->|[b ->]]; [by rewrite app_nil_r|]. by rewrite screen_crossing. Qed.

(** What the restoring bytes say. *)
Definition restore_events (s : KeyboardProtocolRestoreState) : list (byte * list byte * byte) :=
  replicate (Z.to_nat (clamp 0 MAX_KEYBOARD_PROTOCOL_RESTORE_POPS (kitty_push_depth s))) (0x3c, [], 0x75)
  ++ (if negb (kitty_direct_flags s =? 0) then [(0x3d, lit "0", 0x75)] else []).

Lemma restore_bytes_shape s : keyboard_protocol_restore_bytes s = [] ∨ ∃ b, keyboard_protocol_restore_bytes s = 0x1b :: 0x5b :: b.
Proof.
  unfold keyboard_protocol_restore_bytes. destruct (Z.to_nat _) as [|n]; simpl; [|right; by eexists].
  destruct (negb _); [right; by eexists|by left].
Qed.

Lemma restore_bytes_events s : all_events screen_event (keyboard_protocol_restore_bytes s) = restore_events s.
Proof.
  unfold keyboard_protocol_restore_bytes, restore_events. set (last := if negb _ then 0x1b :: lit "[=0u" else []).
  assert (last = [] ∨ ∃ b, last = 0x1b :: 0x5b :: b) as Hlast by (unfold last; destruct (negb _); [right; by eexists|by left]).
  induction (Z.to_nat _) as [|n IH].
  - unfold last. by destruct (negb _).
  - cbn [replicate concat]. rewrite -(assoc_L (++)) pop_sequence_events; [by rewrite IH|].
    destruct n; [done|right; by eexists].
Qed.

Lemma terminal_reads_restore {T} `{KittyTerminal T} t out s :
  terminal_reads t (out ++ keyboard_protocol_restore_bytes s) = foldl terminal_apply (terminal_reads t out) (restore_events s).
Proof.
  unfold terminal_reads. rewrite -foldl_app -restore_bytes_events. f_equal.
  destruct (restore_bytes_shape s) as [->|[b ->]]; [by rewrite !app_nil_r|]. by rewrite screen_crossing.
Qed.

(** ** The tracker follows the terminal *)

Section follows.
Context {T : Type} `{KittyTerminal T}.

(** What the pops that the tracker owes would leave of a screen that began as [start]. *)
Definition follows (start : T) (s : KeyboardProtocolRestoreState) (t : T) : Prop :=
  0 ≤ kitty_push_depth s ≤ MAX_KEYBOARD_PROTOCOL_RESTORE_POPS ∧
  Nat.iter (Z.to_nat (kitty_push_depth s)) kt_pop t = kt_write (kitty_direct_flags s) start.

Lemma follows_push start s t params : follows start s t → kitty_push_depth s < MAX_KEYBOARD_PROTOCOL_RESTORE_POPS →
  follows start (observe_kitty_push s) (kt_push params t).
Proof.
  intros [Hd Ht] Hlt. unfold follows, observe_kitty_push. cbn [kitty_push_depth kitty_direct_flags with_depth].
  rewrite Z.min_l; [|lia]. split; [lia|]. rewrite Z2Nat.inj_add; [|lia..]. rewrite Nat.add_1_r Nat.iter_succ_r kt_pop_push. done.
Qed.

Lemma pop_depth s n : 0 ≤ kitty_push_depth s ≤ MAX_KEYBOARD_PROTOCOL_RESTORE_POPS → 1 ≤ n ≤ kitty_push_depth s →
  observe_kitty_pop s n = with_depth s (kitty_push_depth s - n).
Proof.
  intros Hd Hn. unfold observe_kitty_pop. rewrite (proj2 (Z.leb_gt _ _)); [|lia]. f_equal.
  unfold MAX_KEYBOARD_PROTOCOL_RESTORE_POPS in *. rewrite Z.min_r ?Z.max_r //; unfold i32_min, i32_max in *; lia.
Qed.

Lemma follows_pop start s t n : follows start s t → 1 ≤ n ≤ kitty_push_depth s →
  follows start (observe_kitty_pop s n) (Nat.iter (Z.to_nat n) kt_pop t).
Proof.
  intros [Hd Ht] Hn. unfold follows. rewrite pop_depth //. cbn [kitty_push_depth kitty_direct_flags with_depth].
  split; [lia|]. rewrite -Nat.iter_add -Ht. f_equal. lia.
Qed.

Lemma follows_direct start s t c :
  follows start s t → follows start (observe_kitty_direct s c) (kt_write (apply_direct c (kt_flags t)) t).
Proof.
  intros [Hd Ht]. unfold follows, observe_kitty_direct. destruct (Z.ltb_spec 0 (kitty_push_depth s)) as [Hpos|Hzero].
  - split; [done|]. rewrite -Ht. destruct (Z.to_nat (kitty_push_depth s)) as [|d] eqn:Hz; [lia|].
    by rewrite !Nat.iter_succ_r kt_pop_write.
  - split; [done|]. cbn [kitty_push_depth kitty_direct_flags]. replace (Z.to_nat (kitty_push_depth s)) with 0%nat in * by lia.
    simpl in *. subst t. by rewrite kt_flags_write kt_write_write.
Qed.

Lemma pop_number_count params n : pop_number params = Some n → 1 ≤ n ≤ MAX_KEYBOARD_PROTOCOL_RESTORE_POPS →
  keyboard_protocol_pop_count params = Some n.
Proof.
  unfold pop_number, keyboard_protocol_pop_count. case_bool_decide; [done|]. destruct (negb _); [done|].
  intros -> Hn. cbn. f_equal. unfold clamp. lia.
Qed.

Lemma pop_number_None params : pop_number params = None → keyboard_protocol_pop_count params = None.
Proof. unfold pop_number, keyboard_protocol_pop_count. case_bool_decide; [done|]. destruct (negb _); [done|]. by intros ->. Qed.

(** One sequence of the keyboard protocol. *)
Lemma follows_keyboard start s t e es on_alt :
  follows start s t → is_keyboard e = true → well_nested (kitty_push_depth s) (kitty_direct_flags s) on_alt (e :: es) = true →
  follows start (keyboard_apply s e) (keyboard_op e.1.1 e.1.2 t) ∧
  well_nested (kitty_push_depth (keyboard_apply s e)) (kitty_direct_flags (keyboard_apply s e)) on_alt es = true.
Proof.
  destruct e as [[kind params] final]. intros Hf Hk. cbn [well_nested]. rewrite Hk.
  unfold keyboard_apply, keyboard_op, observe_kitty. cbn [fst snd]. pose proof Hf as [Hd Ht].
  destruct (kind =? 0x3e) eqn:H1; [|destruct (kind =? 0x3c) eqn:H2].
  - intros [Hlt Hn]%andb_true_iff. split; [apply follows_push; [done|lia]|]. unfold observe_kitty_push.
    cbn [kitty_push_depth kitty_direct_flags with_depth]. by rewrite Z.min_l; [|lia].
  - destruct (pop_number params) as [n|] eqn:Hp; [|by rewrite (pop_number_None _ Hp)].
    rewrite !andb_true_iff. intros [[Hn1 Hn2] Hn]. rewrite (pop_number_count _ _ Hp); [|lia].
    split; [apply follows_pop; [done|lia]|]. by rewrite pop_depth; [|done|lia].
  - assert (kind =? 0x3d = true) as ->.
    { unfold is_keyboard in Hk. cbn [fst snd] in Hk. by rewrite H1 H2 /= in Hk; apply andb_true_iff in Hk as [? _]. }
    destruct (keyboard_protocol_direct_change params) as [c|]; [|done]. intros Hn. split; [by apply follows_direct|].
    unfold observe_kitty_direct. destruct (Z.ltb_spec 0 (kitty_push_depth s)) as [Hpos|Hzero].
    + by rewrite (proj2 (Z.eqb_neq (kitty_push_depth s) 0)) in Hn; [|lia].
    + cbn [kitty_push_depth kitty_direct_flags]. by rewrite (proj2 (Z.eqb_eq (kitty_push_depth s) 0)) in Hn; [|lia].
Qed.

Lemma iter_pops n (t : T) : foldl (λ t e, keyboard_op e.1.1 e.1.2 t) t (replicate n (0x3c, [], 0x75)) = Nat.iter n kt_pop t.
Proof. revert t. induction n as [|n IH]; intros t; [done|]. cbn [replicate foldl]. rewrite IH. by rewrite Nat.iter_succ_r. Qed.

Lemma follows_restored start s t : kt_flags start = 0 → follows start s t →
  foldl (λ t e, keyboard_op e.1.1 e.1.2 t) t (restore_events s) = start.
Proof.
  intros Hstart [Hd Ht]. unfold restore_events. rewrite foldl_app. unfold clamp.
  rewrite Z.max_r ?Z.min_r; [|unfold MAX_KEYBOARD_PROTOCOL_RESTORE_POPS in *; lia..].
  rewrite iter_pops Ht. destruct (Z.eqb_spec (kitty_direct_flags s) 0) as [->|]; cbn [negb foldl].
  - by rewrite -Hstart kt_write_flags.
  - change (keyboard_op _ _ ?u) with (kt_write 0 u). by rewrite kt_write_write -Hstart kt_write_flags.
Qed.

(** ** Both screens *)

Section screens.
Context (start : Screens T) (main0 : kt_flags (sc_main start) = 0) (alt0 : kt_flags (sc_alt start) = 0).

(** The tracker follows the screen that is shown, and the other one is as it was. *)
Definition tracks (s : KeyboardProtocolRestoreState) (a : AltScreenState) (t : Screens T) : Prop :=
  alt_active a = sc_on_alt t ∧ follows (screen start (sc_on_alt t)) s (shown t) ∧
  hidden t = screen start (negb (sc_on_alt t)).

Lemma screen_flags alt : kt_flags (screen start alt) = 0.
Proof. by destruct alt. Qed.

Lemma shown_on f (t : Screens T) : shown (on_shown f t) = f (shown t).
Proof. by destruct t as [m a []]. Qed.
Lemma hidden_on f (t : Screens T) : hidden (on_shown f t) = hidden t.
Proof. by destruct t as [m a []]. Qed.
Lemma on_alt_on f (t : Screens T) : sc_on_alt (on_shown f t) = sc_on_alt t.
Proof. by destruct t as [m a []]. Qed.

Lemma tracks_keyboard s a t e es : tracks s a t → is_keyboard e = true →
  well_nested (kitty_push_depth s) (kitty_direct_flags s) (sc_on_alt t) (e :: es) = true →
  tracks (keyboard_apply s e) a (on_shown (keyboard_op e.1.1 e.1.2) t) ∧
  well_nested (kitty_push_depth (keyboard_apply s e)) (kitty_direct_flags (keyboard_apply s e)) (sc_on_alt t) es = true.
Proof.
  intros (Ha & Hf & Hh) Hk Hn. destruct (follows_keyboard _ s (shown t) e es (sc_on_alt t) Hf Hk Hn) as [Hf' Hn'].
  split; [|done]. unfold tracks. by rewrite on_alt_on shown_on hidden_on.
Qed.

(** A change of screen, when what was done on the screen has been undone. *)
Lemma tracks_show s a t alt visible :
  tracks s a t → eqb alt (sc_on_alt t) || (kitty_push_depth s =? 0) && (kitty_direct_flags s =? 0) = true →
  tracks s {| alt_active := alt; cursor_visible := visible |} (show alt t).
Proof.
  intros (Ha & [Hd Ht] & Hh) Hn. destruct (eqb alt (sc_on_alt t)) eqn:Heq.
  { apply eqb_prop in Heq as ->. unfold tracks. by destruct t. }
  cbn [orb] in Hn. rewrite andb_true_iff !Z.eqb_eq in Hn. destruct Hn as [Hz Hf]. rewrite Hz Hf in Ht.
  assert (∀ u, kt_write 0 (screen start u) = screen start u) as Hzero by (intros u; by rewrite -(screen_flags u) kt_write_flags).
  assert (alt = negb (sc_on_alt t)) as -> by (by destruct alt, (sc_on_alt t)).
  unfold tracks, follows. rewrite Hz Hf. cbn [show sc_on_alt]. split_and!; [done..| |].
  - simpl. by rewrite Hzero -Hh.
  - rewrite negb_involutive. simpl in Ht. rewrite Hzero in Ht. rewrite -Ht. by destruct t as [m l []].
Qed.

Lemma tracks_events es s a t : tracks s a t →
  well_nested (kitty_push_depth s) (kitty_direct_flags s) (sc_on_alt t) es = true →
  tracks (foldl keyboard_apply s (List.filter is_keyboard es)) (foldl alt_apply a (List.filter is_mode es)) (foldl terminal_apply t es).
Proof.
  revert s a t. induction es as [|e es IH]; intros s a t Ht Hn; [done|]. cbn [foldl List.filter]. unfold terminal_apply at 2.
  destruct (is_keyboard e) eqn:Hk.
  - destruct (tracks_keyboard s a t e es Ht Hk Hn) as [Ht' Hn'].
    assert (is_mode e = false) as ->.
    { unfold is_keyboard, is_mode in *. destruct (e.1.1 =? 0x3f) eqn:H3; [|done]. apply Z.eqb_eq in H3.
      by rewrite H3 in Hk. }
    cbn [foldl]. apply IH; [done|by rewrite on_alt_on].
  - destruct e as [[kind params] final]. cbn [well_nested] in Hn. rewrite Hk in Hn. cbn [fst snd] in *.
    destruct (is_mode (kind, params, final)) eqn:Hm; cbn [andb] in *; [|by apply IH].
    cbn [foldl]. unfold alt_apply at 2, observe_mode. cbn [fst snd].
    destruct (alt_screen_param_matches params) eqn:Hp; cbn [andb] in *.
    + apply andb_true_iff in Hn as [Hok Hn]. apply IH; [|done]. destruct (dectcem_param_matches params); by eapply tracks_show.
    + apply IH; [|done]. destruct Ht as (Ha & Ht). split; [|done]. by destruct (dectcem_param_matches params).
Qed.

Lemma restore_events_keyboard s : Forall (λ e, is_keyboard e = true) (restore_events s).
Proof. apply Forall_app. split; [by apply Forall_replicate|]. destruct (negb _); by constructor. Qed.

Lemma foldl_keyboard es (t : Screens T) : Forall (λ e, is_keyboard e = true) es →
  foldl terminal_apply t es = on_shown (λ t, foldl (λ t e, keyboard_op e.1.1 e.1.2 t) t es) t.
Proof.
  intros Hes. revert t. induction Hes as [|e es He _ IH]; intros t; cbn [foldl]; [by destruct t as [m a []]|].
  unfold terminal_apply at 2. rewrite He IH. by destruct t as [m a []].
Qed.

Lemma tracks_restored s a t : tracks s a t → show false (foldl terminal_apply t (restore_events s)) = show false start.
Proof.
  intros (_ & Hf & Hh). rewrite foldl_keyboard; [|apply restore_events_keyboard].
  apply follows_restored in Hf; [|apply screen_flags]. unfold shown, hidden, screen in *. unfold on_shown, show.
  destruct t as [m l []]; cbn in *; by rewrite Hf Hh.
Qed.
End screens.
End follows.

(** The keyboard state after an output, in chunks of any size. *)
Lemma observed_keyboard alt bottom chunks :
  restore_state (snd (observe_all (TerminalOutputTracker_new KeyboardProtocolRestoreState_default alt bottom) chunks)) =
  foldl keyboard_apply KeyboardProtocolRestoreState_default (all_events keyboard_event (concat chunks)).
Proof. rewrite (observe_all_tracked _ _ []) // /tracked /added. cbn [length app snd restore_state alt_screen]. by rewrite !events_zero. Qed.

Lemma normal_cleanup_shape active : ∃ b, normal_attach_terminal_cleanup_bytes active = 0x1b :: 0x5b :: b.
Proof. by destruct active; eexists. Qed.
Lemma panic_cleanup_shape : ∃ b, panic_terminal_cleanup_bytes = 0x1b :: 0x5b :: b.
Proof. by eexists. Qed.

Lemma terminal_then {T} `{KittyTerminal T} (t : Screens T) out b :
  terminal_reads t (out ++ 0x1b :: 0x5b :: b) = terminal_reads (terminal_reads t out) (0x1b :: 0x5b :: b).
Proof. unfold terminal_reads. by rewrite -foldl_app screen_crossing. Qed.

(** The cleanup leaves the alternate screen, if the output had entered it. *)
Lemma normal_cleanup_reads {T} `{KittyTerminal T} (t : Screens T) :
  terminal_reads t (normal_attach_terminal_cleanup_bytes (sc_on_alt t)) = show false t.
Proof. by destruct t as [m a []]. Qed.

Lemma foldl_on_alt {T} `{KittyTerminal T} es (t : Screens T) : Forall (λ e, is_keyboard e = true) es →
  sc_on_alt (foldl terminal_apply t es) = sc_on_alt t.
Proof. intros Hes. rewrite foldl_keyboard //. apply on_alt_on. Qed.

Lemma observed_alt keyboard bottom chunks :
  alt_screen (snd (observe_all (TerminalOutputTracker_new keyboard AltScreenState_default bottom) chunks)) =
  foldl alt_apply AltScreenState_default (all_events alt_event (concat chunks)).
Proof. rewrite (observe_all_tracked _ _ []) // /tracked /added. cbn [length app snd restore_state alt_screen]. by rewrite !events_zero. Qed.


(** ** The screen *)

Lemma alt_then s out b :
  foldl alt_apply s (all_events alt_event (out ++ 0x1b :: 0x5b :: b)) =
  foldl alt_apply (foldl alt_apply s (all_events alt_event out)) (all_events alt_event (0x1b :: 0x5b :: b)).
Proof. rewrite -foldl_app. f_equal. apply no_crossing; [by right|done..]. Qed.

(** Restoring the keyboard protocol sets no mode. *)
Lemma restore_alt_events s : all_events alt_event (keyboard_protocol_restore_bytes s) = [].
Proof.
  unfold keyboard_protocol_restore_bytes, clamp, MAX_KEYBOARD_PROTOCOL_RESTORE_POPS. set (n := Z.to_nat _).
  assert (forallb (λ n, forallb (λ last, bool_decide (all_events alt_event (concat (replicate n (0x1b :: lit "[<u")) ++ last) = []))
    [0x1b :: lit "[=0u"; []]) (seq 0 17) = true) as Hall by (vm_compute; reflexivity).
  rewrite forallb_forall in Hall. specialize (Hall n). rewrite forallb_forall in Hall.
  eapply bool_decide_eq_true_1, Hall; [apply in_seq; lia|]. destruct (negb _); [by left|by right; left].
Qed.

Lemma alt_restore out s : all_events alt_event (out ++ keyboard_protocol_restore_bytes s) = all_events alt_event out.
Proof.
  destruct (restore_bytes_shape s) as [Hb|[b Hb]]; [by rewrite Hb app_nil_r|].
  rewrite Hb /alt_event no_crossing; [|by right|done..]. rewrite -/alt_event -Hb restore_alt_events. apply app_nil_r.
Qed.

Lemma alt_restore_then s b : all_events alt_event (keyboard_protocol_restore_bytes s ++ 0x1b :: 0x5b :: b) = all_events alt_event (0x1b :: 0x5b :: b).
Proof. rewrite /alt_event no_crossing; [|by right|done..]. by rewrite -/alt_event restore_alt_events. Qed.

(** Detaching leaves the terminal on its main screen with the cursor shown, in the normal case and
    after a panic: a terminal that reads the modes as the tracker does is there after the output,
    in whatever chunks it came, and the bytes of either cleanup; and the normal one leaves the
    alternate screen only if the output had entered it. *)
Theorem detach_leaves_main_screen keyboard bottom chunks :
  let tracker := snd (observe_all (TerminalOutputTracker_new keyboard AltScreenState_default bottom) chunks) in
  let reads out := foldl alt_apply AltScreenState_default (all_events alt_event out) in
  reads (concat chunks ++ detach_bytes tracker) = AltScreenState_default ∧
  reads (concat chunks ++ panic_terminal_cleanup_bytes) = AltScreenState_default ∧
  (alt_active (alt_screen tracker) = false →
   ∀ e, e ∈ all_events alt_event (detach_bytes tracker) →
     alt_screen_param_matches e.1.2 = false).
Proof.
  intros tracker reads. destruct (normal_cleanup_shape (alt_active (alt_screen tracker))) as [b Hb]. split_and!.
  - unfold reads, detach_bytes. rewrite (assoc_L (++)) Hb alt_then -Hb alt_restore.
    assert (alt_screen tracker = reads (concat chunks)) as -> by apply observed_alt. unfold reads.
    by destruct (foldl alt_apply AltScreenState_default (all_events alt_event (concat chunks))) as [[] visible].
  - unfold reads. destruct panic_cleanup_shape as [c Hc]. rewrite Hc alt_then -Hc.
    by destruct (foldl alt_apply AltScreenState_default (all_events alt_event (concat chunks))) as [[] visible].
  - intros Ha. unfold detach_bytes. rewrite Hb alt_restore_then -Hb Ha. intros e He.
    assert (forallb (λ e, negb (alt_screen_param_matches e.1.2)) (all_events alt_event (normal_attach_terminal_cleanup_bytes false)) = true)
      as Hall by (vm_compute; reflexivity).
    rewrite forallb_forall in Hall. apply negb_true_iff, Hall, list_elem_of_In, He.
Qed.

(** * Runs against a terminal with a stack of keyboard flags *)

(** The saved flags and the current ones; a pop of an empty stack clears the flags. *)
Definition pop_flags (t : list Z * Z) : list Z * Z :=
  match t.1 with [] => ([], 0) | flags :: saved => (saved, flags) end.

#[local] Instance flag_stack : KittyTerminal (list Z * Z).
Proof.
  refine {| kt_flags t := t.2; kt_write f t := (t.1, f);
            kt_push params t := (t.2 :: t.1, default 0 (parse_csi_u_number params)); kt_pop := pop_flags |};
    [done|by intros []|done|by intros params []|done].
Defined.

Definition esc (s : string) : list byte := 0x1b :: lit s.

Definition two_screens (saved : list Z) : Screens (list Z * Z) := {| sc_main := (saved, 0); sc_alt := ([], 0); sc_on_alt := false |}.

(** A shell that takes back what it pushed before it starts an editor, which enters the alternate
    screen, pushes twice, sets flags and pops once, with its sequences cut in pieces; others have
    pushed before. *)
Definition nested_output : list (list byte) :=
  [esc "[>1u" ++ lit "vim" ++ [0x1b]; lit "[<u" ++ esc "[?104"; lit "9h" ++ esc "[>5"; lit "u" ++ esc "[=3;2"; lit "u" ++ esc "[>1u";
   esc "[<" ; lit "1u" ++ esc "[=8;2u"].


(** A pop with nothing pushed makes the depth negative, and the push after it is not undone. *)
Example early_pop_is_not_undone :
  let out := esc "[<u" ++ esc "[>1u" in
  let tracker := snd (observe (TerminalOutputTracker_new KeyboardProtocolRestoreState_default AltScreenState_default None) out) in
  kitty_push_depth (restore_state tracker) = 0 ∧ keyboard_protocol_restore_bytes (restore_state tracker) = [] ∧
  terminal_reads (two_screens []) (out ++ detach_bytes tracker) = {| sc_main := ([0], 1); sc_alt := ([], 0); sc_on_alt := false |}.
Proof. vm_compute. done. Qed.

(** A push on the main screen under an alternate one: the pop is written before the alternate screen
    is left, so it is the alternate stack that it concerns, and the main screen keeps its flags. *)
Example push_under_alternate_is_not_undone :
  let out := esc "[>1u" ++ esc "[?1049h" in
  let tracker := snd (observe (TerminalOutputTracker_new KeyboardProtocolRestoreState_default AltScreenState_default None) out) in
  keyboard_protocol_restore_bytes (restore_state tracker) = esc "[<u" ∧
  terminal_reads (two_screens []) (out ++ detach_bytes tracker) = {| sc_main := ([0], 1); sc_alt := ([], 0); sc_on_alt := false |}.
Proof. vm_compute. done. Qed.

(** An editor that entered the alternate screen and hid the cursor, its sequences cut in pieces. *)
Definition editor_output : list (list byte) := [esc "[?104"; lit "9h" ++ esc "[?2"; lit "5l" ++ esc "[2J"; esc "[r"].

Lemma detach_leaves_main_screen_witness :
  let tracker := snd (observe_all (TerminalOutputTracker_new KeyboardProtocolRestoreState_default AltScreenState_default (Some 23)) editor_output) in
  alt_screen tracker = {| alt_active := true; cursor_visible := false |} ∧
  foldl alt_apply AltScreenState_default (all_events alt_event (concat editor_output ++ detach_bytes tracker)) = AltScreenState_default.
Proof.
  split; [vm_compute; reflexivity|].
  exact (proj1 (detach_leaves_main_screen KeyboardProtocolRestoreState_default (Some 23) editor_output)).
Defined.

Example editor_damages_status_row :
  fst (observe_all (TerminalOutputTracker_new KeyboardProtocolRestoreState_default AltScreenState_default (Some 23)) editor_output) = true.
Proof. vm_compute. done. Qed.
