(* ===== verification/TraceFile.v ===== *)
(** Traces ([client.rs]): recording the output of a session as lines of JSON, reading them back,
    validating a trace for its replay, and summarizing one.

    JSON is a parameter: [from_str] tells of a line what [Value::get], [as_str] and [as_u64] tell of
    the value it parses to. *)
From S2P Require Import Prelude Utf8 Text Sanitize Protocol.

Definition DEFAULT_TRACE_MAX_BYTES : Z := 16777216.
Definition TRACE_FORMAT : str := lit "lterm-trace-jsonl".
Definition TRACE_SCHEMA_VERSION : str := lit "1.0".
Definition MAX_TRACE_JSONL_LINE_BYTES : Z := 1048576.
Definition MAX_TRACE_REPLAY_CHUNK_BYTES : Z := 1048576.
Definition MAX_TRACE_REPLAY_TOTAL_BYTES : Z := DEFAULT_TRACE_MAX_BYTES.
Definition MAX_TRACE_REPLAY_CHUNKS : Z := 16384.
Definition MAX_TRACE_REPLAY_DELAY_MS : Z := 60000.

Inductive TraceError : Set :=
  | ReadFailed | LineTooLong | NotUtf8 | NotJson | MissingString (field : str) | MissingU64 (field : str)
  | NonU64 (field : str) | NonString (field : str) | DuplicateStart | StartAfterOutput | UnsupportedSchema
  | UnsupportedFormat | OutputBeforeStart | OutputAfterEnd | UnsupportedDirection | ChunkIndexDiffers | TooManyChunks
  | ElapsedBackwards | HexOddLength | HexNonDigit | HexTooLong | ChunkTooLong | LenDiffers | TooManyBytes | DelayTooLong
  | EndBeforeStart | DuplicateEnd | ChunksDiffer | BytesDiffer | UnsupportedEvent | MissingStart | MissingEnd.

(** ** Hexadecimal *)

Definition HEX : list byte := lit "0123456789abcdef".
Definition hex_encode (bytes : list byte) : str :=
  concat ((λ byte, [HEX !!! Z.to_nat (Z.shiftr byte 4); HEX !!! Z.to_nat (Z.land byte 0x0f)]) <$> bytes).

Definition hex_nibble (byte : byte) : option Z :=
  if within 0x30 0x39 byte then Some (byte - 0x30)
  else if within 0x61 0x66 byte then Some (byte - 0x61 + 10)
  else if within 0x41 0x46 byte then Some (byte - 0x41 + 10)
  else None.

Definition hex_encoded_len (value : str) : result TraceError Z :=
  let bytes := utf8 value in
  bail_if (negb (Nat.even (length bytes))) HexOddLength ;;
  bail_if (negb (forallb is_ascii_hexdigit bytes)) HexNonDigit ;;
  Ok (Z.of_nat (length bytes / 2)).

(** [chunks_exact(2)] and the body of its loop. *)
Fixpoint hex_pairs (bytes : list byte) : result TraceError (list byte) :=
  match bytes with
  | b0 :: b1 :: bytes =>
    high ← ok_or (hex_nibble b0) HexNonDigit;
    low ← ok_or (hex_nibble b1) HexNonDigit;
    rest ← hex_pairs bytes;
    Ok (Z.lor (Z.shiftl high 4) low :: rest)
  | _ => Ok []
  end.

Definition hex_decode (value : str) : result TraceError (list byte) :=
  let bytes := utf8 value in
  bail_if (negb (Nat.even (length bytes))) HexOddLength ;;
  bail_if (MAX_TRACE_REPLAY_CHUNK_BYTES <? Z.of_nat (length bytes / 2)) HexTooLong ;;
  hex_pairs bytes.

(** ** Events *)

Inductive TraceEvent : Set :=
  | TraceStart (trace_id client_version target : str) (client_protocol_version : Z) (created_at_unix_ms : option Z)
      (duration_ms max_bytes rows cols : Z)
  | TraceOutput (chunk_index elapsed_ms len : Z) (bytes_hex : str)
  | TraceEnd (elapsed_ms : Z) (reason : str) (bytes_recorded chunks_recorded : Z).

(** What the accessors of a JSON value tell of a field. *)
Inductive Json : Set := JString (s : str) | JU64 (n : Z) | JOther.
Definition Value : Type := str → option Json.

Definition as_str (j : Json) : option str := match j with JString s => Some s | _ => None end.
Definition as_u64 (j : Json) : option Z := match j with JU64 n => Some n | _ => None end.

(** The fields that [Serialize] gives an event, tagged by [type]. *)
Definition fields (e : TraceEvent) : list (str * Json) :=
  match e with
  | TraceStart trace_id client_version target client_protocol_version created_at_unix_ms duration_ms max_bytes rows cols =>
    [(lit "type", JString (lit "start")); (lit "schema_version", JString TRACE_SCHEMA_VERSION);
     (lit "format", JString TRACE_FORMAT); (lit "trace_id", JString trace_id); (lit "producer", JString (lit "lterm"));
     (lit "client_version", JString client_version); (lit "client_protocol_version", JU64 client_protocol_version);
     (lit "target", JString target);
     (lit "created_at_unix_ms", match created_at_unix_ms with Some n => JU64 n | None => JOther end);
     (lit "duration_ms", JU64 duration_ms); (lit "max_bytes", JU64 max_bytes); (lit "rows", JU64 rows); (lit "cols", JU64 cols);
     (lit "raw_stream_policy", JString (lit "raw-transparent"))]
  | TraceOutput chunk_index elapsed_ms len bytes_hex =>
    [(lit "type", JString (lit "output")); (lit "chunk_index", JU64 chunk_index); (lit "elapsed_ms", JU64 elapsed_ms);
     (lit "direction", JString (lit "stdout")); (lit "len", JU64 len); (lit "bytes_hex", JString bytes_hex)]
  | TraceEnd elapsed_ms reason bytes_recorded chunks_recorded =>
    [(lit "type", JString (lit "end")); (lit "elapsed_ms", JU64 elapsed_ms); (lit "reason", JString reason);
     (lit "bytes_recorded", JU64 bytes_recorded); (lit "chunks_recorded", JU64 chunks_recorded)]
  end.

Fixpoint field_of (fs : list (str * Json)) : Value := λ name,
  match fs with
  | [] => None
  | (field, value) :: fs => if bool_decide (field = name) then Some value else field_of fs name
  end.

Definition required_trace_str (event : Value) (field : str) : result TraceError str :=
  ok_or (event field ≫= as_str) (MissingString field).
Definition optional_trace_string (event : Value) (field : str) : option str := event field ≫= as_str.
Definition optional_trace_u64 (event : Value) (field : str) : option Z := event field ≫= as_u64.
Definition required_trace_u64 (event : Value) (field : str) : result TraceError Z :=
  match event field with
  | Some value => ok_or (as_u64 value) (NonU64 field)
  | None => Err (MissingU64 field)
  end.

Definition trace_output_event_len (event : Value) : result TraceError Z :=
  bytes_hex ← required_trace_str event (lit "bytes_hex");
  encoded_len ← hex_encoded_len bytes_hex;
  match event (lit "len") with
  | Some value =>
    len ← ok_or (as_u64 value) (NonU64 (lit "len"));
    bail_if (negb (len =? encoded_len)) LenDiffers ;;
    Ok len
  | None => Ok encoded_len
  end.

(** ** Recording *)

(** One round of the loop: the clock at its head and before the read, the answer of the read, and the
    clock when the chunk is written.  Times are in milliseconds since the start. *)
Inductive TraceRead : Set := TraceEof | TraceBytes (bytes : list byte) | TraceIdle | TraceReadError.
Record TraceRound : Set := { rd_head : Z; rd_now : Z; rd_read : TraceRead; rd_elapsed : Z }.

Definition TRACE_BUFFER : Z := 8192.

(** The rounds until the loop ends, and the clock then; [None] when they are used up before.
    [elapsed] is what [started.elapsed()] gives at the end. *)
Fixpoint trace_loop (duration max_bytes : Z) (rounds : list TraceRound) (raw_bytes_recorded chunks_recorded : Z)
    : option (result unit (list TraceEvent * str * Z * Z)) :=
  match rounds with
  | [] => None
  | round :: rounds =>
    if (duration <=? rd_head round) || (duration <=? rd_now round)
    then Some (Ok ([], lit "duration", raw_bytes_recorded, chunks_recorded))
    else match rd_read round with
    | TraceEof => Some (Ok ([], lit "eof", raw_bytes_recorded, chunks_recorded))
    | TraceIdle => trace_loop duration max_bytes rounds raw_bytes_recorded chunks_recorded
    | TraceReadError => Some (Err tt)
    | TraceBytes bytes =>
      let n := Z.of_nat (length bytes) in
      let remaining_bytes := saturating_sub max_bytes raw_bytes_recorded in
      if remaining_bytes =? 0 then Some (Ok ([], lit "max_bytes", raw_bytes_recorded, chunks_recorded))
      else
        let to_write := Z.min n remaining_bytes in
        let event := TraceOutput chunks_recorded (rd_elapsed round) to_write (hex_encode (take (Z.to_nat to_write) bytes)) in
        let raw_bytes_recorded := raw_bytes_recorded + to_write in
        let chunks_recorded := saturating_add u64_max chunks_recorded 1 in
        if (to_write <? n) || (max_bytes <=? raw_bytes_recorded)
        then Some (Ok ([event], lit "max_bytes", raw_bytes_recorded, chunks_recorded))
        else
          r ← trace_loop duration max_bytes rounds raw_bytes_recorded chunks_recorded;
          Some ('(events, reason, raw_bytes_recorded, chunks_recorded) ← r;
                Ok (event :: events, reason, raw_bytes_recorded, chunks_recorded))
    end
  end.

(** The file of some events, with [serde_json::to_writer] as a parameter. *)
Definition write_trace_event (to_string : TraceEvent → str) (e : TraceEvent) : list byte := utf8 (to_string e) ++ [0x0a].
Definition trace_file (to_string : TraceEvent → str) (events : list TraceEvent) : list byte :=
  concat (write_trace_event to_string <$> events).

(** The events of a whole recording; [end_elapsed] is the clock when it ends. *)
Definition trace_output (start : TraceEvent) (duration max_bytes : Z) (rounds : list TraceRound) (end_elapsed : Z)
    : option (result unit (list TraceEvent)) :=
  if max_bytes =? 0 then Some (Err tt)
  else
    r ← trace_loop duration max_bytes rounds 0 0;
    Some ('(events, reason, raw_bytes_recorded, chunks_recorded) ← r;
          Ok (start :: events ++ [TraceEnd end_elapsed reason raw_bytes_recorded chunks_recorded])).

(** ** Reading lines *)

Abbreviation BufRead := (list (result unit (list byte))).

(** The loop of [read_trace_jsonl_line]: the bytes of the line with its newline. *)
Fixpoint read_raw_line (reader : BufRead) (line : list byte) : result TraceError (option (list byte * BufRead)) :=
  match reader with
  | Err _ :: _ => Err ReadFailed
  | [] | Ok [] :: _ => if bool_decide (line = []) then Ok None else Ok (Some (line, reader))
  | Ok available :: rest =>
    match position is_newline available with
    | Some pos =>
      bail_if (MAX_TRACE_JSONL_LINE_BYTES <? saturating_add usize_max (Z.of_nat (length line)) (Z.of_nat (S pos))) LineTooLong ;;
      Ok (Some (line ++ take (S pos) available, consume available (S pos) rest))
    | None =>
      bail_if (MAX_TRACE_JSONL_LINE_BYTES <? saturating_add usize_max (Z.of_nat (length line)) (Z.of_nat (length available))) LineTooLong ;;
      read_raw_line rest (line ++ available)
    end
  end.

(** [if line.last() == Some(&b) { line.pop(); }] *)
Definition pop_if (b : byte) (line : list byte) : list byte :=
  if bool_decide (last line = Some b) then removelast line else line.

Definition read_trace_jsonl_line (reader : BufRead) : result TraceError (option (str * BufRead)) :=
  r ← read_raw_line reader [];
  match r with
  | None => Ok None
  | Some (line, reader) =>
    text ← ok_or (from_utf8 (pop_if 0x0d (pop_if 0x0a line))) NotUtf8;
    Ok (Some (text, reader))
  end.

(** ** Validating a trace for its replay *)

Record TraceReplayChunk : Set := { ch_line_number : nat; ch_elapsed_ms : Z; ch_bytes : list byte }.

Record Replay : Set := {
  rp_start_seen : bool;
  rp_end_seen : bool;
  rp_previous_elapsed_ms : Z;
  rp_expected_chunk_index : Z;
  rp_replayed_bytes : Z;
  rp_line_number : nat;
  rp_chunks : list TraceReplayChunk;
  rp_total_bytes : Z;
}.
Definition Replay_start : Replay := {|
  rp_start_seen := false; rp_end_seen := false; rp_previous_elapsed_ms := 0; rp_expected_chunk_index := 0;
  rp_replayed_bytes := 0; rp_line_number := 0; rp_chunks := []; rp_total_bytes := 0 |}.

Definition with_line (s : Replay) : Replay := {|
  rp_start_seen := rp_start_seen s; rp_end_seen := rp_end_seen s; rp_previous_elapsed_ms := rp_previous_elapsed_ms s;
  rp_expected_chunk_index := rp_expected_chunk_index s; rp_replayed_bytes := rp_replayed_bytes s;
  rp_line_number := S (rp_line_number s); rp_chunks := rp_chunks s; rp_total_bytes := rp_total_bytes s |}.
Definition with_seen (s : Replay) (start_seen end_seen : bool) : Replay := {|
  rp_start_seen := start_seen; rp_end_seen := end_seen; rp_previous_elapsed_ms := rp_previous_elapsed_ms s;
  rp_expected_chunk_index := rp_expected_chunk_index s; rp_replayed_bytes := rp_replayed_bytes s;
  rp_line_number := rp_line_number s; rp_chunks := rp_chunks s; rp_total_bytes := rp_total_bytes s |}.

Definition validate_trace_start_event (event : Value) : result TraceError unit :=
  schema_version ← required_trace_str event (lit "schema_version");
  bail_if (negb (bool_decide (schema_version = TRACE_SCHEMA_VERSION))) UnsupportedSchema ;;
  match optional_trace_string event (lit "format") with
  | Some format => bail_if (negb (bool_decide (format = TRACE_FORMAT))) UnsupportedFormat
  | None => bail_if (is_some (event (lit "format"))) (NonString (lit "format"))
  end.

(** An optional field that must be a number and satisfy a check. *)
Definition check_optional_u64 (event : Value) (field : str) (check : Z → result TraceError unit) : result TraceError unit :=
  match optional_trace_u64 event field with
  | Some n => check n
  | None => bail_if (is_some (event field)) (NonU64 field)
  end.

Definition replay_start_event (s : Replay) (event : Value) : result TraceError Replay :=
  bail_if (rp_start_seen s) DuplicateStart ;;
  bail_if (rp_end_seen s || negb (rp_expected_chunk_index s =? 0)) StartAfterOutput ;;
  validate_trace_start_event event ;;
  required_trace_u64 event (lit "duration_ms") ;;
  Ok (with_seen s true (rp_end_seen s)).

Definition replay_output_event (timing : bool) (s : Replay) (event : Value) : result TraceError Replay :=
  bail_if (negb (rp_start_seen s)) OutputBeforeStart ;;
  bail_if (rp_end_seen s) OutputAfterEnd ;;
  direction ← required_trace_str event (lit "direction");
  bail_if (negb (bool_decide (direction = lit "stdout"))) UnsupportedDirection ;;
  check_optional_u64 event (lit "chunk_index") (λ chunk_index,
    bail_if (negb (chunk_index =? rp_expected_chunk_index s)) ChunkIndexDiffers) ;;
  bail_if (MAX_TRACE_REPLAY_CHUNKS <=? rp_expected_chunk_index s) TooManyChunks ;;
  elapsed_ms ← required_trace_u64 event (lit "elapsed_ms");
  bail_if (elapsed_ms <? rp_previous_elapsed_ms s) ElapsedBackwards ;;
  bytes_hex ← required_trace_str event (lit "bytes_hex");
  encoded_len ← hex_encoded_len bytes_hex;
  bail_if (MAX_TRACE_REPLAY_CHUNK_BYTES <? encoded_len) ChunkTooLong ;;
  expected_len ← required_trace_u64 event (lit "len");
  bail_if (negb (expected_len =? encoded_len)) LenDiffers ;;
  bail_if (MAX_TRACE_REPLAY_TOTAL_BYTES <? saturating_add u64_max (rp_total_bytes s) expected_len) TooManyBytes ;;
  bytes ← hex_decode bytes_hex;
  bail_if (timing && (MAX_TRACE_REPLAY_DELAY_MS <? saturating_sub elapsed_ms (rp_previous_elapsed_ms s))) DelayTooLong ;;
  Ok {| rp_start_seen := rp_start_seen s; rp_end_seen := rp_end_seen s; rp_previous_elapsed_ms := elapsed_ms;
        rp_expected_chunk_index := saturating_add u64_max (rp_expected_chunk_index s) 1;
        rp_replayed_bytes := saturating_add u64_max (rp_replayed_bytes s) expected_len;
        rp_line_number := rp_line_number s;
        rp_chunks := rp_chunks s ++ [{| ch_line_number := rp_line_number s; ch_elapsed_ms := elapsed_ms; ch_bytes := bytes |}];
        rp_total_bytes := saturating_add u64_max (rp_total_bytes s) expected_len |}.

Definition replay_end_event (s : Replay) (event : Value) : result TraceError Replay :=
  bail_if (negb (rp_start_seen s)) EndBeforeStart ;;
  bail_if (rp_end_seen s) DuplicateEnd ;;
  check_optional_u64 event (lit "chunks_recorded") (λ chunks_recorded,
    bail_if (negb (chunks_recorded =? rp_expected_chunk_index s)) ChunksDiffer) ;;
  check_optional_u64 event (lit "bytes_recorded") (λ bytes_recorded,
    bail_if (MAX_TRACE_REPLAY_TOTAL_BYTES <? bytes_recorded) TooManyBytes ;;
    bail_if (negb (bytes_recorded =? rp_replayed_bytes s)) BytesDiffer) ;;
  Ok (with_seen s (rp_start_seen s) true).

Section json.
Context (from_str : str → option Value).

Definition replay_line (timing : bool) (s : Replay) (line : str) : result TraceError Replay :=
  let s := with_line s in
  if forallb is_whitespace line then Ok s
  else
    event ← ok_or (from_str line) NotJson;
    event_type ← required_trace_str event (lit "type");
    if bool_decide (event_type = lit "start") then replay_start_event s event
    else if bool_decide (event_type = lit "output") then replay_output_event timing s event
    else if bool_decide (event_type = lit "end") then replay_end_event s event
    else Err UnsupportedEvent.

(** The loop over the lines; [None] when the fuel does not suffice. *)
Fixpoint for_lines {S} (body : S → str → result TraceError S) (fuel : nat) (reader : BufRead) (s : S)
    : option (result TraceError S) :=
  match fuel with
  | O => None
  | Datatypes.S fuel =>
    match read_trace_jsonl_line reader with
    | Err e => Some (Err e)
    | Ok None => Some (Ok s)
    | Ok (Some (line, reader)) =>
      match body s line with
      | Err e => Some (Err e)
      | Ok s => for_lines body fuel reader s
      end
    end
  end.

(** Every line takes at least a byte, which is the fuel that is given. *)
Definition validate_trace_replay (timing : bool) (reader : BufRead) : option (result TraceError (list TraceReplayChunk * Z)) :=
  r ← for_lines (replay_line timing) (S (length (reader_bytes reader))) reader Replay_start;
  Some (
    s ← r;
    bail_if (negb (rp_start_seen s)) MissingStart ;;
    bail_if (negb (rp_end_seen s)) MissingEnd ;;
    Ok (rp_chunks s, rp_total_bytes s)).
End json.

(** [replay_trace]: before each chunk the pause in milliseconds, and the bytes that are written. *)
Fixpoint replay_writes (timing : bool) (previous_elapsed_ms : Z) (chunks : list TraceReplayChunk) : list (Z * list byte) :=
  match chunks with
  | [] => []
  | chunk :: chunks =>
    (if timing then saturating_sub (ch_elapsed_ms chunk) previous_elapsed_ms else 0, ch_bytes chunk)
    :: replay_writes timing (ch_elapsed_ms chunk) chunks
  end.

Definition replay_trace (from_str : str → option Value) (timing : bool) (reader : BufRead)
    : option (result TraceError (list (Z * list byte))) :=
  r ← validate_trace_replay from_str timing reader;
  Some ('(chunks, _) ← r; Ok (replay_writes timing 0 chunks)).
