(* ===== verification/TraceReplay.v ===== *)
(** The theorems on traces (TraceFile.v): the reader gives the same lines however the file is
    buffered, what is accepted for a replay keeps the limits, and what is recorded is accepted
    and replays to the bytes that were read. *)
From stdpp Require Import sorting.
From S2P Require Import Prelude Utf8 Text Sanitize Protocol TraceFile.

(** ** Lines *)

(** The first line of a file, with its newline if it has one, and what follows. *)
Definition first_line (file : list byte) : list byte * list byte :=
  match position is_newline file with
  | Some pos => (take (S pos) file, drop (S pos) file)
  | None => (file, [])
  end.

Definition fits (line : list byte) : bool := Z.of_nat (length line) <=? MAX_TRACE_JSONL_LINE_BYTES.

Lemma saturating_length (l k : list byte) n : n = length (l ++ k) →
  (MAX_TRACE_JSONL_LINE_BYTES <? saturating_add usize_max (Z.of_nat (length l)) (Z.of_nat (length k))) = negb (Z.of_nat n <=? MAX_TRACE_JSONL_LINE_BYTES).
Proof.
  intros ->. rewrite length_app. unfold saturating_add, usize_max, u64_max, MAX_TRACE_JSONL_LINE_BYTES.
  destruct (Z.leb_spec (Z.of_nat (length l + length k)) 1048576); cbn [negb]; lia.
Qed.

Lemma position_app_None {A} (p : A → bool) l k : position p l = None → position p (l ++ k) = Nat.add (length l) <$> position p k.
Proof.
  induction l as [|x l IH]; simpl; [by destruct (position p k)|]. destruct (p x); [done|].
  destruct (position p l) eqn:Hl; [done|]. intros _. rewrite IH //. by destruct (position p k).
Qed.

Lemma first_line_app l k : position is_newline l = None → first_line (l ++ k) = (l ++ (first_line k).1, (first_line k).2).
Proof.
  intros Hl. unfold first_line. rewrite position_app_None //. destruct (position is_newline k) as [n|]; [|done]. cbn [fmap option_fmap option_map fst snd].
  rewrite -Nat.add_succ_r take_app_add drop_app_add //.
Qed.

(** Short of an error the reader gives the first line. *)
Lemma read_raw_line_spec reader line : well_cut reader → position is_newline line = None → fits line = true →
  let '(l, rest) := first_line (reader_bytes reader) in
  if fits (line ++ l) then
    if bool_decide (line ++ l = []) then read_raw_line reader line = Ok None
    else ∃ reader', read_raw_line reader line = Ok (Some (line ++ l, reader')) ∧ reader_bytes reader' = rest ∧ well_cut reader'
  else read_raw_line reader line = Err LineTooLong.
Proof.
  intros Hr. revert line. induction Hr as [|c r (b & bs & ->) Hr IH]; intros line Hline Hfits.
  - cbn. rewrite app_nil_r Hfits. case_bool_decide; [done|]. exists []. by split_and!; [|done|constructor].
  - cbn [read_raw_line]. set (available := b :: bs) in *. change (reader_bytes (Ok available :: r)) with (available ++ reader_bytes r).
    destruct (position is_newline available) as [n|] eqn:Hp.
    + pose proof (position_lt _ _ _ Hp) as Hlt. unfold first_line. rewrite (position_app_l _ _ _ _ Hp).
      rewrite take_app_le; [|lia]. rewrite drop_app_le; [|lia].
      replace (Z.of_nat (S n)) with (Z.of_nat (length (take (S n) available))) by (rewrite length_take; lia).
      rewrite (saturating_length _ _ _ eq_refl). fold (fits (line ++ take (S n) available)).
      rewrite bool_decide_false; [|by destruct line]. destruct (fits (line ++ take (S n) available)); cbn [negb]; [|done].
      eexists. split; [done|]. rewrite consume_bytes. split; [done|by apply consume_well_cut].
    + rewrite first_line_app // (saturating_length _ _ _ eq_refl). fold (fits (line ++ available)).
      specialize (IH (line ++ available)). rewrite position_app_None // Hp in IH. specialize (IH eq_refl).
      destruct (fits (line ++ available)) eqn:Ha; cbn [negb].
      * specialize (IH eq_refl). destruct (first_line (reader_bytes r)) as [l rest]. cbn [fst snd].
        rewrite -(assoc_L (++)) in IH. exact IH.
      * assert (fits (line ++ available ++ (first_line (reader_bytes r)).1) = false) as ->; [|done].
        clear IH. clearbody available. unfold fits in *. rewrite !length_app. rewrite length_app in Ha. apply Z.leb_gt. apply Z.leb_gt in Ha. lia.
Qed.

(** Whatever the reader answers, a line is taken from its bytes. *)
Lemma read_raw_line_takes reader line l reader' : read_raw_line reader line = Ok (Some (l, reader')) →
  l ++ reader_bytes reader' = line ++ reader_bytes reader ∧ l ≠ [].
Proof.
  revert line. induction reader as [|[[|b bs]|e] r IH]; intros line; cbn [read_raw_line]; [| | |done].
  1, 2: case_bool_decide; [done|]; by intros [= <- <-].
  set (available := b :: bs). change (reader_bytes (Ok available :: r)) with (available ++ reader_bytes r).
  destruct (position is_newline available) as [n|] eqn:Hp; intros Hrun; apply bind_Ok in Hrun as ([] & _ & Hrun).
  - assert (l = line ++ take (S n) available ∧ reader' = consume available (S n) r) as [-> ->] by (split; congruence).
    rewrite consume_bytes -(assoc_L (++)) (assoc_L (++) (take _ _)) take_drop. split; [done|]. by destruct line.
  - apply IH in Hrun as [H Hl]. by rewrite -(assoc_L (++)) in H.
Qed.

Lemma read_line_takes reader text reader' : read_trace_jsonl_line reader = Ok (Some (text, reader')) →
  (length (reader_bytes reader') < length (reader_bytes reader))%nat.
Proof.
  unfold read_trace_jsonl_line. intros Hrun. destruct (read_raw_line reader []) as [[[l r]|]|] eqn:Hl; [|done..]. cbn in Hrun.
  destruct (from_utf8 _); [|done]. injection Hrun as <- <-. apply read_raw_line_takes in Hl as [Hb Hne].
  apply (f_equal length) in Hb. rewrite !length_app in Hb. destruct l; [done|]. simpl in Hb. lia.
Qed.

(** The loop over the lines ends, with more fuel in the same way. *)
Lemma for_lines_enough {S} (body : S → str → result TraceError S) fuel reader s :
  (length (reader_bytes reader) < fuel)%nat →
  is_Some (for_lines body fuel reader s) ∧ ∀ more, (fuel ≤ more)%nat → for_lines body more reader s = for_lines body fuel reader s.
Proof.
  revert reader s. induction fuel as [|fuel IH]; intros reader s Hf; [lia|]. cbn [for_lines].
  destruct (read_trace_jsonl_line reader) as [[[line r]|]|e] eqn:Hline.
  - pose proof (read_line_takes _ _ _ Hline). destruct (body s line) as [s'|e] eqn:Hb.
    + destruct (IH r s') as [Hsome Hmore]; [lia|]. split; [done|]. intros [|more] Hm; [lia|]. cbn [for_lines]. rewrite Hline Hb.
      apply Hmore. lia.
    + split; [done|]. intros [|more] Hm; [lia|]. cbn [for_lines]. by rewrite Hline Hb.
  - split; [done|]. intros [|more] Hm; [lia|]. cbn [for_lines]. by rewrite Hline.
  - split; [done|]. intros [|more] Hm; [lia|]. cbn [for_lines]. by rewrite Hline.
Qed.

(** Two readers of one file give the same line. *)
Lemma read_line_same r1 r2 : well_cut r1 → well_cut r2 → reader_bytes r1 = reader_bytes r2 →
  match read_trace_jsonl_line r1 with
  | Ok (Some (text, r1')) => ∃ r2', read_trace_jsonl_line r2 = Ok (Some (text, r2')) ∧
      well_cut r1' ∧ well_cut r2' ∧ reader_bytes r1' = reader_bytes r2'
  | Ok None => read_trace_jsonl_line r2 = Ok None
  | Err e => read_trace_jsonl_line r2 = Err e
  end.
Proof.
  intros H1 H2 Hsame. pose proof (read_raw_line_spec r1 [] H1 eq_refl eq_refl) as S1.
  pose proof (read_raw_line_spec r2 [] H2 eq_refl eq_refl) as S2. rewrite -Hsame in S2. unfold read_trace_jsonl_line.
  destruct (first_line (reader_bytes r1)) as [l rest]. cbn [app] in S1, S2. destruct (fits l); [|by rewrite S1 S2].
  case_bool_decide; [by rewrite S1 S2|]. destruct S1 as (r1' & -> & Hr1 & Hw1), S2 as (r2' & -> & Hr2 & Hw2). cbn.
  destruct (from_utf8 _); cbn; [|done]. exists r2'. split_and!; [done..|congruence].
Qed.

Lemma for_lines_same {S} (body : S → str → result TraceError S) fuel r1 r2 s :
  well_cut r1 → well_cut r2 → reader_bytes r1 = reader_bytes r2 → for_lines body fuel r1 s = for_lines body fuel r2 s.
Proof.
  revert r1 r2 s. induction fuel as [|fuel IH]; intros r1 r2 s H1 H2 Hsame; [done|]. cbn [for_lines].
  pose proof (read_line_same r1 r2 H1 H2 Hsame) as Hl. destruct (read_trace_jsonl_line r1) as [[[line r1']|]|e].
  - destruct Hl as (r2' & -> & H1' & H2' & Hsame'). destruct (body s line); [|done]. by apply IH.
  - by rewrite Hl.
  - by rewrite Hl.
Qed.

(** The validation of a trace always ends, whatever the file and its reader answer, and its
    outcome depends on the bytes of the file alone, not on how they come in buffers. *)
Theorem validation_ignores_buffering from_str timing :
  (∀ reader, is_Some (validate_trace_replay from_str timing reader)) ∧
  ∀ r1 r2, well_cut r1 → well_cut r2 → reader_bytes r1 = reader_bytes r2 →
    validate_trace_replay from_str timing r1 = validate_trace_replay from_str timing r2.
Proof.
  unfold validate_trace_replay. split.
  - intros reader. destruct (for_lines_enough (replay_line from_str timing) (S (length (reader_bytes reader))) reader Replay_start)
      as [[r ->] _]; [lia|]. by eexists.
  - intros r1 r2 H1 H2 Hsame. by rewrite Hsame (for_lines_same _ _ r1 r2).
Qed.

(** ** What is accepted keeps the limits *)

(** Times that do not go back, with no gap above the cap when they are replayed in time. *)
Definition pace (timing : bool) (previous t : Z) : Prop :=
  previous ≤ t ∧ (timing = true → saturating_sub t previous ≤ MAX_TRACE_REPLAY_DELAY_MS).

Definition chunk_times (chunks : list TraceReplayChunk) : list Z := 0 :: (ch_elapsed_ms <$> chunks).
Definition chunk_total (chunks : list TraceReplayChunk) : Z := foldr (λ c n, Z.of_nat (length (ch_bytes c)) + n) 0 chunks.

Record replay_ok (timing : bool) (s : Replay) : Prop := {
  ro_index : rp_expected_chunk_index s = Z.of_nat (length (rp_chunks s));
  ro_count : rp_expected_chunk_index s ≤ MAX_TRACE_REPLAY_CHUNKS;
  ro_total : rp_total_bytes s = chunk_total (rp_chunks s);
  ro_cap : rp_total_bytes s ≤ MAX_TRACE_REPLAY_TOTAL_BYTES;
  ro_replayed : rp_replayed_bytes s = rp_total_bytes s;
  ro_chunks : Forall (λ c, Z.of_nat (length (ch_bytes c)) ≤ MAX_TRACE_REPLAY_CHUNK_BYTES) (rp_chunks s);
  ro_last : last (chunk_times (rp_chunks s)) = Some (rp_previous_elapsed_ms s);
  ro_times : Sorted (pace timing) (chunk_times (rp_chunks s));
}.

Lemma replay_ok_start timing : replay_ok timing Replay_start.
Proof. by repeat constructor. Qed.

Lemma replay_ok_same timing s s' : replay_ok timing s →
  rp_expected_chunk_index s' = rp_expected_chunk_index s → rp_total_bytes s' = rp_total_bytes s →
  rp_replayed_bytes s' = rp_replayed_bytes s → rp_chunks s' = rp_chunks s →
  rp_previous_elapsed_ms s' = rp_previous_elapsed_ms s → replay_ok timing s'.
Proof. intros [] H1 H2 H3 H4 H5. split; by rewrite ?H1 ?H2 ?H3 ?H4 ?H5. Qed.

Lemma hex_pairs_length bytes out : hex_pairs bytes = Ok out → length out = (length bytes / 2)%nat.
Proof.
  revert out. induction bytes as [bytes IH] using list_len_ind. intros out.
  destruct bytes as [|b0 [|b1 bytes]]; [by intros [= <-]..|]. cbn [hex_pairs]. intros Hrun. inv_ok.
  match goal with H : hex_pairs bytes = Ok ?rest, H' : Ok _ = Ok out |- _ => apply IH in H; [|simpl; lia]; injection H' as <- end.
  cbn [length]. rewrite (_ : S (S (length bytes)) = length bytes + 1 * 2)%nat; [|lia]. rewrite Nat.div_add; lia.
Qed.

Lemma hex_decode_length value n bytes : hex_encoded_len value = Ok n → hex_decode value = Ok bytes → Z.of_nat (length bytes) = n.
Proof.
  unfold hex_encoded_len, hex_decode. intros H1 H2. inv_ok. simplify_eq.
  match goal with H : hex_pairs _ = Ok _ |- _ => apply hex_pairs_length in H as -> end. done.
Qed.

Lemma chunk_total_app a b : chunk_total (a ++ b) = chunk_total a + chunk_total b.
Proof. unfold chunk_total. induction a as [|c a IH]; simpl; lia. Qed.

Lemma chunk_total_concat chunks : chunk_total chunks = Z.of_nat (length (concat (ch_bytes <$> chunks))).
Proof. unfold chunk_total. induction chunks as [|c chunks IH]; [done|]. cbn [foldr fmap list_fmap concat]. rewrite length_app IH. lia. Qed.

(** The state after an output event. *)
Definition after_output (s : Replay) (elapsed_ms : Z) (bytes : list byte) : Replay :=
  let n := Z.of_nat (length bytes) in {|
  rp_start_seen := rp_start_seen s; rp_end_seen := rp_end_seen s; rp_previous_elapsed_ms := elapsed_ms;
  rp_expected_chunk_index := saturating_add u64_max (rp_expected_chunk_index s) 1;
  rp_replayed_bytes := saturating_add u64_max (rp_replayed_bytes s) n; rp_line_number := rp_line_number s;
  rp_chunks := rp_chunks s ++ [{| ch_line_number := rp_line_number s; ch_elapsed_ms := elapsed_ms; ch_bytes := bytes |}];
  rp_total_bytes := saturating_add u64_max (rp_total_bytes s) n |}.

Lemma required_optional event field n : required_trace_u64 event field = Ok n → optional_trace_u64 event field = Some n.
Proof. unfold required_trace_u64, optional_trace_u64. destruct (event field) as [v|]; [|done]. cbn. by destruct (as_u64 v) as [?|]; [intros [= ->]|]. Qed.

Lemma replay_output_Ok timing s event s' : replay_output_event timing s event = Ok s' →
  rp_end_seen s = false ∧ ∃ elapsed_ms bytes, s' = after_output s elapsed_ms bytes ∧
    optional_trace_u64 event (lit "elapsed_ms") = Some elapsed_ms ∧ trace_output_event_len event = Ok (Z.of_nat (length bytes)) ∧
    rp_expected_chunk_index s < MAX_TRACE_REPLAY_CHUNKS ∧ pace timing (rp_previous_elapsed_ms s) elapsed_ms ∧
    Z.of_nat (length bytes) ≤ MAX_TRACE_REPLAY_CHUNK_BYTES ∧
    saturating_add u64_max (rp_total_bytes s) (Z.of_nat (length bytes)) ≤ MAX_TRACE_REPLAY_TOTAL_BYTES.
Proof.
  intros Hrun. unfold replay_output_event in Hrun. inv_ok. split; [done|]. simplify_eq.
  match goal with H : hex_encoded_len _ = Ok ?n, H' : hex_decode _ = Ok ?bytes, He : (?e =? ?n) = true,
      Ht : required_trace_u64 _ _ = Ok ?t, Hl : required_trace_u64 _ _ = Ok ?e, Hx : required_trace_str event (lit "bytes_hex") = _ |- _ =>
    pose proof (hex_decode_length _ _ _ H H') as Hn; apply Z.eqb_eq in He; subst e; subst n; exists t, bytes; split; [done|];
    apply required_optional in Ht, Hl; unfold trace_output_event_len; rewrite Hx; cbn [mbind result_bind]; rewrite H end.
  unfold pace. split_and!; try lia; [done| |intros ->; simpl in *; lia].
  unfold optional_trace_u64 in *. destruct (event (lit "len")) as [v|]; [|done]. cbn [mbind option_bind] in *.
  match goal with H : as_u64 v = _ |- _ => rewrite H end. cbn. by rewrite Z.eqb_refl.
Qed.

Lemma output_ok timing s event s' : replay_ok timing s → replay_output_event timing s event = Ok s' → replay_ok timing s'.
Proof.
  intros [Hindex Hcount Htotal Hcap Hreplayed Hchunks Hlast Htimes] (_ & t & bytes & -> & _ & _ & Hlt & Hpace & Hlen & Hsum)%replay_output_Ok.
  assert (saturating_add u64_max (rp_total_bytes s) (Z.of_nat (length bytes)) = rp_total_bytes s + Z.of_nat (length bytes)) as Hadd.
  { unfold saturating_add in *. unfold MAX_TRACE_REPLAY_TOTAL_BYTES, DEFAULT_TRACE_MAX_BYTES, u64_max in *. lia. }
  assert (saturating_add u64_max (rp_expected_chunk_index s) 1 = rp_expected_chunk_index s + 1) as Hnext.
  { unfold saturating_add, MAX_TRACE_REPLAY_CHUNKS, u64_max in *. lia. }
  split; unfold after_output; cbn [rp_expected_chunk_index rp_chunks rp_total_bytes rp_replayed_bytes rp_previous_elapsed_ms].
  - rewrite Hnext length_app /=. lia.
  - lia.
  - rewrite Hadd chunk_total_app Htotal. unfold chunk_total. simpl. lia.
  - lia.
  - by rewrite Hreplayed.
  - apply Forall_app. split; [done|]. by apply Forall_singleton.
  - unfold chunk_times. rewrite fmap_app app_comm_cons last_snoc. done.
  - unfold chunk_times in *. rewrite fmap_app app_comm_cons. apply Sorted_snoc; [done|].
    apply last_Some in Hlast as [l ->]. by constructor.
Qed.

Lemma line_ok from_str timing s line s' : replay_ok timing s → replay_line from_str timing s line = Ok s' → replay_ok timing s'.
Proof.
  intros Hok Hrun. unfold replay_line in Hrun. assert (replay_ok timing (with_line s)) as Hok' by by eapply replay_ok_same.
  destruct (forallb _ line); [by injection Hrun as <-|]. apply bind_Ok in Hrun as (event & _ & Hrun).
  apply bind_Ok in Hrun as (event_type & _ & Hrun). case_bool_decide; [|case_bool_decide; [|case_bool_decide; [|done]]].
  - unfold replay_start_event in Hrun. inv_ok. simplify_eq. by eapply replay_ok_same.
  - by eapply output_ok.
  - unfold replay_end_event in Hrun. inv_ok. simplify_eq. by eapply replay_ok_same.
Qed.

Lemma for_lines_ok {S} (P : S → Prop) body fuel reader s s' :
  (∀ s line s', P s → body s line = Ok s' → P s') → P s → for_lines body fuel reader s = Some (Ok s') → P s'.
Proof.
  intros Hbody. revert reader s. induction fuel as [|fuel IH]; intros reader s Hs; [done|]. cbn [for_lines].
  destruct (read_trace_jsonl_line reader) as [[[line r]|]|e]; [|by intros [= <-]|done].
  destruct (body s line) as [s1|e] eqn:Hb; [|done]. apply IH. by eapply Hbody.
Qed.

(** C32: what is accepted for a replay keeps the limits, whatever is in the file: at most 16384
    chunks of at most 1 MiB, 16 MiB in all (which is the total reported), at times that do not
    go back, and when it is replayed in time with no pause above a minute. *)
Theorem replay_within_limits from_str timing reader chunks total :
  validate_trace_replay from_str timing reader = Some (Ok (chunks, total)) →
  Z.of_nat (length chunks) ≤ MAX_TRACE_REPLAY_CHUNKS ∧
  Forall (λ c, Z.of_nat (length (ch_bytes c)) ≤ MAX_TRACE_REPLAY_CHUNK_BYTES) chunks ∧
  total = Z.of_nat (length (concat (ch_bytes <$> chunks))) ∧ total ≤ MAX_TRACE_REPLAY_TOTAL_BYTES ∧
  Sorted (pace timing) (chunk_times chunks).
Proof.
  unfold validate_trace_replay. intros Hrun. destruct (for_lines _ _ _ _) as [[s|e]|] eqn:Hlines; [|done..].
  apply (for_lines_ok (replay_ok timing)) in Hlines as [Hindex Hcount Htotal Hcap _ Hchunks _ Htimes];
    [|intros; by eapply line_ok|apply replay_ok_start].
  cbn in Hrun. injection Hrun as Hrun. inv_ok. simplify_eq. split_and!; [lia|done| |done|done].
  by rewrite Htotal chunk_total_concat.
Qed.

(** * A recording replays *)

(** ** Hexadecimal *)

Definition is_byte (b : byte) : Prop := 0 ≤ b < 256.

Lemma hex_encode_cons b bytes :
  hex_encode (b :: bytes) = HEX !!! Z.to_nat (Z.shiftr b 4) :: HEX !!! Z.to_nat (Z.land b 0x0f) :: hex_encode bytes.
Proof. done. Qed.

(** Each byte has two digits, which give it back. *)
Definition digits_of (b : byte) : bool :=
  let high := HEX !!! Z.to_nat (Z.shiftr b 4) in
  let low := HEX !!! Z.to_nat (Z.land b 0x0f) in
  is_ascii_hexdigit high && is_ascii_hexdigit low
  && match hex_nibble high, hex_nibble low with Some h, Some l => Z.lor (Z.shiftl h 4) l =? b | _, _ => false end.

Lemma hex_digits b : is_byte b →
  let high := HEX !!! Z.to_nat (Z.shiftr b 4) in let low := HEX !!! Z.to_nat (Z.land b 0x0f) in
  is_ascii_hexdigit high = true ∧ is_ascii_hexdigit low = true ∧
  ∃ h l, hex_nibble high = Some h ∧ hex_nibble low = Some l ∧ Z.lor (Z.shiftl h 4) l = b.
Proof.
  intros Hb. assert (digits_of b = true) as Hall by (revert b Hb; apply (forall_below 256 digits_of); vm_compute; reflexivity).
  unfold digits_of in Hall. intros high low. fold high low in Hall. rewrite !andb_true_iff in Hall.
  destruct Hall as [[H1 H2] Hn]. split_and!; [done..|].
  destruct (hex_nibble high), (hex_nibble low); try done. apply Z.eqb_eq in Hn. by eexists _, _.
Qed.

Lemma hex_encode_digits bytes : Forall is_byte bytes → forallb is_ascii_hexdigit (hex_encode bytes) = true.
Proof.
  induction 1 as [|b bytes Hb _ IH]; [done|]. destruct (hex_digits b Hb) as (H1 & H2 & _). rewrite hex_encode_cons. cbn [forallb].
  by rewrite H1 H2 IH.
Qed.

Lemma hex_encode_utf8 bytes : Forall is_byte bytes → utf8 (hex_encode bytes) = hex_encode bytes.
Proof.
  intros Hb. apply utf8_ascii. pose proof (hex_encode_digits bytes Hb) as Hd. rewrite forallb_forall in Hd.
  apply Forall_forall. intros c Hc%list_elem_of_In%Hd. unfold is_ascii_hexdigit, ascii_digit, within in Hc. lia.
Qed.

Lemma hex_encode_length bytes : length (hex_encode bytes) = (length bytes * 2)%nat.
Proof. induction bytes as [|b bytes IH]; [done|]. rewrite hex_encode_cons. cbn [length]. lia. Qed.

Lemma hex_encode_even bytes : Nat.even (length (hex_encode bytes)) = true.
Proof. rewrite hex_encode_length Nat.even_mul. by destruct (Nat.even _). Qed.

Lemma hex_encode_half bytes : (length (hex_encode bytes) / 2 = length bytes)%nat.
Proof. by rewrite hex_encode_length Nat.div_mul. Qed.

Lemma hex_encode_len bytes : Forall is_byte bytes → hex_encoded_len (hex_encode bytes) = Ok (Z.of_nat (length bytes)).
Proof. intros Hb. unfold hex_encoded_len. by rewrite hex_encode_utf8 // hex_encode_digits // hex_encode_even hex_encode_half. Qed.

Lemma hex_decode_encode bytes : Forall is_byte bytes → Z.of_nat (length bytes) ≤ MAX_TRACE_REPLAY_CHUNK_BYTES →
  hex_decode (hex_encode bytes) = Ok bytes.
Proof.
  intros Hb Hlen. unfold hex_decode. rewrite hex_encode_utf8 // hex_encode_even hex_encode_half (proj2 (Z.ltb_ge _ _)) //. cbn.
  clear Hlen. induction Hb as [|b bytes Hb _ IH]; [done|]. destruct (hex_digits b Hb) as (_ & _ & h & l & Hh & Hl & Hbl).
  rewrite hex_encode_cons. cbn [hex_pairs]. rewrite Hh Hl. cbn. by rewrite IH /= Hbl.
Qed.

(** ** The lines of a file *)

(** A line that can be read back. *)
Definition text_ok (text : str) : Prop :=
  Forall (λ c, is_char c = true) text ∧ 0x0a ∉ text ∧ last text ≠ Some 0x0d ∧
  Z.of_nat (length (utf8 text)) < MAX_TRACE_JSONL_LINE_BYTES.
Definition line_bytes (text : str) : list byte := utf8 text ++ [0x0a].

Lemma encode_low c b : is_char c = true → b ∈ encode c → b < 0x80 → c = b.
Proof.
  unfold encode. intros Hc Hb Hlow. assert (0 ≤ c) by (unfold is_char, within in Hc; lia).
  destruct (Z.ltb_spec c 0x80); [by apply list_elem_of_singleton in Hb|exfalso].
  revert Hb. destruct (c <? 0x800); [|destruct (c <? 0x10000)]; rewrite !elem_of_cons elem_of_nil; Z.div_mod_to_equations; lia.
Qed.

Lemma utf8_low s b : Forall (λ c, is_char c = true) s → b ∈ utf8 s → b < 0x80 → b ∈ s.
Proof.
  intros Hs Hb Hlow. induction Hs as [|c s Hc _ IH]; [by apply elem_of_nil in Hb|]. rewrite utf8_cons in Hb.
  apply elem_of_app in Hb as [Hb|Hb]; [|right; by apply IH]. by rewrite (encode_low c b) //; left.
Qed.

Lemma last_encode c b : is_char c = true → last (encode c) = Some b → b < 0x80 → c = b.
Proof. intros Hc [l Hl]%last_Some. apply encode_low; [done|]. rewrite Hl. set_solver. Qed.

Lemma last_utf8 s b : Forall (λ c, is_char c = true) s → b < 0x80 → last (utf8 s) = Some b → last s = Some b.
Proof.
  intros Hs Hb. destruct s as [|c s _] using rev_ind; [done|]. apply Forall_app in Hs as [_ Hc]. apply (Forall_singleton (λ c, is_char c = true)) in Hc.
  rewrite utf8_app last_snoc last_app. unfold utf8 at 1. simpl. rewrite app_nil_r.
  destruct (last (encode c)) as [b'|] eqn:Hl; [|apply last_None in Hl; by pose proof (encode_length c) as Hlen; rewrite Hl in Hlen; simpl in Hlen; lia].
  intros [= ->]. by rewrite (last_encode c b).
Qed.

Lemma first_line_text text rest : text_ok text → first_line (line_bytes text ++ rest) = (line_bytes text, rest).
Proof.
  intros (Hc & Hn & _). unfold line_bytes. rewrite -(assoc_L (++)). rewrite first_line_app; [done|].
  apply position_None. intros b Hb. apply Z.eqb_neq. intros ->. apply Hn. by apply utf8_low.
Qed.

Lemma pop_if_snoc b line : pop_if b (line ++ [b]) = line.
Proof. unfold pop_if. rewrite last_snoc bool_decide_true //. apply removelast_last. Qed.

Lemma pop_if_other b line : last line ≠ Some b → pop_if b line = line.
Proof. unfold pop_if. intros. by rewrite bool_decide_false. Qed.

Lemma read_line_text reader text rest : well_cut reader → text_ok text → reader_bytes reader = line_bytes text ++ rest →
  ∃ reader', read_trace_jsonl_line reader = Ok (Some (text, reader')) ∧ well_cut reader' ∧ reader_bytes reader' = rest.
Proof.
  intros Hr Ht Hb. pose proof (read_raw_line_spec reader [] Hr eq_refl eq_refl) as Hspec. rewrite Hb first_line_text // in Hspec.
  cbn [app] in Hspec. destruct Ht as (Hc & _ & Hlast & Hlen). unfold fits in Hspec.
  rewrite (proj2 (Z.leb_le _ _)) in Hspec; [|unfold line_bytes; rewrite length_app; cbn [length]; lia].
  rewrite bool_decide_false in Hspec; [|by unfold line_bytes; destruct (utf8 text)].
  destruct Hspec as (reader' & Hline & Hrest & Hw). exists reader'. split_and!; [|done..].
  unfold read_trace_jsonl_line. rewrite Hline. cbn. unfold line_bytes. rewrite pop_if_snoc pop_if_other; [|by intros ?%last_utf8].
  by rewrite from_utf8_utf8.
Qed.

(** A loop over lines that are given. *)
Fixpoint fold_lines {S} (body : S → str → result TraceError S) (s : S) (lines : list str) : result TraceError S :=
  match lines with
  | [] => Ok s
  | line :: lines => s ← body s line; fold_lines body s lines
  end.

Lemma for_lines_file {S} (body : S → str → result TraceError S) lines reader s fuel :
  Forall text_ok lines → well_cut reader → reader_bytes reader = concat (line_bytes <$> lines) →
  (length lines < fuel)%nat → for_lines body fuel reader s = Some (fold_lines body s lines).
Proof.
  intros Hl. revert reader s fuel. induction Hl as [|text lines Ht _ IH]; intros reader s [|fuel] Hr Hb Hf; try (simpl in Hf; lia).
  - apply well_cut_bytes in Hb as ->; [|done]. done.
  - cbn [fmap list_fmap concat] in Hb. destruct (read_line_text reader text _ Hr Ht Hb) as (reader' & Hline & Hr' & Hb').
    cbn [for_lines fold_lines]. rewrite Hline. destruct (body s text) as [s'|e]; [|done]. apply IH; [done..|]. simpl in Hf. lia.
Qed.

Lemma fold_lines_app {S} (body : S → str → result TraceError S) s a b :
  fold_lines body s (a ++ b) = s ← fold_lines body s a; fold_lines body s b.
Proof. revert s. induction a as [|line a IH]; intros s; [done|]. cbn [app fold_lines]. destruct (body s line); [apply IH|done]. Qed.

(** ** Recording *)

(** What the session said until the recording stops listening. *)
Fixpoint heard (duration : Z) (rounds : list TraceRound) : list byte :=
  match rounds with
  | [] => []
  | round :: rounds =>
    if (duration <=? rd_head round) || (duration <=? rd_now round) then []
    else match rd_read round with
    | TraceBytes bytes => bytes ++ heard duration rounds
    | TraceIdle => heard duration rounds
    | TraceEof | TraceReadError => []
    end
  end.

Definition read_ok (round : TraceRound) : Prop :=
  match rd_read round with
  | TraceBytes bytes => Forall is_byte bytes ∧ Z.of_nat (length bytes) ≤ TRACE_BUFFER
  | _ => True
  end.

(** The output events of pieces of output with their times. *)
Fixpoint outputs (k : Z) (pieces : list (Z * list byte)) : list TraceEvent :=
  match pieces with
  | [] => []
  | (t, bytes) :: pieces =>
    TraceOutput k t (Z.of_nat (length bytes)) (hex_encode bytes) :: outputs (saturating_add u64_max k 1) pieces
  end.
Fixpoint count_from (k : Z) (pieces : list (Z * list byte)) : Z :=
  match pieces with [] => k | _ :: pieces => count_from (saturating_add u64_max k 1) pieces end.

Definition piece_ok (piece : Z * list byte) : Prop := Forall is_byte piece.2 ∧ Z.of_nat (length piece.2) ≤ TRACE_BUFFER.
Definition said (pieces : list (Z * list byte)) : list byte := concat (snd <$> pieces).

Lemma trace_loop_pieces duration max_bytes rounds raw k events reason raw' k' :
  0 ≤ raw → Forall read_ok rounds → trace_loop duration max_bytes rounds raw k = Some (Ok (events, reason, raw', k')) →
  ∃ pieces, events = outputs k pieces ∧ k' = count_from k pieces ∧ Forall piece_ok pieces ∧
    said pieces = take (Z.to_nat (max_bytes - raw)) (heard duration rounds) ∧ raw' = raw + Z.of_nat (length (said pieces)).
Proof.
  intros Hraw Hrounds. revert raw k events Hraw. induction Hrounds as [|round rounds Hr _ IH]; intros raw k events Hraw; [done|].
  assert (∀ out : list byte, ∃ pieces : list (Z * list byte), [] = outputs k pieces ∧ k = count_from k pieces ∧ Forall piece_ok pieces ∧
    said pieces = take 0 out ∧ raw = raw + Z.of_nat (length (said pieces))) as Hnone.
  { intros out. exists []. split_and!; [done..|]. simpl. lia. }
  cbn [trace_loop heard]. destruct (_ || _); [intros [= <- _ <- <-]; rewrite take_nil; apply (Hnone [])|].
  unfold read_ok in Hr. destruct (rd_read round) as [|bytes| |].
  - intros [= <- _ <- <-]. rewrite take_nil. apply (Hnone []).
  - destruct Hr as [Hb Hlen]. destruct (Z.eqb_spec (saturating_sub max_bytes raw) 0) as [Hz|Hz].
    { intros [= <- _ <- <-]. unfold saturating_sub in Hz. rewrite (_ : Z.to_nat (max_bytes - raw) = 0%nat); [|lia]. apply Hnone. }
    assert (saturating_sub max_bytes raw = max_bytes - raw ∧ raw < max_bytes) as [-> Hlt] by (unfold saturating_sub in *; lia).
    set (n := Z.of_nat (length bytes)) in *. set (m := Z.to_nat (max_bytes - raw)).
    destruct ((_ <? n) || _) eqn:Hstop.
    + intros [= <- _ <- <-]. assert (Z.min n (max_bytes - raw) = max_bytes - raw) as -> by lia. fold m.
      exists [(rd_elapsed round, take m bytes)]. cbn [outputs count_from]. unfold said. cbn [fmap list_fmap concat snd].
      rewrite app_nil_r length_take take_app_le; [|lia]. rewrite Nat.min_l; [|lia]. unfold m. rewrite Z2Nat.id; [|lia].
      split_and!; [done..| |done|lia]. constructor; [|done]. split; cbn [snd]; [by apply Forall_take|]. rewrite length_take. lia.
    + assert (Z.min n (max_bytes - raw) = n) as -> by lia. unfold n. rewrite Nat2Z.id take_ge // -/n.
      destruct (trace_loop _ _ _ _ _) as [[[[[events' reason'] raw1] k1]|]|] eqn:Hrun; [|done..]. intros [= <- <- <- <-].
      apply IH in Hrun as (pieces & -> & -> & Hp & Hsaid & ->); [|lia].
      exists ((rd_elapsed round, bytes) :: pieces). unfold said in *. cbn [outputs count_from fmap list_fmap concat snd].
      split_and!; [done..|by constructor| |rewrite length_app; lia].
      rewrite Hsaid take_app_ge; [|lia]. do 2 f_equal. lia.
  - by apply IH.
  - done.
Qed.

(** ** Replaying what was recorded *)

Definition piece_bytes (pieces : list (Z * list byte)) : Z := Z.of_nat (length (said pieces)).
Definition replayed (s : Replay) : list byte := concat (ch_bytes <$> rp_chunks s).

(** A state between the start and the end that has kept the count of what it saw. *)
Definition under_way (s : Replay) : Prop :=
  rp_start_seen s = true ∧ rp_end_seen s = false ∧ rp_replayed_bytes s = rp_total_bytes s ∧
  rp_total_bytes s = Z.of_nat (length (replayed s)).

Lemma output_fields k t n digits (event := field_of (fields (TraceOutput k t n digits))) :
  required_trace_str event (lit "direction") = Ok (lit "stdout") ∧
  (∀ check, check_optional_u64 event (lit "chunk_index") check = check k) ∧
  required_trace_u64 event (lit "elapsed_ms") = Ok t ∧ required_trace_str event (lit "bytes_hex") = Ok digits ∧
  required_trace_u64 event (lit "len") = Ok n.
Proof. by split_and!. Qed.

Lemma end_fields t reason n k (event := field_of (fields (TraceEnd t reason n k))) :
  (∀ check, check_optional_u64 event (lit "chunks_recorded") check = check k) ∧
  (∀ check, check_optional_u64 event (lit "bytes_recorded") check = check n).
Proof. done. Qed.

Lemma replay_output_recorded timing s t bytes : under_way s → piece_ok (t, bytes) →
  0 ≤ rp_expected_chunk_index s < MAX_TRACE_REPLAY_CHUNKS → pace timing (rp_previous_elapsed_ms s) t →
  rp_total_bytes s + Z.of_nat (length bytes) ≤ MAX_TRACE_REPLAY_TOTAL_BYTES →
  replay_output_event timing s (field_of (fields (TraceOutput (rp_expected_chunk_index s) t (Z.of_nat (length bytes)) (hex_encode bytes))))
  = Ok (after_output s t bytes).
Proof.
  intros (Hs & He & _) [Hb Hlen] Hk [Ht Hpace] Htotal. cbn [snd] in *.
  destruct (output_fields (rp_expected_chunk_index s) t (Z.of_nat (length bytes)) (hex_encode bytes)) as (F1 & F2 & F3 & F4 & F5).
  unfold replay_output_event, MAX_TRACE_REPLAY_CHUNK_BYTES, TRACE_BUFFER in *. rewrite Hs He F1 F2 F3 F4 F5 Z.eqb_refl.
  cbn [negb bail_if mbind result_bind bool_decide]. rewrite bool_decide_true //. cbn [negb bail_if mbind result_bind].
  rewrite (proj2 (Z.leb_gt _ _)); [|lia]. rewrite (proj2 (Z.ltb_ge t _)) // hex_encode_len //. cbn [bail_if mbind result_bind].
  rewrite (proj2 (Z.ltb_ge _ (Z.of_nat _))); [|lia]. rewrite Z.eqb_refl. cbn [negb bail_if mbind result_bind].
  rewrite (proj2 (Z.ltb_ge _ (saturating_add _ _ _))); [|unfold saturating_add; lia].
  rewrite hex_decode_encode; [|done|unfold MAX_TRACE_REPLAY_CHUNK_BYTES; lia]. cbn [bail_if mbind result_bind].
  unfold after_output. rewrite Hs He. destruct timing; [|done]. cbn [andb]. rewrite (proj2 (Z.ltb_ge _ _)); [done|]. by apply Hpace.
Qed.

(** What is accepted of a recorded event is within the limits. *)
Lemma replay_output_limits timing s t bytes s' : Forall is_byte bytes → rp_total_bytes s ≤ MAX_TRACE_REPLAY_TOTAL_BYTES →
  replay_output_event timing s (field_of (fields (TraceOutput (rp_expected_chunk_index s) t (Z.of_nat (length bytes)) (hex_encode bytes)))) = Ok s' →
  rp_expected_chunk_index s < MAX_TRACE_REPLAY_CHUNKS ∧ pace timing (rp_previous_elapsed_ms s) t ∧
  rp_total_bytes s + Z.of_nat (length bytes) ≤ MAX_TRACE_REPLAY_TOTAL_BYTES.
Proof.
  intros Hb Hcap (_ & t' & bytes' & _ & Ht & Hlen & Hk & Hpace & _ & Hsum)%replay_output_Ok.
  destruct (output_fields (rp_expected_chunk_index s) t (Z.of_nat (length bytes)) (hex_encode bytes)) as (_ & _ & F3 & F4 & F5).
  rewrite (required_optional _ _ _ F3) in Ht. injection Ht as <-.
  assert (Z.of_nat (length bytes') = Z.of_nat (length bytes)) as Hn.
  { unfold trace_output_event_len in Hlen. rewrite F4 in Hlen. cbn [mbind result_bind] in Hlen.
    rewrite hex_encode_len // in Hlen. cbn [mbind result_bind] in Hlen. unfold required_trace_u64 in F5.
    destruct (field_of _ (lit "len")) as [v|]; [|done]. cbn in F5, Hlen. destruct (as_u64 v) as [n|]; [|done].
    injection F5 as ->. cbn in Hlen. rewrite Z.eqb_refl in Hlen. cbn in Hlen. congruence. }
  rewrite Hn in Hsum. split_and!; [done..|]. unfold saturating_add, MAX_TRACE_REPLAY_TOTAL_BYTES, DEFAULT_TRACE_MAX_BYTES, u64_max in *. lia.
Qed.

Lemma after_output_under_way s t bytes : under_way s → rp_total_bytes s + Z.of_nat (length bytes) ≤ MAX_TRACE_REPLAY_TOTAL_BYTES →
  let s' := after_output (with_line s) t bytes in
  under_way s' ∧ rp_total_bytes s' = rp_total_bytes s + Z.of_nat (length bytes) ∧ replayed s' = replayed s ++ bytes.
Proof.
  intros (H1 & H2 & H3 & H4) Hle. assert (replayed (after_output (with_line s) t bytes) = replayed s ++ bytes) as Hr.
  { unfold replayed, after_output. cbn [rp_chunks with_line]. by rewrite fmap_app concat_app /= app_nil_r. }
  assert (saturating_add u64_max (rp_total_bytes s) (Z.of_nat (length bytes)) = rp_total_bytes s + Z.of_nat (length bytes)) as Hadd.
  { unfold saturating_add. rewrite Z.min_r //. etrans; [exact Hle|done]. }
  unfold under_way. rewrite Hr length_app. unfold after_output. cbn -[Z.of_nat saturating_add u64_max]. rewrite H3 Hadd.
  split_and!; [done..|lia|done|done].
Qed.

Section recorded.
Context (from_str : str → option Value) (to_string : TraceEvent → str) (timing : bool).

(** A line of the file parses to the fields of its event. *)
Definition line_reads (e : TraceEvent) : Prop :=
  text_ok (to_string e) ∧ forallb is_whitespace (to_string e) = false ∧ from_str (to_string e) = Some (field_of (fields e)).

Lemma replay_line_reads s e : line_reads e →
  replay_line from_str timing s (to_string e) =
  match e with
  | TraceStart _ _ _ _ _ _ _ _ _ => replay_start_event (with_line s) (field_of (fields e))
  | TraceOutput _ _ _ _ => replay_output_event timing (with_line s) (field_of (fields e))
  | TraceEnd _ _ _ _ => replay_end_event (with_line s) (field_of (fields e))
  end.
Proof. intros (_ & Hblank & Hjson). unfold replay_line. rewrite Hblank Hjson. by destruct e. Qed.

Lemma fold_outputs pieces s : under_way s → Forall piece_ok pieces → Forall line_reads (outputs (rp_expected_chunk_index s) pieces) →
  0 ≤ rp_expected_chunk_index s → rp_expected_chunk_index s + Z.of_nat (length pieces) ≤ MAX_TRACE_REPLAY_CHUNKS →
  rp_total_bytes s + piece_bytes pieces ≤ MAX_TRACE_REPLAY_TOTAL_BYTES →
  Sorted (pace timing) (rp_previous_elapsed_ms s :: (fst <$> pieces)) →
  ∃ s', fold_lines (replay_line from_str timing) s (to_string <$> outputs (rp_expected_chunk_index s) pieces) = Ok s' ∧ under_way s' ∧
    rp_expected_chunk_index s' = count_from (rp_expected_chunk_index s) pieces ∧
    replayed s' = replayed s ++ said pieces.
Proof.
  revert s. induction pieces as [|[t bytes] pieces IH]; intros s Hs Hp Hj Hk Hcount Htotal Ht.
  - exists s. split_and!; try done. by rewrite app_nil_r.
  - inversion Hp as [|? ? Hp1 Hp2]; subst. cbn [outputs] in *. inversion Hj as [|? ? Hj1 Hj2]; subst. cbn [fmap list_fmap fst] in Ht.
    apply Sorted_inv in Ht as [Ht Hhd%HdRel_inv]. cbn [length] in Hcount.
    unfold piece_bytes, said in Htotal. cbn [fmap list_fmap concat snd] in Htotal. rewrite length_app in Htotal.
    cbn [fmap list_fmap fold_lines]. rewrite replay_line_reads //.
    rewrite (replay_output_recorded timing (with_line s)); [|done|done|simpl; lia|done|simpl; lia]. cbn [mbind result_bind].
    destruct (after_output_under_way s t bytes Hs) as (Hs' & Htotal' & Hr'); [unfold piece_bytes in *; lia|].
    assert (saturating_add u64_max (rp_expected_chunk_index s) 1 = rp_expected_chunk_index s + 1) as Hnext.
    { unfold saturating_add, MAX_TRACE_REPLAY_CHUNKS, u64_max in *. lia. }
    destruct (IH (after_output (with_line s) t bytes) Hs' Hp2 Hj2) as (s' & Hrun & Hu & Hindex & Hsaid).
    { simpl. lia. }
    { cbn [rp_expected_chunk_index after_output with_line]. lia. }
    { rewrite Htotal'. unfold piece_bytes, said. lia. }
    { done. }
    exists s'. split_and!; [exact Hrun|done|done|]. rewrite Hsaid Hr' -(assoc_L (++)). done.
Qed.

(** No more than the limits is accepted. *)
Lemma fold_outputs_limits pieces s s' : under_way s → Forall piece_ok pieces →
  Forall line_reads (outputs (rp_expected_chunk_index s) pieces) → 0 ≤ rp_expected_chunk_index s ≤ MAX_TRACE_REPLAY_CHUNKS →
  rp_total_bytes s ≤ MAX_TRACE_REPLAY_TOTAL_BYTES →
  fold_lines (replay_line from_str timing) s (to_string <$> outputs (rp_expected_chunk_index s) pieces) = Ok s' →
  rp_expected_chunk_index s + Z.of_nat (length pieces) ≤ MAX_TRACE_REPLAY_CHUNKS ∧
  rp_total_bytes s + piece_bytes pieces ≤ MAX_TRACE_REPLAY_TOTAL_BYTES ∧
  Sorted (pace timing) (rp_previous_elapsed_ms s :: (fst <$> pieces)).
Proof.
  revert s. induction pieces as [|[t bytes] pieces IH]; intros s Hs Hp Hj Hk Hcap Hrun.
  { unfold piece_bytes. simpl. split_and!; [lia..|by repeat constructor]. }
  inversion Hp as [|? ? Hp1 Hp2]; subst. cbn [outputs] in *. inversion Hj as [|? ? Hj1 Hj2]; subst.
  cbn [fmap list_fmap fold_lines] in Hrun. rewrite replay_line_reads // in Hrun.
  apply bind_Ok in Hrun as (s1 & Hrun1 & Hrun).
  destruct (replay_output_limits timing (with_line s) t bytes s1 (proj1 Hp1) Hcap Hrun1) as (Hlt & Hpace & Hsum).
  rewrite (replay_output_recorded timing (with_line s)) // in Hrun1; [|exact (conj (proj1 Hk) Hlt)]. injection Hrun1 as <-.
  destruct (after_output_under_way s t bytes Hs Hsum) as (Hs' & Htotal' & _).
  assert (saturating_add u64_max (rp_expected_chunk_index s) 1 = rp_expected_chunk_index s + 1) as Hnext.
  { cbn [rp_expected_chunk_index with_line] in Hlt. unfold saturating_add, MAX_TRACE_REPLAY_CHUNKS, u64_max in *. lia. }
  cbn [rp_expected_chunk_index rp_previous_elapsed_ms rp_total_bytes with_line] in *.
  assert (rp_expected_chunk_index (after_output (with_line s) t bytes) = rp_expected_chunk_index s + 1) as Hidx by exact Hnext.
  destruct (IH (after_output (with_line s) t bytes) Hs' Hp2 Hj2) as (H1 & H2 & H3); [rewrite Hidx; lia|lia|exact Hrun|].
  rewrite Hidx in H1. rewrite Htotal' in H2. cbn [length]. unfold piece_bytes, said in *. cbn [fmap list_fmap concat snd].
  rewrite length_app. split_and!; [lia..|]. constructor; [exact H3|by constructor].
Qed.

Lemma replay_end_recorded s t reason : under_way s → rp_total_bytes s ≤ MAX_TRACE_REPLAY_TOTAL_BYTES →
  replay_end_event s (field_of (fields (TraceEnd t reason (rp_replayed_bytes s) (rp_expected_chunk_index s)))) = Ok (with_seen s true true).
Proof.
  intros (Hs & He & Hr & _) Hle. destruct (end_fields t reason (rp_replayed_bytes s) (rp_expected_chunk_index s)) as [F1 F2].
  unfold replay_end_event. rewrite F1 F2 Hs He !Z.eqb_refl Hr. cbn. by rewrite (proj2 (Z.ltb_ge _ _)).
Qed.

Lemma fold_recorded trace_id version target protocol created duration max_bytes rows cols pieces t reason :
  let events := TraceStart trace_id version target protocol created duration max_bytes rows cols
                :: outputs 0 pieces ++ [TraceEnd t reason (piece_bytes pieces) (count_from 0 pieces)] in
  Forall line_reads events → Forall piece_ok pieces → Z.of_nat (length pieces) ≤ MAX_TRACE_REPLAY_CHUNKS →
  piece_bytes pieces ≤ MAX_TRACE_REPLAY_TOTAL_BYTES → Sorted (pace timing) (0 :: (fst <$> pieces)) →
  ∃ s, fold_lines (replay_line from_str timing) Replay_start (to_string <$> events) = Ok s ∧
    rp_start_seen s = true ∧ rp_end_seen s = true ∧ replayed s = said pieces.
Proof.
  intros events Hj Hp Hcount Htotal Ht. unfold events in *. clear events.
  apply Forall_cons in Hj as [Hj1 Hj]. apply Forall_app in Hj as [Hj2 Hj3]. apply (Forall_singleton line_reads) in Hj3.
  set (s0 := with_seen (with_line Replay_start) true false).
  destruct (fold_outputs pieces s0) as (s & Hrun & Hs & Hindex & Hsaid); [by split_and!|done..|].
  exists (with_seen (with_line s) true true). split_and!; [|done..].
  rewrite fmap_cons fmap_app. cbn [fold_lines]. rewrite replay_line_reads //. change (replay_start_event _ _) with (@Ok TraceError _ s0).
  cbn [mbind result_bind]. change 0 with (rp_expected_chunk_index s0) at 1. rewrite fold_lines_app Hrun.
  cbn [mbind result_bind fmap list_fmap fold_lines]. rewrite replay_line_reads //.
  assert (rp_total_bytes s = piece_bytes pieces) as Hbytes.
  { destruct Hs as (_ & _ & _ & ->). by rewrite Hsaid. }
  pose proof (replay_end_recorded (with_line s) t reason Hs) as Hend. cbn [rp_total_bytes rp_replayed_bytes rp_expected_chunk_index with_line] in Hend.
  change (rp_expected_chunk_index s0) with 0 in *. destruct Hs as (_ & _ & Hr & _). rewrite Hr Hbytes Hindex in Hend.
  by rewrite Hend.
Qed.

Lemma fold_recorded_limits trace_id version target protocol created duration max_bytes rows cols pieces last_event s :
  let events := TraceStart trace_id version target protocol created duration max_bytes rows cols :: outputs 0 pieces ++ [last_event] in
  Forall line_reads events → Forall piece_ok pieces →
  fold_lines (replay_line from_str timing) Replay_start (to_string <$> events) = Ok s →
  Z.of_nat (length pieces) ≤ MAX_TRACE_REPLAY_CHUNKS ∧ piece_bytes pieces ≤ MAX_TRACE_REPLAY_TOTAL_BYTES ∧
  Sorted (pace timing) (0 :: (fst <$> pieces)).
Proof.
  intros events Hj Hp. unfold events in *. clear events.
  apply Forall_cons in Hj as [Hj1 Hj]. apply Forall_app in Hj as [Hj2 _].
  set (s0 := with_seen (with_line Replay_start) true false).
  rewrite fmap_cons fmap_app. cbn [fold_lines]. rewrite replay_line_reads //. change (replay_start_event _ _) with (@Ok TraceError _ s0).
  cbn [mbind result_bind]. rewrite fold_lines_app. intros (s1 & Hrun & _)%bind_Ok.
  by apply (fold_outputs_limits pieces s0 s1).
Qed.
End recorded.

(** When the output events of a trace say that they were heard. *)
Definition recorded_times (events : list TraceEvent) : list Z :=
  omap (λ e, match e with TraceOutput _ t _ _ => Some t | _ => None end) events.

Lemma recorded_times_outputs k pieces : recorded_times (outputs k pieces) = fst <$> pieces.
Proof. revert k. induction pieces as [|[t bytes] pieces IH]; intros k; [done|]. cbn. f_equal. apply IH. Qed.

Lemma outputs_length k pieces : length (outputs k pieces) = length pieces.
Proof. revert k. induction pieces as [|[t bytes] pieces IH]; intros k; [done|]. cbn. f_equal. apply IH. Qed.

Lemma replay_writes_bytes timing t chunks : concat (snd <$> replay_writes timing t chunks) = concat (ch_bytes <$> chunks).
Proof. revert t. induction chunks as [|c chunks IH]; intros t; [done|]. cbn. f_equal. apply IH. Qed.

Lemma trace_lines to_string events : (length (to_string <$> events) < S (length (trace_file to_string events)))%nat ∧
  trace_file to_string events = concat (line_bytes <$> (to_string <$> events)).
Proof.
  unfold trace_file. rewrite -list_fmap_compose. split; [|done]. rewrite length_fmap.
  induction events as [|e events IH]; [simpl; lia|]. cbn [fmap list_fmap concat length]. rewrite length_app.
  unfold write_trace_event at 1. rewrite length_app. cbn [length]. lia.
Qed.

(** C29: a recording replays: the file that a recording writes is accepted for a replay exactly
    when the recording stayed within the limits of a replay: at most 16384 pieces of output, 16 MiB
    in all, at times that do not go back, and for a replay in time with no pause above a minute.
    What the replay then writes is what the session said, up to the byte limit of the recording
    and to where it stopped listening, however the file is buffered.  Each line of JSON is taken
    to read back as its event. *)
Theorem recording_replays from_str to_string timing trace_id version target protocol created duration max_bytes rows cols
    rounds end_elapsed events reader :
  let start := TraceStart trace_id version target protocol created duration max_bytes rows cols in
  let recorded := take (Z.to_nat max_bytes) (heard duration rounds) in
  let within_limits := Z.of_nat (length events) ≤ MAX_TRACE_REPLAY_CHUNKS + 2 ∧
    Z.of_nat (length recorded) ≤ MAX_TRACE_REPLAY_TOTAL_BYTES ∧ Sorted (pace timing) (0 :: recorded_times events) in
  trace_output start duration max_bytes rounds end_elapsed = Some (Ok events) →
  Forall read_ok rounds → Forall (line_reads from_str to_string) events →
  well_cut reader → reader_bytes reader = trace_file to_string events →
  ∃ outcome, replay_trace from_str timing reader = Some outcome ∧
    match outcome with
    | Ok writes => within_limits ∧ concat (snd <$> writes) = recorded
    | Err _ => ¬ within_limits
    end.
Proof.
  intros start recorded within_limits Hrun Hrounds Hj Hr Hfile. unfold trace_output in Hrun. destruct (max_bytes =? 0); [done|].
  destruct (trace_loop _ _ _ _ _) as [[[[[events' reason] raw] k]|]|] eqn:Hloop; [|done..]. injection Hrun as <-.
  apply trace_loop_pieces in Hloop as (pieces & -> & -> & Hp & Hsaid & ->); [|done..]. rewrite Z.sub_0_r -/recorded in Hsaid.
  set (events := start :: outputs 0 pieces ++ _) in *.
  assert (Forall text_ok (to_string <$> events)) as Htext by (apply Forall_fmap; eapply Forall_impl; [exact Hj|by intros e [? _]]).
  destruct (trace_lines to_string events) as [Hfuel Hlines].
  assert (within_limits ↔ Z.of_nat (length pieces) ≤ MAX_TRACE_REPLAY_CHUNKS ∧ piece_bytes pieces ≤ MAX_TRACE_REPLAY_TOTAL_BYTES ∧
    Sorted (pace timing) (0 :: (fst <$> pieces))) as Hlimits.
  { unfold within_limits, piece_bytes. rewrite Hsaid. unfold events, recorded_times. cbn [length omap list_omap].
    rewrite omap_app -/(recorded_times _) recorded_times_outputs app_nil_r length_app outputs_length. simpl.
    split; intros (? & ? & ?); (split_and!; [lia|done|done]). }
  unfold replay_trace, validate_trace_replay. rewrite Hfile (for_lines_file _ (to_string <$> events)) //; [|by rewrite Hfile].
  destruct (fold_lines (replay_line from_str timing) Replay_start (to_string <$> events)) as [s|e] eqn:Hfold.
  - apply fold_recorded_limits in Hfold as Hin; [|exact Hj|done].
    destruct (fold_recorded from_str to_string timing trace_id version target protocol created duration max_bytes rows cols pieces
      end_elapsed reason) as (s' & Hfold' & Hs & He & Hreplayed); [exact Hj|by destruct Hin as (? & ? & ?)..|].
    assert (Ok s = Ok s' :> result TraceError _) as [= ->] by (rewrite -Hfold; exact Hfold').
    cbn. rewrite Hs He. cbn. eexists. split; [done|]. split; [by apply Hlimits|].
    rewrite replay_writes_bytes -/(replayed s'). by rewrite Hreplayed Hsaid.
  - cbn. eexists. split; [done|]. intros (H1 & H2 & H3)%Hlimits.
    destruct (fold_recorded from_str to_string timing trace_id version target protocol created duration max_bytes rows cols pieces
      end_elapsed reason) as (s' & Hfold' & _); [exact Hj|done..|].
    assert (Err e = Ok s') as ? by (rewrite -Hfold; exact Hfold'). done.
Qed.
