(* ===== verification/TraceSummary.v ===== *)
(** The summary of a trace file ([print_trace_info], [client.rs]): what it tells of any file, and
    that of a file that is accepted for a replay it tells the chunks and bytes of the replay. *)
From stdpp Require Import sorting.
From S2P Require Import Prelude Utf8 Text Sanitize Protocol TraceFile TraceReplay.

(** ** Model *)

Record TraceFileSummary : Set := {
  ts_path : str;
  ts_schema_version : option str;
  ts_format : option str;
  ts_trace_id : option str;
  ts_producer : option str;
  ts_client_version : option str;
  ts_client_protocol_version : option Z;
  ts_target : option str;
  ts_created_at_unix_ms : option Z;
  ts_duration_ms : option Z;
  ts_max_bytes : option Z;
  ts_rows : option Z;
  ts_cols : option Z;
  ts_raw_stream_policy : option str;
  ts_event_count : Z;
  ts_output_chunks : Z;
  ts_output_bytes : Z;
  ts_first_output_elapsed_ms : option Z;
  ts_last_output_elapsed_ms : option Z;
  ts_end_elapsed_ms : option Z;
  ts_end_reason : option str;
  ts_end_bytes_recorded : option Z;
  ts_end_chunks_recorded : option Z;
  ts_unknown_events : Z;
}.

Definition TraceFileSummary_default (path : str) : TraceFileSummary := {|
  ts_path := path; ts_schema_version := None; ts_format := None; ts_trace_id := None; ts_producer := None;
  ts_client_version := None; ts_client_protocol_version := None; ts_target := None; ts_created_at_unix_ms := None;
  ts_duration_ms := None; ts_max_bytes := None; ts_rows := None; ts_cols := None; ts_raw_stream_policy := None;
  ts_event_count := 0; ts_output_chunks := 0; ts_output_bytes := 0; ts_first_output_elapsed_ms := None;
  ts_last_output_elapsed_ms := None; ts_end_elapsed_ms := None; ts_end_reason := None; ts_end_bytes_recorded := None;
  ts_end_chunks_recorded := None; ts_unknown_events := 0 |}.

(** The counters, the fields of the start event, those of the output and those of the end. *)
Definition with_counts (s : TraceFileSummary) (event_count unknown_events : Z) : TraceFileSummary := {|
  ts_path := ts_path s; ts_schema_version := ts_schema_version s; ts_format := ts_format s; ts_trace_id := ts_trace_id s;
  ts_producer := ts_producer s; ts_client_version := ts_client_version s;
  ts_client_protocol_version := ts_client_protocol_version s; ts_target := ts_target s;
  ts_created_at_unix_ms := ts_created_at_unix_ms s; ts_duration_ms := ts_duration_ms s; ts_max_bytes := ts_max_bytes s;
  ts_rows := ts_rows s; ts_cols := ts_cols s; ts_raw_stream_policy := ts_raw_stream_policy s; ts_event_count := event_count;
  ts_output_chunks := ts_output_chunks s; ts_output_bytes := ts_output_bytes s;
  ts_first_output_elapsed_ms := ts_first_output_elapsed_ms s; ts_last_output_elapsed_ms := ts_last_output_elapsed_ms s;
  ts_end_elapsed_ms := ts_end_elapsed_ms s; ts_end_reason := ts_end_reason s;
  ts_end_bytes_recorded := ts_end_bytes_recorded s; ts_end_chunks_recorded := ts_end_chunks_recorded s;
  ts_unknown_events := unknown_events |}.

Definition unknown_event (s : TraceFileSummary) : TraceFileSummary :=
  with_counts s (ts_event_count s) (saturating_add u64_max (ts_unknown_events s) 1).

Definition summarize_start (s : TraceFileSummary) (event : Value) : TraceFileSummary := {|
  ts_path := ts_path s;
  ts_schema_version := optional_trace_string event (lit "schema_version");
  ts_format := optional_trace_string event (lit "format");
  ts_trace_id := optional_trace_string event (lit "trace_id");
  ts_producer := optional_trace_string event (lit "producer");
  ts_client_version := optional_trace_string event (lit "client_version");
  ts_client_protocol_version := optional_trace_u64 event (lit "client_protocol_version");
  ts_target := optional_trace_string event (lit "target");
  ts_created_at_unix_ms := optional_trace_u64 event (lit "created_at_unix_ms");
  ts_duration_ms := optional_trace_u64 event (lit "duration_ms");
  ts_max_bytes := optional_trace_u64 event (lit "max_bytes");
  ts_rows := optional_trace_u64 event (lit "rows");
  ts_cols := optional_trace_u64 event (lit "cols");
  ts_raw_stream_policy := optional_trace_string event (lit "raw_stream_policy");
  ts_event_count := ts_event_count s; ts_output_chunks := ts_output_chunks s; ts_output_bytes := ts_output_bytes s;
  ts_first_output_elapsed_ms := ts_first_output_elapsed_ms s; ts_last_output_elapsed_ms := ts_last_output_elapsed_ms s;
  ts_end_elapsed_ms := ts_end_elapsed_ms s; ts_end_reason := ts_end_reason s;
  ts_end_bytes_recorded := ts_end_bytes_recorded s; ts_end_chunks_recorded := ts_end_chunks_recorded s;
  ts_unknown_events := ts_unknown_events s |}.

Definition option_or {A} (o p : option A) : option A := match o with Some _ => o | None => p end.

Definition summarize_output (s : TraceFileSummary) (event : Value) : TraceFileSummary :=
  match trace_output_event_len event with
  | Err _ => unknown_event s
  | Ok len =>
    let elapsed_ms := optional_trace_u64 event (lit "elapsed_ms") in {|
    ts_path := ts_path s; ts_schema_version := ts_schema_version s; ts_format := ts_format s; ts_trace_id := ts_trace_id s;
    ts_producer := ts_producer s; ts_client_version := ts_client_version s;
    ts_client_protocol_version := ts_client_protocol_version s; ts_target := ts_target s;
    ts_created_at_unix_ms := ts_created_at_unix_ms s; ts_duration_ms := ts_duration_ms s; ts_max_bytes := ts_max_bytes s;
    ts_rows := ts_rows s; ts_cols := ts_cols s; ts_raw_stream_policy := ts_raw_stream_policy s;
    ts_event_count := ts_event_count s;
    ts_output_chunks := saturating_add u64_max (ts_output_chunks s) 1;
    ts_output_bytes := saturating_add u64_max (ts_output_bytes s) len;
    ts_first_output_elapsed_ms :=
      if is_some elapsed_ms then option_or (ts_first_output_elapsed_ms s) elapsed_ms else ts_first_output_elapsed_ms s;
    ts_last_output_elapsed_ms := if is_some elapsed_ms then elapsed_ms else ts_last_output_elapsed_ms s;
    ts_end_elapsed_ms := ts_end_elapsed_ms s; ts_end_reason := ts_end_reason s;
    ts_end_bytes_recorded := ts_end_bytes_recorded s; ts_end_chunks_recorded := ts_end_chunks_recorded s;
    ts_unknown_events := ts_unknown_events s |}
  end.

Definition summarize_end (s : TraceFileSummary) (event : Value) : TraceFileSummary := {|
  ts_path := ts_path s; ts_schema_version := ts_schema_version s; ts_format := ts_format s; ts_trace_id := ts_trace_id s;
  ts_producer := ts_producer s; ts_client_version := ts_client_version s;
  ts_client_protocol_version := ts_client_protocol_version s; ts_target := ts_target s;
  ts_created_at_unix_ms := ts_created_at_unix_ms s; ts_duration_ms := ts_duration_ms s; ts_max_bytes := ts_max_bytes s;
  ts_rows := ts_rows s; ts_cols := ts_cols s; ts_raw_stream_policy := ts_raw_stream_policy s;
  ts_event_count := ts_event_count s; ts_output_chunks := ts_output_chunks s; ts_output_bytes := ts_output_bytes s;
  ts_first_output_elapsed_ms := ts_first_output_elapsed_ms s; ts_last_output_elapsed_ms := ts_last_output_elapsed_ms s;
  ts_end_elapsed_ms := optional_trace_u64 event (lit "elapsed_ms");
  ts_end_reason := optional_trace_string event (lit "reason");
  ts_end_bytes_recorded := optional_trace_u64 event (lit "bytes_recorded");
  ts_end_chunks_recorded := optional_trace_u64 event (lit "chunks_recorded");
  ts_unknown_events := ts_unknown_events s |}.

(** The summary with [start_seen] and [end_seen]. *)
Record Summarizing : Set := { sm_summary : TraceFileSummary; sm_start_seen : bool; sm_end_seen : bool }.

Definition with_summary (s : Summarizing) (summary : TraceFileSummary) : Summarizing :=
  {| sm_summary := summary; sm_start_seen := sm_start_seen s; sm_end_seen := sm_end_seen s |}.

Section json.
Context (from_str : str → option Value).

Definition summary_line (s : Summarizing) (line : str) : result TraceError Summarizing :=
  if forallb is_whitespace line then Ok s
  else
    let summary := sm_summary s in
    let summary := with_counts summary (saturating_add u64_max (ts_event_count summary) 1) (ts_unknown_events summary) in
    let s := with_summary s summary in
    let unknown := Ok (with_summary s (unknown_event summary)) in
    match from_str line with
    | None => unknown
    | Some event =>
      match event (lit "type") ≫= as_str with
      | None => unknown
      | Some event_type =>
        if bool_decide (event_type = lit "start") then
          if sm_start_seen s then unknown
          else Ok {| sm_summary := summarize_start summary event; sm_start_seen := true; sm_end_seen := sm_end_seen s |}
        else if bool_decide (event_type = lit "output") then Ok (with_summary s (summarize_output summary event))
        else if bool_decide (event_type = lit "end") then
          if sm_end_seen s then unknown
          else Ok {| sm_summary := summarize_end summary event; sm_start_seen := sm_start_seen s; sm_end_seen := true |}
        else unknown
      end
    end.

Definition trace_file_summary (path : str) (reader : BufRead) : option (result TraceError TraceFileSummary) :=
  r ← for_lines summary_line (S (length (reader_bytes reader))) reader
        {| sm_summary := TraceFileSummary_default path; sm_start_seen := false; sm_end_seen := false |};
  Some (s ← r; Ok (sm_summary s)).
End json.

Definition push_trace_summary_string (key : str) (value : option str) : str :=
  key ++ [0x09] ++ terminal_text (default (lit "unknown") value) ++ [0x0a].
Definition push_trace_summary_u64 (key : str) (value : option Z) : str :=
  key ++ [0x09] ++ match value with Some value => dec value | None => lit "unknown" end ++ [0x0a].

Definition trace_summary_text (s : TraceFileSummary) : str :=
  push_trace_summary_string (lit "path") (Some (ts_path s))
  ++ push_trace_summary_string (lit "format") (ts_format s)
  ++ push_trace_summary_string (lit "schema_version") (ts_schema_version s)
  ++ push_trace_summary_string (lit "trace_id") (ts_trace_id s)
  ++ push_trace_summary_string (lit "producer") (ts_producer s)
  ++ push_trace_summary_string (lit "client_version") (ts_client_version s)
  ++ push_trace_summary_u64 (lit "client_protocol_version") (ts_client_protocol_version s)
  ++ push_trace_summary_string (lit "target") (ts_target s)
  ++ push_trace_summary_u64 (lit "created_at_unix_ms") (ts_created_at_unix_ms s)
  ++ push_trace_summary_u64 (lit "duration_ms") (ts_duration_ms s)
  ++ push_trace_summary_u64 (lit "max_bytes") (ts_max_bytes s)
  ++ push_trace_summary_u64 (lit "rows") (ts_rows s)
  ++ push_trace_summary_u64 (lit "cols") (ts_cols s)
  ++ push_trace_summary_string (lit "raw_stream_policy") (ts_raw_stream_policy s)
  ++ push_trace_summary_u64 (lit "event_count") (Some (ts_event_count s))
  ++ push_trace_summary_u64 (lit "output_chunks") (Some (ts_output_chunks s))
  ++ push_trace_summary_u64 (lit "output_bytes") (Some (ts_output_bytes s))
  ++ push_trace_summary_u64 (lit "first_output_elapsed_ms") (ts_first_output_elapsed_ms s)
  ++ push_trace_summary_u64 (lit "last_output_elapsed_ms") (ts_last_output_elapsed_ms s)
  ++ push_trace_summary_u64 (lit "end_elapsed_ms") (ts_end_elapsed_ms s)
  ++ push_trace_summary_string (lit "end_reason") (ts_end_reason s)
  ++ push_trace_summary_u64 (lit "end_bytes_recorded") (ts_end_bytes_recorded s)
  ++ push_trace_summary_u64 (lit "end_chunks_recorded") (ts_end_chunks_recorded s)
  ++ push_trace_summary_u64 (lit "unknown_events") (Some (ts_unknown_events s)).

(** ** A summary of what is accepted for a replay *)

Record agree (m : Summarizing) (s : Replay) : Prop := {
  ag_start : sm_start_seen m = rp_start_seen s;
  ag_end : sm_end_seen m = rp_end_seen s;
  ag_unknown : ts_unknown_events (sm_summary m) = 0;
  ag_chunks : ts_output_chunks (sm_summary m) = rp_expected_chunk_index s;
  ag_bytes : ts_output_bytes (sm_summary m) = rp_replayed_bytes s;
  ag_first : ts_first_output_elapsed_ms (sm_summary m) = head (ch_elapsed_ms <$> rp_chunks s);
  ag_last : ts_last_output_elapsed_ms (sm_summary m) = last (ch_elapsed_ms <$> rp_chunks s);
  ag_end_bytes n : ts_end_bytes_recorded (sm_summary m) = Some n → rp_end_seen s = true ∧ n = rp_replayed_bytes s;
  ag_end_chunks n : ts_end_chunks_recorded (sm_summary m) = Some n → rp_end_seen s = true ∧ n = rp_expected_chunk_index s;
}.

Lemma agree_output timing m s event s' : agree m s → replay_output_event timing s event = Ok s' →
  agree (with_summary m (summarize_output (sm_summary m) event)) s'.
Proof.
  intros [H1 H2 H3 H4 H5 H6 H7 H8 H9] (Hend & t & bytes & -> & Ht & Hlen & _)%replay_output_Ok.
  unfold summarize_output. rewrite Hlen Ht. split; cbn -[u64_max saturating_add]; try done.
  - by rewrite H4.
  - by rewrite H5.
  - rewrite H6. by destruct (rp_chunks s).
  - by rewrite fmap_app last_snoc.
  - intros n Hn. destruct (H8 n Hn). congruence.
  - intros n Hn. destruct (H9 n Hn). congruence.
Qed.

(** The number that an optional field must agree with. *)
Lemma check_optional event field check n : check_optional_u64 event field check = Ok tt → optional_trace_u64 event field = Some n → check n = Ok tt.
Proof. unfold check_optional_u64. intros H Hn. by rewrite Hn in H. Qed.

Lemma agree_end m s event s' : agree m s → replay_end_event s event = Ok s' →
  sm_end_seen m = false ∧ agree {| sm_summary := summarize_end (sm_summary m) event; sm_start_seen := sm_start_seen m; sm_end_seen := true |} s'.
Proof.
  intros [H1 H2 H3 H4 H5 H6 H7 H8 H9] Hrun. unfold replay_end_event in Hrun. inv_ok. simplify_eq. split; [congruence|].
  split; cbn; try done.
  - intros n Hn. split; [done|]. repeat match goal with x : unit |- _ => destruct x end.
    match goal with H : check_optional_u64 _ (lit "bytes_recorded") _ = _ |- _ => apply (check_optional _ _ _ n) in H; [|done]; cbn beta in H; inv_ok end.
    lia.
  - intros n Hn. split; [done|]. repeat match goal with x : unit |- _ => destruct x end.
    match goal with H : check_optional_u64 _ (lit "chunks_recorded") _ = _ |- _ => apply (check_optional _ _ _ n) in H; [|done]; cbn beta in H; inv_ok end.
    lia.
Qed.

Lemma agree_start m s event s' : agree m s → replay_start_event s event = Ok s' →
  sm_start_seen m = false ∧ agree {| sm_summary := summarize_start (sm_summary m) event; sm_start_seen := true; sm_end_seen := sm_end_seen m |} s'.
Proof.
  intros [H1 H2 H3 H4 H5 H6 H7 H8 H9] Hrun. unfold replay_start_event in Hrun. inv_ok. simplify_eq. split; [congruence|]. by split.
Qed.

Lemma agree_line from_str timing m s line s' : agree m s → replay_line from_str timing s line = Ok s' →
  ∃ m', summary_line from_str m line = Ok m' ∧ agree m' s'.
Proof.
  intros Hag Hrun. unfold replay_line in Hrun. unfold summary_line.
  assert (agree m (with_line s)) as Hag' by (by destruct Hag).
  destruct (forallb _ line); [injection Hrun as <-; by exists m|]. apply bind_Ok in Hrun as (event & Hj%ok_or_Ok & Hrun).
  rewrite Hj. apply bind_Ok in Hrun as (event_type & Ht%ok_or_Ok & Hrun). rewrite Ht.
  set (c := with_counts _ _ _). set (m1 := with_summary m c). assert (agree m1 (with_line s)) as Hag1 by (by destruct Hag').
  change c with (sm_summary m1). clearbody m1.
  case_bool_decide; [|case_bool_decide; [|case_bool_decide; [|done]]].
  - destruct (agree_start m1 _ _ _ Hag1 Hrun) as [-> Hs]. by eexists.
  - pose proof (agree_output timing m1 _ _ _ Hag1 Hrun). by eexists.
  - destruct (agree_end m1 _ _ _ Hag1 Hrun) as [-> Hs]. by eexists.
Qed.

Lemma for_lines_agree from_str timing fuel reader m s s' : agree m s →
  for_lines (replay_line from_str timing) fuel reader s = Some (Ok s') →
  ∃ m', for_lines (summary_line from_str) fuel reader m = Some (Ok m') ∧ agree m' s'.
Proof.
  revert reader m s. induction fuel as [|fuel IH]; intros reader m s Hag; [done|]. cbn [for_lines].
  destruct (read_trace_jsonl_line reader) as [[[line r]|]|e]; [|intros [= <-]; by exists m|done].
  destruct (replay_line from_str timing s line) as [s1|e] eqn:Hl; [|done].
  destruct (agree_line _ _ _ _ _ _ Hag Hl) as (m1 & -> & Hag1). by apply IH.
Qed.

(** The summary of a trace that is accepted for a replay tells what the replay does: how many
    chunks and bytes and the times of the first and the last, no event unknown, and if the end
    event states counts they are the same. *)
Theorem summary_tells_replay from_str timing path reader chunks total :
  validate_trace_replay from_str timing reader = Some (Ok (chunks, total)) →
  ∃ summary, trace_file_summary from_str path reader = Some (Ok summary) ∧ ts_unknown_events summary = 0 ∧
    ts_output_chunks summary = Z.of_nat (length chunks) ∧ ts_output_bytes summary = total ∧
    ts_first_output_elapsed_ms summary = head (ch_elapsed_ms <$> chunks) ∧
    ts_last_output_elapsed_ms summary = last (ch_elapsed_ms <$> chunks) ∧
    (∀ n, ts_end_bytes_recorded summary = Some n → n = total) ∧
    (∀ n, ts_end_chunks_recorded summary = Some n → n = Z.of_nat (length chunks)).
Proof.
  unfold validate_trace_replay, trace_file_summary. intros Hrun.
  destruct (for_lines (replay_line _ _) _ _ _) as [[s|e]|] eqn:Hlines; [|done..].
  eapply (for_lines_agree _ _ _ _ {| sm_summary := TraceFileSummary_default path; sm_start_seen := false; sm_end_seen := false |})
    in Hlines as Hsum; [|by split]. destruct Hsum as (m & -> & [_ _ H3 H4 H5 H6 H7 H8 H9]).
  apply (for_lines_ok (replay_ok timing)) in Hlines as [Hindex _ Htotal _ Hreplayed _ _ _];
    [|intros; by eapply line_ok|apply replay_ok_start].
  cbn in Hrun. injection Hrun as Hrun. inv_ok. simplify_eq. eexists. split; [done|]. split_and!; [done|congruence|congruence|done|done|..].
  - intros n [_ ->]%H8. done.
  - intros n [_ ->]%H9. done.
Qed.

(** ** The rows of the text *)

Definition shown_string (value : option str) : str := terminal_text (default (lit "unknown") value).
Definition shown_u64 (value : option Z) : str := match value with Some value => dec value | None => lit "unknown" end.

(** The rows, as a table. *)
Definition summary_rows (s : TraceFileSummary) : list (str * str) := [
  (lit "path", shown_string (Some (ts_path s))); (lit "format", shown_string (ts_format s));
  (lit "schema_version", shown_string (ts_schema_version s)); (lit "trace_id", shown_string (ts_trace_id s));
  (lit "producer", shown_string (ts_producer s)); (lit "client_version", shown_string (ts_client_version s));
  (lit "client_protocol_version", shown_u64 (ts_client_protocol_version s)); (lit "target", shown_string (ts_target s));
  (lit "created_at_unix_ms", shown_u64 (ts_created_at_unix_ms s)); (lit "duration_ms", shown_u64 (ts_duration_ms s));
  (lit "max_bytes", shown_u64 (ts_max_bytes s)); (lit "rows", shown_u64 (ts_rows s)); (lit "cols", shown_u64 (ts_cols s));
  (lit "raw_stream_policy", shown_string (ts_raw_stream_policy s)); (lit "event_count", shown_u64 (Some (ts_event_count s)));
  (lit "output_chunks", shown_u64 (Some (ts_output_chunks s))); (lit "output_bytes", shown_u64 (Some (ts_output_bytes s)));
  (lit "first_output_elapsed_ms", shown_u64 (ts_first_output_elapsed_ms s));
  (lit "last_output_elapsed_ms", shown_u64 (ts_last_output_elapsed_ms s)); (lit "end_elapsed_ms", shown_u64 (ts_end_elapsed_ms s));
  (lit "end_reason", shown_string (ts_end_reason s)); (lit "end_bytes_recorded", shown_u64 (ts_end_bytes_recorded s));
  (lit "end_chunks_recorded", shown_u64 (ts_end_chunks_recorded s)); (lit "unknown_events", shown_u64 (Some (ts_unknown_events s)))].

Definition cell (s : str) : Prop := 0x09 ∉ s ∧ 0x0a ∉ s.

Lemma plain_cell s : Forall (λ ch, plain_char ch = true) s → cell s.
Proof. intros Hs. split; intros H; rewrite Forall_forall in Hs; by apply Hs in H. Qed.

Lemma shown_string_cell value : cell (shown_string value).
Proof. apply plain_cell, terminal_text_plain. Qed.

Lemma dec_plain_chars n : Forall (λ ch, plain_char ch = true) (dec n).
Proof.
  rewrite (_ : dec n = dec (Z.of_N (Z.to_N n))); [|unfold dec; by rewrite N2Z.id].
  pose proof (dec_digits (Z.of_N (Z.to_N n)) (N2Z.is_nonneg _)) as Hd. rewrite forallb_forall in Hd.
  apply Forall_forall. intros c Hc%list_elem_of_In%Hd. unfold ascii_digit, plain_char, is_char, is_c0_or_c1, within in *. lia.
Qed.

Lemma shown_u64_cell value : cell (shown_u64 value).
Proof. apply plain_cell. destruct value; [apply dec_plain_chars|by repeat constructor]. Qed.

Lemma split_on_none sep p : sep ∉ p → split_on sep p = [p].
Proof.
  induction p as [|b p IH]; intros H; [done|]. cbn [split_on]. apply not_elem_of_cons in H as [Hb H].
  by rewrite (proj2 (Z.eqb_neq _ _)) // IH.
Qed.

Lemma split_on_app sep p rest : sep ∉ p → split_on sep (p ++ sep :: rest) = p :: split_on sep rest.
Proof.
  induction p as [|b p IH]; intros H; cbn [app split_on]; [by rewrite Z.eqb_refl|]. apply not_elem_of_cons in H as [Hb H].
  by rewrite (proj2 (Z.eqb_neq _ _)) // IH.
Qed.

(** A row and the two cells of it. *)
Definition row_text (row : str * str) : str := row.1 ++ 0x09 :: row.2.

Lemma split_rows rows : Forall (λ row, cell row.1 ∧ cell row.2) rows →
  split_on 0x0a (concat ((λ row, row_text row ++ [0x0a]) <$> rows)) = (row_text <$> rows) ++ [[]] ∧
  Forall (λ row, split_on 0x09 (row_text row) = [row.1; row.2]) rows.
Proof.
  induction 1 as [|[key value] rows [[Hk Hk'] [Hv Hv']] _ [IH1 IH2]]; [done|]. cbn [fst snd] in *. split.
  - cbn [fmap list_fmap concat]. rewrite -(assoc_L (++)). cbn [app]. rewrite split_on_app; [by f_equal|]. unfold row_text. cbn [fst snd].
    rewrite not_elem_of_app not_elem_of_cons. done.
  - constructor; [|done]. unfold row_text. cbn [fst snd]. by rewrite split_on_app // split_on_none.
Qed.

(** The printed summary of a trace is a table that the file cannot forge: whatever strings
    the trace holds, it has the twenty-four rows of the fields in their order, and each row
    is split by its only tab into the name of the field and its value. *)
Theorem summary_text_rows s :
  split_on 0x0a (trace_summary_text s) = (row_text <$> summary_rows s) ++ [[]] ∧
  Forall (λ row, split_on 0x09 (row_text row) = [row.1; row.2]) (summary_rows s).
Proof.
  assert (trace_summary_text s = concat ((λ row, row_text row ++ [0x0a]) <$> summary_rows s)) as ->.
  { unfold trace_summary_text, summary_rows, push_trace_summary_string, push_trace_summary_u64, shown_string, shown_u64, row_text.
    cbn [fmap list_fmap concat fst snd]. rewrite ?app_nil_r -!(assoc_L (++)). done. }
  apply split_rows. unfold summary_rows.
  repeat (apply Forall_cons; split; [split; [by apply plain_cell; repeat constructor|first [apply shown_string_cell|apply shown_u64_cell]]|]).
  constructor.
Qed.
