(* ===== verification/TraceScenario.v ===== *)
(** A recording, its file, its replay and its summary, with JSON for the events of that recording. *)
From stdpp Require Import sorting.
From S2P Require Import Prelude Utf8 Text Sanitize Protocol TraceFile TraceReplay TraceSummary.

(** The lines of JSON that [serde_json] writes for these events. *)
Definition quoted (s : str) : str := 0x22 :: s ++ [0x22].
Definition json_value (j : Json) : str :=
  match j with JString s => quoted s | JU64 n => dec n | JOther => lit "null" end.
Fixpoint json_fields (fs : list (str * Json)) : str :=
  match fs with
  | [] => []
  | [(field, value)] => quoted field ++ lit ":" ++ json_value value
  | (field, value) :: fs => quoted field ++ lit ":" ++ json_value value ++ lit "," ++ json_fields fs
  end.
Definition to_string (e : TraceEvent) : str := lit "{" ++ json_fields (fields e) ++ lit "}".

(** [from_str] on the lines of some events; [None] on others. *)
Fixpoint from_str_of (events : list TraceEvent) (line : str) : option Value :=
  match events with
  | [] => None
  | e :: events => if bool_decide (to_string e = line) then Some (field_of (fields e)) else from_str_of events line
  end.

(** Two chunks, the second cut by the limit of ten bytes, with an idle round between them. *)
Definition rounds : list TraceRound := [
  {| rd_head := 10; rd_now := 10; rd_read := TraceBytes (lit "hello"); rd_elapsed := 100 |};
  {| rd_head := 101; rd_now := 101; rd_read := TraceIdle; rd_elapsed := 0 |};
  {| rd_head := 201; rd_now := 201; rd_read := TraceBytes (lit " world" ++ [0x0d; 0x0a]); rd_elapsed := 250 |}].

Definition events : list TraceEvent := [
  TraceStart (lit "id") (lit "0.1.0") (lit "main") 8 None 5000 10 24 80;
  TraceOutput 0 100 5 (lit "68656c6c6f"); TraceOutput 1 250 5 (lit "20776f726c");
  TraceEnd 251 (lit "max_bytes") 10 2].

Example rounds_recorded :
  trace_output (TraceStart (lit "id") (lit "0.1.0") (lit "main") 8 None 5000 10 24 80) 5000 10 rounds 251 = Some (Ok events).
Proof. vm_compute. done. Qed.

Definition file : list byte := trace_file to_string events.

(** The file in one buffer, and in buffers of 64 bytes. *)
Definition whole : BufRead := [Ok file].
Fixpoint cut (n : nat) (bytes : list byte) : BufRead :=
  match n with
  | O => []
  | S n => match bytes with [] => [] | _ => Ok (take 64 bytes) :: cut n (drop 64 bytes) end
  end.
Definition pieces : BufRead := cut 20 file.

Definition well_cut_b (r : BufRead) : bool := forallb (λ c, match c with Ok (_ :: _) => true | _ => false end) r.
Lemma well_cut_check r : well_cut_b r = true → well_cut r.
Proof. induction r as [|[[|b bs]|e] r IH]; try done; intros H; [constructor|]. constructor; [by exists b, bs|by apply IH]. Qed.

Definition line_reads_b (e : TraceEvent) : bool :=
  let s := to_string e in
  forallb is_char s && negb (bool_decide (0x0a ∈ s)) && negb (bool_decide (last s = Some 0x0d))
  && (Z.of_nat (length (utf8 s)) <? MAX_TRACE_JSONL_LINE_BYTES) && negb (forallb is_whitespace s).

Lemma line_reads_check es e : line_reads_b e = true → from_str_of es (to_string e) = Some (field_of (fields e)) →
  line_reads (from_str_of es) to_string e.
Proof.
  unfold line_reads_b, line_reads, text_ok. generalize (to_string e) as s. intros s Hr Hf.
  apply andb_true in Hr as [Hr H5%negb_true_iff]. apply andb_true in Hr as [Hr H4]. apply andb_true in Hr as [Hr H3%negb_true_iff].
  apply andb_true in Hr as [H1 H2%negb_true_iff]. apply bool_decide_eq_false in H2, H3. split_and!; [|done..|lia|done|done].
  apply Forall_forall. rewrite forallb_forall in H1. intros c Hc%list_elem_of_In. by apply H1.
Qed.

Lemma events_read : Forall (line_reads (from_str_of events) to_string) events.
Proof.
  unfold events at 2. repeat (apply Forall_cons; split; [apply line_reads_check; vm_compute; reflexivity|]). constructor.
Qed.

Lemma recording_replays_witness :
  ∃ writes, replay_trace (from_str_of events) true pieces = Some (Ok writes) ∧ concat (snd <$> writes) = lit "hello worl".
Proof.
  destruct (recording_replays (from_str_of events) to_string true (lit "id") (lit "0.1.0") (lit "main") 8 None 5000 10 24 80 rounds 251 events pieces)
    as ([writes|e] & Hrun & Hout).
  - exact rounds_recorded.
  - repeat constructor; try done; apply Forall_forall; intros b Hb; revert b Hb; unfold is_byte;
      (apply Forall_forall; repeat (constructor; [vm_compute; split; [discriminate|reflexivity]|]); constructor).
  - exact events_read.
  - by apply well_cut_check.
  - vm_compute. reflexivity.
  - exists writes. split; [exact Hrun|]. destruct Hout as [_ ->]. vm_compute. reflexivity.
  - destruct Hout. split_and!; [vm_compute; discriminate..|]. repeat constructor; vm_compute; discriminate.
Defined.

Lemma validation_ignores_buffering_witness :
  validate_trace_replay (from_str_of events) true whole = validate_trace_replay (from_str_of events) true pieces.
Proof.
  apply (proj2 (validation_ignores_buffering (from_str_of events) true)).
  - by apply well_cut_check.
  - by apply well_cut_check.
  - vm_compute. reflexivity.
Defined.

Definition replayed_chunks : list TraceReplayChunk := [
  {| ch_line_number := 2; ch_elapsed_ms := 100; ch_bytes := lit "hello" |};
  {| ch_line_number := 3; ch_elapsed_ms := 250; ch_bytes := lit " worl" |}].

Example pieces_validated : validate_trace_replay (from_str_of events) true pieces = Some (Ok (replayed_chunks, 10)).
Proof. vm_compute. reflexivity. Qed.

Lemma replay_within_limits_witness :
  10 = Z.of_nat (length (concat (ch_bytes <$> replayed_chunks))) ∧ Sorted (pace true) (chunk_times replayed_chunks).
Proof.
  destruct (replay_within_limits (from_str_of events) true pieces replayed_chunks 10 pieces_validated) as (_ & _ & Ht & _ & Hs).
  by split.
Defined.

Lemma summary_tells_replay_witness :
  ∃ summary, trace_file_summary (from_str_of events) (lit "trace.jsonl") pieces = Some (Ok summary) ∧
    ts_output_chunks summary = 2 ∧ ts_last_output_elapsed_ms summary = Some 250.
Proof.
  destruct (summary_tells_replay (from_str_of events) true (lit "trace.jsonl") pieces replayed_chunks 10 pieces_validated)
    as (summary & Hs & _ & Hc & _ & _ & Hl & _).
  exists summary. split; [exact Hs|split; [exact Hc|exact Hl]].
Defined.
